(* ===== verification/_CoqProject ===== *)
-Q . S2P
Prelude.v
Prog.v
Hash.v
Json.v
JsonPrint.v
Gearhash.v
Merkle.v
ByteGrouping.v
Compression.v
XorbEncoder.v
XorbDecoder.v
XorbOffsets.v
Shard.v
ShardBuild.v
ShardCodec.v
ShardFits.v
Sha256.v
Lru.v
IndexCache.v
Xorbmap.v
Storage.v
FileSystem.v
PutShard.v
Local.v
LocalCache.v
LocalClient.v
Memory.v
Usage.v
MemoryPut.v
PutFile.v
Upload.v
UploadProofs.v
UploadRun.v
UploadWitness.v
FileStore.v
Reconstruct.v
Pipeline.v
Restore.v
Plan.v
Listing.v
Auth.v
Split.v
Server.v
ServerProofs.v
ServerReads.v
UploadCache.v
UploadCacheProofs.v
UploadCacheRun.v
CasClient.v
CasClientProofs.v
CasWire.v
CasServer.v
CasCache.v
CasWitness.v
Client.v
GC.v
GCReport.v
