(* ===== verification/Prelude.v ===== *)
(** * A verification development for the Go implementation of the XET protocol

    The program stores files by their content.  A file is cut into chunks where
    a rolling hash says so; chunks are hashed, compressed and packed into xorbs;
    a shard says, for each file, which runs of chunks of which xorbs it is made
    of.  A store keeps xorbs, shards and the indexes between them, in memory or
    in a directory; a server offers it over HTTP; clients upload files through
    chunking, deduplication and concurrent uploads, and download them by asking
    for a reconstruction and reading its terms; a garbage collector removes what
    no file needs.

    ** How code becomes definitions

    Functions are functions on byte lists, records and inductive types with the
    names of the source.  Fixed-width integers are [Z] with the wrap-around
    written out ([u32], [u64], [i64]).  Code that fails returns [result]; errors
    keep what [errors.Is] can see of them ([Errorf], [Wrapf]), and what would
    panic in Go is the error [Panic].  Code with state is in the monad [prog] of
    [Prog], where an error keeps the state it left.  Goroutines are step
    relations whose runs are all interleavings ([Pipeline], [Upload],
    [Xorbmap]).  What is not in the repository is a parameter with its documented
    behaviour as a class or a hypothesis: BLAKE3, LZ4, the buffer pool, memory
    mapping, the router, [url.Parse], the network.  SHA-256, JSON, hexadecimal
    and base64 are modelled and executable.  Go's map iteration order and the
    order of equal elements under [slices.SortFunc] are parameters where they
    matter.

    ** The files, and what they show

    Formats (under [src/]):
    - [Prelude], [Prog]: notation, tactics, integers, lists; the monad and its
      triples.  [Json], [JsonPrint], [Sha256]: the standard library's.
    - [Hash]: [hash.go], [constants.go].  Hash strings round-trip.
    - [Gearhash]: [gearhash.go].  The buffered and the iterator chunker compute
      the reference cut; chunks partition the data within the size limits.
    - [Merkle]: [merkle.go].  The tree ends, and its hash binds the chunks.
    - [ByteGrouping], [Compression]: [xorb/byte_grouping.go], [compression.go],
      [chunk.go].  Every scheme decodes to the chunk.
    - [XorbEncoder], [XorbDecoder], [XorbOffsets]: [xorb/encoder.go], [xorb.go],
      [decoder.go], [validate.go], [footer.go], [chunk_range.go], [group.go].
      What is encoded is decoded and validated; what validates is bound to its
      hash; the ways to compute chunk offsets agree.
    - [Shard], [ShardBuild], [ShardCodec], [ShardFits]: [shard/shard.go],
      [validate.go], [build.go], [encode.go], [decode.go].  [Validate] is exact,
      built shards are valid, describe their files and fit the format, the
      streaming encoder and the decoder are inverse.

    Stores:
    - [Storage]: the contract of [storage/storage.go], [object.go] as a class
      with laws.  [PutShard]: [storage/putshard.go].  [Usage]: [usage.go].
    - [Memory], [MemoryPut]: [storage/memory].  The store stays content
      addressed and its index entries name shards that were accepted and have
      what the entry is for; an admitted shard was verified against its xorbs
      and is found, with the digest of the bytes its terms decode to.
    - [FileSystem], [Local], [LocalCache], [LocalClient]: [storage/local] over a
      file system with faults, with [IndexCache] ([storage/cache.go]), [Lru]
      ([internal/lru]) and [Xorbmap] ([internal/xorbmap]).  The LRU refines a
      list; mappings are never used after they are unmapped; no program over the
      backend can tell that it has caches.
    - [PutFile], [FileStore]: [storage/putfile.go].  A stored file's terms are
      the file; an empty one stores nothing, and a hash that is indexed keeps its
      entry.  [Reconstruct], [Pipeline], [Restore]: [reconstructed_file.go],
      [reconstructed_pipeline.go].  Reads and seeks are those of a reader over
      the file's bytes; the goroutines deliver in order and always end; what is
      stored is read back, or an error.
    - [Listing]: [list_files.go].  One entry per content digest, with the sizes
      of what it shares and does not.  [GC], [GCReport]: [gc.go].  A sweep loses
      nothing that is anchored, however it ends; one that reports it is done has
      removed what is dead, unless a shard was unreadable or it was a dry run,
      and then it removed no xorb.

    Server and clients:
    - [Auth]: [auth/auth.go], [issuer.go].  Tokens convey their grant.
    - [Plan], [Split]: [download/types.go], [range.go], [encode_v1.go],
      [encode_v2.go], [split_v1.go], [split_v2.go] and the planning of
      [decode_v1.go], [decode_v2.go].  A range header means what its
      grammar says; responses start, after their offset, with exactly the bytes
      it asks for and hold no chunk without one, also when split.
    - [Server], [ServerProofs], [ServerReads]: [server/server.go],
      [shard_v2.go].  Refused requests do nothing, the two shard uploads agree,
      the streamed one keeps its protocol, reconstructions answer the range.
    - [Client]: [download/decode_v1.go], [decode_v2.go], [download.go].  The
      client reads the requested bytes, or an error, and with the file's hash
      only those of the file.  A chunk read that fails with [io.EOF], because a
      cache file is short, is the exception: the reader passes it on
      ([short_cache_file_ends_reads]).
    - [Upload], [UploadProofs], [UploadRun], [UploadWitness]: [upload/upload.go],
      [adapter.go].  For every interleaving, fault and cancellation an upload
      ends, records only true locations, and its shard describes the files.
    - [UploadCache], [UploadCacheProofs], [UploadCacheRun]:
      [upload/chunk_cache.go], [cache_manager.go], [usage.go].  Cached locations
      are true, found after they are stored by a manager that knows its
      directory, and bounded.
    - [CasClient], [CasClientProofs]: [client/client.go], [auth.go], [shard.go],
      [xorb.go], [upload.go].  Retries are exact; the client keeps the promises
      [Upload] relies on.  [CasWire]: client and server agree on the streamed
      upload.  [CasServer], [CasWitness]: an upload through client, network and
      server ends with a store that put a shard placing every chunk in it.  [CasCache]: the cache of [UploadCache] behind
      the client.

    A file's theorems about the program are those whose comment carries a
    number; a witness applies each that has hypotheses to concrete data.

    ** Bounds and fuel

    Loops that are not structural take fuel computed from their input: the
    length of the data (chunking, decoding, validation, scanning, JSON, lines of
    a stream), the number of entries (tree levels, LRU eviction, waves of hits),
    or the size of what remains to be read.  Running out is the error
    [Panic "out of fuel"], and the lemmas about each loop show that it does not
    happen or that more fuel changes nothing.  Bounds of machine integers are
    hypotheses only where the code has them as types: a uint32 index, a body of
    less than 2^63 bytes.  The runs of step relations have explicit bounds
    ([uploads_end], [pipeline_live]).

    ** Not modelled

    - [storage/s3]: requests to the AWS SDK around the admission and the caches
      that are modelled.
    - [download/prefetcher.go], [chunk_cache.go], [cache_manager.go],
      [cache_merge.go], [usage.go]: worker goroutines, HTTP bodies, multipart
      answers, cache files with file locks.  What the reader relies on of them
      is the class [ChunkSource] of [Client].
    - The downloads of [client] ([DownloadXorb] and its kin, [download.go],
      [reconstruction.go], [idle.go], [cache.go], [provider.go]): HTTP requests
      behind the same interface.
    - [client/hf], [lfs], [server/hf], [server/internalapi], [mirror], [cmd]:
      requests to a remote hub and their proxies, orchestration around the
      modelled store, flags.  [storage/storagetest], [client/hf/hftest] and
      [test]: test support.
    - Option setters and constructors that only fill defaults; logging and
      progress callbacks.
    - Writers that run during a garbage collection; concurrent callers of the
      local backend and of the index caches.
    - Corners of the standard library: [bufio]'s [io.ErrNoProgress], a [WalkDir]
      that cannot read a directory (a file's [Stat] can fail).  A mapping's count
      and its unmapping are one step.  A shard in a cache is a value, not a shared
      pointer.
    - In the network: [net/http]'s redirects are part of a request, idle timeouts
      are among its errors, and of a streamed answer whole frames are lost;
      [http.ServeContent] is kept as what it is given. *)

From Stdlib Require Import ZArith Lia Strings.Byte Strings.String.
From stdpp Require Export base tactics list list_numbers vector gmap strings countable sorting.
Export ListNotations.

#[global] Open Scope Z_scope.

Declare Scope go_scope.
Delimit Scope go_scope with go.
#[global] Open Scope go_scope.

(** ** Bytes

    Go's [byte] is Coq's 256-constructor [byte]; [b2z] is its unsigned value
    and [z2b] the truncating conversion [byte(x)]. *)

Abbreviation byte := Corelib.Init.Byte.byte.

#[global] Instance byte_eq_decision : EqDecision byte := Byte.byte_eq_dec.

#[global] Program Instance byte_countable : Countable byte :=
  inj_countable Byte.to_N Byte.of_N _.
Next Obligation. intros b; apply Byte.of_to_N. Qed.

#[global] Instance byte_inhabited : Inhabited byte := populate Byte.x00.

Definition b2z (b : byte) : Z := Z.of_N (Byte.to_N b).

Definition z2b (z : Z) : byte :=
  match Byte.of_N (Z.to_N (z mod 256)) with
  | Some b => b
  | None => Byte.x00
  end.

(** ** Machine integers

    A [uintN] or [int64] is a [Z]; each arithmetic result the source keeps in
    such a variable is wrapped with the functions below. *)

Definition u8 (z : Z) : Z := z mod 2 ^ 8.
Definition u32 (z : Z) : Z := z mod 2 ^ 32.
Definition u64 (z : Z) : Z := z mod 2 ^ 64.
Definition i64 (z : Z) : Z := (z + 2 ^ 63) mod 2 ^ 64 - 2 ^ 63.
Definition maxInt64 : Z := 2 ^ 63 - 1.

Definition is_u32 (z : Z) : Prop := 0 <= z < 2 ^ 32.
Definition is_u64 (z : Z) : Prop := 0 <= z < 2 ^ 64.
Definition is_i64 (z : Z) : Prop := - 2 ^ 63 <= z < 2 ^ 63.

(** The length of a slice as the Go [int] it is. *)
Definition len {A} (l : list A) : Z := Z.of_nat (length l).
Arguments len : simpl never.

(** [l[lo:hi]] for indices the source has checked. *)
Definition slice {A} (lo hi : Z) (l : list A) : list A :=
  take (Z.to_nat (hi - lo)) (drop (Z.to_nat lo) l).

(** ** Little-endian codecs ([encoding/binary]) *)

Fixpoint le_bytes (n : nat) (z : Z) : list byte :=
  match n with
  | O => []
  | S n => z2b z :: le_bytes n (z / 256)
  end.

Fixpoint le_val (l : list byte) : Z :=
  match l with
  | [] => 0
  | b :: l => b2z b + 256 * le_val l
  end.

Definition put_u32 (z : Z) : list byte := le_bytes 4 z.
Definition put_u64 (z : Z) : list byte := le_bytes 8 z.

(** ** Go strings

    A Go string is a byte sequence. *)

Abbreviation gostring := (list byte).

Definition str (s : string) : gostring := String.list_byte_of_string s.
Arguments str _%_string.

(** ** Errors

    The sentinel errors the code compares against are constructors of their
    own; [Errorf] and [Wrapf] are [fmt.Errorf] without and with [%w], carrying
    the format string only.  [Panic] is a run-time panic. *)

Inductive error : Type :=
| EOF
| UnexpectedEOF
| ErrShortWrite
| ErrClosed
| ErrNotExist
| ErrNoFooter
| ErrInvalidShard
| ErrSyntax
| ErrRange
| Canceled
| DeadlineExceeded
| ErrGCBusy
| Errorf (format : string)
| Wrapf (format : string) (cause : error)
| Panic (what : string).
Arguments Errorf _%_string.
Arguments Wrapf _%_string _.
Arguments Panic _%_string.

#[global] Instance error_eq_decision : EqDecision error.
Proof. solve_decision. Defined.

(** [errors.Is]. *)
Fixpoint errors_Is (e target : error) : bool :=
  bool_decide (e = target) ||
  match e with
  | Wrapf _ e => errors_Is e target
  | _ => false
  end.

Inductive result (A : Type) : Type :=
| Ok (a : A)
| Err (e : error).
Arguments Ok {A} a.
Arguments Err {A} e.

#[global] Instance result_eq_decision `{EqDecision A} : EqDecision (result A).
Proof. solve_decision. Defined.

#[global] Instance result_ret : MRet result := fun A a => Ok a.
#[global] Instance result_bind : MBind result := fun A B f m =>
  match m with Ok a => f a | Err e => Err e end.
#[global] Instance result_fmap : FMap result := fun A B f m =>
  match m with Ok a => Ok (f a) | Err e => Err e end.

Definition is_ok {A} (r : result A) : bool :=
  match r with Ok _ => true | Err _ => false end.

(** [if cond { return err }]. *)
Definition fail_if (cond : bool) (e : error) : result unit :=
  if cond then Err e else Ok tt.

(** [if err := m; err != nil { return fmt.Errorf(format, err) }]. *)
Definition wrap_err {A} (format : string) (m : result A) : result A :=
  match m with
  | Ok a => Ok a
  | Err e => Err (Wrapf format e)
  end.
Arguments wrap_err {A} _%_string _.

(** Fold over a list with early return. *)
Fixpoint foldM {A S : Type} (f : S -> A -> result S) (s : S) (l : list A) : result S :=
  match l with
  | [] => Ok s
  | a :: l => s ← f s a; foldM f s l
  end.

(** ** Readers

    An [io.Reader] is the bytes it still delivers and the error it reports
    after them ([EOF] for a stream that ends cleanly). *)

Record reader : Type := Reader {
  rdata : list byte;
  rend : error;
}.

Definition file_reader (data : list byte) : reader := Reader data EOF.

(** [io.ReadFull(r, buf)] with [len(buf) = n]: the bytes read, the error, and
    the reader afterwards. *)
Definition ReadFull (n : Z) (r : reader) : list byte * option error * reader :=
  let got := take (Z.to_nat n) (rdata r) in
  let r' := Reader (drop (Z.to_nat n) (rdata r)) (rend r) in
  if len got =? n then (got, None, r')
  else if bool_decide (got = []) then (got, Some (rend r), r')
  else if bool_decide (rend r = EOF) then (got, Some UnexpectedEOF, r')
  else (got, Some (rend r), r').

(** Decoders thread the reader and stop at the first error. *)
Definition rd (A : Type) : Type := reader -> result (A * reader).

#[global] Instance rd_ret : MRet rd := fun A a r => Ok (a, r).
#[global] Instance rd_bind : MBind rd := fun A B f m r =>
  match m r with
  | Ok (a, r) => f a r
  | Err e => Err e
  end.

Definition rd_lift {A} (m : result A) : rd A := fun r => a ← m; Ok (a, r).
Definition rd_fail {A} (e : error) : rd A := fun _ => Err e.

(** [if _, err := io.ReadFull(r, buf[:n]); err != nil { return fmt.Errorf(format, err) }]. *)
Definition read_or (format : string) (n : Z) : rd (list byte) := fun r =>
  match ReadFull n r with
  | (got, None, r') => Ok (got, r')
  | (_, Some e, _) => Err (Wrapf format e)
  end.
Arguments read_or _%_string _ _.

(** ** Tactics and hint databases *)

Create HintDb go discriminated.
#[export] Hint Constants Transparent : go.

Create Rewrite HintDb go_len.

(** Case analysis on the Boolean comparisons of the source. *)
Ltac bool_case :=
  repeat match goal with
  | H : context [ ?a =? ?b ] |- _ => revert H; destruct (Z.eqb_spec a b); intros H
  | H : context [ ?a <? ?b ] |- _ => revert H; destruct (Z.ltb_spec a b); intros H
  | H : context [ ?a <=? ?b ] |- _ => revert H; destruct (Z.leb_spec a b); intros H
  | |- context [ ?a =? ?b ] => destruct (Z.eqb_spec a b)
  | |- context [ ?a <? ?b ] => destruct (Z.ltb_spec a b)
  | |- context [ ?a <=? ?b ] => destruct (Z.leb_spec a b)
  end.

(** Run the error monad: split [m ≫= f = Ok _] into its steps. *)
Ltac inv_bind :=
  repeat match goal with
  | H : mbind _ ?m = Ok _ |- _ =>
      let E := fresh "E" in
      destruct m eqn:E; cbn [mbind result_bind] in H; [ | discriminate H ]
  | H : result_bind _ _ _ ?m = Ok _ |- _ =>
      let E := fresh "E" in
      destruct m eqn:E; cbn [result_bind] in H; [ | discriminate H ]
  | H : fail_if ?c _ = Ok _ |- _ =>
      let E := fresh "E" in
      unfold fail_if in H; destruct c eqn:E; [ discriminate H | clear H ]
  | H : wrap_err _ ?m = Ok _ |- _ =>
      let E := fresh "E" in
      unfold wrap_err in H; destruct m eqn:E; [ | discriminate H ]
  | H : Ok _ = Ok _ |- _ => injection H as H; subst
  | H : Err _ = Ok _ |- _ => discriminate H
  end.

(** Linear arithmetic over lengths and slices. *)
Ltac len_simpl := autorewrite with go_len in *.
Ltac len_lia := unfold len in *; autorewrite with go_len in *; lia.

(** ** Lemmas on bytes and machine integers *)

Lemma b2z_range b : 0 <= b2z b < 256.
Proof. unfold b2z. pose proof (Byte.to_N_bounded b). lia. Qed.

Lemma b2z_z2b z : b2z (z2b z) = z mod 256.
Proof.
  unfold b2z, z2b. pose proof (Z.mod_pos_bound z 256 eq_refl) as Hz.
  destruct (Byte.of_N _) as [b|] eqn:E.
  - apply Byte.to_of_N in E. rewrite E. lia.
  - apply Byte.of_N_None_iff in E. lia.
Qed.

Lemma b2z_inj b c : b2z b = b2z c -> b = c.
Proof.
  unfold b2z. intros H%N2Z.inj. apply (inj Some).
  by rewrite <- !Byte.of_to_N, H.
Qed.

Lemma z2b_b2z b : z2b (b2z b) = b.
Proof.
  apply b2z_inj. rewrite b2z_z2b. apply Z.mod_small, b2z_range.
Qed.

Lemma z2b_mod z : z2b (z mod 256) = z2b z.
Proof. apply b2z_inj. by rewrite !b2z_z2b, Zmod_mod. Qed.

Lemma u32_range z : is_u32 (u32 z).
Proof. apply Z.mod_pos_bound. lia. Qed.

Lemma u64_range z : is_u64 (u64 z).
Proof. apply Z.mod_pos_bound. lia. Qed.

Lemma u32_small z : is_u32 z -> u32 z = z.
Proof. apply Z.mod_small. Qed.

Lemma u64_small z : is_u64 z -> u64 z = z.
Proof. apply Z.mod_small. Qed.

Lemma i64_small z : is_i64 z -> i64 z = z.
Proof. unfold is_i64, i64. intros. rewrite Z.mod_small; lia. Qed.

Lemma i64_add_l a b : i64 (i64 a + b) = i64 (a + b).
Proof.
  unfold i64. f_equal. replace (_ - _ + b + _) with ((a + 2 ^ 63) mod 2 ^ 64 + b) by lia.
  rewrite Zplus_mod_idemp_l. f_equal. lia.
Qed.

Lemma i64_add_r a b : i64 (a + i64 b) = i64 (a + b).
Proof. by rewrite Z.add_comm, i64_add_l, Z.add_comm. Qed.

(** Bits that do not overlap: [or] is addition. *)
Lemma lor_shiftl a b k :
  0 <= k -> 0 <= a < 2 ^ k -> Z.lor a (Z.shiftl b k) = a + 2 ^ k * b.
Proof.
  intros Hk Ha.
  assert (Z.land a (Z.shiftl b k) = 0) as Hl.
  { apply Z.bits_inj'. intros n Hn. rewrite Z.land_spec, Z.bits_0, Z.shiftl_spec by done.
    destruct (decide (n < k)) as [Hlt|Hge].
    - rewrite (Z.testbit_neg_r b) by lia. apply andb_false_r.
    - destruct (decide (a = 0)) as [->|Hz]; [by rewrite Z.bits_0|].
      rewrite (Z.bits_above_log2 a n); [done|lia|]. apply Z.log2_lt_pow2; [lia|].
      apply Z.lt_le_trans with (2 ^ k); [lia|apply Z.pow_le_mono_r; lia]. }
  rewrite <- Z.lxor_lor, <- Z.add_nocarry_lxor by done.
  rewrite Z.shiftl_mul_pow2 by done. lia.
Qed.

#[export] Hint Resolve b2z_range u32_range u64_range : go.

(** ** Lemmas on the little-endian codec *)

Lemma length_le_bytes n z : length (le_bytes n z) = n.
Proof. revert z. induction n; intros; simpl; auto. Qed.

Lemma le_val_range l : 0 <= le_val l < 2 ^ (8 * len l).
Proof.
  unfold len. induction l as [|b l IH]; [done|].
  cbn [le_val length]. pose proof (b2z_range b).
  rewrite Nat2Z.inj_succ, Z.mul_succ_r, Z.pow_add_r by lia. lia.
Qed.

Lemma le_val_bytes n z : le_val (le_bytes n z) = z mod 2 ^ (8 * Z.of_nat n).
Proof.
  revert z. induction n as [|n IH]; intros z; [by rewrite Z.mod_1_r|].
  cbn [le_bytes le_val]. rewrite IH, b2z_z2b.
  rewrite Nat2Z.inj_succ, Z.mul_succ_r, (Z.add_comm _ 8), Z.pow_add_r by lia.
  change (2 ^ 8) with 256.
  rewrite Z.rem_mul_r by lia. lia.
Qed.

Lemma le_bytes_val l : le_bytes (length l) (le_val l) = l.
Proof.
  induction l as [|b l IH]; [done|].
  cbn [le_val length le_bytes]. pose proof (b2z_range b).
  replace ((b2z b + 256 * le_val l) / 256) with (le_val l).
  2: { rewrite Z.mul_comm, Z.div_add, Z.div_small; lia. }
  rewrite IH. f_equal.
  rewrite <- (z2b_b2z b) at 2. rewrite <- (z2b_mod (_ + _)).
  rewrite Z.mul_comm, Z.mod_add, Z.mod_small by lia. done.
Qed.

Lemma le_val_put_u32 z : is_u32 z -> le_val (put_u32 z) = z.
Proof. intros. unfold put_u32. rewrite le_val_bytes. by apply Z.mod_small. Qed.

Lemma le_val_put_u64 z : is_u64 z -> le_val (put_u64 z) = z.
Proof. intros. unfold put_u64. rewrite le_val_bytes. by apply Z.mod_small. Qed.

Lemma le_val_u32 l : length l = 4%nat -> is_u32 (le_val l).
Proof. intros H. pose proof (le_val_range l) as R. unfold len in R. by rewrite H in R. Qed.

Lemma le_val_u64 l : length l = 8%nat -> is_u64 (le_val l).
Proof. intros H. pose proof (le_val_range l) as R. unfold len in R. by rewrite H in R. Qed.

Lemma length_put_u32 z : length (put_u32 z) = 4%nat.
Proof. apply length_le_bytes. Qed.

Lemma length_put_u64 z : length (put_u64 z) = 8%nat.
Proof. apply length_le_bytes. Qed.

(** ** Lemmas on lists and slices *)

Lemma len_nonneg {A} (l : list A) : 0 <= len l.
Proof. unfold len. lia. Qed.

Lemma to_nat_len {A} (l : list A) : Z.to_nat (len l) = length l.
Proof. unfold len. lia. Qed.

Lemma len_nil {A} : len (@nil A) = 0.
Proof. done. Qed.

Lemma len_cons {A} (a : A) l : len (a :: l) = 1 + len l.
Proof. unfold len. cbn [length]. lia. Qed.

Lemma len_app {A} (l k : list A) : len (l ++ k) = len l + len k.
Proof. unfold len. rewrite length_app. lia. Qed.

Lemma len_map {A B} (f : A -> B) l : len (map f l) = len l.
Proof. unfold len. by rewrite length_map. Qed.

Lemma len_0_nil {A} (l : list A) : len l = 0 -> l = [].
Proof. unfold len. destruct l; [done|]. cbn [length]. lia. Qed.

Lemma length_slice {A} lo hi (l : list A) :
  0 <= lo -> lo <= hi -> hi <= len l -> length (slice lo hi l) = Z.to_nat (hi - lo).
Proof. unfold slice, len. intros. rewrite length_take, length_drop. lia. Qed.

Lemma slice_app_r {A} lo hi (l k : list A) :
  len l <= lo -> slice lo hi (l ++ k) = slice (lo - len l) (hi - len l) k.
Proof.
  unfold slice, len. intros. rewrite drop_app_ge by lia.
  f_equal; [lia|]. f_equal. lia.
Qed.

Lemma slice_app_l {A} lo hi (l k : list A) :
  0 <= lo -> hi <= len l -> slice lo hi (l ++ k) = slice lo hi l.
Proof.
  unfold slice, len. intros.
  destruct (decide (lo <= hi)) as [|].
  - rewrite drop_app_le by lia. rewrite take_app_le; [done|].
    rewrite length_drop. lia.
  - replace (Z.to_nat (hi - lo)) with 0%nat by lia. done.
Qed.

Lemma slice_all {A} (l : list A) : slice 0 (len l) l = l.
Proof. unfold slice, len. rewrite Z.sub_0_r, Nat2Z.id, drop_0. by apply take_ge. Qed.

Lemma slice_full {A} n (l : list A) : n = len l -> slice 0 n l = l.
Proof. intros ->. apply slice_all. Qed.

Lemma slice_prefix {A} n (l k : list A) : n = len l -> slice 0 n (l ++ k) = l.
Proof. intros ->. rewrite slice_app_l by (try lia; apply len_nonneg). apply slice_all. Qed.

Lemma slice_split {A} lo mid hi (l : list A) :
  0 <= lo <= mid -> mid <= hi -> slice lo hi l = slice lo mid l ++ slice mid hi l.
Proof.
  intros. unfold slice.
  replace (Z.to_nat (hi - lo)) with (Z.to_nat (mid - lo) + Z.to_nat (hi - mid))%nat by lia.
  rewrite <- take_take_drop, drop_drop. do 3 f_equal. lia.
Qed.

Lemma slice_mid {A} lo hi (p q r : list A) :
  lo = len p -> hi = lo + len q -> slice lo hi (p ++ q ++ r) = q.
Proof.
  intros -> ->. rewrite slice_app_r by lia. rewrite Z.sub_diag, Z.add_simpl_l.
  by apply slice_prefix.
Qed.

#[export] Hint Rewrite @length_app @length_take @length_drop @length_replicate
  @length_fmap @length_vec_to_list length_le_bytes length_put_u32 length_put_u64
  @length_nil @length_cons @length_insert : go_len.

Lemma foldl_app_concat {A B} (f : A -> list B) buf l :
  foldl (fun buf a => buf ++ f a) buf l = buf ++ concat (map f l).
Proof.
  revert buf. induction l as [|a l IH]; intros buf; cbn; [by rewrite app_nil_r|].
  by rewrite IH, app_assoc.
Qed.

Lemma len_put_u32 z : len (put_u32 z) = 4.
Proof. unfold len. by rewrite length_put_u32. Qed.

Lemma len_vec {n} (v : vec byte n) : len v = Z.of_nat n.
Proof. unfold len. by rewrite length_vec_to_list. Qed.

Lemma len_single {A} (a : A) : len [a] = 1.
Proof. done. Qed.

Lemma len_replicate {A} n (a : A) : len (replicate n a) = Z.of_nat n.
Proof. unfold len. by rewrite length_replicate. Qed.

(** ** Lemmas on readers *)

Lemma ReadFull_app d tl e :
  ReadFull (len d) (Reader (d ++ tl) e) = (d, None, Reader tl e).
Proof.
  unfold ReadFull, len. cbn [rdata rend].
  rewrite !Nat2Z.id, take_app_length, drop_app_length, Z.eqb_refl. done.
Qed.

Lemma ReadFull_app_n n d tl e :
  len d = n -> ReadFull n (Reader (d ++ tl) e) = (d, None, Reader tl e).
Proof. intros <-. apply ReadFull_app. Qed.

(** A read that succeeds delivers exactly the next [n] bytes. *)
Lemma ReadFull_Some n r d r' :
  0 <= n -> ReadFull n r = (d, None, r') ->
  rdata r = d ++ rdata r' /\ len d = n /\ rend r' = rend r.
Proof.
  unfold ReadFull. intros Hn. bool_case; repeat case_bool_decide; intros; simplify_eq.
  cbn. by rewrite take_drop.
Qed.

(** A read past the end fails, with [EOF] only when no byte was left. *)
Lemma ReadFull_short n r :
  len (rdata r) < n ->
  exists e, (ReadFull n r).1.2 = Some e /\ (rdata r = [] \/ e <> EOF).
Proof.
  intros Hn. pose proof (len_nonneg (rdata r)).
  assert (Hlen : length (take (Z.to_nat n) (rdata r)) = length (rdata r)).
  { rewrite length_take. unfold len in *. lia. }
  unfold ReadFull, len in *.
  destruct (Z.eqb_spec (Z.of_nat (length (take (Z.to_nat n) (rdata r)))) n); [lia|].
  case_bool_decide as Hnil.
  - rewrite Hnil in Hlen. destruct (rdata r); [eauto|done].
  - case_bool_decide; cbn; eauto.
Qed.

(** [EOF] from a read means that the stream had ended cleanly before it. *)
Lemma ReadFull_EOF n r got r' :
  0 < n -> ReadFull n r = (got, Some EOF, r') -> rdata r = [] /\ rend r = EOF.
Proof.
  unfold ReadFull. intros Hn. destruct (len _ =? n); [done|]. case_bool_decide as Hnil.
  - intros [= _ He _]. split; [|done]. destruct (rdata r) as [|b l]; [done|].
    by destruct (Z.to_nat n) eqn:E; [lia|].
  - by case_bool_decide as He; intros [= _ He' _].
Qed.

Lemma read_or_app f n d tl e :
  len d = n -> read_or f n (Reader (d ++ tl) e) = Ok (d, Reader tl e).
Proof. intros <-. unfold read_or. by rewrite ReadFull_app. Qed.

Lemma read_or_Ok f n r d r' :
  0 <= n -> read_or f n r = Ok (d, r') ->
  rdata r = d ++ rdata r' /\ len d = n /\ rend r' = rend r.
Proof.
  unfold read_or. intros Hn. destruct (ReadFull n r) as [[got [e|]] r1] eqn:E; [done|].
  intros [= <- <-]. by apply ReadFull_Some.
Qed.

(** ** Lemmas on the monadic fold *)

Lemma foldM_app {A S} (f : S -> A -> result S) s l k :
  foldM f s (l ++ k) = s ← foldM f s l; foldM f s k.
Proof.
  revert s. induction l as [|a l IH]; intros s; [done|].
  cbn. destruct (f s a); cbn; [apply IH | done].
Qed.

(** An invariant each step preserves holds of the final state. *)
Lemma foldM_inv {A S} (P : S -> Prop) (f : S -> A -> result S) s l s' :
  P s -> (forall s a s', a ∈ l -> P s -> f s a = Ok s' -> P s') ->
  foldM f s l = Ok s' -> P s'.
Proof.
  revert s. induction l as [|a l IH]; intros s Hs Hstep; cbn.
  - by intros [= <-].
  - destruct (f s a) as [s1|] eqn:E; cbn; [|done].
    apply IH.
    + eapply Hstep; eauto. by left.
    + intros ? ? ? ?. apply Hstep. by right.
Qed.

(** A fold that only checks. *)
Lemma foldM_check {A} (f : A -> result unit) l :
  foldM (fun _ a => f a) tt l = Ok tt <-> Forall (fun a => f a = Ok tt) l.
Proof.
  induction l as [|a l IH]; [done|]. cbn. rewrite Forall_cons.
  destruct (f a) as [[]|]; cbn; [by rewrite IH; intuition|]. split; [done|]. by intros [].
Qed.

(** ** Decoders that depend only on what they read *)

(** A decoder whose run depends only on the bytes it consumes. *)
Definition prefix_det {A} (m : rd A) : Prop :=
  forall r a r', m r = Ok (a, r') ->
  exists pre, rdata r = pre ++ rdata r' /\ rend r' = rend r /\
    forall tl e, m (Reader (pre ++ tl) e) = Ok (a, Reader tl e).

Lemma prefix_det_ret {A} (a : A) : prefix_det (fun r => Ok (a, r)).
Proof. intros r a' r' [= <- <-]. by exists []. Qed.

Lemma prefix_det_fail {A} e : prefix_det (fun _ => Err e : result (A * reader)).
Proof. by intros r a r' H. Qed.

Lemma prefix_det_if {A} (c : bool) (m m' : rd A) :
  prefix_det m -> prefix_det m' -> prefix_det (fun r => if c then m r else m' r).
Proof. by destruct c. Qed.

Lemma prefix_det_read f n : 0 <= n -> prefix_det (read_or f n).
Proof.
  intros Hn r a r' (Hr & Hl & He)%read_or_Ok; [|done]. exists a. split; [done|]. split; [done|].
  intros tl e. by rewrite read_or_app.
Qed.

Lemma prefix_det_bind {A B} (m : rd A) (k : A -> rd B) :
  prefix_det m -> (forall a, prefix_det (k a)) -> prefix_det (fun r => '(a, r) ← m r; k a r).
Proof.
  intros Hm Hk r b r'. destruct (m r) as [[a r1]|] eqn:E; cbn [mbind result_bind]; [|done]. intros H.
  apply Hm in E as (p1 & Hr & He & H1). apply Hk in H as (p2 & Hr1 & He1 & H2).
  exists (p1 ++ p2). rewrite Hr, Hr1, <- app_assoc. split; [done|]. split; [congruence|].
  intros tl e. rewrite <- app_assoc, H1. apply H2.
Qed.

Lemma prefix_det_lift {A B} (m : result A) (k : A -> rd B) :
  (forall a, prefix_det (k a)) -> prefix_det (fun r => a ← m; k a r).
Proof. intros Hk r b r'. destruct m as [a|]; cbn [mbind result_bind]; [apply Hk|done]. Qed.

Ltac prefix_det :=
  repeat first
    [ apply prefix_det_ret | apply prefix_det_fail | apply prefix_det_if
    | apply prefix_det_bind; [|intros ?] | apply prefix_det_lift; intros ?
    | apply prefix_det_read; first [done | lia] ].
(** ** Lemmas on indexed lists *)

(** ** Sums *)

Fixpoint zsum {A} (f : A -> Z) (l : list A) : Z :=
  match l with
  | [] => 0
  | a :: l => f a + zsum f l
  end.

Lemma zsum_app {A} (f : A -> Z) l k : zsum f (l ++ k) = zsum f l + zsum f k.
Proof. induction l as [|a l IH]; cbn; lia. Qed.

Lemma zsum_ext {A} (f g : A -> Z) l : (forall a, a ∈ l -> f a = g a) -> zsum f l = zsum g l.
Proof.
  induction l as [|a l IH]; intros H; [done|]. cbn. rewrite H by left. f_equal. apply IH. intros b Hb. apply H. by right.
Qed.

Lemma zsum_map {A B} (f : B -> Z) (g : A -> B) l : zsum f (map g l) = zsum (fun a => f (g a)) l.
Proof. induction l as [|a l IH]; cbn; [done|by rewrite IH]. Qed.

Lemma zsum_0 {A} (f : A -> Z) l : (forall a, a ∈ l -> f a = 0) -> zsum f l = 0.
Proof.
  induction l as [|a l IH]; intros H; [done|]. cbn. rewrite H by left. apply IH. intros b Hb. apply H. by right.
Qed.

Lemma zsum_filter {A} (P : A -> Prop) `{forall a, Decision (P a)} (f : A -> Z) l :
  zsum f (filter P l) = zsum (fun a => if decide (P a) then f a else 0) l.
Proof. induction l as [|a l IH]; [done|]. rewrite filter_cons. cbn. case_decide; cbn; by rewrite IH. Qed.

#[global] Instance zsum_perm {A} (f : A -> Z) : Proper ((≡ₚ) ==> (=)) (zsum f).
Proof. induction 1; cbn; lia. Qed.


Lemma zip_seqZ_lookup {A} (l : list A) k i a :
  zip (seqZ k (len l)) l !! i = Some a <-> l !! i = Some a.2 /\ a.1 = k + Z.of_nat i.
Proof.
  revert k i. induction l as [|b l IH]; intros k i.
  - change (len []) with 0. cbn. split; [done|]. by intros [].
  - rewrite len_cons, seqZ_cons by (pose proof (len_nonneg l); lia).
    replace (Z.pred (1 + len l)) with (len l) by lia. destruct i as [|i]; cbn.
    + rewrite Z.add_0_r. destruct a as [j a]; cbn. split.
      * by intros [= -> ->].
      * by intros [[= ->] ->].
    + rewrite IH. split; intros [? ->]; (split; [done|lia]).
Qed.

(** ** The order of Go strings *)

(** [a <= b] on strings compares bytes. *)
Fixpoint string_le (a b : gostring) : Prop :=
  match a, b with
  | [], _ => True
  | _ :: _, [] => False
  | x :: a, y :: b => b2z x < b2z y \/ x = y /\ string_le a b
  end.

#[global] Instance string_le_dec : RelDecision string_le.
Proof.
  intros a. induction a as [|x a IH]; intros b; [left; exact I|].
  destruct b as [|y b]; [right; intros []|]. cbn. specialize (IH b).
  destruct (decide (string_le a b)); solve_decision.
Defined.

#[global] Instance string_le_refl : Reflexive string_le.
Proof. intros a. induction a as [|x a IH]; [done|]. by right. Qed.

#[global] Instance string_le_trans : Transitive string_le.
Proof.
  intros a. induction a as [|x a IH]; intros [|y b] [|z c]; cbn; try done.
  intros [H1|[-> H1]] [H2|[-> H2]]; [left; lia|by left|by left|]. right. split; [done|]. by eapply IH.
Qed.

#[global] Instance string_le_antisymm : AntiSymm (=) string_le.
Proof.
  intros a. induction a as [|x a IH]; intros [|y b]; cbn; try done.
  intros [H1|[-> H1]] [H2|[H2' H2]]; [lia|subst; lia|lia|]. f_equal. by apply IH.
Qed.

#[global] Instance string_le_total : Total string_le.
Proof.
  intros a. induction a as [|x a IH]; intros [|y b]; cbn; auto.
  destruct (decide (b2z x = b2z y)) as [->%b2z_inj|Hne].
  - destruct (IH b); auto.
  - destruct (decide (b2z x < b2z y)); [auto|]. right. left. lia.
Qed.
