(* ===== verification/Prog.v ===== *)
(** * Stateful programs

    Code that mutates a store, a cache or a mapping and may fail is written in
    a state-and-error monad [prog]: an error keeps the state it left behind, as
    a Go function that returns an error does.  Reasoning is by Hoare triples
    with a postcondition for each way to end. *)

From Stdlib Require Import ZArith Lia Strings.Byte Strings.String.
From S2P Require Import Prelude.

(** ** The monad *)

Definition prog (S A : Type) : Type := S -> result A * S.

#[global] Instance prog_ret {S} : MRet (prog S) := fun A a s => (Ok a, s).
#[global] Instance prog_bind {S} : MBind (prog S) := fun A B f m s =>
  match m s with
  | (Ok a, s) => f a s
  | (Err e, s) => (Err e, s)
  end.

Definition throw {S A} (e : error) : prog S A := fun s => (Err e, s).
Definition lift {S A} (r : result A) : prog S A := fun s => (r, s).

(** [if a, err := m; err != nil { h(err) } else { k(a) }]. *)
Definition catch {S A B} (m : prog S A) (k : A -> prog S B) (h : error -> prog S B) : prog S B := fun s =>
  match m s with
  | (Ok a, s) => k a s
  | (Err e, s) => h e s
  end.

(** [fmt.Errorf(format, err)] around the error of a program. *)
Definition prog_wrap {S A} (format : string) (m : prog S A) : prog S A :=
  catch m mret (fun e => throw (Wrapf format e)).
Arguments prog_wrap {S A} _%_string _ _.

Lemma prog_bind_Ok {S A B} (m : prog S A) (f : A -> prog S B) s a s' :
  m s = (Ok a, s') -> (m ≫= f) s = f a s'.
Proof. intros H. unfold mbind, prog_bind. by rewrite H. Qed.

Lemma prog_wrap_Ok {S A} fmt (m : prog S A) s a s' : prog_wrap fmt m s = (Ok a, s') -> m s = (Ok a, s').
Proof. unfold prog_wrap, catch. by destruct (m s) as [[?|?] ?]. Qed.

(** Hoare triples: from a state in [P], a normal end satisfies [Q] and an
    error leaves a state in [E]. *)
Definition triple {S A} (P : S -> Prop) (m : prog S A) (Q : A -> S -> Prop) (E : S -> Prop) : Prop :=
  forall s, P s -> match m s with (Ok a, s') => Q a s' | (Err _, s') => E s' end.

Lemma triple_ret {S A} (P E : S -> Prop) (Q : A -> S -> Prop) a :
  (forall s, P s -> Q a s) -> triple P (mret a) Q E.
Proof. intros H s Hs. exact (H s Hs). Qed.

Lemma triple_throw {S A} (P E : S -> Prop) (Q : A -> S -> Prop) e :
  (forall s, P s -> E s) -> triple P (throw e) Q E.
Proof. intros H s Hs. exact (H s Hs). Qed.

Lemma triple_if {S A} (P E : S -> Prop) (Q : A -> S -> Prop) (c : bool) m m' :
  (c = true -> triple P m Q E) -> (c = false -> triple P m' Q E) -> triple P (if c then m else m') Q E.
Proof. destruct c; auto. Qed.

Lemma triple_bind {S A B} (P E : S -> Prop) (Q : A -> S -> Prop) (R : B -> S -> Prop) m f :
  triple P m Q E -> (forall a, triple (Q a) (f a) R E) -> triple P (m ≫= f) R E.
Proof.
  intros Hm Hf s Hs. specialize (Hm s Hs). unfold mbind, prog_bind.
  destruct (m s) as [[a|e] s']; [apply (Hf a s' Hm)|exact Hm].
Qed.

Lemma triple_seq {S A B} (P E : S -> Prop) (Q : A -> Prop) (R : B -> S -> Prop) m f :
  triple P m (fun a s => P s /\ Q a) E -> (forall a, Q a -> triple P (f a) R E) -> triple P (m ≫= f) R E.
Proof. intros Hm Hf. eapply triple_bind; [exact Hm|]. intros a s [Hs Ha]. exact (Hf a Ha s Hs). Qed.

Lemma triple_catch {S A B} (P E E' : S -> Prop) (Q : A -> S -> Prop) (R : B -> S -> Prop) m k h :
  triple P m Q E' -> (forall a, triple (Q a) (k a) R E) -> (forall e, triple E' (h e) R E) ->
  triple P (catch m k h) R E.
Proof.
  intros Hm Hk Hh s Hs. specialize (Hm s Hs). unfold catch.
  destruct (m s) as [[a|e] s']; [apply (Hk a s' Hm)|apply (Hh e s' Hm)].
Qed.

Lemma triple_conseq {S A} (P P' E E' : S -> Prop) (Q Q' : A -> S -> Prop) m :
  triple P m Q E -> (forall s, P' s -> P s) -> (forall a s, Q a s -> Q' a s) ->
  (forall s, E s -> E' s) -> triple P' m Q' E'.
Proof.
  intros Hm HP HQ HE s Hs. specialize (Hm s (HP s Hs)).
  destruct (m s) as [[a|e] s']; auto.
Qed.

Lemma triple_weaken {S A} (P E : S -> Prop) (Q Q' : A -> S -> Prop) m :
  triple P m Q E -> (forall a s, Q a s -> Q' a s) -> triple P m Q' E.
Proof. intros Hm HQ. eapply triple_conseq; eauto. Qed.

Lemma triple_and {S A} (P P' E E' : S -> Prop) (Q Q' : A -> S -> Prop) m :
  triple P m Q E -> triple P' m Q' E' ->
  triple (fun s => P s /\ P' s) m (fun a s => Q a s /\ Q' a s) (fun s => E s /\ E' s).
Proof.
  intros H H' s [Hs Hs']. specialize (H s Hs). specialize (H' s Hs'). by destruct (m s) as [[?|?] ?].
Qed.

Lemma triple_pure {S A} (P E : S -> Prop) (Q : A -> S -> Prop) m (H : Prop) :
  (H -> triple P m Q E) -> triple (fun s => H /\ P s) m Q E.
Proof. intros Hm s [HH Hs]. exact (Hm HH s Hs). Qed.

(** Programs that keep an invariant, however they end. *)
Definition preserves {S A} (I : S -> Prop) (m : prog S A) : Prop := triple I m (fun _ => I) I.

Lemma preserves_ret {S A} (I : S -> Prop) (a : A) : preserves I (mret a).
Proof. by apply triple_ret. Qed.

Lemma preserves_throw {S A} (I : S -> Prop) e : preserves I (throw e : prog S A).
Proof. by apply triple_throw. Qed.

Lemma preserves_lift {S A} (I : S -> Prop) (r : result A) : preserves I (lift r).
Proof. intros s Hs. by destruct r. Qed.

Lemma preserves_bind {S A B} (I : S -> Prop) (m : prog S A) (f : A -> prog S B) :
  preserves I m -> (forall a, preserves I (f a)) -> preserves I (m ≫= f).
Proof. apply triple_bind. Qed.

Lemma preserves_wrap {S A} (I : S -> Prop) fmt (m : prog S A) : preserves I m -> preserves I (prog_wrap fmt m).
Proof.
  intros Hm. eapply triple_catch; [exact Hm|by intros; apply triple_ret|by intros; apply triple_throw].
Qed.

Create HintDb preserves discriminated.
#[export] Hint Resolve preserves_ret preserves_throw preserves_lift preserves_bind preserves_wrap : preserves.
#[export] Hint Extern 1 (preserves _ (if ?c then _ else _)) => destruct c : preserves.
#[export] Hint Extern 1 (preserves _ (match ?c with _ => _ end)) => destruct c : preserves.
