(* ===== verification/Hash.v ===== *)
(** * Hashes: [hash.go] and the keys of [constants.go]

    The 32-byte hash arrays, their XET hex form ([parseHash], [formatHash]) and
    the keyed BLAKE3 digests.  BLAKE3 itself is third-party code: the class
    [Blake3] holds its keyed hash function as a parameter. *)

From Stdlib Require Import ZArith Lia Strings.Byte Strings.String.
From S2P Require Import Prelude.

(** ** Fixed-size arrays *)

(** [var a [n]byte; copy(a[:], l)]. *)
Fixpoint to_arr (n : nat) (l : list byte) : vec byte n :=
  match n with
  | O => [#]
  | S n =>
      match l with
      | [] => Byte.x00 ::: to_arr n []
      | b :: l => b ::: to_arr n l
      end
  end.

(** [copy(dst[pos:], src)]. *)
Definition copy_at {A} (pos : Z) (src dst : list A) : list A :=
  take (Z.to_nat pos) dst ++
  take (length dst - Z.to_nat pos) src ++
  drop (Z.to_nat pos + length src) dst.

Definition hashSize : nat := 32.

(** [hash], and with it [FileHash], [ChunkHash], [XorbHash] and
    [VerificationHash], which Go keeps apart only as type names. *)
Abbreviation hash := (vec byte hashSize).
Abbreviation FileHash := (vec byte hashSize).
Abbreviation ChunkHash := (vec byte hashSize).
Abbreviation XorbHash := (vec byte hashSize).
Abbreviation VerificationHash := (vec byte hashSize).

Definition zeroHash : hash := to_arr hashSize [].

(** ** [strconv] *)

Definition digit_val (c : byte) : option Z :=
  let v := b2z c in
  if (48 <=? v) && (v <=? 57) then Some (v - 48)
  else
    let l := Z.lor v 32 in
    if (97 <=? l) && (l <=? 122) then Some (l - 97 + 10) else None.

Fixpoint parse_uint_loop (base maxVal n : Z) (s : gostring) : result Z :=
  match s with
  | [] => Ok n
  | c :: s =>
      match digit_val c with
      | None => Err ErrSyntax
      | Some d =>
          if base <=? d then Err ErrSyntax
          else
            let n1 := n * base + d in
            if maxVal <? n1 then Err ErrRange else parse_uint_loop base maxVal n1 s
      end
  end.

(** [strconv.ParseUint(s, base, bitSize)] for an explicit base. *)
Definition ParseUint (s : gostring) (base bitSize : Z) : result Z :=
  match s with
  | [] => Err ErrSyntax
  | _ => parse_uint_loop base (2 ^ bitSize - 1) 0 s
  end.

Definition digit_char (d : Z) : byte :=
  if d <? 10 then z2b (48 + d) else z2b (87 + d).

Fixpoint format_uint_loop (fuel : nat) (base v : Z) (acc : gostring) : gostring :=
  match fuel with
  | O => acc
  | S fuel =>
      let acc := digit_char (v mod base) :: acc in
      if v / base =? 0 then acc else format_uint_loop fuel base (v / base) acc
  end.

(** [strconv.AppendUint(nil, v, base)]; a uint64 has at most 64 digits. *)
Definition format_uint (base v : Z) : gostring := format_uint_loop 64 base v [].

(** ** The XET hex form *)

Definition parseHash (hexStr : gostring) : result hash :=
  if negb (len hexStr =? 64) then Err (Errorf "invalid hash string length: %d")
  else
    arr ← foldM (fun (arr : list byte) seg =>
      let start := seg * 16 in
      val ← wrap_err "invalid hex segment %d: %w"
              (ParseUint (slice start (start + 16) hexStr) 16 64);
      Ok (copy_at (seg * 8) (put_u64 val) arr))
      (replicate 32 Byte.x00) [0; 1; 2; 3];
    Ok (to_arr hashSize arr).

Definition appendHash (dst : list byte) (h : hash) : list byte :=
  let out := replicate 64 (z2b 48) in
  let out := foldl (fun out seg =>
    let offset := seg * 8 in
    let val := le_val (slice offset (offset + 8) h) in
    let s := format_uint 16 val in
    copy_at (seg * 16 + 16 - len s) s out) out [0; 1; 2; 3] in
  dst ++ out.

Definition formatHash (h : hash) : gostring := appendHash [] h.

Arguments format_uint : simpl never.
Arguments parseHash : simpl never.
Arguments appendHash : simpl never.
Arguments formatHash : simpl never.

(** ** Keyed digests *)

Class Blake3 : Type := {
  blake3_keyed : hash -> list byte -> hash;
}.

Definition dataKey : hash := to_arr hashSize (map z2b
  [ 0x66; 0x97; 0xf5; 0x77; 0x5b; 0x95; 0x50; 0xde;
    0x31; 0x35; 0xcb; 0xac; 0xa5; 0x97; 0x18; 0x1c;
    0x9d; 0xe4; 0x21; 0x10; 0x9b; 0xeb; 0x2b; 0x58;
    0xb4; 0xd0; 0xb0; 0x4b; 0x93; 0xad; 0xf2; 0x29 ]).

Definition internalNodeKey : hash := to_arr hashSize (map z2b
  [ 0x01; 0x7e; 0xc5; 0xc7; 0xa5; 0x47; 0x29; 0x96;
    0xfd; 0x94; 0x66; 0x66; 0xb4; 0x8a; 0x02; 0xe6;
    0x5d; 0xdd; 0x53; 0x6f; 0x37; 0xc7; 0x6d; 0xd2;
    0xf8; 0x63; 0x52; 0xe6; 0x4a; 0x53; 0x71; 0x3f ]).

Definition zeroKey : hash := zeroHash.

Definition verificationKey : hash := to_arr hashSize (map z2b
  [ 0x7f; 0x18; 0x57; 0xd6; 0xce; 0x56; 0xed; 0x66;
    0x12; 0x7f; 0xf9; 0x13; 0xe7; 0xa5; 0xc3; 0xf3;
    0xa4; 0xcd; 0x26; 0xd5; 0xb5; 0xdb; 0x49; 0xe6;
    0x41; 0x24; 0x98; 0x7f; 0x28; 0xfb; 0x94; 0xc3 ]).

Section digests.
Context {B3 : Blake3}.

Definition ComputeChunkHash (data : list byte) : ChunkHash := blake3_keyed dataKey data.

Definition HMAC (h : ChunkHash) (key : hash) : ChunkHash := blake3_keyed key h.

Definition computeInternalNodeHash (data : list byte) : hash :=
  blake3_keyed internalNodeKey data.

Definition computeFileHash (data : list byte) : hash := blake3_keyed zeroKey data.

(** The hasher is fed one chunk hash after the other. *)
Definition ComputeVerificationHash (chunkHashes : list ChunkHash) : VerificationHash :=
  blake3_keyed verificationKey
    (foldl (fun written (h : ChunkHash) => written ++ vec_to_list h) [] chunkHashes).
End digests.

(** ** Lemmas on arrays *)

Lemma to_arr_long n l :
  (n <= length l)%nat -> vec_to_list (to_arr n l) = take n l.
Proof.
  revert l. induction n as [|n IH]; intros l Hl; [done|].
  destruct l as [|b l]; cbn in *; [lia|]. f_equal. apply IH. lia.
Qed.

Lemma to_arr_exact n l : length l = n -> vec_to_list (to_arr n l) = l.
Proof. intros <-. rewrite to_arr_long, firstn_all; done. Qed.

Lemma to_arr_vec n (v : vec byte n) : to_arr n v = v.
Proof. apply vec_to_list_inj2, to_arr_exact, length_vec_to_list. Qed.

(** Arrays as map keys: through their bytes, so that maps compute. *)
#[global] Instance arr_countable n : Countable (vec byte n) :=
  inj_countable' (@vec_to_list byte n) (to_arr n) (to_arr_vec n).

Lemma to_arr_inj n l k : length l = n -> length k = n -> to_arr n l = to_arr n k -> l = k.
Proof. intros Hl Hk H. rewrite <- (to_arr_exact n l), <- (to_arr_exact n k), H; done. Qed.

Lemma to_arr_app n (v : vec byte n) l : to_arr n (v ++ l) = v.
Proof.
  apply vec_to_list_inj2. rewrite to_arr_long.
  - rewrite take_app_le by (rewrite length_vec_to_list; lia).
    apply take_ge. by rewrite length_vec_to_list.
  - rewrite length_app, length_vec_to_list. lia.
Qed.

Lemma length_hash (h : hash) : length (vec_to_list h) = 32%nat.
Proof. apply length_vec_to_list. Qed.

Lemma len_hash (h : hash) : len h = 32.
Proof. unfold len. by rewrite length_hash. Qed.

#[export] Hint Rewrite length_hash : go_len.

(** A copy that fits replaces the bytes it covers. *)
Lemma copy_at_mid {A} (p q r s : list A) pos :
  pos = len p -> length s = length q -> copy_at pos s (p ++ q ++ r) = p ++ s ++ r.
Proof.
  intros -> Hs. unfold copy_at, len. rewrite Nat2Z.id.
  rewrite take_app_length, !length_app.
  rewrite (take_ge s) by lia. do 2 f_equal.
  rewrite drop_app_ge by lia. rewrite drop_app_ge by lia.
  replace (_ - _ - _)%nat with 0%nat by lia. done.
Qed.

(** ** Lemmas on digit strings *)

(** The [k] digits of [v], most significant first. *)
Fixpoint be_digits (k : nat) (base v : Z) : list Z :=
  match k with
  | O => []
  | S k => be_digits k base (v / base) ++ [v mod base]
  end.

Definition dval (base : Z) (n : Z) (ds : list Z) : Z := foldl (fun n d => n * base + d) n ds.

Definition is_digits (base : Z) (s : gostring) (ds : list Z) : Prop :=
  Forall2 (fun c d => digit_val c = Some d /\ 0 <= d < base) s ds.

Lemma length_be_digits k base v : length (be_digits k base v) = k.
Proof. revert v. induction k; intros; cbn; [done|]. rewrite length_app, IHk. cbn. lia. Qed.

Lemma be_digits_range k base v :
  0 < base -> Forall (fun d => 0 <= d < base) (be_digits k base v).
Proof.
  intros Hb. revert v. induction k as [|k IH]; intros v; cbn; [done|].
  apply Forall_app. split; [apply IH|]. repeat constructor; apply Z.mod_pos_bound; lia.
Qed.

Lemma be_digits_0 k base : 0 < base -> be_digits k base 0 = replicate k 0.
Proof.
  intros. induction k as [|k IH]; [done|]. cbn [be_digits].
  rewrite Z.div_0_l, Z.mod_0_l, IH by lia.
  replace (S k) with (k + 1)%nat by lia. by rewrite replicate_add.
Qed.

Lemma dval_app base n ds es : dval base n (ds ++ es) = dval base (dval base n ds) es.
Proof. apply foldl_app. Qed.

Lemma dval_be_digits k base v :
  0 < base -> 0 <= v < base ^ Z.of_nat k -> dval base 0 (be_digits k base v) = v.
Proof.
  intros Hb. revert v. induction k as [|k IH]; intros v Hv.
  - change (base ^ Z.of_nat 0) with 1 in Hv. cbn. lia.
  - rewrite Nat2Z.inj_succ, Z.pow_succ_r in Hv by lia.
    cbn [be_digits]. rewrite dval_app, IH.
    + cbn. pose proof (Z.div_mod v base). lia.
    + split; [apply Z.div_pos; lia | apply Z.div_lt_upper_bound; lia].
Qed.

Lemma be_digits_dval k base ds :
  0 < base -> length ds = k -> Forall (fun d => 0 <= d < base) ds ->
  be_digits k base (dval base 0 ds) = ds.
Proof.
  intros Hb. revert ds. induction k as [|k IH]; intros ds Hk Hds.
  - by destruct ds.
  - destruct ds as [|d ds _] using rev_ind; [done|].
    apply Forall_app in Hds as [Hds Hd]. rewrite Forall_singleton in Hd.
    rewrite length_app in Hk. cbn in Hk.
    rewrite dval_app. cbn [be_digits dval foldl]. unfold dval in *. cbn [foldl].
    rewrite Z.div_add_l, Z.div_small, Z.add_0_r by lia.
    rewrite Z.add_comm, Z.mod_add, Z.mod_small by lia.
    rewrite IH; [done | lia | done].
Qed.

Lemma dval_mono base n ds : 0 < base -> 0 <= n -> Forall (fun d => 0 <= d < base) ds ->
  n <= dval base n ds.
Proof.
  intros Hb. revert n. induction ds as [|d ds IH]; intros n Hn Hds; [cbn; lia|].
  apply Forall_cons in Hds as [Hd Hds].
  transitivity (n * base + d); [nia|]. apply IH; [nia | done].
Qed.

Lemma digit_val_char d : 0 <= d < 16 -> digit_val (digit_char d) = Some d.
Proof.
  intros. assert (d ∈ seqZ 0 16) as Hd by (apply elem_of_seqZ; lia).
  vm_compute in Hd. repeat (apply elem_of_cons in Hd as [->|Hd]; [reflexivity|]).
  by apply elem_of_nil in Hd.
Qed.

(** Lower-casing the hex digits. *)
Definition lower_hex (s : gostring) : gostring :=
  map (fun c => match digit_val c with Some d => digit_char d | None => c end) s.

Lemma is_digits_map base s ds :
  is_digits base s ds -> Forall (fun d => 0 <= d < base) ds /\ lower_hex s = map digit_char ds.
Proof.
  induction 1 as [|c d s ds [Hc Hd] _ [IH1 IH2]]; [done|].
  split; [by constructor|]. cbn. rewrite Hc. by f_equal.
Qed.

Lemma is_digits_chars base ds :
  base <= 16 -> Forall (fun d => 0 <= d < base) ds -> is_digits base (map digit_char ds) ds.
Proof.
  intros Hb. induction 1 as [|d ds Hd _ IH]; cbn; constructor; [|done].
  split; [apply digit_val_char; lia | done].
Qed.

(** [parse_uint_loop] reads exactly the digit strings whose value fits. *)
Lemma parse_uint_loop_Ok base maxVal n s v :
  0 < base -> 0 <= n <= maxVal ->
  parse_uint_loop base maxVal n s = Ok v <->
  exists ds, is_digits base s ds /\ v = dval base n ds /\ v <= maxVal.
Proof.
  intros Hb. revert n. induction s as [|c s IH]; intros n Hn; cbn [parse_uint_loop].
  - split.
    + intros [= <-]. exists []. repeat split; [constructor | lia].
    + intros (ds & Hds & -> & _). by apply Forall2_nil_inv_l in Hds as ->.
  - split.
    + destruct (digit_val c) as [d|] eqn:Ed; [|done].
      assert (0 <= d).
      { unfold digit_val in Ed. destruct (Z.leb_spec 48 (b2z c)); cbn in Ed;
        repeat case_match; simplify_eq; lia. }
      bool_case; try done. intros Hv.
      apply IH in Hv as (ds & Hds & -> & ?); [|nia].
      exists (d :: ds). repeat split; [|done]. constructor; [|done]. split; [done|lia].
    + intros (ds & Hds & -> & Hmax).
      apply Forall2_cons_inv_l in Hds as (d & ds' & [Hd Hr] & Hds & ->).
      rewrite Hd. destruct (Z.leb_spec base d); [lia|].
      pose proof (is_digits_map _ _ _ Hds) as [Hall _].
      pose proof (dval_mono base (n * base + d) ds' Hb ltac:(nia) Hall).
      cbn [dval foldl] in Hmax. fold (dval base (n * base + d) ds') in Hmax.
      destruct (Z.ltb_spec maxVal (n * base + d)); [lia|].
      apply IH; [nia|]. exists ds'. repeat split; done.
Qed.

Lemma digit_char_0 : digit_char 0 = z2b 48.
Proof. reflexivity. Qed.

(** Left-padding the formatted number with zeros gives its [k] digits. *)
Lemma format_uint_loop_pad base k fuel v acc :
  0 < base -> (1 <= k <= fuel)%nat -> 0 <= v < base ^ Z.of_nat k ->
  exists s, format_uint_loop fuel base v acc = s ++ acc /\ (length s <= k)%nat /\
    replicate (k - length s) (z2b 48) ++ s = map digit_char (be_digits k base v).
Proof.
  intros Hb. revert fuel v acc. induction k as [|k IH]; [lia|].
  intros [|fuel] v acc Hk Hv; [lia|]. cbn [format_uint_loop be_digits].
  rewrite Nat2Z.inj_succ, Z.pow_succ_r in Hv by lia.
  rewrite map_app. cbn [map]. destruct (Z.eqb_spec (v / base) 0) as [E|E].
  - exists [digit_char (v mod base)]. repeat split; [cbn; lia|].
    rewrite E, be_digits_0, fmap_replicate, digit_char_0 by lia.
    cbn. by rewrite Nat.sub_0_r.
  - assert (0 < v / base) by (pose proof (Z.div_pos v base); lia).
    destruct k as [|k].
    { change (base ^ Z.of_nat 0) with 1 in Hv. rewrite Z.div_small in E; lia. }
    destruct (IH fuel (v / base) (digit_char (v mod base) :: acc)) as (s & -> & Hs & Hp).
    { lia. }
    { split; [lia | apply Z.div_lt_upper_bound; lia]. }
    exists (s ++ [digit_char (v mod base)]). rewrite <- app_assoc. repeat split.
    + rewrite length_app. cbn. lia.
    + rewrite <- Hp, length_app, app_assoc. cbn. do 3 f_equal. lia.
Qed.

Lemma format_uint_pad base k v :
  0 < base -> (1 <= k <= 64)%nat -> 0 <= v < base ^ Z.of_nat k ->
  (length (format_uint base v) <= k)%nat /\
  replicate (k - length (format_uint base v)) (z2b 48) ++ format_uint base v =
  map digit_char (be_digits k base v).
Proof.
  intros Hb Hk Hv. unfold format_uint.
  destruct (format_uint_loop_pad base k 64 v [] Hb Hk Hv) as (s & -> & ? & ?).
  by rewrite app_nil_r.
Qed.

(** ** The hex form: round trips *)

Definition hex16 (v : Z) : gostring := map digit_char (be_digits 16 16 v).

Definition seg (h : hash) (i : Z) : Z := le_val (slice (i * 8) (i * 8 + 8) h).

Lemma length_hex16 v : length (hex16 v) = 16%nat.
Proof. unfold hex16. by rewrite length_map, length_be_digits. Qed.

Lemma len_hex16 v : len (hex16 v) = 16.
Proof. unfold len. by rewrite length_hex16. Qed.

Lemma seg_range h i : 0 <= i < 4 -> is_u64 (seg h i).
Proof.
  intros. apply le_val_u64. rewrite length_slice; [lia..|]. rewrite len_hash. lia.
Qed.

Lemma append_seg (p r : gostring) v :
  is_u64 v ->
  copy_at (len p + 16 - len (format_uint 16 v)) (format_uint 16 v)
    (p ++ replicate 16 (z2b 48) ++ r) = p ++ hex16 v ++ r.
Proof.
  unfold is_u64. intros Hv. destruct (format_uint_pad 16 16 v) as [Hlen Hpad]; [lia..|].
  set (s := format_uint 16 v) in *. unfold hex16. rewrite <- Hpad.
  replace (p ++ replicate 16 (z2b 48) ++ r) with
    ((p ++ replicate (16 - length s) (z2b 48)) ++ replicate (length s) (z2b 48) ++ r).
  2: { rewrite <- app_assoc, (app_assoc (replicate _ _)), <- replicate_add.
       do 3 f_equal. lia. }
  rewrite copy_at_mid.
  - by rewrite <- !app_assoc.
  - unfold len. rewrite length_app, length_replicate. lia.
  - by rewrite length_replicate.
Qed.

Lemma formatHash_segs h :
  formatHash h = hex16 (seg h 0) ++ hex16 (seg h 1) ++ hex16 (seg h 2) ++ hex16 (seg h 3).
Proof.
  unfold formatHash, appendHash. cbn [foldl app].
  change (replicate 64 (z2b 48)) with ([] ++ replicate 16 (z2b 48) ++ replicate 48 (z2b 48)).
  fold (seg h 0) (seg h 1) (seg h 2) (seg h 3).
  change (0 * 16 + 16) with (len (@nil byte) + 16).
  rewrite append_seg by (apply seg_range; lia).
  change (replicate 48 (z2b 48)) with (replicate 16 (z2b 48) ++ replicate 32 (z2b 48)).
  rewrite (app_nil_l (hex16 _ ++ _)).
  replace (1 * 16 + 16) with (len (hex16 (seg h 0)) + 16) by (by rewrite len_hex16).
  rewrite append_seg by (apply seg_range; lia).
  change (replicate 32 (z2b 48)) with (replicate 16 (z2b 48) ++ replicate 16 (z2b 48)).
  rewrite (app_assoc (hex16 (seg h 0))).
  replace (2 * 16 + 16) with (len (hex16 (seg h 0) ++ hex16 (seg h 1)) + 16)
    by (by rewrite len_app, !len_hex16).
  rewrite append_seg by (apply seg_range; lia).
  rewrite (app_assoc (_ ++ _) (hex16 _)).
  replace (replicate 16 (z2b 48)) with (replicate 16 (z2b 48) ++ []) by apply app_nil_r.
  replace (3 * 16 + 16) with (len ((hex16 (seg h 0) ++ hex16 (seg h 1)) ++ hex16 (seg h 2)) + 16)
    by (by rewrite !len_app, !len_hex16).
  rewrite append_seg by (apply seg_range; lia). by rewrite app_nil_r, <- !app_assoc.
Qed.

Lemma ParseUint_hex16 v : is_u64 v -> ParseUint (hex16 v) 16 64 = Ok v.
Proof.
  unfold is_u64. intros Hv. unfold ParseUint.
  destruct (hex16 v) eqn:E; [by apply (f_equal length) in E; rewrite length_hex16 in E|].
  rewrite <- E. clear E. apply parse_uint_loop_Ok; [lia..|].
  exists (be_digits 16 16 v). split.
  - apply is_digits_chars; [lia|]. apply be_digits_range. lia.
  - rewrite dval_be_digits by lia. lia.
Qed.

(** A parsed 16-digit segment is the lower-cased digits of its value. *)
Lemma ParseUint_hex16_inv s v :
  length s = 16%nat -> ParseUint s 16 64 = Ok v -> is_u64 v /\ lower_hex s = hex16 v.
Proof.
  intros Hs. unfold ParseUint. destruct s as [|c s0] eqn:E; [done|]. rewrite <- E in *. clear E.
  intros (ds & Hds & -> & Hmax)%parse_uint_loop_Ok; [|lia..].
  pose proof (Forall2_length _ _ _ Hds) as Hlen.
  apply is_digits_map in Hds as [Hall Hlow].
  split; [split; [apply (dval_mono 16 0); [lia..|done] | lia]|].
  unfold hex16. rewrite be_digits_dval; [done | lia | lia | done].
Qed.

(** The four steps of [parseHash] write the four little-endian words. *)
Lemma parseHash_words s v0 v1 v2 v3 :
  len s = 64 ->
  (forall i v, (i, v) ∈ [(0, v0); (1, v1); (2, v2); (3, v3)] ->
     ParseUint (slice (i * 16) (i * 16 + 16) s) 16 64 = Ok v) ->
  parseHash s =
    Ok (to_arr hashSize (put_u64 v0 ++ put_u64 v1 ++ put_u64 v2 ++ put_u64 v3)).
Proof.
  intros Hs Hp. unfold parseHash. rewrite Hs, Z.eqb_refl. cbn [negb foldM].
  rewrite (Hp 0 v0), (Hp 1 v1), (Hp 2 v2), (Hp 3 v3) by set_solver. cbn.
  reflexivity.
Qed.

Lemma hash_words h :
  vec_to_list h = put_u64 (seg h 0) ++ put_u64 (seg h 1) ++ put_u64 (seg h 2) ++ put_u64 (seg h 3).
Proof.
  unfold seg, put_u64.
  assert (forall i, 0 <= i < 4 ->
    le_bytes 8 (le_val (slice (i * 8) (i * 8 + 8) h)) = slice (i * 8) (i * 8 + 8) h) as Hw.
  { intros i Hi. rewrite <- (le_bytes_val (slice _ _ _)) at 2.
    rewrite length_slice; [|lia..|rewrite len_hash; lia].
    do 2 f_equal. lia. }
  rewrite !Hw by lia. clear Hw. unfold slice. cbn -[take drop].
  pose proof (length_hash h). set (l := vec_to_list h) in *.
  rewrite <- (take_drop 8 l) at 1. f_equal.
  rewrite <- (take_drop 8 (drop 8 l)) at 1. rewrite drop_drop. f_equal.
  rewrite <- (take_drop 8 (drop (8 + 8) l)) at 1. rewrite drop_drop. f_equal.
  symmetry. apply take_ge. rewrite length_drop. cbn. lia.
Qed.

Lemma formatHash_len h : len (formatHash h) = 64.
Proof. rewrite formatHash_segs, !len_app, !len_hex16. reflexivity. Qed.

Lemma length_formatHash h : length (formatHash h) = 64%nat.
Proof. pose proof (formatHash_len h) as H. unfold len in H. lia. Qed.

Lemma parse_formatHash h : parseHash (formatHash h) = Ok h.
Proof.
  erewrite parseHash_words; [|apply formatHash_len|].
  - rewrite <- hash_words, to_arr_vec. reflexivity.
  - intros i v Hi. rewrite formatHash_segs.
    repeat (apply elem_of_cons in Hi as [[= -> ->]|Hi];
      [ repeat (rewrite slice_app_r by (rewrite ?len_hex16; lia); rewrite len_hex16);
        first [ rewrite slice_prefix by (rewrite len_hex16; reflexivity)
              | rewrite slice_full by (rewrite len_hex16; reflexivity) ];
        apply ParseUint_hex16, seg_range; lia |]).
    by apply elem_of_nil in Hi.
Qed.

#[global] Instance formatHash_inj : Inj (=) (=) formatHash.
Proof.
  intros h k E. pose proof (parse_formatHash h) as H.
  rewrite E, parse_formatHash in H. by injection H.
Qed.

Lemma parseHash_Ok s h :
  parseHash s = Ok h ->
  len s = 64 /\ forall i, 0 <= i < 4 -> ParseUint (slice (i * 16) (i * 16 + 16) s) 16 64 = Ok (seg h i).
Proof.
  intros H. pose proof H as H0. unfold parseHash in H.
  destruct (Z.eqb_spec (len s) 64) as [Hs|]; [|done]. split; [done|].
  cbn [negb foldM] in H.
  destruct (ParseUint (slice (0 * 16) _ _) _ _) as [v0|] eqn:E0; [|done].
  destruct (ParseUint (slice (1 * 16) _ _) _ _) as [v1|] eqn:E1; [|done].
  destruct (ParseUint (slice (2 * 16) _ _) _ _) as [v2|] eqn:E2; [|done].
  destruct (ParseUint (slice (3 * 16) _ _) _ _) as [v3|] eqn:E3; [|done]. clear H.
  rewrite (parseHash_words s v0 v1 v2 v3 Hs) in H0.
  2: { intros i v. rewrite !elem_of_cons, elem_of_nil.
       intros [[= -> ->]|[[= -> ->]|[[= -> ->]|[[= -> ->]|[]]]]]; done. }
  injection H0 as <-.
  assert (forall i v, 0 <= i < 4 -> ParseUint (slice (i * 16) (i * 16 + 16) s) 16 64 = Ok v -> is_u64 v) as Hr.
  { intros i v Hi Hv. apply ParseUint_hex16_inv in Hv; [tauto|].
    rewrite length_slice by (rewrite ?Hs; lia). lia. }
  apply Hr in E0 as R0, E1 as R1, E2 as R2, E3 as R3; try lia.
  intros i Hi. assert (i = 0 \/ i = 1 \/ i = 2 \/ i = 3) as [-> | [-> | [-> | ->]]] by lia;
  unfold seg;
  [ rewrite E0, <- (le_val_put_u64 v0) at 1 by done
  | rewrite E1, <- (le_val_put_u64 v1) at 1 by done
  | rewrite E2, <- (le_val_put_u64 v2) at 1 by done
  | rewrite E3, <- (le_val_put_u64 v3) at 1 by done ]; reflexivity.
Qed.

Lemma format_parseHash s h : parseHash s = Ok h -> formatHash h = lower_hex s.
Proof.
  intros [Hs Hp]%parseHash_Ok.
  assert (forall i, 0 <= i < 4 -> hex16 (seg h i) = lower_hex (slice (i * 16) (i * 16 + 16) s)) as Hw.
  { intros i Hi. symmetry. eapply ParseUint_hex16_inv, Hp; [|done].
    rewrite length_slice by (rewrite ?Hs; lia). lia. }
  rewrite formatHash_segs, !Hw by lia. unfold lower_hex. rewrite <- !map_app. f_equal.
  rewrite <- (slice_all s) at 5. rewrite Hs.
  rewrite (slice_split 0 16 64), (slice_split 16 32 64), (slice_split 32 48 64) by lia.
  reflexivity.
Qed.

(** The hex form is a faithful name: every hash prints to a string that
    parses back to it, and a string that parses prints back as itself with its
    hex digits in lower case. *)
Theorem hash_string_roundtrip :
  (forall h, parseHash (formatHash h) = Ok h) /\
  (forall s h, parseHash s = Ok h -> formatHash h = lower_hex s).
Proof. split; [apply parse_formatHash | apply format_parseHash]. Qed.
