(* ===== verification/Json.v ===== *)
(** * JSON as [encoding/json] reads it

    The syntax [json.Unmarshal] accepts, with strings unquoted the way it
    unquotes them, and the matching of object members with struct fields.  The
    token issuer and the HTTP handlers decode through it.  Proved: the fuel of
    the parser is enough, and the flat objects [json.Marshal] writes for structs
    of plain strings and integers parse back to their members. *)

From Stdlib Require Import ZArith Lia Strings.Byte Strings.String.
From S2P Require Import Prelude Hash.

(** ** UTF-8 *)

Definition between (lo hi : Z) (b : byte) : bool := (lo <=? b2z b) && (b2z b <=? hi).
Definition low6 (b : byte) : Z := Z.land (b2z b) 63.

Definition RuneError : Z := 65533.

(** [utf8.DecodeRune]: the rune and its width. *)
Definition DecodeRune (s : list byte) : Z * nat :=
  let bad := (RuneError, 1%nat) in
  match s with
  | [] => (RuneError, 0%nat)
  | b0 :: s =>
      let v := b2z b0 in
      if v <? 128 then (v, 1%nat)
      else if between 194 223 b0 then
        match s with
        | b1 :: _ => if between 128 191 b1 then (Z.lor (Z.shiftl (Z.land v 31) 6) (low6 b1), 2%nat) else bad
        | _ => bad
        end
      else if between 224 239 b0 then
        match s with
        | b1 :: b2 :: _ =>
            let lo := if v =? 224 then 160 else 128 in
            let hi := if v =? 237 then 159 else 191 in
            if between lo hi b1 && between 128 191 b2
            then (Z.lor (Z.lor (Z.shiftl (Z.land v 15) 12) (Z.shiftl (low6 b1) 6)) (low6 b2), 3%nat)
            else bad
        | _ => bad
        end
      else if between 240 244 b0 then
        match s with
        | b1 :: b2 :: b3 :: _ =>
            let lo := if v =? 240 then 144 else 128 in
            let hi := if v =? 244 then 143 else 191 in
            if between lo hi b1 && between 128 191 b2 && between 128 191 b3
            then (Z.lor (Z.lor (Z.shiftl (Z.land v 7) 18) (Z.shiftl (low6 b1) 12)) (Z.lor (Z.shiftl (low6 b2) 6) (low6 b3)), 4%nat)
            else bad
        | _ => bad
        end
      else bad
  end.

(** [utf8.AppendRune]. *)
Definition EncodeRune (r : Z) : list byte :=
  let r := if (r <? 0) || (1114111 <? r) || ((55296 <=? r) && (r <=? 57343)) then RuneError else r in
  let tail n := z2b (128 + Z.land (Z.shiftr r n) 63) in
  if r <? 128 then [z2b r]
  else if r <? 2048 then [z2b (192 + Z.shiftr r 6); tail 0]
  else if r <? 65536 then [z2b (224 + Z.shiftr r 12); tail 6; tail 0]
  else [z2b (240 + Z.shiftr r 18); tail 12; tail 6; tail 0].

(** ** Syntax *)

Inductive json : Type :=
  | JNull
  | JBool (b : bool)
  | JNum (literal : gostring)
  | JStr (s : gostring)
  | JArr (l : list json)
  | JObj (l : list (gostring * json)).

Definition quote : byte := "034".
Definition backslash : byte := "\".

Definition is_space (c : byte) : bool := bool_decide (b2z c ∈ [32; 9; 10; 13]).

Fixpoint skip_ws (s : gostring) : gostring :=
  match s with
  | c :: s' => if is_space c then skip_ws s' else s
  | [] => []
  end.

Definition hex_val (c : byte) : option Z :=
  match digit_val c with Some d => if d <? 16 then Some d else None | None => None end.

(** [getu4] after the [\u]. *)
Definition getu4 (s : gostring) : option Z :=
  match s with
  | a :: b :: c :: d :: _ =>
      match hex_val a, hex_val b, hex_val c, hex_val d with
      | Some a, Some b, Some c, Some d => Some (4096 * a + 256 * b + 16 * c + d)
      | _, _, _, _ => None
      end
  | _ => None
  end.

(** [utf16.DecodeRune] of a surrogate and the escape that follows it. *)
Definition surrogate_pair (r : Z) (s : gostring) : option Z :=
  match s with
  | c :: u :: s =>
      if bool_decide (c = backslash /\ u = "u"%byte) then
        match getu4 s with
        | Some r' =>
            if (55296 <=? r) && (r <? 56320) && (56320 <=? r') && (r' <? 57344)
            then Some (Z.lor (Z.shiftl (r - 55296) 10) (r' - 56320) + 65536) else None
        | None => None
        end
      else None
  | _ => None
  end.

Definition simple_escape (c : byte) : option byte :=
  match c with
  | "034" => Some quote
  | "\" => Some backslash
  | "/" => Some "/"%byte
  | "b" => Some (z2b 8)
  | "f" => Some (z2b 12)
  | "n" => Some (z2b 10)
  | "r" => Some (z2b 13)
  | "t" => Some (z2b 9)
  | _ => None
  end%byte.

(** A string literal after its opening quote: the unquoted bytes and the rest.
    Every turn consumes a byte. *)
Fixpoint parse_string (fuel : nat) (s : gostring) : option (gostring * gostring) :=
  match fuel with
  | O => None
  | S fuel =>
      let emit (b : list byte) (rest : gostring) :=
        match parse_string fuel rest with Some (t, rest) => Some (b ++ t, rest) | None => None end in
      match s with
      | [] => None
      | c :: s' =>
          if bool_decide (c = quote) then Some ([], s')
          else if bool_decide (c = backslash) then
            match s' with
            | [] => None
            | e :: s'' =>
                if bool_decide (e = "u"%byte) then
                  match getu4 s'' with
                  | None => None
                  | Some r =>
                      let s3 := drop 4 s'' in
                      match surrogate_pair r s3 with
                      | Some r2 => emit (EncodeRune r2) (drop 6 s3)
                      | None => emit (EncodeRune r) s3
                      end
                  end
                else match simple_escape e with Some b => emit [b] s'' | None => None end
            end
          else if b2z c <? 32 then None
          else if b2z c <? 128 then emit [c] s'
          else
            let '(r, w) := DecodeRune s in
            emit (EncodeRune r) (drop w s)
      end
  end.

(** The digits a string starts with. *)
Fixpoint take_digits (s : gostring) : gostring * gostring :=
  match s with
  | c :: s' => if between 48 57 c then let '(d, rest) := take_digits s' in (c :: d, rest) else ([], s)
  | [] => ([], [])
  end.

(** At least one digit. *)
Definition some_digits (s : gostring) : option (gostring * gostring) :=
  match take_digits s with
  | ([], _) => None
  | (d, rest) => Some (d, rest)
  end.

(** [-? (0 | [1-9][0-9]* )]. *)
Definition parse_int_part (s : gostring) : option (gostring * gostring) :=
  let unsigned s :=
    match s with
    | c :: s' => if bool_decide (c = "0"%byte) then Some ([c], s') else some_digits s
    | [] => None
    end in
  match s with
  | c :: s' =>
      if bool_decide (c = "-"%byte) then match unsigned s' with Some (d, rest) => Some (c :: d, rest) | None => None end
      else unsigned s
  | [] => None
  end.

Definition parse_fraction (s : gostring) : option (gostring * gostring) :=
  match s with
  | c :: s' => if bool_decide (c = "."%byte) then match some_digits s' with Some (d, rest) => Some (c :: d, rest) | None => None end
               else Some ([], s)
  | [] => Some ([], [])
  end.

Definition parse_exponent (s : gostring) : option (gostring * gostring) :=
  match s with
  | c :: s' =>
      if bool_decide (c = "e"%byte \/ c = "E"%byte) then
        match s' with
        | sign :: s'' =>
            if bool_decide (sign = "+"%byte \/ sign = "-"%byte)
            then match some_digits s'' with Some (d, rest) => Some (c :: sign :: d, rest) | None => None end
            else match some_digits s' with Some (d, rest) => Some (c :: d, rest) | None => None end
        | [] => None
        end
      else Some ([], s)
  | [] => Some ([], [])
  end.

Definition parse_number (s : gostring) : option (gostring * gostring) :=
  match parse_int_part s with
  | None => None
  | Some (i, s) =>
      match parse_fraction s with
      | None => None
      | Some (f, s) =>
          match parse_exponent s with
          | None => None
          | Some (e, s) => Some (i ++ f ++ e, s)
          end
      end
  end.

(** A literal name. *)
Definition parse_word (word : gostring) (v : json) (s : gostring) : option (json * gostring) :=
  if bool_decide (take (length word) s = word) then Some (v, drop (length word) s) else None.

Definition maxNestingDepth : Z := 10000.

(** A value, the elements of an array after its bracket, and the members of an
    object after its brace; [depth] is the number of open brackets. *)
Fixpoint parse_value (fuel : nat) (depth : Z) (s : gostring) : option (json * gostring) :=
  match fuel with
  | O => None
  | S fuel =>
      match s with
      | [] => None
      | c :: s' =>
          if bool_decide (c = "{"%byte) then
            if maxNestingDepth <? depth + 1 then None
            else
              match skip_ws s' with
              | e :: s'' =>
                  if bool_decide (e = "}"%byte) then Some (JObj [], s'')
                  else match parse_members fuel (depth + 1) (skip_ws s') with Some (ms, rest) => Some (JObj ms, rest) | None => None end
              | [] => None
              end
          else if bool_decide (c = "["%byte) then
            if maxNestingDepth <? depth + 1 then None
            else
              match skip_ws s' with
              | e :: s'' =>
                  if bool_decide (e = "]"%byte) then Some (JArr [], s'')
                  else match parse_elements fuel (depth + 1) (skip_ws s') with Some (l, rest) => Some (JArr l, rest) | None => None end
              | [] => None
              end
          else if bool_decide (c = quote) then
            match parse_string (S (length s')) s' with Some (t, rest) => Some (JStr t, rest) | None => None end
          else if bool_decide (c = "t"%byte) then parse_word (str "true") (JBool true) s
          else if bool_decide (c = "f"%byte) then parse_word (str "false") (JBool false) s
          else if bool_decide (c = "n"%byte) then parse_word (str "null") JNull s
          else match parse_number s with Some (n, rest) => Some (JNum n, rest) | None => None end
      end
  end
with parse_elements (fuel : nat) (depth : Z) (s : gostring) : option (list json * gostring) :=
  match fuel with
  | O => None
  | S fuel =>
      match parse_value fuel depth s with
      | None => None
      | Some (v, rest) =>
          match skip_ws rest with
          | c :: rest =>
              if bool_decide (c = "]"%byte) then Some ([v], rest)
              else if bool_decide (c = ","%byte) then
                match parse_elements fuel depth (skip_ws rest) with Some (l, rest) => Some (v :: l, rest) | None => None end
              else None
          | [] => None
          end
      end
  end
with parse_members (fuel : nat) (depth : Z) (s : gostring) : option (list (gostring * json) * gostring) :=
  match fuel with
  | O => None
  | S fuel =>
      match s with
      | [] => None
      | c :: s =>
          if negb (bool_decide (c = quote)) then None
          else
            match parse_string (S (length s)) s with
            | None => None
            | Some (key, rest) =>
                match skip_ws rest with
                | [] => None
                | c :: rest =>
                    if negb (bool_decide (c = ":"%byte)) then None
                    else
                      match parse_value fuel depth (skip_ws rest) with
                      | None => None
                      | Some (v, rest) =>
                          match skip_ws rest with
                          | c :: rest =>
                              if bool_decide (c = "}"%byte) then Some ([(key, v)], rest)
                              else if bool_decide (c = ","%byte) then
                                match parse_members fuel depth (skip_ws rest) with
                                | Some (ms, rest) => Some ((key, v) :: ms, rest)
                                | None => None
                                end
                              else None
                          | [] => None
                          end
                      end
                end
            end
      end
  end.

(** A whole document: one value, white space around it.  A value and the
    members or elements in it take at most two calls per byte. *)
Definition parse (s : gostring) : option json :=
  match parse_value (2 * length s + 2) 0 (skip_ws s) with
  | Some (v, rest) => if bool_decide (skip_ws rest = []) then Some v else None
  | None => None
  end.

(** ** The parser consumes its input *)

Lemma skip_ws_le s : (length (skip_ws s) <= length s)%nat.
Proof. induction s as [|c s IH]; cbn; [done|]. destruct (is_space c); cbn; lia. Qed.

Lemma skip_ws_cons s c s' : skip_ws s = c :: s' -> (length s' < length s)%nat.
Proof. intros E. pose proof (skip_ws_le s) as H. rewrite E in H. cbn in H. lia. Qed.

Lemma DecodeRune_width c s : (1 <= (DecodeRune (c :: s)).2)%nat.
Proof. unfold DecodeRune. repeat case_match; cbn; lia. Qed.

Lemma parse_string_rest fuel s t rest : parse_string fuel s = Some (t, rest) -> (length rest < length s)%nat.
Proof.
  revert s t rest. induction fuel as [|fuel IH]; intros s t rest; cbn [parse_string]; [done|].
  destruct s as [|c s']; [done|]. case_bool_decide; [intros [= <- <-]; cbn; lia|].
  assert (forall b s0 (n : nat), (length s0 <= length s')%nat ->
    match parse_string fuel s0 with Some (t0, r0) => Some (b ++ t0, r0) | None => None end = Some (t, rest) ->
    (length rest < S (length s'))%nat) as Hemit.
  { intros b s0 _ Hl. destruct (parse_string fuel s0) as [[t0 r0]|] eqn:E; [|done]. intros [= <- <-]. apply IH in E. lia. }
  change (length (c :: s')) with (S (length s')). case_bool_decide.
  - destruct s' as [|e s'']; [done|]. case_bool_decide.
    + destruct (getu4 s'') as [r|]; [|done]. destruct (surrogate_pair _ _); apply (Hemit _ _ 0%nat); cbn; rewrite ?length_drop; lia.
    + destruct (simple_escape e); [|done]. apply (Hemit _ _ 0%nat). cbn. lia.
  - destruct (b2z c <? 32); [done|]. destruct (b2z c <? 128); [apply (Hemit _ _ 0%nat); lia|].
    pose proof (DecodeRune_width c s') as Hw. destruct (DecodeRune (c :: s')) as [r w]. cbn in Hw.
    apply (Hemit _ _ 0%nat). rewrite length_drop. cbn. lia.
Qed.

Lemma take_digits_rest s : (length (take_digits s).1 + length (take_digits s).2 = length s)%nat.
Proof. induction s as [|c s IH]; cbn; [done|]. destruct (between 48 57 c); [|done]. destruct (take_digits s). cbn in *. lia. Qed.

Lemma some_digits_rest s d rest : some_digits s = Some (d, rest) -> (length rest < length s)%nat.
Proof.
  unfold some_digits. pose proof (take_digits_rest s) as H. destruct (take_digits s) as [[|c d'] r]; [done|].
  intros [= <- <-]. cbn in H. lia.
Qed.

Lemma parse_number_rest s n rest : parse_number s = Some (n, rest) -> (length rest < length s)%nat.
Proof.
  unfold parse_number. destruct (parse_int_part s) as [[i s1]|] eqn:Ei; [|done].
  destruct (parse_fraction s1) as [[f s2]|] eqn:Ef; [|done]. destruct (parse_exponent s2) as [[e s3]|] eqn:Ee; [|done]. intros [= <- <-].
  assert (length s1 < length s)%nat.
  { unfold parse_int_part in Ei. destruct s as [|c s']; [done|]. case_bool_decide.
    - destruct s' as [|c' s'']; [done|]. case_bool_decide; [injection Ei as <- <-; cbn; lia|].
      destruct (some_digits _) as [[d r]|] eqn:Ed; [|done]. injection Ei as <- <-. apply some_digits_rest in Ed. cbn in *. lia.
    - case_bool_decide; [injection Ei as <- <-; cbn; lia|]. by apply some_digits_rest in Ei. }
  assert (length s2 <= length s1)%nat.
  { unfold parse_fraction in Ef. destruct s1 as [|c s']; [by injection Ef as <- <-|]. case_bool_decide; [|by injection Ef as <- <-].
    destruct (some_digits s') as [[d r]|] eqn:Ed; [|done]. injection Ef as <- <-. apply some_digits_rest in Ed. cbn. lia. }
  assert (length s3 <= length s2)%nat; [|lia].
  unfold parse_exponent in Ee. destruct s2 as [|c s']; [by injection Ee as <- <-|]. case_bool_decide; [|by injection Ee as <- <-].
  destruct s' as [|sg s'']; [done|]. case_bool_decide;
    (destruct (some_digits _) as [[d r]|] eqn:Ed; [|done]); injection Ee as <- <-; apply some_digits_rest in Ed; cbn in *; lia.
Qed.

Lemma parse_word_rest w v s j rest : w <> [] -> parse_word w v s = Some (j, rest) -> s <> [] -> (length rest < length s)%nat.
Proof.
  unfold parse_word. intros Hw. case_bool_decide as E; [|done]. intros [= <- <-] Hs. rewrite length_drop.
  destruct w, s; try done. cbn. lia.
Qed.

Lemma parse_rest fuel :
  (forall d s v rest, parse_value fuel d s = Some (v, rest) -> (length rest < length s)%nat) /\
  (forall d s v rest, parse_elements fuel d s = Some (v, rest) -> (length rest < length s)%nat) /\
  (forall d s v rest, parse_members fuel d s = Some (v, rest) -> (length rest < length s)%nat).
Proof.
  induction fuel as [|fuel (IHv & IHe & IHm)]; [done|]. split; [|split]; intros d s v rest.
  - cbn [parse_value]. destruct s as [|c s']; [done|]. change (length (c :: s')) with (S (length s')). pose proof (skip_ws_le s').
    case_bool_decide.
    { destruct (_ <? _); [done|]. destruct (skip_ws s') as [|e s''] eqn:E; [done|]. case_bool_decide; [intros [= <- <-]; cbn in *; lia|].
      destruct (parse_members _ _ _) as [[ms r]|] eqn:Em; [|done]. intros [= <- <-]. apply IHm in Em. lia. }
    case_bool_decide.
    { destruct (_ <? _); [done|]. destruct (skip_ws s') as [|e s''] eqn:E; [done|]. case_bool_decide; [intros [= <- <-]; cbn in *; lia|].
      destruct (parse_elements _ _ _) as [[l r]|] eqn:Em; [|done]. intros [= <- <-]. apply IHe in Em. lia. }
    case_bool_decide.
    { destruct (parse_string _ _) as [[t r]|] eqn:Es; [|done]. intros [= <- <-]. apply parse_string_rest in Es. lia. }
    case_bool_decide; [intros E; eapply parse_word_rest in E; done|]. case_bool_decide; [intros E; eapply parse_word_rest in E; done|].
    case_bool_decide; [intros E; eapply parse_word_rest in E; done|].
    destruct (parse_number (c :: s')) as [[n r]|] eqn:En; [|done]. intros [= <- <-]. apply parse_number_rest in En. cbn in En. lia.
  - cbn [parse_elements]. destruct (parse_value _ _ _) as [[x r]|] eqn:Ev; [|done]. apply IHv in Ev.
    destruct (skip_ws r) as [|c r'] eqn:Er; [done|]. apply skip_ws_cons in Er. case_bool_decide; [intros [= <- <-]; lia|].
    case_bool_decide; [|done]. destruct (parse_elements _ _ _) as [[l r2]|] eqn:Ee; [|done]. intros [= <- <-]. apply IHe in Ee.
    pose proof (skip_ws_le r'). lia.
  - cbn [parse_members]. destruct s as [|c s']; [done|]. change (length (c :: s')) with (S (length s')). destruct (negb _); [done|].
    destruct (parse_string _ _) as [[k r]|] eqn:Es; [|done]. apply parse_string_rest in Es.
    destruct (skip_ws r) as [|c' r'] eqn:Er; [done|]. apply skip_ws_cons in Er. destruct (negb _); [done|].
    destruct (parse_value _ _ _) as [[x r2]|] eqn:Ev; [|done]. apply IHv in Ev. pose proof (skip_ws_le r').
    destruct (skip_ws r2) as [|c2 r3] eqn:Er2; [done|]. apply skip_ws_cons in Er2. case_bool_decide; [intros [= <- <-]; lia|].
    case_bool_decide; [|done]. destruct (parse_members _ _ _) as [[l r4]|] eqn:Ee; [|done]. intros [= <- <-]. apply IHm in Ee.
    pose proof (skip_ws_le r3). lia.
Qed.

(** Beyond the fuel [parse] gives it, the parser does not run out. *)
Lemma parse_fuel fuel :
  (forall d s k, (2 * length s + 1 <= fuel)%nat -> parse_value (fuel + k) d s = parse_value fuel d s) /\
  (forall d s k, (2 * length s + 2 <= fuel)%nat -> parse_elements (fuel + k) d s = parse_elements fuel d s) /\
  (forall d s k, (2 * length s + 1 <= fuel)%nat -> parse_members (fuel + k) d s = parse_members fuel d s).
Proof.
  induction fuel as [|fuel (IHv & IHe & IHm)]; [repeat split; intros; lia|]. split; [|split]; intros d s k Hl.
  - cbn [Nat.add parse_value]. destruct s as [|c s']; [done|]. cbn [length] in Hl. pose proof (skip_ws_le s').
    case_bool_decide; [destruct (skip_ws s') as [|e s''] eqn:E; [done|]; case_bool_decide; [done|]; by rewrite IHm by lia|].
    case_bool_decide; [destruct (skip_ws s') as [|e s''] eqn:E; [done|]; case_bool_decide; [done|]; by rewrite IHe by lia|]. done.
  - cbn [Nat.add parse_elements]. rewrite IHv by lia. destruct (parse_value _ _ _) as [[x r]|] eqn:Ev; [|done].
    apply (proj1 (parse_rest fuel)) in Ev. destruct (skip_ws r) as [|c r'] eqn:Er; [done|]. apply skip_ws_cons in Er.
    pose proof (skip_ws_le r'). case_bool_decide; [done|]. case_bool_decide; [|done]. by rewrite IHe by lia.
  - cbn [Nat.add parse_members]. destruct s as [|c s']; [done|]. cbn [length] in Hl. destruct (negb _); [done|].
    destruct (parse_string _ _) as [[key r]|] eqn:Es; [|done]. apply parse_string_rest in Es.
    destruct (skip_ws r) as [|c' r'] eqn:Er; [done|]. apply skip_ws_cons in Er. destruct (negb _); [done|].
    pose proof (skip_ws_le r'). rewrite IHv by lia. destruct (parse_value _ _ _) as [[x r2]|] eqn:Ev; [|done].
    apply (proj1 (parse_rest fuel)) in Ev. destruct (skip_ws r2) as [|c2 r3] eqn:Er2; [done|]. apply skip_ws_cons in Er2.
    pose proof (skip_ws_le r3). case_bool_decide; [done|]. case_bool_decide; [|done]. by rewrite IHm by lia.
Qed.

(** ** Struct fields *)

(** [foldName], as far as it can meet an ASCII field name: the two runes outside
    ASCII that fold to a letter are the long s and the kelvin sign. *)
Fixpoint fold_name (s : gostring) : gostring :=
  match s with
  | c :: s =>
      match b2z c, s with
      | 197, d :: s' => if b2z d =? 191 then "S"%byte :: fold_name s' else c :: fold_name s
      | 226, d :: ((e :: s'') as s') =>
          if (b2z d =? 132) && (b2z e =? 170) then "K"%byte :: fold_name s'' else c :: fold_name s
      | v, _ => (if (97 <=? v) && (v <=? 122) then z2b (v - 32) else c) :: fold_name s
      end
  | [] => []
  end.

(** The field of a struct a member is decoded into: an exact name first. *)
Definition field_of (fields : list gostring) (key : gostring) : option gostring :=
  if bool_decide (key ∈ fields) then Some key else snd <$> list_find (fun f => fold_name f = fold_name key) fields.

(** ** Integers *)

Definition print_int (v : Z) : gostring := if v <? 0 then "-"%byte :: format_uint 10 (- v) else format_uint 10 v.

(** [strconv.ParseInt(s, 10, 64)]. *)
Definition ParseInt (s : gostring) : result Z :=
  let '(neg, digits) :=
    match s with
    | c :: s' => if bool_decide (c = "-"%byte) then (true, s') else if bool_decide (c = "+"%byte) then (false, s') else (false, s)
    | [] => (false, [])
    end in
  match ParseUint digits 10 64 with
  | Err e => Err e
  | Ok v =>
      if negb neg && (2 ^ 63 <=? v) then Err ErrRange
      else if neg && (2 ^ 63 <? v) then Err ErrRange
      else Ok (if (neg : bool) then - v else v)
  end.

(** The digits of a formatted number, without leading zeros. *)
Lemma format_uint_digits v :
  0 <= v < 2 ^ 64 -> exists ds, is_digits 10 (format_uint 10 v) ds /\ dval 10 0 ds = v /\
    (length ds = 1%nat \/ exists d ds', ds = d :: ds' /\ d <> 0).
Proof.
  intros Hv. unfold format_uint.
  assert (forall fuel v acc accd, 0 <= v < 10 ^ Z.of_nat fuel -> (0 < fuel)%nat -> is_digits 10 acc accd ->
    exists ds, is_digits 10 (format_uint_loop fuel 10 v acc) (ds ++ accd) /\ dval 10 0 ds = v /\
      (length ds = 1%nat \/ exists d ds', ds = d :: ds' /\ d <> 0)) as Hloop.
  { clear. induction fuel as [|fuel IH]; intros v acc accd Hv Hf Ha; [lia|]. cbn [format_uint_loop].
    pose proof (Z.mod_pos_bound v 10 ltac:(lia)). pose proof (Z.div_mod v 10 ltac:(lia)).
    assert (is_digits 10 (digit_char (v mod 10) :: acc) (v mod 10 :: accd)) as Ha'
      by (constructor; [split; [apply digit_val_char; lia|lia]|done]).
    destruct (Z.eqb_spec (v / 10) 0) as [E|E].
    - exists [v mod 10]. split; [done|]. split; [cbn; lia|]. by left.
    - assert (0 < v / 10) by (pose proof (Z.div_pos v 10); lia).
      rewrite Nat2Z.inj_succ, Z.pow_succ_r in Hv by lia.
      destruct (IH (v / 10) _ _ ltac:(split; [lia|]; apply Z.div_lt_upper_bound; lia)
        ltac:(destruct fuel; [change (10 ^ Z.of_nat 0) with 1 in Hv; rewrite Z.div_small in E; lia|lia]) Ha') as (ds & Hd & Hval & Hz).
      exists (ds ++ [v mod 10]). split; [by rewrite <- app_assoc|]. split; [rewrite dval_app, Hval; cbn; lia|].
      right. destruct Hz as [Hz|(d & ds' & -> & Hd0)]; [|by exists d, (ds' ++ [v mod 10])].
      destruct ds as [|d [|]]; try done. exists d, [v mod 10]. split; [done|]. cbn in Hval. lia. }
  destruct (Hloop 64%nat v [] []) as (ds & Hd & Hval & Hz); [|lia|constructor|].
  - split; [lia|]. apply Z.lt_le_trans with (2 ^ 64); [lia|]. apply Z.leb_le. vm_compute. reflexivity.
  - exists ds. by rewrite app_nil_r in Hd.
Qed.

Lemma ParseUint_format v : 0 <= v < 2 ^ 64 -> ParseUint (format_uint 10 v) 10 64 = Ok v.
Proof.
  intros Hv. destruct (format_uint_digits v Hv) as (ds & Hd & Hval & Hz). unfold ParseUint.
  destruct (format_uint 10 v) as [|c s] eqn:E.
  { apply Forall2_nil_inv_l in Hd as ->. destruct Hz as [|(?&?&?&?)]; done. }
  apply parse_uint_loop_Ok; [lia..|]. exists ds. split; [done|]. lia.
Qed.

Lemma digit_bounds c d : digit_val c = Some d -> 0 <= d < 10 -> between 48 57 c = true.
Proof.
  unfold digit_val, between. intros Hd Hr. destruct ((48 <=? b2z c) && (b2z c <=? 57)) eqn:E; [done|].
  destruct ((97 <=? Z.lor (b2z c) 32) && _) eqn:E2; [|done]. injection Hd as <-. apply andb_prop in E2 as [E2 _].
  apply Z.leb_le in E2. lia.
Qed.

Lemma is_digits_between s ds : is_digits 10 s ds -> Forall (fun c => between 48 57 c = true) s.
Proof. induction 1 as [|c d s ds [Hc Hd] _ IH]; constructor; [by eapply digit_bounds|done]. Qed.

Lemma between_neq lo hi c x : between lo hi c = true -> b2z x < lo \/ hi < b2z x -> c <> x.
Proof. unfold between. intros [H1%Z.leb_le H2%Z.leb_le]%andb_prop Hx ->. lia. Qed.

Lemma ParseInt_print v : - 2 ^ 63 <= v < 2 ^ 63 -> ParseInt (print_int v) = Ok v.
Proof.
  intros Hv. unfold ParseInt, print_int. destruct (Z.ltb_spec v 0) as [Hn|Hn].
  - rewrite bool_decide_eq_true_2 by done. rewrite ParseUint_format by lia. cbn [negb andb].
    destruct (Z.ltb_spec (2 ^ 63) (- v)); [lia|]. f_equal. lia.
  - destruct (format_uint_digits v ltac:(lia)) as (ds & Hd & Hval & Hz).
    destruct (format_uint 10 v) as [|c s] eqn:E; [apply Forall2_nil_inv_l in Hd as ->; destruct Hz as [|(?&?&?&?)]; done|].
    pose proof (is_digits_between _ _ Hd) as Hb. apply Forall_cons in Hb as [Hc _].
    rewrite bool_decide_eq_false_2 by (eapply between_neq; [exact Hc|left; reflexivity]).
    rewrite bool_decide_eq_false_2 by (eapply between_neq; [exact Hc|left; reflexivity]).
    rewrite <- E, ParseUint_format by lia. cbn [negb andb]. destruct (Z.leb_spec (2 ^ 63) v); [lia|done].
Qed.

(** ** What [json.Marshal] writes for a flat struct *)

(** A character [json.Marshal] writes as it is. *)
Definition plain_char (c : byte) : bool :=
  (32 <=? b2z c) && (b2z c <? 128) && negb (bool_decide (c ∈ [quote; backslash; "<"; ">"; "&"]))%byte.

Definition print_flat (v : json) : gostring :=
  match v with
  | JStr s => quote :: s ++ [quote]
  | JNum n => n
  | _ => []
  end.

Fixpoint print_members (ms : list (gostring * json)) : gostring :=
  match ms with
  | [] => []
  | [(k, v)] => quote :: k ++ quote :: ":"%byte :: print_flat v
  | (k, v) :: ms => quote :: k ++ quote :: ":"%byte :: print_flat v ++ ","%byte :: print_members ms
  end.

Definition print_object (ms : list (gostring * json)) : gostring := "{"%byte :: print_members ms ++ ["}"%byte].

(** Strings that need no escape, and 64-bit integers. *)
Definition flat (v : json) : Prop :=
  match v with
  | JStr s => forallb plain_char s = true
  | JNum n => exists z, - 2 ^ 63 <= z < 2 ^ 63 /\ n = print_int z
  | _ => False
  end.

Lemma parse_string_plain s rest fuel :
  forallb plain_char s = true -> (length s < fuel)%nat -> parse_string fuel (s ++ quote :: rest) = Some (s, rest).
Proof.
  revert fuel. induction s as [|c s IH]; intros [|fuel] Hs Hf; cbn in Hf; try lia; [done|].
  cbn [forallb] in Hs. apply andb_prop in Hs as [Hc Hs]. cbn [app parse_string]. rewrite IH by (done || lia).
  unfold plain_char in Hc. apply andb_prop in Hc as [[H1%Z.leb_le H2%Z.ltb_lt]%andb_prop H3%negb_true_iff%bool_decide_eq_false].
  rewrite bool_decide_eq_false_2 by set_solver. rewrite bool_decide_eq_false_2 by set_solver.
  destruct (Z.ltb_spec (b2z c) 32); [lia|]. destruct (Z.ltb_spec (b2z c) 128); [done|lia].
Qed.

(** What may follow a number. *)
Definition stops (rest : gostring) : Prop :=
  match rest with c :: _ => c = ","%byte \/ c = "}"%byte \/ c = "]"%byte | [] => False end.

Lemma take_digits_app s rest :
  Forall (fun c => between 48 57 c = true) s -> stops rest -> take_digits (s ++ rest) = (s, rest).
Proof.
  intros Hs Hr. induction Hs as [|c s Hc _ IH]; cbn [app take_digits].
  - destruct rest as [|c rest]; [done|]. cbn. by destruct Hr as [-> |[-> | ->]].
  - by rewrite Hc, IH.
Qed.

Lemma parse_unsigned v rest :
  0 <= v < 2 ^ 64 -> stops rest ->
  match format_uint 10 v ++ rest with
  | c :: s' => if bool_decide (c = "0"%byte) then Some ([c], s') else some_digits (format_uint 10 v ++ rest)
  | [] => None
  end = Some (format_uint 10 v, rest) /\ exists c s, format_uint 10 v = c :: s /\ c <> "-"%byte.
Proof.
  intros Hv Hr. destruct (format_uint_digits v Hv) as (ds & Hd & Hval & Hz). pose proof (is_digits_between _ _ Hd) as Hb.
  unfold some_digits. rewrite (take_digits_app _ rest) by done. destruct (format_uint 10 v) as [|c s] eqn:E.
  { apply Forall2_nil_inv_l in Hd as ->. destruct Hz as [|(?&?&?&?)]; done. }
  apply Forall_cons in Hb as [Hc _]. split; [|exists c, s; split; [done|]; eapply between_neq; [exact Hc|left; reflexivity]].
  cbn [app]. case_bool_decide as H0; [|done]. subst c. apply Forall2_cons_inv_l in Hd as (d & ds' & [Hd0 _] & Hd & ->).
  vm_compute in Hd0. injection Hd0 as <-. destruct Hz as [Hz|(d & ds'' & [= <- <-] & Hne)]; [|done].
  destruct ds'; [|done]. by apply Forall2_nil_inv_r in Hd as ->.
Qed.

Lemma parse_number_print v rest :
  - 2 ^ 63 <= v < 2 ^ 64 -> stops rest -> parse_number (print_int v ++ rest) = Some (print_int v, rest).
Proof.
  intros Hv Hr. assert (parse_int_part (print_int v ++ rest) = Some (print_int v, rest)) as E.
  { unfold print_int. destruct (Z.ltb_spec v 0).
    - destruct (parse_unsigned (- v) rest ltac:(lia) Hr) as [E _]. cbn [app parse_int_part]. rewrite bool_decide_eq_true_2 by done. by rewrite E.
    - destruct (parse_unsigned v rest ltac:(lia) Hr) as [E (c & s & Ec & Hc)]. unfold parse_int_part. rewrite Ec in *. cbn [app] in *.
      by rewrite bool_decide_eq_false_2. }
  destruct rest as [|c rest]; [done|].
  assert (parse_fraction (c :: rest) = Some ([], c :: rest) /\ parse_exponent (c :: rest) = Some ([], c :: rest)) as [E1 E2]
    by (by destruct Hr as [-> |[-> | ->]]).
  unfold parse_number. by rewrite E, E1, E2, !app_nil_r.
Qed.

Lemma print_int_head z :
  - 2 ^ 63 <= z < 2 ^ 64 -> exists c s, print_int z = c :: s /\ (c = "-"%byte \/ between 48 57 c = true).
Proof.
  intros Hz. unfold print_int. destruct (Z.ltb_spec z 0); [by eexists _, _; split; [|left]|].
  destruct (format_uint_digits z ltac:(lia)) as (ds & Hd & _ & Hzz). pose proof (is_digits_between _ _ Hd) as Hb.
  destruct (format_uint 10 z) as [|c s]; [apply Forall2_nil_inv_l in Hd as ->; destruct Hzz as [|(?&?&?&?)]; done|].
  apply Forall_cons in Hb as [Hc _]. eexists _, _. split; [done|]. by right.
Qed.

(** The first character of a number is none outside the digits and the minus. *)
Lemma number_head c x : c = "-"%byte \/ between 48 57 c = true -> b2z x < 45 \/ 57 < b2z x -> c <> x.
Proof.
  intros Hc Hx ->. destruct Hc as [E|Hc]; [|unfold between in Hc; lia].
  assert (b2z x = 45) by (by rewrite E). lia.
Qed.

Lemma parse_flat fuel d v rest : flat v -> stops rest -> parse_value (S fuel) d (print_flat v ++ rest) = Some (v, rest).
Proof.
  intros Hv Hr. destruct v as [| |n|s| |]; try done; cbn [print_flat].
  - destruct Hv as (z & Hz & ->). pose proof (parse_number_print z rest ltac:(lia) Hr) as E.
    destruct (print_int_head z ltac:(lia)) as (c & s & Ec & Hc). rewrite Ec in *. cbn [app] in *. cbn [parse_value].
    rewrite !bool_decide_eq_false_2 by (apply (number_head _ _ Hc); vm_compute; auto). by rewrite E.
  - change ((quote :: s ++ [quote]) ++ rest) with (quote :: (s ++ [quote]) ++ rest). rewrite <- app_assoc. cbn [app parse_value].
    repeat (rewrite bool_decide_eq_false_2 by done). rewrite bool_decide_eq_true_2 by done.
    rewrite parse_string_plain; [done|done|rewrite length_app; lia].
Qed.

(** Names that need no escape and flat values. *)
Definition flat_members (ms : list (gostring * json)) : Prop :=
  Forall (fun m => forallb plain_char m.1 = true /\ flat m.2) ms.

Lemma skip_ws_stop c s : c ∈ [","; "}"; "]"; ":"; "{"; "["; quote]%byte -> skip_ws (c :: s) = c :: s.
Proof. intros Hc. repeat (apply elem_of_cons in Hc as [-> |Hc]; [done|]). by apply elem_of_nil in Hc. Qed.

Lemma skip_ws_flat v tail : flat v -> skip_ws (print_flat v ++ tail) = print_flat v ++ tail.
Proof.
  intros Hv. destruct v as [| |n|s| |]; try done. destruct Hv as (z & Hz & ->). cbn [print_flat].
  destruct (print_int_head z ltac:(lia)) as (c & s & -> & Hc). cbn [app skip_ws]. assert (is_space c = false) as ->; [|done].
  apply bool_decide_eq_false_2. intros Hin. destruct Hc as [-> |Hc]; [by vm_compute in Hin; set_solver|].
  unfold between in Hc. rewrite !elem_of_cons, elem_of_nil in Hin. lia.
Qed.

Lemma parse_members_print fuel d ms rest :
  ms <> [] -> flat_members ms -> (length ms < fuel)%nat ->
  parse_members fuel d (print_members ms ++ "}"%byte :: rest) = Some (ms, rest).
Proof.
  intros Hne Hms. revert fuel. induction Hms as [|[k v] ms [Hk Hv] Hms IH]; intros fuel Hf; [done|]. cbn in Hk, Hv.
  destruct fuel as [|[|fuel]]; cbn [length] in Hf; [lia..|].
  assert (forall tail, stops tail -> parse_members (S (S fuel)) d (quote :: k ++ quote :: ":"%byte :: print_flat v ++ tail) =
    match tail with
    | c :: tail' => if bool_decide (c = "}"%byte) then Some ([(k, v)], tail') else if bool_decide (c = ","%byte) then
        match parse_members (S fuel) d (skip_ws tail') with Some (ms, rest) => Some ((k, v) :: ms, rest) | None => None end else None
    | [] => None
    end) as Estep.
  { intros tail Ht. cbn [parse_members]. rewrite bool_decide_eq_true_2 by done. cbn [negb].
    rewrite parse_string_plain by (done || (rewrite length_app; lia)). rewrite skip_ws_stop by (repeat constructor).
    rewrite bool_decide_eq_true_2 by done. cbn [negb]. rewrite skip_ws_flat by done. rewrite parse_flat by done.
    destruct tail as [|c tail]; [done|]. rewrite skip_ws_stop by (destruct Ht as [-> |[-> | ->]]; repeat constructor). done. }
  destruct ms as [|m ms].
  - cbn [print_members app]. rewrite <- app_assoc. cbn [app]. rewrite Estep by (by right; left). by rewrite bool_decide_eq_true_2.
  - change (print_members ((k, v) :: m :: ms)) with (quote :: k ++ quote :: ":"%byte :: print_flat v ++ ","%byte :: print_members (m :: ms)).
    cbn [app]. rewrite <- app_assoc. cbn [app]. rewrite <- app_assoc. cbn [app]. rewrite Estep by (by left).
    rewrite bool_decide_eq_false_2 by done. rewrite bool_decide_eq_true_2 by done.
    assert (skip_ws (print_members (m :: ms) ++ "}"%byte :: rest) = print_members (m :: ms) ++ "}"%byte :: rest) as ->.
    { destruct m as [k' v'], ms; apply skip_ws_stop; repeat constructor. }
    rewrite IH; [done|done|cbn [length] in *; lia].
Qed.

(** A flat object reads back as its members. *)
Lemma parse_print_object ms : ms <> [] -> flat_members ms -> parse (print_object ms) = Some (JObj ms).
Proof.
  intros Hne Hms. unfold parse, print_object.
  assert (skip_ws ("{"%byte :: print_members ms ++ ["}"%byte]) = "{"%byte :: print_members ms ++ ["}"%byte]) as -> by done.
  assert (length ms <= length (print_members ms))%nat as Hlen.
  { clear. induction ms as [|[k v] ms IH]; [done|]. destruct ms as [|m ms]; [cbn; lia|].
    change (print_members ((k, v) :: m :: ms)) with (quote :: k ++ quote :: ":"%byte :: print_flat v ++ ","%byte :: print_members (m :: ms)).
    cbn [length] in *. rewrite !length_app. cbn [length]. rewrite !length_app. cbn [length]. lia. }
  cbn [length]. rewrite length_app. cbn [length]. set (n := length (print_members ms)) in *.
  replace (2 * S (n + 1) + 2)%nat with (S (2 * n + 5)) by lia. cbn [parse_value]. rewrite bool_decide_eq_true_2 by done.
  change (maxNestingDepth <? 0 + 1) with false. cbn [negb].
  assert (exists s', print_members ms ++ ["}"%byte] = quote :: s') as [s' Es].
  { destruct ms as [|[k v] [|m ms]]; [done|by eexists..]. }
  assert (skip_ws (print_members ms ++ ["}"%byte]) = print_members ms ++ ["}"%byte]) as -> by (rewrite Es; apply skip_ws_stop; repeat constructor).
  rewrite Es at 1. rewrite bool_decide_eq_false_2 by done. rewrite (parse_members_print _ _ ms []) by (done || lia). done.
Qed.
