(* ===== verification/JsonPrint.v ===== *)
(** * What [encoding/json] writes, and reads back

    [json.Marshal] with the escapes of strings, and that [parse] reads its
    output back, up to bytes of strings that are no UTF-8, which come back as
    the replacement character. *)

From Stdlib Require Import ZArith Lia Strings.Byte Strings.String.
From S2P Require Import Prelude Hash Json.

(** ** Strings *)

Definition hex_digits (v : Z) : gostring := [digit_char (v / 16); digit_char (v mod 16)].

(** An ASCII character, as [appendString] writes it. *)
Definition escape_char (c : byte) : gostring :=
  if plain_char c then [c]
  else if bool_decide (c = quote \/ c = backslash) then [backslash; c]
  else
    match b2z c with
    | 8 => str "\b" | 9 => str "\t" | 10 => str "\n" | 12 => str "\f" | 13 => str "\r"
    | v => str "\u00" ++ hex_digits v
    end.

(** [appendString]; every turn takes a byte of [s]. *)
Fixpoint escape_n (fuel : nat) (s : gostring) : gostring :=
  match fuel, s with
  | S fuel, c :: s' =>
      if b2z c <? 128 then escape_char c ++ escape_n fuel s'
      else
        let '(r, w) := DecodeRune s in
        (if (r =? RuneError) && Nat.eqb w 1 then str "\ufffd"
         else if (r =? 8232) || (r =? 8233) then str "\u202" ++ [digit_char (r - 8224)]
         else take w s) ++ escape_n fuel (drop w s)
  | _, _ => []
  end.

Definition escape (s : gostring) : gostring := escape_n (length s) s.

(** What is read back: runes, the replacement character for what is none. *)
Fixpoint clean_n (fuel : nat) (s : gostring) : gostring :=
  match fuel, s with
  | S fuel, c :: s' =>
      if b2z c <? 128 then c :: clean_n fuel s'
      else let '(r, w) := DecodeRune s in EncodeRune r ++ clean_n fuel (drop w s)
  | _, _ => []
  end.

Definition clean_string (s : gostring) : gostring := clean_n (length s) s.

(** The bytes of a rune do not depend on what follows. *)
Lemma DecodeRune_take b0 s r w x :
  DecodeRune (b0 :: s) = (r, w) -> (r =? RuneError) && Nat.eqb w 1 = false -> DecodeRune (take w (b0 :: s) ++ x) = (r, w).
Proof.
  cbn [DecodeRune]. destruct (b2z b0 <? 128) eqn:E0.
  { intros [= <- <-] _. cbn [take app DecodeRune]. by rewrite E0. }
  destruct (between 194 223 b0) eqn:E1.
  { destruct s as [|b1 s]; [by intros [= <- <-]|]. destruct (between 128 191 b1) eqn:E2; [|by intros [= <- <-]]. intros [= <- <-] _.
    cbn [take app DecodeRune]. by rewrite E0, E1, E2. }
  destruct (between 224 239 b0) eqn:E2.
  { destruct s as [|b1 [|b2 s]]; [by intros [= <- <-]..|]. cbn zeta. destruct (_ && between 128 191 b2) eqn:E3; [|by intros [= <- <-]].
    intros [= <- <-] _. cbn [take app DecodeRune]. cbn zeta. by rewrite E0, E1, E2, E3. }
  destruct (between 240 244 b0) eqn:E3; [|by intros [= <- <-]].
  destruct s as [|b1 [|b2 [|b3 s]]]; [by intros [= <- <-]..|]. cbn zeta. destruct (_ && between 128 191 b3) eqn:E4; [|by intros [= <- <-]].
  intros [= <- <-] _. cbn [take app DecodeRune]. cbn zeta. by rewrite E0, E1, E2, E3, E4.
Qed.

Lemma DecodeRune_fits s : ((DecodeRune s).2 <= length s)%nat.
Proof.
  destruct s as [|b0 s]; [done|]. cbn [DecodeRune length]. destruct (b2z b0 <? 128); [cbn; lia|].
  destruct (between 194 223 b0); [destruct s as [|b1 s]; [cbn; lia|]; destruct (between _ _ b1); cbn; lia|].
  destruct (between 224 239 b0); [destruct s as [|b1 [|b2 s]]; [cbn; lia..|]; cbn zeta; destruct (_ && _); cbn; lia|].
  destruct (between 240 244 b0); [|cbn; lia]. destruct s as [|b1 [|b2 [|b3 s]]]; [cbn; lia..|]. cbn zeta. destruct (_ && _); cbn; lia.
Qed.

(** One step of reading a string. *)
Definition emit_string (b : gostring) (o : option (gostring * gostring)) : option (gostring * gostring) :=
  match o with Some (t, rest) => Some (b ++ t, rest) | None => None end.

Lemma parse_plain_char c fuel s : plain_char c = true -> parse_string (S fuel) (c :: s) = emit_string [c] (parse_string fuel s).
Proof.
  unfold plain_char. intros [[H1%Z.leb_le H2%Z.ltb_lt]%andb_prop H3%negb_true_iff%bool_decide_eq_false]%andb_prop. cbn [parse_string].
  rewrite bool_decide_eq_false_2 by set_solver. rewrite bool_decide_eq_false_2 by set_solver.
  destruct (Z.ltb_spec (b2z c) 32); [lia|]. destruct (Z.ltb_spec (b2z c) 128); [done|lia].
Qed.

Lemma surrogate_none r s : r < 55296 \/ 56320 <= r -> surrogate_pair r s = None.
Proof.
  intros Hr. unfold surrogate_pair. destruct s as [|c [|u s]]; [done..|]. case_bool_decide; [|done]. destruct (getu4 s); [|done].
  assert ((55296 <=? r) && (r <? 56320) = false) as -> by lia. done.
Qed.

(** A [\u] escape of four digits. *)
Lemma parse_unicode a b d e r fuel s :
  getu4 [a; b; d; e] = Some r -> r < 55296 \/ 56320 <= r ->
  parse_string (S fuel) (backslash :: "u"%byte :: a :: b :: d :: e :: s) = emit_string (EncodeRune r) (parse_string fuel s).
Proof.
  intros Hg Hr. cbn [parse_string]. rewrite bool_decide_eq_false_2 by done. rewrite !bool_decide_eq_true_2 by done.
  assert (getu4 (a :: b :: d :: e :: s) = Some r) as -> by exact Hg. cbn [drop]. by rewrite surrogate_none.
Qed.

Lemma parse_escape_char c fuel s : b2z c < 128 -> parse_string (S fuel) (escape_char c ++ s) = emit_string [c] (parse_string fuel s).
Proof.
  intros Hc. unfold escape_char. destruct (plain_char c) eqn:Ep; [by apply parse_plain_char|].
  assert (forall x y, simple_escape x = Some y -> x <> "u"%byte -> parse_string (S fuel) (backslash :: x :: s) = emit_string [y] (parse_string fuel s)) as Hs.
  { intros x y Hx Hu. cbn [parse_string]. rewrite bool_decide_eq_false_2 by done. rewrite bool_decide_eq_true_2 by done. rewrite bool_decide_eq_false_2 by done. by rewrite Hx. }
  case_bool_decide as Hq; [destruct Hq as [-> | ->]; by apply Hs|].
  set (m := match b2z c with 8 => _ | _ => _ end).
  assert ((exists x, simple_escape x = Some c /\ x <> "u"%byte /\ m = [backslash; x]) \/
    (exists a b, getu4 ["0"; "0"; a; b]%byte = Some (b2z c) /\ m = str "\u00" ++ [a; b] /\ EncodeRune (b2z c) = [c])) as [(x & Hx & Hu & ->)|(a & b & Hg & -> & Hr)].
  { clear Hs Hq. subst m. revert Ep Hc. clear. destruct c; intros Ep Hc; try (vm_compute in Hc; discriminate Hc); try (vm_compute in Ep; discriminate Ep);
      first [ right; eexists _, _; split; [|split]; [|reflexivity|reflexivity]; reflexivity
        | left; first [exists "b"%byte; by split | exists "t"%byte; by split | exists "n"%byte; by split | exists "f"%byte; by split | exists "r"%byte; by split] ]. }
  - by apply Hs.
  - change ((str "\u00" ++ [a; b]) ++ s) with (backslash :: "u"%byte :: "0"%byte :: "0"%byte :: a :: b :: s). rewrite (parse_unicode "0" "0" a b (b2z c)) by (done || lia). by rewrite Hr.
Qed.

Lemma escape_length k s : (length s <= k)%nat -> (length s <= length (escape_n k s))%nat.
Proof.
  revert s. induction k as [|k IH]; intros [|c s] Hk; cbn [length] in Hk; try (cbn; lia). cbn [escape_n]. destruct (b2z c <? 128).
  - rewrite length_app. specialize (IH s ltac:(lia)). assert (escape_char c <> []) as Hne by (by destruct c).
    destruct (escape_char c); [done|]. cbn [length]. lia.
  - destruct (DecodeRune (c :: s)) as [r w] eqn:Er. pose proof (DecodeRune_width c s) as Hw. pose proof (DecodeRune_fits (c :: s)) as Hf. rewrite Er in Hw, Hf. cbn [snd length] in Hw, Hf.
    specialize (IH (drop w (c :: s)) ltac:(rewrite length_drop; cbn [length]; lia)). rewrite length_drop in IH. rewrite length_app. cbn [length] in IH |- *.
    destruct ((r =? RuneError) && Nat.eqb w 1) eqn:Eb; [apply andb_prop in Eb as [_ ->%Nat.eqb_eq]; change (length (str "\ufffd")) with 6%nat; lia|].
    destruct (_ || _) eqn:E2; [|rewrite length_take; cbn [length]; lia]. rewrite length_app. cbn [length].
    enough (w <= 6)%nat by (change (length (str "\u202")) with 5%nat; lia). clear -Er. revert Er. cbn [DecodeRune]. repeat case_match; intros [= _ <-]; lia.
Qed.

(** A string reads back as its runes. *)
Lemma parse_escape fuel k s rest : (length s <= k)%nat -> (k < fuel)%nat ->
  parse_string fuel (escape_n k s ++ quote :: rest) = Some (clean_n k s, rest).
Proof.
  revert fuel s. induction k as [|k IH]; intros [|fuel] s Hk Hf; try lia.
  { destruct s; [done|cbn in Hk; lia]. }
  destruct s as [|c s]; [done|]. cbn [escape_n clean_n]. cbn [length] in Hk. destruct (Z.ltb_spec (b2z c) 128) as [Hc|Hc].
  { rewrite <- app_assoc, parse_escape_char by done. by rewrite IH by lia. }
  destruct (DecodeRune (c :: s)) as [r w] eqn:Er. pose proof (DecodeRune_width c s) as Hw. rewrite Er in Hw. cbn [snd] in Hw.
  assert (length (drop w (c :: s)) <= k)%nat as Hd by (rewrite length_drop; cbn [length]; lia). rewrite <- app_assoc.
  destruct ((r =? RuneError) && Nat.eqb w 1) eqn:Eb.
  { apply andb_prop in Eb as [->%Z.eqb_eq _]. change (str "\ufffd" ++ ?x) with (backslash :: "u"%byte :: "f"%byte :: "f"%byte :: "f"%byte :: "d"%byte :: x).
    rewrite (parse_unicode "f" "f" "f" "d" RuneError) by (reflexivity || (unfold RuneError; lia)). by rewrite IH by lia. }
  destruct ((r =? 8232) || (r =? 8233)) eqn:E2.
  { rewrite <- app_assoc. cbn [app].
    match goal with |- context [str "\u202" ++ ?x :: ?y] => change (str "\u202" ++ x :: y) with (backslash :: "u"%byte :: "2"%byte :: "0"%byte :: "2"%byte :: x :: y) end.
    rewrite (parse_unicode "2" "0" "2" (digit_char (r - 8224)) r); [by rewrite IH by lia| |lia]. assert (r = 8232 \/ r = 8233) as [-> | ->] by lia; reflexivity. }
  pose proof (DecodeRune_take c s r w (escape_n k (drop w (c :: s)) ++ quote :: rest) Er Eb) as Et.
  destruct w as [|w]; [lia|]. cbn [take app] in Et |- *. cbn [parse_string].
  rewrite bool_decide_eq_false_2 by (intros ->; vm_compute in Hc; by apply Hc). rewrite bool_decide_eq_false_2 by (intros ->; vm_compute in Hc; by apply Hc).
  destruct (Z.ltb_spec (b2z c) 32); [lia|]. destruct (Z.ltb_spec (b2z c) 128); [lia|]. cbn [app] in Et. rewrite Et.
  pose proof (DecodeRune_fits (c :: s)) as Hl. rewrite Er in Hl. cbn [snd] in Hl.
  assert (drop (S w) (c :: take w s ++ escape_n k (drop (S w) (c :: s)) ++ quote :: rest) = escape_n k (drop (S w) (c :: s)) ++ quote :: rest) as ->.
  { cbn [drop]. apply drop_app_length'. rewrite length_take. cbn [length] in Hl. lia. }
  by rewrite IH by lia.
Qed.

(** ** Values *)

Fixpoint commas (l : list gostring) : gostring :=
  match l with
  | [] => []
  | [s] => s
  | s :: l => s ++ ","%byte :: commas l
  end.

Definition print_str (s : gostring) : gostring := quote :: s ++ [quote].

(** [json.Marshal]; the names of struct fields need no escape. *)
Fixpoint print_json (v : json) : gostring :=
  match v with
  | JNull => str "null"
  | JBool true => str "true"
  | JBool false => str "false"
  | JNum n => n
  | JStr s => print_str (escape s)
  | JArr l => "["%byte :: commas (map print_json l) ++ ["]"%byte]
  | JObj ms => "{"%byte :: commas (map (fun m => print_str m.1 ++ ":"%byte :: print_json m.2) ms) ++ ["}"%byte]
  end.

(** What is read back. *)
Fixpoint read_json (v : json) : json :=
  match v with
  | JStr s => JStr (clean_string s)
  | JArr l => JArr (map read_json l)
  | JObj ms => JObj (map (fun m => (m.1, read_json m.2)) ms)
  | v => v
  end.

(** 64-bit integers and names that need no escape, nested at most [d] deep. *)
Inductive printable : nat -> json -> Prop :=
  | pr_null d : printable d JNull
  | pr_bool d b : printable d (JBool b)
  | pr_num d z : - 2 ^ 63 <= z < 2 ^ 64 -> printable d (JNum (print_int z))
  | pr_str d s : printable d (JStr s)
  | pr_arr d l : (forall v, v ∈ l -> printable d v) -> printable (S d) (JArr l)
  | pr_obj d ms : (forall m, m ∈ ms -> forallb plain_char m.1 = true /\ printable d m.2) -> printable (S d) (JObj ms).

(** Calls of the parser. *)
Fixpoint json_size (v : json) : nat :=
  match v with
  | JArr l => S (list_sum (map (fun v => S (json_size v)) l))
  | JObj ms => S (list_sum (map (fun m => S (json_size m.2)) ms))
  | _ => 1%nat
  end.

Lemma list_sum_elem {A} (f : A -> nat) l a : a ∈ l -> (f a <= list_sum (map f l))%nat.
Proof. induction 1 as [a l|a b l _ IH]; cbn; [lia|]. unfold list_sum in IH. lia. Qed.

Lemma print_head d v : printable d v -> exists c s, print_json v = c :: s /\ is_space c = false /\ c <> "]"%byte /\ c <> "}"%byte.
Proof.
  intros Hv. destruct Hv as [d|d [|]|d z Hz|d s|d l Hl|d ms Hms]; cbn [print_json]; try by eexists _, _.
  destruct (print_int_head z Hz) as (c & s & -> & Hc). exists c, s. split; [done|]. split; [|split; apply (number_head _ _ Hc); vm_compute; auto].
  apply bool_decide_eq_false_2. intros Hin. destruct Hc as [-> |Hc]; [by vm_compute in Hin; set_solver|].
  unfold between in Hc. rewrite !elem_of_cons, elem_of_nil in Hin. lia.
Qed.

Lemma print_skip d v tail : printable d v -> skip_ws (print_json v ++ tail) = print_json v ++ tail.
Proof. intros Hv. destruct (print_head d v Hv) as (c & s & -> & Hc & _). cbn [app skip_ws]. by rewrite Hc. Qed.

Definition reads_back (d : nat) (v : json) : Prop :=
  forall fuel depth rest, (json_size v <= fuel)%nat -> depth + Z.of_nat d <= maxNestingDepth -> stops rest ->
  parse_value fuel depth (print_json v ++ rest) = Some (read_json v, rest).

(** The elements of an array up to its bracket. *)
Lemma parse_elements_print d l fuel depth rest :
  l <> [] -> (forall v, v ∈ l -> printable d v) -> (forall v, v ∈ l -> reads_back d v) ->
  (list_sum (map (fun v => S (json_size v)) l) <= fuel)%nat -> depth + Z.of_nat d <= maxNestingDepth ->
  parse_elements fuel depth (commas (map print_json l) ++ "]"%byte :: rest) = Some (map read_json l, rest).
Proof.
  intros Hne Hp Hr Hf Hd. revert fuel Hf Hp Hr. induction l as [|v l IH]; [done|]. intros fuel Hf Hp Hr. cbn [map list_sum foldr] in Hf.
  destruct fuel as [|fuel]; [lia|]. assert (reads_back d v) as Hv by (apply Hr; left). destruct l as [|v2 l].
  - cbn [map commas parse_elements]. rewrite Hv by (cbn in *; (lia || by right; right)).
    rewrite skip_ws_stop by (repeat constructor). by rewrite bool_decide_eq_true_2.
  - change (commas (map print_json (v :: v2 :: l))) with (print_json v ++ ","%byte :: commas (map print_json (v2 :: l))).
    rewrite <- app_assoc. cbn [app parse_elements]. rewrite Hv by (cbn in *; (lia || by left)).
    rewrite skip_ws_stop by (repeat constructor). rewrite bool_decide_eq_false_2 by done. rewrite bool_decide_eq_true_2 by done.
    assert (exists t, commas (map print_json (v2 :: l)) ++ "]"%byte :: rest = print_json v2 ++ t) as [t Et]
      by (destruct l; cbn [map commas]; [by eexists|rewrite <- app_assoc; by eexists]).
    rewrite Et, (print_skip d) by (apply Hp; right; left). rewrite <- Et. rewrite IH; [done|done|cbn in *; lia|..]; intros; [apply Hp|apply Hr]; by right.
Qed.

Lemma parse_object_print d ms fuel depth rest :
  ms <> [] -> (forall m, m ∈ ms -> forallb plain_char m.1 = true /\ printable d m.2) -> (forall m, m ∈ ms -> reads_back d m.2) ->
  (list_sum (map (fun m => S (json_size m.2)) ms) <= fuel)%nat -> depth + Z.of_nat d <= maxNestingDepth ->
  parse_members fuel depth (commas (map (fun m => print_str m.1 ++ ":"%byte :: print_json m.2) ms) ++ "}"%byte :: rest) =
    Some (map (fun m => (m.1, read_json m.2)) ms, rest).
Proof.
  set (pm := fun m : gostring * json => print_str m.1 ++ ":"%byte :: print_json m.2).
  intros Hne Hp Hr Hf Hd. revert fuel Hf Hp Hr. induction ms as [|[k v] ms IH]; [done|]. intros fuel Hf Hp Hr. cbn [map list_sum foldr] in Hf.
  destruct fuel as [|fuel]; [lia|]. assert (reads_back d v) as Hv by (apply (Hr (k, v)); left). destruct (Hp (k, v) ltac:(left)) as [Hk Hpv]. cbn [fst snd] in *.
  assert (forall tail, stops tail -> parse_members (S fuel) depth (pm (k, v) ++ tail) =
    match tail with
    | c :: tail' => if bool_decide (c = "}"%byte) then Some ([(k, read_json v)], tail') else if bool_decide (c = ","%byte) then
        match parse_members fuel depth (skip_ws tail') with Some (ms, rest) => Some ((k, read_json v) :: ms, rest) | None => None end else None
    | [] => None
    end) as Estep.
  { intros tail Ht. unfold pm, print_str. cbn [fst snd]. rewrite <- !app_assoc. cbn [app]. rewrite <- app_assoc. cbn [app parse_members].
    rewrite bool_decide_eq_true_2 by done. cbn [negb].
    rewrite parse_string_plain by (done || (rewrite length_app; lia)). rewrite skip_ws_stop by (repeat constructor).
    rewrite bool_decide_eq_true_2 by done. cbn [negb]. rewrite (print_skip d) by done. rewrite Hv by (done || lia).
    destruct tail as [|c tail]; [done|]. rewrite skip_ws_stop by (destruct Ht as [-> |[-> | ->]]; repeat constructor). done. }
  destruct ms as [|m ms].
  - cbn [map commas]. rewrite Estep by (by right; left). by rewrite bool_decide_eq_true_2.
  - change (commas (map pm ((k, v) :: m :: ms))) with (pm (k, v) ++ ","%byte :: commas (map pm (m :: ms))).
    rewrite <- app_assoc. cbn [app]. rewrite Estep by (by left).
    rewrite bool_decide_eq_false_2 by done. rewrite bool_decide_eq_true_2 by done.
    assert (skip_ws (commas (map pm (m :: ms)) ++ "}"%byte :: rest) = commas (map pm (m :: ms)) ++ "}"%byte :: rest) as ->.
    { destruct ms; cbn [map commas]; unfold pm, print_str; cbn [app]; apply skip_ws_stop; repeat constructor. }
    rewrite IH; [done|done|cbn in *; lia|..]; intros; [apply Hp|apply Hr]; by right.
Qed.

(** An object, whatever follows. *)
Lemma parse_value_object d ms fuel depth rest :
  (forall m, m ∈ ms -> forallb plain_char m.1 = true /\ printable d m.2) -> (forall m, m ∈ ms -> reads_back d m.2) ->
  (json_size (JObj ms) <= fuel)%nat -> depth + Z.of_nat (S d) <= maxNestingDepth ->
  parse_value fuel depth (print_json (JObj ms) ++ rest) = Some (read_json (JObj ms), rest).
Proof.
  intros Hms Hr Hf Hd. cbn [json_size] in Hf. destruct fuel as [|fuel]; [lia|]. cbn [print_json app parse_value].
  rewrite bool_decide_eq_true_2 by done. rewrite (proj2 (Z.ltb_ge _ _)) by lia. rewrite <- app_assoc. cbn [app].
  destruct ms as [|m ms]; [cbn; done|]. set (pm := fun m : gostring * json => print_str m.1 ++ ":"%byte :: print_json m.2).
  assert (exists t, commas (map pm (m :: ms)) ++ "}"%byte :: rest = quote :: t) as [t Et]
    by (destruct ms; cbn [map commas]; unfold pm, print_str; cbn [app]; by eexists).
  rewrite Et. rewrite skip_ws_stop by (repeat constructor). rewrite bool_decide_eq_false_2 by done. rewrite <- Et. unfold pm.
  by rewrite (parse_object_print d) by (done || lia).
Qed.

Lemma print_reads_back v : forall d, printable d v -> reads_back d v.
Proof.
  induction v as [v IH] using (induction_ltof1 _ json_size). unfold ltof in IH. intros d Hv fuel depth rest Hf Hd Hr.
  destruct Hv as [d|d [|]|d z Hz|d s|d l Hl|d ms Hms]; (destruct fuel as [|fuel]; [cbn [json_size] in Hf; lia|]); cbn [print_json].
  - done.
  - done.
  - done.
  - pose proof (parse_number_print z rest Hz Hr) as E. destruct (print_int_head z Hz) as (c & s & Ec & Hc). rewrite Ec in *. cbn [app read_json] in *. cbn [parse_value].
    rewrite !bool_decide_eq_false_2 by (apply (number_head _ _ Hc); vm_compute; auto). by rewrite E.
  - unfold print_str. cbn [app parse_value]. rewrite <- app_assoc. cbn [app]. repeat (rewrite bool_decide_eq_false_2 by done). rewrite bool_decide_eq_true_2 by done.
    unfold escape. rewrite (parse_escape _ (length s)); [done|lia|]. pose proof (escape_length (length s) s (le_n _)) as Hl. rewrite length_app. unfold escape in *. cbn [length]. lia.
  - cbn [app parse_value]. rewrite bool_decide_eq_false_2 by done. rewrite bool_decide_eq_true_2 by done. rewrite (proj2 (Z.ltb_ge _ _)) by lia.
    rewrite <- app_assoc. cbn [app]. destruct l as [|v l]; [cbn; done|]. destruct (print_head d v) as (c & s & Ec & Hsp & Hc & _); [apply Hl; left|].
    assert (exists t, commas (map print_json (v :: l)) ++ "]"%byte :: rest = c :: t) as [t Et]
      by (destruct l; cbn [map commas]; rewrite Ec; cbn [app]; by eexists).
    rewrite Et. cbn [skip_ws]. rewrite Hsp, bool_decide_eq_false_2 by done. rewrite <- Et, (parse_elements_print d); [done|done|done| |cbn [json_size] in Hf; lia|lia].
    intros v' Hin. apply IH; [|by apply Hl]. cbn [json_size]. pose proof (list_sum_elem (fun v => S (json_size v)) _ _ Hin). cbn in *. lia.
  - apply (parse_value_object d); [done| |done|done]. intros m' Hin. apply IH; [|by apply Hms]. cbn [json_size].
    pose proof (list_sum_elem (fun m => S (json_size m.2)) _ _ Hin). cbn in *. lia.
Qed.

(** The parser's calls are bounded by what it reads. *)
Lemma commas_length l : (list_sum (map length l) <= length (commas l))%nat.
Proof.
  induction l as [|s l IH]; [done|]. destruct l as [|s2 l]; [cbn; lia|].
  change (commas (s :: s2 :: l)) with (s ++ ","%byte :: commas (s2 :: l)). rewrite length_app. cbn [length]. cbn in *. lia.
Qed.

Lemma json_size_print d v : printable d v -> (json_size v < 2 * length (print_json v))%nat.
Proof.
  revert d. induction v as [v IH] using (induction_ltof1 _ json_size). unfold ltof in IH. intros d Hv.
  destruct Hv as [d|d [|]|d z Hz|d s|d l Hl|d ms Hms]; cbn [json_size print_json]; [cbn; lia..| | | |].
  - destruct (print_int_head z Hz) as (c & s & -> & _). cbn. lia.
  - unfold print_str. cbn [length]. rewrite length_app. lia.
  - cbn [length]. rewrite length_app. cbn [length]. pose proof (commas_length (map print_json l)) as Hc. rewrite map_map in Hc.
    enough (list_sum (map (fun v => S (json_size v)) l) <= 2 * list_sum (map (fun v => length (print_json v)) l))%nat by lia. clear Hc.
    assert (forall v, v ∈ l -> (S (json_size v) <= 2 * length (print_json v))%nat) as Hle.
    { intros v Hin. assert (json_size v < 2 * length (print_json v))%nat; [|lia]. apply (IH v) with d; [|by apply Hl]. cbn [json_size].
      pose proof (list_sum_elem (fun v => S (json_size v)) _ _ Hin). cbn in *. lia. }
    clear -Hle. induction l as [|v l IHl]; [done|]. pose proof (Hle v ltac:(left)). specialize (IHl ltac:(intros; apply Hle; by right)). unfold list_sum in *. cbn [map fold_right] in *. lia.
  - cbn [length]. rewrite length_app. cbn [length]. pose proof (commas_length (map (fun m => print_str m.1 ++ ":"%byte :: print_json m.2) ms)) as Hc. rewrite map_map in Hc.
    enough (list_sum (map (fun m => S (json_size m.2)) ms) <= 2 * list_sum (map (fun m : gostring * json => length (print_str m.1 ++ ":"%byte :: print_json m.2)) ms))%nat by lia. clear Hc.
    assert (forall m, m ∈ ms -> (S (json_size m.2) <= 2 * length (print_str m.1 ++ ":"%byte :: print_json m.2))%nat) as Hle.
    { intros m Hin. assert (json_size m.2 < 2 * length (print_json m.2))%nat; [|rewrite length_app; cbn [length]; lia]. apply (IH m.2) with d; [|by apply Hms]. cbn [json_size].
      pose proof (list_sum_elem (fun m => S (json_size m.2)) _ _ Hin). cbn in *. lia. }
    clear -Hle. induction ms as [|m l IHl]; [done|]. pose proof (Hle m ltac:(left)). specialize (IHl ltac:(intros; apply Hle; by right)). unfold list_sum in *. cbn [map fold_right] in *. lia.
Qed.

(** An object at the front of a stream, as [json.Decoder] reads it, and as a
    document of its own. *)
Lemma parse_front d ms rest : printable (S d) (JObj ms) -> Z.of_nat (S d) <= maxNestingDepth ->
  parse_value (2 * length (print_json (JObj ms) ++ rest) + 2) 0 (skip_ws (print_json (JObj ms) ++ rest)) = Some (read_json (JObj ms), rest).
Proof.
  intros Hv Hd. rewrite (print_skip (S d)) by done. pose proof (json_size_print _ _ Hv). inversion Hv as [| | | | |? ? Hms]; subst.
  apply (parse_value_object d); [done| |rewrite length_app; lia|lia]. intros m Hin. apply print_reads_back. by apply Hms.
Qed.

Lemma parse_print d ms : printable (S d) (JObj ms) -> Z.of_nat (S d) <= maxNestingDepth -> parse (print_json (JObj ms)) = Some (read_json (JObj ms)).
Proof. intros Hv Hd. pose proof (parse_front d ms [] Hv Hd) as H. rewrite app_nil_r in H. unfold parse. by rewrite H. Qed.

(** ** Strings that need no escape *)

Lemma escape_plain s : forallb plain_char s = true -> escape s = s /\ clean_string s = s.
Proof.
  unfold escape, clean_string. induction s as [|c s IH]; [done|]. cbn [forallb length escape_n clean_n]. intros [Hc Hs]%andb_prop. destruct (IH Hs) as [E1 E2].
  assert (b2z c <? 128 = true) as -> by (unfold plain_char in Hc; lia). unfold escape_char. by rewrite Hc, E1, E2.
Qed.

(** ** What is printed has no control characters *)

Definition visible (c : byte) : Prop := 32 <= b2z c.

Lemma visible_bool s : forallb (fun b => 32 <=? b2z b) s = true -> Forall visible s.
Proof. intros H. apply Forall_forall. intros b Hb. rewrite forallb_forall in H. apply Z.leb_le, H. by apply list_elem_of_In. Qed.

Lemma escape_visible k s : Forall visible (escape_n k s).
Proof.
  assert (forall c, Forall visible (escape_char c)) as Hc.
  { intros c. apply visible_bool. by destruct c. }
  revert s. induction k as [|k IH]; intros [|c s]; cbn [escape_n]; try constructor. destruct (Z.ltb_spec (b2z c) 128) as [Hlt|Hge]; [apply Forall_app; by split|].
  destruct (DecodeRune (c :: s)) as [r w] eqn:Er. apply Forall_app. split; [|apply IH].
  destruct ((r =? RuneError) && Nat.eqb w 1) eqn:Eb; [by apply visible_bool|].
  destruct (_ || _) eqn:E2.
  - apply Forall_app. split; [by apply visible_bool|]. constructor; [|constructor].
    assert (r = 8232 \/ r = 8233) as [-> | ->] by lia; unfold visible; vm_compute; discriminate.
  - clear -Er Eb Hge. unfold visible. revert Er Eb. cbn [DecodeRune]. destruct (Z.ltb_spec (b2z c) 128); [lia|].
    repeat case_match; intros [= <- <-]; try done; intros _; cbn [take];
      repeat match goal with H : between _ _ _ = true |- _ => unfold between in H | H : _ && _ = true |- _ => apply andb_prop in H as [? ?] end;
      repeat (constructor; [repeat case_match; lia|]); constructor.
Qed.

Lemma commas_visible l : Forall (Forall visible) l -> Forall visible (commas l).
Proof.
  induction 1 as [|s l Hs Hl IH]; [constructor|]. destruct l as [|s2 l]; [done|].
  change (commas (s :: s2 :: l)) with (s ++ ","%byte :: commas (s2 :: l)). apply Forall_app. split; [done|]. constructor; [unfold visible; vm_compute; discriminate|done].
Qed.

Lemma print_str_visible s : Forall visible s -> Forall visible (print_str s).
Proof. intros Hs. constructor; [unfold visible; vm_compute; discriminate|]. apply Forall_app. split; [done|by apply visible_bool]. Qed.

Lemma plain_visible s : forallb plain_char s = true -> Forall visible s.
Proof.
  intros Hs. apply Forall_forall. intros c Hc. rewrite forallb_forall in Hs. apply list_elem_of_In, Hs in Hc. unfold plain_char in Hc. unfold visible. lia.
Qed.

Lemma print_visible v : forall d, printable d v -> Forall visible (print_json v).
Proof.
  induction v as [v IH] using (induction_ltof1 _ json_size). unfold ltof in IH. intros d Hv.
  destruct Hv as [d|d [|]|d z Hz|d s|d l Hl|d ms Hms]; cbn [print_json]; try (by apply visible_bool).
  - unfold print_int. assert (forall v, 0 <= v < 2 ^ 64 -> Forall visible (format_uint 10 v)) as Hd.
    { intros v Hv. destruct (format_uint_digits v Hv) as (ds & Hds & _). apply is_digits_between in Hds. eapply Forall_impl; [exact Hds|].
      intros c Hc. unfold between in Hc. unfold visible. lia. }
    destruct (Z.ltb_spec z 0); [constructor; [unfold visible; vm_compute; discriminate|]; apply Hd; lia|apply Hd; lia].
  - apply print_str_visible, escape_visible.
  - constructor; [unfold visible; vm_compute; discriminate|]. apply Forall_app. split; [|by apply visible_bool]. apply commas_visible, Forall_fmap, Forall_forall. intros v Hin. apply (IH v) with d; [|by apply Hl].
    cbn [json_size]. pose proof (list_sum_elem (fun v => S (json_size v)) _ _ Hin). cbn in *. lia.
  - constructor; [unfold visible; vm_compute; discriminate|]. apply Forall_app. split; [|by apply visible_bool]. apply commas_visible, Forall_fmap, Forall_forall. intros m Hin. destruct (Hms m Hin) as [Hk Hp]. change (Forall visible (print_str m.1 ++ ":"%byte :: print_json m.2)).
    apply Forall_app. split; [by apply print_str_visible, plain_visible|]. constructor; [unfold visible; vm_compute; discriminate|]. apply (IH m.2) with d; [|done].
    cbn [json_size]. pose proof (list_sum_elem (fun m => S (json_size m.2)) _ _ Hin). cbn in *. lia.
Qed.
