(* ===== verification/Gearhash.v ===== *)
(** * Content-defined chunking: [gearhash.go]

    The Gearhash rolling hash, the [bufio.Reader] the chunker scans, the
    boundary search [findChunkBoundary] and the two drivers built on it, the
    iterator [Chunk] and the callback loop [ChunkData].  The per-byte reference
    [cut] / [chunks] is what they are proved to compute. *)

From Stdlib Require Import ZArith Lia Strings.Byte Strings.String.
From S2P Require Import Prelude.

(** ** Constants ([constants.go]) *)

Definition TargetChunkSize : Z := 65536.
Definition MinChunkSize : Z := 8192.
Definition MaxChunkSize : Z := 131072.
Definition GearhashMask : Z := 0xFFFF000000000000.

Definition lookupTable : list Z := [
  0xb088d3a9e840f559; 0x5652c7f739ed20d6; 0x45b28969898972ab;
  0x6b0a89d5b68ec777; 0x368f573e8b7a31b7; 0x1dc636dce936d94b;
  0x207a4c4e5554d5b6; 0xa474b34628239acb; 0x3b06a83e1ca3b912;
  0x90e78d6c2f02baf7; 0xe1c92df7150d9a8a; 0x8e95053a1086d3ad;
  0x5a2ef4f1b83a0722; 0xa50fac949f807fae; 0x0e7303eb80d8d681;
  0x99b07edc1570ad0f; 0x689d2fb555fd3076; 0x00005082119ea468;
  0xc4b08306a88fcc28; 0x3eb0678af6374afd; 0xf19f87ab86ad7436;
  0xf2129fbfbe6bc736; 0x481149575c98a4ed; 0x0000010695477bc5;
  0x1fba37801a9ceacc; 0x3bf06fd663a49b6d; 0x99687e9782e3874b;
  0x79a10673aa50d8e3; 0xe4accf9e6211f420; 0x2520e71f87579071;
  0x2bd5d3fd781a8a9b; 0x00de4dcddd11c873; 0xeaa9311c5a87392f;
  0xdb748eb617bc40ff; 0xaf579a8df620bf6f; 0x86a6e5da1b09c2b1;
  0xcc2fc30ac322a12e; 0x355e2afec1f74267; 0x2d99c8f4c021a47b;
  0xbade4b4a9404cfc3; 0xf7b518721d707d69; 0x3286b6587bf32c20;
  0x0000b68886af270c; 0xa115d6e4db8a9079; 0x484f7e9c97b2e199;
  0xccca7bb75713e301; 0xbf2584a62bb0f160; 0xade7e813625dbcc8;
  0x000070940d87955a; 0x8ae69108139e626f; 0xbd776ad72fde38a2;
  0xfb6b001fc2fcc0cf; 0xc7a474b8e67bc427; 0xbaf6f11610eb5d58;
  0x09cb1f5b6de770d1; 0xb0b219e6977d4c47; 0x00ccbc386ea7ad4a;
  0xcc849d0adf973f01; 0x73a3ef7d016af770; 0xc807d2d386bdbdfe;
  0x7f2ac9966c791730; 0xd037a86bc6c504da; 0xf3f17c661eaa609d;
  0xaca626b04daae687; 0x755a99374f4a5b07; 0x90837ee65b2caede;
  0x6ee8ad93fd560785; 0x0000d9e11053edd8; 0x9e063bb2d21cdbd7;
  0x07ab77f12a01d2b2; 0xec550255e6641b44; 0x78fb94a8449c14c6;
  0xc7510e1bc6c0f5f5; 0x0000320b36e4cae3; 0x827c33262c8b1a2d;
  0x14675f0b48ea4144; 0x267bd3a6498deceb; 0xf1916ff982f5035e;
  0x86221b7ff434fb88; 0x9dbecee7386f49d8; 0xea58f8cac80f8f4a;
  0x008d198692fc64d8; 0x6d38704fbabf9a36; 0xe032cb07d1e7be4c;
  0x228d21f6ad450890; 0x635cb1bfc02589a5; 0x4620a1739ca2ce71;
  0xa7e7dfe3aae5fb58; 0x0c10ca932b3c0deb; 0x2727fee884afed7b;
  0xa2df1c6df9e2ab1f; 0x4dcdd1ac0774f523; 0x000070ffad33e24e;
  0xa2ace87bc5977816; 0x9892275ab4286049; 0xc2861181ddf18959;
  0xbb9972a042483e19; 0xef70cd3766513078; 0x00000513abfc9864;
  0xc058b61858c94083; 0x09e850859725e0de; 0x9197fb3bf83e7d94;
  0x7e1e626d12b64bce; 0x520c54507f7b57d1; 0xbee1797174e22416;
  0x6fd9ac3222e95587; 0x0023957c9adfbf3e; 0xa01c7d7e234bbe15;
  0xaba2c758b8a38cbb; 0x0d1fa0ceec3e2b30; 0x0bb6a58b7e60b991;
  0x4333dd5b9fa26635; 0xc2fd3b7d4001c1a3; 0xfb41802454731127;
  0x65a56185a50d18cb; 0xf67a02bd8784b54f; 0x696f11dd67e65063;
  0x00002022fca814ab; 0x8cd6be912db9d852; 0x695189b6e9ae8a57;
  0xee9453b50ada0c28; 0xd8fc5ea91a78845e; 0xab86bf191a4aa767;
  0x0000c6b5c86415e5; 0x267310178e08a22e; 0xed2d101b078bca25;
  0x3b41ed84b226a8fb; 0x13e622120f28dc06; 0xa315f5ebfb706d26;
  0x8816c34e3301bace; 0xe9395b9cbb71fdae; 0x002ce9202e721648;
  0x4283db1d2bb3c91c; 0xd77d461ad2b1a6a5; 0xe2ec17e46eeb866b;
  0xb8e0be4039fbc47c; 0xdea160c4d5299d04; 0x7eec86c8d28c3634;
  0x2119ad129f98a399; 0xa6ccf46b61a283ef; 0x2c52cedef658c617;
  0x2db4871169acdd83; 0x0000f0d6f39ecbe9; 0x3dd5d8c98d2f9489;
  0x8a1872a22b01f584; 0xf282a4c40e7b3cf2; 0x8020ec2ccb1ba196;
  0x6693b6e09e59e313; 0x0000ce19cc7c83eb; 0x20cb5735f6479c3b;
  0x762ebf3759d75a5b; 0x207bfe823d693975; 0xd77dc112339cd9d5;
  0x9ba7834284627d03; 0x217dc513e95f51e9; 0xb27b1a29fc5e7816;
  0x00d5cd9831bb662d; 0x71e39b806d75734c; 0x7e572af006fb1a23;
  0xa2734f2f6ae91f85; 0xbf82c6b5022cddf2; 0x5c3beac60761a0de;
  0xcdc893bb47416998; 0x6d1085615c187e01; 0x77f8ae30ac277c5d;
  0x917c6b81122a2c91; 0x5b75b699add16967; 0x0000cf6ae79a069b;
  0xf3c40afa60de1104; 0x2063127aa59167c3; 0x621de62269d1894d;
  0xd188ac1de62b4726; 0x107036e2154b673c; 0x0000b85f28553a1d;
  0xf2ef4e4c18236f3d; 0xd9d6de6611b9f602; 0xa1fc7955fb47911c;
  0xeb85fd032f298dbd; 0xbe27502fb3befae1; 0xe3034251c4cd661e;
  0x441364d354071836; 0x0082b36c75f2983e; 0xb145910316fa66f0;
  0x021c069c9847caf7; 0x2910dfc75a4b5221; 0x735b353e1c57a8b5;
  0xce44312ce98ed96c; 0xbc942e4506bdfa65; 0xf05086a71257941b;
  0xfec3b215d351cead; 0x00ae1055e0144202; 0xf54b40846f42e454;
  0x00007fd9c8bcbcc8; 0xbfbd9ef317de9bfe; 0xa804302ff2854e12;
  0x39ce4957a5e5d8d4; 0xffb9e2a45637ba84; 0x55b9ad1d9ea0818b;
  0x00008acbf319178a; 0x48e2bfc8d0fbfb38; 0x8be39841e848b5e8;
  0x0e2712160696a08b; 0xd51096e84b44242a; 0x1101ba176792e13a;
  0xc22e770f4531689d; 0x1689eff272bbc56c; 0x00a92a197f5650ec;
  0xbc765990bda1784e; 0xc61441e392fcb8ae; 0x07e13a2ced31e4a0;
  0x92cbe984234e9d4d; 0x8f4ff572bb7d8ac5; 0x0b9670c00b963bd0;
  0x62955a581a03eb01; 0x645f83e5ea000254; 0x41fce516cd88f299;
  0xbbda9748da7a98cf; 0x0000aab2fe4845fa; 0x19761b069bf56555;
  0x8b8f5e8343b6ad56; 0x3e5d1cfd144821d9; 0xec5c1e2ca2b0cd8f;
  0xfaf7e0fea7fbb57f; 0x000000d3ba12961b; 0xda3f90178401b18e;
  0x70ff906de33a5feb; 0x0527d5a7c06970e7; 0x22d8e773607c13e9;
  0xc9ab70df643c3bac; 0xeda4c6dc8abe12e3; 0xecef1f410033e78a;
  0x0024c2b274ac72cb; 0x06740d954fa900b4; 0x1d7a299b323d6304;
  0xb3c37cb298cbead5; 0xc986e3c76178739b; 0x9fabea364b46f58a;
  0x6da214c5af85cc56; 0x17a43ed8b7a38f84; 0x6eccec511d9adbeb;
  0xf9cab30913335afb; 0x4a5e60c5f415eed2; 0x00006967503672b4;
  0x9da51d121454bb87; 0x84321e13b9bbc816; 0xfb3d6fb6ab2fdd8d;
  0x60305eed8e160a8d; 0xcbbf4b14e9946ce8; 0x00004f63381b10c3;
  0x07d5b7816fcc4e10; 0xe5a536726a6a8155; 0x57afb23447a07fdd;
  0x18f346f7abc9d394; 0x636dc655d61ad33d; 0xcc8bab4939f7f3f6;
  0x63c7a906c1dd187b
].

(** [hash = (hash << 1) + lookupTable[b]] on uint64. *)
Definition gear (hash : Z) (b : byte) : Z :=
  u64 (u64 (Z.shiftl hash 1) + nth (Byte.to_nat b) lookupTable 0).

(** ** The buffered reader

    [bbuf] is what [Buffered] counts.  The source delivers its bytes in the
    fragments [bsrc], one per fill, and then reports [berr]. *)

Record bufio : Type := Bufio {
  bbuf : list byte;
  bsrc : list (list byte);
  berr : error;
}.

Definition NewReader (src : list (list byte)) (e : error) : bufio := Bufio [] src e.

(** Reads that deliver nothing are retried. *)
Fixpoint fill (src : list (list byte)) : list byte * list (list byte) :=
  match src with
  | [] => ([], [])
  | [] :: src => fill src
  | frag :: src => (frag, src)
  end.

(** [Peek(1)]: an empty buffer is filled, or the source's error returned. *)
Definition Peek1 (b : bufio) : option error * bufio :=
  match bbuf b with
  | [] =>
      let '(buf, src) := fill (bsrc b) in
      let b := Bufio buf src (berr b) in
      match buf with
      | [] => (Some (berr b), b)
      | _ => (None, b)
      end
  | _ => (None, b)
  end.

(** [Discard(n)] for [n <= Buffered()], which cannot fail. *)
Definition Discard (n : Z) (b : bufio) : bufio :=
  Bufio (drop (Z.to_nat n) (bbuf b)) (bsrc b) (berr b).

(** ** The boundary search *)

(** The loop over the bytes below [MinChunkSize], which tests nothing. *)
Fixpoint skip_prefix (prefix i hash : Z) (data : list byte) : Z * Z * list byte :=
  match data with
  | [] => (i, hash, [])
  | b :: data' =>
      if i <? prefix then skip_prefix prefix (i + 1) (gear hash b) data' else (i, hash, data)
  end.

(** The testing loop: [consumed] and [found], or the hash to go on with. *)
Fixpoint scan (i hash : Z) (data : list byte) : Z + Z :=
  match data with
  | [] => inr hash
  | b :: data =>
      let hash := gear hash b in
      if Z.land hash GearhashMask =? 0 then inl (i + 1) else scan (i + 1) hash data
  end.

Fixpoint find_loop (fuel : nat) (reader : bufio) (hash size : Z) (buf : list byte) :
    list byte * option error * bufio :=
  match fuel with
  | O => ([], Some (Panic "out of fuel"), reader)
  | S fuel =>
      if negb (size <? MaxChunkSize) then (buf, None, reader)
      else
        match Peek1 reader with
        | (Some e, reader) =>
            if bool_decide (e = EOF) then (buf, Some EOF, reader)
            else ([], Some (Wrapf "read chunk data: %w" e), reader)
        | (None, reader) =>
            let data := bbuf reader in
            let remain := MaxChunkSize - size in
            let data := if remain <? len data then slice 0 remain data else data in
            let '(i, hash, rest) := skip_prefix (MinChunkSize - 1 - size) 0 hash data in
            match scan i hash rest with
            | inl consumed =>
                (buf ++ slice 0 consumed data, None, Discard consumed reader)
            | inr hash =>
                let consumed := len data in
                find_loop fuel (Discard consumed reader) hash (size + consumed)
                  (buf ++ slice 0 consumed data)
            end
        end
  end.

(** The chunk [buf[:size]], the error and the reader.  Every iteration but the
    last drains the buffer, so the fragments bound the iterations. *)
Definition findChunkBoundary (reader : bufio) : list byte * option error * bufio :=
  find_loop (3 + length (bsrc reader)) reader 0 0 [].

(** ** The drivers *)

Record Chunker : Type := MkChunker {
  creader : bufio;
  coffset : Z;
  cdone : bool;
}.

Definition NewChunker (src : list (list byte)) (e : error) : Chunker :=
  MkChunker (NewReader src e) 0 false.

(** [Chunk()]: the offset and chunk, or the error, and the chunker afterwards. *)
Definition Chunk (c : Chunker) : result (Z * list byte) * Chunker :=
  if cdone c then (Err EOF, c)
  else
    let offset := coffset c in
    let '(chunk, err, rd) := findChunkBoundary (creader c) in
    let c := MkChunker rd (coffset c) (cdone c) in
    match err with
    | Some e =>
        if bool_decide (e <> EOF) then (Err e, c)
        else if len chunk =? 0 then (Err EOF, MkChunker rd (coffset c) true)
        else (Ok (offset, chunk), MkChunker rd (i64 (coffset c + len chunk)) true)
    | None =>
        if len chunk =? 0 then (Err EOF, MkChunker rd (coffset c) true)
        else (Ok (offset, chunk), MkChunker rd (i64 (coffset c + len chunk)) (cdone c))
    end.

Section chunk_data.
Context {St : Type} (fn : St -> Z -> list byte -> result St).

Fixpoint chunk_data_loop (fuel : nat) (reader : bufio) (offset : Z) (st : St) : result St :=
  match fuel with
  | O => Err (Panic "out of fuel")
  | S fuel =>
      let '(chunk, err, reader) := findChunkBoundary reader in
      match err with
      | Some e =>
          if bool_decide (e <> EOF) then Err e
          else if len chunk =? 0 then Ok st
          else wrap_err "error processing chunk: %w" (fn st offset chunk)
      | None =>
          if len chunk =? 0 then Ok st
          else
            st ← wrap_err "error processing chunk: %w" (fn st offset chunk);
            chunk_data_loop fuel reader (i64 (offset + len chunk)) st
      end
  end.

(** Every round but the last consumes at least one byte. *)
Definition ChunkData (src : list (list byte)) (e : error) (st : St) : result St :=
  chunk_data_loop (S (length (concat src))) (NewReader src e) 0 st.
End chunk_data.

(** ** The reference: one byte at a time *)

(** A chunk ends at the byte that brings it to [n] bytes with rolling hash [h]. *)
Definition is_cut (h n : Z) : bool :=
  (MinChunkSize <=? n) && (Z.land h GearhashMask =? 0) || (n =? MaxChunkSize).

(** The rest of the current chunk and what follows it, when it ends in [data]. *)
Fixpoint cut (hash size : Z) (data : list byte) : option (list byte * list byte) :=
  match data with
  | [] => None
  | b :: data =>
      let hash := gear hash b in
      if is_cut hash (size + 1) then Some ([b], data)
      else prod_map (cons b) id <$> cut hash (size + 1) data
  end.

Fixpoint chunks_loop (fuel : nat) (data : list byte) : list (list byte) :=
  match fuel with
  | O => []
  | S fuel =>
      match cut 0 0 data with
      | Some (c, rest) => c :: chunks_loop fuel rest
      | None => match data with [] => [] | _ => [data] end
      end
  end.

Definition chunks (data : list byte) : list (list byte) := chunks_loop (S (length data)) data.
Arguments chunks : simpl never.

(** The chunks whose end the stream has reached: what is left when a read error,
    and not the end of the stream, follows [data]. *)
Fixpoint closed_loop (fuel : nat) (data : list byte) : list (list byte) :=
  match fuel with
  | O => []
  | S fuel =>
      match cut 0 0 data with
      | Some (c, rest) => c :: closed_loop fuel rest
      | None => []
      end
  end.

Definition closed_chunks (data : list byte) : list (list byte) :=
  closed_loop (S (length data)) data.
Arguments closed_chunks : simpl never.

(** Each chunk with its offset in the stream. *)
Fixpoint with_offsets (off : Z) (cs : list (list byte)) : list (Z * list byte) :=
  match cs with
  | [] => []
  | c :: cs => (off, c) :: with_offsets (off + len c) cs
  end.

Definition content (b : bufio) : list byte := bbuf b ++ concat (bsrc b).

(** ** The scan of one buffer *)

Fixpoint scan_ref (hash size : Z) (data : list byte) : Z + Z :=
  match data with
  | [] => inr hash
  | b :: data =>
      let hash := gear hash b in
      if (MinChunkSize <=? size + 1) && (Z.land hash GearhashMask =? 0) then inl 1
      else match scan_ref hash (size + 1) data with
           | inl n => inl (n + 1)
           | inr h => inr h
           end
  end.

Lemma scan_shift i hash data :
  scan i hash data = match scan 0 hash data with inl n => inl (i + n) | inr h => inr h end.
Proof.
  revert i hash. induction data as [|b data IH]; intros i hash; cbn; [done|].
  case_match; [done|]. rewrite IH, (IH (0 + 1)). destruct (scan 0 _ data); [|done].
  f_equal. lia.
Qed.

(** The untested prefix loop and the testing loop together test every byte
    from [MinChunkSize] on. *)
Lemma scan_ref_tested hash size data :
  MinChunkSize - 1 <= size ->
  scan_ref hash size data = scan 0 hash data.
Proof.
  revert hash size. induction data as [|b data IH]; intros hash size Hs; cbn; [done|].
  rewrite (proj2 (Z.leb_le MinChunkSize (size + 1))) by lia. cbn. case_match; [done|].
  rewrite IH by lia. rewrite (scan_shift 1). destruct (scan 0 _ data); [|done].
  f_equal. lia.
Qed.

Lemma scan_ref_spec i hash size data :
  0 <= i ->
  (let '(i', hash', rest) := skip_prefix (MinChunkSize - 1 - size + i) i hash data in
   scan i' hash' rest) =
  match scan_ref hash size data with inl n => inl (i + n) | inr h => inr h end.
Proof.
  revert i hash size. induction data as [|b data IH]; intros i hash size Hi; [done|].
  cbn [skip_prefix]. destruct (Z.ltb_spec i (MinChunkSize - 1 - size + i)) as [Hlt|Hge].
  - replace (MinChunkSize - 1 - size + i) with (MinChunkSize - 1 - (size + 1) + (i + 1)) by lia.
    rewrite IH by lia. cbn [scan_ref].
    rewrite (proj2 (Z.leb_gt MinChunkSize (size + 1))) by lia. cbn.
    destruct (scan_ref _ _ data); [f_equal; lia | done].
  - rewrite scan_ref_tested by lia. apply scan_shift.
Qed.

Lemma scan_ref_found hash size data n more :
  size + len data <= MaxChunkSize -> scan_ref hash size data = inl n ->
  1 <= n <= len data /\
  cut hash size (data ++ more) = Some (slice 0 n data, drop (Z.to_nat n) data ++ more).
Proof.
  revert hash size n. induction data as [|b data IH]; intros hash size n Hm; [done|].
  rewrite len_cons in *. cbn [scan_ref app cut]. unfold is_cut.
  pose proof (len_nonneg data).
  destruct (_ && _) eqn:E; [intros [= <-]; cbn; split; [lia|done]|].
  destruct (scan_ref _ _ data) as [k|] eqn:Ek; [|done]. intros [= <-].
  apply IH in Ek as [Hk Hc]; [|lia]. split; [lia|].
  destruct (Z.eqb_spec (size + 1) MaxChunkSize); [lia|]. cbn.
  rewrite Hc. cbn. unfold slice. rewrite !Z.sub_0_r.
  replace (Z.to_nat (k + 1)) with (S (Z.to_nat k)) by lia. done.
Qed.

Lemma scan_ref_not_found hash size data h more :
  size + len data <= MaxChunkSize -> data <> [] -> scan_ref hash size data = inr h ->
  cut hash size (data ++ more) =
    if size + len data =? MaxChunkSize then Some (data, more)
    else prod_map (app data) id <$> cut h (size + len data) more.
Proof.
  revert hash size. induction data as [|b data IH]; intros hash size Hm Hne; [done|].
  rewrite len_cons in *. pose proof (len_nonneg data). cbn [scan_ref app cut]. unfold is_cut.
  destruct (_ && _); [done|]. cbn [orb].
  destruct (scan_ref _ _ data) as [|h'] eqn:E; [done|]. intros [= <-].
  destruct (decide (data = [])) as [->|Hd].
  - cbn in E. injection E as <-. cbn. rewrite Z.add_0_r.
    case_match; [done|]. by destruct (cut _ _ more) as [[]|].
  - assert (0 < len data) by (destruct data; [done | rewrite len_cons; pose proof (len_nonneg data); lia]).
    rewrite (proj2 (Z.eqb_neq (size + 1) _)) by lia.
    erewrite (IH _ (size + 1)); [|lia|exact Hd|exact E].
    replace (size + (1 + len data)) with (size + 1 + len data) by lia.
    case_match; [done|]. by destruct (cut _ _ more) as [[]|].
Qed.

(** ** The boundary search computes the reference *)

Lemma fill_content src : concat src = (fill src).1 ++ concat (fill src).2.
Proof. induction src as [|[|b f] src IH]; [done|exact IH|done]. Qed.

Lemma fill_length src : (fill src).1 <> [] -> (length (fill src).2 < length src)%nat.
Proof.
  induction src as [|[|b f] src IH]; cbn; [done| |lia]. intros H. specialize (IH H). lia.
Qed.

(** The number of iterations the buffer and the fragments can still feed. *)
Definition pending (b : bufio) : nat :=
  length (bsrc b) + match bbuf b with [] => 0 | _ => 1 end.

Lemma Peek1_Some rd e rd' :
  Peek1 rd = (Some e, rd') ->
  content rd = [] /\ content rd' = [] /\ e = berr rd /\ berr rd' = berr rd.
Proof.
  unfold Peek1, content. destruct (bbuf rd); [|done].
  pose proof (fill_content (bsrc rd)) as Hf.
  destruct (fill (bsrc rd)) as [buf src] eqn:E. cbn in Hf.
  destruct buf; [|done]. intros [= <- <-].
  assert (Hs : src = []).
  { clear Hf. revert E. generalize (bsrc rd). intros l.
    induction l as [|[|??] l IH]; cbn; [congruence | exact IH | congruence]. }
  subst src. cbn in *. auto.
Qed.

Lemma Peek1_None rd rd' :
  Peek1 rd = (None, rd') ->
  content rd' = content rd /\ bbuf rd' <> [] /\ berr rd' = berr rd /\
  (length (bsrc rd') < pending rd)%nat.
Proof.
  unfold Peek1, content, pending. destruct (bbuf rd) eqn:Eb.
  - pose proof (fill_content (bsrc rd)) as Hf. pose proof (fill_length (bsrc rd)) as Hl.
    destruct (fill (bsrc rd)) as [buf src] eqn:E. cbn in Hf, Hl.
    destruct buf; [done|]. intros [= <-]. cbn in *. rewrite Hf.
    specialize (Hl ltac:(done)). repeat split; [done|lia].
  - intros [= <-]. rewrite Eb. repeat split; [done|lia].
Qed.

Lemma find_loop_full fuel rd hash buf :
  find_loop (S fuel) rd hash MaxChunkSize buf = (buf, None, rd).
Proof. reflexivity. Qed.

(** The window of the buffer an iteration looks at. *)
Lemma window_spec size rd :
  0 <= size < MaxChunkSize -> bbuf rd <> [] ->
  let remain := MaxChunkSize - size in
  let data := if remain <? len (bbuf rd) then slice 0 remain (bbuf rd) else bbuf rd in
  data <> [] /\ size + len data <= MaxChunkSize /\
  (data = bbuf rd \/ size + len data = MaxChunkSize) /\
  exists more, bbuf rd = data ++ more.
Proof.
  intros Hs Hne remain data. subst remain data.
  destruct (Z.ltb_spec (MaxChunkSize - size) (len (bbuf rd))) as [Hlt|Hge].
  - assert (len (slice 0 (MaxChunkSize - size) (bbuf rd)) = MaxChunkSize - size) as Hlen.
    { unfold len at 1. rewrite length_slice by lia. lia. }
    rewrite Hlen. repeat split; [|lia|lia|].
    + intros E. rewrite E, len_nil in Hlen. lia.
    + exists (drop (Z.to_nat (MaxChunkSize - size)) (bbuf rd)).
      unfold slice. by rewrite Z.sub_0_r, drop_0, take_drop.
  - repeat split; [done|lia|auto|]. exists []. by rewrite app_nil_r.
Qed.

Lemma Discard_content n rd data more :
  bbuf rd = data ++ more -> 0 <= n <= len data ->
  content (Discard n rd) = drop (Z.to_nat n) data ++ more ++ concat (bsrc rd).
Proof.
  unfold content, Discard, len. cbn. intros -> Hn.
  rewrite drop_app_le by lia. by rewrite <- app_assoc.
Qed.

Lemma Discard_all rd data more :
  bbuf rd = data ++ more -> content (Discard (len data) rd) = more ++ concat (bsrc rd).
Proof.
  intros H. rewrite (Discard_content _ _ _ _ H) by (pose proof (len_nonneg data); lia).
  unfold len. rewrite Nat2Z.id, drop_all. done.
Qed.

Lemma find_loop_spec fuel rd hash size buf :
  (2 + pending rd <= fuel)%nat -> 0 <= size < MaxChunkSize ->
  exists rd', berr rd' = berr rd /\
  match cut hash size (content rd) with
  | Some (c, rest) =>
      find_loop fuel rd hash size buf = (buf ++ c, None, rd') /\ content rd' = rest
  | None =>
      content rd' = [] /\
      find_loop fuel rd hash size buf =
        if bool_decide (berr rd = EOF) then (buf ++ content rd, Some EOF, rd')
        else ([], Some (Wrapf "read chunk data: %w" (berr rd)), rd')
  end.
Proof.
  revert rd hash size buf. induction fuel as [|fuel IH]; [lia|].
  intros rd hash size buf Hfuel Hsize. cbn [find_loop].
  rewrite (proj2 (Z.ltb_lt size MaxChunkSize)) by lia. cbn [negb].
  destruct (Peek1 rd) as [[e|] rd1] eqn:Epk.
  { apply Peek1_Some in Epk as (Hc & Hc1 & -> & He). rewrite Hc. cbn [cut].
    exists rd1. rewrite app_nil_r. case_bool_decide; auto. }
  apply Peek1_None in Epk as (Hcont & Hne & Herr & Hpend). rewrite <- Hcont, <- Herr in *.
  destruct (window_spec size rd1 Hsize Hne) as (Hd & Hmax & Hall & more & Hbuf).
  set (data := if _ <? _ then _ else _) in *.
  assert (content rd1 = data ++ more ++ concat (bsrc rd1)) as Hcd.
  { unfold content. rewrite Hbuf. by rewrite <- app_assoc. }
  pose proof (scan_ref_spec 0 hash size data ltac:(lia)) as Hscan. rewrite Z.add_0_r in Hscan.
  destruct (skip_prefix _ 0 hash data) as [[i h1] rest]. rewrite Hscan. clear Hscan.
  destruct (scan_ref hash size data) as [n|h'] eqn:Esc.
  - apply (scan_ref_found _ _ _ _ (more ++ concat (bsrc rd1))) in Esc as [Hn Hcut]; [|lia].
    rewrite Hcd, Hcut. exists (Discard n rd1). rewrite Z.add_0_l.
    split; [done|]. split; [done|]. apply Discard_content; [done|lia].
  - rewrite Hcd, (scan_ref_not_found _ _ _ _ _ Hmax Hd Esc).
    rewrite slice_all. pose proof (Discard_all rd1 data more Hbuf) as Hdc.
    destruct (Z.eqb_spec (size + len data) MaxChunkSize) as [E|E].
    + exists (Discard (len data) rd1). destruct fuel as [|fuel]; [lia|].
      rewrite E, find_loop_full. auto.
    + destruct Hall as [Hall|?]; [|lia]. rewrite Hall in Hbuf.
      assert (more = []) as -> by (apply (app_inv_head (bbuf rd1)); by rewrite <- Hbuf, app_nil_r).
      destruct (IH (Discard (len data) rd1) h' (size + len data) (buf ++ data)) as (rd' & He' & Hrd').
      { unfold pending, Discard. cbn. rewrite Hall. unfold len. rewrite Nat2Z.id, drop_all. lia. }
      { pose proof (len_nonneg data). lia. }
      exists rd'. split; [done|]. rewrite Hdc in Hrd'. cbn [app] in *.
      destruct (cut h' _ _) as [[c r]|]; cbn.
      * rewrite app_assoc. done.
      * rewrite (app_assoc buf). done.
Qed.

Lemma findChunkBoundary_spec rd :
  exists rd', berr rd' = berr rd /\
  match cut 0 0 (content rd) with
  | Some (c, rest) => findChunkBoundary rd = (c, None, rd') /\ content rd' = rest
  | None =>
      content rd' = [] /\
      findChunkBoundary rd =
        if bool_decide (berr rd = EOF) then (content rd, Some EOF, rd')
        else ([], Some (Wrapf "read chunk data: %w" (berr rd)), rd')
  end.
Proof.
  apply (find_loop_spec _ _ _ _ []); [|unfold MaxChunkSize; lia].
  unfold pending. destruct (bbuf rd); lia.
Qed.

(** ** Lemmas on the reference *)

Lemma cut_Some hash size data c rest :
  0 <= size < MaxChunkSize -> cut hash size data = Some (c, rest) ->
  data = c ++ rest /\ 0 < len c /\ MinChunkSize <= size + len c <= MaxChunkSize.
Proof.
  revert hash size c. induction data as [|b data IH]; intros hash size c Hs; [done|].
  cbn [cut]. destruct (is_cut _ _) eqn:Ec.
  - intros [= <- <-]. change (len [b]) with 1. unfold is_cut, MinChunkSize, MaxChunkSize in *.
    split; [done|]. apply orb_true_iff in Ec as [[Ec _]%andb_true_iff|Ec]; lia.
  - destruct (cut _ _ data) as [[c' r]|] eqn:E; [|done]. cbn. intros [= <- <-].
    apply IH in E as (-> & ? & ?).
    + rewrite len_cons. split; [done|lia].
    + unfold is_cut in Ec. apply orb_false_iff in Ec as [_ Ec]. lia.
Qed.

Lemma cut_None hash size data :
  0 <= size < MaxChunkSize -> cut hash size data = None -> size + len data < MaxChunkSize.
Proof.
  revert hash size. induction data as [|b data IH]; intros hash size Hs.
  - rewrite len_nil. lia.
  - cbn [cut]. destruct (is_cut _ _) eqn:Ec; [done|].
    destruct (cut _ _ data) as [[]|] eqn:E; [done|]. intros _.
    unfold is_cut in Ec. apply orb_false_iff in Ec as [_ Ec].
    apply IH in E; [|lia]. rewrite len_cons. lia.
Qed.

Lemma cut_more hash size data c rest more :
  cut hash size data = Some (c, rest) -> cut hash size (data ++ more) = Some (c, rest ++ more).
Proof.
  revert hash size c. induction data as [|b data IH]; intros hash size c; [done|].
  cbn [cut app]. destruct (is_cut _ _); [by intros [= <- <-]|].
  destruct (cut _ _ data) as [[c' r]|] eqn:E; [|done]. cbn. intros [= <- <-].
  by rewrite (IH _ _ _ E).
Qed.

Lemma cut_00_Some data c rest :
  cut 0 0 data = Some (c, rest) ->
  data = c ++ rest /\ 0 < len c /\ MinChunkSize <= len c <= MaxChunkSize.
Proof. intros H. apply cut_Some in H; [done|]. unfold MaxChunkSize. lia. Qed.

Lemma chunks_loop_fuel fuel fuel' data :
  (length data < fuel)%nat -> (length data < fuel')%nat ->
  chunks_loop fuel data = chunks_loop fuel' data.
Proof.
  revert fuel' data. induction fuel as [|fuel IH]; intros fuel' data H H'; [lia|].
  destruct fuel' as [|fuel']; [lia|]. cbn [chunks_loop].
  destruct (cut 0 0 data) as [[c rest]|] eqn:E; [|done].
  apply cut_00_Some in E as (-> & Hc & _). f_equal.
  rewrite length_app in *. unfold len in Hc. apply IH; lia.
Qed.

Lemma chunks_eq data :
  chunks data =
    match cut 0 0 data with
    | Some (c, rest) => c :: chunks rest
    | None => match data with [] => [] | _ => [data] end
    end.
Proof.
  unfold chunks at 1. cbn [chunks_loop].
  destruct (cut 0 0 data) as [[c rest]|] eqn:E; [|done].
  apply cut_00_Some in E as (-> & Hc & _). f_equal.
  apply chunks_loop_fuel; [|lia]. rewrite length_app. unfold len in Hc. lia.
Qed.

(** Induction along the cuts. *)
Lemma chunks_ind (P : list byte -> Prop) :
  (forall data, cut 0 0 data = None -> P data) ->
  (forall data c rest, cut 0 0 data = Some (c, rest) -> P rest -> P data) ->
  forall data, P data.
Proof.
  intros Hn Hs data. remember (length data) as n eqn:Hlen. revert data Hlen.
  induction (lt_wf n) as [n _ IH]. intros data ->.
  destruct (cut 0 0 data) as [[c rest]|] eqn:E; [|by apply Hn].
  eapply Hs; [done|]. eapply IH; [|done].
  apply cut_00_Some in E as (-> & Hc & _). rewrite length_app. unfold len in Hc. lia.
Qed.

Lemma chunks_concat data : concat (chunks data) = data.
Proof.
  induction data as [data E|data c rest E IH] using chunks_ind; rewrite chunks_eq, E.
  - destruct data; [done|]. cbn. by rewrite app_nil_r.
  - cbn. rewrite IH. by apply cut_00_Some in E as (-> & _).
Qed.

Lemma chunks_bound data : Forall (fun c => 0 < len c <= MaxChunkSize) (chunks data).
Proof.
  induction data as [data E|data c rest E IH] using chunks_ind; rewrite chunks_eq, E.
  - destruct data as [|b data]; [done|]. constructor; [|done].
    apply cut_None in E; [|unfold MaxChunkSize; lia].
    rewrite len_cons in *. pose proof (len_nonneg data). lia.
  - constructor; [|done]. apply cut_00_Some in E. lia.
Qed.

Lemma chunks_min data cs c : chunks data = cs ++ [c] -> Forall (fun c => MinChunkSize <= len c) cs.
Proof.
  revert cs. induction data as [data E|data c' rest E IH] using chunks_ind; intros cs;
    rewrite chunks_eq, E.
  - destruct data as [|b data]; [by destruct cs|].
    destruct cs as [|? [|]]; [done|done|done].
  - destruct cs as [|c0 cs]; [done|]. cbn. intros [= -> H]. constructor; [|by eapply IH].
    apply cut_00_Some in E. lia.
Qed.

(** Cutting restarts at every boundary. *)
Lemma chunks_suffix data cs ds :
  chunks data = cs ++ ds -> chunks (concat ds) = ds.
Proof.
  destruct (decide (ds = [])) as [->|Hds]; [done|].
  revert cs. induction data as [data E|data c rest E IH] using chunks_ind; intros cs H.
  - pose proof (chunks_concat data) as Hc. rewrite chunks_eq, E in H.
    destruct data as [|b data]; [by destruct cs, ds|].
    destruct cs as [|c0 cs]; cbn in H.
    + rewrite <- H. cbn. rewrite app_nil_r, chunks_eq, E. done.
    + by destruct cs, ds.
  - destruct cs as [|c0 cs]; [cbn in H; by rewrite <- H, chunks_concat|].
    rewrite chunks_eq, E in H. injection H as -> H. by eapply IH.
Qed.

Lemma closed_loop_fuel fuel fuel' data :
  (length data < fuel)%nat -> (length data < fuel')%nat ->
  closed_loop fuel data = closed_loop fuel' data.
Proof.
  revert fuel' data. induction fuel as [|fuel IH]; intros fuel' data H H'; [lia|].
  destruct fuel' as [|fuel']; [lia|]. cbn [closed_loop].
  destruct (cut 0 0 data) as [[c rest]|] eqn:E; [|done].
  apply cut_00_Some in E as (-> & Hc & _). f_equal.
  rewrite length_app in *. unfold len in Hc. apply IH; lia.
Qed.

Lemma closed_chunks_eq data :
  closed_chunks data =
    match cut 0 0 data with
    | Some (c, rest) => c :: closed_chunks rest
    | None => []
    end.
Proof.
  unfold closed_chunks at 1. cbn [closed_loop].
  destruct (cut 0 0 data) as [[c rest]|] eqn:E; [|done].
  apply cut_00_Some in E as (-> & Hc & _). f_equal.
  apply closed_loop_fuel; [|lia]. rewrite length_app. unfold len in Hc. lia.
Qed.

(** The closed chunks are all the chunks but at most the last. *)
Lemma chunks_closed data :
  exists tail, cut 0 0 tail = None /\ data = concat (closed_chunks data) ++ tail /\
    chunks data = closed_chunks data ++ match tail with [] => [] | _ => [tail] end.
Proof.
  induction data as [data E|data c rest E (tail & Ht & Hd & IH)] using chunks_ind;
    rewrite chunks_eq, closed_chunks_eq, E.
  - by exists data.
  - exists tail. rewrite IH. apply cut_00_Some in E as (-> & _). split; [done|].
    split; [|done]. cbn. by rewrite <- app_assoc, <- Hd.
Qed.

(** More data leaves the closed chunks as they are. *)
Lemma chunks_more data more :
  exists ds, chunks (data ++ more) = closed_chunks data ++ ds.
Proof.
  induction data as [data E|data c rest E (ds & IH)] using chunks_ind;
    rewrite closed_chunks_eq, E.
  - by eexists.
  - exists ds. rewrite chunks_eq, (cut_more _ _ _ _ _ _ E), IH. done.
Qed.

(** ** The drivers against the reference *)

Section drivers.
Context {St : Type} (fn : St -> Z -> list byte -> result St).

Definition process (st : St) (oc : Z * list byte) : result St :=
  wrap_err "error processing chunk: %w" (fn st oc.1 oc.2).

Lemma chunk_data_loop_spec fuel rd off st :
  (length (content rd) < fuel)%nat -> 0 <= off -> off + len (content rd) < 2 ^ 63 ->
  chunk_data_loop fn fuel rd off st =
    if bool_decide (berr rd = EOF)
    then foldM process st (with_offsets off (chunks (content rd)))
    else
      foldM process st (with_offsets off (closed_chunks (content rd))) ≫= fun _ =>
      Err (Wrapf "read chunk data: %w" (berr rd)).
Proof.
  revert rd off st. induction fuel as [|fuel IH]; intros rd off st Hf Hoff Hmax; [lia|].
  cbn [chunk_data_loop]. destruct (findChunkBoundary_spec rd) as (rd' & He & Hspec).
  rewrite chunks_eq, closed_chunks_eq. destruct (cut 0 0 (content rd)) as [[c rest]|] eqn:Ec.
  - destruct Hspec as [-> Hrest]. apply cut_00_Some in Ec as (Hc & Hpos & _).
    rewrite Hc, length_app in Hf. rewrite Hc, len_app in Hmax.
    pose proof (len_nonneg rest).
    destruct (Z.eqb_spec (len c) 0); [lia|].
    rewrite i64_small by (unfold is_i64; lia). cbn [with_offsets foldM].
    change (wrap_err _ (fn st off c)) with (process st (off, c)).
    destruct (process st (off, c)) as [st'|]; cbn [mbind result_bind];
      [|by destruct (bool_decide _)].
    rewrite IH; rewrite ?Hrest; [|unfold len in *; lia..].
    rewrite He. done.
  - destruct Hspec as [_ ->]. case_bool_decide as Hb; cbn [negb].
    + rewrite bool_decide_eq_false_2 by (by intros []). destruct (content rd) as [|b l]; [done|].
      destruct (Z.eqb_spec (len (b :: l)) 0) as [E0|_]; [by apply len_0_nil in E0|].
      cbn. unfold process. cbn. by destruct (fn st off (b :: l)).
    + by rewrite bool_decide_eq_true_2.
Qed.
End drivers.

(** The chunks an iterator returns until it reports an error, and that error. *)
Fixpoint drain (fuel : nat) (c : Chunker) : list (Z * list byte) * error :=
  match fuel with
  | O => ([], Panic "out of fuel")
  | S fuel =>
      match Chunk c with
      | (Ok oc, c) => prod_map (cons oc) id (drain fuel c)
      | (Err e, _) => ([], e)
      end
  end.

Lemma drain_done fuel rd off : drain (S fuel) (MkChunker rd off true) = ([], EOF).
Proof. done. Qed.

Lemma drain_spec fuel rd off :
  (1 + length (content rd) < fuel)%nat -> 0 <= off -> off + len (content rd) < 2 ^ 63 ->
  drain fuel (MkChunker rd off false) =
    if bool_decide (berr rd = EOF)
    then (with_offsets off (chunks (content rd)), EOF)
    else (with_offsets off (closed_chunks (content rd)), Wrapf "read chunk data: %w" (berr rd)).
Proof.
  revert rd off. induction fuel as [|fuel IH]; intros rd off Hf Hoff Hmax; [lia|].
  cbn [drain]. unfold Chunk. cbn [cdone creader coffset].
  destruct (findChunkBoundary_spec rd) as (rd' & He & Hspec).
  rewrite chunks_eq, closed_chunks_eq. destruct (cut 0 0 (content rd)) as [[c rest]|] eqn:Ec.
  - destruct Hspec as [-> Hrest]. apply cut_00_Some in Ec as (Hc & Hpos & _).
    rewrite Hc, length_app in Hf. rewrite Hc, len_app in Hmax.
    pose proof (len_nonneg rest).
    destruct (Z.eqb_spec (len c) 0); [lia|]. rewrite i64_small by (unfold is_i64; lia).
    rewrite IH; rewrite ?Hrest; [|unfold len in *; lia..].
    rewrite He. by case_bool_decide.
  - destruct Hspec as [_ ->]. case_bool_decide as Hb.
    + rewrite bool_decide_eq_false_2 by (by intros []). destruct (content rd) as [|b l]; [done|].
      destruct (Z.eqb_spec (len (b :: l)) 0) as [E0|_]; [by apply len_0_nil in E0|].
      destruct fuel as [|fuel]; [cbn in Hf; lia|]. by rewrite drain_done.
    + by rewrite bool_decide_eq_true_2.
Qed.

(** ** The rolling window *)

Definition gears (hash : Z) (w : list byte) : Z := foldl gear hash w.

Lemma gear_linear h b : gear h b = u64 (2 * h + gear 0 b).
Proof.
  unfold gear, u64. rewrite !Z.shiftl_mul_pow2 by lia. change (2 ^ 1) with 2.
  rewrite Z.mul_0_l, Z.mod_0_l, Z.add_0_l, (Z.mul_comm h) by lia.
  rewrite Zplus_mod_idemp_l, Zplus_mod_idemp_r. done.
Qed.

Lemma gears_linear h w : w <> [] -> gears h w = u64 (2 ^ len w * h + gears 0 w).
Proof.
  revert h. induction w as [|b w IH] using rev_ind; intros h Hw; [done|]. clear Hw.
  unfold gears. rewrite !foldl_app. cbn [foldl]. fold (gears h w) (gears 0 w).
  rewrite (gear_linear (gears h w)), (gear_linear (gears 0 w)). unfold u64.
  destruct (decide (w = [])) as [->|Hw].
  - cbn. rewrite Zplus_mod_idemp_r. done.
  - rewrite IH by done. unfold u64. rewrite Zplus_mod_idemp_r.
    rewrite <- (Zplus_mod_idemp_l (2 * _)), Zmult_mod_idemp_r, Zplus_mod_idemp_l.
    rewrite len_app. change (len [b]) with 1.
    rewrite Z.pow_add_r by (pose proof (len_nonneg w); lia). f_equal. lia.
Qed.

(** The rolling hash after 64 bytes no longer depends on what came before
    them, so the cut decision at a byte is a function of the last 64 bytes of
    its chunk once the chunk is at least that long: the window that makes
    chunk boundaries follow the content and not the position in the stream. *)
Theorem gear_window h h' w :
  64 <= len w -> gears h w = gears h' w.
Proof.
  intros Hw. assert (w <> []) by (intros ->; rewrite len_nil in Hw; lia).
  rewrite (gears_linear h), (gears_linear h') by done. unfold u64.
  replace (len w) with (64 + (len w - 64)) by lia. rewrite Z.pow_add_r by lia.
  rewrite <- !Z.mul_assoc, !(Z.mul_comm (2 ^ 64)).
  by rewrite !(Z.add_comm (_ * 2 ^ 64)), !Z_mod_plus_full.
Qed.

Lemma gear_window_witness :
  64 <= len (replicate 70 Byte.x61) /\
  gears 1 (replicate 70 Byte.x61) = gears 2 (replicate 70 Byte.x61).
Proof. split; [vm_compute; discriminate|]. apply gear_window. vm_compute. discriminate. Defined.

(** ** Properties *)

(** C1: [ChunkData] calls its callback, in order and with the right offsets, on
    exactly the chunks the byte-at-a-time reference cuts from the whole stream,
    however the reader fragments it, and it terminates.  When the stream ends
    in an error and not in [EOF] the callback has seen exactly the chunks whose
    end was reached, and the error is returned wrapped. *)
Theorem ChunkData_reference {St} (fn : St -> Z -> list byte -> result St) src e st :
  len (concat src) < 2 ^ 63 ->
  ChunkData fn src e st =
    if bool_decide (e = EOF)
    then foldM (process fn) st (with_offsets 0 (chunks (concat src)))
    else
      foldM (process fn) st (with_offsets 0 (closed_chunks (concat src))) ≫= fun _ =>
      Err (Wrapf "read chunk data: %w" e).
Proof.
  intros H. unfold ChunkData. rewrite chunk_data_loop_spec; [done|cbn; lia..|done].
Qed.

Lemma ChunkData_reference_witness :
  ChunkData (fun st off c => Ok (st ++ [(off, c)])) [str "ab"; []; str "c"] EOF [] =
    Ok [(0, str "abc")].
Proof.
  rewrite (ChunkData_reference (fun st off c => Ok (st ++ [(off, c)])) [str "ab"; []; str "c"] EOF []);
    reflexivity.
Defined.

(** The iterator returns the same chunks with the same offsets as the
    callback driver, then [EOF] (or the wrapped read error). *)
Theorem Chunker_reference src e :
  len (concat src) < 2 ^ 63 ->
  drain (2 + length (concat src)) (NewChunker src e) =
    if bool_decide (e = EOF)
    then (with_offsets 0 (chunks (concat src)), EOF)
    else (with_offsets 0 (closed_chunks (concat src)), Wrapf "read chunk data: %w" e).
Proof. intros H. unfold NewChunker. rewrite drain_spec; [done|cbn; lia..|done]. Qed.

Lemma Chunker_reference_witness :
  drain 5 (NewChunker [str "ab"; []; str "c"] EOF) = ([(0, str "abc")], EOF).
Proof.
  etransitivity; [apply (Chunker_reference [str "ab"; []; str "c"] EOF)|]; reflexivity.
Defined.

(** The chunks of a stream partition it; each is non-empty and at most
    [MaxChunkSize] long, and all but the last are at least [MinChunkSize]. *)
Theorem chunks_partition data :
  concat (chunks data) = data /\
  Forall (fun c => 0 < len c <= MaxChunkSize) (chunks data) /\
  forall cs c, chunks data = cs ++ [c] -> Forall (fun c => MinChunkSize <= len c) cs.
Proof. eauto using chunks_concat, chunks_bound, chunks_min. Qed.

(** Deduplication across edits.  Data appended to a stream leaves all its
    closed chunks in place, and two streams that share a chunk boundary and
    the bytes after it share every chunk after it. *)
Theorem chunks_local :
  (forall data more, exists ds,
     chunks (data ++ more) = closed_chunks data ++ ds) /\
  (forall data data' cs cs' ds ds',
     chunks data = cs ++ ds -> chunks data' = cs' ++ ds' ->
     concat ds = concat ds' -> ds = ds').
Proof.
  split; [apply chunks_more|]. intros data data' cs cs' ds ds' H H' Heq.
  by rewrite <- (chunks_suffix _ _ _ H), <- (chunks_suffix _ _ _ H'), Heq.
Qed.

Lemma chunks_local_witness : [str "abc"] = [str "abc"].
Proof.
  apply (proj2 chunks_local (str "abc") (str "abc") [] []); reflexivity.
Defined.
