(* ===== verification/Merkle.v ===== *)
(** * The Merkle tree: [merkle.go]

    The variable-fan-out tree over chunk hashes that names xorbs and files:
    [nextMergeCut] groups the entries of a level, [mergeNodes] hashes a group's
    text encoding, [ComputeRoot] collapses levels until one entry is left.
    Proved: the loops terminate, the groups are a partition within the fan-out
    bound and fit the shared scratch buffer, sizes are conserved, and the root
    binds the chunk contents: two chunk lists with one root are equal unless
    two of the BLAKE3 queries made for them collide. *)

From Stdlib Require Import ZArith Lia Strings.Byte Strings.String.
From S2P Require Import Prelude Hash.

Definition MeanBranchingFactor : Z := 4.
Definition MinChildren : Z := 2.
Definition MaxChildren : Z := 9.
Definition mergeLineMax : Z := 64 + 3 + 20 + 1.

Record node : Type := Node {
  nhash : hash;
  nsize : Z;
}.

#[global] Instance node_eq_decision : EqDecision node.
Proof. solve_decision. Defined.

Record merkleTree : Type := MerkleTree { tnode : list node }.

Definition newTree : merkleTree := MerkleTree [].

Definition AddLeaf (t : merkleTree) (h : hash) (size : Z) : merkleTree :=
  MerkleTree (tnode t ++ [Node h size]).

(** The scan of [nodes[2:end]] for the first hash that closes a group. *)
Fixpoint merge_cut_loop (i end_ : Z) (nodes : list node) : Z :=
  match nodes with
  | [] => end_
  | n :: nodes =>
      if i <? end_ then
        let hashValue := le_val (slice 24 32 (nhash n)) in
        if hashValue mod MeanBranchingFactor =? 0 then i + 1
        else merge_cut_loop (i + 1) end_ nodes
      else end_
  end.

Definition nextMergeCut (nodes : list node) : Z :=
  let n := len nodes in
  if n <=? 2 then n
  else merge_cut_loop 2 (Z.min MaxChildren n) (drop 2 nodes).

Section merkle.
Context {B3 : Blake3}.

(** The line a child contributes: ["{hash_hex} : {size}\n"]. *)
Definition merge_step (acc : list byte * Z) (n : node) : list byte * Z :=
  let '(input, totalSize) := acc in
  let input := appendHash input (nhash n) in
  let input := input ++ str " : " in
  let input := input ++ format_uint 10 (nsize n) in
  let input := input ++ [Byte.x0a] in
  (input, u64 (totalSize + nsize n)).

Definition mergeNodes (nodes : list node) : node :=
  let '(input, totalSize) := foldl merge_step ([], 0) nodes in
  Node (computeInternalNodeHash input) totalSize.

(** One level: [entries] is what [readIdx] has not passed yet. *)
Fixpoint level_loop (fuel : nat) (entries nextLevel : list node) : result (list node) :=
  match entries with
  | [] => Ok nextLevel
  | _ =>
      match fuel with
      | O => Err (Panic "out of fuel")
      | S fuel =>
          let cutSize := nextMergeCut entries in
          let merged := mergeNodes (take (Z.to_nat cutSize) entries) in
          level_loop fuel (drop (Z.to_nat cutSize) entries) (nextLevel ++ [merged])
      end
  end.

Fixpoint root_loop (fuel : nat) (entries : list node) : result hash :=
  match entries with
  | [] => Err (Panic "index out of range")
  | [n] => Ok (nhash n)
  | _ =>
      match fuel with
      | O => Err (Panic "out of fuel")
      | S fuel => nextLevel ← level_loop (length entries) entries []; root_loop fuel nextLevel
      end
  end.

(** Each level is shorter than the one below it. *)
Definition ComputeRoot (t : merkleTree) : result hash :=
  if len (tnode t) =? 0 then Ok zeroHash else root_loop (length (tnode t)) (tnode t).

Fixpoint add_leaves (t : merkleTree) (chunkHashes : list ChunkHash) (chunkSizes : list Z) :
    merkleTree :=
  match chunkHashes, chunkSizes with
  | h :: hs, s :: ss => add_leaves (AddLeaf t h s) hs ss
  | _, _ => t
  end.

Definition ComputeXorbHash (chunkHashes : list ChunkHash) (chunkSizes : list Z) : result XorbHash :=
  if negb (len chunkHashes =? len chunkSizes)
  then Err (Panic "chunk hashes and sizes length mismatch")
  else ComputeRoot (add_leaves newTree chunkHashes chunkSizes).

Definition ComputeFileHash (chunkHashes : list ChunkHash) (chunkSizes : list Z) : result FileHash :=
  if len chunkHashes =? 0 then Ok zeroHash
  else
    xorbHash ← ComputeXorbHash chunkHashes chunkSizes;
    Ok (computeFileHash (vec_to_list xorbHash)).
End merkle.

(** ** Grouping *)

Lemma merge_cut_loop_range i end_ nodes :
  i < end_ -> i + 1 <= merge_cut_loop i end_ nodes <= end_.
Proof.
  revert i. induction nodes as [|n nodes IH]; intros i Hi; cbn [merge_cut_loop]; [lia|].
  destruct (Z.ltb_spec i end_); [|lia]. case_match; [lia|].
  destruct (decide (i + 1 < end_)) as [Hlt|]; [pose proof (IH _ Hlt); lia|].
  destruct nodes; cbn; [lia|]. destruct (Z.ltb_spec (i + 1) end_); lia.
Qed.

Lemma nextMergeCut_range nodes :
  nodes <> [] ->
  1 <= nextMergeCut nodes <= Z.min MaxChildren (len nodes) /\
  (2 <= len nodes -> 2 <= nextMergeCut nodes) /\
  (3 <= len nodes -> 3 <= nextMergeCut nodes).
Proof.
  intros Hn. assert (0 < len nodes) as Hp by (destruct nodes; [done|]; rewrite len_cons; pose proof (len_nonneg nodes); lia).
  unfold nextMergeCut. destruct (Z.leb_spec (len nodes) 2); [unfold MaxChildren; lia|].
  pose proof (merge_cut_loop_range 2 (Z.min MaxChildren (len nodes)) (drop 2 nodes)) as H2.
  unfold MaxChildren in *. lia.
Qed.

(** The groups of a level, as a partition of its entries. *)
Fixpoint groups_loop (fuel : nat) (entries : list node) : list (list node) :=
  match fuel with
  | O => []
  | S fuel =>
      match entries with
      | [] => []
      | _ =>
          let cutSize := Z.to_nat (nextMergeCut entries) in
          take cutSize entries :: groups_loop fuel (drop cutSize entries)
      end
  end.

Definition groups (entries : list node) : list (list node) :=
  groups_loop (length entries) entries.

Lemma groups_loop_concat fuel entries :
  (length entries <= fuel)%nat -> concat (groups_loop fuel entries) = entries.
Proof.
  revert entries. induction fuel as [|fuel IH]; intros entries Hf.
  - by destruct entries; [|cbn in Hf; lia].
  - cbn [groups_loop]. destruct entries as [|n entries]; [done|]. cbn [concat].
    rewrite IH, take_drop; [done|].
    destruct (nextMergeCut_range (n :: entries)) as [Hc _]; [done|].
    rewrite length_drop. cbn [length] in *. lia.
Qed.

Lemma groups_concat entries : concat (groups entries) = entries.
Proof. by apply groups_loop_concat. Qed.

Lemma groups_loop_bound fuel entries :
  Forall (fun g => 1 <= len g <= MaxChildren) (groups_loop fuel entries).
Proof.
  revert entries. induction fuel as [|fuel IH]; intros entries; [constructor|].
  cbn [groups_loop]. destruct entries as [|n entries]; [constructor|].
  constructor; [|apply IH].
  destruct (nextMergeCut_range (n :: entries)) as [Hc _]; [done|].
  unfold len in *. rewrite length_take. lia.
Qed.

Lemma groups_loop_min fuel entries gs g :
  groups_loop fuel entries = gs ++ [g] -> Forall (fun g => 3 <= len g) gs.
Proof.
  revert entries gs. induction fuel as [|fuel IH]; intros entries gs; cbn [groups_loop].
  - by destruct gs.
  - destruct entries as [|n entries]; [by destruct gs|].
    destruct gs as [|g0 gs]; [constructor|]. intros [= <- H].
    destruct (nextMergeCut_range (n :: entries)) as (Hc & H2 & H3); [done|].
    constructor; [|by eapply IH]. unfold len in *.
    rewrite length_take.
    destruct (decide (3 <= Z.of_nat (length (n :: entries)))) as [|Hlt]; [lia|].
    exfalso. unfold nextMergeCut in H. unfold len in H.
    destruct (Z.leb_spec (Z.of_nat (length (n :: entries))) 2); [|lia].
    rewrite Nat2Z.id, drop_all in H. destruct fuel; cbn in H; by destruct gs.
Qed.

Lemma groups_shrink entries : 2 <= len entries -> len (groups entries) < len entries.
Proof.
  intros H. pose proof (groups_concat entries) as Hc.
  unfold groups in *. destruct entries as [|n entries]; [done|].
  cbn [length groups_loop] in *.
  destruct (nextMergeCut_range (n :: entries)) as (Hr & H2 & _); [done|].
  specialize (H2 H). rewrite len_cons.
  apply (f_equal len) in Hc. cbn [concat] in Hc. rewrite len_app in Hc.
  assert (forall fuel l, len (groups_loop fuel l) <= len (concat (groups_loop fuel l))) as Hle.
  { intros fuel l. pose proof (groups_loop_bound fuel l) as Hb.
    induction Hb as [|g gs Hg _ IH]; [done|]. cbn [concat]. rewrite len_cons, len_app. lia. }
  pose proof (Hle (length entries) (drop (Z.to_nat (nextMergeCut (n :: entries))) (n :: entries))) as Hl.
  enough (2 <= len (take (Z.to_nat (nextMergeCut (n :: entries))) (n :: entries))) by lia.
  unfold len in *. rewrite length_take. lia.
Qed.

(** ** The text encoding of a group *)

Definition merge_line (n : node) : list byte :=
  formatHash (nhash n) ++ str " : " ++ format_uint 10 (nsize n) ++ [Byte.x0a].

Lemma merge_line_eq h s :
  merge_line (Node h s) = formatHash h ++ str " : " ++ format_uint 10 s ++ [Byte.x0a].
Proof. done. Qed.

Definition merge_input (g : list node) : list byte := concat (map merge_line g).

Definition total_size (g : list node) : Z := foldr (fun n s => nsize n + s) 0 g.

Lemma merge_step_foldl g input total :
  is_u64 total ->
  foldl merge_step (input, total) g = (input ++ merge_input g, u64 (total + total_size g)).
Proof.
  revert input total. induction g as [|n g IH]; intros input total Ht; cbn [foldl merge_step].
  - cbn. rewrite app_nil_r, Z.add_0_r, u64_small; done.
  - rewrite IH by apply u64_range. f_equal.
    + unfold merge_input, merge_line. cbn [map concat].
      unfold formatHash, appendHash. cbn [app]. rewrite <- !app_assoc. done.
    + change (total_size (n :: g)) with (nsize n + total_size g). unfold u64. rewrite Zplus_mod_idemp_l. f_equal. lia.
Qed.

Lemma format_dec_pad v :
  is_u64 v ->
  (length (format_uint 10 v) <= 20)%nat /\
  replicate (20 - length (format_uint 10 v)) (z2b 48) ++ format_uint 10 v =
    map digit_char (be_digits 20 10 v).
Proof.
  intros Hv. apply format_uint_pad; [lia..|]. unfold is_u64 in Hv.
  change (10 ^ Z.of_nat 20) with 100000000000000000000. lia.
Qed.

Lemma map_digit_char_inj ds es :
  Forall (fun d => 0 <= d < 10) ds -> Forall (fun d => 0 <= d < 10) es ->
  map digit_char ds = map digit_char es -> ds = es.
Proof.
  intros Hd. revert es. induction Hd as [|d ds Hd _ IH]; intros [|e es] He; cbn; [done..|].
  apply Forall_cons in He as [He Hes]. intros [= Hh Ht]. f_equal; [|by apply IH].
  apply (f_equal digit_val) in Hh. rewrite !digit_val_char in Hh by lia. by simplify_eq.
Qed.

Lemma format_dec_inj v w :
  is_u64 v -> is_u64 w -> format_uint 10 v = format_uint 10 w -> v = w.
Proof.
  intros Hv Hw H. destruct (format_dec_pad v Hv) as [_ Pv], (format_dec_pad w Hw) as [_ Pw].
  rewrite H, Pw in Pv. apply map_digit_char_inj in Pv; [|apply be_digits_range; lia..].
  rewrite <- (dval_be_digits 20 10 v), <- (dval_be_digits 20 10 w), Pv; [done|lia| |lia|];
    change (10 ^ Z.of_nat 20) with 100000000000000000000; unfold is_u64 in *; lia.
Qed.

Lemma format_dec_no_newline v : is_u64 v -> Byte.x0a ∉ format_uint 10 v.
Proof.
  intros Hv Hin. destruct (format_dec_pad v Hv) as [_ P].
  assert (Byte.x0a ∈ map digit_char (be_digits 20 10 v)) as Hm
    by (rewrite <- P; apply elem_of_app; by right).
  apply list_elem_of_fmap in Hm as (d & Hd & Hin').
  pose proof (be_digits_range 20 10 v ltac:(lia)) as Hr.
  rewrite Forall_forall in Hr. apply Hr in Hin'.
  apply (f_equal digit_val) in Hd. rewrite digit_val_char in Hd by lia. done.
Qed.

(** Text up to a separator it does not contain is determined by the whole. *)
Lemma split_at_sep {A} (x : A) l1 l2 k1 k2 :
  x ∉ l1 -> x ∉ l2 -> l1 ++ [x] ++ k1 = l2 ++ [x] ++ k2 -> l1 = l2 /\ k1 = k2.
Proof.
  revert l2. induction l1 as [|a l1 IH]; intros [|b l2] H1 H2; cbn; intros H; simplify_eq.
  - done.
  - exfalso. apply H2. by left.
  - exfalso. apply H1. by left.
  - destruct (IH l2) as [-> ->]; [..|done].
    + intros ?. apply H1. by right.
    + intros ?. apply H2. by right.
    + done.
Qed.

(** The encoding of a group determines the group. *)
Lemma merge_input_inj g g' :
  Forall (fun n => is_u64 (nsize n)) g -> Forall (fun n => is_u64 (nsize n)) g' ->
  merge_input g = merge_input g' -> g = g'.
Proof.
  unfold merge_input. intros Hg. revert g'.
  assert (forall n l, merge_line n ++ l <> []) as Hne.
  { intros n l H%(f_equal len). rewrite len_app in H. unfold merge_line in H.
    rewrite len_app, formatHash_len, len_nil in H. revert H.
    pose proof (len_nonneg l). pose proof (len_nonneg (str " : " ++ format_uint 10 (nsize n) ++ [Byte.x0a])). lia. }
  induction Hg as [|[h s] g Hs _ IH]; intros [|[h' s'] g'] Hg'; cbn [map concat]; intros H;
    [done|by apply symmetry, Hne in H|by apply Hne in H|].
  apply Forall_cons in Hg' as [Hs' Hg']. cbn in Hs, Hs'.
  rewrite !merge_line_eq, <- !app_assoc in H. apply app_inj_1 in H as [Hh H].
  2: by rewrite !length_formatHash.
  apply formatHash_inj in Hh as ->. apply app_inv_head, split_at_sep in H as [Hd Ht];
    [|by apply format_dec_no_newline..].
  apply format_dec_inj in Hd as ->; [|done..]. f_equal. by apply IH.
Qed.

(** A group never outgrows the scratch buffer, so its appends never reallocate. *)
Lemma merge_input_len g :
  Forall (fun n => is_u64 (nsize n)) g -> len (merge_input g) <= len g * mergeLineMax.
Proof.
  induction 1 as [|n g Hn _ IH]; [done|]. unfold merge_input in *. cbn [map concat].
  rewrite len_app, len_cons. unfold merge_line at 1. rewrite !len_app, formatHash_len.
  destruct (format_dec_pad _ Hn) as [Hl _].
  assert (len (format_uint 10 (nsize n)) <= 20) by (unfold len; lia).
  unfold mergeLineMax in *. change (len (str " : ")) with 3. change (len [Byte.x0a]) with 1. lia.
Qed.

(** ** Levels and roots *)

Section merkle_spec.
Context {B3 : Blake3}.

Lemma mergeNodes_eq g :
  mergeNodes g = Node (computeInternalNodeHash (merge_input g)) (u64 (total_size g)).
Proof. unfold mergeNodes. rewrite merge_step_foldl; [done|]. split; lia. Qed.

Definition level (entries : list node) : list node := map mergeNodes (groups entries).

Lemma level_loop_eq fuel entries acc :
  (length entries <= fuel)%nat ->
  level_loop fuel entries acc = Ok (acc ++ map mergeNodes (groups_loop fuel entries)).
Proof.
  revert entries acc. induction fuel as [|fuel IH]; intros entries acc Hf.
  - destruct entries; [by rewrite app_nil_r|cbn in Hf; lia].
  - cbn [level_loop groups_loop]. destruct entries as [|n entries]; [by rewrite app_nil_r|].
    rewrite IH.
    + cbn [map]. by rewrite <- app_assoc.
    + destruct (nextMergeCut_range (n :: entries)) as [Hc _]; [done|].
      rewrite length_drop. cbn [length] in *. lia.
Qed.

Lemma level_loop_level entries : level_loop (length entries) entries [] = Ok (level entries).
Proof. by rewrite level_loop_eq. Qed.

Lemma length_level entries : length (level entries) = length (groups entries).
Proof. unfold level. apply length_map. Qed.

Lemma level_nonempty entries : entries <> [] -> level entries <> [].
Proof.
  unfold level, groups. destruct entries as [|n entries]; [done|]. cbn. done.
Qed.

Lemma level_u64 entries : Forall (fun n => is_u64 (nsize n)) (level entries).
Proof.
  unfold level. apply Forall_fmap, Forall_true. intros g. cbn. rewrite mergeNodes_eq.
  apply u64_range.
Qed.

(** ** The digests a tree computes *)

(** A BLAKE3 computation: the key and the message. *)
Abbreviation query := (hash * list byte)%type.

Definition digest (q : query) : hash := blake3_keyed q.1 q.2.

Definition level_queries (entries : list node) : list query :=
  map (fun g => (internalNodeKey, merge_input g)) (groups entries).

Fixpoint root_queries (fuel : nat) (entries : list node) : list query :=
  match fuel, entries with
  | S fuel, _ :: _ :: _ => level_queries entries ++ root_queries fuel (level entries)
  | _, _ => []
  end.

(** The levels above [leaves], all their digests being among [Q]. *)
Inductive levels (Q : list query) (leaves : list node) : list node -> Prop :=
| levels_leaves : levels Q leaves leaves
| levels_up entries :
    levels Q leaves entries -> 2 <= len entries -> level_queries entries ⊆ Q ->
    levels Q leaves (level entries).

Lemma root_loop_levels Q fuel leaves entries :
  levels Q leaves entries -> entries <> [] -> (length entries <= fuel)%nat ->
  root_queries fuel entries ⊆ Q ->
  exists n, root_loop fuel entries = Ok (nhash n) /\ levels Q leaves [n].
Proof.
  revert entries. induction fuel as [|fuel IH]; intros entries Hl Hn Hf HQ.
  - destruct entries; [done|cbn in Hf; lia].
  - destruct entries as [|a [|b entries]]; [done|eauto|].
    cbn [root_loop root_queries] in *. rewrite level_loop_level. cbn [mbind result_bind].
    apply list_subseteq_app_iff_l in HQ as [HQ1 HQ2].
    assert (2 <= len (a :: b :: entries)) as H2
      by (rewrite !len_cons; pose proof (len_nonneg entries); lia).
    apply IH; [by constructor|by apply level_nonempty| |done].
    pose proof (groups_shrink _ H2). pose proof (length_level (a :: b :: entries)).
    unfold len in *. lia.
Qed.

Definition mk_leaves (hs : list ChunkHash) (ss : list Z) : list node := zip_with Node hs ss.

Lemma add_leaves_eq t hs ss : tnode (add_leaves t hs ss) = tnode t ++ mk_leaves hs ss.
Proof.
  revert t ss. induction hs as [|h hs IH]; intros t [|s ss]; cbn; rewrite ?app_nil_r; [done..|].
  rewrite IH. cbn. by rewrite <- app_assoc.
Qed.

Lemma ComputeXorbHash_levels Q hs ss :
  length hs = length ss -> hs <> [] ->
  root_queries (length hs) (mk_leaves hs ss) ⊆ Q ->
  exists n, ComputeXorbHash hs ss = Ok (nhash n) /\ levels Q (mk_leaves hs ss) [n].
Proof.
  intros Hl Hn HQ. unfold ComputeXorbHash. unfold len at 1 2. rewrite Hl, Z.eqb_refl. cbn [negb].
  unfold ComputeRoot. rewrite add_leaves_eq. cbn [newTree tnode app].
  assert (length (mk_leaves hs ss) = length hs) as Hlen
    by (unfold mk_leaves; rewrite length_zip_with; lia).
  destruct (Z.eqb_spec (len (mk_leaves hs ss)) 0) as [H0|_].
  { apply len_0_nil in H0. rewrite H0 in Hlen. by destruct hs. }
  rewrite Hlen. apply root_loop_levels; [constructor| |lia|done].
  intros H0. rewrite H0 in Hlen. by destruct hs.
Qed.

(** ** Binding *)

(** No two of the digests agree on different inputs. *)
Definition collision_free (Q : list query) : Prop :=
  forall q q', q ∈ Q -> q' ∈ Q -> digest q = digest q' -> q = q'.

(** The leaves of the chunks with contents [ds]. *)
Definition data_leaves (ds : list (list byte)) : list node :=
  map (fun d => Node (ComputeChunkHash d) (len d)) ds.

Definition xorb_queries (ds : list (list byte)) : list query :=
  map (pair dataKey) ds ++ root_queries (length ds) (data_leaves ds).

Lemma data_key_internal_key : dataKey <> internalNodeKey.
Proof. by vm_compute. Qed.

Lemma map_digest_inj Q qs qs' :
  collision_free Q -> qs ⊆ Q -> qs' ⊆ Q -> map digest qs = map digest qs' -> qs = qs'.
Proof.
  intros HQ. revert qs'. induction qs as [|q qs IH]; intros [|q' qs'] H H'; cbn; [done..|].
  intros [= Hh Ht]. f_equal.
  - apply HQ; [apply H|apply H'|done]; by left.
  - apply IH; [| |done]; intros x Hx; [apply H|apply H']; by right.
Qed.

Lemma map_nhash_leaves ds : map nhash (data_leaves ds) = map digest (map (pair dataKey) ds).
Proof. unfold data_leaves. by rewrite !map_map. Qed.

Lemma map_nhash_level entries : map nhash (level entries) = map digest (level_queries entries).
Proof.
  unfold level, level_queries. rewrite !map_map. apply map_ext. intros g. by rewrite mergeNodes_eq.
Qed.

Lemma levels_u64 Q leaves L :
  Forall (fun n => is_u64 (nsize n)) leaves -> levels Q leaves L ->
  Forall (fun n => is_u64 (nsize n)) L.
Proof. intros H []; [done|apply level_u64]. Qed.

Lemma groups_inj entries entries' :
  Forall (fun n => is_u64 (nsize n)) entries -> Forall (fun n => is_u64 (nsize n)) entries' ->
  level_queries entries = level_queries entries' -> entries = entries'.
Proof.
  intros Hu Hu' H. rewrite <- (groups_concat entries), <- (groups_concat entries').
  rewrite <- (groups_concat entries) in Hu. rewrite <- (groups_concat entries') in Hu'.
  unfold level_queries in H. f_equal.
  revert Hu Hu' H. generalize (groups entries) (groups entries').
  induction l as [|g gs IH]; intros [|g' gs']; cbn; intros Hu Hu' H; [done..|].
  apply Forall_app in Hu as [Hg Hu], Hu' as [Hg' Hu']. injection H as Hh Ht.
  f_equal; [by apply merge_input_inj|by apply IH].
Qed.

Lemma query_keys_disjoint Q ds entries :
  collision_free Q -> map (pair dataKey) ds ⊆ Q -> level_queries entries ⊆ Q -> ds <> [] ->
  map digest (map (pair dataKey) ds) <> map digest (level_queries entries).
Proof.
  intros HQ H1 H2 Hds H. apply (map_digest_inj Q) in H; [|done..].
  destruct ds as [|d ds]; [done|]. unfold level_queries in H.
  destruct (groups entries) as [|g gs]; [done|]. injection H as Hk _ _.
  by apply data_key_internal_key.
Qed.

Lemma levels_binding Q ds ds' L L' :
  collision_free Q -> ds <> [] -> ds' <> [] ->
  Forall (fun d => is_u64 (len d)) ds -> Forall (fun d => is_u64 (len d)) ds' ->
  map (pair dataKey) ds ⊆ Q -> map (pair dataKey) ds' ⊆ Q ->
  levels Q (data_leaves ds) L -> levels Q (data_leaves ds') L' ->
  map nhash L = map nhash L' -> ds = ds'.
Proof.
  intros HQ Hne Hne' Hu Hu' Hq Hq' HL. revert L'.
  assert (forall ds : list (list byte), Forall (fun d => is_u64 (len d)) ds ->
    Forall (fun n => is_u64 (nsize n)) (data_leaves ds)) as Hleaf.
  { intros l Hl. unfold data_leaves. by apply Forall_fmap. }
  induction HL as [|L HL IH H2 HLq]; intros L' HL' Heq; destruct HL' as [|L' HL' H2' HLq'].
  - rewrite !map_nhash_leaves in Heq. apply (map_digest_inj Q) in Heq; [|done..].
    by apply (list_fmap_eq_inj (pair dataKey)) in Heq; [|by intros ?? [=]].
  - rewrite map_nhash_leaves, map_nhash_level in Heq.
    by eapply query_keys_disjoint in Heq.
  - rewrite map_nhash_leaves, map_nhash_level in Heq.
    symmetry in Heq. by eapply (query_keys_disjoint Q ds' L) in Heq.
  - rewrite !map_nhash_level in Heq. apply (map_digest_inj Q) in Heq; [|done..].
    apply (IH L'); [done|]. f_equal.
    apply groups_inj; [eapply levels_u64, HL; auto|eapply levels_u64, HL'; auto|done].
Qed.

Lemma mk_leaves_data ds :
  mk_leaves (map ComputeChunkHash ds) (map len ds) = data_leaves ds.
Proof. unfold mk_leaves, data_leaves. induction ds; cbn; congruence. Qed.

(** The root of non-empty data comes from one entry at the top of its levels. *)
Lemma xorb_hash_levels Q ds :
  ds <> [] -> xorb_queries ds ⊆ Q ->
  exists n, ComputeXorbHash (map ComputeChunkHash ds) (map len ds) = Ok (nhash n) /\
    levels Q (data_leaves ds) [n] /\ map (pair dataKey) ds ⊆ Q.
Proof.
  intros Hne [Hq HQ]%list_subseteq_app_iff_l.
  destruct (ComputeXorbHash_levels Q (map ComputeChunkHash ds) (map len ds)) as (n & E & HL).
  - by rewrite !length_map.
  - by destruct ds.
  - by rewrite mk_leaves_data, length_map.
  - rewrite mk_leaves_data in HL. eauto.
Qed.

Lemma xorb_hash_inj Q ds ds' h :
  ds <> [] -> ds' <> [] ->
  Forall (fun d => is_u64 (len d)) ds -> Forall (fun d => is_u64 (len d)) ds' ->
  collision_free Q -> xorb_queries ds ⊆ Q -> xorb_queries ds' ⊆ Q ->
  ComputeXorbHash (map ComputeChunkHash ds) (map len ds) = Ok h ->
  ComputeXorbHash (map ComputeChunkHash ds') (map len ds') = Ok h ->
  ds = ds'.
Proof.
  intros Hne Hne' Hu Hu' HQ Hs Hs' H H'.
  destruct (xorb_hash_levels Q ds) as (n & E & HL & Hq); [done..|].
  destruct (xorb_hash_levels Q ds') as (n' & E' & HL' & Hq'); [done..|].
  eapply (levels_binding Q); [done..|exact HL|exact HL'|]. cbn. congruence.
Qed.

(** The xorb hash binds the chunk contents.  If the chunks [ds] and [ds']
    have the same xorb hash, then they are the same list of chunks, provided
    that no two of the BLAKE3 digests computed for the two trees (under the
    chunk key and the internal-node key) agree on different inputs. *)
Theorem xorb_hash_binding ds ds' h :
  ds <> [] -> ds' <> [] ->
  Forall (fun d => is_u64 (len d)) ds -> Forall (fun d => is_u64 (len d)) ds' ->
  collision_free (xorb_queries ds ++ xorb_queries ds') ->
  ComputeXorbHash (map ComputeChunkHash ds) (map len ds) = Ok h ->
  ComputeXorbHash (map ComputeChunkHash ds') (map len ds') = Ok h ->
  ds = ds'.
Proof.
  intros Hne Hne' Hu Hu' HQ. apply (xorb_hash_inj _ _ _ _ Hne Hne' Hu Hu' HQ);
    intros q Hq; apply elem_of_app; auto.
Qed.

Definition file_queries (ds : list (list byte)) : list query :=
  xorb_queries ds ++
  match ComputeXorbHash (map ComputeChunkHash ds) (map len ds) with
  | Ok root => [(zeroKey, vec_to_list root)]
  | Err _ => []
  end.

Lemma file_hash_root ds h :
  ds <> [] -> ComputeFileHash (map ComputeChunkHash ds) (map len ds) = Ok h ->
  exists root : hash, ComputeXorbHash (map ComputeChunkHash ds) (map len ds) = Ok root /\
    digest (zeroKey, vec_to_list root) = h /\ (zeroKey, vec_to_list root) ∈ file_queries ds.
Proof.
  intros Hne. unfold ComputeFileHash. rewrite len_map.
  destruct (Z.eqb_spec (len ds) 0) as [->%len_0_nil|_]; [done|].
  unfold file_queries. destruct (ComputeXorbHash _ _) as [root|]; [|done]. cbn.
  intros [= <-]. exists root. split; [done|]. split; [done|].
  apply elem_of_app. right. by left.
Qed.

Lemma file_hash_inj ds ds' h :
  Forall (fun d => is_u64 (len d)) ds -> Forall (fun d => is_u64 (len d)) ds' ->
  collision_free (file_queries ds ++ file_queries ds') ->
  Forall (fun q => digest q <> zeroHash) (file_queries ds ++ file_queries ds') ->
  ComputeFileHash (map ComputeChunkHash ds) (map len ds) = Ok h ->
  ComputeFileHash (map ComputeChunkHash ds') (map len ds') = Ok h ->
  ds = ds' /\ concat ds = concat ds'.
Proof.
  intros Hu Hu' HQ Hz H H'. enough (ds = ds') as -> by done. rewrite Forall_forall in Hz.
  assert (forall ds0, ds0 <> [] -> ds0 = ds \/ ds0 = ds' ->
    ComputeFileHash (map ComputeChunkHash ds0) (map len ds0) <> Ok zeroHash) as Hnz.
  { intros ds0 H0 Hor (root & _ & Hd & Hin)%file_hash_root; [|done].
    apply (Hz _) in Hd; [done|]. apply elem_of_app. by destruct Hor as [->| ->]; auto. }
  destruct (decide (ds = [])) as [->|Hne], (decide (ds' = [])) as [->|Hne']; [done| | |].
  - injection H as <-. exfalso. by apply (Hnz ds'); auto.
  - injection H' as <-. exfalso. by apply (Hnz ds); auto.
  - apply file_hash_root in H as (r & Hr & Hd & Hin), H' as (r' & Hr' & Hd' & Hin'); [|done..].
    assert (r = r') as <-.
    { apply vec_to_list_inj2. rewrite <- Hd' in Hd.
      apply HQ in Hd; [by injection Hd|apply elem_of_app; auto..]. }
    eapply (xorb_hash_inj _ ds ds' r Hne Hne' Hu Hu' HQ); [| |done..];
      unfold file_queries; intros q Hq; rewrite !elem_of_app; auto.
Qed.

(** Two different inputs with one digest, or an all-zero digest, among the
    queries of two files. *)
Definition hash_broken (ds ds' : list (list byte)) : Prop :=
  (exists q q', q ∈ file_queries ds ++ file_queries ds' /\ q' ∈ file_queries ds ++ file_queries ds' /\
     digest q = digest q' /\ q <> q') \/
  exists q, q ∈ file_queries ds ++ file_queries ds' /\ digest q = zeroHash.

(** Equal file hashes: equal files, or a broken hash. *)
Lemma file_hash_binds ds ds' h :
  Forall (fun d => is_u64 (len d)) ds -> Forall (fun d => is_u64 (len d)) ds' ->
  ComputeFileHash (map ComputeChunkHash ds) (map len ds) = Ok h ->
  ComputeFileHash (map ComputeChunkHash ds') (map len ds') = Ok h ->
  ds = ds' \/ hash_broken ds ds'.
Proof.
  intros Hu Hu' H H'. unfold hash_broken. set (Q := file_queries ds ++ file_queries ds').
  destruct (decide (Exists (fun q => Exists (fun q' => digest q = digest q' /\ q <> q') Q) Q)) as [Hc|Hc].
  { right. left. apply Exists_exists in Hc as (q & Hq & (q' & Hq' & ? & ?)%Exists_exists). by exists q, q'. }
  destruct (decide (Exists (fun q => digest q = zeroHash) Q)) as [Hz|Hz].
  { right. right. apply Exists_exists in Hz as (q & Hq & ?). by exists q. }
  left. apply (file_hash_inj ds ds' h); [done|done| | |done|done].
  - intros q q' Hq Hq' Hd. apply dec_stable. intros Hne. apply Hc. apply Exists_exists. exists q. split; [done|].
    apply Exists_exists. by exists q'.
  - apply Forall_forall. intros q Hq Hd. apply Hz. apply Exists_exists. by exists q.
Qed.

(** C39: the file hash binds the file.  Two non-empty chunk sequences with the
    same file hash are equal, and so are the files they make up, unless two of
    the digests computed for them collide; and a non-empty file gets the
    all-zero hash of the empty file only from a digest that is all zero. *)
Theorem file_hash_binding ds ds' h :
  Forall (fun d => is_u64 (len d)) ds -> Forall (fun d => is_u64 (len d)) ds' ->
  collision_free (file_queries ds ++ file_queries ds') ->
  Forall (fun q => digest q <> zeroHash) (file_queries ds ++ file_queries ds') ->
  ComputeFileHash (map ComputeChunkHash ds) (map len ds) = Ok h ->
  ComputeFileHash (map ComputeChunkHash ds') (map len ds') = Ok h ->
  ds = ds' /\ concat ds = concat ds'.
Proof. apply file_hash_inj. Qed.

Lemma total_size_app g g' : total_size (g ++ g') = total_size g + total_size g'.
Proof.
  induction g as [|n g IH]; [done|].
  change (nsize n + total_size (g ++ g') = nsize n + total_size g + total_size g'). lia.
Qed.

Lemma total_size_level gs :
  u64 (total_size (map mergeNodes gs)) = u64 (total_size (concat gs)).
Proof.
  induction gs as [|g gs IH]; [done|]. cbn [map concat]. rewrite total_size_app.
  rewrite mergeNodes_eq. change (total_size (?n :: ?l)) with (nsize n + total_size l).
  cbn [nsize]. unfold u64 in *.
  by rewrite Zplus_mod_idemp_l, <- Zplus_mod_idemp_r, IH, Zplus_mod_idemp_r.
Qed.

(** One level of the tree.  Its groups partition the entries in order, have
    at most [MaxChildren] members and, but for the last, at least three; every
    group's encoding fits the scratch buffer; the level above is strictly
    shorter; and the uint64 size total is unchanged. *)
Theorem merge_level_shape entries :
  2 <= len entries -> Forall (fun n => is_u64 (nsize n)) entries ->
  level_loop (length entries) entries [] = Ok (map mergeNodes (groups entries)) /\
  concat (groups entries) = entries /\
  Forall (fun g => 1 <= len g <= MaxChildren /\
                   len (merge_input g) <= MaxChildren * mergeLineMax) (groups entries) /\
  (forall gs g, groups entries = gs ++ [g] -> Forall (fun g => 3 <= len g) gs) /\
  len (groups entries) < len entries /\
  u64 (total_size (map mergeNodes (groups entries))) = u64 (total_size entries).
Proof.
  intros H2 Hu. split; [apply level_loop_level|]. split; [apply groups_concat|].
  split; [|split; [intros; by eapply groups_loop_min|]].
  - rewrite <- (groups_concat entries) in Hu.
    pose proof (groups_loop_bound (length entries) entries) as Hb. fold (groups entries) in Hb.
    induction Hb as [|g gs Hg _ IH]; [done|]. apply Forall_app in Hu as [Hu Hus].
    constructor; [|by apply IH]. split; [done|].
    pose proof (merge_input_len g Hu). unfold MaxChildren, mergeLineMax in *. lia.
  - split; [by apply groups_shrink|]. by rewrite total_size_level, groups_concat.
Qed.

Lemma ComputeXorbHash_fail hs ss e :
  ComputeXorbHash hs ss = Err e -> length hs <> length ss.
Proof.
  intros H Hl. destruct (decide (hs = [])) as [->|Hne]; [by destruct ss|].
  destruct (ComputeXorbHash_levels _ hs ss Hl Hne (reflexivity _)) as (n & E & _). congruence.
Qed.

(** [ComputeXorbHash] always ends with a hash when its two lists have the
    same length, panics otherwise, maps no chunk to the zero hash and a single
    chunk to its own hash. *)
Theorem ComputeXorbHash_total hs ss :
  (length hs = length ss <-> exists h, ComputeXorbHash hs ss = Ok h) /\
  (length hs <> length ss <->
    ComputeXorbHash hs ss = Err (Panic "chunk hashes and sizes length mismatch")) /\
  ComputeXorbHash [] [] = Ok zeroHash /\
  (forall h s, ComputeXorbHash [h] [s] = Ok h).
Proof.
  assert (length hs = length ss -> exists h, ComputeXorbHash hs ss = Ok h) as Hok.
  { intros Hl. destruct (decide (hs = [])) as [->|Hne]; [by destruct ss; [eexists|]|].
    destruct (ComputeXorbHash_levels _ hs ss Hl Hne (reflexivity _)) as (n & -> & _). eauto. }
  assert (length hs <> length ss ->
    ComputeXorbHash hs ss = Err (Panic "chunk hashes and sizes length mismatch")) as Hbad.
  { intros Hl. unfold ComputeXorbHash, len. destruct (Z.eqb_spec (Z.of_nat (length hs)) (Z.of_nat (length ss))); [lia|done]. }
  repeat split; auto.
  - intros [h H]. destruct (decide (length hs = length ss)) as [|Hl]; [done|].
    by rewrite (Hbad Hl) in H.
  - intros H Hl. destruct (Hok Hl) as [h Hh]. congruence.
Qed.
End merkle_spec.

(** ** Instances of the hypotheses *)

(** A concrete keyed hash: the polynomial value of the message in uint64,
    starting from the key. *)
Definition poly_blake3 : Blake3 := {|
  blake3_keyed key msg :=
    to_arr hashSize (le_bytes 8 (foldl (fun a b => u64 (a * 257 + b2z b)) (u64 (le_val key)) msg));
|}.

#[global] Instance collision_free_dec {B3 : Blake3} Q : Decision (collision_free Q).
Proof.
  refine (cast_if (decide (Forall (fun q => Forall (fun q' => digest q = digest q' -> q = q') Q) Q)));
    unfold collision_free.
  - abstract (intros q q' Hq Hq'; rewrite Forall_forall in f; specialize (f q Hq);
      rewrite Forall_forall in f; by apply f).
  - abstract (intros H; apply n, Forall_forall; intros q Hq; apply Forall_forall; intros q' Hq'; auto).
Defined.

Definition wit_chunks : list (list byte) := [str "a"; str "bc"].

Lemma xorb_hash_binding_witness : wit_chunks = wit_chunks.
Proof.
  apply (xorb_hash_binding (B3 := poly_blake3) wit_chunks wit_chunks
           match ComputeXorbHash (B3 := poly_blake3) (map (ComputeChunkHash (B3 := poly_blake3)) wit_chunks)
                   (map len wit_chunks) with Ok h => h | Err _ => zeroHash end).
  - done.
  - done.
  - repeat constructor; vm_compute; congruence.
  - repeat constructor; vm_compute; congruence.
  - apply (bool_decide_eq_true_1 (collision_free (B3 := poly_blake3) _)). vm_compute. reflexivity.
  - vm_compute. reflexivity.
  - vm_compute. reflexivity.
Defined.

Lemma file_hash_binding_witness : wit_chunks = wit_chunks /\ concat wit_chunks = concat wit_chunks.
Proof.
  apply (file_hash_binding (B3 := poly_blake3) wit_chunks wit_chunks
           match ComputeFileHash (B3 := poly_blake3) (map (ComputeChunkHash (B3 := poly_blake3)) wit_chunks)
                   (map len wit_chunks) with Ok h => h | Err _ => zeroHash end).
  - repeat constructor; vm_compute; congruence.
  - repeat constructor; vm_compute; congruence.
  - apply (bool_decide_eq_true_1 (collision_free (B3 := poly_blake3) _)). vm_compute. reflexivity.
  - apply (bool_decide_eq_true_1 (Forall _ _)). vm_compute. reflexivity.
  - vm_compute. reflexivity.
  - vm_compute. reflexivity.
Defined.

Lemma merge_level_shape_witness :
  len (groups (data_leaves (B3 := poly_blake3) wit_chunks)) < 2.
Proof.
  apply (merge_level_shape (B3 := poly_blake3) (data_leaves (B3 := poly_blake3) wit_chunks)).
  - vm_compute. congruence.
  - repeat constructor; vm_compute; congruence.
Defined.
