(* ===== verification/ByteGrouping.v ===== *)
(** * Byte grouping: [xorb/byte_grouping.go] and the transforms of
    [xorb/compression.go]

    ByteGrouping4 stores byte [k] of every 4-byte group in plane [k].  The code
    writes the planes in place, through four sub-slices of the spare capacity
    of the destination, and handles the up to three bytes of a partial group by
    index arithmetic.  Proved: both directions agree with the positional
    definition of the transform, and they are inverse to each other. *)

From Stdlib Require Import ZArith Lia Strings.Byte Strings.String.
From S2P Require Import Prelude Hash.

(** ** Slices with their spare capacity *)

(** A [[]byte] that is appended to: its elements and the contents of the
    backing array after them. *)
Record bslice : Type := BSlice {
  selems : list byte;
  sspare : list byte;
}.

Definition scap (s : bslice) : Z := len (selems s) + len (sspare s).

(** ** The plane loops *)

Fixpoint interleave_loop (dst p0 p1 p2 p3 : list byte) : list byte :=
  match p0, p1, p2, p3, dst with
  | a :: p0, b :: p1, c :: p2, d :: p3, _ :: _ :: _ :: _ :: dst =>
      a :: b :: c :: d :: interleave_loop dst p0 p1 p2 p3
  | _, _, _, _, _ => dst
  end.

(** [interleave4]: the new contents of [dst]. *)
Definition interleave4 (dst p0 p1 p2 p3 : list byte) : result (list byte) :=
  let n := len p0 in
  if n =? 0 then Ok dst
  else if (len p1 <? n) || (len p2 <? n) || (len p3 <? n) || (len dst <? 4 * n)
  then Err (Panic "index out of range")
  else Ok (interleave_loop dst p0 p1 p2 p3).

Fixpoint deinterleave_loop (p0 p1 p2 p3 src : list byte) :
    list byte * list byte * list byte * list byte :=
  match p0, p1, p2, p3, src with
  | _ :: p0, _ :: p1, _ :: p2, _ :: p3, a :: b :: c :: d :: src =>
      let '(q0, q1, q2, q3) := deinterleave_loop p0 p1 p2 p3 src in
      (a :: q0, b :: q1, c :: q2, d :: q3)
  | _, _, _, _, _ => (p0, p1, p2, p3)
  end.

(** [deinterleave4]: the new contents of the four planes. *)
Definition deinterleave4 (p0 p1 p2 p3 src : list byte) :
    result (list byte * list byte * list byte * list byte) :=
  let n := len p0 in
  if n =? 0 then Ok (p0, p1, p2, p3)
  else if (len p1 <? n) || (len p2 <? n) || (len p3 <? n) || (len src <? 4 * n)
  then Err (Panic "index out of range")
  else Ok (deinterleave_loop p0 p1 p2 p3 src).

(** Where plane [k] starts. *)
Definition plane_start (groups tail k : Z) : Z := k * groups + Z.min k tail.

(** [l[plane_start:][:groups]]. *)
Definition plane (groups tail k : Z) (l : list byte) : list byte :=
  slice (plane_start groups tail k) (plane_start groups tail k + groups) l.

(** [l[i] = b]. *)
Definition store (i : Z) (b : byte) (l : list byte) : list byte := <[Z.to_nat i := b]> l.

Definition applyByteGrouping4 (dst : bslice) (data : list byte) : result bslice :=
  if len data =? 0 then Ok dst
  else
    let off := len (selems dst) in
    if scap dst - off <? len data
    then Err (Errorf "output buffer too small: need capacity %d, have %d")
    else
      let result := slice 0 (len data) (sspare dst) in
      let groups := len data / 4 in
      let tail := len data mod 4 in
      let p k := plane groups tail k result in
      '(q0, q1, q2, q3) ← deinterleave4 (p 0) (p 1) (p 2) (p 3) data;
      let result := copy_at (plane_start groups tail 0) q0 result in
      let result := copy_at (plane_start groups tail 1) q1 result in
      let result := copy_at (plane_start groups tail 2) q2 result in
      let result := copy_at (plane_start groups tail 3) q3 result in
      let result := foldl (fun result k =>
        store ((k + 1) * groups + k) (data !!! Z.to_nat (4 * groups + k)) result)
        result (seqZ 0 tail) in
      Ok (BSlice (selems dst ++ result) (slice (len data) (len (sspare dst)) (sspare dst))).

Definition reverseByteGrouping4 (dst : bslice) (data : list byte) : result bslice :=
  if len data =? 0 then Ok dst
  else
    let off := len (selems dst) in
    if scap dst - off <? len data
    then Err (Errorf "output buffer too small: need capacity %d, have %d")
    else
      let result := slice 0 (len data) (sspare dst) in
      let groups := len data / 4 in
      let tail := len data mod 4 in
      let p k := plane groups tail k data in
      result ← interleave4 result (p 0) (p 1) (p 2) (p 3);
      let result := foldl (fun result k =>
        store (4 * groups + k) (data !!! Z.to_nat ((k + 1) * groups + k)) result)
        result (seqZ 0 tail) in
      Ok (BSlice (selems dst ++ result) (slice (len data) (len (sspare dst)) (sspare dst))).

(** ** The positional definition *)

(** The bytes of [data] at the positions [k], [k + 4], [k + 8], ... *)
Fixpoint every4 (k : nat) (data : list byte) : list byte :=
  match data with
  | [] => []
  | b :: data =>
      match k with
      | O => b :: every4 3 data
      | S k => every4 k data
      end
  end.

Definition grouped (data : list byte) : list byte :=
  every4 0 data ++ every4 1 data ++ every4 2 data ++ every4 3 data.

(** ** Decomposition into groups *)

Abbreviation quad := (byte * byte * byte * byte)%type.

Definition flat (qs : list quad) : list byte :=
  concat (map (fun '(a, b, c, d) => [a; b; c; d]) qs).

Definition q0 (q : quad) : byte := let '(a, _, _, _) := q in a.
Definition q1 (q : quad) : byte := let '(_, b, _, _) := q in b.
Definition q2 (q : quad) : byte := let '(_, _, c, _) := q in c.
Definition q3 (q : quad) : byte := let '(_, _, _, d) := q in d.

Lemma length_flat qs : length (flat qs) = (4 * length qs)%nat.
Proof.
  induction qs as [|[[[a b] c] d] qs IH]; [done|].
  change (flat ((a, b, c, d) :: qs)) with (a :: b :: c :: d :: flat qs). cbn [length]. lia.
Qed.

Lemma quads_tail data :
  exists qs t, data = flat qs ++ t /\ (length t < 4)%nat.
Proof.
  remember (length data) as n eqn:Hn. revert data Hn.
  induction (lt_wf n) as [n _ IH]. intros data ->.
  destruct data as [|a [|b [|c [|d data]]]].
  1-4: eexists [], _; split; [reflexivity|cbn; lia].
  destruct (IH (length data)) with (data := data) as (qs & t & -> & Ht); [cbn; lia|done|].
  exists ((a, b, c, d) :: qs), t. done.
Qed.

Lemma every4_flat k qs t :
  (k < 4)%nat ->
  every4 k (flat qs ++ t) =
    map (match k with 0%nat => q0 | 1%nat => q1 | 2%nat => q2 | _ => q3 end) qs ++ every4 k t.
Proof.
  intros Hk. induction qs as [|[[[a b] c] d] qs IH]; [done|].
  destruct k as [|[|[|[|k]]]]; [..|lia]; cbn; f_equal; apply IH.
Qed.

Lemma interleave_loop_flat qs dst rest :
  length dst = (4 * length qs)%nat ->
  interleave_loop (dst ++ rest) (map q0 qs) (map q1 qs) (map q2 qs) (map q3 qs) = flat qs ++ rest.
Proof.
  revert dst. induction qs as [|[[[a b] c] d] qs IH]; intros dst Hd.
  - by destruct dst; [destruct rest|].
  - destruct dst as [|? [|? [|? [|? dst]]]]; cbn in Hd; [lia..|].
    cbn. do 4 f_equal. apply IH. lia.
Qed.

Lemma deinterleave_loop_flat qs p0 p1 p2 p3 t :
  length p0 = length qs -> length p1 = length qs -> length p2 = length qs ->
  length p3 = length qs ->
  deinterleave_loop p0 p1 p2 p3 (flat qs ++ t) = (map q0 qs, map q1 qs, map q2 qs, map q3 qs).
Proof.
  revert p0 p1 p2 p3. induction qs as [|[[[a b] c] d] qs IH]; intros p0 p1 p2 p3 H0 H1 H2 H3;
    destruct p0, p1, p2, p3; cbn in H0, H1, H2, H3; try done.
  change (flat ((a, b, c, d) :: qs) ++ t) with (a :: b :: c :: d :: (flat qs ++ t)).
  cbn [deinterleave_loop]. rewrite IH by lia. done.
Qed.

(** ** The layout of the planes *)

Lemma cut_list {A} (n : nat) (l : list A) :
  (n <= length l)%nat -> exists a b, l = a ++ b /\ length a = n /\ length b = (length l - n)%nat.
Proof.
  intros H. exists (take n l), (drop n l). rewrite take_drop, length_take, length_drop. split; [done|lia].
Qed.

(** An array of [4 g + t] bytes as four planes with the bytes of the partial
    group after the first [t] of them. *)
Lemma plane_layout (g t : nat) (R : list byte) :
  (t < 4)%nat -> length R = (4 * g + t)%nat ->
  exists r0 x0 r1 x1 r2 x2 r3, R = r0 ++ x0 ++ r1 ++ x1 ++ r2 ++ x2 ++ r3 /\
    length r0 = g /\ length r1 = g /\ length r2 = g /\ length r3 = g /\
    length x0 = min 1 t /\ length x1 = (min 2 t - 1)%nat /\ length x2 = (t - 2)%nat.
Proof.
  intros Ht HR.
  destruct (cut_list g R) as (r0 & R0 & -> & H0 & HR0); [lia|].
  rewrite ?length_app in *.
  destruct (cut_list (min 1 t) R0) as (x0 & R1 & -> & Hx0 & HR1); [lia|].
  rewrite ?length_app in *.
  destruct (cut_list g R1) as (r1 & R2 & -> & H1 & HR2); [lia|].
  rewrite ?length_app in *.
  destruct (cut_list (min 2 t - 1) R2) as (x1 & R3 & -> & Hx1 & HR3); [lia|].
  rewrite ?length_app in *.
  destruct (cut_list g R3) as (r2 & R4 & -> & H2 & HR4); [lia|].
  rewrite ?length_app in *.
  destruct (cut_list (t - 2) R4) as (x2 & r3 & -> & Hx2 & H3); [lia|].
  rewrite ?length_app in *.
  exists r0, x0, r1, x1, r2, x2, r3. repeat split; lia.
Qed.

Section layout.
Context (g t : nat) (r0 x0 r1 x1 r2 x2 r3 : list byte).
Hypothesis Ht : (t < 4)%nat.
Hypothesis H0 : length r0 = g.
Hypothesis H1 : length r1 = g.
Hypothesis H2 : length r2 = g.
Hypothesis H3 : length r3 = g.
Hypothesis Hx0 : length x0 = min 1 t.
Hypothesis Hx1 : length x1 = (min 2 t - 1)%nat.
Hypothesis Hx2 : length x2 = (t - 2)%nat.

Definition laid_out : list byte := r0 ++ x0 ++ r1 ++ x1 ++ r2 ++ x2 ++ r3.

Lemma plane_0 : plane (Z.of_nat g) (Z.of_nat t) 0 laid_out = r0.
Proof. apply (slice_mid _ _ [] r0); unfold len, plane_start; cbn; lia. Qed.

Lemma plane_1 : plane (Z.of_nat g) (Z.of_nat t) 1 laid_out = r1.
Proof.
  unfold laid_out. rewrite (app_assoc r0).
  apply slice_mid; unfold len, plane_start; rewrite ?length_app; lia.
Qed.

Lemma plane_2 : plane (Z.of_nat g) (Z.of_nat t) 2 laid_out = r2.
Proof.
  unfold laid_out. rewrite (app_assoc r0), (app_assoc (r0 ++ x0)), (app_assoc ((r0 ++ x0) ++ r1)).
  apply slice_mid; unfold len, plane_start; rewrite ?length_app; lia.
Qed.

Lemma plane_3 : plane (Z.of_nat g) (Z.of_nat t) 3 laid_out = r3.
Proof.
  unfold laid_out.
  replace (r0 ++ _) with ((r0 ++ x0 ++ r1 ++ x1 ++ r2 ++ x2) ++ r3 ++ [])
    by (rewrite app_nil_r, <- !app_assoc; done).
  apply slice_mid; unfold len, plane_start; rewrite ?length_app; lia.
Qed.

(** Writing a plane replaces that part of the layout. *)
Lemma copy_plane_0 s : length s = g ->
  copy_at (plane_start (Z.of_nat g) (Z.of_nat t) 0) s laid_out =
    s ++ x0 ++ r1 ++ x1 ++ r2 ++ x2 ++ r3.
Proof. intros Hs. apply (copy_at_mid [] r0); unfold len, plane_start; cbn; lia. Qed.

Lemma copy_plane_1 s : length s = g ->
  copy_at (plane_start (Z.of_nat g) (Z.of_nat t) 1) s laid_out =
    r0 ++ x0 ++ s ++ x1 ++ r2 ++ x2 ++ r3.
Proof.
  intros Hs. unfold laid_out. rewrite !(app_assoc r0).
  apply copy_at_mid; unfold len, plane_start; rewrite ?length_app; lia.
Qed.

Lemma copy_plane_2 s : length s = g ->
  copy_at (plane_start (Z.of_nat g) (Z.of_nat t) 2) s laid_out =
    r0 ++ x0 ++ r1 ++ x1 ++ s ++ x2 ++ r3.
Proof.
  intros Hs. unfold laid_out.
  rewrite !(app_assoc r0), !(app_assoc (r0 ++ x0)), !(app_assoc ((r0 ++ x0) ++ r1)).
  apply copy_at_mid; unfold len, plane_start; rewrite ?length_app; lia.
Qed.

Lemma copy_plane_3 s : length s = g ->
  copy_at (plane_start (Z.of_nat g) (Z.of_nat t) 3) s laid_out =
    r0 ++ x0 ++ r1 ++ x1 ++ r2 ++ x2 ++ s.
Proof.
  intros Hs. unfold laid_out.
  replace (r0 ++ _) with ((r0 ++ x0 ++ r1 ++ x1 ++ r2 ++ x2) ++ r3 ++ [])
    by (rewrite app_nil_r, <- !app_assoc; done).
  rewrite (copy_at_mid _ _ _ s); [by rewrite app_nil_r, <- !app_assoc|..];
    unfold len, plane_start; rewrite ?length_app; lia.
Qed.
End layout.

Lemma store_mid i b p x r : i = len p -> store i b (p ++ x :: r) = p ++ b :: r.
Proof.
  intros ->. unfold store, len. rewrite Nat2Z.id, insert_app_r_alt, Nat.sub_diag by lia. done.
Qed.

Lemma index_mid i (p : list byte) x r : i = len p -> (p ++ x :: r) !!! Z.to_nat i = x.
Proof.
  intros ->. unfold len. rewrite Nat2Z.id, lookup_total_app_r, Nat.sub_diag by lia. done.
Qed.

(** ** Against the positional definition *)

Lemma groups_tail qs t :
  (length t < 4)%nat ->
  len (flat qs ++ t) / 4 = Z.of_nat (length qs) /\
  len (flat qs ++ t) mod 4 = Z.of_nat (length t).
Proof.
  intros Ht. unfold len. rewrite length_app, length_flat.
  replace (Z.of_nat _) with (Z.of_nat (length t) + Z.of_nat (length qs) * 4) by lia.
  rewrite Z.div_add, Z.mod_add, Z.div_small, Z.mod_small by lia. lia.
Qed.

Lemma deinterleave4_flat qs p0 p1 p2 p3 t :
  length p0 = length qs -> length p1 = length qs -> length p2 = length qs ->
  length p3 = length qs ->
  deinterleave4 p0 p1 p2 p3 (flat qs ++ t) =
    Ok (map q0 qs, map q1 qs, map q2 qs, map q3 qs).
Proof.
  intros H0 H1 H2 H3. unfold deinterleave4. rewrite <- (deinterleave_loop_flat _ p0 p1 p2 p3 t) by done.
  destruct (Z.eqb_spec (len p0) 0) as [E|E].
  - apply len_0_nil in E as ->. destruct qs; [|done]. by destruct p1, p2, p3.
  - rewrite !(proj2 (Z.ltb_ge _ _)); [done|unfold len; rewrite ?length_app, ?length_flat; lia..].
Qed.

Lemma interleave4_flat qs dst rest :
  length dst = (4 * length qs)%nat ->
  interleave4 (dst ++ rest) (map q0 qs) (map q1 qs) (map q2 qs) (map q3 qs) = Ok (flat qs ++ rest).
Proof.
  intros Hd. unfold interleave4. rewrite <- (interleave_loop_flat _ dst) by done. rewrite !len_map.
  destruct (Z.eqb_spec (len qs) 0) as [->%len_0_nil|E].
  - by destruct dst; [destruct rest|].
  - rewrite !(proj2 (Z.ltb_ge _ _)); [done|unfold len in *; rewrite ?length_app; lia..].
Qed.

(** Indexing the partial group. *)
Lemma tail_index qs (t : list byte) k :
  0 <= k < len t ->
  (flat qs ++ t) !!! Z.to_nat (4 * Z.of_nat (length qs) + k) = t !!! Z.to_nat k.
Proof.
  unfold len. intros Hk.
  replace (Z.to_nat _) with (length (flat qs) + Z.to_nat k)%nat by (rewrite length_flat; lia).
  rewrite lookup_total_app_r by lia. f_equal. lia.
Qed.

Ltac one_elem x H :=
  let y := fresh "y" in destruct x as [|y [|? ?]]; cbn in H; [lia| |lia].

(** The stores of the partial group's bytes, between the planes. *)
Lemma tail_stores g qs (t : list byte) p0 p1 p2 p3 x0 x1 x2 :
  (length t < 4)%nat -> g = length qs ->
  length p0 = g -> length p1 = g -> length p2 = g ->
  length x0 = min 1 (length t) -> length x1 = (min 2 (length t) - 1)%nat ->
  length x2 = (length t - 2)%nat ->
  foldl (fun r k => store ((k + 1) * Z.of_nat g + k)
           ((flat qs ++ t) !!! Z.to_nat (4 * Z.of_nat g + k)) r)
    (p0 ++ x0 ++ p1 ++ x1 ++ p2 ++ x2 ++ p3) (seqZ 0 (Z.of_nat (length t))) =
  (p0 ++ every4 0 t) ++ (p1 ++ every4 1 t) ++ (p2 ++ every4 2 t) ++ p3 ++ every4 3 t.
Proof.
  intros Ht -> H0 H1 H2 Hx0 Hx1 Hx2.
  pose proof (tail_index qs t) as Hi. unfold len in Hi.
  destruct t as [|a [|b [|c [|d t]]]]; [..|cbn in Ht; lia]; cbn in Hx0, Hx1, Hx2.
  - destruct x0, x1, x2; try done. cbn. by rewrite !app_nil_r.
  - one_elem x0 Hx0. destruct x1, x2; try done.
    change (seqZ 0 (Z.of_nat (length [a]))) with [0]. cbn [foldl]. rewrite Hi by (cbn; lia).
    cbn [app]. rewrite store_mid by (unfold len; lia).
    cbn. by rewrite !app_nil_r, <- !app_assoc.
  - one_elem x0 Hx0. one_elem x1 Hx1. destruct x2; try done.
    change (seqZ 0 (Z.of_nat (length [a; b]))) with [0; 1]. cbn [foldl].
    rewrite !Hi by (cbn; lia). cbn [app].
    rewrite store_mid by (unfold len; lia).
    replace (p0 ++ _ :: p1 ++ y0 :: _) with ((p0 ++ a :: p1) ++ y0 :: p2 ++ p3)
      by (by rewrite <- app_assoc).
    rewrite store_mid by (unfold len; rewrite length_app; cbn; lia).
    cbn. by rewrite !app_nil_r, <- !app_assoc.
  - one_elem x0 Hx0. one_elem x1 Hx1. one_elem x2 Hx2.
    change (seqZ 0 (Z.of_nat (length [a; b; c]))) with [0; 1; 2]. cbn [foldl].
    rewrite !Hi by (cbn; lia). cbn [app].
    rewrite store_mid by (unfold len; lia).
    replace (p0 ++ _ :: p1 ++ y0 :: _) with ((p0 ++ a :: p1) ++ y0 :: p2 ++ y1 :: p3)
      by (by rewrite <- app_assoc).
    rewrite store_mid by (unfold len; rewrite length_app; cbn; lia).
    replace (_ ++ _ :: p2 ++ _) with (((p0 ++ a :: p1) ++ b :: p2) ++ y1 :: p3)
      by (by rewrite <- !app_assoc).
    rewrite store_mid by (unfold len; rewrite !length_app; cbn; rewrite ?length_app; cbn; lia).
    cbn. rewrite app_nil_r, <- !app_assoc. done.
Qed.

Lemma apply_spec dst data :
  len data <= len (sspare dst) ->
  applyByteGrouping4 dst data =
    Ok (BSlice (selems dst ++ grouped data) (slice (len data) (len (sspare dst)) (sspare dst))).
Proof.
  intros Hcap. unfold applyByteGrouping4.
  destruct (Z.eqb_spec (len data) 0) as [->%len_0_nil|Hn].
  { destruct dst as [e s]. cbn. rewrite app_nil_r, slice_all. done. }
  rewrite (proj2 (Z.ltb_ge _ _)) by (unfold scap; lia).
  destruct (quads_tail data) as (qs & t & -> & Ht).
  destruct (groups_tail qs t Ht) as [-> ->].
  assert (length (slice 0 (len (flat qs ++ t)) (sspare dst)) = (4 * length qs + length t)%nat) as HR.
  { pose proof (len_nonneg (flat qs ++ t)). rewrite length_slice by lia.
    unfold len. rewrite length_app, length_flat. lia. }
  apply plane_layout in HR as (r0 & x0 & r1 & x1 & r2 & x2 & r3 & HR & H0 & H1 & H2 & H3 & Hx0 & Hx1 & Hx2); [|done].
  rewrite HR. fold (laid_out r0 x0 r1 x1 r2 x2 r3).
  rewrite plane_0, plane_1, plane_2, plane_3, deinterleave4_flat by done. cbn [mbind result_bind].
  assert (forall f : quad -> byte, length (map f qs) = length qs) as Hm by (intros; apply length_map).
  rewrite copy_plane_0 by done. fold (laid_out (map q0 qs) x0 r1 x1 r2 x2 r3).
  rewrite copy_plane_1 by done. fold (laid_out (map q0 qs) x0 (map q1 qs) x1 r2 x2 r3).
  rewrite copy_plane_2 by done. fold (laid_out (map q0 qs) x0 (map q1 qs) x1 (map q2 qs) x2 r3).
  rewrite copy_plane_3 by done. do 3 f_equal. unfold grouped. rewrite !every4_flat by lia.
  by apply tail_stores.
Qed.

Lemma grouped_len data : len (grouped data) = len data.
Proof.
  destruct (quads_tail data) as (qs & t & -> & Ht). unfold grouped, len.
  rewrite !every4_flat by lia. rewrite !length_app, !length_map, length_flat.
  destruct t as [|a [|b [|c [|d t]]]]; cbn in *; lia.
Qed.

(** The grouped form read back through the same layout. *)
Lemma grouped_layout qs t :
  (length t < 4)%nat ->
  grouped (flat qs ++ t) =
    laid_out (map q0 qs) (every4 0 t) (map q1 qs) (every4 1 t) (map q2 qs) (every4 2 t) (map q3 qs).
Proof.
  intros Ht. unfold grouped, laid_out. rewrite !every4_flat by lia. rewrite <- !app_assoc.
  assert (every4 3 t = []) as ->; [|by rewrite app_nil_r].
  destruct t as [|a [|b [|c [|d t]]]]; cbn in *; [done..|lia].
Qed.

Lemma app_cons_assoc {A} (p : list A) x q y r : p ++ x :: q ++ y :: r = (p ++ x :: q) ++ y :: r.
Proof. by rewrite <- app_assoc. Qed.

Lemma app_cons_snoc {A} (p : list A) x y r : p ++ x :: y :: r = (p ++ [x]) ++ y :: r.
Proof. by rewrite <- app_assoc. Qed.

Lemma tail_loads g qs (t : list byte) (y : list byte) :
  (length t < 4)%nat -> g = length qs -> length y = length t ->
  foldl (fun r k => store (4 * Z.of_nat g + k)
           (grouped (flat qs ++ t) !!! Z.to_nat ((k + 1) * Z.of_nat g + k)) r)
    (flat qs ++ y) (seqZ 0 (Z.of_nat (length t))) = flat qs ++ t.
Proof.
  intros Ht -> Hy. rewrite grouped_layout by done. unfold laid_out.
  assert (forall f : quad -> byte, len (map f qs) = len qs) as Hm by (intros; apply len_map).
  assert (len (flat qs) = 4 * len qs) as Hf by (unfold len; rewrite length_flat; lia).
  change (Z.of_nat (length qs)) with (len qs).
  destruct t as [|a [|b [|c [|d t]]]]; [..|cbn in Ht; lia].
  - by destruct y.
  - one_elem y Hy. change (seqZ 0 (Z.of_nat (length [a]))) with [0]. cbn [foldl every4 app].
    rewrite (index_mid ((0 + 1) * len qs + 0)) by (rewrite Hm; lia). by rewrite (store_mid (4 * len qs + 0)) by lia.
  - destruct y as [|y0 [|y1 [|]]]; try done.
    change (seqZ 0 (Z.of_nat (length [a; b]))) with [0; 1]. cbn [foldl every4 app].
    rewrite (index_mid ((0 + 1) * len qs + 0)) by (rewrite Hm; lia).
    rewrite (store_mid (4 * len qs + 0)) by lia.
    rewrite app_cons_assoc, (index_mid ((1 + 1) * len qs + 1)) by (rewrite len_app, len_cons, !Hm; lia).
    rewrite (app_cons_snoc _ _ y1), store_mid by (unfold len; rewrite length_app, length_flat; cbn [length]; lia).
    by rewrite <- app_assoc.
  - destruct y as [|y0 [|y1 [|y2 [|]]]]; try done.
    change (seqZ 0 (Z.of_nat (length [a; b; c]))) with [0; 1; 2]. cbn [foldl every4 app].
    rewrite (index_mid ((0 + 1) * len qs + 0)) by (rewrite Hm; lia).
    rewrite (store_mid (4 * len qs + 0)) by lia.
    rewrite (app_cons_assoc _ a _ b), (index_mid ((1 + 1) * len qs + 1))
      by (rewrite len_app, len_cons, !Hm; lia).
    rewrite (app_cons_snoc _ _ y1), (store_mid (4 * len qs + 1)) by (unfold len; rewrite length_app, length_flat; cbn [length]; lia).
    rewrite (app_cons_assoc _ b _ c), (index_mid ((2 + 1) * len qs + 2))
      by (rewrite !len_app, !len_cons, !Hm; lia).
    rewrite (app_cons_snoc _ b y2), store_mid by (unfold len; rewrite !length_app, length_flat; cbn [length]; lia).
    by rewrite <- !app_assoc.
Qed.

Lemma reverse_spec dst data :
  len data <= len (sspare dst) ->
  reverseByteGrouping4 dst (grouped data) =
    Ok (BSlice (selems dst ++ data) (slice (len data) (len (sspare dst)) (sspare dst))).
Proof.
  intros Hcap. unfold reverseByteGrouping4. rewrite grouped_len.
  destruct (Z.eqb_spec (len data) 0) as [->%len_0_nil|Hn].
  { destruct dst as [e s]. cbn. rewrite app_nil_r, slice_all. done. }
  rewrite (proj2 (Z.ltb_ge _ _)) by (unfold scap; lia).
  destruct (quads_tail data) as (qs & t & -> & Ht).
  destruct (groups_tail qs t Ht) as [-> ->].
  assert (length (slice 0 (len (flat qs ++ t)) (sspare dst)) = (4 * length qs + length t)%nat) as HR.
  { pose proof (len_nonneg (flat qs ++ t)). rewrite length_slice by lia.
    unfold len. rewrite length_app, length_flat. lia. }
  destruct (cut_list (4 * length qs) _ ltac:(rewrite HR; apply Nat.le_add_r)) as (R & y & HRy & HRl & Hy).
  rewrite HR in Hy. rewrite HRy. rewrite (grouped_layout _ _ Ht) at 1 2 3 4.
  assert (forall f : quad -> byte, length (map f qs) = length qs) as Hm by (intros; apply length_map).
  assert (length (every4 0 t) = min 1 (length t) /\ length (every4 1 t) = (min 2 (length t) - 1)%nat /\
    length (every4 2 t) = (length t - 2)%nat) as (Hx0 & Hx1 & Hx2)
    by (destruct t as [|a [|b [|c [|d t]]]]; cbn in *; [done..|lia]).
  rewrite plane_0, plane_1, plane_2, plane_3, interleave4_flat by (done || lia).
  cbn [mbind result_bind]. do 3 f_equal. apply tail_loads; [done..|lia].
Qed.

Fixpoint zip4 (a b c d : list byte) : list quad :=
  match a, b, c, d with
  | w :: a, x :: b, y :: c, z :: d => (w, x, y, z) :: zip4 a b c d
  | _, _, _, _ => []
  end.

Lemma zip4_spec a b c d :
  length b = length a -> length c = length a -> length d = length a ->
  map q0 (zip4 a b c d) = a /\ map q1 (zip4 a b c d) = b /\
  map q2 (zip4 a b c d) = c /\ map q3 (zip4 a b c d) = d.
Proof.
  revert b c d. induction a as [|w a IH]; intros [|x b] [|y c] [|z d] H1 H2 H3; try done.
  cbn in *. destruct (IH b c d) as (-> & -> & -> & ->); auto.
Qed.

(** Every byte string is the grouped form of some data. *)
Lemma grouped_surj data : exists d, grouped d = data.
Proof.
  assert (length data = 4 * (length data / 4) + length data mod 4)%nat as Hl by (apply Nat.div_mod; lia).
  pose proof (Nat.mod_upper_bound (length data) 4 ltac:(lia)) as Ht.
  apply plane_layout in Hl as (r0 & x0 & r1 & x1 & r2 & x2 & r3 & HR & H0 & H1 & H2 & H3 & Hx0 & Hx1 & Hx2); [|done].
  exists (flat (zip4 r0 r1 r2 r3) ++ x0 ++ x1 ++ x2). rewrite HR.
  assert (length (x0 ++ x1 ++ x2) < 4)%nat as Ht' by (rewrite !length_app; lia).
  rewrite grouped_layout by done.
  destruct (zip4_spec r0 r1 r2 r3) as (-> & -> & -> & ->); [congruence..|].
  remember (length data mod 4)%nat as t. clear Heqt HR. unfold laid_out.
  destruct t as [|[|[|[|t]]]]; [..|lia]; cbn in Hx0, Hx1, Hx2;
    repeat match goal with H : length ?x = _ |- _ => is_var x;
      destruct x as [|? [|? ?]]; cbn in H; try lia; clear H end; done.
Qed.

Lemma reverse_len dst data out :
  reverseByteGrouping4 dst data = Ok out -> len (selems out) = len (selems dst) + len data.
Proof.
  destruct (grouped_surj data) as [d <-]. intros H.
  destruct (decide (len d <= len (sspare dst))) as [Hd|Hd].
  - rewrite reverse_spec in H by done. injection H as <-. cbn. by rewrite len_app, grouped_len.
  - unfold reverseByteGrouping4 in H. rewrite grouped_len in H.
    pose proof (len_nonneg (sspare dst)).
    destruct (Z.eqb_spec (len d) 0); [lia|].
    rewrite (proj2 (Z.ltb_lt _ _)) in H by (unfold scap; lia). done.
Qed.

Lemma byte_grouping_too_small dst data :
  len (sspare dst) < len data ->
  applyByteGrouping4 dst data = Err (Errorf "output buffer too small: need capacity %d, have %d") /\
  reverseByteGrouping4 dst data = Err (Errorf "output buffer too small: need capacity %d, have %d").
Proof.
  intros H. pose proof (len_nonneg (sspare dst)).
  unfold applyByteGrouping4, reverseByteGrouping4, scap.
  destruct (Z.eqb_spec (len data) 0); [lia|].
  rewrite (proj2 (Z.ltb_lt _ _)) by lia. done.
Qed.

(** Byte grouping.  With room in the destination, [applyByteGrouping4]
    appends the bytes of [data] ordered by position within their 4-byte group
    (the partial last group included), [reverseByteGrouping4] of that appends
    [data] again, and neither touches what the destination held; without room
    both fail and write nothing. *)
Theorem byte_grouping_roundtrip dst dst' data :
  (len data <= len (sspare dst) ->
     exists spare, applyByteGrouping4 dst data = Ok (BSlice (selems dst ++ grouped data) spare)) /\
  (len data <= len (sspare dst') ->
     exists spare, reverseByteGrouping4 dst' (grouped data) = Ok (BSlice (selems dst' ++ data) spare)) /\
  (len (sspare dst) < len data ->
     applyByteGrouping4 dst data = Err (Errorf "output buffer too small: need capacity %d, have %d") /\
     reverseByteGrouping4 dst data = Err (Errorf "output buffer too small: need capacity %d, have %d")).
Proof.
  split; [|split]; intros H.
  - eexists. by apply apply_spec.
  - eexists. by apply reverse_spec.
  - by apply byte_grouping_too_small.
Qed.

Lemma byte_grouping_roundtrip_witness :
  exists spare, reverseByteGrouping4 (BSlice [] (replicate 6 Byte.x00)) (grouped (str "abcdef")) =
    Ok (BSlice (str "abcdef") spare).
Proof.
  apply (byte_grouping_roundtrip (BSlice [] []) (BSlice [] (replicate 6 Byte.x00)) (str "abcdef")).
  vm_compute. discriminate.
Defined.
