(* ===== verification/Compression.v ===== *)
(** * Chunk compression: [xorb/compression.go] and [xorb/chunk.go]

    The three compression schemes of a xorb chunk, the choice between them, the
    8-byte chunk header and [DecodeChunk].  The LZ4 frame codec is third-party
    code: the class [Lz4] holds the bytes its writer emits and the stream its
    reader delivers, and [Lz4Laws] the one law the code relies on, that reading
    a written frame gives the data back.  Pooled scratch buffers hold whatever
    their last user left in them: the class [ChunkBufs]. *)

From Stdlib Require Import ZArith Lia Strings.Byte Strings.String.
From S2P Require Import Prelude Hash Gearhash ByteGrouping.

(** ** Parameters *)

Class Lz4 : Type := {
  (** what [Write(data)] and the following [Close()] emit, for a block size *)
  lz4_Write : Z -> list byte -> result (list byte);
  lz4_Close : Z -> list byte -> result (list byte);
  (** what the frame reader delivers for a source, and the error after it *)
  lz4_Read : list byte -> list byte * error;
}.

(** A frame that was written reads back, and ends with [EOF]. *)
Class Lz4Laws (L : Lz4) : Prop := {
  lz4_roundtrip : forall blk data w c,
    lz4_Write blk data = Ok w -> lz4_Close blk data = Ok c -> lz4_Read (w ++ c) = (data, EOF);
}.

Definition maxChunkSize : Z := 131072 + 8.

(** [GetChunkBuf]: a buffer of [maxChunkSize] bytes of unknown content; each
    call site has its own. *)
Class ChunkBufs : Type := {
  GetChunkBuf : nat -> list byte;
  GetChunkBuf_len : forall site, len (GetChunkBuf site) = maxChunkSize;
}.

(** ** Compression types and chunk headers *)

Definition ChunkHeaderSize : Z := 8.

(** [CompressionType] is a uint8. *)
Definition CompressionNone : Z := 0.
Definition CompressionLZ4 : Z := 1.
Definition CompressionByteGrouping4 : Z := 2.

Record ChunkHeader : Type := MkChunkHeader {
  CompressedSize : Z;
  UncompressedSize : Z;
  Compression : Z;
}.

#[global] Instance ChunkHeader_eq_decision : EqDecision ChunkHeader.
Proof. solve_decision. Defined.

(** The byte at index [i] of a slice the source has checked. *)
Definition byte_at (b : list byte) (i : nat) : Z := b2z (b !!! i).

(** [uint32(b[i]) | uint32(b[i+1])<<8 | uint32(b[i+2])<<16]. *)
Definition le24 (b : list byte) (i : nat) : Z :=
  Z.lor (Z.lor (byte_at b i) (Z.shiftl (byte_at b (i + 1)) 8)) (Z.shiftl (byte_at b (i + 2)) 16).

Definition ParseChunkHeader (b : list byte) : result ChunkHeader :=
  if len b <? ChunkHeaderSize
  then Err (Errorf "chunk header too short: need %d bytes, have %d")
  else if negb (byte_at b 0 =? 0) then Err (Errorf "unsupported chunk version: %d")
  else
    let h := MkChunkHeader (le24 b 1) (le24 b 5) (byte_at b 4) in
    if MaxChunkSize <? UncompressedSize h
    then Err (Errorf "invalid uncompressed chunk size: %d exceeds maximum %d")
    else Ok h.

(** The header [Encoder.Write] stores in [tmp[0:8]]. *)
Definition header_bytes (compressedSize compressionType uncompressedSize : Z) : list byte :=
  [Byte.x00;
   z2b compressedSize; z2b (Z.shiftr compressedSize 8); z2b (Z.shiftr compressedSize 16);
   z2b compressionType;
   z2b uncompressedSize; z2b (Z.shiftr uncompressedSize 8); z2b (Z.shiftr uncompressedSize 16)].

Section compression.
Context {L : Lz4} {P : ChunkBufs}.

Definition lz4_block (data : list byte) : Z :=
  if 256 * 1024 <? len data then 4 * 1024 * 1024
  else if 64 * 1024 <? len data then 256 * 1024
  else 64 * 1024.

(** The result is [dst] with the frame appended, or the error. *)
Definition compressLZ4 (dst data : list byte) : result (list byte) :=
  let blk := lz4_block data in
  w ← wrap_err "failed to write to LZ4 writer: %w" (lz4_Write blk data);
  c ← wrap_err "failed to close LZ4 writer: %w" (lz4_Close blk data);
  Ok (dst ++ w ++ c).

(** The elements of the result; on an error the caller gets [dst[:off]] back.
    [dstcap] is [cap(dst)]. *)
Definition decompressLZ4 (dst : list byte) (dstcap : Z) (data : list byte) (uncompressedSize : Z) :
    result (list byte) :=
  let off := len dst in
  if dstcap - off <? uncompressedSize + 1
  then Err (Errorf "output buffer too small: need capacity %d, have %d")
  else
    let '(stream, e) := lz4_Read data in
    let '(got, err, _) := ReadFull (uncompressedSize + 1) (Reader stream e) in
    let n := len got in
    match err with
    | Some e =>
        if bool_decide (e <> EOF) && bool_decide (e <> UnexpectedEOF)
        then Err (Wrapf "failed to decompress LZ4: %w" e)
        else if negb (n =? uncompressedSize)
        then Err (Errorf "decompressed size mismatch: got %d, expected %d")
        else Ok (dst ++ got)
    | None =>
        if negb (n =? uncompressedSize)
        then Err (Errorf "decompressed size mismatch: got %d, expected %d")
        else Ok (dst ++ got)
    end.

Definition compressByteGrouping4LZ4 (dst data : list byte) : result (list byte) :=
  let tmp := GetChunkBuf 0 in
  transformed ← applyByteGrouping4 (BSlice [] tmp) data;
  compressLZ4 dst (selems transformed).

Definition decompressByteGrouping4LZ4 (dst : bslice) (data : list byte) (uncompressedSize : Z) :
    result bslice :=
  decompressed ← decompressLZ4 [] maxChunkSize data uncompressedSize;
  reverseByteGrouping4 dst decompressed.

(** [selectBestCompression]: the bytes it appends to [dst] and their type; the
    error is always nil. *)
Definition selectBestCompression (data : list byte) : list byte * Z :=
  let noneSize := len data in
  let best := (CompressionNone, noneSize) in
  let lz4Data := compressLZ4 [] data in
  let best :=
    match lz4Data with
    | Ok d => if len d <? best.2 then (CompressionLZ4, len d) else best
    | Err _ => best
    end in
  let bg4Data := compressByteGrouping4LZ4 [] data in
  let bestType :=
    match bg4Data with
    | Ok d => if len d <? best.2 then CompressionByteGrouping4 else best.1
    | Err _ => best.1
    end in
  let bytes_of (r : result (list byte)) := match r with Ok d => d | Err _ => [] end in
  (if bestType =? CompressionNone then data
   else if bestType =? CompressionLZ4 then bytes_of lz4Data
   else bytes_of bg4Data, bestType).

(** [DecodeChunk(dst, h, body)] for a [dst] with elements [delems] and the
    contents [dspare] of its backing array after them. *)
Definition DecodeChunk (dst : bslice) (h : ChunkHeader) (body : list byte) : result (list byte) :=
  if negb (len body =? CompressedSize h)
  then Err (Errorf "chunk body size mismatch: header declares %d bytes, have %d")
  else if negb (Compression h =? CompressionNone) && (len (selems dst) <? UncompressedSize h)
  then Err (Errorf "output buffer too small: need %d bytes, have %d")
  else if MaxChunkSize <? UncompressedSize h
  then Err (Errorf "invalid uncompressed chunk size: %d exceeds maximum %d")
  else
    let size := UncompressedSize h in
    if Compression h =? CompressionNone then
      if negb (len body =? size)
      then Err (Errorf "decompressed size mismatch: got %d, expected %d")
      else Ok body
    else if Compression h =? CompressionLZ4 then decompressLZ4 [] (scap dst) body size
    else if Compression h =? CompressionByteGrouping4 then
      selems <$> decompressByteGrouping4LZ4 (BSlice [] (selems dst ++ sspare dst)) body size
    else Err (Errorf "unsupported compression type: %d").
End compression.

(** ** The chunk header *)

Lemma le24_val b i :
  le24 b i = byte_at b i + 2 ^ 8 * byte_at b (i + 1) + 2 ^ 16 * byte_at b (i + 2).
Proof.
  unfold le24, byte_at.
  pose proof (b2z_range (b !!! i)). pose proof (b2z_range (b !!! (i + 1)%nat)).
  pose proof (b2z_range (b !!! (i + 2)%nat)).
  rewrite (lor_shiftl (b2z _)) by lia. rewrite lor_shiftl by lia. lia.
Qed.

Lemma le24_range b i : 0 <= le24 b i < 2 ^ 24.
Proof.
  rewrite le24_val. unfold byte_at. pose proof (b2z_range (b !!! i)).
  pose proof (b2z_range (b !!! (i + 1)%nat)). pose proof (b2z_range (b !!! (i + 2)%nat)). lia.
Qed.

Lemma z2b_le24 z :
  0 <= z < 2 ^ 24 ->
  b2z (z2b z) + 2 ^ 8 * b2z (z2b (Z.shiftr z 8)) + 2 ^ 16 * b2z (z2b (Z.shiftr z 16)) = z.
Proof.
  intros Hz. rewrite !b2z_z2b, !Z.shiftr_div_pow2 by lia.
  change (2 ^ 8) with 256. change (2 ^ 16) with (256 * 256).
  rewrite <- Z.div_div by lia. rewrite (Z.mod_small (z / 256 / 256)).
  - pose proof (Z.div_mod z 256). pose proof (Z.div_mod (z / 256) 256). lia.
  - split; [apply Z.div_pos; [apply Z.div_pos|]; lia|].
    apply Z.div_lt_upper_bound; [lia|]. apply Z.div_lt_upper_bound; lia.
Qed.

Lemma len_header_bytes c ty u : len (header_bytes c ty u) = 8.
Proof. done. Qed.

(** What the encoder stores is what the parser reads. *)
Lemma parse_header_bytes c ty u rest :
  0 <= c < 2 ^ 24 -> 0 <= ty < 256 -> 0 <= u <= MaxChunkSize ->
  ParseChunkHeader (header_bytes c ty u ++ rest) = Ok (MkChunkHeader c u ty).
Proof.
  intros Hc Hty Hu. unfold ParseChunkHeader.
  rewrite len_app, (proj2 (Z.ltb_ge _ _)) by (pose proof (len_nonneg rest); unfold len, ChunkHeaderSize in *; cbn; lia).
  rewrite !le24_val. unfold byte_at. cbn [header_bytes app Nat.add lookup_total list_lookup_total].
  rewrite (z2b_le24 c), (z2b_le24 u) by (unfold MaxChunkSize in *; lia).
  cbn [negb]. rewrite b2z_z2b, Z.mod_small by lia. cbn.
  rewrite (proj2 (Z.ltb_ge _ _)) by lia. done.
Qed.

Lemma ParseChunkHeader_Ok b h :
  ParseChunkHeader b = Ok h ->
  0 <= CompressedSize h < 2 ^ 24 /\ 0 <= UncompressedSize h <= MaxChunkSize /\
  0 <= Compression h < 256 /\ ChunkHeaderSize <= len b.
Proof.
  unfold ParseChunkHeader. pose proof (le24_range b 1). pose proof (le24_range b 5).
  pose proof (b2z_range (b !!! 4%nat)).
  destruct (Z.ltb_spec (len b) ChunkHeaderSize); [done|]. destruct (negb _); [done|].
  cbn [UncompressedSize]. destruct (Z.ltb_spec MaxChunkSize (le24 b 5)); [done|].
  intros [= <-]. cbn. unfold byte_at. lia.
Qed.

(** ** Compression round trips *)

Section roundtrip.
Context {L : Lz4} {LL : Lz4Laws L} {P : ChunkBufs}.

Lemma compressLZ4_Ok dst data out :
  compressLZ4 dst data = Ok out -> exists frame, out = dst ++ frame /\ lz4_Read frame = (data, EOF).
Proof.
  unfold compressLZ4. intros H. inv_bind. exists (a ++ a0). split; [done|].
  by eapply lz4_roundtrip.
Qed.

Lemma decompressLZ4_Ok dst dstcap data frame :
  lz4_Read frame = (data, EOF) -> len dst + len data < dstcap ->
  decompressLZ4 dst dstcap frame (len data) = Ok (dst ++ data).
Proof.
  intros Hr Hc. unfold decompressLZ4. rewrite Hr.
  rewrite (proj2 (Z.ltb_ge _ _)) by lia.
  unfold ReadFull. cbn [rdata rend].
  assert (take (Z.to_nat (len data + 1)) data = data) as -> by (apply take_ge; unfold len; lia).
  destruct (Z.eqb_spec (len data) (len data + 1)); [lia|].
  destruct (bool_decide (data = [])); [|rewrite bool_decide_eq_true_2 by done]; by rewrite Z.eqb_refl.
Qed.

(** Every decompression that succeeds gives exactly the declared size. *)
Lemma decompressLZ4_len dst dstcap data n out :
  0 <= n -> decompressLZ4 dst dstcap data n = Ok out -> len out = len dst + n.
Proof.
  unfold decompressLZ4. intros Hn. destruct (_ <? _); [done|].
  destruct (lz4_Read data) as [stream e]. destruct (ReadFull _ _) as [[got err] r].
  assert (forall e' : error, (if negb (len got =? n) then Err e' else Ok (dst ++ got)) = Ok out ->
    len out = len dst + n) as Hlen.
  { intros e'. destruct (Z.eqb_spec (len got) n) as [<-|]; [|done]. intros [= <-]. apply len_app. }
  destruct err as [e'|]; [|by eauto]. destruct (_ && _); [done|]. eauto.
Qed.

(** What [DecodeChunk] returns has the declared size. *)
Lemma DecodeChunk_len dst h body out :
  0 <= UncompressedSize h -> DecodeChunk dst h body = Ok out ->
  len out = UncompressedSize h /\ len body = CompressedSize h.
Proof.
  intros Hu. unfold DecodeChunk.
  destruct (Z.eqb_spec (len body) (CompressedSize h)) as [Hb|]; [|done]. cbn [negb].
  destruct (_ && _); [done|]. destruct (MaxChunkSize <? _); [done|].
  destruct (Compression h =? CompressionNone).
  { destruct (Z.eqb_spec (len body) (UncompressedSize h)); [|done]. by intros [= <-]. }
  destruct (Compression h =? CompressionLZ4).
  { intros H%decompressLZ4_len; [|done]. by rewrite len_nil in H. }
  destruct (Compression h =? CompressionByteGrouping4); [|done].
  unfold decompressByteGrouping4LZ4. destruct (decompressLZ4 _ _ _ _) as [d|] eqn:E; [|done].
  cbn [mbind result_bind]. destruct (reverseByteGrouping4 _ d) as [o|] eqn:Eo; [|done].
  intros [= <-]. apply reverse_len in Eo. apply decompressLZ4_len in E; [|done].
  cbn [selems] in Eo. rewrite len_nil in E, Eo. split; [lia|done].
Qed.

Lemma compressBG4_Ok dst data out :
  len data <= MaxChunkSize -> compressByteGrouping4LZ4 dst data = Ok out ->
  exists frame, out = dst ++ frame /\ lz4_Read frame = (grouped data, EOF).
Proof.
  intros Hd. unfold compressByteGrouping4LZ4. rewrite apply_spec.
  - cbn [mbind result_bind selems app]. apply compressLZ4_Ok.
  - cbn [sspare]. rewrite GetChunkBuf_len. unfold maxChunkSize, MaxChunkSize in *. lia.
Qed.

Lemma selectBestCompression_spec data c ty :
  len data <= MaxChunkSize -> selectBestCompression data = (c, ty) ->
  len c <= len data /\
  (ty = CompressionNone /\ c = data \/
   ty = CompressionLZ4 /\ lz4_Read c = (data, EOF) \/
   ty = CompressionByteGrouping4 /\ lz4_Read c = (grouped data, EOF)).
Proof.
  intros Hd. unfold selectBestCompression.
  destruct (compressLZ4 [] data) as [l|] eqn:El.
  1: apply compressLZ4_Ok in El as (fl & -> & Hl); cbn [app].
  all: destruct (compressByteGrouping4LZ4 [] data) as [g|] eqn:Eg.
  1, 3: apply compressBG4_Ok in Eg as (fg & -> & Hg); [|done]; cbn [app].
  all: repeat (cbn [fst snd]; match goal with |- context [len ?f <? len ?m] => destruct (Z.ltb_spec (len f) (len m)) end).
  all: cbn; intros [= <- <-]; split; [lia|auto].
Qed.

(** [DecodeChunk] undoes the encoder's choice of compression. *)
Lemma DecodeChunk_select dst data c ty :
  len data <= MaxChunkSize -> len data <= len (selems dst) -> len data < scap dst ->
  selectBestCompression data = (c, ty) ->
  DecodeChunk dst (MkChunkHeader (len c) (len data) ty) c = Ok data.
Proof.
  intros Hd Hdst Hcap Hs. pose proof (selectBestCompression_spec _ _ _ Hd Hs) as [Hle Hty].
  unfold DecodeChunk. cbn [CompressedSize UncompressedSize Compression].
  rewrite Z.eqb_refl. cbn [negb]. rewrite (proj2 (Z.ltb_ge _ (len data)) Hdst), andb_false_r.
  rewrite (proj2 (Z.ltb_ge MaxChunkSize _)) by lia.
  destruct Hty as [[-> ->]|[[-> Hr]|[-> Hr]]]; cbn [CompressionNone CompressionLZ4 CompressionByteGrouping4 Z.eqb Pos.eqb].
  - by rewrite Z.eqb_refl.
  - apply (decompressLZ4_Ok []); [done|]. rewrite len_nil. lia.
  - unfold decompressByteGrouping4LZ4. rewrite <- (grouped_len data).
    rewrite (decompressLZ4_Ok [] maxChunkSize (grouped data) c Hr)
      by (rewrite len_nil, grouped_len; unfold maxChunkSize, MaxChunkSize in *; lia).
    cbn [mbind result_bind app]. rewrite reverse_spec; [done|]. cbn [sspare].
    rewrite len_app. pose proof (len_nonneg (sspare dst)). lia.
Qed.
End roundtrip.

(** ** Instances of the parameters *)

(** A run-length codec with the frame law. *)
Definition rle_enc (d : list byte) : list byte :=
  match d with
  | b :: _ =>
      if bool_decide (d = replicate (length d) b) && (len d <? 2 ^ 32)
      then Byte.x01 :: b :: put_u32 (len d) else Byte.x00 :: d
  | [] => [Byte.x00]
  end.

Definition rle_dec (l : list byte) : list byte * error :=
  match l with
  | Byte.x00 :: d => (d, EOF)
  | Byte.x01 :: b :: n => (replicate (Z.to_nat (le_val n)) b, EOF)
  | _ => ([], UnexpectedEOF)
  end.

Definition rle_lz4 : Lz4 := {|
  lz4_Write _ _ := Ok [];
  lz4_Close _ data := Ok (rle_enc data);
  lz4_Read := rle_dec;
|}.

#[global] Instance rle_lz4_laws : Lz4Laws rle_lz4.
Proof.
  constructor. intros blk data w c [= <-] [= <-]. cbn [app lz4_Read rle_lz4].
  unfold rle_enc. destruct data as [|b d]; [done|].
  destruct (bool_decide _ && _) eqn:E; [|done].
  apply andb_true_iff in E as [Er%bool_decide_eq_true El%Z.ltb_lt]. unfold rle_dec.
  rewrite le_val_put_u32 by (pose proof (len_nonneg (b :: d)); unfold is_u32; lia).
  unfold len. rewrite Nat2Z.id, <- Er. done.
Qed.

Definition zero_bufs : ChunkBufs.
Proof.
  refine {| GetChunkBuf _ := replicate (Z.to_nat maxChunkSize) Byte.x00 |}.
  abstract (intros _; unfold len; rewrite length_replicate; apply Z2Nat.id; unfold maxChunkSize; lia).
Defined.

(** A chunk survives compression.  Whatever scheme [selectBestCompression]
    picks, the result is no longer than the chunk, and [DecodeChunk] with the
    header the encoder writes for it gives the chunk back, for every
    destination that is long enough; the header itself parses back. *)
Theorem chunk_roundtrip {L : Lz4} {LL : Lz4Laws L} {P : ChunkBufs} dst data c ty :
  len data <= MaxChunkSize -> len data <= len (selems dst) -> len data < scap dst ->
  selectBestCompression data = (c, ty) ->
  len c <= len data /\
  exists h, ParseChunkHeader (header_bytes (len c) ty (len data)) = Ok h /\
    DecodeChunk dst h c = Ok data.
Proof.
  intros Hd H1 H2 E. pose proof (selectBestCompression_spec _ _ _ Hd E) as [Hle Hty].
  split; [done|]. exists (MkChunkHeader (len c) (len data) ty).
  split; [|by apply DecodeChunk_select].
  pose proof (len_nonneg c). pose proof (len_nonneg data).
  rewrite <- (app_nil_r (header_bytes _ _ _)). unfold MaxChunkSize in *.
  unfold CompressionNone, CompressionLZ4, CompressionByteGrouping4 in Hty.
  apply parse_header_bytes; unfold MaxChunkSize; lia.
Qed.

Lemma chunk_roundtrip_witness :
  exists c ty, selectBestCompression (L := rle_lz4) (P := zero_bufs) (str "aaaaaaaaaaaa") = (c, ty) /\
    exists h, ParseChunkHeader (header_bytes (len c) ty (len (str "aaaaaaaaaaaa"))) = Ok h /\
      DecodeChunk (L := rle_lz4) (BSlice (replicate 13 Byte.x00) []) h c = Ok (str "aaaaaaaaaaaa").
Proof.
  destruct (selectBestCompression (L := rle_lz4) (P := zero_bufs) (str "aaaaaaaaaaaa")) as [c ty] eqn:E.
  exists c, ty. split; [done|].
  refine (proj2 (chunk_roundtrip (L := rle_lz4) (P := zero_bufs) (BSlice (replicate 13 Byte.x00) [])
    (str "aaaaaaaaaaaa") c ty _ _ _ E)); vm_compute; congruence.
Defined.
