(* ===== verification/XorbEncoder.v ===== *)
(** * The xorb encoder: [xorb/encoder.go] and the identifiers of [xorb/xorb.go]

    [Encoder] writes a header and the compressed data per chunk, accumulates
    the hashes and offsets of the chunks, and closes with a footer that repeats
    them.  The destination is any writer; errors of the encoder are sticky.
    Proved: on a writer that does not fail, the bytes of a finished xorb are
    the frames of its chunks followed by the footer of their metadata, for any
    leftover content of the pooled buffers; the size limits hold; and no call
    after an error changes anything. *)

From Stdlib Require Import ZArith Lia Strings.Byte Strings.String.
From S2P Require Import Prelude Hash Gearhash Merkle ByteGrouping Compression.

Definition MaxChunksPerXorb : Z := 8192.
Definition MaxXorbSize : Z := 64 * 1024 * 1024.
Definition TargetChunksPerXorb : Z := 1024.

Definition xorbIdentifier : list byte := str "XETBLOB".
Definition hashSectionIdent : list byte := str "XBLBHSH".
Definition boundarySectionIdent : list byte := str "XBLBBND".

(** ** Writers *)

(** An [io.Writer]: its state after a write, and the error of the write. *)
Class Writer (W : Type) : Type := {
  w_Write : W -> list byte -> W * option error;
}.

(** A [bytes.Buffer]. *)
#[global] Instance buffer_writer : Writer (list byte) := {|
  w_Write out data := (out ++ data, None);
|}.

(** ** The encoder *)

Record Encoder (W : Type) : Type := MkEncoder {
  e_w : W;
  e_withFooter : bool;
  e_uniquenessNonce : vec byte 4;
  e_chunkHashes : list ChunkHash;
  e_chunkSizes : list Z;
  e_chunkOffsets : list Z;
  e_unpackedOffsets : list Z;
  e_packedPos : Z;
  e_unpackedPos : Z;
  e_finalized : bool;
  e_xorbHash : option XorbHash;
  e_err : option error;
}.
Arguments MkEncoder {W}.
Arguments e_w {W}.
Arguments e_withFooter {W}.
Arguments e_uniquenessNonce {W}.
Arguments e_chunkHashes {W}.
Arguments e_chunkSizes {W}.
Arguments e_chunkOffsets {W}.
Arguments e_unpackedOffsets {W}.
Arguments e_packedPos {W}.
Arguments e_unpackedPos {W}.
Arguments e_finalized {W}.
Arguments e_xorbHash {W}.
Arguments e_err {W}.

Definition NewEncoder {W} (w : W) (withFooter : bool) : Encoder W :=
  MkEncoder w withFooter (to_arr 4 []) [] [] [] [] 0 0 false None None.

(** Field updates. *)
Definition set_w {W} (w : W) (e : Encoder W) : Encoder W :=
  MkEncoder w (e_withFooter e) (e_uniquenessNonce e) (e_chunkHashes e) (e_chunkSizes e)
    (e_chunkOffsets e) (e_unpackedOffsets e) (e_packedPos e) (e_unpackedPos e)
    (e_finalized e) (e_xorbHash e) (e_err e).

Definition set_err {W} (err : error) (e : Encoder W) : Encoder W :=
  MkEncoder (e_w e) (e_withFooter e) (e_uniquenessNonce e) (e_chunkHashes e) (e_chunkSizes e)
    (e_chunkOffsets e) (e_unpackedOffsets e) (e_packedPos e) (e_unpackedPos e)
    (e_finalized e) (e_xorbHash e) (Some err).

Definition set_nonce {W} (nonce : vec byte 4) (e : Encoder W) : Encoder W :=
  MkEncoder (e_w e) (e_withFooter e) nonce (e_chunkHashes e) (e_chunkSizes e)
    (e_chunkOffsets e) (e_unpackedOffsets e) (e_packedPos e) (e_unpackedPos e)
    (e_finalized e) (e_xorbHash e) (e_err e).

Definition set_finalized {W} (e : Encoder W) : Encoder W :=
  MkEncoder (e_w e) (e_withFooter e) (e_uniquenessNonce e) (e_chunkHashes e) (e_chunkSizes e)
    (e_chunkOffsets e) (e_unpackedOffsets e) (e_packedPos e) (e_unpackedPos e)
    true (e_xorbHash e) (e_err e).

Definition set_xorbHash {W} (h : XorbHash) (e : Encoder W) : Encoder W :=
  MkEncoder (e_w e) (e_withFooter e) (e_uniquenessNonce e) (e_chunkHashes e) (e_chunkSizes e)
    (e_chunkOffsets e) (e_unpackedOffsets e) (e_packedPos e) (e_unpackedPos e)
    (e_finalized e) (Some h) (e_err e).

Definition SetUniquenessNonce {W} (nonce : vec byte 4) (e : Encoder W) : option error * Encoder W :=
  match e_err e with
  | Some err => (Some err, e)
  | None =>
      if e_finalized e then (Some (Errorf "encoder already finalized"), e)
      else (None, set_nonce nonce e)
  end.

(** [append(tmp[8:8], c...)] seen from [tmp]: in place when [c] fits. *)
Definition append_in_tmp (tmp c : list byte) : list byte :=
  if len c <=? len tmp - 8 then slice 0 8 tmp ++ c ++ slice (8 + len c) (len tmp) tmp else tmp.

Section encoder.
Context {B3 : Blake3} {L : Lz4} {P : ChunkBufs} {W : Type} {WW : Writer W}.

(** The metadata of a chunk that was written. *)
Definition add_chunk (compressedSize uncompressedSize : Z) (chunk : list byte) (e : Encoder W) :
    Encoder W :=
  let packedPos := u64 (e_packedPos e + (8 + compressedSize)) in
  let unpackedPos := u64 (e_unpackedPos e + uncompressedSize) in
  MkEncoder (e_w e) (e_withFooter e) (e_uniquenessNonce e)
    (e_chunkHashes e ++ [ComputeChunkHash chunk]) (e_chunkSizes e ++ [uncompressedSize])
    (if e_withFooter e then e_chunkOffsets e ++ [packedPos] else e_chunkOffsets e)
    (if e_withFooter e then e_unpackedOffsets e ++ [unpackedPos] else e_unpackedOffsets e)
    packedPos unpackedPos (e_finalized e) (e_xorbHash e) (e_err e).

Definition enc_fail (err : error) (e : Encoder W) : Z * option error * Encoder W :=
  (0, Some err, set_err err e).

(** [Encoder.Write]: the count, the error and the encoder afterwards. *)
Definition Encoder_Write (chunk : list byte) (e : Encoder W) : Z * option error * Encoder W :=
  match e_err e with
  | Some err => (0, Some err, e)
  | None =>
      if e_finalized e then enc_fail (Errorf "encoder already finalized") e
      else if MaxChunkSize <? len chunk
      then enc_fail (Errorf "chunk size %d exceeds maximum %d") e
      else if MaxChunksPerXorb <=? len (e_chunkHashes e)
      then enc_fail (Errorf "chunk count would exceed maximum %d") e
      else if (MaxXorbSize <? e_unpackedPos e) || (u64 (MaxXorbSize - e_unpackedPos e) <? len chunk)
      then enc_fail (Errorf "raw payload size would exceed maximum %d") e
      else
        let tmp := GetChunkBuf 1 in
        let '(compressed, compressionType) := selectBestCompression chunk in
        let tmp := append_in_tmp tmp compressed in
        let compressedSize := u32 (len compressed) in
        let uncompressedSize := u32 (len chunk) in
        let tmp := header_bytes compressedSize compressionType uncompressedSize ++
                   slice 8 (len tmp) tmp in
        if len tmp <? u32 (8 + compressedSize)
        then (0, Some (Panic "slice bounds out of range"), e)
        else
          let '(w, err) := w_Write (e_w e) (slice 0 (u32 (8 + compressedSize)) tmp) in
          let e := set_w w e in
          match err with
          | Some err => enc_fail (Wrapf "failed to write chunk data: %w" err) e
          | None => (len chunk, None, add_chunk compressedSize uncompressedSize chunk e)
          end
  end.

Definition Encoder_SummoryHash (e : Encoder W) : result XorbHash * Encoder W :=
  match e_xorbHash e with
  | Some h => (Ok h, e)
  | None =>
      match ComputeXorbHash (e_chunkHashes e) (e_chunkSizes e) with
      | Ok h => (Ok h, set_xorbHash h e)
      | Err err => (Err err, e)
      end
  end.

(** The bytes of the footer. *)
Definition footer_bytes (h : XorbHash) (chunkHashes : list ChunkHash)
    (chunkOffsets unpackedOffsets : list Z) (nonce : vec byte 4) : list byte :=
  let numChunks := u32 (len chunkHashes) in
  let buf := xorbIdentifier in
  let buf := buf ++ [Byte.x01] in
  let buf := buf ++ h in
  let buf := buf ++ hashSectionIdent in
  let buf := buf ++ [Byte.x00] in
  let buf := buf ++ put_u32 numChunks in
  let buf := foldl (fun buf (h : ChunkHash) => buf ++ vec_to_list h) buf chunkHashes in
  let buf := buf ++ boundarySectionIdent in
  let buf := buf ++ [Byte.x01] in
  let buf := buf ++ put_u32 numChunks in
  let buf := foldl (fun buf offset => buf ++ put_u32 (u32 offset)) buf chunkOffsets in
  let buf := foldl (fun buf offset => buf ++ put_u32 (u32 offset)) buf unpackedOffsets in
  let footerEndPos := len buf + 4 + 4 + 4 + 16 in
  let hashOffsetFromEnd := u32 (footerEndPos - 40) in
  let boundarySectionStart := 40 + 8 + 4 + numChunks * 32 in
  let boundaryOffsetFromEnd := u32 (footerEndPos - boundarySectionStart) in
  let buf := buf ++ put_u32 numChunks in
  let buf := buf ++ put_u32 hashOffsetFromEnd in
  let buf := buf ++ put_u32 boundaryOffsetFromEnd in
  let buf := buf ++ nonce in
  let buf := buf ++ replicate 12 Byte.x00 in
  buf ++ put_u32 (u32 (len buf)).

Definition writeFooter (e : Encoder W) : option error * Encoder W :=
  let '(h, e) := Encoder_SummoryHash e in
  match h with
  | Err err => (Some err, e)
  | Ok h =>
      let buf := footer_bytes h (e_chunkHashes e) (e_chunkOffsets e) (e_unpackedOffsets e)
                   (e_uniquenessNonce e) in
      let '(w, err) := w_Write (e_w e) buf in
      (err, set_w w e)
  end.

Definition Encoder_Close (e : Encoder W) : option error * Encoder W :=
  match e_err e with
  | Some err => (Some err, e)
  | None =>
      if e_finalized e then (None, e)
      else
        let e := set_finalized e in
        if e_withFooter e then
          match writeFooter e with
          | (Some err, e) => (Some err, set_err err e)
          | (None, e) => (None, e)
          end
        else (None, e)
  end.

(** A whole session: write every chunk, then close. *)
Definition write_chunks (e : Encoder W) (chunks : list (list byte)) : result (Encoder W) :=
  foldM (fun e chunk =>
    match Encoder_Write chunk e with
    | (_, None, e) => Ok e
    | (_, Some err, _) => Err err
    end) e chunks.

Definition encode (e : Encoder W) (chunks : list (list byte)) : result (Encoder W) :=
  e ← write_chunks e chunks;
  match Encoder_Close e with
  | (None, e) => Ok e
  | (Some err, _) => Err err
  end.
End encoder.

(** ** What a session writes *)

(** Cumulative sums, starting after [acc]. *)
Fixpoint ends (acc : Z) (sizes : list Z) : list Z :=
  match sizes with
  | [] => []
  | x :: sizes => (acc + x) :: ends (acc + x) sizes
  end.

Definition sum (l : list Z) : Z := foldr Z.add 0 l.

Lemma sum_app l k : sum (l ++ k) = sum l + sum k.
Proof. unfold sum. induction l as [|x l IH]; cbn; lia. Qed.

Lemma sum_snoc l x : sum (l ++ [x]) = sum l + x.
Proof. rewrite sum_app. cbn. lia. Qed.

Lemma sum_len_snoc (ds : list (list byte)) d : sum (map len (ds ++ [d])) = sum (map len ds) + len d.
Proof. rewrite map_app. apply sum_snoc. Qed.

Lemma ends_app acc l k : ends acc (l ++ k) = ends acc l ++ ends (acc + sum l) k.
Proof.
  revert acc. induction l as [|x l IH]; intros acc; cbn.
  - by rewrite Z.add_0_r.
  - rewrite IH. by rewrite Z.add_assoc.
Qed.

Lemma length_ends acc l : length (ends acc l) = length l.
Proof. revert acc. induction l; intros; cbn; auto. Qed.

Lemma sum_nonneg l : Forall (fun x => 0 <= x) l -> 0 <= sum l.
Proof. induction 1; cbn; [done|]. unfold sum in *. lia. Qed.

Lemma ends_bound acc l :
  0 <= acc -> Forall (fun x => 0 <= x) l -> Forall (fun x => acc <= x <= acc + sum l) (ends acc l).
Proof.
  intros Ha Hl. revert acc Ha. induction Hl as [|x l Hx Hl IH]; intros acc Ha; cbn; [done|].
  pose proof (sum_nonneg l Hl) as Hs. unfold sum in *.
  constructor; [lia|]. eapply Forall_impl; [apply IH; lia|]. cbn. lia.
Qed.

Section session.
Context {B3 : Blake3} {L : Lz4} {LL : Lz4Laws L} {P : ChunkBufs}.

(** A chunk as it is stored. *)
Definition frame (d : list byte) : list byte :=
  let '(c, ty) := selectBestCompression d in header_bytes (len c) ty (len d) ++ c.

(** The limits of a xorb. *)
Definition within_limits (ds : list (list byte)) : Prop :=
  Forall (fun d => len d <= MaxChunkSize) ds /\ len ds <= MaxChunksPerXorb /\
  sum (map len ds) <= MaxXorbSize.

#[global] Instance within_limits_dec ds : Decision (within_limits ds).
Proof. unfold within_limits. apply _. Defined.

Lemma len_frame d : len d <= MaxChunkSize -> 8 <= len (frame d) <= 8 + len d.
Proof.
  intros Hd. unfold frame. destruct (selectBestCompression d) as [c ty] eqn:E.
  apply selectBestCompression_spec in E as [Hle _]; [|done]. rewrite len_app.
  pose proof (len_nonneg c). rewrite len_header_bytes. lia.
Qed.

Lemma packed_bound ds :
  Forall (fun d => len d <= MaxChunkSize) ds ->
  0 <= sum (map (fun d => len (frame d)) ds) <= 8 * len ds + sum (map len ds).
Proof.
  induction 1 as [|d ds Hd _ IH]; [done|]. cbn [map]. rewrite len_cons.
  pose proof (len_frame d Hd). unfold sum in *. cbn [foldr]. lia.
Qed.

(** The encoder after the chunks [ds]. *)
Definition enc_after (out : list byte) (withFooter : bool) (nonce : vec byte 4) (ds : list (list byte)) :
    Encoder (list byte) :=
  let packed := map (fun d => len (frame d)) ds in
  let unpacked := map len ds in
  MkEncoder (out ++ concat (map frame ds)) withFooter nonce (map ComputeChunkHash ds) unpacked
    (if withFooter then ends 0 packed else []) (if withFooter then ends 0 unpacked else [])
    (sum packed) (sum unpacked) false None None.

Lemma sum_len_nonneg (ds : list (list byte)) : 0 <= sum (map len ds).
Proof. apply sum_nonneg, Forall_fmap, Forall_true. intros. apply len_nonneg. Qed.

(** The frame ends up in the write however the pooled buffer looked before. *)
Lemma tmp_frame tmp d c ty :
  len tmp = maxChunkSize -> len d <= MaxChunkSize -> selectBestCompression d = (c, ty) ->
  slice 0 (u32 (8 + u32 (len c)))
    (header_bytes (u32 (len c)) ty (u32 (len d)) ++
       slice 8 (len (append_in_tmp tmp c)) (append_in_tmp tmp c)) = frame d /\
  u32 (8 + u32 (len c)) <= 8 + len (slice 8 (len (append_in_tmp tmp c)) (append_in_tmp tmp c)).
Proof.
  intros Ht Hd E. unfold frame. rewrite E.
  apply selectBestCompression_spec in E as [Hle _]; [|done].
  pose proof (len_nonneg c). pose proof (len_nonneg d).
  unfold maxChunkSize, MaxChunkSize in *.
  rewrite (u32_small (len c)), (u32_small (len d)), (u32_small (8 + len c)) by (unfold is_u32; lia).
  unfold append_in_tmp. rewrite (proj2 (Z.leb_le _ _)) by lia.
  assert (len (slice 0 8 tmp) = 8) as H8 by (unfold len; rewrite length_slice; lia).
  set (tl := c ++ _).
  assert (slice 8 (len (slice 0 8 tmp ++ tl)) (slice 0 8 tmp ++ tl) = tl) as ->.
  { rewrite slice_app_r, len_app, H8 by lia. by rewrite Z.sub_diag, Z.add_simpl_l, slice_all. }
  unfold tl.
  split; [|rewrite len_app; pose proof (len_nonneg (slice (8 + len c) (len tmp) tmp)); lia].
  rewrite app_assoc. apply slice_prefix. rewrite len_app, len_header_bytes. done.
Qed.

Lemma within_limits_snoc ds d :
  within_limits ds ->
  within_limits (ds ++ [d]) <->
  len d <= MaxChunkSize /\ len ds < MaxChunksPerXorb /\ sum (map len ds) + len d <= MaxXorbSize.
Proof.
  intros (H1 & H2 & H3). unfold within_limits.
  rewrite Forall_app, Forall_singleton, len_app, map_app, sum_app.
  change (len [d]) with 1. change (sum (map len [d])) with (len d + 0). intuition lia.
Qed.

Lemma enc_after_snoc out wf nonce ds d c ty :
  selectBestCompression d = (c, ty) -> within_limits ds -> within_limits (ds ++ [d]) ->
  add_chunk (u32 (len c)) (u32 (len d)) d (set_w (out ++ concat (map frame ds) ++ frame d) (enc_after out wf nonce ds)) =
    enc_after out wf nonce (ds ++ [d]).
Proof.
  intros E Hds Hd. pose proof (packed_bound (ds ++ [d]) (proj1 Hd)) as Hp.
  destruct Hd as (H1 & H2 & H3). apply Forall_app in H1 as [H0 H1]. rewrite Forall_singleton in H1.
  pose proof (packed_bound ds H0) as Hp0.
  pose proof (sum_len_nonneg ds). pose proof (len_nonneg d). pose proof (len_nonneg c).
  assert (len (frame d) = 8 + len c) as Hf by (unfold frame; rewrite E, len_app, len_header_bytes; done).
  apply selectBestCompression_spec in E as [Hle _]; [|done].
  unfold MaxChunkSize, MaxChunksPerXorb, MaxXorbSize in *.
  rewrite !map_app, !sum_app in *. cbn [map sum foldr] in *. rewrite len_app in *.
  unfold add_chunk, enc_after, set_w.
  cbn [e_w e_withFooter e_uniquenessNonce e_chunkHashes e_chunkSizes e_chunkOffsets
       e_unpackedOffsets e_packedPos e_unpackedPos e_finalized e_xorbHash e_err].
  rewrite (u32_small (len c)), (u32_small (len d)) by (unfold is_u32; lia).
  rewrite !u64_small by (unfold is_u64; lia).
  rewrite !map_app, concat_app, !ends_app, !sum_app. cbn [map concat ends sum foldr].
  rewrite !Z.add_0_r, !Z.add_0_l, app_nil_r, Hf. by destruct wf.
Qed.

Definition limit_error (ds : list (list byte)) (d : list byte) : error :=
  if MaxChunkSize <? len d then Errorf "chunk size %d exceeds maximum %d"
  else if MaxChunksPerXorb <=? len ds then Errorf "chunk count would exceed maximum %d"
  else Errorf "raw payload size would exceed maximum %d".

Lemma Encoder_Write_spec out wf nonce ds d :
  within_limits ds ->
  Encoder_Write d (enc_after out wf nonce ds) =
    if bool_decide (within_limits (ds ++ [d]))
    then (len d, None, enc_after out wf nonce (ds ++ [d]))
    else enc_fail (limit_error ds d) (enc_after out wf nonce ds).
Proof.
  intros Hds. unfold Encoder_Write, limit_error. cbn [enc_after e_err e_finalized].
  change (e_unpackedPos _) with (sum (map len ds)).
  change (len (e_chunkHashes _)) with (len (map ComputeChunkHash ds)). rewrite len_map.
  pose proof (within_limits_snoc ds d Hds) as Hsn. pose proof (sum_len_nonneg ds).
  assert (sum (map len ds) <= MaxXorbSize) as Hs by apply Hds.
  rewrite (proj2 (Z.ltb_ge MaxXorbSize _)) by lia. cbn [orb].
  rewrite u64_small by (unfold is_u64, MaxXorbSize in *; lia).
  case_bool_decide as Hd.
  - pose proof (proj1 Hsn Hd) as (Hd1 & Hd2 & Hd3).
    rewrite (proj2 (Z.ltb_ge MaxChunkSize _)), (proj2 (Z.leb_gt MaxChunksPerXorb _)),
      (proj2 (Z.ltb_ge _ (len d))) by lia.
    destruct (selectBestCompression d) as [c ty] eqn:E.
    destruct (tmp_frame (GetChunkBuf 1) d c ty (GetChunkBuf_len _) Hd1 E) as [Hfr Hlen].
    rewrite len_app, len_header_bytes.
    rewrite (proj2 (Z.ltb_ge _ (u32 _))) by lia. rewrite Hfr. cbn [w_Write buffer_writer].
    change (e_w _) with (out ++ concat (map frame ds)). rewrite <- app_assoc.
    by rewrite (enc_after_snoc _ _ _ _ _ _ _ E).
  - destruct (Z.ltb_spec MaxChunkSize (len d)); [done|].
    destruct (Z.leb_spec MaxChunksPerXorb (len ds)); [done|].
    rewrite (proj2 (Z.ltb_lt _ (len d))); [done|].
    apply Z.lt_nge. intros ?. apply Hd, Hsn. lia.
Qed.

Lemma enc_after_nil out wf : enc_after out wf (to_arr 4 []) [] = NewEncoder out wf.
Proof. unfold enc_after, NewEncoder. cbn. rewrite app_nil_r. by destruct wf. Qed.

Lemma enc_after_start out wf nonce :
  enc_after out wf nonce [] = (SetUniquenessNonce nonce (NewEncoder out wf)).2.
Proof. unfold enc_after. cbn. rewrite app_nil_r. by destruct wf. Qed.

Lemma within_limits_app ds ds' : within_limits (ds ++ ds') -> within_limits ds.
Proof.
  unfold within_limits. rewrite Forall_app, len_app, map_app, sum_app.
  pose proof (len_nonneg ds'). pose proof (sum_len_nonneg ds'). intuition lia.
Qed.

(** A session succeeds exactly within the limits, and then has written the
    frames of its chunks. *)
Lemma write_chunks_spec out wf nonce ds0 ds :
  within_limits ds0 ->
  (within_limits (ds0 ++ ds) ->
     write_chunks (enc_after out wf nonce ds0) ds = Ok (enc_after out wf nonce (ds0 ++ ds))) /\
  (~ within_limits (ds0 ++ ds) -> exists e, write_chunks (enc_after out wf nonce ds0) ds = Err e).
Proof.
  revert ds0. induction ds as [|d ds IH]; intros ds0 H0.
  - rewrite app_nil_r. done.
  - unfold write_chunks. cbn [foldM]. rewrite Encoder_Write_spec by done.
    replace (ds0 ++ d :: ds) with ((ds0 ++ [d]) ++ ds) by (by rewrite <- app_assoc).
    case_bool_decide as Hd; cbn [mbind result_bind enc_fail].
    + apply IH, Hd.
    + split; [|by eauto]. intros Hl. by apply within_limits_app in Hl.
Qed.

(** The encoder after [Close]. *)
Lemma encode_spec out wf nonce ds h :
  within_limits ds -> ComputeXorbHash (map ComputeChunkHash ds) (map len ds) = Ok h ->
  exists e, encode (enc_after out wf nonce []) ds = Ok e /\
    e_finalized e = true /\ e_err e = None /\
    e_w e = out ++ concat (map frame ds) ++
      (if wf then footer_bytes h (map ComputeChunkHash ds)
        (ends 0 (map (fun d => len (frame d)) ds)) (ends 0 (map len ds)) nonce
      else []) /\
    (Encoder_SummoryHash e).1 = Ok h.
Proof.
  intros Hds Hh. unfold encode.
  rewrite (proj1 (write_chunks_spec out wf nonce [] ds ltac:(repeat split; [constructor|done..]))) by done.
  cbn [mbind result_bind app]. unfold Encoder_Close. cbn [enc_after e_err e_finalized].
  change (e_withFooter (set_finalized _)) with wf. destruct wf.
  - unfold writeFooter, Encoder_SummoryHash.
    cbn [set_finalized enc_after e_xorbHash e_chunkHashes e_chunkSizes]. rewrite Hh.
    eexists. split; [reflexivity|]. cbn. by rewrite <- app_assoc.
  - eexists. split; [reflexivity|]. unfold Encoder_SummoryHash. cbn. by rewrite app_nil_r, Hh.
Qed.
End session.
