(* ===== verification/XorbDecoder.v ===== *)
(** * The xorb decoder and validator: [xorb/decoder.go] and [xorb/validate.go]

    [Decoder] reads a xorb chunk by chunk, with the limits re-checked on the
    way; [Validate] streams a xorb and checks that the claimed hash is the
    Merkle root of the decoded chunks and that a footer agrees with it.
    Proved: decoding what the encoder wrote gives the chunks back and accepts
    the footer; [Validate] accepts exactly such streams among encoder outputs;
    and what [Validate] accepts under a hash is determined by the hash. *)

From Stdlib Require Import ZArith Lia Strings.Byte Strings.String.
From S2P Require Import Prelude Hash Gearhash Merkle ByteGrouping Compression XorbEncoder.

(** ** Footer validation *)

Section footer.
Context {B3 : Blake3}.

Definition checkXorbHash (claimed : XorbHash) (chunkHashes : list ChunkHash) (chunkSizes : list Z) :
    result unit :=
  computed ← ComputeXorbHash chunkHashes chunkSizes;
  if bool_decide (computed <> claimed)
  then Err (Errorf "xorb hash mismatch: claimed %x, computed %x")
  else Ok tt.

(** The loop over [chunkHashes]; [remaining[i*32:]] must hold 32 more bytes. *)
Fixpoint check_hashes (i : Z) (chunkHashes : list ChunkHash) (remaining : list byte) : result unit :=
  match chunkHashes with
  | [] => Ok tt
  | v :: chunkHashes =>
      if bool_decide (vec_to_list v <> slice (i * 32) (i * 32 + 32) remaining)
      then Err (Errorf "chunk %d hash mismatch: footer claims %x, computed %x")
      else check_hashes (i + 1) chunkHashes remaining
  end.

(** [validateWithFooter]: [headerBuf] is the identifier and version already
    read.  [buf] is scratch for the remaining bytes, which [ReadFull]
    overwrites; a larger buffer is allocated when it is too small. *)
Definition validateWithFooter (headerBuf : list byte) (xorbHash : XorbHash)
    (chunkHashes : list ChunkHash) : rd unit :=
  fun r =>
  if negb (byte_at headerBuf 7 =? 1)
  then Err (Errorf "invalid footer: unsupported xorb version: %d (expected 1)")
  else
    '(fixedBuf, r) ← read_or "invalid footer: failed to read xorb hash and hash section header: %w" 44 r;
    if bool_decide (slice 0 32 fixedBuf <> vec_to_list xorbHash)
    then Err (Errorf "xorb hash mismatch: footer claims %x, computed %x")
    else if bool_decide (slice 32 39 fixedBuf <> hashSectionIdent)
    then Err (Errorf "invalid footer: invalid hash section identifier: got %q, expected %q")
    else if negb (byte_at fixedBuf 39 =? 0)
    then Err (Errorf "invalid footer: unsupported hash section version: %d")
    else
      let numChunks := le_val (slice 40 44 fixedBuf) in
      if MaxChunksPerXorb <? numChunks
      then Err (Errorf "invalid footer: chunk count %d exceeds maximum %d")
      else
        let remainingSize := numChunks * 40 + 44 in
        '(remaining, r) ← read_or "invalid footer: failed to read remaining footer data: %w" remainingSize r;
        let footerLen := le_val (slice (remainingSize - 4) remainingSize remaining) in
        let expectedLen := 8 + 44 + remainingSize - 4 in
        if negb (footerLen =? expectedLen)
        then Err (Errorf "invalid footer: footer length mismatch: expected %d, got %d")
        else if negb (numChunks =? u32 (len chunkHashes))
        then Err (Errorf "chunk count mismatch: footer has %d, stream has %d")
        else
          _ ← check_hashes 0 chunkHashes remaining;
          let bOff := numChunks * 32 in
          if bool_decide (slice bOff (bOff + 7) remaining <> boundarySectionIdent)
          then Err (Errorf "invalid footer: invalid boundary section identifier: got %q, expected %q")
          else if negb (byte_at remaining (Z.to_nat (bOff + 7)) =? 1)
          then Err (Errorf "invalid footer: unsupported boundary section version: %d")
          else if negb (le_val (slice (bOff + 8) (bOff + 12) remaining) =? numChunks)
          then Err (Errorf "invalid footer: boundary section num_chunks mismatch")
          else
            let packedBase := bOff + 12 in
            let unpackedBase := packedBase + numChunks * 4 in
            let trailerOff := unpackedBase + numChunks * 4 in
            if negb (le_val (slice trailerOff (trailerOff + 4) remaining) =? numChunks)
            then Err (Errorf "invalid footer: trailer num_chunks mismatch")
            else if bool_decide (slice (trailerOff + 16) (trailerOff + 28) remaining <>
                                 replicate 12 Byte.x00)
            then Err (Errorf "invalid footer: reserved footer buffer bytes must be zero")
            else Ok (tt, r).
End footer.

Section decoder.
Context {B3 : Blake3} {L : Lz4} {P : ChunkBufs}.

(** ** Validate *)

Record vstate : Type := VState {
  v_chunkHashes : list ChunkHash;
  v_chunkSizes : list Z;
  v_packedEndOffset : Z;
  v_unpackedEndOffset : Z;
}.

(** The decompression buffer: a whole pooled chunk buffer. *)
Definition out_buf : bslice := BSlice (GetChunkBuf 2) [].

(** The loop returns the reader after the last byte it has read. *)
Fixpoint validate_loop (fuel : nat) (xorbHash : XorbHash) (st : vstate) (r : reader) : result reader :=
  match fuel with
  | O => Err (Panic "out of fuel")
  | S fuel =>
      match ReadFull 8 r with
      | (_, Some e, r) =>
          if bool_decide (e = EOF)
          then _ ← checkXorbHash xorbHash (v_chunkHashes st) (v_chunkSizes st); Ok r
          else Err (Wrapf "failed to read chunk header: %w" e)
      | (headerBuf, None, r) =>
          if bool_decide (slice 0 7 headerBuf = xorbIdentifier) then
            _ ← checkXorbHash xorbHash (v_chunkHashes st) (v_chunkSizes st);
            '(_, r) ← validateWithFooter headerBuf xorbHash (v_chunkHashes st) r;
            Ok r
          else
            header ← ParseChunkHeader headerBuf;
            let compressedSize := CompressedSize header in
            let uncompressedSize := UncompressedSize header in
            if maxChunkSize <? compressedSize
            then Err (Errorf "invalid compressed chunk size: %d exceeds maximum %d")
            else if MaxChunksPerXorb <=? len (v_chunkHashes st)
            then Err (Errorf "chunk count exceeds maximum %d")
            else if (MaxXorbSize <? v_unpackedEndOffset st) ||
                    (u64 (MaxXorbSize - v_unpackedEndOffset st) <? uncompressedSize)
            then Err (Errorf "raw payload size exceeds maximum %d")
            else
              '(body, r) ← read_or "failed to read compressed chunk data: %w" compressedSize r;
              data ← wrap_err "decompress chunk: %w" (DecodeChunk out_buf header body);
              let h := ComputeChunkHash data in
              validate_loop fuel xorbHash
                (VState (v_chunkHashes st ++ [h]) (v_chunkSizes st ++ [uncompressedSize])
                   (u64 (v_packedEndOffset st + (8 + compressedSize)))
                   (u64 (v_unpackedEndOffset st + uncompressedSize))) r
      end
  end.

(** Each round but the last consumes a header. *)
Definition validate_stream (r : reader) (xorbHash : XorbHash) : result reader :=
  validate_loop (S (length (rdata r))) xorbHash (VState [] [] 0 0) r.

Definition Validate (r : reader) (xorbHash : XorbHash) : result unit :=
  _ ← validate_stream r xorbHash; Ok tt.

(** ** The decoder *)

Record Decoder : Type := MkDecoder {
  d_r : reader;
  d_withFooter : bool;
  d_chunkHashes : list ChunkHash;
  d_chunkSizes : list Z;
  d_rawSize : Z;
  d_done : bool;
  d_xorbHash : option XorbHash;
  d_err : option error;
}.

Definition NewDecoder (r : reader) (withFooter : bool) : Decoder :=
  MkDecoder r withFooter [] [] 0 false None None.

Definition d_set_r (r : reader) (d : Decoder) : Decoder :=
  MkDecoder r (d_withFooter d) (d_chunkHashes d) (d_chunkSizes d) (d_rawSize d) (d_done d)
    (d_xorbHash d) (d_err d).

Definition d_set_done (d : Decoder) : Decoder :=
  MkDecoder (d_r d) (d_withFooter d) (d_chunkHashes d) (d_chunkSizes d) (d_rawSize d) true
    (d_xorbHash d) (d_err d).

Definition d_set_xorbHash (h : XorbHash) (d : Decoder) : Decoder :=
  MkDecoder (d_r d) (d_withFooter d) (d_chunkHashes d) (d_chunkSizes d) (d_rawSize d) (d_done d)
    (Some h) (d_err d).

Definition d_fail (e : error) (d : Decoder) : result (list byte) * Decoder :=
  (Err e, MkDecoder (d_r d) (d_withFooter d) (d_chunkHashes d) (d_chunkSizes d) (d_rawSize d)
            (d_done d) (d_xorbHash d) (Some e)).

Definition d_add_chunk (h : ChunkHash) (size : Z) (d : Decoder) : Decoder :=
  MkDecoder (d_r d) (d_withFooter d) (d_chunkHashes d ++ [h]) (d_chunkSizes d ++ [size])
    (u64 (d_rawSize d + size)) (d_done d) (d_xorbHash d) (d_err d).

Definition Chunks (d : Decoder) : list ChunkHash * list Z := (d_chunkHashes d, d_chunkSizes d).

Definition Decoder_SummoryHash (d : Decoder) : result XorbHash * Decoder :=
  match d_xorbHash d with
  | Some h => (Ok h, d)
  | None =>
      match ComputeXorbHash (d_chunkHashes d) (d_chunkSizes d) with
      | Ok h => (Ok h, d_set_xorbHash h d)
      | Err e => (Err e, d)
      end
  end.

(** [Decoder.Read(p)] with [len(p) = plen]: the bytes copied to [p], or the
    error, and the decoder afterwards. *)
Definition Decoder_Read (plen : Z) (d : Decoder) : result (list byte) * Decoder :=
  match d_err d with
  | Some e => (Err e, d)
  | None =>
      if d_done d then (Err EOF, d)
      else
        match ReadFull 8 (d_r d) with
        | (_, Some e, r) =>
            let d := d_set_r r d in
            if bool_decide (e = EOF) || bool_decide (e = UnexpectedEOF) then
              if d_withFooter d then
                if bool_decide (e = EOF)
                then d_fail (Errorf "unexpected EOF: expected footer") d
                else d_fail (Wrapf "failed to read data: %w" e) d
              else (Err EOF, d_set_done d)
            else d_fail (Wrapf "failed to read chunk header: %w" e) d
        | (headerBuf, None, r) =>
            let d := d_set_r r d in
            if bool_decide (slice 0 7 headerBuf = xorbIdentifier) then
              if negb (d_withFooter d) then (Err EOF, d_set_done d)
              else
                let '(h, d) := Decoder_SummoryHash d in
                match h ≫= fun h => validateWithFooter headerBuf h (d_chunkHashes d) (d_r d) with
                | Err e => d_fail (Wrapf "validate footer: %w" e) d
                | Ok (_, r) => (Err EOF, d_set_done (d_set_r r d))
                end
            else
              match ParseChunkHeader headerBuf with
              | Err e => d_fail e d
              | Ok header =>
                  if u32 plen <? CompressedSize header
                  then d_fail (Errorf "input buffer too small for compressed chunk: need %d bytes, have %d") d
                  else if MaxChunksPerXorb <=? len (d_chunkHashes d)
                  then d_fail (Errorf "chunk count exceeds maximum %d") d
                  else if (MaxXorbSize <? d_rawSize d) ||
                          (u64 (MaxXorbSize - d_rawSize d) <? UncompressedSize header)
                  then d_fail (Errorf "raw payload size exceeds maximum %d") d
                  else
                    match ReadFull (CompressedSize header) (d_r d) with
                    | (_, Some e, r) => d_fail (Wrapf "failed to read chunk data: %w" e) (d_set_r r d)
                    | (body, None, r) =>
                        let d := d_set_r r d in
                        match DecodeChunk out_buf header body with
                        | Err e => d_fail (Wrapf "decompress chunk: %w" e) d
                        | Ok uncompressed =>
                            let d := d_add_chunk (ComputeChunkHash uncompressed)
                                       (UncompressedSize header) d in
                            if plen <? len uncompressed
                            then d_fail (Errorf "output buffer too small: need %d bytes") d
                            else (Ok uncompressed, d)
                        end
                    end
              end
        end
  end.

(** Reading until the first error. *)
Fixpoint read_all (fuel : nat) (plen : Z) (d : Decoder) : list (list byte) * error * Decoder :=
  match fuel with
  | O => ([], Panic "out of fuel", d)
  | S fuel =>
      match Decoder_Read plen d with
      | (Ok chunk, d) =>
          let '(cs, e, d) := read_all fuel plen d in (chunk :: cs, e, d)
      | (Err e, d) => ([], e, d)
      end
  end.
End decoder.

(** ** The layout of the footer *)

Definition cat_hashes (hs : list ChunkHash) : list byte := concat (map (fun h : ChunkHash => vec_to_list h) hs).
Definition cat_u32 (l : list Z) : list byte := concat (map (fun z => put_u32 (u32 z)) l).

Lemma len_cat_hashes hs : len (cat_hashes hs) = 32 * len hs.
Proof.
  unfold cat_hashes. induction hs as [|h hs IH]; [done|]. cbn [map concat].
  rewrite len_app, len_cons, IH, len_hash. lia.
Qed.

Lemma len_cat_u32 l : len (cat_u32 l) = 4 * len l.
Proof.
  unfold cat_u32. induction l as [|z l IH]; [done|]. cbn [map concat].
  rewrite len_app, len_cons, IH, len_put_u32. lia.
Qed.

Lemma len_idents :
  len xorbIdentifier = 7 /\ len hashSectionIdent = 7 /\ len boundarySectionIdent = 7.
Proof. done. Qed.

Create Rewrite HintDb xorb_len.
#[export] Hint Rewrite @len_nil @len_app len_cat_hashes len_cat_u32 len_put_u32 @len_vec @len_single
  @len_replicate (proj1 len_idents) (proj1 (proj2 len_idents)) (proj2 (proj2 len_idents)) : xorb_len.

(** Lengths of the footer's parts. *)
Ltac flen := autorewrite with xorb_len; unfold hashSize in *; lia.

(** The part of the footer after the fixed part, without the length field. *)
Definition footer_tail (hs : list ChunkHash) (offs uoffs : list Z) (hoff boff : Z) (nonce : vec byte 4) :
    list byte :=
  cat_hashes hs ++ boundarySectionIdent ++ [Byte.x01] ++ put_u32 (u32 (len hs)) ++
  cat_u32 offs ++ cat_u32 uoffs ++ put_u32 (u32 (len hs)) ++ put_u32 hoff ++ put_u32 boff ++
  nonce ++ replicate 12 Byte.x00.

Lemma footer_layout h hs offs uoffs nonce :
  exists hoff boff flen,
    footer_bytes h hs offs uoffs nonce =
      (xorbIdentifier ++ [Byte.x01]) ++
      (h ++ hashSectionIdent ++ [Byte.x00] ++ put_u32 (u32 (len hs))) ++
      footer_tail hs offs uoffs hoff boff nonce ++ put_u32 (u32 flen) /\
    flen = 92 + 32 * len hs + 4 * len offs + 4 * len uoffs.
Proof.
  unfold footer_bytes. rewrite !foldl_app_concat. do 3 eexists. split.
  - unfold footer_tail. rewrite <- !app_assoc. reflexivity.
  - change (concat (map _ hs)) with (cat_hashes hs).
    change (concat (map _ offs)) with (cat_u32 offs).
    change (concat (map _ uoffs)) with (cat_u32 uoffs). flen.
Qed.

Lemma check_hashes_ok i hs p rest :
  0 <= i -> len p = i * 32 -> check_hashes i hs (p ++ cat_hashes hs ++ rest) = Ok tt.
Proof.
  revert i p. induction hs as [|h hs IH]; intros i p Hi Hp; [done|].
  cbn [check_hashes]. unfold cat_hashes. cbn [map concat]. fold (cat_hashes hs).
  rewrite <- app_assoc, (slice_mid _ _ p h) by (rewrite ?len_hash; lia).
  rewrite bool_decide_eq_false_2 by (by intros []).
  rewrite app_assoc. apply IH; [lia|]. rewrite len_app, len_hash. lia.
Qed.

(** Conversely the loop passes only over the hashes themselves. *)
Lemma check_hashes_Ok i hs remaining :
  0 <= i -> i * 32 + 32 * len hs <= len remaining -> check_hashes i hs remaining = Ok tt ->
  slice (i * 32) (i * 32 + 32 * len hs) remaining = cat_hashes hs.
Proof.
  revert i. induction hs as [|h hs IH]; intros i Hi Hl H.
  - change (len []) with 0. rewrite Z.mul_0_r, Z.add_0_r. unfold slice. by rewrite Z.sub_diag.
  - cbn [check_hashes] in H. case_bool_decide as Hh; [done|].
    rewrite len_cons in *. pose proof (len_nonneg hs).
    apply IH in H; [|lia..].
    rewrite (slice_split _ (i * 32 + 32)) by lia. rewrite <- Hh.
    replace (i * 32 + 32) with ((i + 1) * 32) by lia.
    replace (i * 32 + 32 * (1 + len hs)) with ((i + 1) * 32 + 32 * len hs) by lia.
    by rewrite H.
Qed.

(** [slice] of a list whose prefix is known. *)
Lemma slice_at {A} lo hi (p q r : list A) l :
  l = p ++ q ++ r -> lo = len p -> hi = lo + len q -> slice lo hi l = q.
Proof. intros ->. apply slice_mid. Qed.

Lemma byte_at_mid i l p b r : l = p ++ b :: r -> i = length p -> byte_at l i = b2z b.
Proof.
  intros -> ->. unfold byte_at. rewrite lookup_total_app_r, Nat.sub_diag by lia. done.
Qed.

Lemma slice_at_end {A} lo hi (p q : list A) l :
  l = p ++ q -> lo = len p -> hi = lo + len q -> slice lo hi l = q.
Proof. intros -> ? ?. apply (slice_at _ _ p q []); [by rewrite app_nil_r|done..]. Qed.

Ltac slice_eq := solve [ unfold footer_tail; rewrite <- ?app_assoc; reflexivity ].
Ltac slice_len := solve [ unfold footer_tail; flen ].

(** [slice lo hi l], for an [l] that starts with [p ++ q], is [q]. *)
Ltac slice_is lo hi p q :=
  match goal with |- context [slice lo hi ?l] =>
    let H := fresh in
    assert (slice lo hi l = q) as H
      by (first [ eapply (slice_at lo hi p q); [ slice_eq | slice_len | slice_len ]
                | eapply (slice_at_end lo hi p q); [ slice_eq | slice_len | slice_len ] ]);
    rewrite H; clear H
  end.

Ltac byte_is i p b :=
  match goal with |- context [byte_at ?l i] =>
    let H := fresh in
    assert (byte_at l i = b2z b) as H
      by (eapply (byte_at_mid i l p b);
          [ unfold footer_tail; rewrite <- ?app_assoc; reflexivity
          | apply Nat2Z.inj; fold (len p); flen ]);
    rewrite H; clear H; cbn [negb Z.eqb Pos.eqb]
  end.

Section footer_ok.
Context {B3 : Blake3}.

(** A footer the encoder writes passes the validation. *)
Lemma validateWithFooter_ok h hs offs uoffs nonce rest e :
  len hs <= MaxChunksPerXorb -> len offs = len hs -> len uoffs = len hs ->
  exists head tl,
    footer_bytes h hs offs uoffs nonce = head ++ tl /\ len head = 8 /\
    slice 0 7 head = xorbIdentifier /\
    validateWithFooter head h hs (Reader (tl ++ rest) e) = Ok (tt, Reader rest e).
Proof.
  intros Hn Ho Hu. pose proof (len_nonneg hs) as Hp. unfold MaxChunksPerXorb in *.
  destruct (footer_layout h hs offs uoffs nonce) as (hoff & boff & flen & -> & ->).
  eexists _, _. split; [reflexivity|]. split; [done|]. split; [done|].
  rewrite Ho, Hu. rewrite (u32_small (len hs)), u32_small by (unfold is_u32; lia).
  unfold validateWithFooter. change (byte_at _ 7) with 1. cbn [negb Z.eqb Pos.eqb].
  rewrite <- app_assoc, read_or_app by flen. cbn [mbind result_bind].
  slice_is 0 32 (@nil byte) (vec_to_list h). rewrite bool_decide_eq_false_2 by (by intros []).
  slice_is 32 39 (vec_to_list h) hashSectionIdent. rewrite bool_decide_eq_false_2 by (by intros []).
  byte_is 39%nat (vec_to_list h ++ hashSectionIdent) Byte.x00.
  slice_is 40 44 (vec_to_list h ++ hashSectionIdent ++ [Byte.x00]) (put_u32 (len hs)).
  rewrite le_val_put_u32 by (unfold is_u32; lia).
  unfold MaxChunksPerXorb. rewrite (proj2 (Z.ltb_ge 8192 _)) by lia.
  rewrite read_or_app by (unfold footer_tail; flen). cbn [mbind result_bind].
  set (n := len hs) in *. set (bOff := n * 32).
  set (flen := 92 + 32 * n + 4 * n + 4 * n).
  slice_is (n * 40 + 44 - 4) (n * 40 + 44) (footer_tail hs offs uoffs hoff boff nonce) (put_u32 flen).
  rewrite le_val_put_u32 by (unfold is_u32, flen; lia).
  rewrite (proj2 (Z.eqb_eq flen _)) by (unfold flen; lia). cbn [negb].
  unfold n at 1 2. rewrite u32_small, Z.eqb_refl by (unfold is_u32; fold n; lia). cbn [negb].
  set (rem := footer_tail hs offs uoffs hoff boff nonce ++ put_u32 flen).
  assert (check_hashes 0 hs rem = Ok tt) as ->
    by (unfold rem, footer_tail; rewrite <- app_assoc; apply (check_hashes_ok 0 hs []); done).
  cbn [mbind result_bind]. unfold rem. fold bOff. fold n.
  slice_is bOff (bOff + 7) (cat_hashes hs) boundarySectionIdent.
  rewrite bool_decide_eq_false_2 by (by intros []).
  byte_is (Z.to_nat (bOff + 7)) (cat_hashes hs ++ boundarySectionIdent) Byte.x01.
  slice_is (bOff + 8) (bOff + 12) (cat_hashes hs ++ boundarySectionIdent ++ [Byte.x01]) (put_u32 (u32 (len hs))).
  rewrite le_val_put_u32, u32_small, Z.eqb_refl by (apply u32_range || (unfold is_u32; lia)). cbn [negb].
  slice_is (bOff + 12 + n * 4 + n * 4) (bOff + 12 + n * 4 + n * 4 + 4)
    (cat_hashes hs ++ boundarySectionIdent ++ [Byte.x01] ++ put_u32 (u32 (len hs)) ++ cat_u32 offs ++ cat_u32 uoffs)
    (put_u32 (u32 (len hs))).
  rewrite le_val_put_u32, u32_small, Z.eqb_refl by (apply u32_range || (unfold is_u32; lia)). cbn [negb].
  slice_is (bOff + 12 + n * 4 + n * 4 + 16) (bOff + 12 + n * 4 + n * 4 + 28)
    (cat_hashes hs ++ boundarySectionIdent ++ [Byte.x01] ++ put_u32 (u32 (len hs)) ++ cat_u32 offs ++ cat_u32 uoffs
       ++ put_u32 (u32 (len hs)) ++ put_u32 hoff ++ put_u32 boff ++ vec_to_list nonce)
    (replicate 12 Byte.x00).
  fold n. rewrite Z.eqb_refl. by rewrite bool_decide_eq_false_2 by (by intros []).
Qed.
End footer_ok.

(** ** Streams of frames *)

Section streams.
Context {B3 : Blake3} {L : Lz4} {P : ChunkBufs}.

(** [bytes] starts with stored chunks that decode to [ds], and goes on with [rest]. *)
Inductive frames : list byte -> list (list byte) -> list byte -> Prop :=
| frames_nil rest : frames rest [] rest
| frames_cons hdr h body d tl ds rest :
    len hdr = 8 -> slice 0 7 hdr <> xorbIdentifier -> ParseChunkHeader hdr = Ok h ->
    CompressedSize h <= maxChunkSize -> DecodeChunk out_buf h body = Ok d ->
    frames tl ds rest -> frames (hdr ++ body ++ tl) (d :: ds) rest.

(** The validator's state after the chunks [ds]. *)
Definition v_after (ds : list (list byte)) (st : vstate) : Prop :=
  v_chunkHashes st = map ComputeChunkHash ds /\ v_chunkSizes st = map len ds /\
  v_unpackedEndOffset st = sum (map len ds).

Definition v_add (h : ChunkHeader) (d : list byte) (st : vstate) : vstate :=
  VState (v_chunkHashes st ++ [ComputeChunkHash d]) (v_chunkSizes st ++ [UncompressedSize h])
    (u64 (v_packedEndOffset st + (8 + CompressedSize h)))
    (u64 (v_unpackedEndOffset st + UncompressedSize h)).

Lemma DecodeChunk_frame hdr h body d :
  ParseChunkHeader hdr = Ok h -> DecodeChunk out_buf h body = Ok d ->
  len d = UncompressedSize h /\ len body = CompressedSize h /\ len d <= MaxChunkSize.
Proof.
  intros (_ & Hu & _)%ParseChunkHeader_Ok [Hd Hb]%DecodeChunk_len; [|lia].
  split; [done|]. split; [done|lia].
Qed.

Lemma v_after_add ds st hdr h body d :
  v_after ds st -> within_limits (ds ++ [d]) ->
  ParseChunkHeader hdr = Ok h -> DecodeChunk out_buf h body = Ok d ->
  v_after (ds ++ [d]) (v_add h d st).
Proof.
  intros (Hh & Hs & Hu) Hl Hp Hd. destruct (DecodeChunk_frame _ _ _ _ Hp Hd) as (Hlen & _ & _).
  unfold v_after, v_add. cbn. rewrite Hh, Hs, Hu, sum_len_snoc, !map_app, <- Hlen.
  split; [done|]. split; [done|].
  destruct Hl as (_ & _ & Hl). rewrite sum_len_snoc in Hl. pose proof (sum_len_nonneg ds).
  pose proof (len_nonneg d). rewrite u64_small; [done|]. unfold is_u64, MaxXorbSize in *. lia.
Qed.

(** One round over a frame. *)
Lemma validate_frame fuel h0 st ds hdr h body d tl e :
  within_limits ds -> v_after ds st ->
  len hdr = 8 -> slice 0 7 hdr <> xorbIdentifier -> ParseChunkHeader hdr = Ok h ->
  CompressedSize h <= maxChunkSize -> DecodeChunk out_buf h body = Ok d ->
  within_limits (ds ++ [d]) ->
  validate_loop (S fuel) h0 st (Reader (hdr ++ body ++ tl) e) =
  validate_loop fuel h0 (v_add h d st) (Reader tl e).
Proof.
  intros H0 (Hh & Hs & Hu) H8 Hi Hp Hc Hd Hl. cbn [validate_loop].
  destruct (DecodeChunk_frame _ _ _ _ Hp Hd) as (Hlen & Hb & _).
  apply within_limits_snoc in Hl as (L1 & L2 & L3); [|done].
  pose proof (sum_len_nonneg ds). pose proof (len_nonneg d).
  rewrite (ReadFull_app_n 8) by done. rewrite bool_decide_eq_false_2, Hp by done. cbn [mbind result_bind].
  rewrite (proj2 (Z.ltb_ge maxChunkSize _)) by done.
  rewrite Hh, len_map, (proj2 (Z.leb_gt _ _)) by done.
  rewrite Hu, u64_small by (unfold is_u64, MaxXorbSize in *; pose proof (len_nonneg d); lia).
  rewrite !(proj2 (Z.ltb_ge _ _)) by lia. cbn [orb].
  rewrite read_or_app by done. cbn [mbind result_bind]. rewrite Hd. cbn [mbind result_bind wrap_err].
  unfold v_add. by rewrite Hh, Hu.
Qed.

Lemma validate_frames fuel h0 st ds0 bytes ds rest e :
  frames bytes ds rest -> within_limits ds0 -> within_limits (ds0 ++ ds) -> v_after ds0 st ->
  exists st', v_after (ds0 ++ ds) st' /\
    validate_loop (length ds + fuel) h0 st (Reader bytes e) =
    validate_loop fuel h0 st' (Reader rest e).
Proof.
  intros Hf. revert ds0 st. induction Hf as [rest|hdr h body d tl ds rest H8 Hi Hp Hc Hd _ IH];
    intros ds0 st H0 Hl Hst.
  - exists st. by rewrite app_nil_r.
  - replace (ds0 ++ d :: ds) with ((ds0 ++ [d]) ++ ds) in * by (by rewrite <- app_assoc).
    pose proof (within_limits_app _ _ Hl) as Hl1.
    destruct (IH (ds0 ++ [d]) (v_add h d st)) as (st' & Hst' & Heq);
      [done|done|by eapply v_after_add|].
    exists st'. split; [done|]. rewrite <- Heq. cbn [length Nat.add].
    by apply (validate_frame _ _ _ ds0).
Qed.

(** What the validator has established when it accepts: the chunks the stream
    decodes to, within the limits, with the claimed Merkle root. *)
Lemma validate_sound fuel h0 st ds0 r r' :
  within_limits ds0 -> v_after ds0 st -> validate_loop fuel h0 st r = Ok r' ->
  exists ds rest, frames (rdata r) ds rest /\ within_limits (ds0 ++ ds) /\
    ComputeXorbHash (map ComputeChunkHash (ds0 ++ ds)) (map len (ds0 ++ ds)) = Ok h0 /\
    (rest = [] /\ rend r = EOF \/
     exists hdr tl, rest = hdr ++ tl /\ len hdr = 8 /\ slice 0 7 hdr = xorbIdentifier).
Proof.
  revert st ds0 r. induction fuel as [|fuel IH]; intros st ds0 r H0 Hst; [done|].
  cbn [validate_loop]. destruct Hst as (Hh & Hs & Hu).
  assert (forall k, (checkXorbHash h0 (v_chunkHashes st) (v_chunkSizes st) ≫= k) = Ok r' ->
    ComputeXorbHash (map ComputeChunkHash ds0) (map len ds0) = Ok h0) as Hroot.
  { intros k. unfold checkXorbHash. rewrite Hh, Hs.
    destruct (ComputeXorbHash _ _) as [c|]; [|done]. cbn. by case_bool_decide; [|subst]. }
  destruct (ReadFull 8 r) as [[hdr [e|]] r1] eqn:Er.
  - case_bool_decide as He; [|done]. subst e. intros Hc.
    apply ReadFull_EOF in Er as [-> He]; [|done].
    exists [], []. rewrite app_nil_r. split; [constructor|]. split; [done|]. split; [|by left].
    by eapply Hroot.
  - apply ReadFull_Some in Er as (Hr & H8 & He1); [|done]. case_bool_decide as Hi.
    + intros Hc%Hroot. exists [], (rdata r). rewrite app_nil_r. split; [constructor|].
      split; [done|]. split; [done|]. right. by exists hdr, (rdata r1).
    + destruct (ParseChunkHeader hdr) as [h|] eqn:Hp; [|done]. cbn [mbind result_bind].
      destruct (Z.ltb_spec maxChunkSize (CompressedSize h)) as [|Hc]; [done|].
      rewrite Hh, len_map. destruct (Z.leb_spec MaxChunksPerXorb (len ds0)) as [|H2]; [done|].
      rewrite Hu. destruct (orb _ _) eqn:H3; [done|]. apply orb_false_iff in H3 as [_ H3].
      apply Z.ltb_ge in H3. rewrite u64_small in H3
        by (destruct H0 as (_ & _ & ?); pose proof (sum_len_nonneg ds0); unfold is_u64, MaxXorbSize in *; lia).
      destruct (read_or _ _ r1) as [[body r2]|] eqn:Eb; [|done]. cbn [mbind result_bind].
      destruct (DecodeChunk out_buf h body) as [d|] eqn:Hd; [|done]. cbn [mbind result_bind wrap_err].
      destruct (DecodeChunk_frame _ _ _ _ Hp Hd) as (Hlen & Hbl & Hmax).
      apply read_or_Ok in Eb as (Hr1 & _ & He2); [|apply ParseChunkHeader_Ok in Hp; lia].
      assert (within_limits (ds0 ++ [d])) as Hl by (apply within_limits_snoc; [done|lia]).
      intros Hv. apply (IH _ (ds0 ++ [d])) in Hv as (ds & rest & Hf & Hw & Hx & Hrest); [|done|].
      * exists (d :: ds), rest. rewrite Hr, Hr1. split; [by econstructor|].
        rewrite <- app_assoc in Hw, Hx. by rewrite He2, He1 in Hrest.
      * rewrite <- Hh, <- Hu. by eapply (v_after_add _ st).
Qed.

(** ** The decoder over a stream of frames *)

Definition dec_after (wf : bool) (r : reader) (ds : list (list byte)) : Decoder :=
  MkDecoder r wf (map ComputeChunkHash ds) (map len ds) (sum (map len ds)) false None None.

Lemma decode_frame plen wf ds hdr h body d tl e :
  maxChunkSize <= plen < 2 ^ 32 ->
  within_limits ds -> len hdr = 8 -> slice 0 7 hdr <> xorbIdentifier ->
  ParseChunkHeader hdr = Ok h -> CompressedSize h <= maxChunkSize ->
  DecodeChunk out_buf h body = Ok d -> within_limits (ds ++ [d]) ->
  Decoder_Read plen (dec_after wf (Reader (hdr ++ body ++ tl) e) ds) =
    (Ok d, dec_after wf (Reader tl e) (ds ++ [d])).
Proof.
  intros Hplen H0 H8 Hi Hp Hc Hd Hl. unfold Decoder_Read. cbn [dec_after d_err d_done d_r].
  destruct (DecodeChunk_frame _ _ _ _ Hp Hd) as (Hlen & Hb & Hmax).
  apply within_limits_snoc in Hl as (L1 & L2 & L3); [|done].
  pose proof (sum_len_nonneg ds). pose proof (len_nonneg d).
  rewrite (ReadFull_app_n 8) by done. rewrite bool_decide_eq_false_2, Hp by done.
  rewrite u32_small by (unfold is_u32, maxChunkSize in *; lia).
  rewrite (proj2 (Z.ltb_ge plen _)) by lia.
  cbn [dec_after d_set_r d_chunkHashes d_rawSize d_r]. rewrite len_map, (proj2 (Z.leb_gt _ _)) by done.
  rewrite u64_small by (unfold is_u64, MaxXorbSize in *; lia).
  rewrite !(proj2 (Z.ltb_ge _ _)) by lia. cbn [orb].
  rewrite <- Hb, ReadFull_app, Hd. rewrite (proj2 (Z.ltb_ge _ _)) by (unfold maxChunkSize, MaxChunkSize in *; lia).
  unfold d_add_chunk, dec_after. cbn. rewrite sum_len_snoc, !map_app, <- Hlen, u64_small; [done|].
  unfold is_u64, MaxXorbSize in *. lia.
Qed.

Lemma decode_frames fuel plen wf ds0 bytes ds rest e :
  maxChunkSize <= plen < 2 ^ 32 ->
  frames bytes ds rest -> within_limits ds0 -> within_limits (ds0 ++ ds) ->
  read_all (length ds + fuel) plen (dec_after wf (Reader bytes e) ds0) =
    let '(cs, e', d) := read_all fuel plen (dec_after wf (Reader rest e) (ds0 ++ ds)) in
    (ds ++ cs, e', d).
Proof.
  intros Hplen Hf. revert ds0. induction Hf as [rest|hdr h body d tl ds rest H8 Hi Hp Hc Hd _ IH];
    intros ds0 H0 Hl.
  - rewrite app_nil_r. cbn [length Nat.add app]. by destruct (read_all fuel plen _) as [[]].
  - replace (ds0 ++ d :: ds) with ((ds0 ++ [d]) ++ ds) in * by (by rewrite <- app_assoc).
    pose proof (within_limits_app _ _ Hl) as Hl1. cbn [length Nat.add read_all].
    rewrite (decode_frame plen wf ds0 hdr h body d tl e) by done.
    rewrite IH by done. by destruct (read_all fuel plen _) as [[]].
Qed.
End streams.

(** ** Encoder output *)

Section roundtrip.
Context {B3 : Blake3} {L : Lz4} {LL : Lz4Laws L} {P : ChunkBufs}.

Lemma len_out_buf : len (selems out_buf) = maxChunkSize /\ scap out_buf = maxChunkSize.
Proof.
  unfold out_buf, scap. cbn [selems sspare]. rewrite GetChunkBuf_len, len_nil. split; [done|lia].
Qed.

Lemma frames_encode ds rest :
  Forall (fun d => len d <= MaxChunkSize) ds -> frames (concat (map frame ds) ++ rest) ds rest.
Proof.
  induction 1 as [|d ds Hd _ IH]; [constructor|]. cbn [map concat]. unfold frame at 1.
  destruct (selectBestCompression d) as [c ty] eqn:E.
  pose proof (selectBestCompression_spec _ _ _ Hd E) as [Hle Hty].
  pose proof (len_nonneg c). pose proof (len_nonneg d). destruct len_out_buf as [Hb1 Hb2].
  unfold maxChunkSize, MaxChunkSize in *. rewrite <- !app_assoc.
  eapply (frames_cons _ (MkChunkHeader (len c) (len d) ty)); [done|done| | | |done].
  - rewrite <- (app_nil_r (header_bytes _ _ _)). apply parse_header_bytes; unfold MaxChunkSize; [lia| |lia].
    unfold CompressionNone, CompressionLZ4, CompressionByteGrouping4 in Hty. lia.
  - cbn. unfold maxChunkSize. lia.
  - apply DecodeChunk_select; unfold MaxChunkSize; [lia..|done].
Qed.

(** The bytes of a finished xorb. *)
Definition xorb_bytes (withFooter : bool) (nonce : vec byte 4) (h : XorbHash) (ds : list (list byte)) :
    list byte :=
  concat (map frame ds) ++
  if withFooter then footer_bytes h (map ComputeChunkHash ds)
    (ends 0 (map (fun d => len (frame d)) ds)) (ends 0 (map len ds)) nonce
  else [].

Lemma xorb_footer_ok nonce h ds :
  within_limits ds ->
  exists head tl,
    footer_bytes h (map ComputeChunkHash ds) (ends 0 (map (fun d => len (frame d)) ds))
      (ends 0 (map len ds)) nonce = head ++ tl /\ len head = 8 /\
    slice 0 7 head = xorbIdentifier /\
    validateWithFooter head h (map ComputeChunkHash ds) (Reader tl EOF) = Ok (tt, Reader [] EOF).
Proof.
  intros (_ & Hn & _).
  destruct (validateWithFooter_ok h (map ComputeChunkHash ds) (ends 0 (map (fun d => len (frame d)) ds))
    (ends 0 (map len ds)) nonce [] EOF) as (head & tl & E & H8 & Hi & Hv).
  - by rewrite len_map.
  - unfold len. by rewrite length_ends, !length_map.
  - unfold len. by rewrite length_ends, !length_map.
  - exists head, tl. rewrite app_nil_r in Hv. done.
Qed.

Lemma Validate_encoded wf nonce h ds :
  within_limits ds -> ComputeXorbHash (map ComputeChunkHash ds) (map len ds) = Ok h ->
  Validate (Reader (xorb_bytes wf nonce h ds) EOF) h = Ok tt.
Proof.
  intros Hds Hh. unfold Validate, validate_stream, xorb_bytes. cbn [rdata].
  set (tail := if wf then _ else _).
  assert (length ds <= length (concat (map frame ds) ++ tail))%nat as Hfuel.
  { clearbody tail. destruct Hds as (Hd & _). clear -Hd LL. rewrite length_app.
    induction Hd as [|d ds Hd _ IH]; [cbn; lia|]. cbn [map concat length]. rewrite length_app.
    pose proof (len_frame d Hd). unfold len in *. lia. }
  replace (S (length (concat (map frame ds) ++ tail))) with
    (length ds + S (length (concat (map frame ds) ++ tail) - length ds))%nat by lia.
  destruct (validate_frames (S (length (concat (map frame ds) ++ tail) - length ds)) h (VState [] [] 0 0) []
    _ ds tail EOF (frames_encode ds tail (proj1 Hds))) as (st & (Hsh & Hss & Hsu) & ->);
    [repeat split; [constructor|done..]|done|done|].
  cbn [app validate_loop] in *.
  assert (checkXorbHash h (v_chunkHashes st) (v_chunkSizes st) = Ok tt) as Hck.
  { unfold checkXorbHash. rewrite Hsh, Hss, Hh. cbn. by rewrite bool_decide_eq_false_2 by (by intros []). }
  rewrite Hck. subst tail. destruct wf; [|done].
  destruct (xorb_footer_ok nonce h ds Hds) as (head & tl & -> & H8 & Hi & Hv).
  rewrite (ReadFull_app_n 8) by done. rewrite bool_decide_eq_true_2 by done. cbn [mbind result_bind].
  by rewrite Hsh, Hv.
Qed.

Lemma decode_end plen wf ff nonce h ds :
  (wf = true -> ff = true) -> within_limits ds ->
  ComputeXorbHash (map ComputeChunkHash ds) (map len ds) = Ok h ->
  exists d', Decoder_Read plen (dec_after wf (Reader (
      if ff then footer_bytes h (map ComputeChunkHash ds)
        (ends 0 (map (fun d => len (frame d)) ds)) (ends 0 (map len ds)) nonce else []) EOF) ds) =
      (Err EOF, d') /\
    d_done d' = true /\ Chunks d' = (map ComputeChunkHash ds, map len ds) /\
    (Decoder_SummoryHash d').1 = Ok h.
Proof.
  intros Hwf Hds Hh. unfold Decoder_Read. cbn [dec_after d_err d_done d_r].
  destruct ff.
  - destruct (xorb_footer_ok nonce h ds Hds) as (head & tl & -> & H8 & Hi & Hv).
    rewrite (ReadFull_app_n 8) by done. rewrite bool_decide_eq_true_2 by done.
    cbn [d_withFooter d_set_r dec_after]. destruct wf; cbn [negb].
    + unfold Decoder_SummoryHash. cbn [d_xorbHash dec_after d_set_r d_chunkHashes d_chunkSizes].
      rewrite Hh. cbn [mbind result_bind d_set_xorbHash d_set_r dec_after d_chunkHashes d_r]. rewrite Hv.
      eexists. split; [reflexivity|]. done.
    + eexists. split; [reflexivity|]. split; [done|]. split; [done|].
      unfold Decoder_SummoryHash. cbn. by rewrite Hh.
  - destruct wf; [by specialize (Hwf eq_refl)|].
    eexists. split; [reflexivity|]. split; [done|]. split; [done|].
    unfold Decoder_SummoryHash. cbn. by rewrite Hh.
Qed.

(** C36: decoding undoes encoding.  For chunks within the limits, a session of
    the encoder (with or without footer, with any uniqueness nonce) succeeds,
    and a decoder over the bytes it wrote returns exactly the chunks and then
    [EOF], having accepted the footer if it expects one, and its summary hash
    is the encoder's.  A decoder that expects no footer also reads a xorb that
    has one. *)
Theorem encode_decode plen wf ff nonce ds h :
  maxChunkSize <= plen < 2 ^ 32 -> (wf = true -> ff = true) -> within_limits ds ->
  ComputeXorbHash (map ComputeChunkHash ds) (map len ds) = Ok h ->
  exists e d',
    encode (SetUniquenessNonce nonce (NewEncoder [] ff)).2 ds = Ok e /\
    (Encoder_SummoryHash e).1 = Ok h /\
    read_all (S (length ds)) plen (NewDecoder (Reader (e_w e) EOF) wf) = (ds, EOF, d') /\
    Chunks d' = (map ComputeChunkHash ds, map len ds) /\
    (Decoder_SummoryHash d').1 = Ok h.
Proof.
  intros Hplen Hwf Hds Hh.
  assert (within_limits []) as Hnil by (repeat split; [constructor|done..]).
  destruct (encode_spec [] ff nonce ds h Hds Hh) as (e & He & _ & _ & Hw & Hsum).
  destruct (decode_end plen wf ff nonce h ds Hwf Hds Hh) as (d' & Hd & Hdone & Hchunks & Hs).
  exists e, d'. rewrite (enc_after_start [] ff nonce) in He. split; [done|]. split; [done|].
  split; [|done]. cbn [app] in Hw. rewrite Hw.
  change (NewDecoder ?r wf) with (dec_after wf r []).
  rewrite <- Nat.add_1_r, (decode_frames 1 plen wf [] _ ds _ EOF Hplen
    (frames_encode ds _ (proj1 Hds)) Hnil Hds).
  cbn [read_all app]. rewrite Hd. by rewrite app_nil_r.
Qed.

(** What a session that succeeded has written. *)
Lemma encode_Ok ff nonce ds e :
  encode (SetUniquenessNonce nonce (NewEncoder [] ff)).2 ds = Ok e ->
  within_limits ds /\ exists h, e_w e = xorb_bytes ff nonce h ds /\
    ComputeXorbHash (map ComputeChunkHash ds) (map len ds) = Ok h /\
    (Encoder_SummoryHash e).1 = Ok h.
Proof.
  rewrite <- enc_after_start. intros He.
  assert (within_limits []) as Hnil by (repeat split; [constructor|done..]).
  assert (within_limits ds) as Hds.
  { destruct (decide (within_limits ds)) as [|Hn]; [done|].
    destruct (proj2 (write_chunks_spec [] ff nonce [] ds Hnil) Hn) as [err Herr].
    unfold encode in He. by rewrite Herr in He. }
  split; [done|].
  destruct (ComputeXorbHash (map ComputeChunkHash ds) (map len ds)) as [h|] eqn:Hr.
  2: { apply ComputeXorbHash_fail in Hr. by rewrite !length_map in Hr. }
  destruct (encode_spec [] ff nonce ds h Hds Hr) as (e' & He' & _ & _ & Hw & Hh).
  rewrite He in He'. injection He' as <-. by exists h.
Qed.

(** [Validate] accepts, under the encoder's summary hash, every xorb the
    encoder writes. *)
Theorem Validate_accepts_encoded ff nonce ds e h :
  encode (SetUniquenessNonce nonce (NewEncoder [] ff)).2 ds = Ok e ->
  (Encoder_SummoryHash e).1 = Ok h ->
  Validate (Reader (e_w e) EOF) h = Ok tt.
Proof.
  intros (Hds & h' & -> & Hr & Hh')%encode_Ok Hh. rewrite Hh in Hh'. injection Hh' as <-.
  by apply Validate_encoded.
Qed.
End roundtrip.

(** ** Validating through a tee *)

Section tee.
Context {B3 : Blake3} {L : Lz4} {P : ChunkBufs}.

Lemma validateWithFooter_prefix hdr h hs : prefix_det (validateWithFooter hdr h hs).
Proof.
  unfold validateWithFooter. prefix_det.
  apply prefix_det_read. pose proof (le_val_range (slice 40 44 a)). lia.
Qed.

(** What the validator has read is a valid stream of its own. *)
Lemma validate_prefix fuel h0 st r r' :
  validate_loop fuel h0 st r = Ok r' ->
  exists pre, rdata r = pre ++ rdata r' /\ validate_loop fuel h0 st (Reader pre EOF) = Ok (Reader [] EOF).
Proof.
  revert st r. induction fuel as [|fuel IH]; intros st r; [done|]. cbn [validate_loop].
  destruct (ReadFull 8 r) as [[hdr [e|]] r1] eqn:Er.
  - case_bool_decide as He; [|done]. subst e. pose proof Er as Er'.
    apply ReadFull_EOF in Er as [Hr He]; [|done]. destruct r as [data re]. cbn in Hr, He. subst data re.
    change (ReadFull 8 (Reader [] EOF)) with (@nil byte, Some EOF, Reader [] EOF) in Er'.
    injection Er' as <- <-. destruct (checkXorbHash _ _ _) as [|] eqn:Ec; cbn [mbind result_bind]; [|done].
    intros [= <-]. exists []. split; [done|].
    change (ReadFull 8 (Reader [] EOF)) with (@nil byte, Some EOF, Reader [] EOF). cbv iota beta.
    by rewrite bool_decide_eq_true_2.
  - apply ReadFull_Some in Er as (Hr & H8 & He1); [|done]. rewrite Hr.
    case_bool_decide as Hi.
    + destruct (checkXorbHash _ _ _) as [|] eqn:Ec; cbn [mbind result_bind]; [|done].
      destruct (validateWithFooter _ _ _ r1) as [[[] r2]|] eqn:Ev; cbn [mbind result_bind]; [|done].
      intros [= <-]. apply validateWithFooter_prefix in Ev as (pre & Hr1 & _ & Hv).
      exists (hdr ++ pre). split; [by rewrite Hr1, app_assoc|].
      rewrite (ReadFull_app_n 8) by done. rewrite bool_decide_eq_true_2 by done. cbn [mbind result_bind].
      rewrite <- (app_nil_r pre), Hv. done.
    + destruct (ParseChunkHeader hdr) as [h|] eqn:Hp; cbn [mbind result_bind]; [|done].
      case_match eqn:C1; [done|]. case_match eqn:C2; [done|]. case_match eqn:C3; [done|].
      destruct (read_or _ _ r1) as [[body r2]|] eqn:Eb; cbn [mbind result_bind]; [|done].
      destruct (wrap_err _ _) as [d|] eqn:Hd; cbn [mbind result_bind]; [|done].
      apply read_or_Ok in Eb as (Hr1 & Hl & _); [|apply ParseChunkHeader_Ok in Hp; lia].
      intros (pre & Hr2 & Hv)%IH. exists (hdr ++ body ++ pre). split; [by rewrite Hr1, Hr2, !app_assoc|].
      rewrite (ReadFull_app_n 8) by done. rewrite bool_decide_eq_false_2, Hp by done. cbn [mbind result_bind].
      rewrite C1, read_or_app by done. cbn [mbind result_bind]. rewrite C3, Hd. exact Hv.
Qed.

(** Fuel for every byte of the stream is enough. *)
Lemma validate_fuel fuel fuel' h0 st r :
  (length (rdata r) < fuel)%nat -> (length (rdata r) < fuel')%nat ->
  validate_loop fuel h0 st r = validate_loop fuel' h0 st r.
Proof.
  revert fuel' st r. induction fuel as [|fuel IH]; intros fuel' st r Hf Hf'; [lia|].
  destruct fuel' as [|fuel']; [lia|]. cbn [validate_loop].
  destruct (ReadFull 8 r) as [[hdr [e|]] r1] eqn:Er; [done|].
  apply ReadFull_Some in Er as (Hr & H8 & _); [|done].
  case_bool_decide; [done|]. destruct (ParseChunkHeader hdr) as [h|] eqn:Hp; cbn [mbind result_bind]; [|done].
  case_match; [done|]. case_match; [done|]. case_match; [done|].
  destruct (read_or _ _ r1) as [[body r2]|] eqn:Eb; cbn [mbind result_bind]; [|done].
  apply read_or_Ok in Eb as (Hr1 & _ & _); [|apply ParseChunkHeader_Ok in Hp; lia].
  destruct (wrap_err _ _); cbn [mbind result_bind]; [|done].
  apply (f_equal length) in Hr, Hr1. rewrite length_app in Hr, Hr1. unfold len in H8.
  apply IH; lia.
Qed.
End tee.

Section validate_props.
Context {B3 : Blake3} {L : Lz4} {P : ChunkBufs}.

(** The chunks a decoder reads from the stream. *)
Definition decodes_to (r : reader) (ds : list (list byte)) : Prop :=
  forall plen, maxChunkSize <= plen < 2 ^ 32 ->
  exists d', read_all (S (length ds)) plen (NewDecoder r false) = (ds, EOF, d').

Lemma Validate_decodes r h :
  Validate r h = Ok tt ->
  exists ds, decodes_to r ds /\ within_limits ds /\
    ComputeXorbHash (map ComputeChunkHash ds) (map len ds) = Ok h.
Proof.
  assert (within_limits []) as Hnil by (repeat split; [constructor|done..]).
  intros Hv. destruct r as [bytes re].
  assert (v_after [] (VState [] [] 0 0)) as Hv0 by done.
  unfold Validate, validate_stream in Hv. inv_bind.
  match goal with E : validate_loop _ _ _ _ = Ok _ |- _ =>
    destruct (validate_sound _ _ _ [] _ _ Hnil Hv0 E) as (ds & rest & Hf & Hl & Hx & Hrest) end.
  exists ds. split; [|done]. intros plen Hplen. cbn [rdata rend app] in *.
  change (NewDecoder ?r ?wf) with (dec_after wf r []).
  rewrite <- Nat.add_1_r, (decode_frames 1 plen false [] _ ds _ re Hplen Hf Hnil Hl).
  cbn [read_all app]. unfold Decoder_Read. cbn [dec_after d_err d_done d_r].
  destruct Hrest as [[-> ->]|(hdr & tl & -> & H8 & Hi)].
  - exists (d_set_done (dec_after false (Reader [] EOF) ds)).
    transitivity (ds ++ [], EOF, d_set_done (dec_after false (Reader [] EOF) ds));
      [reflexivity|by rewrite app_nil_r].
  - rewrite (ReadFull_app_n 8) by done. rewrite bool_decide_eq_true_2 by done.
    eexists. cbn. by rewrite app_nil_r.
Qed.

(** C37: a xorb is identified by its hash.  When [Validate] accepts a stream
    under [h], a decoder reads it to its end and its chunks are within the
    limits and have Merkle root [h]; and two streams accepted under the same
    [h] decode to the same chunks, unless two of the digests computed for them
    collide. *)
Theorem Validate_binding r r' h :
  Validate r h = Ok tt -> Validate r' h = Ok tt ->
  exists ds ds', decodes_to r ds /\ decodes_to r' ds' /\ within_limits ds /\ within_limits ds' /\
    ComputeXorbHash (map ComputeChunkHash ds) (map len ds) = Ok h /\
    (ds <> [] -> ds' <> [] -> collision_free (xorb_queries ds ++ xorb_queries ds') -> ds = ds').
Proof.
  intros (ds & Hd & Hl & Hx)%Validate_decodes (ds' & Hd' & Hl' & Hx')%Validate_decodes.
  exists ds, ds'. repeat (split; [done|]). intros Hne Hne' HQ.
  assert (forall l : list (list byte), within_limits l -> Forall (fun d => is_u64 (len d)) l) as Hu.
  { intros l (Hf & _). eapply Forall_impl; [exact Hf|]. intros d ?.
    pose proof (len_nonneg d). unfold is_u64, MaxChunkSize in *. cbn in *. lia. }
  eapply (xorb_hash_inj _ ds ds' h); eauto; intros q Hq; apply elem_of_app; auto.
Qed.
End validate_props.

(** ** Witnesses *)

Definition wit_root : XorbHash :=
  match ComputeXorbHash (B3 := poly_blake3) (map (ComputeChunkHash (B3 := poly_blake3)) wit_chunks)
          (map len wit_chunks) with
  | Ok h => h
  | Err _ => zeroHash
  end.

Lemma wit_root_eq :
  ComputeXorbHash (B3 := poly_blake3) (map (ComputeChunkHash (B3 := poly_blake3)) wit_chunks)
    (map len wit_chunks) = Ok wit_root.
Proof. vm_compute. reflexivity. Qed.

Lemma wit_limits : within_limits wit_chunks.
Proof. repeat split; [repeat constructor|..]; vm_compute; congruence. Qed.

Definition wit_nonce : vec byte 4 := to_arr 4 (str "abcd").

Lemma encode_decode_witness :
  exists e d',
    encode (B3 := poly_blake3) (L := rle_lz4) (P := zero_bufs)
      (SetUniquenessNonce wit_nonce (NewEncoder [] true)).2 wit_chunks = Ok e /\
    (Encoder_SummoryHash (B3 := poly_blake3) e).1 = Ok wit_root /\
    read_all (B3 := poly_blake3) (L := rle_lz4) (P := zero_bufs) 3 maxChunkSize
      (NewDecoder (Reader (e_w e) EOF) true) = (wit_chunks, EOF, d') /\
    Chunks d' = (map (ComputeChunkHash (B3 := poly_blake3)) wit_chunks, map len wit_chunks) /\
    (Decoder_SummoryHash (B3 := poly_blake3) d').1 = Ok wit_root.
Proof.
  apply (encode_decode (B3 := poly_blake3) (L := rle_lz4) (P := zero_bufs) maxChunkSize true true
           wit_nonce wit_chunks wit_root).
  - unfold maxChunkSize. lia.
  - done.
  - apply wit_limits.
  - apply wit_root_eq.
Defined.

Lemma Validate_accepts_encoded_witness :
  exists e,
    encode (B3 := poly_blake3) (L := rle_lz4) (P := zero_bufs)
      (SetUniquenessNonce wit_nonce (NewEncoder [] true)).2 wit_chunks = Ok e /\
    Validate (B3 := poly_blake3) (L := rle_lz4) (P := zero_bufs) (Reader (e_w e) EOF) wit_root = Ok tt.
Proof.
  destruct (encode_spec (B3 := poly_blake3) (L := rle_lz4) (P := zero_bufs) [] true wit_nonce wit_chunks
    wit_root wit_limits wit_root_eq) as (e & He & _ & _ & _ & Hs).
  rewrite enc_after_start in He. exists e. split; [exact He|].
  exact (Validate_accepts_encoded (B3 := poly_blake3) (L := rle_lz4) (P := zero_bufs)
           true wit_nonce wit_chunks e wit_root He Hs).
Defined.

Lemma Validate_binding_witness :
  exists ds ds',
    decodes_to (B3 := poly_blake3) (L := rle_lz4) (P := zero_bufs) (Reader
      (xorb_bytes (B3 := poly_blake3) (L := rle_lz4) (P := zero_bufs) false wit_nonce wit_root wit_chunks) EOF) ds /\
    decodes_to (B3 := poly_blake3) (L := rle_lz4) (P := zero_bufs) (Reader
      (xorb_bytes (B3 := poly_blake3) (L := rle_lz4) (P := zero_bufs) true wit_nonce wit_root wit_chunks) EOF) ds' /\
    within_limits ds /\ within_limits ds'.
Proof.
  destruct (Validate_binding (B3 := poly_blake3) (L := rle_lz4) (P := zero_bufs)
    (Reader (xorb_bytes (B3 := poly_blake3) (L := rle_lz4) (P := zero_bufs) false wit_nonce wit_root wit_chunks) EOF)
    (Reader (xorb_bytes (B3 := poly_blake3) (L := rle_lz4) (P := zero_bufs) true wit_nonce wit_root wit_chunks) EOF)
    wit_root) as (ds & ds' & H1 & H2 & H3 & H4 & _).
  - apply Validate_encoded; [apply wit_limits|apply wit_root_eq].
  - apply Validate_encoded; [apply wit_limits|apply wit_root_eq].
  - exists ds, ds'. exact (conj H1 (conj H2 (conj H3 H4))).
Defined.
