(* ===== verification/XorbOffsets.v ===== *)
(** * Chunk offsets and grouping: [xorb/footer.go], [xorb/chunk_range.go],
    [xorb/group.go]

    The packed end-offsets of a xorb's chunks come from its footer
    ([ReadChunkOffsets]) or from a scan of its chunk headers
    ([ScanChunkOffsets]); byte ranges of chunk ranges come from the offsets
    ([ChunkDataRangeFromOffsets]) or from a scan ([ChunkDataRange]).  Proved:
    the two ways agree, and on encoder output both are the encoder's offsets.
    [GroupChunkIndicesBySize] partitions a chunk list within the xorb limits.

    A seekable stream is its bytes and the position; reads and seeks on it do
    not fail. *)

From Stdlib Require Import ZArith Lia Strings.Byte Strings.String.
From S2P Require Import Prelude Hash Gearhash Merkle ByteGrouping Compression XorbEncoder XorbDecoder.

Definition minFooterSize : Z := 96.

(** [io.ReadFull] at a position of the stream; the position moves past what was
    read.  Seeking past the end is allowed and makes the next read hit [EOF]. *)
Definition read_at (data : list byte) (pos n : Z) : list byte * option error :=
  let '(got, err, _) := ReadFull n (file_reader (drop (Z.to_nat pos) data)) in (got, err).

(** ** Offsets from the footer *)

(** The loop over [offsets]. *)
Fixpoint footer_offsets (count : nat) (pos prev : Z) (buf : list byte) : result (list Z * Z) :=
  match count with
  | O => Ok ([], prev)
  | S count =>
      let off := le_val (slice pos (pos + 4) buf) in
      if off <? u64 (prev + 8) then Err ErrNoFooter
      else
        '(offs, last) ← footer_offsets count (pos + 4) off buf;
        Ok (off :: offs, last)
  end.

Definition ReadChunkOffsets (data : list byte) : result (list Z) :=
  let size := len data in
  if size <? minFooterSize then Err ErrNoFooter
  else
    match read_at data (size - 4) 4 with
    | (_, Some e) => Err (Wrapf "read footer length: %w" e)
    | (lenBuf, None) =>
        let footerLen := le_val lenBuf in
        let total := footerLen + 4 in
        if (footerLen <? minFooterSize - 4) || (size <? total) || negb ((footerLen - 92) mod 40 =? 0)
        then Err ErrNoFooter
        else
          let numChunks := (footerLen - 92) / 40 in
          if MaxChunksPerXorb <? numChunks then Err ErrNoFooter
          else
            let footerStart := size - total in
            match read_at data footerStart total with
            | (_, Some e) => Err (Wrapf "read footer: %w" e)
            | (buf, None) =>
                if bool_decide (slice 0 7 buf <> xorbIdentifier) || negb (byte_at buf 7 =? 1)
                then Err ErrNoFooter
                else
                  let hOff := 40 in
                  if bool_decide (slice hOff (hOff + 7) buf <> hashSectionIdent)
                     || negb (byte_at buf (Z.to_nat (hOff + 7)) =? 0)
                  then Err ErrNoFooter
                  else if negb (le_val (slice (hOff + 8) (hOff + 12) buf) =? numChunks)
                  then Err ErrNoFooter
                  else
                    let bOff := hOff + 12 + numChunks * 32 in
                    if bool_decide (slice bOff (bOff + 7) buf <> boundarySectionIdent)
                       || negb (byte_at buf (Z.to_nat (bOff + 7)) =? 1)
                    then Err ErrNoFooter
                    else if negb (le_val (slice (bOff + 8) (bOff + 12) buf) =? numChunks)
                    then Err ErrNoFooter
                    else
                      let packedBase := bOff + 12 in
                      '(offsets, prev) ← footer_offsets (Z.to_nat numChunks) packedBase 0 buf;
                      if (0 <? numChunks) && negb (i64 prev =? footerStart)
                      then Err ErrNoFooter
                      else Ok offsets
            end
    end.

(** ** Offsets from a scan *)

Fixpoint scan_loop (fuel : nat) (data : list byte) (offset : Z) (offsets : list Z) : result (list Z) :=
  match fuel with
  | O => Err (Panic "out of fuel")
  | S fuel =>
      match read_at data offset 8 with
      | (headerBuf, Some e) =>
          if bool_decide (e = EOF) then Ok offsets
          else Err (Wrapf "read chunk header: %w" e)
      | (headerBuf, None) =>
          if bool_decide (slice 0 7 headerBuf = xorbIdentifier) then Ok offsets
          else if MaxChunksPerXorb <=? len offsets
          then Err (Errorf "chunk count exceeds maximum %d")
          else
            let compressedSize := le24 headerBuf 1 in
            let offset := i64 (offset + (8 + compressedSize)) in
            scan_loop fuel data offset (offsets ++ [u64 offset])
      end
  end.

(** Each round moves past a header, and stops after 8192 offsets in any case. *)
Definition ScanChunkOffsets (data : list byte) : result (list Z) :=
  scan_loop (S (S (Z.to_nat MaxChunksPerXorb))) data 0 [].

Fixpoint range_loop (fuel : nat) (data : list byte) (chunkStart chunkEnd idx offset startByte : Z) :
    result (Z * Z) :=
  match fuel with
  | O => Err (Panic "out of fuel")
  | S fuel =>
      match read_at data offset 8 with
      | (_, Some e) => Err e
      | (headerBuf, None) =>
          if bool_decide (slice 0 7 headerBuf = xorbIdentifier)
          then Err (Errorf "reached footer before finding chunkEnd: chunkEnd=%d, totalChunks=%d")
          else
            let headerStart := offset in
            let compressedSize := le24 headerBuf 1 in
            let offset := i64 (i64 (offset + 8) + compressedSize) in
            let startByte := if idx =? chunkStart then headerStart else startByte in
            if idx =? u32 (chunkEnd - 1) then Ok (startByte, offset - 1)
            else range_loop fuel data chunkStart chunkEnd (u32 (idx + 1)) offset startByte
      end
  end.

(** [ChunkDataRange] on a stream positioned at its start. *)
Definition ChunkDataRange (data : list byte) (chunkStart chunkEnd : Z) : result (Z * Z) :=
  if chunkEnd <=? chunkStart
  then Err (Errorf "invalid chunk range: chunkStart (%d) must be less than chunkEnd (%d)")
  else range_loop (S (length data)) data chunkStart chunkEnd 0 0 0.

Definition ChunkDataRangeFromOffsets (offsets : list Z) (chunkStart chunkEnd : Z) : result (Z * Z) :=
  if chunkEnd <=? chunkStart
  then Err (Errorf "invalid chunk range: chunkStart (%d) must be less than chunkEnd (%d)")
  else if len offsets <? chunkEnd
  then Err (Errorf "chunk range [%d, %d) out of bounds: xorb has %d chunks")
  else
    let startByte := if 0 <? chunkStart then i64 (offsets !!! Z.to_nat (chunkStart - 1)) else 0 in
    Ok (startByte, i64 (offsets !!! Z.to_nat (chunkEnd - 1)) - 1).

(** ** Grouping *)

Record gstate : Type := GState {
  g_groups : list (list Z);
  g_current : list Z;
  g_size : Z;
}.

Definition group_step (targetSize : Z) (st : gstate) (isz : Z * Z) : gstate :=
  let '(i, chunkSize) := isz in
  let st :=
    if (0 <? len (g_current st)) &&
       ((targetSize <? u64 (g_size st + chunkSize)) || (MaxChunksPerXorb <=? len (g_current st)))
    then GState (g_groups st ++ [g_current st]) [] 0
    else st in
  GState (g_groups st) (g_current st ++ [i]) (u64 (g_size st + chunkSize)).

Definition GroupChunkIndicesBySize (chunkSizes : list Z) (targetSize : Z) : list (list Z) :=
  let st := foldl (group_step targetSize) (GState [] [] 0) (zip (seqZ 0 (len chunkSizes)) chunkSizes) in
  if 0 <? len (g_current st) then g_groups st ++ [g_current st] else g_groups st.

(** ** Correctness of the grouping *)

Section grouping.
Context (sizes : list Z) (targetSize : Z).
Hypothesis sizes_u32 : Forall is_u32 sizes.

Definition size_at (i : Z) : Z := sizes !!! Z.to_nat i.
Definition gsize (g : list Z) : Z := sum (map size_at g).

(** Limits of a group: a chunk that alone exceeds the target makes its own group. *)
Definition good_group (g : list Z) : Prop :=
  g <> [] /\ len g <= MaxChunksPerXorb /\ (len g = 1 \/ gsize g <= targetSize).

(** The first chunk of [g'] did not fit into [g]. *)
Definition full_before (g g' : list Z) : Prop :=
  match g' with
  | [] => False
  | i :: _ => targetSize < gsize g + size_at i \/ MaxChunksPerXorb <= len g
  end.

Fixpoint greedy (gs : list (list Z)) : Prop :=
  match gs with
  | g :: ((g' :: _) as tl) => full_before g g' /\ greedy tl
  | _ => True
  end.

Lemma greedy_snoc gs g g' : greedy (gs ++ [g]) -> full_before g g' -> greedy ((gs ++ [g]) ++ [g']).
Proof.
  induction gs as [|g0 gs IH]; intros H Hf; [by cbn|].
  destruct gs as [|g1 gs]; cbn in *; [tauto|]. destruct H as [H1 H2].
  split; [done|]. by apply IH.
Qed.

Lemma greedy_extend gs g i : g <> [] -> greedy (gs ++ [g]) -> greedy (gs ++ [g ++ [i]]).
Proof.
  intros Hg. induction gs as [|g0 gs IH]; intros H; [by cbn|].
  destruct gs as [|g1 gs]; cbn in *.
  - destruct g; [done|]. done.
  - destruct H. split; [done|]. by apply IH.
Qed.

(** What holds after the chunks [done]. *)
Record ginv (done : list Z) (st : gstate) : Prop := {
  ginv_part : concat (g_groups st) ++ g_current st = done;
  ginv_good : Forall good_group (g_groups st);
  ginv_cur : g_current st = [] -> g_groups st = [] /\ g_size st = 0;
  ginv_cur_good : g_current st <> [] -> good_group (g_current st) /\ greedy (g_groups st ++ [g_current st]);
  ginv_size : g_size st = gsize (g_current st);
}.

Lemma size_at_u32 i : 0 <= i < len sizes -> is_u32 (size_at i).
Proof.
  intros Hi. unfold size_at.
  destruct (lookup_lt_is_Some_2 sizes (Z.to_nat i)) as [s Hs]; [unfold len in *; lia|].
  rewrite (list_lookup_total_correct _ _ _ Hs).
  by eapply Forall_lookup_1.
Qed.

Lemma gsize_app g h : gsize (g ++ h) = gsize g + gsize h.
Proof. unfold gsize. by rewrite map_app, sum_app. Qed.

Lemma gsize_bound g : Forall (fun i => 0 <= i < len sizes) g -> 0 <= gsize g <= 2 ^ 32 * len g.
Proof.
  induction 1 as [|i g Hi _ IH]; [done|]. apply size_at_u32 in Hi. rewrite len_cons.
  change (gsize (i :: g)) with (size_at i + gsize g). unfold is_u32 in Hi. lia.
Qed.

Lemma group_step_inv d st i :
  ginv d st -> Forall (fun i => 0 <= i < len sizes) (d ++ [i]) ->
  ginv (d ++ [i]) (group_step targetSize st (i, size_at i)).
Proof.
  intros [Hp Hg Hc Hcg Hs] Hb. apply Forall_app in Hb as [Hb Hi]. rewrite Forall_singleton in Hi.
  assert (0 <= gsize (g_current st) <= 2 ^ 32 * len (g_current st)) as Hsz.
  { apply gsize_bound. rewrite <- Hp in Hb. by apply Forall_app in Hb as [_ Hb]. }
  pose proof (size_at_u32 i Hi) as Hi32. unfold is_u32 in Hi32.
  assert (gsize [i] = size_at i) as H1 by (unfold gsize; cbn; lia).
  assert (good_group [i]) as Hgi by (split; [done|]; split; [by vm_compute|by left]).
  assert (len (g_current st) <= MaxChunksPerXorb) as Hlen.
  { destruct (decide (g_current st = [])) as [->|Hne]; [by vm_compute|]. apply Hcg, Hne. }
  unfold group_step. rewrite Hs in *. unfold MaxChunksPerXorb in *.
  rewrite (u64_small (gsize _ + _)) by (unfold is_u64; lia).
  destruct (Z.ltb_spec 0 (len (g_current st))) as [Hpos|Hnil]; cbn [andb].
  - assert (g_current st <> []) as Hne by (intros E; rewrite E in Hpos; by vm_compute in Hpos).
    destruct (Hcg Hne) as [Hgood Hgr]. destruct (orb _ _) eqn:Ef.
    + (* the current group is closed *)
      assert (full_before (g_current st) [i]) as Hfull.
      { cbn. apply orb_true_iff in Ef as [Ef%Z.ltb_lt|Ef%Z.leb_le]; auto. }
      constructor; cbn [g_groups g_current g_size app].
      * rewrite concat_app. cbn. by rewrite app_nil_r, Hp.
      * apply Forall_app. by rewrite Forall_singleton.
      * done.
      * intros _. split; [done|]. by apply greedy_snoc.
      * rewrite u64_small by (unfold is_u64; lia). lia.
    + apply orb_false_iff in Ef as [Ef1%Z.ltb_ge Ef2%Z.leb_gt].
      constructor; cbn [g_groups g_current g_size].
      * by rewrite app_assoc, Hp.
      * done.
      * by destruct (g_current st).
      * intros _. split; [|by apply greedy_extend]. split; [by destruct (g_current st)|].
        rewrite len_app, gsize_app, H1. change (len [i]) with 1. split; [unfold MaxChunksPerXorb; lia|right; lia].
      * rewrite Hs, gsize_app, H1, u64_small by (unfold is_u64; lia). done.
  - assert (g_current st = []) as E by (apply len_0_nil; pose proof (len_nonneg (g_current st)); lia).
    destruct (Hc E) as [Eg Es]. rewrite E, Eg in *. cbn in Hp. subst d.
    constructor; cbn [g_groups g_current g_size app]; [done|done|done|by cbn|].
    rewrite Hs, H1, u64_small by (unfold is_u64; cbn; lia). done.
Qed.

Lemma group_fold_inv pre suf st :
  sizes = pre ++ suf -> ginv (seqZ 0 (len pre)) st ->
  ginv (seqZ 0 (len sizes)) (foldl (group_step targetSize) st (zip (seqZ (len pre) (len suf)) suf)).
Proof.
  revert pre st. induction suf as [|s suf IH]; intros pre st Hsz Hinv.
  - rewrite app_nil_r in Hsz. by subst pre.
  - pose proof (len_nonneg pre). pose proof (len_nonneg suf).
    rewrite len_cons, (seqZ_cons (len pre)) by lia. cbn [zip zip_with foldl].
    replace (Z.pred (1 + len suf)) with (len suf) by lia.
    assert (s = size_at (len pre)) as ->.
    { unfold size_at, len. rewrite Hsz, Nat2Z.id. symmetry. by apply list_lookup_total_middle. }
    replace (Z.succ (len pre)) with (len (pre ++ [size_at (len pre)])) by (rewrite len_app; done).
    apply IH; [by rewrite <- app_assoc|].
    replace (seqZ 0 (len (pre ++ _))) with (seqZ 0 (len pre) ++ [len pre]).
    + apply group_step_inv; [done|]. apply Forall_app. split.
      * apply Forall_forall. intros i Hi%elem_of_seqZ. rewrite Hsz, len_app, len_cons. lia.
      * apply Forall_singleton. rewrite Hsz, len_app, len_cons. lia.
    + rewrite len_app, seqZ_app by (done || lia). done.
Qed.

Lemma group_spec :
  let gs := GroupChunkIndicesBySize sizes targetSize in
  concat gs = seqZ 0 (len sizes) /\ Forall good_group gs /\ greedy gs.
Proof.
  assert (ginv (seqZ 0 (len (@nil Z))) (GState [] [] 0)) as H0 by (constructor; done).
  pose proof (group_fold_inv [] sizes _ eq_refl H0) as [Hp Hg Hc Hcg Hs].
  cbn zeta. unfold GroupChunkIndicesBySize. change (len (@nil Z)) with 0 in *.
  set (st := foldl _ _ _) in *.
  destruct (Z.ltb_spec 0 (len (g_current st))) as [Hpos|Hnil].
  - assert (g_current st <> []) as Hne by (intros E; rewrite E in Hpos; by vm_compute in Hpos).
    destruct (Hcg Hne). rewrite concat_app. cbn. rewrite app_nil_r.
    split; [done|]. split; [|done]. apply Forall_app. by rewrite Forall_singleton.
  - assert (g_current st = []) as E by (apply len_0_nil; pose proof (len_nonneg (g_current st)); lia).
    destruct (Hc E) as [Eg _]. rewrite E, app_nil_r in Hp. rewrite Eg in *. done.
Qed.
End grouping.

(** [GroupChunkIndicesBySize] splits the chunks into consecutive groups
    that keep their order; every group is non-empty, has at most
    [MaxChunksPerXorb] chunks and at most [targetSize] bytes (a single larger
    chunk excepted); and a group is only closed when its successor's first
    chunk would not have fitted. *)
Theorem GroupChunkIndicesBySize_spec sizes targetSize :
  Forall is_u32 sizes ->
  let gs := GroupChunkIndicesBySize sizes targetSize in
  concat gs = seqZ 0 (len sizes) /\
  Forall (good_group sizes targetSize) gs /\
  greedy sizes targetSize gs.
Proof. apply group_spec. Qed.

Lemma GroupChunkIndicesBySize_spec_witness :
  concat (GroupChunkIndicesBySize [30; 40; 50; 200; 10] 100) = [0; 1; 2; 3; 4].
Proof.
  refine (proj1 (GroupChunkIndicesBySize_spec [30; 40; 50; 200; 10] 100 _)).
  repeat constructor; vm_compute; congruence.
Defined.

(** ** The scan as a relation *)

Lemma read_at_Some data pos n got :
  0 <= pos -> 0 <= n -> read_at data pos n = (got, None) ->
  got = slice pos (pos + n) data /\ (0 < n -> pos + n <= len data).
Proof.
  intros Hp Hn. unfold read_at, file_reader.
  destruct (ReadFull n _) as [[g e] r] eqn:E. intros [= -> ->].
  apply ReadFull_Some in E as (Hd & Hl & _); [|done]. cbn in Hd.
  assert (length (drop (Z.to_nat pos) data) = (length got + length (rdata r))%nat) as Hlen
    by (by rewrite Hd, length_app).
  rewrite length_drop in Hlen. split.
  - unfold slice. rewrite Hd. replace (Z.to_nat (pos + n - pos)) with (length got) by (unfold len in *; lia).
    by rewrite take_app_length.
  - unfold len in *. lia.
Qed.

Lemma read_at_header data pos hdr :
  0 <= pos -> read_at data pos 8 = (hdr, None) -> pos + 8 <= len data.
Proof. intros Hp E. by apply (read_at_Some _ _ 8 _ Hp) in E as [_ Hb]; [apply Hb|]. Qed.

Lemma read_at_mid pre mid post pos n :
  pos = len pre -> n = len mid -> read_at (pre ++ mid ++ post) pos n = (mid, None).
Proof.
  intros -> ->. unfold read_at, file_reader.
  rewrite to_nat_len, drop_app_length, ReadFull_app. done.
Qed.

Lemma read_at_end data pos n : 0 < n -> pos = len data -> read_at data pos n = ([], Some EOF).
Proof.
  intros Hn ->. unfold read_at, file_reader. rewrite to_nat_len, drop_all.
  unfold ReadFull. cbn [rdata rend]. rewrite take_nil. change (len []) with 0.
  destruct (Z.eqb_spec 0 n); [lia|]. done.
Qed.

(** From [pos] on, the headers lead to the end-offsets [offs]. *)
Inductive scanned (data : list byte) : Z -> list Z -> Prop :=
| scanned_eof pos got : read_at data pos 8 = (got, Some EOF) -> scanned data pos []
| scanned_footer pos hdr :
    read_at data pos 8 = (hdr, None) -> slice 0 7 hdr = xorbIdentifier -> scanned data pos []
| scanned_chunk pos hdr offs :
    read_at data pos 8 = (hdr, None) -> slice 0 7 hdr <> xorbIdentifier ->
    scanned data (pos + (8 + le24 hdr 1)) offs ->
    scanned data pos ((pos + (8 + le24 hdr 1)) :: offs).

Lemma scan_loop_scanned fuel data pos acc res :
  0 <= pos -> len data < 2 ^ 62 -> scan_loop fuel data pos acc = Ok res ->
  exists offs, res = acc ++ offs /\ scanned data pos offs.
Proof.
  revert pos acc. induction fuel as [|fuel IH]; intros pos acc Hp Hd; [done|].
  cbn [scan_loop]. destruct (read_at data pos 8) as [hdr [e|]] eqn:E.
  - case_bool_decide; [|done]. subst e. intros [= <-]. exists []. rewrite app_nil_r.
    split; [done|]. by eapply scanned_eof.
  - case_bool_decide as Hi.
    + intros [= <-]. exists []. rewrite app_nil_r. split; [done|]. by eapply scanned_footer.
    + destruct (_ <=? _); [done|]. pose proof (le24_range hdr 1).
      pose proof (read_at_header _ _ _ Hp E) as Hb.
      rewrite i64_small by (unfold is_i64; lia). rewrite u64_small by (unfold is_u64; lia).
      intros (offs & -> & Hs)%IH; [|lia|done].
      exists (pos + (8 + le24 hdr 1) :: offs). rewrite <- app_assoc. split; [done|].
      by eapply scanned_chunk.
Qed.

Lemma scanned_bound data pos offs :
  0 <= pos -> scanned data pos offs -> 8 * len offs <= Z.max 0 (len data - pos).
Proof.
  intros Hp H. revert Hp. induction H as [| |pos hdr offs E Hi H IH]; intros Hp;
    [change (len []) with 0; lia..|].
  pose proof (read_at_header _ _ _ Hp E) as Hb.
  pose proof (le24_range hdr 1). rewrite len_cons. specialize (IH ltac:(lia)). lia.
Qed.

(** Offsets grow, so an index below the list's end is an offset of the scan. *)
Lemma scanned_offsets data pos offs :
  0 <= pos -> len data < 2 ^ 62 -> scanned data pos offs ->
  Forall (fun o => pos + 8 <= o < 2 ^ 63) offs.
Proof.
  intros Hp Hd H. revert Hp. induction H as [| |pos hdr offs E Hi H IH]; intros Hp; [done..|].
  pose proof (read_at_header _ _ _ Hp E) as Hb. pose proof (le24_range hdr 1).
  constructor; [lia|]. eapply Forall_impl; [apply IH; lia|]. cbn. lia.
Qed.

(** The range scan visits the same offsets. *)
Lemma range_loop_scanned fuel data s e idx pos sb offs :
  0 <= pos -> len data < 2 ^ 62 -> scanned data pos offs -> (length offs < fuel)%nat ->
  0 <= s -> 0 <= idx <= e - 1 -> is_u32 e ->
  if e - idx <=? len offs
  then range_loop fuel data s e idx pos sb =
         Ok (if s <? idx then sb else if s =? idx then pos
             else if s <? e then offs !!! Z.to_nat (s - 1 - idx) else sb,
             offs !!! Z.to_nat (e - 1 - idx) - 1)
  else is_ok (range_loop fuel data s e idx pos sb) = false.
Proof.
  intros Hp Hd H. revert fuel idx sb Hp. induction H as [pos got E|pos hdr E Hi|pos hdr offs E Hi H IH];
    intros fuel idx sb Hp Hf Hs Hidx He; (destruct fuel as [|fuel]; [lia|]); cbn [range_loop]; rewrite E.
  - change (len []) with 0. destruct (Z.leb_spec (e - idx) 0); [lia|done].
  - change (len []) with 0. destruct (Z.leb_spec (e - idx) 0); [lia|].
    by rewrite bool_decide_eq_true_2.
  - rewrite bool_decide_eq_false_2 by done.
    pose proof (read_at_header _ _ _ Hp E) as Hb.
    pose proof (le24_range hdr 1). unfold is_u32 in He.
    rewrite (i64_small (pos + 8)), i64_small by (unfold is_i64; lia).
    rewrite u32_small by (unfold is_u32; lia).
    replace (pos + 8 + le24 hdr 1) with (pos + (8 + le24 hdr 1)) by lia.
    rewrite len_cons. pose proof (len_nonneg offs).
    destruct (Z.eqb_spec idx (e - 1)) as [->|Hne].
    + replace (e - (e - 1)) with 1 by lia. rewrite (proj2 (Z.leb_le 1 _)) by lia.
      replace (e - 1 - (e - 1)) with 0 by lia. cbn. do 2 f_equal.
      bool_case; first [lia|done].
    + rewrite u32_small by (unfold is_u32; lia).
      specialize (IH fuel (idx + 1) (if idx =? s then pos else sb) ltac:(lia) ltac:(cbn in Hf; lia) Hs ltac:(lia) He).
      replace (e - (idx + 1) <=? len offs) with (e - idx <=? 1 + len offs) in IH
        by (apply eq_true_iff_eq; rewrite !Z.leb_le; lia).
      destruct (Z.leb_spec (e - idx) (1 + len offs)); [|done]. rewrite IH.
      replace (Z.to_nat (e - 1 - idx)) with (S (Z.to_nat (e - 1 - (idx + 1)))) by lia.
      do 2 f_equal.
      destruct (Z.ltb_spec s idx), (Z.ltb_spec s (idx + 1)), (Z.eqb_spec idx s), (Z.eqb_spec s idx),
        (Z.eqb_spec s (idx + 1)), (Z.ltb_spec s e); try lia; try done.
      * subst s. replace (Z.to_nat (idx + 1 - 1 - idx)) with 0%nat by lia. done.
      * replace (Z.to_nat (s - 1 - idx)) with (S (Z.to_nat (s - 1 - (idx + 1)))) by lia. done.
Qed.

(** Both ways to a chunk range's bytes agree.  If the header scan of a
    stream gives [offs], then for every range [ChunkDataRange] and
    [ChunkDataRangeFromOffsets] on [offs] both fail or both return the same
    bytes. *)
Theorem ChunkDataRange_offsets data offs s e :
  len data < 2 ^ 62 -> ScanChunkOffsets data = Ok offs -> is_u32 s -> is_u32 e ->
  match ChunkDataRangeFromOffsets offs s e with
  | Ok range => ChunkDataRange data s e = Ok range
  | Err _ => is_ok (ChunkDataRange data s e) = false
  end.
Proof.
  intros Hd Hscan Hs He. apply scan_loop_scanned in Hscan as (offs' & -> & Hsc); [|done..].
  cbn [app] in *. unfold is_u32 in Hs. pose proof (scanned_bound _ _ _ ltac:(reflexivity) Hsc) as Hb.
  pose proof (scanned_offsets _ _ _ ltac:(reflexivity) Hd Hsc) as Ho.
  unfold ChunkDataRangeFromOffsets, ChunkDataRange.
  destruct (Z.leb_spec e s) as [|Hse]; [done|].
  pose proof (range_loop_scanned (S (length data)) data s e 0 0 0 offs' ltac:(reflexivity) Hd Hsc
    ltac:(unfold len in *; lia) ltac:(lia) ltac:(lia) He) as Hr.
  rewrite Z.sub_0_r in Hr.
  destruct (Z.ltb_spec (len offs') e), (Z.leb_spec e (len offs')); [lia|done| |lia].
  assert (forall i, 0 <= i < e -> i64 (offs' !!! Z.to_nat i) = offs' !!! Z.to_nat i) as Hi.
  { intros i Hi. destruct (lookup_lt_is_Some_2 offs' (Z.to_nat i)) as [o Hl]; [unfold len in *; lia|].
    rewrite (list_lookup_total_correct _ _ _ Hl). apply i64_small.
    pose proof (Forall_lookup_1 _ _ _ _ Ho Hl). cbn in *. unfold is_i64. lia. }
  rewrite Hr, !Z.sub_0_r, (Hi (e - 1)) by lia. do 2 f_equal.
  destruct (Z.ltb_spec s 0), (Z.eqb_spec s 0), (Z.ltb_spec 0 s), (Z.ltb_spec s e); try lia; try done.
  rewrite Hi by lia. done.
Qed.

(** ** Offsets of encoder output *)

Section encoded_offsets.
Context {B3 : Blake3} {L : Lz4} {LL : Lz4Laws L} {P : ChunkBufs}.

Definition packed_offsets (ds : list (list byte)) : list Z :=
  ends 0 (map (fun d => len (frame d)) ds).

(** The header of a stored chunk. *)
Lemma frame_header d :
  len d <= MaxChunkSize ->
  exists hdr body, frame d = hdr ++ body /\ len hdr = 8 /\ slice 0 7 hdr <> xorbIdentifier /\
    8 + le24 hdr 1 = len (frame d).
Proof.
  intros Hd. unfold frame. destruct (selectBestCompression d) as [c ty] eqn:E.
  apply selectBestCompression_spec in E as [Hle _]; [|done].
  eexists _, _. split; [reflexivity|]. split; [done|]. split; [done|].
  rewrite le24_val, len_app, len_header_bytes. unfold byte_at.
  cbn [header_bytes Nat.add lookup_total list_lookup_total].
  pose proof (len_nonneg c). rewrite z2b_le24; [done|]. unfold MaxChunkSize in *. lia.
Qed.

Lemma scan_loop_frames fuel pre ds rest acc :
  Forall (fun d => len d <= MaxChunkSize) ds -> len acc + len ds <= MaxChunksPerXorb ->
  len pre + sum (map (fun d => len (frame d)) ds) < 2 ^ 63 ->
  scan_loop (length ds + fuel) (pre ++ concat (map frame ds) ++ rest) (len pre) acc =
  scan_loop fuel ((pre ++ concat (map frame ds)) ++ rest) (len (pre ++ concat (map frame ds)))
    (acc ++ ends (len pre) (map (fun d => len (frame d)) ds)).
Proof.
  intros Hds. revert pre acc. induction Hds as [|d ds Hd Hds IH]; intros pre acc Hc Hs.
  - cbn. by rewrite !app_nil_r.
  - cbn [map concat length Nat.add scan_loop ends]. rewrite len_cons in Hc.
    change (map _ (d :: ds)) with (len (frame d) :: map (fun d => len (frame d)) ds) in Hs.
    change (sum (?x :: ?l)) with (x + sum l) in Hs.
    pose proof (packed_bound ds Hds). pose proof (len_nonneg pre). pose proof (len_nonneg ds).
    pose proof (len_frame d Hd).
    destruct (frame_header d Hd) as (hdr & body & Hf & H8 & Hi & Hle).
    rewrite Hf at 1. rewrite <- !app_assoc, read_at_mid, bool_decide_eq_false_2 by done.
    rewrite (proj2 (Z.leb_gt _ _)) by lia. rewrite Hle, i64_small by (unfold is_i64; lia).
    rewrite u64_small by (unfold is_u64; lia).
    specialize (IH (pre ++ frame d) (acc ++ [len pre + len (frame d)])).
    rewrite !len_app, <- !app_assoc in IH. rewrite <- ?app_assoc, ?len_app.
    change (len [_]) with 1 in IH. rewrite IH by lia.
    cbn [app]. by rewrite Z.add_assoc.
Qed.

Lemma footer_bytes_head h hs offs uoffs nonce :
  exists head tl, footer_bytes h hs offs uoffs nonce = head ++ tl /\ len head = 8 /\
    slice 0 7 head = xorbIdentifier.
Proof.
  destruct (footer_layout h hs offs uoffs nonce) as (hoff & boff & flen & -> & _).
  by eexists _, _.
Qed.

Lemma scan_encoded wf nonce h ds :
  within_limits ds -> ScanChunkOffsets (xorb_bytes wf nonce h ds) = Ok (packed_offsets ds).
Proof.
  intros (Hd & Hn & Hs). unfold ScanChunkOffsets, xorb_bytes.
  pose proof (packed_bound ds Hd) as Hp. pose proof (len_nonneg ds) as Hl.
  unfold MaxChunksPerXorb, MaxXorbSize in *.
  replace (S (S (Z.to_nat 8192))) with (length ds + S (S (Z.to_nat 8192) - length ds))%nat
    by (unfold len in *; lia).
  set (tail := if wf then _ else _).
  pose proof (scan_loop_frames (S (S (Z.to_nat 8192) - length ds)) [] ds tail []) as Hscan.
  cbn [app] in Hscan. change (len []) with 0 in Hscan. rewrite Hscan by (done || unfold MaxChunksPerXorb; lia).
  cbn [scan_loop]. subst tail. destruct wf.
  - destruct (footer_bytes_head h (map ComputeChunkHash ds) (ends 0 (map (fun d => len (frame d)) ds))
      (ends 0 (map len ds)) nonce) as (head & tl & -> & H8 & Hi).
    by rewrite read_at_mid, bool_decide_eq_true_2 by done.
  - rewrite app_nil_r, read_at_end by done. done.
Qed.

Lemma footer_offsets_ok pre offs post prev :
  0 <= prev -> Forall (fun x => 8 <= x) offs -> prev + sum offs < 2 ^ 32 ->
  footer_offsets (length offs) (len pre) prev (pre ++ cat_u32 (ends prev offs) ++ post) =
    Ok (ends prev offs, prev + sum offs).
Proof.
  intros Hp Ho. revert pre prev Hp. induction Ho as [|x offs Hx Ho IH]; intros pre prev Hp Hs.
  - cbn. by rewrite Z.add_0_r.
  - change (sum (x :: offs)) with (x + sum offs) in *.
    assert (0 <= sum offs) by (apply sum_nonneg; eapply Forall_impl; [exact Ho|]; cbn; lia).
    cbn [length footer_offsets ends]. unfold cat_u32. cbn [map concat].
    fold (cat_u32 (ends (prev + x) offs)). rewrite <- app_assoc.
    rewrite (u32_small (prev + x)) by (unfold is_u32; lia).
    rewrite (slice_mid _ _ pre) by (done || by rewrite len_put_u32).
    rewrite le_val_put_u32 by (unfold is_u32; lia).
    rewrite u64_small by (unfold is_u64; lia).
    rewrite (proj2 (Z.ltb_ge _ _)) by lia.
    replace (len pre + 4) with (len (pre ++ put_u32 (prev + x))) by (rewrite len_app, len_put_u32; done).
    rewrite (app_assoc pre), IH by lia. cbn. by rewrite Z.add_assoc.
Qed.

Lemma ReadChunkOffsets_encoded nonce h ds :
  within_limits ds -> ReadChunkOffsets (xorb_bytes true nonce h ds) = Ok (packed_offsets ds).
Proof.
  intros (Hd & Hn & Hs). unfold xorb_bytes.
  pose proof (packed_bound ds Hd) as Hp. pose proof (len_nonneg ds) as Hl.
  set (frs := concat (map frame ds)). set (n := len ds) in *.
  assert (len frs = sum (map (fun d => len (frame d)) ds)) as Hfrs.
  { unfold frs. clear. induction ds as [|d ds IH]; [done|]. cbn [map concat]. rewrite len_app, IH. done. }
  destruct (footer_layout h (map ComputeChunkHash ds) (packed_offsets ds) (ends 0 (map len ds)) nonce)
    as (hoff & boff & flen & Hlay & Hflen).
  fold (packed_offsets ds). set (fb := footer_bytes _ _ _ _ _) in *.
  assert (len (map ComputeChunkHash ds) = n) as Hn1 by apply len_map.
  assert (len (packed_offsets ds) = n) as Hn2 by (unfold packed_offsets, len; rewrite length_ends, length_map; done).
  assert (len (ends 0 (map len ds)) = n) as Hn3 by (unfold len; rewrite length_ends, length_map; done).
  rewrite Hn1, Hn2, Hn3 in Hflen. rewrite Hn1 in Hlay. unfold footer_tail in Hlay. rewrite Hn1 in Hlay.
  unfold MaxChunksPerXorb, MaxXorbSize in *.
  rewrite (u32_small n), (u32_small flen) in Hlay by (unfold is_u32; lia).
  assert (len fb = flen + 4) as Hfb by (rewrite Hlay; autorewrite with xorb_len; rewrite Hn1, Hn2, Hn3; unfold hashSize; lia).
  pose proof (len_nonneg frs).
  unfold ReadChunkOffsets. rewrite len_app, Hfb.
  rewrite (proj2 (Z.ltb_ge _ minFooterSize)) by (unfold minFooterSize; lia).
  assert (exists fb0, fb = fb0 ++ put_u32 flen /\ len fb0 = flen) as (fb0 & Hfb0 & Hlen0).
  { eexists. split; [rewrite Hlay, !app_assoc; reflexivity|].
    autorewrite with xorb_len; rewrite Hn1, Hn2, Hn3; unfold hashSize; lia. }
  assert (frs ++ fb = (frs ++ fb0) ++ put_u32 flen ++ []) as Hdata
    by (by rewrite Hfb0, app_nil_r, app_assoc).
  rewrite Hdata at 1. rewrite read_at_mid by (rewrite ?len_app, ?len_put_u32; lia).
  rewrite le_val_put_u32 by (unfold is_u32; lia).
  rewrite (proj2 (Z.ltb_ge _ (minFooterSize - 4))) by (unfold minFooterSize; lia).
  rewrite (proj2 (Z.ltb_ge _ (flen + 4))) by lia.
  replace (flen - 92) with (n * 40) by lia.
  rewrite Z.mod_mul, Z.div_mul by lia. cbn [negb orb Z.eqb].
  unfold MaxChunksPerXorb. rewrite (proj2 (Z.ltb_ge _ n)) by lia.
  rewrite <- (app_nil_r fb) at 1. rewrite read_at_mid by lia.
  rewrite Hlay. clear Hdata Hfb0 Hlen0 fb0 Hlay Hfb fb.
  set (hs := map ComputeChunkHash ds) in *. set (uo := ends 0 (map len ds)) in *.
  slice_is 0 7 (@nil byte) xorbIdentifier. rewrite bool_decide_eq_false_2 by (by intros []).
  byte_is 7%nat xorbIdentifier Byte.x01. cbn [orb].
  slice_is 40 (40 + 7) (xorbIdentifier ++ [Byte.x01] ++ vec_to_list h) hashSectionIdent.
  rewrite bool_decide_eq_false_2 by (by intros []).
  byte_is (Z.to_nat (40 + 7)) (xorbIdentifier ++ [Byte.x01] ++ vec_to_list h ++ hashSectionIdent) Byte.x00.
  cbn [orb].
  slice_is (40 + 8) (40 + 12) (xorbIdentifier ++ [Byte.x01] ++ vec_to_list h ++ hashSectionIdent ++ [Byte.x00])
    (put_u32 n).
  rewrite le_val_put_u32, Z.eqb_refl by (unfold is_u32; lia). cbn [negb].
  match goal with |- context [footer_offsets _ _ _ ?buf] => set (b := buf) end.
  assert (exists fixed post, len fixed = 52 /\
    b = fixed ++ cat_hashes hs ++ boundarySectionIdent ++ [Byte.x01] ++ put_u32 n ++
        cat_u32 (packed_offsets ds) ++ post) as (fixed & post & Hfix & Hb).
  { exists (xorbIdentifier ++ [Byte.x01] ++ vec_to_list h ++ hashSectionIdent ++ [Byte.x00] ++ put_u32 n).
    eexists. split; [flen|]. unfold b. rewrite <- !app_assoc. reflexivity. }
  clearbody b. subst b.
  slice_is (40 + 12 + n * 32) (40 + 12 + n * 32 + 7) (fixed ++ cat_hashes hs) boundarySectionIdent.
  rewrite bool_decide_eq_false_2 by (by intros []).
  byte_is (Z.to_nat (40 + 12 + n * 32 + 7)) (fixed ++ cat_hashes hs ++ boundarySectionIdent) Byte.x01.
  cbn [orb].
  slice_is (40 + 12 + n * 32 + 8) (40 + 12 + n * 32 + 12)
    (fixed ++ cat_hashes hs ++ boundarySectionIdent ++ [Byte.x01]) (put_u32 n).
  rewrite le_val_put_u32, Z.eqb_refl by (unfold is_u32; lia). cbn [negb].
  set (pre := fixed ++ cat_hashes hs ++ boundarySectionIdent ++ [Byte.x01] ++ put_u32 n).
  assert (40 + 12 + n * 32 + 12 = len pre) as -> by (unfold pre; flen).
  replace (fixed ++ _) with (pre ++ cat_u32 (packed_offsets ds) ++ post) by (unfold pre; by rewrite <- !app_assoc).
  replace (Z.to_nat n) with (length (map (fun d => len (frame d)) ds)) by (rewrite length_map; unfold n, len; lia).
  unfold packed_offsets. rewrite footer_offsets_ok.
  - cbn [mbind result_bind]. rewrite i64_small by (unfold is_i64; lia).
    rewrite (proj2 (Z.eqb_eq (0 + _) _)) by lia. cbn [negb]. rewrite andb_false_r, !Z.eqb_refl. done.
  - done.
  - apply Forall_fmap. eapply Forall_impl; [exact Hd|]. intros d Hdl. apply len_frame, Hdl.
  - lia.
Qed.

(** On every xorb the encoder writes with a footer, the offsets read from
    the footer are the ones the header scan finds, and both are the encoder's
    packed offsets; without a footer the scan still finds them. *)
Theorem encoded_offsets_agree ff nonce ds e :
  encode (SetUniquenessNonce nonce (NewEncoder [] ff)).2 ds = Ok e ->
  ScanChunkOffsets (e_w e) = Ok (packed_offsets ds) /\
  (ff = true -> ReadChunkOffsets (e_w e) = Ok (packed_offsets ds)).
Proof.
  intros He. apply encode_Ok in He as (Hds & h & Hw & _). rewrite Hw.
  split; [by apply scan_encoded|]. intros ->. by apply ReadChunkOffsets_encoded.
Qed.
End encoded_offsets.

(** ** Witnesses *)

Lemma ChunkDataRange_offsets_witness :
  ChunkDataRange (header_bytes 2 0 2 ++ str "ab" ++ header_bytes 1 0 1 ++ str "c") 1 2 = Ok (10, 18).
Proof.
  apply (ChunkDataRange_offsets (header_bytes 2 0 2 ++ str "ab" ++ header_bytes 1 0 1 ++ str "c")
           [10; 19] 1 2).
  - reflexivity.
  - vm_compute. reflexivity.
  - unfold is_u32. lia.
  - unfold is_u32. lia.
Defined.

Lemma encoded_offsets_agree_witness :
  exists e,
    encode (B3 := poly_blake3) (L := rle_lz4) (P := zero_bufs)
      (SetUniquenessNonce wit_nonce (NewEncoder [] true)).2 wit_chunks = Ok e /\
    ScanChunkOffsets (e_w e) = ReadChunkOffsets (e_w e).
Proof.
  destruct (encode_spec (B3 := poly_blake3) (L := rle_lz4) (P := zero_bufs) [] true wit_nonce wit_chunks
    wit_root wit_limits wit_root_eq) as (e & He & _).
  rewrite enc_after_start in He. exists e. split; [exact He|].
  destruct (encoded_offsets_agree (B3 := poly_blake3) (L := rle_lz4) (P := zero_bufs)
    true wit_nonce wit_chunks e He) as [-> H]. by rewrite H.
Defined.
