(* ===== verification/Shard.v ===== *)
(** * Shards: [shard/shard.go] and [shard/validate.go]

    The shard data model, its queries (file lookup, chunk lookup and
    resolution, deduplication-eligible chunks), its footer statistics and its
    structural validation.  Proved: the validation accepts exactly the shards
    that satisfy the declarative well-formedness predicate, and the chunk
    lookups return locations that hold the chunk and succeed together. *)

From Stdlib Require Import ZArith Lia Strings.Byte Strings.String.
From S2P Require Import Prelude Hash.

(** ** Data *)

Definition FileWithVerification : Z := Z.shiftl 1 31.
Definition FileWithMetadataExt : Z := Z.shiftl 1 30.
Definition ChunkGlobalDedupEligible : Z := Z.shiftl 1 31.

Record FileDataSequenceEntry : Type := MkFileEntry {
  fe_CASHash : XorbHash;
  fe_CASFlags : Z;
  fe_UnpackedSegBytes : Z;
  fe_ChunkIndexStart : Z;
  fe_ChunkIndexEnd : Z;
}.

Abbreviation SHA256Hash := (vec byte 32).

Record FileMetadataExt : Type := MkFileMetadataExt { me_SHA256Hash : SHA256Hash }.

Record FileBlock : Type := MkFileBlock {
  fb_FileHash : FileHash;
  fb_Flags : Z;
  fb_Entries : list FileDataSequenceEntry;
  fb_Verification : list VerificationHash;
  fb_MetadataExt : option FileMetadataExt;
}.

Record CASChunkSequenceEntry : Type := MkCASChunk {
  cc_ChunkHash : ChunkHash;
  cc_ByteRangeStart : Z;
  cc_UnpackedSegBytes : Z;
  cc_Flags : Z;
}.

Record CASBlock : Type := MkCASBlock {
  cb_CASHash : XorbHash;
  cb_CASFlags : Z;
  cb_Chunks : list CASChunkSequenceEntry;
  cb_NumBytesInCAS : Z;
  cb_NumBytesOnDisk : Z;
}.

Record Footer : Type := MkFooter {
  f_Version : Z;
  f_FileInfoOffset : Z;
  f_CASInfoOffset : Z;
  f_FileLookupOffset : Z;
  f_FileLookupNumEntries : Z;
  f_CASLookupOffset : Z;
  f_CASLookupNumEntries : Z;
  f_ChunkLookupOffset : Z;
  f_ChunkLookupNumEntries : Z;
  f_ChunkHashKey : hash;
  f_ShardCreationTimestamp : Z;
  f_ShardKeyExpiry : Z;
  f_Reserved : vec byte 48;
  f_StoredBytesOnDisk : Z;
  f_MaterializedBytes : Z;
  f_StoredBytes : Z;
  f_FooterOffset : Z;
}.

Record Shard : Type := MkShard {
  s_FooterSize : Z;
  s_Files : list FileBlock;
  s_CASInfos : list CASBlock;
  s_Footer : option Footer;
}.

Record ChunkLocation : Type := MkChunkLocation {
  cl_XorbHash : XorbHash;
  cl_ChunkIndex : Z;
}.

Record LocatedChunk : Type := MkLocatedChunk {
  lc_Hash : ChunkHash;
  lc_Location : ChunkLocation;
}.

#[global] Instance FileDataSequenceEntry_eq_decision : EqDecision FileDataSequenceEntry.
Proof. solve_decision. Defined.
#[global] Instance FileMetadataExt_eq_decision : EqDecision FileMetadataExt.
Proof. solve_decision. Defined.
#[global] Instance FileBlock_eq_decision : EqDecision FileBlock.
Proof. solve_decision. Defined.
#[global] Instance CASChunkSequenceEntry_eq_decision : EqDecision CASChunkSequenceEntry.
Proof. solve_decision. Defined.
#[global] Instance CASBlock_eq_decision : EqDecision CASBlock.
Proof. solve_decision. Defined.
#[global] Instance ChunkLocation_eq_decision : EqDecision ChunkLocation.
Proof. solve_decision. Defined.
#[global] Program Instance ChunkLocation_countable : Countable ChunkLocation :=
  inj_countable' (fun l => (cl_XorbHash l, cl_ChunkIndex l)) (fun p => MkChunkLocation p.1 p.2) _.
Next Obligation. by intros []. Qed.

(** ** Small operations *)

Definition transformSHA256ByteOrder (h : SHA256Hash) : SHA256Hash :=
  to_arr 32 (foldl (fun (transformed : list byte) segment =>
    let start := segment * 8 in
    foldl (fun transformed offset =>
      <[Z.to_nat (start + offset) := vec_to_list h !!! Z.to_nat (start + 7 - offset)]> transformed)
      transformed (seqZ 0 8))
    (replicate 32 Byte.x00) (seqZ 0 (len h / 8))).

Definition IsChunkGlobalDedupEligible (chunkHash : ChunkHash) (isFirstChunk : bool) (flags : Z) : bool :=
  if isFirstChunk || negb (Z.land flags ChunkGlobalDedupEligible =? 0) then true
  else
    let dedupModulus := 1024 in
    let value := le_val (slice 24 32 chunkHash) in
    value mod dedupModulus =? 0.

Definition IsKeyed (f : Footer) : bool := bool_decide (f_ChunkHashKey f <> zeroHash).

(** [now] is [now.Unix()]. *)
Definition IsExpired (f : Footer) (now : Z) : bool := f_ShardKeyExpiry f <=? u64 now.

Definition NewShard : Shard := MkShard 0 [] [] None.

Definition AddFile (s : Shard) (fb : FileBlock) : Shard :=
  MkShard (s_FooterSize s) (s_Files s ++ [fb]) (s_CASInfos s) (s_Footer s).

Definition AddCASBlock (s : Shard) (cb : CASBlock) : Shard :=
  MkShard (s_FooterSize s) (s_Files s) (s_CASInfos s ++ [cb]) (s_Footer s).

(** [Shard.File]. *)
Definition File (s : Shard) (h : FileHash) : option FileBlock :=
  snd <$> list_find (fun fb => fb_FileHash fb = h) (s_Files s).

Definition FindFileBySHA256 (s : Shard) (digest : SHA256Hash) : option FileBlock :=
  snd <$> list_find (fun fb => fb_MetadataExt fb = Some (MkFileMetadataExt digest)) (s_Files s).

Definition UnpackedSize (fb : option FileBlock) : Z :=
  match fb with
  | None => 0
  | Some f => foldl (fun size entry => i64 (size + fe_UnpackedSegBytes entry)) 0 (fb_Entries f)
  end.

(** ** Chunk locations *)

(** [for i, chunk := range block.Chunks]. *)
Definition indexed {A} (l : list A) : list (Z * A) := zip (seqZ 0 (len l)) l.

(** Every stored chunk with its location, in CASInfos order then chunk order. *)
Definition stored_chunks (s : Shard) : list (ChunkLocation * CASChunkSequenceEntry) :=
  block ← s_CASInfos s;
  (fun ic => (MkChunkLocation (cb_CASHash block) (u32 ic.1), ic.2)) <$> indexed (cb_Chunks block).

Definition ChunkLocations (s : Shard) : gmap ChunkHash ChunkLocation :=
  foldl (fun stored block =>
    foldl (fun stored ic =>
      <[cc_ChunkHash ic.2 := MkChunkLocation (cb_CASHash block) (u32 ic.1)]> stored)
      stored (indexed (cb_Chunks block)))
    (∅ : gmap ChunkHash ChunkLocation) (s_CASInfos s).

Definition fileStarts (s : Shard) : gset ChunkLocation :=
  foldl (fun starts file =>
    match fb_Entries file with
    | [] => starts
    | first :: _ => {[MkChunkLocation (fe_CASHash first) (fe_ChunkIndexStart first)]} ∪ starts
    end) (∅ : gset ChunkLocation) (s_Files s).

Definition GlobalDedupEligibleChunks (s : Shard) : list LocatedChunk :=
  let starts := fileStarts s in
  (foldl (fun acc block =>
    foldl (fun (acc : list LocatedChunk * gset ChunkHash) ic =>
      let eligible := acc.1 in
      let seen := acc.2 in
      let chunk := ic.2 in
      let loc := MkChunkLocation (cb_CASHash block) (u32 ic.1) in
      let isFirst := bool_decide (loc ∈ starts) in
      if negb (IsChunkGlobalDedupEligible (cc_ChunkHash chunk) isFirst (cc_Flags chunk)) then acc
      else if bool_decide (cc_ChunkHash chunk ∈ seen) then acc
      else (eligible ++ [MkLocatedChunk (cc_ChunkHash chunk) loc], {[cc_ChunkHash chunk]} ∪ seen))
      acc (indexed (cb_Chunks block)))
    ([], ∅ : gset ChunkHash) (s_CASInfos s)).1.

Section lookups.
Context {B3 : Blake3}.

Definition storedHash (s : Shard) (h : ChunkHash) : ChunkHash :=
  match s_Footer s with
  | Some f => if IsKeyed f then HMAC h (f_ChunkHashKey f) else h
  | None => h
  end.

(** The inner loop of [LookupChunk]. *)
Fixpoint find_chunk (stored : ChunkHash) (i : Z) (chunks : list CASChunkSequenceEntry) : option Z :=
  match chunks with
  | [] => None
  | chunk :: chunks =>
      if bool_decide (cc_ChunkHash chunk = stored) then Some i else find_chunk stored (i + 1) chunks
  end.

Fixpoint lookup_blocks (stored : ChunkHash) (blocks : list CASBlock) : option ChunkLocation :=
  match blocks with
  | [] => None
  | block :: blocks =>
      match find_chunk stored 0 (cb_Chunks block) with
      | Some i => Some (MkChunkLocation (cb_CASHash block) (u32 i))
      | None => lookup_blocks stored blocks
      end
  end.

Definition LookupChunk (s : Shard) (h : ChunkHash) : option ChunkLocation :=
  lookup_blocks (storedHash s h) (s_CASInfos s).

Definition ResolveChunks (s : Shard) (hashes : list ChunkHash) : gmap ChunkHash ChunkLocation :=
  let stored := ChunkLocations s in
  foldl (fun results h =>
    match stored !! storedHash s h with
    | Some loc => <[h := loc]> results
    | None => results
    end) (∅ : gmap ChunkHash ChunkLocation) hashes.
End lookups.

(** ** Footer statistics *)

Definition newFooter (s : Shard) (creationTime : Z) : Footer :=
  let '(storedBytesOnDisk, storedBytes) :=
    foldl (fun (acc : Z * Z) cas =>
      (u64 (acc.1 + cb_NumBytesOnDisk cas), u64 (acc.2 + cb_NumBytesInCAS cas))) (0, 0) (s_CASInfos s) in
  let materializedBytes :=
    foldl (fun acc file =>
      foldl (fun acc entry => u64 (acc + fe_UnpackedSegBytes entry)) acc (fb_Entries file))
      0 (s_Files s) in
  MkFooter 1 0 0 0 0 0 0 0 0 zeroHash (u64 creationTime) (2 ^ 64 - 1) (to_arr 48 [])
    storedBytesOnDisk materializedBytes storedBytes 0.

Definition SetFooter (s : Shard) (creationTime : Z) : Shard :=
  MkShard (s_FooterSize s) (s_Files s) (s_CASInfos s) (Some (newFooter s creationTime)).

(** ** Size of the encoding *)

Definition EncodedSize (s : Shard) (withFooter : bool) : Z :=
  let size := 48 in
  let size := foldl (fun size fb =>
    let size := i64 (size + 48) in
    let size := i64 (size + i64 (len (fb_Entries fb) * 48)) in
    let size :=
      if negb (Z.land (fb_Flags fb) FileWithVerification =? 0)
      then i64 (size + i64 (len (fb_Verification fb) * 48)) else size in
    if negb (Z.land (fb_Flags fb) FileWithMetadataExt =? 0) then i64 (size + 48) else size)
    size (s_Files s) in
  let size := i64 (size + 48) in
  let size := foldl (fun size cb =>
    i64 (i64 (size + 48) + i64 (len (cb_Chunks cb) * 48))) size (s_CASInfos s) in
  let size := i64 (size + 48) in
  if withFooter then i64 (size + 200) else size.

(** ** Validation *)

(** [a &^ b]. *)
Definition and_not (a b : Z) : Z := Z.ldiff a b.

(** The first loop: [casIndex] maps a hash to the index of its block. *)
Definition build_cas_index (blocks : list CASBlock) : result (gmap hash Z) :=
  foldM (fun (casIndex : gmap hash Z) icb =>
    let '(i, cb) := icb in
    match casIndex !! cb_CASHash cb with
    | Some _ => Err (Errorf "CAS block %d: duplicate CAS hash %x")
    | None => Ok (<[cb_CASHash cb := i]> casIndex)
    end) ∅ (indexed blocks).

Definition validate_cas_block (cb : CASBlock) : result unit :=
  if negb (cb_CASFlags cb =? 0) then Err (Errorf "CAS block %d: non-zero reserved CASFlags %d")
  else
    byteOffset ← foldM (fun byteOffset chunk =>
      if negb (and_not (cc_Flags chunk) ChunkGlobalDedupEligible =? 0)
      then Err (Errorf "CAS block %d chunk %d: unknown chunk flags %d")
      else if negb (cc_ByteRangeStart chunk =? byteOffset)
      then Err (Errorf "CAS block %d chunk %d: ByteRangeStart %d, expected %d")
      else Ok (u32 (byteOffset + cc_UnpackedSegBytes chunk))) 0 (cb_Chunks cb);
    if negb (byteOffset =? cb_NumBytesInCAS cb)
    then Err (Errorf "CAS block %d: NumBytesInCAS %d != sum of chunk sizes %d")
    else Ok tt.

(** [for k := start; k < end; k++ { termBytes += cb.Chunks[k].UnpackedSegBytes }]. *)
Definition term_bytes (cb : CASBlock) (start end_ : Z) : Z :=
  foldl (fun termBytes chunk => u32 (termBytes + cc_UnpackedSegBytes chunk)) 0
    (slice start end_ (cb_Chunks cb)).

Definition validate_entry (casInfos : list CASBlock) (casIndex : gmap hash Z)
    (entry : FileDataSequenceEntry) : result unit :=
  if negb (fe_CASFlags entry =? 0)
  then Err (Errorf "file block %d entry %d: non-zero reserved CASFlags %d")
  else if fe_ChunkIndexEnd entry <=? fe_ChunkIndexStart entry
  then Err (Errorf "file block %d entry %d: invalid chunk index range [%d, %d)")
  else
    match casIndex !! fe_CASHash entry with
    | None => Ok tt
    | Some casIdx =>
        match casInfos !! Z.to_nat casIdx with
        | None => Err (Panic "index out of range")
        | Some cb =>
            if u32 (len (cb_Chunks cb)) <? fe_ChunkIndexEnd entry
            then Err (Errorf "file block %d entry %d: ChunkIndexEnd %d out of range (CAS block has %d chunks)")
            else if negb (term_bytes cb (fe_ChunkIndexStart entry) (fe_ChunkIndexEnd entry)
                          =? fe_UnpackedSegBytes entry)
            then Err (Errorf "file block %d entry %d: UnpackedSegBytes %d != sum of chunk sizes %d")
            else Ok tt
        end
    end.

Definition validate_file (casInfos : list CASBlock) (casIndex : gmap hash Z) (fb : FileBlock) :
    result unit :=
  if negb (and_not (fb_Flags fb) (Z.lor FileWithVerification FileWithMetadataExt) =? 0)
  then Err (Errorf "file block %d: unknown flags %d")
  else
    _ ← (if negb (Z.land (fb_Flags fb) FileWithVerification =? 0) then
           fail_if (negb (len (fb_Verification fb) =? len (fb_Entries fb)))
             (Errorf "file block %d: verification entry count %d != entry count %d")
         else fail_if (negb (len (fb_Verification fb) =? 0))
             (Errorf "file block %d: verification entries present without flag"));
    _ ← (if negb (Z.land (fb_Flags fb) FileWithMetadataExt =? 0) then
           fail_if (bool_decide (fb_MetadataExt fb = None))
             (Errorf "file block %d: FileWithMetadataExt set but MetadataExt is nil")
         else fail_if (bool_decide (fb_MetadataExt fb <> None))
             (Errorf "file block %d: MetadataExt present without flag"));
    foldM (fun _ entry => validate_entry casInfos casIndex entry) tt (fb_Entries fb).

(** [Shard.Validate]. *)
Definition Shard_Validate (s : Shard) : result unit :=
  casIndex ← build_cas_index (s_CASInfos s);
  _ ← foldM (fun _ cb => validate_cas_block cb) tt (s_CASInfos s);
  foldM (fun _ fb => validate_file (s_CASInfos s) casIndex fb) tt (s_Files s).

(** ** What validation means *)

Definition chunk_bytes (chunks : list CASChunkSequenceEntry) : Z :=
  foldr (fun c s => cc_UnpackedSegBytes c + s) 0 chunks.

(** Sizes and offsets are compared in uint32. *)
Definition valid_cas (cb : CASBlock) : Prop :=
  cb_CASFlags cb = 0 /\
  (forall i chunk, cb_Chunks cb !! i = Some chunk ->
     and_not (cc_Flags chunk) ChunkGlobalDedupEligible = 0 /\
     cc_ByteRangeStart chunk = u32 (chunk_bytes (take i (cb_Chunks cb)))) /\
  cb_NumBytesInCAS cb = u32 (chunk_bytes (cb_Chunks cb)).

Definition valid_entry (casInfos : list CASBlock) (entry : FileDataSequenceEntry) : Prop :=
  fe_CASFlags entry = 0 /\
  fe_ChunkIndexStart entry < fe_ChunkIndexEnd entry /\
  forall cb, cb ∈ casInfos -> cb_CASHash cb = fe_CASHash entry ->
    fe_ChunkIndexEnd entry <= u32 (len (cb_Chunks cb)) /\
    u32 (chunk_bytes (slice (fe_ChunkIndexStart entry) (fe_ChunkIndexEnd entry) (cb_Chunks cb))) =
      fe_UnpackedSegBytes entry.

Definition has_flag (flags bit : Z) : Prop := Z.land flags bit <> 0.

Definition valid_file (casInfos : list CASBlock) (fb : FileBlock) : Prop :=
  and_not (fb_Flags fb) (Z.lor FileWithVerification FileWithMetadataExt) = 0 /\
  (has_flag (fb_Flags fb) FileWithVerification ->
     length (fb_Verification fb) = length (fb_Entries fb)) /\
  (~ has_flag (fb_Flags fb) FileWithVerification -> fb_Verification fb = []) /\
  (has_flag (fb_Flags fb) FileWithMetadataExt <-> is_Some (fb_MetadataExt fb)) /\
  Forall (valid_entry casInfos) (fb_Entries fb).

Definition valid_shard (s : Shard) : Prop :=
  NoDup (map cb_CASHash (s_CASInfos s)) /\
  Forall valid_cas (s_CASInfos s) /\
  Forall (valid_file (s_CASInfos s)) (s_Files s).

Lemma chunk_bytes_snoc l c : chunk_bytes (l ++ [c]) = chunk_bytes l + cc_UnpackedSegBytes c.
Proof. unfold chunk_bytes. induction l as [|a l IH]; cbn in *; lia. Qed.

Lemma term_bytes_eq cb start end_ :
  term_bytes cb start end_ = u32 (chunk_bytes (slice start end_ (cb_Chunks cb))).
Proof.
  unfold term_bytes. induction (slice start end_ (cb_Chunks cb)) as [|c l IH] using rev_ind; [done|].
  rewrite foldl_app, chunk_bytes_snoc, IH. cbn. unfold u32. by rewrite Zplus_mod_idemp_l.
Qed.

(** The scan of a block's chunks, from the chunks already passed. *)
Lemma cas_chunks_scan pre l off :
  foldM (fun byteOffset chunk =>
      if negb (and_not (cc_Flags chunk) ChunkGlobalDedupEligible =? 0)
      then Err (Errorf "CAS block %d chunk %d: unknown chunk flags %d")
      else if negb (cc_ByteRangeStart chunk =? byteOffset)
      then Err (Errorf "CAS block %d chunk %d: ByteRangeStart %d, expected %d")
      else Ok (u32 (byteOffset + cc_UnpackedSegBytes chunk))) (u32 (chunk_bytes pre)) l = Ok off <->
  off = u32 (chunk_bytes (pre ++ l)) /\
  forall i chunk, l !! i = Some chunk ->
    and_not (cc_Flags chunk) ChunkGlobalDedupEligible = 0 /\
    cc_ByteRangeStart chunk = u32 (chunk_bytes (pre ++ take i l)).
Proof.
  revert pre. induction l as [|c l IH]; intros pre.
  - cbn. rewrite app_nil_r. split; [by intros [= <-]|by intros [-> _]].
  - cbn [foldM].
    assert (u32 (u32 (chunk_bytes pre) + cc_UnpackedSegBytes c) = u32 (chunk_bytes (pre ++ [c]))) as Hc
      by (rewrite chunk_bytes_snoc; unfold u32; by rewrite Zplus_mod_idemp_l).
    destruct (Z.eqb_spec (and_not (cc_Flags c) ChunkGlobalDedupEligible) 0) as [Hf|Hf]; cbn [negb].
    2: { split; [done|]. intros [_ H]. destruct (H 0%nat c) as [? _]; done. }
    destruct (Z.eqb_spec (cc_ByteRangeStart c) (u32 (chunk_bytes pre))) as [Hs|Hs]; cbn [negb].
    2: { split; [done|]. intros [_ H]. destruct (H 0%nat c) as [_ H0]; [done|].
         rewrite take_0, app_nil_r in H0. done. }
    cbn [mbind result_bind]. rewrite Hc, IH, <- app_assoc. cbn [app].
    split; intros [-> H]; (split; [done|]).
    + intros [|i] chunk; cbn; [intros [= <-]; by rewrite app_nil_r|].
      intros Hi. apply H in Hi as [? Hi]. split; [done|]. by rewrite <- app_assoc in Hi.
    + intros i chunk Hi. destruct (H (S i) chunk Hi) as [? H']. split; [done|].
      rewrite <- app_assoc. done.
Qed.

Lemma validate_cas_block_spec cb : validate_cas_block cb = Ok tt <-> valid_cas cb.
Proof.
  unfold validate_cas_block, valid_cas.
  destruct (Z.eqb_spec (cb_CASFlags cb) 0) as [Hf|Hf]; cbn [negb]; [|by split; [|intros []]].
  pose proof (cas_chunks_scan [] (cb_Chunks cb)) as Hscan. cbn [app] in Hscan.
  change (u32 (chunk_bytes [])) with 0 in Hscan.
  destruct (foldM _ 0 (cb_Chunks cb)) as [off|e] eqn:E; cbn [mbind result_bind].
  - destruct (proj1 (Hscan off) eq_refl) as [-> H].
    destruct (Z.eqb_spec (u32 (chunk_bytes (cb_Chunks cb))) (cb_NumBytesInCAS cb)) as [Hn|Hn]; cbn.
    + split; [by rewrite Hn|done].
    + split; [done|]. intros (_ & _ & Hn'). by rewrite Hn' in Hn.
  - split; [done|]. intros (_ & H & _).
    assert (Err e = Ok (u32 (chunk_bytes (cb_Chunks cb)))) by (apply Hscan; auto). done.
Qed.

(** ** The hash index of the CAS blocks *)

(** [m] maps exactly the hashes of [blocks] to their positions. *)
Definition index_of (blocks : list CASBlock) (m : gmap hash Z) : Prop :=
  forall h i, m !! h = Some i <->
    0 <= i /\ exists cb, blocks !! Z.to_nat i = Some cb /\ cb_CASHash cb = h.

Lemma build_index_loop (pre l : list CASBlock) (m : gmap hash Z) :
  NoDup (map cb_CASHash pre) -> index_of pre m ->
  (NoDup (map cb_CASHash (pre ++ l)) ->
     exists m', foldM (fun (casIndex : gmap hash Z) icb =>
       let '(i, cb) := icb in
       match casIndex !! cb_CASHash cb with
       | Some _ => Err (Errorf "CAS block %d: duplicate CAS hash %x")
       | None => Ok (<[cb_CASHash cb := i]> casIndex)
       end) m (zip (seqZ (len pre) (len l)) l) = Ok m' /\ index_of (pre ++ l) m') /\
  (~ NoDup (map cb_CASHash (pre ++ l)) ->
     foldM (fun (casIndex : gmap hash Z) icb =>
       let '(i, cb) := icb in
       match casIndex !! cb_CASHash cb with
       | Some _ => Err (Errorf "CAS block %d: duplicate CAS hash %x")
       | None => Ok (<[cb_CASHash cb := i]> casIndex)
       end) m (zip (seqZ (len pre) (len l)) l) =
     Err (Errorf "CAS block %d: duplicate CAS hash %x")).
Proof.
  revert pre m. induction l as [|cb l IH]; intros pre m Hnd Hm.
  - rewrite app_nil_r. split; [|done]. intros _. by exists m.
  - pose proof (len_nonneg l). rewrite len_cons, seqZ_cons by lia.
    replace (Z.pred (1 + len l)) with (len l) by lia. cbn [zip zip_with foldM].
    replace (Z.succ (len pre)) with (len (pre ++ [cb])) by (rewrite len_app; done).
    replace (pre ++ cb :: l) with ((pre ++ [cb]) ++ l) by (by rewrite <- app_assoc).
    destruct (m !! cb_CASHash cb) as [i|] eqn:E; cbn [mbind result_bind].
    + apply Hm in E as (Hi & cb' & Hl & Hh). split; [|done]. intros Hn.
      rewrite !map_app in Hn. apply NoDup_app in Hn as (Hn & _). cbn [map] in Hn.
      apply NoDup_app in Hn as (_ & Hn & _). exfalso.
      apply (Hn (cb_CASHash cb)); [|by left]. rewrite <- Hh.
      apply list_elem_of_fmap_2, (list_elem_of_lookup_2 _ _ _ Hl).
    + assert (cb_CASHash cb ∉ map cb_CASHash pre) as Hnew.
      { intros (cb' & Hh & Hin)%list_elem_of_fmap. apply list_elem_of_lookup in Hin as [j Hj].
        assert (m !! cb_CASHash cb = Some (Z.of_nat j)) as HS; [|congruence].
        apply Hm. split; [lia|]. exists cb'. by rewrite Nat2Z.id. }
      apply IH.
      * rewrite map_app. apply NoDup_app. split; [done|]. split; [|apply NoDup_singleton].
        intros x Hx [->|Hx']%elem_of_cons; [done|by apply elem_of_nil in Hx'].
      * intros h i. destruct (decide (cb_CASHash cb = h)) as [<-|Hne].
        -- rewrite lookup_insert_eq. split.
           ++ intros [= <-]. split; [apply len_nonneg|]. exists cb.
              rewrite to_nat_len. by rewrite lookup_app_r, Nat.sub_diag by lia.
           ++ intros (Hi & cb' & Hl & Hh). f_equal.
              destruct (decide (Z.to_nat i < length pre)%nat) as [Hlt|Hge].
              ** rewrite lookup_app_l in Hl by done. exfalso. apply Hnew. rewrite <- Hh.
                 apply list_elem_of_fmap_2, (list_elem_of_lookup_2 _ _ _ Hl).
              ** rewrite lookup_app_r in Hl by lia.
                 destruct (Z.to_nat i - length pre)%nat eqn:En; [|done]. unfold len. lia.
        -- rewrite lookup_insert_ne by done. rewrite (Hm h i).
           split; intros (Hi & cb' & Hl & Hh); (split; [done|]); exists cb'; (split; [|done]).
           ++ by apply lookup_app_l_Some.
           ++ apply lookup_app_Some in Hl as [|[_ Hl]]; [done|].
              destruct (Z.to_nat i - length pre)%nat; [|done]. by injection Hl as ->.
Qed.

Lemma build_cas_index_spec blocks :
  (NoDup (map cb_CASHash blocks) -> exists m, build_cas_index blocks = Ok m /\ index_of blocks m) /\
  (~ NoDup (map cb_CASHash blocks) ->
     build_cas_index blocks = Err (Errorf "CAS block %d: duplicate CAS hash %x")).
Proof.
  apply (build_index_loop [] blocks ∅); [constructor|].
  intros h i. rewrite lookup_empty. split; [done|]. intros (_ & cb & H & _). done.
Qed.

Lemma validate_entry_spec casInfos m entry :
  NoDup (map cb_CASHash casInfos) -> index_of casInfos m ->
  validate_entry casInfos m entry = Ok tt <-> valid_entry casInfos entry.
Proof.
  intros Hnd Hm. unfold validate_entry, valid_entry.
  destruct (Z.eqb_spec (fe_CASFlags entry) 0) as [Hf|Hf]; cbn [negb]; [|by split; [|intros []]].
  destruct (Z.leb_spec (fe_ChunkIndexEnd entry) (fe_ChunkIndexStart entry)) as [Hr|Hr].
  { split; [done|]. intros (_ & ? & _). lia. }
  destruct (m !! fe_CASHash entry) as [i|] eqn:E.
  - apply Hm in E as (Hi & cb & Hl & Hh). rewrite Hl, term_bytes_eq.
    assert (forall cb', cb' ∈ casInfos -> cb_CASHash cb' = fe_CASHash entry -> cb' = cb) as Huniq.
    { intros cb' Hin Hh'. apply list_elem_of_lookup in Hin as [j Hj].
      assert (j = Z.to_nat i) as ->; [|congruence].
      eapply (NoDup_lookup _ _ _ (fe_CASHash entry) Hnd); rewrite list_lookup_fmap.
      - by rewrite Hj, <- Hh'.
      - by rewrite Hl, <- Hh. }
    destruct (Z.ltb_spec (u32 (len (cb_Chunks cb))) (fe_ChunkIndexEnd entry)) as [Hlt|Hle].
    { split; [done|]. intros (_ & _ & H).
      destruct (H cb) as [? _]; [by eapply list_elem_of_lookup_2|done|lia]. }
    destruct (Z.eqb_spec (u32 (chunk_bytes (slice (fe_ChunkIndexStart entry) (fe_ChunkIndexEnd entry)
      (cb_Chunks cb)))) (fe_UnpackedSegBytes entry)) as [Hb|Hb]; cbn [negb].
    + split; [|done]. intros _. split; [done|]. split; [done|].
      intros cb' Hin Hh'. by rewrite (Huniq cb' Hin Hh').
    + split; [done|]. intros (_ & _ & H). by destruct (H cb) as [_ ?]; [by eapply list_elem_of_lookup_2|done|].
  - split; [|done]. intros _. split; [done|]. split; [done|]. intros cb Hin Hh.
    apply list_elem_of_lookup in Hin as [j Hj].
    assert (m !! fe_CASHash entry = Some (Z.of_nat j)) as HS; [|congruence].
    apply Hm. split; [lia|]. exists cb. by rewrite Nat2Z.id.
Qed.

Lemma validate_file_spec casInfos m fb :
  NoDup (map cb_CASHash casInfos) -> index_of casInfos m ->
  validate_file casInfos m fb = Ok tt <-> valid_file casInfos fb.
Proof.
  intros Hnd Hm. unfold validate_file, valid_file, has_flag.
  destruct (Z.eqb_spec (and_not (fb_Flags fb) (Z.lor FileWithVerification FileWithMetadataExt)) 0)
    as [Hf|Hf]; cbn [negb]; [|by split; [|intros []]].
  set (body := foldM _ tt (fb_Entries fb)).
  assert (body = Ok tt <-> Forall (valid_entry casInfos) (fb_Entries fb)) as Hbody.
  { unfold body. rewrite foldM_check. apply Forall_proper; [|done].
    intros e. by apply validate_entry_spec. }
  assert (len (fb_Verification fb) = 0 <-> fb_Verification fb = []) as Hv0.
  { split; [apply len_0_nil|by intros ->]. }
  assert (len (fb_Verification fb) = len (fb_Entries fb) <->
          length (fb_Verification fb) = length (fb_Entries fb)) as Hv1 by (unfold len; lia).
  assert (fb_MetadataExt fb <> None <-> is_Some (fb_MetadataExt fb)) as Hm0
    by (by rewrite <- not_eq_None_Some).
  rewrite <- Hbody, <- Hv0, <- Hv1, <- Hm0. unfold fail_if.
  destruct (Z.eqb_spec (Z.land (fb_Flags fb) FileWithVerification) 0) as [E1|E1]; cbn [negb];
  destruct (Z.eqb_spec (Z.land (fb_Flags fb) FileWithMetadataExt) 0) as [E2|E2]; cbn [negb].
  - destruct (Z.eqb_spec (len (fb_Verification fb)) 0); cbn; try case_bool_decide; cbn; intuition done.
  - destruct (Z.eqb_spec (len (fb_Verification fb)) 0); cbn; try case_bool_decide; cbn; intuition done.
  - destruct (Z.eqb_spec (len (fb_Verification fb)) (len (fb_Entries fb))); cbn; try case_bool_decide; cbn; intuition done.
  - destruct (Z.eqb_spec (len (fb_Verification fb)) (len (fb_Entries fb))); cbn; try case_bool_decide; cbn; intuition done.
Qed.

(** The checks of [Shard.Validate], one by one. *)
Lemma Shard_Validate_valid s : Shard_Validate s = Ok tt <-> valid_shard s.
Proof.
  unfold Shard_Validate, valid_shard.
  destruct (decide (NoDup (map cb_CASHash (s_CASInfos s)))) as [Hnd|Hnd].
  - destruct (proj1 (build_cas_index_spec (s_CASInfos s)) Hnd) as (m & -> & Hm). cbn [mbind result_bind].
    assert (Forall valid_cas (s_CASInfos s) <->
      foldM (fun _ cb => validate_cas_block cb) tt (s_CASInfos s) = Ok tt) as ->.
    { rewrite foldM_check. apply Forall_proper; [|done]. intros cb. by rewrite validate_cas_block_spec. }
    assert (Forall (valid_file (s_CASInfos s)) (s_Files s) <->
      foldM (fun _ fb => validate_file (s_CASInfos s) m fb) tt (s_Files s) = Ok tt) as ->.
    { rewrite foldM_check. apply Forall_proper; [|done]. intros fb. symmetry. by apply validate_file_spec. }
    destruct (foldM (fun _ cb => validate_cas_block cb) tt (s_CASInfos s)) as [[]|]; cbn; intuition done.
  - rewrite (proj2 (build_cas_index_spec (s_CASInfos s)) Hnd). cbn. split; [done|]. by intros [].
Qed.

(** C40: [Shard.Validate] is exact.  It accepts a shard if and only if no two
    CAS blocks share a hash, every CAS block's flags, chunk offsets and total
    are consistent, and every file block's flags match what it carries and
    each of its entries names a non-empty chunk range that, when its xorb is
    in the shard, lies in the xorb and has the declared size (sizes compared
    modulo [2^32], as the code does). *)
Theorem Shard_Validate_exact s : Shard_Validate s = Ok tt <-> valid_shard s.
Proof. apply Shard_Validate_valid. Qed.

(** ** Chunk lookups *)

(** The double loops over blocks and chunks are folds over [stored_chunks]. *)
Lemma foldl_stored {A} (f : A -> ChunkLocation * CASChunkSequenceEntry -> A) a s :
  foldl (fun a block =>
    foldl (fun a ic => f a (MkChunkLocation (cb_CASHash block) (u32 ic.1), ic.2)) a
      (indexed (cb_Chunks block))) a (s_CASInfos s) = foldl f a (stored_chunks s).
Proof.
  unfold stored_chunks. revert a. induction (s_CASInfos s) as [|b bs IH]; intros a; [done|].
  cbn [foldl mbind list_bind]. rewrite foldl_app, IH. f_equal.
  revert a. induction (indexed (cb_Chunks b)) as [|ic l IHl]; intros a; [done|]. cbn. apply IHl.
Qed.

Section lookup_props.
Context {B3 : Blake3}.
Implicit Types (l : list (ChunkLocation * CASChunkSequenceEntry)).

(** The shard stores chunk hash [st] at [loc]. *)
Definition stores l (st : ChunkHash) (loc : ChunkLocation) : Prop :=
  exists c, (loc, c) ∈ l /\ cc_ChunkHash c = st.

Lemma ChunkLocations_fold l (m : gmap ChunkHash ChunkLocation) st :
  match foldl (fun (stored : gmap ChunkHash ChunkLocation) p => <[cc_ChunkHash p.2 := p.1]> stored) m l !! st with
  | Some loc => stores l st loc \/ m !! st = Some loc
  | None => m !! st = None /\ forall loc, ~ stores l st loc
  end.
Proof.
  revert m. induction l as [|[loc0 c0] l IH]; intros m; cbn.
  - destruct (m !! st); [by right|]. split; [done|]. intros loc (c & H & _). by apply elem_of_nil in H.
  - specialize (IH (<[cc_ChunkHash c0 := loc0]> m)). destruct (foldl _ _ l !! st) as [loc|].
    + destruct IH as [(c & Hin & Hc)|Hm].
      * left. exists c. split; [by right|done].
      * destruct (decide (cc_ChunkHash c0 = st)) as [<-|Hne].
        -- rewrite lookup_insert_eq in Hm. injection Hm as <-. left. exists c0. split; [by left|done].
        -- rewrite lookup_insert_ne in Hm by done. by right.
    + destruct IH as [Hm Hno]. destruct (decide (cc_ChunkHash c0 = st)) as [<-|Hne].
      { by rewrite lookup_insert_eq in Hm. }
      rewrite lookup_insert_ne in Hm by done. split; [done|].
      intros loc (c & [[= -> ->]|Hin]%elem_of_cons & Hc); [done|]. apply (Hno loc). by exists c.
Qed.

Lemma ChunkLocations_spec s st :
  match ChunkLocations s !! st with
  | Some loc => stores (stored_chunks s) st loc
  | None => forall loc, ~ stores (stored_chunks s) st loc
  end.
Proof.
  unfold ChunkLocations.
  rewrite (foldl_stored (fun (m : gmap ChunkHash ChunkLocation) p => <[cc_ChunkHash p.2 := p.1]> m)).
  pose proof (ChunkLocations_fold (stored_chunks s) ∅ st) as H.
  destruct (foldl _ _ _ !! st); [|by destruct H]. destruct H as [|H]; [done|].
  by rewrite lookup_empty in H.
Qed.

Lemma find_chunk_spec st i chunks :
  match find_chunk st i chunks with
  | Some j => exists c, (j, c) ∈ zip (seqZ i (len chunks)) chunks /\ cc_ChunkHash c = st
  | None => forall j c, (j, c) ∈ zip (seqZ i (len chunks)) chunks -> cc_ChunkHash c <> st
  end.
Proof.
  revert i. induction chunks as [|c chunks IH]; intros i; cbn [find_chunk].
  - intros j c H. by apply elem_of_nil in H.
  - rewrite len_cons, seqZ_cons by (pose proof (len_nonneg chunks); lia).
    replace (Z.pred (1 + len chunks)) with (len chunks) by lia. cbn [zip zip_with].
    case_bool_decide as Hc.
    + exists c. split; [by left|done].
    + specialize (IH (i + 1)). destruct (find_chunk st (i + 1) chunks) as [j|].
      * destruct IH as (c' & Hin & Hc'). exists c'. split; [by right|done].
      * intros j c' [[= -> ->]|Hin]%elem_of_cons; [done|by eapply IH].
Qed.

Lemma LookupChunk_spec s h :
  match LookupChunk s h with
  | Some loc => stores (stored_chunks s) (storedHash s h) loc
  | None => forall loc, ~ stores (stored_chunks s) (storedHash s h) loc
  end.
Proof.
  unfold LookupChunk, stored_chunks. set (st := storedHash s h).
  induction (s_CASInfos s) as [|b bs IH]; cbn [lookup_blocks mbind list_bind].
  { intros loc (c & H & _). by apply elem_of_nil in H. }
  pose proof (find_chunk_spec st 0 (cb_Chunks b)) as Hf.
  destruct (find_chunk st 0 (cb_Chunks b)) as [i|].
  - destruct Hf as (c & Hin & Hc). exists c. split; [|done]. apply elem_of_app. left.
    apply list_elem_of_fmap. by exists (i, c).
  - destruct (lookup_blocks st bs) as [loc|].
    + destruct IH as (c & Hin & Hc). exists c. split; [|done]. apply elem_of_app. by right.
    + intros loc (c & [Hin|Hin]%elem_of_app & Hc).
      * apply list_elem_of_fmap in Hin as ([j c'] & [= -> ->] & Hin). by apply (Hf j c').
      * apply (IH loc). by exists c.
Qed.

Lemma ResolveChunks_fold (s : Shard) (hashes : list ChunkHash) (h : ChunkHash) (loc : ChunkLocation)
    (stored m : gmap ChunkHash ChunkLocation) :
  foldl (fun results h =>
    match stored !! storedHash s h with
    | Some loc => <[h := loc]> results
    | None => results
    end) m hashes !! h = Some loc <->
  (h ∈ hashes /\ stored !! storedHash s h = Some loc) \/
  (m !! h = Some loc /\ (h ∈ hashes -> stored !! storedHash s h = None)).
Proof.
  revert m. induction hashes as [|h0 hs IH]; intros m; cbn [foldl].
  - split; [intros H; right; split; [done|intros Hin; by apply elem_of_nil in Hin]|].
    intros [[Hin _]|[H _]]; [by apply elem_of_nil in Hin|done].
  - rewrite IH. rewrite !elem_of_cons.
    destruct (stored !! storedHash s h0) as [l0|] eqn:E0.
    + destruct (decide (h = h0)) as [->|Hne].
      * rewrite lookup_insert_eq, E0. split.
        -- intros [[_ H]|[H Hn]]; left; (split; [by left|done]).
        -- intros [[_ H]|[_ Hn]]; [|by specialize (Hn (or_introl eq_refl))].
           destruct (decide (h0 ∈ hs)); [by left|right]. split; [done|by intros].
      * rewrite lookup_insert_ne by done. split.
        -- intros [[? ?]|[? Hn]]; [left; by auto|right]. split; [done|]. by intros [|]; auto.
        -- intros [[[|] ?]|[? Hn]]; [done|left; by auto|right]. split; [done|]. by auto.
    + destruct (decide (h = h0)) as [->|Hne].
      * rewrite E0. split.
        -- intros [[_ H]|[H Hn]]; [done|]. right. split; [done|done].
        -- intros [[_ H]|[H Hn]]; [done|]. right. split; [done|done].
      * split.
        -- intros [[? ?]|[? Hn]]; [left; by auto|right]. split; [done|]. by intros [|]; auto.
        -- intros [[[|] ?]|[? Hn]]; [done|left; by auto|right]. split; [done|]. by auto.
Qed.
End lookup_props.

(** Chunk lookups.  [LookupChunk] and [ResolveChunks] return only
    locations at which the shard stores the chunk (its keyed hash in a keyed
    shard), and each finds a location for every chunk the shard stores; so the
    two succeed on the same chunks, though for a chunk stored twice they may
    name different copies. *)
Theorem chunk_lookups {B3 : Blake3} s h hashes :
  h ∈ hashes ->
  (forall loc, LookupChunk s h = Some loc -> stores (stored_chunks s) (storedHash s h) loc) /\
  (forall loc, ResolveChunks s hashes !! h = Some loc -> stores (stored_chunks s) (storedHash s h) loc) /\
  (forall loc, stores (stored_chunks s) (storedHash s h) loc ->
     is_Some (LookupChunk s h) /\ is_Some (ResolveChunks s hashes !! h)) /\
  (is_Some (LookupChunk s h) <-> is_Some (ResolveChunks s hashes !! h)).
Proof.
  intros Hin. pose proof (LookupChunk_spec s h) as HL. pose proof (ChunkLocations_spec s (storedHash s h)) as HC.
  assert (forall loc, ResolveChunks s hashes !! h = Some loc <-> ChunkLocations s !! storedHash s h = Some loc) as HR.
  { intros loc. unfold ResolveChunks. rewrite ResolveChunks_fold, lookup_empty. naive_solver. }
  assert (is_Some (LookupChunk s h) <-> exists loc, stores (stored_chunks s) (storedHash s h) loc) as H1.
  { destruct (LookupChunk s h) as [l|]; [by split; eauto|]. split; [by intros []|]. intros [loc H]. by apply HL in H. }
  assert (is_Some (ResolveChunks s hashes !! h) <-> exists loc, stores (stored_chunks s) (storedHash s h) loc) as H2.
  { destruct (ChunkLocations s !! storedHash s h) as [l|].
    - split; [by eauto|]. intros _. exists l. by apply HR.
    - split; [intros [l Hl]; by apply HR in Hl|]. intros [loc H]. by apply HC in H. }
  split; [intros loc E; by rewrite E in HL|].
  split; [intros loc E%HR; by rewrite E in HC|].
  split; [intros loc H; split; [apply H1|apply H2]; eauto|]. by rewrite H1, H2.
Qed.

Lemma chunk_lookups_witness :
  exists loc, LookupChunk (B3 := {| blake3_keyed _ _ := zeroHash |})
    (MkShard 0 [] [MkCASBlock zeroHash 0 [MkCASChunk zeroHash 0 1 0] 1 9] None) zeroHash = Some loc.
Proof.
  destruct (chunk_lookups (B3 := {| blake3_keyed _ _ := zeroHash |})
    (MkShard 0 [] [MkCASBlock zeroHash 0 [MkCASChunk zeroHash 0 1 0] 1 9] None) zeroHash [zeroHash])
    as (_ & _ & H & _).
  - left.
  - destruct (H (MkChunkLocation zeroHash 0)) as [[loc Hl] _].
    + exists (MkCASChunk zeroHash 0 1 0). split; [left|reflexivity].
    + exists loc. exact Hl.
Defined.

(** ** Deduplication-eligible chunks *)

Definition located (p : ChunkLocation * CASChunkSequenceEntry) : LocatedChunk :=
  MkLocatedChunk (cc_ChunkHash p.2) p.1.

Definition eligible_in (starts : gset ChunkLocation) (p : ChunkLocation * CASChunkSequenceEntry) : bool :=
  IsChunkGlobalDedupEligible (cc_ChunkHash p.2) (bool_decide (p.1 ∈ starts)) (cc_Flags p.2).

(** [p] is the first eligible element of [l] with its hash. *)
Definition first_eligible (el : ChunkLocation * CASChunkSequenceEntry -> bool)
    (l : list (ChunkLocation * CASChunkSequenceEntry)) (p : ChunkLocation * CASChunkSequenceEntry) : Prop :=
  el p = true /\ exists l1 l2, l = l1 ++ p :: l2 /\
    Forall (fun q => el q = true -> cc_ChunkHash q.2 <> cc_ChunkHash p.2) l1.

Definition eligible_step (el : ChunkLocation * CASChunkSequenceEntry -> bool)
    (acc : list LocatedChunk * gset ChunkHash) (p : ChunkLocation * CASChunkSequenceEntry) :
    list LocatedChunk * gset ChunkHash :=
  if negb (el p) then acc
  else if bool_decide (cc_ChunkHash p.2 ∈ acc.2) then acc
  else (acc.1 ++ [located p], {[cc_ChunkHash p.2]} ∪ acc.2).

Record elig_inv (el : ChunkLocation * CASChunkSequenceEntry -> bool)
    (l : list (ChunkLocation * CASChunkSequenceEntry)) (acc : list LocatedChunk * gset ChunkHash) : Prop := {
  ei_elem : forall x, x ∈ acc.1 <-> exists p, first_eligible el l p /\ x = located p;
  ei_nodup : NoDup (map lc_Hash acc.1);
  ei_seen : forall h, h ∈ acc.2 <-> exists p, p ∈ l /\ el p = true /\ cc_ChunkHash p.2 = h;
  ei_seen_map : forall h, h ∈ acc.2 <-> h ∈ map lc_Hash acc.1;
}.

Lemma first_eligible_snoc el l q p :
  first_eligible el (l ++ [q]) p <->
  first_eligible el l p \/
  (p = q /\ el q = true /\ forall r, r ∈ l -> el r = true -> cc_ChunkHash r.2 <> cc_ChunkHash q.2).
Proof.
  unfold first_eligible. split.
  - intros (Hp & l1 & l2 & Hl & Hf). destruct l2 as [|x l2 _] using rev_ind.
    + apply app_inj_tail in Hl as [<- <-]. right. split; [done|]. split; [done|].
      by rewrite Forall_forall in Hf.
    + rewrite app_comm_cons, app_assoc in Hl. apply app_inj_tail in Hl as [-> ->].
      left. split; [done|]. by exists l1, l2.
  - intros [(Hp & l1 & l2 & -> & Hf)|(-> & Hq & Hf)].
    + split; [done|]. exists l1, (l2 ++ [q]). by rewrite <- app_assoc.
    + split; [done|]. exists l, []. split; [done|]. by apply Forall_forall.
Qed.

Lemma elig_step_inv el l acc q : elig_inv el l acc -> elig_inv el (l ++ [q]) (eligible_step el acc q).
Proof.
  intros [He Hn Hs Hsm]. unfold eligible_step. destruct (el q) eqn:Eq; cbn [negb].
  - case_bool_decide as Hin.
    + constructor; [|done| |done].
      * intros x. rewrite He. apply exist_proper. intros p. rewrite first_eligible_snoc.
        split; [naive_solver|]. intros [[|(-> & _ & Hno)] ->]; [done|].
        apply Hs in Hin as (r & Hr & Er & Hh). exfalso. by eapply Hno.
      * intros h. rewrite Hs. split.
        -- intros (p & Hp & H). exists p. rewrite elem_of_app. by auto.
        -- intros (p & [Hp|Hp]%elem_of_app & H1 & H2); [by eauto|].
           apply list_elem_of_singleton in Hp as ->. rewrite <- H2. by apply Hs.
    + constructor; cbn [fst snd].
      * intros x. rewrite elem_of_app, He, list_elem_of_singleton. split.
        -- intros [(p & Hp & ->)| ->].
           ++ exists p. rewrite first_eligible_snoc. auto.
           ++ exists q. rewrite first_eligible_snoc. split; [|done]. right. split; [done|].
              split; [done|]. intros r Hr Er Hh. apply Hin, Hs. by exists r.
        -- intros (p & [H|(-> & _)]%first_eligible_snoc & ->); eauto.
      * rewrite map_app. apply NoDup_app. split; [done|]. split; [|apply NoDup_singleton].
        intros h Hh ->%list_elem_of_singleton. by apply Hin, Hsm.
      * intros h. rewrite elem_of_union, elem_of_singleton, Hs. split.
        -- intros [->|(p & Hp & H)]; [exists q|exists p]; rewrite elem_of_app; [|by auto].
           split; [right; by left|done].
        -- intros (p & [Hp|Hp]%elem_of_app & H1 & H2); [by eauto|].
           apply list_elem_of_singleton in Hp as ->. by left.
      * intros h. rewrite elem_of_union, elem_of_singleton, Hsm, map_app, elem_of_app.
        cbn. rewrite list_elem_of_singleton. tauto.
  - constructor; [|done| |done].
    + intros x. rewrite He. apply exist_proper. intros p. rewrite first_eligible_snoc.
      split; [naive_solver|]. intros [[|(-> & ? & _)] ->]; [done|congruence].
    + intros h. rewrite Hs. split.
      * intros (p & Hp & H). exists p. rewrite elem_of_app. by auto.
      * intros (p & [Hp|Hp]%elem_of_app & H1 & H2); [by eauto|].
        apply list_elem_of_singleton in Hp as ->. congruence.
Qed.

Lemma eligible_fold el l : elig_inv el l (foldl (eligible_step el) ([], ∅) l).
Proof.
  induction l as [|q l IH] using rev_ind.
  - constructor; cbn.
    + intros x. split; [by intros ?%elem_of_nil|]. intros (p & (_ & l1 & l2 & H & _) & _). by destruct l1.
    + constructor.
    + intros h. split; [by intros ?%elem_of_empty|]. intros (p & Hp & _). by apply elem_of_nil in Hp.
    + intros h. split; [by intros ?%elem_of_empty|by intros ?%elem_of_nil].
  - rewrite foldl_app. cbn. by apply elig_step_inv.
Qed.

(** [GlobalDedupEligibleChunks] lists each eligible hash once, at its
    first eligible location in CASInfos order, and lists every one. *)
Theorem GlobalDedupEligibleChunks_spec s :
  let el := eligible_in (fileStarts s) in
  NoDup (map lc_Hash (GlobalDedupEligibleChunks s)) /\
  (forall x, x ∈ GlobalDedupEligibleChunks s <->
     exists p, first_eligible el (stored_chunks s) p /\ x = located p) /\
  (forall p, p ∈ stored_chunks s -> el p = true ->
     cc_ChunkHash p.2 ∈ map lc_Hash (GlobalDedupEligibleChunks s)).
Proof.
  cbn zeta. unfold GlobalDedupEligibleChunks.
  destruct (eligible_fold (eligible_in (fileStarts s)) (stored_chunks s)) as [He Hn Hs Hsm].
  rewrite <- (foldl_stored (eligible_step (eligible_in (fileStarts s)))) in He, Hn, Hs, Hsm.
  split; [exact Hn|]. split; [exact He|]. intros p Hp Ep. apply Hsm, Hs. eauto.
Qed.
