(* ===== verification/ShardBuild.v ===== *)
(** * Building shards: [shard/build.go]

    [BuildShard] turns the files of an upload, given as lists of indices into a
    list of located chunks, into file blocks whose terms are runs of
    consecutive chunks of one xorb, and the chunks the upload stores itself into
    CAS blocks, sorted by printed hash.  An index outside the chunk list is a
    run-time panic.  Proved: the terms of a file block cut the file's chunk
    sequence into maximal runs and carry the size and the verification hash of
    their run; and the shard passes [Shard.Validate] when the chunks' recorded
    positions agree with the order in which they are stored. *)

From Stdlib Require Import ZArith Lia Strings.Byte Strings.String.
From S2P Require Import Prelude Hash Merkle Shard.

(** ** Data *)

Record FileInfo : Type := MkFileInfo {
  fi_Hash : FileHash;
  fi_SHA256 : SHA256Hash;
  fi_ChunkIndices : list Z;
}.

Record ChunkInfo : Type := MkChunkInfo {
  ci_Hash : ChunkHash;
  ci_Size : Z;
  ci_IsNew : bool;
  ci_XorbHash : XorbHash;
  ci_ChunkIndex : Z;
}.

(** The local type [term]. *)
Record term : Type := MkTerm {
  t_xorbHash : XorbHash;
  t_startIndex : Z;
  t_endIndex : Z;
  t_bytes : Z;
  t_chunkStart : Z;
  t_chunkEnd : Z;
}.

Definition zero_term : term := MkTerm zeroHash 0 0 0 0 0.

Definition set_chunkEnd (i : Z) (t : term) : term :=
  MkTerm (t_xorbHash t) (t_startIndex t) (t_endIndex t) (t_bytes t) (t_chunkStart t) i.

(** [chunks[idx]]. *)
Definition chunk_at (chunks : list ChunkInfo) (idx : Z) : result ChunkInfo :=
  match (if idx <? 0 then None else chunks !! Z.to_nat idx) with
  | Some chunk => Ok chunk
  | None => Err (Panic "index out of range")
  end.

(** ** File blocks *)

(** One iteration of the loop that groups chunks into terms; [i] is the
    position in the file. *)
Definition term_step (i : Z) (chunk : ChunkInfo) (st : list term * term) : list term * term :=
  let '(terms, cur) := st in
  if (i =? 0) || negb (bool_decide (ci_XorbHash chunk = t_xorbHash cur))
     || negb (ci_ChunkIndex chunk =? t_endIndex cur)
  then (if 0 <? i then terms ++ [set_chunkEnd i cur] else terms,
        MkTerm (ci_XorbHash chunk) (ci_ChunkIndex chunk) (u32 (ci_ChunkIndex chunk + 1)) (ci_Size chunk) i 0)
  else (terms,
        MkTerm (t_xorbHash cur) (t_startIndex cur) (u32 (t_endIndex cur + 1)) (u32 (t_bytes cur + ci_Size chunk))
          (t_chunkStart cur) (t_chunkEnd cur)).

Definition group_terms (chunks : list ChunkInfo) (indices : list Z) : result (list term) :=
  '(terms, cur) ← foldM (fun st iidx => chunk ← chunk_at chunks iidx.2; Ok (term_step iidx.1 chunk st))
    ([], zero_term) (indexed indices);
  Ok (if 0 <? len indices then terms ++ [set_chunkEnd (len indices) cur] else terms).

Section build.
Context {B3 : Blake3}.

(** The loop that appends the entries and the verification hashes. *)
Definition add_term (fileChunkHashes : list ChunkHash) (fb : FileBlock) (t : term) : FileBlock :=
  MkFileBlock (fb_FileHash fb) (fb_Flags fb)
    (fb_Entries fb ++ [MkFileEntry (t_xorbHash t) 0 (t_bytes t) (t_startIndex t) (t_endIndex t)])
    (fb_Verification fb ++ [ComputeVerificationHash (slice (t_chunkStart t) (t_chunkEnd t) fileChunkHashes)])
    (fb_MetadataExt fb).

(** The block before its entries. *)
Definition new_file_block (file : FileInfo) : FileBlock :=
  let fileBlock := MkFileBlock (fi_Hash file) FileWithVerification [] [] None in
  if bool_decide (fi_SHA256 file <> zeroHash)
  then MkFileBlock (fb_FileHash fileBlock) (Z.lor (fb_Flags fileBlock) FileWithMetadataExt) (fb_Entries fileBlock)
         (fb_Verification fileBlock) (Some (MkFileMetadataExt (fi_SHA256 file)))
  else fileBlock.

Definition build_file (chunks : list ChunkInfo) (file : FileInfo) : result FileBlock :=
  fileChunkHashes ← foldM (fun hs idx => chunk ← chunk_at chunks idx; Ok (hs ++ [ci_Hash chunk]))
    [] (fi_ChunkIndices file);
  let fileBlock := new_file_block file in
  terms ← group_terms chunks (fi_ChunkIndices file);
  Ok (foldl (add_term fileChunkHashes) fileBlock terms).

(** ** CAS blocks *)

(** The hashes of the chunks files start with. *)
Definition first_file_chunks (files : list FileInfo) (chunks : list ChunkInfo) : result (gset ChunkHash) :=
  foldM (fun (firsts : gset ChunkHash) file =>
    match fi_ChunkIndices file with
    | [] => Ok firsts
    | idx :: _ => chunk ← chunk_at chunks idx; Ok ({[ci_Hash chunk]} ∪ firsts)
    end) ∅ files.

(** One iteration over the chunks: the block of the chunk's xorb is created or
    extended. *)
Definition cas_step (firstFileChunks : gset ChunkHash) (st : gmap XorbHash CASBlock * gset ChunkHash)
    (chunk : ChunkInfo) : gmap XorbHash CASBlock * gset ChunkHash :=
  let '(casBlocks, seen) := st in
  if negb (ci_IsNew chunk) || bool_decide (ci_Hash chunk ∈ seen) then st
  else
    let seen := {[ci_Hash chunk]} ∪ seen in
    let cb := default (MkCASBlock (ci_XorbHash chunk) 0 [] 0 0) (casBlocks !! ci_XorbHash chunk) in
    let isFirstFileChunk := bool_decide (ci_Hash chunk ∈ firstFileChunks) in
    let flags := if IsChunkGlobalDedupEligible (ci_Hash chunk) isFirstFileChunk 0
                 then ChunkGlobalDedupEligible else 0 in
    (<[ci_XorbHash chunk :=
        MkCASBlock (cb_CASHash cb) (cb_CASFlags cb)
          (cb_Chunks cb ++ [MkCASChunk (ci_Hash chunk) (cb_NumBytesInCAS cb) (ci_Size chunk) flags])
          (u32 (cb_NumBytesInCAS cb + ci_Size chunk)) (cb_NumBytesOnDisk cb)]> casBlocks, seen).

Definition cas_le (a b : CASBlock) : Prop := string_le (formatHash (cb_CASHash a)) (formatHash (cb_CASHash b)).
#[global] Instance cas_le_dec : RelDecision cas_le := fun a b => decide (string_le _ _).

(** [BuildShard]; the keys of the map are distinct, so the order after sorting
    does not depend on the order of the iteration over the map. *)
Definition BuildShard (files : list FileInfo) (chunks : list ChunkInfo) : result Shard :=
  firstFileChunks ← first_file_chunks files chunks;
  sh ← foldM (fun sh file => fb ← build_file chunks file; Ok (AddFile sh fb)) NewShard files;
  let '(casBlocks, _) := foldl (cas_step firstFileChunks) (∅, ∅) chunks in
  Ok (MkShard (s_FooterSize sh) (s_Files sh)
        (merge_sort cas_le (snd <$> map_to_list casBlocks)) (s_Footer sh)).
End build.

(** ** What the terms describe *)

Definition ci_loc (c : ChunkInfo) : XorbHash * Z := (ci_XorbHash c, ci_ChunkIndex c).

Definition run_size (cs : list ChunkInfo) : Z := foldr (fun c s => ci_Size c + s) 0 cs.

(** The chunk positions of a term. *)
Definition span (x : XorbHash) (start end_ : Z) : list (XorbHash * Z) :=
  (fun k => (x, k)) <$> seqZ start (end_ - start).

(** A term describes a run of chunks. *)
Record describes (t : term) (p : list ChunkInfo) : Prop := {
  ds_bytes : t_bytes t = u32 (run_size p);
  ds_end : t_endIndex t = t_startIndex t + len p;
  ds_start : 0 <= t_startIndex t;
  ds_locs : map ci_loc p = span (t_xorbHash t) (t_startIndex t) (t_endIndex t);
  ds_nonempty : p <> [];
}.

(** The terms describe consecutive runs of the file, from position [off]. *)
Fixpoint spans (off : Z) (ts : list term) (ps : list (list ChunkInfo)) : Prop :=
  match ts, ps with
  | [], [] => True
  | t :: ts, p :: ps =>
      t_chunkStart t = off /\ t_chunkEnd t = off + len p /\ describes t p /\ spans (off + len p) ts ps
  | _, _ => False
  end.

(** Two neighbouring terms could not be one. *)
Fixpoint maximal (ts : list term) : Prop :=
  match ts with
  | t :: ((t' :: _) as ts) => (t_xorbHash t', t_startIndex t') <> (t_xorbHash t, t_endIndex t) /\ maximal ts
  | _ => True
  end.

Lemma run_size_snoc p c : run_size (p ++ [c]) = run_size p + ci_Size c.
Proof. unfold run_size. induction p as [|a p IH]; cbn in *; lia. Qed.

Lemma span_snoc x start end_ : 0 <= start <= end_ -> span x start (end_ + 1) = span x start end_ ++ [(x, end_)].
Proof.
  intros H. unfold span. replace (end_ + 1 - start) with (end_ - start + 1) by lia.
  rewrite seqZ_app, fmap_app by lia. f_equal. replace (start + (end_ - start)) with end_ by lia.
  done.
Qed.

Lemma len_concat_snoc {A} (ps : list (list A)) p : len (concat (ps ++ [p])) = len (concat ps) + len p.
Proof. by rewrite concat_app, len_app; cbn; rewrite app_nil_r. Qed.

Lemma spans_snoc off ts ps t p :
  spans off ts ps -> t_chunkStart t = off + len (concat ps) -> t_chunkEnd t = t_chunkStart t + len p ->
  describes t p -> spans off (ts ++ [t]) (ps ++ [p]).
Proof.
  revert off ps. induction ts as [|t0 ts IH]; intros off [|p0 ps]; try done.
  - intros _ H1 H2 H3. change (len (concat [])) with 0 in H1. cbn. split_and!; [lia|lia|done..].
  - cbn. intros (H1 & H2 & H3 & H4) H5 H6 H7. split_and!; [done..|]. apply IH; [done| |done..].
    rewrite H5, len_app. lia.
Qed.

Lemma spans_slices pre ts ps :
  spans (len pre) ts ps ->
  Forall2 (fun t p => describes t p /\ slice (t_chunkStart t) (t_chunkEnd t) (pre ++ concat ps) = p) ts ps.
Proof.
  revert pre ps. induction ts as [|t ts IH]; intros pre [|p ps]; try done. cbn.
  intros (H1 & H2 & H3 & H4). constructor.
  - split; [done|]. apply slice_mid; [done|]. by rewrite H2, H1.
  - rewrite app_assoc. apply IH. by rewrite len_app.
Qed.

Lemma maximal_snoc ts t t' :
  maximal (ts ++ [t]) -> (t_xorbHash t', t_startIndex t') <> (t_xorbHash t, t_endIndex t) ->
  maximal ((ts ++ [t]) ++ [t']).
Proof.
  induction ts as [|a ts IH]; [cbn; auto|]. intros Hm Hne. destruct ts as [|b ts].
  - cbn in *. intuition.
  - cbn [app maximal] in *. destruct Hm as [? Hm]. split; [done|]. by apply IH.
Qed.

(** The loop invariant after the chunks [cs]: all but the last run are closed. *)
Record grouped (cs : list ChunkInfo) (st : list term * term) : Prop := MkGrouped {
  gr_run : cs <> [] -> exists ps p, cs = concat ps ++ p /\ spans 0 st.1 ps /\ describes st.2 p /\
    t_chunkStart st.2 = len (concat ps) /\ maximal (st.1 ++ [st.2]);
  gr_none : cs = [] -> st.1 = [];
}.

Definition index_ok (c : ChunkInfo) : Prop := 0 <= ci_ChunkIndex c < 2 ^ 32 - 1 /\ is_u32 (ci_Size c).

Lemma describes_single c i : index_ok c ->
  describes (MkTerm (ci_XorbHash c) (ci_ChunkIndex c) (u32 (ci_ChunkIndex c + 1)) (ci_Size c) i 0) [c].
Proof.
  intros [Hi Hs]. rewrite u32_small by (unfold is_u32; lia). constructor; cbn [t_bytes t_endIndex t_startIndex t_xorbHash].
  - cbn. by rewrite Z.add_0_r, u32_small.
  - change (len [c]) with 1. lia.
  - lia.
  - cbn. unfold span. rewrite Z.add_simpl_l. done.
  - done.
Qed.

Lemma describes_snoc t p c i j : index_ok c -> describes t p ->
  ci_XorbHash c = t_xorbHash t -> ci_ChunkIndex c = t_endIndex t ->
  describes (MkTerm (t_xorbHash t) (t_startIndex t) (u32 (t_endIndex t + 1)) (u32 (t_bytes t + ci_Size c)) i j)
    (p ++ [c]).
Proof.
  intros [Hi Hs] [H1 H2 H3 H4 H5] Hx He. rewrite (u32_small (t_endIndex t + 1)) by (unfold is_u32; lia).
  constructor; cbn [t_bytes t_endIndex t_startIndex t_xorbHash].
  - rewrite run_size_snoc, H1. unfold u32. by rewrite Zplus_mod_idemp_l.
  - rewrite len_app. change (len [c]) with 1. lia.
  - done.
  - rewrite map_app, H4, span_snoc; [|split; [lia|]; pose proof (len_nonneg p); lia].
    cbn. unfold ci_loc. by rewrite Hx, He.
  - by destruct p.
Qed.

Lemma describes_chunkEnd t p i : describes t p -> describes (set_chunkEnd i t) p.
Proof. by intros []. Qed.

Lemma maximal_chunkEnd ts t i : maximal (ts ++ [t]) -> maximal (ts ++ [set_chunkEnd i t]).
Proof.
  induction ts as [|a ts IH]; [done|]. destruct ts as [|b ts]; [done|]. cbn [app maximal] in *.
  intros [? Hm]. split; [done|]. by apply IH.
Qed.

(** A term may grow without becoming mergeable with the one before it. *)
Lemma maximal_grow ts t e b :
  maximal (ts ++ [t]) -> maximal (ts ++ [MkTerm (t_xorbHash t) (t_startIndex t) e b (t_chunkStart t) (t_chunkEnd t)]).
Proof.
  induction ts as [|a ts IH]; [done|]. destruct ts as [|c ts]; [done|]. cbn [app maximal] in *.
  intros [? Hm]. split; [done|]. by apply IH.
Qed.

Lemma term_step_grouped cs c st :
  index_ok c -> grouped cs st -> grouped (cs ++ [c]) (term_step (len cs) c st).
Proof.
  intros Hc [Hrun Hnone]. destruct st as [terms cur]. cbn [fst snd] in *. split; [|by destruct cs]. intros _.
  unfold term_step. destruct (Z.eqb_spec (len cs) 0) as [Hz|Hz]; cbn [orb].
  - apply len_0_nil in Hz as ->. change (len []) with 0. cbn [Z.ltb Z.compare]. rewrite (Hnone eq_refl).
    exists [], [c]. cbn [fst snd concat app]. split_and!; try done. by apply describes_single.
  - assert (cs <> []) as Hne by (by intros ->). destruct (Hrun Hne) as (ps & p & -> & H1 & H2 & H3 & H4).
    assert (0 < len (concat ps ++ p)) as Hpos by (pose proof (len_nonneg (concat ps ++ p)); lia).
    destruct (bool_decide (ci_XorbHash c = t_xorbHash cur)) eqn:Hx; [destruct (Z.eqb_spec (ci_ChunkIndex c) (t_endIndex cur)) as [He|He]|].
    { apply bool_decide_eq_true in Hx. exists ps, (p ++ [c]). cbn [fst snd negb orb]. rewrite app_assoc. split_and!; try done.
      - by apply describes_snoc.
      - by eapply maximal_grow. }
    all: cbn [orb negb]; rewrite (proj2 (Z.ltb_lt _ _) Hpos); exists (ps ++ [p]), [c]; cbn [fst snd]; split_and!.
    all: try by apply describes_single.
    all: try (cbn; by rewrite len_concat_snoc, len_app).
    all: try (by rewrite concat_app; cbn; rewrite app_nil_r).
    all: try (apply spans_snoc; [done|cbn; lia|cbn; rewrite len_app; lia|by apply describes_chunkEnd]).
    all: apply maximal_snoc; [by apply maximal_chunkEnd|].
    all: try apply bool_decide_eq_false in Hx; cbn; naive_solver.
Qed.

(** The chunks a list of indices selects. *)
Definition selects (chunks : list ChunkInfo) (indices : list Z) (cs : list ChunkInfo) : Prop :=
  Forall2 (fun idx c => chunk_at chunks idx = Ok c) indices cs.

Lemma chunk_at_elem chunks idx c : chunk_at chunks idx = Ok c -> c ∈ chunks.
Proof.
  unfold chunk_at. destruct (idx <? 0); [done|]. destruct (chunks !! _) eqn:E; [|done].
  intros [= <-]. by eapply list_elem_of_lookup_2.
Qed.

Lemma selects_elem chunks indices cs c : selects chunks indices cs -> c ∈ cs -> c ∈ chunks.
Proof.
  induction 1 as [|idx c' indices cs H _ IH]; [by intros ?%elem_of_nil|].
  intros [->|?]%elem_of_cons; [by eapply chunk_at_elem|auto].
Qed.

Lemma term_loop chunks indices cs pre st :
  selects chunks indices cs -> Forall index_ok cs -> grouped pre st ->
  exists st', foldM (fun st iidx => chunk ← chunk_at chunks iidx.2; Ok (term_step iidx.1 chunk st)) st
    (zip (seqZ (len pre) (len indices)) indices) = Ok st' /\ grouped (pre ++ cs) st'.
Proof.
  intros Hsel. revert pre st. induction Hsel as [|idx c indices cs Hc _ IH]; intros pre st Hok Hg.
  - exists st. by rewrite app_nil_r.
  - apply Forall_cons in Hok as [Hci Hok].
    rewrite len_cons, seqZ_cons by (pose proof (len_nonneg indices); lia).
    replace (Z.pred (1 + len indices)) with (len indices) by lia. cbn [zip zip_with foldM fst snd].
    rewrite Hc. cbn [mbind result_bind].
    destruct (IH (pre ++ [c]) (term_step (len pre) c st)) as (st' & Hf & Hg'); [done|by apply term_step_grouped|].
    exists st'. rewrite <- app_assoc in Hg'. split; [|done]. rewrite <- Hf. rewrite len_app. done.
Qed.

Lemma group_terms_spec chunks indices cs :
  selects chunks indices cs -> Forall index_ok cs ->
  exists ts ps, group_terms chunks indices = Ok ts /\ concat ps = cs /\ spans 0 ts ps /\ maximal ts.
Proof.
  intros Hsel Hok. destruct (term_loop chunks indices cs [] ([], zero_term)) as ([ts cur] & Hf & Hrun & Hnone);
    [done..|]. unfold group_terms, indexed. change (seqZ 0) with (seqZ (len (@nil ChunkInfo))). rewrite Hf.
  cbn [mbind result_bind app fst snd] in *.
  apply Forall2_length in Hsel as Hlen. destruct (Z.ltb_spec 0 (len indices)) as [Hpos|Hz].
  - destruct Hrun as (ps & p & -> & H1 & H2 & H3 & H4); [intros ->; unfold len in *; cbn in *; lia|].
    exists (ts ++ [set_chunkEnd (len indices) cur]), (ps ++ [p]). split; [done|]. split_and!.
    + by rewrite concat_app; cbn; rewrite app_nil_r.
    + apply spans_snoc; [done|cbn; lia| |by apply describes_chunkEnd]. cbn. rewrite H3, <- len_app. unfold len. lia.
    + by apply maximal_chunkEnd.
  - assert (cs = []) as -> by (apply len_0_nil; pose proof (len_nonneg indices); unfold len in *; lia).
    rewrite Hnone by done. by exists [], [].
Qed.

(** ** File blocks *)

Section files.
Context {B3 : Blake3}.

(** An entry describes a run of chunks. *)
Record entry_describes (e : FileDataSequenceEntry) (p : list ChunkInfo) : Prop := {
  ed_flags : fe_CASFlags e = 0;
  ed_bytes : fe_UnpackedSegBytes e = u32 (run_size p);
  ed_start : 0 <= fe_ChunkIndexStart e;
  ed_end : fe_ChunkIndexEnd e = fe_ChunkIndexStart e + len p;
  ed_locs : map ci_loc p = span (fe_CASHash e) (fe_ChunkIndexStart e) (fe_ChunkIndexEnd e);
  ed_nonempty : p <> [];
}.

Fixpoint entries_maximal (es : list FileDataSequenceEntry) : Prop :=
  match es with
  | e :: ((e' :: _) as es) =>
      (fe_CASHash e', fe_ChunkIndexStart e') <> (fe_CASHash e, fe_ChunkIndexEnd e) /\ entries_maximal es
  | _ => True
  end.

(** What a file block says about a file. *)
Record file_described (chunks : list ChunkInfo) (fi : FileInfo) (fb : FileBlock) : Prop := {
  fd_hash : fb_FileHash fb = fi_Hash fi;
  fd_meta : fb_MetadataExt fb =
    if bool_decide (fi_SHA256 fi <> zeroHash) then Some (MkFileMetadataExt (fi_SHA256 fi)) else None;
  fd_flags : fb_Flags fb =
    if bool_decide (fi_SHA256 fi <> zeroHash) then Z.lor FileWithVerification FileWithMetadataExt
    else FileWithVerification;
  fd_runs : exists runs, selects chunks (fi_ChunkIndices fi) (concat runs) /\
    Forall2 entry_describes (fb_Entries fb) runs /\
    fb_Verification fb = map (fun run => ComputeVerificationHash (map ci_Hash run)) runs;
  fd_maximal : entries_maximal (fb_Entries fb);
}.

Definition term_entry (t : term) : FileDataSequenceEntry :=
  MkFileEntry (t_xorbHash t) 0 (t_bytes t) (t_startIndex t) (t_endIndex t).

Lemma add_terms hs fb ts :
  foldl (add_term hs) fb ts =
    MkFileBlock (fb_FileHash fb) (fb_Flags fb) (fb_Entries fb ++ map term_entry ts)
      (fb_Verification fb ++ map (fun t => ComputeVerificationHash (slice (t_chunkStart t) (t_chunkEnd t) hs)) ts)
      (fb_MetadataExt fb).
Proof.
  revert fb. induction ts as [|t ts IH]; intros fb; cbn.
  - rewrite !app_nil_r. by destruct fb.
  - rewrite IH. cbn. by rewrite <- !app_assoc.
Qed.

Lemma hashes_loop chunks indices cs hs :
  selects chunks indices cs ->
  foldM (fun hs idx => chunk ← chunk_at chunks idx; Ok (hs ++ [ci_Hash chunk])) hs indices = Ok (hs ++ map ci_Hash cs).
Proof.
  intros Hsel. revert hs. induction Hsel as [|idx c indices cs Hc _ IH]; intros hs; cbn.
  - by rewrite app_nil_r.
  - rewrite Hc. cbn. by rewrite IH, <- app_assoc.
Qed.

Lemma maximal_entries ts : maximal ts -> entries_maximal (map term_entry ts).
Proof.
  induction ts as [|t ts IH]; [done|]. destruct ts as [|t' ts]; [done|]. cbn [maximal map entries_maximal] in *.
  intros [? ?]. split; [done|]. by apply IH.
Qed.

Lemma build_file_spec chunks file cs :
  selects chunks (fi_ChunkIndices file) cs -> Forall index_ok cs ->
  exists fb, build_file chunks file = Ok fb /\ file_described chunks file fb.
Proof.
  intros Hsel Hok. destruct (group_terms_spec chunks (fi_ChunkIndices file) cs Hsel Hok) as (ts & ps & Hg & Hps & Hsp & Hmx).
  unfold build_file. rewrite (hashes_loop _ _ _ _ Hsel), Hg. cbn [mbind result_bind app].
  eexists. split; [reflexivity|]. rewrite add_terms. subst cs.
  assert (fb_Entries (new_file_block file) = [] /\ fb_Verification (new_file_block file) = []) as [-> ->]
    by (unfold new_file_block; by case_bool_decide).
  apply (spans_slices []) in Hsp. cbn [app] in *. clear Hg Hok.
  split; cbn [fb_FileHash fb_MetadataExt fb_Flags fb_Entries fb_Verification].
  1-3: unfold new_file_block; by case_bool_decide.
  - exists ps. split; [done|]. split.
    + apply Forall2_fmap_l. eapply Forall2_impl; [exact Hsp|]. by intros t p [[] _].
    + clear -Hsp. remember (concat ps) as all eqn:Hall. clear Hall.
      induction Hsp as [|t p ts ps [_ Hs] _ IH]; [done|]. cbn. f_equal; [|done]. f_equal.
      transitivity (map ci_Hash (slice (t_chunkStart t) (t_chunkEnd t) all)); [|by rewrite Hs].
      unfold slice. by rewrite skipn_map, firstn_map.
  - by apply maximal_entries.
Qed.

Lemma files_loop chunks files sh :
  Forall (fun fi => exists cs, selects chunks (fi_ChunkIndices fi) cs /\ Forall index_ok cs) files ->
  exists fbs, foldM (fun sh file => fb ← build_file chunks file; Ok (AddFile sh fb)) sh files =
    Ok (MkShard (s_FooterSize sh) (s_Files sh ++ fbs) (s_CASInfos sh) (s_Footer sh)) /\
    Forall2 (file_described chunks) files fbs.
Proof.
  revert sh. induction files as [|fi files IH]; intros sh Hf.
  - exists []. rewrite app_nil_r. by destruct sh.
  - apply Forall_cons in Hf as [(cs & Hsel & Hok) Hf].
    destruct (build_file_spec chunks fi cs Hsel Hok) as (fb & Hb & Hd).
    destruct (IH (AddFile sh fb) Hf) as (fbs & Hl & Hds). exists (fb :: fbs). cbn [foldM]. rewrite Hb.
    cbn [mbind result_bind]. rewrite Hl. cbn. rewrite <- app_assoc. split; [done|]. by constructor.
Qed.

Lemma first_file_chunks_Ok files chunks (firsts : gset ChunkHash) :
  Forall (fun fi => exists cs, selects chunks (fi_ChunkIndices fi) cs /\ Forall index_ok cs) files ->
  exists firsts', foldM (fun (firsts : gset ChunkHash) file =>
    match fi_ChunkIndices file with
    | [] => Ok firsts
    | idx :: _ => chunk ← chunk_at chunks idx; Ok ({[ci_Hash chunk]} ∪ firsts)
    end) firsts files = Ok firsts'.
Proof.
  revert firsts. induction files as [|fi files IH]; intros firsts Hf; [by exists firsts|].
  apply Forall_cons in Hf as [(cs & Hsel & _) Hf]. cbn [foldM]. destruct Hsel as [|idx c indices cs Hc _].
  - by apply IH.
  - rewrite Hc. by apply IH.
Qed.
End files.

(** ** CAS blocks *)

(** The chunks that get an entry: the first new one of each hash. *)
Fixpoint fresh_chunks (seen : gset ChunkHash) (chunks : list ChunkInfo) : list ChunkInfo :=
  match chunks with
  | [] => []
  | c :: chunks =>
      if negb (ci_IsNew c) || bool_decide (ci_Hash c ∈ seen) then fresh_chunks seen chunks
      else c :: fresh_chunks ({[ci_Hash c]} ∪ seen) chunks
  end.

(** The chunks of one xorb, in the order of its CAS block. *)
Definition stored_in (x : XorbHash) (chunks : list ChunkInfo) : list ChunkInfo :=
  filter (fun c => ci_XorbHash c = x) (fresh_chunks ∅ chunks).

Definition chunk_view (e : CASChunkSequenceEntry) : ChunkHash * Z := (cc_ChunkHash e, cc_UnpackedSegBytes e).
Definition info_view (c : ChunkInfo) : ChunkHash * Z := (ci_Hash c, ci_Size c).

Definition block_views (blocks : gmap XorbHash CASBlock) (x : XorbHash) : list (ChunkHash * Z) :=
  match blocks !! x with Some cb => map chunk_view (cb_Chunks cb) | None => [] end.

Definition blocks_ok (blocks : gmap XorbHash CASBlock) : Prop :=
  forall (x : XorbHash) cb, blocks !! x = Some cb -> cb_CASHash cb = x /\ valid_cas cb /\ cb_Chunks cb <> [] /\ cb_NumBytesOnDisk cb = 0.

Lemma valid_cas_empty x : valid_cas (MkCASBlock x 0 [] 0 0).
Proof. split; [done|]. by split. Qed.

(** A block stays valid when a chunk is appended at the current total. *)
Lemma valid_cas_snoc x f cs n d h size flags :
  valid_cas (MkCASBlock x f cs n d) -> and_not flags ChunkGlobalDedupEligible = 0 ->
  valid_cas (MkCASBlock x f (cs ++ [MkCASChunk h n size flags]) (u32 (n + size)) d).
Proof.
  intros (H1 & H2 & H3) Hf. cbn in *. split; [done|]. cbn [cb_Chunks cb_NumBytesInCAS]. split.
  - intros i chunk [Hi|[Hge Hi]]%lookup_app_Some.
    + rewrite take_app_le by (apply lookup_lt_Some in Hi; lia). by apply H2.
    + apply list_lookup_singleton_Some in Hi as [Hi <-]. cbn. split; [done|].
      rewrite take_app_le, take_ge by lia. done.
  - rewrite chunk_bytes_snoc, H3. cbn. unfold u32. by rewrite Zplus_mod_idemp_l.
Qed.

Lemma cas_step_ok firsts blocks seen c :
  blocks_ok blocks -> blocks_ok (cas_step firsts (blocks, seen) c).1.
Proof.
  intros Hb. unfold cas_step. destruct (negb _ || _); [done|]. cbn [fst]. intros x cb.
  intros [[<- <-]|[_ H]]%lookup_insert_Some; [|by apply Hb]. cbn [cb_CASHash].
  set (cb0 := default _ _). assert (cb_CASHash cb0 = ci_XorbHash c /\ valid_cas cb0 /\ cb_NumBytesOnDisk cb0 = 0) as (Hh & Hv & Hd).
  { subst cb0. destruct (blocks !! ci_XorbHash c) as [cb|] eqn:E; cbn; [by apply Hb in E as (? & ? & ? & ?)|].
    split; [done|]. split; [apply valid_cas_empty|done]. }
  split; [done|]. split; [|split; [cbn; by destruct (cb_Chunks cb0)|done]]. destruct cb0 as [x f cs n d]. cbn in *. apply valid_cas_snoc; [done|]. by destruct (IsChunkGlobalDedupEligible _ _ _).
Qed.

Lemma cas_loop firsts chunks blocks seen :
  blocks_ok blocks ->
  let blocks' := (foldl (cas_step firsts) (blocks, seen) chunks).1 in
  blocks_ok blocks' /\
  forall x, block_views blocks' x = block_views blocks x ++
    map info_view (filter (fun c => ci_XorbHash c = x) (fresh_chunks seen chunks)).
Proof.
  revert blocks seen. induction chunks as [|c chunks IH]; intros blocks seen Hb; cbn zeta.
  { split; [done|]. intros x. cbn. by rewrite app_nil_r. }
  cbn [foldl fresh_chunks]. pose proof (cas_step_ok firsts blocks seen c Hb) as Hb'.
  unfold cas_step in *. destruct (negb _ || _); [by apply IH|]. cbn [fst] in Hb'.
  destruct (IH _ ({[ci_Hash c]} ∪ seen) Hb') as [H1 H2]. split; [done|]. intros x. rewrite H2. clear H1 H2 IH.
  unfold block_views. destruct (decide (ci_XorbHash c = x)) as [<-|Hne].
  - rewrite lookup_insert_eq, filter_cons_True by done. cbn [cb_Chunks map]. rewrite map_app, <- app_assoc. cbn.
    by destruct (blocks !! ci_XorbHash c).
  - by rewrite lookup_insert_ne, filter_cons_False.
Qed.

(** The recorded position of every chunk agrees with the order in which the
    chunks of its xorb are stored, when the shard stores that xorb. *)
Definition placed (chunks : list ChunkInfo) : Prop :=
  forall c, c ∈ chunks -> stored_in (ci_XorbHash c) chunks = [] \/
    exists c', stored_in (ci_XorbHash c) chunks !! Z.to_nat (ci_ChunkIndex c) = Some c' /\ ci_Size c' = ci_Size c.

Lemma length_fresh seen chunks : (length (fresh_chunks seen chunks) <= length chunks)%nat.
Proof.
  revert seen. induction chunks as [|c chunks IH]; intros seen; cbn; [done|].
  destruct (negb _ || _); cbn; [specialize (IH seen)|specialize (IH ({[ci_Hash c]} ∪ seen))]; lia.
Qed.

Lemma fresh_elem seen chunks c : c ∈ fresh_chunks seen chunks -> c ∈ chunks.
Proof.
  revert seen. induction chunks as [|d chunks IH]; intros seen; cbn; [done|]. destruct (negb _ || _).
  - intros ?%IH. by right.
  - intros [->|?%IH]%elem_of_cons; [by left|by right].
Qed.

Lemma length_stored x chunks : len (stored_in x chunks) <= len chunks.
Proof.
  unfold stored_in, len. pose proof (length_fresh ∅ chunks). pose proof (length_filter (fun c => ci_XorbHash c = x) (fresh_chunks ∅ chunks)). lia.
Qed.

Lemma chunk_bytes_sum l : chunk_bytes l = foldr Z.add 0 (map cc_UnpackedSegBytes l).
Proof. unfold chunk_bytes. induction l as [|c l IH]; cbn; [done|]. by rewrite IH. Qed.

Lemma run_size_sum l : run_size l = foldr Z.add 0 (map ci_Size l).
Proof. unfold run_size. induction l as [|c l IH]; cbn; [done|]. by rewrite IH. Qed.

(** A run found at consecutive positions is a slice. *)
Lemma slice_sizes (cs : list CASChunkSequenceEntry) (p : list ChunkInfo) start :
  0 <= start -> p <> [] ->
  (forall k c, p !! k = Some c -> exists e, cs !! (Z.to_nat start + k)%nat = Some e /\ cc_UnpackedSegBytes e = ci_Size c) ->
  start + len p <= len cs /\ chunk_bytes (slice start (start + len p) cs) = run_size p.
Proof.
  intros Hs Hp Hk.
  assert (start + len p <= len cs) as Hle.
  { destruct (lookup_lt_is_Some_2 p (length p - 1)) as [c Hc]; [destruct p; [done|cbn; lia]|].
    destruct (Hk _ _ Hc) as (e & He%lookup_lt_Some & _). unfold len. destruct p; [done|]. cbn [length] in *. lia. }
  split; [done|]. rewrite chunk_bytes_sum, run_size_sum. f_equal. apply list_eq. intros k.
  change (map cc_UnpackedSegBytes) with (fmap (M := list) cc_UnpackedSegBytes).
  change (map ci_Size) with (fmap (M := list) ci_Size). rewrite !list_lookup_fmap. unfold slice.
  destruct (decide (k < length p)%nat) as [Hlt|Hge].
  - rewrite lookup_take_lt by (unfold len; lia). rewrite lookup_drop.
    destruct (lookup_lt_is_Some_2 p k Hlt) as [c Hc]. rewrite Hc. destruct (Hk _ _ Hc) as (e & -> & He). cbn. by rewrite He.
  - rewrite lookup_take_ge by (unfold len; lia). by rewrite (lookup_ge_None_2 p) by lia.
Qed.

Section validates.
Context {B3 : Blake3}.

Lemma entry_valid chunks blocks e p casInfos :
  placed chunks -> len chunks < 2 ^ 32 -> (forall c, c ∈ p -> c ∈ chunks) -> entry_describes e p ->
  blocks_ok blocks -> (forall x, block_views blocks x = map info_view (stored_in x chunks)) ->
  (forall cb, cb ∈ casInfos -> exists x : XorbHash, blocks !! x = Some cb) -> valid_entry casInfos e.
Proof.
  intros Hpl Hlen Hin [E1 E2 E3 E4 E5 E6] Hok Hviews Hcas. split; [done|].
  assert (0 < len p) by (unfold len; destruct p; [done|cbn [length]; lia]). split; [lia|].
  intros cb [x Hx]%Hcas Hh. pose proof (Hok _ _ Hx) as (Hx' & _ & Hne & _). assert (x = fe_CASHash e) as -> by congruence.
  specialize (Hviews (fe_CASHash e)). unfold block_views in Hviews. rewrite Hx in Hviews.
  assert (length (cb_Chunks cb) = length (stored_in (fe_CASHash e) chunks)) as Hl
    by (rewrite <- (length_map chunk_view), Hviews; apply length_map).
  destruct (slice_sizes (cb_Chunks cb) p (fe_ChunkIndexStart e) E3 E6) as [Hle Hsum].
  - intros k c Hc. assert (c ∈ chunks) as Hcc by (by eapply Hin, list_elem_of_lookup_2).
    assert (ci_loc c = (fe_CASHash e, fe_ChunkIndexStart e + Z.of_nat k)) as [= Hcx Hci].
    { assert (map ci_loc p !! k = Some (ci_loc c)) as Hm
        by (change (map ci_loc p) with (ci_loc <$> p); by rewrite list_lookup_fmap, Hc).
      rewrite E5 in Hm. unfold span in Hm. rewrite list_lookup_fmap in Hm.
      destruct (seqZ _ _ !! k) as [z|] eqn:Ez; [|done]. apply lookup_seqZ in Ez as [-> _]. cbn in Hm. congruence. }
    destruct (Hpl c Hcc) as [Hnil|(c' & Hc' & Hsz)].
    + rewrite Hcx in Hnil. rewrite Hnil in Hl. by destruct (cb_Chunks cb).
    + rewrite Hcx, Hci, Z2Nat.inj_add, Nat2Z.id in Hc' by lia.
      assert (map chunk_view (cb_Chunks cb) !! (Z.to_nat (fe_ChunkIndexStart e) + k)%nat = Some (info_view c')) as Hv.
      { rewrite Hviews. change (map info_view) with (fmap (M := list) info_view). by rewrite list_lookup_fmap, Hc'. }
      change (map chunk_view) with (fmap (M := list) chunk_view) in Hv. rewrite list_lookup_fmap in Hv.
      destruct (cb_Chunks cb !! _) as [e'|]; [|done]. exists e'. split; [done|]. injection Hv as _ Hv. congruence.
  - rewrite <- E4 in Hle, Hsum. pose proof (length_stored (fe_CASHash e) chunks).
    rewrite u32_small by (unfold is_u32, len in *; lia). split; [done|]. by rewrite Hsum.
Qed.
End validates.

(** ** Theorems *)

Section theorems.
Context {B3 : Blake3}.

Lemma selects_total chunks indices :
  Forall (fun idx => 0 <= idx < len chunks) indices -> exists cs, selects chunks indices cs.
Proof.
  induction 1 as [|idx indices Hi _ [cs IH]]; [by exists []; constructor|].
  destruct (lookup_lt_is_Some_2 chunks (Z.to_nat idx)) as [c Hc]; [unfold len in *; lia|].
  exists (c :: cs). constructor; [|done]. unfold chunk_at. rewrite (proj2 (Z.ltb_ge _ _)) by lia. by rewrite Hc.
Qed.

Lemma files_in_range files chunks :
  Forall index_ok chunks -> Forall (fun fi => Forall (fun idx => 0 <= idx < len chunks) (fi_ChunkIndices fi)) files ->
  Forall (fun fi => exists cs, selects chunks (fi_ChunkIndices fi) cs /\ Forall index_ok cs) files.
Proof.
  intros Hok Hf. eapply Forall_impl; [exact Hf|]. intros fi [cs Hs]%selects_total. exists cs. split; [done|].
  apply Forall_forall. intros c Hc. rewrite Forall_forall in Hok. by eapply Hok, selects_elem.
Qed.

(** The parts of a built shard. *)
Lemma BuildShard_parts files chunks :
  Forall index_ok chunks -> Forall (fun fi => Forall (fun idx => 0 <= idx < len chunks) (fi_ChunkIndices fi)) files ->
  exists fbs firsts, Forall2 (file_described chunks) files fbs /\
    BuildShard files chunks = Ok (MkShard 0 fbs
      (merge_sort cas_le (snd <$> map_to_list (foldl (cas_step firsts) (∅, ∅) chunks).1)) None).
Proof.
  intros Hok Hf. pose proof (files_in_range _ _ Hok Hf) as Hs.
  destruct (first_file_chunks_Ok files chunks ∅ Hs) as [firsts Hfst].
  destruct (files_loop chunks files NewShard Hs) as (fbs & Hl & Hd).
  exists fbs, firsts. split; [done|]. unfold BuildShard, first_file_chunks. rewrite Hfst. cbn [mbind result_bind].
  rewrite Hl. cbn. by destruct (foldl _ _ _).
Qed.

(** The terms of a built shard are the file.  Given chunk indices in range,
    [BuildShard] returns a shard with one file block per file, in order, whose
    entries cut the file's chunk sequence into non-empty runs of consecutive
    positions of one xorb: the entry has the run's position, its size modulo
    [2^32] and, beside it, the verification hash of the run's chunk hashes; no
    two neighbouring entries could be one; and the block carries the SHA-256
    exactly when it is known. *)
Theorem BuildShard_terms files chunks :
  Forall index_ok chunks -> Forall (fun fi => Forall (fun idx => 0 <= idx < len chunks) (fi_ChunkIndices fi)) files ->
  exists sh, BuildShard files chunks = Ok sh /\ Forall2 (file_described chunks) files (s_Files sh).
Proof.
  intros Hok Hf. destruct (BuildShard_parts files chunks Hok Hf) as (fbs & firsts & Hd & ->). by eexists.
Qed.

#[local] Instance cas_le_trans : Transitive cas_le.
Proof. intros a b c. unfold cas_le. apply string_le_trans. Qed.
#[local] Instance cas_le_total : Total cas_le.
Proof. intros a b. apply string_le_total. Qed.

Lemma blocks_hashes (blocks : gmap XorbHash CASBlock) :
  blocks_ok blocks -> map cb_CASHash (snd <$> map_to_list blocks) = fst <$> map_to_list blocks.
Proof.
  intros Hok. rewrite <- (list_fmap_compose snd cb_CASHash). apply list_fmap_ext. intros i [x cb] Hi.
  apply list_elem_of_lookup_2, elem_of_map_to_list in Hi. cbn. by apply Hok in Hi as [-> _].
Qed.

Lemma described_valid chunks blocks casInfos fi fb :
  placed chunks -> len chunks < 2 ^ 32 -> file_described chunks fi fb ->
  blocks_ok blocks -> (forall x, block_views blocks x = map info_view (stored_in x chunks)) ->
  (forall cb, cb ∈ casInfos -> exists x : XorbHash, blocks !! x = Some cb) -> valid_file casInfos fb.
Proof.
  intros Hpl Hlen [H1 H2 H3 (runs & Hsel & Hd & Hv) H4] Hok Hviews Hcas. unfold valid_file, has_flag. rewrite H2, H3, Hv.
  apply Forall2_length in Hd as Hl. split_and!.
  - by case_bool_decide.
  - intros _. by rewrite length_map.
  - intros []. by case_bool_decide.
  - case_bool_decide; split; [by eexists|done|done|by intros [? ?]].
  - apply Forall_forall. intros e He. apply list_elem_of_lookup in He as [k Hk].
    destruct (Forall2_lookup_l _ _ _ _ _ Hd Hk) as (p & Hp & He). eapply entry_valid; [done..| |done|done|done|done].
    intros c Hc. eapply selects_elem; [done|]. apply list_elem_of_In, in_concat. exists p.
    split; [by eapply list_elem_of_In, list_elem_of_lookup_2|by apply list_elem_of_In].
Qed.

(** C35 a built shard is valid.  When, besides, the chunks' recorded positions
    agree with the order in which the new chunks of each xorb are listed, the
    shard [BuildShard] returns passes [Shard.Validate]; its CAS blocks are
    sorted by printed hash, one per xorb that stores a new chunk, and each
    lists exactly the first new chunk of every hash in that xorb, in order. *)
Theorem BuildShard_validates files chunks :
  Forall index_ok chunks -> Forall (fun fi => Forall (fun idx => 0 <= idx < len chunks) (fi_ChunkIndices fi)) files ->
  placed chunks -> len chunks < 2 ^ 32 ->
  exists sh, BuildShard files chunks = Ok sh /\ Shard_Validate sh = Ok tt /\
    StronglySorted cas_le (s_CASInfos sh) /\
    (forall cb, cb ∈ s_CASInfos sh -> map chunk_view (cb_Chunks cb) = map info_view (stored_in (cb_CASHash cb) chunks)) /\
    (forall c, c ∈ fresh_chunks ∅ chunks -> exists cb, cb ∈ s_CASInfos sh /\ cb_CASHash cb = ci_XorbHash c).
Proof.
  intros Hok Hf Hpl Hlen. destruct (BuildShard_parts files chunks Hok Hf) as (fbs & firsts & Hd & ->).
  eexists. split; [reflexivity|]. cbn [s_CASInfos]. rewrite Shard_Validate_valid.
  destruct (cas_loop firsts chunks ∅ ∅) as [Hb Hviews]; [done|].
  set (blocks := (foldl _ _ _).1) in *. clearbody blocks. unfold stored_in.
  assert (forall cb, cb ∈ merge_sort cas_le (snd <$> map_to_list blocks) <-> exists x : XorbHash, blocks !! x = Some cb) as Hin.
  { intros cb. rewrite merge_sort_Permutation, list_elem_of_fmap. split.
    - intros ([x cb'] & -> & Hx%elem_of_map_to_list). by exists x.
    - intros [x Hx]. exists (x, cb). by rewrite elem_of_map_to_list. }
  split_and!.
  - split_and!; cbn [s_CASInfos s_Files].
    + rewrite merge_sort_Permutation, blocks_hashes by done. apply NoDup_fst_map_to_list.
    + apply Forall_forall. by intros cb [x [_ [? _]]%Hb]%Hin.
    + apply Forall_forall. intros fb [k Hk]%list_elem_of_lookup.
      destruct (Forall2_lookup_r _ _ _ _ _ Hd Hk) as (fi & _ & Hfi).
      by eapply described_valid; [..|intros cb Hcb%Hin].
  - apply StronglySorted_merge_sort; apply _.
  - intros cb [x Hx]%Hin. apply Hb in Hx as Hx'. destruct Hx' as [-> _]. specialize (Hviews x). unfold block_views in Hviews.
    by rewrite Hx in Hviews.
  - intros c Hc. specialize (Hviews (ci_XorbHash c)). unfold block_views in Hviews.
    destruct (blocks !! ci_XorbHash c) as [cb|] eqn:Hx.
    + exists cb. split; [apply Hin; by eexists|]. by apply Hb in Hx as [-> _].
    + rewrite lookup_empty in Hviews. cbn in Hviews. symmetry in Hviews. apply map_eq_nil in Hviews.
      assert (c ∈ filter (fun c' => ci_XorbHash c' = ci_XorbHash c) (fresh_chunks ∅ chunks)) as Hcf
        by (by apply list_elem_of_filter). rewrite Hviews in Hcf. by apply elem_of_nil in Hcf.
Qed.
End theorems.

(** ** Witnesses *)

(** A file of four chunks: two that a new xorb stores, one found in an old
    xorb, and the first again. *)
Definition wit_xorb (b : byte) : XorbHash := to_arr 32 [b].

Definition wit_chunks : list ChunkInfo := [
  MkChunkInfo (wit_xorb "a"%byte) 10 true (wit_xorb "x"%byte) 0;
  MkChunkInfo (wit_xorb "b"%byte) 20 true (wit_xorb "x"%byte) 1;
  MkChunkInfo (wit_xorb "c"%byte) 30 false (wit_xorb "y"%byte) 7].

Definition wit_files : list FileInfo := [MkFileInfo (wit_xorb "f"%byte) zeroHash [0; 1; 2; 0]].

Lemma wit_chunks_ok : Forall index_ok wit_chunks.
Proof. repeat constructor; cbn; lia. Qed.

Lemma wit_files_ok :
  Forall (fun fi => Forall (fun idx => 0 <= idx < len wit_chunks) (fi_ChunkIndices fi)) wit_files.
Proof. change (len wit_chunks) with 3. repeat constructor; lia. Qed.

Lemma BuildShard_terms_witness :
  exists sh, BuildShard (B3 := poly_blake3) wit_files wit_chunks = Ok sh /\
    Forall2 (file_described (B3 := poly_blake3) wit_chunks) wit_files (s_Files sh).
Proof. exact (BuildShard_terms (B3 := poly_blake3) wit_files wit_chunks wit_chunks_ok wit_files_ok). Defined.

(** The three terms of that file. *)
Example wit_terms :
  match BuildShard (B3 := poly_blake3) wit_files wit_chunks with
  | Ok sh => map (fun fb => map (fun e => (fe_ChunkIndexStart e, fe_ChunkIndexEnd e, fe_UnpackedSegBytes e))
               (fb_Entries fb)) (s_Files sh)
  | Err _ => []
  end = [[(0, 2, 30); (7, 8, 30); (0, 1, 10)]].
Proof. vm_compute. reflexivity. Qed.

Lemma BuildShard_validates_witness :
  exists sh, BuildShard (B3 := poly_blake3) wit_files wit_chunks = Ok sh /\ Shard_Validate sh = Ok tt.
Proof.
  destruct (BuildShard_validates (B3 := poly_blake3) wit_files wit_chunks wit_chunks_ok wit_files_ok)
    as (sh & H1 & H2 & _).
  - assert (stored_in (wit_xorb "x"%byte) wit_chunks = take 2 wit_chunks) as Hx by (vm_compute; reflexivity).
    assert (stored_in (wit_xorb "y"%byte) wit_chunks = []) as Hy by (vm_compute; reflexivity).
    intros c Hc. unfold wit_chunks in Hc. rewrite !elem_of_cons, elem_of_nil in Hc.
    destruct Hc as [->|[->|[->|[]]]]; cbn [ci_XorbHash ci_ChunkIndex ci_Size].
    + right. rewrite Hx. eexists. by split.
    + right. rewrite Hx. eexists. by split.
    + left. exact Hy.
  - change (len wit_chunks) with 3. lia.
  - exists sh. by split.
Defined.
