(* ===== verification/ShardCodec.v ===== *)
(** * The shard codec: [shard/encode.go] and [shard/decode.go]

    [shardReader] is a streaming serializer: a state machine that loads one
    section at a time into a buffer, copies from it into the caller's slices,
    records the byte offsets it passes and builds the footer from them at the
    end.  [decode] reads a shard back from a stream.  Proved: reads of any
    sizes deliver the same bytes, the concatenation of the sections with a
    footer whose offsets are the positions of the sections; and decoding these
    bytes gives the shard back. *)

From Stdlib Require Import ZArith Lia Strings.Byte Strings.String.
From S2P Require Import Prelude Hash Shard.

Definition shardMagicSequence : list byte := map z2b
  [ 0x55; 0x69; 0x67; 0x45; 0x6a; 0x7b; 0x81; 0x57;
    0x83; 0xa5; 0xbd; 0xd9; 0x5c; 0xcd; 0xd1; 0x4a; 0xa9 ].

Definition hfApplicationID : list byte := map z2b
  [ 0x48; 0x46; 0x52; 0x65; 0x70; 0x6f; 0x4d; 0x65;
    0x74; 0x61; 0x44; 0x61; 0x74; 0x61 ].

Definition bookendPattern : list byte := replicate 32 Byte.xff ++ replicate 16 Byte.x00.

(** ** Sections *)

Definition buildHeader (footerSize : Z) : list byte :=
  let buffer := hfApplicationID in
  let buffer := buffer ++ [Byte.x00] in
  let buffer := buffer ++ shardMagicSequence in
  let buffer := buffer ++ put_u64 2 in
  buffer ++ put_u64 footerSize.

Definition entry_bytes (entry : FileDataSequenceEntry) : list byte :=
  fe_CASHash entry ++ put_u32 (fe_CASFlags entry) ++ put_u32 (fe_UnpackedSegBytes entry) ++
  put_u32 (fe_ChunkIndexStart entry) ++ put_u32 (fe_ChunkIndexEnd entry).

Definition buildFileBlock (fb : FileBlock) : list byte :=
  let buffer := vec_to_list (fb_FileHash fb) in
  let buffer := buffer ++ put_u32 (fb_Flags fb) in
  let buffer := buffer ++ put_u32 (u32 (len (fb_Entries fb))) in
  let buffer := buffer ++ replicate 8 Byte.x00 in
  let buffer := foldl (fun buffer entry => buffer ++ entry_bytes entry) buffer (fb_Entries fb) in
  let buffer :=
    if negb (Z.land (fb_Flags fb) FileWithVerification =? 0)
    then foldl (fun buffer (verif : VerificationHash) =>
           (buffer ++ vec_to_list verif) ++ replicate 16 Byte.x00) buffer (fb_Verification fb)
    else buffer in
  if negb (Z.land (fb_Flags fb) FileWithMetadataExt =? 0)
  then
    match fb_MetadataExt fb with
    | Some m => buffer ++ transformSHA256ByteOrder (me_SHA256Hash m) ++ replicate 16 Byte.x00
    | None => buffer
    end
  else buffer.

Definition chunk_entry_bytes (chunk : CASChunkSequenceEntry) : list byte :=
  cc_ChunkHash chunk ++ put_u32 (cc_ByteRangeStart chunk) ++ put_u32 (cc_UnpackedSegBytes chunk) ++
  put_u32 (cc_Flags chunk) ++ replicate 4 Byte.x00.

Definition buildCASBlock (cb : CASBlock) : list byte :=
  let buffer := vec_to_list (cb_CASHash cb) in
  let buffer := buffer ++ put_u32 (cb_CASFlags cb) in
  let buffer := buffer ++ put_u32 (u32 (len (cb_Chunks cb))) in
  let buffer := buffer ++ put_u32 (cb_NumBytesInCAS cb) in
  let buffer := buffer ++ put_u32 (cb_NumBytesOnDisk cb) in
  foldl (fun buffer chunk => buffer ++ chunk_entry_bytes chunk) buffer (cb_Chunks cb).

Definition buildBookend : list byte := bookendPattern.

(** ** The streaming reader *)

Record shardReader : Type := MkShardReader {
  sr_shard : Shard;
  sr_withFooter : bool;
  sr_footer : option Footer;
  sr_footerSize : Z;
  sr_sectionIdx : Z;
  sr_buffer : list byte;
  sr_bufOffset : Z;
  sr_footerWritten : bool;
  sr_bytesWritten : Z;
  sr_fileInfoOffset : Z;
  sr_casInfoOffset : Z;
  sr_footerOffset : Z;
}.

(** [Encode]; [now] is [time.Now().Unix()]. *)
Definition Encode (now : Z) (s : Shard) (withFooter : bool) : shardReader :=
  let footer :=
    if withFooter then
      Some (match s_Footer s with Some f => f | None => newFooter s now end)
    else None in
  MkShardReader s withFooter footer (if withFooter then 200 else 0) 0 [] 0 false 0 0 0 0.

(** The footer with its offsets filled in. *)
Definition fill_footer (f : Footer) (fileInfo casInfo footerOff : Z) : Footer :=
  MkFooter (f_Version f) fileInfo casInfo
    (if f_FileLookupNumEntries f =? 0 then footerOff else f_FileLookupOffset f)
    (f_FileLookupNumEntries f)
    (if f_CASLookupNumEntries f =? 0 then footerOff else f_CASLookupOffset f)
    (f_CASLookupNumEntries f)
    (if f_ChunkLookupNumEntries f =? 0 then footerOff else f_ChunkLookupOffset f)
    (f_ChunkLookupNumEntries f)
    (f_ChunkHashKey f) (f_ShardCreationTimestamp f) (f_ShardKeyExpiry f) (f_Reserved f)
    (f_StoredBytesOnDisk f) (f_MaterializedBytes f) (f_StoredBytes f) footerOff.

Definition footer_bytes (f : Footer) : list byte :=
  put_u64 (f_Version f) ++ put_u64 (f_FileInfoOffset f) ++ put_u64 (f_CASInfoOffset f) ++
  put_u64 (f_FileLookupOffset f) ++ put_u64 (f_FileLookupNumEntries f) ++
  put_u64 (f_CASLookupOffset f) ++ put_u64 (f_CASLookupNumEntries f) ++
  put_u64 (f_ChunkLookupOffset f) ++ put_u64 (f_ChunkLookupNumEntries f) ++
  f_ChunkHashKey f ++ put_u64 (f_ShardCreationTimestamp f) ++ put_u64 (f_ShardKeyExpiry f) ++
  f_Reserved f ++ put_u64 (f_StoredBytesOnDisk f) ++ put_u64 (f_MaterializedBytes f) ++
  put_u64 (f_StoredBytes f) ++ put_u64 (f_FooterOffset f).

(** [buildFooterBuffer], with the [bufOffset = 0] and [footerWritten = true] of
    its caller.  Without a footer the source dereferences nil. *)
Definition buildFooterBuffer (r : shardReader) : result shardReader :=
  match sr_footer r with
  | None => Err (Panic "nil pointer dereference")
  | Some f =>
      let f := fill_footer f (sr_fileInfoOffset r) (sr_casInfoOffset r) (sr_footerOffset r) in
      Ok (MkShardReader (sr_shard r) (sr_withFooter r) (Some f) (sr_footerSize r) (sr_sectionIdx r)
        (footer_bytes f) 0 true (sr_bytesWritten r)
        (sr_fileInfoOffset r) (sr_casInfoOffset r) (sr_footerOffset r))
  end.

Definition set_buffer (buffer : list byte) (r : shardReader) : shardReader :=
  MkShardReader (sr_shard r) (sr_withFooter r) (sr_footer r) (sr_footerSize r) (sr_sectionIdx r)
    buffer 0 (sr_footerWritten r) (sr_bytesWritten r)
    (sr_fileInfoOffset r) (sr_casInfoOffset r) (sr_footerOffset r).

Definition section_bytes (s : Shard) (footerSize idx : Z) : result (list byte) :=
  let numFiles := len (s_Files s) in
  let numCAS := len (s_CASInfos s) in
  let casBookendIdx := numFiles + numCAS + 2 in
  if idx =? 0 then Ok (buildHeader footerSize)
  else if (1 <=? idx) && (idx <=? numFiles) then
    match s_Files s !! Z.to_nat (idx - 1) with
    | Some fb => Ok (buildFileBlock fb)
    | None => Err (Panic "index out of range")
    end
  else if idx =? numFiles + 1 then Ok buildBookend
  else if (numFiles + 2 <=? idx) && (idx <? casBookendIdx) then
    match s_CASInfos s !! Z.to_nat (idx - numFiles - 2) with
    | Some cb => Ok (buildCASBlock cb)
    | None => Err (Panic "index out of range")
    end
  else if idx =? casBookendIdx then Ok buildBookend
  else Err (Errorf "invalid section index: %d").

Definition loadSection (r : shardReader) : result shardReader :=
  b ← section_bytes (sr_shard r) (sr_footerSize r) (sr_sectionIdx r);
  Ok (set_buffer b r).

(** [copied := copy(p[n:], r.buffer[r.bufOffset:])] with [room = len(p) - n]. *)
Definition copy_out (room : Z) (r : shardReader) : list byte * shardReader :=
  let avail := drop (Z.to_nat (sr_bufOffset r)) (sr_buffer r) in
  let copied := take (Z.to_nat room) avail in
  (copied, MkShardReader (sr_shard r) (sr_withFooter r) (sr_footer r) (sr_footerSize r)
    (sr_sectionIdx r) (sr_buffer r) (sr_bufOffset r + len copied) (sr_footerWritten r)
    (i64 (sr_bytesWritten r + len copied))
    (sr_fileInfoOffset r) (sr_casInfoOffset r) (sr_footerOffset r)).

(** The section is complete: record its end for the footer and move on. *)
Definition end_section (r : shardReader) : shardReader :=
  let numFiles := len (s_Files (sr_shard r)) in
  let numCAS := len (s_CASInfos (sr_shard r)) in
  let idx := sr_sectionIdx r in
  let pos := u64 (sr_bytesWritten r) in
  MkShardReader (sr_shard r) (sr_withFooter r) (sr_footer r) (sr_footerSize r) (idx + 1)
    [] 0 (sr_footerWritten r) (sr_bytesWritten r)
    (if idx =? 0 then pos else sr_fileInfoOffset r)
    (if idx =? 0 then sr_casInfoOffset r
     else if idx =? numFiles + 1 then pos else sr_casInfoOffset r)
    (if idx =? 0 then sr_footerOffset r
     else if idx =? numFiles + 1 then sr_footerOffset r
     else if idx =? numFiles + numCAS + 2 then pos else sr_footerOffset r).

(** [Read(p)] with [len(p) = plen]: [out] is [p[:n]]. *)
Fixpoint read_loop (fuel : nat) (plen : Z) (out : list byte) (r : shardReader) :
    list byte * option error * shardReader :=
  match fuel with
  | O => (out, Some (Panic "out of fuel"), r)
  | S fuel =>
      if negb (len out <? plen) then (out, None, r)
      else
        let totalSections := len (s_Files (sr_shard r)) + len (s_CASInfos (sr_shard r)) + 3 in
        let finish r :=
          if 0 <? len out then (out, None, r) else ([], Some EOF, r) in
        if sr_sectionIdx r <? totalSections then
          match (if len (sr_buffer r) <=? sr_bufOffset r then loadSection r else Ok r) with
          | Err e => (out, Some e, r)
          | Ok r =>
              let '(copied, r) := copy_out (plen - len out) r in
              let out := out ++ copied in
              let r := if len (sr_buffer r) <=? sr_bufOffset r then end_section r else r in
              read_loop fuel plen out r
          end
        else if sr_withFooter r then
          match (if negb (sr_footerWritten r) then buildFooterBuffer r else Ok r) with
          | Err e => (out, Some e, r)
          | Ok r =>
              if sr_bufOffset r <? len (sr_buffer r) then
                let '(copied, r) := copy_out (plen - len out) r in
                let out := out ++ copied in
                if sr_bufOffset r <? len (sr_buffer r) then read_loop fuel plen out r
                else if 0 <? len out then (out, None, r) else ([], Some EOF, r)
              else finish r
          end
        else finish r
  end.

(** Every round fills [p], ends a section or ends the footer. *)
Definition shardReader_Read (plen : Z) (r : shardReader) : list byte * option error * shardReader :=
  read_loop (Z.to_nat (len (s_Files (sr_shard r)) + len (s_CASInfos (sr_shard r)) + 6)) plen [] r.

(** ** Decoding *)

Definition isBookend (data : list byte) : bool := bool_decide (data = bookendPattern).

(** [for i := range n { ... }] around a 48-byte read; [parse] reads the fields. *)
Fixpoint read_entries {A} (format : string) (parse : list byte -> A) (fuel : nat) (n : Z) (acc : list A) :
    rd (list A) := fun r =>
  if n <=? 0 then Ok (acc, r)
  else
    match fuel with
    | O => Err (Panic "out of fuel")
    | S fuel =>
        '(buf, r) ← read_or format 48 r;
        read_entries format parse fuel (n - 1) (acc ++ [parse buf]) r
    end.

Definition parse_entry (buf : list byte) : FileDataSequenceEntry :=
  MkFileEntry (to_arr 32 (slice 0 32 buf)) (le_val (slice 32 36 buf)) (le_val (slice 36 40 buf))
    (le_val (slice 40 44 buf)) (le_val (slice 44 48 buf)).

Definition parse_chunk (buf : list byte) : CASChunkSequenceEntry :=
  MkCASChunk (to_arr 32 (slice 0 32 buf)) (le_val (slice 32 36 buf)) (le_val (slice 36 40 buf))
    (le_val (slice 40 44 buf)).

(** The file block whose header is [buf]; each entry read consumes 48 bytes. *)
Definition decode_file (buf : list byte) : rd FileBlock := fun r =>
  let fileHash := to_arr 32 (slice 0 32 buf) in
  let flags := le_val (slice 32 36 buf) in
  let numEntries := le_val (slice 36 40 buf) in
  '(entries, r) ← read_entries "failed to read file entry %d: %w" parse_entry
                    (S (length (rdata r))) numEntries [] r;
  '(verification, r) ←
    (if negb (Z.land flags FileWithVerification =? 0)
     then read_entries "failed to read verification entry %d: %w"
            (fun buf => to_arr 32 (slice 0 32 buf) : VerificationHash)
            (S (length (rdata r))) numEntries [] r
     else Ok ([], r));
  '(metadata, r) ←
    (if negb (Z.land flags FileWithMetadataExt =? 0)
     then
       '(buf, r) ← read_or "failed to read metadata ext: %w" 48 r;
       Ok (Some (MkFileMetadataExt (transformSHA256ByteOrder (to_arr 32 (slice 0 32 buf)))), r)
     else Ok (None, r));
  Ok (MkFileBlock fileHash flags entries verification metadata, r).

Fixpoint decode_files (fuel : nat) (acc : list FileBlock) : rd (list FileBlock) := fun r =>
  match fuel with
  | O => Err (Panic "out of fuel")
  | S fuel =>
      '(buf, r) ← read_or "failed to read file section: %w" 48 r;
      if isBookend buf then Ok (acc, r)
      else
        '(fb, r) ← decode_file buf r;
        decode_files fuel (acc ++ [fb]) r
  end.

Definition decode_cas (buf : list byte) : rd CASBlock := fun r =>
  '(chunks, r) ← read_entries "failed to read chunk entry %d: %w" parse_chunk
                   (S (length (rdata r))) (le_val (slice 36 40 buf)) [] r;
  Ok (MkCASBlock (to_arr 32 (slice 0 32 buf)) (le_val (slice 32 36 buf)) chunks
        (le_val (slice 40 44 buf)) (le_val (slice 44 48 buf)), r).

Section decode.
(** [onCASBlock] with the state it closes over; a nil callback does nothing. *)
Context {St : Type} (onCASBlock : St -> CASBlock -> result St).

Fixpoint decode_cas_blocks (fuel : nat) (acc : list CASBlock) (st : St) : rd (list CASBlock * St) := fun r =>
  match fuel with
  | O => Err (Panic "out of fuel")
  | S fuel =>
      '(buf, r) ← read_or "failed to read CAS section: %w" 48 r;
      if isBookend buf then Ok ((acc, st), r)
      else
        '(cb, r) ← decode_cas buf r;
        st ← wrap_err "process CAS block %d: %w" (onCASBlock st cb);
        decode_cas_blocks fuel (acc ++ [cb]) st r
  end.

Definition read_u64 (format : string) : rd Z := fun r =>
  '(buf, r) ← read_or format 8 r; Ok (le_val buf, r).

Definition decode_footer (footerSize : Z) : rd Footer := fun r =>
  if footerSize <? 200 then Err (Errorf "footer too small: %d")
  else
    '(version, r) ← read_u64 "failed to read footer version: %w" r;
    if negb (version =? 1) then Err (Errorf "unsupported footer version: %d")
    else
      '(fileInfo, r) ← read_u64 "failed to read footer file info offset: %w" r;
      '(casInfo, r) ← read_u64 "failed to read footer cas info offset: %w" r;
      '(fileLookup, r) ← read_u64 "failed to read footer file lookup offset: %w" r;
      '(fileLookupN, r) ← read_u64 "failed to read footer file lookup num entries: %w" r;
      '(casLookup, r) ← read_u64 "failed to read footer cas lookup offset: %w" r;
      '(casLookupN, r) ← read_u64 "failed to read footer cas lookup num entries: %w" r;
      '(chunkLookup, r) ← read_u64 "failed to read footer chunk lookup offset: %w" r;
      '(chunkLookupN, r) ← read_u64 "failed to read footer chunk lookup num entries: %w" r;
      '(key, r) ← read_or "failed to read footer chunk hash key: %w" 32 r;
      '(creation, r) ← read_u64 "failed to read footer shard creation timestamp: %w" r;
      '(expiry, r) ← read_u64 "failed to read footer shard key expiry: %w" r;
      '(reserved, r) ← read_or "failed to read footer reserved: %w" 48 r;
      '(onDisk, r) ← read_u64 "failed to read footer stored bytes on disk: %w" r;
      '(materialized, r) ← read_u64 "failed to read footer materialized bytes: %w" r;
      '(stored, r) ← read_u64 "failed to read footer stored bytes: %w" r;
      '(footerOff, r) ← read_u64 "failed to read footer offset: %w" r;
      let f := MkFooter version fileInfo casInfo fileLookup fileLookupN casLookup casLookupN
                 chunkLookup chunkLookupN (to_arr 32 key) creation expiry (to_arr 48 reserved)
                 onDisk materialized stored footerOff in
      if 200 <? footerSize then
        (* io.CopyN(io.Discard, r, n); a negative n copies nothing *)
        let n := i64 (i64 footerSize - 200) in
        if len (rdata r) <? n
        then Err (Wrapf "failed to drain footer: %w" (rend r))
        else Ok (f, Reader (drop (Z.to_nat n) (rdata r)) (rend r))
      else Ok (f, r).

(** [decode], on a shard whose footer was [old]. *)
Definition Shard_decode (old : option Footer) (withFooter : bool) (st : St) : rd (Shard * St) := fun r =>
  '(buf, r) ← read_or "failed to read header: %w" 48 r;
  if bool_decide (slice 15 32 buf <> shardMagicSequence) then Err (Errorf "invalid shard magic sequence")
  else if negb (le_val (slice 32 40 buf) =? 2) then Err (Errorf "unsupported shard version: %d")
  else
    let footerSize := le_val (slice 40 48 buf) in
    if withFooter && (footerSize =? 0) then Err (Errorf "footer expected but not present")
    else if negb withFooter && negb (footerSize =? 0)
    then Err (Errorf "footer unexpected: FooterSize=%d")
    else
      '(files, r) ← decode_files (S (length (rdata r))) [] r;
      '((cas, st), r) ← decode_cas_blocks (S (length (rdata r))) [] st r;
      '(footer, r) ←
        (if 0 <? footerSize then '(f, r) ← decode_footer footerSize r; Ok (Some f, r)
         else Ok (old, r));
      Ok ((MkShard footerSize files cas footer, st), r).
End decode.

(** ** The bytes of a shard *)

Definition sections (s : Shard) (footerSize : Z) : list (list byte) :=
  [buildHeader footerSize] ++ map buildFileBlock (s_Files s) ++ [buildBookend] ++
  map buildCASBlock (s_CASInfos s) ++ [buildBookend].

Arguments sections : simpl never.
Arguments footer_bytes : simpl never.

(** Where section [i] starts. *)
Definition pos_of (secs : list (list byte)) (i : nat) : Z := len (concat (take i secs)).

(** The footer a shard gets. *)
Definition the_footer (now : Z) (s : Shard) : Footer :=
  let f := match s_Footer s with Some f => f | None => newFooter s now end in
  let secs := sections s 200 in
  fill_footer f (pos_of secs 1) (pos_of secs (length (s_Files s) + 2)) (len (concat secs)).

(** What the serialization is. *)
Definition encoded (now : Z) (s : Shard) (withFooter : bool) : list byte :=
  concat (sections s (if withFooter then 200 else 0)) ++
  if withFooter then footer_bytes (the_footer now s) else [].

Lemma length_sections s fs :
  length (sections s fs) = (length (s_Files s) + length (s_CASInfos s) + 3)%nat.
Proof. unfold sections. cbn. rewrite !length_app, !length_map. cbn. rewrite length_app, length_map. cbn. lia. Qed.

Lemma section_bytes_spec s fs i b :
  sections s fs !! i = Some b -> section_bytes s fs (Z.of_nat i) = Ok b.
Proof.
  intros H. pose proof (lookup_lt_Some _ _ _ H) as Hi. rewrite length_sections in Hi.
  unfold sections in H. unfold section_bytes, len.
  set (nf := length (s_Files s)) in *. set (nc := length (s_CASInfos s)) in *.
  destruct (Z.eqb_spec (Z.of_nat i) 0) as [E|E].
  { destruct i; [|lia]. by injection H as ->. }
  apply lookup_app_Some in H as [H|[_ H]]; [by destruct i|]. cbn [length] in H.
  apply lookup_app_Some in H as [H|[H0 H]].
  - rewrite list_lookup_fmap in H. destruct (s_Files s !! (i - 1)%nat) as [fb|] eqn:Hfb; [|done].
    pose proof (lookup_lt_Some _ _ _ Hfb) as Hl. fold nf in Hl. injection H as <-.
    rewrite (proj2 (Z.leb_le _ _)), (proj2 (Z.leb_le _ (Z.of_nat nf))) by lia. cbn [andb].
    replace (Z.to_nat (Z.of_nat i - 1)) with (i - 1)%nat by lia. by rewrite Hfb.
  - rewrite length_map in H0, H. fold nf in H0, H.
    rewrite (proj2 (Z.leb_gt _ (Z.of_nat nf))), andb_false_r by lia.
    apply lookup_app_Some in H as [H|[H1 H]].
    { destruct (i - 1 - nf)%nat eqn:En; [|done]. injection H as <-.
      by rewrite (proj2 (Z.eqb_eq _ _)) by lia. }
    cbn [length] in H1, H. destruct (Z.eqb_spec (Z.of_nat i) (Z.of_nat nf + 1)) as [E2|E2]; [lia|].
    apply lookup_app_Some in H as [H|[H2 H]].
    + rewrite list_lookup_fmap in H. destruct (s_CASInfos s !! (i - 1 - nf - 1)%nat) as [cb|] eqn:Hcb; [|done].
      pose proof (lookup_lt_Some _ _ _ Hcb) as Hl. fold nc in Hl. injection H as <-.
      rewrite (proj2 (Z.leb_le _ _)), (proj2 (Z.ltb_lt _ _)) by lia. cbn [andb].
      replace (Z.to_nat (Z.of_nat i - Z.of_nat nf - 2)) with (i - 1 - nf - 1)%nat by lia. by rewrite Hcb.
    + rewrite length_map in H2, H. fold nc in H2, H.
      rewrite (proj2 (Z.ltb_ge _ _)), andb_false_r by lia.
      rewrite (proj2 (Z.eqb_eq _ _)) by lia.
      destruct (i - 1 - nf - 1 - nc)%nat eqn:En; [|done]. by injection H as <-.
Qed.

(** ** Block layouts *)

Definition file_header (fb : FileBlock) : list byte :=
  fb_FileHash fb ++ put_u32 (fb_Flags fb) ++ put_u32 (u32 (len (fb_Entries fb))) ++ replicate 8 Byte.x00.

Definition verif_bytes (v : VerificationHash) : list byte := v ++ replicate 16 Byte.x00.

Definition verif_section (fb : FileBlock) : list byte :=
  if negb (Z.land (fb_Flags fb) FileWithVerification =? 0)
  then concat (map verif_bytes (fb_Verification fb)) else [].

Definition meta_section (fb : FileBlock) : list byte :=
  if negb (Z.land (fb_Flags fb) FileWithMetadataExt =? 0) then
    match fb_MetadataExt fb with
    | Some m => transformSHA256ByteOrder (me_SHA256Hash m) ++ replicate 16 Byte.x00
    | None => []
    end
  else [].

Lemma buildFileBlock_eq fb :
  buildFileBlock fb =
    file_header fb ++ concat (map entry_bytes (fb_Entries fb)) ++ verif_section fb ++ meta_section fb.
Proof.
  unfold buildFileBlock, verif_section, meta_section, file_header.
  rewrite foldl_app_concat. rewrite <- !app_assoc.
  set (b := vec_to_list (fb_FileHash fb) ++ _).
  assert (forall l (b : list byte), foldl (fun buffer (verif : VerificationHash) =>
    (buffer ++ vec_to_list verif) ++ replicate 16 Byte.x00) b l = b ++ concat (map verif_bytes l)) as Hv.
  { intros l. induction l as [|v l IH]; intros b0; cbn [foldl map concat]; [by rewrite app_nil_r|].
    rewrite IH. unfold verif_bytes at 2. by rewrite <- !app_assoc. }
  rewrite Hv. subst b. rewrite <- ?app_assoc.
  destruct (negb (Z.land _ FileWithVerification =? 0)), (negb (Z.land _ FileWithMetadataExt =? 0));
    destruct (fb_MetadataExt fb); rewrite ?app_nil_r, <- ?app_assoc; cbn [app]; rewrite ?app_nil_r; done.
Qed.

Definition cas_header (cb : CASBlock) : list byte :=
  cb_CASHash cb ++ put_u32 (cb_CASFlags cb) ++ put_u32 (u32 (len (cb_Chunks cb))) ++
  put_u32 (cb_NumBytesInCAS cb) ++ put_u32 (cb_NumBytesOnDisk cb).

Lemma buildCASBlock_eq cb :
  buildCASBlock cb = cas_header cb ++ concat (map chunk_entry_bytes (cb_Chunks cb)).
Proof. unfold buildCASBlock. rewrite foldl_app_concat. unfold cas_header. by rewrite <- !app_assoc. Qed.

Lemma len_file_header fb : len (file_header fb) = 48.
Proof. unfold file_header. rewrite !len_app, !len_put_u32, len_vec, len_replicate. done. Qed.

Lemma len_cas_header cb : len (cas_header cb) = 48.
Proof. unfold cas_header. rewrite !len_app, !len_put_u32, len_vec. done. Qed.

Lemma sections_nonempty s fs : Forall (fun b => 48 <= len b) (sections s fs).
Proof.
  unfold sections. rewrite !Forall_app, !Forall_fmap, !Forall_singleton.
  repeat split; [done| |done| |done]; apply Forall_true.
  - intros fb. cbn. rewrite buildFileBlock_eq, len_app, len_file_header.
    pose proof (len_nonneg (concat (map entry_bytes (fb_Entries fb)) ++ verif_section fb ++ meta_section fb)). lia.
  - intros cb. cbn. rewrite buildCASBlock_eq, len_app, len_cas_header.
    pose proof (len_nonneg (concat (map chunk_entry_bytes (cb_Chunks cb)))). lia.
Qed.

(** ** The streaming reader refines a byte stream *)

Section streaming.
Context (s : Shard) (wf : bool) (f : Footer).

Definition fsize : Z := if wf then 200 else 0.
Definition secs : list (list byte) := sections s fsize.
Definition nf : nat := length (s_Files s).
Definition total : nat := length secs.

Definition foot : list byte :=
  if wf then footer_bytes (fill_footer f (pos_of secs 1) (pos_of secs (nf + 2)) (len (concat secs)))
  else [].

Arguments secs : simpl never.
Arguments foot : simpl never.
Arguments total : simpl never.

Hypothesis small : len (concat secs) + len foot < 2 ^ 63.

(** The reader [r], at section [i], still has to deliver [rem]. *)
Record sending (i : nat) (r : shardReader) (rem : list byte) : Prop := {
  sd_shard : sr_shard r = s;
  sd_withFooter : sr_withFooter r = wf;
  sd_footerSize : sr_footerSize r = fsize;
  sd_idx : sr_sectionIdx r = Z.of_nat i;
  sd_le : (i <= total)%nat;
  sd_fileInfo : (1 <= i)%nat -> sr_fileInfoOffset r = pos_of secs 1;
  sd_casInfo : (nf + 2 <= i)%nat -> sr_casInfoOffset r = pos_of secs (nf + 2);
  sd_footerOff : i = total -> sr_footerOffset r = len (concat secs);
  sd_state :
    (* between sections, or before the footer *)
    (sr_footerWritten r = false /\ (wf = true -> sr_footer r = Some f) /\
     sr_buffer r = [] /\ sr_bufOffset r = 0 /\ sr_bytesWritten r = pos_of secs i /\
     rem = concat (drop i secs) ++ foot) \/
    (* inside section [i] *)
    (sr_footerWritten r = false /\ (wf = true -> sr_footer r = Some f) /\
     secs !! i = Some (sr_buffer r) /\ 0 <= sr_bufOffset r < len (sr_buffer r) /\
     sr_bytesWritten r = pos_of secs i + sr_bufOffset r /\
     rem = drop (Z.to_nat (sr_bufOffset r)) (sr_buffer r) ++ concat (drop (S i) secs) ++ foot) \/
    (* inside the footer *)
    (wf = true /\ i = total /\ sr_footerWritten r = true /\ sr_buffer r = foot /\
     0 <= sr_bufOffset r <= len foot /\
     rem = drop (Z.to_nat (sr_bufOffset r)) foot);
}.

Lemma total_eq : Z.of_nat total = len (s_Files s) + len (s_CASInfos s) + 3.
Proof. unfold total, secs, len. rewrite length_sections. lia. Qed.

Lemma pos_step i b : secs !! i = Some b -> pos_of secs (S i) = pos_of secs i + len b.
Proof.
  intros H. unfold pos_of. rewrite (take_S_r _ _ _ H), concat_app, len_app. cbn [concat].
  rewrite app_nil_r. done.
Qed.

Lemma pos_total : pos_of secs total = len (concat secs).
Proof. unfold pos_of, total. by rewrite firstn_all. Qed.

Lemma pos_bound i : 0 <= pos_of secs i <= len (concat secs).
Proof.
  unfold pos_of. split; [apply len_nonneg|].
  rewrite <- (take_drop i secs) at 2. rewrite concat_app, len_app.
  pose proof (len_nonneg (concat (drop i secs))). lia.
Qed.

Lemma take_drop_all {A} n (l : list A) : len l <= n -> take (Z.to_nat n) l = l.
Proof. intros. apply take_ge. unfold len in *. lia. Qed.

(** One copy from section [i] delivers the next bytes, and either fills the
    destination or ends the section. *)
Lemma copy_section i r rem room :
  0 < room -> sending i r rem -> sr_footerWritten r = false -> (wf = true -> sr_footer r = Some f) ->
  secs !! i = Some (sr_buffer r) -> 0 <= sr_bufOffset r < len (sr_buffer r) ->
  sr_bytesWritten r = pos_of secs i + sr_bufOffset r ->
  rem = drop (Z.to_nat (sr_bufOffset r)) (sr_buffer r) ++ concat (drop (S i) secs) ++ foot ->
  let '(copied, r1) := copy_out room r in
  let r2 := if len (sr_buffer r1) <=? sr_bufOffset r1 then end_section r1 else r1 in
  exists i' rem', rem = copied ++ rem' /\ sending i' r2 rem' /\ 0 < len copied <= room /\
    (len copied = room /\ i' = i \/ i' = S i).
Proof.
  intros Hroom [Hs Hw Hfs Hi Hle Hfi Hci Hfo _] Hnw Hft Hb Ho Hbw ->.
  pose proof (lookup_lt_Some _ _ _ Hb) as Hlt. fold total in Hlt.
  pose proof (pos_step i _ Hb) as Hpos. pose proof (pos_bound i) as Hpi. pose proof (pos_bound (S i)) as Hpi'.
  pose proof (len_nonneg foot) as Hlf.
  unfold copy_out. set (avail := drop (Z.to_nat (sr_bufOffset r)) (sr_buffer r)).
  assert (len avail = len (sr_buffer r) - sr_bufOffset r) as Hav
    by (unfold avail, len; rewrite length_drop; unfold len in *; lia).
  destruct (decide (room < len avail)) as [Hr|Hr].
  - (* the destination is full first *)
    assert (len (take (Z.to_nat room) avail) = room) as Hlc
      by (unfold len in *; rewrite length_take; lia).
    rewrite Hlc. cbn [sr_buffer sr_bufOffset]. rewrite (proj2 (Z.leb_gt _ _)) by lia.
    exists i, (drop (Z.to_nat room) avail ++ concat (drop (S i) secs) ++ foot).
    split; [by rewrite (app_assoc (take _ _)), take_drop|]. split; [|split; [lia|by left]].
    constructor; cbn; auto. right. left. split; [done|]. split; [done|]. split; [done|].
    split; [lia|]. rewrite i64_small by (unfold is_i64; lia). split; [lia|].
    unfold avail. rewrite drop_drop. do 2 f_equal. lia.
  - rewrite take_drop_all by lia. cbn [sr_buffer sr_bufOffset]. rewrite (proj2 (Z.leb_le _ _)) by lia.
    exists (S i), (concat (drop (S i) secs) ++ foot). split; [done|]. split; [|split; [lia|by right]].
    unfold end_section. cbn. rewrite Hs, Hi, i64_small, u64_small by (unfold is_i64, is_u64; lia).
    pose proof total_eq as Ht. unfold len in Ht.
    assert (sr_bytesWritten r + len avail = pos_of secs (S i)) as -> by lia.
    constructor; cbn; [done|done|done|lia|lia| | | |].
    + intros _. destruct (Z.eqb_spec (Z.of_nat i) 0) as [E|E]; [by replace i with 0%nat by lia|].
      apply Hfi. lia.
    + intros H2. destruct (Z.eqb_spec (Z.of_nat i) 0) as [E|E]; [lia|].
      destruct (Z.eqb_spec (Z.of_nat i) (len (s_Files s) + 1)) as [E2|E2]; unfold len in E2.
      * unfold nf in *. f_equal. lia.
      * apply Hci. unfold nf in *. lia.
    + intros H2. destruct (Z.eqb_spec (Z.of_nat i) 0) as [E|E]; [lia|].
      destruct (Z.eqb_spec (Z.of_nat i) (len (s_Files s) + 1)) as [E2|E2]; unfold len in E2; [lia|].
      rewrite (proj2 (Z.eqb_eq _ _)) by (unfold len; lia).
      by rewrite H2, pos_total.
    + left. done.
Qed.

Lemma len_foot : wf = true -> len foot = 200.
Proof.
  intros Hwf. unfold foot. rewrite Hwf. unfold footer_bytes. rewrite !len_app, !len_vec.
  assert (forall z, len (put_u64 z) = 8) as H8 by (intros; unfold len; by rewrite length_put_u64).
  rewrite !H8. done.
Qed.

(** What a call returns: the next bytes, and [EOF] only at the end. *)
Definition delivers (plen : Z) (out rem : list byte) (res : list byte * option error * shardReader) : Prop :=
  exists r' i', res =
    (out ++ take (Z.to_nat (plen - len out)) rem,
     (if bool_decide (len out < plen /\ out = [] /\ rem = []) then Some EOF else None), r') /\
    sending i' r' (drop (Z.to_nat (plen - len out)) rem).

Lemma delivers_full i plen out rem r :
  len out = plen -> sending i r rem -> delivers plen out rem (out, None, r).
Proof.
  intros Hl Hs. exists r, i. rewrite Hl, Z.sub_diag. cbn. rewrite take_0, app_nil_r, drop_0.
  rewrite bool_decide_eq_false_2; [done|]. lia.
Qed.

Lemma delivers_end i plen out r :
  len out < plen -> sending i r [] ->
  delivers plen out [] (if 0 <? len out then (out, None, r) else ([], Some EOF, r)).
Proof.
  intros Hl Hs. exists r, i. rewrite take_nil, drop_nil, app_nil_r.
  destruct (Z.ltb_spec 0 (len out)) as [Hp|Hp].
  - rewrite bool_decide_eq_false_2; [done|]. intros (_ & -> & _). by vm_compute in Hp.
  - assert (out = []) as -> by (apply len_0_nil; pose proof (len_nonneg out); lia).
    by rewrite bool_decide_eq_true_2.
Qed.

Lemma delivers_step plen out copied rem' res :
  copied <> [] -> len out + len copied <= plen ->
  delivers plen (out ++ copied) rem' res -> delivers plen out (copied ++ rem') res.
Proof.
  intros Hc Hl (r' & i' & -> & Hs). exists r', i'. rewrite len_app in *.
  pose proof (len_nonneg out) as Hlo.
  assert (0 < len copied) as Hpc.
  { destruct copied; [done|]. rewrite len_cons. pose proof (len_nonneg copied). lia. }
  assert (Z.to_nat (plen - len out) = (length copied + Z.to_nat (plen - (len out + len copied)))%nat) as ->
    by (unfold len in *; lia).
  rewrite take_app_add, drop_app_add, <- app_assoc.
  rewrite !bool_decide_eq_false_2; [done| |].
  - intros (_ & _ & H). by apply app_nil in H as [? _].
  - intros (_ & H & _). by apply app_nil in H as [_ ?].
Qed.

(** The footer rounds. *)
Lemma footer_step fuel plen out r rem :
  wf = true -> sending total r rem -> sr_footerWritten r = true -> sr_buffer r = foot ->
  0 <= sr_bufOffset r <= len foot -> rem = drop (Z.to_nat (sr_bufOffset r)) foot ->
  len out < plen -> (1 <= fuel)%nat ->
  delivers plen out rem
    (if sr_bufOffset r <? len (sr_buffer r) then
       let '(copied, r) := copy_out (plen - len out) r in
       let out := out ++ copied in
       if sr_bufOffset r <? len (sr_buffer r) then read_loop fuel plen out r
       else if 0 <? len out then (out, None, r) else ([], Some EOF, r)
     else if 0 <? len out then (out, None, r) else ([], Some EOF, r)).
Proof.
  intros Hwf Hs Hn Hbuf Hoff Hrem Hlt Hfuel. rewrite Hbuf.
  destruct (Z.ltb_spec (sr_bufOffset r) (len foot)) as [Ho|Ho].
  2: { assert (rem = []) as -> by (rewrite Hrem; apply drop_ge; unfold len in *; lia).
       by apply (delivers_end total). }
  destruct Hs as [Hsh Hw Hfs Hi Hle Hfi Hci Hfo _].
  unfold copy_out. rewrite Hbuf, <- Hrem. cbn [sr_buffer sr_bufOffset].
  assert (len rem = len foot - sr_bufOffset r) as Hlr
    by (rewrite Hrem; unfold len in *; rewrite length_drop; lia).
  set (copied := take (Z.to_nat (plen - len out)) rem).
  set (r1 := MkShardReader _ _ _ _ _ _ _ _ _ _ _ _).
  assert (sending total r1 (drop (length copied) rem)) as Hs1.
  { constructor; cbn; auto. right. right. cbn. split; [done|]. split; [done|]. split; [done|].
    split; [done|]. pose proof (len_nonneg copied).
    assert (len copied <= len rem) by (unfold copied, len; rewrite length_take; lia).
    split; [lia|]. rewrite Hrem, drop_drop. f_equal. unfold len in *. lia. }
  assert (rem = copied ++ drop (length copied) rem) as Hsplit.
  { assert (copied = take (length copied) rem) as Hc.
    { unfold copied. rewrite length_take. destruct (decide (Z.to_nat (plen - len out) <= length rem)%nat).
      - by rewrite Nat.min_l.
      - rewrite Nat.min_r by lia. by rewrite !take_ge by lia. }
    rewrite Hc at 1. by rewrite take_drop. }
  assert (copied <> []) as Hne.
  { intros E. apply (f_equal len) in E. change (len []) with 0 in E.
    unfold copied, len in E. rewrite length_take in E. unfold len in *. lia. }
  assert (len out + len copied <= plen) as Hroom.
  { unfold copied, len in *. rewrite length_take. lia. }
  rewrite Hsplit. apply delivers_step; [done|done|].
  destruct (Z.ltb_spec (sr_bufOffset r + len copied) (len foot)) as [H1|H1].
  - assert (len (out ++ copied) = plen) as Hfull.
    { rewrite len_app. unfold copied, len in *. rewrite length_take in *. lia. }
    destruct fuel as [|fuel]; [lia|]. cbn [read_loop].
    rewrite (proj2 (Z.ltb_ge _ _)) by lia. cbn [negb]. by apply (delivers_full total).
  - assert (drop (length copied) rem = []) as Hd by (apply drop_ge; unfold len in *; lia).
    rewrite Hd in *. destruct (decide (len (out ++ copied) = plen)) as [Hfull|Hnf].
    + rewrite (proj2 (Z.ltb_lt 0 _)) by (pose proof (len_nonneg out); lia).
      by apply (delivers_full total).
    + apply (delivers_end total); [rewrite len_app in *; lia|done].
Qed.

Lemma read_loop_spec fuel plen out i r rem :
  sending i r rem -> len out <= plen ->
  ((total - i + 3 <= fuel)%nat \/ (len out = plen /\ (1 <= fuel)%nat)) ->
  delivers plen out rem (read_loop fuel plen out r).
Proof.
  revert out i r rem. induction fuel as [|fuel IH]; intros out i r rem Hs Hl Hf; [lia|].
  cbn [read_loop]. destruct (Z.ltb_spec (len out) plen) as [Hlt|Hge]; cbn [negb].
  2: { apply (delivers_full i); [lia|done]. }
  destruct Hf as [Hf|[? _]]; [|lia].
  pose proof Hs as [Hsh Hw Hfs Hi Hle Hfi Hci Hfo Hst].
  rewrite Hsh, <- total_eq, Hi.
  destruct (Z.ltb_spec (Z.of_nat i) (Z.of_nat total)) as [Hit|Hit].
  - (* in the sections *)
    destruct (lookup_lt_is_Some_2 secs i) as [b Hb]; [unfold total in *; lia|].
    assert (48 <= len b) as Hb48 by (eapply (Forall_lookup_1 _ _ _ _ (sections_nonempty s fsize)); exact Hb).
    assert (exists r1, (if len (sr_buffer r) <=? sr_bufOffset r then loadSection r else Ok r) = Ok r1 /\
      sending i r1 rem /\ sr_footerWritten r1 = false /\ (wf = true -> sr_footer r1 = Some f) /\
      secs !! i = Some (sr_buffer r1) /\ 0 <= sr_bufOffset r1 < len (sr_buffer r1) /\
      sr_bytesWritten r1 = pos_of secs i + sr_bufOffset r1 /\
      rem = drop (Z.to_nat (sr_bufOffset r1)) (sr_buffer r1) ++ concat (drop (S i) secs) ++ foot)
      as (r1 & -> & Hs1 & Hn1 & Hf1 & Hb1 & Ho1 & Hw1 & Hr1).
    { destruct Hst as [(Hn & Hft & Hbuf & Hoff & Hbw & Hrem)|[(Hn & Hft & Hbuf & Hoff & Hbw & Hrem)|(? & -> & _)]];
        [| |lia].
      - rewrite Hbuf, Hoff. change (len []) with 0. cbn [Z.leb Z.compare].
        unfold loadSection. rewrite Hsh, Hfs, Hi, (section_bytes_spec s fsize i b Hb). cbn [mbind result_bind].
        assert (rem = b ++ concat (drop (S i) secs) ++ foot) as Hrem'.
        { rewrite Hrem, (drop_S _ _ _ Hb). cbn [concat]. by rewrite app_assoc. }
        eexists. split; [reflexivity|]. cbn. rewrite Hbw. split; [|repeat split; auto; lia].
        constructor; cbn; auto. right. left. rewrite Hbw. repeat split; auto; lia.
      - rewrite (proj2 (Z.leb_gt _ _)) by lia. exists r. done. }
    pose proof (copy_section i r1 rem (plen - len out) ltac:(lia) Hs1 Hn1 Hf1 Hb1 Ho1 Hw1 Hr1) as Hcp.
    destruct (copy_out (plen - len out) r1) as [copied r2].
    destruct Hcp as (i' & rem' & -> & Hs2 & Hc & Hi').
    apply delivers_step.
    + intros ->. by destruct Hc.
    + lia.
    + eapply IH; [exact Hs2|rewrite len_app; lia|]. rewrite len_app.
      destruct Hi' as [[Hfull ->]| ->]; [right; split; [lia|lia]|left; lia].
  - assert (i = total) as -> by lia.
    destruct Hst as [(Hn & Hft & Hbuf & Hoff & Hbw & Hrem)|[(Hn & Hft & Hbuf & _)|(Hwf & _ & Hn & Hbuf & Hoff & Hrem)]].
    + (* the footer, if any, is still to be built *)
      unfold total in Hrem. rewrite drop_all in Hrem. cbn [concat app] in Hrem.
      rewrite Hw, Hn. cbn [negb]. destruct (decide (wf = true)) as [Ewf|Ewf].
      * rewrite Ewf. unfold buildFooterBuffer. rewrite (Hft Ewf).
        rewrite Hfi, Hci, Hfo by (unfold total, secs; rewrite ?length_sections; unfold nf; lia || done).
        set (r1 := MkShardReader _ _ _ _ _ _ _ _ _ _ _ _).
        assert (sr_buffer r1 = foot) as Hb1 by (unfold r1, foot; cbn; by rewrite Ewf).
        pose proof (len_foot Ewf) as H200.
        apply footer_step; try done; [|cbn; lia|lia].
        constructor; cbn; auto. right. right. cbn. split; [done|]. split; [done|]. split; [done|].
        split; [done|]. split; [lia|done].
      * apply not_true_is_false in Ewf. rewrite Ewf.
        assert (rem = []) as -> by (rewrite Hrem; unfold foot; by rewrite Ewf).
        by apply (delivers_end total).
    + apply lookup_lt_Some in Hbuf. unfold total in *. lia.
    + rewrite Hw, Hwf, Hn. cbn [negb]. apply footer_step; try done; lia.
Qed.

(** One call on the reader. *)
Lemma Read_delivers plen i r rem :
  0 <= plen -> sending i r rem ->
  exists r' i', shardReader_Read plen r =
    (take (Z.to_nat plen) rem,
     (if bool_decide (0 < plen /\ rem = []) then Some EOF else None), r') /\
    sending i' r' (drop (Z.to_nat plen) rem).
Proof.
  intros Hp Hs. unfold shardReader_Read.
  destruct (read_loop_spec (Z.to_nat (len (s_Files (sr_shard r)) + len (s_CASInfos (sr_shard r)) + 6)) plen [] i r rem)
    as (r' & i' & -> & Hs'); [done|done| |].
  - left. rewrite (sd_shard _ _ _ Hs). pose proof total_eq. unfold len in *. lia.
  - exists r', i'. change (len []) with 0. rewrite Z.sub_0_r. cbn [app]. split; [|by rewrite Z.sub_0_r in Hs'].
    f_equal. f_equal. destruct (decide (0 < plen /\ rem = [])) as [H|H].
    + rewrite !bool_decide_eq_true_2 by naive_solver. done.
    + rewrite !bool_decide_eq_false_2 by naive_solver. done.
Qed.
End streaming.

(** The specification of a reader: the bytes it still holds. *)
Definition stream_Read (plen : Z) (rem : list byte) : list byte * option error * list byte :=
  (take (Z.to_nat plen) rem,
   (if bool_decide (0 < plen /\ rem = []) then Some EOF else None),
   drop (Z.to_nat plen) rem).

(** The results of successive calls with slices of the given lengths. *)
Fixpoint reads {R} (Read : Z -> R -> list byte * option error * R) (plens : list Z) (r : R) :
    list (list byte * option error) :=
  match plens with
  | [] => []
  | plen :: plens => let '(out, err, r) := Read plen r in (out, err) :: reads Read plens r
  end.

Lemma reads_sending s wf f plens i r rem :
  len (concat (secs s wf)) + len (foot s wf f) < 2 ^ 63 ->
  Forall (fun n => 0 <= n) plens -> sending s wf f i r rem ->
  reads shardReader_Read plens r = reads stream_Read plens rem.
Proof.
  intros Hsm Hp. revert i r rem. induction Hp as [|plen plens Hp _ IH]; intros i r rem Hs; [done|].
  cbn [reads]. destruct (Read_delivers s wf f Hsm plen i r rem Hp Hs) as (r' & i' & -> & Hs').
  cbn [stream_Read]. f_equal. by eapply IH.
Qed.

Lemma encoded_eq now s wf :
  encoded now s wf =
    concat (secs s wf) ++ foot s wf (match s_Footer s with Some f => f | None => newFooter s now end).
Proof. unfold encoded, secs, foot, fsize, the_footer, nf. by destruct wf. Qed.

(** The streaming serializer refines a byte stream.  Whatever slice sizes
    the caller reads with, each call returns the next bytes of the
    serialization (sections and, if asked for, a footer holding the positions
    at which the sections really start), and [EOF] exactly when they have all
    been delivered. *)
Theorem Encode_refines_stream now s wf plens :
  len (encoded now s wf) < 2 ^ 63 -> Forall (fun n => 0 <= n) plens ->
  reads shardReader_Read plens (Encode now s wf) = reads stream_Read plens (encoded now s wf).
Proof.
  rewrite encoded_eq, len_app. intros Hsm Hp.
  set (f := match s_Footer s with Some f => f | None => newFooter s now end) in *.
  eapply (reads_sending s wf f _ 0); [done|done|].
  constructor; cbn; try done; try lia.
  left. repeat split. by intros ->.
Qed.

Lemma Encode_refines_stream_witness :
  reads shardReader_Read [50; 0; 100; 300; 7] (Encode 5 NewShard true) =
  reads stream_Read [50; 0; 100; 300; 7] (encoded 5 NewShard true).
Proof.
  apply (Encode_refines_stream 5 NewShard true [50; 0; 100; 300; 7]).
  - vm_compute. reflexivity.
  - repeat constructor; vm_compute; discriminate.
Defined.

(** ** Round trip *)

(** The byte-order conversion of SHA-256 digests is its own inverse. *)
Lemma transform_involutive (h : SHA256Hash) :
  transformSHA256ByteOrder (transformSHA256ByteOrder h) = h.
Proof.
  inv_vec h. intros. reflexivity.
Qed.

Definition entry_ok (e : FileDataSequenceEntry) : Prop :=
  is_u32 (fe_CASFlags e) /\ is_u32 (fe_UnpackedSegBytes e) /\
  is_u32 (fe_ChunkIndexStart e) /\ is_u32 (fe_ChunkIndexEnd e).

Definition chunk_ok (c : CASChunkSequenceEntry) : Prop :=
  is_u32 (cc_ByteRangeStart c) /\ is_u32 (cc_UnpackedSegBytes c) /\ is_u32 (cc_Flags c).

(** A file block the format can hold: fields of machine width, extras that
    match the flags, and not the pattern that ends the section. *)
Definition file_ok (fb : FileBlock) : Prop :=
  is_u32 (fb_Flags fb) /\ len (fb_Entries fb) < 2 ^ 32 /\ Forall entry_ok (fb_Entries fb) /\
  (has_flag (fb_Flags fb) FileWithVerification ->
     length (fb_Verification fb) = length (fb_Entries fb)) /\
  (~ has_flag (fb_Flags fb) FileWithVerification -> fb_Verification fb = []) /\
  (has_flag (fb_Flags fb) FileWithMetadataExt <-> is_Some (fb_MetadataExt fb)) /\
  file_header fb <> bookendPattern.

Definition cas_ok (cb : CASBlock) : Prop :=
  is_u32 (cb_CASFlags cb) /\ is_u32 (cb_NumBytesInCAS cb) /\ is_u32 (cb_NumBytesOnDisk cb) /\
  len (cb_Chunks cb) < 2 ^ 32 /\ Forall chunk_ok (cb_Chunks cb) /\
  cas_header cb <> bookendPattern.

Definition footer_ok (f : Footer) : Prop :=
  f_Version f = 1 /\ is_u64 (f_FileInfoOffset f) /\ is_u64 (f_CASInfoOffset f) /\
  is_u64 (f_FileLookupOffset f) /\ is_u64 (f_FileLookupNumEntries f) /\
  is_u64 (f_CASLookupOffset f) /\ is_u64 (f_CASLookupNumEntries f) /\
  is_u64 (f_ChunkLookupOffset f) /\ is_u64 (f_ChunkLookupNumEntries f) /\
  is_u64 (f_ShardCreationTimestamp f) /\ is_u64 (f_ShardKeyExpiry f) /\
  is_u64 (f_StoredBytesOnDisk f) /\ is_u64 (f_MaterializedBytes f) /\ is_u64 (f_StoredBytes f) /\
  is_u64 (f_FooterOffset f).

(** A 48-byte record that starts with a hash and four little-endian words. *)
Lemma slice_words (h : hash) a b c d :
  let l := h ++ put_u32 a ++ put_u32 b ++ put_u32 c ++ put_u32 d in
  to_arr 32 (slice 0 32 l) = h /\ slice 32 36 l = put_u32 a /\ slice 36 40 l = put_u32 b /\
  slice 40 44 l = put_u32 c /\ slice 44 48 l = put_u32 d.
Proof.
  cbn zeta. assert (len h = 32) as Hh by apply len_hash.
  assert (forall z, len (put_u32 z) = 4) as H4 by apply len_put_u32.
  split; [|repeat split].
  - rewrite slice_prefix by (by rewrite Hh). apply to_arr_vec.
  - apply slice_mid; rewrite ?Hh, ?H4; done.
  - rewrite (app_assoc h). apply slice_mid; rewrite ?len_app, ?Hh, ?H4; done.
  - rewrite (app_assoc h), (app_assoc (h ++ _)). apply slice_mid; rewrite ?len_app, ?Hh, ?H4; done.
  - rewrite (app_assoc h), (app_assoc (h ++ _)), (app_assoc ((h ++ _) ++ _)), <- (app_nil_r (put_u32 d)).
    apply slice_mid; rewrite ?len_app, ?Hh, ?H4; done.
Qed.

Lemma parse_entry_bytes e : entry_ok e -> parse_entry (entry_bytes e) = e.
Proof.
  destruct e as [h a b c d]. intros (Ha & Hb & Hc & Hd).
  unfold parse_entry, entry_bytes. cbn [fe_CASHash fe_CASFlags fe_UnpackedSegBytes fe_ChunkIndexStart fe_ChunkIndexEnd].
  destruct (slice_words h a b c d) as (-> & -> & -> & -> & ->).
  by rewrite !le_val_put_u32.
Qed.

Lemma zeros4 : replicate 4 Byte.x00 = put_u32 0.
Proof. done. Qed.

Lemma parse_chunk_bytes c : chunk_ok c -> parse_chunk (chunk_entry_bytes c) = c.
Proof.
  destruct c as [h a b d]. intros (Ha & Hb & Hd).
  unfold parse_chunk, chunk_entry_bytes. cbn [cc_ChunkHash cc_ByteRangeStart cc_UnpackedSegBytes cc_Flags].
  rewrite zeros4. destruct (slice_words h a b d 0) as (-> & -> & -> & -> & _).
  by rewrite !le_val_put_u32.
Qed.

Lemma parse_verif_bytes (v : VerificationHash) : to_arr 32 (slice 0 32 (verif_bytes v)) = v.
Proof.
  unfold verif_bytes. rewrite slice_prefix by (by rewrite len_hash). apply to_arr_vec.
Qed.

(** Reading back a list of 48-byte records. *)
Lemma read_entries_bytes {A} fmt (parse : list byte -> A) (bytes : A -> list byte) fuel l acc rest e :
  Forall (fun a => len (bytes a) = 48 /\ parse (bytes a) = a) l -> (length l <= fuel)%nat ->
  read_entries fmt parse fuel (len l) acc (Reader (concat (map bytes l) ++ rest) e) =
    Ok (acc ++ l, Reader rest e).
Proof.
  intros Hl. revert fuel acc. induction Hl as [|a l [H48 Hp] _ IH]; intros fuel acc Hf.
  - destruct fuel; cbn; by rewrite app_nil_r.
  - destruct fuel as [|fuel]; [cbn in Hf; lia|]. cbn [read_entries].
    rewrite len_cons. pose proof (len_nonneg l). rewrite (proj2 (Z.leb_gt _ _)) by lia.
    cbn [map concat]. rewrite <- app_assoc, read_or_app by done. cbn [mbind result_bind].
    rewrite Z.add_simpl_l, Hp, IH by (cbn in Hf; lia). by rewrite <- app_assoc.
Qed.

Lemma length_concat_48 {A} (bytes : A -> list byte) l rest :
  Forall (fun a => len (bytes a) = 48) l -> (length l <= length (concat (map bytes l) ++ rest))%nat.
Proof.
  induction 1 as [|a l Ha _ IH]; cbn [map concat length]; [lia|].
  rewrite <- app_assoc, length_app. unfold len in Ha. lia.
Qed.

Lemma len_entry_bytes e : len (entry_bytes e) = 48.
Proof. unfold entry_bytes. rewrite !len_app, !len_put_u32, len_vec. done. Qed.

Lemma len_chunk_entry_bytes c : len (chunk_entry_bytes c) = 48.
Proof. unfold chunk_entry_bytes. rewrite !len_app, !len_put_u32, len_vec, len_replicate. done. Qed.

Lemma len_verif_bytes v : len (verif_bytes v) = 48.
Proof. unfold verif_bytes. rewrite len_app, len_vec, len_replicate. done. Qed.

Lemma flag_test flags bit : negb (Z.land flags bit =? 0) = true <-> has_flag flags bit.
Proof. unfold has_flag. destruct (Z.eqb_spec (Z.land flags bit) 0); naive_solver. Qed.

Lemma zeros8 : replicate 8 Byte.x00 = put_u32 0 ++ put_u32 0.
Proof. done. Qed.

Lemma decode_file_bytes fb rest e :
  file_ok fb ->
  decode_file (file_header fb)
    (Reader (concat (map entry_bytes (fb_Entries fb)) ++ verif_section fb ++ meta_section fb ++ rest) e) =
  Ok (fb, Reader rest e).
Proof.
  intros (Hfl & Hn & He & Hv1 & Hv0 & Hm & _). destruct fb as [h fl es vs mt].
  cbn [fb_FileHash fb_Flags fb_Entries fb_Verification fb_MetadataExt] in *.
  pose proof (len_nonneg es). unfold decode_file, file_header, verif_section, meta_section.
  cbn [fb_FileHash fb_Flags fb_Entries fb_Verification fb_MetadataExt rdata].
  rewrite zeros8. destruct (slice_words h fl (u32 (len es)) 0 0) as (-> & -> & -> & _ & _).
  rewrite !le_val_put_u32, u32_small by (done || (unfold is_u32; lia) || apply u32_range).
  rewrite read_entries_bytes.
  2: { eapply Forall_impl; [exact He|]. intros x Hx. split; [apply len_entry_bytes|by apply parse_entry_bytes]. }
  2: { apply le_S, length_concat_48, Forall_true. apply len_entry_bytes. }
  cbn [mbind result_bind app rdata].
  assert (forall r2 : list byte,
    (if negb (Z.land fl FileWithVerification =? 0)
     then read_entries "failed to read verification entry %d: %w"
            (fun buf => to_arr 32 (slice 0 32 buf) : VerificationHash)
            (S (length ((if negb (Z.land fl FileWithVerification =? 0)
                         then concat (map verif_bytes vs) else []) ++ r2))) (len es) []
            (Reader ((if negb (Z.land fl FileWithVerification =? 0)
                      then concat (map verif_bytes vs) else []) ++ r2) e)
     else Ok ([], Reader ((if negb (Z.land fl FileWithVerification =? 0)
                      then concat (map verif_bytes vs) else []) ++ r2) e)) = Ok (vs, Reader r2 e)) as ->.
  { intros r2. destruct (negb (Z.land fl FileWithVerification =? 0)) eqn:Ev.
    - apply flag_test in Ev.
      assert (len es = len vs) as -> by (unfold len; by rewrite Hv1).
      apply read_entries_bytes.
      + apply Forall_true. intros v. split; [apply len_verif_bytes|apply parse_verif_bytes].
      + apply le_S, length_concat_48, Forall_true. apply len_verif_bytes.
    - rewrite Hv0; [done|]. rewrite <- flag_test, Ev. done. }
  cbn [mbind result_bind].
  destruct (negb (Z.land fl FileWithMetadataExt =? 0)) eqn:Em.
  - apply flag_test, Hm in Em as [[m] ->]. cbn [me_SHA256Hash].
    rewrite read_or_app by (rewrite len_app, len_vec, len_replicate; done).
    cbn [mbind result_bind]. rewrite slice_prefix by (by rewrite len_vec).
    by rewrite to_arr_vec, transform_involutive.
  - destruct mt as [m|]; [|done]. exfalso.
    assert (has_flag fl FileWithMetadataExt) as Hh by (by apply Hm). apply flag_test in Hh. congruence.
Qed.

Lemma isBookend_false b : b <> bookendPattern -> isBookend b = false.
Proof. intros. by apply bool_decide_eq_false_2. Qed.

Lemma decode_files_bytes fuel files acc rest e :
  Forall file_ok files -> (length files < fuel)%nat ->
  decode_files fuel acc (Reader (concat (map buildFileBlock files) ++ buildBookend ++ rest) e) =
    Ok (acc ++ files, Reader rest e).
Proof.
  intros Hf. revert fuel acc. induction Hf as [|fb files Hfb _ IH]; intros fuel acc Hfu;
    (destruct fuel as [|fuel]; [lia|]); cbn [decode_files map concat].
  - cbn [app]. rewrite read_or_app by done. cbn [mbind result_bind].
    unfold isBookend. rewrite bool_decide_eq_true_2 by done. by rewrite app_nil_r.
  - rewrite buildFileBlock_eq, <- !app_assoc, read_or_app by apply len_file_header.
    cbn [mbind result_bind]. rewrite isBookend_false by apply Hfb.
    rewrite decode_file_bytes by done. cbn [mbind result_bind].
    rewrite IH by (cbn in Hfu; lia). by rewrite <- app_assoc.
Qed.

Lemma decode_cas_bytes cb rest e :
  cas_ok cb ->
  decode_cas (cas_header cb) (Reader (concat (map chunk_entry_bytes (cb_Chunks cb)) ++ rest) e) =
  Ok (cb, Reader rest e).
Proof.
  intros (Hfl & Hb & Hd & Hn & Hc & _). destruct cb as [h fl cs nb nd].
  cbn [cb_CASHash cb_CASFlags cb_Chunks cb_NumBytesInCAS cb_NumBytesOnDisk] in *.
  pose proof (len_nonneg cs). unfold decode_cas, cas_header.
  cbn [cb_CASHash cb_CASFlags cb_Chunks cb_NumBytesInCAS cb_NumBytesOnDisk rdata].
  destruct (slice_words h fl (u32 (len cs)) nb nd) as (-> & -> & -> & -> & ->).
  rewrite !le_val_put_u32, u32_small by (done || (unfold is_u32; lia) || apply u32_range).
  rewrite read_entries_bytes; [done| |].
  - eapply Forall_impl; [exact Hc|]. intros x Hx. split; [apply len_chunk_entry_bytes|by apply parse_chunk_bytes].
  - apply le_S, length_concat_48, Forall_true. apply len_chunk_entry_bytes.
Qed.

Section roundtrip.
Context {St : Type} (onCASBlock : St -> CASBlock -> result St).

Definition process_blocks (st : St) (blocks : list CASBlock) : result St :=
  foldM (fun st cb => wrap_err "process CAS block %d: %w" (onCASBlock st cb)) st blocks.

Lemma decode_cas_blocks_bytes fuel blocks acc st rest e :
  Forall cas_ok blocks -> (length blocks < fuel)%nat ->
  decode_cas_blocks onCASBlock fuel acc st
    (Reader (concat (map buildCASBlock blocks) ++ buildBookend ++ rest) e) =
    st' ← process_blocks st blocks; Ok ((acc ++ blocks, st'), Reader rest e).
Proof.
  intros Hf. revert fuel acc st. induction Hf as [|cb blocks Hcb _ IH]; intros fuel acc st Hfu;
    (destruct fuel as [|fuel]; [lia|]); cbn [decode_cas_blocks map concat].
  - cbn [app]. rewrite read_or_app by done. cbn [mbind result_bind].
    unfold isBookend. rewrite bool_decide_eq_true_2 by done. cbn. by rewrite app_nil_r.
  - rewrite buildCASBlock_eq, <- !app_assoc, read_or_app by apply len_cas_header.
    cbn [mbind result_bind]. rewrite isBookend_false by apply Hcb.
    rewrite decode_cas_bytes by done. cbn [mbind result_bind]. unfold process_blocks. cbn [foldM].
    destruct (wrap_err _ (onCASBlock st cb)) as [st1|]; cbn [mbind result_bind]; [|done].
    rewrite IH by (cbn in Hfu; lia). unfold process_blocks. by rewrite <- app_assoc.
Qed.

Lemma read_u64_bytes fmt z rest e :
  is_u64 z -> read_u64 fmt (Reader (put_u64 z ++ rest) e) = Ok (z, Reader rest e).
Proof.
  intros Hz. unfold read_u64. rewrite read_or_app by (unfold len; by rewrite length_put_u64).
  cbn [mbind result_bind]. by rewrite le_val_put_u64.
Qed.

Lemma decode_footer_bytes f rest e :
  footer_ok f -> decode_footer 200 (Reader (footer_bytes f ++ rest) e) = Ok (f, Reader rest e).
Proof.
  intros (Hv & H1 & H2 & H3 & H4 & H5 & H6 & H7 & H8 & H9 & H10 & H11 & H12 & H13 & H14).
  destruct f as [v o1 o2 o3 o4 o5 o6 o7 o8 key ts ex rs q1 q2 q3 q4]. cbn [f_Version f_FileInfoOffset f_CASInfoOffset f_FileLookupOffset f_FileLookupNumEntries
    f_CASLookupOffset f_CASLookupNumEntries f_ChunkLookupOffset f_ChunkLookupNumEntries f_ChunkHashKey
    f_ShardCreationTimestamp f_ShardKeyExpiry f_Reserved f_StoredBytesOnDisk f_MaterializedBytes
    f_StoredBytes f_FooterOffset] in *. subst v.
  unfold footer_bytes, decode_footer.
  cbn [f_Version f_FileInfoOffset f_CASInfoOffset f_FileLookupOffset f_FileLookupNumEntries
    f_CASLookupOffset f_CASLookupNumEntries f_ChunkLookupOffset f_ChunkLookupNumEntries f_ChunkHashKey
    f_ShardCreationTimestamp f_ShardKeyExpiry f_Reserved f_StoredBytesOnDisk f_MaterializedBytes
    f_StoredBytes f_FooterOffset].
  change (200 <? 200) with false. rewrite <- !app_assoc.
  rewrite read_u64_bytes by (unfold is_u64; lia). cbn [mbind result_bind negb Z.eqb Pos.eqb].
  do 8 (rewrite read_u64_bytes by done; cbn [mbind result_bind]).
  rewrite read_or_app by (by rewrite len_hash). cbn [mbind result_bind].
  do 2 (rewrite read_u64_bytes by done; cbn [mbind result_bind]).
  rewrite read_or_app by (by rewrite len_vec). cbn [mbind result_bind].
  do 4 (rewrite read_u64_bytes by done; cbn [mbind result_bind]).
  by rewrite !to_arr_vec.
Qed.

Lemma length_blocks {A} (build : A -> list byte) l rest :
  (forall a, 48 <= len (build a)) -> (length l <= length (concat (map build l) ++ rest))%nat.
Proof.
  intros Hb. induction l as [|a l IH]; cbn [map concat length]; [lia|].
  rewrite <- app_assoc, length_app. specialize (Hb a). unfold len in Hb. lia.
Qed.

Lemma len_buildFileBlock fb : 48 <= len (buildFileBlock fb).
Proof.
  rewrite buildFileBlock_eq, len_app, len_file_header.
  pose proof (len_nonneg (concat (map entry_bytes (fb_Entries fb)) ++ verif_section fb ++ meta_section fb)). lia.
Qed.

Lemma len_buildCASBlock cb : 48 <= len (buildCASBlock cb).
Proof.
  rewrite buildCASBlock_eq, len_app, len_cas_header.
  pose proof (len_nonneg (concat (map chunk_entry_bytes (cb_Chunks cb)))). lia.
Qed.

Lemma header_fields fs :
  is_u64 fs ->
  len (buildHeader fs) = 48 /\ slice 15 32 (buildHeader fs) = shardMagicSequence /\
  slice 32 40 (buildHeader fs) = put_u64 2 /\ slice 40 48 (buildHeader fs) = put_u64 fs.
Proof.
  intros Hfs. assert (forall z, len (put_u64 z) = 8) as H8 by (intros; unfold len; by rewrite length_put_u64).
  unfold buildHeader. rewrite <- !app_assoc. split; [by rewrite !len_app, !H8|]. split; [|split].
  - rewrite (app_assoc hfApplicationID). by apply slice_mid.
  - rewrite (app_assoc hfApplicationID), (app_assoc (hfApplicationID ++ _)). by apply slice_mid.
  - rewrite (app_assoc hfApplicationID), (app_assoc (hfApplicationID ++ _)),
      (app_assoc ((hfApplicationID ++ _) ++ _)), <- (app_nil_r (put_u64 fs)).
    apply slice_mid; rewrite ?len_app, ?H8; done.
Qed.

Lemma decode_encoded now s wf old st rest e :
  Forall file_ok (s_Files s) -> Forall cas_ok (s_CASInfos s) ->
  (wf = true -> footer_ok (the_footer now s)) ->
  Shard_decode onCASBlock old wf st (Reader (encoded now s wf ++ rest) e) =
    st' ← process_blocks st (s_CASInfos s);
    Ok ((MkShard (if wf then 200 else 0) (s_Files s) (s_CASInfos s)
           (if wf then Some (the_footer now s) else old), st'), Reader rest e).
Proof.
  intros Hf Hc Hft. unfold Shard_decode, encoded, sections. rewrite !concat_app.
  change (concat [buildBookend]) with (buildBookend ++ []). rewrite !app_nil_r.
  change (concat [buildHeader ?x]) with (buildHeader x ++ []). rewrite !app_nil_r, <- !app_assoc.
  set (fs := if wf then 200 else 0).
  assert (is_u64 fs) as Hfs by (unfold fs, is_u64; destruct wf; lia).
  destruct (header_fields fs Hfs) as (H48 & Hmag & Hver & Hsz).
  rewrite read_or_app by done. cbn [mbind result_bind]. rewrite Hmag, Hver, Hsz.
  rewrite bool_decide_eq_false_2 by (by intros []).
  rewrite !le_val_put_u64 by (done || unfold is_u64; lia). cbn [negb Z.eqb Pos.eqb].
  assert (wf && (fs =? 0) = false) as -> by (unfold fs; by destruct wf).
  assert (negb wf && negb (fs =? 0) = false) as -> by (unfold fs; by destruct wf).
  rewrite decode_files_bytes; [|done|].
  2: { cbn [rdata]. apply Nat.lt_succ_r, length_blocks, len_buildFileBlock. }
  cbn [mbind result_bind app rdata].
  rewrite decode_cas_blocks_bytes; [|done|].
  2: { apply Nat.lt_succ_r, length_blocks, len_buildCASBlock. }
  destruct (process_blocks st (s_CASInfos s)) as [st'|]; cbn [mbind result_bind app]; [|done].
  unfold fs. destruct wf; cbn [Z.ltb Z.compare].
  - rewrite decode_footer_bytes by auto. done.
  - done.
Qed.

(** C38: decoding undoes encoding.  A shard whose fields fit their widths,
    whose extras match its flags and whose blocks are not the section
    terminator decodes, from its serialization followed by anything, to the
    same files and CAS blocks and the footer that was written, leaving the
    stream at the end of the shard; the callback sees every CAS block once and
    in order, and an error of it is returned. *)
Theorem Shard_decode_encode now s wf old st rest e :
  Forall file_ok (s_Files s) -> Forall cas_ok (s_CASInfos s) ->
  (wf = true -> footer_ok (the_footer now s)) ->
  Shard_decode onCASBlock old wf st (Reader (encoded now s wf ++ rest) e) =
    st' ← process_blocks st (s_CASInfos s);
    Ok ((MkShard (if wf then 200 else 0) (s_Files s) (s_CASInfos s)
           (if wf then Some (the_footer now s) else old), st'), Reader rest e).
Proof. apply decode_encoded. Qed.
End roundtrip.

Lemma Shard_decode_encode_witness :
  Shard_decode (fun n _ => Ok (n + 1)) None false 0
    (Reader (encoded 5 (MkShard 0 [] [MkCASBlock zeroHash 0 [MkCASChunk zeroHash 0 1 0] 1 9] None) false) EOF) =
  Ok ((MkShard 0 [] [MkCASBlock zeroHash 0 [MkCASChunk zeroHash 0 1 0] 1 9] None, 1), Reader [] EOF).
Proof.
  rewrite <- (app_nil_r (encoded _ _ _)).
  apply (Shard_decode_encode (fun n _ => Ok (n + 1)) 5
    (MkShard 0 [] [MkCASBlock zeroHash 0 [MkCASChunk zeroHash 0 1 0] 1 9] None) false None 0 [] EOF).
  - constructor.
  - constructor; [|constructor]. unfold cas_ok, is_u32. cbn [cb_CASFlags cb_NumBytesInCAS cb_NumBytesOnDisk cb_Chunks].
    split; [lia|]. split; [lia|]. split; [lia|]. split; [reflexivity|]. split.
    + constructor; [|constructor]. unfold chunk_ok, is_u32. cbn. lia.
    + intros H. apply (f_equal head) in H. vm_compute in H. discriminate H.
  - discriminate.
Defined.

(** ** The announced size *)

(** Congruence modulo 2^64, in which the wrap-arounds of an int64 computation
    disappear. *)
Definition eq64 (a b : Z) : Prop := i64 a = i64 b.

#[local] Instance eq64_equiv : Equivalence eq64.
Proof.
  split; [by intros a|by intros a b H; red; symmetry|].
  intros a b c H1 H2. red in H1, H2 |- *. by rewrite H1.
Qed.

#[local] Instance eq64_add : Proper (eq64 ==> eq64 ==> eq64) Z.add.
Proof.
  intros a a' Ha b b' Hb. unfold eq64 in *. rewrite <- (i64_add_l a), Ha, i64_add_l.
  by rewrite <- (i64_add_r a'), Hb, i64_add_r.
Qed.

Lemma eq64_i64 a : eq64 (i64 a) a.
Proof.
  red. transitivity (i64 (i64 a + 0)); [by rewrite Z.add_0_r|].
  rewrite i64_add_l. by rewrite Z.add_0_r.
Qed.

Ltac solve_i64 := match goal with |- i64 ?a = i64 ?b =>
  change (eq64 a b); rewrite ?eq64_i64; red; apply (f_equal i64); lia end.

Lemma len_concat_48 {A} (bytes : A -> list byte) l :
  (forall a, len (bytes a) = 48) -> len (concat (map bytes l)) = len l * 48.
Proof.
  intros Hb. induction l as [|a l IH]; [done|]. cbn [map concat].
  rewrite len_app, len_cons, Hb, IH. lia.
Qed.

Lemma len_footer_bytes f : len (footer_bytes f) = 200.
Proof.
  unfold footer_bytes. rewrite !len_app, !len_vec.
  assert (forall z, len (put_u64 z) = 8) as H8 by (intros; unfold len; by rewrite length_put_u64).
  by rewrite !H8.
Qed.

(** A metadata flag comes with the metadata. *)
Definition meta_present (fb : FileBlock) : Prop :=
  has_flag (fb_Flags fb) FileWithMetadataExt -> is_Some (fb_MetadataExt fb).

Lemma size_of_files l acc :
  Forall meta_present l ->
  foldl (fun size fb =>
    let size := i64 (size + 48) in
    let size := i64 (size + i64 (len (fb_Entries fb) * 48)) in
    let size :=
      if negb (Z.land (fb_Flags fb) FileWithVerification =? 0)
      then i64 (size + i64 (len (fb_Verification fb) * 48)) else size in
    if negb (Z.land (fb_Flags fb) FileWithMetadataExt =? 0) then i64 (size + 48) else size) (i64 acc) l =
  i64 (acc + len (concat (map buildFileBlock l))).
Proof.
  intros Hl. revert acc. induction Hl as [|fb l Hm _ IH]; intros acc.
  - cbn. change (len []) with 0. by rewrite Z.add_0_r.
  - cbn [map concat foldl]. rewrite buildFileBlock_eq, !len_app, len_file_header.
    rewrite (len_concat_48 entry_bytes) by apply len_entry_bytes.
    unfold verif_section, meta_section.
    destruct (negb (Z.land (fb_Flags fb) FileWithVerification =? 0)) eqn:E1;
    destruct (negb (Z.land (fb_Flags fb) FileWithMetadataExt =? 0)) eqn:E2;
    rewrite ?(len_concat_48 verif_bytes) by apply len_verif_bytes;
    try (destruct (Hm (proj1 (flag_test _ _) E2)) as [m ->]; rewrite len_app, len_vec, len_replicate);
    change (len []) with 0; rewrite IH; solve_i64.
Qed.

Lemma size_of_blocks l acc :
  foldl (fun size cb => i64 (i64 (size + 48) + i64 (len (cb_Chunks cb) * 48))) (i64 acc) l =
  i64 (acc + len (concat (map buildCASBlock l))).
Proof.
  revert acc. induction l as [|cb l IH]; intros acc.
  - cbn. change (len []) with 0. by rewrite Z.add_0_r.
  - cbn [map concat foldl]. rewrite buildCASBlock_eq, !len_app, len_cas_header.
    rewrite (len_concat_48 chunk_entry_bytes) by apply len_chunk_entry_bytes.
    rewrite IH. solve_i64.
Qed.

(** [EncodedSize] is the exact length of the serialization (up to int64
    wrap-around), for every shard in which no file block sets the metadata flag
    without carrying the metadata. *)
Theorem EncodedSize_exact now s wf :
  Forall meta_present (s_Files s) ->
  EncodedSize s wf = i64 (len (encoded now s wf)).
Proof.
  intros Hm. unfold EncodedSize, encoded, sections. rewrite !concat_app, !len_app.
  pose proof (size_of_files (s_Files s) 48 Hm) as Hf. change (i64 48) with 48 in Hf.
  cbv zeta in Hf |- *. rewrite Hf, size_of_blocks.
  assert (len (concat [buildHeader (if wf then 200 else 0)]) = 48) as ->.
  { cbn [concat]. rewrite app_nil_r. apply header_fields. destruct wf; unfold is_u64; lia. }
  change (len (concat [buildBookend])) with 48.
  destruct wf; [|change (len []) with 0; solve_i64].
  rewrite len_footer_bytes. solve_i64.
Qed.

Lemma EncodedSize_exact_witness : EncodedSize NewShard true = i64 (len (encoded 5 NewShard true)).
Proof. apply (EncodedSize_exact 5 NewShard true). constructor. Defined.
