(* ===== verification/ShardFits.v ===== *)
(** * Built shards fit the format: [shard/build.go], [shard/encode.go]

    The widths and counts the serialization can hold, for the shards
    [BuildShard] makes: of files that are stored ([FileStore]) and of files that
    are uploaded ([UploadRun]). *)

From Stdlib Require Import ZArith Lia Strings.Byte Strings.String.
From S2P Require Import Prelude Hash Gearhash Merkle XorbEncoder XorbDecoder XorbOffsets Shard ShardBuild ShardCodec.

Definition ci_ok (c : ChunkInfo) : Prop := is_u32 (ci_Size c) /\ is_u32 (ci_ChunkIndex c).

Definition t_ok (t : term) : Prop := is_u32 (t_bytes t) /\ is_u32 (t_startIndex t) /\ is_u32 (t_endIndex t).

Lemma chunk_at_ok chunks idx c : Forall ci_ok chunks -> chunk_at chunks idx = Ok c -> ci_ok c.
Proof. intros Hok Hc. rewrite Forall_forall in Hok. by eapply Hok, chunk_at_elem. Qed.

Lemma term_step_ok i c st : ci_ok c -> Forall t_ok st.1 -> t_ok st.2 ->
  Forall t_ok (term_step i c st).1 /\ t_ok (term_step i c st).2 /\
  (length (term_step i c st).1 <= S (length st.1))%nat.
Proof.
  destruct st as [terms cur]. cbn [fst snd]. intros [Hs Hi] Ht Hc. unfold term_step.
  destruct (_ || _); cbn [fst snd].
  - split; [|split; [split_and!; cbn; auto with go|]].
    + destruct (0 <? i); [|done]. rewrite Forall_app, Forall_singleton. split; [done|]. by destruct Hc as (? & ? & ?).
    + destruct (0 <? i); rewrite ?length_app; cbn; lia.
  - split; [done|]. split; [|lia]. destruct Hc as (? & ? & ?). split_and!; cbn; auto with go.
Qed.

Lemma term_loop_ok chunks l st st' :
  Forall ci_ok chunks ->
  foldM (fun st iidx => chunk ← chunk_at chunks iidx.2; Ok (term_step iidx.1 chunk st)) st l = Ok st' ->
  Forall t_ok st.1 -> t_ok st.2 ->
  Forall t_ok st'.1 /\ t_ok st'.2 /\ (length st'.1 <= length st.1 + length l)%nat.
Proof.
  intros Hok. revert st. induction l as [|[i idx] l IH]; intros st; cbn [foldM fst snd].
  - intros [= <-] ? ?. cbn. split_and!; [done..|lia].
  - destruct (chunk_at chunks idx) as [c|] eqn:Ec; [|done]. cbn [mbind result_bind]. intros H Ht Hc.
    destruct (term_step_ok i c st) as (H1 & H2 & H3); [by eapply chunk_at_ok|done..|].
    apply IH in H as (H4 & H5 & H6); [|done..]. split_and!; [done..|]. cbn [length]. lia.
Qed.

Lemma length_indexed {A} (l : list A) : length (indexed l) = length l.
Proof. unfold indexed, len. rewrite length_zip, length_seqZ. lia. Qed.

Lemma group_terms_ok chunks indices ts :
  Forall ci_ok chunks -> group_terms chunks indices = Ok ts ->
  Forall t_ok ts /\ (length ts <= S (length indices))%nat /\ (indices <> [] -> ts <> []).
Proof.
  intros Hok. unfold group_terms. destruct (foldM _ _ _) as [[terms cur]|] eqn:E; [|done]. cbn [mbind result_bind].
  apply term_loop_ok in E as (H1 & H2 & H3); [|done|constructor|split_and!; done]. cbn [fst snd] in *.
  rewrite length_indexed in H3. cbn in H3. intros [= <-]. destruct (Z.ltb_spec 0 (len indices)).
  - rewrite Forall_app, Forall_singleton, length_app. split_and!; [done|by destruct H2 as (? & ? & ?)|cbn; lia|].
    intros _. by destruct terms.
  - split_and!; [done|lia|]. intros Hne. destruct indices; [done|]. unfold len in *. cbn in *. lia.
Qed.

Section fits.
Context {B3 : Blake3}.

Lemma build_file_ok chunks fi fb :
  Forall ci_ok chunks -> len (fi_ChunkIndices fi) <= 2 ^ 28 ->
  build_file chunks fi = Ok fb ->
  file_ok fb /\ fb_FileHash fb = fi_Hash fi /\ (fi_ChunkIndices fi <> [] -> fb_Entries fb <> []) /\
  len (buildFileBlock fb) <= 96 * (3 + len (fi_ChunkIndices fi)).
Proof.
  intros Hok Hlen. unfold build_file. destruct (foldM _ _ _) as [hs|]; [|done]. cbn [mbind result_bind].
  destruct (group_terms _ _) as [ts|] eqn:Et; [|done]. cbn [mbind result_bind]. intros [= <-].
  apply group_terms_ok in Et as (Hts & Hl & Hsome); [|done]. rewrite add_terms. unfold new_file_block.
  assert (len (map term_entry ts) = len ts) as Hle by apply len_map.
  assert (len ts <= 1 + len (fi_ChunkIndices fi)) as Hl' by (unfold len; lia).
  assert (Forall entry_ok (map term_entry ts)) as Hent.
  { apply Forall_fmap. eapply Forall_impl; [exact Hts|]. intros t (? & ? & ?). split_and!; cbn; try done. }
  case_bool_decide as Hz; cbn [fb_FileHash fb_Flags fb_Entries fb_Verification fb_MetadataExt app];
    (split; [|split; [done|split; [intros Hi E; by apply map_eq_nil in E; apply Hsome|]]]).
  1, 3: unfold file_ok; cbn [fb_FileHash fb_Flags fb_Entries fb_Verification fb_MetadataExt]; split_and!;
    [vm_compute; by split|rewrite Hle; lia|exact Hent|intros _; by rewrite !length_map|intros []; done| |].
  1: split; [by eexists|done].
  2: split; [intros []; done|by intros []].
  1, 2: intros E; apply (f_equal (slice 32 36)) in E; unfold file_header in E;
      cbn [fb_FileHash fb_Flags fb_Entries] in E;
      rewrite (slice_mid 32 36 (fi_Hash fi) (put_u32 _)) in E
        by (rewrite ?len_vec, ?len_put_u32; unfold hashSize; lia); by vm_compute in E.
  all: rewrite buildFileBlock_eq, !len_app, len_file_header, (len_concat_48 entry_bytes) by apply len_entry_bytes;
    unfold verif_section, meta_section; cbn [fb_Flags fb_Entries fb_Verification fb_MetadataExt].
  - change (negb (Z.land (Z.lor FileWithVerification FileWithMetadataExt) FileWithVerification =? 0)) with true.
    change (negb (Z.land (Z.lor FileWithVerification FileWithMetadataExt) FileWithMetadataExt =? 0)) with true. cbn iota.
    rewrite (len_concat_48 verif_bytes) by apply len_verif_bytes. rewrite !len_map, len_app, len_vec, len_replicate. lia.
  - change (negb (Z.land FileWithVerification FileWithVerification =? 0)) with true.
    change (negb (Z.land FileWithVerification FileWithMetadataExt =? 0)) with false. cbn iota.
    rewrite (len_concat_48 verif_bytes) by apply len_verif_bytes. rewrite !len_map. change (len []) with 0. lia.
Qed.

Lemma block_ok chunks (blocks : gmap XorbHash CASBlock) x cb :
  Forall ci_ok chunks -> len chunks < 2 ^ 28 -> blocks_ok blocks ->
  (forall x, block_views blocks x = map info_view (stored_in x chunks)) -> blocks !! x = Some cb ->
  cas_ok cb /\ len (buildCASBlock cb) <= 48 * (1 + len chunks).
Proof.
  intros Hok Hlen Hb Hv Hx. destruct (Hb _ _ Hx) as (Hh & (V1 & V2 & V3) & Hne & Hd). specialize (Hv x).
  unfold block_views in Hv. rewrite Hx in Hv.
  assert (len (cb_Chunks cb) <= len chunks) as Hl.
  { rewrite <- (len_map chunk_view), Hv, len_map. apply length_stored. }
  assert (0 < len (cb_Chunks cb)) as Hpos by (destruct (cb_Chunks cb); [done|]; rewrite len_cons; pose proof (len_nonneg l); lia).
  split.
  - unfold cas_ok. rewrite V1, V3, Hd. split_and!; [unfold is_u32; lia|apply u32_range|unfold is_u32; lia|lia| |].
    + apply Forall_forall. intros c Hc. apply list_elem_of_lookup in Hc as [i Hi].
      destruct (V2 i c Hi) as [Hf Hbs]. split; [rewrite Hbs; apply u32_range|]. split.
      * assert (map chunk_view (cb_Chunks cb) !! i = Some (chunk_view c)) as Hi'
          by (change (map chunk_view) with (fmap (M := list) chunk_view); by rewrite list_lookup_fmap, Hi).
        rewrite Hv in Hi'. change (map info_view) with (fmap (M := list) info_view) in Hi'.
        apply list_lookup_fmap_Some in Hi' as (c' & Hc' & Hin). injection Hc' as _ ->.
        apply list_elem_of_lookup_2 in Hin. apply list_elem_of_filter in Hin as [_ Hin].
        rewrite Forall_forall in Hok. by apply Hok, (fresh_elem ∅).
      * apply Z.ldiff_le in Hf; [|vm_compute; congruence].
        assert (ChunkGlobalDedupEligible = 2 ^ 31) as E by (vm_compute; reflexivity). rewrite E in Hf. unfold is_u32. lia.
    + intros E. apply (f_equal (slice 36 40)) in E. unfold cas_header in E.
      rewrite app_assoc in E. rewrite (slice_mid 36 40 (cb_CASHash cb ++ put_u32 (cb_CASFlags cb))) in E
        by (rewrite ?len_app, ?len_vec, ?len_put_u32; unfold hashSize; lia).
      apply (f_equal le_val) in E. rewrite le_val_put_u32, u32_small in E by (auto with go; unfold is_u32; lia).
      change (len (cb_Chunks cb) = 0) in E. lia.
  - rewrite buildCASBlock_eq, len_app, len_cas_header, (len_concat_48 chunk_entry_bytes) by apply len_chunk_entry_bytes. lia.
Qed.

Lemma blocks_length chunks (blocks : gmap XorbHash CASBlock) :
  blocks_ok blocks -> (forall x, block_views blocks x = map info_view (stored_in x chunks)) ->
  (size blocks <= length chunks)%nat.
Proof.
  intros Hb Hv. rewrite <- length_map_to_list, <- (length_fmap fst), <- (length_map ci_XorbHash chunks).
  apply submseteq_length, NoDup_submseteq; [apply NoDup_fst_map_to_list|].
  intros x ([x' cb] & -> & Hx%elem_of_map_to_list)%list_elem_of_fmap. cbn. specialize (Hv x').
  unfold block_views in Hv. rewrite Hx in Hv. apply Hb in Hx as (_ & _ & Hne & _).
  destruct (stored_in x' chunks) as [|c l] eqn:Es; [by destruct (cb_Chunks cb)|].
  assert (c ∈ stored_in x' chunks) as Hc by (rewrite Es; by left).
  apply list_elem_of_filter in Hc as [<- Hc]. apply (list_elem_of_fmap_2 ci_XorbHash). by apply (fresh_elem ∅).
Qed.

Lemma len_concat_bound {A} (f : A -> list byte) l b :
  (forall a, a ∈ l -> len (f a) <= b) -> len (concat (map f l)) <= b * len l.
Proof.
  induction l as [|a l IH]; intros Hb; cbn [map concat]; [rewrite (@len_nil byte), (@len_nil A); lia|]. rewrite len_app, len_cons.
  pose proof (Hb a (list_elem_of_here _ _)). specialize (IH (fun a' H => Hb a' (list_elem_of_further _ _ _ H))). lia.
Qed.

(** How many chunks the files have together. *)
Definition all_indices (files : list FileInfo) : Z := len (concat (map fi_ChunkIndices files)).

Lemma files_built chunks files sh sh' :
  Forall ci_ok chunks -> len files + all_indices files <= 2 ^ 28 ->
  foldM (fun sh file => fb ← build_file chunks file; Ok (AddFile sh fb)) sh files = Ok sh' ->
  exists fbs, s_Files sh' = s_Files sh ++ fbs /\ length fbs = length files /\ Forall file_ok fbs /\
    Forall2 (fun fi fb => build_file chunks fi = Ok fb) files fbs /\
    len (concat (map buildFileBlock fbs)) <= 288 * len files + 96 * all_indices files.
Proof.
  intros Hok. revert sh. induction files as [|fi files IH]; intros sh Hl; cbn [foldM].
  { intros [= <-]. exists []. rewrite app_nil_r. split_and!; [done..|constructor|constructor|cbn; rewrite ?(@len_nil byte); done]. }
  unfold all_indices in *. cbn [map concat] in Hl. rewrite len_cons, len_app in Hl.
  pose proof (len_nonneg files). pose proof (len_nonneg (fi_ChunkIndices fi)). pose proof (len_nonneg (concat (map fi_ChunkIndices files))).
  destruct (build_file chunks fi) as [fb|] eqn:Eb; [|done]. cbn [mbind result_bind].
  intros (fbs & E1 & E2 & E3 & E4 & E5)%IH; [|lia]. destruct (build_file_ok chunks fi fb Hok ltac:(lia) Eb) as (Hf & _ & _ & Hfl).
  exists (fb :: fbs). rewrite E1. cbn [AddFile s_Files map concat length]. rewrite <- app_assoc, !len_app, len_cons, E2.
  split_and!; [done..|by constructor|by constructor|lia].
Qed.

(** A built shard fits, when there are fewer than [2 ^ 28] chunks. *)
Lemma BuildShard_fits chunks files sh :
  Forall ci_ok chunks -> len chunks < 2 ^ 28 -> len files + all_indices files <= 2 ^ 28 ->
  BuildShard files chunks = Ok sh ->
  Forall file_ok (s_Files sh) /\ Forall cas_ok (s_CASInfos sh) /\
  len (encoded 0 sh false) + 48 * len (s_Files sh) < 2 ^ 63 /\ Forall2 (fun fi fb => build_file chunks fi = Ok fb) files (s_Files sh).
Proof.
  intros Hok Hlen Hlen'. unfold BuildShard. destruct (first_file_chunks _ _) as [firsts|]; [|done]. cbn [mbind result_bind].
  destruct (foldM _ _ _) as [sh0|] eqn:Ef; [|done]. apply files_built in Ef as (fbs & F1 & F2 & F3 & F4 & F5); [|done|done]. cbn [mbind result_bind].
  destruct (cas_loop firsts chunks ∅ ∅) as [Hb Hv]; [done|].
  destruct (foldl _ _ _) as [blocks seen]. cbn [fst] in *. intros [= <-]. cbn [s_Files s_CASInfos]. rewrite F1. cbn [s_Files NewShard app].
  set (cas := merge_sort cas_le (snd <$> map_to_list blocks)).
  assert (forall cb, cb ∈ cas -> cas_ok cb /\ len (buildCASBlock cb) <= 48 * (1 + len chunks)) as Hcas.
  { intros cb Hcb. unfold cas in Hcb. rewrite merge_sort_Permutation in Hcb.
    apply list_elem_of_fmap in Hcb as ([x cb'] & -> & Hx%elem_of_map_to_list). by eapply block_ok. }
  split; [done|]. split; [apply Forall_forall; intros cb Hcb; by apply Hcas|]. split; [|done].
  assert (len cas <= len chunks) as Hcl.
  { unfold cas, len. rewrite merge_sort_Permutation, length_fmap, length_map_to_list.
    pose proof (blocks_length chunks blocks Hb Hv). lia. }
  unfold encoded, sections. cbn [s_Files s_CASInfos]. rewrite !concat_app, !len_app. cbn [concat]. rewrite !app_nil_r.
  assert (len (buildHeader 0) = 48) as -> by reflexivity. change (len buildBookend) with 48. change (len []) with 0.
  assert (len fbs = len files) as -> by (unfold len; by rewrite F2).
  pose proof (len_concat_bound buildCASBlock cas (48 * (1 + len chunks)) (fun cb H => proj2 (Hcas cb H))) as Hcb.
  pose proof (len_nonneg chunks). pose proof (len_nonneg cas). pose proof (len_nonneg files). unfold all_indices in *.
  pose proof (len_nonneg (concat (map fi_ChunkIndices files))). nia.
Qed.

(** The shard of one file. *)
Lemma built_ok chunks fi sh :
  Forall ci_ok chunks -> len chunks < 2 ^ 28 -> len (fi_ChunkIndices fi) < 2 ^ 28 ->
  BuildShard [fi] chunks = Ok sh ->
  (exists fb, s_Files sh = [fb] /\ fb_FileHash fb = fi_Hash fi /\ (fi_ChunkIndices fi <> [] -> fb_Entries fb <> [])) /\
  Forall file_ok (s_Files sh) /\ Forall cas_ok (s_CASInfos sh) /\
  len (encoded 0 sh false) + 48 * len (s_Files sh) < 2 ^ 63.
Proof.
  intros Hok Hlen Hlen' Hb. destruct (BuildShard_fits chunks [fi] sh Hok Hlen) as (H1 & H2 & H3 & H4); [|done|].
  { unfold all_indices. cbn [map concat]. rewrite app_nil_r. change (len [fi]) with 1. lia. }
  split; [|done]. apply Forall2_cons_inv_l in H4 as (fb & fbs & Eb & ->%Forall2_nil_inv_l & ->). exists fb. split; [done|].
  by destruct (build_file_ok chunks fi fb Hok ltac:(lia) Eb) as (_ & ? & ? & _).
Qed.
End fits.
