(* ===== verification/Sha256.v ===== *)
(** * SHA-256, as in Go's [crypto/sha256]

    The digest the storage layer names shards by and records for files: the
    padding of FIPS 180-4, the message schedule and the compression function,
    over 32-bit words.  [Sum256] is executable; two standard test vectors pin
    it down. *)

From Stdlib Require Import ZArith Lia Strings.Byte Strings.String.
From S2P Require Import Prelude Hash.

(** ** Constants

    The round constants and the initial state are the first 32 fractional bits
    of the cube and square roots of the first primes (FIPS 180-4, 4.2.2 and
    5.3.3), computed here by bisection on integers. *)

(** The 64 primes up to 311. *)
Definition sha_primes : list Z :=
  List.filter (fun n => forallb (fun d => negb (n mod d =? 0)) (seqZ 2 (n - 2))) (seqZ 2 310).

(** The largest [r < 2 ^ bits] with [r ^ e <= x], built from its top bit down. *)
Fixpoint root_bits (bits : nat) (e x r : Z) : Z :=
  match bits with
  | O => r
  | S bits =>
      let r' := r + 2 ^ Z.of_nat bits in
      root_bits bits e x (if r' ^ e <=? x then r' else r)
  end.

Definition root_frac (e p : Z) : Z := u32 (root_bits 40 e (p * 2 ^ (32 * e)) 0).

Definition sha_k : list Z := Eval vm_compute in map (root_frac 3) sha_primes.

Definition sha_init : list Z := Eval vm_compute in map (root_frac 2) (take 8 sha_primes).

(** ** Words *)

Definition rotr (n x : Z) : Z := Z.lor (Z.shiftr x n) (u32 (Z.shiftl x (32 - n))).
Definition sha_ch (x y z : Z) : Z := Z.lxor (Z.land x y) (Z.land (2 ^ 32 - 1 - x) z).
Definition sha_maj (x y z : Z) : Z := Z.lxor (Z.lxor (Z.land x y) (Z.land x z)) (Z.land y z).
Definition big_sigma0 (x : Z) : Z := Z.lxor (Z.lxor (rotr 2 x) (rotr 13 x)) (rotr 22 x).
Definition big_sigma1 (x : Z) : Z := Z.lxor (Z.lxor (rotr 6 x) (rotr 11 x)) (rotr 25 x).
Definition small_sigma0 (x : Z) : Z := Z.lxor (Z.lxor (rotr 7 x) (rotr 18 x)) (Z.shiftr x 3).
Definition small_sigma1 (x : Z) : Z := Z.lxor (Z.lxor (rotr 17 x) (rotr 19 x)) (Z.shiftr x 10).

(** Big-endian words. *)
Definition be_word (b : list byte) : Z := foldl (fun acc x => 256 * acc + b2z x) 0 b.

Fixpoint be_words (b : list byte) : list Z :=
  match b with
  | x0 :: x1 :: x2 :: x3 :: b => be_word [x0; x1; x2; x3] :: be_words b
  | _ => []
  end.

Definition be_bytes (n : nat) (z : Z) : list byte := reverse (le_bytes n z).

(** ** The compression function *)

(** The schedule, newest word first. *)
Fixpoint sha_schedule (rounds : nat) (w : list Z) : list Z :=
  match rounds with
  | O => w
  | S rounds =>
      let at_ i := w !!! i in
      sha_schedule rounds
        (u32 (small_sigma1 (at_ 1%nat) + at_ 6%nat + small_sigma0 (at_ 14%nat) + at_ 15%nat) :: w)
  end.

Definition sha_round (st : list Z) (kw : Z * Z) : list Z :=
  match st with
  | [a; b; c; d; e; f; g; h] =>
      let t1 := h + big_sigma1 e + sha_ch e f g + kw.1 + kw.2 in
      let t2 := big_sigma0 a + sha_maj a b c in
      [u32 (t1 + t2); a; b; c; u32 (d + t1); e; f; g]
  | _ => st
  end.

Definition sha_block (st : list Z) (block : list byte) : list Z :=
  let w := reverse (sha_schedule 48 (reverse (be_words block))) in
  zip_with (fun x y => u32 (x + y)) st (foldl sha_round st (zip sha_k w)).

Fixpoint sha_blocks (fuel : nat) (st : list Z) (msg : list byte) : list Z :=
  match fuel with
  | O => st
  | S fuel => sha_blocks fuel (sha_block st (take 64 msg)) (drop 64 msg)
  end.

Definition sha_pad (msg : list byte) : list byte :=
  msg ++ [Byte.x80] ++ replicate (Z.to_nat ((55 - len msg) mod 64)) Byte.x00 ++ be_bytes 8 (8 * len msg).

(** [sha256.Sum256(msg)]. *)
Definition Sum256 (msg : list byte) : vec byte 32 :=
  let p := sha_pad msg in
  to_arr 32 (sha_blocks (length p / 64) sha_init p ≫= be_bytes 4).

Example Sum256_abc : take 4 (vec_to_list (Sum256 (str "abc"))) = [Byte.xba; Byte.x78; Byte.x16; Byte.xbf].
Proof. vm_compute. reflexivity. Qed.

Example Sum256_empty : drop 28 (vec_to_list (Sum256 [])) = [Byte.x78; Byte.x52; Byte.xb8; Byte.x55].
Proof. vm_compute. reflexivity. Qed.
