(* ===== verification/Lru.v ===== *)
(** * The LRU cache: [internal/lru/lru.go]

    The doubly linked list and the map of pointers into it are modelled as the
    code has them: list elements have an identity, the list is the sequence of
    identities, front first, a heap holds the entry each element points to, and
    the map goes from keys to identities.  Following a pointer that is not in
    the heap is a panic.  [OnEvicted] is a function on a world [W], which is
    threaded through every operation; the mutex makes each a single step.

    The abstract specification is a list of key-value pairs, most recently used
    first.  [lru_step_refines] shows that every operation returns what the
    specification returns, evicts the same entries in the same order and never
    follows a dangling pointer; [lru_refines] extends this to all sequences of
    operations. *)

From Stdlib Require Import ZArith Lia Strings.Byte Strings.String.
From S2P Require Import Prelude Prog.

Section lru.
Context {K V W : Type} `{EqK : EqDecision K} {CK : Countable K}.

(** ** State *)

(** [entry]. *)
Abbreviation entry := (K * V)%type.

(** [container/list]'s list with its elements, and the map into it. *)
Record lists : Type := MkLists {
  l_ll : list nat;              (** the elements in order, front first *)
  l_elems : gmap nat entry;     (** what each element points to *)
  l_cache : gmap K nat;
  l_fresh : nat;                (** the identity of the next element *)
}.

(** [Cache]; [c_lists] is [None] while [cache] and [ll] are nil. *)
Record Cache : Type := MkCache {
  c_MaxEntries : Z;
  c_OnEvicted : option (K -> V -> W -> W);
  c_lists : option lists;
}.

Definition emptyLists : lists := MkLists [] ∅ ∅ 0.

(** [New]. *)
Definition New (maxEntries : Z) : Cache := MkCache maxEntries None (Some emptyLists).

Definition set_lists (s : lists) (c : Cache) : Cache := MkCache (c_MaxEntries c) (c_OnEvicted c) (Some s).

(** A cache and the world its hook acts on. *)
Definition cprog (A : Type) : Type := prog (Cache * W) A.

Definition nil_deref : error := Panic "invalid memory address or nil pointer dereference".

Definition deref (s : lists) (e : nat) : result entry :=
  match l_elems s !! e with
  | Some kv => Ok kv
  | None => Err nil_deref
  end.

(** [list.Remove], [list.MoveToFront], [list.PushFront]. *)
Definition ll_remove (e : nat) (ll : list nat) : list nat := filter (fun e' => e' <> e) ll.

Definition MoveToFront (e : nat) (s : lists) : lists :=
  MkLists (e :: ll_remove e (l_ll s)) (l_elems s) (l_cache s) (l_fresh s).

(** [c.cache[key] = c.ll.PushFront(&entry{key, value})]. *)
Definition PushFront (key : K) (value : V) (s : lists) : lists :=
  MkLists (l_fresh s :: l_ll s) (<[l_fresh s := (key, value)]> (l_elems s))
    (<[key := l_fresh s]> (l_cache s)) (S (l_fresh s)).

Definition set_value (e : nat) (kv : entry) (s : lists) : lists :=
  MkLists (l_ll s) (<[e := kv]> (l_elems s)) (l_cache s) (l_fresh s).

(** The hook, if it is set. *)
Definition on_evicted (c : Cache) (kv : entry) (w : W) : W :=
  match c_OnEvicted c with
  | Some f => f kv.1 kv.2 w
  | None => w
  end.

(** ** Operations *)

Definition removeElement (e : nat) : cprog entry := fun '(c, w) =>
  match c_lists c with
  | None => (Err nil_deref, (c, w))
  | Some s =>
      match deref s e with
      | Err err => (Err err, (c, w))
      | Ok kv =>
          (Ok kv, (set_lists (MkLists (ll_remove e (l_ll s)) (l_elems s) (delete kv.1 (l_cache s)) (l_fresh s)) c,
                   on_evicted c kv w))
      end
  end.

Definition removeOldestLocked : cprog (option entry) := fun '(c, w) =>
  match c_lists c with
  | None => (Ok None, (c, w))
  | Some s =>
      match last (l_ll s) with
      | None => (Ok None, (c, w))
      | Some e => (kv ← removeElement e; mret (Some kv)) (c, w)
      end
  end.

(** [c.ll.Len()]; a nil list is a nil pointer. *)
Definition ll_Len : cprog Z := fun '(c, w) =>
  match c_lists c with
  | None => (Err nil_deref, (c, w))
  | Some s => (Ok (len (l_ll s)), (c, w))
  end.

Definition get_MaxEntries : cprog Z := fun '(c, w) => (Ok (c_MaxEntries c), (c, w)).

(** The loop of [evictLocked]. *)
Fixpoint evict_loop (fuel : nat) : cprog unit :=
  max ← get_MaxEntries;
  if 0 <? max then
    n ← ll_Len;
    if max <? n then
      match fuel with
      | O => throw (Panic "out of fuel")
      | S fuel => _ ← removeOldestLocked; evict_loop fuel
      end
    else mret tt
  else mret tt.

(** Each turn removes one element. *)
Definition evictLocked : cprog unit := fun '(c, w) =>
  evict_loop (match c_lists c with Some s => length (l_ll s) | None => 0 end) (c, w).

(** The lazy allocation of [Add] and [GetOrNew]. *)
Definition allocated (c : Cache) : lists := default emptyLists (c_lists c).

Definition Add (key : K) (value : V) : cprog unit := fun '(c, w) =>
  let s := allocated c in
  match l_cache s !! key with
  | Some ee =>
      match deref s ee with
      | Err err => (Err err, (set_lists s c, w))
      | Ok kv => evictLocked (set_lists (set_value ee (kv.1, value) (MoveToFront ee s)) c, w)
      end
  | None => evictLocked (set_lists (PushFront key value s) c, w)
  end.

Definition Get (key : K) : cprog (option V) := fun '(c, w) =>
  match c_lists c with
  | None => (Ok None, (c, w))
  | Some s =>
      match l_cache s !! key with
      | None => (Ok None, (c, w))
      | Some ele =>
          match deref s ele with
          | Err err => (Err err, (c, w))
          | Ok kv => (Ok (Some kv.2), (set_lists (MoveToFront ele s) c, w))
          end
      end
  end.

(** [newFunc] runs in the world; its [bool] says whether it made a value. *)
Definition GetOrNew (key : K) (newFunc : W -> (V * bool) * W) : cprog (V * bool) := fun '(c, w) =>
  let s := allocated c in
  match l_cache s !! key with
  | Some ele =>
      match deref s ele with
      | Err err => (Err err, (set_lists s c, w))
      | Ok kv => (Ok (kv.2, true), (set_lists (MoveToFront ele s) c, w))
      end
  | None =>
      match newFunc w with
      | ((value, false), w) => (Ok (value, false), (set_lists s c, w))
      | ((value, true), w) => (_ ← evictLocked; mret (value, true)) (set_lists (PushFront key value s) c, w)
      end
  end.

Definition Remove (key : K) : cprog (option V) := fun '(c, w) =>
  match c_lists c with
  | None => (Ok None, (c, w))
  | Some s =>
      match l_cache s !! key with
      | None => (Ok None, (c, w))
      | Some ele => (kv ← removeElement ele; mret (Some kv.2)) (c, w)
      end
  end.

Definition RemoveOldest : cprog (option entry) := removeOldestLocked.

Definition Len : cprog Z := fun '(c, w) =>
  match c_lists c with
  | None => (Ok 0, (c, w))
  | Some s => (Ok (len (l_ll s)), (c, w))
  end.

(** [c.OnEvicted(kv.key, kv.value)]. *)
Definition run_hook (kv : entry) : cprog unit := fun '(c, w) => (Ok tt, (c, on_evicted c kv w)).

(** The loop of [Clear] over the elements in the order the map yields them. *)
Fixpoint clear_loop (s : lists) (order : list (K * nat)) : cprog unit :=
  match order with
  | [] => mret tt
  | (_, e) :: order =>
      kv ← lift (deref s e);
      _ ← run_hook kv;
      clear_loop s order
  end.

(** [c.ll = nil; c.cache = nil]. *)
Definition drop_lists : cprog unit := fun '(c, w) =>
  (Ok tt, (MkCache (c_MaxEntries c) (c_OnEvicted c) None, w)).

(** [range] is the iteration order of Go's map, which is not specified. *)
Definition Clear (range : gmap K nat -> list (K * nat)) : cprog unit := fun '(c, w) =>
  match c_OnEvicted c, c_lists c with
  | Some _, Some s => (_ ← clear_loop s (range (l_cache s)); drop_lists) (c, w)
  | _, _ => drop_lists (c, w)
  end.

(** [c.MaxEntries = n] by the owner of the cache. *)
Definition SetMaxEntries (n : Z) : cprog unit := fun '(c, w) =>
  (Ok tt, (MkCache n (c_OnEvicted c) (c_lists c), w)).

(** ** The specification: a list of entries, most recently used first *)

Fixpoint find_key (key : K) (l : list entry) : option V :=
  match l with
  | [] => None
  | (k, v) :: l => if bool_decide (k = key) then Some v else find_key key l
  end.

Definition drop_key (key : K) (l : list entry) : list entry := filter (fun kv => kv.1 <> key) l.

(** What a bound keeps and what it drops, oldest first. *)
Definition kept (max : Z) (l : list entry) : list entry :=
  if 0 <? max then take (Z.to_nat max) l else l.
Definition dropped (max : Z) (l : list entry) : list entry :=
  if 0 <? max then reverse (drop (Z.to_nat max) l) else [].

Definition run_evicted (hook : option (K -> V -> W -> W)) (kvs : list entry) (w : W) : W :=
  match hook with
  | Some f => foldl (fun w kv => f kv.1 kv.2 w) w kvs
  | None => w
  end.

Inductive op : Type :=
  | OpAdd (key : K) (value : V)
  | OpGet (key : K)
  | OpGetOrNew (key : K) (newFunc : W -> (V * bool) * W)
  | OpRemove (key : K)
  | OpRemoveOldest
  | OpLen
  | OpClear (range : gmap K nat -> list (K * nat))
  | OpSetMaxEntries (n : Z).

Inductive answer : Type :=
  | Nothing
  | Value (v : option V)
  | Made (v : V * bool)
  | Oldest (kv : option entry)
  | Length (n : Z).

Definition run (o : op) : cprog answer :=
  match o with
  | OpAdd key value => _ ← Add key value; mret Nothing
  | OpGet key => v ← Get key; mret (Value v)
  | OpGetOrNew key newFunc => v ← GetOrNew key newFunc; mret (Made v)
  | OpRemove key => v ← Remove key; mret (Value v)
  | OpRemoveOldest => kv ← RemoveOldest; mret (Oldest kv)
  | OpLen => n ← Len; mret (Length n)
  | OpClear range => _ ← Clear range; mret Nothing
  | OpSetMaxEntries n => _ ← SetMaxEntries n; mret Nothing
  end.

(** One operation on the specification: bound, list and world before, answer,
    bound, list and world after. *)
Inductive spec_step (hook : option (K -> V -> W -> W)) :
    op -> Z * list entry * W -> answer -> Z * list entry * W -> Prop :=
  | spec_Add key value max l w :
      let l' := (key, value) :: drop_key key l in
      spec_step hook (OpAdd key value) (max, l, w) Nothing
        (max, kept max l', run_evicted hook (dropped max l') w)
  | spec_Get_hit key v max l w :
      find_key key l = Some v ->
      spec_step hook (OpGet key) (max, l, w) (Value (Some v)) (max, (key, v) :: drop_key key l, w)
  | spec_Get_miss key max l w :
      find_key key l = None ->
      spec_step hook (OpGet key) (max, l, w) (Value None) (max, l, w)
  | spec_GetOrNew_hit key f v max l w :
      find_key key l = Some v ->
      spec_step hook (OpGetOrNew key f) (max, l, w) (Made (v, true)) (max, (key, v) :: drop_key key l, w)
  | spec_GetOrNew_new key f v w' max l w :
      find_key key l = None -> f w = ((v, true), w') ->
      let l' := (key, v) :: l in
      spec_step hook (OpGetOrNew key f) (max, l, w) (Made (v, true))
        (max, kept max l', run_evicted hook (dropped max l') w')
  | spec_GetOrNew_fail key f v w' max l w :
      find_key key l = None -> f w = ((v, false), w') ->
      spec_step hook (OpGetOrNew key f) (max, l, w) (Made (v, false)) (max, l, w')
  | spec_Remove_hit key v max l w :
      find_key key l = Some v ->
      spec_step hook (OpRemove key) (max, l, w) (Value (Some v)) (max, drop_key key l, run_evicted hook [(key, v)] w)
  | spec_Remove_miss key max l w :
      find_key key l = None ->
      spec_step hook (OpRemove key) (max, l, w) (Value None) (max, l, w)
  | spec_RemoveOldest l kv max w :
      spec_step hook OpRemoveOldest (max, l ++ [kv], w) (Oldest (Some kv)) (max, l, run_evicted hook [kv] w)
  | spec_RemoveOldest_empty max w :
      spec_step hook OpRemoveOldest (max, [], w) (Oldest None) (max, [], w)
  | spec_Len max l w :
      spec_step hook OpLen (max, l, w) (Length (len l)) (max, l, w)
  | spec_Clear range purged max l w :
      purged ≡ₚ l ->
      spec_step hook (OpClear range) (max, l, w) Nothing (max, [], run_evicted hook purged w)
  | spec_SetMaxEntries n max l w :
      spec_step hook (OpSetMaxEntries n) (max, l, w) Nothing (n, l, w).

(** ** The representation *)

Record rep_lists (s : lists) (l : list entry) : Prop := {
  rep_elems : NoDup (l_ll s);
  rep_keys : NoDup l.*1;
  rep_entries : Forall2 (fun e kv => l_elems s !! e = Some kv) (l_ll s) l;
  rep_cache : forall k e, l_cache s !! k = Some e <-> e ∈ l_ll s /\ exists v, l_elems s !! e = Some (k, v);
  rep_fresh : forall e, e ∈ l_ll s -> (e < l_fresh s)%nat;
}.

Definition represents (c : Cache) (l : list entry) : Prop :=
  match c_lists c with
  | None => l = []
  | Some s => rep_lists s l
  end.

Lemma rep_empty : rep_lists emptyLists [].
Proof.
  constructor; cbn; try constructor; set_solver.
Qed.

Lemma find_key_None key l : find_key key l = None <-> key ∉ l.*1.
Proof.
  induction l as [|[k v] l IH]; cbn; [set_solver|]. case_bool_decide as Hk.
  - split; [done|]. rewrite not_elem_of_cons. naive_solver.
  - rewrite IH, not_elem_of_cons. naive_solver.
Qed.

Lemma find_key_Some key v l : NoDup l.*1 -> find_key key l = Some v <-> (key, v) ∈ l.
Proof.
  induction l as [|[k v'] l IH]; cbn; [set_solver|]. intros [Hk Hnd]%NoDup_cons. rewrite elem_of_cons.
  case_bool_decide as Hkey.
  - subst k. split; [intros [= ->]; by left|]. intros [[= ->]|Hin]; [done|].
    destruct Hk. apply list_elem_of_fmap. by exists (key, v).
  - rewrite IH by done. naive_solver.
Qed.

Lemma drop_key_fresh key l : key ∉ l.*1 -> drop_key key l = l.
Proof.
  intros Hk. unfold drop_key. induction l as [|[k v] l IH]; [done|]. cbn in Hk. apply not_elem_of_cons in Hk as [Hk Hl].
  rewrite filter_cons_True; [f_equal; auto|]. cbn. congruence.
Qed.

Lemma drop_key_not_in key l : key ∉ (drop_key key l).*1.
Proof. rewrite list_elem_of_fmap. intros ([k v] & -> & [Hne _]%list_elem_of_filter). done. Qed.

Lemma drop_key_NoDup key l : NoDup l.*1 -> NoDup (drop_key key l).*1.
Proof. intros Hl. eapply sublist_NoDup; [exact Hl|]. apply fmap_sublist, sublist_filter. Qed.

Lemma drop_key_last l kv : NoDup (l ++ [kv]).*1 -> drop_key kv.1 (l ++ [kv]) = l.
Proof.
  rewrite fmap_app. intros (_ & Hd & _)%NoDup_app. unfold drop_key. rewrite filter_app.
  change (filter _ l) with (drop_key kv.1 l). rewrite drop_key_fresh.
  - rewrite filter_cons_False; [|naive_solver]. by rewrite app_nil_r.
  - intros Hin. apply (Hd _ Hin). set_solver.
Qed.

Section rep.
Context {s : lists} {l : list entry} (R : rep_lists s l).

(** A key is in the map exactly when the list has it. *)
Lemma rep_miss k : l_cache s !! k = None <-> find_key k l = None.
Proof.
  rewrite find_key_None, eq_None_not_Some, list_elem_of_fmap. apply not_iff_compat. split.
  - intros [e [He (v & Hv)]%(rep_cache _ _ R)]. apply list_elem_of_lookup in He as [i Hi].
    destruct (Forall2_lookup_l _ _ _ _ _ (rep_entries _ _ R) Hi) as (kv & Hl & Hkv). cbn in Hkv.
    exists (k, v). split; [done|]. apply list_elem_of_lookup. exists i. congruence.
  - intros ([k' v] & -> & Hin). apply list_elem_of_lookup in Hin as [i Hi].
    destruct (Forall2_lookup_r _ _ _ _ _ (rep_entries _ _ R) Hi) as (e & He & Hkv).
    exists e. apply (rep_cache _ _ R). split; [by eapply list_elem_of_lookup_2|]. by exists v.
Qed.

(** A pointer found in the map leads to the entry of the list. *)
Lemma rep_hit k e : l_cache s !! k = Some e ->
  exists v, e ∈ l_ll s /\ l_elems s !! e = Some (k, v) /\ find_key k l = Some v.
Proof.
  intros [He [v Hv]]%(rep_cache _ _ R). exists v. split; [done|]. split; [done|].
  apply find_key_Some; [apply R|]. apply list_elem_of_lookup in He as [i Hi].
  destruct (Forall2_lookup_l _ _ _ _ _ (rep_entries _ _ R) Hi) as (kv & Hl & Hkv). cbn in Hkv.
  apply list_elem_of_lookup. exists i. congruence.
Qed.

(** Two elements of the list never have the same key. *)
Lemma rep_same_key e e' k v v' :
  e ∈ l_ll s -> e' ∈ l_ll s -> l_elems s !! e = Some (k, v) -> l_elems s !! e' = Some (k, v') -> e' = e.
Proof.
  intros He He' Hv Hv'.
  assert (l_cache s !! k = Some e) as H1 by (apply R; eauto).
  assert (l_cache s !! k = Some e') as H2 by (apply R; eauto). congruence.
Qed.

Lemma rep_filter e k v : e ∈ l_ll s -> l_elems s !! e = Some (k, v) ->
  Forall2 (fun e kv => l_elems s !! e = Some kv) (ll_remove e (l_ll s)) (drop_key k l).
Proof.
  intros He Hv.
  assert (Forall2 (fun e kv => e ∈ l_ll s /\ l_elems s !! e = Some kv) (l_ll s) l) as HF.
  { apply Forall2_same_length_lookup_2; [by eapply Forall2_length, R|]. intros i e' kv Hi Hkv.
    split; [by eapply list_elem_of_lookup_2|]. by eapply (Forall2_lookup_lr _ _ _ _ _ _ (rep_entries _ _ R)). }
  eapply Forall2_impl; [eapply Forall2_filter; [|exact HF]|by intros ? ? [_ ?]].
  intros e' [k' v'] [He' Hv']. cbn. apply not_iff_compat. split; [congruence|].
  intros ->. by eapply rep_same_key.
Qed.

Lemma rep_remove e k v : e ∈ l_ll s -> l_elems s !! e = Some (k, v) ->
  rep_lists (MkLists (ll_remove e (l_ll s)) (l_elems s) (delete k (l_cache s)) (l_fresh s)) (drop_key k l).
Proof.
  intros He Hv. constructor; cbn.
  - apply NoDup_filter, R.
  - apply drop_key_NoDup, R.
  - by eapply rep_filter.
  - intros k' e'. unfold ll_remove. rewrite list_elem_of_filter. destruct (decide (k' = k)) as [->|Hk].
    + rewrite lookup_delete_eq. split; [done|]. intros [[Hne He'] [v' Hv']]. destruct Hne. by eapply rep_same_key.
    + rewrite lookup_delete_ne, (rep_cache _ _ R) by done. naive_solver.
  - intros e' [_ He']%list_elem_of_filter. by apply R.
Qed.

Lemma rep_front e k v : e ∈ l_ll s -> l_elems s !! e = Some (k, v) ->
  rep_lists (MoveToFront e s) ((k, v) :: drop_key k l).
Proof.
  intros He Hv. constructor; cbn.
  - constructor; [|apply NoDup_filter, R]. by intros [Hne _]%list_elem_of_filter.
  - constructor; [apply drop_key_not_in|apply drop_key_NoDup, R].
  - constructor; [done|by eapply rep_filter].
  - intros k' e'. rewrite (rep_cache _ _ R), elem_of_cons. unfold ll_remove. rewrite list_elem_of_filter.
    destruct (decide (e' = e)); naive_solver.
  - intros e' [->|[_ He']%list_elem_of_filter]%elem_of_cons; by apply R.
Qed.

Lemma rep_push k v : find_key k l = None -> rep_lists (PushFront k v s) ((k, v) :: l).
Proof.
  intros Hk. assert (forall e, e ∈ l_ll s -> e <> l_fresh s) as Hf.
  { intros e He ->. apply (rep_fresh _ _ R) in He. lia. }
  constructor; cbn.
  - constructor; [|apply R]. intros He. by apply (Hf _ He).
  - constructor; [|apply R]. by apply find_key_None.
  - constructor; [by rewrite lookup_insert_eq|].
    apply Forall2_same_length_lookup_2; [by eapply Forall2_length, R|]. intros i e' kv Hi Hkv.
    rewrite lookup_insert_ne by (symmetry; eapply Hf, list_elem_of_lookup_2; eauto).
    by eapply (Forall2_lookup_lr _ _ _ _ _ _ (rep_entries _ _ R)).
  - intros k' e'. rewrite elem_of_cons. destruct (decide (k' = k)) as [->|Hne].
    + rewrite lookup_insert_eq. split.
      * intros [= <-]. split; [by left|]. exists v. by rewrite lookup_insert_eq.
      * intros [[->|He] [v' Hv']]; [done|]. rewrite lookup_insert_ne in Hv' by (symmetry; by apply Hf).
        apply rep_miss in Hk. assert (l_cache s !! k = Some e') by (apply R; eauto). congruence.
    + rewrite lookup_insert_ne, (rep_cache _ _ R) by done. split.
      * intros [He [v' Hv']]. split; [by right|]. exists v'. rewrite lookup_insert_ne; [done|]. symmetry. by apply Hf.
      * intros [[->|He] [v' Hv']]; [rewrite lookup_insert_eq in Hv'; congruence|].
        rewrite lookup_insert_ne in Hv' by (symmetry; by apply Hf). eauto.
  - intros e' [->|He']%elem_of_cons; [lia|]. apply (rep_fresh _ _ R) in He'. lia.
Qed.

(** The element at the back of the list holds the last entry. *)
Lemma rep_last e : last (l_ll s) = Some e ->
  exists l' kv, l = l' ++ [kv] /\ e ∈ l_ll s /\ l_elems s !! e = Some kv.
Proof.
  intros [ll Hll]%last_Some. pose proof (rep_entries _ _ R) as HF. rewrite Hll in HF.
  apply Forall2_app_inv_l in HF as (l' & k & _ & Hk & ->). apply Forall2_cons_inv_l in Hk as (kv & k' & Hkv & Hk' & ->).
  apply Forall2_nil_inv_l in Hk' as ->. exists l', kv. rewrite Hll. set_solver.
Qed.
End rep.

(** Overwriting the value of the element in front. *)
Lemma rep_set s e k v v' l ll :
  rep_lists s ((k, v) :: l) -> l_ll s = e :: ll -> rep_lists (set_value e (k, v') s) ((k, v') :: l).
Proof.
  intros R Hll. destruct R as [R1 R2 R3 R4 R5]. rewrite Hll in R1, R3. apply NoDup_cons in R1 as [R1 R1'].
  apply Forall2_cons in R3 as [R3 R3']. constructor; cbn.
  - rewrite Hll. by constructor.
  - done.
  - rewrite Hll. constructor; [by rewrite lookup_insert_eq|].
    apply Forall2_same_length_lookup_2; [by eapply Forall2_length|]. intros i e' kv Hi Hkv.
    rewrite lookup_insert_ne by (intros <-; by apply R1; eapply list_elem_of_lookup_2).
    by eapply (Forall2_lookup_lr _ _ _ _ _ _ R3').
  - intros k' e'. rewrite R4. destruct (decide (e' = e)) as [->|].
    + rewrite lookup_insert_eq, R3. naive_solver.
    + by rewrite lookup_insert_ne.
  - done.
Qed.

(** ** The operations refine the specification *)

Lemma evicted_nil hook (w : W) : run_evicted hook [] w = w.
Proof. by destruct hook. Qed.

Lemma evicted_cons hook kv kvs (w : W) :
  run_evicted hook (kv :: kvs) w = run_evicted hook kvs (run_evicted hook [kv] w).
Proof. by destruct hook. Qed.

Lemma on_evicted_run c kv (w : W) : on_evicted c kv w = run_evicted (c_OnEvicted c) [kv] w.
Proof. by unfold on_evicted, run_evicted; destruct (c_OnEvicted c). Qed.

Lemma removeElement_ok c s e kv (w : W) :
  c_lists c = Some s -> l_elems s !! e = Some kv ->
  removeElement e (c, w) =
    (Ok kv, (set_lists (MkLists (ll_remove e (l_ll s)) (l_elems s) (delete kv.1 (l_cache s)) (l_fresh s)) c,
             run_evicted (c_OnEvicted c) [kv] w)).
Proof. intros Hs He. cbn. unfold deref. by rewrite Hs, He, on_evicted_run. Qed.

(** Removing the oldest entry of a list that has one. *)
Lemma removeOldest_ok c l kv (w : W) :
  represents c (l ++ [kv]) ->
  exists s, removeOldestLocked (c, w) = (Ok (Some kv), (set_lists s c, run_evicted (c_OnEvicted c) [kv] w)) /\
    rep_lists s l.
Proof.
  unfold represents, removeOldestLocked. destruct (c_lists c) as [s|] eqn:Hs; [|by destruct l]. intros R.
  destruct (last (l_ll s)) as [e|] eqn:He.
  - destruct (rep_last R e He) as (l' & kv' & [<- <-]%app_inj_tail_iff & Hin & Hkv).
    eexists. unfold mbind, prog_bind. rewrite (removeElement_ok c s e kv) by done. split; [done|].
    destruct kv as [k v]. pose proof (rep_remove R e k v Hin Hkv) as R'.
    change k with ((k, v).1) in R' at 2. rewrite drop_key_last in R' by apply R. done.
  - apply last_None in He. pose proof (rep_entries _ _ R) as HF. rewrite He in HF.
    apply Forall2_nil_inv_l in HF. by destruct l.
Qed.

Lemma kept_snoc max l kv : 0 < max <= len l ->
  kept max (l ++ [kv]) = kept max l /\ dropped max (l ++ [kv]) = kv :: dropped max l.
Proof.
  intros Hm. unfold kept, dropped, len in *. destruct (Z.ltb_spec 0 max); [|lia].
  rewrite take_app_le, drop_app_le by lia. by rewrite reverse_app.
Qed.

Lemma set_lists_id s (c : Cache) : c_lists c = Some s -> set_lists s c = c.
Proof. destruct c. cbn. intros ->. done. Qed.

(** One turn of the loop. *)
Lemma evict_loop_eq fuel c s (w : W) :
  c_lists c = Some s ->
  evict_loop fuel (c, w) =
    if (0 <? c_MaxEntries c) && (c_MaxEntries c <? len (l_ll s)) then
      match fuel with
      | O => (Err (Panic "out of fuel"), (c, w))
      | S fuel => (_ ← removeOldestLocked; evict_loop fuel) (c, w)
      end
    else (Ok tt, (c, w)).
Proof.
  intros Hs. destruct fuel; cbn [evict_loop]; unfold mbind, prog_bind, get_MaxEntries, ll_Len.
  all: destruct (0 <? c_MaxEntries c); [|done]; rewrite Hs; by destruct (c_MaxEntries c <? len (l_ll s)).
Qed.

Lemma kept_all max l : (0 <? max) && (max <? len l) = false -> kept max l = l /\ dropped max l = [].
Proof.
  unfold kept, dropped, len. intros Hm. destruct (Z.ltb_spec 0 max) as [H0|]; [|done].
  destruct (Z.ltb_spec max (Z.of_nat (length l))); [done|]. by rewrite take_ge, drop_ge by lia.
Qed.

(** [evictLocked] terminates and drops what the bound does not keep. *)
Lemma evict_loop_ok fuel c s l (w : W) :
  c_lists c = Some s -> rep_lists s l -> (length l <= fuel)%nat ->
  exists s', evict_loop fuel (c, w) =
    (Ok tt, (set_lists s' c, run_evicted (c_OnEvicted c) (dropped (c_MaxEntries c) l) w)) /\
    rep_lists s' (kept (c_MaxEntries c) l).
Proof.
  revert c s l w. induction fuel as [|fuel IH]; intros c s l w Hs R Hf.
  all: rewrite (evict_loop_eq _ c s) by done.
  all: assert (len (l_ll s) = len l) as -> by (unfold len; f_equal; by eapply Forall2_length, R).
  all: destruct ((0 <? c_MaxEntries c) && (c_MaxEntries c <? len l)) eqn:Hm;
    [|exists s; apply kept_all in Hm as [-> ->]; by rewrite evicted_nil, set_lists_id].
  all: apply andb_prop in Hm as [H0%Z.ltb_lt Hlt%Z.ltb_lt]; unfold len in *; try lia.
  destruct l as [|kv l _] using rev_ind; [cbn in Hlt; lia|].
  rewrite length_app in *. cbn [length] in *.
  destruct (removeOldest_ok c l kv w) as (s1 & E1 & R1); [by unfold represents; rewrite Hs|].
  rewrite (prog_bind_Ok _ _ _ _ _ E1).
  destruct (kept_snoc (c_MaxEntries c) l kv) as [-> ->]; [unfold len; lia|].
  destruct (IH (set_lists s1 c) s1 l (run_evicted (c_OnEvicted c) [kv] w)) as (s' & -> & R'); [done|done|lia|].
  exists s'. split; [|done]. by rewrite (evicted_cons _ kv (dropped _ _)).
Qed.

Lemma evictLocked_ok c s l (w : W) :
  rep_lists s l ->
  exists s', evictLocked (set_lists s c, w) =
    (Ok tt, (set_lists s' c, run_evicted (c_OnEvicted c) (dropped (c_MaxEntries c) l) w)) /\
    rep_lists s' (kept (c_MaxEntries c) l).
Proof.
  intros R. cbn. destruct (evict_loop_ok (length (l_ll s)) (set_lists s c) s l w) as (s' & -> & R'); eauto.
  by rewrite (Forall2_length _ _ _ (rep_entries _ _ R)).
Qed.

Lemma clear_loop_ok c s order kvs (w : W) :
  Forall2 (fun ke kv => l_elems s !! ke.2 = Some kv) order kvs ->
  clear_loop s order (c, w) = (Ok tt, (c, run_evicted (c_OnEvicted c) kvs w)).
Proof.
  intros HF. revert w. induction HF as [|[k e] kv order kvs He _ IH]; intros w.
  - cbn. by rewrite evicted_nil.
  - cbn [clear_loop]. unfold mbind, prog_bind, lift, deref, run_hook. cbn in He. rewrite He, IH.
    by rewrite on_evicted_run, (evicted_cons _ kv kvs).
Qed.

(** Whatever order the map is walked in, every entry is purged once. *)
Lemma range_purges s l order :
  rep_lists s l -> order ≡ₚ map_to_list (l_cache s) ->
  exists kvs, Forall2 (fun ke kv => l_elems s !! ke.2 = Some kv) order kvs /\ kvs ≡ₚ l.
Proof.
  intros R Ho.
  assert (forall k e, (k, e) ∈ order <-> l_cache s !! k = Some e) as Hin
    by (intros; rewrite Ho; apply elem_of_map_to_list).
  assert (exists kvs, Forall2 (fun ke kv => l_elems s !! ke.2 = Some kv /\ ke.1 = kv.1) order kvs) as [kvs HF].
  { apply Forall_exists_Forall2_l, list.Forall_forall. intros [k e] [He [v Hv]]%Hin%(rep_cache _ _ R). by exists (k, v). }
  exists kvs. split; [by eapply Forall2_impl; [exact HF|intros ? ? [? _]]|].
  assert (NoDup kvs.*1) as Hnd.
  { replace kvs.*1 with order.*1; [rewrite Ho; apply NoDup_fst_map_to_list|].
    clear - HF. induction HF as [|? ? ? ? [_ ?]]; cbn; by f_equal. }
  apply NoDup_Permutation; [by eapply NoDup_fmap_1|eapply NoDup_fmap_1, R|]. intros [k v]. split.
  - intros [i Hi]%list_elem_of_lookup. destruct (Forall2_lookup_r _ _ _ _ _ HF Hi) as ([k' e] & He & Hv & Hk).
    cbn in Hv, Hk. subst k'. apply list_elem_of_lookup_2, Hin, (rep_hit R) in He as (v' & _ & Hv' & Hf).
    apply find_key_Some in Hf; [|apply R]. congruence.
  - intros Hl. apply (find_key_Some k v) in Hl as Hf; [|apply R].
    destruct (l_cache s !! k) as [e|] eqn:Hc; [|apply (rep_miss R) in Hc; congruence].
    apply Hin in Hc as He. apply list_elem_of_lookup in He as [i Hi].
    destruct (Forall2_lookup_l _ _ _ _ _ HF Hi) as (kv & Hkv & He & _). cbn in He.
    apply (rep_hit R) in Hc as (v' & _ & Hv' & Hf'). apply list_elem_of_lookup. exists i. congruence.
Qed.

(** What a client of the cache can observe of it. *)
Definition abstracts (hook : option (K -> V -> W -> W)) (st : Cache * W) (a : Z * list entry * W) : Prop :=
  c_OnEvicted st.1 = hook /\ c_MaxEntries st.1 = a.1.1 /\ represents st.1 a.1.2 /\ st.2 = a.2.

(** The iteration order is one of the map's. *)
Definition op_ok (o : op) : Prop :=
  match o with
  | OpClear range => forall m, range m ≡ₚ map_to_list m
  | _ => True
  end.

Lemma represents_allocated c l : represents c l -> rep_lists (allocated c) l.
Proof. unfold represents, allocated. destruct (c_lists c); [done|]. intros ->. apply rep_empty. Qed.

Lemma Add_ok c l k v (w : W) :
  represents c l -> let l' := (k, v) :: drop_key k l in
  exists s', Add k v (c, w) = (Ok tt, (set_lists s' c, run_evicted (c_OnEvicted c) (dropped (c_MaxEntries c) l') w)) /\
    rep_lists s' (kept (c_MaxEntries c) l').
Proof.
  intros R%represents_allocated l'. cbn [Add]. destruct (l_cache (allocated c) !! k) as [e|] eqn:Hk.
  - destruct (rep_hit R k e Hk) as (v0 & He & Hv & _). unfold deref. rewrite Hv.
    apply evictLocked_ok. eapply rep_set; [by apply (rep_front R e k v0)|done].
  - apply (rep_miss R) in Hk. subst l'. rewrite drop_key_fresh by (by apply find_key_None).
    apply evictLocked_ok. by apply rep_push.
Qed.

Lemma Get_ok c l k (w : W) :
  represents c l ->
  exists c', Get k (c, w) = (Ok (find_key k l), (c', w)) /\ c_OnEvicted c' = c_OnEvicted c /\
    c_MaxEntries c' = c_MaxEntries c /\
    represents c' (match find_key k l with Some v => (k, v) :: drop_key k l | None => l end).
Proof.
  unfold represents, Get. destruct (c_lists c) as [s|] eqn:Hs; [|intros ->; by exists c; rewrite Hs].
  intros R. destruct (l_cache s !! k) as [e|] eqn:Hk.
  - destruct (rep_hit R k e Hk) as (v & He & Hv & ->). unfold deref. rewrite Hv. eexists. split; [done|].
    split; [done|]. split; [done|]. by apply (rep_front R e k v).
  - apply (rep_miss R) in Hk. rewrite Hk. exists c. by rewrite Hs.
Qed.

Lemma GetOrNew_ok c l k f (w : W) :
  represents c l ->
  exists s', let ret a w := (Ok a, (set_lists s' c, w)) in
    match find_key k l, f w with
    | Some v, _ => GetOrNew k f (c, w) = ret (v, true) w /\ rep_lists s' ((k, v) :: drop_key k l)
    | None, ((v, false), w') => GetOrNew k f (c, w) = ret (v, false) w' /\ rep_lists s' l
    | None, ((v, true), w') =>
        GetOrNew k f (c, w) = ret (v, true) (run_evicted (c_OnEvicted c) (dropped (c_MaxEntries c) ((k, v) :: l)) w') /\
        rep_lists s' (kept (c_MaxEntries c) ((k, v) :: l))
    end.
Proof.
  intros R%represents_allocated. cbn [GetOrNew]. destruct (l_cache (allocated c) !! k) as [e|] eqn:Hk.
  - destruct (rep_hit R k e Hk) as (v & He & Hv & ->). unfold deref. rewrite Hv. eexists. split; [done|].
    by apply (rep_front R e k v).
  - apply (rep_miss R) in Hk as Hf. rewrite Hf. destruct (f w) as [[v []] w']; [|by eexists].
    destruct (evictLocked_ok c (PushFront k v (allocated c)) ((k, v) :: l) w') as (s' & E & R'); [by apply rep_push|].
    exists s'. by rewrite (prog_bind_Ok _ _ _ _ _ E).
Qed.

Lemma Remove_ok c l k (w : W) :
  represents c l ->
  exists c', Remove k (c, w) = (Ok (find_key k l),
      (c', match find_key k l with Some v => run_evicted (c_OnEvicted c) [(k, v)] w | None => w end)) /\
    c_OnEvicted c' = c_OnEvicted c /\ c_MaxEntries c' = c_MaxEntries c /\ represents c' (drop_key k l).
Proof.
  unfold represents, Remove. destruct (c_lists c) as [s|] eqn:Hs; [|intros ->; by exists c; rewrite Hs].
  intros R. destruct (l_cache s !! k) as [e|] eqn:Hk.
  - destruct (rep_hit R k e Hk) as (v & He & Hv & ->). unfold mbind, prog_bind.
    rewrite (removeElement_ok c s e (k, v)) by done. eexists. split; [done|]. split; [done|]. split; [done|].
    by apply (rep_remove R e k v).
  - apply (rep_miss R) in Hk. rewrite Hk. exists c. rewrite Hs, drop_key_fresh by (by apply find_key_None). done.
Qed.

Lemma Clear_ok c l range (w : W) :
  represents c l -> (forall m, range m ≡ₚ map_to_list m) ->
  exists c' purged, Clear range (c, w) = (Ok tt, (c', run_evicted (c_OnEvicted c) purged w)) /\ purged ≡ₚ l /\
    c_OnEvicted c' = c_OnEvicted c /\ c_MaxEntries c' = c_MaxEntries c /\ represents c' [].
Proof.
  unfold represents, Clear. intros R Hr. destruct (c_lists c) as [s|] eqn:Hs.
  - destruct (range_purges s l (range (l_cache s)) R (Hr _)) as (kvs & HF & Hp).
    destruct (c_OnEvicted c) as [f|] eqn:Hf.
    + unfold mbind, prog_bind. rewrite (clear_loop_ok c s _ kvs) by done. rewrite Hf. by eexists _, kvs.
    + by eexists _, l.
  - subst l. destruct (c_OnEvicted c) eqn:Hf; by eexists _, [].
Qed.

(** One operation: it ends without a panic, answers as the specification does,
    and leaves a cache that stands for the specification's list. *)
Lemma lru_step_refines hook o st a :
  op_ok o -> abstracts hook st a ->
  exists ans st' a', run o st = (Ok ans, st') /\ spec_step hook o a ans a' /\ abstracts hook st' a'.
Proof.
  destruct st as [c w], a as [[max l] w0]. unfold abstracts. cbn [fst snd]. intros Ho (<- & <- & R & ->).
  destruct o; cbn [run]; unfold mbind, prog_bind.
  - destruct (Add_ok c l key value w0 R) as (s' & -> & R'). eexists _, _, _. split; [done|]. by split; [constructor|].
  - destruct (Get_ok c l key w0 R) as (c' & -> & <- & <- & R').
    destruct (find_key key l) eqn:Hk; eexists _, _, _; (split; [done|]); by split; [constructor|].
  - destruct (GetOrNew_ok c l key newFunc w0 R) as (s' & HE). cbn zeta in HE.
    destruct (find_key key l) eqn:Hk; [|destruct (newFunc w0) as [[v []] w'] eqn:Hn]; destruct HE as [-> R'];
    eexists _, _, _; (split; [done|]); by split; [econstructor|].
  - destruct (Remove_ok c l key w0 R) as (c' & -> & <- & <- & R').
    destruct (find_key key l) eqn:Hk; eexists _, _, _; (split; [done|]); (split; [by constructor|]); [done|].
    rewrite drop_key_fresh in R' by (by apply find_key_None). done.
  - unfold RemoveOldest. destruct l as [|kv l _] using rev_ind.
    + eexists _, (c, w0), (_, [], w0). split; [|by split; [constructor|]].
      unfold removeOldestLocked. unfold represents in R. destruct (c_lists c) as [s|] eqn:Hs; [|done].
      pose proof (rep_entries _ _ R) as HF. apply Forall2_nil_inv_r in HF. by rewrite HF.
    + destruct (removeOldest_ok c l kv w0 R) as (s & -> & R'). eexists _, _, _. split; [done|]. by split; [constructor|].
  - exists (Length (len l)), (c, w0), (c_MaxEntries c, l, w0). split; [|by split; [constructor|]].
    unfold Len. unfold represents in R. destruct (c_lists c) as [s|]; [|by subst].
    unfold len. by rewrite (Forall2_length _ _ _ (rep_entries _ _ R)).
  - destruct (Clear_ok c l range w0 R Ho) as (c' & purged & -> & Hp & <- & <- & R').
    eexists _, _, _. split; [done|]. by split; [by constructor|].
  - eexists _, _, _. split; [done|]. by split; [constructor|].
Qed.

(** Facts about the list a cache stands for, for its clients. *)
Lemma represents_keys c l : represents c l -> NoDup l.*1.
Proof. unfold represents. destruct (c_lists c); [intros R; apply R|intros ->; constructor]. Qed.

Lemma front_perm k v l : NoDup l.*1 -> find_key k l = Some v -> l ≡ₚ (k, v) :: drop_key k l.
Proof.
  unfold drop_key. induction l as [|[k' v'] l IH]; [done|]. cbn [fmap list_fmap fst find_key].
  intros [Hk Hnd]%NoDup_cons Hf. rewrite filter_cons. cbn [fst]. case_bool_decide as Hkk.
  - subst k'. injection Hf as ->. rewrite decide_False by naive_solver.
    change (filter _ l) with (drop_key k l). by rewrite drop_key_fresh.
  - rewrite decide_True by done. rewrite (IH Hnd Hf) at 1. apply perm_swap.
Qed.

Lemma kept_dropped_perm max l : l ≡ₚ dropped max l ++ kept max l.
Proof.
  unfold dropped, kept. destruct (0 <? max); [|done].
  rewrite reverse_Permutation, Permutation_app_comm. by rewrite take_drop.
Qed.

(** ** Sequences of operations *)

Fixpoint runs (os : list op) : cprog (list answer) :=
  match os with
  | [] => mret []
  | o :: os => a ← run o; rest ← runs os; mret (a :: rest)
  end.

Inductive spec_steps (hook : option (K -> V -> W -> W)) :
    list op -> Z * list entry * W -> list answer -> Z * list entry * W -> Prop :=
  | spec_done a : spec_steps hook [] a [] a
  | spec_next o os a ans a' anss a'' :
      spec_step hook o a ans a' -> spec_steps hook os a' anss a'' ->
      spec_steps hook (o :: os) a (ans :: anss) a''.

(** C30: from any cache that stands for a list of entries, most recently used
    first, every sequence of operations (additions, lookups, removals, purges,
    changes of the bound) ends without a panic, answers what the operations on
    that list answer, runs the eviction hook on the same entries in the same
    order, and leaves a cache that stands for the resulting list. *)
Theorem lru_refines hook os st a :
  Forall op_ok os -> abstracts hook st a ->
  exists anss st' a', runs os st = (Ok anss, st') /\ spec_steps hook os a anss a' /\ abstracts hook st' a'.
Proof.
  intros Hos. revert st a. induction Hos as [|o os Ho _ IH]; intros st a Hst.
  - exists [], st, a. split; [done|]. split; [constructor|done].
  - destruct (lru_step_refines hook o st a Ho Hst) as (ans & st1 & a1 & E1 & S1 & A1).
    destruct (IH st1 a1 A1) as (anss & st2 & a2 & E2 & S2 & A2).
    exists (ans :: anss), st2, a2. cbn [runs]. rewrite (prog_bind_Ok _ _ _ _ _ E1), (prog_bind_Ok _ _ _ _ _ E2).
    split; [done|]. split; [by econstructor|done].
Qed.

(** A new cache, and the zero value, stand for the empty list. *)
Lemma New_abstracts max (w : W) : abstracts None (New max, w) (max, [], w).
Proof. split; [done|]. split; [done|]. split; [apply rep_empty|done]. Qed.

(** ** The bound *)

Lemma drop_key_len k l : len (drop_key k l) <= len l.
Proof. unfold len, drop_key. pose proof (length_filter (fun kv : entry => kv.1 <> k) l). lia. Qed.

Lemma drop_key_hit k v l : find_key k l = Some v -> len (drop_key k l) < len l.
Proof.
  unfold len. intros Hf. apply inj_lt. unfold drop_key. induction l as [|[k' v'] l IH]; [done|]. cbn in Hf.
  rewrite filter_cons. case_bool_decide as Hk; case_decide as Hd; cbn in *; try done.
  - pose proof (length_filter (fun kv : entry => kv.1 <> k) l). lia.
  - specialize (IH Hf). lia.
Qed.

Definition sets_bound (o : op) : bool :=
  match o with OpSetMaxEntries _ => true | _ => false end.

Lemma spec_step_bounded hook o a ans a' :
  spec_step hook o a ans a' -> sets_bound o = false -> 0 < a.1.1 -> len a.1.2 <= a.1.1 ->
  a'.1.1 = a.1.1 /\ len a'.1.2 <= a'.1.1.
Proof.
  assert (forall max (l : list entry), 0 < max -> len (kept max l) <= max) as Hk.
  { intros max l Hm. unfold kept, len. destruct (Z.ltb_spec 0 max); [|lia]. rewrite length_take. lia. }
  intros Hs Hb Hm Hl. destruct Hs; cbn [fst snd] in *; (split; [done|]); auto; try done.
  - apply drop_key_hit in H. rewrite len_cons. lia.
  - apply drop_key_hit in H. rewrite len_cons. lia.
  - pose proof (drop_key_len key l). lia.
  - rewrite len_app in Hl. pose proof (len_nonneg [kv]). lia.
  - rewrite len_nil. lia.
Qed.

(** Unless its owner changes the bound, a cache of at most [max] entries never
    holds more. *)
Lemma spec_bounded hook os a anss a' :
  spec_steps hook os a anss a' -> Forall (fun o => sets_bound o = false) os ->
  0 < a.1.1 -> len a.1.2 <= a.1.1 -> a'.1.1 = a.1.1 /\ len a'.1.2 <= a'.1.1.
Proof.
  intros Hs. induction Hs as [|o os a ans a1 anss a2 H1 _ IH]; intros Hos Hm Hl; [done|].
  apply Forall_cons in Hos as [Ho Hos]. destruct (spec_step_bounded _ _ _ _ _ H1 Ho Hm Hl) as [He Hl1].
  rewrite <- He. apply IH; [done|lia|done].
Qed.
End lru.
Arguments Cache K V W {_ _}.
Arguments lists K V {_ _}.

(** Three additions to a cache of two entries, the first one used in between:
    the second is evicted and reported. *)
Definition lru_script : list (op (K := nat) (V := nat) (W := list (nat * nat))) :=
  [OpAdd 1 10; OpAdd 2 20; OpGet 1; OpAdd 3 30; OpGet 2; OpLen; OpClear map_to_list]%nat.

Definition lru_log : nat -> nat -> list (nat * nat) -> list (nat * nat) := fun k v w => w ++ [(k, v)].

Lemma lru_refines_witness :
  let c := MkCache 2 (Some lru_log) None in
  (runs lru_script (c, [])).1 =
    Ok [Nothing; Nothing; Value (Some 10); Nothing; Value None; Length 2; Nothing]%nat /\
  exists anss st' a', runs lru_script (c, []) = (Ok anss, st') /\
    spec_steps (Some lru_log) lru_script (2, [], []) anss a' /\ abstracts (Some lru_log) st' a'.
Proof.
  cbn zeta. split; [vm_compute; reflexivity|].
  apply (lru_refines (Some lru_log) lru_script (MkCache 2 (Some lru_log) None, []) (2, [], [])).
  - repeat constructor. by intros m.
  - repeat split.
Defined.
