(* ===== verification/IndexCache.v ===== *)
(** * Index caches: [storage/cache.go]

    A bounded cache over the LRU, or none when caching is disabled, and the
    five caches every backend with a slow store keeps.  What a backend relies
    on is [coherent]: everything cached satisfies a predicate, which lookups
    keep, additions extend and removals strengthen. *)

From Stdlib Require Import ZArith Lia Strings.Byte Strings.String.
From S2P Require Import Prelude Prog Hash Lru Shard.

(** ** The cache *)

Section cache.
Context {K V : Type} `{EqK : EqDecision K} {CK : Countable K}.

(** [storage.Cache]: [None] when caching is disabled. *)
Definition icache : Type := option (Cache K V unit).

(** [NewCache]. *)
Definition NewCache (size : Z) : icache := if size <? 1 then None else Some (New size).

(** A method that does nothing on a disabled cache. *)
Definition with_lru {A} (m : cprog A) (disabled : A) : prog icache A := fun c =>
  match c with
  | None => (Ok disabled, None)
  | Some c => let '(r, (c, _)) := m (c, tt) in (r, Some c)
  end.

Definition ic_Get (key : K) : prog icache (option V) := with_lru (Get key) None.
Definition ic_Add (key : K) (value : V) : prog icache unit := with_lru (Add key value) tt.
Definition ic_Remove (key : K) : prog icache unit := with_lru (_ ← Remove key; mret tt) tt.
Definition ic_Len : prog icache Z := with_lru Len 0.

(** ** Coherence *)

(** Everything in the cache satisfies [R]. *)
Definition coherent (R : K -> V -> Prop) (c : icache) : Prop :=
  match c with
  | None => True
  | Some c => c_OnEvicted c = None /\ exists l, represents c l /\ forall k v, (k, v) ∈ l -> R k v
  end.

Lemma coherent_new R size : coherent R (NewCache size).
Proof.
  unfold NewCache. destruct (size <? 1); [done|]. split; [done|]. exists []. split; [apply rep_empty|]. by intros ? ? ?%elem_of_nil.
Qed.

Lemma coherent_mono (R R' : K -> V -> Prop) c : (forall k v, R k v -> R' k v) -> coherent R c -> coherent R' c.
Proof. destruct c as [c|]; [|done]. intros HR (? & l & ? & Hl). split; [done|]. exists l. auto. Qed.

(** A lookup finds only what satisfies the predicate. *)
Lemma ic_Get_coherent R key c :
  coherent R c ->
  exists r c', ic_Get key c = (Ok r, c') /\ coherent R c' /\ forall v, r = Some v -> R key v.
Proof.
  destruct c as [c|]; [|by exists None, None]. intros (Hh & l & Hr & Hl).
  destruct (Get_ok c l key tt Hr) as (c' & E & Ho & _ & R'). eexists (find_key key l), (Some c').
  unfold ic_Get, with_lru. rewrite E. split; [done|]. pose proof (represents_keys _ _ Hr) as Hnd.
  split; [split; [by rewrite Ho|]; eexists; split; [exact R'|]|].
  - intros k v. destruct (find_key key l) as [v0|] eqn:Hf; [|apply Hl].
    rewrite <- (front_perm key v0 l) by done. apply Hl.
  - intros v Hv. by apply Hl, find_key_Some.
Qed.

Lemma ic_Add_coherent (R : K -> V -> Prop) key value c :
  coherent R c -> R key value -> exists c', ic_Add key value c = (Ok tt, c') /\ coherent R c'.
Proof.
  destruct c as [c|]; [|by exists None]. intros (Hh & l & Hr & Hl) HR.
  destruct (Add_ok c l key value tt Hr) as (s' & E & R'). eexists (Some _).
  unfold ic_Add, with_lru. rewrite E. split; [done|]. split; [done|]. eexists. split; [exact R'|].
  intros k v Hin. assert ((k, v) ∈ (key, value) :: drop_key key l) as [[= -> ->]|[_ ?]%list_elem_of_filter]%elem_of_cons; [|done|by apply Hl].
  rewrite (kept_dropped_perm (c_MaxEntries c)). set_solver.
Qed.

Lemma ic_Remove_coherent (R : K -> V -> Prop) key c :
  coherent R c -> exists c', ic_Remove key c = (Ok tt, c') /\ coherent (fun k v => k <> key /\ R k v) c'.
Proof.
  destruct c as [c|]; [|by exists None]. intros (Hh & l & Hr & Hl).
  destruct (Remove_ok c l key tt Hr) as (c' & E & Ho & _ & R'). eexists (Some c').
  unfold ic_Remove, with_lru. rewrite (prog_bind_Ok _ _ _ _ _ E). split; [done|]. split; [by rewrite Ho|].
  exists (drop_key key l). split; [done|]. intros k v [Hne Hin]%list_elem_of_filter. split; [done|by apply Hl].
Qed.
End cache.
Arguments icache K V {_ _}.

(** ** A cache inside a larger state *)

(** Where a component's state lives in the state of a program. *)
Record lens (S C : Type) : Type := MkLens { view : S -> C; put : C -> S -> S }.
Arguments MkLens {S C} _ _.
Arguments view {S C} _ _.
Arguments put {S C} _ _ _.

Definition at_lens {S C A} (ln : lens S C) (m : prog C A) : prog S A := fun s =>
  let '(r, c) := m (view ln s) in (r, put ln c s).

(** [Cache.GetOrLoad]: the load runs on the whole state. *)
Definition GetOrLoad {S K V} `{Countable K} (ln : lens S (icache K V)) (key : K) (load : prog S V) : prog S V :=
  hit ← at_lens ln (ic_Get key);
  match hit with
  | Some v => mret v
  | None =>
      v ← load;
      _ ← at_lens ln (ic_Add key v);
      mret v
  end.

(** ** The caches of a backend *)

Record IndexCaches : Type := MkIndexCaches {
  ix_Files : icache FileHash gostring;       (** file hash to shard hash *)
  ix_Shards : icache gostring Shard;         (** shard hash to decoded shard *)
  ix_Chunks : icache ChunkHash gostring;     (** chunk hash to shard hash *)
  ix_SHA256 : icache SHA256Hash gostring;    (** SHA-256 to shard hash *)
  ix_Offsets : icache XorbHash (list Z);     (** xorb hash to chunk end offsets *)
}.

Definition DefaultCacheSize : Z := 4096.

Definition NewIndexCaches : IndexCaches :=
  MkIndexCaches (NewCache DefaultCacheSize) (NewCache DefaultCacheSize) (NewCache DefaultCacheSize)
    (NewCache DefaultCacheSize) (NewCache DefaultCacheSize).

Definition lens_Files : lens IndexCaches (icache FileHash gostring) :=
  MkLens ix_Files (fun c s => MkIndexCaches c (ix_Shards s) (ix_Chunks s) (ix_SHA256 s) (ix_Offsets s)).
Definition lens_Shards : lens IndexCaches (icache gostring Shard) :=
  MkLens ix_Shards (fun c s => MkIndexCaches (ix_Files s) c (ix_Chunks s) (ix_SHA256 s) (ix_Offsets s)).
Definition lens_Chunks : lens IndexCaches (icache ChunkHash gostring) :=
  MkLens ix_Chunks (fun c s => MkIndexCaches (ix_Files s) (ix_Shards s) c (ix_SHA256 s) (ix_Offsets s)).
Definition lens_SHA256 : lens IndexCaches (icache SHA256Hash gostring) :=
  MkLens ix_SHA256 (fun c s => MkIndexCaches (ix_Files s) (ix_Shards s) (ix_Chunks s) c (ix_Offsets s)).
Definition lens_Offsets : lens IndexCaches (icache XorbHash (list Z)) :=
  MkLens ix_Offsets (fun c s => MkIndexCaches (ix_Files s) (ix_Shards s) (ix_Chunks s) (ix_SHA256 s) c).
