(* ===== verification/Xorbmap.v ===== *)
(** * Cached xorb mappings: [internal/xorbmap]

    An LRU cache of read-only memory mappings of xorb files.  A mapping is
    reference-counted: the cache holds one reference and every reader another,
    and the last release unmaps it.  Mappings live in a heap and are known by
    their index, as Go knows them by pointer; the LRU's eviction hook releases
    the cache's reference.  Opening, sizing and mapping a file is the business
    of the operating system and of a third-party package, the class
    [XorbFiles].  Reference counts are unbounded here: a process cannot hold
    2^63 references.

    [step] interleaves the atomic actions of any number of goroutines: cache
    lookups, the compare-and-swap of [acquire], releases, removals and the
    stages of a fill, of which [singleflight] lets one per hash be under way.
    [mappings_safe] is the invariant of every interleaving. *)

From Stdlib Require Import ZArith Lia Strings.Byte Strings.String.
From stdpp Require Import relations.
From S2P Require Import Prelude Prog Hash Lru.

(** ** State *)

(** What [fill] asks of the file system: [open] is the cache's own function
    field, [Stat] is the size of the file and [Map] maps it. *)
Class XorbFiles (OS : Type) : Type := {
  xf_open : XorbHash -> prog OS (list byte);
  xf_Stat : list byte -> prog OS Z;
  xf_Map : list byte -> prog OS (list byte);
}.

(** A successful [Stat] reports the size and a successful [Map] shows the bytes
    of the file. *)
Class XorbFilesLaws (OS : Type) `{XorbFiles OS} : Prop := {
  xf_Stat_size f s n s' : xf_Stat f s = (Ok n, s') -> n = len f;
  xf_Map_bytes f s d s' : xf_Map f s = (Ok d, s') -> d = f;
}.

(** [Mapping]; [mp_data] is nil for an empty xorb or once unmapped.  [mp_file]
    is the content of the file that was opened, for the specification. *)
Record Mapping : Type := MkMapping {
  mp_hash : XorbHash;
  mp_file : list byte;
  mp_data : list byte;
  mp_refs : Z;
}.

Section xorbmap.
Context {OS : Type} `{XorbFiles OS}.

(** The mappings made so far, the live OS mappings, the mappings whose last
    reference is gone, oldest first, and the operating system. *)
Record heap : Type := MkHeap {
  h_maps : list Mapping;
  h_mapped : Z;
  h_gone : list nat;
  h_os : OS;
}.

Definition set_mapping (p : nat) (m : Mapping) (hp : heap) : heap :=
  MkHeap (<[p := m]> (h_maps hp)) (h_mapped hp) (h_gone hp) (h_os hp).

Definition set_refs (n : Z) (m : Mapping) : Mapping := MkMapping (mp_hash m) (mp_file m) (mp_data m) n.

(** The cache's [release] function, if it has one. *)
Context (release : option (XorbHash -> OS -> OS)).

Definition run_release (h : XorbHash) (hp : heap) : heap :=
  match release with
  | Some f => MkHeap (h_maps hp) (h_mapped hp) (h_gone hp) (f h (h_os hp))
  | None => hp
  end.

(** [m.data.Unmap()] and [m.cache.mapped.Add(-1)]. *)
Definition unmap (p : nat) (m : Mapping) (hp : heap) : heap :=
  if bool_decide (mp_data m = []) then hp
  else MkHeap (<[p := MkMapping (mp_hash m) (mp_file m) [] (mp_refs m)]> (h_maps hp))
         (h_mapped hp - 1) (h_gone hp) (h_os hp).

(** [Mapping.Release]. *)
Definition Release (p : nat) (hp : heap) : heap :=
  match h_maps hp !! p with
  | None => hp
  | Some m =>
      let m := set_refs (mp_refs m - 1) m in
      let hp := set_mapping p m hp in
      if bool_decide (mp_refs m <> 0) then hp
      else
        let hp := MkHeap (h_maps hp) (h_mapped hp) (h_gone hp ++ [p]) (h_os hp) in
        run_release (mp_hash m) (unmap p m hp)
  end.

(** The cache: mappings by hash, with the world its hook acts on. *)
Definition xprog (A : Type) : Type := prog (Cache XorbHash nat heap * heap) A.

(** [xorbmap.New]: [OnEvicted] releases the cache's reference. *)
Definition on_evict : XorbHash -> nat -> heap -> heap := fun _ p => Release p.
Definition NewXorbmap (maxEntries : Z) : Cache XorbHash nat heap :=
  MkCache maxEntries (Some on_evict) (Some emptyLists).

(** ** Operations *)

Definition on_os {A} (m : prog OS A) : xprog A := fun '(c, hp) =>
  let '(r, os) := m (h_os hp) in (r, (c, MkHeap (h_maps hp) (h_mapped hp) (h_gone hp) os)).

Definition on_heap (f : heap -> heap) : xprog unit := fun '(c, hp) => (Ok tt, (c, f hp)).

(** [Mapping.acquire]: the compare-and-swap of a count that is not zero. *)
Definition acquire (p : nat) : xprog bool := fun '(c, hp) =>
  match h_maps hp !! p with
  | None => (Err nil_deref, (c, hp))
  | Some m =>
      if bool_decide (mp_refs m = 0) then (Ok false, (c, hp))
      else (Ok true, (c, set_mapping p (set_refs (mp_refs m + 1) m) hp))
  end.

Definition hit (h : XorbHash) : xprog (option nat) :=
  m ← Get h;
  match m with
  | None => mret None
  | Some p => ok ← acquire p; mret (if (ok : bool) then Some p else None)
  end.

(** [c.mapped.Add(1)]. *)
Definition count_mapped (hp : heap) : heap := MkHeap (h_maps hp) (h_mapped hp + 1) (h_gone hp) (h_os hp).

(** The mapping is made with two references and cached. *)
Definition land (h : XorbHash) (f data : list byte) : xprog nat := fun '(c, hp) =>
  let p := length (h_maps hp) in
  let hp := MkHeap (h_maps hp ++ [MkMapping h f data 2]) (h_mapped hp) (h_gone hp) (h_os hp) in
  (_ ← Add h p; mret p) (c, hp).

(** [fill] once the file is open, up to the mapping: its bytes. *)
Definition map_file (f : list byte) : xprog (list byte) :=
  size ← prog_wrap "stat xorb %s: %w" (on_os (xf_Stat f));
  if 0 <? size then
    data ← prog_wrap "map xorb %s: %w" (on_os (xf_Map f));
    _ ← on_heap count_mapped;
    mret data
  else mret [].

(** [fill]; its deferred [release] runs when an error follows the open. *)
Definition fill (h : XorbHash) : xprog nat :=
  m ← hit h;
  match m with
  | Some p => mret p
  | None =>
      f ← prog_wrap "open xorb %s: %w" (on_os (xf_open h));
      catch (map_file f) (land h f) (fun e => _ ← on_heap (run_release h); throw e)
  end.

(** [Acquire].  [waits] says, turn by turn, whether [fills.Do] joined a fill
    of another goroutine, and what that fill returned; afterwards this
    goroutine leads. *)
Fixpoint Acquire (waits : list (result nat)) (h : XorbHash) : xprog nat :=
  m ← hit h;
  match m with
  | Some p => mret p
  | None =>
      match waits with
      | [] => fill h
      | Err e :: _ => throw e
      | Ok p :: waits =>
          ok ← acquire p;
          if (ok : bool) then mret p else Acquire waits h
      end
  end.

(** [Has], [Remove], [Cache.Len] and [Mapped]. *)
Definition Has (h : XorbHash) : xprog bool := m ← Get h; mret (bool_decide (is_Some m)).
Definition xm_Remove (h : XorbHash) : xprog unit := _ ← Remove h; mret tt.
Definition xm_Len : xprog Z := Len.
Definition Mapped : xprog Z := fun '(c, hp) => (Ok (h_mapped hp), (c, hp)).

(** [reader]: the mapping it holds, [None] once closed, and the [bytes.Reader]
    over the mapping's memory, which is a pointer to it and a position. *)
Record mreader : Type := MkMreader { mr_held : option nat; mr_over : nat; mr_pos : Z }.

(** [Mapping.Reader]. *)
Definition Reader (p : nat) : mreader := MkMreader (Some p) p 0.

(** The memory a slice of the mapping points to; once unmapped, touching it is
    a fault. *)
Definition memory_of (p : nat) (hp : heap) : result (list byte) :=
  match h_maps hp !! p with
  | None => Err nil_deref
  | Some m => if bool_decide (mp_data m = [] /\ mp_file m <> []) then Err (Panic "fault") else Ok (mp_data m)
  end.

(** [reader.Read] into a buffer of [n] bytes: [bytes.Reader.Read]. *)
Definition reader_Read (n : Z) (r : mreader) (hp : heap) : result (list byte) * mreader :=
  match mr_held r with
  | None => (Err ErrClosed, r)
  | Some _ =>
      match memory_of (mr_over r) hp with
      | Err e => (Err e, r)
      | Ok data =>
          if len data <=? mr_pos r then (Err EOF, r)
          else
            let got := take (Z.to_nat n) (drop (Z.to_nat (mr_pos r)) data) in
            (Ok got, MkMreader (mr_held r) (mr_over r) (mr_pos r + len got))
      end
  end.

(** [reader.Seek]: [bytes.Reader.Seek]; the length of the slice is in the
    reader, so it is not read from the mapping. *)
Definition reader_Seek (size offset whence : Z) (r : mreader) : result Z * mreader :=
  match mr_held r with
  | None => (Err ErrClosed, r)
  | Some _ =>
      let seek abs :=
        if abs <? 0 then (Err (Errorf "bytes.Reader.Seek: negative position"), r)
        else (Ok abs, MkMreader (mr_held r) (mr_over r) abs) in
      if whence =? 0 then seek offset
      else if whence =? 1 then seek (i64 (mr_pos r + offset))
      else if whence =? 2 then seek (i64 (size + offset))
      else (Err (Errorf "bytes.Reader.Seek: invalid whence"), r)
  end.

(** [reader.Close]: the pointer is swapped out, so the reference is released
    once. *)
Definition reader_Close (r : mreader) (hp : heap) : result unit * mreader * heap :=
  match mr_held r with
  | None => (Err ErrClosed, r, hp)
  | Some p => (Ok tt, MkMreader None (mr_over r) (mr_pos r), Release p hp)
  end.

(** ** References *)

(** How many of [owners] point to [p]. *)
Definition occ (p : nat) (owners : list nat) : Z := len (filter (fun q => q = p) owners).

(** The live mappings that are backed by memory. *)
Definition backed (maps : list Mapping) : Z := len (filter (fun m => mp_data m <> []) maps).

(** The heap when the references are those of [owners]: every mapping counts
    its owners, is mapped exactly while it has one, and is reported gone once. *)
Record hp_ok (hp : heap) (owners : list nat) : Prop := {
  hp_valid : forall p, p ∈ owners -> is_Some (h_maps hp !! p);
  hp_refs : forall p m, h_maps hp !! p = Some m -> mp_refs m = occ p owners;
  hp_data : forall p m, h_maps hp !! p = Some m -> mp_data m = if decide (p ∈ owners) then mp_file m else [];
  hp_mapped : h_mapped hp = backed (h_maps hp);
  hp_gone : forall p, p ∈ h_gone hp <-> is_Some (h_maps hp !! p) /\ p ∉ owners;
  hp_once : NoDup (h_gone hp);
}.

Lemma occ_nil p : occ p [] = 0.
Proof. done. Qed.

Lemma occ_cons p q l : occ p (q :: l) = (if decide (q = p) then 1 else 0) + occ p l.
Proof. unfold occ. rewrite filter_cons. case_decide; [by rewrite len_cons|lia]. Qed.

Lemma occ_nonneg p l : 0 <= occ p l.
Proof. apply len_nonneg. Qed.

Lemma occ_0 p l : occ p l = 0 <-> p ∉ l.
Proof.
  induction l as [|q l IH]; [rewrite occ_nil; set_solver|]. rewrite occ_cons, not_elem_of_cons. pose proof (occ_nonneg p l).
  case_decide; [|rewrite <- IH; naive_solver lia]. split; [lia|naive_solver].
Qed.

#[local] Instance occ_perm p : Proper ((≡ₚ) ==> (=)) (occ p).
Proof. intros l k Hlk. unfold occ, len. by rewrite Hlk. Qed.

Lemma hp_ok_perm hp l k : l ≡ₚ k -> hp_ok hp l -> hp_ok hp k.
Proof.
  intros Hlk [H1 H2 H3 H4 H5 H6]. constructor; try done.
  - intros p. rewrite <- Hlk. apply H1.
  - intros p m. rewrite <- Hlk. apply H2.
  - intros p m Hm. rewrite (H3 p m Hm). do 2 case_decide; rewrite Hlk in *; done.
  - intros p. rewrite <- Hlk. apply H5.
Qed.

Lemma backed_insert maps p m m' : maps !! p = Some m ->
  backed (<[p := m']> maps) =
    backed maps + (if decide (mp_data m' <> []) then 1 else 0) - (if decide (mp_data m <> []) then 1 else 0).
Proof.
  intros Hp. rewrite <- (take_drop_middle maps p m Hp) at 2. rewrite insert_take_drop by (by eapply lookup_lt_Some).
  unfold backed. rewrite !filter_app, !len_app, !filter_cons. do 2 case_decide; rewrite ?len_cons; lia.
Qed.

Lemma occ_in p l : p ∈ l <-> occ p l <> 0.
Proof. rewrite occ_0. destruct (decide (p ∈ l)); naive_solver. Qed.

(** One mapping changes, and with it the owners of that mapping alone. *)
Lemma hp_ok_update hp hp' p m m' owners owners' :
  hp_ok hp owners -> h_maps hp !! p = Some m -> p ∈ owners ->
  (forall q, q <> p -> occ q owners' = occ q owners) ->
  h_maps hp' = <[p := m']> (h_maps hp) ->
  mp_refs m' = occ p owners' ->
  mp_data m' = (if decide (p ∈ owners') then mp_file m' else []) ->
  h_mapped hp' = h_mapped hp + (if decide (mp_data m' <> []) then 1 else 0) - (if decide (mp_data m <> []) then 1 else 0) ->
  h_gone hp' = (if decide (p ∈ owners') then h_gone hp else h_gone hp ++ [p]) ->
  hp_ok hp' owners'.
Proof.
  intros [H1 H2 H3 H4 H5 H6] Hp Hin Hocc Em Er Ed Ec Eg.
  assert (forall q, q <> p -> q ∈ owners' <-> q ∈ owners) as Hmem by (intros q Hq; by rewrite !occ_in, Hocc).
  assert (forall q, is_Some (h_maps hp' !! q) <-> is_Some (h_maps hp !! q)) as Hs.
  { intros q. by rewrite Em, !lookup_lt_is_Some, length_insert. }
  assert (forall q m0, h_maps hp' !! q = Some m0 -> q = p /\ m0 = m' \/ q <> p /\ h_maps hp !! q = Some m0) as Hcase.
  { intros q m0. rewrite Em. destruct (decide (q = p)) as [->|Hq].
    - rewrite list_lookup_insert_eq by (by eapply lookup_lt_Some). naive_solver.
    - rewrite list_lookup_insert_ne by done. auto. }
  constructor.
  - intros q Hq. apply Hs. destruct (decide (q = p)) as [->|Hne]; [done|]. by apply H1, Hmem.
  - intros q m0 [[-> ->]|[Hq Hm0]]%Hcase; [done|]. by rewrite Hocc, (H2 q m0).
  - intros q m0 [[-> ->]|[Hq Hm0]]%Hcase; [done|]. rewrite (H3 q m0) by done.
    clear - Hmem Hq. specialize (Hmem q Hq). do 2 case_decide; tauto.
  - by rewrite Ec, Em, H4, (backed_insert _ _ m).
  - intros q. rewrite Hs, Eg. case_decide as Hpo.
    + rewrite H5. destruct (decide (q = p)) as [->|Hne]; [tauto|]. by rewrite Hmem.
    + rewrite elem_of_app, list_elem_of_singleton, H5. destruct (decide (q = p)) as [->|Hne].
      * rewrite Hp. split; [naive_solver|by right].
      * rewrite Hmem by done. tauto.
  - rewrite Eg. case_decide; [done|]. apply NoDup_app. split; [done|]. split; [|apply NoDup_singleton].
    intros q Hq ->%list_elem_of_singleton. apply H5 in Hq. tauto.
Qed.

(** Taking a reference. *)
Lemma hp_ok_acquire hp p m owners :
  hp_ok hp owners -> h_maps hp !! p = Some m -> mp_refs m <> 0 ->
  hp_ok (set_mapping p (set_refs (mp_refs m + 1) m) hp) (p :: owners).
Proof.
  intros Hok Hp Hr. assert (p ∈ owners) as Hin by (apply occ_in; by rewrite <- (hp_refs _ _ Hok p m Hp)).
  assert (p ∈ p :: owners) as Hin' by set_solver.
  eapply (hp_ok_update hp _ p m); try done; cbn.
  - intros q Hq. rewrite occ_cons, decide_False by done. lia.
  - rewrite occ_cons, decide_True, (hp_refs _ _ Hok p m Hp) by done. lia.
  - rewrite (hp_data _ _ Hok p m Hp). by rewrite !decide_True.
  - lia.
  - by rewrite decide_True.
Qed.

(** What [Release] does to the heap. *)
Lemma Release_eq p m hp : h_maps hp !! p = Some m ->
  let last := bool_decide (mp_refs m - 1 = 0) in
  h_maps (Release p hp) =
    <[p := MkMapping (mp_hash m) (mp_file m) (if last then [] else mp_data m) (mp_refs m - 1)]> (h_maps hp) /\
  h_mapped (Release p hp) = h_mapped hp - (if last && bool_decide (mp_data m <> []) then 1 else 0) /\
  h_gone (Release p hp) = if last then h_gone hp ++ [p] else h_gone hp.
Proof.
  intros Hp last. subst last. unfold Release. rewrite Hp. cbn zeta. cbn [mp_refs set_refs].
  destruct (decide (mp_refs m - 1 = 0)) as [E|E].
  - rewrite (bool_decide_eq_false_2 (_ <> 0)), (bool_decide_eq_true_2 (_ = 0)) by lia. unfold run_release, unmap. cbn.
    case_bool_decide as Hd.
    + rewrite bool_decide_eq_false_2 by naive_solver. unfold set_refs. rewrite Hd. destruct release; cbn; (split; [done|]); split; (done || lia).
    + rewrite bool_decide_eq_true_2 by done. rewrite list_insert_insert_eq. by destruct release.
  - rewrite (bool_decide_eq_true_2 (_ <> 0)), (bool_decide_eq_false_2 (_ = 0)) by lia. cbn. split; [done|]. split; [lia|done].
Qed.

(** Dropping a reference. *)
Lemma hp_ok_Release hp p owners : hp_ok hp (p :: owners) -> hp_ok (Release p hp) owners.
Proof.
  intros Hok. assert (p ∈ p :: owners) as Hin by set_solver. destruct (hp_valid _ _ Hok p Hin) as [m Hp].
  pose proof (hp_refs _ _ Hok p m Hp) as Hr. rewrite occ_cons, decide_True in Hr by done.
  pose proof (hp_data _ _ Hok p m Hp) as Hd. rewrite decide_True in Hd by done.
  destruct (Release_eq p m hp Hp) as (Em & Ec & Eg).
  assert (p ∈ owners <-> mp_refs m - 1 <> 0) as Hl by (rewrite occ_in; lia).
  eapply (hp_ok_update hp _ p m _ (p :: owners)); [done|done|done| |exact Em|..]; cbn.
  - intros q Hq. rewrite occ_cons, decide_False by done. lia.
  - lia.
  - case_bool_decide; case_decide; try done; naive_solver.
  - rewrite Ec. case_bool_decide; cbn; [rewrite decide_False by naive_solver|]; repeat case_decide; repeat case_bool_decide; try done; lia.
  - rewrite Eg. case_bool_decide; case_decide; try done; naive_solver.
Qed.

(** ** Interleavings *)

(** How far the fill of a hash has come: started; its lookup found a mapping it
    has not acquired yet; it missed and is opening the file. *)
Inductive phase : Type := Started | Peeked (p : nat) | Missed.

(** The shared state, the references held by goroutines and readers, and the
    fills under way, at most one per hash. *)
Record conf : Type := MkConf {
  cf_cache : Cache XorbHash nat heap;
  cf_heap : heap;
  cf_holds : list nat;
  cf_fills : gmap XorbHash phase;
}.

(** The landing of a fill; the counter moves in the same step. *)
Definition land_step (h : XorbHash) (f : list byte) : xprog nat :=
  _ ← on_heap (if bool_decide (f = []) then id else count_mapped);
  land h f f.

Inductive step : conf -> conf -> Prop :=
  | step_os c hp os holds fills :
      step (MkConf c hp holds fills) (MkConf c (MkHeap (h_maps hp) (h_mapped hp) (h_gone hp) os) holds fills)
  | step_Get h r c hp c' hp' holds fills :
      Get h (c, hp) = (Ok r, (c', hp')) ->
      step (MkConf c hp holds fills) (MkConf c' hp' holds fills)
  | step_acquire p b c hp c' hp' holds fills :
      acquire p (c, hp) = (Ok b, (c', hp')) ->
      step (MkConf c hp holds fills) (MkConf c' hp' (if b then p :: holds else holds) fills)
  | step_Release p c hp holds holds' fills :
      holds ≡ₚ p :: holds' ->
      step (MkConf c hp holds fills) (MkConf c (Release p hp) holds' fills)
  | step_Remove h r c hp c' hp' holds fills :
      Remove h (c, hp) = (Ok r, (c', hp')) ->
      step (MkConf c hp holds fills) (MkConf c' hp' holds fills)
  | step_begin h c hp holds fills :
      fills !! h = None ->
      step (MkConf c hp holds fills) (MkConf c hp holds (<[h := Started]> fills))
  | step_peek h r c hp c' hp' holds fills :
      fills !! h = Some Started -> Get h (c, hp) = (Ok r, (c', hp')) ->
      step (MkConf c hp holds fills)
        (MkConf c' hp' holds (<[h := match r with Some p => Peeked p | None => Missed end]> fills))
  | step_check h p b c hp c' hp' holds fills :
      fills !! h = Some (Peeked p) -> acquire p (c, hp) = (Ok b, (c', hp')) ->
      step (MkConf c hp holds fills)
        (if b then MkConf c' hp' (p :: holds) (delete h fills) else MkConf c' hp' holds (<[h := Missed]> fills))
  | step_fail h c hp holds fills :
      fills !! h = Some Missed ->
      step (MkConf c hp holds fills) (MkConf c hp holds (delete h fills))
  | step_land h f p c hp c' hp' holds fills :
      fills !! h = Some Missed -> land_step h f (c, hp) = (Ok p, (c', hp')) ->
      step (MkConf c hp holds fills) (MkConf c' hp' (p :: holds) (delete h fills)).

(** The cached entry of a hash is a mapping of it. *)
Definition entry_valid (hp : heap) (kv : XorbHash * nat) : Prop :=
  exists m, h_maps hp !! kv.2 = Some m /\ mp_hash m = kv.1.

(** What is known while a fill is under way. *)
Definition phase_ok (hp : heap) (l : list (XorbHash * nat)) (h : XorbHash) (ph : phase) : Prop :=
  match ph with
  | Started => True
  | Peeked p => is_Some (h_maps hp !! p) /\ forall p', (h, p') ∈ l -> p' = p
  | Missed => h ∉ l.*1
  end.

Record inv (cf : conf) (l : list (XorbHash * nat)) : Prop := {
  inv_hook : c_OnEvicted (cf_cache cf) = Some on_evict;
  inv_lru : represents (cf_cache cf) l;
  inv_heap : hp_ok (cf_heap cf) (l.*2 ++ cf_holds cf);
  inv_hash : Forall (entry_valid (cf_heap cf)) l;
  inv_fills : forall h ph, cf_fills cf !! h = Some ph -> phase_ok (cf_heap cf) l h ph;
}.

(** ** The invariant *)

(** Mappings are never forgotten and never change their hash or their file. *)
Definition hp_ext (hp hp' : heap) : Prop :=
  forall p m, h_maps hp !! p = Some m ->
    exists m', h_maps hp' !! p = Some m' /\ mp_hash m' = mp_hash m /\ mp_file m' = mp_file m.

Lemma hp_ext_refl hp : hp_ext hp hp.
Proof. intros p m Hm. eauto. Qed.

Lemma hp_ext_trans hp1 hp2 hp3 : hp_ext hp1 hp2 -> hp_ext hp2 hp3 -> hp_ext hp1 hp3.
Proof. intros H1 H2 p m Hm. apply H1 in Hm as (m' & Hm & <- & <-). apply H2 in Hm as (m'' & ? & <- & <-). eauto. Qed.

Lemma hp_ext_insert hp hp' p m m' :
  h_maps hp !! p = Some m -> mp_hash m' = mp_hash m -> mp_file m' = mp_file m ->
  h_maps hp' = <[p := m']> (h_maps hp) -> hp_ext hp hp'.
Proof.
  intros Hp Hh Hf E q m0 Hq. rewrite E. destruct (decide (q = p)) as [->|Hne].
  - rewrite list_lookup_insert_eq by (by eapply lookup_lt_Some). eexists. split; [done|]. split; congruence.
  - rewrite list_lookup_insert_ne by done. eauto.
Qed.

Lemma Release_ext p hp : hp_ext hp (Release p hp).
Proof.
  destruct (h_maps hp !! p) as [m|] eqn:Hp.
  - destruct (Release_eq p m hp Hp) as (E & _). by eapply hp_ext_insert; [..|exact E].
  - unfold Release. rewrite Hp. apply hp_ext_refl.
Qed.

Lemma entry_valid_ext hp hp' kv : hp_ext hp hp' -> entry_valid hp kv -> entry_valid hp' kv.
Proof. intros He (m & Hm & Hh). apply He in Hm as (m' & Hm & Hh' & _). exists m'. split; [done|congruence]. Qed.

Lemma phase_ok_ext hp hp' l l' h ph :
  hp_ext hp hp' -> (forall kv, kv.1 = h -> kv ∈ l' -> kv ∈ l) -> phase_ok hp l h ph -> phase_ok hp' l' h ph.
Proof.
  intros He Hl. destruct ph as [|p|]; [done| |]; cbn.
  - intros [[m Hm] Hp]. split; [apply He in Hm as (m' & -> & _); done|]. intros p' Hp'. apply Hp. by apply Hl.
  - intros Hh. rewrite list_elem_of_fmap in *. intros (kv & -> & Hkv). destruct Hh. eauto.
Qed.

(** Running the hook on evicted entries drops their references. *)
Lemma run_evicted_ok kvs hp owners :
  hp_ok hp (kvs.*2 ++ owners) ->
  hp_ok (run_evicted (Some on_evict) kvs hp) owners /\ hp_ext hp (run_evicted (Some on_evict) kvs hp).
Proof.
  cbn. revert hp. induction kvs as [|[h p] kvs IH]; intros hp Hok; cbn; [by split; [|apply hp_ext_refl]|].
  apply hp_ok_Release in Hok. destruct (IH _ Hok) as [Hok' He]. split; [done|].
  eapply hp_ext_trans; [apply Release_ext|done].
Qed.

(** The parts of the invariant that a change of the cache or the heap touches. *)
Lemma inv_change c hp holds fills l c' hp' holds' fills' l' :
  inv (MkConf c hp holds fills) l ->
  c_OnEvicted c' = Some on_evict -> represents c' l' -> hp_ext hp hp' -> hp_ok hp' (l'.*2 ++ holds') ->
  (forall kv, kv ∈ l' -> kv ∈ l \/ entry_valid hp' kv /\ fills' !! kv.1 = None) ->
  (forall h ph, fills' !! h = Some ph -> fills !! h = Some ph \/ phase_ok hp' l' h ph) ->
  inv (MkConf c' hp' holds' fills') l'.
Proof.
  intros [I1 I2 I3 I4 I5] Hc R He Hok Hl Hf. cbn in *. constructor; cbn; try done.
  - apply list.Forall_forall. intros kv [Hkv|[? _]]%Hl; [|done].
    eapply entry_valid_ext; [done|]. by apply (proj1 (list.Forall_forall _ _) I4).
  - intros h ph Hh. destruct (Hf h ph Hh) as [Hh0|]; [|done]. eapply phase_ok_ext; [done| |by apply I5].
    intros kv <- [Hkv|[_ Hn]]%Hl; [done|congruence].
Qed.

Lemma Get_inv h r c hp c' hp' holds fills l :
  inv (MkConf c hp holds fills) l -> Get h (c, hp) = (Ok r, (c', hp')) ->
  hp' = hp /\ exists l', l' ≡ₚ l /\ r = find_key h l /\ inv (MkConf c' hp holds fills) l'.
Proof.
  intros I Hg. destruct (Get_ok c l h hp (inv_lru _ _ I)) as (c1 & E & Ho & _ & R').
  rewrite E in Hg. injection Hg as <- <- <-. split; [done|].
  pose proof (represents_keys _ _ (inv_lru _ _ I)) as Hnd.
  set (l' := match find_key h l with Some p => (h, p) :: drop_key h l | None => l end).
  exists l'. assert (l' ≡ₚ l) as Hp; [|split; [exact Hp|]].
  { subst l'. destruct (find_key h l) as [p|] eqn:Hf; [|done]. symmetry. by apply front_perm. }
  split; [done|]. eapply inv_change; [done|rewrite Ho; apply (inv_hook _ _ I)|exact R'|apply hp_ext_refl| | |].
  - eapply hp_ok_perm; [|apply (inv_heap _ _ I)]. cbn. by rewrite Hp.
  - intros kv. rewrite Hp. by left.
  - by left.
Qed.

Lemma acquire_inv p b c hp c' hp' holds fills l :
  inv (MkConf c hp holds fills) l -> acquire p (c, hp) = (Ok b, (c', hp')) ->
  c' = c /\ hp_ext hp hp' /\ inv (MkConf c hp' (if b then p :: holds else holds) fills) l /\
  (b = false -> p ∉ l.*2).
Proof.
  intros I Ha. unfold acquire in Ha. destruct (h_maps hp !! p) as [m|] eqn:Hp; [|done].
  pose proof (hp_refs _ _ (inv_heap _ _ I) p m Hp) as Hr. cbn in Hr.
  case_bool_decide as H0; injection Ha as <- <- <-.
  - split; [done|]. split; [apply hp_ext_refl|]. split; [done|]. intros _ Hin. rewrite Hr in H0.
    apply occ_0 in H0. set_solver.
  - split; [done|]. assert (hp_ext hp (set_mapping p (set_refs (mp_refs m + 1) m) hp)) as He.
    { by eapply (hp_ext_insert hp _ p m _ Hp); [| |reflexivity]. }
    split; [done|]. split; [|done]. eapply inv_change; [done|apply (inv_hook _ _ I)|apply (inv_lru _ _ I)|done| |by left|by left].
    eapply hp_ok_perm; [|eapply hp_ok_acquire; [apply (inv_heap _ _ I)|done|done]]. cbn. by rewrite <- Permutation_middle.
Qed.

Lemma Remove_inv h r c hp c' hp' holds fills l :
  inv (MkConf c hp holds fills) l -> Remove h (c, hp) = (Ok r, (c', hp')) ->
  inv (MkConf c' hp' holds fills) (drop_key h l).
Proof.
  intros I Hg. destruct (Remove_ok c l h hp (inv_lru _ _ I)) as (c1 & E & Ho & _ & R').
  rewrite E in Hg. injection Hg as _ <- <-. pose proof (inv_hook _ _ I) as Hk. cbn [cf_cache] in Hk. rewrite Hk in *.
  pose proof (represents_keys _ _ (inv_lru _ _ I)) as Hnd. cbn [cf_cache] in *.
  assert (forall kv, kv ∈ drop_key h l -> kv ∈ l) as Hsub by (intros kv; unfold drop_key; rewrite list_elem_of_filter; tauto).
  pose proof (inv_heap _ _ I) as Hok. cbn in Hok.
  destruct (find_key h l) as [p|] eqn:Hf.
  - assert (hp_ok hp ([(h, p)].*2 ++ ((drop_key h l).*2 ++ holds))) as Hok'.
    { eapply hp_ok_perm; [|exact Hok]. by rewrite (front_perm h p l Hnd Hf) at 1. }
    apply run_evicted_ok in Hok' as [Hok' He]. eapply inv_change; [done|done|done|done|done|by left; apply Hsub|by left].
  - eapply inv_change; [done|done|done|apply hp_ext_refl| |by left; apply Hsub|by left].
    by rewrite drop_key_fresh by (by apply find_key_None).
Qed.

(** A mapping made with two references. *)
Lemma hp_ok_new hp h f owners :
  hp_ok hp owners ->
  let p := length (h_maps hp) in
  hp_ok (MkHeap (h_maps hp ++ [MkMapping h f f 2]) (h_mapped hp + if bool_decide (f = []) then 0 else 1) (h_gone hp) (h_os hp))
    (p :: p :: owners).
Proof.
  intros [H1 H2 H3 H4 H5 H6] p. assert (h_maps hp !! p = None) as Hn by (apply lookup_ge_None; subst p; lia).
  assert (p ∉ owners) as Hp by (intros [m Hm]%H1; congruence).
  assert (forall q m, (h_maps hp ++ [MkMapping h f f 2]) !! q = Some m ->
    q = p /\ m = MkMapping h f f 2 \/ q <> p /\ h_maps hp !! q = Some m) as Hcase.
  { intros q m [Hq|[Hge Hq]]%lookup_app_Some; [right; split; [congruence|done]|].
    apply list_lookup_singleton_Some in Hq as [Hq <-]. left. split; [subst p; lia|done]. }
  constructor; cbn [h_maps h_mapped h_gone].
  - intros q [->|[->|Hq]%elem_of_cons]%elem_of_cons;
      [apply lookup_lt_is_Some; rewrite length_app; subst p; cbn; lia..|].
    apply H1 in Hq as [m Hm]. exists m. by apply lookup_app_l_Some.
  - intros q m [[-> ->]|[Hne Hm]]%Hcase; rewrite !occ_cons.
    + apply occ_0 in Hp. rewrite !decide_True by done. cbn. lia.
    + rewrite !decide_False by done. by rewrite (H2 q m).
  - intros q m [[-> ->]|[Hne Hm]]%Hcase; [rewrite decide_True by set_solver; done|].
    rewrite (H3 q m Hm). clear - Hne. do 2 case_decide; set_solver.
  - unfold backed in *. rewrite filter_app, len_app, H4, filter_cons, filter_nil. cbn.
    case_bool_decide; case_decide; try done; rewrite ?len_cons, ?len_nil; lia.
  - intros q. rewrite H5. split.
    + intros [[m Hm] Hq]. split; [exists m; by apply lookup_app_l_Some|]. assert (q <> p) by congruence. set_solver.
    + intros [[m [[-> _]|[Hne Hm]]%Hcase] Hq]; [set_solver|]. split; [done|]. set_solver.
  - done.
Qed.

(** Without a release hook, evictions leave the operating system alone. *)
Lemma Release_os p hp : release = None -> h_os (Release p hp) = h_os hp.
Proof.
  intros Hrel. unfold Release, run_release, unmap. rewrite Hrel. destruct (h_maps hp !! p); [|done]. cbn.
  repeat case_bool_decide; done.
Qed.

Lemma run_evicted_os kvs hp : release = None -> h_os (run_evicted (Some on_evict) kvs hp) = h_os hp.
Proof.
  intros Hrel. cbn. revert hp. induction kvs as [|[h p] kvs IH]; intros hp; [done|]. cbn. rewrite IH. by apply Release_os.
Qed.

Lemma land_inv h f p c hp c' hp' holds fills l :
  inv (MkConf c hp holds fills) l -> fills !! h = Some Missed -> land_step h f (c, hp) = (Ok p, (c', hp')) ->
  exists l', inv (MkConf c' hp' (p :: holds) (delete h fills)) l' /\ hp_ext hp hp' /\
    (forall kv, kv ∈ l' -> kv ∈ l \/ kv = (h, p)) /\
    (exists m, h_maps hp' !! p = Some m /\ mp_hash m = h /\ mp_file m = f) /\
    (release = None -> h_os hp' = h_os hp).
Proof.
  intros I Hm Hg. pose proof (inv_fills _ _ I h Missed Hm) as Hh. cbn in Hh.
  pose proof (inv_hook _ _ I) as Hk. cbn in Hk.
  set (hp1 := MkHeap (h_maps hp ++ [MkMapping h f f 2]) (h_mapped hp + if bool_decide (f = []) then 0 else 1) (h_gone hp) (h_os hp)).
  assert (land_step h f (c, hp) = (_ ← Add h (length (h_maps hp)); mret (length (h_maps hp))) (c, hp1)) as E.
  { unfold land_step, land, mbind, prog_bind, on_heap. subst hp1. case_bool_decide; cbn; [by rewrite Z.add_0_r|done]. }
  rewrite E in Hg. clear E. destruct (Add_ok c l h (length (h_maps hp)) hp1 (inv_lru _ _ I)) as (s' & E & R').
  rewrite (prog_bind_Ok _ _ _ _ _ E) in Hg. injection Hg as <- <- <-. clear E.
  rewrite drop_key_fresh in R' |- * by done. set (p := length (h_maps hp)) in *. rewrite Hk.
  set (l1 := (h, p) :: l) in *. exists (kept (c_MaxEntries c) l1).
  pose proof (hp_ok_new hp h f _ (inv_heap _ _ I)) as Hok. cbn zeta in Hok. fold hp1 p in Hok.
  pose proof (kept_dropped_perm (c_MaxEntries c) l1) as Hp.
  assert (hp_ext hp hp1) as He1.
  { intros q m Hq. exists m. split; [|done]. by apply lookup_app_l_Some. }
  destruct (run_evicted_ok (dropped (c_MaxEntries c) l1) hp1 ((kept (c_MaxEntries c) l1).*2 ++ p :: holds)) as [Hok' He'].
  { eapply hp_ok_perm; [|exact Hok]. rewrite app_assoc, <- fmap_app, <- Hp. cbn. by rewrite <- Permutation_middle. }
  assert (forall kv, kv ∈ kept (c_MaxEntries c) l1 -> kv ∈ l \/ kv = (h, p)) as Hsub.
  { intros kv Hkv. assert (kv ∈ l1) as Hin by (rewrite Hp; set_solver). apply elem_of_cons in Hin as [->|]; auto. }
  assert (h_maps hp1 !! p = Some (MkMapping h f f 2)) as Hnew by (cbn; by apply list_lookup_middle).
  split; [|split; [by eapply hp_ext_trans|split; [done|split]]].
  - eapply inv_change; [done|done|exact R'|by eapply hp_ext_trans|done| |].
    + intros kv [?| ->]%Hsub; [by left|right]. split; [|by rewrite lookup_delete_eq].
      eapply entry_valid_ext; [exact He'|]. by exists (MkMapping h f f 2).
    + intros h' ph [_ ?]%lookup_delete_Some. by left.
  - destruct (He' p _ Hnew) as (m & ? & ? & ?). eauto.
  - intros Hrel. by rewrite run_evicted_os.
Qed.

(** Whatever the operating system does in between. *)
Lemma inv_os c hp holds fills l os :
  inv (MkConf c hp holds fills) l -> inv (MkConf c (MkHeap (h_maps hp) (h_mapped hp) (h_gone hp) os) holds fills) l.
Proof. intros [I1 I2 I3 I4 I5]. constructor; try done. cbn in *. by destruct I3. Qed.

Lemma Release_inv p c hp holds fills l :
  inv (MkConf c hp (p :: holds) fills) l -> inv (MkConf c (Release p hp) holds fills) l.
Proof.
  intros I. eapply inv_change; [done|apply I|apply I|apply Release_ext| |by left|by left].
  apply hp_ok_Release. eapply hp_ok_perm; [|apply (inv_heap _ _ I)]. cbn. by rewrite <- Permutation_middle.
Qed.

Lemma inv_holds c hp holds holds' fills l :
  holds ≡ₚ holds' -> inv (MkConf c hp holds fills) l -> inv (MkConf c hp holds' fills) l.
Proof.
  intros Hh [I1 I2 I3 I4 I5]. constructor; try done. cbn in *. eapply hp_ok_perm; [|exact I3]. by rewrite Hh.
Qed.

(** Every step keeps the invariant. *)
Lemma step_inv cf cf' l : inv cf l -> step cf cf' -> exists l', inv cf' l'.
Proof.
  intros I Hs. destruct Hs.
  - exists l. by apply inv_os.
  - destruct (Get_inv _ _ _ _ _ _ _ _ _ I H0) as (-> & l' & _ & _ & I'). eauto.
  - destruct (acquire_inv _ _ _ _ _ _ _ _ _ I H0) as (-> & _ & I' & _). eauto.
  - exists l. eapply Release_inv, inv_holds, I. done.
  - eauto using Remove_inv.
  - exists l. eapply inv_change; [done|apply I|apply I|apply hp_ext_refl|apply I|by left|].
    intros h' ph. rewrite lookup_insert_Some. intros [[<- <-]|[_ ?]]; [by right|by left].
  - destruct (Get_inv _ _ _ _ _ _ _ _ _ I H1) as (-> & l' & Hp & -> & I'). exists l'.
    eapply inv_change; [exact I'|apply I'|apply I'|apply hp_ext_refl|apply I'|by left|].
    intros h' ph. rewrite lookup_insert_Some. intros [[<- <-]|[_ ?]]; [right|by left].
    pose proof (represents_keys _ _ (inv_lru _ _ I)) as Hnd. cbn [cf_cache] in Hnd.
    destruct (find_key h l) as [p|] eqn:Hf; cbn; [|rewrite Hp; by apply find_key_None].
    split; [|intros p'; rewrite Hp; intros Hin; apply find_key_Some in Hin; congruence].
    apply find_key_Some in Hf; [|done]. apply (hp_valid _ _ (inv_heap _ _ I)). apply elem_of_app. left.
    apply list_elem_of_fmap. by exists (h, p).
  - destruct (acquire_inv _ _ _ _ _ _ _ _ _ I H1) as (-> & He & I' & Hf). exists l. destruct b.
    + eapply inv_change; [exact I'|apply I'|apply I'|apply hp_ext_refl|apply I'|by left|].
      intros h' ph [_ ?]%lookup_delete_Some. by left.
    + eapply inv_change; [exact I'|apply I'|apply I'|apply hp_ext_refl|apply I'|by left|].
      intros h' ph. rewrite lookup_insert_Some. intros [[<- <-]|[_ ?]]; [right|by left].
      pose proof (inv_fills _ _ I' _ _ H0) as [_ Hph]. cbn. intros ([h0 p'] & -> & Hin)%list_elem_of_fmap.
      apply (Hf eq_refl). rewrite <- (Hph p' Hin). apply list_elem_of_fmap. by exists (h0, p').
  - exists l. eapply inv_change; [done|apply I|apply I|apply hp_ext_refl|apply I|by left|].
    intros h' ph [_ ?]%lookup_delete_Some. by left.
  - destruct (land_inv _ _ _ _ _ _ _ _ _ _ I H0 H1) as (l' & I' & _). eauto.
Qed.

(** A new cache with no mapping made. *)
Definition start (max : Z) (os : OS) : conf := MkConf (NewXorbmap max) (MkHeap [] 0 [] os) [] ∅.

Lemma start_inv max os : inv (start max os) [].
Proof.
  constructor; cbn; [done|apply rep_empty| |constructor|by intros h ph; rewrite lookup_empty].
  constructor; cbn; try done; try constructor; try set_solver.
  - intros [[? ?] ?]. done.
Qed.

Lemma steps_inv cf cf' : rtc step cf cf' -> (exists l, inv cf l) -> exists l, inv cf' l.
Proof. induction 1 as [|cf1 cf2 cf3 Hs _ IH]; [done|]. intros [l I]. by eapply IH, step_inv. Qed.

Lemma reachable_inv max os cf : rtc step (start max os) cf -> exists l, inv cf l.
Proof. intros Hr. eapply steps_inv; [done|]. eauto using start_inv. Qed.

(** What a goroutine that holds a mapping sees of it. *)
Definition intact (hp : heap) (p : nat) : Prop :=
  exists m, h_maps hp !! p = Some m /\ mp_refs m <> 0 /\ memory_of p hp = Ok (mp_file m).

Lemma inv_intact cf l p : inv cf l -> p ∈ cf_holds cf -> intact (cf_heap cf) p.
Proof.
  intros I Hp. pose proof (inv_heap _ _ I) as Hok. assert (p ∈ l.*2 ++ cf_holds cf) as Hin by set_solver.
  destruct (hp_valid _ _ Hok p Hin) as [m Hm]. exists m. split; [done|].
  split; [rewrite (hp_refs _ _ Hok p m Hm); by apply occ_in|]. unfold memory_of. rewrite Hm.
  pose proof (hp_data _ _ Hok p m Hm) as Hd. rewrite decide_True in Hd by done.
  rewrite bool_decide_eq_false_2 by (rewrite Hd; tauto). by rewrite Hd.
Qed.

(** C31: however the operations of any number of goroutines on a mapping cache
    interleave, with one fill per hash under way at a time: every mapping
    counts exactly the references of the cache and of its holders; what a
    holder reads is the file as it was opened, never unmapped memory; a mapping
    is unmapped exactly when its last reference goes, and once; a cached
    mapping is one of its hash; and the counter is the number of live mappings. *)
Theorem mappings_safe max os cf :
  rtc step (start max os) cf ->
  exists l, represents (cf_cache cf) l /\
    (forall p m, h_maps (cf_heap cf) !! p = Some m -> mp_refs m = occ p (l.*2) + occ p (cf_holds cf)) /\
    (forall p, p ∈ cf_holds cf -> intact (cf_heap cf) p) /\
    (forall p, p ∈ h_gone (cf_heap cf) <-> is_Some (h_maps (cf_heap cf) !! p) /\ (p ∉ l.*2) /\ (p ∉ cf_holds cf)) /\
    NoDup (h_gone (cf_heap cf)) /\
    Forall (entry_valid (cf_heap cf)) l /\
    h_mapped (cf_heap cf) = backed (h_maps (cf_heap cf)).
Proof.
  intros [l I]%reachable_inv. exists l. pose proof (inv_heap _ _ I) as Hok. split; [apply I|]. split; [|split].
  - intros p m Hp. rewrite (hp_refs _ _ Hok p m Hp). unfold occ. by rewrite filter_app, len_app.
  - intros p Hp. by eapply inv_intact.
  - split; [|split; [apply (hp_once _ _ Hok)|split; [apply I|apply (hp_mapped _ _ Hok)]]].
    intros p. rewrite (hp_gone _ _ Hok). by rewrite not_elem_of_app.
Qed.

(** ** The operations are made of these steps *)

Lemma acquire_total p c hp holds fills l :
  inv (MkConf c hp holds fills) l -> is_Some (h_maps hp !! p) ->
  exists b hp', acquire p (c, hp) = (Ok b, (c, hp')).
Proof. intros I [m Hm]. unfold acquire. rewrite Hm. case_bool_decide; eauto. Qed.

Lemma hit_steps h c hp holds fills l :
  inv (MkConf c hp holds fills) l ->
  exists r c' hp', hit h (c, hp) = (Ok r, (c', hp')) /\
    rtc step (MkConf c hp holds fills) (MkConf c' hp' (option_list r ++ holds) fills).
Proof.
  intros I. destruct (Get_ok c l h hp (inv_lru _ _ I)) as (c1 & E & _). unfold hit. rewrite (prog_bind_Ok _ _ _ _ _ E).
  assert (step (MkConf c hp holds fills) (MkConf c1 hp holds fills)) as S1 by (by eapply step_Get).
  destruct (find_key h l) as [p|] eqn:Hf; [|by eexists None, c1, hp; split; [|apply rtc_once]].
  assert (is_Some (h_maps hp !! p)) as Hp.
  { apply find_key_Some in Hf; [|eapply represents_keys, I]. apply (hp_valid _ _ (inv_heap _ _ I)).
    apply elem_of_app. left. apply list_elem_of_fmap. by exists (h, p). }
  destruct (Get_inv _ _ _ _ _ _ _ _ _ I E) as (_ & l1 & _ & _ & I1).
  destruct (acquire_total p c1 hp holds fills l1 I1 Hp) as (b & hp' & Ea). rewrite (prog_bind_Ok _ _ _ _ _ Ea).
  eexists _, c1, hp'. split; [done|]. eapply rtc_l; [exact S1|]. apply rtc_once.
  destruct b; exact (step_acquire _ _ _ _ _ _ _ _ Ea).
Qed.

Definition with_os (os : OS) (hp : heap) : heap := MkHeap (h_maps hp) (h_mapped hp) (h_gone hp) os.

Lemma on_os_eq {A} fmt (m : prog OS A) c hp :
  exists os, (exists e, prog_wrap fmt (on_os m) (c, hp) = (Err (Wrapf fmt e), (c, with_os os hp)) /\ m (h_os hp) = (Err e, os)) \/
    (exists a, prog_wrap fmt (on_os m) (c, hp) = (Ok a, (c, with_os os hp)) /\ m (h_os hp) = (Ok a, os)).
Proof.
  unfold prog_wrap, catch, on_os. destruct (m (h_os hp)) as [[a|e] os]; exists os; [right|left]; eauto.
Qed.

(** Mapping an open file either fails, having asked the operating system, or
    shows the bytes of the file and counts the mapping. *)
Lemma map_file_eq `{!XorbFilesLaws OS} f c hp :
  exists os, (exists e, map_file f (c, hp) = (Err e, (c, with_os os hp))) \/
    map_file f (c, hp) = (Ok f, (c, (if bool_decide (f = []) then id else count_mapped) (with_os os hp))).
Proof.
  unfold map_file. destruct (on_os_eq "stat xorb %s: %w" (xf_Stat f) c hp) as [os [(e & E & _)|(n & E & En)]].
  { exists os. left. unfold mbind, prog_bind. rewrite E. eauto. }
  rewrite (prog_bind_Ok _ _ _ _ _ E). apply xf_Stat_size in En as ->.
  destruct (Z.ltb_spec 0 (len f)) as [Hl|Hl].
  - destruct (on_os_eq "map xorb %s: %w" (xf_Map f) c (with_os os hp)) as [os' [(e & E' & _)|(d & E' & Ed)]]; exists os'.
    + left. unfold mbind, prog_bind. rewrite E'. eauto.
    + right. rewrite (prog_bind_Ok _ _ _ _ _ E'). apply xf_Map_bytes in Ed as ->.
      rewrite bool_decide_eq_false_2; [done|]. intros ->. by rewrite (@len_nil byte) in Hl.
  - exists os. right. assert (f = []) as -> by (apply len_0_nil; pose proof (len_nonneg f); lia). done.
Qed.

(** The lookup a fill starts with: it ends the fill or has missed. *)
Lemma fill_lookup h c hp holds fills l :
  inv (MkConf c hp holds fills) l -> fills !! h = None ->
  exists r c' hp', hit h (c, hp) = (Ok r, (c', hp')) /\
    rtc step (MkConf c hp holds fills)
      (match r with Some p => MkConf c' hp' (p :: holds) fills | None => MkConf c' hp' holds (<[h := Missed]> fills) end).
Proof.
  intros I Hn. destruct (Get_ok c l h hp (inv_lru _ _ I)) as (c1 & E & _). unfold hit. rewrite (prog_bind_Ok _ _ _ _ _ E).
  assert (step (MkConf c hp holds fills) (MkConf c hp holds (<[h := Started]> fills))) as S0 by (by apply step_begin).
  pose proof (step_peek h _ c hp c1 hp holds (<[h := Started]> fills) ltac:(by rewrite lookup_insert_eq) E) as S1.
  rewrite insert_insert_eq in S1.
  assert (exists l1, inv (MkConf c1 hp holds (<[h := match find_key h l with Some p => Peeked p | None => Missed end]> fills)) l1)
    as [l1 I1] by (eapply steps_inv; [eapply rtc_l; [exact S0|apply rtc_once, S1]|eauto]).
  destruct (find_key h l) as [p|] eqn:Hf.
  - destruct (inv_fills _ _ I1 h (Peeked p)) as [Hp _]; [apply lookup_insert_eq|].
    destruct (acquire_total p c1 hp _ _ _ I1 Hp) as (b & hp' & Ea). rewrite (prog_bind_Ok _ _ _ _ _ Ea).
    eexists _, c1, hp'. split; [done|]. eapply rtc_l; [exact S0|]. eapply rtc_l; [exact S1|]. apply rtc_once.
    pose proof (step_check h p b c1 hp c1 hp' holds (<[h := Peeked p]> fills) ltac:(apply lookup_insert_eq) Ea) as S2.
    destruct b; [by rewrite delete_insert_id in S2|by rewrite insert_insert_eq in S2].
  - eexists None, c1, hp. split; [done|]. eapply rtc_l; [exact S0|]. by apply rtc_once.
Qed.

Lemma land_total h f c hp l : represents c l ->
  exists p c' hp', land h f f (c, hp) = (Ok p, (c', hp')).
Proof.
  intros R. unfold land. set (hp1 := MkHeap _ _ _ _).
  destruct (Add_ok c l h (length (h_maps hp)) hp1 R) as (s' & E & _). rewrite (prog_bind_Ok _ _ _ _ _ E). by eexists _, _, _.
Qed.

(** [fill], stage by stage, for the goroutine that leads it: on success it
    holds the mapping it returns. *)
Lemma fill_steps `{!XorbFilesLaws OS} h c hp holds fills l :
  inv (MkConf c hp holds fills) l -> fills !! h = None ->
  exists r c' hp', fill h (c, hp) = (r, (c', hp')) /\
    rtc step (MkConf c hp holds fills)
      (MkConf c' hp' (match r with Ok p => p :: holds | Err _ => holds end) fills).
Proof.
  intros I Hn. destruct (fill_lookup h c hp holds fills l I Hn) as (r & c1 & hp1 & E & S1).
  unfold fill. rewrite (prog_bind_Ok _ _ _ _ _ E). destruct r as [p|]; [by eexists (Ok p), c1, hp1|].
  assert (delete h (<[h := Missed]> fills) = fills) as Hd by (by apply delete_insert_id).
  destruct (on_os_eq "open xorb %s: %w" (xf_open h) c1 hp1) as [os [(e & Eo & _)|(f & Eo & Ef)]].
  { eexists _, c1, _. split; [unfold mbind, prog_bind; by rewrite Eo|].
    etrans; [exact S1|]. eapply rtc_l; [apply (step_os c1 hp1 os)|]. apply rtc_once.
    rewrite <- Hd at 2. apply step_fail. by rewrite lookup_insert_eq. }
  rewrite (prog_bind_Ok _ _ _ _ _ Eo). unfold catch.
  destruct (map_file_eq f c1 (with_os os hp1)) as [os' [(e & Em)|Em]]; rewrite Em.
  - eexists _, c1, _. split; [done|]. etrans; [exact S1|]. unfold run_release.
    assert (exists os2, match release with Some g => with_os (g h os') hp1 | None => with_os os' hp1 end = with_os os2 hp1)
      as [os2 Eos] by (destruct release; eauto).
    eapply rtc_l; [apply (step_os c1 hp1 os2)|]. apply rtc_once. fold (with_os os2 hp1). rewrite <- Eos.
    rewrite <- Hd at 2. apply (step_fail h). by rewrite lookup_insert_eq.
  - destruct (steps_inv _ _ S1 ltac:(eauto)) as [l1 I1].
    set (hp2 := (if bool_decide (f = []) then id else count_mapped) (with_os os' (with_os os hp1))) in *.
    destruct (land_total h f c1 hp2 l1 (inv_lru _ _ I1)) as (p & c2 & hp3 & El). rewrite El.
    eexists (Ok p), c2, hp3. split; [done|]. etrans; [exact S1|].
    eapply rtc_l; [apply (step_os c1 hp1 os')|]. apply rtc_once. rewrite <- Hd at 2.
    apply (step_land h f); [by rewrite lookup_insert_eq|]. exact El.
Qed.

(** [Acquire] of the only goroutine: it returns a mapping it holds, or the
    error of its fill. *)
Lemma Acquire_steps `{!XorbFilesLaws OS} h c hp holds fills l :
  inv (MkConf c hp holds fills) l -> fills !! h = None ->
  exists r c' hp', Acquire [] h (c, hp) = (r, (c', hp')) /\
    rtc step (MkConf c hp holds fills)
      (MkConf c' hp' (match r with Ok p => p :: holds | Err _ => holds end) fills).
Proof.
  intros I Hn. destruct (hit_steps h c hp holds fills l I) as (r & c1 & hp1 & E & S1). cbn [Acquire].
  rewrite (prog_bind_Ok _ _ _ _ _ E). destruct r as [p|]; [by eexists (Ok p), c1, hp1|].
  destruct (steps_inv _ _ S1 ltac:(eauto)) as [l1 I1].
  destruct (fill_steps h c1 hp1 holds fills l1 I1 Hn) as (r & c2 & hp2 & -> & S2).
  eexists r, c2, hp2. split; [done|]. by etrans.
Qed.

(** ** One goroutine at a time *)

Lemma inv_start_fill c hp holds l h : inv (MkConf c hp holds ∅) l -> h ∉ l.*1 -> inv (MkConf c hp holds {[h := Missed]}) l.
Proof.
  intros [I1 I2 I3 I4 I5] Hh. constructor; try done. cbn in *. intros h' ph. rewrite lookup_singleton_Some. by intros [<- <-].
Qed.

(** A hit is a cached mapping of the hash: its holder is one more. *)
Lemma hit_ok h c hp holds l :
  inv (MkConf c hp holds ∅) l ->
  exists c' hp' l', hit h (c, hp) = (Ok (find_key h l), (c', hp')) /\ l' ≡ₚ l /\
    inv (MkConf c' hp' (option_list (find_key h l) ++ holds) ∅) l' /\ hp_ext hp hp' /\ h_os hp' = h_os hp.
Proof.
  intros I. destruct (Get_ok c l h hp (inv_lru _ _ I)) as (c1 & E & _). unfold hit. rewrite (prog_bind_Ok _ _ _ _ _ E).
  destruct (Get_inv _ _ _ _ _ _ _ _ _ I E) as (_ & l1 & Hp1 & _ & I1).
  destruct (find_key h l) as [p|] eqn:Hf; [|exists c1, hp, l1; split; [done|]; split; [done|]; split; [done|]; split; [apply hp_ext_refl|done]].
  assert (p ∈ l.*2) as Hp.
  { apply find_key_Some in Hf; [|eapply represents_keys, I]. apply list_elem_of_fmap. by exists (h, p). }
  assert (is_Some (h_maps hp !! p)) as Hs by (apply (hp_valid _ _ (inv_heap _ _ I)), elem_of_app; by left).
  destruct (acquire_total p c1 hp holds ∅ l1 I1 Hs) as (b & hp' & Ea). rewrite (prog_bind_Ok _ _ _ _ _ Ea).
  destruct (acquire_inv _ _ _ _ _ _ _ _ _ I1 Ea) as (_ & He & I2 & Hb).
  destruct b; [|exfalso; apply (Hb eq_refl); by rewrite Hp1].
  exists c1, hp', l1. split; [done|]. split; [done|]. split; [done|]. split; [done|].
  unfold acquire in Ea. destruct (h_maps hp !! p); [|done]. case_bool_decide; [done|]. by injection Ea as <-.
Qed.

(** [Remove] drops the cache's reference and nothing else. *)
Lemma xm_Remove_ok h c hp holds l :
  release = None -> inv (MkConf c hp holds ∅) l ->
  exists c' hp', xm_Remove h (c, hp) = (Ok tt, (c', hp')) /\ inv (MkConf c' hp' holds ∅) (drop_key h l) /\
    hp_ext hp hp' /\ h_os hp' = h_os hp.
Proof.
  intros Hrel I. destruct (Remove_ok c l h hp (inv_lru _ _ I)) as (c1 & E & _).
  pose proof (inv_hook _ _ I) as Hk. cbn in Hk. rewrite Hk in E.
  pose proof (Remove_inv _ _ _ _ _ _ _ _ _ I E) as I'. unfold xm_Remove. rewrite (prog_bind_Ok _ _ _ _ _ E).
  eexists c1, _. split; [done|]. split; [exact I'|]. destruct (find_key h l) as [p|] eqn:Hf; [|split; [apply hp_ext_refl|done]].
  split; [apply Release_ext|by apply Release_os].
Qed.

(** What a miss asks the operating system: open, size, map. *)
Definition sized_map (f : list byte) : prog OS (list byte) :=
  size ← prog_wrap "stat xorb %s: %w" (xf_Stat f);
  if 0 <? size then prog_wrap "map xorb %s: %w" (xf_Map f) else mret [].

Definition open_mapped (h : XorbHash) : prog OS (list byte) :=
  f ← prog_wrap "open xorb %s: %w" (xf_open h); sized_map f.

Lemma on_os_wrap {A} fmt (m : prog OS A) c hp :
  prog_wrap fmt (on_os m) (c, hp) =
    ((prog_wrap fmt m (h_os hp)).1, (c, with_os (prog_wrap fmt m (h_os hp)).2 hp)).
Proof. unfold prog_wrap, catch, on_os. by destruct (m (h_os hp)) as [[a|e] os]. Qed.

Lemma map_file_os `{!XorbFilesLaws OS} f c hp :
  let '(r, os) := sized_map f (h_os hp) in
  match r with
  | Ok d => d = f /\ map_file f (c, hp) = (Ok f, (c, (if bool_decide (f = []) then id else count_mapped) (with_os os hp)))
  | Err e => map_file f (c, hp) = (Err e, (c, with_os os hp))
  end.
Proof.
  unfold map_file, sized_map, mbind, prog_bind. rewrite on_os_wrap.
  destruct (prog_wrap "stat xorb %s: %w" (xf_Stat f) (h_os hp)) as [[n|e] os] eqn:Es; cbn [fst snd]; [|done].
  apply prog_wrap_Ok, xf_Stat_size in Es as ->. destruct (Z.ltb_spec 0 (len f)) as [Hl|Hl].
  - rewrite on_os_wrap. cbn [h_os with_os]. destruct (prog_wrap "map xorb %s: %w" (xf_Map f) os) as [[d|e] os'] eqn:Em; cbn [fst snd]; [|done].
    apply prog_wrap_Ok, xf_Map_bytes in Em as ->. split; [done|].
    rewrite bool_decide_eq_false_2; [done|]. intros ->. by rewrite (@len_nil byte) in Hl.
  - assert (f = []) as -> by (apply len_0_nil; pose proof (len_nonneg f); lia). done.
Qed.

(** [Acquire] by the only goroutine, on a cache without a release hook. *)
Lemma Acquire_ok `{!XorbFilesLaws OS} h c hp holds l :
  release = None -> inv (MkConf c hp holds ∅) l ->
  exists r c' hp' l', Acquire [] h (c, hp) = (r, (c', hp')) /\ hp_ext hp hp' /\
    inv (MkConf c' hp' (match r with Ok p => p :: holds | Err _ => holds end) ∅) l' /\
    match find_key h l with
    | Some p => r = Ok p /\ h_os hp' = h_os hp /\ l' ≡ₚ l
    | None =>
        h_os hp' = (open_mapped h (h_os hp)).2 /\
        match (open_mapped h (h_os hp)).1 with
        | Err e => r = Err e /\ l' ≡ₚ l
        | Ok f => exists p m, r = Ok p /\ h_maps hp' !! p = Some m /\ mp_hash m = h /\ mp_file m = f /\
            forall kv, kv ∈ l' -> kv ∈ l \/ kv = (h, p)
        end
    end.
Proof.
  intros Hrel I. destruct (hit_ok h c hp holds l I) as (c1 & hp1 & l1 & E1 & Hp1 & I1 & He1 & Ho1).
  cbn [Acquire]. rewrite (prog_bind_Ok _ _ _ _ _ E1). destruct (find_key h l) as [p|] eqn:Hf.
  { exists (Ok p), c1, hp1, l1. done. }
  cbn [option_list app] in I1. destruct (hit_ok h c1 hp1 holds l1 I1) as (c2 & hp2 & l2 & E2 & Hp2 & I2 & He2 & Ho2).
  assert (find_key h l1 = None) as Hf1 by (rewrite find_key_None in *; by rewrite Hp1).
  rewrite Hf1 in E2, I2. cbn [option_list app] in I2. unfold fill. rewrite (prog_bind_Ok _ _ _ _ _ E2). cbn beta iota.
  rewrite <- Ho1, <- Ho2. assert (l2 ≡ₚ l) as Hp by (by rewrite Hp2). assert (hp_ext hp hp2) as He by (by eapply hp_ext_trans).
  destruct (prog_wrap "open xorb %s: %w" (xf_open h) (h_os hp2)) as [[f|e] os] eqn:Eo.
  2: { assert (open_mapped h (h_os hp2) = (Err e, os)) as -> by (unfold open_mapped, mbind, prog_bind; by rewrite Eo).
       unfold mbind, prog_bind. rewrite on_os_wrap, Eo. exists (Err e), c2, (with_os os hp2), l2.
       split; [done|]. split; [done|]. split; [by apply inv_os|done]. }
  assert (open_mapped h (h_os hp2) = sized_map f os) as -> by (unfold open_mapped; by rewrite (prog_bind_Ok _ _ _ _ _ Eo)).
  assert (prog_wrap "open xorb %s: %w" (on_os (xf_open h)) (c2, hp2) = (Ok f, (c2, with_os os hp2))) as Eo2 by (by rewrite on_os_wrap, Eo).
  rewrite (prog_bind_Ok _ _ _ _ _ Eo2). pose proof (map_file_os f c2 (with_os os hp2)) as Hm. cbn [h_os with_os] in Hm.
  destruct (sized_map f os) as [[d|e] os'] eqn:Ed; unfold catch; cbn [fst snd].
  - destruct Hm as [-> ->]. set (hp3 := with_os os' hp2).
    assert (inv (MkConf c2 hp3 holds {[h := Missed]}) l2) as I3.
    { apply inv_start_fill; [|rewrite find_key_None in Hf; by rewrite Hp]. by apply inv_os. }
    destruct (land_total h f c2 ((if bool_decide (f = []) then id else count_mapped) hp3) l2 (inv_lru _ _ I3)) as (p & c4 & hp4 & El).
    destruct (land_inv h f p c2 hp3 c4 hp4 holds _ l2 I3 ltac:(apply lookup_singleton_eq) El) as (l' & I4 & He4 & Hsub & (m & Hm1 & Hm2 & Hm3) & Hos).
    rewrite delete_singleton_eq in I4. exists (Ok p), c4, hp4, l'. split; [exact El|].
    split; [by eapply hp_ext_trans|]. split; [done|]. split; [by rewrite (Hos Hrel)|].
    exists p, m. split; [done|]. split; [done|]. split; [done|]. split; [done|]. intros kv. rewrite <- Hp. apply Hsub.
  - rewrite Hm. unfold run_release. rewrite Hrel. exists (Err e), c2, (with_os os' hp2), l2.
    split; [done|]. split; [done|]. split; [by apply inv_os|done].
Qed.
End xorbmap.

(** A file system in which every xorb is the same two bytes. *)
Definition two_bytes : list byte := [Byte.x01; Byte.x02].

#[local] Instance two_bytes_files : XorbFiles unit := {|
  xf_open _ := mret two_bytes;
  xf_Stat f := mret (len f);
  xf_Map f := mret f;
|}.

#[local] Instance two_bytes_laws : XorbFilesLaws unit.
Proof. split; by intros ? ? ? ? [= <- <-]. Qed.

(** One xorb acquired and still held. *)
Definition held_state : Cache XorbHash nat heap * heap :=
  (Acquire None [] zeroHash (NewXorbmap None 1, MkHeap [] 0 [] tt)).2.
Definition held_conf : conf := MkConf held_state.1 held_state.2 [0%nat] ∅.

Lemma held_reachable : rtc (step None) (start None 1 tt) held_conf.
Proof.
  destruct (Acquire_steps None zeroHash _ _ _ _ _ (start_inv None 1 tt) (lookup_empty zeroHash)) as (r & c & hp & E & S).
  unfold held_conf, held_state. rewrite E. assert (r = Ok 0%nat) as ->; [|exact S].
  change r with (r, (c, hp)).1. rewrite <- E. vm_compute. reflexivity.
Qed.

Lemma mappings_safe_witness :
  rtc (step None) (start None 1 tt) held_conf /\ cf_holds held_conf = [0%nat] /\
  h_mapped (cf_heap held_conf) = 1 /\
  exists l, represents (cf_cache held_conf) l /\
    (forall p, p ∈ cf_holds held_conf -> intact (cf_heap held_conf) p) /\
    h_mapped (cf_heap held_conf) = backed (h_maps (cf_heap held_conf)).
Proof.
  split; [exact held_reachable|]. split; [reflexivity|]. split; [vm_compute; reflexivity|].
  destruct (mappings_safe None 1 tt held_conf held_reachable) as (l & H1 & _ & H3 & _ & _ & _ & H7).
  exists l. split; [exact H1|]. split; [exact H3|exact H7].
Defined.
