(* ===== verification/Storage.v ===== *)
(** * The storage contract: [storage/storage.go], [storage/object.go]

    The Go interface [storage.Storage] is the class [Storage] of its methods; the
    class [StorageLaws] states what the packages above it rely on, through the
    one observation [obj_at] (the object stored under a kind and a name).  The
    in-memory backend is an instance of both, and the garbage collector is
    verified against the interface alone. *)

From Stdlib Require Import ZArith Lia Strings.Byte Strings.String.
From S2P Require Import Prelude Prog Hash Sha256 XorbOffsets Shard ShardCodec.

(** ** Stored objects *)

(** One stored blob. *)
Record object : Type := MkObject { o_data : list byte; o_modTime : Z }.

(** What a walk over objects reports: size and modification time. *)
Definition obj_info (o : object) : Z * Z := (len (o_data o), o_modTime o).

Definition kXorbs : gostring := str "xorbs".
Definition kShards : gostring := str "shards".
Definition kFiles : gostring := str "index/files".
Definition kChunks : gostring := str "index/chunks".
Definition kSHA256 : gostring := str "index/sha256".

(** [hex.EncodeToString]. *)
Definition hex_encode (b : list byte) : gostring :=
  b ≫= fun x => [digit_char (b2z x / 16); digit_char (b2z x mod 16)].

(** [SHA256Hash.String]. *)
Definition SHA256Hash_String (h : SHA256Hash) : gostring := hex_encode h.

(** [ObjectKey]: the two-level fanout key of a hash-named object. *)
Definition ObjectKey (kind name : gostring) : gostring :=
  if len name <=? 4 then kind ++ str "/" ++ name
  else kind ++ str "/" ++ slice 0 2 name ++ str "/" ++ slice 2 4 name ++ str "/" ++ drop 4 name.

Definition shardHeaderSize : Z := 48.

(** [DecodeStoredShard]: the header is read first for its [FooterSize] and
    decoded again in front of the rest. *)
Definition DecodeStoredShard (r : reader) : result Shard :=
  '(header, r) ← read_or "read shard header: %w" shardHeaderSize r;
  let withFooter := negb (le_val (slice 40 48 header) =? 0) in
  '((s, _), _) ← Shard_decode (fun st (_ : CASBlock) => Ok st) None withFooter tt
    (Reader (header ++ rdata r) (rend r));
  Ok s.

(** [io.ReadAll] on a shard reader, in pieces of 512 bytes; every piece but the
    last makes progress. *)
Fixpoint ReadAll (fuel : nat) (r : shardReader) (acc : list byte) : result (list byte) :=
  match fuel with
  | O => Err (Panic "out of fuel")
  | S fuel =>
      match shardReader_Read 512 r with
      | (got, None, r) => ReadAll fuel r (acc ++ got)
      | (got, Some e, r) => if bool_decide (e = EOF) then Ok (acc ++ got) else Err e
      end
  end.

(** [EncodeShard]: the footerless serialization and the name it is stored
    under, the hex SHA-256 of its bytes. *)
Definition EncodeShard (now : Z) (s : Shard) : result (list byte * gostring) :=
  data ← ReadAll (S (length (encoded now s false))) (Encode now s false) [];
  Ok (data, hex_encode (Sum256 data)).

Lemma ReadAll_sending s wf f fuel i r rem acc :
  len (concat (secs s wf)) + len (foot s wf f) < 2 ^ 63 ->
  sending s wf f i r rem -> (length rem < fuel)%nat -> ReadAll fuel r acc = Ok (acc ++ rem).
Proof.
  intros Hsm. revert i r rem acc. induction fuel as [|fuel IH]; intros i r rem acc Hs Hl; [lia|].
  cbn [ReadAll]. destruct (Read_delivers s wf f Hsm 512 i r rem) as (r' & i' & -> & Hs'); [lia|done|].
  case_bool_decide as Hr.
  - destruct Hr as [_ ->]. by rewrite bool_decide_eq_true_2.
  - erewrite IH; [|exact Hs'|].
    + by rewrite <- app_assoc, take_drop.
    + assert (rem <> []) as Hne by naive_solver lia. destruct rem as [|b rem]; [done|].
      rewrite length_drop. cbn [length] in *. lia.
Qed.

(** The stored bytes are the serialization, whatever the clock says. *)
Lemma EncodeShard_eq now s :
  len (encoded 0 s false) < 2 ^ 63 ->
  EncodeShard now s = Ok (encoded 0 s false, hex_encode (Sum256 (encoded 0 s false))).
Proof.
  change (encoded 0 s false) with (encoded now s false). unfold EncodeShard. rewrite encoded_eq, len_app.
  set (f := match s_Footer s with Some f => f | None => newFooter s now end). intros Hsm.
  erewrite (ReadAll_sending s false f _ 0); [done|done| |].
  - constructor; cbn; try done; try lia. left. repeat split; done.
  - lia.
Qed.

(** [ReadXorbChunkOffsets]. *)
Definition ReadXorbChunkOffsets (data : list byte) : result (list Z) :=
  match ReadChunkOffsets data with
  | Err e => if errors_Is e ErrNoFooter then ScanChunkOffsets data else Err e
  | Ok offsets => Ok offsets
  end.

(** ** The interface *)

(** [storage.Storage].  [ctx_Err] and [time_Now] are the context and the clock
    every caller shares; a seekable reader is the bytes it reads; the callback
    of a walk threads an accumulator through the store.  [XorbStore] is the
    part that reads xorbs, which [PutShard] itself uses. *)
Class XorbStore (S : Type) : Type := {
  ctx_Err : prog S unit;
  GetXorbReadSeekCloser : XorbHash -> prog S (list byte);
  GetXorbChunkOffsets : XorbHash -> prog S (list Z);
}.

Class Storage (S : Type) : Type := {
  storage_xorbs :: XorbStore S;
  time_Now : prog S Z;
  PutXorb : XorbHash -> reader -> prog S bool;
  HasXorb : XorbHash -> prog S bool;
  GetXorbURL : XorbHash -> prog S gostring;
  WalkXorbs : forall A, (gostring -> Z * Z -> A -> prog S A) -> A -> prog S A;
  DeleteXorb : XorbHash -> prog S unit;
  PutShard : Shard -> prog S bool;
  GetShard : FileHash -> prog S Shard;
  GetShardByChunkHash : ChunkHash -> prog S Shard;
  GetShardByHash : gostring -> prog S Shard;
  LoadShard : gostring -> prog S Shard;
  WalkShards : forall A, (gostring -> Z * Z -> A -> prog S A) -> A -> prog S A;
  DeleteShard : gostring -> prog S unit;
  GetShardBySHA256 : SHA256Hash -> prog S Shard;
  GetFileHashBySHA256 : SHA256Hash -> prog S FileHash;
  WalkFileIndex : forall A, (gostring -> gostring -> A -> prog S A) -> A -> prog S A;
  GetFileIndexEntry : FileHash -> prog S gostring;
  DeleteFileIndexEntry : FileHash -> prog S bool;
  GetChunkIndexEntry : ChunkHash -> prog S gostring;
  DeleteChunkIndexEntry : ChunkHash -> prog S unit;
  WalkSHA256Index : forall A, (gostring -> gostring -> A -> prog S A) -> A -> prog S A;
  GetSHA256IndexEntry : gostring -> prog S gostring;
  DeleteSHA256IndexEntry : gostring -> prog S bool;
}.
Arguments WalkXorbs {S _ A} _ _ _.
Arguments WalkShards {S _ A} _ _ _.
Arguments WalkFileIndex {S _ A} _ _ _.
Arguments WalkSHA256Index {S _ A} _ _ _.

(** What the index entry of an absent object reads as: the empty string. *)
Definition entry_data (o : option object) : gostring :=
  match o with Some o => o_data o | None => [] end.

Section laws.
Context {S : Type} (obj_at : S -> gostring -> gostring -> option object).

(** The stored objects are the same. *)
Definition same (s s' : S) : Prop := forall k n, obj_at s' k n = obj_at s k n.

(** Nothing but, possibly, one object was removed. *)
Definition only_drops (kind name : gostring) (s s' : S) : Prop :=
  forall k n, obj_at s' k n = obj_at s k n \/ (k, n) = (kind, name) /\ obj_at s' k n = None.

Definition reads {A} (m : prog S A) (R : S -> A -> Prop) : Prop :=
  forall s, same s (m s).2 /\ forall a, (m s).1 = Ok a -> R s a.

Definition deletes {A} (kind name : gostring) (m : prog S A) : Prop :=
  forall s, only_drops kind name s (m s).2 /\ forall a, (m s).1 = Ok a -> obj_at (m s).2 kind name = None.

(** A callback that does not change what is stored. *)
Definition looks {X A} (fn : gostring -> X -> A -> prog S A) : Prop := forall n x a s, same s (fn n x a s).2.

(** A walk with such a callback visits every object of a kind once, unless it
    fails; a backend may list the objects as it goes. *)
Definition walks {X} (kind : gostring) (info : object -> X)
    (walk : forall A, (gostring -> X -> A -> prog S A) -> A -> prog S A) : Prop :=
  forall A (fn : gostring -> X -> A -> prog S A) (P : list gostring -> A -> S -> Prop) (E : S -> Prop) acc s,
    (forall seen a s1 s2, same s1 s2 -> P seen a s1 -> P seen a s2) ->
    (forall seen a s1, P seen a s1 -> E s1) ->
    looks fn ->
    P [] acc s ->
    (forall seen n o a, n ∉ seen -> obj_at s kind n = Some o ->
      triple (P seen a) (fn n (info o) a) (P (seen ++ [n])) E) ->
    match walk A fn acc s with
    | (Ok a, s') => exists seen, (forall n, n ∈ seen <-> is_Some (obj_at s kind n)) /\ P seen a s'
    | (Err _, s') => E s'
    end.
End laws.

(** A stored shard that decodes. *)
Definition decodes (o : object) (sh : Shard) : Prop :=
  DecodeStoredShard (file_reader (o_data o)) = Ok sh.

(** What the callers of a backend rely on. *)
Class StorageLaws (S : Type) `{Storage S} : Type := {
  obj_at : S -> gostring -> gostring -> option object;
  law_ctx_Err : reads obj_at ctx_Err (fun _ _ => True);
  law_time_Now : reads obj_at time_Now (fun _ _ => True);
  law_GetFileIndexEntry h :
    reads obj_at (GetFileIndexEntry h) (fun s v => v = entry_data (obj_at s kFiles (formatHash h)));
  law_GetChunkIndexEntry h :
    reads obj_at (GetChunkIndexEntry h) (fun s v => v = entry_data (obj_at s kChunks (formatHash h)));
  law_GetSHA256IndexEntry n :
    reads obj_at (GetSHA256IndexEntry n) (fun s v => v = entry_data (obj_at s kSHA256 n));
  law_DeleteFileIndexEntry h : deletes obj_at kFiles (formatHash h) (DeleteFileIndexEntry h);
  law_DeleteChunkIndexEntry h : deletes obj_at kChunks (formatHash h) (DeleteChunkIndexEntry h);
  law_DeleteSHA256IndexEntry n : deletes obj_at kSHA256 n (DeleteSHA256IndexEntry n);
  law_DeleteShard n : deletes obj_at kShards n (DeleteShard n);
  law_DeleteXorb h : deletes obj_at kXorbs (formatHash h) (DeleteXorb h);
  (** A loaded shard is the stored one, up to the footer the backend adds; a
      shard reported absent has no stored object that decodes. *)
  law_LoadShard n :
    reads obj_at (LoadShard n) (fun s sh => exists o sh0, obj_at s kShards n = Some o /\
      decodes o sh0 /\ s_Files sh = s_Files sh0 /\ s_CASInfos sh = s_CASInfos sh0);
  law_LoadShard_absent n s e : (LoadShard n s).1 = Err e -> errors_Is e ErrNotExist = true ->
    forall o sh, obj_at s kShards n = Some o -> ~ decodes o sh;
  law_WalkFileIndex : walks obj_at kFiles o_data (@WalkFileIndex S _);
  law_WalkSHA256Index : walks obj_at kSHA256 o_data (@WalkSHA256Index S _);
  law_WalkShards : walks obj_at kShards obj_info (@WalkShards S _);
  law_WalkXorbs : walks obj_at kXorbs obj_info (@WalkXorbs S _);
}.
