(* ===== verification/FileSystem.v ===== *)
(** * A file system for the local backend

    The parts of [os], [path/filepath], [strings] and [encoding/hex] that
    [storage/local/local.go] uses, over a map from paths to files.  A path is
    the list of its components.  Every call may fail with an I/O error, as an
    environment decides; the clock, the random part of temporary names and the
    context are the environment's too.  Directories are implicit, and paths
    that name a directory are not modelled: the backend only opens hash-named
    files. *)

From Stdlib Require Import ZArith Lia Strings.Byte Strings.String.
From S2P Require Import Prelude Prog Hash Sha256 XorbOffsets Shard ShardCodec Storage.

(** ** Paths *)

Abbreviation path := (list gostring).

Definition slash : byte := "/".

(** The components of a slash-separated string. *)
Fixpoint split_path (s : gostring) : path :=
  match s with
  | [] => [[]]
  | c :: s =>
      match split_path s with
      | [] => [[c]]
      | comp :: comps => if bool_decide (c = slash) then [] :: comp :: comps else (c :: comp) :: comps
      end
  end.

(** [filepath.Clean] over components: [stack] is the cleaned prefix, last
    component first. *)
Fixpoint clean (rooted : bool) (stack : path) (comps : path) : path :=
  match comps with
  | [] => stack
  | c :: comps =>
      clean rooted
        (if bool_decide (c = [] \/ c = str ".") then stack
         else if bool_decide (c = str "..") then
           match stack with
           | [] => if rooted then [] else [c]
           | top :: rest => if bool_decide (top = str "..") then c :: stack else rest
           end
         else c :: stack) comps
  end.

(** [filepath.Join(base, filepath.FromSlash(key))], for a clean [base]. *)
Definition Join (rooted : bool) (base : path) (key : gostring) : path :=
  reverse (clean rooted (reverse base) (split_path key)).

(** [filepath.Dir] of a file. *)
Definition Dir (p : path) : path := removelast p.

(** A component that [clean] keeps. *)
Definition plain (c : gostring) : Prop := c <> [] /\ c <> str "." /\ c <> str ".." /\ slash ∉ c.

Lemma split_app a b : split_path (a ++ slash :: b) = split_path a ++ split_path b.
Proof.
  assert (forall s, split_path s <> []) as Hne.
  { intros [|c s]; cbn; [done|]. destruct (split_path s); [done|]. by case_bool_decide. }
  induction a as [|c a IH]; cbn [app split_path].
  - destruct (split_path b) eqn:E; [by destruct (Hne b)|]. by rewrite bool_decide_eq_true_2.
  - rewrite IH. destruct (split_path a) eqn:E; [by destruct (Hne a)|]. cbn. by case_bool_decide.
Qed.

Lemma split_single a : slash ∉ a -> split_path a = [a].
Proof.
  induction a as [|c a IH]; [done|]. intros Hs. apply not_elem_of_cons in Hs as [Hc Ha]. cbn. rewrite IH by done.
  by rewrite bool_decide_eq_false_2.
Qed.

Lemma clean_plain rooted stack comps : Forall plain comps -> clean rooted stack comps = reverse comps ++ stack.
Proof.
  intros Hp. revert stack. induction Hp as [|c comps (H1 & H2 & H3 & _) _ IH]; intros stack; cbn [clean]; [done|].
  rewrite bool_decide_eq_false_2 by naive_solver. rewrite bool_decide_eq_false_2 by done.
  by rewrite IH, reverse_cons, <- app_assoc.
Qed.

Lemma Join_plain rooted base key : Forall plain (split_path key) -> Join rooted base key = base ++ split_path key.
Proof. intros Hp. unfold Join. by rewrite clean_plain, reverse_app, !reverse_involutive. Qed.

(** ** Hash names *)

(** [hex.DecodeString]. *)
Fixpoint hex_decode (s : gostring) : option (list byte) :=
  match s with
  | [] => Some []
  | [_] => None
  | a :: b :: s =>
      match digit_val a, digit_val b, hex_decode s with
      | Some x, Some y, Some l => if (x <? 16) && (y <? 16) then Some (z2b (16 * x + y) :: l) else None
      | _, _, _ => None
      end
  end.

(** The names a walk reports. *)
Definition hash_name (n : gostring) : bool := (len n =? 64) && bool_decide (is_Some (hex_decode n)).

Lemma hex_char_digit d : 0 <= d < 16 -> digit_val (digit_char d) = Some d.
Proof. apply digit_val_char. Qed.

Lemma hex_decode_encode b : hex_decode (hex_encode b) = Some b.
Proof.
  induction b as [|x b IH]; [done|]. pose proof (b2z_range x).
  change (hex_encode (x :: b)) with (digit_char (b2z x / 16) :: digit_char (b2z x mod 16) :: hex_encode b). cbn [hex_decode].
  rewrite !hex_char_digit by (split; [apply Z.div_pos || apply Z.mod_pos_bound; lia|apply Z.div_lt_upper_bound || apply Z.mod_pos_bound; lia]).
  rewrite IH. destruct (Z.ltb_spec (b2z x / 16) 16) as [|Hge]; [|assert (b2z x / 16 < 16) by (apply Z.div_lt_upper_bound; lia); lia].
  destruct (Z.ltb_spec (b2z x mod 16) 16) as [|Hge]; [|pose proof (Z.mod_pos_bound (b2z x) 16); lia]. cbn.
  do 2 f_equal. rewrite <- (Z.div_mod (b2z x) 16) by lia. apply z2b_b2z.
Qed.

Lemma length_hex_encode b : length (hex_encode b) = (2 * length b)%nat.
Proof. unfold hex_encode. induction b as [|x b IH]; [done|]. cbn in *. rewrite IH. lia. Qed.

(** ** [strings.TrimSpace] *)

(** The white space of Unicode, as UTF-8. *)
Definition spaces : list (list byte) :=
  map (fun n => [z2b n]) [9; 10; 11; 12; 13; 32] ++
  map (map z2b) ([[194; 133]; [194; 160]; [225; 154; 128]; [226; 128; 168]; [226; 128; 169]; [226; 128; 175];
                  [226; 129; 159]; [227; 128; 128]] ++ map (fun n => [226; 128; n]) (seqZ 128 11)).

Definition starts_with (p s : list byte) : bool := bool_decide (take (length p) s = p).

(** Drop leading sequences of [sps]; each turn shortens the string. *)
Fixpoint trim_left (fuel : nat) (sps : list (list byte)) (s : gostring) : gostring :=
  match fuel with
  | O => s
  | S fuel =>
      match find (fun p => starts_with p s) sps with
      | Some p => trim_left fuel sps (drop (length p) s)
      | None => s
      end
  end.

Definition TrimSpace (s : gostring) : gostring :=
  let s := trim_left (length s) spaces s in
  reverse (trim_left (length s) (map reverse spaces) (reverse s)).

(** ** The file system *)

(** What the environment answers: the clock, the random part of temporary
    names and the context, call by call. *)
Record fs_environment : Type := FsEnv {
  fe_now : nat -> Z;
  fe_temp : nat -> gostring;
  fe_ctx : nat -> option error;
}.

(** [fs_faults] says which of the calls to come fail; each call takes the head
    of it.  [fs_base] is the backend's base directory. *)
Record fsys : Type := MkFs {
  fs_base : path;
  fs_rooted : bool;
  fs_files : gmap path object;
  fs_env : fs_environment;
  fs_clock : nat;
  fs_temps : nat;
  fs_ctxs : nat;
  fs_faults : nat -> bool;
}.

(** No call fails. *)
Definition quiet (s : fsys) : Prop := fs_faults s = fun _ => false.

Definition set_files (files : gmap path object) (s : fsys) : fsys :=
  MkFs (fs_base s) (fs_rooted s) files (fs_env s) (fs_clock s) (fs_temps s) (fs_ctxs s) (fs_faults s).

Definition ErrIO : error := Errorf "input/output error".

(** A system call that may fail. *)
Definition os_call {A} (m : prog fsys A) : prog fsys A := fun s =>
  let failed := fs_faults s O in
  let s := MkFs (fs_base s) (fs_rooted s) (fs_files s) (fs_env s) (fs_clock s) (fs_temps s) (fs_ctxs s)
             (fun n => fs_faults s (S n)) in
  if failed then (Err ErrIO, s) else m s.

(** [time.Now()] as the file system takes it. *)
Definition os_now : prog fsys Z := fun s =>
  (Ok (fe_now (fs_env s) (fs_clock s)),
   MkFs (fs_base s) (fs_rooted s) (fs_files s) (fs_env s) (S (fs_clock s)) (fs_temps s) (fs_ctxs s) (fs_faults s)).

(** [ctx.Err()]. *)
Definition os_ctx : prog fsys unit := fun s =>
  (match fe_ctx (fs_env s) (fs_ctxs s) with Some e => Err e | None => Ok tt end,
   MkFs (fs_base s) (fs_rooted s) (fs_files s) (fs_env s) (fs_clock s) (fs_temps s) (S (fs_ctxs s)) (fs_faults s)).

Definition lookup_file (p : path) : prog fsys object := fun s =>
  (match fs_files s !! p with Some o => Ok o | None => Err ErrNotExist end, s).

Definition store_file (p : path) (o : object) : prog fsys unit := fun s => (Ok tt, set_files (<[p := o]> (fs_files s)) s).
Definition drop_file (p : path) : prog fsys unit := fun s => (Ok tt, set_files (delete p (fs_files s)) s).

(** [os.Stat], [os.Open] and [os.ReadFile]. *)
Definition os_Stat (p : path) : prog fsys object := os_call (lookup_file p).
Definition os_Open (p : path) : prog fsys object := os_call (lookup_file p).
Definition os_ReadFile (p : path) : prog fsys (list byte) := os_call (o ← lookup_file p; mret (o_data o)).

Definition os_MkdirAll (p : path) : prog fsys unit := os_call (mret tt).

(** [os.CreateTemp]: the random name is one that is not in use. *)
Definition os_CreateTemp (dir : path) (pattern : gostring) : prog fsys path :=
  os_call (fun s =>
    let p := dir ++ [pattern ++ fe_temp (fs_env s) (fs_temps s)] in
    let s := MkFs (fs_base s) (fs_rooted s) (fs_files s) (fs_env s) (fs_clock s) (S (fs_temps s)) (fs_ctxs s) (fs_faults s) in
    if bool_decide (is_Some (fs_files s !! p)) then (Err (Errorf "file exists"), s)
    else (now ← os_now; _ ← store_file p (MkObject [] now); mret p) s).

(** Writing a whole file; a failed write leaves what was there. *)
Definition os_Write (p : path) (data : list byte) : prog fsys unit :=
  os_call (now ← os_now; store_file p (MkObject data now)).
Definition os_Chmod (p : path) : prog fsys unit := os_call (mret tt).
Definition os_Close (p : path) : prog fsys unit := os_call (mret tt).

Definition os_Rename (old new : path) : prog fsys unit :=
  os_call (o ← lookup_file old; _ ← drop_file old; store_file new o).

Definition os_Remove (p : path) : prog fsys unit :=
  os_call (_ ← lookup_file p; drop_file p).

(** A call whose error is ignored. *)
Definition ignore {S A} (m : prog S A) : prog S unit := fun s => (Ok tt, (m s).2).

(** ** Files below the base directory *)

(** [objectPath]. *)
Definition objectPath (kind name : gostring) (s : fsys) : path := Join (fs_rooted s) (fs_base s) (ObjectKey kind name).

(** A call on the path of an object. *)
Definition with_path {A} (kind name : gostring) (f : path -> prog fsys A) : prog fsys A := fun s =>
  f (objectPath kind name s) s.

(** [overwriteIndexFile]. *)
Definition overwriteIndexFile (p : path) (value : list byte) : prog fsys unit :=
  _ ← os_MkdirAll (Dir p);
  tmp ← os_CreateTemp (Dir p) (str ".idx-");
  let closed_out e := (_ ← ignore (os_Close tmp); _ ← ignore (os_Remove tmp); throw e) in
  let out e := (_ ← ignore (os_Remove tmp); throw e) in
  catch (os_Write tmp value) (fun _ =>
  catch (os_Chmod tmp) (fun _ =>
  catch (os_Close tmp) (fun _ =>
  catch (os_Rename tmp p) mret out) out) closed_out) closed_out.

(** [writeIndexFile]: an entry already present is kept. *)
Definition writeIndexFile (p : path) (value : list byte) : prog fsys unit :=
  catch (os_Stat p) (fun _ => mret tt) (fun _ => overwriteIndexFile p value).

(** ** Walking a directory *)

Fixpoint path_le (a b : path) : Prop :=
  match a, b with
  | [], _ => True
  | _ :: _, [] => False
  | x :: a, y :: b => string_le x y /\ (x = y -> path_le a b)
  end.

#[global] Instance path_le_dec : RelDecision path_le.
Proof.
  intros a. induction a as [|x a IH]; intros [|y b]; cbn; try (left; exact I); try (right; tauto).
  destruct (decide (string_le x y)); [|right; tauto].
  destruct (decide (x = y)); [|left; tauto]. destruct (IH b); [left|right]; tauto.
Defined.

(** The files below [root], in lexical order, as [filepath.WalkDir] meets them. *)
Definition files_below (root : path) (s : fsys) : list path :=
  merge_sort path_le (filter (fun p => take (length root) p = root) (map_to_list (fs_files s)).*1).

(** The name of a walked file: its components below [root] in one piece. *)
Definition walk_name (root p : path) : gostring := concat (drop (length root) p).
