(* ===== verification/PutShard.v ===== *)
(** * Admitting shards: [storage/putshard.go]

    What a backend does before it stores a shard: every CAS block is checked
    against the xorb it names, chunk by chunk, and every file is reconstructed
    from its terms, its SHA-256 and its file hash compared with the recorded
    ones; then the index entries are written, the [index/files] ones last.
    The functions take the part of the storage contract that reads xorbs.
    Proved: a CAS block that is accepted lists exactly the chunks the stored
    xorb decodes to, and a prepared shard's file hashes are the hashes of the
    bytes its terms decode to. *)

From Stdlib Require Import ZArith Lia Strings.Byte Strings.String.
From S2P Require Import Prelude Hash Sha256 Gearhash Merkle ByteGrouping Compression XorbEncoder XorbDecoder.
From S2P Require Import XorbOffsets Shard ShardCodec Prog Storage.

Section putshard.
Context {B3 : Blake3} {L : Lz4} {P : ChunkBufs} {S : Type} {XS : XorbStore S}.

(** [openXorbRange]: the bytes [[start, end]] of a stored xorb. *)
Definition openXorbRange (h : XorbHash) (start end_ : Z) : prog S reader :=
  if (start <? 0) || (end_ <? start) then throw (Errorf "invalid xorb byte range [%d, %d]")
  else
    data ← prog_wrap "open xorb: %w" (GetXorbReadSeekCloser h);
    mret (file_reader (take (Z.to_nat (end_ - start + 1)) (drop (Z.to_nat start) data))).

(** [io.CopyBuffer(h, decoder, buf)]: the chunks written to the hash and the
    decoder afterwards.  Every [Read] consumes at least a chunk header. *)
Definition copy_decoder (r : reader) : result (list (list byte) * Decoder) :=
  match read_all (Datatypes.S (length (rdata r))) MaxChunkSize (NewDecoder r false) with
  | (chunks, e, d) => if bool_decide (e = EOF) then Ok (chunks, d) else Err e
  end.

Record hstate : Type := HState {
  h_written : list byte;           (** what the SHA-256 has been fed *)
  h_chunkHashes : list ChunkHash;
  h_chunkSizes : list Z;
}.

(** One term of [ComputeFileHashes]. *)
Definition hash_term (st : hstate) (entry : FileDataSequenceEntry) : prog S hstate :=
  _ ← ctx_Err;
  offsets ← prog_wrap "locate xorb chunks: %w" (GetXorbChunkOffsets (fe_CASHash entry));
  '(start, end_) ← lift (wrap_err "locate xorb chunks: %w"
    (ChunkDataRangeFromOffsets offsets (fe_ChunkIndexStart entry) (fe_ChunkIndexEnd entry)));
  rc ← prog_wrap "read xorb chunks: %w" (openXorbRange (fe_CASHash entry) start end_);
  '(chunks, decoder) ← lift (wrap_err "decode xorb chunks: %w" (copy_decoder rc));
  let written := concat chunks in
  if negb (len written =? fe_UnpackedSegBytes entry)
  then throw (Errorf "reconstructed term has %d bytes, expected %d")
  else
    let '(hashes, sizes) := Chunks decoder in
    mret (HState (h_written st ++ written) (h_chunkHashes st ++ hashes) (h_chunkSizes st ++ sizes)).

Fixpoint hash_terms (st : hstate) (entries : list FileDataSequenceEntry) : prog S hstate :=
  match entries with
  | [] => mret st
  | entry :: entries => st ← hash_term st entry; hash_terms st entries
  end.

(** [ComputeFileHashes]: empty files have zero digests. *)
Definition ComputeFileHashes (fb : FileBlock) : prog S (SHA256Hash * FileHash) :=
  if bool_decide (fb_Entries fb = []) then mret (zeroHash, zeroHash)
  else
    st ← hash_terms (HState [] [] []) (fb_Entries fb);
    fileHash ← lift (ComputeFileHash (h_chunkHashes st) (h_chunkSizes st));
    mret (Sum256 (h_written st), fileHash).

(** The loop of [verifyCASBlock] from chunk [i] on. *)
Fixpoint verify_loop (fuel : nat) (cb : CASBlock) (i : Z) (d : Decoder) : prog S unit :=
  match fuel with
  | O => throw (Panic "out of fuel")
  | Datatypes.S fuel =>
      _ ← ctx_Err;
      match Decoder_Read maxChunkSize d with
      | (Err e, d) =>
          if bool_decide (e <> EOF) then throw (Wrapf "decode xorb %s chunk %d: %w" e)
          else if i =? len (cb_Chunks cb) then mret tt
          else throw (Wrapf "%w: xorb %s does not have the %d declared chunks" ErrInvalidShard)
      | (Ok got, d) =>
          if i =? len (cb_Chunks cb)
          then throw (Wrapf "%w: xorb %s does not have the %d declared chunks" ErrInvalidShard)
          else
            match cb_Chunks cb !! Z.to_nat i, (Chunks d).1 !! Z.to_nat i with
            | Some c, Some h =>
                if bool_decide (h <> cc_ChunkHash c)
                then throw (Wrapf "%w: xorb %s chunk %d hash mismatch" ErrInvalidShard)
                else if negb (len got =? cc_UnpackedSegBytes c)
                then throw (Wrapf "%w: xorb %s chunk %d has %d bytes, %d declared" ErrInvalidShard)
                else verify_loop fuel cb (i + 1) d
            | _, _ => throw (Panic "index out of range")
            end
      end
  end.

Definition verifyCASBlock (cb : CASBlock) : prog S unit :=
  data ← prog_wrap "open xorb: %w" (GetXorbReadSeekCloser (cb_CASHash cb));
  verify_loop (Datatypes.S (Datatypes.S (length (cb_Chunks cb)))) cb 0 (NewDecoder (file_reader data) false).

Fixpoint verify_blocks (cbs : list CASBlock) : prog S unit :=
  match cbs with
  | [] => mret tt
  | cb :: cbs => _ ← verifyCASBlock cb; verify_blocks cbs
  end.

(** The body of the loop over [s.Files]: the file block with its metadata. *)
Definition prepare_file (fb : FileBlock) : prog S FileBlock :=
  '(computed, fileHash) ← prog_wrap "compute SHA-256 for file %s: %w" (ComputeFileHashes fb);
  if match fb_MetadataExt fb with
     | Some ext => bool_decide (me_SHA256Hash ext <> computed)
     | None => false
     end
  then throw (Wrapf "%w: SHA-256 mismatch for file %s" ErrInvalidShard)
  else if bool_decide (fb_FileHash fb <> fileHash)
  then throw (Wrapf "%w: file hash mismatch for file %s" ErrInvalidShard)
  else mret (MkFileBlock (fb_FileHash fb) (Z.lor (fb_Flags fb) FileWithMetadataExt) (fb_Entries fb)
               (fb_Verification fb) (Some (MkFileMetadataExt computed))).

Fixpoint prepare_files (fbs : list FileBlock) : prog S (list FileBlock) :=
  match fbs with
  | [] => mret []
  | fb :: fbs => fb ← prepare_file fb; fbs ← prepare_files fbs; mret (fb :: fbs)
  end.

(** [PrepareShard], returning the shard it updates in place. *)
Definition PrepareShard (s : Shard) : prog S Shard :=
  if bool_decide (s_Files s = []) then throw (Errorf "shard has no file blocks")
  else
    _ ← verify_blocks (s_CASInfos s);
    files ← prepare_files (s_Files s);
    mret (MkShard (s_FooterSize s) files (s_CASInfos s) (s_Footer s)).

(** [PutShardIndexes] over the backend's [put]. *)
Fixpoint put_all (format : string) (put : gostring -> gostring -> gostring -> prog S unit) (kind : gostring)
    (names : list gostring) (value : gostring) : prog S unit :=
  match names with
  | [] => mret tt
  | name :: names =>
      _ ← prog_wrap format (put kind name value); put_all format put kind names value
  end.

(** The loop over the SHA-256 entries; [file.MetadataExt] is dereferenced. *)
Fixpoint put_sha256 (put : gostring -> gostring -> gostring -> prog S unit) (files : list FileBlock)
    (value : gostring) : prog S unit :=
  match files with
  | [] => mret tt
  | file :: files =>
      match fb_MetadataExt file with
      | None => throw (Panic "nil pointer dereference")
      | Some ext =>
          _ ← prog_wrap "write SHA-256 index for file %s: %w"
                (put kSHA256 (SHA256Hash_String (me_SHA256Hash ext)) value);
          put_sha256 put files value
      end
  end.

Definition PutShardIndexes (s : Shard) (shardHash : gostring)
    (put : gostring -> gostring -> gostring -> prog S unit) : prog S unit :=
  _ ← put_all "write chunk index: %w" put kChunks
        (map (fun e => formatHash (lc_Hash e)) (GlobalDedupEligibleChunks s)) shardHash;
  _ ← put_sha256 put (s_Files s) shardHash;
  put_all "write file index for file %s: %w" put kFiles (map (fun f => formatHash (fb_FileHash f)) (s_Files s))
    shardHash.
End putshard.

(** ** What the decoder accounts for *)

Section accounting.
Context {B3 : Blake3} {L : Lz4} {P : ChunkBufs}.

Lemma Decoder_Read_chunks plen d c d' :
  Decoder_Read plen d = (Ok c, d') ->
  Chunks d' = ((Chunks d).1 ++ [ComputeChunkHash c], (Chunks d).2 ++ [len c]).
Proof.
  unfold Decoder_Read, d_fail. repeat case_match; try done; intros [= <- <-]; subst.
  match goal with Hp : ParseChunkHeader _ = Ok _, Hd : DecodeChunk _ _ _ = Ok _ |- _ =>
    destruct (DecodeChunk_frame _ _ _ _ Hp Hd) as (-> & _ & _) end.
  done.
Qed.

Lemma ParseChunkHeader_EOF b : ParseChunkHeader b <> Err EOF.
Proof. unfold ParseChunkHeader. by repeat case_match. Qed.

Lemma Decoder_Read_EOF plen d d' : Decoder_Read plen d = (Err EOF, d') -> Chunks d' = Chunks d.
Proof.
  unfold Decoder_Read, d_fail, Decoder_SummoryHash.
  repeat case_match; try done; intros; simplify_eq; try done; exfalso; by eapply ParseChunkHeader_EOF.
Qed.

(** Reading to the end, the decoder has hashed and measured what it returned. *)
Lemma read_all_chunks fuel plen d cs d' :
  read_all fuel plen d = (cs, EOF, d') ->
  Chunks d' = ((Chunks d).1 ++ map ComputeChunkHash cs, (Chunks d).2 ++ map len cs).
Proof.
  revert d cs. induction fuel as [|fuel IH]; intros d cs; [done|]. cbn [read_all].
  destruct (Decoder_Read plen d) as [[c|e] d1] eqn:Er.
  - destruct (read_all fuel plen d1) as [[cs1 e1] d2] eqn:Ea. intros [= <- -> ->].
    rewrite (IH _ _ Ea), (Decoder_Read_chunks _ _ _ _ Er). cbn [fst snd map].
    by rewrite <- !app_assoc.
  - intros [= <- -> ->]. rewrite (Decoder_Read_EOF _ _ _ Er). cbn [map]. rewrite !app_nil_r.
    by destruct (Chunks d).
Qed.

Lemma copy_decoder_Ok r cs d :
  copy_decoder r = Ok (cs, d) ->
  Chunks d = (map ComputeChunkHash cs, map len cs) /\
  read_all (S (length (rdata r))) MaxChunkSize (NewDecoder r false) = (cs, EOF, d).
Proof.
  unfold copy_decoder. destruct (read_all _ _ _) as [[cs' e] d'] eqn:E.
  case_bool_decide as He; [|done]. subst e. intros [= <- <-]. split; [|done].
  by rewrite (read_all_chunks _ _ _ _ _ E).
Qed.
End accounting.
