(* ===== verification/Local.v ===== *)
(** * The local backend: [storage/local/local.go]

    Objects are files below a base directory; index lookups, decoded shards and
    offset tables go through the index caches and xorbs through a cache of
    memory mappings.  The file system is that of [FileSystem.v], and is the
    operating system behind the mappings.

    A walk lists the files when it starts and skips those that have gone when
    their turn comes; of files that appear during a walk, which the code may or
    may not meet, it meets none.  [LocalCache.v] relates the backend to the same
    backend without caches. *)

From Stdlib Require Import ZArith Lia Strings.Byte Strings.String.
From S2P Require Import Prelude Prog Hash Sha256 Gearhash Merkle ByteGrouping Compression XorbEncoder XorbDecoder.
From S2P Require Import XorbOffsets Shard ShardCodec Lru IndexCache Xorbmap Storage FileSystem PutShard.

(** ** State *)

(** [xorbmap.New]'s [open] function and the calls of a fill. *)
#[global] Instance fs_xorbs : XorbFiles fsys := {|
  xf_open h := with_path kXorbs (formatHash h) (fun p => o ← os_Open p; mret (o_data o));
  xf_Stat f := os_call (mret (len f));
  xf_Map f := os_call (mret f);
|}.

(** [Storage]; the base path is part of the file system. *)
Record local : Type := MkLocal {
  lc_baseURL : gostring;
  lc_caches : IndexCaches;
  lc_xorbCache : Cache XorbHash nat (heap (OS := fsys));
  lc_heap : heap (OS := fsys);
}.

Definition fs_of (s : local) : fsys := h_os (lc_heap s).

(** The five directories [NewStorage] makes. *)
Definition make_dirs : prog fsys unit :=
  let mkdir kind := prog_wrap "create directory %s: %w" (os_MkdirAll (split_path kind)) in
  _ ← mkdir kXorbs; _ ← mkdir kShards; _ ← mkdir kFiles; _ ← mkdir kChunks; mkdir kSHA256.

(** [NewStorage], on the file system it finds. *)
Definition NewLocal (baseURL : gostring) (xorbCacheSize : Z) (fs : fsys) : result local :=
  match make_dirs fs with
  | (Ok _, fs) => Ok (MkLocal baseURL NewIndexCaches (NewXorbmap None xorbCacheSize) (MkHeap [] 0 [] fs))
  | (Err e, _) => Err e
  end.

(** Where the parts of the state are. *)
Definition lens_caches {C} (ln : lens IndexCaches C) : lens local C :=
  MkLens (fun s => view ln (lc_caches s))
    (fun c s => MkLocal (lc_baseURL s) (put ln c (lc_caches s)) (lc_xorbCache s) (lc_heap s)).

Definition on_fs {A} (m : prog fsys A) : prog local A := fun s =>
  let '(r, fs) := m (fs_of s) in
  (r, MkLocal (lc_baseURL s) (lc_caches s) (lc_xorbCache s)
        (MkHeap (h_maps (lc_heap s)) (h_mapped (lc_heap s)) (h_gone (lc_heap s)) fs)).

Definition at_xorbs {A} (m : xprog (OS := fsys) A) : prog local A := fun s =>
  let '(r, (c, hp)) := m (lc_xorbCache s, lc_heap s) in
  (r, MkLocal (lc_baseURL s) (lc_caches s) c hp).

(** ** Reading *)

(** [strings.TrimSpace(string(indexData))]. *)
Definition read_index (kind name : gostring) : prog fsys gostring :=
  b ← with_path kind name os_ReadFile; mret (TrimSpace b).

(** [hasFile]. *)
Definition hasFile (fileHash : FileHash) : prog local bool :=
  hit ← at_lens (lens_caches lens_Files) (ic_Get fileHash);
  match hit with
  | Some _ => mret true
  | None =>
      catch (on_fs (with_path kFiles (formatHash fileHash) os_Stat)) (fun _ => mret true)
        (fun e => if negb (errors_Is e ErrNotExist) then throw (Wrapf "check file index: %w" e) else mret false)
  end.

(** [info.ModTime().Unix()] in seconds, from nanoseconds. *)
Definition mod_unix (t : Z) : Z := t / 1000000000.

(** [loadShard]; the open file gives the data and then its modification time. *)
Definition loadShard (shardHash : gostring) : prog fsys Shard :=
  o ← with_path kShards shardHash os_Open;
  s ← lift (DecodeStoredShard (file_reader (o_data o)));
  match s_Footer s with
  | Some _ => mret s
  | None =>
      _ ← prog_wrap "stat shard file: %w" (os_call (mret tt));
      mret (SetFooter s (mod_unix (o_modTime o)))
  end.

(** [LoadShard]. *)
Definition lfs_LoadShard (shardHash : gostring) : prog local Shard := on_fs (loadShard shardHash).

(** [getShardByHash], [GetShardByHash]. *)
Definition getShardByHash (shardHash : gostring) : prog local Shard :=
  GetOrLoad (lens_caches lens_Shards) shardHash (on_fs (loadShard shardHash)).

(** [getShard], [GetShard]. *)
Definition getShard (fileHash : FileHash) : prog local Shard :=
  shardHash ← GetOrLoad (lens_caches lens_Files) fileHash
    (on_fs (prog_wrap "read file index: %w" (read_index kFiles (formatHash fileHash))));
  getShardByHash shardHash.

(** [os.IsNotExist(err)] decides between two errors. *)
Definition not_exist_or {S A} (m : prog S A) (absent : error) (fmt : string) : prog S A :=
  catch m mret (fun e => if errors_Is e ErrNotExist then throw absent else throw (Wrapf fmt e)).

(** [getShardBySHA256], [GetShardBySHA256]. *)
Definition getShardBySHA256 (digest : SHA256Hash) : prog local Shard :=
  shardHash ← GetOrLoad (lens_caches lens_SHA256) digest
    (on_fs (not_exist_or (read_index kSHA256 (hex_encode digest)) (Wrapf "sha256 %s: %w" ErrNotExist)
      "read SHA-256 index: %w"));
  getShardByHash shardHash.

(** [GetShardByChunkHash]. *)
Definition lfs_GetShardByChunkHash (chunkHash : ChunkHash) : prog local Shard :=
  shardHash ← GetOrLoad (lens_caches lens_Chunks) chunkHash
    (on_fs (not_exist_or (read_index kChunks (formatHash chunkHash)) (Errorf "chunk not found") "read chunk index: %w"));
  getShardByHash shardHash.

(** [GetFileHashBySHA256]. *)
Definition lfs_GetFileHashBySHA256 (digest : SHA256Hash) : prog local FileHash :=
  sh ← getShardBySHA256 digest;
  match FindFileBySHA256 sh digest with
  | None => throw (Errorf "SHA-256 is not present in shard")
  | Some file => mret (fb_FileHash file)
  end.

(** [GetXorbReadSeekCloser]: the reader holds the mapping until it is closed. *)
Definition lfs_OpenXorb (h : XorbHash) : prog local mreader :=
  p ← at_xorbs (Acquire None [] h); mret (Reader p).

(** The bytes of a held mapping. *)
Definition mapping_bytes (p : nat) : prog local (list byte) := fun s => (memory_of p (lc_heap s), s).

(** [m.Release()]. *)
Definition release_mapping (p : nat) : prog local unit := at_xorbs (on_heap (Release None p)).

(** Opening a xorb, using its bytes and closing it, as the callers do. *)
Definition with_xorb {A} (h : XorbHash) (use : list byte -> result A) : prog local A :=
  p ← at_xorbs (Acquire None [] h);
  data ← mapping_bytes p;
  _ ← release_mapping p;
  lift (use data).

(** [xorbChunkOffsets], [GetXorbChunkOffsets]. *)
Definition xorbChunkOffsets (h : XorbHash) : prog local (list Z) :=
  GetOrLoad (lens_caches lens_Offsets) h
    (with_xorb h (fun data => wrap_err "read xorb chunk offsets: %w" (ReadXorbChunkOffsets data))).

#[global] Instance local_xorbs : XorbStore local := {|
  ctx_Err := on_fs os_ctx;
  GetXorbReadSeekCloser h := with_xorb h Ok;
  GetXorbChunkOffsets := xorbChunkOffsets;
|}.

(** [HasXorb]. *)
Definition lfs_HasXorb (h : XorbHash) : prog local bool :=
  cached ← at_xorbs (Has h);
  if (cached : bool) then mret true
  else
    catch (on_fs (with_path kXorbs (formatHash h) os_Stat)) (fun _ => mret true)
      (fun e => if errors_Is e ErrNotExist then mret false else throw (Wrapf "check xorb file: %w" e)).

(** [GetXorbURL]. *)
Definition lfs_GetXorbURL (h : XorbHash) : prog local gostring := fun s =>
  (Ok (if bool_decide (lc_baseURL s = []) then str "/v1/xorbs/default/" ++ formatHash h
       else lc_baseURL s ++ str "/v1/xorbs/default/" ++ formatHash h), s).

(** The index entries sweeps read, past the caches. *)
Definition index_entry (kind name : gostring) (fmt : string) : prog fsys gostring :=
  catch (read_index kind name) mret (fun e => if errors_Is e ErrNotExist then mret [] else throw (Wrapf fmt e)).

Definition lfs_GetFileIndexEntry (h : FileHash) : prog local gostring :=
  on_fs (index_entry kFiles (formatHash h) "read file index: %w").
Definition lfs_GetChunkIndexEntry (h : ChunkHash) : prog local gostring :=
  on_fs (index_entry kChunks (formatHash h) "read chunk index: %w").
Definition lfs_GetSHA256IndexEntry (sha256Hex : gostring) : prog local gostring :=
  on_fs (index_entry kSHA256 sha256Hex "read SHA-256 index: %w").

(** ** Writing *)

Section writing.
Context {B3 : Blake3} {L : Lz4} {P : ChunkBufs}.

(** [PutXorb]: the temporary file gets what the validator reads through the
    tee; a write that fails is an error of the validation. *)
Definition put_xorb_file (h : XorbHash) (r : reader) : prog fsys bool :=
  with_path kXorbs (formatHash h) (fun p =>
    catch (os_Stat p) (fun _ => mret false) (fun _ =>
    _ ← prog_wrap "create xorb directory: %w" (os_MkdirAll (Dir p));
    tmp ← prog_wrap "create xorb file: %w" (os_CreateTemp (Dir p) (str ".xorb-"));
    let closed_out (fmt : string) e := (_ ← ignore (os_Close tmp); _ ← ignore (os_Remove tmp); throw (Wrapf fmt e)) in
    let out e := (_ ← ignore (os_Remove tmp); throw (Wrapf "finalize xorb file: %w" e)) in
    match validate_stream r h with
    | Err e => closed_out "validate xorb: %w" e
    | Ok rest =>
        catch (os_Write tmp (take (length (rdata r) - length (rdata rest)) (rdata r))) (fun _ =>
        catch (os_Chmod tmp) (fun _ =>
        catch (os_Close tmp) (fun _ =>
        catch (os_Rename tmp p) (fun _ => mret true) out) out)
          (closed_out "finalize xorb file: %w")) (closed_out "validate xorb: %w")
    end)).

Definition lfs_PutXorb (h : XorbHash) (r : reader) : prog local bool := on_fs (put_xorb_file h r).

(** Whether every file of the shard is indexed already; the loop stops at the
    first that is not. *)
Fixpoint all_have (files : list FileBlock) : prog local bool :=
  match files with
  | [] => mret true
  | file :: files =>
      exists_ ← prog_wrap "check shard: %w" (hasFile (fb_FileHash file));
      if (exists_ : bool) then all_have files else mret false
  end.

(** The shard file: whether it was inserted. *)
Definition put_shard_file (shardHash : gostring) (encoded : list byte) : prog fsys bool :=
  with_path kShards shardHash (fun p =>
    catch (os_Stat p) (fun _ => mret false)
      (fun e => if negb (errors_Is e ErrNotExist) then throw (Wrapf "check shard file: %w" e)
                else _ ← prog_wrap "write shard file: %w" (overwriteIndexFile p encoded); mret true)).

(** [PutShard]. *)
Definition lfs_PutShard (sh : Shard) : prog local bool :=
  already ← (if 0 <? len (s_Files sh) then all_have (s_Files sh) else mret false);
  if (already : bool) then mret false
  else
    sh ← PrepareShard sh;
    '(encoded, shardHash) ← lift (wrap_err "serialize shard: %w" (EncodeShard 0 sh));
    wasInserted ← on_fs (put_shard_file shardHash encoded);
    _ ← PutShardIndexes sh shardHash (fun kind name value => on_fs (with_path kind name (fun p => writeIndexFile p value)));
    mret wasInserted.
End writing.

(** ** Deleting *)

(** [err := m]. *)
Definition attempt {S A} (m : prog S A) : prog S (option error) := fun s =>
  match m s with
  | (Ok _, s) => (Ok None, s)
  | (Err e, s) => (Ok (Some e), s)
  end.

(** The file goes, then the cached entry; the caller learns whether the file
    was there. *)
Definition delete_entry (kind name : gostring) (evict : prog local unit) (fmt : string) : prog local bool :=
  err ← on_fs (attempt (with_path kind name os_Remove));
  _ ← evict;
  match err with
  | None => mret true
  | Some e => if errors_Is e ErrNotExist then mret false else throw (Wrapf fmt e)
  end.

Definition lfs_DeleteFileIndexEntry (h : FileHash) : prog local bool :=
  delete_entry kFiles (formatHash h) (at_lens (lens_caches lens_Files) (ic_Remove h)) "delete file index: %w".

Definition lfs_DeleteChunkIndexEntry (h : ChunkHash) : prog local unit :=
  _ ← delete_entry kChunks (formatHash h) (at_lens (lens_caches lens_Chunks) (ic_Remove h)) "delete chunk index: %w"; mret tt.

Definition lfs_DeleteShard (shardHash : gostring) : prog local unit :=
  _ ← delete_entry kShards shardHash (at_lens (lens_caches lens_Shards) (ic_Remove shardHash)) "delete shard: %w"; mret tt.

(** [evictSHA256]. *)
Definition evictSHA256 (sha256Hex : gostring) : prog local unit :=
  match hex_decode sha256Hex with
  | None => mret tt
  | Some raw =>
      if negb (len raw =? 32) then mret tt
      else at_lens (lens_caches lens_SHA256) (ic_Remove (to_arr 32 raw : SHA256Hash))
  end.

Definition lfs_DeleteSHA256IndexEntry (sha256Hex : gostring) : prog local bool :=
  delete_entry kSHA256 sha256Hex (evictSHA256 sha256Hex) "delete SHA-256 index: %w".

(** [DeleteXorb]: the caches first. *)
Definition lfs_DeleteXorb (h : XorbHash) : prog local unit :=
  _ ← at_xorbs (xm_Remove h);
  _ ← at_lens (lens_caches lens_Offsets) (ic_Remove h);
  catch (on_fs (with_path kXorbs (formatHash h) os_Remove)) mret
    (fun e => if errors_Is e ErrNotExist then mret tt else throw (Wrapf "delete xorb: %w" e)).

(** ** Walking *)

Section walking.
Context {S X A : Type} (run : forall B, prog fsys B -> prog S B).

(** The callback [filepath.WalkDir] runs on a file: names that are not hashes
    are skipped, and files that have gone since. *)
Definition visit (root : path) (info : path -> prog fsys X) (fn : gostring -> X -> A -> prog S A) (p : path) (acc : A) : prog S A :=
  _ ← run _ os_ctx;
  let name := walk_name root p in
  if negb (hash_name name) then mret acc
  else catch (run _ (info p)) (fun x => fn name x acc) (fun e => if errors_Is e ErrNotExist then mret acc else throw e).

Fixpoint visit_all (root : path) (info : path -> prog fsys X) (fn : gostring -> X -> A -> prog S A) (files : list path) (acc : A) : prog S A :=
  match files with
  | [] => mret acc
  | p :: files => acc ← visit root info fn p acc; visit_all root info fn files acc
  end.

(** [filepath.WalkDir] over the directory of a kind. *)
Definition walk_dir (kind : gostring) (info : path -> prog fsys X) (fn : gostring -> X -> A -> prog S A) (acc : A) : prog S A :=
  '(root, files) ← run _ (os_call (fun s =>
    let root := Join (fs_rooted s) (fs_base s) kind in (Ok (root, files_below root s), s)));
  visit_all root info fn files acc.
End walking.

(** [d.Info()] and the content of an index entry. *)
Definition file_info (p : path) : prog fsys (Z * Z) := o ← os_Stat p; mret (obj_info o).
Definition file_entry (p : path) : prog fsys gostring := b ← os_ReadFile p; mret (TrimSpace b).

(** [walkHashedObjects], for [WalkShards], [WalkXorbs] and [Usage]. *)
Definition walkHashedObjects (kind : gostring) {A} (fn : gostring -> Z * Z -> A -> prog local A) (acc : A) : prog local A :=
  walk_dir (@on_fs) kind file_info fn acc.

(** [WalkFileIndex] and [WalkSHA256Index]. *)
Definition walk_index_files (kind : gostring) {A} (fn : gostring -> gostring -> A -> prog local A) (acc : A) : prog local A :=
  walk_dir (@on_fs) kind file_entry fn acc.

Definition lfs_WalkShards {A} (fn : gostring -> Z * Z -> A -> prog local A) (acc : A) : prog local A := walkHashedObjects kShards fn acc.
Definition lfs_WalkXorbs {A} (fn : gostring -> Z * Z -> A -> prog local A) (acc : A) : prog local A := walkHashedObjects kXorbs fn acc.
Definition lfs_WalkFileIndex {A} (fn : gostring -> gostring -> A -> prog local A) (acc : A) : prog local A := walk_index_files kFiles fn acc.
Definition lfs_WalkSHA256Index {A} (fn : gostring -> gostring -> A -> prog local A) (acc : A) : prog local A := walk_index_files kSHA256 fn acc.

(** [var _ storage.Storage = ( *Storage)(nil)]. *)
#[global] Instance local_storage {B3 : Blake3} {L : Lz4} {P : ChunkBufs} : Storage local := {|
  storage_xorbs := local_xorbs;
  time_Now := on_fs os_now;
  PutXorb := lfs_PutXorb;
  HasXorb := lfs_HasXorb;
  GetXorbURL := lfs_GetXorbURL;
  WalkXorbs := @lfs_WalkXorbs;
  DeleteXorb := lfs_DeleteXorb;
  PutShard := lfs_PutShard;
  GetShard := getShard;
  GetShardByChunkHash := lfs_GetShardByChunkHash;
  GetShardByHash := getShardByHash;
  LoadShard := lfs_LoadShard;
  WalkShards := @lfs_WalkShards;
  DeleteShard := lfs_DeleteShard;
  GetShardBySHA256 := getShardBySHA256;
  GetFileHashBySHA256 := lfs_GetFileHashBySHA256;
  WalkFileIndex := @lfs_WalkFileIndex;
  GetFileIndexEntry := lfs_GetFileIndexEntry;
  DeleteFileIndexEntry := lfs_DeleteFileIndexEntry;
  GetChunkIndexEntry := lfs_GetChunkIndexEntry;
  DeleteChunkIndexEntry := lfs_DeleteChunkIndexEntry;
  WalkSHA256Index := @lfs_WalkSHA256Index;
  GetSHA256IndexEntry := lfs_GetSHA256IndexEntry;
  DeleteSHA256IndexEntry := lfs_DeleteSHA256IndexEntry;
|}.
