(* ===== verification/LocalCache.v ===== *)
(** * The caches of the local backend are transparent

    The backend without caches, [linv] and [refines], and the proof that every
    operation of [Local.v] refines the cacheless one. *)

From Stdlib Require Import ZArith Lia Strings.Byte Strings.String.
From S2P Require Import Prelude Prog Hash Sha256 Gearhash Merkle ByteGrouping Compression XorbEncoder XorbDecoder.
From S2P Require Import XorbOffsets Shard ShardCodec Lru IndexCache Xorbmap Storage FileSystem PutShard Local.

(** ** Paths of hash-named objects *)

Definition hex_digit (c : byte) : Prop := exists d, digit_val c = Some d /\ d < 16.

Lemma hex_decode_digits n : forall s, (length s <= n)%nat -> is_Some (hex_decode s) -> Forall hex_digit s.
Proof.
  induction n as [|n IH]; intros [|a [|b s]] Hl [l Hd]; cbn in Hl, Hd; try done; try lia.
  destruct (digit_val a) as [x|] eqn:Ea; [|done]. destruct (digit_val b) as [y|] eqn:Eb; [|done].
  destruct (hex_decode s) as [l'|] eqn:Es; [|done]. destruct ((x <? 16) && (y <? 16)) eqn:Hxy; [|done].
  apply andb_prop in Hxy as [Hx%Z.ltb_lt Hy%Z.ltb_lt]. constructor; [by exists x|]. constructor; [by exists y|].
  apply IH; [lia|eauto].
Qed.

Lemma hash_name_digits n : hash_name n = true -> length n = 64%nat /\ Forall hex_digit n.
Proof.
  intros [Hl%Z.eqb_eq Hd%bool_decide_eq_true]%andb_prop. unfold len in Hl. split; [lia|]. by eapply hex_decode_digits.
Qed.

Lemma digits_plain c : c <> [] -> Forall hex_digit c -> plain c.
Proof.
  intros Hne Hc. assert (forall x, x ∈ c -> hex_digit x) as Hin by (by apply list.Forall_forall).
  split; [done|]. split; [|split].
  - intros ->. destruct (Hin "."%byte) as (d & Hd & _); [set_solver|]. vm_compute in Hd. done.
  - intros ->. destruct (Hin "."%byte) as (d & Hd & _); [set_solver|]. vm_compute in Hd. done.
  - intros Hs. destruct (Hin slash Hs) as (d & Hd & _). vm_compute in Hd. done.
Qed.

(** The kinds of objects. *)
Definition kinds : list gostring := [kXorbs; kShards; kFiles; kChunks; kSHA256].

Lemma kinds_plain kind : kind ∈ kinds -> Forall plain (split_path kind).
Proof.
  intros Hk. assert (Forall (fun k => Forall plain (split_path k)) kinds) as Hall; [|by apply (proj1 (list.Forall_forall _ _) Hall)].
  unfold plain. repeat constructor; try (vm_compute; discriminate);
    match goal with |- ?x ∉ ?l => apply (bool_decide_eq_true_1 (x ∉ l)); vm_compute; reflexivity end.
Qed.

Lemma kinds_split kind kind' : kind ∈ kinds -> kind' ∈ kinds -> split_path kind = split_path kind' -> kind = kind'.
Proof.
  intros Hk Hk' E. assert (forallb (fun k => forallb (fun k' => bool_decide (split_path k = split_path k' -> k = k')) kinds) kinds = true) as H
    by (vm_compute; reflexivity).
  rewrite forallb_forall in H. specialize (H kind (proj1 (list_elem_of_In _ _) Hk)). rewrite forallb_forall in H.
  specialize (H kind' (proj1 (list_elem_of_In _ _) Hk')). apply bool_decide_eq_true in H. auto.
Qed.

Lemma split_slash a b : split_path (a ++ str "/" ++ b) = split_path a ++ split_path b.
Proof. exact (split_app a b). Qed.

Definition fanout (name : gostring) : path := [take 2 name; take 2 (drop 2 name); drop 4 name].

(** Where a hash-named object is. *)
Lemma objectPath_eq kind name s :
  kind ∈ kinds -> hash_name name = true -> objectPath kind name s = fs_base s ++ split_path kind ++ fanout name.
Proof.
  intros Hk [Hl Hd]%hash_name_digits.
  assert (Forall plain (fanout name)) as Hf.
  { assert (forall c, (0 < length c)%nat -> Forall hex_digit c -> plain c) as Hc by (intros [|x c] ? ?; cbn in *; [lia|by apply digits_plain]).
    unfold fanout. repeat apply Forall_cons_2; try apply Forall_nil_2; apply Hc; rewrite ?length_take, ?length_drop; try lia;
      repeat first [apply Forall_take|apply Forall_drop]; done. }
  unfold objectPath, ObjectKey. destruct (Z.leb_spec (len name) 4); [unfold len in *; lia|].
  assert (split_path (kind ++ str "/" ++ slice 0 2 name ++ str "/" ++ slice 2 4 name ++ str "/" ++ drop 4 name) =
    split_path kind ++ fanout name) as E.
  { rewrite !split_slash. change (slice 0 2 name) with (take 2 name). change (slice 2 4 name) with (take 2 (drop 2 name)).
    apply Forall_cons in Hf as [Hf1 [Hf2 [Hf3 _]%Forall_cons]%Forall_cons].
    rewrite (split_single (take 2 name)), (split_single (take 2 (drop 2 name))), (split_single (drop 4 name)); [done|apply Hf3|apply Hf2|apply Hf1]. }
  rewrite Join_plain; rewrite E; [done|]. apply Forall_app. split; [by apply kinds_plain|done].
Qed.

Lemma fanout_inj n n' : fanout n = fanout n' -> length n = length n' -> n = n'.
Proof.
  intros [= E1 E2 E3] _. rewrite <- (take_drop 2 n), <- (take_drop 2 n'), E1. f_equal.
  rewrite <- (take_drop 2 (drop 2 n)), <- (take_drop 2 (drop 2 n')), E2, !drop_drop. f_equal. exact E3.
Qed.

(** Different objects are different files. *)
Lemma objectPath_inj kind kind' n n' s :
  kind ∈ kinds -> kind' ∈ kinds -> hash_name n = true -> hash_name n' = true ->
  objectPath kind n s = objectPath kind' n' s -> kind = kind' /\ n = n'.
Proof.
  intros Hk Hk' Hn Hn'. rewrite !objectPath_eq by done. intros E%(inj (app (fs_base s))).
  assert (split_path kind = split_path kind' /\ fanout n = fanout n') as [E1 E2] by (apply app_inj_2; done).
  split; [by apply kinds_split|]. apply fanout_inj; [done|].
  apply hash_name_digits in Hn as [-> _], Hn' as [-> _]. done.
Qed.

Lemma hash_name_hex (v : vec byte 32) : hash_name (hex_encode v) = true.
Proof.
  unfold hash_name, len. rewrite length_hex_encode, length_vec_to_list, hex_decode_encode. done.
Qed.

Lemma hex_decode_some n : forall s, length s = (2 * n)%nat -> Forall hex_digit s -> is_Some (hex_decode s).
Proof.
  induction n as [|n IH]; intros [|a [|b s]] Hl Hs; cbn in Hl; try lia; [done|].
  apply Forall_cons in Hs as [(x & Hx & Hx16) [(y & Hy & Hy16) Hs]%Forall_cons]. cbn [hex_decode]. rewrite Hx, Hy.
  destruct (IH s ltac:(lia) Hs) as [l ->].
  destruct (Z.ltb_spec x 16); [|lia]. destruct (Z.ltb_spec y 16); [|lia]. cbn. eauto.
Qed.

Lemma hash_name_format (h : hash) : hash_name (formatHash h) = true.
Proof.
  unfold hash_name. rewrite formatHash_len. apply bool_decide_eq_true_2, (hex_decode_some 32); [by rewrite length_formatHash|].
  rewrite formatHash_segs. assert (forall v, Forall hex_digit (hex16 v)) as Hv.
  { intros v. unfold hex16. apply Forall_map. eapply Forall_impl; [apply (be_digits_range 16 16 v); lia|].
    intros d [Hd0 Hd]. exists d. split; [by apply digit_val_char|done]. }
  repeat apply Forall_app_2; apply Hv.
Qed.

(** White space never starts, or ends, with a hex digit. *)
Definition no_digit_first (p : list byte) : bool :=
  match p with
  | [] => false
  | c :: _ => match digit_val c with Some d => 16 <=? d | None => true end
  end.

Lemma trim_left_hex fuel sps s :
  forallb no_digit_first sps = true -> Forall hex_digit s -> trim_left fuel sps s = s.
Proof.
  intros Hsp Hs. destruct fuel as [|fuel]; [done|]. cbn [trim_left].
  destruct (find _ sps) as [p|] eqn:E; [|done]. apply find_some in E as [Hin Hp]. exfalso.
  rewrite forallb_forall in Hsp. specialize (Hsp p Hin). unfold starts_with in Hp. apply bool_decide_eq_true in Hp.
  destruct p as [|c p]; [done|]. destruct s as [|c' s]; [done|]. cbn in Hp. injection Hp as -> _.
  apply Forall_cons in Hs as [(d & Hd & Hlt) _]. cbn in Hsp. rewrite Hd in Hsp. apply Z.leb_le in Hsp. lia.
Qed.

Lemma TrimSpace_hex s : Forall hex_digit s -> TrimSpace s = s.
Proof.
  intros Hs. unfold TrimSpace. rewrite (trim_left_hex _ spaces) by (done || (vm_compute; reflexivity)).
  rewrite trim_left_hex; [apply reverse_involutive|vm_compute; reflexivity|by apply Forall_reverse].
Qed.

(** ** A file system where no call fails *)

Lemma os_call_quiet {A} (m : prog fsys A) s : quiet s -> os_call m s = m s.
Proof. destruct s as [b r f e c t x q]. unfold quiet. cbn. intros ->. done. Qed.

(** The same files under the same base. *)
Definition same_files (s s' : fsys) : Prop :=
  fs_base s' = fs_base s /\ fs_rooted s' = fs_rooted s /\ fs_files s' = fs_files s.

(** One file more, where there was none. *)
Definition adds_file (p : path) (o : object) (s s' : fsys) : Prop :=
  fs_base s' = fs_base s /\ fs_rooted s' = fs_rooted s /\ fs_files s !! p = None /\ fs_files s' = <[p := o]> (fs_files s).

Lemma same_files_path kind n s s' : same_files s s' -> objectPath kind n s' = objectPath kind n s.
Proof. intros (H1 & H2 & _). unfold objectPath. by rewrite H1, H2. Qed.

(** ** The invariant *)

(** What an index file says. *)
Definition index_is (kind name : gostring) (s : fsys) (v : gostring) : Prop :=
  exists o, fs_files s !! objectPath kind name s = Some o /\ v = TrimSpace (o_data o).

(** The shard a file holds, with the footer it is given. *)
Definition loaded (o : object) : result Shard :=
  s ← DecodeStoredShard (file_reader (o_data o));
  Ok (match s_Footer s with Some _ => s | None => SetFooter s (mod_unix (o_modTime o)) end).

Definition shard_is (n : gostring) (s : fsys) (sh : Shard) : Prop :=
  hash_name n = true /\ exists o, fs_files s !! objectPath kShards n s = Some o /\ loaded o = Ok sh.

Definition xorb_is (h : XorbHash) (s : fsys) (data : list byte) : Prop :=
  exists o, fs_files s !! objectPath kXorbs (formatHash h) s = Some o /\ data = o_data o.

Definition offsets_are (h : XorbHash) (s : fsys) (t : list Z) : Prop :=
  exists data, xorb_is h s data /\ ReadXorbChunkOffsets data = Ok t.

Record linv_with (s : local) (holds : list nat) (l : list (XorbHash * nat)) : Prop := {
  li_xorbs : inv None (MkConf (lc_xorbCache s) (lc_heap s) holds ∅) l;
  li_mapped : forall h p, (h, p) ∈ l -> exists m, h_maps (lc_heap s) !! p = Some m /\ xorb_is h (fs_of s) (mp_file m);
  li_files : coherent (fun h v => index_is kFiles (formatHash h) (fs_of s) v) (ix_Files (lc_caches s));
  li_shards : coherent (fun n sh => shard_is n (fs_of s) sh) (ix_Shards (lc_caches s));
  li_chunks : coherent (fun h v => index_is kChunks (formatHash h) (fs_of s) v) (ix_Chunks (lc_caches s));
  li_sha256 : coherent (fun (d : SHA256Hash) v => index_is kSHA256 (hex_encode d) (fs_of s) v) (ix_SHA256 (lc_caches s));
  li_offsets : coherent (fun h t => offsets_are h (fs_of s) t) (ix_Offsets (lc_caches s));
  li_index : forall kind n v, kind ∈ [kFiles; kChunks; kSHA256] -> hash_name n = true -> index_is kind n (fs_of s) v ->
    hash_name v = true;
}.

(** Everything cached is what the files say; index entries name shards by
    their hashes. *)
Definition linv (s : local) : Prop := exists holds l, linv_with s holds l.

(** ** Growing file systems *)

Definition fs_grows (s s' : fsys) : Prop :=
  fs_base s' = fs_base s /\ fs_rooted s' = fs_rooted s /\ forall p o, fs_files s !! p = Some o -> fs_files s' !! p = Some o.

Lemma same_grows s s' : same_files s s' -> fs_grows s s'.
Proof. intros (H1 & H2 & H3). split; [done|]. split; [done|]. by rewrite H3. Qed.

Lemma adds_grows p o s s' : adds_file p o s s' -> fs_grows s s'.
Proof.
  intros (H1 & H2 & H3 & H4). split; [done|]. split; [done|]. intros q o' Hq. rewrite H4, lookup_insert_ne; [done|congruence].
Qed.

Lemma fs_grows_path kind n s s' : fs_grows s s' -> objectPath kind n s' = objectPath kind n s.
Proof. intros (H1 & H2 & _). unfold objectPath. by rewrite H1, H2. Qed.

Lemma file_grows kind n s s' o :
  fs_grows s s' -> fs_files s !! objectPath kind n s = Some o -> fs_files s' !! objectPath kind n s' = Some o.
Proof. intros Hg Ho. rewrite (fs_grows_path _ _ _ _ Hg). by apply Hg. Qed.

Lemma index_grows kind n s s' v : fs_grows s s' -> index_is kind n s v -> index_is kind n s' v.
Proof. intros Hg (o & Ho & ->). exists o. eauto using file_grows. Qed.

Lemma shard_grows n s s' sh : fs_grows s s' -> shard_is n s sh -> shard_is n s' sh.
Proof. intros Hg (Hn & o & Ho & Hl). split; [done|]. exists o. eauto using file_grows. Qed.

Lemma xorb_grows h s s' d : fs_grows s s' -> xorb_is h s d -> xorb_is h s' d.
Proof. intros Hg (o & Ho & ->). exists o. eauto using file_grows. Qed.

Lemma offsets_grow h s s' t : fs_grows s s' -> offsets_are h s t -> offsets_are h s' t.
Proof. intros Hg (d & Hd & Ht). exists d. eauto using xorb_grows. Qed.

(** The state with another file system. *)
Definition set_fs (fs : fsys) (s : local) : local :=
  MkLocal (lc_baseURL s) (lc_caches s) (lc_xorbCache s)
    (MkHeap (h_maps (lc_heap s)) (h_mapped (lc_heap s)) (h_gone (lc_heap s)) fs).

Lemma linv_grows s fs' :
  linv s -> fs_grows (fs_of s) fs' ->
  (forall kind n v, kind ∈ [kFiles; kChunks; kSHA256] -> hash_name n = true -> index_is kind n fs' v -> hash_name v = true) ->
  linv (set_fs fs' s).
Proof.
  intros (holds & l & [L1 L2 L3 L4 L5 L6 L7 L8]) Hg Hidx. exists holds, l. unfold set_fs. constructor; cbn in *.
  - apply (inv_os None) with (os := fs') in L1. exact L1.
  - intros h p Hp. destruct (L2 h p Hp) as (m & Hm & Hx). exists m. split; [done|]. by eapply xorb_grows.
  - eapply coherent_mono; [|exact L3]. intros. by eapply index_grows.
  - eapply coherent_mono; [|exact L4]. intros. by eapply shard_grows.
  - eapply coherent_mono; [|exact L5]. intros. by eapply index_grows.
  - eapply coherent_mono; [|exact L6]. intros. by eapply index_grows.
  - eapply coherent_mono; [|exact L7]. intros. by eapply offsets_grow.
  - exact Hidx.
Qed.

Lemma linv_index s kind n v :
  linv s -> kind ∈ [kFiles; kChunks; kSHA256] -> hash_name n = true -> index_is kind n (fs_of s) v -> hash_name v = true.
Proof. intros (holds & l & L). apply (li_index _ _ _ L). Qed.

Lemma linv_same s fs' : linv s -> same_files (fs_of s) fs' -> linv (set_fs fs' s).
Proof.
  intros Hl Hs. apply linv_grows; [done|by apply same_grows|]. intros kind n v Hk Hn (o & Ho & ->).
  eapply (linv_index s kind n); [done|done|done|]. exists o. split; [|done].
  rewrite (same_files_path _ _ _ _ Hs) in Ho. destruct Hs as (_ & _ & Hf). by rewrite <- Hf.
Qed.

(** A new object; an index entry names a shard by its hash. *)
Lemma linv_adds s fs' kind n o :
  linv s -> kind ∈ kinds -> hash_name n = true -> adds_file (objectPath kind n (fs_of s)) o (fs_of s) fs' ->
  (kind ∈ [kFiles; kChunks; kSHA256] -> hash_name (TrimSpace (o_data o)) = true) -> linv (set_fs fs' s).
Proof.
  intros Hl Hk Hn Ha Ho. pose proof (adds_grows _ _ _ _ Ha) as Hg. apply linv_grows; [done|done|].
  intros kind' n' v Hk' Hn' (o' & Ho' & ->). rewrite (fs_grows_path _ _ _ _ Hg) in Ho'.
  destruct Ha as (_ & _ & _ & Hf). rewrite Hf in Ho'. apply lookup_insert_Some in Ho' as [[E <-]|[_ Ho']].
  - apply objectPath_inj in E as [-> ->]; [by apply Ho|done| |done|done]. unfold kinds. set_solver.
  - eapply (linv_index s kind' n'); [done|done|done|]. by exists o'.
Qed.

(** ** Refinement *)

(** [m] does what the cacheless [f] does, and keeps the caches coherent. *)
Definition refines {A} (m : prog local A) (f : prog fsys A) : Prop :=
  forall s, linv s -> quiet (fs_of s) ->
    exists r s', m s = (r, s') /\ f (fs_of s) = (r, fs_of s') /\ linv s' /\ quiet (fs_of s').

Lemma refines_ret {A} (a : A) : refines (mret a) (mret a).
Proof. intros s Hl Hq. by exists (Ok a), s. Qed.

Lemma refines_throw {A} e : refines (throw e : prog local A) (throw e).
Proof. intros s Hl Hq. by exists (Err e), s. Qed.

Lemma refines_lift {A} (r : result A) : refines (lift r) (lift r).
Proof. intros s Hl Hq. by exists r, s. Qed.

Lemma refines_bind {A B} (m : prog local A) f (k : A -> prog local B) g :
  refines m f -> (forall a, refines (k a) (g a)) -> refines (m ≫= k) (f ≫= g).
Proof.
  intros Hm Hk s Hl Hq. destruct (Hm s Hl Hq) as (r & s1 & E1 & E2 & Hl1 & Hq1). unfold mbind, prog_bind. rewrite E1, E2.
  destruct r as [a|e]; [apply Hk; done|]. by exists (Err e), s1.
Qed.

Lemma refines_catch {A B} (m : prog local A) f (k : A -> prog local B) g h i :
  refines m f -> (forall a, refines (k a) (g a)) -> (forall e, refines (h e) (i e)) -> refines (catch m k h) (catch f g i).
Proof.
  intros Hm Hk Hh s Hl Hq. destruct (Hm s Hl Hq) as (r & s1 & E1 & E2 & Hl1 & Hq1). unfold catch. rewrite E1, E2.
  destruct r as [a|e]; [by apply Hk|by apply Hh].
Qed.

Lemma refines_wrap {A} fmt (m : prog local A) f : refines m f -> refines (prog_wrap fmt m) (prog_wrap fmt f).
Proof. intros Hm. apply refines_catch; [done|apply refines_ret|]. intros e. apply refines_throw. Qed.

Lemma refines_eq {A} (m m' : prog local A) f f' :
  refines m f -> (forall s, m' s = m s) -> (forall s, quiet s -> f' s = f s) -> refines m' f'.
Proof.
  intros Hm E E' s Hl Hq. destruct (Hm s Hl Hq) as (r & s1 & E1 & E2 & ?). exists r, s1. by rewrite E, E' by done.
Qed.

(** What leaves files alone runs under the caches as it is. *)
Definition keeps_files {A} (f : prog fsys A) : Prop :=
  forall s, quiet s -> same_files s (f s).2 /\ quiet (f s).2.

Lemma refines_on_fs {A} (f : prog fsys A) :
  (forall s, linv s -> quiet (fs_of s) -> linv (set_fs (f (fs_of s)).2 s) /\ quiet (f (fs_of s)).2) -> refines (on_fs f) f.
Proof.
  intros Hf s Hl Hq. destruct (Hf s Hl Hq) as [H1 H2]. unfold on_fs. destruct (f (fs_of s)) as [r fs'] eqn:E. by exists r, (set_fs fs' s).
Qed.

Lemma refines_read {A} (f : prog fsys A) : keeps_files f -> refines (on_fs f) f.
Proof. intros Hf. apply refines_on_fs. intros s Hl Hq. destruct (Hf _ Hq). split; [by apply linv_same|done]. Qed.

Create HintDb refines discriminated.
#[export] Hint Resolve refines_ret refines_throw refines_lift refines_bind refines_catch refines_wrap : refines.
#[export] Hint Extern 1 (refines (if ?c then _ else _) _) => destruct c : refines.
#[export] Hint Extern 1 (refines (match ?c with _ => _ end) _) => destruct c : refines.
#[export] Hint Extern 1 (refines (let '_ := ?c in _) _) => destruct c : refines.

(** ** Reading the file system *)

(** Under no faults nothing at all changes. *)
Definition pure_read {A} (f : prog fsys A) : Prop := forall s, quiet s -> (f s).2 = s.

Lemma pure_read_ret {A} (a : A) : pure_read (mret a).
Proof. done. Qed.
Lemma pure_read_throw {A} e : pure_read (throw e : prog fsys A).
Proof. done. Qed.
Lemma pure_read_lift {A} (r : result A) : pure_read (lift r).
Proof. done. Qed.

Lemma pure_read_catch {A B} (m : prog fsys A) (k : A -> prog fsys B) h :
  pure_read m -> (forall a, pure_read (k a)) -> (forall e, pure_read (h e)) -> pure_read (catch m k h).
Proof.
  intros Hm Hk Hh s Hq. pose proof (Hm s Hq) as E. unfold catch. destruct (m s) as [[a|e] s1]; cbn in E; subst s1; [by apply Hk|by apply Hh].
Qed.

Lemma pure_read_bind {A B} (m : prog fsys A) (k : A -> prog fsys B) :
  pure_read m -> (forall a, pure_read (k a)) -> pure_read (m ≫= k).
Proof. intros Hm Hk. exact (pure_read_catch m k throw Hm Hk pure_read_throw). Qed.

Lemma pure_read_wrap {A} fmt (m : prog fsys A) : pure_read m -> pure_read (prog_wrap fmt m).
Proof. intros Hm. apply pure_read_catch; [done|apply pure_read_ret|]. intros e. apply pure_read_throw. Qed.

Lemma pure_read_call {A} (m : prog fsys A) : (forall s, (m s).2 = s) -> pure_read (os_call m).
Proof. intros Hm s Hq. by rewrite os_call_quiet. Qed.

Lemma pure_read_path {A} kind name (f : path -> prog fsys A) : (forall p, pure_read (f p)) -> pure_read (with_path kind name f).
Proof. intros Hf s Hq. by apply Hf. Qed.

Lemma pure_read_Stat p : pure_read (os_Stat p).
Proof. by apply pure_read_call. Qed.
Lemma pure_read_Open p : pure_read (os_Open p).
Proof. by apply pure_read_call. Qed.
Lemma pure_read_ReadFile p : pure_read (os_ReadFile p).
Proof. apply pure_read_call. intros s. unfold mbind, prog_bind, lookup_file. by destruct (fs_files s !! p). Qed.
Lemma pure_read_answer {A} (a : A) : pure_read (os_call (mret a)).
Proof. by apply pure_read_call. Qed.

Create HintDb pure_read discriminated.
#[export] Hint Resolve pure_read_ret pure_read_throw pure_read_lift pure_read_bind pure_read_catch pure_read_wrap
  pure_read_path pure_read_Stat pure_read_Open pure_read_ReadFile pure_read_answer : pure_read.
#[export] Hint Extern 1 (pure_read (if ?c then _ else _)) => destruct c : pure_read.
#[export] Hint Extern 1 (pure_read (match ?c with _ => _ end)) => destruct c : pure_read.

Lemma pure_read_keeps {A} (f : prog fsys A) : pure_read f -> keeps_files f.
Proof. intros Hf s Hq. by rewrite Hf. Qed.

Lemma keeps_ctx : keeps_files os_ctx.
Proof. intros s Hq. done. Qed.

Lemma read_index_pure kind name : pure_read (read_index kind name).
Proof. unfold read_index. eauto 6 with pure_read. Qed.

Lemma not_exist_or_pure {A} (m : prog fsys A) absent fmt : pure_read m -> pure_read (not_exist_or m absent fmt).
Proof. intros Hm. unfold not_exist_or. auto 6 with pure_read. Qed.

Lemma loadShard_pure n : pure_read (loadShard n).
Proof. unfold loadShard. auto 10 with pure_read. Qed.

Lemma index_entry_pure kind name fmt : pure_read (index_entry kind name fmt).
Proof. unfold index_entry. pose proof (read_index_pure kind name). auto 6 with pure_read. Qed.

#[export] Hint Resolve read_index_pure not_exist_or_pure loadShard_pure index_entry_pure : pure_read.

#[export] Instance fs_xorbs_laws : XorbFilesLaws fsys.
Proof.
  split; intros f s x s'; cbn; unfold os_call; destruct (fs_faults s 0); intros [= <- <-]; done.
Qed.

Lemma open_mapped_pure h : pure_read (open_mapped h).
Proof. unfold open_mapped, sized_map. cbn [xf_open xf_Stat xf_Map fs_xorbs]. auto 10 with pure_read. Qed.

#[export] Hint Resolve open_mapped_pure : pure_read.

(** What the reads find, and that what they find is there. *)
Lemma read_index_spec kind name s v :
  quiet s -> (read_index kind name s).1 = Ok v <-> index_is kind name s v.
Proof.
  intros Hq. unfold read_index, with_path, index_is, os_ReadFile, mbind, prog_bind. rewrite os_call_quiet by done. unfold lookup_file.
  destruct (fs_files s !! objectPath kind name s) as [o|]; cbn; [|naive_solver].
  split; [intros [= <-]; eauto|intros (? & [= <-] & ->); done].
Qed.

Lemma loadShard_spec n s sh : quiet s -> hash_name n = true -> (loadShard n s).1 = Ok sh <-> shard_is n s sh.
Proof.
  intros Hq Hn. unfold loadShard, with_path, shard_is, os_Open, mbind, prog_bind. rewrite os_call_quiet by done. unfold lookup_file.
  destruct (fs_files s !! objectPath kShards n s) as [o|]; cbn; [|naive_solver].
  unfold loaded. destruct (DecodeStoredShard (file_reader (o_data o))) as [sh'|e] eqn:E; cbn.
  2: { split; [done|]. intros (_ & o' & [= <-] & Ho). by rewrite E in Ho. }
  transitivity (loaded o = Ok sh).
  - unfold loaded. rewrite E. cbn. destruct (s_Footer sh'); [done|]. unfold prog_wrap, catch. by rewrite os_call_quiet.
  - split; [intros; split; eauto|]. by intros (_ & o' & [= <-] & Ho).
Qed.

Lemma open_mapped_spec h s d : quiet s -> (open_mapped h s).1 = Ok d <-> xorb_is h s d.
Proof.
  intros Hq. unfold open_mapped, sized_map, xorb_is. cbn [xf_open xf_Stat xf_Map fs_xorbs].
  unfold mbind, prog_bind, prog_wrap, catch, with_path, os_Open. rewrite os_call_quiet by done. unfold lookup_file.
  destruct (fs_files s !! objectPath kXorbs (formatHash h) s) as [o|]; cbn; [|naive_solver].
  rewrite os_call_quiet by done. cbn. destruct (Z.ltb_spec 0 (len (o_data o))) as [Hl|Hl].
  - rewrite os_call_quiet by done. cbn. split; [intros [= <-]; eauto|by intros (? & [= <-] & ->)].
  - assert (o_data o = []) as Ho by (apply len_0_nil; pose proof (len_nonneg (o_data o)); lia).
    cbn. split; [intros [= <-]; eauto|intros (? & [= <-] & ->)]. by rewrite Ho.
Qed.

(** ** The backend without caches *)

Definition cold_hasFile (h : FileHash) : prog fsys bool :=
  catch (with_path kFiles (formatHash h) os_Stat) (fun _ => mret true)
    (fun e => if negb (errors_Is e ErrNotExist) then throw (Wrapf "check file index: %w" e) else mret false).

(** The shard an index entry names. *)
Definition cold_file_index (h : FileHash) : prog fsys gostring :=
  prog_wrap "read file index: %w" (read_index kFiles (formatHash h)).
Definition cold_sha256_index (d : SHA256Hash) : prog fsys gostring :=
  not_exist_or (read_index kSHA256 (hex_encode d)) (Wrapf "sha256 %s: %w" ErrNotExist) "read SHA-256 index: %w".
Definition cold_chunk_index (h : ChunkHash) : prog fsys gostring :=
  not_exist_or (read_index kChunks (formatHash h)) (Errorf "chunk not found") "read chunk index: %w".

Definition cold_getShard (h : FileHash) : prog fsys Shard := n ← cold_file_index h; loadShard n.
Definition cold_getShardBySHA256 (d : SHA256Hash) : prog fsys Shard := n ← cold_sha256_index d; loadShard n.
Definition cold_GetShardByChunkHash (h : ChunkHash) : prog fsys Shard := n ← cold_chunk_index h; loadShard n.
Definition cold_GetFileHashBySHA256 (d : SHA256Hash) : prog fsys FileHash :=
  sh ← cold_getShardBySHA256 d;
  match FindFileBySHA256 sh d with
  | None => throw (Errorf "SHA-256 is not present in shard")
  | Some file => mret (fb_FileHash file)
  end.

Definition cold_with_xorb {A} (h : XorbHash) (use : list byte -> result A) : prog fsys A :=
  data ← open_mapped h; lift (use data).
Definition cold_xorbChunkOffsets (h : XorbHash) : prog fsys (list Z) :=
  cold_with_xorb h (fun data => wrap_err "read xorb chunk offsets: %w" (ReadXorbChunkOffsets data)).

#[export] Instance cold_xorbs : XorbStore fsys := {|
  ctx_Err := os_ctx;
  GetXorbReadSeekCloser h := cold_with_xorb h Ok;
  GetXorbChunkOffsets := cold_xorbChunkOffsets;
|}.

Definition cold_HasXorb (h : XorbHash) : prog fsys bool :=
  catch (with_path kXorbs (formatHash h) os_Stat) (fun _ => mret true)
    (fun e => if errors_Is e ErrNotExist then mret false else throw (Wrapf "check xorb file: %w" e)).

Definition cold_delete (kind name : gostring) (fmt : string) : prog fsys bool :=
  err ← attempt (with_path kind name os_Remove);
  match err with
  | None => mret true
  | Some e => if errors_Is e ErrNotExist then mret false else throw (Wrapf fmt e)
  end.

Definition cold_DeleteXorb (h : XorbHash) : prog fsys unit :=
  catch (with_path kXorbs (formatHash h) os_Remove) mret
    (fun e => if errors_Is e ErrNotExist then mret tt else throw (Wrapf "delete xorb: %w" e)).

(** ** Lookups through an index cache *)

(** The parts of the state the caches of an index are not in. *)
Definition fs_caches (s s' : local) : Prop := lc_xorbCache s' = lc_xorbCache s /\ lc_heap s' = lc_heap s.

(** A cache of [IndexCaches] and the relation it is coherent with: what makes
    a lookup through it transparent. *)
Record cached {K V} `{Countable K} (ln : lens IndexCaches (icache K V)) (R : K -> V -> fsys -> Prop) : Prop := {
  cached_view : forall s, linv s -> coherent (fun k v => R k v (fs_of s)) (view ln (lc_caches s));
  cached_put : forall s c, linv s -> coherent (fun k v => R k v (fs_of s)) c -> linv (put (lens_caches ln) c s);
}.

Lemma cached_Files : cached lens_Files (fun h v s => index_is kFiles (formatHash h) s v).
Proof.
  split; [intros s (holds & l & L); exact (li_files _ _ _ L)|]. intros s c (holds & l & [L1 L2 L3 L4 L5 L6 L7 L8]) Hc. exists holds, l.
  exact (Build_linv_with (put (lens_caches lens_Files) c s) holds l L1 L2 Hc L4 L5 L6 L7 L8).
Qed.
Lemma cached_Shards : cached lens_Shards (fun n sh s => shard_is n s sh).
Proof.
  split; [intros s (holds & l & L); exact (li_shards _ _ _ L)|]. intros s c (holds & l & [L1 L2 L3 L4 L5 L6 L7 L8]) Hc. exists holds, l.
  exact (Build_linv_with (put (lens_caches lens_Shards) c s) holds l L1 L2 L3 Hc L5 L6 L7 L8).
Qed.
Lemma cached_Chunks : cached lens_Chunks (fun h v s => index_is kChunks (formatHash h) s v).
Proof.
  split; [intros s (holds & l & L); exact (li_chunks _ _ _ L)|]. intros s c (holds & l & [L1 L2 L3 L4 L5 L6 L7 L8]) Hc. exists holds, l.
  exact (Build_linv_with (put (lens_caches lens_Chunks) c s) holds l L1 L2 L3 L4 Hc L6 L7 L8).
Qed.
Lemma cached_SHA256 : cached lens_SHA256 (fun (d : SHA256Hash) v s => index_is kSHA256 (hex_encode d) s v).
Proof.
  split; [intros s (holds & l & L); exact (li_sha256 _ _ _ L)|]. intros s c (holds & l & [L1 L2 L3 L4 L5 L6 L7 L8]) Hc. exists holds, l.
  exact (Build_linv_with (put (lens_caches lens_SHA256) c s) holds l L1 L2 L3 L4 L5 Hc L7 L8).
Qed.
Lemma cached_Offsets : cached lens_Offsets (fun h t s => offsets_are h s t).
Proof.
  split; [intros s (holds & l & L); exact (li_offsets _ _ _ L)|]. intros s c (holds & l & [L1 L2 L3 L4 L5 L6 L7 L8]) Hc. exists holds, l.
  exact (Build_linv_with (put (lens_caches lens_Offsets) c s) holds l L1 L2 L3 L4 L5 L6 Hc L8).
Qed.

Section lookups.
Context {K V : Type} `{Countable K} (ln : lens IndexCaches (icache K V)) (R : K -> V -> fsys -> Prop) (C : cached ln R).

(** A hit is what the relation says, and changes only the order of the cache. *)
Lemma cached_hit key s :
  linv s -> exists r s', at_lens (lens_caches ln) (ic_Get key) s = (Ok r, s') /\ linv s' /\ fs_of s' = fs_of s /\
    forall v, r = Some v -> R key v (fs_of s).
Proof.
  intros Hl. destruct (ic_Get_coherent _ key _ (cached_view _ _ C s Hl)) as (r & c & E & Hc & Hr).
  exists r, (put (lens_caches ln) c s). unfold at_lens. cbn [view lens_caches]. rewrite E.
  split; [done|]. split; [by apply (cached_put _ _ C)|done].
Qed.

Lemma cached_add key v s :
  linv s -> R key v (fs_of s) -> exists s', at_lens (lens_caches ln) (ic_Add key v) s = (Ok tt, s') /\ linv s' /\ fs_of s' = fs_of s.
Proof.
  intros Hl HR. destruct (ic_Add_coherent _ key v _ (cached_view _ _ C s Hl) HR) as (c & E & Hc).
  exists (put (lens_caches ln) c s). unfold at_lens. cbn [view lens_caches]. rewrite E. split; [done|]. split; [by apply (cached_put _ _ C)|done].
Qed.

(** [GetOrLoad] is its load. *)
Lemma refines_GetOrLoad key (load : prog local V) (cold : prog fsys V) :
  refines load cold -> pure_read cold -> (forall s v, quiet s -> (cold s).1 = Ok v <-> R key v s) ->
  refines (GetOrLoad (lens_caches ln) key load) cold.
Proof.
  intros Hload Hpure Hspec s Hl Hq. destruct (cached_hit key s Hl) as (r & s1 & E1 & Hl1 & Hf1 & Hr).
  unfold GetOrLoad. rewrite (prog_bind_Ok _ _ _ _ _ E1). destruct r as [v|].
  { exists (Ok v), s1. rewrite Hf1. split; [done|]. split; [|done]. rewrite (surjective_pairing (cold (fs_of s))), Hpure by done.
    f_equal. apply Hspec; [done|]. by apply Hr. }
  rewrite <- Hf1 in Hq |- *. destruct (Hload s1 Hl1 Hq) as (r & s2 & E2 & E2' & Hl2 & Hq2).
  pose proof (Hpure _ Hq) as Hp. rewrite E2' in Hp. cbn in Hp. rewrite E2', Hp.
  destruct r as [v|e]; [|exists (Err e), s2; unfold mbind, prog_bind; rewrite E2, Hp; split; [done|]; by rewrite <- Hp].
  rewrite (prog_bind_Ok _ _ _ _ _ E2). assert (R key v (fs_of s2)) as HR by (rewrite Hp; apply Hspec; [done|]; by rewrite E2').
  destruct (cached_add key v s2 Hl2 HR) as (s3 & E3 & Hl3 & Hf3). rewrite (prog_bind_Ok _ _ _ _ _ E3).
  exists (Ok v), s3. rewrite Hf3, Hp. done.
Qed.
End lookups.

(** ** Reading xorbs through the mappings *)

Lemma linv_xorbs s holds l c hp holds' l' :
  linv_with s holds l -> inv None (MkConf c hp holds' ∅) l' -> h_os hp = fs_of s ->
  (forall h p, (h, p) ∈ l' -> exists m, h_maps hp !! p = Some m /\ xorb_is h (fs_of s) (mp_file m)) ->
  linv_with (MkLocal (lc_baseURL s) (lc_caches s) c hp) holds' l'.
Proof.
  intros [L1 L2 L3 L4 L5 L6 L7 L8] I Hos Hm. destruct hp as [maps mapped gone os]. cbn in Hos. subst os.
  exact (Build_linv_with (MkLocal _ _ _ _) _ _ I Hm L3 L4 L5 L6 L7 L8).
Qed.

(** The entries that stay are of the files they were of. *)
Lemma mapped_ext s holds (l l' : list (XorbHash * nat)) hp' :
  linv_with s holds l -> hp_ext (lc_heap s) hp' -> (forall kv, kv ∈ l' -> kv ∈ l) ->
  forall h p, (h, p) ∈ l' -> exists m, h_maps hp' !! p = Some m /\ xorb_is h (fs_of s) (mp_file m).
Proof.
  intros L He Hs h p Hp. destruct (li_mapped _ _ _ L h p (Hs _ Hp)) as (m & Hm & Hx).
  apply He in Hm as (m' & Hm' & _ & Hf). exists m'. by rewrite Hf.
Qed.

(** What [Acquire] finds is the file, or the error of opening it. *)
Lemma Acquire_refines h s :
  linv s -> quiet (fs_of s) ->
  match (open_mapped h (fs_of s)).1 with
  | Err e => exists s', at_xorbs (Acquire None [] h) s = (Err e, s') /\ fs_of s' = fs_of s /\ linv s'
  | Ok data => exists p s' holds l, at_xorbs (Acquire None [] h) s = (Ok p, s') /\ fs_of s' = fs_of s /\
      linv_with s' (p :: holds) l /\ memory_of p (lc_heap s') = Ok data
  end.
Proof.
  intros (holds & l & L) Hq. destruct (Acquire_ok None h _ _ holds l eq_refl (li_xorbs _ _ _ L)) as (r & c & hp & l' & E & He & I & Hf).
  unfold at_xorbs. rewrite E. pose proof (open_mapped_pure h _ Hq) as Hpure. pose proof (open_mapped_spec h (fs_of s)) as Hspec.
  change (h_os (lc_heap s)) with (fs_of s) in Hf. destruct (find_key h l) as [p|] eqn:Hk.
  - destruct Hf as (-> & Hos & Hp). apply find_key_Some in Hk; [|eapply represents_keys, (inv_lru _ _ _ (li_xorbs _ _ _ L))].
    destruct (li_mapped _ _ _ L h p Hk) as (m & Hm & Hx). apply (Hspec _ Hq) in Hx. rewrite Hx.
    eexists p, _, holds, l'. split; [done|]. split; [done|].
    split; [eapply linv_xorbs; [exact L|done|done|]; eapply mapped_ext; [done|done|]; intros kv; by rewrite Hp|].
    destruct (inv_intact _ _ _ p I) as (m' & Hm' & _ & Hmem); [cbn; set_solver|]. cbn in *. rewrite Hmem.
    apply He in Hm as (m'' & Hm'' & _ & Hf). congruence.
  - destruct Hf as [Hos Hf]. rewrite Hpure in Hos. destruct (open_mapped h (fs_of s)).1 as [f|e] eqn:Ho.
    + destruct Hf as (p & m & -> & Hm & Hh & Hmf & Hs). eexists p, _, holds, l'. split; [done|]. split; [done|].
      split.
      * eapply linv_xorbs; [exact L|done|done|]. intros h' p' [Hin|[= -> ->]]%Hs.
        -- destruct (li_mapped _ _ _ L h' p' Hin) as (m' & Hm' & Hx). apply He in Hm' as (m'' & Hm'' & _ & Hf). exists m''. by rewrite Hf.
        -- exists m. rewrite Hmf. split; [done|]. by apply Hspec.
      * destruct (inv_intact _ _ _ p I) as (m' & Hm' & _ & Hmem); [cbn; set_solver|]. cbn in *. congruence.
    + destruct Hf as [-> Hp]. eexists. split; [done|]. split; [done|]. exists holds, l'.
      eapply linv_xorbs; [exact L|done|done|]. eapply mapped_ext; [done|done|]. intros kv. by rewrite Hp.
Qed.

Lemma release_refines p s holds l :
  linv_with s (p :: holds) l -> exists s', release_mapping p s = (Ok tt, s') /\ fs_of s' = fs_of s /\ linv s'.
Proof.
  intros L. eexists. split; [done|]. split; [by apply (Release_os None)|]. exists holds, l.
  eapply linv_xorbs; [exact L|by apply (Release_inv None), (li_xorbs _ _ _ L)|by apply (Release_os None)|].
  eapply mapped_ext; [done|apply Release_ext|done].
Qed.

Lemma refines_with_xorb {A} h (use : list byte -> result A) : refines (with_xorb h use) (cold_with_xorb h use).
Proof.
  intros s Hl Hq. pose proof (Acquire_refines h s Hl Hq) as Ha. pose proof (open_mapped_pure h _ Hq) as Hpure.
  unfold cold_with_xorb, with_xorb, mapping_bytes. destruct (open_mapped h (fs_of s)) as [[d|e] fs] eqn:Eo; cbn [fst snd] in Ha, Hpure; subst fs.
  - destruct Ha as (p & s1 & holds & l & E & Hf & L & Hm). rewrite (prog_bind_Ok _ _ _ _ _ E).
    rewrite (prog_bind_Ok _ _ _ _ _ (Eo : open_mapped h (fs_of s) = _)).
    unfold mbind at 1, prog_bind at 1. rewrite Hm. destruct (release_refines p s1 holds l L) as (s2 & E2 & Hf2 & Hl2).
    rewrite (prog_bind_Ok _ _ _ _ _ E2). exists (use d), s2. rewrite Hf2, Hf. done.
  - destruct Ha as (s1 & E & Hf & Hl1). unfold mbind, prog_bind. rewrite E, Eo. exists (Err e), s1. by rewrite Hf.
Qed.

Lemma refines_xorbChunkOffsets h : refines (xorbChunkOffsets h) (cold_xorbChunkOffsets h).
Proof.
  eapply refines_GetOrLoad; [apply cached_Offsets|apply refines_with_xorb|unfold cold_xorbChunkOffsets, cold_with_xorb; auto with pure_read|].
  intros s v Hq. unfold cold_xorbChunkOffsets, cold_with_xorb, offsets_are. pose proof (open_mapped_spec h s) as Hs.
  unfold mbind, prog_bind. destruct (open_mapped h s) as [[d|e] s1]; cbn [fst] in *.
  - transitivity (ReadXorbChunkOffsets d = Ok v).
    + unfold lift, wrap_err. cbn. by destruct (ReadXorbChunkOffsets d).
    + split; [intros Hd; exists d; split; [by apply Hs|done]|]. intros (d' & Hd' & Hv). apply (Hs _ Hq) in Hd'. by injection Hd' as ->.
  - split; [done|]. intros (d' & Hd' & Hv). by apply (Hs _ Hq) in Hd'.
Qed.

#[export] Hint Resolve refines_with_xorb refines_xorbChunkOffsets : refines.

(** ** Lookups *)

Lemma refines_read_pure {A} (f : prog fsys A) : pure_read f -> refines (on_fs f) f.
Proof. intros Hf. by apply refines_read, pure_read_keeps. Qed.

#[export] Hint Resolve refines_read_pure : refines.

(** A bind whose continuation needs what the value is. *)
Lemma refines_bind_with {A B} (Q : A -> Prop) (m : prog local A) f (k : A -> prog local B) g :
  refines m f -> (forall s a, linv s -> quiet (fs_of s) -> (f (fs_of s)).1 = Ok a -> Q a) -> (forall a, Q a -> refines (k a) (g a)) ->
  refines (m ≫= k) (f ≫= g).
Proof.
  intros Hm HQ Hk s Hl Hq. destruct (Hm s Hl Hq) as (r & s1 & E1 & E2 & Hl1 & Hq1). unfold mbind, prog_bind. rewrite E1, E2.
  destruct r as [a|e]; [apply Hk; [|done..]; apply (HQ s); [done..|]; by rewrite E2|]. by exists (Err e), s1.
Qed.

Lemma refines_getShardByHash n : hash_name n = true -> refines (getShardByHash n) (loadShard n).
Proof.
  intros Hn. eapply refines_GetOrLoad; [apply cached_Shards|auto with refines pure_read|auto with pure_read|].
  intros s v Hq. by apply loadShard_spec.
Qed.

(** The three indices. *)
Lemma wrap_fst {A} fmt (m : prog fsys A) s v : (prog_wrap fmt m s).1 = Ok v <-> (m s).1 = Ok v.
Proof. unfold prog_wrap, catch. by destruct (m s) as [[?|?] ?]. Qed.

Lemma not_exist_or_fst {A} (m : prog fsys A) absent fmt s v : (not_exist_or m absent fmt s).1 = Ok v <-> (m s).1 = Ok v.
Proof. unfold not_exist_or, catch. destruct (m s) as [[?|e] ?]; [done|]. by destruct (errors_Is e ErrNotExist). Qed.

(** A shard reached through an index: the entry is a shard's hash. *)
Lemma refines_indexed kind name (m : prog local gostring) (f : prog fsys gostring) :
  kind ∈ [kFiles; kChunks; kSHA256] -> hash_name name = true -> refines m f ->
  (forall s v, quiet s -> (f s).1 = Ok v <-> index_is kind name s v) ->
  refines (m ≫= getShardByHash) (f ≫= loadShard).
Proof.
  intros Hk Hn Hm Hf. apply (refines_bind_with (fun n => hash_name n = true)); [done| |by apply refines_getShardByHash].
  intros s a Hl Hq Ha. apply Hf in Ha; [|done]. by eapply linv_index.
Qed.

Lemma cold_file_index_spec h s v : quiet s -> (cold_file_index h s).1 = Ok v <-> index_is kFiles (formatHash h) s v.
Proof. intros Hq. unfold cold_file_index. by rewrite wrap_fst, read_index_spec. Qed.
Lemma cold_sha256_index_spec d s v : quiet s -> (cold_sha256_index d s).1 = Ok v <-> index_is kSHA256 (hex_encode d) s v.
Proof. intros Hq. unfold cold_sha256_index. by rewrite not_exist_or_fst, read_index_spec. Qed.
Lemma cold_chunk_index_spec h s v : quiet s -> (cold_chunk_index h s).1 = Ok v <-> index_is kChunks (formatHash h) s v.
Proof. intros Hq. unfold cold_chunk_index. by rewrite not_exist_or_fst, read_index_spec. Qed.

Lemma cold_file_index_pure h : pure_read (cold_file_index h).
Proof. apply pure_read_wrap, read_index_pure. Qed.
Lemma cold_sha256_index_pure d : pure_read (cold_sha256_index d).
Proof. apply not_exist_or_pure, read_index_pure. Qed.
Lemma cold_chunk_index_pure h : pure_read (cold_chunk_index h).
Proof. apply not_exist_or_pure, read_index_pure. Qed.

Lemma refines_getShard h : refines (getShard h) (cold_getShard h).
Proof.
  apply (refines_indexed kFiles (formatHash h)); [set_solver|apply hash_name_format| |intros; by apply cold_file_index_spec].
  eapply refines_GetOrLoad; [apply cached_Files|apply refines_read_pure|..|]; try apply cold_file_index_pure.
  intros. by apply cold_file_index_spec.
Qed.

Lemma refines_getShardBySHA256 d : refines (getShardBySHA256 d) (cold_getShardBySHA256 d).
Proof.
  apply (refines_indexed kSHA256 (hex_encode d)); [set_solver|apply hash_name_hex| |intros; by apply cold_sha256_index_spec].
  eapply refines_GetOrLoad; [apply cached_SHA256|apply refines_read_pure|..|]; try apply cold_sha256_index_pure.
  intros. by apply cold_sha256_index_spec.
Qed.

Lemma refines_GetShardByChunkHash h : refines (lfs_GetShardByChunkHash h) (cold_GetShardByChunkHash h).
Proof.
  apply (refines_indexed kChunks (formatHash h)); [set_solver|apply hash_name_format| |intros; by apply cold_chunk_index_spec].
  eapply refines_GetOrLoad; [apply cached_Chunks|apply refines_read_pure|..|]; try apply cold_chunk_index_pure.
  intros. by apply cold_chunk_index_spec.
Qed.

#[export] Hint Resolve refines_getShardByHash refines_getShard refines_getShardBySHA256 refines_GetShardByChunkHash : refines.

Lemma refines_GetFileHashBySHA256 d : refines (lfs_GetFileHashBySHA256 d) (cold_GetFileHashBySHA256 d).
Proof. unfold lfs_GetFileHashBySHA256, cold_GetFileHashBySHA256. auto with refines. Qed.

(** A question a cache may answer without the file system. *)
Lemma refines_asked {A} (hit : prog local (option A)) (m : prog local bool) (f : prog fsys bool) :
  (forall s, linv s -> exists r s', hit s = (Ok r, s') /\ linv s' /\ fs_of s' = fs_of s /\
    (is_Some r -> quiet (fs_of s) -> f (fs_of s) = (Ok true, fs_of s))) ->
  refines m f ->
  refines (r ← hit; match r with Some _ => mret true | None => m end) f.
Proof.
  intros Hh Hm s Hl Hq. destruct (Hh s Hl) as (r & s1 & E & Hl1 & Hf & Hr). rewrite (prog_bind_Ok _ _ _ _ _ E).
  rewrite <- Hf in *. destruct r; [|by apply Hm]. exists (Ok true), s1. split; [done|]. split; [apply Hr; [eauto|done]|done].
Qed.

Lemma stat_found {B} kind name s o (k : object -> prog fsys B) h :
  quiet s -> fs_files s !! objectPath kind name s = Some o -> catch (with_path kind name os_Stat) k h s = k o s.
Proof. intros Hq Ho. unfold catch, with_path, os_Stat. rewrite os_call_quiet by done. unfold lookup_file. by rewrite Ho. Qed.

Lemma refines_hasFile h : refines (hasFile h) (cold_hasFile h).
Proof.
  apply refines_asked; [|unfold cold_hasFile; auto 10 with refines pure_read].
  intros s Hl. destruct (cached_hit lens_Files _ cached_Files h s Hl) as (r & s1 & E & Hl1 & Hf & Hr).
  exists r, s1. split; [done|]. split; [done|]. split; [done|]. intros [v ->] Hq. destruct (Hr v eq_refl) as (o & Ho & _).
  unfold cold_hasFile. by rewrite (stat_found _ _ _ _ _ _ Hq Ho).
Qed.

Lemma refines_HasXorb h : refines (lfs_HasXorb h) (cold_HasXorb h).
Proof.
  intros s Hl Hq. destruct Hl as (holds & l & L). pose proof (li_xorbs _ _ _ L) as I.
  destruct (Get_ok _ l h (lc_heap s) (inv_lru _ _ _ I)) as (c1 & E & _ & _).
  destruct (Get_inv _ _ _ _ _ _ _ _ _ _ I E) as (_ & l1 & Hp & _ & I1).
  assert (linv_with (MkLocal (lc_baseURL s) (lc_caches s) c1 (lc_heap s)) holds l1) as L1.
  { eapply linv_xorbs; [exact L|exact I1|done|]. eapply mapped_ext; [done|apply hp_ext_refl|]. intros kv. by rewrite Hp. }
  assert (at_xorbs (Has h) s = (Ok (bool_decide (is_Some (find_key h l))), MkLocal (lc_baseURL s) (lc_caches s) c1 (lc_heap s))) as Eh.
  { unfold at_xorbs, Has. by rewrite (prog_bind_Ok _ _ _ _ _ E). }
  unfold lfs_HasXorb. rewrite (prog_bind_Ok _ _ _ _ _ Eh). case_bool_decide as Hf.
  - destruct Hf as [p Hf]. apply find_key_Some in Hf; [|eapply represents_keys, (inv_lru _ _ _ I)].
    destruct (li_mapped _ _ _ L h p Hf) as (m & _ & o & Ho & _).
    eexists (Ok true), _. split; [done|]. split; [|split; [by exists holds, l1|done]].
    unfold cold_HasXorb. by rewrite (stat_found _ _ _ _ _ _ Hq Ho).
  - assert (refines (catch (on_fs (with_path kXorbs (formatHash h) os_Stat)) (fun _ => mret true)
      (fun e => if errors_Is e ErrNotExist then mret false else throw (Wrapf "check xorb file: %w" e))) (cold_HasXorb h)) as Hm
      by (unfold cold_HasXorb; auto 10 with refines pure_read).
    apply (Hm (MkLocal (lc_baseURL s) (lc_caches s) c1 (lc_heap s))); [by exists holds, l1|done].
Qed.

#[export] Hint Resolve refines_GetFileHashBySHA256 refines_hasFile refines_HasXorb : refines.

(** ** Admission reads through the caches *)

Section admission.
Context {B3 : Blake3} {L : Lz4} {P : ChunkBufs}.

Lemma refines_ctx : refines ctx_Err ctx_Err.
Proof. apply refines_read, keeps_ctx. Qed.

Lemma refines_xorb_bytes h : refines (GetXorbReadSeekCloser h) (GetXorbReadSeekCloser h).
Proof. apply refines_with_xorb. Qed.

Lemma refines_xorb_offsets h : refines (GetXorbChunkOffsets h) (GetXorbChunkOffsets h).
Proof. apply refines_xorbChunkOffsets. Qed.

Hint Resolve refines_ctx refines_xorb_bytes refines_xorb_offsets : refines.

Lemma refines_openXorbRange h a b : refines (openXorbRange h a b) (openXorbRange h a b).
Proof. unfold openXorbRange. auto with refines. Qed.
Hint Resolve refines_openXorbRange : refines.

Lemma refines_hash_term st e : refines (hash_term st e) (hash_term st e).
Proof.
  unfold hash_term. apply refines_bind; [auto with refines|intros _]. apply refines_bind; [auto with refines|intros offsets].
  apply refines_bind; [auto with refines|intros [start end_]]. apply refines_bind; [auto with refines|intros rc].
  apply refines_bind; [auto with refines|intros [chunks decoder]]. destruct (negb _); [auto with refines|].
  destruct (Chunks decoder). auto with refines.
Qed.
Hint Resolve refines_hash_term : refines.

Lemma refines_hash_terms st es : refines (hash_terms st es) (hash_terms st es).
Proof. revert st. induction es; intros st; cbn [hash_terms]; auto with refines. Qed.
Hint Resolve refines_hash_terms : refines.

Lemma refines_ComputeFileHashes fb : refines (ComputeFileHashes fb) (ComputeFileHashes fb).
Proof. unfold ComputeFileHashes. auto 8 with refines. Qed.
Hint Resolve refines_ComputeFileHashes : refines.

Lemma refines_verify_loop fuel cb i d : refines (verify_loop fuel cb i d) (verify_loop fuel cb i d).
Proof.
  revert i d. induction fuel as [|fuel IH]; intros i d; cbn [verify_loop]; [auto with refines|].
  apply refines_bind; [auto with refines|intros _]. destruct (Decoder_Read maxChunkSize d) as [[got|e] d'].
  - destruct (i =? len (cb_Chunks cb)); [auto with refines|].
    destruct (cb_Chunks cb !! Z.to_nat i), ((Chunks d').1 !! Z.to_nat i); auto with refines.
  - auto with refines.
Qed.
Hint Resolve refines_verify_loop : refines.

Lemma refines_verify_blocks cbs : refines (verify_blocks cbs) (verify_blocks cbs).
Proof. induction cbs as [|cb cbs IH]; cbn [verify_blocks]; unfold verifyCASBlock; auto 8 with refines. Qed.

Lemma refines_prepare_file fb : refines (prepare_file fb) (prepare_file fb).
Proof.
  unfold prepare_file. apply refines_bind; [auto with refines|intros [computed fileHash]].
  destruct (match fb_MetadataExt fb with Some _ => _ | None => _ end); [auto with refines|].
  case_bool_decide; auto with refines.
Qed.
Hint Resolve refines_verify_blocks refines_prepare_file : refines.

Lemma refines_prepare_files fbs : refines (prepare_files fbs) (prepare_files fbs).
Proof. induction fbs as [|fb fbs IH]; cbn [prepare_files]; auto 8 with refines. Qed.
Hint Resolve refines_prepare_files : refines.

Lemma refines_PrepareShard sh : refines (PrepareShard sh) (PrepareShard sh).
Proof. unfold PrepareShard. case_bool_decide; auto 8 with refines. Qed.

(** ** Writing index entries *)

Section indexes.
Context (put : gostring -> gostring -> gostring -> prog local unit) (put' : gostring -> gostring -> gostring -> prog fsys unit).
Context (value : gostring).
Context (Hput : forall kind name, kind ∈ [kFiles; kChunks; kSHA256] -> hash_name name = true ->
  refines (put kind name value) (put' kind name value)).

Lemma refines_put_all fmt kind names :
  kind ∈ [kFiles; kChunks; kSHA256] -> Forall (fun n => hash_name n = true) names ->
  refines (put_all fmt put kind names value) (put_all fmt put' kind names value).
Proof. intros Hk Hn. induction Hn as [|n names Hn _ IH]; cbn [put_all]; auto with refines. Qed.

Lemma refines_put_sha256 files : refines (put_sha256 put files value) (put_sha256 put' files value).
Proof.
  induction files as [|file files IH]; cbn [put_sha256]; [auto with refines|]. destruct (fb_MetadataExt file) as [ext|]; [|auto with refines].
  apply refines_bind; [|auto with refines]. apply refines_wrap, Hput; [set_solver|apply hash_name_hex].
Qed.

Lemma refines_PutShardIndexes sh : refines (PutShardIndexes sh value put) (PutShardIndexes sh value put').
Proof.
  assert (forall A (f : A -> hash) l, Forall (fun n => hash_name n = true) (map (fun a => formatHash (f a)) l)) as Hf.
  { intros A f l. apply Forall_map, Forall_true. intros a. apply hash_name_format. }
  unfold PutShardIndexes. apply refines_bind; [apply refines_put_all; [set_solver|apply Hf]|intros _].
  apply refines_bind; [apply refines_put_sha256|intros _]. apply refines_put_all; [set_solver|apply Hf].
Qed.
End indexes.
End admission.

(** ** Writing files *)

(** A temporary file: new, or the call fails. *)
Lemma CreateTemp_quiet dir pat s :
  quiet s -> exists s1, quiet s1 /\ fs_base s1 = fs_base s /\ fs_rooted s1 = fs_rooted s /\
    ((exists e, os_CreateTemp dir pat s = (Err e, s1) /\ fs_files s1 = fs_files s) \/
     (exists tmp o, os_CreateTemp dir pat s = (Ok tmp, s1) /\ fs_files s !! tmp = None /\ fs_files s1 = <[tmp := o]> (fs_files s))).
Proof.
  intros Hq. unfold os_CreateTemp. rewrite os_call_quiet by done. cbn [fs_files]. case_bool_decide as Hs.
  - eexists. split; [|split; [|split; [|left; eexists; split; [reflexivity|]]]]; done.
  - apply eq_None_not_Some in Hs.
    eexists. split; [|split; [|split; [|right; eexists _, _; split; [reflexivity|]]]]; done.
Qed.

(** The temporary file written, renamed over [p], leaves one file more. *)
Lemma rename_quiet tmp p o s :
  quiet s -> fs_files s !! tmp = Some o ->
  exists s', os_Rename tmp p s = (Ok tt, s') /\ quiet s' /\ fs_base s' = fs_base s /\ fs_rooted s' = fs_rooted s /\
    fs_files s' = <[p := o]> (delete tmp (fs_files s)).
Proof.
  intros Hq Ho. unfold os_Rename. rewrite os_call_quiet by done. unfold mbind, prog_bind, lookup_file. rewrite Ho. by eexists.
Qed.

Lemma remove_quiet tmp o s :
  quiet s -> fs_files s !! tmp = Some o -> os_Remove tmp s = (Ok tt, set_files (delete tmp (fs_files s)) s).
Proof. intros Hq Ho. unfold os_Remove. rewrite os_call_quiet by done. unfold mbind, prog_bind, lookup_file. by rewrite Ho. Qed.

(** How writing a file under a new name ends. *)
Definition wrote {A} (p : path) (data : list byte) (s : fsys) (r : result A) (s' : fsys) : Prop :=
  quiet s' /\ fs_base s' = fs_base s /\ fs_rooted s' = fs_rooted s /\
  match r with
  | Err _ => fs_files s' = fs_files s
  | Ok _ => exists t, fs_files s' = <[p := MkObject data t]> (fs_files s)
  end.

(** What follows the temporary file: write, chmod, close, rename. *)
Lemma publish_quiet {A} (a : A) tmp p o data s h1 h2 h3 h4 :
  quiet s -> fs_files s !! tmp = Some o ->
  exists s' t, catch (os_Write tmp data) (fun _ => catch (os_Chmod tmp) (fun _ =>
    catch (os_Close tmp) (fun _ => catch (os_Rename tmp p) (fun _ => mret a) h1) h2) h3) h4 s = (Ok a, s') /\
    quiet s' /\ fs_base s' = fs_base s /\ fs_rooted s' = fs_rooted s /\
    fs_files s' = <[p := MkObject data t]> (delete tmp (fs_files s)).
Proof.
  intros Hq Ho. unfold catch at 1, os_Write. rewrite os_call_quiet by done. unfold mbind, prog_bind. cbn [os_now fst snd store_file].
  set (t := fe_now _ _). unfold store_file.
  set (s1 := set_files _ _). assert (quiet s1) as Hq1 by done.
  unfold catch at 1, os_Chmod. rewrite os_call_quiet by done. cbn [mret prog_ret].
  unfold catch at 1, os_Close. rewrite os_call_quiet by done. cbn [mret prog_ret].
  destruct (rename_quiet tmp p (MkObject data t) s1 Hq1) as (s' & E & Hq' & Hb & Hr & Hf); [cbn; apply lookup_insert_eq|].
  unfold catch. rewrite E. exists s', t. split; [done|]. split; [done|]. split; [done|]. split; [done|].
  rewrite Hf. cbn. by rewrite delete_insert_eq.
Qed.

Lemma overwrite_quiet p data s :
  quiet s -> exists r s', overwriteIndexFile p data s = (r, s') /\ wrote p data s r s'.
Proof.
  intros Hq. unfold overwriteIndexFile, os_MkdirAll. assert (os_call (mret tt) s = (Ok tt, s)) as E0 by (by rewrite os_call_quiet).
  rewrite (prog_bind_Ok _ _ _ _ _ E0). destruct (CreateTemp_quiet (Dir p) (str ".idx-") s Hq) as (s1 & Hq1 & Hb & Hr & [(e & E & Hf)|(tmp & o & E & Hn & Hf)]).
  - exists (Err e), s1. unfold mbind, prog_bind. by rewrite E.
  - rewrite (prog_bind_Ok _ _ _ _ _ E). cbn zeta.
    destruct (publish_quiet tt tmp p o data s1
      (fun e => _ ← ignore (os_Remove tmp); throw e) (fun e => _ ← ignore (os_Remove tmp); throw e)
      (fun e => _ ← ignore (os_Close tmp); _ ← ignore (os_Remove tmp); throw e)
      (fun e => _ ← ignore (os_Close tmp); _ ← ignore (os_Remove tmp); throw e) Hq1) as (s' & t & E' & Hq' & Hb' & Hr' & Hf').
    { rewrite Hf. apply lookup_insert_eq. }
    exists (Ok tt), s'. split; [etrans; [|exact E']|].
    + unfold catch. repeat (case_match; try done). by match goal with u : unit |- _ => destruct u end.
    + split; [done|]. split; [congruence|]. split; [congruence|]. exists t. by rewrite Hf', Hf, delete_insert_id.
Qed.

Lemma stat_missing {B} p s (k : object -> prog fsys B) h :
  quiet s -> fs_files s !! p = None -> catch (os_Stat p) k h s = h ErrNotExist s.
Proof. intros Hq Ho. unfold catch, os_Stat. rewrite os_call_quiet by done. unfold lookup_file. by rewrite Ho. Qed.

Lemma stat_present {B} p s o (k : object -> prog fsys B) h :
  quiet s -> fs_files s !! p = Some o -> catch (os_Stat p) k h s = k o s.
Proof. intros Hq Ho. unfold catch, os_Stat. rewrite os_call_quiet by done. unfold lookup_file. by rewrite Ho. Qed.

(** A program that leaves the files alone or adds the object [kind], [name],
    with data it determines. *)
Definition adds_only {A} (kind name : gostring) (data : list byte) (f : prog fsys A) : Prop :=
  forall s, quiet s -> quiet (f s).2 /\
    (same_files s (f s).2 \/ exists t, adds_file (objectPath kind name s) (MkObject data t) s (f s).2).

Lemma refines_adds {A} kind name data (f : prog fsys A) :
  kind ∈ kinds -> hash_name name = true -> (kind ∈ [kFiles; kChunks; kSHA256] -> hash_name (TrimSpace data) = true) ->
  adds_only kind name data f -> refines (on_fs f) f.
Proof.
  intros Hk Hn Hd Hf. apply refines_on_fs. intros s Hl Hq. destruct (Hf _ Hq) as [Hq' [Hs|[t Ha]]]; (split; [|done]).
  - by apply linv_same.
  - by eapply linv_adds.
Qed.

Lemma adds_if_missing {A} kind name data (there : prog fsys A) (missing : path -> error -> prog fsys A) :
  pure_read there ->
  (forall s, quiet s -> exists r s', missing (objectPath kind name s) ErrNotExist s = (r, s') /\ wrote (objectPath kind name s) data s r s') ->
  adds_only kind name data (with_path kind name (fun p => catch (os_Stat p) (fun _ => there) (missing p))).
Proof.
  intros Ht Hm s Hq. unfold with_path. destruct (fs_files s !! objectPath kind name s) as [o|] eqn:Ho.
  - rewrite (stat_present _ _ o) by done. rewrite Ht by done. split; [done|]. by left.
  - rewrite stat_missing by done. destruct (Hm s Hq) as (r & s' & E & Hq' & Hb & Hr & Hf). rewrite E. split; [done|].
    destruct r as [a|e]; [destruct Hf as [t Hf]; right; by exists t|by left].
Qed.

Lemma refines_write_index kind name value :
  kind ∈ [kFiles; kChunks; kSHA256] -> hash_name name = true -> hash_name value = true ->
  refines (on_fs (with_path kind name (fun p => writeIndexFile p value))) (with_path kind name (fun p => writeIndexFile p value)).
Proof.
  intros Hk Hn Hv. apply (refines_adds kind name value); [unfold kinds; set_solver|done| |].
  - intros _. rewrite TrimSpace_hex; [done|by apply hash_name_digits].
  - apply adds_if_missing; [apply pure_read_ret|]. intros s Hq. by apply overwrite_quiet.
Qed.

Lemma refines_put_shard_file n data : hash_name n = true -> refines (on_fs (put_shard_file n data)) (put_shard_file n data).
Proof.
  intros Hn. apply (refines_adds kShards n data); [unfold kinds; set_solver|done|set_solver|].
  apply adds_if_missing; [apply pure_read_ret|]. intros s Hq. cbn [negb].
  destruct (overwrite_quiet (objectPath kShards n s) data s Hq) as (r & s' & E & Hw). unfold mbind, prog_bind, prog_wrap, catch.
  change (errors_Is ErrNotExist ErrNotExist) with true. cbn [negb]. rewrite E. by destruct r; eexists _, _.
Qed.

Section writing.
Context {B3 : Blake3} {L : Lz4} {P : ChunkBufs}.

(** What the validator has read through the tee. *)
Definition teed (h : XorbHash) (r : reader) : list byte :=
  match validate_stream r h with
  | Ok rest => take (length (rdata r) - length (rdata rest)) (rdata r)
  | Err _ => []
  end.

Lemma discard_quiet {A} tmp o (e : error) s :
  quiet s -> fs_files s !! tmp = Some o ->
  (_ ← ignore (os_Close tmp); _ ← ignore (os_Remove tmp); throw e : prog fsys A) s = (Err e, set_files (delete tmp (fs_files s)) s).
Proof.
  intros Hq Ho. unfold mbind, prog_bind, ignore, os_Close. rewrite os_call_quiet by done. cbn [mret prog_ret snd].
  by rewrite (remove_quiet tmp o) by done.
Qed.

Lemma put_xorb_adds h r : adds_only kXorbs (formatHash h) (teed h r) (put_xorb_file h r).
Proof.
  apply adds_if_missing; [apply pure_read_ret|]. intros s Hq. set (p := objectPath _ _ s). unfold teed.
  unfold os_MkdirAll. assert (prog_wrap "create xorb directory: %w" (os_call (mret tt)) s = (Ok tt, s)) as E0
    by (unfold prog_wrap, catch; by rewrite os_call_quiet).
  rewrite (prog_bind_Ok _ _ _ _ _ E0).
  destruct (CreateTemp_quiet (Dir p) (str ".xorb-") s Hq) as (s1 & Hq1 & Hb & Hr & [(e & E & Hf)|(tmp & o & E & Hn & Hf)]).
  - eexists (Err _), s1. unfold mbind, prog_bind, prog_wrap, catch. rewrite E. split; [done|]. by destruct (validate_stream r h).
  - assert (prog_wrap "create xorb file: %w" (os_CreateTemp (Dir p) (str ".xorb-")) s = (Ok tmp, s1)) as E1
      by (unfold prog_wrap, catch; by rewrite E).
    rewrite (prog_bind_Ok _ _ _ _ _ E1). cbn zeta. assert (fs_files s1 !! tmp = Some o) as Ho by (rewrite Hf; apply lookup_insert_eq).
    destruct (validate_stream r h) as [rest|e].
    + edestruct (publish_quiet true tmp p o) as (s' & t & E' & Hq' & Hb' & Hr' & Hf'); [done|done|].
      exists (Ok true), s'. split; [exact E'|]. split; [done|]. split; [congruence|]. split; [congruence|].
      exists t. by rewrite Hf', Hf, delete_insert_id.
    + eexists (Err _), _. split; [by apply (discard_quiet tmp o)|]. split; [done|]. split; [done|]. split; [done|].
      cbn. by rewrite Hf, delete_insert_id.
Qed.

Lemma refines_PutXorb h r : refines (lfs_PutXorb h r) (put_xorb_file h r).
Proof.
  apply (refines_adds kXorbs (formatHash h) (teed h r)); [unfold kinds; set_solver|apply hash_name_format|set_solver|apply put_xorb_adds].
Qed.

Fixpoint cold_all_have (files : list FileBlock) : prog fsys bool :=
  match files with
  | [] => mret true
  | file :: files =>
      exists_ ← prog_wrap "check shard: %w" (cold_hasFile (fb_FileHash file));
      if (exists_ : bool) then cold_all_have files else mret false
  end.

Definition cold_PutShard (sh : Shard) : prog fsys bool :=
  already ← (if 0 <? len (s_Files sh) then cold_all_have (s_Files sh) else mret false);
  if (already : bool) then mret false
  else
    sh ← PrepareShard sh;
    '(encoded, shardHash) ← lift (wrap_err "serialize shard: %w" (EncodeShard 0 sh));
    wasInserted ← put_shard_file shardHash encoded;
    _ ← PutShardIndexes sh shardHash (fun kind name value => with_path kind name (fun p => writeIndexFile p value));
    mret wasInserted.

Lemma refines_all_have files : refines (all_have files) (cold_all_have files).
Proof. induction files as [|file files IH]; cbn [all_have cold_all_have]; auto 8 with refines. Qed.

Lemma EncodeShard_name now sh d n : EncodeShard now sh = Ok (d, n) -> hash_name n = true.
Proof. unfold EncodeShard. destruct (ReadAll _ _ _) as [data|e]; [|done]. cbn. intros [= _ <-]. apply hash_name_hex. Qed.

Lemma refines_PutShard sh : refines (lfs_PutShard sh) (cold_PutShard sh).
Proof.
  unfold lfs_PutShard, cold_PutShard. apply refines_bind; [destruct (0 <? len (s_Files sh)); [apply refines_all_have|auto with refines]|intros [|]; [auto with refines|]].
  apply refines_bind; [apply refines_PrepareShard|intros sh'].
  apply (refines_bind_with (fun p => hash_name p.2 = true)); [auto with refines| |].
  { intros s [d n] _ _ E. unfold lift, wrap_err in E. destruct (EncodeShard 0 sh') as [dn|e] eqn:En; cbn [fst] in E; [|done].
    injection E as ->. by eapply EncodeShard_name. }
  intros [d n] Hn. cbn in Hn. apply refines_bind; [by apply refines_put_shard_file|intros ins].
  apply refines_bind; [|auto with refines]. apply refines_PutShardIndexes. intros kind name Hk Hname. by apply refines_write_index.
Qed.
End writing.

(** ** Deleting *)

(** A delete of one object: its file is gone, and so is what was cached of it. *)
Definition deletes_file (p : path) (s s' : fsys) : Prop :=
  fs_base s' = fs_base s /\ fs_rooted s' = fs_rooted s /\ fs_files s' = delete p (fs_files s).

Lemma attempt_remove kind name s :
  quiet s -> exists r s', attempt (with_path kind name os_Remove) s = (Ok r, s') /\ quiet s' /\ deletes_file (objectPath kind name s) s s'.
Proof.
  intros Hq. unfold attempt, with_path, os_Remove. rewrite os_call_quiet by done. unfold mbind, prog_bind, lookup_file.
  destruct (fs_files s !! objectPath kind name s) as [o|] eqn:Ho; eexists _, _; (split; [done|]); (split; [done|]); (split; [done|]); split; try done.
  by rewrite delete_id.
Qed.

Lemma index_kinds kind : kind ∈ [kFiles; kChunks; kSHA256] -> kind ∈ kinds.
Proof. unfold kinds. set_solver. Qed.
Lemma kXorbs_kind : kXorbs ∈ kinds.
Proof. unfold kinds. set_solver. Qed.
Lemma kShards_kind : kShards ∈ kinds.
Proof. unfold kinds. set_solver. Qed.
Lemma kFiles_kind : kFiles ∈ kinds.
Proof. unfold kinds. set_solver. Qed.
Lemma kChunks_kind : kChunks ∈ kinds.
Proof. unfold kinds. set_solver. Qed.
Lemma kSHA256_kind : kSHA256 ∈ kinds.
Proof. unfold kinds. set_solver. Qed.

Section deleting.
Context (kind n : gostring) (Hk : kind ∈ kinds) (Hn : hash_name n = true).

(** Everything cached is what the files say, and nothing of it is the object. *)
Record linv_away (s : local) (holds : list nat) (l : list (XorbHash * nat)) : Prop := {
  la_xorbs : inv None (MkConf (lc_xorbCache s) (lc_heap s) holds ∅) l;
  la_mapped : forall h p, (h, p) ∈ l -> exists m, h_maps (lc_heap s) !! p = Some m /\
    (kXorbs, formatHash h) <> (kind, n) /\ xorb_is h (fs_of s) (mp_file m);
  la_files : coherent (fun h v => (kFiles, formatHash h) <> (kind, n) /\ index_is kFiles (formatHash h) (fs_of s) v) (ix_Files (lc_caches s));
  la_shards : coherent (fun n' sh => (kShards, n') <> (kind, n) /\ shard_is n' (fs_of s) sh) (ix_Shards (lc_caches s));
  la_chunks : coherent (fun h v => (kChunks, formatHash h) <> (kind, n) /\ index_is kChunks (formatHash h) (fs_of s) v) (ix_Chunks (lc_caches s));
  la_sha256 : coherent (fun (d : SHA256Hash) v => (kSHA256, hex_encode d) <> (kind, n) /\ index_is kSHA256 (hex_encode d) (fs_of s) v)
    (ix_SHA256 (lc_caches s));
  la_offsets : coherent (fun h t => (kXorbs, formatHash h) <> (kind, n) /\ offsets_are h (fs_of s) t) (ix_Offsets (lc_caches s));
  la_index : forall kind' n' v, kind' ∈ [kFiles; kChunks; kSHA256] -> hash_name n' = true -> index_is kind' n' (fs_of s) v -> hash_name v = true;
}.

Lemma file_survives kind' n' s s' :
  deletes_file (objectPath kind n s) s s' -> kind' ∈ kinds -> hash_name n' = true -> (kind', n') <> (kind, n) ->
  fs_files s' !! objectPath kind' n' s' = fs_files s !! objectPath kind' n' s.
Proof using Hk Hn.
  intros (Hb & Hr & Hf) Hk' Hn' Hne. unfold objectPath at 1. rewrite Hb, Hr, Hf. apply lookup_delete_ne.
  intros E. apply objectPath_inj in E as [-> ->]; done.
Qed.

Lemma index_survives kind' n' s s' v :
  deletes_file (objectPath kind n s) s s' -> kind' ∈ kinds -> hash_name n' = true ->
  (kind', n') <> (kind, n) /\ index_is kind' n' s v -> index_is kind' n' s' v.
Proof using Hk Hn. intros Hd Hk' Hn' [Hne (o & Ho & Hv)]. exists o. rewrite (file_survives kind' n' s s' Hd Hk' Hn' Hne). auto. Qed.

Lemma xorb_survives h s s' d :
  deletes_file (objectPath kind n s) s s' -> (kXorbs, formatHash h) <> (kind, n) -> xorb_is h s d -> xorb_is h s' d.
Proof using Hk Hn.
  intros Hd Hne (o & Ho & Hv). exists o. rewrite (file_survives kXorbs _ s s' Hd kXorbs_kind (hash_name_format h) Hne). auto.
Qed.

(** The file may go. *)
Lemma linv_delete s holds l fs' :
  linv_away s holds l -> deletes_file (objectPath kind n (fs_of s)) (fs_of s) fs' -> linv_with (set_fs fs' s) holds l.
Proof using Hk Hn.
  intros [L1 L2 L3 L4 L5 L6 L7 L8] Hd. refine (Build_linv_with (set_fs fs' s) holds l _ _ _ _ _ _ _ _).
  - exact (inv_os None _ _ _ _ _ fs' L1).
  - intros h p Hp. destruct (L2 h p Hp) as (m & Hm & Hne & Hx). exists m. split; [done|]. by eapply xorb_survives.
  - refine (coherent_mono _ _ _ _ L3). intros h v. apply (index_survives _ _ _ _ _ Hd kFiles_kind), hash_name_format.
  - refine (coherent_mono _ _ _ _ L4). intros n' sh [Hne (Hn' & o & Ho & Hl)]. split; [done|]. exists o.
    change (fs_of (set_fs fs' s)) with fs'. rewrite (file_survives kShards n' (fs_of s) fs' Hd kShards_kind Hn' Hne). auto.
  - refine (coherent_mono _ _ _ _ L5). intros h v. apply (index_survives _ _ _ _ _ Hd kChunks_kind), hash_name_format.
  - refine (coherent_mono _ _ _ _ L6). intros d v. apply (index_survives _ _ _ _ _ Hd kSHA256_kind), hash_name_hex.
  - refine (coherent_mono _ _ _ _ L7). intros h t [Hne (d & Hd' & Ht)]. exists d. split; [by eapply xorb_survives|done].
  - intros kind' n' v Hk' Hn' (o & Ho & Hv). apply (L8 kind' n'); [done|done|]. exists o. split; [|done].
    destruct Hd as (Hb & Hr & Hf). change (fs_of (set_fs fs' s)) with fs' in Ho. unfold objectPath in Ho.
    rewrite Hb, Hr, Hf in Ho. by apply lookup_delete_Some in Ho as [_ Ho].
Qed.

(** [delete_entry] on the cache of [kind]. *)
Lemma refines_delete_entry {K V} `{Countable K} (ln : lens IndexCaches (icache K V)) R key fmt :
  cached ln R ->
  (forall s c, linv s -> coherent (fun k v => k <> key /\ R k v (fs_of s)) c -> exists holds l, linv_away (put (lens_caches ln) c s) holds l) ->
  refines (delete_entry kind n (at_lens (lens_caches ln) (ic_Remove key)) fmt) (cold_delete kind n fmt).
Proof using Hk Hn.
  intros C Haway s Hl Hq. unfold delete_entry, cold_delete. destruct (attempt_remove kind n (fs_of s) Hq) as (r & fs' & E & Hq' & Hd).
  assert (on_fs (attempt (with_path kind n os_Remove)) s = (Ok r, set_fs fs' s)) as E1 by (unfold on_fs; by rewrite E).
  rewrite (prog_bind_Ok _ _ _ _ _ E), (prog_bind_Ok _ _ _ _ _ E1).
  destruct (ic_Remove_coherent _ key _ (cached_view _ _ C s Hl)) as (c & Ec & Hc).
  assert (at_lens (lens_caches ln) (ic_Remove key) (set_fs fs' s) = (Ok tt, set_fs fs' (put (lens_caches ln) c s))) as E2.
  { unfold at_lens. cbn [view lens_caches set_fs lc_caches]. by rewrite Ec. }
  rewrite (prog_bind_Ok _ _ _ _ _ E2). destruct (Haway s c Hl Hc) as (holds & l & L).
  assert (linv (set_fs fs' (put (lens_caches ln) c s))) as Hl' by (exists holds, l; by apply linv_delete).
  destruct r as [e|]; [destruct (errors_Is e ErrNotExist)|]; eexists _, _; (split; [reflexivity|done]).
Qed.
End deleting.

(** A cache of another kind. *)
Lemma coherent_away {K V} `{Countable K} (R : K -> V -> Prop) (kind' : gostring) (name : K -> gostring) (kind n : gostring) (c : icache K V) :
  kind' <> kind -> coherent R c -> coherent (fun k v => (kind', name k) <> (kind, n) /\ R k v) c.
Proof. intros Hne. apply coherent_mono. intros k v HR. split; [congruence|done]. Qed.

(** The evicted key is the only one of the name. *)
Lemma coherent_evicted {K V} `{Countable K} (R : K -> V -> Prop) (kind : gostring) (name : K -> gostring) n key (c : icache K V) :
  (forall k, name k = n -> k = key) -> coherent (fun k v => k <> key /\ R k v) c ->
  coherent (fun k v => (kind, name k) <> (kind, n) /\ R k v) c.
Proof. intros Hne. apply coherent_mono. intros k v [Hk HR]. split; [|done]. intros [= E]. by apply Hk, Hne. Qed.

Lemma kinds_differ : NoDup kinds.
Proof. apply (bool_decide_eq_true_1 (NoDup kinds)). vm_compute. reflexivity. Qed.

Ltac other_kind := apply (bool_decide_eq_true_1 (_ <> _)); vm_compute; reflexivity.

Lemma mapped_away s holds l kind n :
  linv_with s holds l -> kXorbs <> kind ->
  forall h p, (h, p) ∈ l -> exists m, h_maps (lc_heap s) !! p = Some m /\ (kXorbs, formatHash h) <> (kind, n) /\ xorb_is h (fs_of s) (mp_file m).
Proof.
  intros L Hne h p Hp. destruct (li_mapped _ _ _ L h p Hp) as (m & Hm & Hx). exists m. split; [done|]. split; [congruence|done].
Qed.

(** The cache [evicted] has lost the key; the others are of other kinds. *)
Ltac solve_away evicted :=
  lazymatch goal with
  | |- coherent _ (evicted (lc_caches (put _ ?c _))) =>
      cbn [put lens_caches lc_caches evicted]; eapply coherent_evicted; [|eassumption]
  | L : coherent _ (?field (lc_caches ?s)) |- coherent _ (?field (lc_caches (put _ _ ?s))) =>
      refine (coherent_away _ _ _ _ _ _ _ L); other_kind
  end.

Lemma refines_DeleteFileIndexEntry h : refines (lfs_DeleteFileIndexEntry h) (cold_delete kFiles (formatHash h) "delete file index: %w").
Proof.
  refine (refines_delete_entry kFiles _ kFiles_kind (hash_name_format h) lens_Files _ h _ cached_Files _).
  intros s c (holds & l & L) Hc. exists holds, l. pose proof (mapped_away s holds l kFiles (formatHash h) L ltac:(other_kind)) as L2'.
  destruct L as [L1 L2 L3 L4 L5 L6 L7 L8].
  refine (Build_linv_away _ _ (put (lens_caches lens_Files) c s) holds l L1 L2' _ _ _ _ _ L8); solve_away ix_Files.
  intros k. apply (inj formatHash).
Qed.

Lemma refines_delete_chunk_entry h : refines (delete_entry kChunks (formatHash h) (at_lens (lens_caches lens_Chunks) (ic_Remove h)) "delete chunk index: %w")
  (cold_delete kChunks (formatHash h) "delete chunk index: %w").
Proof.
  refine (refines_delete_entry kChunks _ kChunks_kind (hash_name_format h) lens_Chunks _ h _ cached_Chunks _).
  intros s c (holds & l & L) Hc. exists holds, l. pose proof (mapped_away s holds l kChunks (formatHash h) L ltac:(other_kind)) as L2'.
  destruct L as [L1 L2 L3 L4 L5 L6 L7 L8].
  refine (Build_linv_away _ _ (put (lens_caches lens_Chunks) c s) holds l L1 L2' _ _ _ _ _ L8); solve_away ix_Chunks.
  intros k. apply (inj formatHash).
Qed.

Lemma refines_delete_shard_entry n : hash_name n = true -> refines (delete_entry kShards n (at_lens (lens_caches lens_Shards) (ic_Remove n)) "delete shard: %w")
  (cold_delete kShards n "delete shard: %w").
Proof.
  intros Hn. refine (refines_delete_entry kShards _ kShards_kind Hn lens_Shards _ n _ cached_Shards _).
  intros s c (holds & l & L) Hc. exists holds, l. pose proof (mapped_away s holds l kShards n L ltac:(other_kind)) as L2'.
  destruct L as [L1 L2 L3 L4 L5 L6 L7 L8].
  refine (Build_linv_away _ _ (put (lens_caches lens_Shards) c s) holds l L1 L2' _ _ _ _ _ L8); solve_away ix_Shards.
  by intros k ->.
Qed.

Lemma hash_name_raw n : hash_name n = true -> exists raw, hex_decode n = Some raw /\ length raw = 32%nat.
Proof.
  intros [Hl%Z.eqb_eq [raw Hr]%bool_decide_eq_true]%andb_prop. exists raw. split; [done|]. unfold len in Hl.
  assert (forall m s r, (length s <= m)%nat -> hex_decode s = Some r -> length s = (2 * length r)%nat) as Hlen; [|specialize (Hlen 64%nat n raw ltac:(lia) Hr); lia].
  intros m. induction m as [|m IH]; intros [|a [|b s]] r Hm E; cbn in Hm, E; try done; try lia; try (by injection E as <-).
  destruct (digit_val a), (digit_val b), (hex_decode s) as [r'|] eqn:Es; try done. destruct (_ && _); [|done]. injection E as <-.
  cbn. rewrite (IH s r') by (done || lia). lia.
Qed.

Lemma refines_DeleteSHA256IndexEntry n : hash_name n = true -> refines (lfs_DeleteSHA256IndexEntry n) (cold_delete kSHA256 n "delete SHA-256 index: %w").
Proof.
  intros Hn. destruct (hash_name_raw n Hn) as (raw & Hr & Hlen). unfold lfs_DeleteSHA256IndexEntry, evictSHA256. rewrite Hr.
  replace (len raw =? 32) with true by (unfold len; by rewrite Hlen). cbn [negb].
  refine (refines_delete_entry kSHA256 _ kSHA256_kind Hn lens_SHA256 _ (to_arr 32 raw : SHA256Hash) _ cached_SHA256 _).
  intros s c (holds & l & L) Hc. exists holds, l. pose proof (mapped_away s holds l kSHA256 n L ltac:(other_kind)) as L2'.
  destruct L as [L1 L2 L3 L4 L5 L6 L7 L8].
  refine (Build_linv_away _ _ (put (lens_caches lens_SHA256) c s) holds l L1 L2' _ _ _ _ _ L8); solve_away ix_SHA256.
  intros k <-. rewrite hex_decode_encode in Hr. injection Hr as <-. by rewrite to_arr_vec.
Qed.

Lemma remove_any kind name s :
  quiet s -> exists r s', with_path kind name os_Remove s = (r, s') /\ quiet s' /\ deletes_file (objectPath kind name s) s s'.
Proof.
  intros Hq. destruct (attempt_remove kind name s Hq) as (r & s' & E & Hq' & Hd). unfold attempt in E.
  destruct (with_path kind name os_Remove s) as [[u|e] s1] eqn:E1; injection E as <- <-; eexists _, _; done.
Qed.

Lemma refines_DeleteXorb h : refines (lfs_DeleteXorb h) (cold_DeleteXorb h).
Proof.
  intros s (holds & l & L) Hq. destruct (xm_Remove_ok None h _ _ _ _ eq_refl (li_xorbs _ _ _ L)) as (c1 & hp1 & E1 & I1 & He1 & Ho1).
  set (s1 := MkLocal (lc_baseURL s) (lc_caches s) c1 hp1).
  assert (at_xorbs (xm_Remove h) s = (Ok tt, s1)) as E1' by (unfold at_xorbs; by rewrite E1).
  assert (fs_of s1 = fs_of s) as Hfs by exact Ho1.
  assert (linv_with s1 holds (drop_key h l)) as L1.
  { eapply linv_xorbs; [exact L|exact I1|exact Ho1|]. eapply mapped_ext; [exact L|exact He1|]. by intros kv [_ ?]%list_elem_of_filter. }
  destruct (ic_Remove_coherent _ h _ (li_offsets _ _ _ L1)) as (c2 & E2 & Hc2). set (s2 := put (lens_caches lens_Offsets) c2 s1).
  assert (at_lens (lens_caches lens_Offsets) (ic_Remove h) s1 = (Ok tt, s2)) as E2'.
  { unfold at_lens. cbn [view lens_caches lens_Offsets]. by rewrite E2. }
  assert (linv_away kXorbs (formatHash h) s2 holds (drop_key h l)) as A2.
  { destruct L1 as [K1 K2 K3 K4 K5 K6 K7 K8]. refine (Build_linv_away _ _ s2 holds _ K1 _ _ _ _ _ _ K8); [|subst s2; solve_away ix_Offsets..].
    - intros h' p Hp. destruct (K2 h' p Hp) as (m & Hm & Hx). exists m. split; [done|]. split; [|done].
      intros [= E%(inj formatHash)]. apply list_elem_of_filter in Hp as [Hne _]. by apply Hne.
    - intros k. apply (inj formatHash). }
  unfold lfs_DeleteXorb. rewrite (prog_bind_Ok _ _ _ _ _ E1'), (prog_bind_Ok _ _ _ _ _ E2').
  change (fs_of s1) with (fs_of s2) in Hfs. rewrite <- Hfs in *.
  destruct (remove_any kXorbs (formatHash h) (fs_of s2) Hq) as (r & fs' & E & Hq' & Hd).
  assert (linv (set_fs fs' s2)) as Hl' by (exists holds, (drop_key h l); exact (linv_delete _ _ kXorbs_kind (hash_name_format h) _ _ _ _ A2 Hd)).
  unfold cold_DeleteXorb, catch, on_fs. rewrite E. fold (set_fs fs' s2).
  destruct r as [u|e]; [|destruct (errors_Is e ErrNotExist)]; eexists _, (set_fs fs' s2); (split; [reflexivity|done]).
Qed.

(** ** Walking *)

Section walks.
Context {X A : Type}.

Lemma refines_visit_all root (info : path -> prog fsys X) (fn : gostring -> X -> A -> prog local A) fn' files :
  (forall p, pure_read (info p)) -> (forall n x a, hash_name n = true -> refines (fn n x a) (fn' n x a)) ->
  forall acc, refines (visit_all (@on_fs) root info fn files acc) (visit_all (fun B m => m) root info fn' files acc).
Proof.
  intros Hi Hfn. induction files as [|p files IH]; intros acc; cbn [visit_all]; [auto with refines|].
  apply refines_bind; [|done]. unfold visit. apply refines_bind; [apply refines_read, keeps_ctx|intros _].
  destruct (hash_name (walk_name root p)) eqn:Hn; cbn [negb]; [|auto with refines].
  apply refines_catch; [by apply refines_read_pure|intros x; by apply Hfn|]. auto with refines.
Qed.

Lemma refines_walk_dir kind (info : path -> prog fsys X) (fn : gostring -> X -> A -> prog local A) fn' acc :
  (forall p, pure_read (info p)) -> (forall n x a, hash_name n = true -> refines (fn n x a) (fn' n x a)) ->
  refines (walk_dir (@on_fs) kind info fn acc) (walk_dir (fun B m => m) kind info fn' acc).
Proof.
  intros Hi Hfn. unfold walk_dir. apply refines_bind; [apply refines_read_pure; by apply pure_read_call|].
  intros [root files]. by apply refines_visit_all.
Qed.
End walks.

Lemma file_info_pure p : pure_read (file_info p).
Proof. unfold file_info. auto with pure_read. Qed.
Lemma file_entry_pure p : pure_read (file_entry p).
Proof. unfold file_entry. auto with pure_read. Qed.
