(* ===== verification/LocalClient.v ===== *)
(** * Programs over the local backend

    A program is a tree of calls: each call's answer, an error included, decides
    what follows, and the callbacks of walks are programs themselves.  It is
    run on the backend of [Local.v] and on the bare file system, without any
    cache; [caches_transparent] says that the two cannot be told apart, however
    warm the caches are. *)

From Stdlib Require Import ZArith Lia Strings.Byte Strings.String.
From S2P Require Import Prelude Prog Hash Sha256 Gearhash Merkle ByteGrouping Compression XorbEncoder XorbDecoder.
From S2P Require Import XorbOffsets Shard ShardCodec Lru IndexCache Xorbmap Storage FileSystem PutShard Local LocalCache.

(** ** Programs *)

(** The calls of the backend and what they return; a xorb is opened, read to
    the end and closed. *)
Inductive op : Type -> Type :=
  | OPutXorb (h : XorbHash) (r : reader) : op bool
  | OHasXorb (h : XorbHash) : op bool
  | OReadXorb (h : XorbHash) : op (list byte)
  | OGetXorbChunkOffsets (h : XorbHash) : op (list Z)
  | ODeleteXorb (h : XorbHash) : op unit
  | OPutShard (sh : Shard) : op bool
  | OGetShard (h : FileHash) : op Shard
  | OGetShardByChunkHash (h : ChunkHash) : op Shard
  | OGetShardByHash (n : gostring) : op Shard
  | OLoadShard (n : gostring) : op Shard
  | ODeleteShard (n : gostring) : op unit
  | OGetShardBySHA256 (d : SHA256Hash) : op Shard
  | OGetFileHashBySHA256 (d : SHA256Hash) : op FileHash
  | OGetFileIndexEntry (h : FileHash) : op gostring
  | OGetChunkIndexEntry (h : ChunkHash) : op gostring
  | OGetSHA256IndexEntry (n : gostring) : op gostring
  | ODeleteFileIndexEntry (h : FileHash) : op bool
  | ODeleteChunkIndexEntry (h : ChunkHash) : op unit
  | ODeleteSHA256IndexEntry (n : gostring) : op bool.

Inductive client : Type -> Type :=
  | Done {A} (r : result A) : client A
  | Call {A B} (o : op B) (k : result B -> client A) : client A
  | WalkHashed {A C} (kind : gostring) (fn : gostring -> Z * Z -> C -> client C) (acc : C) (k : result C -> client A) : client A
  | WalkIndex {A C} (kind : gostring) (fn : gostring -> gostring -> C -> client C) (acc : C) (k : result C -> client A) : client A.

(** Shards and SHA-256 entries are named by hashes, as walks and index entries
    name them. *)
Definition op_ok {B} (o : op B) : bool :=
  match o with
  | OGetShardByHash n | ODeleteShard n | ODeleteSHA256IndexEntry n => hash_name n
  | _ => true
  end.

Fixpoint client_ok {A} (c : client A) : Prop :=
  match c with
  | Done _ => True
  | Call o k => op_ok o = true /\ forall r, client_ok (k r)
  | WalkHashed _ fn _ k => (forall n x a, hash_name n = true -> client_ok (fn n x a)) /\ forall r, client_ok (k r)
  | WalkIndex _ fn _ k => (forall n x a, hash_name n = true -> client_ok (fn n x a)) /\ forall r, client_ok (k r)
  end.

(** The answer, error or not, goes to the rest. *)
Definition answer {S A B} (m : prog S A) (k : result A -> prog S B) : prog S B :=
  catch m (fun a => k (Ok a)) (fun e => k (Err e)).

Section clients.
Context {B3 : Blake3} {L : Lz4} {P : ChunkBufs}.

Definition local_op {B} (o : op B) : prog local B :=
  match o with
  | OPutXorb h r => lfs_PutXorb h r
  | OHasXorb h => lfs_HasXorb h
  | OReadXorb h => GetXorbReadSeekCloser h
  | OGetXorbChunkOffsets h => GetXorbChunkOffsets h
  | ODeleteXorb h => lfs_DeleteXorb h
  | OPutShard sh => lfs_PutShard sh
  | OGetShard h => getShard h
  | OGetShardByChunkHash h => lfs_GetShardByChunkHash h
  | OGetShardByHash n => getShardByHash n
  | OLoadShard n => lfs_LoadShard n
  | ODeleteShard n => lfs_DeleteShard n
  | OGetShardBySHA256 d => getShardBySHA256 d
  | OGetFileHashBySHA256 d => lfs_GetFileHashBySHA256 d
  | OGetFileIndexEntry h => lfs_GetFileIndexEntry h
  | OGetChunkIndexEntry h => lfs_GetChunkIndexEntry h
  | OGetSHA256IndexEntry n => lfs_GetSHA256IndexEntry n
  | ODeleteFileIndexEntry h => lfs_DeleteFileIndexEntry h
  | ODeleteChunkIndexEntry h => lfs_DeleteChunkIndexEntry h
  | ODeleteSHA256IndexEntry n => lfs_DeleteSHA256IndexEntry n
  end.

Definition cold_op {B} (o : op B) : prog fsys B :=
  match o with
  | OPutXorb h r => put_xorb_file h r
  | OHasXorb h => cold_HasXorb h
  | OReadXorb h => cold_with_xorb h Ok
  | OGetXorbChunkOffsets h => cold_xorbChunkOffsets h
  | ODeleteXorb h => cold_DeleteXorb h
  | OPutShard sh => cold_PutShard sh
  | OGetShard h => cold_getShard h
  | OGetShardByChunkHash h => cold_GetShardByChunkHash h
  | OGetShardByHash n => loadShard n
  | OLoadShard n => loadShard n
  | ODeleteShard n => _ ← cold_delete kShards n "delete shard: %w"; mret tt
  | OGetShardBySHA256 d => cold_getShardBySHA256 d
  | OGetFileHashBySHA256 d => cold_GetFileHashBySHA256 d
  | OGetFileIndexEntry h => index_entry kFiles (formatHash h) "read file index: %w"
  | OGetChunkIndexEntry h => index_entry kChunks (formatHash h) "read chunk index: %w"
  | OGetSHA256IndexEntry n => index_entry kSHA256 n "read SHA-256 index: %w"
  | ODeleteFileIndexEntry h => cold_delete kFiles (formatHash h) "delete file index: %w"
  | ODeleteChunkIndexEntry h => _ ← cold_delete kChunks (formatHash h) "delete chunk index: %w"; mret tt
  | ODeleteSHA256IndexEntry n => cold_delete kSHA256 n "delete SHA-256 index: %w"
  end.

Fixpoint local_run {A} (c : client A) : prog local A :=
  match c with
  | Done r => lift r
  | Call o k => answer (local_op o) (fun r => local_run (k r))
  | WalkHashed kind fn acc k => answer (Local.walkHashedObjects kind (fun n x a => local_run (fn n x a)) acc) (fun r => local_run (k r))
  | WalkIndex kind fn acc k => answer (walk_index_files kind (fun n x a => local_run (fn n x a)) acc) (fun r => local_run (k r))
  end.

Fixpoint cold_run {A} (c : client A) : prog fsys A :=
  match c with
  | Done r => lift r
  | Call o k => answer (cold_op o) (fun r => cold_run (k r))
  | WalkHashed kind fn acc k => answer (walk_dir (fun B m => m) kind file_info (fun n x a => cold_run (fn n x a)) acc) (fun r => cold_run (k r))
  | WalkIndex kind fn acc k => answer (walk_dir (fun B m => m) kind file_entry (fun n x a => cold_run (fn n x a)) acc) (fun r => cold_run (k r))
  end.

(** ** Every call refines *)

Lemma refines_op {B} (o : op B) : op_ok o = true -> refines (local_op o) (cold_op o).
Proof.
  destruct o; cbn [op_ok local_op cold_op]; intros Hok.
  - apply refines_PutXorb.
  - apply refines_HasXorb.
  - apply refines_with_xorb.
  - apply refines_xorbChunkOffsets.
  - apply refines_DeleteXorb.
  - apply refines_PutShard.
  - apply refines_getShard.
  - apply refines_GetShardByChunkHash.
  - by apply refines_getShardByHash.
  - apply refines_read_pure, loadShard_pure.
  - apply refines_bind; [by apply refines_delete_shard_entry|auto with refines].
  - apply refines_getShardBySHA256.
  - apply refines_GetFileHashBySHA256.
  - apply refines_read_pure, index_entry_pure.
  - apply refines_read_pure, index_entry_pure.
  - apply refines_read_pure, index_entry_pure.
  - apply refines_DeleteFileIndexEntry.
  - apply refines_bind; [apply refines_delete_chunk_entry|auto with refines].
  - by apply refines_DeleteSHA256IndexEntry.
Qed.

Lemma refines_run {A} (c : client A) : client_ok c -> refines (local_run c) (cold_run c).
Proof.
  induction c as [A r|A B o k IHk|A C kind fn IHfn acc k IHk|A C kind fn IHfn acc k IHk]; cbn [client_ok local_run cold_run].
  - auto with refines.
  - intros [Ho Hk]. apply refines_catch; [by apply refines_op|intros b; by apply IHk..].
  - intros [Hfn Hk]. apply refines_catch; [|intros b; by apply IHk..].
    apply refines_walk_dir; [apply file_info_pure|]. intros n x a Hn. by apply IHfn, Hfn.
  - intros [Hfn Hk]. apply refines_catch; [|intros b; by apply IHk..].
    apply refines_walk_dir; [apply file_entry_pure|]. intros n x a Hn. by apply IHfn, Hfn.
Qed.

(** ** The theorem *)

(** The index entries found on disk name shards by their hashes, as every entry
    the backend writes does. *)
Definition index_names (fs : fsys) : Prop :=
  forall kind n v, kind ∈ [kFiles; kChunks; kSHA256] -> hash_name n = true -> index_is kind n fs v -> hash_name v = true.

(** A process that has just started on [fs]. *)
Lemma start_linv baseURL size fs s :
  quiet fs -> index_names fs -> NewLocal baseURL size fs = Ok s -> linv s /\ fs_of s = fs.
Proof.
  intros Hq Hi. unfold NewLocal. assert (make_dirs fs = (Ok tt, fs)) as ->.
  { unfold make_dirs, os_MkdirAll. assert (prog_wrap "create directory %s: %w" (os_call (mret tt)) fs = (Ok tt, fs)) as E
      by (unfold prog_wrap, catch; by rewrite os_call_quiet).
    by rewrite !(prog_bind_Ok _ _ _ _ _ E). }
  intros [= <-]. split; [|done]. exists [], []. constructor; try apply coherent_new.
  - apply (start_inv None).
  - by intros h p ?%elem_of_nil.
  - exact Hi.
Qed.

Lemma linv_index_names s : linv s -> index_names (fs_of s).
Proof. intros Hl kind n v. by apply linv_index. Qed.

(** C5: the caches of the local backend cannot be observed.  A process started on a
    directory whose index entries name shards by their hashes runs any program
    over the backend, in which errors and walks may decide what follows, to the
    result and to the files that the same program gives on the bare files
    without index caches and without mappings, as long as no system call fails.
    And at every point a process that goes on answers like one restarted on the
    files it has left. *)
Theorem caches_transparent {A} (c : client A) baseURL size fs s :
  quiet fs -> index_names fs -> client_ok c -> NewLocal baseURL size fs = Ok s ->
  exists r s', local_run c s = (r, s') /\ cold_run c fs = (r, fs_of s') /\
    forall B (c2 : client B) baseURL' size' s2, client_ok c2 -> NewLocal baseURL' size' (fs_of s') = Ok s2 ->
      (local_run c2 s').1 = (local_run c2 s2).1 /\ fs_of (local_run c2 s').2 = fs_of (local_run c2 s2).2.
Proof.
  intros Hq Hi Hc Hs. destruct (start_linv _ _ _ _ Hq Hi Hs) as [Hl <-].
  destruct (refines_run c Hc s Hl Hq) as (r & s' & E & E' & Hl' & Hq'). exists r, s'. split; [done|]. split; [done|].
  intros B c2 url' size' s2 Hc2 Hs2. destruct (start_linv _ _ _ _ Hq' (linv_index_names _ Hl') Hs2) as [Hl2 Hfs].
  destruct (refines_run c2 Hc2 s' Hl' Hq') as (r1 & s1' & -> & E1 & _).
  rewrite <- Hfs in Hq', E1. destruct (refines_run c2 Hc2 s2 Hl2 Hq') as (r2 & s2' & -> & E2 & _).
  rewrite E1 in E2. by injection E2.
Qed.
End clients.

(** ** A directory with a xorb and an index entry *)

#[local] Instance local_b3 : Blake3 := poly_blake3.
#[local] Instance local_lz4 : Lz4 := rle_lz4.
#[local] Instance local_bufs : ChunkBufs := zero_bufs.

Definition bare_fs : fsys :=
  MkFs [str "data"] true ∅ (FsEnv (fun n => Z.of_nat n) (fun _ => str "1") (fun _ => None)) 0 0 0 (fun _ => false).

Definition small_fs : fsys :=
  set_files
    (<[objectPath kXorbs (formatHash zeroHash) bare_fs := MkObject two_bytes 1]>
      {[objectPath kFiles (formatHash zeroHash) bare_fs := MkObject (formatHash dataKey ++ [z2b 10]) 1]}) bare_fs.

(** The xorb is read twice, deleted and read again. *)
Definition small_client : client (result (list byte) * result (list byte) * result gostring * result (list byte)) :=
  Call (OReadXorb zeroHash) (fun r1 =>
  Call (OReadXorb zeroHash) (fun r2 =>
  Call (OGetFileIndexEntry zeroHash) (fun r3 =>
  Call (ODeleteXorb zeroHash) (fun _ =>
  Call (OReadXorb zeroHash) (fun r4 =>
  Done (Ok (r1, r2, r3, r4))))))).

Definition small_local : local := MkLocal [] NewIndexCaches (NewXorbmap None 4) (MkHeap [] 0 [] small_fs).

Lemma small_index_names : index_names small_fs.
Proof.
  intros kind n v Hk Hn (o & Ho & ->). change (objectPath kind n small_fs) with (objectPath kind n bare_fs) in Ho.
  cbn [small_fs set_files fs_files] in Ho. apply lookup_insert_Some in Ho as [[E _]|[_ Ho]].
  - apply objectPath_inj in E as [<- _]; [|apply kXorbs_kind| |apply hash_name_format|done].
    + exfalso. revert Hk. apply (bool_decide_eq_true_1 (kXorbs ∉ [kFiles; kChunks; kSHA256])). vm_compute. reflexivity.
    + by apply index_kinds.
  - apply lookup_singleton_Some in Ho as [_ <-]. vm_compute. reflexivity.
Qed.

Lemma caches_transparent_witness :
  (quiet small_fs /\ index_names small_fs /\ client_ok small_client /\ NewLocal [] 4 small_fs = Ok small_local) /\
  (exists e, (local_run small_client small_local).1 = Ok (Ok two_bytes, Ok two_bytes, Ok (formatHash dataKey), Err e)) /\
  exists r s', local_run small_client small_local = (r, s') /\ cold_run small_client small_fs = (r, fs_of s').
Proof.
  assert (quiet small_fs /\ index_names small_fs /\ client_ok small_client /\ NewLocal [] 4 small_fs = Ok small_local) as H.
  { split; [reflexivity|]. split; [exact small_index_names|]. split; [cbn; tauto|reflexivity]. }
  split; [exact H|]. split; [eexists; vm_compute; reflexivity|].
  destruct H as (H1 & H2 & H3 & H4). destruct (caches_transparent small_client [] 4 small_fs small_local H1 H2 H3 H4) as (r & s' & E & E' & _).
  exists r, s'. split; [exact E|exact E'].
Defined.
