(* ===== verification/Memory.v ===== *)
(** * The in-memory backend: [storage/memory/memory.go]

    The objects of the five kinds in maps by kind and name.  Every operation
    of the Go type is a program over the state; the mutex makes each a single
    step.  The context and the clock are part of the state: the [n]-th
    [ctx.Err()] or [time.Now()] of a run asks an arbitrary environment, so the
    theorems hold for every cancellation point.
    Proved: the backend satisfies the storage contract, and keeps the
    invariant that every stored xorb validates under the name it is stored
    under. *)

From Stdlib Require Import ZArith Lia Strings.Byte Strings.String.
From stdpp Require Import sorting.
From S2P Require Import Prelude Hash Sha256 Gearhash Merkle ByteGrouping Compression XorbEncoder XorbDecoder.
From S2P Require Import XorbOffsets Shard ShardCodec Prog Storage PutShard.

(** ** State *)

(** What the context and the clock answer at each call. *)
Record environment : Type := Env {
  env_err : nat -> option error;
  env_now : nat -> Z;
}.

Record memory : Type := MkMemory {
  m_baseURL : gostring;
  m_objects : gmap gostring (gmap gostring object);
  m_env : environment;
  m_calls : nat;      (** calls made to the environment so far *)
}.

(** [NewStorage] with a base URL. *)
Definition NewStorage (baseURL : gostring) (env : environment) : memory := MkMemory baseURL ∅ env 0.

Definition set_objects (objs : gmap gostring (gmap gostring object)) (s : memory) : memory :=
  MkMemory (m_baseURL s) objs (m_env s) (m_calls s).

Definition tick (s : memory) : memory :=
  MkMemory (m_baseURL s) (m_objects s) (m_env s) (S (m_calls s)).

Definition mem_ctx_Err : prog memory unit := fun s =>
  (match env_err (m_env s) (m_calls s) with Some e => Err e | None => Ok tt end, tick s).

Definition mem_now : prog memory Z := fun s => (Ok (env_now (m_env s) (m_calls s)), tick s).

(** ** The maps *)

(** [get]. *)
Definition mem_get (kind name : gostring) (s : memory) : option object := m_objects s !! kind ≫= (.!! name).

(** [put]. *)
Definition mem_put (kind name : gostring) (data : list byte) (overwrite : bool) : prog memory bool := fun s =>
  let objs := default ∅ (m_objects s !! kind) in
  let s := set_objects (<[kind := objs]> (m_objects s)) s in
  if bool_decide (is_Some (objs !! name)) && negb overwrite then (Ok false, s)
  else
    match mem_now s with
    | (Ok now, s) =>
        (Ok true, set_objects (<[kind := <[name := MkObject data now]> objs]> (m_objects s)) s)
    | (Err e, s) => (Err e, s)
    end.

(** [delete]; deleting from a nil map does nothing. *)
Definition mem_delete (kind name : gostring) : prog memory bool := fun s =>
  (Ok (bool_decide (is_Some (mem_get kind name s))),
   set_objects (alter (delete name) kind (m_objects s)) s).

Definition entry_le (a b : gostring * object) : Prop := string_le a.1 b.1.
#[global] Instance entry_le_dec : RelDecision entry_le := fun a b => decide (string_le a.1 b.1).

(** [snapshot]: the entries of a kind, sorted by name. *)
Definition snapshot (kind : gostring) (s : memory) : list (gostring * object) :=
  merge_sort entry_le (map_to_list (default ∅ (m_objects s !! kind))).

(** The loop shared by [walkObjects] and [walkIndex]. *)
Fixpoint walk_entries {X A} (info : object -> X) (fn : gostring -> X -> A -> prog memory A)
    (entries : list (gostring * object)) (acc : A) : prog memory A :=
  match entries with
  | [] => mret acc
  | (name, o) :: entries =>
      _ ← mem_ctx_Err;
      acc ← fn name (info o) acc;
      walk_entries info fn entries acc
  end.

Definition walkObjects (kind : gostring) {A} (fn : gostring -> Z * Z -> A -> prog memory A) (acc : A) :
    prog memory A := fun s =>
  walk_entries obj_info fn (snapshot kind s) acc s.

Definition walkIndex (kind : gostring) {A} (fn : gostring -> gostring -> A -> prog memory A) (acc : A) :
    prog memory A := fun s =>
  walk_entries o_data fn (snapshot kind s) acc s.

(** [indexEntry]. *)
Definition indexEntry (kind name : gostring) : prog memory gostring := fun s =>
  (Ok (entry_data (mem_get kind name s)), s).

(** [notFound]. *)
Definition notFound : error := Wrapf "%s %s: %w" ErrNotExist.

(** [modTime.Unix()], from nanoseconds. *)
Definition unix (t : Z) : Z := t / 1000000000.

(** [loadShard]. *)
Definition loadShard (shardHash : gostring) : prog memory Shard := fun s =>
  match mem_get kShards shardHash s with
  | None => (Err notFound, s)
  | Some obj =>
      (sh ← DecodeStoredShard (file_reader (o_data obj));
       Ok (match s_Footer sh with
           | None => SetFooter sh (unix (o_modTime obj))
           | Some _ => sh
           end), s)
  end.

(** [shardByIndex]. *)
Definition shardByIndex (kind name : gostring) : prog memory Shard :=
  shardHash ← indexEntry kind name;
  if bool_decide (shardHash = []) then throw notFound else loadShard shardHash.

(** ** The operations of the contract *)

Section backend.
Context {B3 : Blake3} {L : Lz4} {P : ChunkBufs}.

(** [PutXorb]: the stored copy is what the validator read through the tee. *)
Definition mem_PutXorb (h : XorbHash) (r : reader) : prog memory bool := fun s =>
  if bool_decide (is_Some (mem_get kXorbs (formatHash h) s)) then (Ok false, s)
  else
    match validate_stream r h with
    | Err e => (Err (Wrapf "validate xorb: %w" e), s)
    | Ok rest =>
        mem_put kXorbs (formatHash h) (take (length (rdata r) - length (rdata rest)) (rdata r)) false s
    end.

Definition mem_HasXorb (h : XorbHash) : prog memory bool := fun s =>
  (Ok (bool_decide (is_Some (mem_get kXorbs (formatHash h) s))), s).

Definition mem_GetXorbURL (h : XorbHash) : prog memory gostring := fun s =>
  (Ok (m_baseURL s ++ str "/v1/xorbs/default/" ++ formatHash h), s).

Definition mem_GetXorbReadSeekCloser (h : XorbHash) : prog memory (list byte) := fun s =>
  (match mem_get kXorbs (formatHash h) s with
   | Some obj => Ok (o_data obj)
   | None => Err notFound
   end, s).

Definition mem_GetXorbChunkOffsets (h : XorbHash) : prog memory (list Z) := fun s =>
  (match mem_get kXorbs (formatHash h) s with
   | Some obj => wrap_err "read xorb chunk offsets: %w" (ReadXorbChunkOffsets (o_data obj))
   | None => Err notFound
   end, s).

#[global] Instance memory_xorbs : XorbStore memory := {|
  ctx_Err := mem_ctx_Err;
  GetXorbReadSeekCloser := mem_GetXorbReadSeekCloser;
  GetXorbChunkOffsets := mem_GetXorbChunkOffsets;
|}.

(** Whether every file of the shard is indexed already. *)
Fixpoint all_indexed (files : list FileBlock) (s : memory) : bool :=
  match files with
  | [] => true
  | file :: files =>
      if bool_decide (entry_data (mem_get kFiles (formatHash (fb_FileHash file)) s) = []) then false
      else all_indexed files s
  end.

(** [PutShard]. *)
Definition mem_PutShard (sh : Shard) : prog memory bool := fun s =>
  if (0 <? len (s_Files sh)) && all_indexed (s_Files sh) s then (Ok false, s)
  else
    (sh ← PrepareShard sh;
     '(encoded, shardHash) ← lift (wrap_err "serialize shard: %w" (EncodeShard 0 sh));
     inserted ← mem_put kShards shardHash encoded false;
     _ ← PutShardIndexes sh shardHash (fun kind name value => _ ← mem_put kind name value false; mret tt);
     mret inserted) s.

Definition mem_GetFileHashBySHA256 (digest : SHA256Hash) : prog memory FileHash :=
  sh ← shardByIndex kSHA256 (SHA256Hash_String digest);
  match FindFileBySHA256 sh digest with
  | None => throw (Errorf "SHA-256 is not present in shard")
  | Some file => mret (fb_FileHash file)
  end.

(** A delete whose result the caller does not see. *)
Definition mem_drop (kind name : gostring) : prog memory unit := _ ← mem_delete kind name; mret tt.

#[global] Instance memory_storage : Storage memory := {|
  time_Now := mem_now;
  PutXorb := mem_PutXorb;
  HasXorb := mem_HasXorb;
  GetXorbURL := mem_GetXorbURL;
  WalkXorbs := @walkObjects kXorbs;
  DeleteXorb h := mem_drop kXorbs (formatHash h);
  PutShard := mem_PutShard;
  GetShard h := shardByIndex kFiles (formatHash h);
  GetShardByChunkHash h := shardByIndex kChunks (formatHash h);
  GetShardByHash := loadShard;
  LoadShard := loadShard;
  WalkShards := @walkObjects kShards;
  DeleteShard := mem_drop kShards;
  GetShardBySHA256 digest := shardByIndex kSHA256 (SHA256Hash_String digest);
  GetFileHashBySHA256 := mem_GetFileHashBySHA256;
  WalkFileIndex := @walkIndex kFiles;
  GetFileIndexEntry h := indexEntry kFiles (formatHash h);
  DeleteFileIndexEntry h := mem_delete kFiles (formatHash h);
  GetChunkIndexEntry h := indexEntry kChunks (formatHash h);
  DeleteChunkIndexEntry h := mem_drop kChunks (formatHash h);
  WalkSHA256Index := @walkIndex kSHA256;
  GetSHA256IndexEntry := indexEntry kSHA256;
  DeleteSHA256IndexEntry := mem_delete kSHA256;
|}.

(** ** The contract holds *)

Definition mem_at (s : memory) (kind name : gostring) : option object := mem_get kind name s.

Lemma mem_at_tick s : same mem_at s (tick s).
Proof. by intros k n. Qed.

Lemma mem_delete_at kind name s k n :
  mem_at (mem_delete kind name s).2 k n =
    if bool_decide ((k, n) = (kind, name)) then None else mem_at s k n.
Proof.
  unfold mem_at, mem_get. cbn. case_bool_decide as Hk.
  - injection Hk as -> ->. rewrite lookup_alter_eq. destruct (m_objects s !! kind); [|done].
    cbn. by rewrite lookup_delete_eq.
  - destruct (decide (k = kind)) as [->|].
    + rewrite lookup_alter_eq. destruct (m_objects s !! kind); [|done]. cbn.
      rewrite lookup_delete_ne; [done|]. congruence.
    + by rewrite lookup_alter_ne.
Qed.

Lemma mem_deletes {A} kind name (m : prog memory A) :
  (forall s, (m s).2 = (mem_delete kind name s).2) -> deletes mem_at kind name m.
Proof.
  intros Hm s. rewrite Hm. split.
  - intros k n. rewrite mem_delete_at. case_bool_decide; [right|left]; done.
  - intros a _. by rewrite mem_delete_at, bool_decide_eq_true_2.
Qed.

Lemma snapshot_at kind s n o : (n, o) ∈ snapshot kind s <-> mem_at s kind n = Some o.
Proof.
  unfold snapshot, mem_at, mem_get. rewrite merge_sort_Permutation, elem_of_map_to_list.
  destruct (m_objects s !! kind) as [objs|]; [done|]. cbn. by rewrite lookup_empty.
Qed.

Lemma snapshot_NoDup kind s : NoDup (snapshot kind s).*1.
Proof. unfold snapshot. rewrite merge_sort_Permutation. apply NoDup_fst_map_to_list. Qed.

Lemma walk_entries_spec {X A} (info : object -> X) (fn : gostring -> X -> A -> prog memory A)
    (Q : list gostring -> A -> memory -> Prop) (E : memory -> Prop) entries seen acc s :
  (forall seen a s1 s2, same mem_at s1 s2 -> Q seen a s1 -> Q seen a s2) ->
  (forall seen a s1, Q seen a s1 -> E s1) ->
  NoDup (seen ++ entries.*1) -> Q seen acc s ->
  (forall seen n o a, n ∉ seen -> (n, o) ∈ entries -> triple (Q seen a) (fn n (info o) a) (Q (seen ++ [n])) E) ->
  match walk_entries info fn entries acc s with
  | (Ok a, s') => Q (seen ++ entries.*1) a s'
  | (Err _, s') => E s'
  end.
Proof.
  intros Hsame HE. revert seen acc s. induction entries as [|[n o] entries IH]; intros seen acc s Hnd HQ Hfn.
  - cbn. by rewrite app_nil_r.
  - cbn [walk_entries fmap list_fmap]. unfold mbind, prog_bind, mem_ctx_Err at 1.
    apply (Hsame _ _ s (tick s)) in HQ; [|apply mem_at_tick].
    destruct (env_err _ _); [by eapply HE|].
    assert (n ∉ seen) as Hn by (cbn in Hnd; apply NoDup_app in Hnd as (_ & Hd & _); intros ?; eapply Hd; [done|left]).
    pose proof (Hfn seen n o acc Hn (list_elem_of_here _ _) _ HQ) as Hstep.
    destruct (fn n (info o) acc (tick s)) as [[a|e] s1]; [|done].
    replace (seen ++ (n, o).1 :: entries.*1) with ((seen ++ [n]) ++ entries.*1) by (by rewrite <- app_assoc).
    apply IH; [|done|].
    + by rewrite <- app_assoc.
    + intros. apply Hfn; [done|by right].
Qed.

Lemma mem_walks {X} kind (info : object -> X)
    (walk : forall A, (gostring -> X -> A -> prog memory A) -> A -> prog memory A) :
  (forall A fn acc s, walk A fn acc s = walk_entries info fn (snapshot kind s) acc s) ->
  walks mem_at kind info walk.
Proof.
  intros Hw A fn Q E acc s Hsame HE _ HQ Hfn. rewrite Hw.
  pose proof (walk_entries_spec info fn Q E (snapshot kind s) [] acc s Hsame HE) as H.
  destruct (walk_entries _ _ _ _ _) as [[a|e] s'].
  - exists (snapshot kind s).*1. split.
    + intros n. rewrite list_elem_of_fmap. split.
      * intros ([n' o] & -> & Hin). exists o. by apply snapshot_at.
      * intros [o Ho]. exists (n, o). by rewrite snapshot_at.
    + apply H; [apply snapshot_NoDup|done|]. intros. apply Hfn; [done|by apply snapshot_at].
  - apply H; [apply snapshot_NoDup|done|]. intros. apply Hfn; [done|by apply snapshot_at].
Qed.

Lemma loadShard_reads n :
  reads mem_at (loadShard n) (fun s sh => exists o sh0, mem_at s kShards n = Some o /\
    decodes o sh0 /\ s_Files sh = s_Files sh0 /\ s_CASInfos sh = s_CASInfos sh0).
Proof.
  intros s. unfold loadShard. change (mem_get kShards n s) with (mem_at s kShards n).
  destruct (mem_at s kShards n) as [o|] eqn:Ho; [|by split].
  split; [done|]. cbn [fst]. intros sh Hsh.
  destruct (DecodeStoredShard _) as [sh0|] eqn:Hd; cbn [mbind result_bind] in Hsh; [|done].
  injection Hsh as <-. exists o, sh0. split; [done|]. split; [done|]. by destruct (s_Footer sh0).
Qed.

#[global] Program Instance memory_laws : StorageLaws memory := {| Storage.obj_at := mem_at |}.
Next Obligation. intros s. split; [apply mem_at_tick|done]. Qed.
Next Obligation. intros s. split; [apply mem_at_tick|done]. Qed.
Next Obligation. intros h s. split; [done|]. by intros a [= <-]. Qed.
Next Obligation. intros h s. split; [done|]. by intros a [= <-]. Qed.
Next Obligation. intros h s. split; [done|]. by intros a [= <-]. Qed.
Next Obligation. intros h. by apply mem_deletes. Qed.
Next Obligation. intros h. by apply mem_deletes. Qed.
Next Obligation. intros h. by apply mem_deletes. Qed.
Next Obligation. intros h. by apply mem_deletes. Qed.
Next Obligation. intros h. by apply mem_deletes. Qed.
Next Obligation. apply loadShard_reads. Qed.
Next Obligation.
  intros n s e He Hne o sh Ho Hd. cbn in He. unfold loadShard in He. unfold mem_at in Ho.
  rewrite Ho in He. cbn [fst] in He. unfold decodes in Hd. by rewrite Hd in He.
Qed.
Next Obligation. by apply mem_walks. Qed.
Next Obligation. by apply mem_walks. Qed.
Next Obligation. by apply mem_walks. Qed.
Next Obligation. by apply mem_walks. Qed.
End backend.

(** ** What an admitted shard says is so *)

Section verified.
Context {B3 : Blake3} {L : Lz4} {P : ChunkBufs}.

(** The chunks a term of a file decodes to, from the stored xorb. *)
Definition term_chunks (s : memory) (entry : FileDataSequenceEntry) (cs : list (list byte)) : Prop :=
  exists o offsets start end_ fuel d,
    mem_at s kXorbs (formatHash (fe_CASHash entry)) = Some o /\
    ReadXorbChunkOffsets (o_data o) = Ok offsets /\
    ChunkDataRangeFromOffsets offsets (fe_ChunkIndexStart entry) (fe_ChunkIndexEnd entry) = Ok (start, end_) /\
    read_all fuel MaxChunkSize (NewDecoder (file_reader
      (take (Z.to_nat (end_ - start + 1)) (drop (Z.to_nat start) (o_data o)))) false) = (cs, EOF, d) /\
    len (concat cs) = fe_UnpackedSegBytes entry.

Lemma term_chunks_same s s' entry cs : same mem_at s s' -> term_chunks s' entry cs -> term_chunks s entry cs.
Proof.
  intros Hs (o & offsets & start & end_ & fuel & d & Ho & H). exists o, offsets, start, end_, fuel, d.
  by rewrite <- Hs.
Qed.

(** Run a program that ended normally. *)
Ltac run_prog H :=
  unfold mbind, prog_bind, prog_wrap, catch, lift, throw, mret, prog_ret in H.

Lemma hash_term_mem st entry s st' s' :
  hash_term st entry s = (Ok st', s') ->
  same mem_at s s' /\ exists cs, term_chunks s entry cs /\
    st' = HState (h_written st ++ concat cs) (h_chunkHashes st ++ map ComputeChunkHash cs)
            (h_chunkSizes st ++ map len cs).
Proof.
  unfold hash_term, openXorbRange. intros H. run_prog H.
  change (ctx_Err s) with (mem_ctx_Err s) in H. unfold mem_ctx_Err in H.
  destruct (env_err _ _); [done|].
  cbn [GetXorbChunkOffsets memory_xorbs] in H. unfold mem_GetXorbChunkOffsets in H.
  change (mem_get ?k ?n (tick s)) with (mem_at s k n) in H.
  destruct (mem_at s kXorbs (formatHash (fe_CASHash entry))) as [o|] eqn:Ho; [|done].
  destruct (ReadXorbChunkOffsets (o_data o)) as [offsets|] eqn:Eo; cbn [wrap_err] in H; [|done].
  destruct (ChunkDataRangeFromOffsets _ _ _) as [[start end_]|] eqn:Er; cbn [wrap_err] in H; [|done].
  destruct (_ || _); [done|]. cbn [GetXorbReadSeekCloser memory_xorbs] in H.
  unfold mem_GetXorbReadSeekCloser in H. change (mem_get ?k ?n (tick s)) with (mem_at s k n) in H.
  rewrite Ho in H. destruct (copy_decoder _) as [[cs d]|] eqn:Ec; cbn [wrap_err] in H; [|done].
  apply copy_decoder_Ok in Ec as [Hc Ha]. destruct (Z.eqb_spec (len (concat cs)) (fe_UnpackedSegBytes entry));
    cbn [negb] in H; [|done].
  rewrite Hc in H. injection H as <- <-. split; [apply mem_at_tick|]. exists cs. split; [|done].
  eexists o, offsets, start, end_, _, d. eauto 10.
Qed.

Lemma hash_terms_mem entries st s st' s' :
  hash_terms st entries s = (Ok st', s') ->
  same mem_at s s' /\ exists css, Forall2 (term_chunks s) entries css /\
    st' = HState (h_written st ++ concat (concat css)) (h_chunkHashes st ++ map ComputeChunkHash (concat css))
            (h_chunkSizes st ++ map len (concat css)).
Proof.
  revert st s. induction entries as [|entry entries IH]; intros st s; cbn [hash_terms].
  - intros [= <- <-]. split; [done|]. exists []. split; [constructor|].
    cbn. rewrite !app_nil_r. by destruct st.
  - intros H. run_prog H. destruct (hash_term st entry s) as [[st1|] s1] eqn:E1; [|done].
    apply hash_term_mem in E1 as (Hs1 & cs & Hcs & ->).
    apply IH in H as (Hs2 & css & Hcss & ->). split; [intros k n; by rewrite Hs2, Hs1|].
    exists (cs :: css). split.
    + constructor; [done|]. eapply Forall2_impl; [exact Hcss|]. intros. by eapply term_chunks_same.
    + cbn [concat h_written h_chunkHashes h_chunkSizes].
      by rewrite concat_app, !map_app, <- !app_assoc.
Qed.

(** [fb'] is the file block [fb] with its SHA-256 recorded, and both digests
    are those of the bytes its terms decode to. *)
Definition verified_file (s : memory) (fb fb' : FileBlock) : Prop :=
  exists digest css,
    fb' = MkFileBlock (fb_FileHash fb) (Z.lor (fb_Flags fb) FileWithMetadataExt) (fb_Entries fb)
            (fb_Verification fb) (Some (MkFileMetadataExt digest)) /\
    Forall2 (term_chunks s) (fb_Entries fb) css /\
    (fb_Entries fb = [] -> digest = zeroHash /\ fb_FileHash fb = zeroHash) /\
    (fb_Entries fb <> [] -> digest = Sum256 (concat (concat css)) /\
       ComputeFileHash (map ComputeChunkHash (concat css)) (map len (concat css)) = Ok (fb_FileHash fb)) /\
    (forall ext, fb_MetadataExt fb = Some ext -> me_SHA256Hash ext = digest).

Lemma verified_same s s' fb fb' : same mem_at s s' -> verified_file s' fb fb' -> verified_file s fb fb'.
Proof.
  intros Hs (digest & css & H1 & H2 & H3). exists digest, css. split; [done|]. split; [|done].
  eapply Forall2_impl; [exact H2|]. intros. by eapply term_chunks_same.
Qed.

Lemma prepare_file_mem fb s fb' s' :
  prepare_file fb s = (Ok fb', s') -> same mem_at s s' /\ verified_file s fb fb'.
Proof.
  unfold prepare_file, ComputeFileHashes. intros H. run_prog H.
  case_bool_decide as He.
  - destruct (match fb_MetadataExt fb with Some _ => _ | None => _ end) eqn:Em; [done|].
    case_bool_decide as Hh; [done|]. injection H as <- <-. split; [done|].
    exists zeroHash, []. split; [done|]. rewrite He. split; [constructor|]. split; [by split|]. split; [done|].
    intros ext Hext. rewrite Hext in Em. by apply bool_decide_eq_false, dec_stable in Em.
  - destruct (hash_terms _ _ s) as [[st|] s1] eqn:Et; [|done].
    apply hash_terms_mem in Et as (Hs & css & Hcss & ->). cbn [h_written h_chunkHashes h_chunkSizes app] in H.
    destruct (ComputeFileHash _ _) as [fh|] eqn:Ef; [|done].
    destruct (match fb_MetadataExt fb with Some _ => _ | None => _ end) eqn:Em; [done|].
    case_bool_decide as Hh; [done|]. injection H as <- <-. split; [done|].
    exists (Sum256 (concat (concat css))), css. split; [done|]. split; [done|]. split; [done|].
    split; [by rewrite Hh|].
    intros ext Hext. rewrite Hext in Em. by apply bool_decide_eq_false, dec_stable in Em.
Qed.

Lemma prepare_files_mem fbs s fbs' s' :
  prepare_files fbs s = (Ok fbs', s') -> same mem_at s s' /\ Forall2 (verified_file s) fbs fbs'.
Proof.
  revert s fbs' s'. induction fbs as [|fb fbs IH]; intros s fbs' s'; cbn [prepare_files].
  - intros [= <- <-]. by split; [|constructor].
  - intros H. run_prog H. destruct (prepare_file fb s) as [[fb1|] s1] eqn:E1; [|done].
    apply prepare_file_mem in E1 as [Hs1 Hv]. destruct (prepare_files fbs s1) as [[fbs1|] s2] eqn:E2; [|done].
    apply IH in E2 as [Hs2 Hv2]. injection H as <- <-. split; [intros k n; by rewrite Hs2, Hs1|].
    constructor; [done|]. eapply Forall2_impl; [exact Hv2|]. intros. by eapply verified_same.
Qed.

(** The CAS block lists exactly the chunks its stored xorb decodes to. *)
Definition verified_cas (s : memory) (cb : CASBlock) : Prop :=
  exists o ds fuel d, mem_at s kXorbs (formatHash (cb_CASHash cb)) = Some o /\
    read_all fuel maxChunkSize (NewDecoder (file_reader (o_data o)) false) = (ds, EOF, d) /\
    map cc_ChunkHash (cb_Chunks cb) = map ComputeChunkHash ds /\
    map cc_UnpackedSegBytes (cb_Chunks cb) = map len ds.

Lemma verify_loop_mem fuel cb i d s s' :
  0 <= i <= len (cb_Chunks cb) -> len (Chunks d).1 = i ->
  verify_loop fuel cb i d s = (Ok tt, s') ->
  same mem_at s s' /\ exists ds d', read_all fuel maxChunkSize d = (ds, EOF, d') /\
    map cc_ChunkHash (drop (Z.to_nat i) (cb_Chunks cb)) = map ComputeChunkHash ds /\
    map cc_UnpackedSegBytes (drop (Z.to_nat i) (cb_Chunks cb)) = map len ds.
Proof.
  revert i d s. induction fuel as [|fuel IH]; intros i d s Hi Hd; [done|]. cbn [verify_loop read_all].
  intros H. run_prog H. change (ctx_Err s) with (mem_ctx_Err s) in H. unfold mem_ctx_Err in H.
  destruct (env_err _ _); [done|].
  destruct (Decoder_Read maxChunkSize d) as [[got|e] d1] eqn:Er.
  - destruct (Z.eqb_spec i (len (cb_Chunks cb))) as [|Hne]; [done|].
    destruct (cb_Chunks cb !! Z.to_nat i) as [c|] eqn:Ec; [|done].
    rewrite (Decoder_Read_chunks _ _ _ _ Er) in H. cbn [fst] in H.
    rewrite lookup_app_r in H by (unfold len in *; lia).
    replace (Z.to_nat i - length (Chunks d).1)%nat with 0%nat in H by (unfold len in *; lia).
    cbn [lookup list_lookup] in H. case_bool_decide as Hh; [done|].
    destruct (Z.eqb_spec (len got) (cc_UnpackedSegBytes c)) as [Hl|]; cbn [negb] in H; [|done].
    apply IH in H as (Hs & ds & d' & Ha & Hm1 & Hm2).
    + split; [intros k n; by rewrite Hs|]. exists (got :: ds), d'. rewrite Ha. split; [done|].
      rewrite (drop_S _ c) by done. cbn [map].
      replace (S (Z.to_nat i)) with (Z.to_nat (i + 1)) by lia. by rewrite Hm1, Hm2, Hh, Hl.
    + lia.
    + rewrite (Decoder_Read_chunks _ _ _ _ Er). cbn [fst]. by rewrite len_app, Hd.
  - case_bool_decide as He; [done|]. subst e.
    destruct (Z.eqb_spec i (len (cb_Chunks cb))) as [Hn|]; [|done]. injection H as <-.
    split; [apply mem_at_tick|]. exists [], d1. split; [done|].
    rewrite drop_ge by (unfold len in *; lia). done.
Qed.

Lemma verify_blocks_mem cbs s s' :
  verify_blocks cbs s = (Ok tt, s') -> same mem_at s s' /\ Forall (verified_cas s) cbs.
Proof.
  revert s. induction cbs as [|cb cbs IH]; intros s; cbn [verify_blocks].
  - intros [= <-]. by split; [|constructor].
  - unfold verifyCASBlock. intros H. run_prog H.
    cbn [GetXorbReadSeekCloser memory_xorbs] in H. unfold mem_GetXorbReadSeekCloser in H.
    change (mem_get ?k ?n s) with (mem_at s k n) in H.
    destruct (mem_at s kXorbs (formatHash (cb_CASHash cb))) as [o|] eqn:Ho; [|done].
    destruct (verify_loop _ cb 0 _ s) as [[[]|] s1] eqn:Ev; [|done].
    apply verify_loop_mem in Ev as (Hs1 & ds & d & Ha & H1 & H2).
    + apply IH in H as [Hs2 Hv]. split; [intros k n; by rewrite Hs2, Hs1|].
      constructor; [by eexists o, ds, _, d|]. eapply Forall_impl; [exact Hv|].
      intros cb' (o' & ds' & fuel & d' & Ho' & H'). exists o', ds', fuel, d'. by rewrite <- Hs1.
    + pose proof (len_nonneg (cb_Chunks cb)). lia.
    + done.
Qed.

Lemma PrepareShard_mem sh s sh' s' :
  PrepareShard sh s = (Ok sh', s') ->
  same mem_at s s' /\ s_Files sh <> [] /\ s_CASInfos sh' = s_CASInfos sh /\
  Forall (verified_cas s) (s_CASInfos sh) /\
  Forall2 (verified_file s) (s_Files sh) (s_Files sh').
Proof.
  unfold PrepareShard. intros H. case_bool_decide as Hne; [done|]. run_prog H.
  destruct (verify_blocks (s_CASInfos sh) s) as [[[]|] s1] eqn:E1; [|done].
  apply verify_blocks_mem in E1 as [Hs1 Hc].
  destruct (prepare_files (s_Files sh) s1) as [[fbs|] s2] eqn:E2; [|done].
  apply prepare_files_mem in E2 as [Hs2 Hf]. injection H as <- <-.
  split; [intros k n; by rewrite Hs2, Hs1|]. split; [done|]. split; [done|]. split; [done|].
  eapply Forall2_impl; [exact Hf|]. intros. by eapply verified_same.
Qed.

(** C34 an admitted shard is true.  When [PrepareShard] accepts a shard over
    a memory store, it leaves the store alone and returns the shard with the
    SHA-256 of every file recorded; every CAS block lists exactly the chunks
    its stored xorb decodes to, with their hashes and sizes; and the bytes the
    terms of a file decode to have the recorded length, SHA-256 and file hash
    (the zero digests for a file without terms), a digest recorded before
    included. *)
Theorem PrepareShard_verified sh s sh' s' :
  PrepareShard sh s = (Ok sh', s') ->
  same mem_at s s' /\ s_Files sh <> [] /\ s_CASInfos sh' = s_CASInfos sh /\
  Forall (verified_cas s) (s_CASInfos sh) /\
  Forall2 (verified_file s) (s_Files sh) (s_Files sh').
Proof. apply PrepareShard_mem. Qed.
End verified.

(** ** The store as a state machine *)

Section reachable.
Context {B3 : Blake3} {L : Lz4} {P : ChunkBufs}.

(** The operations that write, one step each; the reads and the walks only
    advance the environment. *)
Inductive mem_step : memory -> memory -> Prop :=
| step_PutXorb h r s : mem_step s (mem_PutXorb h r s).2
| step_PutShard sh s : mem_step s (mem_PutShard sh s).2
| step_delete kind name s : mem_step s (mem_delete kind name s).2
| step_environment s : mem_step s (tick s).

(** Xorbs validate under the hash they are named by, shards are named by the
    SHA-256 of their bytes. *)
Definition content_addressed (s : memory) : Prop :=
  (forall n o, mem_at s kXorbs n = Some o ->
     exists h, n = formatHash h /\ Validate (file_reader (o_data o)) h = Ok tt) /\
  (forall n o, mem_at s kShards n = Some o -> n = hex_encode (Sum256 (o_data o))).

Lemma content_addressed_sub s s' :
  (forall k n o, mem_at s' k n = Some o -> mem_at s k n = Some o) ->
  content_addressed s -> content_addressed s'.
Proof. intros Hs [H1 H2]. split; intros n o Ho%Hs; auto. Qed.

Lemma mem_at_insert kind name o s k n :
  (<[kind := <[name := o]> (default ∅ (m_objects s !! kind))]> (m_objects s) !! k ≫= (.!! n)) =
    if bool_decide ((k, n) = (kind, name)) then Some o else mem_at s k n.
Proof.
  unfold mem_at, mem_get. destruct (decide (k = kind)) as [->|Hk].
  - rewrite lookup_insert_eq. cbn. case_bool_decide as Hn.
    + injection Hn as ->. by rewrite lookup_insert_eq.
    + rewrite lookup_insert_ne by congruence. by destruct (m_objects s !! kind).
  - rewrite lookup_insert_ne, bool_decide_eq_false_2 by congruence. done.
Qed.

Lemma mem_at_touch kind s k n :
  (<[kind := default ∅ (m_objects s !! kind)]> (m_objects s) !! k ≫= (.!! n)) = mem_at s k n.
Proof.
  unfold mem_at, mem_get. destruct (decide (k = kind)) as [->|Hk].
  - rewrite lookup_insert_eq. by destruct (m_objects s !! kind).
  - by rewrite lookup_insert_ne.
Qed.

(** [put] without overwriting changes at most the named object. *)
Lemma mem_put_at kind name data s k n :
  mem_at (mem_put kind name data false s).2 k n =
    if bool_decide ((k, n) = (kind, name) /\ mem_at s kind name = None)
    then Some (MkObject data (env_now (m_env s) (m_calls s))) else mem_at s k n.
Proof.
  assert (mem_at s kind name = default ∅ (m_objects s !! kind) !! name) as Hat
    by (unfold mem_at, mem_get; by destruct (m_objects s !! kind)).
  unfold mem_put. cbn [negb]. rewrite andb_true_r. case_bool_decide as Hex.
  - cbn [snd]. rewrite bool_decide_eq_false_2 by (rewrite Hat; intros [_ E]; rewrite E in Hex; by destruct Hex).
    apply mem_at_touch.
  - unfold mem_now. cbn [fst snd]. unfold mem_at at 1, mem_get at 1, set_objects, tick.
    cbn [m_objects]. rewrite insert_insert_eq, mem_at_insert. cbn [m_env m_calls].
    apply eq_None_not_Some in Hex. rewrite Hat, Hex.
    case_bool_decide as H1; [by rewrite bool_decide_eq_true_2|].
    rewrite bool_decide_eq_false_2; [done|]. tauto.
Qed.

(** Adding an object that is what its name says keeps the invariant. *)
Lemma content_addressed_put kind name data :
  (kind = kXorbs -> exists h, name = formatHash h /\ Validate (file_reader data) h = Ok tt) ->
  (kind = kShards -> name = hex_encode (Sum256 data)) ->
  preserves content_addressed (mem_put kind name data false).
Proof.
  intros Hx Hs s [H1 H2]. enough (content_addressed (mem_put kind name data false s).2) as H
    by (by destruct (mem_put kind name data false s) as [[?|?] ?]).
  split; intros n o; rewrite mem_put_at; case_bool_decide as Hk.
  - destruct Hk as [[= <- <-] _]. intros [= <-]. by apply Hx.
  - apply H1.
  - destruct Hk as [[= <- <-] _]. intros [= <-]. by apply Hs.
  - apply H2.
Qed.

(** An invariant that looking at xorbs and adding objects preserve is preserved
    by the whole admission of a shard. *)
Lemma preserves_prepare (I : memory -> Prop) sh :
  preserves I ctx_Err -> (forall h, preserves I (GetXorbReadSeekCloser h)) -> (forall h, preserves I (GetXorbChunkOffsets h)) -> preserves I (PrepareShard sh).
Proof.
  intros H1 H2 H3. assert (forall entries st, preserves I (hash_terms st entries)) as Hh.
  { induction entries as [|e es IH]; intros st; cbn [hash_terms]; unfold hash_term, openXorbRange;
      eauto 20 with preserves. }
  assert (forall fuel cb i d, preserves I (verify_loop fuel cb i d)) as Hv.
  { induction fuel as [|fuel IH]; intros cb i d; cbn [verify_loop]; [eauto with preserves|].
    apply preserves_bind; [eauto with preserves|]. intros _.
    destruct (Decoder_Read _ _) as [[?|?] ?]; repeat case_match; eauto with preserves. }
  assert (forall cbs, preserves I (verify_blocks cbs)) as Hb.
  { induction cbs as [|cb cbs IH]; cbn [verify_blocks]; unfold verifyCASBlock; eauto 20 with preserves. }
  assert (forall fbs, preserves I (prepare_files fbs)) as Hf.
  { induction fbs as [|fb fbs IH]; cbn [prepare_files]; unfold prepare_file, ComputeFileHashes;
      eauto 20 with preserves. }
  unfold PrepareShard. eauto 20 with preserves.
Qed.

Lemma preserves_indexes (I : memory -> Prop) sh shardHash :
  (forall kind name value, kind ∈ [kFiles; kSHA256; kChunks] -> preserves I (mem_put kind name value false)) ->
  preserves I (PutShardIndexes sh shardHash (fun kind name value => _ ← mem_put kind name value false; mret tt)).
Proof.
  intros Hput. assert (forall kind name value, kind ∈ [kFiles; kSHA256; kChunks] ->
    preserves I (_ ← mem_put kind name value false; mret tt)) as Hp.
  { intros kind name value Hk. apply preserves_bind; [by apply Hput|eauto with preserves]. }
  assert (forall fmt kind names, kind ∈ [kFiles; kSHA256; kChunks] -> preserves I
    (put_all fmt (fun kind name value => _ ← mem_put kind name value false; mret tt) kind names shardHash)) as Ha.
  { intros fmt kind names Hk. induction names as [|n names IH]; cbn [put_all]; [eauto with preserves|].
    apply preserves_bind; [|done]. by apply preserves_wrap, Hp. }
  unfold PutShardIndexes. apply preserves_bind; [by apply Ha; repeat constructor|]. intros ?.
  apply preserves_bind; [|by intros; apply Ha; repeat constructor].
  induction (s_Files sh) as [|f fs IH]; cbn [put_sha256]; [eauto with preserves|].
  destruct (fb_MetadataExt f); [|eauto with preserves].
  apply preserves_bind; [|done]. apply preserves_wrap, Hp. repeat constructor.
Qed.

Lemma preserves_PutShard (I : memory -> Prop) sh :
  preserves I ctx_Err -> (forall h, preserves I (GetXorbReadSeekCloser h)) -> (forall h, preserves I (GetXorbChunkOffsets h)) ->
  (forall kind name value, kind ∈ [kFiles; kSHA256; kChunks] -> preserves I (mem_put kind name value false)) ->
  (forall data, preserves I (mem_put kShards (hex_encode (Sum256 data)) data false)) -> preserves I (mem_PutShard sh).
Proof.
  intros H1 H2 H3 H4 H5 s Hs. unfold mem_PutShard. destruct (_ && _); [done|]. revert s Hs.
  apply preserves_bind; [by apply preserves_prepare|]. intros sh'.
  unfold EncodeShard. destruct (ReadAll _ _ _) as [data|]; [|by intros s Hs].
  intros s Hs. revert s Hs. cbn [mbind result_bind wrap_err].
  apply (preserves_bind I (mem_put kShards (hex_encode (Sum256 data)) data false)); [by apply H5|].
  intros inserted. apply preserves_bind; [by apply preserves_indexes|eauto with preserves].
Qed.

Lemma content_addressed_PutShard sh : preserves content_addressed (mem_PutShard sh).
Proof.
  apply preserves_PutShard.
  - intros s Hs. cbn. unfold mem_ctx_Err. by destruct (env_err _ _).
  - intros h s Hs. cbn. unfold mem_GetXorbReadSeekCloser. by destruct (mem_get _ _ _).
  - intros h s Hs. cbn. unfold mem_GetXorbChunkOffsets. destruct (mem_get _ _ _); [|done]. by destruct (wrap_err _ _).
  - intros kind name value Hk. apply content_addressed_put; intros ->; by repeat (apply elem_of_cons in Hk as [Hk|Hk]; [done|]);
      apply elem_of_nil in Hk.
  - intros data. by apply content_addressed_put.
Qed.

(** What [PutXorb] stores is the validated prefix of the stream. *)
Lemma content_addressed_PutXorb h r : preserves content_addressed (mem_PutXorb h r).
Proof.
  intros s Hs. unfold mem_PutXorb. case_bool_decide; [done|].
  destruct (validate_stream r h) as [rest|e] eqn:Ev; [|done].
  apply (content_addressed_put kXorbs (formatHash h) (take (length (rdata r) - length (rdata rest)) (rdata r)));
    [|done|done].
  intros _. exists h. split; [done|]. unfold validate_stream in Ev.
  destruct (validate_prefix _ _ _ _ _ Ev) as (pre & Hr & Hv).
  replace (take _ (rdata r)) with pre.
  2: { rewrite Hr, length_app, Nat.add_sub, take_app_le, take_ge by lia. done. }
  unfold Validate, validate_stream. change (file_reader pre) with (Reader pre EOF). cbn [rdata].
  rewrite (validate_fuel _ (S (length (rdata r)))); cbn [rdata];
    [by rewrite Hv|lia|rewrite Hr, length_app; lia].
Qed.

(** The invariant of every state the backend reaches. *)
Lemma reachable_addressed url env s :
  rtc mem_step (NewStorage url env) s -> content_addressed s.
Proof.
  assert (forall A (m : prog memory A) s, preserves content_addressed m -> content_addressed s ->
    content_addressed (m s).2) as Hp.
  { intros A m s1 Hm Hs. specialize (Hm s1 Hs). by destruct (m s1) as [[?|?] ?]. }
  intros Hr. assert (content_addressed (NewStorage url env)) as H0 by (by split).
  revert H0. induction Hr as [|s1 s2 s3 Hstep _ IH]; [done|]. intros H1. apply IH. clear IH.
  destruct Hstep as [h r s|sh s|kind name s|s].
  - by apply Hp; [apply content_addressed_PutXorb|].
  - by apply Hp; [apply content_addressed_PutShard|].
  - eapply content_addressed_sub; [|exact H1]. intros k n o. rewrite mem_delete_at. by case_bool_decide.
  - by eapply content_addressed_sub; [|exact H1].
Qed.
End reachable.

(** ** Witnesses *)

Section witnesses.
#[local] Instance wit_b3 : Blake3 := poly_blake3.
#[local] Instance wit_lz4 : Lz4 := rle_lz4.
#[local] Instance wit_bufs : ChunkBufs := zero_bufs.

Definition quiet_env : environment := Env (fun _ => None) (fun n => Z.of_nat n).

(** A store holding one xorb, uploaded through [PutXorb]. *)
Definition one_xorb : memory :=
  (mem_PutXorb wit_root (file_reader (xorb_bytes true wit_nonce wit_root wit_chunks)) (NewStorage [] quiet_env)).2.

(** A shard for a file made of its two chunks. *)
Definition one_file : Shard :=
  MkShard 0
    [MkFileBlock
       (match ComputeFileHash (map ComputeChunkHash wit_chunks) (map len wit_chunks) with Ok h => h | Err _ => zeroHash end)
       0 [MkFileEntry wit_root 0 (len (concat wit_chunks)) 0 (len wit_chunks)] [] None]
    [MkCASBlock wit_root 0 (map (fun d => MkCASChunk (ComputeChunkHash d) 0 (len d) 0) wit_chunks)
       (len (concat wit_chunks)) 0] None.

Lemma PrepareShard_verified_witness :
  exists sh' s', PrepareShard one_file one_xorb = (Ok sh', s') /\
    Forall2 (verified_file one_xorb) (s_Files one_file) (s_Files sh').
Proof.
  destruct (PrepareShard one_file one_xorb) as [[sh'|e] s'] eqn:E.
  - exists sh', s'. split; [reflexivity|]. exact (proj2 (proj2 (proj2 (proj2 (PrepareShard_verified _ _ _ _ E))))).
  - exfalso. apply (f_equal (fun p => is_ok p.1)) in E. vm_compute in E. discriminate E.
Defined.
End witnesses.
