(* ===== verification/Usage.v ===== *)
(** * Stored usage: [storage/usage.go] and the [Usage] methods of the backends

    [ComputeUsage] walks the five kinds of objects through the [walk] function
    its caller passes and counts what the walk reports.  Proved against the
    walking law of the contract alone, so for every backend that satisfies it:
    the counters are the number of stored objects of each kind and the sum of
    their sizes. *)

From Stdlib Require Import ZArith Lia Strings.Byte Strings.String.
From S2P Require Import Prelude Hash Sha256 XorbOffsets Shard ShardCodec Prog Storage FileSystem Local Memory.

(** ** The counters *)

Record ObjectUsage : Type := MkObjectUsage { ou_Count : Z; ou_Bytes : Z }.

Record Usage : Type := MkUsage {
  u_Xorbs : ObjectUsage;
  u_Shards : ObjectUsage;
  u_FileIndex : ObjectUsage;
  u_ChunkIndex : ObjectUsage;
  u_SHA256Index : ObjectUsage;
}.

(** The callback: [entry.dst.Count++; entry.dst.Bytes += size]. *)
Definition count_object {S} (_ : gostring) (info : Z * Z) (u : ObjectUsage) : prog S ObjectUsage :=
  mret (MkObjectUsage (i64 (ou_Count u + 1)) (i64 (ou_Bytes u + info.1))).

Section usage.
Context {S : Type} `{XorbStore S}.

(** What the [walk] argument is: the objects of a kind with size and time. *)
Definition walker : Type := gostring -> forall A, (gostring -> Z * Z -> A -> prog S A) -> A -> prog S A.

(** One turn of the loop over the kinds. *)
Definition kind_usage (walk : walker) (kind : gostring) : prog S ObjectUsage :=
  _ ← ctx_Err;
  walk kind _ count_object (MkObjectUsage 0 0).

Definition ComputeUsage (walk : walker) : prog S Usage :=
  xorbs ← kind_usage walk kXorbs;
  shards ← kind_usage walk kShards;
  files ← kind_usage walk kFiles;
  chunks ← kind_usage walk kChunks;
  sha ← kind_usage walk kSHA256;
  mret (MkUsage xorbs shards files chunks sha).

(** ** What the counters say *)

Context (at_ : S -> gostring -> gostring -> option object).

Definition obj_size (s : S) (kind name : gostring) : Z := len (entry_data (at_ s kind name)).

(** [u] counts the objects of [kind] stored in [s]: the names of them, each
    once, are as many as the count, and their sizes add up to the bytes. *)
Definition counted (s : S) (kind : gostring) (u : ObjectUsage) : Prop :=
  exists names, NoDup names /\ (forall n, n ∈ names <-> is_Some (at_ s kind n)) /\
    ou_Count u = i64 (len names) /\ ou_Bytes u = i64 (zsum (obj_size s kind) names).

Definition usage_counted (s : S) (u : Usage) : Prop :=
  counted s kXorbs (u_Xorbs u) /\ counted s kShards (u_Shards u) /\ counted s kFiles (u_FileIndex u) /\
  counted s kChunks (u_ChunkIndex u) /\ counted s kSHA256 (u_SHA256Index u).

(** The invariant of a walk that has seen [seen]. *)
Definition counting (s0 : S) (kind : gostring) (seen : list gostring) (u : ObjectUsage) (s : S) : Prop :=
  same at_ s0 s /\ NoDup seen /\ ou_Count u = i64 (len seen) /\ ou_Bytes u = i64 (zsum (obj_size s0 kind) seen).

Lemma counting_next s0 kind seen u s n o :
  n ∉ seen -> at_ s0 kind n = Some o -> counting s0 kind seen u s ->
  counting s0 kind (seen ++ [n]) (MkObjectUsage (i64 (ou_Count u + 1)) (i64 (ou_Bytes u + (obj_info o).1))) s.
Proof.
  intros Hn Ho (Hs & Hnd & Hcnt & Hb). split; [done|]. split.
  - apply NoDup_app. split; [done|]. split; [|apply NoDup_singleton]. intros x Hx ->%list_elem_of_singleton. done.
  - cbn. rewrite Hcnt, Hb, !i64_add_l, len_app, len_single, zsum_app. cbn.
    unfold obj_size. rewrite Ho. cbn. split; f_equal; lia.
Qed.

Lemma kind_usage_spec walk kind s0 :
  walks at_ kind obj_info (walk kind) -> reads at_ ctx_Err (fun _ _ => True) ->
  triple (same at_ s0) (kind_usage walk kind) (fun u s => same at_ s0 s /\ counted s0 kind u) (same at_ s0).
Proof.
  intros Hw Hc. apply (triple_bind _ _ (fun _ => same at_ s0)).
  { intros s Hs. destruct (Hc s) as [Hsame _]. destruct (ctx_Err s) as [[[]|] s']; cbn in *;
    intros k n; by rewrite Hsame, Hs. }
  intros _ s Hs.
  assert (forall n, at_ s kind n = at_ s0 kind n) as Hk by (intros n; apply Hs).
  specialize (Hw _ count_object (counting s0 kind) (same at_ s0) (MkObjectUsage 0 0) s).
  ospecialize* Hw.
  - intros seen a s1 s2 H12 (Hs1 & ?). split; [|done]. intros k n. by rewrite H12.
  - by intros ? ? ? [? _].
  - done.
  - split; [done|]. split; [constructor|done].
  - intros seen n o a Hn Ho. apply triple_ret. intros s1. apply counting_next; [done|]. by rewrite <- Hk.
  - destruct (walk kind _ _ _ s) as [[u|] s']; [|done].
    destruct Hw as (seen & Hin & Hs' & Hnd & Hn & Hb). split; [done|].
    exists seen. setoid_rewrite Hk in Hin. auto.
Qed.

(** [ComputeUsage] against the contract: it changes nothing, and what it
    reports is what is stored. *)
Lemma ComputeUsage_spec walk s0 :
  (forall kind, walks at_ kind obj_info (walk kind)) -> reads at_ ctx_Err (fun _ _ => True) ->
  triple (same at_ s0) (ComputeUsage walk) (fun u s => same at_ s0 s /\ usage_counted s0 u) (same at_ s0).
Proof.
  intros Hw Hc. unfold ComputeUsage, usage_counted.
  do 5 (eapply triple_seq; [by apply kind_usage_spec|intros ??]).
  apply triple_ret. auto 10.
Qed.
End usage.

(** ** The in-memory backend *)

(** [local.Storage.Usage]. *)
Definition lfs_Usage : prog local Usage := ComputeUsage (fun kind A => Local.walkHashedObjects kind).


(** [Storage.Usage] of the in-memory backend. *)
Definition mem_Usage : prog memory Usage := ComputeUsage (fun kind A => walkObjects kind).

Lemma walk_entries_total {X A} (info : object -> X) (fn : gostring -> X -> A -> prog memory A) env entries acc s :
  (forall n, env_err env n = None) -> m_env s = env ->
  (forall n x a s, m_env s = env -> exists a' s', fn n x a s = (Ok a', s') /\ m_env s' = env) ->
  exists a s', walk_entries info fn entries acc s = (Ok a, s') /\ m_env s' = env.
Proof.
  intros Henv Hs Hfn. revert acc s Hs. induction entries as [|[n o] entries IH]; intros acc s Hs; [by exists acc, s|].
  cbn [walk_entries]. unfold mbind, prog_bind, mem_ctx_Err. rewrite Hs, Henv.
  destruct (Hfn n (info o) acc (tick s) Hs) as (a & s' & -> & Hs'). by apply IH.
Qed.

Lemma kind_usage_total kind env s :
  (forall n, env_err env n = None) -> m_env s = env ->
  exists u s', kind_usage (fun kind A => walkObjects kind) kind s = (Ok u, s') /\ m_env s' = env.
Proof.
  intros Henv Hs. unfold kind_usage, mbind, prog_bind. cbn [ctx_Err memory_xorbs]. unfold mem_ctx_Err. rewrite Hs, Henv.
  apply walk_entries_total; [done|done|]. intros n x a s' Hs'. by eexists _, _.
Qed.

Lemma mem_Usage_total env s :
  (forall n, env_err env n = None) -> m_env s = env -> exists u s', mem_Usage s = (Ok u, s').
Proof.
  intros Henv Hs. unfold mem_Usage, ComputeUsage.
  destruct (kind_usage_total kXorbs env s Henv Hs) as (u1 & s1 & E1 & Hs1).
  destruct (kind_usage_total kShards env s1 Henv Hs1) as (u2 & s2 & E2 & Hs2).
  destruct (kind_usage_total kFiles env s2 Henv Hs2) as (u3 & s3 & E3 & Hs3).
  destruct (kind_usage_total kChunks env s3 Henv Hs3) as (u4 & s4 & E4 & Hs4).
  destruct (kind_usage_total kSHA256 env s4 Henv Hs4) as (u5 & s5 & E5 & Hs5).
  rewrite (prog_bind_Ok _ _ _ _ _ E1), (prog_bind_Ok _ _ _ _ _ E2), (prog_bind_Ok _ _ _ _ _ E3),
    (prog_bind_Ok _ _ _ _ _ E4), (prog_bind_Ok _ _ _ _ _ E5).
  by eexists _, _.
Qed.

(** Unless the context is cancelled, the in-memory backend reports its
    usage, without changing what is stored: for each of the five kinds the
    number of stored objects and the sum of their sizes. *)
Theorem memory_usage s :
  (forall n, env_err (m_env s) n = None) ->
  exists u s', mem_Usage s = (Ok u, s') /\ same mem_at s s' /\ usage_counted mem_at s u.
Proof.
  intros Henv. destruct (mem_Usage_total (m_env s) s Henv eq_refl) as (u & s' & E). exists u, s'. split; [done|].
  pose proof (ComputeUsage_spec mem_at (fun kind A => walkObjects kind) s) as H. ospecialize* H.
  - intros kind. by apply mem_walks.
  - intros s0. split; [apply mem_at_tick|done].
  - by instantiate (1 := s).
  - unfold mem_Usage in E. by rewrite E in H.
Qed.

(** A store with one xorb of three bytes and one file index entry. *)
Definition two_objects : memory :=
  MkMemory [] (<[kXorbs := {[str "x" := MkObject (str "abc") 0]}]>
    {[kFiles := {[str "f" := MkObject (str "s") 0]}]}) (Env (fun _ => None) (fun _ => 0)) 0.

Lemma memory_usage_witness :
  (forall n, env_err (m_env two_objects) n = None) /\
  (exists s', mem_Usage two_objects = (Ok (MkUsage (MkObjectUsage 1 3) (MkObjectUsage 0 0) (MkObjectUsage 1 1)
     (MkObjectUsage 0 0) (MkObjectUsage 0 0)), s')) /\
  exists u s', mem_Usage two_objects = (Ok u, s') /\ same mem_at two_objects s' /\ usage_counted mem_at two_objects u.
Proof.
  split; [done|]. split; [eexists; vm_compute; reflexivity|]. exact (memory_usage two_objects (fun _ => eq_refl)).
Defined.
