(* ===== verification/MemoryPut.v ===== *)
(** * Uploading and looking up: [storage/memory/memory.go], [storage/object.go]

    The other half of the memory backend's correctness: a shard that is
    admitted can be found again.  Proved: stored shard bytes decode to the
    shard they were made from, and after a successful [PutShard] every file
    that was not indexed before resolves, through its index entry and the
    stored object, to the shard's own file and CAS blocks, with the digest of
    the bytes the file's terms decode to; and every index entry the store ever
    has names an accepted shard that has what the entry is for. *)

From Stdlib Require Import ZArith Lia Strings.Byte Strings.String.
From S2P Require Import Prelude Hash Sha256 Gearhash Merkle ByteGrouping Compression XorbEncoder XorbDecoder.
From S2P Require Import XorbOffsets Shard ShardCodec Prog Storage PutShard Memory.

(** ** Stored shards decode *)

Lemma DecodeStoredShard_encoded sh :
  Forall file_ok (s_Files sh) -> Forall cas_ok (s_CASInfos sh) ->
  DecodeStoredShard (file_reader (encoded 0 sh false)) = Ok (MkShard 0 (s_Files sh) (s_CASInfos sh) None).
Proof.
  intros Hf Hc.
  destruct (header_fields 0) as (H48 & _ & _ & Hsz); [unfold is_u64; lia|].
  assert (exists tl, encoded 0 sh false = buildHeader 0 ++ tl) as [tl Htl].
  { unfold encoded, sections. cbn [concat app]. rewrite app_nil_r. by eexists. }
  unfold DecodeStoredShard. rewrite Htl at 1. unfold file_reader.
  rewrite read_or_app by done. cbn [mbind result_bind rdata rend]. rewrite Hsz.
  rewrite le_val_put_u64 by (unfold is_u64; lia). cbn [Z.eqb negb].
  rewrite <- Htl, <- (app_nil_r (encoded 0 sh false)).
  rewrite decode_encoded by done.
  assert (forall cbs, process_blocks (fun st (_ : CASBlock) => Ok st) tt cbs = Ok tt) as ->; [|done].
  unfold process_blocks. by induction cbs.
Qed.

(** ** The shard as it is prepared *)

(** What [PrepareShard] makes of a file block. *)
Definition with_digest (digest : SHA256Hash) (fb : FileBlock) : FileBlock :=
  MkFileBlock (fb_FileHash fb) (Z.lor (fb_Flags fb) FileWithMetadataExt) (fb_Entries fb)
    (fb_Verification fb) (Some (MkFileMetadataExt digest)).

Lemma lor_meta_verification flags :
  has_flag (Z.lor flags FileWithMetadataExt) FileWithVerification <-> has_flag flags FileWithVerification.
Proof.
  unfold has_flag. rewrite Z.land_lor_distr_l.
  change (Z.land FileWithMetadataExt FileWithVerification) with 0. by rewrite Z.lor_0_r.
Qed.

Lemma lor_meta_set flags : has_flag (Z.lor flags FileWithMetadataExt) FileWithMetadataExt.
Proof.
  unfold has_flag. rewrite Z.land_lor_distr_l. change (Z.land FileWithMetadataExt FileWithMetadataExt) with (2 ^ 30).
  intros [_ H]%Z.lor_eq_0_iff. lia.
Qed.

Lemma lor_u32 a b : is_u32 a -> is_u32 b -> is_u32 (Z.lor a b).
Proof.
  unfold is_u32. intros Ha Hb. split; [apply Z.lor_nonneg; lia|].
  destruct (Z.eq_dec (Z.lor a b) 0) as [->|Hne]; [done|].
  apply Z.log2_lt_pow2; [pose proof (proj2 (Z.lor_nonneg a b) (conj (proj1 Ha) (proj1 Hb))); lia|].
  rewrite Z.log2_lor by lia. apply Z.max_lub_lt.
  - destruct (Z.eq_dec a 0) as [->|]; [done|]. apply Z.log2_lt_pow2; lia.
  - destruct (Z.eq_dec b 0) as [->|]; [done|]. apply Z.log2_lt_pow2; lia.
Qed.

(** The metadata flag keeps the block's header apart from the terminator. *)
Lemma file_ok_with_digest digest fb : file_ok fb -> file_ok (with_digest digest fb).
Proof.
  intros (H1 & H2 & H3 & H4 & H5 & H6 & H7). unfold with_digest.
  assert (is_u32 (Z.lor (fb_Flags fb) FileWithMetadataExt)) as Hu
    by (apply lor_u32; [done|split; vm_compute; congruence]).
  split; [done|]. split; [done|]. split; [done|].
  cbn [fb_Flags fb_Verification fb_Entries fb_MetadataExt]. rewrite lor_meta_verification.
  split; [done|]. split; [done|]. split; [split; [by eexists|intros _; apply lor_meta_set]|].
  intros E. apply (f_equal (slice 32 36)) in E. unfold file_header in E.
  cbn [fb_FileHash fb_Flags fb_Entries] in E.
  rewrite (slice_mid 32 36 (fb_FileHash fb) (put_u32 _)) in E
    by (rewrite ?len_hash, ?len_put_u32; unfold hashSize; lia).
  apply (f_equal le_val) in E. rewrite le_val_put_u32 in E by done.
  pose proof (lor_meta_set (fb_Flags fb)) as Hs. unfold has_flag in Hs. rewrite E in Hs. by vm_compute in Hs.
Qed.

(** ** Hex names *)

Lemma digit_char_inj a b : 0 <= a < 16 -> 0 <= b < 16 -> digit_char a = digit_char b -> a = b.
Proof.
  intros Ha Hb H. apply (f_equal b2z) in H. unfold digit_char in H.
  destruct (Z.ltb_spec a 10), (Z.ltb_spec b 10);
    rewrite (b2z_z2b (_ + a)), (b2z_z2b (_ + b)), !Z.mod_small in H by lia; lia.
Qed.

Lemma hex_encode_inj (v w : vec byte 32) : hex_encode v = hex_encode w -> v = w.
Proof.
  intros H. apply vec_to_list_inj2. revert H. generalize (vec_to_list v) as l, (vec_to_list w) as k.
  induction l as [|x l IH]; intros [|y k]; try done. intros [= H1 H2 H3].
  pose proof (b2z_range x). pose proof (b2z_range y).
  apply digit_char_inj in H1; [|split; [apply Z.div_pos|apply Z.div_lt_upper_bound]; lia..].
  apply digit_char_inj in H2; [|apply Z.mod_pos_bound; lia..].
  f_equal; [|by apply IH]. apply b2z_inj.
  rewrite (Z.div_mod (b2z x) 16), (Z.div_mod (b2z y) 16), H1, H2 by lia. done.
Qed.

(** ** Index writes *)

(** [s'] is [s] with entries of [kind] under [names] added where there were
    none. *)
Definition filled (kind : gostring) (names : list gostring) (value : gostring) (s s' : memory) : Prop :=
  (forall k n, mem_at s' k n = mem_at s k n \/
     k = kind /\ n ∈ names /\ mem_at s k n = None /\ exists t, mem_at s' k n = Some (MkObject value t)) /\
  (forall n, n ∈ names -> is_Some (mem_at s' kind n)).

Lemma mem_put_Ok kind name data s : exists b, mem_put kind name data false s = (Ok b, (mem_put kind name data false s).2).
Proof. unfold mem_put. case_match; by eexists. Qed.

Lemma put_entry fmt kind name value s :
  exists s1, prog_wrap fmt (_ ← mem_put kind name value false; mret tt) s = (Ok tt, s1) /\
    forall k n, mem_at s1 k n = if bool_decide ((k, n) = (kind, name) /\ mem_at s kind name = None)
      then Some (MkObject value (env_now (m_env s) (m_calls s))) else mem_at s k n.
Proof.
  destruct (mem_put_Ok kind name value s) as [b Ep]. eexists. split; [unfold prog_wrap, catch; by rewrite (prog_bind_Ok _ _ _ _ _ Ep)|].
  intros k n. apply mem_put_at.
Qed.

Lemma put_all_filled fmt kind names value s :
  exists s', put_all fmt (fun kind name value => _ ← mem_put kind name value false; mret tt) kind names value s =
      (Ok tt, s') /\ filled kind names value s s'.
Proof.
  revert s. induction names as [|name names IH]; intros s; cbn [put_all].
  - exists s. split; [done|]. split; [by left|]. intros n Hn. by apply elem_of_nil in Hn.
  - destruct (put_entry fmt kind name value s) as (s1 & Ep & Hat). rewrite (prog_bind_Ok _ _ _ _ _ Ep).
    destruct (IH s1) as (s' & -> & H1 & H2). exists s'. split; [done|]. split.
    + intros k n. destruct (H1 k n) as [E|(-> & Hn & HN & t & E)].
      * rewrite E, Hat. case_bool_decide as Hk; [|by left]. destruct Hk as [[= -> ->] Hk].
        right. split; [done|]. split; [by left|]. split; [done|]. by eexists.
      * rewrite Hat in HN. case_bool_decide as Hk; [done|]. right.
        split; [done|]. split; [by right|]. split; [done|]. by exists t.
    + intros n Hn. apply elem_of_cons in Hn as [->|Hn]; [|by apply H2].
      assert (is_Some (mem_at s1 kind name)) as [o Ho].
      { rewrite Hat. case_bool_decide as Hk; [by eexists|]. apply not_eq_None_Some. tauto. }
      destruct (H1 kind name) as [E|(_ & _ & HN & _)]; [rewrite E|]; naive_solver.
Qed.

(** The names of a shard's entries in each index. *)
Definition index_names (sh : Shard) (kind : gostring) : list gostring :=
  if bool_decide (kind = kFiles) then map (fun f => formatHash (fb_FileHash f)) (s_Files sh)
  else if bool_decide (kind = kSHA256) then
    omap (fun f => (fun ext => SHA256Hash_String (me_SHA256Hash ext)) <$> fb_MetadataExt f) (s_Files sh)
  else if bool_decide (kind = kChunks) then map (fun e => formatHash (lc_Hash e)) (GlobalDedupEligibleChunks sh)
  else [].

Lemma put_sha256_filled files value s :
  Forall (fun f => is_Some (fb_MetadataExt f)) files ->
  exists s', put_sha256 (fun kind name value => _ ← mem_put kind name value false; mret tt) files value s = (Ok tt, s') /\
    filled kSHA256 (omap (fun f => (fun ext => SHA256Hash_String (me_SHA256Hash ext)) <$> fb_MetadataExt f) files) value s s'.
Proof.
  intros Hf. destruct (put_all_filled "write SHA-256 index for file %s: %w" kSHA256
    (omap (fun f => (fun ext => SHA256Hash_String (me_SHA256Hash ext)) <$> fb_MetadataExt f) files) value s) as (s' & E & H).
  exists s'. split; [|exact H]. rewrite <- E. clear E H s'. revert s. induction Hf as [|f files [ext Hext] _ IH]; intros s; [done|].
  cbn [put_sha256 omap list_omap]. rewrite Hext. cbn [fmap option_fmap option_map put_all].
  destruct (put_entry "write SHA-256 index for file %s: %w" kSHA256 (SHA256Hash_String (me_SHA256Hash ext)) value s) as (s1 & Ep & _).
  rewrite !(prog_bind_Ok _ _ _ _ _ Ep). apply IH.
Qed.

(** The index entries of a shard are added where there were none, and nothing
    else changes. *)
Lemma PutShardIndexes_filled sh name s :
  Forall (fun f => is_Some (fb_MetadataExt f)) (s_Files sh) ->
  exists s', PutShardIndexes sh name (fun kind name value => _ ← mem_put kind name value false; mret tt) s = (Ok tt, s') /\
    (forall k n, mem_at s' k n = mem_at s k n \/
       n ∈ index_names sh k /\ mem_at s k n = None /\ exists t, mem_at s' k n = Some (MkObject name t)) /\
    (forall n, n ∈ index_names sh kFiles -> is_Some (mem_at s' kFiles n)).
Proof.
  intros Hf. unfold PutShardIndexes.
  destruct (put_all_filled "write chunk index: %w" kChunks
    (map (fun e => formatHash (lc_Hash e)) (GlobalDedupEligibleChunks sh)) name s) as (s1 & E1 & H1 & _).
  rewrite (prog_bind_Ok _ _ _ _ _ E1).
  destruct (put_sha256_filled (s_Files sh) name s1 Hf) as (s2 & E2 & H2 & _).
  rewrite (prog_bind_Ok _ _ _ _ _ E2).
  destruct (put_all_filled "write file index for file %s: %w" kFiles
    (map (fun f => formatHash (fb_FileHash f)) (s_Files sh)) name s2) as (s3 & E3 & H3 & H4).
  exists s3. split; [exact E3|]. split; [|exact H4]. intros k n.
  destruct (H3 k n) as [->|(-> & Hn & HN & Ht)]; [destruct (H2 k n) as [->|(-> & Hn & HN & Ht)]; [destruct (H1 k n) as [->|(-> & Hn & HN & Ht)]|]|].
  - by left.
  - right. done.
  - right. split; [exact Hn|]. split; [|done]. by destruct (H1 kSHA256 n) as [<-|[? _]].
  - right. split; [exact Hn|]. split; [|done]. destruct (H2 kFiles n) as [E|[? _]]; [|done].
    destruct (H1 kFiles n) as [<-|[? _]]; [congruence|done].
Qed.

Lemma PutShardIndexes_mem sh name s :
  Forall (fun f => is_Some (fb_MetadataExt f)) (s_Files sh) ->
  exists s', PutShardIndexes sh name (fun kind name value => _ ← mem_put kind name value false; mret tt) s =
      (Ok tt, s') /\
    (forall k n, k = kShards \/ k = kXorbs -> mem_at s' k n = mem_at s k n) /\
    (forall fb, fb ∈ s_Files sh -> mem_at s kFiles (formatHash (fb_FileHash fb)) = None ->
       exists t, mem_at s' kFiles (formatHash (fb_FileHash fb)) = Some (MkObject name t)).
Proof.
  intros Hf. destruct (PutShardIndexes_filled sh name s Hf) as (s' & E & H1 & H2). exists s'. split; [done|]. split.
  - intros k n Hk. destruct (H1 k n) as [|(Hn & _)]; [done|]. by destruct Hk as [->| ->]; apply elem_of_nil in Hn.
  - intros fb Hfb HN. destruct (H2 (formatHash (fb_FileHash fb))) as [o Ho].
    { by apply (list_elem_of_fmap_2 (fun f => formatHash (fb_FileHash f))). }
    destruct (H1 kFiles (formatHash (fb_FileHash fb))) as [E'|(_ & _ & Ht)]; [congruence|done].
Qed.

(** ** Uploads can be looked up *)

Section putget.
Context {B3 : Blake3} {L : Lz4} {P : ChunkBufs}.

(** No two shards in play share a SHA-256. *)
Definition sha256_collision_free (s : memory) (data : list byte) : Prop :=
  forall n o, mem_at s kShards n = Some o -> Sum256 (o_data o) = Sum256 data -> o_data o = data.

Lemma prepared_files s files files' :
  Forall2 (verified_file s) files files' -> exists digests, files' = zip_with with_digest digests files /\
    length digests = length files.
Proof.
  induction 1 as [|fb fb' fbs fbs' (digest & css & -> & _) _ (digests & -> & Hl)]; [by exists []|].
  exists (digest :: digests). split; [done|]. cbn. by rewrite Hl.
Qed.

Lemma zip_with_digest digests files fb :
  length digests = length files -> fb ∈ zip_with with_digest digests files ->
  exists digest fb0, fb0 ∈ files /\ fb = with_digest digest fb0.
Proof.
  intros Hl Hin. apply list_elem_of_lookup in Hin as [i Hi].
  apply lookup_zip_with_Some in Hi as (d & fb0 & -> & Hd & Hf). exists d, fb0. split; [|done].
  by eapply list_elem_of_lookup_2.
Qed.

Lemma zip_with_digest_in digests files fb :
  length digests = length files -> fb ∈ files ->
  exists digest, with_digest digest fb ∈ zip_with with_digest digests files.
Proof.
  intros Hl Hin. apply list_elem_of_lookup in Hin as [i Hi].
  destruct (lookup_lt_is_Some_2 digests i) as [d Hd].
  { rewrite Hl. by eapply lookup_lt_Some. }
  exists d. apply list_elem_of_lookup. exists i. apply lookup_zip_with_Some. by exists d, fb.
Qed.

Lemma len_with_digest digest fb : len (buildFileBlock (with_digest digest fb)) <= len (buildFileBlock fb) + 48.
Proof.
  rewrite !buildFileBlock_eq, !len_app, !len_file_header. cbn [with_digest fb_Entries].
  assert (verif_section (with_digest digest fb) = verif_section fb) as ->.
  { unfold verif_section. cbn [with_digest fb_Flags fb_Verification].
    replace (negb (Z.land (Z.lor (fb_Flags fb) FileWithMetadataExt) FileWithVerification =? 0))
      with (negb (Z.land (fb_Flags fb) FileWithVerification =? 0)); [done|].
    apply Bool.eq_iff_eq_true. rewrite !flag_test. symmetry. apply lor_meta_verification. }
  assert (len (meta_section (with_digest digest fb)) <= 48).
  { unfold meta_section. case_match; [|change (len []) with 0; lia]. cbn [with_digest fb_MetadataExt].
    rewrite len_app, len_vec, len_replicate. lia. }
  pose proof (len_nonneg (meta_section fb)). lia.
Qed.

Lemma len_prepared fsz ft digests sh :
  len (encoded 0 (MkShard fsz (zip_with with_digest digests (s_Files sh)) (s_CASInfos sh) ft) false) <=
    len (encoded 0 sh false) + 48 * len (s_Files sh).
Proof.
  unfold encoded, sections. cbn [s_Files s_CASInfos]. rewrite !concat_app, !len_app.
  enough (len (concat (map buildFileBlock (zip_with with_digest digests (s_Files sh)))) <=
    len (concat (map buildFileBlock (s_Files sh))) + 48 * len (s_Files sh)) by lia.
  generalize (s_Files sh) as files. intros files. revert digests.
  induction files as [|fb files IH]; intros [|d digests]; cbn [zip_with map concat];
    rewrite ?len_app, ?len_cons; change (len []) with 0;
    try (pose proof (len_nonneg (buildFileBlock fb)); pose proof (len_nonneg files);
         pose proof (len_nonneg (concat (map buildFileBlock files))); lia); [done..|].
  pose proof (len_with_digest d fb). specialize (IH digests). lia.
Qed.

Lemma all_indexed_In files s fb :
  all_indexed files s = true -> fb ∈ files -> mem_at s kFiles (formatHash (fb_FileHash fb)) <> None.
Proof.
  induction files as [|f files IH]; intros H Hin; [by apply elem_of_nil in Hin|]. cbn [all_indexed] in H.
  case_bool_decide as He; [done|]. apply elem_of_cons in Hin as [->|Hin]; [|by apply IH].
  intros E. apply He. unfold mem_at in E. by rewrite E.
Qed.

Lemma hex_encode_ne (v : vec byte 32) : hex_encode v <> [].
Proof. inv_vec v. intros. done. Qed.

(** Storing the shard bytes under their digest. *)
Lemma stored_shard data s :
  content_addressed s -> sha256_collision_free s data ->
  exists b s', mem_put kShards (hex_encode (Sum256 data)) data false s = (Ok b, s') /\
    (exists t, mem_at s' kShards (hex_encode (Sum256 data)) = Some (MkObject data t)) /\
    (forall k n, k <> kShards -> mem_at s' k n = mem_at s k n).
Proof.
  intros [_ Hca] Hcol. set (name := hex_encode (Sum256 data)) in *.
  destruct (mem_put_Ok kShards name data s) as [b Ep]. pose proof (mem_put_at kShards name data s) as Hat.
  exists b. eexists. split; [exact Ep|]. split.
  - rewrite Hat. case_bool_decide as Hk; [by eexists|].
    destruct (mem_at s kShards name) as [o|] eqn:Ho; [|by destruct Hk].
    exists (o_modTime o). destruct o as [d t]. f_equal. f_equal. eapply (Hcol _ _ Ho). cbn.
    apply hex_encode_inj. symmetry. exact (Hca _ _ Ho).
  - intros k n Hk. rewrite Hat, bool_decide_eq_false_2; [done|]. by intros [[= -> _] _].
Qed.

(** The run of a successful [PutShard] that finds a file not indexed yet. *)
Lemma PutShard_found sh s b s' fb :
  content_addressed s ->
  (forall sh' s1, PrepareShard sh s = (Ok sh', s1) -> sha256_collision_free s (encoded 0 sh' false)) ->
  Forall file_ok (s_Files sh) -> Forall cas_ok (s_CASInfos sh) ->
  len (encoded 0 sh false) + 48 * len (s_Files sh) < 2 ^ 63 ->
  PutShard sh s = (Ok b, s') ->
  fb ∈ s_Files sh -> mem_at s kFiles (formatHash (fb_FileHash fb)) = None ->
  exists sh1 fb', GetShard (fb_FileHash fb) s' = (Ok sh1, s') /\ s_CASInfos sh1 = s_CASInfos sh /\
    fb' ∈ s_Files sh1 /\ verified_file s fb fb' /\ (forall n, mem_at s' kXorbs n = mem_at s kXorbs n).
Proof.
  intros Hca Hcol Hf Hc Hlen Hput Hfb HN. cbn [PutShard memory_storage] in Hput. unfold mem_PutShard in Hput.
  destruct (all_indexed (s_Files sh) s) eqn:Eall; [by apply (all_indexed_In _ _ _ Eall) in Hfb|].
  rewrite andb_false_r in Hput.
  destruct (PrepareShard sh s) as [[sh'|] s1] eqn:Ep; [|unfold mbind at 1, prog_bind at 1 in Hput; by rewrite Ep in Hput].
  rewrite (prog_bind_Ok _ _ _ _ _ Ep) in Hput. specialize (Hcol _ _ eq_refl).
  apply PrepareShard_mem in Ep as (Hs1 & _ & HC & _ & Hv).
  apply list_elem_of_lookup in Hfb as [i Hi]. destruct (Forall2_lookup_l _ _ _ _ _ Hv Hi) as (fb' & Hi' & Hfb').
  apply prepared_files in Hv as (digests & HF & Hl). destruct sh' as [fsz files cas ft]. cbn [s_Files s_CASInfos] in HF, HC, Hi'.
  subst files cas. set (sh' := MkShard fsz _ _ ft) in *.
  assert (len (encoded 0 sh' false) < 2 ^ 63) as Hsm by (pose proof (len_prepared fsz ft digests sh); unfold sh'; lia).
  rewrite (EncodeShard_eq 0 sh') in Hput by done. set (data := encoded 0 sh' false) in *. cbn [wrap_err] in Hput.
  erewrite prog_bind_Ok in Hput by reflexivity. cbv beta iota in Hput.
  destruct (stored_shard data s1) as (ins & s2 & E2 & Hsh & Hoth).
  { eapply content_addressed_sub; [|exact Hca]. intros k n o. by rewrite Hs1. }
  { intros n o. rewrite Hs1. apply Hcol. }
  rewrite (prog_bind_Ok _ _ _ _ _ E2) in Hput.
  destruct (PutShardIndexes_mem sh' (hex_encode (Sum256 data)) s2) as (s3 & E3 & H3 & H4).
  { apply Forall_forall. intros fb0 Hin. apply zip_with_digest in Hin as (d & fb1 & _ & ->); [|done]. by eexists. }
  rewrite (prog_bind_Ok _ _ _ _ _ E3) in Hput. injection Hput as <- <-.
  assert (fb_FileHash fb' = fb_FileHash fb) as Hh by (by destruct Hfb' as (? & ? & -> & _)).
  apply list_elem_of_lookup_2 in Hi' as Hin'. destruct (H4 fb' Hin') as [t Ht]. { by rewrite Hoth, Hs1, Hh. }
  destruct Hsh as [mt Hsh]. rewrite <- H3 in Hsh by auto.
  assert (DecodeStoredShard (file_reader data) = Ok (MkShard 0 (s_Files sh') (s_CASInfos sh') None)) as Hdec.
  { apply DecodeStoredShard_encoded; [|done]. apply Forall_forall. intros fb0 Hin.
    apply zip_with_digest in Hin as (d' & fb1 & H0 & ->); [|done].
    apply file_ok_with_digest. by eapply Forall_forall in Hf. }
  exists (SetFooter (MkShard 0 (s_Files sh') (s_CASInfos sh') None) (unix mt)), fb'.
  split; [|split; [done|split; [done|split; [done|]]]].
  - cbn [GetShard memory_storage]. unfold shardByIndex, indexEntry. unfold mbind, prog_bind.
    change (mem_get ?k ?n ?s) with (mem_at s k n). rewrite <- Hh, Ht. cbn [entry_data o_data].
    rewrite bool_decide_eq_false_2 by apply hex_encode_ne.
    unfold loadShard. change (mem_get ?k ?n ?s) with (mem_at s k n). rewrite Hsh. cbn [o_data o_modTime].
    by rewrite Hdec.
  - intros n. rewrite H3, Hoth by auto. apply Hs1.
Qed.

(** The terms' chunks come from the xorbs only. *)
Lemma term_chunks_xorbs s s' entry cs :
  (forall n, mem_at s' kXorbs n = mem_at s kXorbs n) -> term_chunks s entry cs -> term_chunks s' entry cs.
Proof.
  intros Hx (o & offsets & start & end_ & fuel & d & Ho & H). exists o, offsets, start, end_, fuel, d. by rewrite Hx.
Qed.

Lemma verified_xorbs s s' fb fb' :
  (forall n, mem_at s' kXorbs n = mem_at s kXorbs n) -> verified_file s fb fb' -> verified_file s' fb fb'.
Proof.
  intros Hx (digest & css & H1 & H2 & H3). exists digest, css. split; [done|]. split; [|done].
  eapply Forall2_impl; [exact H2|]. intros e cs. by apply term_chunks_xorbs.
Qed.

(** An upload overwrites nothing. *)
Lemma PutShard_keeps sh s k n o : mem_at s k n = Some o -> mem_at (mem_PutShard sh s).2 k n = Some o.
Proof.
  intros Ho. assert (preserves (fun s => mem_at s k n = Some o) (mem_PutShard sh)) as H; [apply preserves_PutShard|].
  - clear. intros s Hs. cbn. unfold mem_ctx_Err. by destruct (env_err _ _).
  - clear. intros h s Hs. cbn. unfold mem_GetXorbReadSeekCloser. by destruct (mem_get _ _ _).
  - clear. intros h s Hs. cbn. unfold mem_GetXorbChunkOffsets. destruct (mem_get _ _ _); [|done]. by destruct (wrap_err _ _).
  - clear. intros kind name value _ s Hs. enough (mem_at (mem_put kind name value false s).2 k n = Some o) as H
      by (by destruct (mem_put kind name value false s) as [[?|?] ?]).
    rewrite mem_put_at. case_bool_decide as Hk; [|done]. destruct Hk as [[= -> ->] Hk]. congruence.
  - clear. intros data s Hs. enough (mem_at (mem_put kShards (hex_encode (Sum256 data)) data false s).2 k n = Some o) as H
      by (by destruct (mem_put kShards (hex_encode (Sum256 data)) data false s) as [[?|?] ?]).
    rewrite mem_put_at. case_bool_decide as Hk; [|done]. destruct Hk as [[= -> ->] Hk]. congruence.
  - specialize (H s Ho). by destruct (mem_PutShard sh s) as [[?|?] ?].
Qed.

(** C33 what is uploaded can be looked up.  After a [PutShard] that reports no
    error, a file of the shard that had no index entry before resolves by its
    hash, through the index and the stored object, to a shard with the uploaded
    CAS blocks and the uploaded file block, in which the SHA-256 of the bytes
    is recorded that the file's terms decode to from the stored xorbs, and whose
    hash is the hash of those bytes; a file that had an index entry keeps it
    (for shards the format can hold, when no stored shard collides with the new
    one under SHA-256). *)
Theorem PutShard_GetShard sh s b s' fb :
  content_addressed s ->
  (forall sh' s1, PrepareShard sh s = (Ok sh', s1) -> sha256_collision_free s (encoded 0 sh' false)) ->
  Forall file_ok (s_Files sh) -> Forall cas_ok (s_CASInfos sh) ->
  len (encoded 0 sh false) + 48 * len (s_Files sh) < 2 ^ 63 ->
  PutShard sh s = (Ok b, s') ->
  fb ∈ s_Files sh ->
  match mem_at s kFiles (formatHash (fb_FileHash fb)) with
  | None =>
      exists sh1 digest css, GetShard (fb_FileHash fb) s' = (Ok sh1, s') /\ s_CASInfos sh1 = s_CASInfos sh /\
       with_digest digest fb ∈ s_Files sh1 /\ Forall2 (term_chunks s') (fb_Entries fb) css /\
       (fb_Entries fb = [] -> digest = zeroHash /\ fb_FileHash fb = zeroHash) /\
       (fb_Entries fb <> [] -> digest = Sum256 (concat (concat css)) /\
          ComputeFileHash (map ComputeChunkHash (concat css)) (map len (concat css)) = Ok (fb_FileHash fb))
  | Some o => mem_at s' kFiles (formatHash (fb_FileHash fb)) = Some o
  end.
Proof.
  intros Hca Hcol Hf Hc Hlen Hput Hfb. destruct (mem_at s kFiles _) as [o|] eqn:HN.
  { apply (PutShard_keeps sh) in HN. cbn in Hput. by rewrite Hput in HN. }
  destruct (PutShard_found sh s b s' fb) as (sh1 & fb' & H1 & H2 & H3 & Hv & Hx); [done..|].
  apply (verified_xorbs s s') in Hv as (digest & css & -> & V1 & V2 & V3 & _); [|done].
  exists sh1, digest, css. done.
Qed.

(** *** The indexes *)

(** Preparing a shard changes nothing, whether it is accepted or not. *)
Lemma prepare_same sh s : same mem_at s (PrepareShard sh s).2.
Proof.
  assert (preserves (same mem_at s) (PrepareShard sh)) as H; [|specialize (H s (fun _ _ => eq_refl)); by destruct (PrepareShard sh s) as [[?|?] ?]].
  apply preserves_prepare.
  - intros s1 Hs. cbn. unfold mem_ctx_Err. by destruct (env_err _ _).
  - intros h s1 Hs. cbn. unfold mem_GetXorbReadSeekCloser. by destruct (mem_get _ _ _).
  - intros h s1 Hs. cbn. unfold mem_GetXorbChunkOffsets. destruct (mem_get _ _ _); [|done]. by destruct (wrap_err _ _).
Qed.

(** An index entry an upload adds names the shard it stores. *)
Lemma PutShard_indexed sh s k n o :
  k ∈ [kFiles; kSHA256; kChunks] -> mem_at (mem_PutShard sh s).2 k n = Some o ->
  mem_at s k n = Some o \/
  (exists sh' s1 data, PrepareShard sh s = (Ok sh', s1) /\ EncodeShard 0 sh' = Ok (data, o_data o) /\ n ∈ index_names sh' k) /\
  is_Some (mem_at (mem_PutShard sh s).2 kShards (o_data o)).
Proof.
  intros Hk. destruct (mem_PutShard sh s) as [r' s'] eqn:Em. cbn [snd]. unfold mem_PutShard in Em.
  destruct (_ && _); [injection Em as _ <-; by left|].
  destruct (PrepareShard sh s) as [r s1] eqn:Ep. pose proof (prepare_same sh s) as Hs1. rewrite Ep in Hs1. cbn [snd] in Hs1.
  destruct r as [sh'|e]; [|unfold mbind, prog_bind in Em; rewrite Ep in Em; injection Em as _ <-; rewrite Hs1; by left].
  rewrite (prog_bind_Ok _ _ _ _ _ Ep) in Em. pose proof Ep as Hprep. apply PrepareShard_mem in Ep as (_ & _ & _ & _ & Hv).
  unfold EncodeShard in Em. destruct (ReadAll _ _ _) as [data|e] eqn:Er; [|injection Em as _ <-; rewrite Hs1; by left].
  cbn [mbind result_bind wrap_err] in Em. erewrite prog_bind_Ok in Em by reflexivity. cbv beta iota in Em.
  set (name := hex_encode (Sum256 data)) in *.
  assert (exists b s2, mem_put kShards name data false s1 = (Ok b, s2) /\ is_Some (mem_at s2 kShards name) /\
    forall k n, k <> kShards -> mem_at s2 k n = mem_at s1 k n) as (b & s2 & E2 & Hsh & Hoth).
  { destruct (mem_put_Ok kShards name data s1) as [b E]. exists b. eexists. split; [exact E|]. split.
    - rewrite mem_put_at. case_bool_decide as Hd; [by eexists|]. apply not_eq_None_Some. intros EN. by apply Hd.
    - intros k' n' Hk'. rewrite mem_put_at, bool_decide_eq_false_2; [done|]. by intros [[= -> _] _]. }
  rewrite (prog_bind_Ok _ _ _ _ _ E2) in Em.
  destruct (PutShardIndexes_filled sh' name s2) as (s3 & E3 & H3 & _).
  { clear -Hv. induction Hv as [|fb fb' fbs fbs' (d & css & -> & _) _ IH]; constructor; [by eexists|done]. }
  rewrite (prog_bind_Ok _ _ _ _ _ E3) in Em. injection Em as _ <-. intros Ho.
  assert (k <> kShards) as Hks by (intros ->; by repeat (apply elem_of_cons in Hk as [Hk|Hk]; [done|]); apply elem_of_nil in Hk).
  destruct (H3 k n) as [E|(Hn & HN & t & E)].
  - left. by rewrite <- Hs1, <- Hoth, <- E.
  - right. rewrite E in Ho. injection Ho as <-. cbn [o_data]. split.
    + exists sh', s1, data. split; [done|]. split; [|done]. unfold EncodeShard. by rewrite Er.
    + destruct (H3 kShards name) as [->|(Hn' & _)]; [done|by apply elem_of_nil in Hn'].
Qed.

(** An entry of an index of a store that came from [s0]: some shard was accepted,
    its encoding is what the entry names, the entry is one of its own, and it is
    stored, unless it has been deleted since. *)
Definition index_entry_sound (s0 s : memory) (k n : gostring) (o : object) : Prop :=
  (exists sh s1 sh' s2 data, rtc mem_step s0 s1 /\ PrepareShard sh s1 = (Ok sh', s2) /\
     EncodeShard 0 sh' = Ok (data, o_data o) /\ n ∈ index_names sh' k /\ rtc mem_step (mem_PutShard sh s1).2 s) /\
  (is_Some (mem_at s kShards (o_data o)) \/
   exists s1, rtc mem_step s0 s1 /\ is_Some (mem_at s1 kShards (o_data o)) /\ rtc mem_step (mem_delete kShards (o_data o) s1).2 s).

Lemma index_entry_sound_step s0 s s' k n o :
  rtc mem_step s0 s -> mem_step s s' -> index_entry_sound s0 s k n o ->
  mem_at s' kShards (o_data o) = mem_at s kShards (o_data o) \/ is_Some (mem_at s' kShards (o_data o)) \/
    s' = (mem_delete kShards (o_data o) s).2 ->
  index_entry_sound s0 s' k n o.
Proof.
  intros Hr Hstep [(sh & s1 & sh' & s2 & data & H1 & H2 & H3 & H4 & H5) Hs] Hobj. split.
  { exists sh, s1, sh', s2, data. split_and!; [done..|]. by eapply rtc_r. }
  destruct Hs as [Hs|(s3 & H6 & H7 & H8)]; [|right; exists s3; split_and!; [done..|by eapply rtc_r]].
  destruct Hobj as [->|[?| ->]]; [by left|by left|]. right. exists s. split_and!; [done..|reflexivity].
Qed.

Lemma index_sound_step s0 s s' :
  rtc mem_step s0 s -> mem_step s s' ->
  (forall k n o, k ∈ [kFiles; kSHA256; kChunks] -> mem_at s k n = Some o -> index_entry_sound s0 s k n o) ->
  forall k n o, k ∈ [kFiles; kSHA256; kChunks] -> mem_at s' k n = Some o -> index_entry_sound s0 s' k n o.
Proof.
  intros Hr Hstep IH k n o Hk Ho.
  assert (forall k0, k ∈ [kFiles; kSHA256; kChunks] -> k0 = kXorbs \/ k0 = kShards -> k <> k0) as Hne.
  { intros k0 Hk0 [->| ->] ->; by repeat (apply elem_of_cons in Hk0 as [Hk0|Hk0]; [done|]); apply elem_of_nil in Hk0. }
  inversion Hstep as [h r s1|sh s1|kind name s1|s1]; subst.
  - assert (forall k' n', k' <> kXorbs -> mem_at (mem_PutXorb h r s).2 k' n' = mem_at s k' n') as Hx.
    { intros k' n' Hk'. unfold mem_PutXorb. case_bool_decide; [done|]. destruct (validate_stream r h); [|done].
      rewrite mem_put_at, bool_decide_eq_false_2; [done|]. by intros [[= -> _] _]. }
    rewrite Hx in Ho by auto. eapply index_entry_sound_step; [done..|by apply IH|]. left. by apply Hx.
  - destruct (PutShard_indexed sh s k n o Hk Ho) as [Hold|((sh' & s1 & data & P1 & P2 & P3) & Hsh)].
    + eapply index_entry_sound_step; [done..|by apply IH|].
      destruct (mem_at s kShards (o_data o)) as [o'|] eqn:E; [right; left; apply (PutShard_keeps sh) in E; by eexists|].
      destruct (mem_at (mem_PutShard sh s).2 kShards (o_data o)); [right; left; by eexists|by left].
    + split; [|by left]. exists sh, s, sh', s1, data. split_and!; [done..|reflexivity].
  - rewrite mem_delete_at in Ho. case_bool_decide; [done|]. eapply index_entry_sound_step; [done..|by apply IH|].
    destruct (decide ((kShards, o_data o) = (kind, name))) as [[= <- <-]|Hd]; [by right; right|].
    left. rewrite mem_delete_at. by rewrite bool_decide_eq_false_2.
  - rewrite mem_at_tick in Ho. eapply index_entry_sound_step; [done..|by apply IH|]. left. apply mem_at_tick.
Qed.

(** C32 the store says what it holds.  In every state the backend reaches from
    the empty store by any sequence of uploads and deletions, whatever streams
    and shards are uploaded and whenever the context is cancelled, each stored
    xorb validates under the hash it is named by (and so decodes to the chunks
    of which that hash is the Merkle root); each shard is named by the SHA-256
    of its bytes; and each entry of the file, chunk and SHA-256 indexes names
    the encoding of a shard that was accepted earlier and has the file, chunk
    or digest of the entry's name, and which is still stored unless it was
    deleted since. *)
Theorem memory_content_addressed url env s :
  rtc mem_step (NewStorage url env) s ->
  content_addressed s /\
  forall k n o, k ∈ [kFiles; kSHA256; kChunks] -> mem_at s k n = Some o ->
    index_entry_sound (NewStorage url env) s k n o.
Proof.
  intros Hr. split; [by eapply reachable_addressed|].
  revert s Hr. apply (rtc_ind_r (fun s => forall k n o, k ∈ [kFiles; kSHA256; kChunks] -> mem_at s k n = Some o ->
    index_entry_sound (NewStorage url env) s k n o)); [by intros k n o _|].
  intros s1 s2 Hr Hstep IH. by eapply index_sound_step.
Qed.
End putget.

(** ** Witness *)

Section witness.
#[local] Instance put_b3 : Blake3 := poly_blake3.
#[local] Instance put_lz4 : Lz4 := rle_lz4.
#[local] Instance put_bufs : ChunkBufs := zero_bufs.

Lemma one_xorb_addressed : content_addressed one_xorb.
Proof.
  assert (content_addressed (NewStorage [] quiet_env)) as H0 by (by split).
  pose proof (content_addressed_PutXorb wit_root (file_reader (xorb_bytes true wit_nonce wit_root wit_chunks)) _ H0) as H.
  unfold one_xorb. by destruct (mem_PutXorb _ _ _) as [[?|?] ?].
Qed.

Lemma one_xorb_no_shards n : mem_at one_xorb kShards n = None.
Proof.
  assert (m_objects one_xorb !! kShards = None) as H by (vm_compute; reflexivity).
  unfold mem_at, mem_get. by rewrite H.
Qed.

Definition the_file : FileBlock :=
  match s_Files one_file with fb :: _ => fb | [] => MkFileBlock zeroHash 0 [] [] None end.

Lemma the_file_ok : file_ok the_file.
Proof.
  unfold file_ok. split; [split; vm_compute; congruence|]. split; [vm_compute; reflexivity|].
  split. { constructor; [|constructor]. repeat split; vm_compute; congruence. }
  split. { intros H. exfalso. apply H. reflexivity. }
  split; [reflexivity|]. split.
  { split; [intros H; exfalso; apply H; reflexivity|intros [? H]; discriminate H]. }
  intros H. apply (f_equal head) in H. vm_compute in H. discriminate H.
Qed.

Lemma one_file_cas_ok : Forall cas_ok (s_CASInfos one_file).
Proof.
  constructor; [|constructor]. unfold cas_ok. do 3 (split; [split; vm_compute; congruence|]).
  split; [vm_compute; reflexivity|]. split.
  { repeat constructor; vm_compute; congruence. }
  intros H. apply (f_equal head) in H. vm_compute in H. discriminate H.
Qed.

(** A store with a xorb and a shard: its indexes have entries. *)
Lemma memory_content_addressed_witness :
  exists o, mem_at (mem_PutShard one_file one_xorb).2 kFiles (formatHash (fb_FileHash the_file)) = Some o /\
    content_addressed (mem_PutShard one_file one_xorb).2 /\
    index_entry_sound (NewStorage [] quiet_env) (mem_PutShard one_file one_xorb).2 kFiles (formatHash (fb_FileHash the_file)) o.
Proof.
  destruct (mem_at (mem_PutShard one_file one_xorb).2 kFiles (formatHash (fb_FileHash the_file))) as [o|] eqn:Ho.
  2: { apply (f_equal (fun x => match x with Some _ => true | None => false end)) in Ho. vm_compute in Ho. discriminate Ho. }
  destruct (memory_content_addressed [] quiet_env (mem_PutShard one_file one_xorb).2) as [H1 H2].
  - apply (rtc_l _ _ one_xorb); [apply step_PutXorb|]. apply rtc_once, step_PutShard.
  - exists o. split; [reflexivity|]. split; [exact H1|]. apply H2; [left|exact Ho].
Defined.

Lemma PutShard_GetShard_witness :
  exists b s' sh1 digest css, PutShard one_file one_xorb = (Ok b, s') /\
    GetShard (fb_FileHash the_file) s' = (Ok sh1, s') /\ s_CASInfos sh1 = s_CASInfos one_file /\
    with_digest digest the_file ∈ s_Files sh1 /\ Forall2 (term_chunks s') (fb_Entries the_file) css /\
    digest = Sum256 (concat (concat css)).
Proof.
  destruct (PutShard one_file one_xorb) as [[b|e] s'] eqn:E.
  - assert (mem_at one_xorb kFiles (formatHash (fb_FileHash the_file)) = None) as HN by (vm_compute; reflexivity).
    pose proof (PutShard_GetShard one_file one_xorb b s' the_file one_xorb_addressed) as Hthm. rewrite HN in Hthm.
    destruct Hthm as (sh1 & digest & css & H1 & H2 & H3 & H4 & _ & H5).
    + intros sh' s1 _ n o Ho. rewrite one_xorb_no_shards in Ho. discriminate Ho.
    + constructor; [apply the_file_ok|constructor].
    + apply one_file_cas_ok.
    + vm_compute. reflexivity.
    + exact E.
    + left.
    + exists b, s', sh1, digest, css. split; [reflexivity|]. split; [exact H1|]. split; [exact H2|]. split; [exact H3|].
      split; [exact H4|]. apply H5. discriminate.
  - exfalso. apply (f_equal (fun p => is_ok p.1)) in E. vm_compute in E. discriminate E.
Defined.
End witness.
