(* ===== verification/PutFile.v ===== *)
(** * Storing files: [storage/putfile.go]

    [PutFile] chunks a file, looks its deduplication-eligible chunks up in the
    store, packs the chunks it did not find into xorbs that are encoded while
    they are uploaded ([xorbReader]), and commits the shard that describes the
    file.  The functions are written over the storage contract; the file is a
    seekable reader that does not fail, whose reads [frag] cuts into pieces.
    Proved: reading an [xorbReader], in pieces of any size, delivers exactly
    what the encoder writes for the listed chunks; and, over the memory backend,
    the hash of a successful [PutFile] resolves to a file block whose terms
    decode to the file's bytes. *)

From Stdlib Require Import ZArith Lia Strings.Byte Strings.String.
From S2P Require Import Prelude Hash Sha256 Gearhash Merkle ByteGrouping Compression XorbEncoder XorbDecoder.
From S2P Require Import XorbOffsets Shard ShardBuild ShardCodec Prog Storage PutShard Memory MemoryPut.

(** [l[i]]. *)
Definition index_at {A} (l : list A) (i : Z) : result A :=
  match (if i <? 0 then None else l !! Z.to_nat i) with
  | Some a => Ok a
  | None => Err (Panic "index out of range")
  end.

(** ** The streaming encoder *)

(** [xorbReader]; the buffer [x.buf] is what the encoder has written and [Read]
    has not delivered. *)
Record xorbReader : Type := MkXorbReader {
  x_r : list byte;
  x_offsets : list Z;
  x_sizes : list Z;
  x_enc : Encoder (list byte);
}.

Definition x_buf (x : xorbReader) : list byte := e_w (x_enc x).

Definition x_set_enc (enc : Encoder (list byte)) (x : xorbReader) : xorbReader :=
  MkXorbReader (x_r x) (x_offsets x) (x_sizes x) enc.

Section xorb_reader.
Context {B3 : Blake3} {L : Lz4} {P : ChunkBufs}.

(** The loop that refills the buffer; every round takes a chunk off the list. *)
Fixpoint x_fill (fuel : nat) (x : xorbReader) : option error * xorbReader :=
  match fuel with
  | O => (Some (Panic "out of fuel"), x)
  | S fuel =>
      if negb (len (x_buf x) =? 0) then (None, x)
      else
        match x_sizes x, x_offsets x with
        | [], _ => (Some EOF, x)
        | _ :: _, [] => (Some (Panic "index out of range"), x)
        | size :: sizes, offset :: offsets =>
            if maxChunkSize <? size then (Some (Panic "slice bounds out of range"), x)
            else if offset <? 0 then (Some (Wrapf "seek chunk: %w" (Errorf "negative position")), x)
            else
              match read_at (x_r x) offset size with
              | (_, Some e) => (Some (Wrapf "read chunk: %w" e), x)
              | (chunk, None) =>
                  match Encoder_Write chunk (x_enc x) with
                  | (_, Some e, enc) => (Some e, x_set_enc enc x)
                  | (_, None, enc) =>
                      let x := MkXorbReader (x_r x) offsets sizes enc in
                      if len sizes =? 0 then
                        match Encoder_Close enc with
                        | (Some e, enc) => (Some e, x_set_enc enc x)
                        | (None, enc) => x_fill fuel (x_set_enc enc x)
                        end
                      else x_fill fuel x
                  end
              end
        end
  end.

Definition x_fuel (x : xorbReader) : nat := 2 + length (x_sizes x).

(** [xorbReader.Read] into a slice of length [plen]. *)
Definition xorbReader_Read (plen : Z) (x : xorbReader) : list byte * option error * xorbReader :=
  match x_fill (x_fuel x) x with
  | (Some e, x) => ([], Some e, x)
  | (None, x) =>
      let n := Z.to_nat plen in
      (take n (x_buf x), None, x_set_enc (set_w (drop n (x_buf x)) (x_enc x)) x)
  end.

(** The bytes it delivers until it ends, and how it ends. *)
Fixpoint x_stream (fuel : nat) (x : xorbReader) : reader :=
  match fuel with
  | O => Reader [] (Panic "out of fuel")
  | S fuel =>
      match x_fill (x_fuel x) x with
      | (Some e, _) => Reader [] e
      | (None, x) =>
          let r := x_stream fuel (x_set_enc (set_w [] (x_enc x)) x) in
          Reader (x_buf x ++ rdata r) (rend r)
      end
  end.

Definition xorb_stream (x : xorbReader) : reader := x_stream (x_fuel x) x.
End xorb_reader.

(** ** [PutFile] *)

(** What the callback of [ChunkData] builds up. *)
Record fstate : Type := FState {
  f_chunks : list ChunkInfo;
  f_offsets : list Z;
  f_chunkHashes : list ChunkHash;
  f_chunkSizes : list Z;
  f_indices : list Z;
  f_unique : gmap ChunkHash Z;
}.

Section putfile.
Context {B3 : Blake3} {L : Lz4} {P : ChunkBufs} {S : Type} {ST : Storage S}.

Definition scan_file (base : Z) (st : fstate) (offset : Z) (chunk : list byte) : result fstate :=
  let h := ComputeChunkHash chunk in
  let chunkHashes := f_chunkHashes st ++ [h] in
  let chunkSizes := f_chunkSizes st ++ [len chunk] in
  match f_unique st !! h with
  | Some i => Ok (FState (f_chunks st) (f_offsets st) chunkHashes chunkSizes (f_indices st ++ [i]) (f_unique st))
  | None =>
      let i := len (f_chunks st) in
      Ok (FState (f_chunks st ++ [MkChunkInfo h (u32 (len chunk)) false zeroHash 0])
            (f_offsets st ++ [i64 (base + offset)]) chunkHashes chunkSizes (f_indices st ++ [i])
            (<[h := i]> (f_unique st)))
  end.

(** The lookups: a failed one is skipped, and the first location of a hash
    stays. *)
Fixpoint locate (cs : list (Z * ChunkInfo)) (located : gmap ChunkHash ChunkLocation) :
    prog S (gmap ChunkHash ChunkLocation) :=
  match cs with
  | [] => mret located
  | (i, c) :: cs =>
      if bool_decide (is_Some (located !! ci_Hash c)) || negb (IsChunkGlobalDedupEligible (ci_Hash c) (i =? 0) 0)
      then locate cs located
      else catch (GetShardByChunkHash (ci_Hash c))
             (fun sh => locate cs (located ∪ ChunkLocations sh))
             (fun _ => locate cs located)
  end.

(** The chunks that were found get their location, the others are to be
    stored: [chunks], [fresh] and [freshSizes]. *)
Definition place (located : gmap ChunkHash ChunkLocation) (st : list ChunkInfo * list Z * list Z)
    (ic : Z * ChunkInfo) : list ChunkInfo * list Z * list Z :=
  let '(chunks, fresh, freshSizes) := st in
  let '(i, c) := ic in
  match located !! ci_Hash c with
  | Some loc =>
      (chunks ++ [MkChunkInfo (ci_Hash c) (ci_Size c) (ci_IsNew c) (cl_XorbHash loc) (cl_ChunkIndex loc)],
       fresh, freshSizes)
  | None => (chunks ++ [c], fresh ++ [i], freshSizes ++ [ci_Size c])
  end.

(** The hashes, the sizes and the offsets of one group. *)
Definition group_lists (chunks : list ChunkInfo) (offsets fresh group : list Z) :
    result (list ChunkHash * list Z * list Z) :=
  foldM (fun '(hashes, sizes, offs) k =>
    i ← index_at fresh k;
    c ← index_at chunks i;
    off ← index_at offsets i;
    Ok (hashes ++ [ci_Hash c], sizes ++ [ci_Size c], offs ++ [off])) ([], [], []) group.

(** The chunks of a stored group get their place in its xorb. *)
Definition mark_group (fresh group : list Z) (xorbHash : XorbHash) (chunks : list ChunkInfo) :
    result (list ChunkInfo) :=
  foldM (fun chunks jk =>
    i ← index_at fresh jk.2;
    c ← index_at chunks i;
    Ok (<[Z.to_nat i := MkChunkInfo (ci_Hash c) (ci_Size c) true xorbHash (u32 jk.1)]> chunks))
    chunks (indexed group).

Fixpoint store_groups (data : list byte) (offsets fresh : list Z) (groups : list (list Z))
    (chunks : list ChunkInfo) : prog S (list ChunkInfo) :=
  match groups with
  | [] => mret chunks
  | group :: groups =>
      '(hashes, sizes, offs) ← lift (group_lists chunks offsets fresh group);
      let x := MkXorbReader data offs sizes (NewEncoder [] true) in
      xorbHash ← lift (ComputeXorbHash hashes sizes);
      _ ← prog_wrap "store xorb %s: %w" (PutXorb xorbHash (xorb_stream x));
      chunks ← lift (mark_group fresh group xorbHash chunks);
      store_groups data offsets fresh groups chunks
  end.

(** [PutFile] up to the shard: the file hash and the shard to commit, if the
    file is not empty. *)
Definition put_chunks (frag : list byte -> list (list byte)) (data : list byte) (base : Z) :
    prog S (FileHash * option Shard) :=
  st ← lift (wrap_err "chunk file: %w"
    (ChunkData (scan_file base) (frag (drop (Z.to_nat base) data)) EOF (FState [] [] [] [] [] ∅)));
  h ← lift (ComputeFileHash (f_chunkHashes st) (f_chunkSizes st));
  located ← locate (indexed (f_chunks st)) ∅;
  let '(chunks, fresh, freshSizes) := foldl (place located) ([], [], []) (indexed (f_chunks st)) in
  chunks ← store_groups data (f_offsets st) fresh (GroupChunkIndicesBySize freshSizes MaxXorbSize) chunks;
  if 0 <? len chunks then
    sh ← lift (BuildShard [MkFileInfo h zeroHash (f_indices st)] chunks);
    mret (h, Some sh)
  else mret (h, None).

(** [PutFile] on the file [data], read from position [base]. *)
Definition PutFile (frag : list byte -> list (list byte)) (data : list byte) (base : Z) : prog S FileHash :=
  '(h, sh) ← put_chunks frag data base;
  match sh with
  | Some sh => _ ← prog_wrap "store shard: %w" (PutShard sh); mret h
  | None => mret h
  end.
End putfile.

(** ** The streaming encoder delivers the xorb *)

(** The chunks [ds] lie in [data] where [offsets] and [sizes] say. *)
Inductive chunks_at (data : list byte) : list Z -> list Z -> list (list byte) -> Prop :=
| chunks_at_nil : chunks_at data [] [] []
| chunks_at_cons off offs size sizes d ds :
    0 <= off -> size <= maxChunkSize -> read_at data off size = (d, None) ->
    chunks_at data offs sizes ds -> chunks_at data (off :: offs) (size :: sizes) (d :: ds).

(** Reads with the given buffer lengths until one fails. *)
Fixpoint x_run `{B3 : Blake3} `{L : Lz4} `{P : ChunkBufs} (plens : list Z) (x : xorbReader) : list byte * option error :=
  match plens with
  | [] => ([], None)
  | plen :: plens =>
      match xorbReader_Read plen x with
      | (got, Some e, _) => (got, Some e)
      | (got, None, x) => let '(rest, e) := x_run plens x in (got ++ rest, e)
      end
  end.

Section stream.
Context {B3 : Blake3} {L : Lz4} {LL : Lz4Laws L} {P : ChunkBufs}.

(** The encoder appends to whatever the buffer holds. *)
Lemma Write_set_w chunk w (e : Encoder (list byte)) :
  Encoder_Write chunk (set_w w e) =
    let '(n, err, e') := Encoder_Write chunk (set_w [] e) in (n, err, set_w (w ++ e_w e') e').
Proof.
  unfold Encoder_Write, enc_fail. cbn [set_w e_err e_finalized e_chunkHashes e_unpackedPos].
  destruct (e_err e); [cbn; by rewrite app_nil_r|].
  repeat match goal with |- context [if ?b then _ else _] => destruct b; [cbn; by rewrite app_nil_r|] end.
  destruct (selectBestCompression chunk) as [c ty].
  match goal with |- context [if ?b then _ else _] => destruct b; [cbn; by rewrite app_nil_r|] end.
  done.
Qed.

Lemma Close_set_w w (e : Encoder (list byte)) :
  Encoder_Close (set_w w e) = let '(err, e') := Encoder_Close (set_w [] e) in (err, set_w (w ++ e_w e') e').
Proof.
  unfold Encoder_Close, writeFooter, Encoder_SummoryHash.
  cbn [set_w set_finalized e_err e_finalized e_withFooter e_xorbHash e_chunkHashes e_chunkSizes].
  destruct (e_err e); [cbn; by rewrite app_nil_r|]. destruct (e_finalized e); [cbn; by rewrite app_nil_r|].
  destruct (e_withFooter e); [|cbn; by rewrite app_nil_r].
  destruct (e_xorbHash e); [done|]. destruct (ComputeXorbHash _ _); [done|]. cbn. by rewrite app_nil_r.
Qed.

Section xorb.
Context (data : list byte) (h : XorbHash) (all : list (list byte)).
Hypothesis all_limits : within_limits all.
Hypothesis all_hash : ComputeXorbHash (map ComputeChunkHash all) (map len all) = Ok h.

Definition nonce0 : vec byte 4 := to_arr 4 [].

Definition x_footer : list byte :=
  XorbEncoder.footer_bytes h (map ComputeChunkHash all) (ends 0 (map (fun d => len (frame d)) all)) (ends 0 (map len all)) nonce0.

(** A reader that has encoded [done] and still holds [todo] delivers [rem]. *)
Inductive delivers : xorbReader -> list byte -> Prop :=
| delivers_more done todo offs sizes w :
    all = done ++ todo -> todo <> [] -> chunks_at data offs sizes todo ->
    delivers (MkXorbReader data offs sizes (set_w w (enc_after [] true nonce0 done)))
      (w ++ concat (map frame todo) ++ x_footer)
| delivers_end enc offs : delivers (MkXorbReader data offs [] enc) (e_w enc).

Lemma delivers_buf x rem w : delivers x rem -> x_buf x = w ->
  exists rest, rem = w ++ rest /\ forall w', delivers (x_set_enc (set_w w' (x_enc x)) x) (w' ++ rest).
Proof.
  intros [done todo offs sizes w0 H1 H2 H3|enc offs]; intros <-.
  - exists (concat (map frame todo) ++ x_footer). split; [by destruct (enc_after [] true nonce0 done)|].
    intros w'. cbn. by apply (delivers_more done todo offs sizes w').
  - exists []. rewrite app_nil_r. split; [done|]. intros w'. rewrite app_nil_r. cbn.
    apply (delivers_end (set_w w' enc) offs).
Qed.

(** One chunk more. *)
Lemma Write_chunk done d w :
  within_limits (done ++ [d]) ->
  Encoder_Write d (set_w w (enc_after [] true nonce0 done)) =
    (len d, None, set_w (w ++ frame d) (enc_after [] true nonce0 (done ++ [d]))).
Proof.
  intros Hl. pose proof (Encoder_Write_spec [] true nonce0 done d (within_limits_app _ _ Hl)) as Hw.
  rewrite bool_decide_eq_true_2 in Hw by done.
  pose proof (Write_set_w d (concat (map frame done)) (enc_after [] true nonce0 done)) as Hc.
  change (set_w (concat (map frame done)) (enc_after [] true nonce0 done)) with (enc_after [] true nonce0 done) in Hc.
  rewrite Hw in Hc. rewrite Write_set_w.
  destruct (Encoder_Write d (set_w [] (enc_after [] true nonce0 done))) as [[n err] e'].
  assert (enc_after [] true nonce0 (done ++ [d]) = set_w (concat (map frame done) ++ e_w e') e' /\ n = len d /\ err = None)
    as (He & -> & ->) by (split_and!; congruence). f_equal. clear Hc.
  assert (e_w e' = frame d) as ->.
  { apply (f_equal e_w) in He. cbn in He. rewrite map_app, concat_app in He. cbn in He. rewrite app_nil_r in He.
    by apply app_inv_head in He. }
  rewrite He. by destruct e'.
Qed.

(** Closing after the last chunk. *)
Lemma Close_all w : exists enc,
  Encoder_Close (set_w w (enc_after [] true nonce0 all)) = (None, enc) /\ e_w enc = w ++ x_footer.
Proof.
  unfold Encoder_Close, writeFooter, Encoder_SummoryHash.
  cbn [set_w set_finalized enc_after e_err e_finalized e_withFooter e_xorbHash e_chunkHashes e_chunkSizes].
  rewrite all_hash. eexists. split; [reflexivity|]. done.
Qed.

(** Refilling: the end is reported when nothing is left, and otherwise the
    buffer is not empty afterwards. *)
Lemma fill_delivers x rem fuel :
  delivers x rem -> (length (x_sizes x) < fuel)%nat -> (x_buf x <> [] \/ (1 < fuel)%nat) ->
  (rem = [] /\ x_fill fuel x = (Some EOF, x)) \/
  (rem <> [] /\ exists x', x_fill fuel x = (None, x') /\ delivers x' rem /\ x_buf x' <> [] /\
     (length (x_sizes x') <= length (x_sizes x))%nat /\
     (x_buf x = [] -> length (x_sizes x') < length (x_sizes x))%nat).
Proof.
  intros Hd Hf Hf1. destruct fuel as [|fuel]; [lia|]. cbn [x_fill].
  destruct (decide (x_buf x = [])) as [Hb|Hb].
  2: { rewrite (proj2 (Z.eqb_neq _ _)) by (intros H0; by apply len_0_nil in H0). cbn [negb]. right.
       destruct (delivers_buf x rem _ Hd eq_refl) as (rest & -> & _).
       split; [by destruct (x_buf x)|]. exists x. split_and!; done. }
  rewrite Hb. change (len []) with 0. cbn [Z.eqb negb].
  destruct Hd as [done todo offs sizes w Hall Hne Hat|enc offs].
  2: { left. split; [done|]. by destruct offs. }
  destruct Hat as [|off offs size sizes d todo Ho Hs Hr Hat]; [done|].
  unfold x_buf in Hb. cbn in Hb. subst w. cbn [x_sizes x_offsets x_r x_enc].
  rewrite (proj2 (Z.ltb_ge _ _)), (proj2 (Z.ltb_ge _ _)) by lia. rewrite Hr.
  assert (within_limits (done ++ [d])) as Hlim.
  { eapply (within_limits_app _ todo). rewrite <- app_assoc. cbn. by rewrite <- Hall. }
  rewrite Write_chunk by done. cbn [app]. destruct fuel as [|fuel]; [cbn in *; lia|]. right.
  assert (len d <= MaxChunkSize) as Hd
    by (destruct Hlim as [Hl _]; rewrite Forall_app, Forall_singleton in Hl; apply Hl).
  pose proof (len_frame d Hd) as H8.
  assert (frame d <> []) as Hfr by (intros E; rewrite E in H8; change (len []) with 0 in H8; lia).
  split; [cbn; by destruct (frame d)|].
  destruct (decide (todo = [])) as [->|Hne'].
  - inversion Hat; subst offs sizes. change (len []) with 0. cbn [Z.eqb].
    destruct (Close_all (frame d)) as (enc & Hc & Hw). rewrite <- Hall, Hc. cbn [x_fill].
    assert (len (e_w enc) <> 0) as Hl by (rewrite Hw, len_app; pose proof (len_nonneg x_footer); lia).
    change (x_buf (x_set_enc enc _)) with (e_w enc). rewrite (proj2 (Z.eqb_neq _ _)) by done. cbn [negb].
    eexists. split; [reflexivity|]. split_and!.
    + assert (concat (map frame [d]) ++ x_footer = e_w enc) as -> by (rewrite Hw; cbn; by rewrite app_nil_r).
      apply (delivers_end enc []).
    + unfold x_buf. cbn. intros E. by rewrite E in Hl.
    + cbn. lia.
    + cbn. lia.
  - assert (len sizes <> 0) as Hs0 by (intros ->%len_0_nil; by inversion Hat).
    rewrite (proj2 (Z.eqb_neq _ _)) by done. cbn [x_fill].
    unfold x_buf at 1. cbn [x_enc set_w e_w]. rewrite (proj2 (Z.eqb_neq _ _)) by lia. cbn [negb].
    eexists. split; [reflexivity|]. split_and!; [|done|cbn; lia|cbn; lia].
    cbn [map concat app]. rewrite <- app_assoc. apply (delivers_more (done ++ [d]) todo); [|done|done].
    rewrite <- app_assoc. done.
Qed.

(** One [Read]: some bytes of what is left, or the end. *)
Lemma xorbReader_delivers plen x rem :
  delivers x rem -> 0 < plen ->
  (rem = [] /\ exists x', xorbReader_Read plen x = ([], Some EOF, x')) \/
  (exists x' got rest, xorbReader_Read plen x = (got, None, x') /\ rem = got ++ rest /\ got <> [] /\ delivers x' rest).
Proof.
  intros Hd Hp. unfold xorbReader_Read.
  destruct (fill_delivers x rem (x_fuel x) Hd) as [[-> ->]|(Hne & x' & -> & Hd' & Hb & _)]; [unfold x_fuel; lia..| |].
  - left. split; [done|]. by eexists.
  - right. destruct (delivers_buf x' rem _ Hd' eq_refl) as (rest & -> & Hset).
    eexists _, (take (Z.to_nat plen) (x_buf x')), (drop (Z.to_nat plen) (x_buf x') ++ rest).
    split; [reflexivity|]. split; [by rewrite app_assoc, take_drop|]. split; [|apply Hset].
    destruct (x_buf x'); [done|]. by destruct (Z.to_nat plen) eqn:E; [lia|].
Qed.

Lemma run_delivers plens x rem :
  delivers x rem -> Forall (fun plen => 0 < plen) plens ->
  ((x_run plens x).2 = None /\ exists rest, rem = (x_run plens x).1 ++ rest /\ (length plens <= length (x_run plens x).1)%nat) \/
  ((x_run plens x).2 = Some EOF /\ (x_run plens x).1 = rem).
Proof.
  intros Hd Hp. revert x rem Hd. induction Hp as [|plen plens Hpl _ IH]; intros x rem Hd; cbn [x_run].
  { left. split; [done|]. by exists rem. }
  destruct (xorbReader_delivers plen x rem Hd Hpl) as [(-> & x' & ->)|(x' & got & rest & -> & -> & Hne & Hd')]; [by right|].
  specialize (IH x' rest Hd'). destruct (x_run plens x') as [bytes err]. cbn [fst snd] in *.
  destruct IH as [(-> & rest' & -> & Hl)|(-> & ->)]; [left|by right]. split; [done|].
  exists rest'. rewrite app_assoc. split; [done|]. rewrite length_app. destruct got; [done|]. cbn [length]. lia.
Qed.

Lemma stream_delivers fuel x rem :
  delivers x rem -> (length (x_sizes x) + (if bool_decide (x_buf x = []) then 0 else 1) < fuel)%nat ->
  x_stream fuel x = file_reader rem.
Proof.
  revert x rem. induction fuel as [|fuel IH]; intros x rem Hd Hf; [lia|]. cbn [x_stream].
  destruct (fill_delivers x rem (x_fuel x) Hd) as [[-> ->]|(Hne & x' & -> & Hd' & Hb & Hl1 & Hl2)];
    [unfold x_fuel; lia..|done|].
  destruct (delivers_buf x' rem _ Hd' eq_refl) as (rest & -> & Hset). specialize (Hset []).
  rewrite (IH _ _ Hset); [done|]. cbn.
  case_bool_decide as Hb0; [apply Hl2 in Hb0|]; lia.
Qed.
End xorb.

Lemma delivers_start data h ds offs sizes :
  ds <> [] -> chunks_at data offs sizes ds ->
  delivers data h ds (MkXorbReader data offs sizes (NewEncoder [] true)) (xorb_bytes true nonce0 h ds).
Proof.
  intros Hne Hat. rewrite <- enc_after_nil. unfold xorb_bytes. apply (delivers_more data h ds [] ds offs sizes []); done.
Qed.

Lemma xorb_stream_eq data h ds offs sizes :
  within_limits ds -> ComputeXorbHash (map ComputeChunkHash ds) (map len ds) = Ok h ->
  ds <> [] -> chunks_at data offs sizes ds ->
  xorb_stream (MkXorbReader data offs sizes (NewEncoder [] true)) = file_reader (xorb_bytes true nonce0 h ds).
Proof.
  intros H1 H2 H3 H4. apply (stream_delivers data h ds H1 H2); [by apply delivers_start|]. cbn. lia.
Qed.

(** The upload stream is the encoded xorb.  Reading an [xorbReader] over
    chunks within the xorb limits, with buffers of any positive sizes, never
    fails and delivers a prefix of exactly the bytes the encoder writes for
    these chunks, footer included; the end is reported after the last byte and
    not before, and every [Read] that does not report it makes progress. *)
Theorem xorbReader_refines data h ds offs sizes plens :
  within_limits ds -> ComputeXorbHash (map ComputeChunkHash ds) (map len ds) = Ok h ->
  ds <> [] -> chunks_at data offs sizes ds -> Forall (fun plen => 0 < plen) plens ->
  let '(bytes, err) := x_run plens (MkXorbReader data offs sizes (NewEncoder [] true)) in
  exists e, encode (NewEncoder [] true) ds = Ok e /\
    ((err = None /\ (exists rest, e_w e = bytes ++ rest) /\ (length plens <= length bytes)%nat) \/
     (err = Some EOF /\ bytes = e_w e)).
Proof.
  intros H1 H2 H3 H4 H5.
  pose proof (run_delivers data h ds H1 H2 plens _ _ (delivers_start data h ds offs sizes H3 H4) H5) as Hr.
  destruct (encode_spec [] true nonce0 ds h H1 H2) as (e & He & _ & _ & Hw & _). rewrite enc_after_nil in He.
  change (([] : list byte) ++ _) with (xorb_bytes true nonce0 h ds) in Hw.
  destruct (x_run plens _) as [bytes err]. cbn [fst snd] in Hr. exists e. split; [done|]. rewrite Hw.
  destruct Hr as [(-> & rest & -> & Hl)|(-> & ->)]; [left|by right]. split; [done|]. split; [|done]. by exists rest.
Qed.
End stream.

(** ** Witness *)

(** Two chunks of a small file, read in pieces of five bytes. *)
Lemma xorbReader_refines_witness :
  exists e, encode (B3 := poly_blake3) (L := rle_lz4) (P := zero_bufs) (NewEncoder [] true) [str "hello"; str "world"] = Ok e /\
    ((x_run (B3 := poly_blake3) (L := rle_lz4) (P := zero_bufs) (replicate 60 5)
       (MkXorbReader (str "hello, world") [0; 7] [5; 5] (NewEncoder [] true))).1 = e_w e \/
     exists rest, e_w e = (x_run (B3 := poly_blake3) (L := rle_lz4) (P := zero_bufs) (replicate 60 5)
       (MkXorbReader (str "hello, world") [0; 7] [5; 5] (NewEncoder [] true))).1 ++ rest).
Proof.
  pose proof (xorbReader_refines (B3 := poly_blake3) (L := rle_lz4) (LL := rle_lz4_laws) (P := zero_bufs) (str "hello, world")
    match ComputeXorbHash (B3 := poly_blake3) (map (ComputeChunkHash (B3 := poly_blake3)) [str "hello"; str "world"])
      (map len [str "hello"; str "world"]) with Ok h => h | Err _ => zeroHash end
    [str "hello"; str "world"] [0; 7] [5; 5] (replicate 60 5)) as H.
  destruct (x_run _ _) as [bytes err]. cbn [fst].
  destruct H as (e & He & Hor).
  - split; [repeat constructor; vm_compute; congruence|]. split; vm_compute; congruence.
  - vm_compute. reflexivity.
  - discriminate.
  - repeat (constructor; [vm_compute; congruence|vm_compute; congruence|vm_compute; reflexivity|]). constructor.
  - repeat constructor; lia.
  - exists e. split; [exact He|]. destruct Hor as [(_ & Hr & _)|(_ & ->)]; [right; exact Hr|left; reflexivity].
Defined.
