(* ===== verification/Upload.v ===== *)
(** * Uploading files: [upload/upload.go]

    [UploadFiles] chunks the files, asks the CAS which chunks it has, packs the
    others into xorbs, encodes these into staging files and uploads them from
    several goroutines ([uploadXorbs]), and uploads the shard that describes the
    files.  Everything but [uploadXorbs] is a program over the remote's state;
    [uploadXorbs] is a step relation over its goroutines, queues, staging files
    and maps: [turn] is one atomic step of one goroutine, with the outcome of
    the system call or the request in it, and [ustep] adds what happens outside:
    cancellation and other clients of the remote.  A staging file is its
    number; a [Chunk.Reader] is the file's position in the arguments. *)

From Stdlib Require Import ZArith Lia Strings.Byte Strings.String.
From S2P Require Import Prelude Hash Sha256 Gearhash Merkle ByteGrouping Compression XorbEncoder XorbDecoder.
From S2P Require Import XorbOffsets Shard ShardBuild ShardCodec Prog Storage PutShard Memory MemoryPut PutFile.

(** ** Data *)

(** An [io.ReadSeeker]: its bytes, its position, the failure of the first
    [Seek], the pieces in which the bytes from the position on are read and
    how reading ends. *)
Record source : Type := MkSource {
  so_data : list byte;
  so_pos : Z;
  so_seek : option error;
  so_pieces : list (list byte);
  so_end : error;
}.

(** [Chunk] and [chunkInfo]. *)
Record Chunk : Type := MkChunk { ck_Reader : nat; ck_Offset : Z; ck_Size : Z }.
Record chunkInfo : Type := MkUploadChunk { ui_Hash : ChunkHash; ui_Chunk : Chunk }.

(** [xorbGroup]. *)
Record xorbGroup : Type := MkXorbGroup {
  xg_Chunks : list Chunk;
  xg_ChunkHashes : list ChunkHash;
  xg_StartIndex : Z;
}.

(** [preparedXorb]. *)
Record preparedXorb : Type := MkPrepared {
  pp_hash : XorbHash;
  pp_path : nat;
  pp_size : Z;
  pp_chunkHashes : list ChunkHash;
}.

(** [ClientAdapter], over the state of the remote. *)
Class ClientAdapter (S : Type) : Type := {
  ca_HasXorb : XorbHash -> prog S bool;
  ca_UploadXorb : XorbHash -> list byte -> prog S bool;
  ca_UploadShard : Shard -> prog S Z;
  ca_QueryDedupShards : list ChunkHash -> list ChunkHash -> prog S (gmap ChunkHash ChunkLocation);
}.

(** ** Chunking *)

(** What the callback of [ChunkData] builds up, over all files and for the one
    at hand. *)
Record ustates : Type := MkScan {
  us_allChunks : list chunkInfo;
  us_chunkIndex : gmap ChunkHash Z;
  us_chunkHashes : list ChunkHash;
  us_chunkSizes : list Z;
  us_ChunkIndices : list Z;
}.

Section scan.
Context {B3 : Blake3}.

Definition scan_upload (reader : nat) (base : Z) (st : ustates) (offset : Z) (chunk : list byte) : result ustates :=
  let chunkHash := ComputeChunkHash chunk in
  let chunkHashes := us_chunkHashes st ++ [chunkHash] in
  let chunkSizes := us_chunkSizes st ++ [len chunk] in
  match us_chunkIndex st !! chunkHash with
  | Some idx => Ok (MkScan (us_allChunks st) (us_chunkIndex st) chunkHashes chunkSizes (us_ChunkIndices st ++ [idx]))
  | None =>
      let idx := len (us_allChunks st) in
      Ok (MkScan (us_allChunks st ++ [MkUploadChunk chunkHash (MkChunk reader (i64 (base + offset)) (u32 (len chunk)))])
            (<[chunkHash := idx]> (us_chunkIndex st)) chunkHashes chunkSizes (us_ChunkIndices st ++ [idx]))
  end.

(** One file: its [FileInfo] and its chunk hashes. *)
Definition chunk_file (enableSHA256 : bool) (reader : nat) (src : source) (st : ustates) :
    result (FileInfo * list ChunkHash * ustates) :=
  match so_seek src with
  | Some e => Err (Wrapf "get start offset for file %d: %w" e)
  | None =>
      st ← wrap_err "chunk data for file %d: %w"
        (ChunkData (scan_upload reader (so_pos src)) (so_pieces src) (so_end src)
           (MkScan (us_allChunks st) (us_chunkIndex st) [] [] []));
      h ← ComputeFileHash (us_chunkHashes st) (us_chunkSizes st);
      let digest := if enableSHA256 && negb (len (us_ChunkIndices st) =? 0) then Sum256 (concat (so_pieces src)) else zeroHash in
      Ok (MkFileInfo h digest (us_ChunkIndices st), us_chunkHashes st, st)
  end.

Fixpoint chunk_files (enableSHA256 : bool) (reader : nat) (srcs : list source) (st : ustates) :
    result (list FileInfo * list (list ChunkHash) * ustates) :=
  match srcs with
  | [] => Ok ([], [], st)
  | src :: srcs =>
      '(fi, hashes, st) ← chunk_file enableSHA256 reader src st;
      '(fis, hashess, st) ← chunk_files enableSHA256 (S reader) srcs st;
      Ok (fi :: fis, hashes :: hashess, st)
  end.
End scan.

(** ** Which chunks to ask for *)

Definition minSpacingBetweenGlobalDedupQueries : Z := 256.

Definition probe_step (st : list ChunkHash * Z) (ih : Z * ChunkHash) : list ChunkHash * Z :=
  let '(probes, lastProbeIndex) := st in
  let '(i, chunkHash) := ih in
  if i =? 0 then (probes ++ [chunkHash], i)
  else if i - lastProbeIndex <? minSpacingBetweenGlobalDedupQueries then st
  else if IsChunkGlobalDedupEligible chunkHash false 0 then (probes ++ [chunkHash], i)
  else st.

Definition selectChunkHashesForGlobalDedup (chunkHashes : list ChunkHash) : list ChunkHash :=
  (foldl probe_step ([], - minSpacingBetweenGlobalDedupQueries) (indexed chunkHashes)).1.

Definition add_probe (st : list ChunkHash * gset ChunkHash) (chunkHash : ChunkHash) : list ChunkHash * gset ChunkHash :=
  let '(probes, seen) := st in
  if bool_decide (chunkHash ∈ seen) then st else (probes ++ [chunkHash], {[chunkHash]} ∪ seen).

Definition selectChunkHashesForGlobalDedupAcrossFiles (fileChunkHashes : list (list ChunkHash)) : list ChunkHash :=
  (foldl (fun st chunkHashes => foldl add_probe st (selectChunkHashesForGlobalDedup chunkHashes)) ([], ∅) fileChunkHashes).1.

(** ** Groups *)

(** The chunks that were not located, and the groups of them. *)
Definition new_chunks (located : gmap ChunkHash ChunkLocation) (allChunks : list chunkInfo) : list chunkInfo :=
  filter (fun c => located !! ui_Hash c = None) allChunks.

Definition make_group (newChunks : list chunkInfo) (indices : list Z) : result xorbGroup :=
  cs ← foldM (fun cs idx => c ← index_at newChunks idx; Ok (cs ++ [c])) [] indices;
  Ok (MkXorbGroup (map ui_Chunk cs) (map ui_Hash cs) (default 0 (head indices))).

Definition make_groups (newChunks : list chunkInfo) : result (list xorbGroup) :=
  foldM (fun groups indices =>
    if len indices =? 0 then Ok groups else group ← make_group newChunks indices; Ok (groups ++ [group]))
    [] (GroupChunkIndicesBySize (map (fun c => ck_Size (ui_Chunk c)) newChunks) MaxXorbSize).

(** The location of a chunk, and whether the upload put it there. *)
Definition chunk_location (uploaded located : gmap ChunkHash ChunkLocation) (c : chunkInfo) : ChunkInfo :=
  let '(loc, isNew) :=
    match uploaded !! ui_Hash c with
    | Some loc => (loc, true)
    | None => (default (MkChunkLocation zeroHash 0) (located !! ui_Hash c), false)
    end in
  MkChunkInfo (ui_Hash c) (ck_Size (ui_Chunk c)) isNew (cl_XorbHash loc) (cl_ChunkIndex loc).

(** ** Around the xorbs *)

(** What [UploadFiles] knows when it starts on the xorbs. *)
Record plan : Type := MkPlan {
  pl_fileInfos : list FileInfo;
  pl_allChunks : list chunkInfo;
  pl_located : gmap ChunkHash ChunkLocation;
  pl_groups : list xorbGroup;
}.

Section files.
Context {B3 : Blake3} {L : Lz4} {P : ChunkBufs} {S : Type} {C : ClientAdapter S}.

Definition queryShards (located : gmap ChunkHash ChunkLocation) (probes candidates : list ChunkHash) :
    prog S (gmap ChunkHash ChunkLocation) :=
  m ← prog_wrap "query dedup shards: %w" (ca_QueryDedupShards probes candidates); mret (m ∪ located).

Definition deduplicateChunks (chunkHashes probes : list ChunkHash) : prog S (gmap ChunkHash ChunkLocation) :=
  if len chunkHashes =? 0 then mret ∅
  else if len probes =? 0 then throw (Errorf "no eligible chunk hashes for global deduplication")
  else prog_wrap "query shards: %w" (queryShards ∅ probes chunkHashes).

(** Steps 1 to 3. *)
Definition plan_upload (enableSHA256 : bool) (srcs : list source) : prog S plan :=
  '(fileInfos, fileChunkHashes, st) ← lift (chunk_files enableSHA256 0 srcs (MkScan [] ∅ [] [] []));
  let allChunks := us_allChunks st in
  located ← prog_wrap "deduplicate chunks: %w"
    (deduplicateChunks (map ui_Hash allChunks) (selectChunkHashesForGlobalDedupAcrossFiles fileChunkHashes));
  groups ← lift (make_groups (new_chunks located allChunks));
  mret (MkPlan fileInfos allChunks located groups).

(** Step 5. *)
Definition finish_upload (p : plan) (uploaded : gmap ChunkHash ChunkLocation) : prog S (list FileHash) :=
  sh ← lift (BuildShard (pl_fileInfos p) (map (chunk_location uploaded (pl_located p)) (pl_allChunks p)));
  _ ← prog_wrap "upload shard: %w" (ca_UploadShard sh);
  mret (map fi_Hash (pl_fileInfos p)).
End files.

(** ** The goroutines of [uploadXorbs] *)

(** What a system call or a request does: it is carried out and answered, it
    fails, or its answer is lost after it was carried out. *)
Inductive fault : Type := Fine | Fails (e : error) | Lost (e : error).

(** Where a goroutine is: about to receive from the queue; with a group, before
    the look at the context, the creation of the staging file, the encoding,
    [Stat], [Close] and [HasXorb]; with a prepared xorb, before the look at the
    context, [Open] and [UploadXorb]; about to record locations; returned. *)
Inductive worker : Type :=
  | WTake
  | WGroup (g : xorbGroup)
  | WCreate (g : xorbGroup)
  | WEncode (g : xorbGroup) (path : nat)
  | WStat (g : xorbGroup) (path : nat) (h : XorbHash)
  | WClose (g : xorbGroup) (path : nat) (h : XorbHash) (size : Z)
  | WHas (g : xorbGroup) (path : nat) (h : XorbHash) (size : Z)
  | WItem (x : preparedXorb)
  | WOpen (x : preparedXorb)
  | WUpload (x : preparedXorb) (data : list byte)
  | WRecord (h : XorbHash) (chunkHashes : list ChunkHash) (done : option Z)
  | WDone.

(** What the caller of the goroutines does: wait for the first ones, for the
    second ones, or it has returned. *)
Inductive uphase : Type := Preparing | Uploading | Returned (err : option error).

Section xorbs.
Context {B3 : Blake3} {L : Lz4} {P : ChunkBufs} {S : Type} {C : ClientAdapter S}.

(** The files that are uploaded, and whether [os.Remove] works on a staging
    file. *)
Context (srcs : list source) (removable : nat -> bool).

(** The variables of [uploadXorbs], the staging directory and the remote. *)
Record ustate : Type := MkUState {
  u_phase : uphase;
  u_cancelled : bool;
  u_firstErr : option error;
  u_prepareQueue : list xorbGroup;
  u_uploadQueue : list preparedXorb;
  u_workers : list worker;
  u_prepared : list preparedXorb;
  u_staged : list nat;
  u_files : gmap nat (list byte);
  u_next : nat;
  u_uploaded : gmap ChunkHash ChunkLocation;
  u_progress : list (gostring * Z * Z);
  u_remote : S;
}.

Definition set_u_phase (x : uphase) (u : ustate) : ustate :=
  MkUState x (u_cancelled u) (u_firstErr u) (u_prepareQueue u) (u_uploadQueue u) (u_workers u) (u_prepared u) (u_staged u) (u_files u) (u_next u) (u_uploaded u) (u_progress u) (u_remote u).
Definition set_u_cancelled (x : bool) (u : ustate) : ustate :=
  MkUState (u_phase u) x (u_firstErr u) (u_prepareQueue u) (u_uploadQueue u) (u_workers u) (u_prepared u) (u_staged u) (u_files u) (u_next u) (u_uploaded u) (u_progress u) (u_remote u).
Definition set_u_firstErr (x : option error) (u : ustate) : ustate :=
  MkUState (u_phase u) (u_cancelled u) x (u_prepareQueue u) (u_uploadQueue u) (u_workers u) (u_prepared u) (u_staged u) (u_files u) (u_next u) (u_uploaded u) (u_progress u) (u_remote u).
Definition set_u_prepareQueue (x : list xorbGroup) (u : ustate) : ustate :=
  MkUState (u_phase u) (u_cancelled u) (u_firstErr u) x (u_uploadQueue u) (u_workers u) (u_prepared u) (u_staged u) (u_files u) (u_next u) (u_uploaded u) (u_progress u) (u_remote u).
Definition set_u_uploadQueue (x : list preparedXorb) (u : ustate) : ustate :=
  MkUState (u_phase u) (u_cancelled u) (u_firstErr u) (u_prepareQueue u) x (u_workers u) (u_prepared u) (u_staged u) (u_files u) (u_next u) (u_uploaded u) (u_progress u) (u_remote u).
Definition set_u_workers (x : list worker) (u : ustate) : ustate :=
  MkUState (u_phase u) (u_cancelled u) (u_firstErr u) (u_prepareQueue u) (u_uploadQueue u) x (u_prepared u) (u_staged u) (u_files u) (u_next u) (u_uploaded u) (u_progress u) (u_remote u).
Definition set_u_prepared (x : list preparedXorb) (u : ustate) : ustate :=
  MkUState (u_phase u) (u_cancelled u) (u_firstErr u) (u_prepareQueue u) (u_uploadQueue u) (u_workers u) x (u_staged u) (u_files u) (u_next u) (u_uploaded u) (u_progress u) (u_remote u).
Definition set_u_staged (x : list nat) (u : ustate) : ustate :=
  MkUState (u_phase u) (u_cancelled u) (u_firstErr u) (u_prepareQueue u) (u_uploadQueue u) (u_workers u) (u_prepared u) x (u_files u) (u_next u) (u_uploaded u) (u_progress u) (u_remote u).
Definition set_u_files (x : gmap nat (list byte)) (u : ustate) : ustate :=
  MkUState (u_phase u) (u_cancelled u) (u_firstErr u) (u_prepareQueue u) (u_uploadQueue u) (u_workers u) (u_prepared u) (u_staged u) x (u_next u) (u_uploaded u) (u_progress u) (u_remote u).
Definition set_u_next (x : nat) (u : ustate) : ustate :=
  MkUState (u_phase u) (u_cancelled u) (u_firstErr u) (u_prepareQueue u) (u_uploadQueue u) (u_workers u) (u_prepared u) (u_staged u) (u_files u) x (u_uploaded u) (u_progress u) (u_remote u).
Definition set_u_uploaded (x : gmap ChunkHash ChunkLocation) (u : ustate) : ustate :=
  MkUState (u_phase u) (u_cancelled u) (u_firstErr u) (u_prepareQueue u) (u_uploadQueue u) (u_workers u) (u_prepared u) (u_staged u) (u_files u) (u_next u) x (u_progress u) (u_remote u).
Definition set_u_progress (x : list (gostring * Z * Z)) (u : ustate) : ustate :=
  MkUState (u_phase u) (u_cancelled u) (u_firstErr u) (u_prepareQueue u) (u_uploadQueue u) (u_workers u) (u_prepared u) (u_staged u) (u_files u) (u_next u) (u_uploaded u) x (u_remote u).
Definition set_u_remote (x : S) (u : ustate) : ustate :=
  MkUState (u_phase u) (u_cancelled u) (u_firstErr u) (u_prepareQueue u) (u_uploadQueue u) (u_workers u) (u_prepared u) (u_staged u) (u_files u) (u_next u) (u_uploaded u) (u_progress u) x.

(** [syncReadSeeker.readAt] into [buf[:size]]. *)
Definition readAt (c : Chunk) : result (list byte) :=
  if maxChunkSize <? ck_Size c then Err (Panic "slice bounds out of range")
  else if ck_Offset c <? 0 then Err (Wrapf "seek chunk: %w" (Errorf "negative position"))
  else
    match read_at (default [] (so_data <$> srcs !! ck_Reader c)) (ck_Offset c) (ck_Size c) with
    | (data, None) => Ok data
    | (_, Some e) => Err (Wrapf "read chunk: %w" e)
    end.

(** The encoding of a group, and what the staging file then holds. *)
Fixpoint encode_chunks (chunks : list Chunk) (enc : Encoder (list byte)) : option error * Encoder (list byte) :=
  match chunks with
  | [] => (None, enc)
  | c :: chunks =>
      match readAt c with
      | Err e => (Some (Wrapf "read chunk data: %w" e), enc)
      | Ok data =>
          match Encoder_Write data enc with
          | (_, Some e, enc) => (Some (Wrapf "encode chunk: %w" e), enc)
          | (_, None, enc) => encode_chunks chunks enc
          end
      end
  end.

Definition encode_group (g : xorbGroup) : result XorbHash * list byte :=
  match encode_chunks (xg_Chunks g) (NewEncoder [] true) with
  | (Some e, enc) => (Err e, e_w enc)
  | (None, enc) =>
      match Encoder_Close enc with
      | (Some e, enc) => (Err (Wrapf "finalize xorb: %w" e), e_w enc)
      | (None, enc) => let '(h, enc) := Encoder_SummoryHash enc in (h, e_w enc)
      end
  end.

(** [errOnce.Do(...)], and return. *)
Definition goto (w : nat) (st : worker) (u : ustate) : ustate := set_u_workers (<[w := st]> (u_workers u)) u.

Definition failed (w : nat) (e : error) (u : ustate) : ustate :=
  goto w WDone (match u_firstErr u with
                | Some _ => u
                | None => set_u_cancelled true (set_u_firstErr (Some e) u)
                end).

(** A request to the remote. *)
Definition request_remote {A} (f : fault) (m : prog S A) (u : ustate) : result A * ustate :=
  match f with
  | Fine => let '(r, s) := m (u_remote u) in (r, set_u_remote s u)
  | Fails e => (Err e, u)
  | Lost e => (Err e, set_u_remote (m (u_remote u)).2 u)
  end.

(** [os.Remove]. *)
Definition remove_file (path : nat) (u : ustate) : ustate :=
  if removable path then set_u_files (delete path (u_files u)) u else u.

(** The loop that records where the chunks of a xorb are. *)
Definition record_chunks (h : XorbHash) (chunkHashes : list ChunkHash) (m : gmap ChunkHash ChunkLocation) :
    gmap ChunkHash ChunkLocation :=
  foldl (fun m ic => <[ic.2 := MkChunkLocation h (u32 ic.1)]> m) m (indexed chunkHashes).

(** A goroutine's next step; a fault of a step without a system call or request
    is not looked at.  Encoding fails at a read of the source or, with [Lost],
    at a write to the staging file; what was written by then is left out, as the
    file is only removed afterwards. *)
Definition turn (w : nat) (f : fault) (u : ustate) : option ustate :=
  match u_workers u !! w with
  | None | Some WDone => None
  | Some WTake =>
      match u_phase u with
      | Preparing =>
          match u_prepareQueue u with
          | [] => Some (goto w WDone u)
          | g :: gs => Some (goto w (WGroup g) (set_u_prepareQueue gs u))
          end
      | Uploading =>
          match u_uploadQueue u with
          | [] => Some (goto w WDone u)
          | x :: xs => Some (goto w (WItem x) (set_u_uploadQueue xs u))
          end
      | Returned _ => None
      end
  | Some (WGroup g) => Some (goto w (if u_cancelled u then WDone else WCreate g) u)
  | Some (WCreate g) =>
      match f with
      | Fine =>
          let path := u_next u in
          Some (goto w (WEncode g path)
            (set_u_next (Datatypes.S path) (set_u_staged (u_staged u ++ [path]) (set_u_files (<[path := []]> (u_files u)) u))))
      | Fails e | Lost e => Some (failed w (Wrapf "create temp file: %w" e) u)
      end
  | Some (WEncode g path) =>
      match f with
      | Fine =>
          let '(h, data) := encode_group g in
          let u := set_u_files (<[path := data]> (u_files u)) u in
          match h with
          | Ok h => Some (goto w (WStat g path h) u)
          | Err e => Some (failed w e u)
          end
      | Fails e => Some (failed w (Wrapf "read chunk data: %w" e) u)
      | Lost e => Some (failed w (Wrapf "encode chunk: %w" e) u)
      end
  | Some (WStat g path h) =>
      match f with
      | Fine => Some (goto w (WClose g path h (len (default [] (u_files u !! path)))) u)
      | Fails e | Lost e => Some (failed w (Wrapf "stat xorb temp file: %w" e) u)
      end
  | Some (WClose g path h size) =>
      match f with
      | Fine => Some (goto w (WHas g path h size) u)
      | Fails e | Lost e => Some (failed w (Wrapf "close xorb temp file: %w" e) u)
      end
  | Some (WHas g path h size) =>
      match request_remote f (ca_HasXorb h) u with
      | (Err e, u) => Some (failed w (Wrapf "check xorb %s exists: %w" e) u)
      | (Ok true, u) => Some (goto w (WRecord h (xg_ChunkHashes g) None) (remove_file path u))
      | (Ok false, u) => Some (goto w WTake (set_u_prepared (u_prepared u ++ [MkPrepared h path size (xg_ChunkHashes g)]) u))
      end
  | Some (WItem x) => Some (goto w (if u_cancelled u then WDone else WOpen x) u)
  | Some (WOpen x) =>
      match f, u_files u !! pp_path x with
      | Fine, Some data => Some (goto w (WUpload x data) u)
      | Fine, None => Some (failed w (Wrapf "open xorb temp file: %w" (Errorf "file does not exist")) u)
      | Fails e, _ | Lost e, _ => Some (failed w (Wrapf "open xorb temp file: %w" e) u)
      end
  | Some (WUpload x data) =>
      match request_remote f (ca_UploadXorb (pp_hash x) data) u with
      | (Err e, u) => Some (failed w (Wrapf "upload xorb %s: %w" e) (remove_file (pp_path x) u))
      | (Ok _, u) => Some (goto w (WRecord (pp_hash x) (pp_chunkHashes x) (Some (pp_size x))) (remove_file (pp_path x) u))
      end
  | Some (WRecord h chunkHashes done) =>
      let u := set_u_uploaded (record_chunks h chunkHashes (u_uploaded u)) u in
      Some (goto w WTake
        match done with
        | Some size => set_u_progress (u_progress u ++ [(formatHash h, size, size)]) u
        | None => u
        end)
  end.

(** [firstErr], or the error of the context. *)
Definition outcome (u : ustate) : option error :=
  match u_firstErr u with
  | Some e => Some e
  | None => if u_cancelled u then Some Canceled else None
  end.

(** The return, with the deferred removals. *)
Definition return_ (u : ustate) : ustate :=
  set_u_phase (Returned (outcome u)) (foldl (fun u path => remove_file path u) u (u_staged u)).

Definition all_done (u : ustate) : bool :=
  forallb (fun st => match st with WDone => true | _ => false end) (u_workers u).

(** The caller's next step, once the goroutines have returned. *)
Definition main_turn (u : ustate) : option ustate :=
  if negb (all_done u) then None
  else
    match u_phase u with
    | Preparing =>
        match outcome u with
        | Some _ => Some (return_ u)
        | None =>
            Some (set_u_phase Uploading
              (set_u_uploadQueue (u_prepared u)
                (set_u_progress (u_progress u ++ map (fun x => (formatHash (pp_hash x), 0, pp_size x)) (u_prepared u))
                  (set_u_workers (map (fun _ => WTake) (u_workers u)) u))))
        end
    | Uploading => Some (return_ u)
    | Returned _ => None
    end.

(** [uploadXorbs(ctx, client, {}, groups, concurrency, staging, progressFunc)],
    for some groups; [next] is the number of the next staging file. *)
Definition concurrent (concurrency : Z) (groups : list xorbGroup) : Z :=
  let concurrency := if concurrency <=? 0 then 1 else concurrency in
  if len groups <? concurrency then len groups else concurrency.

Definition ustart (groups : list xorbGroup) (concurrency : Z) (files : gmap nat (list byte)) (next : nat) (s : S) : ustate :=
  MkUState Preparing false None groups [] (replicate (Z.to_nat (concurrent concurrency groups)) WTake) [] [] files next ∅ [] s.

(** Other clients change the remote. *)
Context (elsewhere : S -> S -> Prop).

Inductive ustep : ustate -> ustate -> Prop :=
  | us_turn w f u u' : turn w f u = Some u' -> ustep u u'
  | us_main u u' : main_turn u = Some u' -> ustep u u'
  | us_cancel u : ustep u (set_u_cancelled true u)
  | us_elsewhere u s : elsewhere (u_remote u) s -> ustep u (set_u_remote s u).

(** The returns of [uploadXorbs]: the error, what was uploaded and the remote. *)
Inductive uploadXorbs (groups : list xorbGroup) (concurrency : Z) (s : S) :
    option error -> gmap ChunkHash ChunkLocation -> S -> Prop :=
  | ux_none : groups = [] -> uploadXorbs groups concurrency s None ∅ s
  | ux_run files next u err :
      groups <> [] -> (forall p, is_Some (files !! p) -> (p < next)%nat) -> rtc ustep (ustart groups concurrency files next s) u -> u_phase u = Returned err ->
      uploadXorbs groups concurrency s err (u_uploaded u) (u_remote u).

(** [UploadFiles]. *)
Inductive UploadFiles (enableSHA256 : bool) (concurrency : Z) (s : S) : result (list FileHash) -> S -> Prop :=
  | uf_plan e s' : plan_upload enableSHA256 srcs s = (Err e, s') -> UploadFiles enableSHA256 concurrency s (Err e) s'
  | uf_xorbs p s1 e uploaded s2 :
      plan_upload enableSHA256 srcs s = (Ok p, s1) -> uploadXorbs (pl_groups p) (Z.max 1 concurrency) s1 (Some e) uploaded s2 ->
      UploadFiles enableSHA256 concurrency s (Err (Wrapf "upload xorbs: %w" e)) s2
  | uf_shard p s1 uploaded s2 r s3 :
      plan_upload enableSHA256 srcs s = (Ok p, s1) -> uploadXorbs (pl_groups p) (Z.max 1 concurrency) s1 None uploaded s2 ->
      finish_upload p uploaded s2 = (r, s3) -> UploadFiles enableSHA256 concurrency s r s3.
End xorbs.
