(* ===== verification/UploadProofs.v ===== *)
(** * What the goroutines of an upload guarantee

    An invariant of every state [uploadXorbs] can reach, whatever the
    interleaving, the faults, the cancellation and the other clients: every
    staging file has one owner, which finds in it what the encoder wrote; every
    recorded location is true; and every group is waiting, held by a goroutine,
    recorded, or given up for an error.  From it: [uploads_complete], the state
    at the return, and [uploads_end], that there is a return. *)

From Stdlib Require Import ZArith Lia Strings.Byte Strings.String.
From S2P Require Import Prelude Hash Sha256 Gearhash Merkle ByteGrouping Compression XorbEncoder XorbDecoder.
From S2P Require Import XorbOffsets Shard ShardBuild ShardCodec Prog Storage PutShard Memory MemoryPut PutFile Upload.

(** What a goroutine holds: a staging file, and the chunks of a group. *)
Definition worker_path (st : worker) : option nat :=
  match st with
  | WEncode _ p | WStat _ p _ | WClose _ p _ _ | WHas _ p _ _ => Some p
  | WItem x | WOpen x | WUpload x _ => Some (pp_path x)
  | _ => None
  end.

Definition worker_hashes (st : worker) : option (list ChunkHash) :=
  match st with
  | WGroup g | WCreate g | WEncode g _ | WStat g _ _ | WClose g _ _ _ | WHas g _ _ _ => Some (xg_ChunkHashes g)
  | WItem x | WOpen x | WUpload x _ => Some (pp_chunkHashes x)
  | WRecord _ chs _ => Some chs
  | WTake | WDone => None
  end.

(** ** Recording *)

Lemma record_chunks_snoc h chs ch m :
  record_chunks h (chs ++ [ch]) m = <[ch := MkChunkLocation h (u32 (len chs))]> (record_chunks h chs m).
Proof.
  unfold record_chunks, indexed. rewrite len_app. change (len [ch]) with 1. rewrite seqZ_app by (pose proof (len_nonneg chs); lia).
  rewrite zip_with_app by (unfold len; rewrite length_seqZ; lia). rewrite foldl_app. cbn. by rewrite Z.add_0_l.
Qed.

Lemma record_chunks_lookup h chs m (ch : ChunkHash) loc :
  len chs < 2 ^ 32 -> record_chunks h chs m !! ch = Some loc ->
  m !! ch = Some loc \/
  cl_XorbHash loc = h /\ 0 <= cl_ChunkIndex loc /\ chs !! Z.to_nat (cl_ChunkIndex loc) = Some ch.
Proof.
  induction chs as [|c chs IH] using rev_ind; [by left|]. rewrite record_chunks_snoc, len_app. change (len [c]) with 1. intros Hl.
  pose proof (len_nonneg chs). intros [[<- <-]|[_ Hm]]%lookup_insert_Some.
  - right. cbn. rewrite u32_small by (unfold is_u32; lia). split; [done|]. split; [done|]. rewrite lookup_app_r by (unfold len; lia).
    replace (_ - _)%nat with O by (unfold len; lia). done.
  - destruct (IH ltac:(lia) Hm) as [?|(? & ? & Hx)]; [by left|right]. split; [done|]. split; [done|]. by apply lookup_app_l_Some.
Qed.

Lemma record_chunks_mono h chs m (ch : ChunkHash) : is_Some (m !! ch) -> is_Some (record_chunks h chs m !! ch).
Proof.
  intros Hm. induction chs as [|c chs IH] using rev_ind; [done|]. rewrite record_chunks_snoc. apply lookup_insert_is_Some'. by right.
Qed.

Lemma record_chunks_all h chs m (ch : ChunkHash) : ch ∈ chs -> is_Some (record_chunks h chs m !! ch).
Proof.
  induction chs as [|c chs IH] using rev_ind; [by intros ?%elem_of_nil|]. rewrite record_chunks_snoc. intros Hin.
  apply lookup_insert_is_Some'. apply elem_of_app in Hin as [Hin|Hin%list_elem_of_singleton]; [right; by apply IH|by left].
Qed.

Section invariant.
Context {B3 : Blake3} {L : Lz4} {P : ChunkBufs} {S : Type} {C : ClientAdapter S}.
Context (srcs : list source) (removable : nat -> bool) (elsewhere : S -> S -> Prop).
Context (groups : list xorbGroup) (files0 : gmap nat (list byte)) (next0 : nat).

(** What the remote promises: a xorb it says it has, or has accepted, stays. *)
Context (stored : S -> XorbHash -> Prop).
Hypothesis HasXorb_true : forall h s s', ca_HasXorb h s = (Ok true, s') -> stored s' h.
Hypothesis UploadXorb_ok : forall h data s b s', ca_UploadXorb h data s = (Ok b, s') -> stored s' h.
Hypothesis HasXorb_keeps : forall h s h', stored s h' -> stored (ca_HasXorb h s).2 h'.
Hypothesis UploadXorb_keeps : forall h data s h', stored s h' -> stored (ca_UploadXorb h data s).2 h'.
Hypothesis elsewhere_keeps : forall s s' h, elsewhere s s' -> stored s h -> stored s' h.

Hypothesis groups_small : Forall (fun g => len (xg_ChunkHashes g) < 2 ^ 32) groups.
Hypothesis files_below : forall p, is_Some (files0 !! p) -> (p < next0)%nat.

Abbreviation state := (@ustate S).

(** A prepared xorb whose staging file holds its encoding. *)
Definition item_ok (u : state) (x : preparedXorb) : Prop :=
  exists g data, g ∈ groups /\ encode_group srcs g = (Ok (pp_hash x), data) /\ u_files u !! pp_path x = Some data /\
    pp_size x = len data /\ pp_chunkHashes x = xg_ChunkHashes g.

Definition worker_ok (u : state) (st : worker) : Prop :=
  match st with
  | WTake | WDone => True
  | WGroup g | WCreate g => g ∈ groups
  | WEncode g p => g ∈ groups /\ is_Some (u_files u !! p)
  | WStat g p h => exists data, g ∈ groups /\ encode_group srcs g = (Ok h, data) /\ u_files u !! p = Some data
  | WClose g p h size | WHas g p h size => item_ok u (MkPrepared h p size (xg_ChunkHashes g))
  | WItem x | WOpen x => item_ok u x
  | WUpload x data => item_ok u x /\ u_files u !! pp_path x = Some data
  | WRecord h chs _ =>
      (exists g data, g ∈ groups /\ encode_group srcs g = (Ok h, data) /\ chs = xg_ChunkHashes g) /\ stored (u_remote u) h
  end.

(** The prepared xorbs nobody holds. *)
Definition pending (u : state) : list preparedXorb :=
  match u_phase u with Preparing => u_prepared u | Uploading => u_uploadQueue u | Returned _ => [] end.

(** The chunks that wait for a goroutine. *)
Definition waiting (u : state) (chs : list ChunkHash) : Prop :=
  (u_phase u = Preparing /\ chs ∈ map xg_ChunkHashes (u_prepareQueue u)) \/ chs ∈ map pp_chunkHashes (pending u).

Definition recorded_all (u : state) (chs : list ChunkHash) : Prop := forall ch, ch ∈ chs -> is_Some (u_uploaded u !! ch).

Definition given_up (u : state) : Prop := outcome u <> None.

(** Every location is where the chunk is. *)
Definition located_true (u : state) : Prop :=
  forall (ch : ChunkHash) loc, u_uploaded u !! ch = Some loc ->
    stored (u_remote u) (cl_XorbHash loc) /\
    exists g data, g ∈ groups /\ encode_group srcs g = (Ok (cl_XorbHash loc), data) /\
      0 <= cl_ChunkIndex loc /\ xg_ChunkHashes g !! Z.to_nat (cl_ChunkIndex loc) = Some ch.

Record inv (u : state) : Prop := {
  iv_worker : forall w st, u_workers u !! w = Some st -> worker_ok u st;
  iv_item : forall x, x ∈ pending u -> item_ok u x;
  iv_queue : forall g, g ∈ u_prepareQueue u -> g ∈ groups;
  iv_own : forall w w' st st' p, u_workers u !! w = Some st -> u_workers u !! w' = Some st' ->
    worker_path st = Some p -> worker_path st' = Some p -> w = w';
  iv_free : forall w st x, u_workers u !! w = Some st -> x ∈ pending u -> worker_path st <> Some (pp_path x);
  iv_distinct : NoDup (map pp_path (pending u));
  iv_range : forall w st p, u_workers u !! w = Some st -> worker_path st = Some p -> (next0 <= p < u_next u)%nat;
  iv_range' : forall x, x ∈ pending u -> (next0 <= pp_path x < u_next u)%nat;
  iv_staged : forall p, (next0 <= p)%nat -> is_Some (u_files u !! p) -> p ∈ u_staged u;
  iv_staged' : forall p, p ∈ u_staged u -> (next0 <= p)%nat;
  iv_next : (next0 <= u_next u)%nat /\ forall p, is_Some (u_files u !! p) -> (p < u_next u)%nat;
  iv_others : forall p, (p < next0)%nat -> u_files u !! p = files0 !! p;
  iv_located : located_true u;
  iv_some : u_workers u <> [];
}.

(** ** One goroutine moves *)

Lemma item_ok_frame u u1 x : u_files u1 !! pp_path x = u_files u !! pp_path x -> item_ok u x -> item_ok u1 x.
Proof. intros Hf (g & data & Hg & He & Hfile & Hrest). exists g, data. by rewrite Hf. Qed.

Lemma worker_ok_frame u u1 st :
  (forall p, worker_path st = Some p -> u_files u1 !! p = u_files u !! p) ->
  (forall h, stored (u_remote u) h -> stored (u_remote u1) h) -> worker_ok u st -> worker_ok u1 st.
Proof.
  intros Hf Hs. destruct st; cbn [worker_ok worker_path] in Hf |- *; try done.
  - intros [? ?]. by rewrite Hf.
  - intros (data & ? & ? & ?). exists data. by rewrite Hf.
  - apply item_ok_frame. by apply Hf.
  - apply item_ok_frame. by apply Hf.
  - apply item_ok_frame. by apply Hf.
  - apply item_ok_frame. by apply Hf.
  - intros [Hi Hd]. split; [by eapply item_ok_frame; [apply Hf|]|by rewrite Hf].
  - intros [? ?]. split; [done|by apply Hs].
Qed.

(** What becomes of the staging files. *)
Inductive moves (u u1 : state) (st st' : worker) : Prop :=
  | mv_keep : pending u1 = pending u -> (forall p, worker_path st' = Some p -> worker_path st = Some p) -> moves u u1 st st'
  | mv_fresh : pending u1 = pending u -> worker_path st' = Some (u_next u) -> (u_next u < u_next u1)%nat -> moves u u1 st st'
  | mv_give x : pending u1 = pending u ++ [x] -> worker_path st = Some (pp_path x) -> worker_path st' = None -> item_ok u1 x -> moves u u1 st st'
  | mv_take x : pending u = x :: pending u1 -> worker_path st = None -> worker_path st' = Some (pp_path x) -> moves u u1 st st'.

(** The state but for what a goroutine may do to it. *)
Record frame_ok (u u1 : state) (st : worker) : Prop := {
  fr_workers : u_workers u1 = u_workers u;
  fr_phase : u_phase u1 = u_phase u;
  fr_queue : forall g, g ∈ u_prepareQueue u1 -> g ∈ u_prepareQueue u;
  fr_files : forall p, worker_path st <> Some p -> (p < u_next u)%nat -> u_files u1 !! p = u_files u !! p;
  fr_next : (u_next u <= u_next u1)%nat /\ forall p, is_Some (u_files u1 !! p) -> (p < u_next u1)%nat;
  fr_staged : forall p, (next0 <= p)%nat -> is_Some (u_files u1 !! p) -> p ∈ u_staged u1;
  fr_staged' : forall p, p ∈ u_staged u1 -> (next0 <= p)%nat;
  fr_stored : forall h, stored (u_remote u) h -> stored (u_remote u1) h;
}.

(** Who has a file before the move, for a goroutine other than [w]. *)
Lemma other_worker_file u u1 w st w2 st2 p :
  inv u -> u_workers u !! w = Some st -> frame_ok u u1 st -> u_workers u !! w2 = Some st2 -> w2 <> w ->
  worker_path st2 = Some p -> u_files u1 !! p = u_files u !! p.
Proof.
  intros Hi Hw Hf Hw2 Hne Hp. apply (fr_files _ _ _ Hf); [|by eapply iv_range]. intros Hp'. apply Hne. by eapply iv_own.
Qed.

Lemma move_own u u1 st st' w :
  inv u -> u_workers u !! w = Some st -> moves u u1 st st' ->
  (forall w2 st2 p, w2 <> w -> u_workers u !! w2 = Some st2 -> worker_path st2 = Some p -> worker_path st' <> Some p) /\
  (forall x, x ∈ pending u1 -> worker_path st' <> Some (pp_path x)) /\
  NoDup (map pp_path (pending u1)) /\
  (forall w2 st2 x, w2 <> w -> u_workers u !! w2 = Some st2 -> x ∈ pending u1 -> worker_path st2 <> Some (pp_path x)).
Proof.
  intros Hi Hw [Hpe Hk|Hpe Hk Hn|x Hpe Hk Hk' _|x Hpe Hk Hk'].
  - rewrite Hpe. split; [|split; [|split; [apply Hi|]]].
    + intros w2 st2 p Hne Hw2 Hp Hp'%Hk. apply Hne. by eapply iv_own.
    + intros x Hx Hp%Hk. by eapply iv_free.
    + intros w2 st2 x _ Hw2 Hx. by eapply iv_free.
  - rewrite Hpe, Hk. split; [|split; [|split; [apply Hi|]]].
    + intros w2 st2 p Hne Hw2 Hp [= E]. pose proof (iv_range _ Hi _ _ _ Hw2 Hp). lia.
    + intros x Hx [= E]. pose proof (iv_range' _ Hi x Hx). lia.
    + intros w2 st2 x _ Hw2 Hx. by eapply iv_free.
  - rewrite Hpe, Hk'. split; [done|]. split; [done|]. split.
    + rewrite map_app. apply NoDup_app. split; [apply Hi|]. split; [|apply NoDup_singleton].
      intros p Hp ->%list_elem_of_singleton. apply list_elem_of_fmap in Hp as (y & Hy & Hin). eapply (iv_free _ Hi w st y); [done..|]. by rewrite Hk, Hy.
    + intros w2 st2 y Hne Hw2 Hy Hp. apply elem_of_app in Hy as [Hy|Hy%list_elem_of_singleton]; [by eapply iv_free|]. subst y.
      apply Hne. by eapply (iv_own _ Hi w2 w).
  - pose proof (iv_distinct _ Hi) as Hd. rewrite Hpe in Hd. cbn [map] in Hd. apply NoDup_cons in Hd as [Hnot Hd].
    assert (forall y, y ∈ pending u1 -> y ∈ pending u) as Hsub by (intros y Hy; rewrite Hpe; by right).
    rewrite Hk'. split; [|split; [|split; [done|]]].
    + intros w2 st2 p _ Hw2 Hp [= <-]. eapply (iv_free _ Hi w2 st2 x); [done| |done]. rewrite Hpe. left.
    + intros y Hy [= E]. apply Hnot. apply list_elem_of_fmap. by exists y.
    + intros w2 st2 y _ Hw2 Hy. by eapply iv_free; [| |apply Hsub].
Qed.

Lemma move_range u u1 st st' w :
  inv u -> u_workers u !! w = Some st -> frame_ok u u1 st -> moves u u1 st st' ->
  (forall p, worker_path st' = Some p -> (next0 <= p < u_next u1)%nat) /\
  (forall x, x ∈ pending u1 -> (next0 <= pp_path x < u_next u1)%nat /\ item_ok u1 x).
Proof.
  intros Hi Hw Hf Hm. pose proof (proj1 (fr_next _ _ _ Hf)) as Hn. pose proof (proj1 (iv_next _ Hi)) as Hn0.
  assert (forall x, x ∈ pending u -> worker_path st <> Some (pp_path x)) as Hfree by (intros x; by eapply iv_free).
  assert (forall x, x ∈ pending u -> (next0 <= pp_path x < u_next u1)%nat /\ item_ok u1 x) as Hold.
  { intros x Hx. pose proof (iv_range' _ Hi x Hx). split; [lia|]. eapply item_ok_frame; [|by apply Hi].
    apply (fr_files _ _ _ Hf); [by apply Hfree|lia]. }
  destruct Hm as [Hpe Hk|Hpe Hk Hlt|x Hpe Hk Hk' Hx|x Hpe Hk Hk'].
  - rewrite Hpe. split; [|done]. intros p Hp%Hk. pose proof (iv_range _ Hi _ _ _ Hw Hp). lia.
  - rewrite Hpe, Hk. split; [|done]. intros p [= <-]. lia.
  - rewrite Hpe, Hk'. split; [done|]. intros y [Hy|Hy%list_elem_of_singleton]%elem_of_app; [by apply Hold|]. subst y.
    pose proof (iv_range _ Hi _ _ _ Hw Hk). split; [lia|done].
  - rewrite Hk'. split; [|intros y Hy; apply Hold; rewrite Hpe; by right]. intros p [= <-]. apply Hold. rewrite Hpe. left.
Qed.

Lemma inv_move u u1 w st st' :
  inv u -> u_workers u !! w = Some st -> frame_ok u u1 st -> moves u u1 st st' -> located_true u1 -> worker_ok u1 st' -> inv (goto w st' u1).
Proof.
  intros Hi Hw Hf Hm Hl Hok. destruct (move_own u u1 st st' w Hi Hw Hm) as (O1 & O2 & O3 & O4).
  destruct (move_range u u1 st st' w Hi Hw Hf Hm) as [R1 R2].
  assert (pending (goto w st' u1) = pending u1) as Hpe by done.
  assert (forall w2 st2, u_workers (goto w st' u1) !! w2 = Some st2 -> w2 = w /\ st2 = st' \/ w2 <> w /\ u_workers u !! w2 = Some st2) as Hws.
  { intros w2 st2. cbn [goto set_u_workers u_workers]. rewrite (fr_workers _ _ _ Hf). intros [(<- & <- & _)|[? ?]]%list_lookup_insert_Some; auto. }
  split; rewrite ?Hpe; cbn [goto set_u_workers u_prepareQueue u_next u_staged u_files u_uploaded u_remote].
  - intros w2 st2 [[-> ->]|[Hne Hw2]]%Hws; [done|]. eapply (worker_ok_frame u); [|apply Hf|by eapply iv_worker].
    intros p Hp. by apply (other_worker_file u u1 w st w2 st2 p).
  - intros x Hx. by apply R2.
  - intros g Hg%(fr_queue _ _ _ Hf). by apply Hi.
  - intros w2 w3 st2 st3 p [[-> ->]|[Hn2 Hw2]]%Hws [[-> ->]|[Hn3 Hw3]]%Hws H2 H3; [done| | |by eapply iv_own].
    + by destruct (O1 _ _ _ Hn3 Hw3 H3).
    + by destruct (O1 _ _ _ Hn2 Hw2 H2).
  - intros w2 st2 x [[-> ->]|[Hne Hw2]]%Hws Hx; [by apply O2|by eapply O4].
  - done.
  - intros w2 st2 p [[-> ->]|[Hne Hw2]]%Hws Hp; [by apply R1|]. pose proof (iv_range _ Hi _ _ _ Hw2 Hp).
    pose proof (proj1 (fr_next _ _ _ Hf)). lia.
  - intros x Hx. by apply R2.
  - apply Hf.
  - apply Hf.
  - split; [|apply Hf]. pose proof (proj1 (fr_next _ _ _ Hf)). pose proof (proj1 (iv_next _ Hi)). lia.
  - intros p Hp. rewrite <- (iv_others _ Hi p Hp). pose proof (proj1 (iv_next _ Hi)). apply (fr_files _ _ _ Hf); [|lia].
    intros Hp'. pose proof (iv_range _ Hi _ _ _ Hw Hp'). lia.
  - done.
  - cbn. rewrite (fr_workers _ _ _ Hf). intros E. apply (f_equal length) in E. rewrite length_insert in E.
    apply lookup_lt_Some in Hw. cbn in E. lia.
Qed.

(** *** The parts of a move *)

Lemma frame_same u st : inv u -> frame_ok u u st.
Proof. intros Hi. split; try done; [split; [lia|]|..]; apply Hi. Qed.

(** A request. *)
Lemma request_spec {A} f (m : prog S A) u r u1 :
  (forall s h, stored s h -> stored (m s).2 h) -> request_remote f m u = (r, u1) ->
  exists s1, u1 = set_u_remote s1 u /\ (forall h, stored (u_remote u) h -> stored s1 h) /\ (forall a, r = Ok a -> m (u_remote u) = (Ok a, s1)).
Proof.
  intros Hk. unfold request_remote. destruct f as [|e|e].
  - intros E. exists (m (u_remote u)).2. rewrite (surjective_pairing (m (u_remote u))) in E. injection E as <- <-. split; [done|].
    split; [by intros h; apply Hk|]. intros a Ha. by rewrite (surjective_pairing (m (u_remote u))), Ha.
  - intros [= <- <-]. exists (u_remote u). split; [by destruct u|]. done.
  - intros [= <- <-]. exists (m (u_remote u)).2. split; [done|]. split; [by intros h; apply Hk|done].
Qed.

Lemma frame_remote u u1 st s :
  frame_ok u u1 st -> (forall h, stored (u_remote u1) h -> stored s h) -> frame_ok u (set_u_remote s u1) st.
Proof. intros [] Hs. split; try done. intros h Hh. cbn. by auto. Qed.

Lemma located_mono u u1 :
  u_uploaded u1 = u_uploaded u -> (forall h, stored (u_remote u) h -> stored (u_remote u1) h) -> located_true u -> located_true u1.
Proof. intros Hu Hs Hl ch loc. rewrite Hu. intros [H1 H2]%Hl. split; [by apply Hs|done]. Qed.

(** The goroutine's own file is written or removed. *)
Lemma frame_file u u1 st path fs :
  frame_ok u u1 st -> worker_path st = Some path -> (forall p, p <> path -> fs !! p = u_files u1 !! p) ->
  (is_Some (fs !! path) -> is_Some (u_files u1 !! path)) -> frame_ok u (set_u_files fs u1) st.
Proof.
  intros [Fw Fp Fq Ff Fn Fs Fs' Fr] Hp Hfs Hpath.
  assert (forall p, is_Some (fs !! p) -> is_Some (u_files u1 !! p)) as Hsome.
  { intros p Hx. destruct (decide (p = path)) as [->|Hne]; [by apply Hpath|by rewrite <- Hfs]. }
  split; cbn [set_u_files u_workers u_phase u_prepareQueue u_files u_next u_staged u_remote]; try done.
  - intros p Hne Hlt. rewrite Hfs by (by intros ->). by apply Ff.
  - split; [apply Fn|]. intros p Hx. by apply Fn, Hsome.
  - intros p Hle Hx. apply Fs; [done|by apply Hsome].
Qed.

Lemma frame_remove u u1 st path :
  frame_ok u u1 st -> worker_path st = Some path -> frame_ok u (remove_file removable path u1) st.
Proof.
  intros Hf Hp. unfold remove_file. destruct (removable path); [|done]. apply (frame_file u u1 st path); [done|done| |].
  - intros p Hne. by rewrite lookup_delete_ne.
  - rewrite lookup_delete_eq. by intros [? ?].
Qed.

Lemma remove_same path u :
  pending (remove_file removable path u) = pending u /\ u_uploaded (remove_file removable path u) = u_uploaded u /\
  u_remote (remove_file removable path u) = u_remote u /\ u_workers (remove_file removable path u) = u_workers u /\
  u_phase (remove_file removable path u) = u_phase u /\ outcome (remove_file removable path u) = outcome u /\
  u_prepareQueue (remove_file removable path u) = u_prepareQueue u.
Proof. unfold remove_file. by destruct (removable path). Qed.

Lemma inv_failed u u1 w st e :
  inv u -> u_workers u !! w = Some st -> frame_ok u u1 st -> pending u1 = pending u -> located_true u1 -> inv (failed w e u1).
Proof.
  intros Hi Hw Hf Hp Hl. unfold failed. set (u2 := match u_firstErr u1 with Some _ => u1 | None => _ end).
  assert (frame_ok u u2 st /\ pending u2 = pending u /\ located_true u2) as (H1 & H2 & H3).
  { subst u2. destruct (u_firstErr u1); [done|]. destruct Hf. by split. }
  apply (inv_move u u2 w st); [done..|by apply mv_keep|done|exact I].
Qed.

(** A step that only looks. *)
Lemma inv_local u w st st' :
  inv u -> u_workers u !! w = Some st -> (forall p, worker_path st' = Some p -> worker_path st = Some p) -> worker_ok u st' -> inv (goto w st' u).
Proof.
  intros Hi Hw Hp Hok. apply (inv_move u u w st); [done..|by apply frame_same|by apply mv_keep|apply Hi|done].
Qed.

(** *** The steps *)

Lemma inv_create u w g f u' :
  inv u -> u_workers u !! w = Some (WCreate g) -> turn srcs removable w f u = Some u' -> inv u'.
Proof.
  intros Hi Hw. unfold turn. rewrite Hw. pose proof (iv_worker _ Hi _ _ Hw) as Hg. cbn [worker_ok] in Hg.
  destruct f as [|e|e]; intros [= <-]; [|apply (inv_failed u u w (WCreate g)); [done|done|by apply frame_same|done|apply Hi]..].
  apply (inv_move u _ w (WCreate g)); [done|done| |by apply mv_fresh; cbn; [|..|lia]|apply Hi|].
  - pose proof (iv_next _ Hi) as [Hn Hlt].
    split; cbn [set_u_next set_u_staged set_u_files u_workers u_phase u_prepareQueue u_files u_next u_staged u_remote]; try done.
    + intros p _ Hp. by rewrite lookup_insert_ne by lia.
    + split; [lia|]. intros p [->|[_ Hx]]%lookup_insert_is_Some; [lia|]. specialize (Hlt p Hx). lia.
    + intros p Hp [->|[_ Hx]]%lookup_insert_is_Some; apply elem_of_app; [right; by apply list_elem_of_singleton|left; by apply Hi].
    + intros p [Hp|Hp%list_elem_of_singleton]%elem_of_app; [by apply Hi|lia].
  - cbn. split; [done|]. rewrite lookup_insert_eq. by eexists.
Qed.

Lemma inv_encode u w g path f u' :
  inv u -> u_workers u !! w = Some (WEncode g path) -> turn srcs removable w f u = Some u' -> inv u'.
Proof.
  intros Hi Hw. unfold turn. rewrite Hw. pose proof (iv_worker _ Hi _ _ Hw) as [Hg Hsome].
  destruct f as [|e|e]; [|intros [= <-]; apply (inv_failed u u w (WEncode g path)); [done|done|by apply frame_same|done|apply Hi]..].
  destruct (encode_group srcs g) as [h data] eqn:Ee. set (u1 := set_u_files _ u).
  assert (frame_ok u u1 (WEncode g path)) as Hf.
  { apply (frame_file u u _ path); [by apply frame_same|done| |done]. intros p Hne. by rewrite lookup_insert_ne. }
  destruct h as [h|e]; intros [= <-].
  - apply (inv_move u u1 w (WEncode g path)); [done..|by apply mv_keep|apply Hi|]. cbn. exists data. by rewrite lookup_insert_eq.
  - apply (inv_failed u u1 w (WEncode g path)); [done..|apply Hi].
Qed.

Lemma inv_has u w g path h size f u' :
  inv u -> u_phase u = Preparing -> u_workers u !! w = Some (WHas g path h size) -> turn srcs removable w f u = Some u' -> inv u'.
Proof.
  intros Hi Hph Hw. unfold turn. rewrite Hw. pose proof (iv_worker _ Hi _ _ Hw) as Hok. cbn [worker_ok] in Hok.
  destruct (request_remote f (ca_HasXorb h) u) as [r u1] eqn:Er.
  destruct (request_spec _ _ _ _ _ (HasXorb_keeps h) Er) as (s1 & -> & Hs & Hr).
  assert (frame_ok u (set_u_remote s1 u) (WHas g path h size)) as Hf by (apply frame_remote; [by apply frame_same|done]).
  assert (located_true (set_u_remote s1 u)) as Hl by (apply (located_mono u); [done|done|apply Hi]).
  destruct r as [[|]|e]; intros [= <-].
  - destruct (remove_same path (set_u_remote s1 u)) as (M1 & M2 & M3 & _).
    apply (inv_move u _ w (WHas g path h size)); [done|done|by apply frame_remove|by apply mv_keep| |].
    + apply (located_mono (set_u_remote s1 u)); [done|by rewrite M3|done].
    + cbn [worker_ok]. rewrite M3. destruct Hok as (g' & data & ? & ? & ? & ? & ?). split; [by exists g', data|].
      apply (HasXorb_true h (u_remote u)). by apply Hr.
  - apply (inv_move u _ w (WHas g path h size)); [done|done|destruct Hf; by split| |exact Hl|exact I].
    apply (mv_give _ _ _ _ (MkPrepared h path size (xg_ChunkHashes g))); [unfold pending; cbn; by rewrite Hph|done|done|done].
  - by apply (inv_failed u (set_u_remote s1 u) w (WHas g path h size)).
Qed.

Lemma inv_upload u w x data f u' :
  inv u -> u_workers u !! w = Some (WUpload x data) -> turn srcs removable w f u = Some u' -> inv u'.
Proof.
  intros Hi Hw. unfold turn. rewrite Hw. pose proof (iv_worker _ Hi _ _ Hw) as [Hok _].
  destruct (request_remote f (ca_UploadXorb (pp_hash x) data) u) as [r u1] eqn:Er.
  destruct (request_spec _ _ _ _ _ (UploadXorb_keeps (pp_hash x) data) Er) as (s1 & -> & Hs & Hr).
  destruct (remove_same (pp_path x) (set_u_remote s1 u)) as (M1 & M2 & M3 & _).
  assert (frame_ok u (remove_file removable (pp_path x) (set_u_remote s1 u)) (WUpload x data)) as Hf
    by (apply frame_remove; [apply frame_remote; [by apply frame_same|done]|done]).
  assert (located_true (remove_file removable (pp_path x) (set_u_remote s1 u))) as Hl
    by (apply (located_mono u); [done|by rewrite M3|apply Hi]).
  destruct r as [b|e]; intros [= <-].
  - apply (inv_move u _ w (WUpload x data)); [done..|by apply mv_keep|done|]. cbn [worker_ok]. rewrite M3.
    destruct Hok as (g' & d & ? & ? & ? & ? & ?). split; [by exists g', d|]. apply (UploadXorb_ok (pp_hash x) data (u_remote u) b). by apply Hr.
  - apply (inv_failed u _ w (WUpload x data)); done.
Qed.

Lemma located_record u h g data :
  located_true u -> g ∈ groups -> encode_group srcs g = (Ok h, data) -> stored (u_remote u) h ->
  located_true (set_u_uploaded (record_chunks h (xg_ChunkHashes g) (u_uploaded u)) u).
Proof.
  intros Hl Hg He Hs ch loc. cbn [set_u_uploaded u_uploaded u_remote]. rewrite Forall_forall in groups_small.
  intros [Hold|(Hh & Hi & Hx)]%record_chunks_lookup; [by apply Hl| |by apply groups_small].
  rewrite Hh. split; [done|]. by exists g, data.
Qed.

Lemma inv_record u w h chs d f u' :
  inv u -> u_workers u !! w = Some (WRecord h chs d) -> turn srcs removable w f u = Some u' -> inv u'.
Proof.
  intros Hi Hw. unfold turn. rewrite Hw. pose proof (iv_worker _ Hi _ _ Hw) as [(g & data & Hg & He & ->) Hs].
  pose proof (located_record u h g data (iv_located _ Hi) Hg He Hs) as Hl. set (u1 := set_u_uploaded _ u) in *.
  assert (frame_ok u u1 (WRecord h (xg_ChunkHashes g) d)) as Hf by (destruct (frame_same u (WRecord h (xg_ChunkHashes g) d) Hi); by split).
  set (st := WRecord h (xg_ChunkHashes g) d) in *. clearbody st.
  destruct d as [size|]; intros [= <-]; (apply (inv_move u _ w st); [done|done|destruct Hf; by split|by apply mv_keep|done|exact I]).
Qed.

Lemma inv_take u w f u' :
  inv u -> u_workers u !! w = Some WTake -> turn srcs removable w f u = Some u' -> inv u'.
Proof.
  intros Hi Hw. unfold turn. rewrite Hw. destruct (u_phase u) eqn:Hph; [| |done].
  - destruct (u_prepareQueue u) as [|g gs] eqn:Eq; intros [= <-]; [by apply (inv_local u w WTake)|].
    apply (inv_move u _ w WTake); [done|done| |by apply mv_keep|apply Hi|].
    + destruct (frame_same u WTake Hi). split; try done. intros g' Hg'. cbn in Hg'. rewrite Eq. by right.
    + cbn. apply Hi. rewrite Eq. left.
  - destruct (u_uploadQueue u) as [|x xs] eqn:Eq; intros [= <-]; [by apply (inv_local u w WTake)|].
    assert (pending u = x :: xs) as Hpe by (unfold pending; by rewrite Hph).
    apply (inv_move u _ w WTake); [done|done|destruct (frame_same u WTake Hi); by split| |apply Hi|].
    + apply (mv_take _ _ _ _ x); [unfold pending; cbn; by rewrite Hph|done|done].
    + cbn [worker_ok]. eapply item_ok_frame; [|apply (iv_item _ Hi)]; [done|]. rewrite Hpe. left.
Qed.

(** The stages of a goroutine belong to the phases of the caller. *)
Definition in_phase (u : state) : Prop :=
  forall w st, u_workers u !! w = Some st ->
    match st with
    | WGroup _ | WCreate _ | WEncode _ _ | WStat _ _ _ | WClose _ _ _ _ | WHas _ _ _ _ => u_phase u = Preparing
    | WItem _ | WOpen _ | WUpload _ _ => u_phase u = Uploading
    | WTake | WRecord _ _ _ => u_phase u = Preparing \/ u_phase u = Uploading
    | WDone => True
    end.

Lemma inv_turn u w f u' : inv u -> in_phase u -> turn srcs removable w f u = Some u' -> inv u'.
Proof.
  intros Hi Hin Ht. destruct (u_workers u !! w) as [st|] eqn:Hw; [|unfold turn in Ht; by rewrite Hw in Ht].
  pose proof (iv_worker _ Hi _ _ Hw) as Hok.
  destruct st as [|g|g|g path|g path h|g path h size|g path h size|x|x|x data|h chs d|].
  - by eapply inv_take.
  - unfold turn in Ht. rewrite Hw in Ht. injection Ht as <-. destruct (u_cancelled u); by apply (inv_local u w (WGroup g)).
  - by eapply inv_create.
  - by eapply inv_encode.
  - unfold turn in Ht. rewrite Hw in Ht.
    destruct f as [|e|e]; injection Ht as <-; [|apply (inv_failed u u w (WStat g path h)); [done|done|by apply frame_same|done|apply Hi]..].
    apply (inv_local u w (WStat g path h)); [done|done|done|]. destruct Hok as (data & Hg & He & Hfile). rewrite Hfile. by exists g, data.
  - unfold turn in Ht. rewrite Hw in Ht.
    destruct f as [|e|e]; injection Ht as <-; [|apply (inv_failed u u w (WClose g path h size)); [done|done|by apply frame_same|done|apply Hi]..].
    by apply (inv_local u w (WClose g path h size)).
  - eapply inv_has; [done| |done|done]. exact (Hin _ _ Hw).
  - unfold turn in Ht. rewrite Hw in Ht. injection Ht as <-. destruct (u_cancelled u); by apply (inv_local u w (WItem x)).
  - unfold turn in Ht. rewrite Hw in Ht.
    assert (forall e, inv (failed w e u)) as Hfail by (intros e; apply (inv_failed u u w (WOpen x)); [done|done|by apply frame_same|done|apply Hi]).
    destruct f as [|e|e]; [|by injection Ht as <-..]. destruct (u_files u !! pp_path x) as [data|] eqn:Ef; injection Ht as <-; [|done].
    by apply (inv_local u w (WOpen x)).
  - by eapply inv_upload.
  - by eapply inv_record.
  - unfold turn in Ht. by rewrite Hw in Ht.
Qed.

(** ** No group is forgotten, and every step counts *)

Definition queue_empty (u : state) : Prop :=
  match u_phase u with Preparing => u_prepareQueue u = [] | Uploading => u_uploadQueue u = [] | Returned _ => True end.

(** What is left to do. *)
Definition rank (st : worker) : nat :=
  match st with
  | WDone => 0 | WTake => 1 | WRecord _ _ _ => 3 | WUpload _ _ => 4 | WOpen _ => 5 | WItem _ => 6
  | WHas _ _ _ _ => 8 | WClose _ _ _ _ => 9 | WStat _ _ _ => 10 | WEncode _ _ => 11 | WCreate _ => 12 | WGroup _ => 13
  end.

Definition phase_weight (u : state) : nat :=
  match u_phase u with Preparing => 2 + length (u_workers u) | Uploading => 1 | Returned _ => 0 end.

Definition work (u : state) : nat :=
  phase_weight u + sum_list_with rank (u_workers u) + 13 * length (u_prepareQueue u) + 6 * length (pending u).

(** The stage a goroutine may be in. *)
Definition stage_ok (ph : uphase) (st : worker) : Prop :=
  match st with
  | WGroup _ | WCreate _ | WEncode _ _ | WStat _ _ _ | WClose _ _ _ _ | WHas _ _ _ _ => ph = Preparing
  | WItem _ | WOpen _ | WUpload _ _ => ph = Uploading
  | WTake | WRecord _ _ _ => ph = Preparing \/ ph = Uploading
  | WDone => True
  end.

(** What a step of a goroutine does to the others' affairs. *)
Record shape (w : nat) (st st' : worker) (u u' : state) : Prop := {
  sh_workers : u_workers u' = <[w := st']> (u_workers u);
  sh_phase : u_phase u' = u_phase u;
  sh_given : given_up u -> given_up u';
  sh_recorded : forall ch : ChunkHash, is_Some (u_uploaded u !! ch) -> is_Some (u_uploaded u' !! ch);
  sh_waiting : forall chs, waiting u chs -> waiting u' chs \/ worker_hashes st' = Some chs;
  sh_held : forall chs, worker_hashes st = Some chs -> given_up u' \/ waiting u' chs \/ worker_hashes st' = Some chs \/ recorded_all u' chs;
  sh_done : st' = WDone -> given_up u' \/ queue_empty u';
  sh_empty : queue_empty u -> queue_empty u';
  sh_stage : stage_ok (u_phase u) st';
  sh_work : (rank st' + 13 * length (u_prepareQueue u') + 6 * length (pending u') <
             rank st + 13 * length (u_prepareQueue u) + 6 * length (pending u))%nat;
}.

(** A step that leaves the queues alone. *)
Lemma shape_plain w st st' u u1 :
  u_workers u1 = u_workers u -> u_phase u1 = u_phase u -> u_prepareQueue u1 = u_prepareQueue u -> pending u1 = pending u ->
  u_uploadQueue u1 = u_uploadQueue u -> u_uploaded u1 = u_uploaded u -> (given_up u -> given_up u1) ->
  (worker_hashes st' = worker_hashes st \/ given_up u1) -> (st' = WDone -> given_up u1 \/ queue_empty u) ->
  stage_ok (u_phase u) st' -> (rank st' < rank st)%nat -> shape w st st' u (goto w st' u1).
Proof.
  intros H1 H2 H3 H4 H5 H6 H7 H8 H9 H10 H11.
  assert (pending (goto w st' u1) = pending u) as Hpe by exact H4.
  split; rewrite ?Hpe; cbn [goto set_u_workers u_workers u_phase u_uploaded u_prepareQueue]; try done.
  - by rewrite H1.
  - by rewrite H6.
  - intros chs [[Hp Hq]|Hq]; left; [left; cbn; by rewrite H2, H3|right; by rewrite Hpe].
  - intros chs Hc. destruct H8 as [H8|H8]; [right; right; left; congruence|by left].
  - intros [Hd|Hd]%H9; [by left|right]. unfold queue_empty in *. cbn. by rewrite H2, H3, H5.
  - unfold queue_empty. cbn. by rewrite H2, H3, H5.
  - rewrite H3. lia.
Qed.

Lemma failed_given w e u : given_up (failed w e u).
Proof. unfold given_up, failed, outcome. destruct (u_firstErr u) eqn:E; cbn; by rewrite ?E. Qed.

Lemma shape_failed w st u u1 e :
  u_workers u1 = u_workers u -> u_phase u1 = u_phase u -> u_prepareQueue u1 = u_prepareQueue u -> pending u1 = pending u ->
  u_uploadQueue u1 = u_uploadQueue u -> u_uploaded u1 = u_uploaded u -> (0 < rank st)%nat -> shape w st WDone u (failed w e u1).
Proof.
  intros H1 H2 H3 H4 H5 H6 H7. pose proof (failed_given w e u1) as Hg. unfold failed in *.
  set (u2 := match u_firstErr u1 with Some _ => u1 | None => _ end) in *.
  assert (u_workers u2 = u_workers u1 /\ u_phase u2 = u_phase u1 /\ u_prepareQueue u2 = u_prepareQueue u1 /\ pending u2 = pending u1 /\
    u_uploadQueue u2 = u_uploadQueue u1 /\ u_uploaded u2 = u_uploaded u1) as (E1 & E2 & E3 & E4 & E5 & E6) by (subst u2; by destruct (u_firstErr u1)).
  assert (given_up u2) as Hg2 by exact Hg.
  apply shape_plain; try congruence; try done; [by right|by left].
Qed.

Ltac shape_plain := apply shape_plain; try done; try (by left); try (by right); try (intros _; by left); try (cbn; lia).
Ltac shape_failed := exists WDone; split; [done|]; apply shape_failed; try done; cbn; lia.

Lemma shape_take w u f u' : u_workers u !! w = Some WTake -> turn srcs removable w f u = Some u' -> exists st', shape w WTake st' u u'.
Proof.
  intros Hw. unfold turn. rewrite Hw. destruct (u_phase u) eqn:Hph; [| |done].
  - destruct (u_prepareQueue u) as [|g gs] eqn:Eq; intros [= <-].
    + exists WDone. apply shape_plain; try done; [by left|right; unfold queue_empty; by rewrite Hph|cbn; lia].
    + exists (WGroup g). split; try done; cbn [goto set_u_workers set_u_prepareQueue u_prepareQueue].
      * intros chs [[_ Hq]|Hq]; [|left; by right]. rewrite Eq in Hq. cbn [map] in Hq. apply elem_of_cons in Hq as [->|Hq]; [by right|left; left; done].
      * unfold queue_empty. rewrite Hph, Eq. done.
      * change (pending (goto _ _ _)) with (pending u). rewrite Eq. cbn [length rank]. lia.
  - destruct (u_uploadQueue u) as [|x xs] eqn:Eq; intros [= <-].
    + exists WDone. apply shape_plain; try done; [by left|right; unfold queue_empty; by rewrite Hph|cbn; lia].
    + assert (pending u = x :: xs) as Hpe by (unfold pending; by rewrite Hph). exists (WItem x).
      assert (pending (goto w (WItem x) (set_u_uploadQueue xs u)) = xs) as Hpe' by (unfold pending; cbn; by rewrite Hph).
      split; try done; rewrite ?Hpe, ?Hpe'.
      * intros chs [[Hp _]|Hq]; [congruence|]. rewrite Hpe in Hq. cbn [map] in Hq.
        apply elem_of_cons in Hq as [->|Hq]; [by right|left; right; by rewrite Hpe'].
      * unfold queue_empty. rewrite Hph, Eq. done.
      * cbn [length rank goto set_u_workers set_u_uploadQueue u_prepareQueue]. lia.
Qed.

Lemma request_plain {A} f (m : prog S A) u r u1 : request_remote f m u = (r, u1) -> exists s1, u1 = set_u_remote s1 u.
Proof.
  unfold request_remote. destruct f as [|e|e]; [destruct (m (u_remote u)) as [r0 s0]|..]; intros [= <- <-]; eauto.
  exists (u_remote u). by destruct u.
Qed.

Lemma turn_shape w f u u' : in_phase u -> turn srcs removable w f u = Some u' ->
  exists st st', u_workers u !! w = Some st /\ shape w st st' u u'.
Proof.
  intros Hin Ht. destruct (u_workers u !! w) as [st|] eqn:Hw; [|unfold turn in Ht; by rewrite Hw in Ht]. exists st.
  pose proof (Hin _ _ Hw) as Hph. destruct st as [|g|g|g path|g path h|g path h size|g path h size|x|x|x data|h chs d|];
    [destruct (shape_take w u f u' Hw Ht) as [st' Hs]; by exists st'|unfold turn in Ht; rewrite Hw in Ht..]; cbn [in_phase] in Hph.
  - injection Ht as <-. destruct (u_cancelled u) eqn:Ec.
    + assert (given_up u) as Hg by (unfold given_up, outcome; rewrite Ec; by destruct (u_firstErr u)).
      exists WDone. split; [done|]. shape_plain.
    + exists (WCreate g). split; [done|]. shape_plain.
  - destruct f as [|e|e]; injection Ht as <-; [|shape_failed..].
    exists (WEncode g (u_next u)). split; [done|]. shape_plain.
  - destruct f as [|e|e]; [|injection Ht as <-; shape_failed..].
    destruct (encode_group srcs g) as [[h|e] data]; injection Ht as <-; [|shape_failed].
    exists (WStat g path h). split; [done|]. shape_plain.
  - destruct f as [|e|e]; injection Ht as <-; [|shape_failed..].
    eexists. split; [done|]. shape_plain.
  - destruct f as [|e|e]; injection Ht as <-; [|shape_failed..].
    exists (WHas g path h size). split; [done|]. shape_plain.
  - destruct (request_remote f (ca_HasXorb h) u) as [r u1] eqn:Er. apply request_plain in Er as [s1 ->].
    destruct (remove_same path (set_u_remote s1 u)) as (M1 & M2 & M3 & M4 & M5 & M6 & M7).
    destruct r as [[|]|e]; injection Ht as <-; [..|shape_failed].
    + exists (WRecord h (xg_ChunkHashes g) None). split; [done|]. shape_plain; [unfold remove_file; by destruct (removable path)|].
      unfold given_up. by rewrite M6.
    + exists WTake. split; [done|]. set (x := MkPrepared _ _ _ _). set (u2 := goto _ _ _).
      assert (pending u2 = pending u ++ [x]) as Hpe by (unfold pending; cbn; by rewrite Hph).
      split; try done; rewrite ?Hpe.
      * intros chs [[Hp Hq]|Hq]; left; [by left|right]. rewrite Hpe, map_app. apply elem_of_app. by left.
      * intros chs [= <-]. right. left. right. rewrite Hpe, map_app. apply elem_of_app. right. by apply list_elem_of_singleton.
      * by left.
      * rewrite length_app. cbn. lia.
  - injection Ht as <-. destruct (u_cancelled u) eqn:Ec.
    + assert (given_up u) as Hg by (unfold given_up, outcome; rewrite Ec; by destruct (u_firstErr u)).
      exists WDone. split; [done|]. shape_plain.
    + exists (WOpen x). split; [done|]. shape_plain.
  - destruct f as [|e|e]; [|injection Ht as <-; shape_failed..].
    destruct (u_files u !! pp_path x) as [data|]; injection Ht as <-; [|shape_failed].
    exists (WUpload x data). split; [done|]. shape_plain.
  - destruct (request_remote f _ u) as [r u1] eqn:Er. apply request_plain in Er as [s1 ->].
    destruct (remove_same (pp_path x) (set_u_remote s1 u)) as (M1 & M2 & M3 & M4 & M5 & M6 & M7).
    assert (u_uploadQueue (remove_file removable (pp_path x) (set_u_remote s1 u)) = u_uploadQueue u) as M8
      by (unfold remove_file; by destruct (removable (pp_path x))).
    destruct r as [b|e]; injection Ht as <-; [|shape_failed].
    exists (WRecord (pp_hash x) (pp_chunkHashes x) (Some (pp_size x))). split; [done|]. shape_plain.
    unfold given_up. by rewrite M6.
  - injection Ht as <-. exists WTake. split; [done|]. set (u1 := set_u_uploaded _ u).
    set (u2 := match d with Some _ => _ | None => u1 end).
    assert (u_workers u2 = u_workers u /\ u_phase u2 = u_phase u /\ u_prepareQueue u2 = u_prepareQueue u /\ pending u2 = pending u /\
      u_uploadQueue u2 = u_uploadQueue u /\ outcome u2 = outcome u /\ u_uploaded u2 = record_chunks h chs (u_uploaded u)) as (E1 & E2 & E3 & E4 & E5 & E6 & E7)
      by (subst u2; by destruct d).
    assert (pending (goto w WTake u2) = pending u) as Hpe by exact E4.
    split; try done; rewrite ?Hpe; cbn [goto set_u_workers u_workers u_phase u_uploaded u_prepareQueue].
    + by rewrite E1.
    + unfold given_up. change (outcome (goto w WTake u2)) with (outcome u2). by rewrite E6.
    + intros ch Hch. rewrite E7. by apply record_chunks_mono.
    + intros chs' [[Hp Hq]|Hq]; left; [left; cbn; by rewrite E2, E3|right; by rewrite Hpe].
    + intros chs' [= <-]. right. right. right. intros ch Hch. cbn. rewrite E7. by apply record_chunks_all.
    + unfold queue_empty. cbn. by rewrite E2, E3, E5.
    + rewrite E3. cbn. lia.
  - done.
Qed.

(** ** Every state of a run *)

Definition held (u : state) (chs : list ChunkHash) : Prop :=
  exists w st, u_workers u !! w = Some st /\ worker_hashes st = Some chs.

Definition accounted (u : state) : Prop :=
  match u_phase u with
  | Returned err => err = None -> forall g, g ∈ groups -> recorded_all u (xg_ChunkHashes g)
  | _ =>
      (forall g, g ∈ groups ->
         given_up u \/ waiting u (xg_ChunkHashes g) \/ held u (xg_ChunkHashes g) \/ recorded_all u (xg_ChunkHashes g)) /\
      (forall w, u_workers u !! w = Some WDone -> given_up u \/ queue_empty u)
  end.

Definition cleaned (u : state) : Prop :=
  match u_phase u with
  | Returned _ => forall p, (next0 <= p)%nat -> removable p = true -> u_files u !! p = None
  | _ => True
  end.

Record good (u : state) : Prop := {
  gd_inv : inv u;
  gd_phase : in_phase u;
  gd_accounted : accounted u;
  gd_cleaned : cleaned u;
}.

Lemma not_returned w f u u' : in_phase u -> turn srcs removable w f u = Some u' -> u_phase u = Preparing \/ u_phase u = Uploading.
Proof.
  intros Hin. unfold turn. destruct (u_workers u !! w) as [st|] eqn:Hw; [|done]. pose proof (Hin _ _ Hw) as H.
  destruct st; by auto.
Qed.

Lemma good_turn w f u u' : good u -> turn srcs removable w f u = Some u' -> good u'.
Proof.
  intros [Hi Hin Ha _] Ht. destruct (turn_shape w f u u' Hin Ht) as (st & st' & Hw & Hs).
  pose proof (not_returned w f u u' Hin Ht) as Hnr.
  assert (forall w2 st2, u_workers u' !! w2 = Some st2 -> w2 = w /\ st2 = st' \/ w2 <> w /\ u_workers u !! w2 = Some st2) as Hws.
  { intros w2 st2. rewrite (sh_workers _ _ _ _ _ Hs). intros [(<- & <- & _)|[? ?]]%list_lookup_insert_Some; auto. }
  assert (u_workers u' !! w = Some st') as Hw'.
  { rewrite (sh_workers _ _ _ _ _ Hs). apply list_lookup_insert_eq. by eapply lookup_lt_Some. }
  split; [by eapply inv_turn| | |].
  - intros w2 st2 [[-> ->]|[_ H2]]%Hws; rewrite (sh_phase _ _ _ _ _ Hs); [apply Hs|by apply (Hin w2)].
  - unfold accounted in *. rewrite (sh_phase _ _ _ _ _ Hs).
    assert ((forall g, g ∈ groups -> given_up u' \/ waiting u' (xg_ChunkHashes g) \/ held u' (xg_ChunkHashes g) \/ recorded_all u' (xg_ChunkHashes g)) /\
      (forall w, u_workers u' !! w = Some WDone -> given_up u' \/ queue_empty u')) as [H1 H2].
    { assert ((forall g, g ∈ groups -> given_up u \/ waiting u (xg_ChunkHashes g) \/ held u (xg_ChunkHashes g) \/ recorded_all u (xg_ChunkHashes g)) /\
        (forall w, u_workers u !! w = Some WDone -> given_up u \/ queue_empty u)) as [A1 A2] by (by destruct Hnr as [Hnr|Hnr]; rewrite Hnr in Ha).
      split.
      - intros g Hg. destruct (A1 g Hg) as [Hu|[Hu|[(w2 & st2 & Hw2 & Hh)|Hu]]].
        + left. by apply Hs.
        + destruct (sh_waiting _ _ _ _ _ Hs _ Hu) as [?|?]; [auto|]. right. right. left. by exists w, st'.
        + destruct (decide (w2 = w)) as [->|Hne].
          * rewrite Hw in Hw2. injection Hw2 as <-. destruct (sh_held _ _ _ _ _ Hs _ Hh) as [?|[?|[?|?]]]; auto.
            right. right. left. by exists w, st'.
          * right. right. left. exists w2, st2. split; [|done]. rewrite (sh_workers _ _ _ _ _ Hs). by rewrite list_lookup_insert_ne.
        + right. right. right. intros ch Hch. apply Hs. by apply Hu.
      - intros w2 [[-> Hd]|[_ Hw2]]%Hws; [by apply Hs|]. destruct (A2 w2 Hw2) as [?|?]; [left|right]; by apply Hs. }
    by destruct Hnr as [-> | ->].
  - unfold cleaned. rewrite (sh_phase _ _ _ _ _ Hs). by destruct Hnr as [-> | ->].
Qed.

(** *** The caller *)

Lemma remove_all (u : state) paths :
  let u' := foldl (fun u path => remove_file removable path u) u paths in
  u_workers u' = u_workers u /\ u_uploaded u' = u_uploaded u /\ u_remote u' = u_remote u /\ u_next u' = u_next u /\
  u_staged u' = u_staged u /\ u_prepareQueue u' = u_prepareQueue u /\ outcome u' = outcome u /\
  (forall p, p ∉ paths -> u_files u' !! p = u_files u !! p) /\
  (forall p, is_Some (u_files u' !! p) -> is_Some (u_files u !! p)) /\
  (forall p, p ∈ paths -> removable p = true -> u_files u' !! p = None).
Proof.
  revert u. induction paths as [|q paths IH]; intros u; cbn zeta; cbn [foldl].
  { repeat (split; [done|]). by intros p Hp%elem_of_nil. }
  destruct (IH (remove_file removable q u)) as (I1 & I2 & I3 & I4 & I5 & I6 & I7 & I8 & I9 & I10). cbn zeta in *.
  set (u' := foldl _ _ _) in *. clearbody u'. destruct (remove_same q u) as (_ & R2 & R3 & R4 & _ & R6 & R7).
  assert (u_next (remove_file removable q u) = u_next u /\ u_staged (remove_file removable q u) = u_staged u /\
    (forall p, p <> q -> u_files (remove_file removable q u) !! p = u_files u !! p) /\
    (forall p, is_Some (u_files (remove_file removable q u) !! p) -> is_Some (u_files u !! p)) /\
    (removable q = true -> u_files (remove_file removable q u) !! q = None)) as (N1 & N2 & N3 & N4 & N5).
  { unfold remove_file. destruct (removable q); [|done]. cbn. split; [done|]. split; [done|]. split; [intros p Hne; by rewrite lookup_delete_ne|].
    split; [|by rewrite lookup_delete_eq]. intros p [_ ?]%lookup_delete_is_Some. done. }
  rewrite I1, I2, I3, I4, I5, I6, I7. repeat (split; [done|]). split; [|split].
  - intros p [Hne Hp]%not_elem_of_cons. by rewrite I8, N3.
  - intros p Hp%I9. by apply N4.
  - intros p [->|Hp]%elem_of_cons Hr; [|by apply I10]. destruct (decide (q ∈ paths)) as [Hin|Hin]; [by apply I10|].
    rewrite I8 by done. by apply N5.
Qed.

Lemma all_done_spec (u : state) : all_done u = true -> forall w st, u_workers u !! w = Some st -> st = WDone.
Proof.
  unfold all_done. rewrite forallb_forall. intros Hd w st Hw. specialize (Hd st). apply list_elem_of_lookup_2, list_elem_of_In in Hw.
  specialize (Hd Hw). by destruct st.
Qed.

Lemma good_return u : good u -> all_done u = true -> u_phase u = Preparing \/ u_phase u = Uploading ->
  (outcome u = None -> u_phase u = Uploading) -> good (return_ removable u).
Proof.
  intros [Hi Hin Ha _] Hd Hph Hout. pose proof (all_done_spec u Hd) as Hdone.
  destruct (remove_all u (u_staged u)) as (I1 & I2 & I3 & I4 & I5 & I6 & I7 & I8 & I9 & I10). cbn zeta in *. unfold return_.
  set (u1 := foldl _ u (u_staged u)) in *. clearbody u1.
  assert (forall w st, u_workers u1 !! w = Some st -> st = WDone) as Hdone1 by (rewrite I1; apply Hdone).
  split.
  - split; cbn [set_u_phase u_workers u_prepareQueue u_next u_staged u_files].
    + by intros w st ->%Hdone1.
    + by intros x ?%elem_of_nil.
    + rewrite I6. apply Hi.
    + by intros w w' st st' p ->%Hdone1.
    + by intros w st x ->%Hdone1.
    + constructor.
    + by intros w st p ->%Hdone1.
    + by intros x ?%elem_of_nil.
    + intros p Hp Hx%I9. rewrite I5. by apply Hi.
    + rewrite I5. apply Hi.
    + rewrite I4. split; [exact (proj1 (iv_next _ Hi))|]. intros p Hx. apply (proj2 (iv_next _ Hi)). by apply I9.
    + intros p Hp. rewrite I8; [by apply Hi|]. intros Hx%(iv_staged' _ Hi). lia.
    + apply (located_mono u); [exact I2|cbn; by rewrite I3|apply Hi].
    + rewrite I1. apply Hi.
  - by intros w st ->%Hdone1.
  - unfold accounted. cbn. intros Hnone g Hg. specialize (Hout Hnone). unfold accounted in Ha. rewrite Hout in Ha. destruct Ha as [A1 A2].
    intros ch Hch. cbn. rewrite I2. destruct (A1 g Hg) as [Hgu|[[[? _]|Hw]|[(w & st & Hw & Hh)|Hr]]].
    + by destruct Hgu.
    + congruence.
    + destruct (lookup_lt_is_Some_2 (u_workers u) 0) as [st0 H0]; [pose proof (iv_some _ Hi); destruct (u_workers u); [done|cbn; lia]|].
      pose proof (Hdone O st0 H0) as ->. destruct (A2 O H0) as [Hgu|He]; [by destruct Hgu|].
      unfold queue_empty in He. rewrite Hout in He. unfold pending in Hw. rewrite Hout, He in Hw.
      by apply elem_of_nil in Hw.
    + apply Hdone in Hw. by subst.
    + by apply Hr.
  - unfold cleaned. cbn. intros p Hp Hr. destruct (decide (p ∈ u_staged u)) as [Hin'|Hnin]; [by apply I10|].
    destruct (u_files u1 !! p) as [d|] eqn:Ef; [|done]. exfalso. apply Hnin. apply Hi; [done|]. apply I9. by eexists.
Qed.

Lemma good_uploading u :
  good u -> all_done u = true -> u_phase u = Preparing -> outcome u = None -> forall pr,
  good (set_u_phase Uploading (set_u_uploadQueue (u_prepared u) (set_u_progress pr (set_u_workers (map (fun _ => WTake) (u_workers u)) u)))).
Proof.
  intros [Hi Hin Ha _] Hd Hph Hout pr. pose proof (all_done_spec u Hd) as Hdone. set (u1 := set_u_phase _ _).
  assert (pending u1 = pending u) as Hpe by (unfold pending; cbn; by rewrite Hph).
  assert (forall w st, u_workers u1 !! w = Some st -> st = WTake) as Hw1.
  { intros w st. cbn. rewrite list_lookup_fmap. destruct (u_workers u !! w); cbn; [by intros [= <-]|done]. }
  split.
  - split; rewrite ?Hpe.
    + by intros w st ->%Hw1.
    + intros x Hx. eapply item_ok_frame; [|by apply Hi]. done.
    + apply Hi.
    + by intros w w' st st' p ->%Hw1.
    + by intros w st x ->%Hw1.
    + apply Hi.
    + by intros w st p ->%Hw1.
    + apply Hi.
    + apply Hi.
    + apply Hi.
    + apply Hi.
    + apply Hi.
    + exact (iv_located _ Hi).
    + cbn. pose proof (iv_some _ Hi). by destruct (u_workers u).
  - intros w st ->%Hw1. by right.
  - unfold accounted in Ha |- *. rewrite Hph in Ha. destruct Ha as [A1 A2]. change (u_phase u1) with Uploading. cbn iota. split; [|by intros w ?%Hw1].
    intros g Hg. destruct (A1 g Hg) as [Hgu|[[[_ Hq]|Hq]|[(w & st & Hw & Hh)|Hr]]].
    + by left.
    + destruct (lookup_lt_is_Some_2 (u_workers u) 0) as [st0 H0]; [pose proof (iv_some _ Hi); destruct (u_workers u); [done|cbn; lia]|].
      pose proof (Hdone O st0 H0) as ->. destruct (A2 O H0) as [Hgu|He]; [by destruct Hgu|].
      unfold queue_empty in He. rewrite Hph in He. rewrite He in Hq. by apply elem_of_nil in Hq.
    + right. left. right. by rewrite Hpe.
    + apply Hdone in Hw. by subst.
    + by right; right; right.
  - done.
Qed.

Lemma good_main u u' : good u -> main_turn removable u = Some u' -> good u'.
Proof.
  intros Hg. unfold main_turn. destruct (all_done u) eqn:Hd; [|done]. cbn [negb]. destruct (u_phase u) eqn:Hph; [| |done].
  - destruct (outcome u) eqn:Ho; intros [= <-]; [apply good_return; auto; congruence|by apply good_uploading].
  - intros [= <-]. apply good_return; auto.
Qed.

Lemma good_outside u u' :
  good u -> (u' = set_u_cancelled true u \/ exists s, elsewhere (u_remote u) s /\ u' = set_u_remote s u) -> good u'.
Proof.
  intros [Hi Hin Ha Hcl] Hu.
  assert (u_workers u' = u_workers u /\ u_phase u' = u_phase u /\ u_prepareQueue u' = u_prepareQueue u /\ u_uploadQueue u' = u_uploadQueue u /\
    u_prepared u' = u_prepared u /\ u_staged u' = u_staged u /\ u_files u' = u_files u /\ u_next u' = u_next u /\ u_uploaded u' = u_uploaded u /\
    (given_up u -> given_up u') /\ (forall h, stored (u_remote u) h -> stored (u_remote u') h)) as (E1 & E2 & E3 & E4 & E5 & E6 & E7 & E8 & E9 & E10 & E11).
  { destruct Hu as [-> |(s & He & ->)]; [|repeat (split; [done|]); intros h; by eapply elsewhere_keeps].
    repeat (split; [done|]). split; [|done]. unfold given_up, outcome. cbn. by destruct (u_firstErr u). }
  assert (pending u' = pending u) as Hpe by (unfold pending; by rewrite E2, E4, E5). split.
  - destruct Hi. split; rewrite ?Hpe, ?E1, ?E3, ?E6, ?E7, ?E8; try done.
    + intros w st Hw. eapply (worker_ok_frame u); [intros p _; by rewrite E7|done|by eapply iv_worker0].
    + intros x Hx. eapply (item_ok_frame u); [by rewrite E7|by apply iv_item0].
    + by apply (located_mono u).
  - unfold in_phase. by rewrite E1, E2.
  - unfold accounted in *. rewrite E2. unfold recorded_all, held, waiting, queue_empty in *. rewrite E1, E2, E3, E4, E9, Hpe.
    destruct (u_phase u); [..|done].
    + destruct Ha as [A1 A2]. split; [intros g Hg; destruct (A1 g Hg) as [?|?]; auto|intros w Hw; destruct (A2 w Hw) as [?|?]; auto].
    + destruct Ha as [A1 A2]. split; [intros g Hg; destruct (A1 g Hg) as [?|?]; auto|intros w Hw; destruct (A2 w Hw) as [?|?]; auto].
  - unfold cleaned in *. by rewrite E2, E7.
Qed.

Lemma good_start concurrency s : groups <> [] -> good (ustart groups concurrency files0 next0 s).
Proof.
  intros Hne. set (u := ustart _ _ _ _ _).
  assert (forall w st, u_workers u !! w = Some st -> st = WTake) as Hw by (intros w st [-> _]%lookup_replicate; done).
  assert (u_workers u <> []) as Hsome.
  { cbn. unfold concurrent. assert (0 < len groups) by (destruct groups; [done|]; rewrite len_cons; pose proof (len_nonneg l); lia).
    destruct (Z.to_nat _) eqn:E; [|done]. repeat case_match; lia. }
  split.
  - split; try done.
    + by intros w st ->%Hw.
    + by intros x ?%elem_of_nil.
    + by intros w w' st st' p ->%Hw.
    + by intros w st x ->%Hw.
    + constructor.
    + by intros w st p ->%Hw.
    + by intros x ?%elem_of_nil.
    + intros p Hp Hx%files_below. lia.
    + by intros p ?%elem_of_nil.
  - intros w st ->%Hw. by left.
  - split; [|by intros w ?%Hw]. intros g Hg. right. left. left. split; [done|]. apply list_elem_of_fmap. by exists g.
  - done.
Qed.

Lemma good_reachable concurrency s u :
  groups <> [] -> rtc (ustep srcs removable elsewhere) (ustart groups concurrency files0 next0 s) u -> good u.
Proof.
  intros Hne Hr. pose proof (good_start concurrency s Hne) as Hg. induction Hr as [|u u1 u2 Hs _ IH]; [done|]. apply IH.
  destruct Hs as [w f u u' Ht|u u' Ht|u|u s' He]; [by eapply good_turn|by eapply good_main|apply (good_outside u); auto|apply (good_outside u); eauto].
Qed.

(** ** Every step counts *)

Lemma sum_rank_insert (ws : list worker) w st st' :
  ws !! w = Some st -> (sum_list_with rank (<[w := st']> ws) + rank st = sum_list_with rank ws + rank st')%nat.
Proof.
  revert w. induction ws as [|a ws IH]; intros [|w]; [done|done|intros [= ->]; cbn; lia|]. intros Hw. specialize (IH w Hw).
  change (<[Datatypes.S w := st']> (a :: ws)) with (a :: <[w := st']> ws). cbn [sum_list_with]. lia.
Qed.

Lemma work_turn w f u u' : in_phase u -> turn srcs removable w f u = Some u' -> (work u' < work u)%nat.
Proof.
  intros Hin Ht. destruct (turn_shape w f u u' Hin Ht) as (st & st' & Hw & Hs). pose proof (sh_work _ _ _ _ _ Hs).
  pose proof (sum_rank_insert _ w st st' Hw). unfold work, phase_weight. rewrite (sh_phase _ _ _ _ _ Hs), (sh_workers _ _ _ _ _ Hs), length_insert. lia.
Qed.

Lemma work_main u u' : main_turn removable u = Some u' -> (work u' < work u)%nat.
Proof.
  unfold main_turn. destruct (all_done u) eqn:Hd; [|done]. cbn [negb].
  assert (sum_list_with rank (u_workers u) = 0%nat) as Hz.
  { unfold all_done in Hd. induction (u_workers u) as [|st ws IH]; [done|]. cbn in *. destruct st; cbn in *; try done. by apply IH. }
  assert (u_phase u = Preparing \/ u_phase u = Uploading -> (work (return_ removable u) < work u)%nat) as Hret.
  { intros Hph. destruct (remove_all u (u_staged u)) as (I1 & _ & _ & _ & _ & I6 & _). cbn zeta in *. unfold work, phase_weight, return_.
    cbn [set_u_phase u_phase u_workers u_prepareQueue pending length]. rewrite I1, I6. destruct Hph as [-> | ->]; lia. }
  destruct (u_phase u) eqn:Hph; [| |done].
  - destruct (outcome u); intros [= <-]; [by apply Hret; left|]. unfold work, phase_weight, pending.
    cbn [set_u_phase set_u_uploadQueue set_u_progress set_u_workers u_phase u_workers u_prepareQueue u_uploadQueue]. rewrite Hph, Hz.
    assert (sum_list_with rank (map (fun _ => WTake) (u_workers u)) = length (u_workers u)) as ->
      by (clear; induction (u_workers u) as [|a l IH]; cbn; [done|by rewrite IH]). lia.
  - intros [= <-]. by apply Hret; right.
Qed.

(** A run with [n] steps of the goroutines and the caller. *)
Inductive usteps : nat -> state -> state -> Prop :=
  | us_stop u : usteps 0 u u
  | us_own n u u1 u2 : (exists w f, turn srcs removable w f u = Some u1) \/ main_turn removable u = Some u1 ->
      usteps n u1 u2 -> usteps (Datatypes.S n) u u2
  | us_outside n u u1 u2 : u1 = set_u_cancelled true u \/ (exists s, elsewhere (u_remote u) s /\ u1 = set_u_remote s u) ->
      usteps n u1 u2 -> usteps n u u2.

Lemma usteps_work n u u' : good u -> usteps n u u' -> good u' /\ (n + work u' <= work u)%nat.
Proof.
  intros Hg Hr. induction Hr as [|n u u1 u2 Hs _ IH|n u u1 u2 Hs _ IH]; [split; [done|lia]|..].
  - assert (good u1 /\ (work u1 < work u)%nat) as [Hg1 Hlt].
    { destruct Hs as [(w & f & Ht)|Ht]; [split; [by eapply good_turn|eapply work_turn; [apply Hg|done]]|split; [by eapply good_main|by apply work_main]]. }
    destruct (IH Hg1) as [? ?]. split; [done|lia].
  - assert (work u1 = work u) as Hw by (destruct Hs as [-> |(s & _ & ->)]; done). rewrite <- Hw. apply IH. by apply (good_outside u).
Qed.

(** Someone can always go on. *)
Lemma someone_moves u : in_phase u ->
  (exists err, u_phase u = Returned err) \/ (exists w, forall f, exists u', turn srcs removable w f u = Some u') \/ (exists u', main_turn removable u = Some u').
Proof.
  intros Hin. destruct (all_done u) eqn:Hd.
  - unfold main_turn. rewrite Hd. cbn [negb]. destruct (u_phase u) as [| |err]; [right; right..|left; by exists err].
    + destruct (outcome u); by eexists.
    + by eexists.
  - right. left. unfold all_done in Hd.
    assert (exists w st, u_workers u !! w = Some st /\ st <> WDone) as (w & st & Hw & Hne).
    { clear Hin. induction (u_workers u) as [|st ws IH]; [done|]. assert (st = WDone \/ st <> WDone) as [->|Hne] by (destruct st; auto); [|by exists O, st].
      destruct (IH Hd) as (w & st & ? & ?). by exists (Datatypes.S w), st. }
    exists w. intros f. pose proof (Hin _ _ Hw) as Hph. unfold turn. rewrite Hw. destruct st; try (by destruct Hne); try (by eexists).
    + destruct Hph as [-> | ->]; case_match; by eexists.
    + destruct f; by eexists.
    + destruct f; [destruct (encode_group srcs g) as [[?|?] ?]|..]; by eexists.
    + destruct f; by eexists.
    + destruct f; by eexists.
    + destruct (request_remote _ _ _) as [[[|]|?] ?]; by eexists.
    + destruct f; [destruct (u_files u !! pp_path x)|..]; by eexists.
    + destruct (request_remote _ _ _) as [[?|?] ?]; by eexists.
Qed.

(** ** What a staging file holds *)

Context {LL : Lz4Laws L}.

Lemma encode_chunks_spec cs ds0 enc :
  within_limits ds0 -> encode_chunks srcs cs (enc_after [] true nonce0 ds0) = (None, enc) ->
  exists ds, Forall2 (fun c d => readAt srcs c = Ok d) cs ds /\ within_limits (ds0 ++ ds) /\ enc = enc_after [] true nonce0 (ds0 ++ ds).
Proof.
  revert ds0. induction cs as [|c cs IH]; intros ds0 Hl; cbn [encode_chunks].
  { intros [= <-]. exists []. rewrite app_nil_r. by split_and!. }
  destruct (readAt srcs c) as [d|] eqn:Er; [|done]. rewrite Encoder_Write_spec by done. case_bool_decide as Hl'; [|unfold enc_fail; done].
  intros (ds & H1 & H2 & H3)%IH; [|done]. exists (d :: ds). rewrite <- app_assoc in H2, H3. split_and!; [by constructor|done|done].
Qed.

Lemma encode_group_spec g h data :
  encode_group srcs g = (Ok h, data) ->
  exists ds, Forall2 (fun c d => readAt srcs c = Ok d) (xg_Chunks g) ds /\ within_limits ds /\
    ComputeXorbHash (map ComputeChunkHash ds) (map len ds) = Ok h /\ data = xorb_bytes true nonce0 h ds.
Proof.
  unfold encode_group. rewrite <- enc_after_nil. change (to_arr 4 []) with nonce0.
  destruct (encode_chunks srcs (xg_Chunks g) (enc_after [] true nonce0 [])) as [[e|] enc] eqn:Ee; [done|].
  apply encode_chunks_spec in Ee as (ds & Hr & Hl & ->); [|split; [constructor|]; split; vm_compute; discriminate]. cbn [app] in *.
  unfold Encoder_Close, writeFooter, Encoder_SummoryHash. cbn [enc_after e_err e_finalized set_finalized e_withFooter e_xorbHash e_chunkHashes e_chunkSizes].
  destruct (ComputeXorbHash (map ComputeChunkHash ds) (map len ds)) as [h'|e] eqn:Eh; [|done].
  intros [= <- <-]. exists ds. split; [done|]. split; [done|]. split; [done|]. done.
Qed.

(** C12: what [uploadXorbs] leaves when it returns.  However the goroutines are
    scheduled, whichever files, requests and answers are lost, with a
    cancellation at any time and other clients at work: a location it recorded
    names a xorb that the remote has, made of the chunks read for a group, with
    the chunk's hash at that place of the group; if it reports no error, every
    chunk of every group has a location; and of the staging directory nothing
    remains that was not there before, unless it could not be removed, and
    what was there is untouched. *)
Theorem uploads_complete concurrency s u err :
  groups <> [] -> rtc (ustep srcs removable elsewhere) (ustart groups concurrency files0 next0 s) u -> u_phase u = Returned err ->
  (forall (ch : ChunkHash) loc, u_uploaded u !! ch = Some loc ->
     stored (u_remote u) (cl_XorbHash loc) /\
     exists g ds, g ∈ groups /\ Forall2 (fun c d => readAt srcs c = Ok d) (xg_Chunks g) ds /\
       ComputeXorbHash (map ComputeChunkHash ds) (map len ds) = Ok (cl_XorbHash loc) /\
       0 <= cl_ChunkIndex loc /\ xg_ChunkHashes g !! Z.to_nat (cl_ChunkIndex loc) = Some ch) /\
  (err = None -> forall g ch, g ∈ groups -> ch ∈ xg_ChunkHashes g -> is_Some (u_uploaded u !! ch)) /\
  (forall p, (p < next0)%nat -> u_files u !! p = files0 !! p) /\
  (forall p, (next0 <= p)%nat -> removable p = true -> u_files u !! p = None).
Proof.
  intros Hne Hr Hph. destruct (good_reachable concurrency s u Hne Hr) as [Hi _ Ha Hc]. unfold accounted, cleaned in *. rewrite Hph in Ha, Hc.
  split; [|split; [|split; [apply Hi|exact Hc]]].
  - intros ch loc Hx. destruct (iv_located _ Hi ch loc Hx) as (Hs & g & data & Hg & He & H0 & Hch). split; [done|].
    destruct (encode_group_spec g _ _ He) as (ds & Hd & _ & Hh & _). by exists g, ds.
  - intros Hnone g ch Hg Hch. by apply (Ha Hnone g Hg).
Qed.

(** C13: [uploadXorbs] returns.  At every point of a run it has returned or
    someone can go on, whatever the outcome of its next system call or request;
    and no run has more than [13 * groups + 2 * goroutines + 2] steps of the
    goroutines and their caller. *)
Theorem uploads_end concurrency s n u :
  groups <> [] -> usteps n (ustart groups concurrency files0 next0 s) u ->
  ((exists err, u_phase u = Returned err) \/ (exists w, forall f, exists u', turn srcs removable w f u = Some u') \/
   (exists u', main_turn removable u = Some u')) /\
  Z.of_nat n <= 13 * len groups + 2 * concurrent concurrency groups + 2.
Proof.
  intros Hne Hr. destruct (usteps_work n _ u (good_start concurrency s Hne) Hr) as [Hg Hn]. split; [apply someone_moves, Hg|].
  unfold work, phase_weight, ustart, pending in Hn. cbn [u_phase u_workers u_prepareQueue u_prepared length] in Hn.
  assert (sum_list_with rank (replicate (Z.to_nat (concurrent concurrency groups)) WTake) = Z.to_nat (concurrent concurrency groups)) as Hsum
    by (clear Hn; induction (Z.to_nat (concurrent concurrency groups)) as [|k IH]; cbn; [done|by rewrite IH]).
  rewrite length_replicate, Hsum in Hn. assert (0 <= concurrent concurrency groups)
    by (unfold concurrent; pose proof (len_nonneg groups); destruct (concurrency <=? 0) eqn:?; destruct (_ <? _) eqn:?; lia).
  unfold len. lia.
Qed.
End invariant.
