(* ===== verification/UploadRun.v ===== *)
(** * An upload describes its files

    The composition of [UploadFiles]: chunking over all files, the location of
    the chunks by the remote or in the xorbs that are uploaded, and the shard.
    [upload_describes]: the shard of an upload that succeeds has, for every
    file, its hash and terms that name, chunk for chunk, places where the
    remote has the chunk. *)

From Stdlib Require Import ZArith Lia Strings.Byte Strings.String.
From S2P Require Import Prelude Hash Sha256 Gearhash Merkle ByteGrouping Compression XorbEncoder XorbDecoder.
From S2P Require Import XorbOffsets Shard ShardBuild ShardCodec ShardFits Prog Storage PutShard Memory MemoryPut PutFile Upload UploadProofs.

(** A reader whose pieces are its bytes from its position on. *)
Definition source_ok (src : source) : Prop :=
  0 <= so_pos src <= len (so_data src) /\ len (so_data src) < 2 ^ 62 /\ concat (so_pieces src) = drop (Z.to_nat (so_pos src)) (so_data src).

(** The bytes that are uploaded. *)
Definition uploads (src : source) : list byte := drop (Z.to_nat (so_pos src)) (so_data src).

(** How many chunks the sources have. *)
Definition chunk_count (srcs : list source) : Z := len (concat (map (fun src => chunks (uploads src)) srcs)).

Section scanning.
Context {B3 : Blake3} (srcs : list source).

(** A chunk that can be read again, with its hash. *)
Definition chunk_true (c : chunkInfo) : Prop :=
  exists d, readAt srcs (ui_Chunk c) = Ok d /\ ComputeChunkHash d = ui_Hash c /\ ck_Size (ui_Chunk c) = len d /\ is_u32 (len d).

Record scan_ok (st : ustates) : Prop := {
  sk_true : Forall chunk_true (us_allChunks st);
  sk_index : forall (h : ChunkHash) i, us_chunkIndex st !! h = Some i ->
    0 <= i /\ exists c, us_allChunks st !! Z.to_nat i = Some c /\ ui_Hash c = h;
  sk_known : forall c, c ∈ us_allChunks st -> is_Some (us_chunkIndex st !! ui_Hash c);
  sk_unique : NoDup (map ui_Hash (us_allChunks st));
}.

(** The indices of the file at hand select chunks with its hashes. *)
Definition chosen (all : list chunkInfo) (indices : list Z) (cs : list (list byte)) : Prop :=
  Forall2 (fun i d => 0 <= i /\ exists c, all !! Z.to_nat i = Some c /\ ui_Hash c = ComputeChunkHash d) indices cs.

Lemma chosen_more all more indices cs : chosen all indices cs -> chosen (all ++ more) indices cs.
Proof.
  intros H. eapply Forall2_impl; [exact H|]. intros i d (Hi & c & Hc & Hh). split; [done|]. exists c. split; [by apply lookup_app_l_Some|done].
Qed.

Record file_ok_at (pre : list (list byte)) (st : ustates) : Prop := {
  fa_hashes : us_chunkHashes st = map ComputeChunkHash pre;
  fa_sizes : us_chunkSizes st = map len pre;
  fa_chosen : chosen (us_allChunks st) (us_ChunkIndices st) pre;
}.

(** A chunk of the source lies where the scan says. *)
Lemma read_source k src pre c post :
  srcs !! k = Some src -> source_ok src -> uploads src = concat pre ++ c ++ post -> 0 < len c <= MaxChunkSize ->
  readAt srcs (MkChunk k (i64 (so_pos src + len (concat pre))) (u32 (len c))) = Ok c.
Proof.
  intros Hk (Hpos & Hlen & _) Hup Hc. unfold readAt. cbn [ck_Reader ck_Offset ck_Size].
  assert (so_pos src + len (concat pre) + len c <= len (so_data src)) as Hle.
  { apply (f_equal len) in Hup. unfold uploads in Hup. rewrite !len_app in Hup. unfold len in *. rewrite length_drop in Hup. lia. }
  pose proof (len_nonneg (concat pre)). unfold MaxChunkSize in Hc.
  rewrite u32_small by (unfold is_u32; lia). rewrite i64_small by (unfold is_i64; lia).
  rewrite (proj2 (Z.ltb_ge _ _)) by (unfold maxChunkSize; lia). rewrite (proj2 (Z.ltb_ge _ _)) by lia.
  rewrite Hk. cbn [fmap option_fmap option_map default from_option id]. unfold read_at.
  replace (drop (Z.to_nat (so_pos src + len (concat pre))) (so_data src)) with (c ++ post).
  - unfold file_reader. by rewrite (ReadFull_app c post EOF).
  - rewrite Z2Nat.inj_add, <- drop_drop by lia. change (drop (Z.to_nat (so_pos src)) (so_data src)) with (uploads src). rewrite Hup.
    unfold len. rewrite Nat2Z.id. by rewrite drop_app_length.
Qed.

Lemma scan_step k src st pre c post :
  srcs !! k = Some src -> source_ok src -> uploads src = concat pre ++ c ++ post -> 0 < len c <= MaxChunkSize ->
  scan_ok st -> file_ok_at pre st ->
  exists st' more, scan_upload k (so_pos src) st (len (concat pre)) c = Ok st' /\ scan_ok st' /\ file_ok_at (pre ++ [c]) st' /\
    us_allChunks st' = us_allChunks st ++ more /\ (length more <= 1)%nat.
Proof.
  intros Hk Hsrc Hup Hc [T1 T2 T3 T4] [F1 F2 F3]. unfold scan_upload. destruct (us_chunkIndex st !! ComputeChunkHash c) as [i|] eqn:Ei.
  - eexists _, []. split; [reflexivity|]. cbn [us_allChunks]. rewrite app_nil_r. split; [by split|]. split; [|split; [done|cbn; lia]].
    split; cbn; rewrite ?map_app, ?F1, ?F2; [done|done|]. apply Forall2_app; [done|]. constructor; [|constructor]. by apply T2.
  - eexists _, [_]. split; [reflexivity|]. cbn [us_allChunks]. split; [|split; [|done]].
    + split; cbn [us_allChunks us_chunkIndex].
      * rewrite Forall_app, Forall_singleton. split; [done|]. exists c. cbn [ui_Chunk ui_Hash ck_Size]. unfold MaxChunkSize in Hc.
        split; [by eapply read_source|]. split; [done|]. rewrite u32_small by (unfold is_u32; lia). split; [done|]. unfold is_u32; lia.
      * intros h i [[<- <-]|[_ Hi]]%lookup_insert_Some.
        -- pose proof (len_nonneg (us_allChunks st)). split; [done|]. eexists. split; [unfold len; rewrite Nat2Z.id, lookup_app_r, Nat.sub_diag by lia; reflexivity|done].
        -- destruct (T2 h i Hi) as (H0 & c' & Hc' & Hh). split; [done|]. exists c'. split; [by apply lookup_app_l_Some|done].
      * intros c' [Hin|Hin%list_elem_of_singleton]%elem_of_app; apply lookup_insert_is_Some'; [right; by apply T3|left; by subst c'].
      * rewrite map_app. apply NoDup_app. split; [done|]. split; [|apply NoDup_singleton]. intros h Hin ->%list_elem_of_singleton.
        apply list_elem_of_fmap in Hin as (c' & Hh & Hin). destruct (T3 c' Hin) as [i Hi]. cbn in Hh. congruence.
    + split; cbn; rewrite ?map_app, ?F1, ?F2; [done|done|]. apply Forall2_app; [by apply chosen_more|]. constructor; [|constructor].
      pose proof (len_nonneg (us_allChunks st)). split; [done|]. eexists. split; [unfold len; rewrite Nat2Z.id, lookup_app_r, Nat.sub_diag by lia; reflexivity|done].
Qed.

Lemma scan_loop k src cs pre st :
  srcs !! k = Some src -> source_ok src -> uploads src = concat pre ++ concat cs -> Forall (fun c => 0 < len c <= MaxChunkSize) cs ->
  scan_ok st -> file_ok_at pre st ->
  exists st' more, foldM (process (scan_upload k (so_pos src))) st (with_offsets (len (concat pre)) cs) = Ok st' /\
    scan_ok st' /\ file_ok_at (pre ++ cs) st' /\ us_allChunks st' = us_allChunks st ++ more /\ (length more <= length cs)%nat.
Proof.
  intros Hk Hsrc Hup Hcs. revert pre st Hup. induction Hcs as [|c cs Hc _ IH]; intros pre st Hup Hs Hf; cbn [with_offsets foldM].
  { exists st, []. rewrite !app_nil_r. done. }
  destruct (scan_step k src st pre c (concat cs) Hk Hsrc Hup Hc Hs Hf) as (st1 & m1 & E1 & H1 & H2 & H3 & L1).
  change (process _ st (len (concat pre), c)) with (wrap_err "error processing chunk: %w" (scan_upload k (so_pos src) st (len (concat pre)) c)).
  rewrite E1. cbn [wrap_err mbind result_bind].
  replace (len (concat pre) + len c) with (len (concat (pre ++ [c]))) by (rewrite concat_app, len_app; cbn; rewrite app_nil_r; done).
  destruct (IH (pre ++ [c]) st1) as (st2 & m2 & E2 & H4 & H5 & H6 & L2); [rewrite concat_app; cbn; by rewrite app_nil_r, <- app_assoc|done|done|].
  exists st2, (m1 ++ m2). rewrite <- app_assoc in H5. split; [done|]. split; [done|]. split; [exact H5|]. split; [by rewrite H6, H3, <- app_assoc|]. rewrite length_app. cbn. lia.
Qed.

(** What is known of a file after the scan. *)
Definition file_scanned (enableSHA256 : bool) (all : list chunkInfo) (src : source) (fi : FileInfo) : Prop :=
  ComputeFileHash (map ComputeChunkHash (chunks (uploads src))) (map len (chunks (uploads src))) = Ok (fi_Hash fi) /\
  chosen all (fi_ChunkIndices fi) (chunks (uploads src)) /\
  fi_SHA256 fi = if enableSHA256 && negb (len (fi_ChunkIndices fi) =? 0) then Sum256 (uploads src) else zeroHash.

Lemma chunk_file_spec sha k src st fi hashes st' :
  srcs !! k = Some src -> source_ok src -> scan_ok st -> chunk_file sha k src st = Ok (fi, hashes, st') ->
  scan_ok st' /\ (exists more, us_allChunks st' = us_allChunks st ++ more /\ (length more <= length (chunks (uploads src)))%nat) /\
  file_scanned sha (us_allChunks st') src fi.
Proof.
  intros Hk Hsrc Hs. unfold chunk_file. destruct (so_seek src); [done|]. pose proof Hsrc as (Hpos & Hlen & Hpieces).
  assert (concat (so_pieces src) = uploads src) as Hup by exact Hpieces.
  assert (len (concat (so_pieces src)) < 2 ^ 63) as Hl by (rewrite Hup; unfold uploads, len in *; rewrite length_drop; lia).
  unfold ChunkData. rewrite chunk_data_loop_spec; [|cbn; lia..|exact Hl]. cbn [berr NewReader].
  change (content (NewReader (so_pieces src) (so_end src))) with (concat (so_pieces src)). rewrite Hup.
  destruct (bool_decide (so_end src = EOF)).
  2: { destruct (foldM _ _ _); cbn [mbind result_bind wrap_err]; done. }
  destruct (scan_loop k src (chunks (uploads src)) [] (MkScan (us_allChunks st) (us_chunkIndex st) [] [] [])) as (st1 & more & E & H1 & [F1 F2 F3] & H3 & L1);
    [done|done|by rewrite chunks_concat|apply chunks_bound|by destruct Hs; split|by split; [..|constructor]|].
  change (len (concat [])) with 0 in E. rewrite E. cbn [wrap_err mbind result_bind app] in F1, F2, F3 |- *. rewrite F1, F2.
  destruct (ComputeFileHash _ _) as [h|] eqn:Eh; [|done]. cbn [mbind result_bind]. intros [= <- <- <-].
  split; [done|]. split; [by exists more|]. split; [exact Eh|]. split; [exact F3|]. done.
Qed.

Lemma chunk_files_spec sha pre rest st fis hashes st' :
  srcs = pre ++ rest -> Forall source_ok rest -> scan_ok st -> chunk_files sha (length pre) rest st = Ok (fis, hashes, st') ->
  scan_ok st' /\ (exists more, us_allChunks st' = us_allChunks st ++ more /\ len more <= chunk_count rest) /\
  Forall2 (file_scanned sha (us_allChunks st')) rest fis.
Proof.
  intros Hsrcs Hok. revert pre st fis hashes Hsrcs. induction Hok as [|src rest Hsrc _ IH]; intros pre st fis hashes Hsrcs Hs; cbn [chunk_files].
  { intros [= <- _ <-]. split; [done|]. split; [exists []; rewrite app_nil_r; split; [done|done]|constructor]. }
  destruct (chunk_file sha (length pre) src st) as [[[fi hs] st1]|] eqn:E1; [|done]. cbn [mbind result_bind].
  destruct (chunk_files sha (S (length pre)) rest st1) as [[[fis2 hs2] st2]|] eqn:E2; [|done]. cbn [mbind result_bind]. intros [= <- _ <-].
  apply chunk_file_spec in E1 as (H1 & (m1 & M1 & L1) & H3); [|rewrite Hsrcs, lookup_app_r, Nat.sub_diag by lia; done|done|done].
  replace (S (length pre)) with (length (pre ++ [src])) in E2 by (rewrite length_app; cbn; lia).
  apply IH in E2 as (H4 & (m2 & M2 & L2) & H6); [|by rewrite <- app_assoc|done].
  split; [done|]. split.
  { exists (m1 ++ m2). split; [by rewrite M2, M1, <- app_assoc|]. unfold chunk_count in *. cbn [map concat]. rewrite !len_app. unfold len in *. lia. }
  constructor; [|done].
  destruct H3 as (A & Bc & D). split; [done|]. split; [rewrite M2; by apply chosen_more|done].
Qed.
End scanning.

(** ** Groups *)

Lemma make_group_spec new indices g :
  make_group new indices = Ok g ->
  exists cs, Forall2 (fun i c => index_at new i = Ok c) indices cs /\ xg_Chunks g = map ui_Chunk cs /\ xg_ChunkHashes g = map ui_Hash cs.
Proof.
  unfold make_group. assert (forall acc r, foldM (fun cs idx => c ← index_at new idx; Ok (cs ++ [c])) acc indices = Ok r ->
    exists cs, r = acc ++ cs /\ Forall2 (fun i c => index_at new i = Ok c) indices cs) as H.
  { induction indices as [|i indices IH]; intros acc r; cbn [foldM]; [intros [= <-]; exists []; by rewrite app_nil_r|].
    destruct (index_at new i) as [c|] eqn:Ec; [|done]. cbn [mbind result_bind]. intros (cs & -> & Hcs)%IH. exists (c :: cs).
    rewrite <- app_assoc. split; [done|by constructor]. }
  destruct (foldM _ [] indices) as [r|] eqn:Er; [|done]. cbn [mbind result_bind]. intros [= <-]. destruct (H [] r Er) as (cs & -> & Hcs). by exists cs.
Qed.

Lemma index_at_elem {A} (l : list A) i a : index_at l i = Ok a -> a ∈ l.
Proof.
  unfold index_at. destruct (i <? 0); [done|]. destruct (l !! Z.to_nat i) eqn:E; [|done]. intros [= <-]. by eapply list_elem_of_lookup_2.
Qed.

Lemma make_groups_spec new groups :
  Forall (fun c => is_u32 (ck_Size (ui_Chunk c))) new -> make_groups new = Ok groups ->
  (forall g, g ∈ groups -> exists cs, (forall c, c ∈ cs -> c ∈ new) /\ xg_Chunks g = map ui_Chunk cs /\ xg_ChunkHashes g = map ui_Hash cs /\
     len cs <= MaxChunksPerXorb) /\
  (forall c, c ∈ new -> exists g, g ∈ groups /\ ui_Hash c ∈ xg_ChunkHashes g).
Proof.
  intros Hu. unfold make_groups. destruct (group_spec (map (fun c => ck_Size (ui_Chunk c)) new) MaxXorbSize) as (Hcat & Hgood & _); [by apply Forall_fmap|].
  cbn zeta in *. set (gs := GroupChunkIndicesBySize _ _) in *. clearbody gs. rewrite len_map in Hcat.
  assert (forall acc r, foldM (fun groups indices => if len indices =? 0 then Ok groups else group ← make_group new indices; Ok (groups ++ [group])) acc gs = Ok r ->
    exists ng, r = acc ++ ng /\ Forall2 (fun idx g => make_group new idx = Ok g) gs ng) as H.
  { clear Hcat. induction Hgood as [|idx gs (Hne & _) _ IH]; intros acc r; cbn [foldM]; [intros [= <-]; exists []; by rewrite app_nil_r|].
    rewrite (proj2 (Z.eqb_neq _ _)) by (intros E; by apply len_0_nil in E). destruct (make_group new idx) as [g|] eqn:Eg; [|done].
    cbn [mbind result_bind]. intros (ng & -> & Hng)%IH. exists (g :: ng). rewrite <- app_assoc. split; [done|by constructor]. }
  intros (ng & -> & Hng)%H. cbn [app]. clear H. split.
  - intros g Hg. apply list_elem_of_lookup in Hg as [k Hk]. destruct (Forall2_lookup_r _ _ _ _ _ Hng Hk) as (idx & Hidx & Hm).
    apply make_group_spec in Hm as (cs & Hcs & H1 & H2). exists cs. split; [|split; [done|split; [done|]]].
    + intros c Hc. apply list_elem_of_lookup in Hc as [j Hj]. destruct (Forall2_lookup_r _ _ _ _ _ Hcs Hj) as (i & _ & Hi). by eapply index_at_elem.
    + rewrite Forall_forall in Hgood. destruct (Hgood idx) as (_ & Hl & _); [by eapply list_elem_of_lookup_2|]. apply Forall2_length in Hcs. unfold len in *. lia.
  - intros c Hc. apply list_elem_of_lookup in Hc as [k Hk].
    assert (Z.of_nat k ∈ concat gs) as Hin by (rewrite Hcat; apply elem_of_seqZ; apply lookup_lt_Some in Hk; unfold len; lia).
    apply list_elem_of_In, in_concat in Hin as (idx & Hidx & Hi). apply list_elem_of_In, list_elem_of_lookup in Hidx as [j Hj].
    destruct (Forall2_lookup_l _ _ _ _ _ Hng Hj) as (g & Hg & Hm). exists g. split; [by eapply list_elem_of_lookup_2|].
    apply make_group_spec in Hm as (cs & Hcs & _ & ->). apply list_elem_of_In, list_elem_of_lookup in Hi as [m Hm].
    destruct (Forall2_lookup_l _ _ _ _ _ Hcs Hm) as (c' & Hc' & Hx). unfold index_at in Hx. rewrite (proj2 (Z.ltb_ge _ _)) in Hx by lia.
    rewrite Nat2Z.id, Hk in Hx. injection Hx as ->. apply list_elem_of_fmap. exists c'. split; [done|by eapply list_elem_of_lookup_2].
Qed.

(** ** The whole upload *)

Section upload.
Context {B3 : Blake3} {L : Lz4} {LL : Lz4Laws L} {P : ChunkBufs} {S : Type} {C : ClientAdapter S}.
Context (srcs : list source) (removable : nat -> bool) (elsewhere : S -> S -> Prop).

(** What the remote promises: the xorbs it has stay. *)
Context (stored : S -> XorbHash -> Prop) (known : S -> ChunkHash -> ChunkLocation -> Prop).
Hypothesis HasXorb_true : forall h s s', ca_HasXorb h s = (Ok true, s') -> stored s' h.
Hypothesis UploadXorb_ok : forall h data s b s', ca_UploadXorb h data s = (Ok b, s') -> stored s' h.
Hypothesis HasXorb_keeps : forall h s h', stored s h' -> stored (ca_HasXorb h s).2 h'.
Hypothesis UploadXorb_keeps : forall h data s h', stored s h' -> stored (ca_UploadXorb h data s).2 h'.
Hypothesis elsewhere_keeps : forall s s' h, elsewhere s s' -> stored s h -> stored s' h.

(** The locations the remote gives, asked in some state, are true. *)
Definition answers_known (s : S) : Prop := forall probes candidates m s' (h : ChunkHash) loc,
  ca_QueryDedupShards probes candidates s = (Ok m, s') -> m !! h = Some loc -> known s' h loc /\ 0 <= cl_ChunkIndex loc < 2 ^ 32 - 1.

(** The locations of an upload of groups without error. *)
Lemma uploadXorbs_located groups concurrency s uploaded s' :
  Forall (fun g => len (xg_ChunkHashes g) < 2 ^ 32) groups -> uploadXorbs srcs removable elsewhere groups concurrency s None uploaded s' ->
  (forall g ch, g ∈ groups -> ch ∈ xg_ChunkHashes g -> is_Some (uploaded !! ch)) /\
  (forall (ch : ChunkHash) loc, uploaded !! ch = Some loc ->
     stored s' (cl_XorbHash loc) /\
     exists g ds, g ∈ groups /\ Forall2 (fun c d => readAt srcs c = Ok d) (xg_Chunks g) ds /\
       ComputeXorbHash (map ComputeChunkHash ds) (map len ds) = Ok (cl_XorbHash loc) /\
       0 <= cl_ChunkIndex loc /\ xg_ChunkHashes g !! Z.to_nat (cl_ChunkIndex loc) = Some ch).
Proof.
  intros Hsmall Hrun. remember None as err eqn:Eerr. destruct Hrun as [->|files next u err Hne Hbelow Hr Hph].
  { split; [by intros g ch ?%elem_of_nil|]. intros ch loc. by rewrite lookup_empty. }
  destruct (good_reachable srcs removable elsewhere groups files next stored HasXorb_true UploadXorb_ok HasXorb_keeps UploadXorb_keeps
    elsewhere_keeps Hsmall Hbelow concurrency s u Hne Hr) as [Hi _ Ha _].
  unfold accounted in Ha. rewrite Hph in Ha. split; [intros g ch Hg Hch; by apply (Ha Eerr g Hg)|].
  intros ch loc Hx. destruct (iv_located _ _ _ _ _ _ Hi ch loc Hx) as (Hs & g & data & Hg & He & H0 & Hch). split; [done|].
  destruct (encode_group_spec srcs g _ _ He) as (ds & Hd & _ & Hh & _). by exists g, ds.
Qed.

(** Where a chunk of a file is: in a xorb of the upload, or where the remote
    said. *)
Definition chunk_placed (s1 s2 : S) (ci : ChunkInfo) (d : list byte) : Prop :=
  ci_Hash ci = ComputeChunkHash d /\
  if ci_IsNew ci
  then stored s2 (ci_XorbHash ci) /\
    exists ds d0, ComputeXorbHash (map ComputeChunkHash ds) (map len ds) = Ok (ci_XorbHash ci) /\
      ds !! Z.to_nat (ci_ChunkIndex ci) = Some d0 /\ ComputeChunkHash d0 = ComputeChunkHash d /\ ci_Size ci = len d0
  else known s1 (ci_Hash ci) (MkChunkLocation (ci_XorbHash ci) (ci_ChunkIndex ci)).

Definition digest_of (enableSHA256 : bool) (data : list byte) : SHA256Hash :=
  if enableSHA256 && negb (len data =? 0) then Sum256 data else zeroHash.

Definition file_placed (enableSHA256 : bool) (s1 s2 : S) (src : source) (fb : FileBlock) : Prop :=
  ComputeFileHash (map ComputeChunkHash (chunks (uploads src))) (map len (chunks (uploads src))) = Ok (fb_FileHash fb) /\
  fb_MetadataExt fb = (let digest := digest_of enableSHA256 (uploads src) in
    if bool_decide (digest <> zeroHash) then Some (MkFileMetadataExt digest) else None) /\
  exists runs, Forall2 entry_describes (fb_Entries fb) runs /\ Forall2 (chunk_placed s1 s2) (concat runs) (chunks (uploads src)).

(** The location of each chunk is true. *)
Lemma location_placed s1 s2 all located groups uploaded c :
  Forall (chunk_true srcs) all -> c ∈ all ->
  (forall (h : ChunkHash) loc, located !! h = Some loc -> known s1 h loc /\ 0 <= cl_ChunkIndex loc < 2 ^ 32 - 1) ->
  make_groups (new_chunks located all) = Ok groups ->
  (forall g ch, g ∈ groups -> ch ∈ xg_ChunkHashes g -> is_Some (uploaded !! ch)) ->
  (forall (ch : ChunkHash) loc, uploaded !! ch = Some loc ->
     stored s2 (cl_XorbHash loc) /\
     exists g ds, g ∈ groups /\ Forall2 (fun c d => readAt srcs c = Ok d) (xg_Chunks g) ds /\
       ComputeXorbHash (map ComputeChunkHash ds) (map len ds) = Ok (cl_XorbHash loc) /\
       0 <= cl_ChunkIndex loc /\ xg_ChunkHashes g !! Z.to_nat (cl_ChunkIndex loc) = Some ch) ->
  NoDup (map ui_Hash all) ->
  index_ok (chunk_location uploaded located c) /\
  forall d, ui_Hash c = ComputeChunkHash d -> chunk_placed s1 s2 (chunk_location uploaded located c) d.
Proof.
  intros Htrue Hc Hloc Hgr Hall Hup Hnd. rewrite Forall_forall in Htrue. destruct (Htrue c Hc) as (d0 & Hd0 & Hh0 & Hsz & Hu32).
  apply make_groups_spec in Hgr as [G1 G2].
  2: { apply Forall_forall. intros c' [_ Hc']%list_elem_of_filter. destruct (Htrue c' Hc') as (? & _ & _ & -> & ?). done. }
  unfold chunk_location, chunk_placed, index_ok. destruct (uploaded !! ui_Hash c) as [loc|] eqn:Eu;
    cbn [ci_Hash ci_IsNew ci_XorbHash ci_ChunkIndex ci_Size]; rewrite Hsz.
  - destruct (Hup _ _ Eu) as (Hs & g & ds & Hg & Hds & Hx & H0 & Hi). destruct (G1 g Hg) as (cs & Hsub & Hck & Hch & Hl).
    rewrite Hch in Hi. change (map ui_Hash) with (fmap (M := list) ui_Hash) in Hi. apply list_lookup_fmap_Some in Hi as (c' & Heq & Hc').
    assert (c' = c) as ->.
    { pose proof (Hsub c' (list_elem_of_lookup_2 _ _ _ Hc')) as Hin. apply list_elem_of_filter in Hin as [_ Hin].
      apply list_elem_of_lookup in Hin as [i Hi]. apply list_elem_of_lookup in Hc as [j Hj].
      assert (i = j) as -> by (eapply (NoDup_lookup _ _ _ (ui_Hash c) Hnd); rewrite list_lookup_fmap, ?Hi, ?Hj; cbn; by f_equal). congruence. }
    rewrite Hck in Hds. assert (map ui_Chunk cs !! Z.to_nat (cl_ChunkIndex loc) = Some (ui_Chunk c)) as Hck'
      by (change (map ui_Chunk cs) with (ui_Chunk <$> cs); by rewrite list_lookup_fmap, Hc').
    destruct (Forall2_lookup_l _ _ _ _ _ Hds Hck') as (d1 & Hd1 & Hr1).
    assert (d1 = d0) as -> by congruence. apply lookup_lt_Some in Hc'. split; [split; [|done]|].
    + unfold MaxChunksPerXorb, len in *. lia.
    + intros d Hd. split; [done|]. split; [done|]. exists ds, d0. split; [done|]. split; [done|]. split; [congruence|done].
  - destruct (located !! ui_Hash c) as [loc|] eqn:El; cbn [default from_option id].
    + destruct (Hloc _ _ El) as [Hk Hr]. split; [done|]. intros d Hd. split; [done|]. by destruct loc.
    + exfalso. destruct (G2 c) as (g & Hg & Hin); [by apply list_elem_of_filter|]. destruct (Hall g _ Hg Hin) as [? ?]. congruence.
Qed.

Lemma deduplicate_known hashes probes s located s1 :
  answers_known s -> deduplicateChunks hashes probes s = (Ok located, s1) ->
  forall (h : ChunkHash) loc, located !! h = Some loc -> known s1 h loc /\ 0 <= cl_ChunkIndex loc < 2 ^ 32 - 1.
Proof.
  intros Query_known. unfold deduplicateChunks. destruct (_ =? 0); [intros [= <- _] h loc; by rewrite lookup_empty|]. destruct (_ =? 0); [done|].
  intros Hq%prog_wrap_Ok. unfold queryShards, mbind, prog_bind in Hq. destruct (prog_wrap _ _ s) as [[m|] s2] eqn:Em; [|done].
  apply prog_wrap_Ok in Em. injection Hq as <- <-. intros h loc. rewrite map_union_empty. by eapply Query_known.
Qed.

Lemma plan_spec sha s p s1 :
  answers_known s -> Forall source_ok srcs -> plan_upload sha srcs s = (Ok p, s1) ->
  Forall (chunk_true srcs) (pl_allChunks p) /\ NoDup (map ui_Hash (pl_allChunks p)) /\
  Forall2 (file_scanned sha (pl_allChunks p)) srcs (pl_fileInfos p) /\ make_groups (new_chunks (pl_located p) (pl_allChunks p)) = Ok (pl_groups p) /\
  (forall (h : ChunkHash) loc, pl_located p !! h = Some loc -> known s1 h loc /\ 0 <= cl_ChunkIndex loc < 2 ^ 32 - 1) /\
  len (pl_allChunks p) <= chunk_count srcs.
Proof.
  intros Hq Hok. unfold plan_upload. unfold mbind at 1, prog_bind at 1, lift at 1.
  destruct (chunk_files sha 0 srcs _) as [[[fis hs] st]|] eqn:Ec; [|done].
  assert (scan_ok srcs (MkScan [] ∅ [] [] [])) as H0.
  { split; cbn; [constructor|intros h i; by rewrite lookup_empty|by intros c ?%elem_of_nil|constructor]. }
  destruct (chunk_files_spec srcs sha [] srcs _ fis hs st eq_refl Hok H0 Ec) as ([T1 _ _ T4] & (more & Hmore & Hcount) & Hf).
  unfold mbind at 1, prog_bind at 1. destruct (prog_wrap _ _ s) as [[located|] s2] eqn:Ed; [|done]. apply prog_wrap_Ok in Ed.
  unfold mbind, prog_bind, lift. destruct (make_groups _) as [groups|] eqn:Eg; [|done]. intros [= <- <-].
  cbn [pl_allChunks pl_fileInfos pl_located pl_groups]. cbn [us_allChunks app] in Hmore. rewrite Hmore in *.
  split; [done|]. split; [done|]. split; [done|]. split; [done|]. split; [by eapply deduplicate_known|done].
Qed.

(** The chunks the indices of a file select in the shard's list. *)
Lemma chosen_placed s1 s2 all uploaded located indices ds cs :
  (forall c, c ∈ all -> forall d, ui_Hash c = ComputeChunkHash d -> chunk_placed s1 s2 (chunk_location uploaded located c) d) ->
  chosen all indices ds -> selects (map (chunk_location uploaded located) all) indices cs -> Forall2 (chunk_placed s1 s2) cs ds.
Proof.
  intros Hp Hch. revert cs. induction Hch as [|i d indices ds (Hi & c & Hc & Hh) _ IH]; intros cs Hs; inversion Hs as [|? ci ? cs' Hci Hs']; subst; [constructor|].
  constructor; [|by apply IH]. unfold chunk_at in Hci. rewrite (proj2 (Z.ltb_ge _ _)) in Hci by lia.
  change (map (chunk_location uploaded located) all) with (chunk_location uploaded located <$> all) in Hci. rewrite list_lookup_fmap, Hc in Hci.
  cbn in Hci. injection Hci as <-. apply Hp; [by eapply list_elem_of_lookup_2|done].
Qed.

Lemma described_placed sha s1 s2 all uploaded located src fi fb :
  (forall c, c ∈ all -> forall d, ui_Hash c = ComputeChunkHash d -> chunk_placed s1 s2 (chunk_location uploaded located c) d) ->
  file_scanned sha all src fi -> file_described (map (chunk_location uploaded located) all) fi fb -> file_placed sha s1 s2 src fb.
Proof.
  intros Hp (Hh & Hch & Hsha) [D1 D2 _ (runs & Hsel & Hd & _) _]. split; [by rewrite D1|]. split.
  - rewrite D2, Hsha. unfold digest_of. apply Forall2_length in Hch as Hl.
    assert ((len (fi_ChunkIndices fi) =? 0) = (len (uploads src) =? 0)) as ->; [|done].
    pose proof (chunks_concat (uploads src)) as Hcc. pose proof (chunks_bound (uploads src)) as Hb. unfold len.
    rewrite Hl. destruct (chunks (uploads src)) as [|c cs] eqn:E.
    + cbn in Hcc. by rewrite <- Hcc.
    + rewrite Forall_cons in Hb. destruct Hb as [[Hc _] _]. rewrite <- Hcc. cbn [concat length]. rewrite length_app. unfold len in Hc. by rewrite !(proj2 (Z.eqb_neq _ _)) by lia.
  - exists runs. split; [done|]. by eapply chosen_placed.
Qed.

Lemma chosen_range all indices ds : chosen all indices ds -> Forall (fun i => 0 <= i < len all) indices.
Proof.
  induction 1 as [|i d indices ds (Hi & c & Hc & _) _ IH]; constructor; [|done]. apply lookup_lt_Some in Hc. unfold len. lia.
Qed.

(** What the remote's operations and the other clients keep is kept by a run of
    the goroutines. *)
Definition run_keeps (Q : S -> Prop) : Prop :=
  (forall h s, Q s -> Q (ca_HasXorb h s).2) /\ (forall h data s, Q s -> Q (ca_UploadXorb h data s).2) /\ (forall s s', elsewhere s s' -> Q s -> Q s').

Lemma remote_failed w e (u : @ustate S) : u_remote (failed w e u) = u_remote u.
Proof. unfold failed. by destruct (u_firstErr u). Qed.

Lemma remote_removed path (u : @ustate S) : u_remote (remove_file removable path u) = u_remote u.
Proof. unfold remove_file. by destruct (removable path). Qed.

Lemma remote_returned (u : @ustate S) : u_remote (return_ removable u) = u_remote u.
Proof.
  unfold return_. cbn [set_u_phase u_remote]. generalize (u_staged u) as ps. intros ps. revert u. induction ps as [|p ps IH]; intros u; [done|].
  cbn [foldl]. by rewrite IH, remote_removed.
Qed.

Lemma request_keeps {A} (Q : S -> Prop) f (m : prog S A) (u : @ustate S) :
  (forall s, Q s -> Q (m s).2) -> Q (u_remote u) -> Q (u_remote (request_remote f m u).2).
Proof. intros Hm Hq. specialize (Hm _ Hq). unfold request_remote. destruct f; [|done|done]. by destruct (m (u_remote u)). Qed.

Lemma turn_keeps Q w f u u' : run_keeps Q -> turn srcs removable w f u = Some u' -> Q (u_remote u) -> Q (u_remote u').
Proof.
  intros (K1 & K2 & _) Ht Hq. unfold turn in Ht. destruct (u_workers u !! w) as [[ |g|g|g path|g path h|g path h size|g path h size|x|x|x data|h chs fin| ]|]; [..|done].
  all: try (repeat case_match; simplify_eq; rewrite ?remote_failed; done).
  - pose proof (request_keeps Q f _ u (K1 h) Hq) as Hr. destruct (request_remote f (ca_HasXorb h) u) as [[[|]|e] u1]; injection Ht as <-;
      rewrite ?remote_failed; cbn [goto set_u_workers set_u_prepared u_remote]; rewrite ?remote_removed; exact Hr.
  - pose proof (request_keeps Q f _ u (K2 (pp_hash x) data) Hq) as Hr. destruct (request_remote f _ u) as [[?|e] u1]; injection Ht as <-;
      rewrite ?remote_failed; cbn [goto set_u_workers u_remote]; rewrite ?remote_removed; exact Hr.
Qed.

Lemma ustep_keeps Q u u' : run_keeps Q -> ustep srcs removable elsewhere u u' -> Q (u_remote u) -> Q (u_remote u').
Proof.
  intros HQ [w f u1 u2 Ht|u1 u2 Hm|u1|u1 s He] Hq.
  - by eapply turn_keeps.
  - unfold main_turn in Hm. destruct (negb _); [done|]. destruct (u_phase u1); [destruct (outcome u1)| |done]; injection Hm as <-; rewrite ?remote_returned; done.
  - done.
  - cbn. by eapply HQ.
Qed.

Lemma uploadXorbs_keeps Q groups concurrency s err uploaded s' :
  run_keeps Q -> uploadXorbs srcs removable elsewhere groups concurrency s err uploaded s' -> Q s -> Q s'.
Proof.
  intros HQ Hrun Hs. destruct Hrun as [_|files next u err Hne Hbelow Hr Hph]; [done|].
  assert (Q (u_remote (ustart groups concurrency files next s))) as H0 by done. revert H0. clear Hph Hne Hbelow Hs.
  induction Hr as [|u1 u2 u3 Hstep _ IH]; [done|]. intros H1. apply IH. by eapply ustep_keeps.
Qed.

(** The shard fits its format, when the files have fewer than [2 ^ 28] chunks. *)
Definition shard_fits (sh : Shard) : Prop :=
  Forall file_ok (s_Files sh) /\ Forall cas_ok (s_CASInfos sh) /\ len (encoded 0 sh false) < 2 ^ 63.

Lemma location_ok uploaded located c :
  is_u32 (ck_Size (ui_Chunk c)) -> index_ok (chunk_location uploaded located c) -> ci_ok (chunk_location uploaded located c).
Proof.
  unfold index_ok, ci_ok, chunk_location. destruct (uploaded !! ui_Hash c); cbn [ci_Size ci_ChunkIndex]; intros Hs Hi; split; [done|unfold is_u32; lia|done|unfold is_u32; lia].
Qed.

Lemma upload_spec sha concurrency s hashes s' :
  answers_known s -> Forall source_ok srcs -> UploadFiles srcs removable elsewhere sha concurrency s (Ok hashes) s' ->
  Forall2 (fun src h => ComputeFileHash (map ComputeChunkHash (chunks (uploads src))) (map len (chunks (uploads src))) = Ok h) srcs hashes /\
  exists s1 s2 sh r, ca_UploadShard sh s2 = (Ok r, s') /\ Forall2 (file_placed sha s1 s2) srcs (s_Files sh) /\
    (forall Q, run_keeps Q -> Q s1 -> Q s2) /\ (len srcs + chunk_count srcs < 2 ^ 28 -> shard_fits sh).
Proof.
  intros Hq Hok Hrun. remember (Ok hashes) as res eqn:Eres. destruct Hrun as [|? ? ? ? ? ? ?|p s1 uploaded s2 res s3 Hp Hx Hf]; [done|done|subst res].
  destruct (plan_spec sha s p s1 Hq Hok Hp) as (Htrue & Hnd & Hfiles & Hgr & Hloc & Hcount).
  assert (Forall (fun g => len (xg_ChunkHashes g) < 2 ^ 32) (pl_groups p)) as Hsmall.
  { apply make_groups_spec in Hgr as [G1 _].
    - apply Forall_forall. intros g Hg. destruct (G1 g Hg) as (cs & _ & _ & -> & Hl). rewrite len_map. unfold MaxChunksPerXorb in Hl. lia.
    - rewrite Forall_forall in Htrue |- *. intros c [_ Hc]%list_elem_of_filter. destruct (Htrue c Hc) as (? & _ & _ & -> & ?). done. }
  destruct (uploadXorbs_located (pl_groups p) _ s1 uploaded s2 Hsmall Hx) as [Hall Hup].
  assert (forall c, c ∈ pl_allChunks p -> index_ok (chunk_location uploaded (pl_located p) c) /\
    forall d, ui_Hash c = ComputeChunkHash d -> chunk_placed s1 s2 (chunk_location uploaded (pl_located p) c) d) as Hpl
    by (intros c Hc; by eapply location_placed).
  unfold finish_upload, mbind, prog_bind, lift in Hf. set (cis := map (chunk_location uploaded (pl_located p)) (pl_allChunks p)) in *.
  destruct (BuildShard_parts (pl_fileInfos p) cis) as (fbs & firsts & Hdesc & Hsh).
  { apply Forall_fmap, Forall_forall. intros c Hc. by apply Hpl. }
  { apply Forall_forall. intros fi Hfi. apply list_elem_of_lookup in Hfi as [k Hk].
    destruct (Forall2_lookup_r _ _ _ _ _ Hfiles Hk) as (src & _ & (_ & Hch & _)). unfold cis. rewrite len_map. by eapply chosen_range. }
  rewrite Hsh in Hf. set (sh := MkShard 0 fbs _ _) in *. destruct (prog_wrap _ (ca_UploadShard sh) s2) as [[r|] s4] eqn:Es; [|done].
  apply prog_wrap_Ok in Es. injection Hf as <- <-. split.
  - apply Forall2_fmap_r. eapply Forall2_impl; [exact Hfiles|]. by intros src fi (Hh & _).
  - exists s1, s2, sh, r. split; [done|]. split; [|split; [intros Q HQ; by eapply uploadXorbs_keeps|]].
    2: { intros Hsum. destruct (BuildShard_fits cis (pl_fileInfos p) sh) as (B1 & B2 & B3' & _); [| | |done|].
      - apply Forall_fmap, Forall_forall. intros c Hc. apply location_ok; [|by apply Hpl]. rewrite Forall_forall in Htrue.
        destruct (Htrue c Hc) as (? & _ & _ & -> & ?). done.
      - unfold cis. rewrite len_map. pose proof (len_nonneg srcs). lia.
      - assert (all_indices (pl_fileInfos p) = chunk_count srcs) as ->.
        { unfold all_indices, chunk_count, len. f_equal. clear -Hfiles. induction Hfiles as [|src fi srcs' fis (_ & Hch & _) _ IH]; [done|].
          cbn [map concat]. rewrite !length_app, IH. by rewrite (Forall2_length _ _ _ Hch). }
        unfold len in *. rewrite <- (Forall2_length _ _ _ Hfiles). lia.
      - split; [done|]. split; [done|]. pose proof (len_nonneg (s_Files sh)). lia. }
    change (s_Files sh) with fbs. clear -Hfiles Hdesc Hpl.
    revert fbs Hdesc. induction Hfiles as [|src fi srcs' fis Hsc _ IH]; intros fbs Hd; inversion Hd as [|? fb ? fbs' Hd1 Hd2]; subst; [constructor|].
    constructor; [|by apply IH]. eapply described_placed; [|exact Hsc|exact Hd1]. intros c Hc. by apply Hpl.
Qed.

(** C11: an upload describes its files.  When [UploadFiles] succeeds, whatever the
    schedule of its goroutines and what the other clients of the remote do
    meanwhile, it returns the hash of each file's chunks, in order; and the
    remote has accepted a shard with one block per file, in order, that bears
    the file's hash, its SHA-256 if asked for, and entries that cut the file's
    chunks, none missing and in order, into runs: each chunk is at its entry's
    place in a xorb, which is a xorb of the upload that the remote has and
    whose chunk there has the chunk's hash, or is where the remote said the
    chunk is. *)
Theorem upload_describes sha concurrency s hashes s' :
  answers_known s -> Forall source_ok srcs -> UploadFiles srcs removable elsewhere sha concurrency s (Ok hashes) s' ->
  Forall2 (fun src h => ComputeFileHash (map ComputeChunkHash (chunks (uploads src))) (map len (chunks (uploads src))) = Ok h) srcs hashes /\
  exists s1 s2 sh r, ca_UploadShard sh s2 = (Ok r, s') /\ Forall2 (file_placed sha s1 s2) srcs (s_Files sh).
Proof. intros H1 H2 H3. destruct (upload_spec _ _ _ _ _ H1 H2 H3) as [H4 (s1 & s2 & sh & r & H5 & H6 & _)]. split; [done|]. by exists s1, s2, sh, r. Qed.
End upload.
