(* ===== verification/UploadWitness.v ===== *)
(** * Uploads that happen

    A schedule is the list of whose turn it is; [follow] runs one.  Two groups
    uploaded by two goroutines, and the upload of a file, to an in-memory store
    show that the theorems on uploads are about runs that exist. *)

From Stdlib Require Import ZArith Lia Strings.Byte Strings.String.
From S2P Require Import Prelude Hash Sha256 Gearhash Merkle ByteGrouping Compression XorbEncoder XorbDecoder.
From S2P Require Import XorbOffsets Shard ShardBuild ShardCodec Prog Storage PutShard Memory MemoryPut PutFile Upload UploadProofs UploadRun.

(** ** Schedules *)

Section schedule.
Context {B3 : Blake3} {L : Lz4} {P : ChunkBufs} {S : Type} {C : ClientAdapter S}.
Context (srcs : list source) (removable : nat -> bool) (elsewhere : S -> S -> Prop).

(** Whose turn it is: a goroutine's, with the outcome of its call, or the
    caller's. *)
Fixpoint follow (sched : list (option (nat * fault))) (u : ustate) : option ustate :=
  match sched with
  | [] => Some u
  | Some (w, f) :: sched => match turn srcs removable w f u with Some u => follow sched u | None => None end
  | None :: sched => match main_turn removable u with Some u => follow sched u | None => None end
  end.

Lemma follow_rtc sched u u' : follow sched u = Some u' -> rtc (ustep srcs removable elsewhere) u u'.
Proof.
  revert u. induction sched as [|[[w f]|] sched IH]; intros u; cbn [follow].
  - by intros [= ->].
  - destruct (turn srcs removable w f u) as [u1|] eqn:E; [|done]. intros H%IH. eapply rtc_l; [by eapply us_turn|done].
  - destruct (main_turn removable u) as [u1|] eqn:E; [|done]. intros H%IH. eapply rtc_l; [by eapply us_main|done].
Qed.

Lemma follow_usteps sched u u' : follow sched u = Some u' -> usteps srcs removable elsewhere (length sched) u u'.
Proof.
  revert u. induction sched as [|[[w f]|] sched IH]; intros u; cbn [follow length].
  - intros [= ->]. apply us_stop.
  - destruct (turn srcs removable w f u) as [u1|] eqn:E; [|done]. intros H%IH. eapply us_own; [left; by exists w, f|done].
  - destruct (main_turn removable u) as [u1|] eqn:E; [|done]. intros H%IH. eapply us_own; [by right|done].
Qed.

(** An upload along a schedule. *)
Definition upload_along (enableSHA256 : bool) (concurrency : Z) (sched : list (option (nat * fault))) (s : S) :
    option (result (list FileHash) * S) :=
  match plan_upload enableSHA256 srcs s with
  | (Err e, s1) => Some (Err e, s1)
  | (Ok p, s1) =>
      match pl_groups p with
      | [] => Some (finish_upload p ∅ s1)
      | _ =>
          match follow sched (ustart (pl_groups p) (Z.max 1 concurrency) ∅ 0 s1) with
          | Some u =>
              match u_phase u with
              | Returned None => Some (finish_upload p (u_uploaded u) (u_remote u))
              | Returned (Some e) => Some (Err (Wrapf "upload xorbs: %w" e), u_remote u)
              | _ => None
              end
          | None => None
          end
      end
  end.

Lemma upload_along_runs sha concurrency sched s r s' :
  upload_along sha concurrency sched s = Some (r, s') -> UploadFiles srcs removable elsewhere sha concurrency s r s'.
Proof.
  unfold upload_along. destruct (plan_upload sha srcs s) as [[p|e] s1] eqn:Ep; [|intros [= <- <-]; by apply uf_plan].
  assert (forall u err, pl_groups p <> [] -> follow sched (ustart (pl_groups p) (Z.max 1 concurrency) ∅ 0 s1) = Some u ->
    u_phase u = Returned err -> uploadXorbs srcs removable elsewhere (pl_groups p) (Z.max 1 concurrency) s1 err (u_uploaded u) (u_remote u)) as Hx.
  { intros u err Hne Hf Hph. eapply ux_run; [done| |by apply follow_rtc in Hf|done]. intros q [? Hq]. by rewrite lookup_empty in Hq. }
  destruct (pl_groups p) as [|g gs] eqn:Eg.
  - intros [= Hf]. eapply uf_shard; [done|rewrite Eg; by apply ux_none|done].
  - destruct (follow sched _) as [u|] eqn:Ef; [|done]. destruct (u_phase u) as [| |[e|]] eqn:Eph; [done|done| |].
    + intros [= <- <-]. eapply uf_xorbs; [done|]. rewrite Eg. by eapply Hx.
    + intros [= Hf]. eapply uf_shard; [done| |done]. rewrite Eg. by eapply Hx.
Qed.
End schedule.

(** ** A remote *)

Section witness.
#[local] Instance up_b3 : Blake3 := poly_blake3.
#[local] Instance up_lz4 : Lz4 := rle_lz4.
#[local] Instance up_bufs : ChunkBufs := zero_bufs.

(** An in-memory store that knows of no chunk. *)
#[local] Instance memory_client : ClientAdapter memory := {|
  ca_HasXorb := mem_HasXorb;
  ca_UploadXorb h data := mem_PutXorb h (file_reader data);
  ca_UploadShard sh := b ← PutShard sh; mret (if b : bool then 1 else 0);
  ca_QueryDedupShards _ _ := mret ∅;
|}.

Definition has_xorb (s : memory) (h : XorbHash) : Prop := is_Some (mem_at s kXorbs (formatHash h)).

Lemma mem_HasXorb_true h s s' : mem_HasXorb h s = (Ok true, s') -> has_xorb s' h.
Proof. unfold mem_HasXorb. intros [= H <-]. by apply bool_decide_eq_true in H. Qed.

Lemma mem_put_has h data s : has_xorb (mem_put kXorbs (formatHash h) data false s).2 h.
Proof.
  unfold has_xorb. rewrite mem_put_at. destruct (mem_at s kXorbs (formatHash h)) as [o|] eqn:E.
  - rewrite bool_decide_eq_false_2 by (by intros [_ ?]). by exists o.
  - rewrite bool_decide_eq_true_2 by done. by eexists.
Qed.

Lemma mem_PutXorb_ok h data s b s' : mem_PutXorb h (file_reader data) s = (Ok b, s') -> has_xorb s' h.
Proof.
  unfold mem_PutXorb. case_bool_decide as Hh; [by intros [= _ <-]|]. destruct (validate_stream _ _) as [rest|]; [|done].
  intros H. apply (f_equal snd) in H. cbn [snd] in H. rewrite <- H. apply mem_put_has.
Qed.

Lemma mem_PutXorb_keeps h data s h' : has_xorb s h' -> has_xorb (mem_PutXorb h (file_reader data) s).2 h'.
Proof.
  intros Hh. unfold mem_PutXorb. case_bool_decide; [done|]. destruct (validate_stream _ _) as [rest|]; [|done].
  unfold has_xorb. rewrite mem_put_at. case_bool_decide; [by eexists|done].
Qed.

(** A file of eleven bytes in two groups. *)
Definition a_source : source := MkSource (str "hello world") 0 None [str "hello"; str " world"] EOF.

Definition a_group (offset : Z) (data : list byte) : xorbGroup :=
  MkXorbGroup [MkChunk 0 offset (len data)] [ComputeChunkHash data] 0.

Definition two_groups : list xorbGroup := [a_group 0 (str "hello"); a_group 5 (str " world")].

(** The goroutines alternate. *)
Definition both (n : nat) : list (option (nat * fault)) := concat (replicate n [Some (0%nat, Fine); Some (1%nat, Fine)]).
Definition two_workers : list (option (nat * fault)) := both 8 ++ [None] ++ both 6 ++ [None].

Definition empty_store : memory := NewStorage [] quiet_env.
Definition two_start : ustate := ustart two_groups 4 {[0%nat := str "kept"]} 1 empty_store.
Definition two_end : ustate :=
  match follow [a_source] (fun _ => true) two_workers two_start with Some u => u | None => two_start end.

Lemma two_follow : follow [a_source] (fun _ => true) two_workers two_start = Some two_end.
Proof.
  assert (match follow [a_source] (fun _ => true) two_workers two_start with Some _ => true | None => false end = true) as H by (vm_compute; reflexivity).
  unfold two_end. destruct (follow _ _ _ _) as [u|]; [reflexivity|discriminate H].
Qed.

Lemma two_returned : u_phase two_end = Returned None.
Proof. vm_compute. reflexivity. Qed.

Lemma uploads_complete_witness :
  (forall g ch, g ∈ two_groups -> ch ∈ xg_ChunkHashes g -> is_Some (u_uploaded two_end !! ch)) /\
  u_files two_end !! 0%nat = Some (str "kept") /\ u_files two_end !! 1%nat = None.
Proof.
  destruct (uploads_complete (C := memory_client) [a_source] (fun _ => true) eq two_groups {[0%nat := str "kept"]} 1 has_xorb mem_HasXorb_true mem_PutXorb_ok)
    with (concurrency := 4) (s := empty_store) (u := two_end) (err := @None error) as (_ & H1 & H2 & H3).
  - intros h s h' Hh. exact Hh.
  - exact mem_PutXorb_keeps.
  - intros s s' h <- Hh. exact Hh.
  - repeat constructor; vm_compute; reflexivity.
  - intros p [d Hp]. apply lookup_singleton_Some in Hp as [<- _]. lia.
  - exact rle_lz4_laws.
  - unfold two_groups. discriminate.
  - exact (follow_rtc _ _ eq _ _ _ two_follow).
  - exact two_returned.
  - split; [exact (H1 eq_refl)|]. split; [|exact (H3 1%nat (le_n _) eq_refl)]. rewrite H2 by lia. reflexivity.
Defined.

Lemma uploads_end_witness : Z.of_nat (length two_workers) <= 13 * len two_groups + 2 * concurrent 4 two_groups + 2.
Proof.
  refine (proj2 (uploads_end (C := memory_client) [a_source] (fun _ => true) eq two_groups {[0%nat := str "kept"]} 1 has_xorb mem_HasXorb_true mem_PutXorb_ok
    _ mem_PutXorb_keeps _ _ _ 4 empty_store (length two_workers) two_end _ (follow_usteps _ _ eq _ _ _ two_follow))).
  - intros h s h' Hh. exact Hh.
  - intros s s' h <- Hh. exact Hh.
  - repeat constructor; vm_compute; reflexivity.
  - intros p [d Hp]. apply lookup_singleton_Some in Hp as [<- _]. lia.
  - unfold two_groups. discriminate.
Defined.

(** The upload of the file, with its digest. *)
Definition one_worker : list (option (nat * fault)) :=
  replicate 8 (Some (0%nat, Fine)) ++ [None] ++ replicate 6 (Some (0%nat, Fine)) ++ [None].

Lemma upload_describes_witness :
  exists h s' s1 s2 sh r, UploadFiles [a_source] (fun _ => true) eq true 1 empty_store (Ok [h]) s' /\
    ca_UploadShard sh s2 = (Ok r, s') /\ Forall2 (file_placed has_xorb (fun _ _ _ => True) true s1 s2) [a_source] (s_Files sh).
Proof.
  assert (match upload_along [a_source] (fun _ => true) true 1 one_worker empty_store with Some (Ok _, _) => true | _ => false end = true) as H
    by (vm_compute; reflexivity).
  destruct (upload_along [a_source] (fun _ => true) true 1 one_worker empty_store) as [[[hs|e] s']|] eqn:E; [|discriminate H|discriminate H]. clear H.
  - apply (upload_along_runs [a_source] (fun _ => true) eq) in E.
    destruct (upload_describes (C := memory_client) (LL := rle_lz4_laws) [a_source] (fun _ => true) eq has_xorb (fun _ _ _ => True) mem_HasXorb_true mem_PutXorb_ok) with
      (sha := true) (concurrency := 1) (s := empty_store) (hashes := hs) (s' := s') as [H1 (s1 & s2 & sh & r & H2 & H3)].
    + intros h s h' Hh. exact Hh.
    + exact mem_PutXorb_keeps.
    + intros s s0 h <- Hh. exact Hh.
    + intros probes candidates m s0 h loc [= <- _] Hl. rewrite lookup_empty in Hl. discriminate Hl.
    + repeat constructor; vm_compute; congruence.
    + exact E.
    + inversion H1 as [|? h ? hs' Hh Hhs]; subst. inversion Hhs; subst. exists h, s', s1, s2, sh, r. split; [exact E|]. split; [exact H2|exact H3].
Defined.
End witness.
