(* ===== verification/FileStore.v ===== *)
(** * Files in the memory backend: [storage/putfile.go] over [storage/memory]

    The composition of chunking, deduplication, xorb upload, shard building and
    shard admission.  Proved: after a [PutFile] that succeeds, the hash it
    returns, if it is new, resolves to a file block whose terms decode, from the
    stored xorbs, to the bytes of the file, whatever the store held before; an
    empty file stores nothing, and an indexed hash keeps its entry. *)

From Stdlib Require Import ZArith Lia Strings.Byte Strings.String.
From S2P Require Import Prelude Hash Sha256 Gearhash Merkle ByteGrouping Compression XorbEncoder XorbDecoder.
From S2P Require Import XorbOffsets Shard ShardBuild ShardCodec ShardFits Prog Storage PutShard Memory MemoryPut PutFile.

(** ** The run of [PutFile] *)

Section run.
Context {B3 : Blake3} {L : Lz4} {P : ChunkBufs}.

(** What the scan has built up after the chunks [cs]. *)
Record scanned (cs : list (list byte)) (st : fstate) : Prop := {
  sc_hashes : f_chunkHashes st = map ComputeChunkHash cs;
  sc_sizes : f_chunkSizes st = map len cs;
  sc_indices : length (f_indices st) = length cs;
  sc_chunks : (length (f_chunks st) <= length cs)%nat;
  sc_some : cs <> [] -> f_chunks st <> [];
  sc_unique : forall (h : ChunkHash) i, f_unique st !! h = Some i -> f_chunks st <> [];
  sc_ok : Forall ci_ok (f_chunks st);
}.

Lemma scan_file_scanned base cs st off c :
  scanned cs st -> exists st', scan_file base st off c = Ok st' /\ scanned (cs ++ [c]) st'.
Proof.
  intros [H1 H2 H3 H4 H5 H6 H7]. unfold scan_file. destruct (f_unique st !! ComputeChunkHash c) as [i|] eqn:Eu.
  - eexists. split; [reflexivity|].
    split; cbn; rewrite ?map_app, ?length_app, ?H1, ?H2, ?H3; cbn; try done; try lia. intros _. by eapply H6.
  - eexists. split; [reflexivity|].
    split; cbn; rewrite ?map_app, ?length_app, ?H1, ?H2, ?H3; cbn; try done; try lia.
    + intros _. by destruct (f_chunks st).
    + intros _ _ _. by destruct (f_chunks st).
    + rewrite Forall_app, Forall_singleton. split; [done|]. split; cbn; [apply u32_range|unfold is_u32; lia].
Qed.

Lemma scan_all base cs off pre st :
  scanned pre st -> exists st', foldM (process (scan_file base)) st (with_offsets off cs) = Ok st' /\ scanned (pre ++ cs) st'.
Proof.
  revert off pre st. induction cs as [|c cs IH]; intros off pre st Hs; cbn [with_offsets foldM].
  - exists st. by rewrite app_nil_r.
  - change (process (scan_file base) st (off, c)) with (wrap_err "error processing chunk: %w" (scan_file base st off c)).
    destruct (scan_file_scanned base pre st off c Hs) as (st1 & -> & Hs1).
    cbn [wrap_err mbind result_bind]. destruct (IH (off + len c) _ _ Hs1) as (st2 & -> & Hs2).
    exists st2. by rewrite <- app_assoc in Hs2.
Qed.

Lemma ChunkData_scanned frag data base :
  concat (frag data) = data -> len data < 2 ^ 63 ->
  exists st, ChunkData (scan_file base) (frag data) EOF (FState [] [] [] [] [] ∅) = Ok st /\ scanned (chunks data) st.
Proof.
  intros Hfr Hlen. unfold ChunkData. rewrite chunk_data_loop_spec; [|cbn; lia..|cbn; by rewrite Hfr].
  cbn [berr NewReader]. rewrite bool_decide_eq_true_2 by done.
  change (content (NewReader (frag data) EOF)) with (concat (frag data)). rewrite Hfr.
  apply (scan_all base (chunks data) 0 []). split; cbn; try done.
Qed.

(** The lookups leave the store alone and find 32-bit positions. *)
Definition located_ok (m : gmap ChunkHash ChunkLocation) : Prop :=
  forall (h : ChunkHash) loc, m !! h = Some loc -> is_u32 (cl_ChunkIndex loc).

Lemma ChunkLocations_ok sh : located_ok (ChunkLocations sh).
Proof.
  unfold ChunkLocations. assert (located_ok ∅) as H0 by (intros h loc; by rewrite lookup_empty).
  revert H0. generalize (∅ : gmap ChunkHash ChunkLocation) as m. induction (s_CASInfos sh) as [|b bs IH]; intros m Hm; [done|].
  cbn [foldl]. apply IH. clear IH. revert m Hm. induction (indexed (cb_Chunks b)) as [|[i c] l IH]; intros m Hm; [done|].
  cbn [foldl]. apply IH. intros h loc [[_ <-]|[_ H]]%lookup_insert_Some; [apply u32_range|by eapply Hm].
Qed.

Lemma locate_mem cs m (s : memory) :
  located_ok m -> exists m', locate cs m s = (Ok m', s) /\ located_ok m'.
Proof.
  revert m. induction cs as [|[i c] cs IH]; intros m Hm; cbn [locate]; [by exists m|].
  destruct (_ || _); [by apply IH|]. unfold catch. cbn [GetShardByChunkHash memory_storage].
  assert (forall k n, (shardByIndex k n s).2 = s) as Hst.
  { intros k n. unfold shardByIndex, indexEntry, mbind, prog_bind. destruct (bool_decide _); [done|].
    unfold loadShard. by destruct (mem_get _ _ _). }
  pose proof (Hst kChunks (formatHash (ci_Hash c))) as Hs.
  destruct (shardByIndex kChunks (formatHash (ci_Hash c)) s) as [[sh|e] s1]; cbn [snd] in Hs; subst s1; [|by apply IH].
  apply IH. intros h loc [H|[_ H]]%lookup_union_Some_raw; [by eapply Hm|by eapply ChunkLocations_ok].
Qed.

Lemma place_ok m l chunks fresh sizes :
  located_ok m -> Forall (fun ic => ci_ok ic.2) l -> Forall ci_ok chunks ->
  let r := foldl (place m) (chunks, fresh, sizes) l in
  Forall ci_ok r.1.1 /\ length r.1.1 = (length chunks + length l)%nat.
Proof.
  intros Hm Hl. revert chunks fresh sizes. induction Hl as [|[i c] l Hc _ IH]; intros chunks fresh sizes Hcs; cbn zeta.
  { cbn. split; [done|lia]. }
  cbn [foldl]. unfold place at 2 4. destruct (m !! ci_Hash c) as [loc|] eqn:El;
    (edestruct IH as [H1 H2]; [|split; [exact H1|rewrite H2, length_app; cbn; lia]]);
    rewrite Forall_app, Forall_singleton; (split; [done|]); [|done].
  split; [apply Hc|]. by eapply Hm.
Qed.

Lemma mark_group_ok fresh group x chunks chunks' :
  Forall ci_ok chunks -> mark_group fresh group x chunks = Ok chunks' ->
  Forall ci_ok chunks' /\ length chunks' = length chunks.
Proof.
  unfold mark_group. intros Hok. apply (foldM_inv (fun cs => Forall ci_ok cs /\ length cs = length chunks)); [done|].
  intros cs [j k] cs' _ [H1 H2] H. cbn [fst snd] in H. destruct (index_at fresh k) as [i|]; [|done]. cbn [mbind result_bind] in H.
  destruct (index_at cs i) as [c|] eqn:Ei; [|done]. injection H as <-. rewrite length_insert. split; [|done].
  apply Forall_insert; [done|]. split; cbn; [|apply u32_range].
  unfold index_at in Ei. destruct (i <? 0); [done|]. destruct (cs !! Z.to_nat i) as [c'|] eqn:Ec; [|done].
  injection Ei as ->. rewrite Forall_forall in H1. by eapply H1, list_elem_of_lookup_2.
Qed.

(** The store with, possibly, more xorbs. *)
Definition more_xorbs (s s' : memory) : Prop :=
  (forall k n, k <> kXorbs -> mem_at s' k n = mem_at s k n) /\ (content_addressed s -> content_addressed s').

Lemma PutXorb_more h r s : more_xorbs s (mem_PutXorb h r s).2.
Proof.
  split.
  - intros k n Hk. unfold mem_PutXorb. case_bool_decide; [done|]. destruct (validate_stream r h); [|done].
    rewrite mem_put_at, bool_decide_eq_false_2; [done|]. intros [[= -> _] _]. done.
  - intros Hs. pose proof (content_addressed_PutXorb h r s Hs) as H. by destruct (mem_PutXorb h r s) as [[?|?] ?].
Qed.

Lemma store_groups_mem data offsets fresh groups chunks s chunks' s' :
  Forall ci_ok chunks -> store_groups data offsets fresh groups chunks s = (Ok chunks', s') ->
  more_xorbs s s' /\ Forall ci_ok chunks' /\ length chunks' = length chunks.
Proof.
  revert chunks s. induction groups as [|group groups IH]; intros chunks s Hok; cbn [store_groups].
  { intros [= <- <-]. by split_and!. }
  unfold mbind, prog_bind, lift, prog_wrap, catch, throw. intros H.
  destruct (group_lists chunks offsets fresh group) as [[[hashes sizes] offs]|]; [|done].
  destruct (ComputeXorbHash hashes sizes) as [x|]; [|done]. cbn [PutXorb memory_storage] in H.
  pose proof (PutXorb_more x (xorb_stream (MkXorbReader data offs sizes (NewEncoder [] true))) s) as [M1 M2].
  destruct (mem_PutXorb x _ s) as [[b|] s1]; [|done]. cbn [snd] in *.
  destruct (mark_group fresh group x chunks) as [cs|] eqn:Em; [|done].
  apply mark_group_ok in Em as [Hok' Hl]; [|done]. apply IH in H as ([N1 N2] & H1 & H2); [|done].
  split; [split; [|by auto]|split; [done|congruence]]. intros k n Hk. by rewrite N1, M1.
Qed.

(** Everything before the shard is committed. *)
Lemma put_chunks_mem frag data base s h sh s' :
  (forall d, concat (frag d) = d) -> len data < 2 ^ 63 -> len (chunks (drop (Z.to_nat base) data)) < 2 ^ 28 ->
  put_chunks frag data base s = (Ok (h, sh), s') ->
  let cs := chunks (drop (Z.to_nat base) data) in
  more_xorbs s s' /\ ComputeFileHash (map ComputeChunkHash cs) (map len cs) = Ok h /\
  (sh = None <-> cs = []) /\
  forall sh', sh = Some sh' ->
    (exists fb, s_Files sh' = [fb] /\ fb_FileHash fb = h /\ fb_Entries fb <> []) /\
    Forall file_ok (s_Files sh') /\ Forall cas_ok (s_CASInfos sh') /\
    len (encoded 0 sh' false) + 48 * len (s_Files sh') < 2 ^ 63.
Proof.
  intros Hfr Hlen Hn H cs. unfold put_chunks, mbind, prog_bind, lift in H. fold cs in Hn.
  destruct (ChunkData_scanned frag (drop (Z.to_nat base) data) base (Hfr _)) as (st & Est & [S1 S2 S3 S4 S5 _ S6]).
  { unfold len in *. rewrite length_drop. lia. }
  rewrite Est in H. cbn [wrap_err] in H. rewrite S1, S2 in H. fold cs in S1, S2, S3, S4, S5, H.
  destruct (ComputeFileHash _ _) as [h0|] eqn:Eh; [|done].
  destruct (locate_mem (indexed (f_chunks st)) ∅ s) as (m & El & Hm); [by intros ? ?; rewrite lookup_empty|].
  rewrite El in H.
  destruct (place_ok m (indexed (f_chunks st)) [] [] []) as [P1 P2]; [done| |done|].
  { apply Forall_forall. intros [i c] Hc. apply list_elem_of_lookup in Hc as [k Hk].
    apply zip_seqZ_lookup in Hk as [Hk _]. rewrite Forall_forall in S6. by eapply S6, list_elem_of_lookup_2. }
  destruct (foldl (place m) _ _) as [[chunks0 fresh] sizes]. cbn [fst snd] in *. rewrite length_indexed in P2.
  destruct (store_groups _ _ _ _ chunks0 s) as [[chunks1|] s1] eqn:Es; [|done].
  apply store_groups_mem in Es as (Hmore & C1 & C2); [|done]. cbn [length] in P2.
  assert (len chunks1 = len (f_chunks st)) as Hl by (unfold len; lia).
  assert (len chunks1 < 2 ^ 28) as Hc28 by (unfold len in *; lia).
  destruct (Z.ltb_spec 0 (len chunks1)) as [Hpos|Hz].
  - destruct (BuildShard _ chunks1) as [sh1|] eqn:Eb; [|done]. injection H as <- <- <-.
    split; [done|]. split; [done|]. split.
    { split; [done|]. intros E. rewrite E in S4. cbn in S4. unfold len in *. lia. }
    intros sh' [= <-]. apply built_ok in Eb as ((fb & F1 & F2 & F3) & Hrest); [|done|done|cbn; unfold len in *; lia].
    split; [|done]. exists fb. split; [done|]. split; [done|]. apply F3. cbn. intros E. rewrite E in S3.
    unfold len in *. cbn in S3. lia.
  - injection H as <- <- <-. split; [done|]. split; [done|]. split; [|done]. split; [|done]. intros _.
    destruct (decide (cs = [])) as [|Hne]; [done|]. specialize (S5 Hne). unfold len in *.
    destruct (f_chunks st); [done|]. cbn in *. lia.
Qed.
End run.

(** ** What is put can be read back *)

Section content.
Context {B3 : Blake3} {L : Lz4} {P : ChunkBufs}.

Lemma term_chunks_u64 s entry cs : is_u32 (fe_UnpackedSegBytes entry) -> term_chunks s entry cs ->
  Forall (fun d => is_u64 (len d)) cs.
Proof.
  intros Hu (o & offsets & start & end_ & fuel & d & _ & _ & _ & _ & Hl). apply Forall_forall. intros c Hc.
  assert (len c <= len (concat cs)) as Hle.
  { clear -Hc. induction cs as [|c' cs IH]; [by apply elem_of_nil in Hc|]. cbn. rewrite len_app.
    pose proof (len_nonneg c'). pose proof (len_nonneg (concat cs)). apply elem_of_cons in Hc as [->|Hc]; [lia|].
    specialize (IH Hc). lia. }
  pose proof (len_nonneg c). unfold is_u32, is_u64 in *. lia.
Qed.

(** An empty file stores nothing. *)
Lemma put_chunks_empty frag data base (s : memory) :
  (forall d, concat (frag d) = d) -> drop (Z.to_nat base) data = [] -> put_chunks frag data base s = (Ok (zeroHash, None), s).
Proof.
  intros Hfr He. unfold put_chunks, mbind, prog_bind, lift. rewrite He.
  destruct (ChunkData_scanned frag [] base (Hfr _)) as (st & -> & [S1 S2 S3 S4 _ _ _]); [done|].
  change (chunks []) with (@nil (list byte)) in *. cbn [wrap_err]. rewrite S1, S2.
  assert (f_chunks st = []) as -> by (destruct (f_chunks st); [done|cbn in S4; lia]). done.
Qed.

(** A file that is not indexed yet. *)
Lemma PutFile_new frag data base s h s' :
  (forall d, concat (frag d) = d) -> len data < 2 ^ 63 -> len (chunks (drop (Z.to_nat base) data)) < 2 ^ 28 ->
  content_addressed s ->
  (forall sh s1 sh' s2, put_chunks frag data base s = (Ok (h, Some sh), s1) -> PrepareShard sh s1 = (Ok sh', s2) ->
     sha256_collision_free s1 (encoded 0 sh' false)) ->
  drop (Z.to_nat base) data <> [] -> mem_at s kFiles (formatHash h) = None ->
  PutFile frag data base s = (Ok h, s') ->
  exists sh fb css, GetShard h s' = (Ok sh, s') /\ fb ∈ s_Files sh /\ fb_FileHash fb = h /\
    Forall2 (term_chunks s') (fb_Entries fb) css /\
    fb_MetadataExt fb = Some (MkFileMetadataExt (Sum256 (concat (concat css)))) /\
    (concat (concat css) = drop (Z.to_nat base) data \/
     hash_broken (chunks (drop (Z.to_nat base) data)) (concat css)).
Proof.
  intros Hfr Hlen Hn Hca Hcol Hne HN. unfold PutFile. intros H. unfold mbind at 1, prog_bind at 1 in H.
  destruct (put_chunks frag data base s) as [[[h0 sh]|] s1] eqn:Ep; [|done].
  destruct (put_chunks_mem frag data base s h0 sh s1 Hfr Hlen Hn Ep) as ([M1 M2] & Hh & Hnone & Hsome).
  set (cs := chunks (drop (Z.to_nat base) data)) in *.
  assert (cs <> []) as Hcs by (intros E; apply Hne; rewrite <- (chunks_concat (drop _ _)); unfold cs in E; by rewrite E).
  destruct sh as [sh|]; [|by destruct Hcs; apply Hnone].
  destruct (Hsome sh eq_refl) as ((fb & Hfb & Hfh & Hent) & Hf & Hc & Hsz).
  unfold mbind, prog_bind, prog_wrap, catch, throw in H. destruct (PutShard sh s1) as [[b|] s2] eqn:Eps; [|done].
  injection H as <- <-.
  destruct (PutShard_found sh s1 b s2 fb (M2 Hca)) as (sh1 & fb' & G1 & _ & G2 & (digest & css & -> & V1 & _ & V2 & _) & G3);
    [by intros sh' s3; apply (Hcol sh s1)|done|done|done|done|rewrite Hfb; by left| |].
  { rewrite M1 by done. by rewrite Hfh. }
  exists sh1. eexists. exists css. rewrite Hfh in G1. split; [done|]. split; [exact G2|]. split; [done|].
  cbn [fb_Entries fb_MetadataExt]. split.
  { eapply Forall2_impl; [exact V1|]. intros e c. by apply term_chunks_xorbs. }
  destruct (V2 Hent) as [-> Hh']. split; [done|].
  rewrite <- (chunks_concat (drop (Z.to_nat base) data)). fold cs.
  destruct (file_hash_binds cs (concat css) h0) as [->|Hbr]; [| |done|by rewrite Hfh in Hh'|by left|by right].
  - apply Forall_forall. intros c Hc'. pose proof (chunks_bound (drop (Z.to_nat base) data)) as Hb.
    rewrite Forall_forall in Hb. specialize (Hb _ Hc'). unfold is_u64, MaxChunkSize in *. lia.
  - rewrite Hfb in Hf. apply Forall_singleton in Hf as (_ & _ & Hes & _). clear -V1 Hes.
    induction V1 as [|e c es css Hec _ IH]; [constructor|]. apply Forall_cons in Hes as [(_ & He & _) Hes].
    cbn. rewrite Forall_app. split; [by eapply term_chunks_u64|by apply IH].
Qed.

Lemma PutFile_hash frag data base (s : memory) h s' :
  (forall d, concat (frag d) = d) -> len data < 2 ^ 63 -> len (chunks (drop (Z.to_nat base) data)) < 2 ^ 28 ->
  PutFile frag data base s = (Ok h, s') ->
  ComputeFileHash (map ComputeChunkHash (chunks (drop (Z.to_nat base) data))) (map len (chunks (drop (Z.to_nat base) data))) = Ok h /\
  forall n o, mem_at s kFiles n = Some o -> mem_at s' kFiles n = Some o.
Proof.
  intros Hfr Hlen Hn H. unfold PutFile in H. unfold mbind at 1, prog_bind at 1 in H.
  destruct (put_chunks frag data base s) as [[[h0 sh]|] s1] eqn:Ep; [|done].
  destruct (put_chunks_mem frag data base s h0 sh s1 Hfr Hlen Hn Ep) as ([M1 _] & Hh & _).
  destruct sh as [sh|]; [|injection H as <- <-; split; [done|]; intros n o Ho; by rewrite M1].
  unfold mbind, prog_bind, prog_wrap, catch, throw in H. destruct (PutShard sh s1) as [[b|] s2] eqn:Eps; [|done].
  injection H as <- <-. split; [done|]. intros n o Ho. rewrite <- M1 in Ho by done.
  apply (PutShard_keeps sh) in Ho. cbn in Eps. by rewrite Eps in Ho.
Qed.

(** C2 a stored file is found, whole.  When [PutFile] succeeds over a memory
    store whose objects are content-addressed, from any position of the file and
    however its reads are cut, then it returns the hash of the file's chunks.
    An empty file stores nothing.  The hash of a non-empty file, if it was not
    indexed before, resolves to a shard with a file block of that hash; the
    block's terms decode, from the xorbs that are stored afterwards, to exactly
    the bytes of the file, and the block records their SHA-256; unless two of
    the digests computed collide (or are zero).  Deduplicated chunks are
    included: they are read from xorbs that were stored before.  A hash that was
    indexed before keeps its entry: what it resolves to is not verified anew. *)
Theorem PutFile_content frag data base s h s' :
  (forall d, concat (frag d) = d) -> len data < 2 ^ 63 -> len (chunks (drop (Z.to_nat base) data)) < 2 ^ 28 ->
  content_addressed s ->
  (forall sh s1 sh' s2, put_chunks frag data base s = (Ok (h, Some sh), s1) -> PrepareShard sh s1 = (Ok sh', s2) ->
     sha256_collision_free s1 (encoded 0 sh' false)) ->
  PutFile frag data base s = (Ok h, s') ->
  let file := drop (Z.to_nat base) data in
  ComputeFileHash (map ComputeChunkHash (chunks file)) (map len (chunks file)) = Ok h /\
  (file = [] -> h = zeroHash /\ s' = s) /\
  (forall o, mem_at s kFiles (formatHash h) = Some o -> mem_at s' kFiles (formatHash h) = Some o) /\
  (file <> [] -> mem_at s kFiles (formatHash h) = None ->
   exists sh fb css, GetShard h s' = (Ok sh, s') /\ fb ∈ s_Files sh /\ fb_FileHash fb = h /\
     Forall2 (term_chunks s') (fb_Entries fb) css /\
     fb_MetadataExt fb = Some (MkFileMetadataExt (Sum256 (concat (concat css)))) /\
     (concat (concat css) = file \/ hash_broken (chunks file) (concat css))).
Proof.
  intros Hfr Hlen Hn Hca Hcol H file. destruct (PutFile_hash _ _ _ _ _ _ Hfr Hlen Hn H) as [Hh Hk].
  split; [done|]. split; [|split; [apply Hk|]].
  - intros He. unfold PutFile, mbind, prog_bind in H. rewrite put_chunks_empty in H by done. by injection H as <- <-.
  - intros Hne HN. by apply (PutFile_new frag data base s).
Qed.
End content.

(** ** Witness *)

Section witness.
#[local] Instance file_b3 : Blake3 := poly_blake3.
#[local] Instance file_lz4 : Lz4 := rle_lz4.
#[local] Instance file_bufs : ChunkBufs := zero_bufs.

Definition wit_data : list byte := str "> hello world".
Definition wit_frag (d : list byte) : list (list byte) := [take 3 d; drop 3 d].
Definition empty_store : memory := NewStorage [] quiet_env.

(** The file from its third byte on. *)
Definition wit_hash_of : FileHash :=
  match PutFile wit_frag wit_data 2 empty_store with (Ok h, _) => h | _ => zeroHash end.

Lemma wit_put : exists s', PutFile wit_frag wit_data 2 empty_store = (Ok wit_hash_of, s').
Proof.
  unfold wit_hash_of.
  assert (is_ok (PutFile wit_frag wit_data 2 empty_store).1 = true) as H by (vm_compute; reflexivity).
  destruct (PutFile wit_frag wit_data 2 empty_store) as [[h|e] s']; [by exists s'|discriminate H].
Qed.

Lemma wit_frag_concat d : concat (wit_frag d) = d.
Proof. cbn. by rewrite app_nil_r, take_drop. Qed.

Lemma empty_store_at k n : mem_at empty_store k n = None.
Proof. unfold mem_at, mem_get. done. Qed.

Lemma empty_addressed : content_addressed empty_store.
Proof. split; intros n o; by rewrite empty_store_at. Qed.

Lemma PutFile_content_witness :
  exists s' sh fb css, PutFile wit_frag wit_data 2 empty_store = (Ok wit_hash_of, s') /\
    GetShard wit_hash_of s' = (Ok sh, s') /\ Forall2 (term_chunks s') (fb_Entries fb) css /\
    (concat (concat css) = str "hello world" \/ hash_broken (chunks (str "hello world")) (concat css)).
Proof.
  destruct wit_put as [s' E].
  destruct (PutFile_content wit_frag wit_data 2 empty_store wit_hash_of s') as (_ & _ & _ & Hnew).
  - apply wit_frag_concat.
  - vm_compute. reflexivity.
  - vm_compute. reflexivity.
  - apply empty_addressed.
  - intros sh s1 sh' s2 Ep _ n o Ho.
    destruct (put_chunks_mem wit_frag wit_data 2 empty_store wit_hash_of (Some sh) s1) as ([M _] & _).
    + apply wit_frag_concat.
    + vm_compute. reflexivity.
    + vm_compute. reflexivity.
    + exact Ep.
    + rewrite M, empty_store_at in Ho by discriminate. discriminate Ho.
  - exact E.
  - destruct Hnew as (sh & fb & css & H1 & _ & _ & H2 & _ & H3); [discriminate|apply empty_store_at|].
    exists s', sh, fb, css. split; [exact E|]. split; [exact H1|]. split; [exact H2|exact H3].
Defined.
End witness.
