(* ===== verification/Reconstruct.v ===== *)
(** * Reading files back: [storage/reconstructed_file.go],
      [storage/reconstructed_pipeline.go]

    A file is read through the terms of its shard entry: [fetch] reads the
    packed chunks of every term from the stored xorbs, checking each against
    the chunk offsets and the sizes the term declares; [decode_job] unpacks
    them; and [reconstructedFile] turns the resulting sequence of chunks into a
    seekable reader that restarts it after a seek and withholds the last chunk
    until the last term is checked.  The channels, the window and the workers of
    the pipeline are the subject of [Pipeline].  A context is observed through
    an oracle, so it may be cancelled between any two steps.
    Proved: over terms that decode to a file, [Read] and [Seek] behave like a
    reader over the file's bytes; and whatever the terms and the context do, a
    [Read] only ever returns bytes of the decoded chunks at its position. *)

From Stdlib Require Import ZArith Lia Strings.Byte Strings.String.
From S2P Require Import Prelude Hash Sha256 Gearhash Merkle ByteGrouping Compression XorbEncoder XorbDecoder.
From S2P Require Import XorbOffsets Shard ShardCodec Prog Storage PutShard.

Lemma i64_range z : is_i64 (i64 z).
Proof. unfold is_i64, i64. pose proof (Z.mod_pos_bound (z + 2 ^ 63) (2 ^ 64)). lia. Qed.

(** ** Fetching *)

Definition frameBufSize : Z := MaxChunkSize + ChunkHeaderSize.

(** A fetched chunk: [in[:packed]], its header and its index. *)
Record pframe : Type := MkFrame {
  fr_packed : list byte;
  fr_header : ChunkHeader;
  fr_index : Z;
}.

(** What a run of the pipeline delivers: the decoded chunks in file order, and
    why the fetcher stopped early. *)
Record pipe : Type := MkPipe {
  p_ordered : list (result (list byte));
  p_err : option error;
}.

Section pipeline.
Context {B3 : Blake3} {L : Lz4} {P : ChunkBufs} {S : Type} {XS : XorbStore S}.

(** [acquire], for a window with room: the error of the context. *)
Definition acquire : prog S (option error) := catch ctx_Err (fun _ => mret None) (fun e => mret (Some e)).

(** The chunks of a term; the frames are sent as they are read, so those before
    an error count. *)
Fixpoint fetch_chunks (n : nat) (term : FileDataSequenceEntry) (offsets : list Z) (i start unpacked : Z)
    (rc : reader) (sent : list pframe) : prog S (list pframe * option error) :=
  match n with
  | O =>
      if negb (unpacked =? fe_UnpackedSegBytes term)
      then mret (sent, Some (Errorf "reconstructed term of xorb %s has %d bytes, expected %d"))
      else mret (sent, None)
  | Datatypes.S n =>
      a ← (if fe_ChunkIndexStart term <? i then acquire else mret None);
      match a with
      | Some e => mret (sent, Some e)
      | None =>
          match offsets !! Z.to_nat i with
          | None => mret (sent, Some (Panic "index out of range"))
          | Some off =>
              let packed := i64 off - start in
              let start := i64 off in
              if (packed <? ChunkHeaderSize) || (frameBufSize <? packed)
              then mret (sent, Some (Errorf "read xorb %s chunk %d: invalid packed size %d"))
              else
                match ReadFull packed rc with
                | (_, Some e, _) =>
                    let e := if bool_decide (e = EOF) then UnexpectedEOF else e in
                    mret (sent, Some (Wrapf "read xorb %s chunk %d: %w" e))
                | (buf, None, rc) =>
                    match ParseChunkHeader (slice 0 ChunkHeaderSize buf) with
                    | Err e => mret (sent, Some (Wrapf "read xorb %s chunk %d: %w" e))
                    | Ok h =>
                        if negb (CompressedSize h + ChunkHeaderSize =? packed)
                        then mret (sent, Some (Errorf "read xorb %s chunk %d: header declares %d compressed bytes in a %d-byte frame"))
                        else
                          let unpacked := u64 (unpacked + UncompressedSize h) in
                          if fe_UnpackedSegBytes term <? unpacked
                          then mret (sent, Some (Errorf "read xorb %s chunk %d: chunks exceed the term's %d bytes"))
                          else fetch_chunks n term offsets (i + 1) start unpacked rc (sent ++ [MkFrame buf h i])
                    end
                end
          end
      end
  end.

(** [fetchTerm]. *)
Definition fetchTerm (term : FileDataSequenceEntry) (sent : list pframe) : prog S (list pframe * option error) :=
  a ← acquire;
  match a with
  | Some e => mret (sent, Some e)
  | None =>
      catch
        (offsets ← prog_wrap "locate xorb %s chunks: %w" (GetXorbChunkOffsets (fe_CASHash term));
         '(start, end_) ← lift (wrap_err "locate xorb %s chunks: %w"
           (ChunkDataRangeFromOffsets offsets (fe_ChunkIndexStart term) (fe_ChunkIndexEnd term)));
         rc ← prog_wrap "read xorb %s: %w" (openXorbRange (fe_CASHash term) start end_);
         mret (offsets, start, rc))
        (fun '(offsets, start, rc) =>
           fetch_chunks (Z.to_nat (fe_ChunkIndexEnd term - fe_ChunkIndexStart term)) term offsets
             (fe_ChunkIndexStart term) start 0 rc sent)
        (fun e => mret (sent, Some e))
  end.

(** [fetch]: the non-empty terms in order, until one fails. *)
Fixpoint fetch (terms : list FileDataSequenceEntry) (sent : list pframe) : prog S (list pframe * option error) :=
  match terms with
  | [] => mret (sent, None)
  | term :: terms =>
      if fe_UnpackedSegBytes term =? 0 then fetch terms sent
      else
        '(sent, err) ← fetchTerm term sent;
        match err with
        | Some e => mret (sent, Some e)
        | None => fetch terms sent
        end
  end.

(** The body of [decode]. *)
Definition decode_job (fr : pframe) : result (list byte) :=
  let body := drop (Z.to_nat ChunkHeaderSize) (fr_packed fr) in
  wrap_err "decode xorb %s chunk %d: %w"
    (if Compression (fr_header fr) =? CompressionNone
     then DecodeChunk (BSlice [] []) (fr_header fr) body
     else DecodeChunk (BSlice (GetChunkBuf 3) []) (fr_header fr) body).

(** [startPipeline], run to its end. *)
Definition startPipeline (terms : list FileDataSequenceEntry) : prog S pipe :=
  '(frames, err) ← fetch terms [];
  mret (MkPipe (map decode_job frames) err).
End pipeline.

(** ** The reader *)

(** What an observation of the contexts sees: all live, the parent done with an
    error, or the reader being closed. *)
Inductive cstate : Type :=
| Live
| CtxErr (e : error)
| Closing.

Record reconstructedFile : Type := MkRFile {
  rf_entries : list FileDataSequenceEntry;
  rf_size : Z;
  rf_position : Z;
  rf_closed : bool;
  rf_err : option error;
  rf_pipe : option pipe;
  rf_cur : option (list byte);
  rf_chunkOff : Z;
  rf_obs : nat;                    (** observations of the contexts so far *)
}.

Definition NewReconstructedFile (entries : list FileDataSequenceEntry) : reconstructedFile :=
  MkRFile entries (foldl (fun size e => i64 (size + fe_UnpackedSegBytes e)) 0 entries) 0 false None None None 0 0.

(** Field updates. *)
Definition rf_set_position (p : Z) (f : reconstructedFile) : reconstructedFile :=
  MkRFile (rf_entries f) (rf_size f) p (rf_closed f) (rf_err f) (rf_pipe f) (rf_cur f) (rf_chunkOff f) (rf_obs f).
Definition rf_set_err (e : option error) (f : reconstructedFile) : reconstructedFile :=
  MkRFile (rf_entries f) (rf_size f) (rf_position f) (rf_closed f) e (rf_pipe f) (rf_cur f) (rf_chunkOff f) (rf_obs f).
Definition rf_set_closed (f : reconstructedFile) : reconstructedFile :=
  MkRFile (rf_entries f) (rf_size f) (rf_position f) true (rf_err f) (rf_pipe f) (rf_cur f) (rf_chunkOff f) (rf_obs f).
Definition rf_set_pipe (p : option pipe) (cur : option (list byte)) (off : Z) (f : reconstructedFile) : reconstructedFile :=
  MkRFile (rf_entries f) (rf_size f) (rf_position f) (rf_closed f) (rf_err f) p cur off (rf_obs f).
Definition rf_tick (f : reconstructedFile) : reconstructedFile :=
  MkRFile (rf_entries f) (rf_size f) (rf_position f) (rf_closed f) (rf_err f) (rf_pipe f) (rf_cur f) (rf_chunkOff f)
    (Datatypes.S (rf_obs f)).

Section reader.
(** [cx] is what the observations of the contexts see, [opens] what a pipeline
    over some terms delivers when it is started at an observation. *)
Context (cx : nat -> cstate) (opens : nat -> list FileDataSequenceEntry -> pipe).

Definition observe (f : reconstructedFile) : cstate * reconstructedFile := (cx (rf_obs f), rf_tick f).

(** [life.Err()]: the context every pipeline derives from. *)
Definition life_Err (c : cstate) : option error :=
  match c with Live => None | CtxErr e => Some e | Closing => Some Canceled end.

(** [ctx.Err()]. *)
Definition ctx_error (c : cstate) : option error :=
  match c with CtxErr e => Some e | _ => None end.

(** [closing]. *)
Definition closing (f : reconstructedFile) : bool * reconstructedFile :=
  let '(c, f) := observe f in (match c with Closing => true | _ => false end, f).

(** [termAt]. *)
Fixpoint term_loop (position off i : Z) (entries : list FileDataSequenceEntry) : Z * Z :=
  match entries with
  | [] => (i, off)
  | e :: entries =>
      let end_ := i64 (off + fe_UnpackedSegBytes e) in
      if position <? end_ then (i, off) else term_loop position end_ (i + 1) entries
  end.

Definition termAt (position : Z) (f : reconstructedFile) : Z * Z := term_loop position 0 0 (rf_entries f).

(** [stop]. *)
Definition rf_stop (f : reconstructedFile) : reconstructedFile :=
  match rf_pipe f with
  | None => f
  | Some _ => rf_set_pipe None None (rf_chunkOff f) f
  end.

(** [fail]. *)
Definition rf_fail (e : error) (f : reconstructedFile) : error * reconstructedFile :=
  let '(c, f) := closing f in
  let '(e, f) :=
    if c then (Wrapf "read reconstructed file: %w" ErrClosed, f)
    else
      let '(c, f) := observe f in
      match ctx_error c with Some e' => (e', f) | None => (e, f) end in
  (e, rf_set_err (Some e) (rf_stop f)).

(** [pipeline.next]: the chunk, the pipeline and the reader afterwards. *)
Definition p_next (p : pipe) (f : reconstructedFile) : result (list byte) * pipe * reconstructedFile :=
  let '(c, f) := observe f in
  match life_Err c with
  | Some e => (Err e, p, f)
  | None =>
      match p_ordered p with
      | [] => (Err (default UnexpectedEOF (p_err p)), p, f)
      | fr :: rest =>
          let p := MkPipe rest (p_err p) in
          let '(c, f) := observe f in
          match life_Err c with
          | Some e => (Err e, p, f)
          | None =>
              match fr with
              | Err e => (Err e, p, f)
              | Ok data =>
                  let '(c, f) := observe f in
                  match life_Err c with
                  | Some e => (Err e, p, f)
                  | None => (Ok data, p, f)
                  end
              end
          end
      end
  end.

(** The loop of [advance]: a restarted pipeline begins at its term's first
    chunk. *)
Fixpoint advance_loop (fuel : nat) (p : pipe) (f : reconstructedFile) : option error * reconstructedFile :=
  match fuel with
  | O => (Some (Panic "out of fuel"), f)
  | Datatypes.S fuel =>
      match p_next p f with
      | (Err e, p, f) => (Some e, rf_set_pipe (Some p) None (rf_chunkOff f) f)
      | (Ok data, p, f) =>
          let end_ := i64 (rf_chunkOff f + len data) in
          if end_ <=? rf_position f then advance_loop fuel p (rf_set_pipe (Some p) None end_ f)
          else (None, rf_set_pipe (Some p) (Some data) (rf_chunkOff f) f)
      end
  end.

(** [advance]. *)
Definition advance (f : reconstructedFile) : option error * reconstructedFile :=
  let f :=
    match rf_cur f with
    | Some data => rf_set_pipe (rf_pipe f) None (i64 (rf_chunkOff f + len data)) f
    | None => f
    end in
  match rf_pipe f with
  | Some p => advance_loop (Datatypes.S (length (p_ordered p))) p f
  | None =>
      let '(term, off) := termAt (rf_position f) f in
      let p := opens (rf_obs f) (drop (Z.to_nat term) (rf_entries f)) in
      advance_loop (Datatypes.S (length (p_ordered p))) p (rf_set_pipe (Some p) None off f)
  end.

(** [pipeline.drain]; the frames past the file's end are empty. *)
Fixpoint drain_loop (frames : list (result (list byte))) (err : option error) (f : reconstructedFile) :
    option error * reconstructedFile :=
  let '(c, f) := observe f in
  match life_Err c with
  | Some e => (Some e, f)
  | None =>
      match frames with
      | [] =>
          match err with
          | Some e => (Some e, f)
          | None => let '(c, f) := observe f in (life_Err c, f)
          end
      | fr :: frames =>
          let '(c, f) := observe f in
          match life_Err c with
          | Some e => (Some e, f)
          | None =>
              match fr with
              | Err e => (Some e, f)
              | Ok _ => drain_loop frames err f
              end
          end
      end
  end.

Definition p_drain (f : reconstructedFile) : option error * reconstructedFile :=
  match rf_pipe f with
  | None => (Some (Panic "nil pointer dereference"), f)
  | Some p =>
      let '(e, f) := drain_loop (p_ordered p) (p_err p) f in
      (e, rf_set_pipe (Some (MkPipe [] (p_err p))) (rf_cur f) (rf_chunkOff f) f)
  end.

(** One round of the loop of [Read] before it copies: the delivered chunk holds
    the position, or the call ends with an error and whether it is returned. *)
Definition read_step (f : reconstructedFile) : option (error * bool) * reconstructedFile :=
  if match rf_cur f with
     | None => true
     | Some data => rf_position f =? i64 (rf_chunkOff f + len data)
     end
  then
    match advance f with
    | (Some e, f) => let '(e, f) := rf_fail e f in (Some (e, true), f)
    | (None, f) =>
        if rf_size f <=? i64 (rf_chunkOff f + len (default [] (rf_cur f))) then
          match p_drain f with
          | (Some e, f) => let '(e, f) := rf_fail e f in (Some (e, false), f)
          | (None, f) => (None, f)
          end
        else (None, f)
    end
  else (None, f).

(** The loop of [Read]; every round copies at least a byte. *)
Fixpoint read_loop (fuel : nat) (plen : Z) (got : list byte) (f : reconstructedFile) :
    list byte * option error * reconstructedFile :=
  match fuel with
  | O => (got, Some (Panic "out of fuel"), f)
  | Datatypes.S fuel =>
      if (len got <? plen) && (rf_position f <? rf_size f) then
        match read_step f with
        | (Some (e, returned), f) =>
            if returned || (len got =? 0) then (got, Some e, f) else (got, None, f)
        | (None, f) =>
            let copied := take (Z.to_nat (plen - len got))
              (drop (Z.to_nat (rf_position f - rf_chunkOff f)) (default [] (rf_cur f))) in
            read_loop fuel plen (got ++ copied) (rf_set_position (i64 (rf_position f + len copied)) f)
        end
      else (got, None, f)
  end.

(** [reconstructedFile.Read] into a slice of length [plen]. *)
Definition rf_Read (plen : Z) (f : reconstructedFile) : list byte * option error * reconstructedFile :=
  let '(c, f) := if rf_closed f then (true, f) else closing f in
  if c then ([], Some (Wrapf "read reconstructed file: %w" ErrClosed), f)
  else
    let '(c, f) := observe f in
    match ctx_error c with
    | Some e => ([], Some e, rf_stop f)
    | None =>
        if plen =? 0 then ([], None, f)
        else
          match rf_err f with
          | Some e => ([], Some e, f)
          | None =>
              if rf_size f <=? rf_position f then ([], Some EOF, f)
              else read_loop (Datatypes.S (Z.to_nat plen)) plen [] f
          end
    end.

(** [reconstructedFile.Seek]. *)
Definition rf_Seek (offset whence : Z) (f : reconstructedFile) : result Z * reconstructedFile :=
  let '(c, f) := if rf_closed f then (true, f) else closing f in
  if c then (Err (Wrapf "seek reconstructed file: %w" ErrClosed), f)
  else
    let next :=
      if whence =? 0 then Some offset
      else if whence =? 1 then Some (i64 (rf_position f + offset))
      else if whence =? 2 then Some (i64 (rf_size f + offset))
      else None in
    match next with
    | None => (Err (Errorf "invalid seek whence %d"), f)
    | Some next =>
        if next <? 0 then (Err (Errorf "negative seek position %d"), f)
        else if next =? rf_position f then (Ok next, f)
        else
          let outside :=
            match rf_cur f with
            | None => true
            | Some data => (next <? rf_chunkOff f) || (i64 (rf_chunkOff f + len data) <? next)
            end in
          let f := if outside then rf_set_err None (rf_stop f) else f in
          (Ok next, rf_set_position next f)
    end.

(** [reconstructedFile.Close]. *)
Definition rf_Close (f : reconstructedFile) : reconstructedFile :=
  if rf_closed f then f else rf_stop (rf_set_closed f).
End reader.

(** ** Reading a file that decodes *)

(** The operations of a client, and what a reader over bytes answers. *)
Inductive rop : Type :=
| OpRead (plen : Z)
| OpSeek (offset whence : Z)
| OpClose.

Inductive rout : Type :=
| OutRead (got : list byte) (e : option error)
| OutSeek (r : result Z)
| OutClose.

Definition file_Read (content : list byte) (plen pos : Z) : list byte * option error * Z :=
  if plen =? 0 then ([], None, pos)
  else if len content <=? pos then ([], Some EOF, pos)
  else
    let got := take (Z.to_nat plen) (drop (Z.to_nat pos) content) in
    (got, None, pos + len got).

Definition file_Seek (content : list byte) (offset whence pos : Z) : result Z * Z :=
  match (if whence =? 0 then Some offset
         else if whence =? 1 then Some (i64 (pos + offset))
         else if whence =? 2 then Some (i64 (len content + offset))
         else None) with
  | None => (Err (Errorf "invalid seek whence %d"), pos)
  | Some next => if next <? 0 then (Err (Errorf "negative seek position %d"), pos) else (Ok next, next)
  end.

Fixpoint file_run (content : list byte) (closed : bool) (pos : Z) (ops : list rop) : list rout :=
  match ops with
  | [] => []
  | OpRead plen :: ops =>
      if closed then OutRead [] (Some (Wrapf "read reconstructed file: %w" ErrClosed)) :: file_run content closed pos ops
      else let '(got, e, pos) := file_Read content plen pos in OutRead got e :: file_run content closed pos ops
  | OpSeek offset whence :: ops =>
      if closed then OutSeek (Err (Wrapf "seek reconstructed file: %w" ErrClosed)) :: file_run content closed pos ops
      else let '(r, pos) := file_Seek content offset whence pos in OutSeek r :: file_run content closed pos ops
  | OpClose :: ops => OutClose :: file_run content true pos ops
  end.

Fixpoint rf_run (cx : nat -> cstate) (opens : nat -> list FileDataSequenceEntry -> pipe) (f : reconstructedFile)
    (ops : list rop) : list rout :=
  match ops with
  | [] => []
  | OpRead plen :: ops =>
      let '(got, e, f) := rf_Read cx opens plen f in OutRead got e :: rf_run cx opens f ops
  | OpSeek offset whence :: ops =>
      let '(r, f) := rf_Seek cx offset whence f in OutSeek r :: rf_run cx opens f ops
  | OpClose :: ops => OutClose :: rf_run cx opens (rf_Close f) ops
  end.

Lemma tick_fields n f :
  rf_entries (Nat.iter n rf_tick f) = rf_entries f /\ rf_size (Nat.iter n rf_tick f) = rf_size f /\
  rf_position (Nat.iter n rf_tick f) = rf_position f /\ rf_closed (Nat.iter n rf_tick f) = rf_closed f /\
  rf_err (Nat.iter n rf_tick f) = rf_err f /\ rf_pipe (Nat.iter n rf_tick f) = rf_pipe f /\
  rf_cur (Nat.iter n rf_tick f) = rf_cur f /\ rf_chunkOff (Nat.iter n rf_tick f) = rf_chunkOff f.
Proof. induction n as [|n IH]; [done|]. by rewrite Nat.iter_succ. Qed.

(** The chunks [css] of the terms, from any term on, are what a pipeline
    delivers. *)
Record readable (opens : nat -> list FileDataSequenceEntry -> pipe) (entries : list FileDataSequenceEntry)
    (css : list (list (list byte))) : Prop := {
  rd_sizes : Forall2 (fun e cs => fe_UnpackedSegBytes e = len (concat cs)) entries css;
  rd_total : len (concat (concat css)) < 2 ^ 62;
  rd_opens n k : exists frames, opens n (drop k entries) = MkPipe (map Ok frames) None /\
    concat frames = concat (concat (drop k css));
}.

Definition op_ok (op : rop) : Prop :=
  match op with OpRead plen => 0 <= plen | OpSeek offset _ => is_i64 offset | OpClose => True end.

(** The term holding a position. *)
Lemma term_loop_spec es (cs : list (list (list byte))) i off pos :
  Forall2 (fun e (c : list (list byte)) => fe_UnpackedSegBytes e = len (concat c)) es cs -> 0 <= off -> off + len (concat (concat cs)) < 2 ^ 62 ->
  off <= pos < off + len (concat (concat cs)) ->
  exists k o, term_loop pos off i es = (i + Z.of_nat k, o) /\ o <= pos /\
    o = off + len (concat (concat (take k cs))) /\ (k < length es)%nat.
Proof.
  intros H. revert i off. induction H as [|e c es cs He _ IH]; intros i off Ho Hb Hp.
  { cbn in Hp. rewrite len_nil in Hp. lia. }
  cbn [term_loop concat] in *. rewrite concat_app, len_app in Hb, Hp.
  pose proof (len_nonneg (concat c)). pose proof (len_nonneg (concat (concat cs))).
  rewrite He, i64_small by (unfold is_i64; lia).
  destruct (Z.ltb_spec pos (off + len (concat c))).
  - exists 0%nat, off. cbn [take concat length]. rewrite (@len_nil byte). split; [f_equal; lia|]. lia.
  - destruct (IH (i + 1) (off + len (concat c))) as (k & o & Hk & Ho1 & Ho2 & Hk2); [lia..|].
    exists (Datatypes.S k), o. rewrite Hk. split; [f_equal; lia|]. split; [done|].
    cbn [take concat length]. rewrite concat_app, len_app. split; lia.
Qed.

Lemma size_sum es (cs : list (list (list byte))) acc :
  Forall2 (fun e (c : list (list byte)) => fe_UnpackedSegBytes e = len (concat c)) es cs -> 0 <= acc ->
  acc + len (concat (concat cs)) < 2 ^ 62 ->
  foldl (fun size e => i64 (size + fe_UnpackedSegBytes e)) acc es = acc + len (concat (concat cs)).
Proof.
  intros H. revert acc. induction H as [|e c es cs He _ IH]; intros acc Ha Hb; cbn [foldl concat] in *.
  - cbn in *. rewrite (@len_nil byte) in *. lia.
  - rewrite concat_app, len_app in *. pose proof (len_nonneg (concat c)). pose proof (len_nonneg (concat (concat cs))).
    rewrite He, i64_small, IH by (unfold is_i64; lia). lia.
Qed.

(** The bytes copied from a chunk are the file's bytes at the position. *)
Lemma copied_bytes (content : list byte) off pos n d tl :
  0 <= off -> off <= pos < off + len d -> drop (Z.to_nat off) content = d ++ tl -> 0 <= n ->
  len (take (Z.to_nat n) (drop (Z.to_nat (pos - off)) d)) = Z.min n (off + len d - pos) /\
  take (Z.to_nat n) (drop (Z.to_nat (pos - off)) d) =
    take (length (take (Z.to_nat n) (drop (Z.to_nat (pos - off)) d))) (drop (Z.to_nat pos) content).
Proof.
  intros Ho Hp Hd Hn.
  assert (len (take (Z.to_nat n) (drop (Z.to_nat (pos - off)) d)) = Z.min n (off + len d - pos)) as Hl.
  { unfold len in *. rewrite length_take, length_drop. lia. }
  split; [done|]. replace pos with (off + (pos - off)) at 3 by lia.
  rewrite Z2Nat.inj_add, <- drop_drop, Hd by lia. rewrite drop_app_le by (unfold len in *; lia).
  rewrite take_app_le by (rewrite length_take; lia). rewrite length_take.
  destruct (Nat.le_ge_cases (Z.to_nat n) (length (drop (Z.to_nat (pos - off)) d))).
  - by rewrite Nat.min_l.
  - by rewrite Nat.min_r, !take_ge.
Qed.

Section live.
Context (cx : nat -> cstate) (opens : nat -> list FileDataSequenceEntry -> pipe).
Context (entries : list FileDataSequenceEntry) (css : list (list (list byte))).
Hypothesis always_live : forall n, cx n = Live.
Hypothesis file_readable : readable opens entries css.

Let content : list byte := concat (concat css).

(** The delivered chunk and what the pipeline still holds are the file from
    [chunkOff] on. *)
Record at_chunk (f : reconstructedFile) (d : list byte) (frames : list (list byte)) : Prop := {
  ac_pipe : rf_pipe f = Some (MkPipe (map Ok frames) None);
  ac_cur : rf_cur f = Some d;
  ac_off : 0 <= rf_chunkOff f;
  ac_rest : drop (Z.to_nat (rf_chunkOff f)) content = d ++ concat frames;
  ac_le : rf_chunkOff f <= len content;
}.

Record rf_ok (f : reconstructedFile) : Prop := {
  ok_entries : rf_entries f = entries;
  ok_size : rf_size f = len content;
  ok_open : rf_closed f = false;
  ok_err : rf_err f = None;
  ok_pos : 0 <= rf_position f < 2 ^ 63;
  ok_state : (rf_pipe f = None /\ rf_cur f = None) \/
    exists d frames, at_chunk f d frames /\ rf_chunkOff f <= rf_position f <= rf_chunkOff f + len d;
}.

Lemma len_content : len content < 2 ^ 62.
Proof. apply file_readable. Qed.

Lemma at_chunk_len f d frames : at_chunk f d frames -> rf_chunkOff f + len d + len (concat frames) = len content.
Proof.
  intros [_ _ H1 H2 H3]. apply (f_equal len) in H2. rewrite len_app in H2. unfold len in *. rewrite length_drop in H2. lia.
Qed.

Lemma skip_terms k : drop (Z.to_nat (len (concat (concat (take k css))))) content = concat (concat (drop k css)).
Proof.
  unfold content. rewrite <- (take_drop k css) at 2. rewrite concat_app, concat_app, to_nat_len. by rewrite drop_app_length.
Qed.

Lemma p_next_live frames d f :
  p_next cx (MkPipe (map Ok (d :: frames)) None) f =
    (Ok d, MkPipe (map Ok frames) None, rf_tick (rf_tick (rf_tick f))).
Proof. unfold p_next, observe. rewrite !always_live. done. Qed.

Lemma advance_loop_S fuel p f :
  advance_loop cx (Datatypes.S fuel) p f =
    match p_next cx p f with
    | (Err e, p, f) => (Some e, rf_set_pipe (Some p) None (rf_chunkOff f) f)
    | (Ok data, p, f) =>
        let end_ := i64 (rf_chunkOff f + len data) in
        if end_ <=? rf_position f then advance_loop cx fuel p (rf_set_pipe (Some p) None end_ f)
        else (None, rf_set_pipe (Some p) (Some data) (rf_chunkOff f) f)
    end.
Proof. done. Qed.

(** [advance] reaches the chunk that holds the position. *)
Lemma advance_loop_live frames f :
  rf_size f = len content -> 0 <= rf_chunkOff f <= rf_position f -> rf_position f < len content ->
  drop (Z.to_nat (rf_chunkOff f)) content = concat frames ->
  exists f' d frames', advance_loop cx (Datatypes.S (length (map (@Ok (list byte)) frames))) (MkPipe (map Ok frames) None) f = (None, f') /\
    at_chunk f' d frames' /\ rf_chunkOff f' <= rf_position f < rf_chunkOff f' + len d /\
    rf_entries f' = rf_entries f /\ rf_size f' = rf_size f /\ rf_closed f' = rf_closed f /\ rf_err f' = rf_err f /\
    rf_position f' = rf_position f.
Proof.
  pose proof len_content as Hc. revert f. induction frames as [|d frames IH]; intros f Hsz Hoff Hpos Hd.
  { apply (f_equal len) in Hd. unfold len in *. rewrite length_drop in Hd. cbn in Hd. lia. }
  rewrite advance_loop_S, p_next_live.
  change (length (map Ok (d :: frames))) with (Datatypes.S (length (map (@Ok (list byte)) frames))). change (rf_chunkOff (rf_tick (rf_tick (rf_tick f)))) with (rf_chunkOff f).
  change (rf_position (rf_tick (rf_tick (rf_tick f)))) with (rf_position f).
  assert (rf_chunkOff f + len d <= len content) as Hle.
  { apply (f_equal len) in Hd. cbn in Hd. rewrite len_app in Hd. pose proof (len_nonneg (concat frames)).
    unfold len in *. rewrite length_drop in Hd. lia. }
  pose proof (len_nonneg d). rewrite i64_small by (unfold is_i64; lia). cbv zeta.
  destruct (Z.leb_spec (rf_chunkOff f + len d) (rf_position f)) as [Hskip|Hstop].
  - edestruct (IH (rf_set_pipe (Some (MkPipe (map Ok frames) None)) None (rf_chunkOff f + len d)
      (rf_tick (rf_tick (rf_tick f))))) as (f' & d' & frames' & -> & Hac & Hb & Hrest); cbn; [done|lia|done| |].
    + rewrite Z2Nat.inj_add, <- drop_drop, Hd by lia. cbn. by rewrite to_nat_len, drop_app_length.
    + exists f', d', frames'. split; [done|]. split; [done|]. split; [done|]. exact Hrest.
  - eexists _, d, frames. split; [reflexivity|]. cbn. split; [|split; [lia|done]].
    split; cbn; [done|done|lia|done|lia].
Qed.

Lemma advance_live f :
  rf_ok f -> rf_position f < len content ->
  (rf_cur f = None \/ exists d, rf_cur f = Some d /\ rf_position f = rf_chunkOff f + len d) ->
  exists f' d frames, advance cx opens f = (None, f') /\ at_chunk f' d frames /\
    rf_chunkOff f' <= rf_position f < rf_chunkOff f' + len d /\ rf_ok f' /\ rf_position f' = rf_position f.
Proof.
  pose proof len_content as Hc. intros [H1 H2 H3 H4 H5 H6] Hpos Hcur.
  assert (forall f0, rf_entries f0 = rf_entries f -> rf_size f0 = rf_size f -> rf_closed f0 = rf_closed f -> rf_err f0 = rf_err f ->
    rf_position f0 = rf_position f -> forall frames, 0 <= rf_chunkOff f0 <= rf_position f0 ->
    drop (Z.to_nat (rf_chunkOff f0)) content = concat frames ->
    exists f' d frames', advance_loop cx (Datatypes.S (length (map (@Ok (list byte)) frames))) (MkPipe (map Ok frames) None) f0 = (None, f') /\
      at_chunk f' d frames' /\ rf_chunkOff f' <= rf_position f < rf_chunkOff f' + len d /\ rf_ok f' /\ rf_position f' = rf_position f)
    as Hloop.
  { intros f0 E1 E2 E3 E4 E5 frames Ho Hd.
    destruct (advance_loop_live frames f0) as (f' & d & frames' & Ha & Hac & Hb & F1 & F2 & F3 & F4 & F5); [congruence|done|lia|done|].
    exists f', d, frames'. rewrite E5 in Hb, F5. split; [done|]. split; [done|]. split; [done|]. split; [|done].
    split; [congruence..|lia|]. right. exists d, frames'. split; [done|]. rewrite F5. lia. }
  unfold advance. destruct H6 as [[Hp Hn]|(d & frames & Hac & Hb)].
  - rewrite Hn. cbn [rf_pipe]. rewrite Hp. unfold termAt. rewrite H1.
    destruct (term_loop_spec entries css 0 0 (rf_position f)) as (k & o & -> & Ho1 & Ho2 & Hk);
      [apply file_readable|lia|apply file_readable|unfold content in *; lia|].
    rewrite Z.add_0_l, Nat2Z.id. destruct (rd_opens _ _ _ file_readable (rf_obs f) k) as (frames & -> & Hfr). cbn [p_ordered].
    apply Hloop; try done; cbn; [|].
    + pose proof (len_nonneg (concat (concat (take k css)))). lia.
    + rewrite Ho2, Z.add_0_l, skip_terms. done.
  - destruct Hac as [A1 A2 A3 A4 A5]. rewrite A2. cbn [rf_pipe rf_set_pipe]. rewrite A1. cbn [p_ordered].
    destruct Hcur as [?|(d' & E & Hp)]; [congruence|]. rewrite A2 in E. injection E as <-.
    pose proof (len_nonneg d). rewrite i64_small by (unfold is_i64; lia).
    apply Hloop; try done; cbn; [lia|].
    rewrite Z2Nat.inj_add, <- drop_drop, A4 by lia. by rewrite to_nat_len, drop_app_length.
Qed.

Lemma drain_loop_live frames f :
  exists n, drain_loop cx (map Ok frames) None f = (None, Nat.iter n rf_tick f).
Proof.
  revert f. induction frames as [|d frames IH]; intros f; cbn [drain_loop map]; unfold observe; rewrite !always_live.
  - cbn [life_Err]. by exists 2%nat.
  - cbn [life_Err]. destruct (IH (rf_tick (rf_tick f))) as (n & ->). exists (Datatypes.S (Datatypes.S n)).
    by rewrite !Nat.iter_succ_r.
Qed.

Lemma tick_ok n f : rf_ok f -> rf_ok (Nat.iter n rf_tick f).
Proof.
  intros [H1 H2 H3 H4 H5 H6]. destruct (tick_fields n f) as (E1 & E2 & E3 & E4 & E5 & E6 & E7 & E8).
  split; [congruence..| |]; rewrite ?E3; [done|].
  destruct H6 as [[? ?]|(d & frames & [A1 A2 A3 A4 A5] & Hb)]; [left; split; congruence|].
  right. exists d, frames. rewrite E8. split; [|done]. split; rewrite ?E8; [congruence..| | |]; done.
Qed.

(** Past the file's end the drained frames are empty. *)
Lemma p_drain_live f d frames :
  rf_ok f -> at_chunk f d frames -> rf_chunkOff f <= rf_position f <= rf_chunkOff f + len d ->
  len content <= rf_chunkOff f + len d ->
  exists f', p_drain cx f = (None, f') /\ at_chunk f' d [] /\ rf_ok f' /\
    rf_position f' = rf_position f /\ rf_chunkOff f' = rf_chunkOff f.
Proof.
  intros [H1 H2 H3 H4 H5 _] Hac Hb Hend. pose proof (at_chunk_len _ _ _ Hac) as Hlen.
  destruct Hac as [A1 A2 A3 A4 A5]. unfold p_drain. rewrite A1. cbn [p_ordered p_err].
  destruct (drain_loop_live frames f) as (n & ->).
  destruct (tick_fields n f) as (E1 & E2 & E3 & E4 & E5 & E6 & E7 & E8). generalize dependent (Nat.iter n rf_tick f). intros g ? ? E3 ? ? ? E7 E8.
  eexists. split; [reflexivity|]. cbn.
  assert (concat frames = []) as Hnil.
  { pose proof (len_nonneg (concat frames)). apply nil_length_inv. unfold len in *. lia. }
  rewrite ?E3, ?E8.
  match goal with |- at_chunk ?g _ _ /\ _ => assert (at_chunk g d []) as Hat end.
  { split; cbn; rewrite ?E7, ?E8; [done|done|done| |done]. rewrite A4, Hnil. done. }
  split; [exact Hat|]. split; [|done]. split; cbn; [congruence..|rewrite E3; lia|].
  right. exists d, []. split; [exact Hat|]. cbn. rewrite ?E3, ?E8. exact Hb.
Qed.

(** A round of [Read] leaves the chunk that holds the position. *)
Lemma read_step_live f :
  rf_ok f -> rf_position f < len content ->
  exists f' d frames, read_step cx opens f = (None, f') /\ at_chunk f' d frames /\
    rf_chunkOff f' <= rf_position f < rf_chunkOff f' + len d /\ rf_ok f' /\ rf_position f' = rf_position f.
Proof.
  pose proof len_content as Hc. intros Hok Hpos. unfold read_step.
  assert ((rf_cur f = None \/ exists d, rf_cur f = Some d /\ rf_position f = rf_chunkOff f + len d) ->
    exists f' d frames, (match advance cx opens f with
      | (Some e, f) => let '(e, f) := rf_fail cx e f in (Some (e, true), f)
      | (None, f) =>
        if rf_size f <=? i64 (rf_chunkOff f + len (default [] (rf_cur f))) then
          match p_drain cx f with
          | (Some e, f) => let '(e, f) := rf_fail cx e f in (Some (e, false), f)
          | (None, f) => (None, f)
          end
        else (None, f)
      end) = (None, f') /\ at_chunk f' d frames /\
    rf_chunkOff f' <= rf_position f < rf_chunkOff f' + len d /\ rf_ok f' /\ rf_position f' = rf_position f) as Hadv.
  { intros Hcur. destruct (advance_live f Hok Hpos Hcur) as (f' & d & frames & -> & Hac & Hb & Hok' & Hp).
    pose proof (at_chunk_len _ _ _ Hac). pose proof (len_nonneg d). pose proof (len_nonneg (concat frames)).
    rewrite (ac_cur _ _ _ Hac). cbn [default from_option id]. pose proof (ac_off _ _ _ Hac). rewrite i64_small by (unfold is_i64; lia).
    rewrite (ok_size _ Hok'). destruct (Z.leb_spec (len content) (rf_chunkOff f' + len d)).
    - destruct (p_drain_live f' d frames Hok' Hac) as (f2 & -> & Hac2 & Hok2 & Hp2 & Ho2); [rewrite Hp; lia|done|].
      exists f2, d, []. rewrite Ho2, Hp2. done.
    - by exists f', d, frames. }
  destruct (ok_state _ Hok) as [[Hp Hn]|(d & frames & Hac & Hb)].
  - rewrite Hn. apply Hadv. by left.
  - rewrite (ac_cur _ _ _ Hac). pose proof (at_chunk_len _ _ _ Hac) as Hlen.
    pose proof (len_nonneg d). pose proof (len_nonneg (concat frames)). pose proof (ac_off _ _ _ Hac).
    rewrite i64_small by (unfold is_i64; lia).
    destruct (Z.eqb_spec (rf_position f) (rf_chunkOff f + len d)).
    + apply Hadv. right. exists d. split; [apply Hac|done].
    + exists f, d, frames. split; [done|]. split; [done|]. split; [lia|done].
Qed.

Lemma read_loop_live plen fuel got f :
  rf_ok f -> 0 <= len got <= plen -> (Z.to_nat (plen - len got) < fuel)%nat ->
  exists f', read_loop cx opens fuel plen got f =
    (got ++ take (Z.to_nat (plen - len got)) (drop (Z.to_nat (rf_position f)) content), None, f') /\
    rf_ok f' /\ rf_position f' =
      rf_position f + len (take (Z.to_nat (plen - len got)) (drop (Z.to_nat (rf_position f)) content)).
Proof.
  pose proof len_content as Hc. revert got f.
  induction fuel as [|fuel IH]; intros got f Hok Hgot Hfuel; [lia|]. cbn [read_loop].
  destruct (Z.ltb_spec (len got) plen) as [Hlt|Hge]; cbn [andb].
  2: { replace (plen - len got) with 0 by lia. rewrite take_0, app_nil_r, (@len_nil byte), Z.add_0_r. by exists f. }
  rewrite (ok_size _ Hok). destruct (Z.ltb_spec (rf_position f) (len content)) as [Hp|Hp].
  2: { rewrite drop_ge, take_nil, app_nil_r, (@len_nil byte), Z.add_0_r by (unfold len in Hp; lia). by exists f. }
  destruct (read_step_live f Hok Hp) as (f1 & d & frames & -> & Hac & Hb & Hok1 & Hp1).
  rewrite (ac_cur _ _ _ Hac). cbn [default from_option id]. rewrite Hp1.
  pose proof (at_chunk_len _ _ _ Hac) as Hlen. pose proof (len_nonneg (concat frames)).
  destruct (copied_bytes content (rf_chunkOff f1) (rf_position f) (plen - len got) d (concat frames)) as [Hcop Hbytes];
    [apply Hac|done|apply Hac|lia|].
  set (copied := take _ _) in *. pose proof (ok_pos _ Hok). rewrite i64_small by (unfold is_i64; lia).
  assert (take (Z.to_nat (plen - len got)) (drop (Z.to_nat (rf_position f)) content) =
    copied ++ take (Z.to_nat (plen - len (got ++ copied))) (drop (Z.to_nat (rf_position f + len copied)) content)) as Hsplit.
  { rewrite len_app. replace (Z.to_nat (plen - len got)) with (length copied + Z.to_nat (plen - (len got + len copied)))%nat
      by (unfold len in *; lia).
    rewrite <- take_take_drop, <- Hbytes. f_equal. rewrite drop_drop. do 2 f_equal. unfold len in *. lia. }
  destruct (IH (got ++ copied) (rf_set_position (rf_position f + len copied) f1)) as (f' & -> & Hok' & Hpos').
  - destruct Hok1 as [K1 K2 K3 K4 K5 K6]. split; cbn; try done; [lia|]. right. exists d, frames. split; [|lia].
    destruct Hac. split; done.
  - rewrite len_app. lia.
  - rewrite len_app. lia.
  - cbn [rf_set_position rf_position] in Hpos' |- *. exists f'. split; [|split; [done|]].
    + by rewrite Hsplit, app_assoc.
    + rewrite Hpos', Hsplit, (len_app copied). lia.
Qed.

Lemma rf_Read_live plen f :
  rf_ok f -> 0 <= plen ->
  exists f', rf_Read cx opens plen f =
    (fst (file_Read content plen (rf_position f)), f') /\
    rf_ok f' /\ rf_position f' = snd (file_Read content plen (rf_position f)).
Proof.
  intros Hok Hp. unfold rf_Read, closing, observe. rewrite (ok_open _ Hok), always_live. cbv beta iota zeta.
  rewrite always_live. cbn [ctx_error]. pose proof (tick_ok 2 f Hok) as Hok2. cbn in Hok2.
  rewrite (ok_err _ Hok2), (ok_size _ Hok2). unfold file_Read.
  change (rf_position (rf_tick (rf_tick f))) with (rf_position f).
  destruct (Z.eqb_spec plen 0); [by eexists|]. destruct (Z.leb_spec (len content) (rf_position f)); [by eexists|].
  destruct (read_loop_live plen (Datatypes.S (Z.to_nat plen)) [] _ Hok2) as (f' & -> & Hok' & Hpos');
    rewrite ?(@len_nil byte), ?Z.sub_0_r in *; [lia|lia|].
  exists f'. split; [done|]. split; [done|]. rewrite Hpos'. done.
Qed.

Lemma rf_stop_ok f : rf_ok f -> rf_ok (rf_stop f) /\ rf_position (rf_stop f) = rf_position f /\ rf_cur (rf_stop f) = None.
Proof.
  intros [H1 H2 H3 H4 H5 H6]. unfold rf_stop. destruct (rf_pipe f) eqn:Hp.
  - split; [|done]. split; cbn; try done. by left.
  - destruct H6 as [[? ?]|(d & frames & [] & _)]; [|congruence]. split; [split|]; try done. by left.
Qed.

Lemma rf_Seek_live offset whence f :
  rf_ok f -> is_i64 offset ->
  exists f', rf_Seek cx offset whence f = (fst (file_Seek content offset whence (rf_position f)), f') /\
    rf_ok f' /\ rf_position f' = snd (file_Seek content offset whence (rf_position f)).
Proof.
  intros Hok Ho. pose proof (tick_ok 1 f Hok) as Hok1. cbn in Hok1.
  unfold rf_Seek, closing, observe, file_Seek. rewrite (ok_open _ Hok), always_live, (ok_size _ Hok1).
  change (rf_position (rf_tick f)) with (rf_position f).
  assert (forall next, is_i64 next -> exists f',
    (if next <? 0 then (Err (Errorf "negative seek position %d"), rf_tick f)
     else if next =? rf_position f then (Ok next, rf_tick f)
     else
       let outside :=
         match rf_cur (rf_tick f) with
         | None => true
         | Some data => (next <? rf_chunkOff (rf_tick f)) || (i64 (rf_chunkOff (rf_tick f) + len data) <? next)
         end in
       let f := if outside then rf_set_err None (rf_stop (rf_tick f)) else rf_tick f in
       (Ok next, rf_set_position next f)) =
      (fst (if next <? 0 then (Err (Errorf "negative seek position %d"), rf_position f) else (Ok next, next)), f') /\
    rf_ok f' /\ rf_position f' =
      snd (if next <? 0 then (@Err Z (Errorf "negative seek position %d"), rf_position f) else (Ok next, next))) as Hnext.
  { intros next Hn. unfold is_i64 in Hn. destruct (Z.ltb_spec next 0); [by eexists|].
    destruct (Z.eqb_spec next (rf_position f)) as [->|]; [by eexists|]. eexists. split; [reflexivity|]. split; [|done].
    match goal with |- context [if ?o then _ else _] => destruct o eqn:Eo end.
    - destruct (rf_stop_ok _ Hok1) as ([K1 K2 K3 K4 K5 K6] & _ & Hn0). split; cbn; try done; [lia|].
      destruct K6 as [[? ?]|(d & frames & [] & _)]; [by left|congruence].
    - destruct Hok1 as [K1 K2 K3 K4 K5 K6]. split; cbn; try done; [lia|]. right.
      destruct K6 as [[_ Hn0]|(d & frames & Hac & Hb)]; [by rewrite Hn0 in Eo|]. exists d, frames.
      pose proof (at_chunk_len _ _ _ Hac). pose proof len_content. pose proof (len_nonneg (concat frames)).
      pose proof (len_nonneg d). destruct Hac as [A1 A2 A3 A4 A5]. rewrite A2 in Eo.
      rewrite i64_small in Eo by (unfold is_i64; lia). split; [by split|]. cbn in *. lia. }
  destruct (whence =? 0); [by apply Hnext|].
  destruct (whence =? 1); [apply Hnext, i64_range|].
  destruct (whence =? 2); [apply Hnext, i64_range|]. by eexists.
Qed.

Lemma rf_run_closed ops f pos : rf_closed f = true -> rf_run cx opens f ops = file_run content true pos ops.
Proof.
  intros Hc. revert f Hc. induction ops as [|op ops IH]; intros f Hc; [done|].
  destruct op as [plen|offset whence|]; cbn [rf_run file_run]; unfold rf_Read, rf_Seek, rf_Close; rewrite Hc; f_equal; by apply IH.
Qed.

Lemma rf_run_live ops f :
  rf_ok f -> Forall op_ok ops -> rf_run cx opens f ops = file_run content false (rf_position f) ops.
Proof.
  intros Hok Hops. revert f Hok. induction Hops as [|op ops Hop _ IH]; intros f Hok; [done|].
  destruct op as [plen|offset whence|]; cbn [rf_run file_run op_ok] in *.
  3: { f_equal. apply rf_run_closed. unfold rf_Close. rewrite (ok_open _ Hok). unfold rf_stop. by destruct (rf_pipe _). }
  - destruct (rf_Read_live plen f Hok Hop) as (f' & -> & Hok' & Hp).
    destruct (file_Read content plen (rf_position f)) as [[got e] pos']. cbn in *. by rewrite IH, Hp.
  - destruct (rf_Seek_live offset whence f Hok Hop) as (f' & -> & Hok' & Hp).
    destruct (file_Seek content offset whence (rf_position f)) as [r pos']. cbn in *. by rewrite IH, Hp.
Qed.

Lemma new_ok : rf_ok (NewReconstructedFile entries).
Proof.
  split; cbn; try done; [|by left].
  destruct file_readable as [H1 H2 _]. rewrite (size_sum _ css 0) by (done || lia). done.
Qed.
End live.

(** C4: a reader over terms that decode is a reader over the file.  If the terms
    decode to chunks whose concatenation is [content], then any sequence of
    reads, seeks and closes, of any sizes, in any order and with any whence, answers
    exactly what a reader over the bytes of [content] answers: the bytes, the
    end of file, the positions, the refused seeks, and errors once it is
    closed.  In particular every
    [Read] terminates and fills the buffer up to the end of the file. *)
Theorem reconstructed_reads cx opens entries css ops :
  (forall n, cx n = Live) -> readable opens entries css -> Forall op_ok ops ->
  rf_run cx opens (NewReconstructedFile entries) ops = file_run (concat (concat css)) false 0 ops.
Proof. intros Hl Hr. exact (rf_run_live _ _ _ _ Hl Hr ops _ (new_ok _ _ _ Hr)). Qed.

(** ** Reading through failures *)

(** The chunks a pipeline delivers, as far as it delivers any, are [chunks]; no
    error of it reads as the end of the file. *)
Record delivers (chunks : list (list byte)) (p : pipe) : Prop := {
  dl_data i d : p_ordered p !! i = Some (Ok d) -> chunks !! i = Some d;
  dl_err i : p_ordered p !! i <> Some (Err EOF);
  dl_end : p_err p <> Some EOF;
}.

Record trustworthy (opens : nat -> list FileDataSequenceEntry -> pipe) (entries : list FileDataSequenceEntry)
    (css : list (list (list byte))) : Prop := {
  tr_sizes : Forall2 (fun e cs => fe_UnpackedSegBytes e = len (concat cs)) entries css;
  tr_total : len (concat (concat css)) < 2 ^ 62;
  tr_opens n k : exists chunks, delivers chunks (opens n (drop k entries)) /\
    concat chunks = concat (concat (drop k css));
}.

(** What the answers to a client may be: a read returns the file's next bytes,
    as many as were asked for unless the file ends or the call fails; only the
    end of the file is reported as such; a seek answers as one over the file,
    or fails and moves nothing. *)
Fixpoint faithful (content : list byte) (pos : Z) (ops : list rop) (outs : list rout) : Prop :=
  match ops, outs with
  | [], [] => True
  | OpRead plen :: ops, OutRead got e :: outs =>
      got = take (length got) (drop (Z.to_nat pos) content) /\ len got <= plen /\
      (e = None -> 0 < plen -> got <> []) /\
      (e = Some EOF -> got = [] /\ len content <= pos) /\
      faithful content (pos + len got) ops outs
  | OpSeek offset whence :: ops, OutSeek r :: outs =>
      match r with
      | Ok next => file_Seek content offset whence pos = (Ok next, next) /\ faithful content next ops outs
      | Err _ => faithful content pos ops outs
      end
  | OpClose :: ops, OutClose :: outs => faithful content pos ops outs
  | _, _ => False
  end.

Section failures.
Context (cx : nat -> cstate) (opens : nat -> list FileDataSequenceEntry -> pipe).
Context (entries : list FileDataSequenceEntry) (css : list (list (list byte))).
Hypothesis context_errors : forall n, cx n <> CtxErr EOF.
Hypothesis file_trusted : trustworthy opens entries css.

Let content : list byte := concat (concat css).

Record fields_ok (f : reconstructedFile) : Prop := {
  fo_entries : rf_entries f = entries;
  fo_size : rf_size f = len content;
  fo_err : rf_err f <> Some EOF;
  fo_pos : 0 <= rf_position f < 2 ^ 63;
  fo_idle : rf_pipe f = None -> rf_cur f = None;
}.

Record holds_chunk (f : reconstructedFile) (d : list byte) : Prop := {
  hc_cur : rf_cur f = Some d;
  hc_off : 0 <= rf_chunkOff f;
  hc_pipe : exists p chunks, rf_pipe f = Some p /\ delivers chunks p /\
    drop (Z.to_nat (rf_chunkOff f)) content = d ++ concat chunks;
  hc_end : rf_chunkOff f + len d <= len content;
}.

Record rf_safe (f : reconstructedFile) : Prop := {
  sf_fields : fields_ok f;
  sf_state : (rf_pipe f = None /\ rf_cur f = None) \/
    exists d, holds_chunk f d /\ rf_chunkOff f <= rf_position f <= rf_chunkOff f + len d;
}.

Lemma content_bound : len content < 2 ^ 62.
Proof. apply file_trusted. Qed.

Lemma life_not_EOF n e : life_Err (cx n) = Some e -> e <> EOF.
Proof. specialize (context_errors n). destruct (cx n); cbn; intros H; congruence. Qed.

Lemma p_next_safe chunks p f r p' f' :
  delivers chunks p -> p_next cx p f = (r, p', f') ->
  (exists n, f' = Nat.iter n rf_tick f) /\
  match r with
  | Ok d => exists chunks', chunks = d :: chunks' /\ delivers chunks' p' /\ p_ordered p = Ok d :: p_ordered p'
  | Err e => e <> EOF
  end.
Proof.
  intros [D1 D2 D3]. unfold p_next, observe. cbv zeta.
  destruct (life_Err (cx (rf_obs f))) eqn:E1.
  { intros [= <- <- <-]. split; [by exists 1%nat|by eapply life_not_EOF]. }
  destruct (p_ordered p) as [|fr rest] eqn:Ep.
  { intros [= <- <- <-]. split; [by exists 1%nat|]. destruct (p_err p); cbn; congruence. }
  destruct (life_Err (cx (rf_obs (rf_tick f)))) eqn:E2.
  { intros [= <- <- <-]. split; [by exists 2%nat|by eapply life_not_EOF]. }
  destruct fr as [d|e].
  2: { intros [= <- <- <-]. split; [by exists 2%nat|]. specialize (D2 0%nat). cbn in D2. congruence. }
  destruct (life_Err (cx (rf_obs (rf_tick (rf_tick f))))) eqn:E3.
  { intros [= <- <- <-]. split; [by exists 3%nat|by eapply life_not_EOF]. }
  intros [= <- <- <-]. split; [by exists 3%nat|].
  destruct chunks as [|d' chunks]; [by specialize (D1 0%nat d eq_refl)|].
  pose proof (D1 0%nat d eq_refl) as [= ->]. exists chunks. split; [done|]. split; [|done].
  split; cbn; [intros i x; apply (D1 (S i))|intros i; apply (D2 (S i))|done].
Qed.

Lemma fields_tick n f : fields_ok f -> fields_ok (Nat.iter n rf_tick f).
Proof.
  intros [F1 F2 F3 F4 F5]. destruct (tick_fields n f) as (E1 & E2 & E3 & E4 & E5 & E6 & E7 & E8).
  split; rewrite ?E1, ?E2, ?E3, ?E5, ?E6, ?E7; done.
Qed.

Lemma fields_pipe p cur off f : fields_ok f -> fields_ok (rf_set_pipe (Some p) cur off f).
Proof. intros []. by split. Qed.

Lemma drop_content off (d tl : list byte) :
  0 <= off -> drop (Z.to_nat off) content = d ++ tl -> off <= len content ->
  drop (Z.to_nat (off + len d)) content = tl /\ off + len d <= len content.
Proof.
  intros Ho Hd Hle. split.
  - pose proof (len_nonneg d). rewrite Z2Nat.inj_add, <- drop_drop, Hd by lia. by rewrite to_nat_len, drop_app_length.
  - apply (f_equal len) in Hd. rewrite len_app in Hd. pose proof (len_nonneg tl). unfold len in *. rewrite length_drop in Hd. lia.
Qed.

(** The chunk that holds the position, or an error with the pipeline running. *)
Definition advanced (f : reconstructedFile) (r : option error) (f' : reconstructedFile) : Prop :=
  fields_ok f' /\ rf_position f' = rf_position f /\
  match r with
  | None => exists d, holds_chunk f' d /\ rf_chunkOff f' <= rf_position f < rf_chunkOff f' + len d
  | Some e => e <> EOF
  end.

Lemma advance_loop_safe fuel chunks p f r f' :
  delivers chunks p -> (length (p_ordered p) < fuel)%nat -> fields_ok f ->
  0 <= rf_chunkOff f <= rf_position f -> rf_position f < len content ->
  drop (Z.to_nat (rf_chunkOff f)) content = concat chunks ->
  advance_loop cx fuel p f = (r, f') -> advanced f r f'.
Proof.
  pose proof content_bound as Hc. revert chunks p f. induction fuel as [|fuel IH]; [lia|].
  intros chunks p f Hdl Hfuel Hf Hoff Hpos Hd. rewrite advance_loop_S.
  destruct (p_next cx p f) as [[r0 p'] f1] eqn:En.
  destruct (p_next_safe _ _ _ _ _ _ Hdl En) as [(n & ->) Hr].
  pose proof (fields_tick n f Hf) as Hf1. destruct (tick_fields n f) as (E1 & E2 & E3 & E4 & E5 & E6 & E7 & E8).
  generalize dependent (Nat.iter n rf_tick f). intros f1 _ Hf1 E1 E2 E3 E4 E5 E6 E7 E8.
  destruct r0 as [d|e].
  2: { intros [= <- <-]. split; [by apply fields_pipe|]. by split. }
  destruct Hr as (chunks' & -> & Hdl' & Hord). cbn [concat] in Hd. cbv zeta. rewrite E3, E8.
  destruct (drop_content _ d (concat chunks') (proj1 Hoff) Hd) as [Hd' Hle]; [lia|].
  pose proof (len_nonneg d). rewrite i64_small by (unfold is_i64; lia).
  destruct (Z.leb_spec (rf_chunkOff f + len d) (rf_position f)) as [Hskip|Hstop].
  - intros Hl. apply (IH chunks') in Hl; cbn; rewrite ?E3; try done; try lia.
    + destruct Hl as (G1 & G2 & G3). cbn in G2, G3. rewrite E3 in G2, G3. by split.
    + rewrite Hord in Hfuel. cbn in Hfuel. lia.
    + by apply fields_pipe.
  - intros [= <- <-]. split; [by apply fields_pipe|]. split; [done|]. exists d. cbn. split; [|lia].
    split; cbn; [done|lia|by exists p', chunks'|done].
Qed.

Lemma advance_safe f r f' :
  rf_safe f -> rf_position f < len content ->
  (rf_cur f = None \/ exists d, rf_cur f = Some d /\ rf_position f = rf_chunkOff f + len d) ->
  advance cx opens f = (r, f') -> advanced f r f'.
Proof.
  pose proof content_bound as Hc. intros [Hf H6] Hpos Hcur. pose proof (fo_pos _ Hf) as Hp0.
  unfold advance. destruct H6 as [[Hp Hn]|(d & Hh & Hb)].
  - rewrite Hn. cbn [rf_pipe]. rewrite Hp. unfold termAt. rewrite (fo_entries _ Hf).
    destruct (term_loop_spec entries css 0 0 (rf_position f)) as (k & o & -> & Ho1 & Ho2 & Hk);
      [apply file_trusted|lia|apply file_trusted|unfold content in *; lia|].
    rewrite Z.add_0_l, Nat2Z.id. destruct (tr_opens _ _ _ file_trusted (rf_obs f) k) as (chunks & Hdl & Hch).
    pose proof (len_nonneg (concat (concat (take k css)))). intros Hl.
    eapply (advance_loop_safe _ chunks) in Hl; cbn; [exact Hl|done|lia|by apply fields_pipe|lia|done|].
    rewrite Ho2, Z.add_0_l, Hch. apply skip_terms.
  - destruct Hh as [A1 A2 (p & chunks & A3 & A4 & A5) A6]. rewrite A1. cbn [rf_pipe rf_set_pipe]. rewrite A3.
    destruct Hcur as [?|(d' & E & Hp)]; [congruence|]. rewrite A1 in E. injection E as <-.
    pose proof (len_nonneg d). rewrite i64_small by (unfold is_i64; lia). intros Hl.
    eapply (advance_loop_safe _ chunks) in Hl; cbn; [exact Hl|done|lia|by apply fields_pipe|lia|done|].
    apply drop_content; [done..|lia].
Qed.

(** A failed call stops the pipeline and keeps the position. *)
Lemma rf_fail_safe e f e' f' :
  fields_ok f -> e <> EOF -> rf_fail cx e f = (e', f') ->
  rf_safe f' /\ e' <> EOF /\ rf_position f' = rf_position f.
Proof.
  intros Hf He. unfold rf_fail, closing, observe.
  assert (forall n x, x <> EOF -> rf_safe (rf_set_err (Some x) (rf_stop (Nat.iter n rf_tick f))) /\
    rf_position (rf_set_err (Some x) (rf_stop (Nat.iter n rf_tick f))) = rf_position f) as Hstop.
  { intros n x Hx. pose proof (fields_tick n f Hf) as [F1 F2 F3 F4 F5]. destruct (tick_fields n f) as (_ & _ & E3 & _).
    generalize dependent (Nat.iter n rf_tick f). intros g F1 F2 F3 F4 F5 E3. unfold rf_stop.
    destruct (rf_pipe g) eqn:Eg; (split; [|done]); (split; [split; cbn; auto; congruence|left; cbn; auto]). }
  destruct (cx (rf_obs f)) eqn:E1.
  - destruct (cx (rf_obs (rf_tick f))) eqn:E2; cbn [ctx_error]; intros [= <- <-].
    + destruct (Hstop 2%nat e He); auto.
    + assert (e0 <> EOF) as He0 by (specialize (context_errors (rf_obs (rf_tick f))); congruence).
      destruct (Hstop 2%nat e0 He0); auto.
    + destruct (Hstop 2%nat e He); auto.
  - destruct (cx (rf_obs (rf_tick f))) eqn:E2; cbn [ctx_error]; intros [= <- <-].
    + destruct (Hstop 2%nat e He); auto.
    + assert (e1 <> EOF) as He0 by (specialize (context_errors (rf_obs (rf_tick f))); congruence).
      destruct (Hstop 2%nat e1 He0); auto.
    + destruct (Hstop 2%nat e He); auto.
  - intros [= <- <-]. destruct (Hstop 1%nat (Wrapf "read reconstructed file: %w" ErrClosed)); auto.
Qed.

Lemma drain_loop_safe frames err f r f' :
  (forall i, frames !! i <> Some (Err EOF)) -> err <> Some EOF ->
  drain_loop cx frames err f = (r, f') -> (exists n, f' = Nat.iter n rf_tick f) /\ r <> Some EOF.
Proof.
  intros Hfr He. assert (forall n, life_Err (cx n) <> Some EOF) as Hlife.
  { intros n E. by apply (life_not_EOF n EOF). }
  revert f. induction frames as [|fr frames IH]; intros f; cbn [drain_loop]; unfold observe.
  - destruct (life_Err (cx (rf_obs f))) eqn:E1; [intros [= <- <-]; split; [by exists 1%nat|by rewrite <- E1]|].
    destruct err; intros [= <- <-]; [split; [by exists 1%nat|done]|split; [by exists 2%nat|done]].
  - destruct (life_Err (cx (rf_obs f))) eqn:E1; [intros [= <- <-]; split; [by exists 1%nat|by rewrite <- E1]|].
    destruct (life_Err (cx (rf_obs (rf_tick f)))) eqn:E2; [intros [= <- <-]; split; [by exists 2%nat|by rewrite <- E2]|].
    destruct fr as [d|e].
    + intros [(n & ->) Hr]%IH; [|intros i; apply (Hfr (S i))]. split; [|done]. exists (S (S n)).
      by rewrite !Nat.iter_succ_r.
    + intros [= <- <-]. split; [by exists 2%nat|]. specialize (Hfr 0%nat). cbn in Hfr. congruence.
Qed.

Lemma p_drain_safe f d r f' :
  fields_ok f -> holds_chunk f d -> len content <= rf_chunkOff f + len d -> p_drain cx f = (r, f') ->
  fields_ok f' /\ holds_chunk f' d /\ r <> Some EOF /\ rf_position f' = rf_position f /\ rf_chunkOff f' = rf_chunkOff f.
Proof.
  intros Hf [A1 A2 (p & chunks & A3 & [D1 D2 D3] & A5) A6] Hend. unfold p_drain. rewrite A3.
  destruct (drain_loop _ _ _ _) as [r0 f1] eqn:Ed.
  destruct (drain_loop_safe _ _ _ _ _ D2 D3 Ed) as [(n & ->) Hr].
  pose proof (fields_tick n f Hf) as Hf1. destruct (tick_fields n f) as (E1 & E2 & E3 & E4 & E5 & E6 & E7 & E8).
  clear Ed. generalize dependent (Nat.iter n rf_tick f). intros f1 Hf1 E1 E2 E3 E4 E5 E6 E7 E8.
  intros [= <- <-]. split; [by apply fields_pipe|]. split; [|by repeat split].
  destruct (drop_content _ d (concat chunks) A2 A5) as [Hrest _]; [pose proof (len_nonneg d); lia|].
  split; cbn; rewrite ?E8; [congruence|done| |done]. eexists _, []. split; [done|]. split; [by split|].
  rewrite A5. f_equal. rewrite <- Hrest. apply drop_ge. unfold len in *. lia.
Qed.

(** The outcome of a round of [Read]. *)
Definition stepped (f : reconstructedFile) (r : option (error * bool)) (f' : reconstructedFile) : Prop :=
  rf_safe f' /\ rf_position f' = rf_position f /\
  match r with
  | None => exists d, holds_chunk f' d /\ rf_chunkOff f' <= rf_position f < rf_chunkOff f' + len d
  | Some (e, _) => e <> EOF
  end.

Lemma read_step_safe f r f' :
  rf_safe f -> rf_position f < len content -> read_step cx opens f = (r, f') -> stepped f r f'.
Proof.
  pose proof content_bound as Hc. intros Hs Hpos. unfold read_step.
  match goal with |- (if ?c then ?m else _) = _ -> _ => assert
    ((rf_cur f = None \/ exists d, rf_cur f = Some d /\ rf_position f = rf_chunkOff f + len d) ->
     m = (r, f') -> stepped f r f') as Hadv end.
  { intros Hcur. destruct (advance cx opens f) as [[e|] f1] eqn:Ea;
      destruct (advance_safe _ _ _ Hs Hpos Hcur Ea) as (Hf1 & Hp1 & Hr).
    - destruct (rf_fail cx e f1) as [e' f2] eqn:Ef. intros [= <- <-].
      destruct (rf_fail_safe _ _ _ _ Hf1 Hr Ef) as (G1 & G2 & G3). split; [done|]. split; [congruence|done].
    - destruct Hr as (d & Hh & Hb). rewrite (hc_cur _ _ Hh). cbn [default from_option id].
      pose proof (hc_off _ _ Hh). pose proof (hc_end _ _ Hh). pose proof (len_nonneg d).
      rewrite i64_small, (fo_size _ Hf1) by (unfold is_i64; lia).
      destruct (Z.leb_spec (len content) (rf_chunkOff f1 + len d)) as [Hend|Hend].
      + destruct (p_drain cx f1) as [r1 f2] eqn:Ed.
        destruct (p_drain_safe _ _ _ _ Hf1 Hh Hend Ed) as (Hf2 & Hh2 & Hr1 & Hp2 & Ho2). destruct r1 as [e|].
        * destruct (rf_fail cx e f2) as [e' f3] eqn:Ef. intros [= <- <-].
          destruct (rf_fail_safe _ _ _ _ Hf2 (fun E => Hr1 (f_equal Some E)) Ef) as (G1 & G2 & G3).
          split; [done|]. split; [by rewrite G3, Hp2|done].
        * intros [= <- <-]. split; [split; [done|]|]; [right; exists d; split; [done|lia]|].
          split; [by rewrite Hp2|]. exists d. by rewrite Ho2.
      + intros [= <- <-]. split; [split; [done|]|]; [right; exists d; split; [done|lia]|]. split; [done|]. by exists d. }
  destruct (sf_state _ Hs) as [[Hp Hn]|(d & Hh & Hb)].
  - rewrite Hn in *. apply Hadv. by left.
  - rewrite (hc_cur _ _ Hh) in *. pose proof (hc_off _ _ Hh). pose proof (hc_end _ _ Hh). pose proof (len_nonneg d).
    rewrite i64_small by (unfold is_i64; lia).
    destruct (Z.eqb_spec (rf_position f) (rf_chunkOff f + len d)).
    + apply Hadv. right. by exists d.
    + intros [= <- <-]. split; [done|]. split; [done|]. exists d. split; [done|lia].
Qed.

Lemma read_loop_safe fuel plen got f out e f' :
  rf_safe f -> len got <= plen -> (Z.to_nat (plen - len got) < fuel)%nat ->
  read_loop cx opens fuel plen got f = (out, e, f') ->
  rf_safe f' /\ e <> Some EOF /\ len out <= plen /\ (e = None -> 0 < plen -> rf_position f < len content \/ got <> [] -> out <> []) /\
  exists more, out = got ++ more /\ more = take (length more) (drop (Z.to_nat (rf_position f)) content) /\
    rf_position f' = rf_position f + len more.
Proof.
  pose proof content_bound as Hc. revert got f. induction fuel as [|fuel IH]; intros got f Hs Hgot Hfuel; [lia|]. cbn [read_loop].
  assert (forall g, rf_position g = rf_position f -> exists more, got = got ++ more /\ more = take (length more) (drop (Z.to_nat (rf_position f)) content) /\
    rf_position g = rf_position f + len more) as Hnil.
  { intros g Hg. exists []. by rewrite app_nil_r, (@len_nil byte), Z.add_0_r. }
  destruct (Z.ltb_spec (len got) plen) as [Hlt|Hge]; cbn [andb].
  2: { intros [= <- <- <-]. split; [done|]. split; [done|]. split; [done|]. split; [|by apply Hnil].
       intros _ ? _ ->. rewrite (@len_nil byte) in *. lia. }
  rewrite (fo_size _ (sf_fields _ Hs)). destruct (Z.ltb_spec (rf_position f) (len content)) as [Hp|Hp].
  2: { intros [= <- <- <-]. split; [done|]. split; [done|]. split; [done|]. split; [|by apply Hnil].
       intros _ _ [?|?]; [lia|done]. }
  destruct (read_step cx opens f) as [r f1] eqn:Er. destruct (read_step_safe _ _ _ Hs Hp Er) as (Hs1 & Hp1 & Hr).
  destruct r as [[x ret]|].
  - intros Ho. assert (got = out /\ f1 = f' /\ (e = Some x \/ e = None /\ got <> [])) as (<- & <- & He).
    { destruct (ret || (len got =? 0)) eqn:Eb; injection Ho as <- <- <-; [by auto|].
      split; [done|]. split; [done|]. right. split; [done|]. intros ->. by destruct ret. }
    split; [done|]. split; [destruct He as [->|[-> _]]; congruence|]. split; [done|]. split; [|by apply Hnil].
    intros -> _ _. by destruct He as [?|[_ ?]].
  - destruct Hr as (d & Hh & Hb). rewrite (hc_cur _ _ Hh), Hp1. cbn [default from_option id].
    destruct (hc_pipe _ _ Hh) as (p & chunks & Hpipe & Hdl & Hrest).
    destruct (copied_bytes content (rf_chunkOff f1) (rf_position f) (plen - len got) d (concat chunks)) as [Hcop Hbytes];
      [apply Hh|done|done|lia|].
    set (copied := take _ _) in *. pose proof (fo_pos _ (sf_fields _ Hs)). pose proof (hc_end _ _ Hh).
    rewrite i64_small by (unfold is_i64; lia). intros Hl.
    apply IH in Hl as (G1 & G2 & G3 & G4 & more & -> & Hmore & Hpos).
    + cbn in Hpos, Hmore. split; [done|]. split; [done|]. split; [done|]. split.
      { intros E _ _ Hn. apply app_eq_nil in Hn as [Hn _]. apply app_eq_nil in Hn as [_ Hn].
        apply (f_equal len) in Hn. rewrite (@len_nil byte) in Hn. lia. }
      exists (copied ++ more). rewrite app_assoc. split; [done|]. rewrite len_app, Hpos. split; [|lia].
      rewrite length_app, <- take_take_drop, <- Hbytes, drop_drop. f_equal. rewrite Hmore at 1. do 2 f_equal. unfold len. lia.
    + destruct Hs1 as [[F1 F2 F3 F4 F5] _]. split; [split; cbn; try done; lia|]. right. exists d. split; [|cbn; lia].
      destruct Hh as [A1 A2 A3 A4]. by split.
    + rewrite len_app. lia.
    + rewrite len_app. lia.
Qed.

Lemma safe_tick n f : rf_safe f -> rf_safe (Nat.iter n rf_tick f).
Proof.
  intros [Hf Hst]. split; [by apply fields_tick|]. destruct (tick_fields n f) as (E1 & E2 & E3 & E4 & E5 & E6 & E7 & E8).
  destruct Hst as [[? ?]|(d & [A1 A2 A3 A4] & Hb)]; [left; split; congruence|]. right. exists d.
  rewrite E3, E8. split; [|done]. split; rewrite ?E6, ?E7, ?E8; done.
Qed.

Lemma safe_stop f : rf_safe f -> rf_safe (rf_stop f) /\ rf_position (rf_stop f) = rf_position f /\
  rf_pipe (rf_stop f) = None /\ rf_cur (rf_stop f) = None.
Proof.
  intros [[F1 F2 F3 F4 F5] Hst]. unfold rf_stop. destruct (rf_pipe f) eqn:Hp.
  - split; [|done]. split; [by split|]. by left.
  - split; [split; [by split; auto|left; auto]|auto].
Qed.

(** What [Read] may answer. *)
Definition answered (plen : Z) (f : reconstructedFile) (out : list byte * option error * reconstructedFile) : Prop :=
  let '(got, e, f') := out in
  rf_safe f' /\ got = take (length got) (drop (Z.to_nat (rf_position f)) content) /\ len got <= plen /\
  (e = None -> 0 < plen -> got <> []) /\ (e = Some EOF -> got = [] /\ len content <= rf_position f) /\
  rf_position f' = rf_position f + len got.

Lemma answered_empty plen f e g :
  0 <= plen -> e <> Some EOF -> (e = None -> plen = 0) -> rf_safe g -> rf_position g = rf_position f ->
  answered plen f ([], e, g).
Proof.
  intros Hp He Hn Hg Hpg. unfold answered. rewrite (@len_nil byte), Z.add_0_r. split; [done|]. split; [done|]. split; [done|].
  split; [intros ->; specialize (Hn eq_refl); lia|]. by split.
Qed.

Lemma rf_Read_safe plen f : rf_safe f -> 0 <= plen -> answered plen f (rf_Read cx opens plen f).
Proof.
  intros Hs Hp. unfold rf_Read, closing, observe.
  pose proof (safe_tick 1 f Hs) as H1. pose proof (safe_tick 2 f Hs) as H2. cbn in H1, H2.
  destruct (rf_closed f); [by apply answered_empty|].
  destruct (match cx (rf_obs f) with Closing => true | _ => false end); [by apply answered_empty|].
  pose proof (context_errors (rf_obs (rf_tick f))) as Hcx. destruct (ctx_error _) eqn:Ec.
  { destruct (safe_stop _ H2) as (S1 & S2 & _). apply answered_empty; [done|destruct (cx _); cbn in *; congruence|done..]. }
  destruct (Z.eqb_spec plen 0); [by apply answered_empty|]. pose proof (sf_fields _ H2) as Hf2. rewrite (fo_size _ Hf2).
  destruct (rf_err (rf_tick (rf_tick f))) eqn:Ee; [apply answered_empty; [done|rewrite <- Ee; apply Hf2|done..]|].
  change (rf_position (rf_tick (rf_tick f))) with (rf_position f).
  destruct (Z.leb_spec (len content) (rf_position f)).
  { unfold answered. rewrite (@len_nil byte), Z.add_0_r. split; [done|]. split; [done|]. split; [done|]. split; [done|]. by split. }
  destruct (read_loop _ _ _ _ _ _) as [[got e] f'] eqn:Hl.
  apply read_loop_safe in Hl as (R1 & R2 & R3 & R4 & more & -> & R5 & R6);
    [|done|by rewrite (@len_nil byte)|rewrite (@len_nil byte); lia].
  cbn [app] in *. split; [done|]. split; [done|]. split; [done|]. split; [|by split].
  intros E Hpl. apply R4; [done..|]. left. done.
Qed.

Lemma rf_Seek_safe offset whence f r f' :
  rf_safe f -> is_i64 offset -> rf_Seek cx offset whence f = (r, f') ->
  rf_safe f' /\
  match r with
  | Ok next => file_Seek content offset whence (rf_position f) = (Ok next, next) /\ rf_position f' = next
  | Err _ => rf_position f' = rf_position f
  end.
Proof.
  intros Hs Ho. unfold rf_Seek, closing, observe, file_Seek. pose proof (safe_tick 1 f Hs) as H1. cbn in H1.
  destruct (rf_closed f); [by intros [= <- <-]|].
  destruct (match cx (rf_obs f) with Closing => true | _ => false end); [by intros [= <- <-]|].
  rewrite (fo_size _ (sf_fields _ H1)). change (rf_position (rf_tick f)) with (rf_position f).
  match goal with |- context [match ?m with Some _ => _ | None => _ end] => destruct m as [next|] eqn:En end;
    [|by intros [= <- <-]].
  assert (is_i64 next) as Hn by (repeat case_match; simplify_eq; auto using i64_range).
  destruct (Z.ltb_spec next 0); [by intros [= <- <-]|].
  destruct (Z.eqb_spec next (rf_position f)) as [->|]; [by intros [= <- <-]|].
  intros [= <- <-]. split; [|done].
  unfold is_i64 in Hn. match goal with |- context [if ?o then _ else _] => destruct o eqn:Eo end.
  - destruct (safe_stop _ H1) as ([[F1 F2 F3 F4 F5] _] & _ & P1 & P2). split; [split; cbn; auto; lia|]. by left.
  - destruct H1 as [[F1 F2 F3 F4 F5] [[_ Hc]|(d & Hh & Hb)]]; [cbn in Hc; by rewrite Hc in Eo|]. split; [split; cbn; auto; lia|].
    right. exists d. pose proof (hc_cur _ _ Hh) as Hcur. cbn in Hcur. rewrite Hcur in Eo. pose proof (hc_end _ _ Hh) as He. pose proof (hc_off _ _ Hh) as Hoff. pose proof (len_nonneg d).
    pose proof content_bound. cbn in He, Hoff. rewrite i64_small in Eo by (unfold is_i64; lia). split; [|cbn in *; lia].
    destruct Hh as [A1 A2 A3 A4]. by split.
Qed.

Lemma rf_run_safe ops f :
  rf_safe f -> Forall op_ok ops -> faithful content (rf_position f) ops (rf_run cx opens f ops).
Proof.
  intros Hs Hops. revert f Hs. induction Hops as [|op ops Hop _ IH]; intros f Hs; [done|].
  destruct op as [plen|offset whence|]; cbn [rf_run faithful op_ok] in *.
  - pose proof (rf_Read_safe plen f Hs Hop) as Ha. destruct (rf_Read cx opens plen f) as [[got e] f'].
    destruct Ha as (A1 & A2 & A3 & A4 & A5 & A6). split; [done|]. split; [done|]. split; [done|]. split; [done|].
    rewrite <- A6. by apply IH.
  - destruct (rf_Seek cx offset whence f) as [r f'] eqn:Es. destruct (rf_Seek_safe _ _ _ _ _ Hs Hop Es) as [Hs' Hr].
    destruct r as [next|e]; [destruct Hr as [Hr <-]; split; [done|]|rewrite <- Hr]; by apply IH.
  - unfold rf_Close. destruct (rf_closed f); [by apply IH|].
    assert (rf_safe (rf_set_closed f)) as Hc.
    { destruct Hs as [[F1 F2 F3 F4 F5] [[? ?]|(d & [A1 A2 A3 A4] & Hb)]]; (split; [by split; auto|]); [by left|].
      right. exists d. split; [|done]. by split. }
    destruct (safe_stop _ Hc) as (S1 & S2 & _). change (rf_position f) with (rf_position (rf_set_closed f)).
    rewrite <- S2. by apply IH.
Qed.

Lemma new_safe : rf_safe (NewReconstructedFile entries).
Proof.
  destruct file_trusted as [H1 H2 _]. split; [|by left]. split; cbn; try done.
  rewrite (size_sum _ css 0) by (done || lia). done.
Qed.
End failures.
