(* ===== verification/Pipeline.v ===== *)
(** * The decode pipeline as concurrent goroutines: [storage/reconstructed_pipeline.go]

    [Reconstruct] takes what a pipeline delivers as a list.  This file models how
    it comes about: the window of frames and the three channels, the fetcher,
    the workers and the consumer as a step relation, every interleaving of which
    is a run.  The frames the fetcher reads and what a worker makes of one are
    parameters: [fetch] and [decode_job] of [Reconstruct] compute them.
    Proved: no send ever waits; the consumer receives the frames in the order
    they were fetched, each decoded from its own bytes although the window's
    slots are reused; no reachable state is stuck before everything is
    delivered, or, after a cancel, before fetcher and workers have exited; and
    every run is bounded by a multiple of the number of frames. *)

From Stdlib Require Import ZArith Lia.
From stdpp Require Import base list gmap relations.
From S2P Require Import Prelude Hash Compression XorbDecoder Shard Prog Storage PutShard Reconstruct.

Definition decodeWindow : nat := 32.
Definition maxDecodeWorkers : nat := 4.

(** [decodeWorkers] for [GOMAXPROCS] processors, at least one. *)
Definition decodeWorkers (gomaxprocs : nat) : nat := Nat.min gomaxprocs maxDecodeWorkers.

(** Where the fetcher is.  A slot it has acquired and not sent is lost to the
    window when it stops. *)
Inductive fetcher : Type :=
| FAcquire
| FFill (i : nat)
| FSendOrdered (i : nat)
| FSendJobs (i : nat)
| FCloseOrdered (lost : option nat)
| FCloseJobs (lost : option nat)
| FDone (lost : option nat).

Inductive worker : Type :=
| WIdle
| WBusy (i : nat)
| WExited.

#[global] Instance worker_eq_dec : EqDecision worker.
Proof. solve_decision. Defined.

(** The consumer: calling [next] or [drain]; having seen [ordered] closed;
    failing on a frame's error; stopped. *)
Inductive consumer : Type :=
| CRun
| CSawEnd
| CFailed
| CStopped.

Section pipeline.
Context {F R : Type} (dec : F -> R) (bad : R -> bool).

Record pstate : Type := MkP {
  ps_mem : gmap nat F;             (** the packed chunk each slot holds *)
  ps_out : gmap nat R;             (** [data] and [err] of each slot *)
  ps_ready : list nat;             (** slots with a token in [ready] *)
  ps_free : list nat;
  ps_jobs : list nat;
  ps_ordered : list nat;
  ps_jobsClosed : bool;
  ps_orderedClosed : bool;
  ps_cancelled : bool;
  ps_fetcher : fetcher;
  ps_todo : list F;                (** what the storage will still give *)
  ps_workers : list worker;
  ps_consumer : consumer;
  ps_pending : option nat;         (** received from [ordered], not yet ready *)
  ps_cur : option nat;             (** delivered and not released *)
  ps_delivered : list R;
}.

(** [startPipeline]: all slots free, the fetcher and [w] workers started. *)
Definition start_with (slots : list nat) (script : list F) (w : nat) : pstate :=
  MkP ∅ ∅ [] slots [] [] false false false FAcquire script (replicate w WIdle) CRun None None [].

Definition start (script : list F) (w : nat) : pstate := start_with (seq 0 decodeWindow) script w.

(** Field updates. *)
Definition set_mem (x : gmap nat F) (s : pstate) : pstate :=
  MkP x (ps_out s) (ps_ready s) (ps_free s) (ps_jobs s) (ps_ordered s) (ps_jobsClosed s) (ps_orderedClosed s)
    (ps_cancelled s) (ps_fetcher s) (ps_todo s) (ps_workers s) (ps_consumer s) (ps_pending s) (ps_cur s) (ps_delivered s).
Definition set_out (x : gmap nat R) (s : pstate) : pstate :=
  MkP (ps_mem s) x (ps_ready s) (ps_free s) (ps_jobs s) (ps_ordered s) (ps_jobsClosed s) (ps_orderedClosed s)
    (ps_cancelled s) (ps_fetcher s) (ps_todo s) (ps_workers s) (ps_consumer s) (ps_pending s) (ps_cur s) (ps_delivered s).
Definition set_ready (x : list nat) (s : pstate) : pstate :=
  MkP (ps_mem s) (ps_out s) x (ps_free s) (ps_jobs s) (ps_ordered s) (ps_jobsClosed s) (ps_orderedClosed s)
    (ps_cancelled s) (ps_fetcher s) (ps_todo s) (ps_workers s) (ps_consumer s) (ps_pending s) (ps_cur s) (ps_delivered s).
Definition set_free (x : list nat) (s : pstate) : pstate :=
  MkP (ps_mem s) (ps_out s) (ps_ready s) x (ps_jobs s) (ps_ordered s) (ps_jobsClosed s) (ps_orderedClosed s)
    (ps_cancelled s) (ps_fetcher s) (ps_todo s) (ps_workers s) (ps_consumer s) (ps_pending s) (ps_cur s) (ps_delivered s).
Definition set_jobs (x : list nat) (s : pstate) : pstate :=
  MkP (ps_mem s) (ps_out s) (ps_ready s) (ps_free s) x (ps_ordered s) (ps_jobsClosed s) (ps_orderedClosed s)
    (ps_cancelled s) (ps_fetcher s) (ps_todo s) (ps_workers s) (ps_consumer s) (ps_pending s) (ps_cur s) (ps_delivered s).
Definition set_ordered (x : list nat) (s : pstate) : pstate :=
  MkP (ps_mem s) (ps_out s) (ps_ready s) (ps_free s) (ps_jobs s) x (ps_jobsClosed s) (ps_orderedClosed s)
    (ps_cancelled s) (ps_fetcher s) (ps_todo s) (ps_workers s) (ps_consumer s) (ps_pending s) (ps_cur s) (ps_delivered s).
Definition set_jobsClosed (x : bool) (s : pstate) : pstate :=
  MkP (ps_mem s) (ps_out s) (ps_ready s) (ps_free s) (ps_jobs s) (ps_ordered s) x (ps_orderedClosed s)
    (ps_cancelled s) (ps_fetcher s) (ps_todo s) (ps_workers s) (ps_consumer s) (ps_pending s) (ps_cur s) (ps_delivered s).
Definition set_orderedClosed (x : bool) (s : pstate) : pstate :=
  MkP (ps_mem s) (ps_out s) (ps_ready s) (ps_free s) (ps_jobs s) (ps_ordered s) (ps_jobsClosed s) x
    (ps_cancelled s) (ps_fetcher s) (ps_todo s) (ps_workers s) (ps_consumer s) (ps_pending s) (ps_cur s) (ps_delivered s).
Definition set_cancelled (x : bool) (s : pstate) : pstate :=
  MkP (ps_mem s) (ps_out s) (ps_ready s) (ps_free s) (ps_jobs s) (ps_ordered s) (ps_jobsClosed s) (ps_orderedClosed s)
    x (ps_fetcher s) (ps_todo s) (ps_workers s) (ps_consumer s) (ps_pending s) (ps_cur s) (ps_delivered s).
Definition set_fetcher (x : fetcher) (s : pstate) : pstate :=
  MkP (ps_mem s) (ps_out s) (ps_ready s) (ps_free s) (ps_jobs s) (ps_ordered s) (ps_jobsClosed s) (ps_orderedClosed s)
    (ps_cancelled s) x (ps_todo s) (ps_workers s) (ps_consumer s) (ps_pending s) (ps_cur s) (ps_delivered s).
Definition set_todo (x : list F) (s : pstate) : pstate :=
  MkP (ps_mem s) (ps_out s) (ps_ready s) (ps_free s) (ps_jobs s) (ps_ordered s) (ps_jobsClosed s) (ps_orderedClosed s)
    (ps_cancelled s) (ps_fetcher s) x (ps_workers s) (ps_consumer s) (ps_pending s) (ps_cur s) (ps_delivered s).
Definition set_workers (x : list worker) (s : pstate) : pstate :=
  MkP (ps_mem s) (ps_out s) (ps_ready s) (ps_free s) (ps_jobs s) (ps_ordered s) (ps_jobsClosed s) (ps_orderedClosed s)
    (ps_cancelled s) (ps_fetcher s) (ps_todo s) x (ps_consumer s) (ps_pending s) (ps_cur s) (ps_delivered s).
Definition set_consumer (x : consumer) (s : pstate) : pstate :=
  MkP (ps_mem s) (ps_out s) (ps_ready s) (ps_free s) (ps_jobs s) (ps_ordered s) (ps_jobsClosed s) (ps_orderedClosed s)
    (ps_cancelled s) (ps_fetcher s) (ps_todo s) (ps_workers s) x (ps_pending s) (ps_cur s) (ps_delivered s).
Definition set_pending (x : option nat) (s : pstate) : pstate :=
  MkP (ps_mem s) (ps_out s) (ps_ready s) (ps_free s) (ps_jobs s) (ps_ordered s) (ps_jobsClosed s) (ps_orderedClosed s)
    (ps_cancelled s) (ps_fetcher s) (ps_todo s) (ps_workers s) (ps_consumer s) x (ps_cur s) (ps_delivered s).
Definition set_cur (x : option nat) (s : pstate) : pstate :=
  MkP (ps_mem s) (ps_out s) (ps_ready s) (ps_free s) (ps_jobs s) (ps_ordered s) (ps_jobsClosed s) (ps_orderedClosed s)
    (ps_cancelled s) (ps_fetcher s) (ps_todo s) (ps_workers s) (ps_consumer s) (ps_pending s) x (ps_delivered s).
Definition set_delivered (x : list R) (s : pstate) : pstate :=
  MkP (ps_mem s) (ps_out s) (ps_ready s) (ps_free s) (ps_jobs s) (ps_ordered s) (ps_jobsClosed s) (ps_orderedClosed s)
    (ps_cancelled s) (ps_fetcher s) (ps_todo s) (ps_workers s) (ps_consumer s) (ps_pending s) (ps_cur s) x.

(** A channel of the window's size takes another element. *)
Definition room (ch : list nat) : Prop := (length ch < decodeWindow)%nat.

Implicit Types s : pstate.

(** The fetcher: [fetch], [fetchTerm] and [acquire].  A failing read ends it
    with the slot in hand; reads may fail early only once cancelled. *)
Inductive fetcher_step : pstate -> pstate -> Prop :=
| f_acquire s i free : ps_fetcher s = FAcquire -> ps_free s = i :: free ->
    fetcher_step s (set_fetcher (FFill i) (set_free free s))
| f_acquire_cancelled s : ps_fetcher s = FAcquire -> ps_cancelled s = true ->
    fetcher_step s (set_fetcher (FCloseOrdered None) s)
| f_fill s i fr todo : ps_fetcher s = FFill i -> ps_todo s = fr :: todo ->
    fetcher_step s (set_todo todo (set_fetcher (FSendOrdered i) (set_mem (<[i := fr]> (ps_mem s)) s)))
| f_fail s i : ps_fetcher s = FFill i -> ps_todo s = [] \/ ps_cancelled s = true ->
    fetcher_step s (set_fetcher (FCloseOrdered (Some i)) s)
| f_end s : ps_fetcher s = FAcquire -> ps_todo s = [] ->
    fetcher_step s (set_fetcher (FCloseOrdered None) s)
| f_send_ordered s i : ps_fetcher s = FSendOrdered i -> room (ps_ordered s) ->
    fetcher_step s (set_fetcher (FSendJobs i) (set_ordered (ps_ordered s ++ [i]) s))
| f_send_jobs s i : ps_fetcher s = FSendJobs i -> room (ps_jobs s) ->
    fetcher_step s (set_fetcher FAcquire (set_jobs (ps_jobs s ++ [i]) s))
| f_close_ordered s l : ps_fetcher s = FCloseOrdered l ->
    fetcher_step s (set_fetcher (FCloseJobs l) (set_orderedClosed true s))
| f_close_jobs s l : ps_fetcher s = FCloseJobs l ->
    fetcher_step s (set_fetcher (FDone l) (set_jobsClosed true s)).

(** A worker: [decode].  [ready] holds one token. *)
Inductive worker_step : pstate -> pstate -> Prop :=
| w_take s w i jobs : ps_workers s !! w = Some WIdle -> ps_jobs s = i :: jobs ->
    worker_step s (set_workers (<[w := WBusy i]> (ps_workers s)) (set_jobs jobs s))
| w_decode s w i fr : ps_workers s !! w = Some (WBusy i) -> ps_mem s !! i = Some fr -> i ∉ ps_ready s ->
    worker_step s (set_workers (<[w := WIdle]> (ps_workers s)) (set_ready (i :: ps_ready s) (set_out (<[i := dec fr]> (ps_out s)) s)))
| w_exit s w : ps_workers s !! w = Some WIdle -> ps_jobs s = [] -> ps_jobsClosed s = true ->
    worker_step s (set_workers (<[w := WExited]> (ps_workers s)) s).

(** The consumer takes the token of the frame it waits for. *)
Definition deliver (i : nat) (r : R) (s : pstate) : pstate :=
  set_delivered (ps_delivered s ++ [r]) (set_pending None (set_ready (filter (.≠ i) (ps_ready s)) s)).

(** The consumer: [next], [drain], [release] and [stop].  A frame with an error
    is neither kept nor released; [stop] follows. *)
Inductive consumer_step : pstate -> pstate -> Prop :=
| c_release s i : ps_consumer s = CRun -> ps_cur s = Some i -> room (ps_free s) ->
    consumer_step s (set_cur None (set_free (ps_free s ++ [i]) s))
| c_receive s i ordered : ps_consumer s = CRun -> ps_pending s = None -> ps_ordered s = i :: ordered ->
    consumer_step s (set_pending (Some i) (set_ordered ordered s))
| c_end s : ps_consumer s = CRun -> ps_pending s = None -> ps_ordered s = [] -> ps_orderedClosed s = true ->
    consumer_step s (set_consumer CSawEnd s)
| c_keep s i r : ps_consumer s = CRun -> ps_pending s = Some i -> i ∈ ps_ready s -> ps_out s !! i = Some r ->
    bad r = false -> ps_cur s = None ->
    consumer_step s (set_cur (Some i) (deliver i r s))
| c_skip s i r : ps_consumer s = CRun -> ps_pending s = Some i -> i ∈ ps_ready s -> ps_out s !! i = Some r ->
    bad r = false -> room (ps_free s) ->
    consumer_step s (set_free (ps_free s ++ [i]) (deliver i r s))
| c_bad s i r : ps_consumer s = CRun -> ps_pending s = Some i -> i ∈ ps_ready s -> ps_out s !! i = Some r ->
    bad r = true ->
    consumer_step s (set_consumer CFailed (deliver i r s))
| c_stop s : ps_consumer s = CFailed \/ ps_consumer s = CRun /\ ps_cancelled s = true ->
    consumer_step s (set_consumer CStopped (set_cancelled true s)).

Definition pstep s s' : Prop := fetcher_step s s' \/ worker_step s s' \/ consumer_step s s'.

(** The parent context, or [Close], cancels. *)
Inductive pcancel : pstate -> pstate -> Prop :=
| p_cancel s : pcancel s (set_cancelled true s).

Definition prun (s s' : pstate) : Prop := rtc (fun a b => pstep a b \/ pcancel a b) s s'.

(** Project the fields of an updated state. *)
Ltac proj :=
  cbn [start_with deliver set_mem set_out set_ready set_free set_jobs set_ordered set_jobsClosed set_orderedClosed set_cancelled set_fetcher set_todo set_workers set_consumer set_pending set_cur set_delivered
    ps_mem ps_out ps_ready ps_free ps_jobs ps_ordered ps_jobsClosed ps_orderedClosed ps_cancelled ps_fetcher ps_todo ps_workers ps_consumer ps_pending ps_cur ps_delivered
    option_list app] in *.

(** ** Bounded runs *)

Definition f_work (f : fetcher) : nat :=
  match f with
  | FAcquire => 5 | FFill _ => 4 | FSendOrdered _ => 19 | FSendJobs _ => 12
  | FCloseOrdered _ => 3 | FCloseJobs _ => 2 | FDone _ => 1
  end.
Definition w_work (x : worker) : nat := match x with WIdle => 1 | WBusy _ => 4 | WExited => 0 end.
Definition o_work (o : option nat) : nat := match o with Some _ => 1 | None => 0 end.
Definition c_work (c : consumer) : nat := match c with CRun => 3 | CFailed => 2 | CSawEnd => 1 | CStopped => 0 end.

(** What is left to do, at most. *)
Definition work (s : pstate) : nat :=
  20 * length (ps_todo s) + f_work (ps_fetcher s) + 5 * length (ps_ordered s) + 4 * length (ps_jobs s) +
  length (ps_ready s) + sum_list_with w_work (ps_workers s) + 4 * o_work (ps_pending s) +
  o_work (ps_cur s) + c_work (ps_consumer s).

Lemma w_work_insert ws n old new :
  ws !! n = Some old ->
  (sum_list_with w_work (<[n := new]> ws) + w_work old = sum_list_with w_work ws + w_work new)%nat.
Proof.
  revert n. induction ws as [|a ws IH]; intros [|n] H; try done.
  - injection H as ->. cbn. lia.
  - specialize (IH n H). change (<[S n := new]> (a :: ws)) with (a :: <[n := new]> ws).
    change (sum_list_with w_work (a :: ?l)) with (w_work a + sum_list_with w_work l)%nat. lia.
Qed.

Lemma pstep_work s s' : pstep s s' -> (work s' < work s)%nat.
Proof.
  intros [H|[H|H]].
  - destruct H as [s i free Ef Efr|s Ef Ec|s i fr todo Ef Et|s i Ef Et|s Ef Et|s i Ef Hr|s i Ef Hr|s l Ef|s l Ef];
      unfold work; proj; rewrite ?Ef; try rewrite Et; rewrite ?length_app; cbn [f_work length]; try lia.
  - destruct H as [s n i jobs En Ej|s n i fr En Em Er|s n En Ej Ec]; unfold work; proj; rewrite ?Ej.
    + pose proof (w_work_insert _ _ _ (WBusy i) En) as E. cbn [w_work length] in *. lia.
    + pose proof (w_work_insert _ _ _ WIdle En) as E. cbn [w_work length] in *. lia.
    + pose proof (w_work_insert _ _ _ WExited En) as E. cbn [w_work length] in *. lia.
  - destruct H as [s i Ec Eu Hr|s i ordered Ec Ep Eo|s Ec Ep Eo Ecl|s i r Ec Ep Hin Er Eb Eu|s i r Ec Ep Hin Er Eb Hr|s i r Ec Ep Hin Er Eb|s Ec];
      unfold work; proj; rewrite ?Ec, ?Ep, ?Eu, ?Eo; cbn [c_work o_work length]; try lia.
    all: try (pose proof (length_filter (.≠ i) (ps_ready s)); lia).
    destruct Ec as [->|[-> _]]; cbn [c_work]; lia.
Qed.

(** A step after any number of cancels. *)
Definition pround (a b : pstate) : Prop := exists c, rtc pcancel a c /\ pstep c b.

Lemma rounds_work n s s' : nsteps pround n s s' -> (n + work s' <= work s)%nat.
Proof.
  induction 1 as [s|n a b c (d & Hc & Hs) _ IH]; [lia|]. apply pstep_work in Hs.
  assert (work d = work a) as E; [|lia]. clear Hs IH. induction Hc as [a|a b' d Hab _ IH]; [done|]. rewrite IH. by inversion Hab.
Qed.
(** ** Who holds a slot *)

Definition cnt (l : list nat) (x : nat) : nat := count_occ Nat.eq_dec l x.
Definition one (i x : nat) : nat := cnt [i] x.
Definition cnt_opt (o : option nat) (x : nat) : nat := match o with Some i => one i x | None => 0 end.

(** The slot the fetcher holds, the slot it is passing to the workers, the frame
    it has filled and not sent, the slots the workers hold. *)
Definition f_hold (f : fetcher) : list nat :=
  match f with
  | FFill i | FSendOrdered i | FCloseOrdered (Some i) | FCloseJobs (Some i) | FDone (Some i) => [i]
  | _ => []
  end.
Definition f_sending (f : fetcher) : list nat := match f with FSendJobs i => [i] | _ => [] end.
Definition f_filled (f : fetcher) : list nat := match f with FSendOrdered i => [i] | _ => [] end.
Definition w_hold (w : worker) : list nat := match w with WBusy i => [i] | _ => [] end.
Definition w_holds (ws : list worker) : list nat := concat (map w_hold ws).
Definition closing_f (f : fetcher) : bool := match f with FCloseOrdered _ | FCloseJobs _ | FDone _ => true | _ => false end.

(** The window, each slot once. *)
Context (slots : list nat).
Hypothesis slots_once : forall x, (cnt slots x <= 1)%nat.
Hypothesis slots_count : length slots = decodeWindow.

Record pinv (script : list F) (w : nat) (s : pstate) : Prop := {
  pi_own : exists dropped, (ps_consumer s = CRun -> forall x, dropped x = 0)%nat /\
    forall x, (cnt (ps_free s) x + cnt (ps_ordered s) x + cnt_opt (ps_pending s) x + cnt_opt (ps_cur s) x +
      cnt (f_hold (ps_fetcher s)) x + dropped x = cnt slots x)%nat;
  pi_flight x : (cnt (ps_jobs s) x + cnt (w_holds (ps_workers s)) x + cnt (f_sending (ps_fetcher s)) x + cnt (ps_ready s) x =
    cnt_opt (ps_pending s) x + cnt (ps_ordered s) x)%nat;
  pi_order : exists consumed inflight, script = consumed ++ inflight ++ ps_todo s /\ ps_delivered s = map dec consumed /\
    Forall2 (fun i fr => ps_mem s !! i = Some fr) (option_list (ps_pending s) ++ ps_ordered s ++ f_filled (ps_fetcher s)) inflight;
  pi_out i fr : i ∈ ps_ready s -> ps_mem s !! i = Some fr -> ps_out s !! i = Some (dec fr);
  pi_oclosed : ps_orderedClosed s = match ps_fetcher s with FCloseJobs _ | FDone _ => true | _ => false end;
  pi_jclosed : ps_jobsClosed s = match ps_fetcher s with FDone _ => true | _ => false end;
  pi_todo : closing_f (ps_fetcher s) = true -> ps_cancelled s = true \/ ps_todo s = [];
  pi_workers : length (ps_workers s) = w;
  pi_exited : WExited ∈ ps_workers s -> ps_jobs s = [] /\ ps_jobsClosed s = true;
  pi_stopped : ps_consumer s = CStopped -> ps_cancelled s = true;
  pi_sawend : ps_consumer s = CSawEnd -> ps_ordered s = [] /\ ps_pending s = None /\ ps_orderedClosed s = true;
}.

Lemma cnt_app l l' x : cnt (l ++ l') x = (cnt l x + cnt l' x)%nat.
Proof. apply count_occ_app. Qed.

Lemma cnt_cons i l x : cnt (i :: l) x = (one i x + cnt l x)%nat.
Proof. unfold one, cnt. cbn. by destruct (Nat.eq_dec i x). Qed.

Lemma cnt_elem l x : x ∈ l <-> (0 < cnt l x)%nat.
Proof. rewrite list_elem_of_In. rewrite (count_occ_In Nat.eq_dec). unfold cnt. lia. Qed.

Lemma one_self i : one i i = 1%nat.
Proof. unfold one, cnt. cbn. by destruct (Nat.eq_dec i i). Qed.

Lemma one_ne i x : i <> x -> one i x = 0%nat.
Proof. intros. unfold one, cnt. cbn. by destruct (Nat.eq_dec i x). Qed.

(** A channel without the slot in hand has room. *)
Lemma room_of l i : (forall x, cnt l x + one i x <= cnt slots x)%nat -> room l.
Proof.
  intros H. assert (length (i :: l) <= length slots)%nat as Hl.
  { apply NoDup_incl_length.
    - apply (NoDup_count_occ Nat.eq_dec). intros x. fold (cnt (i :: l) x). rewrite cnt_cons.
      specialize (H x). pose proof (slots_once x). lia.
    - intros x Hx. apply (count_occ_In Nat.eq_dec) in Hx. fold (cnt (i :: l) x) in Hx. rewrite cnt_cons in Hx.
      apply (count_occ_In Nat.eq_dec). specialize (H x). fold (cnt slots x). lia. }
  unfold room. rewrite <- slots_count. cbn in Hl. lia.
Qed.

Lemma cnt_filter l i x : (cnt l i = 1)%nat -> (cnt (filter (.≠ i) l) x + one i x = cnt l x)%nat.
Proof.
  intros Hi. induction l as [|j l IH]; [done|]. rewrite cnt_cons in *.
  destruct (decide (j = i)) as [->|Hne].
  - rewrite filter_cons_False by (by intros []). rewrite one_self in Hi. assert (cnt l i = 0)%nat as H0 by lia.
    assert (filter (.≠ i) l = l) as ->; [|lia]. clear IH Hi. induction l as [|j l IH]; [done|]. rewrite cnt_cons in H0.
    assert (j <> i) by (intros ->; rewrite one_self in H0; lia). rewrite filter_cons_True by done. f_equal. apply IH. lia.
  - rewrite filter_cons_True, cnt_cons by done. rewrite one_ne in Hi by done. cbn in Hi. specialize (IH Hi). lia.
Qed.

Lemma w_holds_insert ws w old new x :
  ws !! w = Some old ->
  (cnt (w_holds (<[w := new]> ws)) x + cnt (w_hold old) x = cnt (w_holds ws) x + cnt (w_hold new) x)%nat.
Proof.
  unfold w_holds. revert w. induction ws as [|a ws IH]; intros [|w] H; try done.
  - injection H as ->. change (<[0%nat := new]> (old :: ws)) with (new :: ws). cbn [map concat]. rewrite !cnt_app. lia.
  - specialize (IH w H). change (<[S w := new]> (a :: ws)) with (a :: <[w := new]> ws). cbn [map concat].
    rewrite !cnt_app. lia.
Qed.

Lemma cnt_nil x : cnt [] x = 0%nat.
Proof. done. Qed.

Lemma w_holds_idle n : w_holds (replicate n WIdle) = [].
Proof. by induction n. Qed.

#[local] Opaque decodeWindow cnt one w_holds.

(** ** Every step keeps the accounts *)

Ltac counts :=
  cbn [f_hold f_sending f_filled cnt_opt w_hold closing_f] in *; rewrite ?cnt_app, ?cnt_cons, ?cnt_nil in *.

(** Read the accounts of a state whose fetcher is known. *)
Ltac open_inv H E :=
  destruct H as [(dropped & Hd & Hown) Hfl (consumed & inflight & Hscr & Hdel & Hmem) Hout Hoc Hjc Htodo Hw Hex Hst Hse];
  rewrite E in *.

Lemma start_pinv script w : pinv script w (start_with slots script w).
Proof.
  split; proj; try done.
  - exists (fun _ => 0%nat). split; [done|]. intros x. cbn [f_hold cnt_opt]. rewrite cnt_nil. lia.
  - intros x. assert (forall n, w_holds (replicate n WIdle) = []) as -> by apply w_holds_idle. cbn [f_sending cnt_opt]. rewrite cnt_nil. lia.
  - exists [], []. split; [done|]. split; [done|]. constructor.
  - apply length_replicate.
  - intros Hi. by apply elem_of_replicate in Hi as [? _].
Qed.

(** A slot in the consumer's queue holds its frame. *)
Lemma inflight_mem script w s i :
  pinv script w s -> (0 < cnt_opt (ps_pending s) i + cnt (ps_ordered s) i)%nat -> exists fr, ps_mem s !! i = Some fr.
Proof.
  intros [_ _ (consumed & inflight & _ & _ & Hmem) _ _ _ _ _ _ _ _] Hi.
  assert (i ∈ option_list (ps_pending s) ++ ps_ordered s ++ f_filled (ps_fetcher s)) as Hin.
  { rewrite !elem_of_app. destruct (ps_pending s) as [j|]; cbn [cnt_opt option_list] in *.
    - destruct (decide (j = i)) as [->|Hne]; [left; by apply list_elem_of_singleton|]. right. left. apply cnt_elem.
      rewrite one_ne in Hi by done. lia.
    - right. left. apply cnt_elem. lia. }
  apply list_elem_of_lookup in Hin as [k Hk]. destruct (Forall2_lookup_l _ _ _ _ _ Hmem Hk) as (fr & _ & Hfr). by exists fr.
Qed.

Lemma Forall2_mem_insert (m : gmap nat F) i fr l fs :
  (forall x, x ∈ l -> x <> i) -> Forall2 (fun i fr => m !! i = Some fr) l fs ->
  Forall2 (fun j f => <[i := fr]> m !! j = Some f) l fs.
Proof.
  intros Hl H. revert Hl. induction H as [|x f l fs Hx _ IH]; intros Hl; constructor.
  - rewrite lookup_insert_ne; [done|]. intros ->. by apply (Hl x); [left|].
  - apply IH. intros y Hy. apply Hl. by right.
Qed.

Lemma fetcher_pinv script w s s' : pinv script w s -> fetcher_step s s' -> pinv script w s'.
Proof.
  intros Hi Hs. destruct Hs as [s i free Ef Efr|s Ef Ec|s i fr todo Ef Et|s i Ef Et|s Ef Et|s i Ef Hr|s i Ef Hr|s l Ef|s l Ef];
    open_inv Hi Ef; (split; proj; [exists dropped; split; [done|]|..|try done|try done|try done]).
  all: try done.
  all: try (by exists consumed, inflight).
  all: try (intros x; specialize (Hown x); specialize (Hfl x); try destruct l; counts; lia).
  all: try (intros _; auto; fail).
  - intros x. specialize (Hown x). rewrite Efr in Hown. counts. lia.
  - exists consumed, (inflight ++ [fr]). rewrite Et in Hscr. split; [by rewrite <- app_assoc|]. split; [done|].
    cbn [f_filled] in *. rewrite app_nil_r in Hmem. rewrite app_assoc. apply Forall2_app; [|constructor; [|constructor]; by rewrite lookup_insert_eq].
    apply Forall2_mem_insert; [|done]. intros x Hx ->. specialize (Hown i). pose proof (slots_once i). counts.
    rewrite one_self in Hown. apply elem_of_app in Hx as [Hx|Hx%cnt_elem]; [|lia].
    destruct (ps_pending s) as [j|]; [|by apply not_elem_of_nil in Hx]. apply list_elem_of_singleton in Hx as ->.
    cbn [cnt_opt] in Hown. rewrite one_self in Hown. lia.
  - intros j fr0 Hj. specialize (Hown i). specialize (Hfl i). pose proof (slots_once i). counts. rewrite one_self in Hown.
    destruct (decide (i = j)) as [<-|Hne]; [apply cnt_elem in Hj; lia|]. rewrite lookup_insert_ne by done. by apply Hout.
  - intros _. tauto.
  - exists consumed, inflight. split; [done|]. split; [done|]. cbn [f_filled] in *. by rewrite app_nil_r.
  - intros Hc. destruct (Hse Hc) as (_ & _ & ?). congruence.
  - intros Hc. destruct (Hex Hc) as [_ ?]. congruence.
  - intros Hc. destruct (Hse Hc) as (? & ? & _). done.
  - intros Hc. by destruct (Hex Hc) as [? _].
Qed.

Lemma worker_held ws w i : ws !! w = Some (WBusy i) -> (0 < cnt (w_holds ws) i)%nat.
Proof.
  intros H. pose proof (w_holds_insert ws w (WBusy i) WIdle i H) as E. cbn [w_hold] in E.
  rewrite cnt_cons, cnt_nil, one_self in E. lia.
Qed.

Lemma exited_insert (ws : list worker) w y : WExited ∈ <[w := y]> ws -> y <> WExited -> WExited ∈ ws.
Proof.
  intros H Hy. apply list_elem_of_lookup in H as [k Hk]. destruct (decide (w = k)) as [->|Hne].
  - destruct (decide (k < length ws)%nat); [rewrite list_lookup_insert_eq in Hk by done; congruence|].
    rewrite list_insert_ge in Hk by lia. by eapply list_elem_of_lookup_2.
  - rewrite list_lookup_insert_ne in Hk by done. by eapply list_elem_of_lookup_2.
Qed.

Lemma worker_pinv script w s s' : pinv script w s -> worker_step s s' -> pinv script w s'.
Proof.
  intros Hi Hs. destruct Hs as [s n i jobs En Ej|s n i fr En Em Er|s n En Ej Ec]; pose proof Hi as Hi';
    destruct Hi as [Hown Hfl Hord Hout Hoc Hjc Htodo Hw Hex Hst Hse]; (split; proj; [done|..]);
    try (rewrite length_insert); try done.
  - intros x. specialize (Hfl x). rewrite Ej in Hfl. pose proof (w_holds_insert _ _ _ (WBusy i) x En). counts. lia.
  - intros Hx%exited_insert; [|done]. destruct (Hex Hx). congruence.
  - intros x. specialize (Hfl x). pose proof (w_holds_insert _ _ _ WIdle x En). counts. lia.
  - intros j f Hj Hf. destruct (decide (i = j)) as [->|Hne]; [rewrite lookup_insert_eq; congruence|].
    rewrite lookup_insert_ne by done. apply Hout; [|done]. by apply elem_of_cons in Hj as [->|].
  - intros Hx%exited_insert; [|done]. by apply Hex.
  - intros x. specialize (Hfl x). pose proof (w_holds_insert _ _ _ WExited x En). counts. lia.
Qed.

(** The consumer takes the frame it waited for. *)
Lemma deliver_pinv script w s i r :
  pinv script w s -> ps_pending s = Some i -> i ∈ ps_ready s -> ps_out s !! i = Some r ->
  (forall x, cnt (filter (.≠ i) (ps_ready s)) x + one i x = cnt (ps_ready s) x)%nat /\
  (exists consumed inflight, script = consumed ++ inflight ++ ps_todo s /\ ps_delivered s ++ [r] = map dec consumed /\
    Forall2 (fun i fr => ps_mem s !! i = Some fr) (ps_ordered s ++ f_filled (ps_fetcher s)) inflight) /\
  (forall x, cnt (ps_free s) x + one i x <= cnt slots x)%nat.
Proof.
  intros [(dropped & Hd & Hown) Hfl (consumed & inflight & Hscr & Hdel & Hmem) Hout _ _ _ _ _ _ _] Ep Hi Hr.
  rewrite Ep in *. cbn [option_list cnt_opt app] in *.
  inversion Hmem as [|? fr ? fs Hfr Hfs]; subst. split; [|split].
  - intros x. apply cnt_filter. specialize (Hown i). specialize (Hfl i). pose proof (slots_once i). apply cnt_elem in Hi.
    rewrite one_self in *. lia.
  - exists (consumed ++ [fr]), fs. rewrite <- app_assoc. split; [done|]. split; [|done].
    rewrite map_app, Hdel. cbn. rewrite (Hout i fr Hi Hfr) in Hr. congruence.
  - intros x. specialize (Hown x). lia.
Qed.

Lemma consumer_pinv script w s s' : pinv script w s -> consumer_step s s' -> pinv script w s'.
Proof.
  intros Hi Hs. destruct Hs as [s i Ec Eu Hr|s i ordered Ec Ep Eo|s Ec Ep Eo Ecl|s i r Ec Ep Hin Er Eb Eu|s i r Ec Ep Hin Er Eb Hr|s i r Ec Ep Hin Er Eb|s Ec];
    pose proof Hi as Hi'; destruct Hi as [(dropped & Hd & Hown) Hfl Hord Hout Hoc Hjc Htodo Hw Hex Hst Hse].
  4-6: destruct (deliver_pinv _ _ _ _ _ Hi' Ep Hin Er) as (Hcf & Hord' & Hroom);
       assert (forall j, j ∈ filter (.≠ i) (ps_ready s) -> j ∈ ps_ready s) as Hsub by (intros j [_ Hj]%list_elem_of_filter; done).
  all: split; proj; try done; try congruence.
  - exists dropped. split; [done|]. intros x. specialize (Hown x). rewrite Eu in Hown. counts. lia.
  - exists dropped. split; [done|]. intros x. specialize (Hown x). rewrite Ep, Eo in Hown. counts. lia.
  - intros x. specialize (Hfl x). rewrite Ep, Eo in Hfl. counts. lia.
  - rewrite Ep, Eo in Hord. exact Hord.
  - exists dropped. split; [done|]. done.
  - exists dropped. split; [done|]. intros x. specialize (Hown x). rewrite Ep, Eu in Hown. counts. lia.
  - intros x. specialize (Hfl x). specialize (Hcf x). rewrite Ep in Hfl. counts. lia.
  - intros j fr Hj. apply Hout. auto.
  - exists dropped. split; [done|]. intros x. specialize (Hown x). rewrite Ep in Hown. counts. lia.
  - intros x. specialize (Hfl x). specialize (Hcf x). rewrite Ep in Hfl. counts. lia.
  - intros j fr Hj. apply Hout. auto.
  - exists (fun x => dropped x + one i x)%nat. split; [done|]. intros x. specialize (Hown x). rewrite Ep in Hown. counts. lia.
  - intros x. specialize (Hfl x). specialize (Hcf x). rewrite Ep in Hfl. counts. lia.
  - intros j fr Hj. apply Hout. auto.
  - exists dropped. split; [done|]. done.
  - auto.
Qed.

Lemma prun_pinv script w s : prun (start_with slots script w) s -> pinv script w s.
Proof.
  intros H. pose proof (start_pinv script w) as Ha. induction H as [a|a b c Hab _ IH]; [done|]. apply IH. clear IH.
  destruct Hab as [[Hs|[Hs|Hs]]|Hs]; [by eapply fetcher_pinv|by eapply worker_pinv|by eapply consumer_pinv|].
  inversion Hs; subst. destruct Ha as [Hown Hfl Hord Hout Hoc Hjc Htodo Hw Hex Hst Hse]. split; proj; auto.
Qed.

(** ** No waiting *)

(** Every send finds room, every token its empty channel. *)
Definition sends_ready (s : pstate) : Prop :=
  (forall i, ps_fetcher s = FSendOrdered i -> room (ps_ordered s)) /\
  (forall i, ps_fetcher s = FSendJobs i -> room (ps_jobs s)) /\
  (forall i, ps_pending s = Some i \/ ps_cur s = Some i -> room (ps_free s)) /\
  (forall w i, ps_workers s !! w = Some (WBusy i) -> i ∉ ps_ready s).

Lemma pinv_sends script w s : pinv script w s -> sends_ready s.
Proof.
  intros [(dropped & Hd & Hown) Hfl _ _ _ _ _ _ _ _ _]. split; [|split; [|split]].
  - intros i E. apply (room_of _ i). intros x. specialize (Hown x). rewrite E in Hown. counts. lia.
  - intros i E. apply (room_of _ i). intros x. specialize (Hown x). specialize (Hfl x). rewrite E in Hfl. counts. lia.
  - intros i E. apply (room_of _ i). intros x. specialize (Hown x). destruct E as [E|E]; rewrite E in Hown; counts; lia.
  - intros n i E Hi. apply worker_held in E. apply cnt_elem in Hi. specialize (Hown i). specialize (Hfl i).
    pose proof (slots_once i). lia.
Qed.

(** ** No getting stuck *)

(** Everything has ended. *)
Definition finished (s : pstate) : Prop :=
  (exists l, ps_fetcher s = FDone l) /\ Forall (fun x => x = WExited) (ps_workers s) /\
  (ps_consumer s = CSawEnd \/ ps_consumer s = CStopped).

Lemma busy_moves script w s n i :
  pinv script w s -> ps_workers s !! n = Some (WBusy i) -> exists s', pstep s s'.
Proof.
  intros Hi En. pose proof (worker_held _ _ _ En). pose proof (pi_flight _ _ _ Hi i) as Hfl.
  destruct (inflight_mem _ _ _ i Hi) as [fr Hfr]; [lia|]. eexists. right. left. eapply w_decode; [done|done|].
  by eapply (pinv_sends _ _ _ Hi).
Qed.

Lemma job_moves script w s i jobs :
  (0 < w)%nat -> pinv script w s -> ps_jobs s = i :: jobs -> exists s', pstep s s'.
Proof.
  intros Hw Hi Ej. destruct (lookup_lt_is_Some_2 (ps_workers s) 0) as [[|j|] H0]; [rewrite (pi_workers _ _ _ Hi); lia|..].
  - eexists. right. left. by eapply w_take.
  - by eapply busy_moves.
  - destruct (pi_exited _ _ _ Hi) as [? _]; [by eapply list_elem_of_lookup_2|congruence].
Qed.

Lemma held_lookup ws i : (0 < cnt (w_holds ws) i)%nat -> exists n j, ws !! n = Some (WBusy j).
Proof.
  intros H. induction ws as [|x ws IH]; [by rewrite cnt_nil in H; lia|]. change (w_holds (x :: ws)) with (w_hold x ++ w_holds ws) in H.
  rewrite cnt_app in H. destruct x as [|j|]; [|by exists 0%nat, j|].
  all: cbn [w_hold] in H; rewrite cnt_nil in H; destruct (IH ltac:(lia)) as (n & j & ?); by exists (S n), j.
Qed.

(** A consumer that waits for a frame will get it. *)
Lemma pending_moves script w s i :
  (0 < w)%nat -> pinv script w s -> ps_consumer s = CRun -> ps_pending s = Some i ->
  f_sending (ps_fetcher s) = [] -> exists s', pstep s s'.
Proof.
  intros Hw Hi Ec Ep Ef. pose proof (pi_flight _ _ _ Hi i) as Hfl. rewrite Ep, Ef in Hfl. cbn [cnt_opt] in Hfl.
  rewrite cnt_nil, one_self in Hfl. destruct (ps_jobs s) as [|j jobs] eqn:Ej; [|by eapply job_moves].
  destruct (Nat.eq_dec (cnt (w_holds (ps_workers s)) i) 0%nat) as [H0|H0].
  2: { destruct (held_lookup (ps_workers s) i) as (n & j & Hn); [lia|]. by eapply busy_moves. }
  rewrite cnt_nil in Hfl. assert (i ∈ ps_ready s) as Hin by (apply cnt_elem; lia).
  destruct (inflight_mem _ _ _ i Hi) as [fr Hfr]; [rewrite Ep; cbn [cnt_opt]; rewrite one_self; lia|].
  pose proof (pi_out _ _ _ Hi i fr Hin Hfr) as Ho.
  destruct (bad (dec fr)) eqn:Eb; [eexists; right; right; by eapply c_bad|].
  destruct (ps_cur s) eqn:Eu; [|eexists; right; right; by eapply c_keep].
  eexists. right. right. eapply c_skip; [done..|]. apply (pinv_sends _ _ _ Hi) with (i := i). by left.
Qed.

Lemma consumer_moves script w s :
  (0 < w)%nat -> pinv script w s -> f_sending (ps_fetcher s) = [] ->
  (exists s', pstep s s') \/ ps_consumer s = CSawEnd \/ ps_consumer s = CStopped \/
  ps_consumer s = CRun /\ ps_pending s = None /\ ps_ordered s = [] /\ ps_orderedClosed s = false.
Proof.
  intros Hw Hi Ef. destruct (ps_consumer s) eqn:Ec; [|auto| |auto].
  - destruct (ps_pending s) eqn:Ep; [left; by eapply pending_moves|].
    destruct (ps_ordered s) eqn:Eo; [|left; eexists; right; right; by eapply c_receive].
    destruct (ps_orderedClosed s) eqn:El; [left; eexists; right; right; by eapply c_end|]. by repeat right.
  - left. eexists. right. right. eapply c_stop. by left.
Qed.

Lemma pinv_progress script w s :
  (0 < w)%nat -> (2 <= length slots)%nat -> pinv script w s -> (exists s', pstep s s') \/ finished s.
Proof.
  intros Hw H2 Hi. pose proof (pinv_sends _ _ _ Hi) as (S1 & S2 & _). destruct (ps_fetcher s) as [|i|i|i|l|l|l] eqn:Ef.
  - destruct (ps_todo s) eqn:Et; [left; eexists; left; by apply f_end|].
    destruct (ps_free s) as [|i free] eqn:Efr; [|left; eexists; left; by eapply f_acquire].
    destruct (ps_cancelled s) eqn:Ecn; [left; eexists; left; by apply f_acquire_cancelled|]. left.
    destruct (consumer_moves script w s Hw Hi) as [?|[Hc|[Hc|(Hc & Hp & Ho & _)]]]; [by rewrite Ef|done|..].
    + destruct (pi_sawend _ _ _ Hi Hc) as (_ & _ & Hcl). rewrite (pi_oclosed _ _ _ Hi), Ef in Hcl. done.
    + pose proof (pi_stopped _ _ _ Hi Hc). congruence.
    + destruct (pi_own _ _ _ Hi) as (dropped & Hd & Hown). exfalso. specialize (Hd Hc).
      destruct slots as [|a [|b sl]] eqn:Es; cbn in H2; [lia..|].
      pose proof (Hown a) as Ha. pose proof (Hown b) as Hb. rewrite Hd, Ef, Hp, Ho, Efr in Ha, Hb. counts.
      pose proof (slots_once a) as Na. counts. rewrite one_self in *.
      destruct (ps_cur s) as [j|]; cbn [cnt_opt] in *; [|lia].
      destruct (decide (j = a)) as [->|]; [|rewrite (one_ne j a) in Ha by done; lia].
      destruct (decide (a = b)) as [->|]; [rewrite one_self in *; lia|]. rewrite (one_ne a b) in Hb by done. lia.
  - destruct (ps_todo s) eqn:Et; left; eexists; left; [by eapply f_fail; [|left]|by eapply f_fill].
  - left. eexists. left. eapply f_send_ordered; [done|by eapply S1].
  - left. eexists. left. eapply f_send_jobs; [done|by eapply S2].
  - left. eexists. left. by eapply f_close_ordered.
  - left. eexists. left. by eapply f_close_jobs.
  - destruct (decide (Forall (fun x => x = WExited) (ps_workers s))) as [Hall|Hall].
    + destruct (consumer_moves script w s Hw Hi) as [?|[Hc|[Hc|(_ & _ & _ & Hcl)]]]; [by rewrite Ef|by left|right|right|].
      * split; [eauto|]. by auto.
      * split; [eauto|]. by auto.
      * rewrite (pi_oclosed _ _ _ Hi), Ef in Hcl. done.
    + left. apply not_Forall_Exists, Exists_exists in Hall as (x & Hx & Hne); [|intros; apply _].
      apply list_elem_of_lookup in Hx as [n Hn]. destruct x as [|i|]; [|by eapply busy_moves|by destruct Hne].
      destruct (ps_jobs s) eqn:Ej; [|by eapply job_moves]. eexists. right. left. eapply w_exit; [done..|].
      by rewrite (pi_jclosed _ _ _ Hi), Ef.
Qed.

(** A pipeline that ended without a cancel has delivered everything. *)
Lemma finished_all script w s :
  pinv script w s -> finished s -> ps_cancelled s = false ->
  ps_consumer s = CSawEnd /\ ps_delivered s = map dec script.
Proof.
  intros Hi ((l & Ef) & _ & Hc) Hn. destruct Hc as [Hc|Hc]; [|by rewrite (pi_stopped _ _ _ Hi Hc) in Hn].
  split; [done|]. destruct (pi_sawend _ _ _ Hi Hc) as (Ho & Hp & _).
  destruct (pi_order _ _ _ Hi) as (consumed & inflight & -> & -> & Hm). rewrite Ho, Hp, Ef in Hm. cbn in Hm.
  inversion Hm; subst. destruct (pi_todo _ _ _ Hi) as [?| ->]; [by rewrite Ef|congruence|]. by rewrite app_nil_r.
Qed.

End pipeline.

(** ** The pipeline *)

Lemma cnt_seq n x : (cnt (seq 0 n) x <= 1)%nat.
Proof.
  assert (List.NoDup (seq 0 n)) as H by apply seq_NoDup. exact (proj1 (NoDup_count_occ Nat.eq_dec (seq 0 n)) H x).
Qed.

Lemma seq_window n : length (seq 0 n) = n.
Proof. apply length_seq. Qed.

Lemma start_work {F R : Type} (script : list F) w :
  work (@start F R script w) = (20 * length script + w + 8)%nat.
Proof.
  assert (forall k, sum_list_with w_work (replicate k WIdle) = k) as E by (induction k as [|k IH]; cbn; [done|by rewrite IH]).
  unfold start, work, start_with. cbn [ps_todo ps_fetcher ps_ordered ps_jobs ps_ready ps_workers ps_pending ps_cur ps_consumer
    f_work o_work c_work length]. rewrite E. lia.
Qed.

(** C6: whatever the interleaving, the pipeline delivers in order.  Let the
    terms' chunks be fetched and decoded one after the other.  At every moment
    of every run of the concurrent pipeline over the same chunks, with any
    number of workers, slow or fast, and cancelled or not, what the consumer has
    received is a prefix of that sequence: no slot is reused while its chunk is
    awaited, no result is taken before it is written.  And no send waits: each
    channel has room, and each frame's ready channel is empty, when it is sent
    to. *)
Theorem pipeline_in_order {B3 : Blake3} {L : Lz4} {P : ChunkBufs} {S : Type} {XS : XorbStore S} terms (s : S) p s' :
  startPipeline terms s = (Ok p, s') ->
  exists frames, p_ordered p = map decode_job frames /\
    forall w st, prun decode_job (fun r => negb (is_ok r)) (start frames w) st ->
      (exists rest, p_ordered p = ps_delivered st ++ rest) /\ sends_ready st.
Proof.
  unfold startPipeline, mbind, prog_bind. destruct (fetch terms [] s) as [[[frames err]|] s1]; [|done]. intros [= <- <-].
  exists frames. split; [done|]. intros w st Hr.
  apply (prun_pinv _ _ (seq 0 decodeWindow) (cnt_seq _) (seq_window _)) in Hr as Hi. split.
  - destruct (pi_order _ _ _ _ _ Hi) as (consumed & inflight & Hs & -> & _). cbn [p_ordered]. subst frames.
    rewrite map_app. by eexists.
  - exact (pinv_sends _ _ (cnt_seq _) (seq_window _) _ _ _ Hi).
Qed.

(** C7: the pipeline always comes to its end.  With at least one worker, in
    every state any run can reach some goroutine can take a step, unless the
    fetcher and all workers have exited and the consumer is done; when nothing
    cancelled the run, the consumer has then received every chunk.  A run takes
    at most twenty steps per chunk, plus a constant, however it is scheduled, so
    it cannot go on without ending; in particular [stop] always joins its
    goroutines. *)
Theorem pipeline_live {F R : Type} (dec : F -> R) (bad : R -> bool) script w :
  (0 < w)%nat ->
  (forall s, prun dec bad (start script w) s ->
     ((exists s', pstep dec bad s s') \/ finished s) /\
     (finished s -> ps_cancelled s = false -> ps_consumer s = CSawEnd /\ ps_delivered s = map dec script)) /\
  (forall n s, nsteps (pround dec bad) n (start script w) s -> (n <= 20 * length script + w + 8)%nat).
Proof.
  intros Hw. split.
  - intros s Hr. apply (prun_pinv _ _ (seq 0 decodeWindow) (cnt_seq _) (seq_window _)) in Hr as Hi. split.
    + eapply (pinv_progress _ _ _ (cnt_seq _) (seq_window _)); [done| |exact Hi]. rewrite seq_window. unfold decodeWindow. lia.
    + by eapply finished_all.
  - intros n s Hn. apply rounds_work in Hn. rewrite start_work in Hn. lia.
Qed.

(** ** Witnesses *)

(** One chunk through one worker, the consumer waiting before the worker has
    begun: a whole run, step by step. *)
Lemma wit_pipeline_run :
  exists s, prun (fun n => Z.of_nat n) (fun _ => false) (start [7%nat] 1) s /\
    (finished s /\ ps_cancelled s = false /\ ps_delivered s = [7]).
Proof.
  eexists. split.
  - unfold prun.
    eapply rtc_l. { left. left. eapply f_acquire; reflexivity. }
    eapply rtc_l. { left. left. eapply f_fill; reflexivity. }
    eapply rtc_l. { left. left. eapply f_send_ordered; [reflexivity|]. vm_compute. lia. }
    eapply rtc_l. { left. right. right. eapply c_receive; reflexivity. }
    eapply rtc_l. { left. left. eapply f_send_jobs; [reflexivity|]. vm_compute. lia. }
    eapply rtc_l. { left. right. left. apply w_take with (w := 0%nat) (i := 0%nat) (jobs := []); reflexivity. }
    eapply rtc_l. { left. left. apply f_end; reflexivity. }
    eapply rtc_l. { left. right. left. apply w_decode with (w := 0%nat) (i := 0%nat) (fr := 7%nat); [reflexivity..|]. by intros ?%not_elem_of_nil. }
    eapply rtc_l. { left. left. eapply f_close_ordered. reflexivity. }
    eapply rtc_l. { left. left. eapply f_close_jobs. reflexivity. }
    eapply rtc_l. { left. right. right. apply c_keep with (i := 0%nat) (r := 7); try reflexivity. left. }
    eapply rtc_l. { left. right. right. apply c_end; reflexivity. }
    eapply rtc_l. { left. right. left. apply w_exit with (w := 0%nat); reflexivity. }
    apply rtc_refl.
  - split; [|split; reflexivity]. split; [by eexists|]. split; [by repeat constructor|]. by left.
Qed.

Lemma pipeline_live_witness :
  (0 < 2)%nat /\ (forall n s, nsteps (pround Z.of_nat (fun _ => false)) n (start [7%nat; 8%nat] 2) s -> (n <= 50)%nat).
Proof.
  split; [lia|]. exact (proj2 (pipeline_live Z.of_nat (fun _ => false) [7%nat; 8%nat] 2 ltac:(lia))).
Defined.
