(* ===== verification/Restore.v ===== *)
(** * Stored files read back: the pipeline over the in-memory backend

    [Memory] shows that an admitted file's terms decode, with the xorb decoder,
    to the bytes its hashes stand for ([term_chunks]).  A reader takes another
    way to them: [storage/reconstructed_pipeline.go] cuts the packed chunks by
    the stored offsets and unpacks them one by one.  This file shows that the
    two agree wherever the pipeline delivers anything, whatever buffers the pool
    hands out and whenever the context is cancelled, and so that a client of
    [reconstructedFile] never reads a byte that is not the file's. *)

From Stdlib Require Import ZArith Lia Strings.Byte Strings.String.
From S2P Require Import Prelude Hash Sha256 Gearhash Merkle ByteGrouping Compression XorbEncoder XorbDecoder.
From S2P Require Import XorbOffsets Shard ShardCodec Prog Storage PutShard Memory Reconstruct Pipeline.

Section restore.
Context {B3 : Blake3} {L : Lz4} {P : ChunkBufs}.

(** ** The same chunks, whichever buffer *)

(** A decoded chunk does not depend on what the output buffer held. *)
Lemma DecodeChunk_bufs site site' h body :
  0 <= UncompressedSize h ->
  DecodeChunk (BSlice (GetChunkBuf site) []) h body = DecodeChunk (BSlice (GetChunkBuf site') []) h body.
Proof.
  intros Hu. unfold DecodeChunk. cbn [selems sspare]. unfold scap. cbn [selems sspare]. rewrite !GetChunkBuf_len, !app_nil_r.
  destruct (negb _); [done|]. destruct (_ && _) eqn:Es; [done|]. destruct (Z.ltb_spec MaxChunkSize (UncompressedSize h)); [done|].
  destruct (_ =? _); [done|]. destruct (_ =? _); [done|]. destruct (_ =? _); [|done].
  unfold decompressByteGrouping4LZ4. destruct (decompressLZ4 _ _ _ _) as [d|] eqn:E; [|done]. cbn [mbind result_bind].
  apply decompressLZ4_len in E; [|done]. rewrite len_nil in E. destruct (grouped_surj d) as [g <-]. rewrite grouped_len in E.
  rewrite !reverse_spec; [reflexivity|..]; cbn [sspare]; rewrite GetChunkBuf_len; unfold maxChunkSize, MaxChunkSize in *; lia.
Qed.

Lemma DecodeChunk_none dst dst' h body :
  Compression h = CompressionNone -> DecodeChunk dst h body = DecodeChunk dst' h body.
Proof. intros Hn. unfold DecodeChunk. rewrite Hn. done. Qed.

(** The pipeline unpacks what the decoder unpacks. *)
Lemma decode_job_decoder fr d :
  0 <= UncompressedSize (fr_header fr) -> decode_job fr = Ok d ->
  DecodeChunk out_buf (fr_header fr) (drop (Z.to_nat ChunkHeaderSize) (fr_packed fr)) = Ok d.
Proof.
  intros Hu. unfold decode_job. destruct (Z.eqb_spec (Compression (fr_header fr)) CompressionNone) as [Hn|Hn].
  - rewrite (DecodeChunk_none _ out_buf) by done. by destruct (DecodeChunk _ _ _).
  - rewrite (DecodeChunk_bufs 3 2) by done. fold out_buf. by destruct (DecodeChunk _ _ _).
Qed.

Lemma decode_job_not_EOF fr : decode_job fr <> Err EOF.
Proof. unfold decode_job. destruct (_ =? _); by destruct (DecodeChunk _ _ _). Qed.

(** ** A term's frames *)

(** A decoder in the middle of a stream. *)
Definition decoding (rc : reader) (cs : list (list byte)) : Prop :=
  exists fuel d d', d_r d = rc /\ d_err d = None /\ d_done d = false /\ d_withFooter d = false /\
    read_all fuel MaxChunkSize d = (cs, EOF, d').

Lemma parse_not_ident b h : ParseChunkHeader b = Ok h -> slice 0 7 b <> xorbIdentifier.
Proof.
  unfold ParseChunkHeader. destruct (_ <? _); [done|]. destruct (Z.eqb_spec (byte_at b 0) 0) as [H0|]; [|done].
  intros _ Hi. destruct b as [|x b]; [done|]. unfold slice in Hi. cbn in Hi. injection Hi as -> _. done.
Qed.

(** One frame: the decoder reads the chunk it holds and goes on after it. *)
Lemma decoding_frame buf rc h cs :
  ParseChunkHeader (slice 0 ChunkHeaderSize buf) = Ok h -> CompressedSize h + ChunkHeaderSize = len buf ->
  CompressedSize h <= MaxChunkSize -> forall e, rend rc = e ->
  decoding (Reader (buf ++ rdata rc) e) cs ->
  exists c cs', cs = c :: cs' /\ DecodeChunk out_buf h (drop (Z.to_nat ChunkHeaderSize) buf) = Ok c /\ decoding rc cs'.
Proof.
  intros Hp Hsz Hmax e He (fuel & d & d' & Hr & Herr & Hdone & Hwf & Ha). destruct fuel as [|fuel]; [done|].
  pose proof (ParseChunkHeader_Ok _ _ Hp) as (Hc & Hu & _). unfold ChunkHeaderSize in *.
  cbn [read_all] in Ha. unfold Decoder_Read in Ha. rewrite Herr, Hdone, Hr in Ha.
  rewrite <- (take_drop 8 buf), <- app_assoc in Ha. rewrite ReadFull_app_n in Ha by (unfold len in *; rewrite length_take; lia).
  change (slice 0 8 buf) with (take 8 buf) in Hp. rewrite bool_decide_eq_false_2, Hp in Ha by (by eapply parse_not_ident).
  rewrite (proj2 (Z.ltb_ge _ _)) in Ha by (change (u32 MaxChunkSize) with MaxChunkSize; lia).
  cbn [d_set_r d_r d_chunkHashes d_rawSize] in Ha.
  destruct (_ <=? _); [done|]. destruct (_ || _); [done|].
  rewrite ReadFull_app_n in Ha by (unfold len in *; rewrite length_drop; lia).
  change (Z.to_nat 8) with 8%nat. destruct (DecodeChunk out_buf h (drop 8 buf)) as [c|] eqn:Ed; [|done].
  destruct (_ <? _); [done|]. destruct (read_all fuel _ _) as [[cs1 e1] d1] eqn:Er. injection Ha as <- -> ->.
  exists c, cs1. split; [done|]. split; [done|]. exists fuel. eexists _, _. split; [|split; [|split; [|split; [|exact Er]]]];
    cbn; try done. destruct rc. cbn in *. by subst.
Qed.

(** Frames that stand for the chunks [cs]. *)
Definition frames_of (frs : list pframe) (cs : list (list byte)) : Prop :=
  Forall2 (fun fr c => (forall d, decode_job fr = Ok d -> d = c) /\ len c = UncompressedSize (fr_header fr)) frs cs.

(** The context's errors are not the end of a file. *)
Definition ctx_not_EOF (s : memory) : Prop := forall n, env_err (m_env s) n <> Some EOF.

Lemma acquire_mem s : acquire s = (Ok (env_err (m_env s) (m_calls s)), tick s).
Proof.
  unfold acquire, catch. change (ctx_Err s) with (mem_ctx_Err s). unfold mem_ctx_Err.
  by destruct (env_err _ _).
Qed.

(** The memory after any number of looks at the context. *)
Definition looked (s s' : memory) : Prop := exists n, s' = Nat.iter n tick s.

Lemma looked_tick s s' : looked (tick s) s' -> looked s s'.
Proof. intros [n ->]. exists (S n). by rewrite Nat.iter_succ_r. Qed.

Lemma looked_same s s' : looked s s' -> same mem_at s s' /\ (ctx_not_EOF s -> ctx_not_EOF s').
Proof.
  intros [n ->]. induction n as [|n [IH1 IH2]]; [done|]. rewrite Nat.iter_succ. split; [|exact IH2].
  intros k m. rewrite <- IH1. apply mem_at_tick.
Qed.

(** What fetching a run of chunks does: the frames it sends stand for the first
    chunks, and for all the bytes when no error ended it. *)
Definition fetched (s : memory) (sent : list pframe) (cs : list (list byte)) (sent' : list pframe) (err : option error)
    (s' : memory) : Prop :=
  looked s s' /\ err <> Some EOF /\ exists frs got rest, sent' = sent ++ frs /\ frames_of frs got /\
    concat cs = concat (got ++ rest) /\ (err = None -> concat rest = []).

Lemma fetched_failed s s' sent cs e : looked s s' -> e <> EOF -> fetched s sent cs sent (Some e) s'.
Proof.
  intros Hl He. split; [done|]. split; [congruence|]. exists [], [], cs. rewrite app_nil_r. split; [done|].
  by split; [constructor|].
Qed.

Lemma looked_trans s1 s2 s3 : looked s1 s2 -> looked s2 s3 -> looked s1 s3.
Proof. intros [k0 ->] [k1 ->]. exists (k1 + k0)%nat. by rewrite Nat.iter_add. Qed.

Lemma fetch_chunks_mem n term offsets i start unpacked rc cs sent s sent' err s' :
  ctx_not_EOF s -> decoding rc cs -> 0 <= unpacked -> unpacked + len (concat cs) = fe_UnpackedSegBytes term ->
  fe_UnpackedSegBytes term < 2 ^ 62 ->
  fetch_chunks n term offsets i start unpacked rc sent s = (Ok (sent', err), s') ->
  fetched s sent cs sent' err s'.
Proof.
  revert i start unpacked rc cs sent s. induction n as [|n IH]; intros i start unpacked rc cs sent s Hctx Hdec Hu Htot Hb.
  { cbn [fetch_chunks]. assert (forall e, (Ok (sent, e), s) = (Ok (sent', err), s') -> (e = None -> unpacked = fe_UnpackedSegBytes term) ->
      e <> Some EOF ->
      fetched s sent cs sent' err s') as Hend.
    { intros e [= <- <- <-] He Hne. split; [by exists 0%nat|]. split; [done|]. exists [], [], cs. rewrite app_nil_r. split; [done|].
      split; [constructor|]. split; [done|]. intros E. apply len_0_nil. specialize (He E). lia. }
    destruct (Z.eqb_spec unpacked (fe_UnpackedSegBytes term)); intros H; by refine (Hend _ H _ _). }
  assert (forall s0 e, looked s s0 -> e <> EOF -> (Ok (sent, Some e), s0) = (Ok (sent', err), s') ->
    fetched s sent cs sent' err s') as Hfail.
  { intros s0 e Hl He [= <- <- <-]. by apply fetched_failed. }
  cbn [fetch_chunks]. unfold mbind at 1, prog_bind at 1.
  assert (exists s0, looked s s0 /\ (if fe_ChunkIndexStart term <? i then acquire else mret None) s =
    (Ok (if fe_ChunkIndexStart term <? i then env_err (m_env s) (m_calls s) else None), s0)) as (s0 & Hl0 & ->).
  { destruct (_ <? _); [|by exists s; split; [exists 0%nat|]]. rewrite acquire_mem. exists (tick s). split; [by exists 1%nat|done]. }
  match goal with |- context [match ?m with Some e => mret _ | None => _ end] => destruct m as [e|] eqn:Ea end.
  { intros H. refine (Hfail s0 e Hl0 _ H). destruct (_ <? _); [|done]. intros ->. by apply (Hctx (m_calls s)). }
  destruct (offsets !! Z.to_nat i) as [off|]; [|intros H; by refine (Hfail s0 _ Hl0 _ H)].
  cbv zeta. destruct (_ || _) eqn:Epk; [intros H; by refine (Hfail s0 _ Hl0 _ H)|].
  apply orb_false_iff in Epk as [Hp1 Hp2]. apply Z.ltb_ge in Hp1, Hp2.
  destruct (ReadFull (i64 off - start) rc) as [[buf [e|]] rc'] eqn:Er; [intros H; by refine (Hfail s0 _ Hl0 _ H)|].
  destruct (ParseChunkHeader _) as [h|e] eqn:Eh; [|intros H; by refine (Hfail s0 _ Hl0 _ H)].
  destruct (Z.eqb_spec (CompressedSize h + ChunkHeaderSize) (i64 off - start)) as [Hsz|]; cbn [negb];
    [|intros H; by refine (Hfail s0 _ Hl0 _ H)].
  apply ReadFull_Some in Er as (Hrd & Hlb & Hre); [|unfold ChunkHeaderSize in *; lia].
  destruct (decoding_frame buf rc' h cs Eh) with (e := rend rc) as (c & cs' & -> & Hdc & Hdec');
    [congruence|unfold frameBufSize in *; lia|done|by rewrite <- Hrd; destruct rc|].
  pose proof (ParseChunkHeader_Ok _ _ Eh) as (_ & Huc & _).
  pose proof (DecodeChunk_len _ _ _ _ (proj1 Huc) Hdc) as [Hcl _].
  cbn [concat] in Htot. rewrite len_app in Htot. pose proof (len_nonneg (concat cs')).
  rewrite u64_small by (unfold is_u64; lia).
  destruct (Z.ltb_spec (fe_UnpackedSegBytes term) (unpacked + UncompressedSize h)); [intros H'; by refine (Hfail s0 _ Hl0 _ H')|].
  intros H'. destruct (looked_same _ _ Hl0) as [_ Hc0]. apply (IH _ _ _ _ cs') in H'; [|by auto|done|lia|lia|done].
  destruct H' as (Hl1 & Herr & frs & got & rest & -> & Hfr & Hcs & Hrest).
  split; [by eapply looked_trans|]. split; [done|].
  eexists (_ :: frs), (c :: got), rest. rewrite <- app_assoc. split; [done|].
  split; [|split; [cbn; by rewrite Hcs|done]]. constructor; [|done]. cbn. split; [|done]. intros d Hd%decode_job_decoder; [|cbn; lia]. cbn in Hd. congruence.
Qed.

(** The xorbs of [s] are xorbs of [s0]: some may have been collected. *)
Definition sub_xorbs (s0 s : memory) : Prop :=
  forall n o, mem_at s kXorbs n = Some o -> mem_at s0 kXorbs n = Some o.

Lemma sub_xorbs_same s0 s s' : same mem_at s s' -> sub_xorbs s0 s -> sub_xorbs s0 s'.
Proof. intros Hs H n o Ho. apply H. by rewrite <- Hs. Qed.

Lemma fetchTerm_mem s0 term cs sent s sent' err s' :
  ctx_not_EOF s -> sub_xorbs s0 s -> term_chunks s0 term cs -> fe_UnpackedSegBytes term < 2 ^ 62 ->
  fetchTerm term sent s = (Ok (sent', err), s') -> fetched s sent cs sent' err s'.
Proof.
  intros Hctx Hsub (o & offsets & start & end_ & fuel & d & Ho0 & Hoff & Hrng & Hall & Hlen) Hb.
  unfold fetchTerm. unfold mbind at 1, prog_bind at 1. rewrite acquire_mem.
  assert (looked s (tick s)) as Hl by (by exists 1%nat).
  destruct (env_err _ _) as [e|] eqn:Ee.
  { intros [= <- <- <-]. apply fetched_failed; [done|]. intros ->. by eapply Hctx. }
  unfold catch, mbind, prog_bind, prog_wrap, lift, catch, throw, mret, prog_ret.
  change (GetXorbChunkOffsets (fe_CASHash term) (tick s)) with (mem_GetXorbChunkOffsets (fe_CASHash term) (tick s)).
  unfold mem_GetXorbChunkOffsets. change (mem_get ?k ?n (tick s)) with (mem_at s k n).
  destruct (mem_at s kXorbs (formatHash (fe_CASHash term))) as [o'|] eqn:Ho.
  2: { intros [= <- <- <-]. by apply fetched_failed. }
  pose proof (Hsub _ _ Ho) as Ho'. rewrite Ho0 in Ho'. injection Ho' as <-. rewrite Hoff. cbn [wrap_err].
  cbv beta iota. rewrite Hrng. cbn [wrap_err]. cbv beta iota. unfold openXorbRange. destruct (_ || _).
  { intros [= <- <- <-]. by apply fetched_failed. }
  unfold mbind, prog_bind, prog_wrap, catch, mret, prog_ret.
  change (GetXorbReadSeekCloser (fe_CASHash term) (tick s)) with (mem_GetXorbReadSeekCloser (fe_CASHash term) (tick s)).
  unfold mem_GetXorbReadSeekCloser. change (mem_get ?k ?n (tick s)) with (mem_at s k n). rewrite Ho.
  intros H. eapply (fetch_chunks_mem _ _ _ _ _ _ _ cs) in H; [|done| |done|lia|done].
  - destruct H as (Hl' & He & Hrest). split; [by eapply looked_trans|]. by split.
  - exists fuel. eexists _, d. split; [|split; [|split; [|split; [|exact Hall]]]]; done.
Qed.

Lemma fetch_mem s0 terms css sent s sent' err s' :
  ctx_not_EOF s -> sub_xorbs s0 s -> Forall2 (term_chunks s0) terms css -> len (concat (concat css)) < 2 ^ 62 ->
  fetch terms sent s = (Ok (sent', err), s') -> fetched s sent (concat css) sent' err s'.
Proof.
  revert css sent s. induction terms as [|term terms IH]; intros css sent s Hctx Hsub H Hb Hrun.
  { inversion H; subst. injection Hrun as <- <- <-. split; [by exists 0%nat|]. split; [done|]. exists [], [], [].
    rewrite app_nil_r. by repeat split; constructor. }
  inversion H as [|? cs ? css' Hterm Hterms]; subst. cbn [concat fetch] in *. rewrite concat_app, len_app in Hb.
  pose proof (len_nonneg (concat cs)). pose proof (len_nonneg (concat (concat css'))).
  pose proof Hterm as (o & offsets & start & end_ & fuel & d & _ & _ & _ & _ & Hlen).
  destruct (Z.eqb_spec (fe_UnpackedSegBytes term) 0) as [Hz|Hz].
  - assert (concat cs = []) as Hnil by (apply len_0_nil; lia).
    apply (IH css') in Hrun as (Hl & He & frs & got & rest & -> & Hfr & Hcs & Hrest); [|done|done|done|lia].
    split; [done|]. split; [done|]. exists frs, got, rest. rewrite concat_app, Hnil. done.
  - unfold mbind at 1, prog_bind at 1 in Hrun. destruct (fetchTerm term sent s) as [[[sent1 err1]|] s1] eqn:Et; [|done].
    apply (fetchTerm_mem s0 _ cs) in Et as (Hl1 & He1 & frs & got & rest & -> & Hfr & Hcs & Hrest); [|done|done|done|lia].
    destruct err1 as [e|].
    + injection Hrun as <- <- <-. split; [done|]. split; [done|]. exists frs, got, (rest ++ concat css').
      rewrite app_assoc, !concat_app in *. by rewrite Hcs.
    + destruct (looked_same _ _ Hl1) as [Hsame Hc1].
      apply (IH css') in Hrun as (Hl & He & frs' & got' & rest' & -> & Hfr' & Hcs' & Hrest'); [|by auto|by eapply sub_xorbs_same|done|lia].
      split; [by eapply looked_trans|]. split; [done|]. exists (frs ++ frs'), (got ++ got'), rest'.
      rewrite app_assoc. split; [done|]. split; [by apply Forall2_app|]. split; [|done].
      rewrite !concat_app in *. rewrite Hcs, Hcs', (Hrest eq_refl), app_nil_r. by rewrite app_assoc.
Qed.

(** A pipeline over stored terms delivers their chunks, as far as it delivers. *)
Lemma startPipeline_mem s0 terms css s p s' :
  ctx_not_EOF s -> sub_xorbs s0 s -> Forall2 (term_chunks s0) terms css -> len (concat (concat css)) < 2 ^ 62 ->
  startPipeline terms s = (Ok p, s') ->
  exists chunks, delivers chunks p /\ concat chunks = concat (concat css).
Proof.
  intros Hctx Hsub H Hb. unfold startPipeline, mbind, prog_bind.
  destruct (fetch terms [] s) as [[[frs err]|] s1] eqn:Ef; [|done]. intros [= <- <-].
  destruct (fetch_mem _ _ _ _ _ _ _ _ Hctx Hsub H Hb Ef) as (_ & He & frs' & got & rest & E & Hfr & Hcs & _). cbn [app] in E. subst frs'.
  exists (got ++ rest). split; [|done]. split; cbn; [| |done].
  - intros i d. rewrite list_lookup_fmap. destruct (frs !! i) as [fr|] eqn:Ei; [|done]. cbn. intros [= Hd].
    destruct (Forall2_lookup_l _ _ _ _ _ Hfr Ei) as (c & Hc & Hdc & _). apply Hdc in Hd as ->.
    by apply lookup_app_l_Some.
  - intros i. rewrite list_lookup_fmap. destruct (frs !! i) as [fr|] eqn:Ei; [|done]. cbn. intros [= Hd].
    by apply (decode_job_not_EOF fr).
Qed.

(** Every pipeline run ends: errors end the stream, they are not raised. *)
Lemma fetch_chunks_total n term offsets i start unpacked rc sent s :
  exists r s', fetch_chunks n term offsets i start unpacked rc sent s = (Ok r, s').
Proof.
  revert i start unpacked rc sent s. induction n as [|n IH]; intros i start unpacked rc sent s; cbn [fetch_chunks].
  { destruct (negb _); by eexists _, _. }
  unfold mbind, prog_bind. assert (exists r s0, (if fe_ChunkIndexStart term <? i then acquire else mret None) s = (Ok r, s0))
    as (r & s0 & ->) by (destruct (_ <? _); [rewrite acquire_mem|]; by eexists _, _).
  destruct r; [by eexists _, _|]. cbv zeta. repeat case_match; try (by eexists _, _); apply IH.
Qed.

Lemma catch_total {S A B} (m : prog S A) (k : A -> prog S B) (h : error -> prog S B) :
  (forall a s, exists r s', k a s = (Ok r, s')) -> (forall e s, exists r s', h e s = (Ok r, s')) ->
  forall s, exists r s', catch m k h s = (Ok r, s').
Proof. intros Hk Hh s. unfold catch. destruct (m s) as [[a|e] s1]; auto. Qed.

Lemma startPipeline_total terms (s : memory) : exists p s', startPipeline terms s = (Ok p, s').
Proof.
  assert (forall term sent (s : memory), exists r s', fetchTerm term sent s = (Ok r, s')) as Hterm.
  { intros term sent s1. unfold fetchTerm. unfold mbind at 1, prog_bind at 1. rewrite acquire_mem.
    destruct (env_err _ _); [by eexists _, _|]. apply catch_total; [|intros e s2; by eexists _, _].
    intros [[offs start] rc]. apply fetch_chunks_total. }
  assert (forall sent (s : memory), exists r s', fetch terms sent s = (Ok r, s')) as Hf.
  { induction terms as [|term terms IH]; intros sent s1; cbn [fetch]; [by eexists _, _|]. destruct (_ =? _); [done|].
    unfold mbind, prog_bind. destruct (Hterm term sent s1) as ([sent1 err] & s2 & ->). destruct err; [by eexists _, _|done]. }
  unfold startPipeline, mbind, prog_bind. destruct (Hf [] s) as ([frs err] & s1 & ->). by eexists _, _.
Qed.

(** The pipelines of a reader, each started on the store as it then is. *)
Definition opens_on (store : nat -> memory) (n : nat) (terms : list FileDataSequenceEntry) : pipe :=
  match startPipeline terms (store n) with
  | (Ok p, _) => p
  | (Err e, _) => MkPipe [] (Some e)
  end.

(** C3: a stored file never reads wrong.  Let the terms of a file decode, in
    the store they were admitted in, to [content], and let a client read, seek
    and close the file in any order while the store loses any of its xorbs,
    contexts are cancelled at any moment, the offsets cut into the xorbs are
    anything, and the pool's buffers hold anything.  Then every read returns the
    file's bytes at its position; a call reports the end of the file only at
    the file's end; a successful read is never empty; and seeks and failed
    calls keep the position exact, so that no sequence of errors makes a later
    read return other bytes. *)
Theorem stored_file_reads s0 (store : nat -> memory) cx entries css ops :
  (forall n, cx n <> CtxErr EOF) -> (forall n, ctx_not_EOF (store n)) -> (forall n, sub_xorbs s0 (store n)) ->
  Forall2 (term_chunks s0) entries css -> len (concat (concat css)) < 2 ^ 62 -> Forall op_ok ops ->
  faithful (concat (concat css)) 0 ops (rf_run cx (opens_on store) (NewReconstructedFile entries) ops).
Proof.
  intros Hcx Hctx Hsub Ht Hb Hops. assert (trustworthy (opens_on store) entries css) as Htr;
    [|exact (rf_run_safe _ _ _ _ Hcx Htr ops _ (new_safe _ _ _ Htr) Hops)].
  split; [|done|].
  - eapply Forall2_impl; [exact Ht|]. intros e c (o & offs & st & en & fuel & d & _ & _ & _ & _ & Hl). done.
  - intros n k. unfold opens_on. destruct (startPipeline_total (drop k entries) (store n)) as (p & s' & Hp). rewrite Hp.
    eapply startPipeline_mem; [apply Hctx|apply Hsub| | |exact Hp].
    + by apply Forall2_drop.
    + rewrite <- (take_drop k css), !concat_app, len_app in Hb. pose proof (len_nonneg (concat (concat (take k css)))). lia.
Qed.
End restore.

(** ** Witnesses *)

Section witnesses.
#[local] Instance read_b3 : Blake3 := poly_blake3.
#[local] Instance read_lz4 : Lz4 := rle_lz4.
#[local] Instance read_bufs : ChunkBufs := zero_bufs.

Definition read_terms : list FileDataSequenceEntry :=
  [MkFileEntry wit_root 0 (len (concat wit_chunks)) 0 (len wit_chunks)].

Definition read_ops : list rop := [OpRead 3; OpSeek 1 0; OpRead 100; OpRead 1; OpSeek (-2) 2; OpRead 1; OpClose; OpRead 1].

Lemma wit_term_chunks : Forall2 (term_chunks one_xorb) read_terms [wit_chunks].
Proof.
  constructor; [|constructor]. eexists _, _, _, _, 5%nat, _.
  split; [vm_compute; reflexivity|]. split; [vm_compute; reflexivity|]. split; [vm_compute; reflexivity|].
  split; vm_compute; reflexivity.
Qed.

Lemma reconstructed_reads_witness :
  rf_run (fun _ => Live) (opens_on (fun _ => one_xorb)) (NewReconstructedFile read_terms) read_ops =
    file_run (concat wit_chunks) false 0 read_ops.
Proof.
  apply (reconstructed_reads (fun _ => Live) (opens_on (fun _ => one_xorb)) read_terms [wit_chunks] read_ops).
  - reflexivity.
  - split.
    + constructor; [vm_compute; reflexivity|constructor].
    + vm_compute. reflexivity.
    + intros n [|k]; [exists wit_chunks; split; vm_compute; reflexivity|]. exists []. destruct k; split; vm_compute; reflexivity.
  - repeat constructor; vm_compute; discriminate.
Defined.

Lemma stored_file_reads_witness :
  rf_run (fun n => if Nat.ltb n 12 then Live else CtxErr Canceled) (opens_on (fun _ => one_xorb)) (NewReconstructedFile read_terms)
    [OpRead 3; OpSeek 0 0; OpRead 2] = [OutRead (take 3 (concat wit_chunks)) None; OutSeek (Ok 0); OutRead [] (Some Canceled)] /\
  faithful (concat wit_chunks) 0 read_ops
    (rf_run (fun n => if Nat.ltb n 12 then Live else CtxErr Canceled) (opens_on (fun _ => one_xorb)) (NewReconstructedFile read_terms) read_ops).
Proof.
  split; [vm_compute; reflexivity|].
  apply (stored_file_reads one_xorb (fun _ => one_xorb) (fun n => if Nat.ltb n 12 then Live else CtxErr Canceled) read_terms
    [wit_chunks] read_ops).
  - intros n. destruct (Nat.ltb n 12); discriminate.
  - intros n k. vm_compute. discriminate.
  - intros n m o H. exact H.
  - exact wit_term_chunks.
  - vm_compute. reflexivity.
  - repeat constructor; vm_compute; discriminate.
Defined.

Lemma pipeline_in_order_witness :
  exists p s' frames, startPipeline read_terms one_xorb = (Ok p, s') /\ map decode_job frames = map Ok wit_chunks /\
    forall w st, prun decode_job (fun r => negb (is_ok r)) (start frames w) st ->
      exists rest, map Ok wit_chunks = ps_delivered st ++ rest.
Proof.
  assert (fst (startPipeline read_terms one_xorb) = Ok (MkPipe (map Ok wit_chunks) None)) as E by (vm_compute; reflexivity).
  destruct (startPipeline read_terms one_xorb) as [r s'] eqn:Es. cbn in E. subst r.
  destruct (pipeline_in_order read_terms one_xorb _ s' Es) as (frames & Hf & Hr).
  exists (MkPipe (map Ok wit_chunks) None), s', frames. split; [reflexivity|]. split; [symmetry; exact Hf|].
  intros w st Hst. exact (proj1 (Hr w st Hst)).
Defined.
End witnesses.
