(* ===== verification/Plan.v ===== *)
(** * Reconstruction responses: [download/types.go], [range.go], [encode_v1.go],
      [encode_v2.go], and the planning half of [decode_v1.go], [decode_v2.go]

    A server answers a request for a byte range of a file with the terms that
    hold it, trimmed to the chunks that do, and with where to fetch the chunks;
    a client picks a fetch for every term.  Proved: a [Range] header is
    read as the grammar [range_spec] says and as the whole file otherwise; the
    terms of a response, from [OffsetIntoFirstRange] on, start with exactly the
    requested bytes and hold no chunk without one ([fits]), in both versions;
    every term has a fetch that covers it, whose byte range is that of its
    chunks. *)

From Stdlib Require Import ZArith Lia Strings.Byte Strings.String.
From stdpp Require Import gmap.
From S2P Require Import Prelude Hash Sha256 Gearhash Merkle Compression XorbEncoder XorbDecoder XorbOffsets.
From S2P Require Import Shard Prog Storage.

(** ** [types.go] *)

Record ChunkRange : Type := MkChunkRange { cr_Start : Z; cr_End : Z }.
Record ByteRange : Type := MkByteRange { br_Start : Z; br_End : Z }.

Record Term : Type := MkTerm {
  t_Hash : gostring;
  t_UnpackedLength : Z;
  t_Range : ChunkRange;
}.

Record FetchInfoEntry : Type := MkFetchInfo {
  fi_Range : ChunkRange;
  fi_URL : gostring;
  fi_URLRange : ByteRange;
}.

Record ReconstructionResponseV1 : Type := MkResponseV1 {
  r1_OffsetIntoFirstRange : Z;
  r1_Terms : list Term;
  r1_FetchInfo : gmap gostring (list FetchInfoEntry);
}.

Record XorbRangeDescriptor : Type := MkDescriptor { xd_Chunks : ChunkRange; xd_Bytes : ByteRange }.

Record XorbMultiRangeFetch : Type := MkMultiRange { mr_URL : gostring; mr_Ranges : list XorbRangeDescriptor }.

Record ReconstructionResponseV2 : Type := MkResponseV2 {
  r2_OffsetIntoFirstRange : Z;
  r2_Terms : list Term;
  r2_Xorbs : gmap gostring (list XorbMultiRangeFetch);
}.

(** ** [range.go] *)

(** [strings.CutPrefix] and [strings.Cut] at a byte. *)
Definition CutPrefix (s prefix : gostring) : gostring * bool :=
  if bool_decide (take (length prefix) s = prefix) then (drop (length prefix) s, true) else (s, false).

Fixpoint Cut (s : gostring) (sep : byte) : gostring * gostring * bool :=
  match s with
  | [] => ([], [], false)
  | c :: s =>
      if bool_decide (c = sep) then ([], s, true)
      else let '(before, after, found) := Cut s sep in (c :: before, after, found)
  end.

Definition ParseByteRange (header : gostring) (size : Z) : ByteRange :=
  let whole := MkByteRange 0 (size - 1) in
  let '(spec, isBytes) := CutPrefix header (str "bytes=") in
  let '(first, last, hasDash) := Cut spec "-"%byte in
  if negb isBytes || negb hasDash then whole
  else if bool_decide (first = []) then
    match ParseUint last 10 63 with
    | Err _ => whole
    | Ok suffix => MkByteRange (Z.max (size - suffix) 0) (size - 1)
    end
  else
    match ParseUint first 10 63 with
    | Err _ => whole
    | Ok firstPos =>
        if bool_decide (last = []) then MkByteRange firstPos (size - 1)
        else
          match ParseUint last 10 63 with
          | Err _ => whole
          | Ok lastPos => if lastPos <? firstPos then whole else MkByteRange firstPos (Z.min lastPos (size - 1))
          end
    end.

(** A parsed range lies in the file. *)
Lemma parse_uint_loop_range base maxVal n s v :
  0 <= base -> 0 <= n <= maxVal -> parse_uint_loop base maxVal n s = Ok v -> 0 <= v <= maxVal.
Proof.
  intros Hb. revert n. induction s as [|c s IH]; intros n Hn; cbn [parse_uint_loop]; [intros [= <-]; done|].
  destruct (digit_val c) as [d|] eqn:Ed; [|done]. destruct (_ <=? _); [done|]. destruct (Z.ltb_spec maxVal (n * base + d)); [done|].
  apply IH. split; [|done]. enough (0 <= d) by nia. unfold digit_val in Ed. pose proof (b2z_range c).
  repeat (match type of Ed with context [if ?b then _ else _] => destruct b eqn:? end); try done; injection Ed as <-; lia.
Qed.

Lemma ParseByteRange_range header size :
  0 <= size < 2 ^ 63 -> 0 <= br_Start (ParseByteRange header size) < 2 ^ 63 /\ br_End (ParseByteRange header size) < size.
Proof.
  intros Hs. unfold ParseByteRange. destruct (CutPrefix _ _) as [spec isBytes]. destruct (Cut spec _) as [[first last] hasDash].
  assert (forall s v, ParseUint s 10 63 = Ok v -> 0 <= v < 2 ^ 63) as Hp.
  { intros s v. unfold ParseUint. destruct s; [done|]. intros H%parse_uint_loop_range; lia. }
  destruct (_ || _); [cbn; lia|]. case_bool_decide.
  - destruct (ParseUint last 10 63) eqn:E; [apply Hp in E|]; cbn; lia.
  - destruct (ParseUint first 10 63) eqn:E; [|cbn; lia]. apply Hp in E. case_bool_decide; [cbn; lia|].
    destruct (ParseUint last 10 63) eqn:E'; [|cbn; lia]. apply Hp in E'. destruct (_ <? _); cbn; lia.
Qed.

(** *** What a range header asks for *)

(** [s] writes the number [v], below [2 ^ 63], in decimal digits. *)
Definition decimal (s : gostring) (v : Z) : Prop :=
  s <> [] /\ exists ds, Forall2 (fun c d => 0 <= d < 10 /\ b2z c = 48 + d) s ds /\ v = foldl (fun n d => n * 10 + d) 0 ds /\ v < 2 ^ 63.

(** The single ranges of a file of [size] bytes: [bytes=a-b], [bytes=a-] and
    [bytes=-n]; the last byte is included. *)
Inductive range_spec (size : Z) : gostring -> ByteRange -> Prop :=
| range_between first last a b :
    decimal first a -> decimal last b -> a <= b ->
    range_spec size (str "bytes=" ++ first ++ "-"%byte :: last) (MkByteRange a (Z.min b (size - 1)))
| range_from first a :
    decimal first a -> range_spec size (str "bytes=" ++ first ++ str "-") (MkByteRange a (size - 1))
| range_suffix last n :
    decimal last n -> range_spec size (str "bytes=-" ++ last) (MkByteRange (Z.max (size - n) 0) (size - 1)).

(** Any other header asks for the whole file. *)
Definition requests (header : gostring) (size : Z) (rng : ByteRange) : Prop :=
  range_spec size header rng \/ (forall rng', ~ range_spec size header rng') /\ rng = MkByteRange 0 (size - 1).

Lemma digit_decimal c d : (digit_val c = Some d /\ 0 <= d < 10) <-> (0 <= d < 10 /\ b2z c = 48 + d).
Proof.
  unfold digit_val. pose proof (b2z_range c). destruct (Z.leb_spec 48 (b2z c)), (Z.leb_spec (b2z c) 57); cbn [andb].
  1: split; [intros [[= <-] ?]; lia|intros [? ?]; split; [f_equal|]; lia].
  all: split; [|lia]; repeat case_match; intros [[= <-] ?]; lia.
Qed.

Lemma ParseUint_decimal s v : ParseUint s 10 63 = Ok v <-> decimal s v.
Proof.
  unfold ParseUint, decimal. destruct s as [|c s]; [split; [done|by intros [? _]]|].
  rewrite parse_uint_loop_Ok by lia. unfold is_digits. split.
  - intros (ds & H1 & H2 & H3). split; [done|]. exists ds. split; [|split; [done|lia]].
    eapply Forall2_impl; [exact H1|]. intros c' d. apply digit_decimal.
  - intros (_ & ds & H1 & H2 & H3). exists ds. split; [|split; [done|lia]].
    eapply Forall2_impl; [exact H1|]. intros c' d. apply digit_decimal.
Qed.

Lemma decimal_no_dash s v : decimal s v -> "-"%byte ∉ s.
Proof.
  intros (_ & ds & H & _). induction H as [|c d s ds [Hd Hc] _ IH]; [apply not_elem_of_nil|].
  rewrite not_elem_of_cons. split; [|done]. intros <-. change (b2z "-") with 45 in Hc. lia.
Qed.

Lemma Cut_found s sep before after : Cut s sep = (before, after, true) <-> s = before ++ sep :: after /\ sep ∉ before.
Proof.
  revert before. induction s as [|c s IH]; intros before; cbn [Cut]; [split; [done|by intros [? _]; destruct before]|].
  case_bool_decide as Hc.
  - subst c. split; [intros [= <- <-]; split; [done|apply not_elem_of_nil]|]. intros [E Hn]. destruct before as [|b before]; [by injection E as ->|].
    injection E as <- _. by destruct Hn; left.
  - destruct (Cut s sep) as [[b a] f] eqn:E. split.
    + intros [= <- <- ->]. destruct (proj1 (IH b) eq_refl) as [-> Hn]. split; [done|]. rewrite not_elem_of_cons. by split.
    + intros [Es Hn]. destruct before as [|b0 before]; [by injection Es as ->|]. injection Es as <- Es. rewrite not_elem_of_cons in Hn.
      assert ((b, a, f) = (before, after, true)) as [= -> -> ->]; [|done]. apply IH. split; [done|by destruct Hn].
Qed.

Lemma CutPrefix_found s prefix rest : CutPrefix s prefix = (rest, true) <-> s = prefix ++ rest.
Proof.
  unfold CutPrefix. case_bool_decide as H; split.
  - intros [= <-]. by rewrite <- H at 1; rewrite take_drop.
  - intros ->. by rewrite drop_app_length.
  - done.
  - intros ->. by rewrite take_app_length in H.
Qed.

(** [ParseByteRange], up to its default. *)
Definition parsed_range (header : gostring) (size : Z) : option ByteRange :=
  match CutPrefix header (str "bytes=") with
  | (spec, true) =>
      match Cut spec "-"%byte with
      | ([], last, true) => match ParseUint last 10 63 with Ok n => Some (MkByteRange (Z.max (size - n) 0) (size - 1)) | Err _ => None end
      | (first, [], true) => match ParseUint first 10 63 with Ok a => Some (MkByteRange a (size - 1)) | Err _ => None end
      | (first, last, true) =>
          match ParseUint first 10 63, ParseUint last 10 63 with
          | Ok a, Ok b => if b <? a then None else Some (MkByteRange a (Z.min b (size - 1)))
          | _, _ => None
          end
      | _ => None
      end
  | _ => None
  end.

Lemma ParseByteRange_parsed header size : ParseByteRange header size = default (MkByteRange 0 (size - 1)) (parsed_range header size).
Proof.
  unfold ParseByteRange, parsed_range. destruct (CutPrefix _ _) as [spec isBytes]. destruct (Cut spec _) as [[first last] hasDash].
  destruct isBytes; [|by destruct (negb hasDash)]. destruct hasDash; [|by destruct first, last]. cbn [negb orb].
  destruct first as [|f first]; [rewrite bool_decide_eq_true_2 by done; destruct last as [|l last]; [done|]; by destruct (ParseUint (l :: last) 10 63)|].
  rewrite bool_decide_eq_false_2 by done. destruct last as [|l last].
  - destruct (ParseUint (f :: first) 10 63); [|done]. by rewrite bool_decide_eq_true_2.
  - destruct (ParseUint (f :: first) 10 63); [|done]. rewrite bool_decide_eq_false_2 by done.
    destruct (ParseUint (l :: last) 10 63); [|done]. by destruct (_ <? _).
Qed.

Lemma parsed_range_spec header size rng : parsed_range header size = Some rng <-> range_spec size header rng.
Proof.
  unfold parsed_range. split.
  - destruct (CutPrefix header _) as [spec [|]] eqn:E1; [|done]. apply CutPrefix_found in E1 as ->.
    destruct (Cut spec _) as [[first last] [|]] eqn:E2; [|by destruct first, last]. apply Cut_found in E2 as [-> _].
    destruct first as [|f first]; [|destruct last as [|l last]].
    + destruct last as [|l last]; [done|]. destruct (ParseUint (l :: last) 10 63) as [n|] eqn:En; [|done]. intros [= <-]. apply ParseUint_decimal in En. by apply (range_suffix size (l :: last) n).
    + destruct (ParseUint (f :: first) 10 63) as [a|] eqn:Ea; [|done]. intros [= <-]. apply ParseUint_decimal in Ea. by apply range_from.
    + destruct (ParseUint (f :: first) 10 63) as [a|] eqn:Ea; [|done]. destruct (ParseUint (l :: last) 10 63) as [b|] eqn:Eb; [|done].
      destruct (Z.ltb_spec b a); [done|]. intros [= <-]. apply ParseUint_decimal in Ea, Eb. by apply range_between.
  - assert (forall rest, CutPrefix (str "bytes=" ++ rest) (str "bytes=") = (rest, true)) as Hp by (intros; by apply CutPrefix_found).
    intros [first last a b Ha Hb Hab|first a Ha|last n Hn].
    + rewrite Hp. rewrite (proj2 (Cut_found _ _ first last)) by (split; [done|by eapply decimal_no_dash]).
      pose proof (proj2 (ParseUint_decimal _ _) Ha) as Ea. pose proof (proj2 (ParseUint_decimal _ _) Hb) as Eb.
      destruct first; [by destruct Ha|]. destruct last; [by destruct Hb|]. rewrite Ea, Eb. by rewrite (proj2 (Z.ltb_ge _ _)).
    + rewrite Hp. rewrite (proj2 (Cut_found _ _ first [])) by (split; [done|by eapply decimal_no_dash]).
      pose proof (proj2 (ParseUint_decimal _ _) Ha) as Ea. destruct first; [by destruct Ha|]. by rewrite Ea.
    + change (str "bytes=-" ++ last) with (str "bytes=" ++ str "-" ++ last). rewrite Hp.
      rewrite (proj2 (Cut_found _ _ [] last)) by (split; [done|apply not_elem_of_nil]).
      pose proof (proj2 (ParseUint_decimal _ _) Hn) as En. destruct last; [by destruct Hn|]. by rewrite En.
Qed.

(** The parsed range is the one the header asks for. *)
Lemma ParseByteRange_requests header size rng : ParseByteRange header size = rng <-> requests header size rng.
Proof.
  rewrite ParseByteRange_parsed. unfold requests. destruct (parsed_range header size) as [r|] eqn:E; cbn [default from_option].
  - pose proof (proj1 (parsed_range_spec _ _ _) E) as Hr. split; [intros <-; by left|]. intros [Hs|[Hn _]]; [|by destruct (Hn r)].
    apply parsed_range_spec in Hs. rewrite E in Hs. by injection Hs.
  - split.
    + intros <-. right. split; [|done]. intros r' Hr. apply parsed_range_spec in Hr. congruence.
    + intros [Hs|[_ ->]]; [|done]. apply parsed_range_spec in Hs. congruence.
Qed.

(** A header that selects no byte starts at or past the end. *)
Lemma ParseByteRange_empty header size :
  0 <= size -> br_End (ParseByteRange header size) < br_Start (ParseByteRange header size) -> size <= br_Start (ParseByteRange header size).
Proof.
  intros Hs. pose proof (proj1 (ParseByteRange_requests header size _) eq_refl) as H. revert H.
  generalize (ParseByteRange header size). intros r [H|[_ ->]]; [|cbn; lia]. destruct H; cbn; lia.
Qed.

(** The loop of [trimSegment] over the chunks [[c, ChunkIndexEnd)]. *)
Record trim : Type := MkTrim { tr_first : Z; tr_last : Z; tr_from : Z; tr_to : Z; tr_at : Z }.

Fixpoint trim_loop (c : Z) (chunks : list CASChunkSequenceEntry) (rng : ByteRange) (st : trim) : trim :=
  match chunks with
  | [] => st
  | chunk :: chunks =>
      let at_ := tr_at st in
      let next := i64 (at_ + cc_UnpackedSegBytes chunk) in
      let '(first, from) := if next <=? br_Start rng then (u32 (c + 1), next) else (tr_first st, tr_from st) in
      let '(last, to) := if at_ <=? br_End rng then (u32 (c + 1), next) else (tr_last st, tr_to st) in
      trim_loop (c + 1) chunks rng (MkTrim first last from to next)
  end.

(** [slices.IndexFunc] over the CAS blocks. *)
Definition find_cas (sh : Shard) (h : XorbHash) : option CASBlock :=
  snd <$> list_find (fun b => cb_CASHash b = h) (s_CASInfos sh).

Definition trimSegment (sh : Shard) (seg : FileDataSequenceEntry) (start : Z) (rng : ByteRange) :
    FileDataSequenceEntry * Z :=
  let end_ := i64 (start + fe_UnpackedSegBytes seg) in
  if (br_Start rng <=? start) && (i64 (end_ - 1) <=? br_End rng) then (seg, 0)
  else
    match find_cas sh (fe_CASHash seg) with
    | None => (seg, 0)
    | Some b =>
        if len (cb_Chunks b) <? fe_ChunkIndexEnd seg then (seg, 0)
        else
          let st := trim_loop (fe_ChunkIndexStart seg) (slice (fe_ChunkIndexStart seg) (fe_ChunkIndexEnd seg) (cb_Chunks b)) rng
            (MkTrim (fe_ChunkIndexStart seg) (fe_ChunkIndexStart seg) start start start) in
          if negb (tr_at st =? end_) || (tr_last st <=? tr_first st) then (seg, 0)
          else
            (MkFileEntry (fe_CASHash seg) (fe_CASFlags seg) (u32 (tr_to st - tr_from st)) (tr_first st) (tr_last st),
             i64 (tr_from st - start))
    end.

(** ** [encode_v1.go], [encode_v2.go] *)

(** Of the ranges with one start, keep the longest. *)
Fixpoint keep_longest {A} (range : A -> ChunkRange) (x : A) (l : list A) : list A :=
  match l with
  | [] => [x]
  | y :: l =>
      if cr_Start (range y) =? cr_Start (range x)
      then if cr_End (range y) <? cr_End (range x) then x :: l else y :: l
      else y :: keep_longest range x l
  end.

Section build.
Context {S : Type} {ST : Storage S}.

Definition entry_range (e : FileDataSequenceEntry) : ChunkRange := MkChunkRange (fe_ChunkIndexStart e) (fe_ChunkIndexEnd e).

Definition entry_term (e : FileDataSequenceEntry) : Term :=
  MkTerm (formatHash (fe_CASHash e)) (fe_UnpackedSegBytes e) (entry_range e).

(** The loop both builders have: [record] keeps what a term is fetched from. *)
Fixpoint build_loop {A} (record : FileDataSequenceEntry -> ByteRange -> A -> prog S A) (sh : Shard) (rng : ByteRange)
    (entries : list FileDataSequenceEntry) (currentByteOffset : Z) (offset : Z) (terms : list Term) (acc : A) :
    prog S (Z * list Term * A) :=
  match entries with
  | [] => mret (offset, terms, acc)
  | seg :: entries =>
      let termStart := currentByteOffset in
      let termEnd := i64 (currentByteOffset + fe_UnpackedSegBytes seg) in
      if termEnd <=? br_Start rng then build_loop record sh rng entries termEnd offset terms acc
      else if br_End rng <? termStart then mret (offset, terms, acc)
      else
        let '(entry, skipped) := trimSegment sh seg termStart rng in
        let termStart := i64 (termStart + skipped) in
        let offset :=
          if bool_decide (terms = []) && (termStart <? br_Start rng) then i64 (br_Start rng - termStart) else offset in
        offsets ← prog_wrap "failed to get xorb chunk offsets: %w" (GetXorbChunkOffsets (fe_CASHash entry));
        '(startByte, endByte) ← lift (wrap_err "failed to get xorb data range: %w"
          (ChunkDataRangeFromOffsets offsets (fe_ChunkIndexStart entry) (fe_ChunkIndexEnd entry)));
        acc ← record entry (MkByteRange startByte endByte) acc;
        build_loop record sh rng entries termEnd offset (terms ++ [entry_term entry]) acc
  end.

Definition record_v1 (entry : FileDataSequenceEntry) (span : ByteRange) (fetchInfo : gmap gostring (list FetchInfoEntry)) :
    prog S (gmap gostring (list FetchInfoEntry)) :=
  xorbURL ← prog_wrap "failed to get xorb URL: %w" (GetXorbURL (fe_CASHash entry));
  let hash := formatHash (fe_CASHash entry) in
  mret (<[hash := keep_longest fi_Range (MkFetchInfo (entry_range entry) xorbURL span) (default [] (fetchInfo !! hash))]> fetchInfo).

Definition BuildReconstructionResponseV1 (sh : Shard) (fileHash : FileHash) (rng : ByteRange) :
    prog S ReconstructionResponseV1 :=
  match File sh fileHash with
  | None => throw (Errorf "file not found in shard")
  | Some fb =>
      '(offset, terms, fetchInfo) ← build_loop record_v1 sh rng (fb_Entries fb) 0 0 [] ∅;
      mret (MkResponseV1 offset terms fetchInfo)
  end.

Definition record_v2 (entry : FileDataSequenceEntry) (span : ByteRange) (ranges : gmap gostring (list XorbRangeDescriptor)) :
    prog S (gmap gostring (list XorbRangeDescriptor)) :=
  let hash := formatHash (fe_CASHash entry) in
  mret (<[hash := keep_longest xd_Chunks (MkDescriptor (entry_range entry) span) (default [] (ranges !! hash))]> ranges).

(** The URLs of the collected xorbs; the hashes are those [formatHash] printed.
    Go visits the map in any order. *)
Fixpoint xorb_fetches (ranges : list (gostring * list XorbRangeDescriptor))
    (xorbs : gmap gostring (list XorbMultiRangeFetch)) : prog S (gmap gostring (list XorbMultiRangeFetch)) :=
  match ranges with
  | [] => mret xorbs
  | (hash, descriptors) :: ranges =>
      let xorbHash := match parseHash hash with Ok h => h | Err _ => zeroHash end in
      xorbURL ← prog_wrap "failed to get xorb URL: %w" (GetXorbURL xorbHash);
      xorb_fetches ranges (<[hash := [MkMultiRange xorbURL descriptors]]> xorbs)
  end.

Definition BuildReconstructionResponseV2 (sh : Shard) (fileHash : FileHash) (rng : ByteRange) :
    prog S ReconstructionResponseV2 :=
  match File sh fileHash with
  | None => throw (Errorf "file not found in shard")
  | Some fb =>
      '(offset, terms, ranges) ← build_loop record_v2 sh rng (fb_Entries fb) 0 0 [] ∅;
      xorbs ← xorb_fetches (map_to_list ranges) ∅;
      mret (MkResponseV2 offset terms xorbs)
  end.
End build.

(** ** Choosing the fetches: [decode_v1.go], [decode_v2.go], [prefetcher.go] *)

Record fetchKey : Type := MkFetchKey { fk_Hash : gostring; fk_Start : Z; fk_End : Z }.
Record selectedFetch : Type := MkSelected { sf_key : fetchKey; sf_chunkStart : Z; sf_chunkEnd : Z }.
Record fetchTask : Type := MkTask { ft_key : fetchKey; ft_url : gostring; ft_chunkStart : Z; ft_chunkEnd : Z }.

Definition validChunkRange (start end_ : Z) : bool := (start <? end_) && (end_ <=? MaxChunksPerXorb).

Definition checkFetchRange (term : Term) (chunks : ChunkRange) (span : ByteRange) : result unit :=
  if (cr_End (t_Range term) <=? cr_Start (t_Range term)) || negb (validChunkRange (cr_Start chunks) (cr_End chunks))
     || (br_Start span <? 0) || (br_End span <? br_Start span)
  then Err (Errorf "invalid range for term chunks [%d, %d) of xorb %s")
  else Ok tt.

Definition covers (chunks : ChunkRange) (term : Term) : bool :=
  (cr_Start chunks <=? cr_Start (t_Range term)) && (cr_End (t_Range term) <=? cr_End chunks).

(** The smallest of the candidates, the first on a tie. *)
Fixpoint smallest {A} (chunks : A -> ChunkRange) (span : A -> ByteRange) (term : Term) (best : option A) (l : list A) :
    option A :=
  match l with
  | [] => best
  | x :: l =>
      let width y := i64 (br_End (span y) - br_Start (span y)) in
      let best :=
        if covers (chunks x) term then
          match best with
          | None => Some x
          | Some b => if width x <? width b then Some x else Some b
          end
        else best in
      smallest chunks span term best l
  end.

Definition selectFetchInfoV1 (r : ReconstructionResponseV1) (term : Term) : result FetchInfoEntry :=
  match r1_FetchInfo r !! t_Hash term with
  | None | Some [] => Err (Errorf "no fetch info for xorb %s")
  | Some fetchInfoList =>
      match smallest fi_Range fi_URLRange term None fetchInfoList with
      | None => Err (Errorf "no matching fetch info for term chunk range [%d, %d)")
      | Some e => Ok e
      end
  end.

(** A fetch and one of its ranges. *)
Definition flatten (fetchList : list XorbMultiRangeFetch) : list (gostring * XorbRangeDescriptor) :=
  concat (map (fun f => map (fun rg => (mr_URL f, rg)) (mr_Ranges f)) fetchList).

Definition selectFetchInfoV2 (r : ReconstructionResponseV2) (term : Term) : result (gostring * XorbRangeDescriptor) :=
  match r2_Xorbs r !! t_Hash term with
  | None | Some [] => Err (Errorf "no fetch info for xorb %s")
  | Some fetchList =>
      match smallest (fun p => xd_Chunks p.2) (fun p => xd_Bytes p.2) term None (flatten fetchList) with
      | None => Err (Errorf "no matching range descriptor for term chunk range [%d, %d)")
      | Some p => Ok p
      end
  end.

(** [planReaderV1], [planReaderV2]: the fetch and the task of every term. *)
Fixpoint plan_terms (select : Term -> result (ChunkRange * gostring * ByteRange)) (terms : list Term) :
    result (list selectedFetch * list fetchTask) :=
  match terms with
  | [] => Ok ([], [])
  | term :: terms =>
      '(chunks, url, span) ← select term;
      _ ← checkFetchRange term chunks span;
      let key := MkFetchKey (t_Hash term) (br_Start span) (br_End span) in
      '(selected, tasks) ← plan_terms select terms;
      Ok (MkSelected key (cr_Start chunks) (cr_End chunks) :: selected,
          MkTask key url (cr_Start chunks) (cr_End chunks) :: tasks)
  end.

Definition planReaderV1 (r : ReconstructionResponseV1) : result (list selectedFetch * list fetchTask) :=
  plan_terms (fun term => e ← selectFetchInfoV1 r term; Ok (fi_Range e, fi_URL e, fi_URLRange e)) (r1_Terms r).

Definition planReaderV2 (r : ReconstructionResponseV2) : result (list selectedFetch * list fetchTask) :=
  plan_terms (fun term => '(url, rg) ← selectFetchInfoV2 r term; Ok (xd_Chunks rg, url, xd_Bytes rg)) (r2_Terms r).

(** [ExpectedLengthV1], [ExpectedLengthV2]. *)
Definition expected_length (offset : Z) (terms : list Term) : Z :=
  let total := foldl (fun total term => u64 (total + t_UnpackedLength term)) 0 terms in
  let clamp n := if 2 ^ 63 - 1 <? n then 2 ^ 63 - 1 else n in
  if offset <=? 0 then clamp total
  else if total <=? offset then 0
  else clamp (total - offset).

Definition ExpectedLengthV1 (r : ReconstructionResponseV1) : Z := expected_length (r1_OffsetIntoFirstRange r) (r1_Terms r).
Definition ExpectedLengthV2 (r : ReconstructionResponseV2) : Z := expected_length (r2_OffsetIntoFirstRange r) (r2_Terms r).

(** [ExpectedTransferBytesV1], [ExpectedTransferBytesV2]. *)
Fixpoint transfer_bytes (seen : list fetchKey) (total : Z) (tasks : list fetchTask) : Z :=
  match tasks with
  | [] => total
  | task :: tasks =>
      let key := ft_key task in
      if existsb (fun k => bool_decide (fk_Hash k = fk_Hash key) && (fk_Start k =? fk_Start key) && (fk_End k =? fk_End key)) seen
      then transfer_bytes seen total tasks
      else
        let total := if fk_Start key <=? fk_End key then i64 (total + (fk_End key - fk_Start key + 1)) else total in
        transfer_bytes (key :: seen) total tasks
  end.

Definition ExpectedTransferBytesV1 (r : ReconstructionResponseV1) : Z :=
  match planReaderV1 r with Err _ => 0 | Ok (_, tasks) => transfer_bytes [] 0 tasks end.
Definition ExpectedTransferBytesV2 (r : ReconstructionResponseV2) : Z :=
  match planReaderV2 r with Err _ => 0 | Ok (_, tasks) => transfer_bytes [] 0 tasks end.

(** ** What a response stands for *)

Section contents.
(** The chunks of every xorb. *)
Context (xc : XorbHash -> list (list byte)).

Definition seg_data (h : XorbHash) (r : ChunkRange) : list byte := concat (slice (cr_Start r) (cr_End r) (xc h)).

Definition entry_content (e : FileDataSequenceEntry) : list byte := seg_data (fe_CASHash e) (entry_range e).

Definition term_content (t : Term) : list byte :=
  match parseHash (t_Hash t) with Ok h => seg_data h (t_Range t) | Err _ => [] end.

(** An entry declares its chunks and their size. *)
Record entry_ok (e : FileDataSequenceEntry) : Prop := {
  eo_range : 0 <= fe_ChunkIndexStart e <= fe_ChunkIndexEnd e;
  eo_end : fe_ChunkIndexEnd e <= len (xc (fe_CASHash e));
  eo_u32 : fe_ChunkIndexEnd e < 2 ^ 32;
  eo_size : fe_UnpackedSegBytes e = len (entry_content e);
}.

(** The CAS blocks of a shard list the sizes of the chunks. *)
Definition blocks_ok (sh : Shard) : Prop :=
  forall b, b ∈ s_CASInfos sh -> map cc_UnpackedSegBytes (cb_Chunks b) = map len (xc (cb_CASHash b)).

Lemma term_content_entry e : term_content (entry_term e) = entry_content e.
Proof. unfold term_content, entry_term. cbn [t_Hash t_Range]. by rewrite parse_formatHash. Qed.

(** *** Trimming *)

(** Each non-empty piece of [us], laid out from [at_] on, holds a byte of the
    range. *)
Definition hits (at_ : Z) (rng : ByteRange) (us : list (list byte)) : Prop :=
  forall a u b, us = a ++ u :: b -> u <> [] ->
    at_ + len (concat a) <= br_End rng /\ br_Start rng < at_ + len (concat a) + len u.

Lemma app_snoc_cons {A} (l : list A) d x u y :
  l ++ [d] = x ++ u :: y -> (y = [] /\ x = l /\ u = d) \/ exists y', y = y' ++ [d] /\ l = x ++ u :: y'.
Proof.
  destruct y as [|z y _] using rev_ind; intros E.
  - apply app_inj_tail in E as [-> ->]. by left.
  - right. exists y. change (x ++ u :: y ++ [z]) with (x ++ (u :: y) ++ [z]) in E. rewrite app_assoc in E.
    apply app_inj_tail in E as [-> ->]. done.
Qed.

Lemma hits_app at_ rng us vs : hits at_ rng us -> hits (at_ + len (concat us)) rng vs -> hits at_ rng (us ++ vs).
Proof.
  intros H1 H2 a u b E Hu. apply app_eq_app in E as (l & [[-> E]|[-> E]]).
  - destruct l as [|u' l].
    + destruct (H2 [] u b) as [? ?]; [by rewrite E|done|]. rewrite app_nil_r in *. cbn in *. rewrite (@len_nil byte) in *. lia.
    + injection E as <- ->. by apply (H1 a u l).
  - rewrite concat_app, len_app. destruct (H2 l u b E Hu). lia.
Qed.

(** Pieces that lie within the range. *)
Lemma hits_inside at_ rng us : br_Start rng <= at_ -> at_ + len (concat us) - 1 <= br_End rng -> hits at_ rng us.
Proof.
  intros H1 H2 a u b -> Hu. rewrite concat_app, len_app in H2. cbn [concat] in H2. rewrite len_app in H2.
  pose proof (len_nonneg (concat a)). pose proof (len_nonneg (concat b)).
  assert (0 < len u) by (destruct u; [done|]; rewrite len_cons; pose proof (len_nonneg u); lia). lia.
Qed.

(** What the loop knows after the chunks [p]: the chunks [a] end at or before the
    range and those after them do not; the chunks [q] start before its end, and
    what follows them, if anything, does not. *)
Record trimmed (c0 at0 : Z) (rng : ByteRange) (p : list (list byte)) (st : trim) : Prop := {
  tm_first : exists a a', p = a ++ a' /\ tr_first st = c0 + len a /\ tr_from st = at0 + len (concat a) /\
    (a = [] \/ tr_from st <= br_Start rng) /\
    (forall x u y, a' = x ++ u :: y -> br_Start rng < tr_from st + len (concat x) + len u);
  tm_last : exists q q', p = q ++ q' /\ tr_last st = c0 + len q /\ tr_to st = at0 + len (concat q) /\
    (q' = [] \/ br_End rng < tr_to st) /\
    (forall x u y, q = x ++ u :: y -> at0 + len (concat x) <= br_End rng);
  tm_at : tr_at st = at0 + len (concat p);
}.

Lemma trim_loop_trimmed c0 at0 rng p chunks cs st :
  0 <= c0 -> 0 <= at0 -> c0 + len (p ++ cs) < 2 ^ 32 -> at0 + len (concat (p ++ cs)) < 2 ^ 62 ->
  map cc_UnpackedSegBytes chunks = map len cs -> trimmed c0 at0 rng p st ->
  trimmed c0 at0 rng (p ++ cs) (trim_loop (c0 + len p) chunks rng st).
Proof.
  intros Hc0 Ha0. revert p cs st. induction chunks as [|ch chunks IH]; intros p cs st Hc Ha Hm Ht.
  { destruct cs; [|done]. by rewrite app_nil_r. }
  destruct cs as [|d cs]; [done|]. injection Hm as Hd Hm. cbn [trim_loop].
  destruct Ht as [(a & a' & A1 & A2 & A3 & A4 & A5) (q & q' & Q1 & Q2 & Q3 & Q4 & Q5) Hat].
  pose proof (len_nonneg (concat p)). pose proof (len_nonneg d). pose proof (len_nonneg (concat cs)).
  pose proof (len_nonneg p). pose proof (len_nonneg cs).
  rewrite len_app, len_cons in Hc. rewrite concat_app, len_app in Ha. cbn [concat] in Ha. rewrite len_app in Ha.
  rewrite Hat, Hd, i64_small, u32_small by (unfold is_i64, is_u32; lia).
  replace (p ++ d :: cs) with ((p ++ [d]) ++ cs) by (by rewrite <- app_assoc).
  replace (c0 + len p + 1) with (c0 + len (p ++ [d])) by (rewrite len_app, len_cons, (@len_nil (list byte)); lia).
  assert (len (concat (p ++ [d])) = len (concat p) + len d) as Hpd by (rewrite concat_app, len_app; cbn; by rewrite app_nil_r).
  rewrite <- Z.add_assoc, <- Hpd.
  assert (len (concat p) = len (concat a) + len (concat a')) as Hpa by (by rewrite A1, concat_app, len_app).
  assert (len (concat p) = len (concat q) + len (concat q')) as Hpq by (by rewrite Q1, concat_app, len_app).
  pose proof (len_nonneg (concat q')).
  set (st1 := if _ <=? br_Start rng then _ else _). set (st2 := if _ <=? br_End rng then _ else _).
  destruct st1 as [first from] eqn:E1, st2 as [last to] eqn:E2.
  apply IH; [rewrite !len_app, len_cons, (@len_nil (list byte)); lia|rewrite concat_app, len_app, Hpd; lia|done|]. split; cbn [tr_first tr_from tr_last tr_to tr_at].
  - unfold st1 in E1. destruct (Z.leb_spec (at0 + len (concat (p ++ [d]))) (br_Start rng)) as [Hle|Hgt]; injection E1 as <- <-.
    + exists (p ++ [d]), []. rewrite app_nil_r. split_and!; [done..|by right|]. intros x u y E. by apply app_cons_not_nil in E.
    + exists a, (a' ++ [d]). rewrite app_assoc, <- A1. split_and!; [done..|]. intros x u y [(-> & -> & ->)|(y' & -> & ->)]%app_snoc_cons; [lia|].
      by apply (A5 x u y').
  - unfold st2 in E2. destruct (Z.leb_spec (at0 + len (concat p)) (br_End rng)) as [Hle|Hgt]; injection E2 as <- <-.
    + exists (p ++ [d]), []. rewrite app_nil_r. split_and!; [done..|by left|]. intros x u y E. enough (len (concat x) <= len (concat p)) by lia.
      apply app_snoc_cons in E as [(_ & -> & _)|(y' & _ & ->)]; [done|]. rewrite concat_app, len_app. pose proof (len_nonneg (concat (u :: y'))). lia.
    + exists q, (q' ++ [d]). rewrite app_assoc, <- Q1. split_and!; [done..| |done]. right. destruct Q4 as [->|]; [cbn in Hpq; rewrite (@len_nil byte) in Hpq|]; lia.
  - done.
Qed.

(** What a segment can be cut into: its chunks, if the shard has a CAS block of
    its xorb, and nothing smaller than itself otherwise. *)
Definition units (sh : Shard) (e : FileDataSequenceEntry) : list (list byte) :=
  match find_cas sh (fe_CASHash e) with
  | Some _ => slice (fe_ChunkIndexStart e) (fe_ChunkIndexEnd e) (xc (fe_CASHash e))
  | None => [entry_content e]
  end.

Lemma concat_units sh e : concat (units sh e) = entry_content e.
Proof. unfold units. destruct (find_cas _ _); [done|]. cbn. by rewrite app_nil_r. Qed.

(** A trimmed entry is the part of the segment the range needs: when the segment
    meets the range, the entry holds the units that do. *)
Record trims (sh : Shard) (seg entry : FileDataSequenceEntry) (start : Z) (rng : ByteRange) (skipped : Z) : Prop := {
  ts_ok : entry_ok entry;
  ts_hash : fe_CASHash entry = fe_CASHash seg;
  ts_content : start <= br_End rng -> br_Start rng < start + len (entry_content seg) -> br_Start rng <= br_End rng ->
    exists pre mid post, units sh seg = pre ++ mid ++ post /\ entry_content entry = concat mid /\ skipped = len (concat pre) /\
      (pre = [] \/ start + len (concat pre) <= br_Start rng) /\
      (post = [] \/ br_End rng < start + len (concat pre) + len (concat mid)) /\
      hits (start + len (concat pre)) rng mid;
}.

Lemma trims_whole sh seg start rng :
  entry_ok seg ->
  (start <= br_End rng -> br_Start rng < start + len (entry_content seg) -> br_Start rng <= br_End rng -> hits start rng (units sh seg)) ->
  trims sh seg seg start rng 0.
Proof.
  intros H Hh. split; [done|done|]. intros H1 H2 H3. exists [], (units sh seg), []. rewrite app_nil_r, concat_units. cbn. rewrite (@len_nil byte), Z.add_0_r.
  split_and!; [done..|by left|by left|by apply Hh].
Qed.

Lemma slice_slice {A} (l : list A) a b c d :
  0 <= a -> 0 <= c <= d -> d <= b - a -> slice c d (slice a b l) = slice (a + c) (a + d) l.
Proof.
  intros. unfold slice. rewrite skipn_firstn_comm, drop_drop, take_take. f_equal; [lia|]. f_equal. lia.
Qed.

(** The chunks the loop keeps of [cs]. *)
Lemma trimmed_middle c0 at0 rng cs st :
  trimmed c0 at0 rng cs st -> tr_first st < tr_last st ->
  exists pre mid post, cs = pre ++ mid ++ post /\ tr_first st = c0 + len pre /\ tr_last st = c0 + len pre + len mid /\
    tr_from st = at0 + len (concat pre) /\ tr_to st = tr_from st + len (concat mid) /\
    (pre = [] \/ tr_from st <= br_Start rng) /\ (post = [] \/ br_End rng < tr_to st) /\ hits (tr_from st) rng mid.
Proof.
  intros [(a & a' & A1 & A2 & A3 & A4 & A5) (q & q' & Q1 & Q2 & Q3 & Q4 & Q5) _] Hlt.
  assert (exists mid, q = a ++ mid) as [mid ->].
  { destruct (prefix_weak_total a q cs) as [[m ->]|H]; [by exists a'|by exists q'|by exists m|]. apply prefix_length in H. unfold len in *. lia. }
  exists a, mid, q'. rewrite len_app in Q2. rewrite concat_app, len_app in Q3. split_and!; [by rewrite app_assoc|lia|lia|lia|lia|done|done|].
  assert (a' = mid ++ q') as -> by (rewrite A1, <- app_assoc in Q1; by apply app_inv_head in Q1).
  intros x u y -> _. split.
  - specialize (Q5 (a ++ x) u y). rewrite <- app_assoc in Q5. specialize (Q5 eq_refl). rewrite concat_app, len_app in Q5. lia.
  - apply (A5 x u (y ++ q')). by rewrite <- app_assoc.
Qed.

(** The loop does keep some, when the segment meets the range. *)
Lemma trimmed_some c0 at0 rng cs st :
  trimmed c0 at0 rng cs st -> at0 <= br_End rng -> br_Start rng < at0 + len (concat cs) -> br_Start rng <= br_End rng ->
  cs = [] \/ tr_first st < tr_last st.
Proof.
  intros [(a & a' & A1 & A2 & A3 & A4 & A5) (q & q' & Q1 & Q2 & Q3 & Q4 & Q5) _] H1 H2 H3.
  destruct (Z.lt_ge_cases (tr_first st) (tr_last st)) as [|Hge]; [by right|left].
  assert (exists m, a = q ++ m) as [m ->].
  { destruct (prefix_weak_total a q cs) as [[m ->]|[m ->]]; [by exists a'|by exists q'| |by exists m].
    exists []. rewrite len_app in Q2. rewrite app_nil_r. pose proof (len_nonneg m). assert (m = []) as -> by (apply len_0_nil; lia). by rewrite app_nil_r. }
  rewrite concat_app, len_app in A3. pose proof (len_nonneg (concat m)). destruct Q4 as [->|Q4].
  - rewrite app_nil_r in Q1. subst q. destruct A4 as [E|A4].
    + apply app_eq_nil in E as [-> _]. done.
    + lia.
  - exfalso. destruct A4 as [E|A4]; [|lia]. apply app_eq_nil in E as [-> ->]. cbn in Q3. rewrite (@len_nil byte) in Q3. lia.
Qed.

Lemma trimSegment_trims sh seg start rng :
  blocks_ok sh -> entry_ok seg -> 0 <= start -> start + fe_UnpackedSegBytes seg < 2 ^ 62 ->
  fe_UnpackedSegBytes seg < 2 ^ 32 ->
  trims sh seg (fst (trimSegment sh seg start rng)) start rng (snd (trimSegment sh seg start rng)).
Proof.
  intros Hb Hok Hs Hsz Hu. pose proof Hok as [R1 R2 R3 R4]. unfold trimSegment. rewrite R4 in *. pose proof (len_nonneg (entry_content seg)).
  rewrite (i64_small (start + _)), (i64_small (_ - 1)) by (unfold is_i64; lia).
  destruct (_ && _) eqn:Ein.
  { apply andb_true_iff in Ein as [E1%Z.leb_le E2%Z.leb_le]. apply trims_whole; [done|]. intros _ _ _. apply hits_inside; [done|]. cbn [fst]. rewrite concat_units. lia. }
  destruct (find_cas sh (fe_CASHash seg)) as [b|] eqn:Ef.
  2: { cbn [fst snd]. apply trims_whole; [done|]. intros H1 H2 _. unfold units. rewrite Ef. intros a u b' E Hne. destruct a as [|? [|]]; [|done..].
       injection E as <- _. cbn. rewrite (@len_nil byte). lia. }
  pose proof Ef as El. unfold find_cas in El. destruct (list_find _ _) as [[k b']|] eqn:Ek; [|done]. injection El as ->.
  apply list_find_Some in Ek as (Hbk & Hbh & _). pose proof (Hb b (list_elem_of_lookup_2 _ _ _ Hbk)) as Hm. rewrite Hbh in Hm.
  assert (len (cb_Chunks b) = len (xc (fe_CASHash seg))) as Hlen by (unfold len; rewrite <- (length_map cc_UnpackedSegBytes), Hm; by rewrite length_map).
  rewrite (proj2 (Z.ltb_ge _ _)) by lia.
  set (cs := slice (fe_ChunkIndexStart seg) (fe_ChunkIndexEnd seg) (xc (fe_CASHash seg))).
  assert (len cs = fe_ChunkIndexEnd seg - fe_ChunkIndexStart seg) as Hcs.
  { unfold cs, len in *. unfold slice. rewrite length_take, length_drop. lia. }
  assert (len (entry_content seg) = len (concat cs)) as Hsize by done.
  assert (units sh seg = cs) as Hun by (unfold units; by rewrite Ef).
  set (st := trim_loop _ _ _ _).
  assert (trimmed (fe_ChunkIndexStart seg) start rng cs st) as Ht.
  { unfold st. replace (fe_ChunkIndexStart seg) with (fe_ChunkIndexStart seg + len (@nil (list byte))) at 2 by (rewrite len_nil; lia).
    apply (trim_loop_trimmed (fe_ChunkIndexStart seg) start rng [] _ cs); cbn [app]; [lia|done|lia|lia| |].
    - unfold cs, slice. by rewrite <- firstn_map, <- skipn_map, Hm, skipn_map, firstn_map.
    - split; cbn; [exists [], []|exists [], []|]; cbn; rewrite ?(@len_nil (list byte)), ?(@len_nil byte), ?Z.add_0_r; [| |done];
        (do 3 (split; [done|])); (split; [by left|]); intros x u y E; by apply app_cons_not_nil in E. }
  rewrite (tm_at _ _ _ _ _ Ht), <- Hsize, Z.eqb_refl. cbn [negb orb]. destruct (Z.leb_spec (tr_last st) (tr_first st)) as [Hle|Hlt].
  { cbn [fst snd]. apply trims_whole; [done|]. intros H1 H2 H3. rewrite Hun. destruct (trimmed_some _ _ _ _ _ Ht) as [->|]; [done|lia|done| |lia].
    intros a u b' E. by apply app_cons_not_nil in E. }
  destruct (trimmed_middle _ _ _ _ _ Ht Hlt) as (pre & mid & post & Hc & M1 & M2 & M3 & M4 & M5 & M6 & M7).
  pose proof (len_nonneg pre). pose proof (len_nonneg mid). pose proof (len_nonneg post).
  pose proof (len_nonneg (concat pre)). pose proof (len_nonneg (concat mid)). pose proof (len_nonneg (concat post)).
  assert (len cs = len pre + len mid + len post) as Hcsl by (rewrite Hc, !len_app; lia).
  assert (len (concat cs) = len (concat pre) + len (concat mid) + len (concat post)) as Hccl by (rewrite Hc, !concat_app, !len_app; lia).
  assert (seg_data (fe_CASHash seg) (MkChunkRange (tr_first st) (tr_last st)) = concat mid) as Hmid.
  { unfold seg_data. cbn [cr_Start cr_End]. rewrite M1, M2, <- Z.add_assoc, <- slice_slice with (b := fe_ChunkIndexEnd seg) by lia.
    fold cs. rewrite Hc. unfold slice. rewrite to_nat_len, drop_app_length.
    replace (Z.to_nat (len pre + len mid - len pre)) with (length mid) by (unfold len; lia). by rewrite take_app_length. }
  cbn [fst snd]. split; [|done|].
  - split; cbn; [lia|lia|lia|]. unfold entry_content, entry_range. cbn. rewrite Hmid. rewrite u32_small; [lia|]. unfold is_u32. lia.
  - intros _ _ _. exists pre, mid, post. rewrite Hun. split; [done|]. split; [unfold entry_content, entry_range; cbn; by rewrite Hmid|].
    rewrite i64_small by (unfold is_i64; lia). split; [lia|]. rewrite <- M3. split_and!; [done| |done]. destruct M6; [by left|right; lia].
Qed.

(** *** The terms *)

Definition terms_content (terms : list Term) : list byte := concat (map term_content terms).

(** The offset lies in the first term. *)
Definition starts_in (offset : Z) (terms : list Term) : Prop :=
  match terms with [] => True | t :: _ => offset <= len (term_content t) end.

(** The terms built from the entries with the units [U]. *)
Record built (rng : ByteRange) (U : list (list byte)) (offset : Z) (terms : list Term) : Prop := {
  bt_none : terms = [] -> offset = 0 /\ len (concat U) <= br_Start rng;
  bt_some : terms <> [] -> br_Start rng < len (concat U) /\ 0 <= offset /\ exists pre mid post, U = pre ++ mid ++ post /\
    terms_content terms = concat mid /\ len (concat pre) + offset = br_Start rng /\
    (post = [] \/ br_End rng < len (concat pre) + len (concat mid)) /\ hits (len (concat pre)) rng mid;
  bt_sizes : Forall (fun t => t_UnpackedLength t = len (term_content t)) terms;
  bt_first : starts_in offset terms;
}.

Lemma terms_content_snoc terms e :
  terms_content (terms ++ [entry_term e]) = terms_content terms ++ entry_content e.
Proof. unfold terms_content. rewrite map_app, concat_app. cbn. by rewrite app_nil_r, term_content_entry. Qed.

(** One included term. *)
Lemma built_snoc sh rng U offset terms seg entry skipped :
  built rng U offset terms -> trims sh seg entry (len (concat U)) rng skipped ->
  br_Start rng < len (concat U) + len (entry_content seg) -> len (concat U) <= br_End rng ->
  len (concat U) + len (entry_content seg) < 2 ^ 62 -> 0 <= br_Start rng < 2 ^ 63 -> br_Start rng <= br_End rng ->
  built rng (U ++ units sh seg)
    (if bool_decide (terms = []) && (i64 (len (concat U) + skipped) <? br_Start rng)
     then i64 (br_Start rng - i64 (len (concat U) + skipped)) else offset)
    (terms ++ [entry_term entry]).
Proof.
  intros [Bn Bs Bz Bf] [Tok Th Tc] Hst Hend Hb Hst0 Hse.
  destruct Tc as (pre' & mid' & post' & Hseg & Hent & -> & Hpre' & Hpost' & Hhit'); [done..|].
  pose proof (len_nonneg (concat U)). pose proof (len_nonneg (concat pre')). pose proof (len_nonneg (concat mid')). pose proof (len_nonneg (concat post')).
  assert (len (entry_content seg) = len (concat pre') + len (concat mid') + len (concat post')) as Hl
    by (rewrite <- (concat_units sh), Hseg, !concat_app, !len_app; lia).
  rewrite i64_small by (unfold is_i64; lia). split.
  - intros E. by apply app_eq_nil in E as [_ ?].
  - intros _. rewrite concat_app, len_app, concat_units. split; [lia|]. rewrite terms_content_snoc, Hent, Hseg.
    destruct (decide (terms = [])) as [->|Hne].
    + destruct (Bn eq_refl) as [-> HP]. rewrite bool_decide_eq_true_2 by done. cbn [andb]. change (terms_content []) with (@nil byte).
      assert (len (concat U) + len (concat pre') <= br_Start rng) as Hle by (destruct Hpre' as [->|]; cbn in *; rewrite ?(@len_nil byte) in *; lia).
      assert (forall o, len (concat U) + len (concat pre') + o = br_Start rng -> 0 <= o /\ exists pre mid post, U ++ pre' ++ mid' ++ post' = pre ++ mid ++ post /\
        [] ++ concat mid' = concat mid /\ len (concat pre) + o = br_Start rng /\
        (post = [] \/ br_End rng < len (concat pre) + len (concat mid)) /\ hits (len (concat pre)) rng mid) as Hk.
      { intros o Ho. split; [lia|]. exists (U ++ pre'), mid', post'. rewrite !concat_app, len_app, <- !app_assoc. split_and!; done. }
      destruct (Z.ltb_spec (len (concat U) + len (concat pre')) (br_Start rng)); apply Hk; [rewrite i64_small by (unfold is_i64; lia)|]; lia.
    + destruct (Bs Hne) as (HP & Ho & pre & mid & post & HPe & Hmid & Hpo & Hpost & Hhit). rewrite bool_decide_eq_false_2 by done. cbn [andb].
      split; [done|]. assert (len (concat U) = len (concat pre) + len (concat mid) + len (concat post)) as HU by (rewrite HPe, !concat_app, !len_app; lia).
      pose proof (len_nonneg (concat post)). assert (post = []) as -> by (destruct Hpost; [done|lia]).
      assert (pre' = []) as -> by (destruct Hpre'; [done|lia]).
      cbn [concat app] in *. rewrite (@len_nil byte), Z.add_0_r in *. rewrite app_nil_r in HPe.
      exists pre, (mid ++ mid'), post'. rewrite HPe, Hmid, concat_app, len_app, <- !app_assoc. split_and!; [done..| |].
      * destruct Hpost'; [by left|right; lia].
      * apply hits_app; [done|]. by rewrite <- HU.
  - apply Forall_app. split; [done|]. constructor; [|done]. rewrite term_content_entry. apply Tok.
  - destruct terms as [|t terms]; [|exact Bf]. destruct (Bn eq_refl) as [-> HP]. rewrite bool_decide_eq_true_2 by done.
    cbn [app starts_in andb]. rewrite term_content_entry, Hent. destruct (Z.ltb_spec (len (concat U) + len (concat pre')) (br_Start rng)); [|lia].
    rewrite i64_small by (unfold is_i64; lia). destruct Hpost' as [->|]; cbn in *; rewrite ?(@len_nil byte) in *; lia.
Qed.

Context {S : Type} {ST : Storage S}.

(** [Inv] is what stays true of the store while the response is built. *)
Context (Inv : S -> Prop).

Lemma build_loop_built {A} (record : FileDataSequenceEntry -> ByteRange -> A -> prog S A) (offs : XorbHash -> list Z)
    (I : list Term -> A -> Prop) sh rng entries U offset terms acc s offset' terms' acc' s' :
  (forall h s o s', Inv s -> GetXorbChunkOffsets h s = (Ok o, s') -> o = offs h /\ Inv s') ->
  (forall e a b acc acc' terms s s', entry_ok e -> Inv s ->
     ChunkDataRangeFromOffsets (offs (fe_CASHash e)) (fe_ChunkIndexStart e) (fe_ChunkIndexEnd e) = Ok (a, b) ->
     I terms acc -> record e (MkByteRange a b) acc s = (Ok acc', s') -> I (terms ++ [entry_term e]) acc' /\ Inv s') ->
  Inv s -> blocks_ok sh -> Forall (fun e => entry_ok e /\ fe_UnpackedSegBytes e < 2 ^ 32) entries ->
  len (concat U) + len (concat (map entry_content entries)) < 2 ^ 62 -> 0 <= br_Start rng < 2 ^ 63 -> br_Start rng <= br_End rng ->
  built rng U offset terms -> I terms acc ->
  build_loop record sh rng entries (len (concat U)) offset terms acc s = (Ok (offset', terms', acc'), s') ->
  exists U' rest, U ++ concat (map (units sh) entries) = U' ++ rest /\ built rng U' offset' terms' /\
    (rest = [] \/ br_End rng < len (concat U')) /\ I terms' acc' /\ Inv s'.
Proof.
  intros Hoffs Hrec Hinv Hbl Hent. revert U offset terms acc s Hinv. induction Hent as [|seg entries [Hok Hu] _ IH];
    intros U offset terms acc s Hinv Hb Hst Hse Hbt HI; cbn [build_loop map concat] in *.
  { intros [= <- <- <- <-]. exists U, []. split; [done|]. split; [done|]. split; [by left|done]. }
  rewrite len_app in Hb. pose proof (len_nonneg (entry_content seg)). pose proof (len_nonneg (concat (map entry_content entries))).
  pose proof (len_nonneg (concat U)). rewrite (eo_size _ Hok) in *. rewrite i64_small by (unfold is_i64; lia).
  assert (len (concat U) + len (entry_content seg) = len (concat (U ++ units sh seg))) as HP by (by rewrite concat_app, concat_units, len_app).
  destruct (Z.leb_spec (len (concat U) + len (entry_content seg)) (br_Start rng)) as [Hskip|Hin].
  { rewrite HP. intros Hrun. apply IH in Hrun; [|done|rewrite <- HP; lia|done|done| |done].
    - by rewrite <- app_assoc in Hrun.
    - destruct Hbt as [Bn Bs Bz Bf]. split; [|intros Hne; destruct (Bs Hne); lia|done|done].
      intros ->. destruct (Bn eq_refl) as [-> _]. split; [done|]. lia. }
  destruct (Z.ltb_spec (br_End rng) (len (concat U))) as [Hpast|Hend].
  { intros [= <- <- <- <-]. exists U. eexists. split; [reflexivity|]. split; [done|]. split; [by right|done]. }
  pose proof (trimSegment_trims sh seg (len (concat U)) rng Hbl Hok ltac:(lia) ltac:(rewrite (eo_size _ Hok); lia)
    ltac:(rewrite (eo_size _ Hok); lia)) as Htr.
  destruct (trimSegment sh seg (len (concat U)) rng) as [entry skipped]. cbn [fst snd] in Htr.
  unfold mbind, prog_bind, prog_wrap, catch, lift, throw, mret, prog_ret.
  destruct (GetXorbChunkOffsets (fe_CASHash entry) s) as [[o|] s1] eqn:Eo; [|done]. apply Hoffs in Eo as [-> Hinv1]; [|done].
  destruct (ChunkDataRangeFromOffsets _ _ _) as [[a b]|] eqn:Er; [|done]. cbn [wrap_err].
  destruct (record entry _ acc s1) as [[acc1|] s2] eqn:Erec; [|done]. intros Hrun. rewrite HP in Hrun.
  apply (Hrec _ _ _ _ _ terms) in Erec as [HI' Hinv2]; [|apply Htr|done|exact Er|exact HI].
  apply IH in Hrun; [|done|rewrite <- HP; lia|done|done|apply built_snoc; [done|done|lia|lia|lia|done|done]|exact HI'].
  by rewrite <- app_assoc in Hrun.
Qed.

(** A range past the end of the file: no term. *)
Lemma build_loop_past {A} (record : FileDataSequenceEntry -> ByteRange -> A -> prog S A) sh rng entries P acc s :
  Forall (fun e => entry_ok e /\ fe_UnpackedSegBytes e < 2 ^ 32) entries -> 0 <= P ->
  P + len (concat (map entry_content entries)) < 2 ^ 62 -> P + len (concat (map entry_content entries)) <= br_Start rng ->
  build_loop record sh rng entries P 0 [] acc s = (Ok (0, [], acc), s).
Proof.
  intros Hent. revert P. induction Hent as [|seg entries [Hok _] _ IH]; intros P HP Hb Hr; cbn [build_loop map concat] in *; [done|].
  rewrite len_app in Hb, Hr. pose proof (len_nonneg (entry_content seg)). pose proof (len_nonneg (concat (map entry_content entries))).
  rewrite (eo_size _ Hok), i64_small by (unfold is_i64; lia). rewrite (proj2 (Z.leb_le _ _)) by lia. apply IH; lia.
Qed.

(** The bytes [data] a response holds of a file with the units [U]: those of
    the units that hold a requested byte and of no others, and the offset leads
    to the first requested byte. *)
Definition fits (U : list (list byte)) (rng : ByteRange) (offset : Z) (data : list byte) : Prop :=
  exists pre mid post, U = pre ++ mid ++ post /\ data = concat mid /\
    len (concat pre) <= br_Start rng /\ (post = [] \/ br_End rng < len (concat pre) + len (concat mid)) /\
    hits (len (concat pre)) rng mid /\ (mid <> [] -> len (concat pre) + offset = br_Start rng).

Lemma built_fits rng U U' rest offset terms :
  U = U' ++ rest -> built rng U' offset terms -> rest = [] \/ br_End rng < len (concat U') ->
  0 <= br_Start rng <= br_End rng -> fits U rng offset (terms_content terms).
Proof.
  intros -> [Bn Bs _ _] Hrest Hr. destruct (decide (terms = [])) as [->|Hne].
  - destruct (Bn eq_refl) as [-> Hl]. exists U', [], rest. split; [done|]. split; [done|]. split; [done|]. cbn. rewrite (@len_nil byte).
    split; [destruct Hrest; [by left|right; lia]|]. split; [|done]. intros a u b E. by apply app_cons_not_nil in E.
  - destruct (Bs Hne) as (HP & Ho & pre & mid & post & -> & Hmid & Hpre & Hpost & Hhit).
    exists pre, mid, (post ++ rest). rewrite <- !app_assoc. split_and!; [done|done|lia| |done|done].
    destruct Hpost as [->|]; [|by right]. destruct Hrest as [->|Hrest]; [by left|right]. rewrite app_nil_r, concat_app, len_app in Hrest. lia.
Qed.

(** What the response holds. *)
Lemma fits_range U rng offset data :
  fits U rng offset data -> 0 <= br_Start rng <= br_End rng -> br_End rng < len (concat U) ->
  0 <= offset /\ len data <= len (concat U) /\
  take (Z.to_nat (br_End rng - br_Start rng + 1)) (drop (Z.to_nat offset) data) = slice (br_Start rng) (br_End rng + 1) (concat U).
Proof.
  intros (pre & mid & post & -> & -> & Hpre & Hpost & Hhit & Hoff) Hr Hend. rewrite !concat_app, !len_app in *.
  pose proof (len_nonneg (concat pre)). pose proof (len_nonneg (concat post)). pose proof (len_nonneg (concat mid)).
  assert (br_End rng < len (concat pre) + len (concat mid)) as Hcov by (destruct Hpost as [->|]; [cbn in Hend; rewrite (@len_nil byte) in Hend|]; lia).
  assert (mid <> []) as Hne by (intros ->; cbn in Hcov; rewrite (@len_nil byte) in Hcov; lia). specialize (Hoff Hne).
  split; [lia|]. split; [lia|]. unfold slice.
  rewrite <- Hoff. rewrite (Z2Nat.inj_add (len (concat pre)) offset), <- drop_drop by lia. rewrite to_nat_len, drop_app_length.
  rewrite drop_app_le by (unfold len in *; lia). rewrite take_app_le by (rewrite length_drop; unfold len in *; lia).
  f_equal. lia.
Qed.

(** *** The fetches *)

Section fetches.
Context {A : Type} (range : A -> ChunkRange) (span : A -> ByteRange) (offs : XorbHash -> list Z).

Lemma keep_longest_elem x l y : y ∈ keep_longest range x l -> y = x \/ y ∈ l.
Proof.
  induction l as [|z l IH]; cbn [keep_longest]; [intros ->%list_elem_of_singleton; by left|].
  destruct (_ =? _); [destruct (_ <? _)|]; rewrite ?elem_of_cons; [intros [->|]; auto|auto|].
  intros [->|H]; [auto|]. destruct (IH H); auto.
Qed.

(** No term loses its fetch. *)
Lemma keep_longest_covers x l (z : A) :
  z ∈ x :: l -> exists y, y ∈ keep_longest range x l /\ cr_Start (range y) = cr_Start (range z) /\ cr_End (range z) <= cr_End (range y).
Proof.
  induction l as [|w l IH]; cbn [keep_longest]; intros Hz.
  { exists z. split; [done|lia]. }
  destruct (Z.eqb_spec (cr_Start (range w)) (cr_Start (range x))) as [E|E].
  - destruct (Z.ltb_spec (cr_End (range w)) (cr_End (range x))) as [E'|E'];
      apply elem_of_cons in Hz as [->|[->|Hz]%elem_of_cons].
    + exists x. split; [left|lia].
    + exists x. split; [left|lia].
    + exists z. split; [by right|lia].
    + exists w. split; [left|lia].
    + exists w. split; [left|lia].
    + exists z. split; [by right|lia].
  - apply elem_of_cons in Hz as [->|[->|Hz]%elem_of_cons].
    + destruct IH as (y & Hy & Hr); [left|]. exists y. split; [by right|done].
    + exists w. split; [left|lia].
    + destruct IH as (y & Hy & Hr); [by right|]. exists y. split; [by right|done].
Qed.

(** Every term has a fetch that covers it, and every fetch of a xorb has the
    bytes of its chunks. *)
Definition fetchable (terms : list Term) (m : gmap gostring (list A)) : Prop :=
  (forall t, t ∈ terms -> exists h l x, t_Hash t = formatHash h /\ m !! t_Hash t = Some l /\ x ∈ l /\
     covers (range x) t = true /\ cr_Start (t_Range t) < cr_End (t_Range t)) /\
  (forall h l x, m !! formatHash h = Some l -> x ∈ l ->
     ChunkDataRangeFromOffsets (offs h) (cr_Start (range x)) (cr_End (range x)) = Ok (br_Start (span x), br_End (span x))).

Lemma formatHash_inj (h h' : XorbHash) : formatHash h = formatHash h' -> h = h'.
Proof. intros E. apply (f_equal parseHash) in E. rewrite !parse_formatHash in E. congruence. Qed.

Lemma range_nonempty o a b r : ChunkDataRangeFromOffsets o a b = Ok r -> a < b <= len o.
Proof.
  unfold ChunkDataRangeFromOffsets. destruct (Z.leb_spec b a); [done|]. destruct (Z.ltb_spec (len o) b); [done|]. lia.
Qed.

Lemma fetchable_add terms m e x a b :
  ChunkDataRangeFromOffsets (offs (fe_CASHash e)) (fe_ChunkIndexStart e) (fe_ChunkIndexEnd e) = Ok (a, b) ->
  range x = entry_range e -> span x = MkByteRange a b -> fetchable terms m ->
  fetchable (terms ++ [entry_term e])
    (<[formatHash (fe_CASHash e) := keep_longest range x (default [] (m !! formatHash (fe_CASHash e)))]> m).
Proof.
  intros Hr Hrx Hsx [F1 F2]. set (l0 := default [] (m !! formatHash (fe_CASHash e))). split.
  - intros t [Ht|Ht%list_elem_of_singleton]%elem_of_app.
    + destruct (F1 t Ht) as (h & l & y & Hh & Hl & Hy & Hc & Hne). destruct (decide (fe_CASHash e = h)) as [<-|Hd].
      * assert (l0 = l) as El by (unfold l0; by rewrite <- Hh, Hl).
        destruct (keep_longest_covers x l0 y) as (y' & Hy' & Hs & He); [right; by rewrite El|].
        exists (fe_CASHash e). eexists _, y'. split; [done|]. split; [rewrite Hh, lookup_insert_eq; reflexivity|].
        split; [done|]. split; [|done]. unfold covers in *. rewrite Hs. apply andb_true_iff in Hc as [Hc1 Hc2].
        rewrite Hc1. cbn [andb]. apply Z.leb_le in Hc2. apply Z.leb_le. lia.
      * exists h, l, y. split; [done|]. split; [|done]. rewrite lookup_insert_ne; [done|]. rewrite Hh.
        intros E. by apply formatHash_inj in E.
    + subst t. destruct (keep_longest_covers x l0 x) as (y & Hy & Hs & He); [left|].
      exists (fe_CASHash e). eexists _, y. split; [done|]. split; [apply lookup_insert_eq|]. split; [done|].
      apply range_nonempty in Hr. unfold covers. cbn. rewrite Hrx in *. cbn in *. split; [|lia].
      apply andb_true_iff. rewrite !Z.leb_le. lia.
  - intros h l y Hl Hy. destruct (decide (fe_CASHash e = h)) as [<-|Hd].
    + rewrite lookup_insert_eq in Hl. injection Hl as <-. apply keep_longest_elem in Hy as [->|Hy].
      * rewrite Hrx, Hsx. cbn. done.
      * unfold l0 in Hy. destruct (m !! formatHash (fe_CASHash e)) as [l|] eqn:El; [|by apply not_elem_of_nil in Hy].
        by eapply F2.
    + rewrite lookup_insert_ne in Hl by (intros E; by apply formatHash_inj in E). by eapply F2.
Qed.

Lemma smallest_spec term best l :
  (forall b, best = Some b -> covers (range b) term = true) ->
  (is_Some best \/ exists x, x ∈ l /\ covers (range x) term = true) ->
  exists y, smallest range span term best l = Some y /\ covers (range y) term = true /\ (Some y = best \/ y ∈ l).
Proof.
  revert best. induction l as [|x l IH]; intros best Hb Hex; cbn [smallest].
  { destruct Hex as [[b ->]|(x & Hx & _)]; [|by apply not_elem_of_nil in Hx]. exists b. auto. }
  set (best' := if covers (range x) term then _ else best).
  assert (forall b, best' = Some b -> covers (range b) term = true /\ (best = Some b \/ b = x)) as Hb'.
  { intros b E. unfold best' in E. destruct (covers (range x) term) eqn:Ec; [|split; [by apply Hb|by left]].
    destruct best as [b0|]; [destruct (_ <? _)|]; injection E as <-; auto. }
  destruct (IH best') as (y & -> & Hy & Hin).
  - intros b E. by apply Hb'.
  - destruct Hex as [[b ->]|(z & [->|Hz]%elem_of_cons & Hc)].
    + left. unfold best'. destruct (covers _ _); [|by eexists]. destruct (_ <? _); by eexists.
    + left. unfold best'. rewrite Hc. destruct best; [destruct (_ <? _)|]; by eexists.
    + right. eauto.
  - exists y. split; [done|]. split; [done|]. destruct Hin as [Hin|Hin]; [|right; by right].
    destruct (Hb' y (eq_sym Hin)) as [_ [->| ->]]; [by left|right; left].
Qed.
End fetches.

(** Offsets that grow by at least a chunk header. *)
Fixpoint grows (prev : Z) (offsets : list Z) : Prop :=
  match offsets with
  | [] => True
  | off :: offsets => prev + 8 <= off < 2 ^ 62 /\ grows off offsets
  end.

Lemma grows_lookup prev o i x : grows prev o -> o !! i = Some x -> prev + 8 <= x < 2 ^ 62.
Proof.
  revert prev i. induction o as [|y o IH]; intros prev [|i] Hg Hx; [done..| |]; destruct Hg as [H1 H2].
  - by injection Hx as <-.
  - specialize (IH y i H2 Hx). lia.
Qed.

Lemma grows_later prev o i j x y : grows prev o -> o !! i = Some x -> o !! j = Some y -> (i < j)%nat -> x + 8 <= y.
Proof.
  revert prev i j. induction o as [|z o IH]; intros prev [|i] [|j] Hg Hx Hy Hij; try done; try lia; destruct Hg as [H1 H2].
  - injection Hx as <-. by apply (grows_lookup z o j) in Hy as [? _].
  - eapply (IH z i j); eauto. lia.
Qed.

Lemma range_bytes o a b x y :
  grows 0 o -> 0 <= a -> ChunkDataRangeFromOffsets o a b = Ok (x, y) -> 0 <= x <= y.
Proof.
  intros Hg Ha H. pose proof (range_nonempty _ _ _ _ H) as Hr. unfold ChunkDataRangeFromOffsets in H.
  destruct (_ <=? _); [done|]. destruct (_ <? _); [done|]. injection H as <- <-.
  destruct (lookup_lt_is_Some_2 o (Z.to_nat (b - 1))) as [v Hv]; [unfold len in *; lia|].
  rewrite (list_lookup_total_correct _ _ _ Hv). pose proof (grows_lookup _ _ _ _ Hg Hv).
  rewrite (i64_small v) by (unfold is_i64; lia). destruct (Z.ltb_spec 0 a); [|lia].
  destruct (lookup_lt_is_Some_2 o (Z.to_nat (a - 1))) as [w Hw]; [unfold len in *; lia|].
  rewrite (list_lookup_total_correct _ _ _ Hw). pose proof (grows_lookup _ _ _ _ Hg Hw).
  rewrite (i64_small w) by (unfold is_i64; lia). pose proof (grows_later _ _ _ _ _ _ Hg Hw Hv ltac:(lia)). lia.
Qed.

Lemma footer_offsets_grows n pos prev buf o last :
  0 <= prev < 2 ^ 32 -> footer_offsets n pos prev buf = Ok (o, last) -> grows prev o /\ len o = Z.of_nat n.
Proof.
  revert pos prev o last. induction n as [|n IH]; intros pos prev o last Hp; cbn [footer_offsets].
  { intros [= <- <-]. done. }
  assert (0 <= le_val (slice pos (pos + 4) buf) < 2 ^ 32) as Hv.
  { pose proof (le_val_range (slice pos (pos + 4) buf)) as Hr. split; [lia|]. eapply Z.lt_le_trans; [apply Hr|].
    apply Z.pow_le_mono_r; [lia|]. unfold slice, len. rewrite length_take. lia. }
  rewrite u64_small by (unfold is_u64; lia). destruct (Z.ltb_spec (le_val (slice pos (pos + 4) buf)) (prev + 8)); [done|].
  destruct (footer_offsets n (pos + 4) _ buf) as [[o' last']|] eqn:E; [|done]. intros [= <- <-].
  apply IH in E as [Hg Hl]; [|done]. rewrite len_cons. cbn [grows]. split; [split; [lia|done]|lia].
Qed.

Lemma scanned_grows data pos o : 0 <= pos -> len data < 2 ^ 61 -> scanned data pos o -> grows pos o.
Proof.
  intros Hp Hd H. revert Hp. induction H as [| |pos hdr offs E Hi H IH]; intros Hp; [done..|].
  pose proof (read_at_header _ _ _ Hp E). pose proof (le24_range hdr 1). cbn [grows]. split; [lia|]. apply IH. lia.
Qed.

Lemma scan_loop_count fuel data pos acc o :
  len acc <= MaxChunksPerXorb -> scan_loop fuel data pos acc = Ok o -> len o <= MaxChunksPerXorb.
Proof.
  revert pos acc. induction fuel as [|fuel IH]; intros pos acc Ha; cbn [scan_loop]; [done|].
  destruct (read_at data pos 8) as [hdr [e|]]; [case_bool_decide; [by intros [= <-]|done]|].
  case_bool_decide; [by intros [= <-]|]. destruct (Z.leb_spec MaxChunksPerXorb (len acc)); [done|].
  apply IH. rewrite len_app, len_cons, (@len_nil Z). lia.
Qed.

(** The offsets of any stored xorb are as the planner needs them. *)
Lemma ReadXorbChunkOffsets_grows data o :
  len data < 2 ^ 61 -> ReadXorbChunkOffsets data = Ok o -> grows 0 o /\ len o <= MaxChunksPerXorb.
Proof.
  intros Hd. unfold ReadXorbChunkOffsets. destruct (ReadChunkOffsets data) as [o'|e] eqn:E.
  - intros [= <-]. unfold ReadChunkOffsets in E. destruct (_ <? _); [done|]. destruct (read_at data _ 4) as [lb [?|]]; [done|].
    destruct (_ || _) eqn:Eor; [done|]. assert (92 <= le_val lb) as Hlb.
    { apply orb_false_iff in Eor as [Eor _]. apply orb_false_iff in Eor as [Eor _]. apply Z.ltb_ge in Eor.
      unfold minFooterSize in Eor. lia. }
    clear Eor. destruct (Z.ltb_spec MaxChunksPerXorb ((le_val lb - 92) / 40)) as [|Hmax]; [done|].
    destruct (read_at data _ _) as [buf [?|]]; [done|]. repeat (match type of E with (if ?b then _ else _) = _ => destruct b; [done|] end).
    cbv zeta in E. repeat (match type of E with (if ?b then _ else _) = _ => destruct b; [done|] end).
    destruct (footer_offsets _ _ _ _) as [[o1 last]|] eqn:Ef; [|done]. cbn [mbind result_bind] in E.
    destruct (_ && _); [done|]. injection E as <-. apply footer_offsets_grows in Ef as [Hg Hl]; [|lia]. split; [done|].
    assert (0 <= (le_val lb - 92) / 40); [|lia]. apply Z.div_pos; lia.
  - destruct (errors_Is _ _); [|done]. intros Hs. split.
    2: { eapply (scan_loop_count _ _ _ []); [|exact Hs]. rewrite (@len_nil Z). unfold MaxChunksPerXorb. lia. }
    apply scan_loop_scanned in Hs as (offs & -> & Hs); [|lia|lia]. by eapply scanned_grows.
Qed.

(** A fetch that serves a term. *)
Definition serves (offs : XorbHash -> list Z) (t : Term) (sel : selectedFetch) : Prop :=
  exists h, t_Hash t = formatHash h /\ fk_Hash (sf_key sel) = t_Hash t /\
    0 <= sf_chunkStart sel <= cr_Start (t_Range t) /\ cr_Start (t_Range t) < cr_End (t_Range t) /\
    cr_End (t_Range t) <= sf_chunkEnd sel /\
    ChunkDataRangeFromOffsets (offs h) (sf_chunkStart sel) (sf_chunkEnd sel) = Ok (fk_Start (sf_key sel), fk_End (sf_key sel)).

Section planning.
Context (offs : XorbHash -> list Z).
Hypothesis offs_ok : forall h, grows 0 (offs h) /\ len (offs h) <= MaxChunksPerXorb.

(** The candidates for a term, and the plan when each term has one. *)
Lemma plan_terms_serves select terms :
  (forall t, t ∈ terms -> exists h chunks url span, t_Hash t = formatHash h /\ select t = Ok (chunks, url, span) /\
     covers chunks t = true /\ cr_Start (t_Range t) < cr_End (t_Range t) /\ 0 <= cr_Start chunks /\
     ChunkDataRangeFromOffsets (offs h) (cr_Start chunks) (cr_End chunks) = Ok (br_Start span, br_End span)) ->
  exists selected tasks, plan_terms select terms = Ok (selected, tasks) /\ Forall2 (serves offs) terms selected.
Proof.
  induction terms as [|t terms IH]; intros H; [by exists [], []; split|].
  destruct (H t) as (h & chunks & url & span & Hh & Hsel & Hc & Hne & H0 & Hr); [left|].
  destruct IH as (selected & tasks & Hp & Hs); [intros t' Ht'; apply H; by right|].
  cbn [plan_terms]. rewrite Hsel. cbn [mbind result_bind].
  destruct (offs_ok h) as [Hg Hmax]. pose proof (range_nonempty _ _ _ _ Hr). pose proof (range_bytes _ _ _ _ _ Hg H0 Hr).
  unfold checkFetchRange, validChunkRange.
  rewrite (proj2 (Z.leb_gt _ _)), (proj2 (Z.ltb_lt (cr_Start chunks) _)), (proj2 (Z.leb_le (cr_End chunks) _)) by lia. cbn [andb orb negb].
  rewrite !(proj2 (Z.ltb_ge _ _)) by lia. cbn [orb mbind result_bind]. rewrite Hp. cbn [mbind result_bind].
  eexists _, _. split; [done|]. constructor; [|done]. exists h. apply andb_true_iff in Hc as [Hc1 Hc2].
  apply Z.leb_le in Hc1, Hc2. split_and!; done.
Qed.

Definition nonneg_ranges {A} (range : A -> ChunkRange) (m : gmap gostring (list A)) : Prop :=
  forall k l x, m !! k = Some l -> x ∈ l -> 0 <= cr_Start (range x).

Lemma planReaderV1_serves r :
  fetchable fi_Range fi_URLRange offs (r1_Terms r) (r1_FetchInfo r) -> nonneg_ranges fi_Range (r1_FetchInfo r) ->
  exists selected tasks, planReaderV1 r = Ok (selected, tasks) /\ Forall2 (serves offs) (r1_Terms r) selected.
Proof.
  intros [F1 F2] Hn. apply plan_terms_serves. intros t Ht.
  destruct (F1 t Ht) as (h & l & x & Hh & Hl & Hx & Hc & Hne).
  destruct (smallest_spec fi_Range fi_URLRange t None l) as (y & Hy & Hyc & Hin); [done|right; eauto|].
  destruct Hin as [?|Hin]; [done|]. exists h, (fi_Range y), (fi_URL y), (fi_URLRange y).
  split; [done|]. unfold selectFetchInfoV1. rewrite Hl. destruct l as [|z l]; [by apply not_elem_of_nil in Hx|].
  rewrite Hy. split; [done|]. split; [done|]. split; [done|]. split; [by eapply Hn|]. rewrite Hh in Hl. by eapply F2.
Qed.

Lemma planReaderV2_serves r ranges :
  fetchable xd_Chunks xd_Bytes offs (r2_Terms r) ranges -> nonneg_ranges xd_Chunks ranges ->
  (forall k l, ranges !! k = Some l -> exists url, r2_Xorbs r !! k = Some [MkMultiRange url l]) ->
  exists selected tasks, planReaderV2 r = Ok (selected, tasks) /\ Forall2 (serves offs) (r2_Terms r) selected.
Proof.
  intros [F1 F2] Hn Hx2. apply plan_terms_serves. intros t Ht.
  destruct (F1 t Ht) as (h & l & x & Hh & Hl & Hx & Hc & Hne). destruct (Hx2 _ _ Hl) as [url Hu].
  destruct (smallest_spec (fun p : gostring * _ => xd_Chunks p.2) (fun p => xd_Bytes p.2) t None (map (fun rg => (url, rg)) l))
    as (y & Hy & Hyc & Hin); [done|right; exists (url, x); split; [|done]; by apply (list_elem_of_fmap_2 (fun rg => (url, rg)))|].
  destruct Hin as [?|Hin]; [done|]. apply list_elem_of_fmap in Hin as (rg & -> & Hin). cbn in Hyc.
  exists h, (xd_Chunks rg), url, (xd_Bytes rg). split; [done|]. unfold selectFetchInfoV2. rewrite Hu.
  unfold flatten. cbn [map concat]. cbn [mr_URL mr_Ranges]. rewrite app_nil_r, Hy.
  split; [done|]. split; [done|]. split; [done|]. split; [by eapply Hn|]. rewrite Hh in Hl. by eapply F2.
Qed.
End planning.

Lemma nonneg_add {A} (range : A -> ChunkRange) (m : gmap gostring (list A)) k x :
  0 <= cr_Start (range x) -> nonneg_ranges range m ->
  nonneg_ranges range (<[k := keep_longest range x (default [] (m !! k))]> m).
Proof.
  intros Hx Hn k' l y Hl Hy. destruct (decide (k = k')) as [<-|Hd].
  - rewrite lookup_insert_eq in Hl. injection Hl as <-. apply keep_longest_elem in Hy as [->|Hy]; [done|].
    destruct (m !! k) as [l|] eqn:El; [by eapply Hn|by apply not_elem_of_nil in Hy].
  - rewrite lookup_insert_ne in Hl by done. by eapply Hn.
Qed.

Lemma xorb_fetches_spec l xorbs s xorbs' s' :
  NoDup l.*1 -> xorb_fetches l xorbs s = (Ok xorbs', s') ->
  (forall k d, (k, d) ∈ l -> exists url, xorbs' !! k = Some [MkMultiRange url d]) /\
  (forall k, k ∉ l.*1 -> xorbs' !! k = xorbs !! k).
Proof.
  revert xorbs s. induction l as [|[k d] l IH]; intros xorbs s Hnd; cbn [xorb_fetches].
  { intros [= <- <-]. split; [by intros ? ? ?%not_elem_of_nil|done]. }
  rewrite fmap_cons, NoDup_cons in Hnd. destruct Hnd as [Hk Hnd].
  unfold mbind, prog_bind, prog_wrap, catch, throw, mret, prog_ret.
  destruct (GetXorbURL _ s) as [[url|] s1]; [|done]. intros [H1 H2]%IH; [|done]. split.
  - intros k' d' [[= -> ->]|Hin]%elem_of_cons; [|by apply H1]. exists url. rewrite H2 by done. apply lookup_insert_eq.
  - intros k' Hk'. cbn in Hk'. rewrite not_elem_of_cons in Hk'. destruct Hk' as [Hne Hk']. rewrite H2 by done. by apply lookup_insert_ne.
Qed.

(** A term of a shard's file entry. *)
Definition term_ok (t : Term) : Prop :=
  exists e, entry_ok e /\ fe_ChunkIndexStart e < fe_ChunkIndexEnd e /\ t = entry_term e.

(** The terms of a response, less its offset, start with the range of the file. *)
Record holds (content : list byte) (rng : ByteRange) (offset : Z) (terms : list Term) : Prop := {
  hd_offset : 0 <= offset;
  hd_range : take (Z.to_nat (br_End rng - br_Start rng + 1)) (drop (Z.to_nat offset) (terms_content terms)) =
    slice (br_Start rng) (br_End rng + 1) content;
  hd_sizes : Forall (fun t => t_UnpackedLength t = len (term_content t)) terms;
  hd_first : starts_in offset terms;
}.

(** What a client gets out of a response: the file's bytes in the range, and a
    fetch for every term. *)
Definition answers (offs : XorbHash -> list Z) (content : list byte) (rng : ByteRange) (offset : Z) (terms : list Term)
    (plan : result (list selectedFetch * list fetchTask)) : Prop :=
  holds content rng offset terms /\
  exists selected tasks, plan = Ok (selected, tasks) /\ Forall2 (serves offs) terms selected.

(** What the loop knows of the terms and of what they are fetched from. *)
Record recorded {A} (range : A -> ChunkRange) (span : A -> ByteRange) (offs : XorbHash -> list Z) (terms : list Term)
    (m : gmap gostring (list A)) : Prop := {
  rd_terms : Forall term_ok terms;
  rd_fetch : fetchable range span offs terms m;
  rd_nonneg : nonneg_ranges range m;
}.

Lemma recorded_nil {A} (range : A -> ChunkRange) span offs : recorded range span offs [] ∅.
Proof. split; [constructor|split|]; [by intros t ?%not_elem_of_nil|by intros h l x ?|by intros k l x ?]. Qed.

Lemma recorded_add {A} (range : A -> ChunkRange) span offs terms m e x a b :
  ChunkDataRangeFromOffsets (offs (fe_CASHash e)) (fe_ChunkIndexStart e) (fe_ChunkIndexEnd e) = Ok (a, b) -> entry_ok e ->
  range x = entry_range e -> span x = MkByteRange a b -> recorded range span offs terms m ->
  recorded range span offs (terms ++ [entry_term e])
    (<[formatHash (fe_CASHash e) := keep_longest range x (default [] (m !! formatHash (fe_CASHash e)))]> m).
Proof.
  intros Hr Hok Hx Hsp [R1 R2 R3]. pose proof (range_nonempty _ _ _ _ Hr). split.
  - apply Forall_app. split; [done|]. constructor; [|constructor]. exists e. split; [done|]. split; [lia|done].
  - by eapply fetchable_add.
  - apply nonneg_add; [rewrite Hx; cbn; apply Hok|done].
Qed.

Section responses.
Context (offs : XorbHash -> list Z) (sh : Shard) (fileHash : FileHash) (fb : FileBlock) (header : gostring).
Hypothesis offs_stable : forall h s o s', Inv s -> GetXorbChunkOffsets h s = (Ok o, s') -> o = offs h /\ Inv s'.
Hypothesis url_stable : forall h s u s', Inv s -> GetXorbURL h s = (Ok u, s') -> Inv s'.
Hypothesis offs_ok : forall h, grows 0 (offs h) /\ len (offs h) <= MaxChunksPerXorb.
Hypothesis sh_blocks : blocks_ok sh.
Hypothesis sh_file : File sh fileHash = Some fb.
Hypothesis fb_ok : Forall (fun e => entry_ok e /\ fe_UnpackedSegBytes e < 2 ^ 32) (fb_Entries fb).

Let content : list byte := concat (map entry_content (fb_Entries fb)).
Hypothesis content_size : len content < 2 ^ 62.

Let rng : ByteRange := ParseByteRange header (len content).

(** The units of the file. *)
Definition file_units : list (list byte) := concat (map (units sh) (fb_Entries fb)).

Lemma concat_file_units : concat file_units = content.
Proof.
  assert (forall es, concat (concat (map (units sh) es)) = concat (map entry_content es)) as H; [|apply H].
  induction es as [|e es IH]; [done|]. cbn [map concat]. by rewrite concat_app, concat_units, IH.
Qed.

Lemma build_answers {A} (record : FileDataSequenceEntry -> ByteRange -> A -> prog S A)
    (I : list Term -> A -> Prop) acc s offset terms acc' s' :
  (forall e a b acc acc' terms s s', entry_ok e -> Inv s ->
     ChunkDataRangeFromOffsets (offs (fe_CASHash e)) (fe_ChunkIndexStart e) (fe_ChunkIndexEnd e) = Ok (a, b) ->
     I terms acc -> record e (MkByteRange a b) acc s = (Ok acc', s') -> I (terms ++ [entry_term e]) acc' /\ Inv s') ->
  Inv s -> I [] acc -> build_loop record sh rng (fb_Entries fb) 0 0 [] acc s = (Ok (offset, terms, acc'), s') ->
  holds content rng offset terms /\ len (terms_content terms) < 2 ^ 62 /\ I terms acc' /\ Inv s' /\
  fits file_units rng offset (terms_content terms).
Proof.
  intros Hrec Hinv HI Hrun. pose proof (len_nonneg content) as Hn. pose proof concat_file_units as HU.
  destruct (ParseByteRange_range header (len content)) as [H1 H2]; [lia|]. fold rng in H1, H2.
  destruct (Z.le_gt_cases (br_Start rng) (br_End rng)) as [Hse|Hempty].
  - change 0 with (len (concat (@nil (list byte)))) in Hrun at 1.
    eapply (build_loop_built record offs I) in Hrun as (U' & rest & Hc & Hb & Hr & HI' & Hi');
      [|exact offs_stable|exact Hrec|done|done|done|change (len (concat (@nil (list byte)))) with 0; fold content; lia|done|exact Hse
       |split; [|done|constructor|done]; intros _; change (len (concat (@nil (list byte)))) with 0; split; [done|lia]|done].
    cbn [app] in Hc. fold file_units in Hc. pose proof (built_fits _ _ _ _ _ _ Hc Hb Hr (conj (proj1 H1) Hse)) as Hf.
    destruct (fits_range _ _ _ _ Hf) as (Ho & Hl & Ht); [lia|by rewrite HU|]. rewrite HU in Hl, Ht.
    split; [split; [done|done|apply Hb|apply Hb]|]. split; [lia|done].
  - pose proof (ParseByteRange_empty header (len content) Hn Hempty) as Hpast. fold rng in Hpast.
    rewrite build_loop_past in Hrun; [|done|done|fold content; lia|fold content; lia]. injection Hrun as <- <- <- <-.
    split; [split; [done| |constructor|done]|split; [change (len (terms_content [])) with 0; lia|split; [done|split; [done|]]]].
    + unfold slice. rewrite !(Z2Nat.nonpos (_ - _)), (Z2Nat.nonpos (_ + 1)) by lia. done.
    + exists file_units, [], []. rewrite app_nil_r, HU. split_and!; [done|done|lia|by left| |done]. intros a u b E. by apply app_cons_not_nil in E.
Qed.

Lemma responseV1_built s r s' :
  Inv s -> BuildReconstructionResponseV1 sh fileHash rng s = (Ok r, s') ->
  holds content rng (r1_OffsetIntoFirstRange r) (r1_Terms r) /\ len (terms_content (r1_Terms r)) < 2 ^ 62 /\
  recorded fi_Range fi_URLRange offs (r1_Terms r) (r1_FetchInfo r) /\ Inv s' /\
  fits file_units rng (r1_OffsetIntoFirstRange r) (terms_content (r1_Terms r)).
Proof.
  intros Hinv. unfold BuildReconstructionResponseV1. rewrite sh_file. unfold mbind, prog_bind.
  destruct (build_loop _ _ _ _ _ _ _ _ _) as [[[[offset terms] fetchInfo]|] s1] eqn:E; [|done]. intros [= <- <-].
  apply (build_answers record_v1 (recorded fi_Range fi_URLRange offs)) in E; [done| |done|apply recorded_nil].
  intros e a b acc acc' ts s2 s3 Hok Hs2 Hr HR Hrun. unfold record_v1, mbind, prog_bind, prog_wrap, catch, throw, mret, prog_ret in Hrun.
  destruct (GetXorbURL _ s2) as [[url|] s4] eqn:Eu; [|done]. injection Hrun as <- <-.
  split; [by eapply recorded_add|by eapply url_stable].
Qed.

Lemma responseV1_answers s r s' :
  Inv s -> BuildReconstructionResponseV1 sh fileHash rng s = (Ok r, s') ->
  answers offs content rng (r1_OffsetIntoFirstRange r) (r1_Terms r) (planReaderV1 r).
Proof. intros Hi (H1 & _ & [_ HF HN] & _)%responseV1_built; [|done]. split; [done|]. by apply planReaderV1_serves. Qed.

Lemma xorb_fetches_inv l xorbs s xorbs' s' : Inv s -> xorb_fetches l xorbs s = (Ok xorbs', s') -> Inv s'.
Proof.
  revert xorbs s. induction l as [|[k d] l IH]; intros xorbs s Hi; cbn [xorb_fetches]; [by intros [= _ <-]|].
  unfold mbind, prog_bind, prog_wrap, catch, throw. set (h := match parseHash k with Ok h => h | Err _ => zeroHash end).
  destruct (GetXorbURL h s) as [[url|] s1] eqn:E; [|done]. apply IH. by eapply url_stable.
Qed.

(** The fetches of a version 2 response: one per xorb, with its ranges. *)
Definition fetches_of (xorbs : gmap gostring (list XorbMultiRangeFetch)) (ranges : gmap gostring (list XorbRangeDescriptor)) : Prop :=
  forall k l, ranges !! k = Some l -> exists url, xorbs !! k = Some [MkMultiRange url l].

Lemma responseV2_built s r s' :
  Inv s -> BuildReconstructionResponseV2 sh fileHash rng s = (Ok r, s') ->
  holds content rng (r2_OffsetIntoFirstRange r) (r2_Terms r) /\ len (terms_content (r2_Terms r)) < 2 ^ 62 /\
  (exists ranges, recorded xd_Chunks xd_Bytes offs (r2_Terms r) ranges /\ fetches_of (r2_Xorbs r) ranges) /\ Inv s' /\
  fits file_units rng (r2_OffsetIntoFirstRange r) (terms_content (r2_Terms r)).
Proof.
  intros Hinv. unfold BuildReconstructionResponseV2. rewrite sh_file. unfold mbind, prog_bind.
  destruct (build_loop _ _ _ _ _ _ _ _ _) as [[[[offset terms] ranges]|] s1] eqn:E; [|done].
  destruct (xorb_fetches _ _ s1) as [[xorbs|] s2] eqn:Ex; [|done]. intros [= <- <-].
  apply (build_answers record_v2 (recorded xd_Chunks xd_Bytes offs)) in E as (H1 & H2 & H3 & H4 & H5); [| |done|apply recorded_nil].
  - split; [done|]. split; [done|]. split; [|split; [by eapply xorb_fetches_inv|done]]. exists ranges. split; [done|].
    apply xorb_fetches_spec in Ex as [Hx _]; [|apply NoDup_fst_map_to_list]. intros k l Hk. apply Hx. by apply elem_of_map_to_list.
  - intros e a b acc acc' ts s3 s4 Hok Hs3 Hr HR [= <- <-]. split; [by eapply recorded_add|done].
Qed.

Lemma responseV2_answers s r s' :
  Inv s -> BuildReconstructionResponseV2 sh fileHash rng s = (Ok r, s') ->
  answers offs content rng (r2_OffsetIntoFirstRange r) (r2_Terms r) (planReaderV2 r).
Proof.
  intros Hi (H1 & _ & (ranges & [_ HF HN] & Hx) & _)%responseV2_built; [|done]. split; [done|].
  by apply (planReaderV2_serves offs offs_ok _ ranges).
Qed.

(** *** A response is built whenever the store has the xorbs *)
Section available.
Hypothesis offs_served : forall e s, e ∈ fb_Entries fb -> Inv s ->
  exists s', GetXorbChunkOffsets (fe_CASHash e) s = (Ok (offs (fe_CASHash e)), s').
Hypothesis url_served : forall h s, Inv s -> exists u s', GetXorbURL h s = (Ok u, s').
Hypothesis fb_stored : forall e, e ∈ fb_Entries fb ->
  fe_ChunkIndexStart e < fe_ChunkIndexEnd e /\ len (offs (fe_CASHash e)) = len (xc (fe_CASHash e)).

Lemma trimSegment_nonempty seg start r :
  fe_ChunkIndexStart seg < fe_ChunkIndexEnd seg ->
  fe_ChunkIndexStart (fst (trimSegment sh seg start r)) < fe_ChunkIndexEnd (fst (trimSegment sh seg start r)).
Proof.
  intros Hne. unfold trimSegment. destruct (_ && _); [done|]. destruct (find_cas _ _); [|done]. destruct (_ <? _); [done|].
  destruct (Z.leb_spec (tr_last (trim_loop (fe_ChunkIndexStart seg) (slice (fe_ChunkIndexStart seg) (fe_ChunkIndexEnd seg) (cb_Chunks c)) r
    (MkTrim (fe_ChunkIndexStart seg) (fe_ChunkIndexStart seg) start start start))) (tr_first (trim_loop (fe_ChunkIndexStart seg)
    (slice (fe_ChunkIndexStart seg) (fe_ChunkIndexEnd seg) (cb_Chunks c)) r
    (MkTrim (fe_ChunkIndexStart seg) (fe_ChunkIndexStart seg) start start start)))); [by rewrite orb_true_r|].
  destruct (negb _); done.
Qed.

Lemma build_loop_total {A} (record : FileDataSequenceEntry -> ByteRange -> A -> prog S A) entries (P : list byte) offset terms acc s :
  (forall e sp acc s, Inv s -> exists acc' s', record e sp acc s = (Ok acc', s') /\ Inv s') ->
  Inv s -> (forall e, e ∈ entries -> e ∈ fb_Entries fb) ->
  len P + len (concat (map entry_content entries)) < 2 ^ 62 ->
  exists res s', build_loop record sh rng entries (len P) offset terms acc s = (Ok res, s') /\ Inv s'.
Proof.
  intros Hrec. revert P offset terms acc s. induction entries as [|seg entries IH]; intros P offset terms acc s Hinv Hin Hb;
    cbn [build_loop map concat] in *; [by eexists _, s|].
  assert (seg ∈ fb_Entries fb) as Hseg by (apply Hin; left).
  destruct (proj1 (Forall_forall _ _) fb_ok seg Hseg) as [Hok Hu].
  rewrite len_app in Hb. pose proof (len_nonneg (entry_content seg)). pose proof (len_nonneg (concat (map entry_content entries))).
  pose proof (len_nonneg P). rewrite (eo_size _ Hok) in *. rewrite i64_small by (unfold is_i64; lia). rewrite <- len_app.
  assert (forall e, e ∈ entries -> e ∈ fb_Entries fb) as Hin' by (intros e He; apply Hin; by right).
  destruct (_ <=? _); [apply IH; [done|done|rewrite len_app; lia]|]. destruct (_ <? _); [by eexists _, s|].
  pose proof (trimSegment_trims sh seg (len P) rng sh_blocks Hok ltac:(lia) ltac:(rewrite (eo_size _ Hok); lia)
    ltac:(rewrite (eo_size _ Hok); lia)) as [Tok Th _].
  destruct (fb_stored seg Hseg) as [Hne Hlen]. pose proof (trimSegment_nonempty seg (len P) rng Hne) as Hne'.
  destruct (trimSegment sh seg (len P) rng) as [entry skipped]. cbn [fst snd] in *.
  destruct (offs_served seg s Hseg Hinv) as [s1 E1]. unfold mbind, prog_bind, prog_wrap, catch, lift, throw, mret, prog_ret.
  rewrite Th, E1. apply offs_stable in E1 as [_ Hinv1]; [|done].
  destruct Tok as [_ Te _ _]. rewrite Th in Te. unfold ChunkDataRangeFromOffsets.
  rewrite (proj2 (Z.leb_gt _ _)), (proj2 (Z.ltb_ge (len (offs (fe_CASHash seg))) _)) by lia. cbn [wrap_err].
  destruct (Hrec entry (MkByteRange (if 0 <? fe_ChunkIndexStart entry
    then i64 (offs (fe_CASHash seg) !!! Z.to_nat (fe_ChunkIndexStart entry - 1)) else 0)
    (i64 (offs (fe_CASHash seg) !!! Z.to_nat (fe_ChunkIndexEnd entry - 1)) - 1)) acc s1 Hinv1) as (acc' & s2 & E2 & Hinv2).
  rewrite E2. apply IH; [done|done|rewrite len_app; lia].
Qed.

Lemma xorb_fetches_total l xorbs s : Inv s -> exists r s', xorb_fetches l xorbs s = (Ok r, s').
Proof.
  revert xorbs s. induction l as [|[k d] l IH]; intros xorbs s Hinv; cbn [xorb_fetches]; [by eexists _, s|].
  unfold mbind, prog_bind, prog_wrap, catch, throw. set (h := match parseHash k with Ok h => h | Err _ => zeroHash end).
  destruct (url_served h s Hinv) as (u & s1 & E). rewrite E. apply IH. by eapply url_stable.
Qed.

Lemma responses_built s : Inv s ->
  (exists r s', BuildReconstructionResponseV1 sh fileHash rng s = (Ok r, s')) /\
  (exists r s', BuildReconstructionResponseV2 sh fileHash rng s = (Ok r, s')).
Proof.
  intros Hinv. unfold BuildReconstructionResponseV1, BuildReconstructionResponseV2. rewrite sh_file.
  unfold mbind, prog_bind. change (build_loop ?r sh rng (fb_Entries fb) 0) with (build_loop r sh rng (fb_Entries fb) (len (@nil byte))).
  split.
  - destruct (build_loop_total record_v1 (fb_Entries fb) [] 0 [] ∅ s) as ([[? ?] ?] & s1 & E & _);
      [|done|done|rewrite (@len_nil byte); fold content; lia|rewrite E; by eexists _, s1].
    intros e sp acc s0 H0. unfold record_v1, mbind, prog_bind, prog_wrap, catch, throw.
    destruct (url_served (fe_CASHash e) s0 H0) as (u & s1 & E). rewrite E. eexists _, s1. split; [done|]. by eapply url_stable.
  - destruct (build_loop_total record_v2 (fb_Entries fb) [] 0 [] ∅ s) as ([[offset terms] ranges] & s1 & E & H1);
      [intros e sp acc s0 H0; by eexists _, s0|done|done|rewrite (@len_nil byte); fold content; lia|rewrite E].
    destruct (xorb_fetches_total (map_to_list ranges) ∅ s1 H1) as (r & s2 & E2). rewrite E2. by eexists _, s2.
Qed.
End available.
End responses.
End contents.

(** C8: a reconstruction response holds what was asked for.  Let a shard's file
    and CAS blocks agree with the xorbs' chunks, and let the store keep its xorbs
    while it is asked for them.  A [Range] header, any string at all, is read as
    [requests] says: [bytes=a-b], [bytes=a-] and [bytes=-n] in decimal, and
    anything else as the whole file.  If the server builds a response for it, in
    either version, then the chunks its terms name, less the first
    [OffsetIntoFirstRange] bytes, start with exactly the requested bytes; the
    terms hold no more than that takes: every chunk in them holds a requested
    byte (every segment, where the shard does not list the chunks of its xorb),
    and there is no term when no byte is requested; every term's length is right;
    and the client's plan succeeds, with a fetch for each term that covers its
    chunks and asks for exactly the bytes of the chunks it covers.  And both
    versions are built whenever the store answers for the file's xorbs. *)
Theorem response_answers {S : Type} {ST : Storage S} xc offs (Inv : S -> Prop) sh fileHash fb header (s : S) :
  (forall h s o s', Inv s -> GetXorbChunkOffsets h s = (Ok o, s') -> o = offs h /\ Inv s') ->
  (forall h s u s', Inv s -> GetXorbURL h s = (Ok u, s') -> Inv s') -> Inv s ->
  (forall h, grows 0 (offs h) /\ len (offs h) <= MaxChunksPerXorb) ->
  blocks_ok xc sh -> File sh fileHash = Some fb ->
  Forall (fun e => entry_ok xc e /\ fe_UnpackedSegBytes e < 2 ^ 32) (fb_Entries fb) ->
  let content := concat (map (entry_content xc) (fb_Entries fb)) in
  let rng := ParseByteRange header (len content) in
  len content < 2 ^ 62 ->
  (forall rng', ParseByteRange header (len content) = rng' <-> requests header (len content) rng') /\
  (forall r s', BuildReconstructionResponseV1 sh fileHash rng s = (Ok r, s') ->
     answers xc offs content rng (r1_OffsetIntoFirstRange r) (r1_Terms r) (planReaderV1 r) /\
     fits (file_units xc sh fb) rng (r1_OffsetIntoFirstRange r) (terms_content xc (r1_Terms r))) /\
  (forall r s', BuildReconstructionResponseV2 sh fileHash rng s = (Ok r, s') ->
     answers xc offs content rng (r2_OffsetIntoFirstRange r) (r2_Terms r) (planReaderV2 r) /\
     fits (file_units xc sh fb) rng (r2_OffsetIntoFirstRange r) (terms_content xc (r2_Terms r))) /\
  ((forall e s, e ∈ fb_Entries fb -> Inv s -> exists s', GetXorbChunkOffsets (fe_CASHash e) s = (Ok (offs (fe_CASHash e)), s')) ->
   (forall h s, Inv s -> exists u s', GetXorbURL h s = (Ok u, s')) ->
   (forall e, e ∈ fb_Entries fb ->
      fe_ChunkIndexStart e < fe_ChunkIndexEnd e /\ len (offs (fe_CASHash e)) = len (xc (fe_CASHash e))) ->
   (exists r s', BuildReconstructionResponseV1 sh fileHash rng s = (Ok r, s')) /\
   (exists r s', BuildReconstructionResponseV2 sh fileHash rng s = (Ok r, s'))).
Proof.
  intros H1 H2 H3 H4 H5 H6 H7 content rng H8. split; [intros rng'; apply ParseByteRange_requests|]. split; [|split].
  - intros r s' Hr. split; [by eapply (responseV1_answers xc Inv)|].
    by apply (responseV1_built xc Inv offs sh fileHash fb header) in Hr as (_ & _ & _ & _ & Hf).
  - intros r s' Hr. split; [by eapply (responseV2_answers xc Inv)|].
    by apply (responseV2_built xc Inv offs sh fileHash fb header) in Hr as (_ & _ & _ & _ & Hf).
  - intros A1 A2 A3. by apply (responses_built xc Inv offs).
Qed.

(** ** Witness *)

From S2P Require Import Memory.

Section witnesses.
#[local] Instance plan_b3 : Blake3 := poly_blake3.
#[local] Instance plan_lz4 : Lz4 := rle_lz4.
#[local] Instance plan_bufs : ChunkBufs := zero_bufs.

(** The chunks and the offsets of the store with one xorb. *)
Definition one_xc (h : XorbHash) : list (list byte) := if bool_decide (h = wit_root) then wit_chunks else [].
Definition mem_offs (s : memory) (h : XorbHash) : list Z :=
  match (mem_GetXorbChunkOffsets h s).1 with Ok o => o | Err _ => [] end.

Lemma one_xorb_small n o : mem_get kXorbs n one_xorb = Some o -> len (o_data o) < 2 ^ 61.
Proof.
  assert (forallb (fun p => len (o_data p.2) <? 2 ^ 61) (map_to_list (default ∅ (m_objects one_xorb !! kXorbs))) = true) as H
    by (vm_compute; reflexivity).
  rewrite forallb_forall in H. unfold mem_get. destruct (m_objects one_xorb !! kXorbs) as [m|]; [|done]. cbn [mbind option_bind].
  intros Ho. specialize (H (n, o)). apply Z.ltb_lt, H, list_elem_of_In, elem_of_map_to_list. exact Ho.
Qed.

Lemma mem_offs_ok s h :
  (forall n o, mem_get kXorbs n s = Some o -> len (o_data o) < 2 ^ 61) ->
  grows 0 (mem_offs s h) /\ len (mem_offs s h) <= MaxChunksPerXorb.
Proof.
  intros Hs. unfold mem_offs, mem_GetXorbChunkOffsets. destruct (mem_get _ _ _) as [o|] eqn:Eo; [|done]. cbn [fst].
  destruct (ReadXorbChunkOffsets (o_data o)) as [offs|] eqn:E; [|done]. cbn [wrap_err].
  eapply ReadXorbChunkOffsets_grows, E. by eapply Hs.
Qed.

Lemma mem_offs_stable s h o s' : GetXorbChunkOffsets h s = (Ok o, s') -> o = mem_offs s h /\ s' = s.
Proof.
  intros Ho. unfold mem_offs. cbn in Ho. destruct (mem_GetXorbChunkOffsets h s) as [r s1] eqn:E.
  injection Ho as -> <-. split; [done|]. unfold mem_GetXorbChunkOffsets in E. by injection E as _ <-.
Qed.

Lemma one_entry_ok : Forall (fun e => entry_ok one_xc e /\ fe_UnpackedSegBytes e < 2 ^ 32)
  [MkFileEntry wit_root 0 (len (concat wit_chunks)) 0 (len wit_chunks)].
Proof.
  constructor; [|constructor]. split; [|vm_compute; reflexivity]. split; vm_compute; repeat split; discriminate.
Qed.

(** Bytes 1 and 2 of the two-chunk file. *)
Lemma response_answers_witness :
  exists fb r1 r2 s1 s2, fb_Entries fb = [MkFileEntry wit_root 0 (len (concat wit_chunks)) 0 (len wit_chunks)] /\
    BuildReconstructionResponseV1 one_file (fb_FileHash fb) (MkByteRange 1 2) one_xorb = (Ok r1, s1) /\
    BuildReconstructionResponseV2 one_file (fb_FileHash fb) (MkByteRange 1 2) one_xorb = (Ok r2, s2) /\
    answers one_xc (mem_offs one_xorb) (concat wit_chunks) (MkByteRange 1 2) (r1_OffsetIntoFirstRange r1) (r1_Terms r1) (planReaderV1 r1) /\
    answers one_xc (mem_offs one_xorb) (concat wit_chunks) (MkByteRange 1 2) (r2_OffsetIntoFirstRange r2) (r2_Terms r2) (planReaderV2 r2) /\
    fits wit_chunks (MkByteRange 1 2) (r1_OffsetIntoFirstRange r1) (terms_content one_xc (r1_Terms r1)).
Proof.
  set (fb := MkFileBlock
       (match ComputeFileHash (map ComputeChunkHash wit_chunks) (map len wit_chunks) with Ok h => h | Err _ => zeroHash end)
       0 [MkFileEntry wit_root 0 (len (concat wit_chunks)) 0 (len wit_chunks)] [] None).
  assert (concat (map (entry_content one_xc) (fb_Entries fb)) = concat wit_chunks) as Hc by (vm_compute; reflexivity).
  assert (ParseByteRange (str "bytes=1-2") (len (concat wit_chunks)) = MkByteRange 1 2) as Hr by (vm_compute; reflexivity).
  destruct (response_answers one_xc (mem_offs one_xorb) (fun s => s = one_xorb) one_file (fb_FileHash fb) fb (str "bytes=1-2") one_xorb)
    as (_ & H1 & H2 & H3).
  - intros h s o s' -> Ho. exact (mem_offs_stable _ _ _ _ Ho).
  - intros h s u s' -> Hu. exact (f_equal snd (eq_sym Hu)).
  - reflexivity.
  - intros h. exact (mem_offs_ok _ h one_xorb_small).
  - intros b [->|Hb%not_elem_of_nil]%elem_of_cons; [|destruct Hb]. vm_compute. reflexivity.
  - vm_compute. reflexivity.
  - exact one_entry_ok.
  - rewrite Hc. vm_compute. reflexivity.
  - rewrite Hc, Hr in *. destruct H3 as [(r1 & s1 & E1) (r2 & s2 & E2)].
    + intros e s [->|He%not_elem_of_nil]%elem_of_cons; [|destruct He]. intros ->. exists one_xorb. vm_compute. reflexivity.
    + intros h s ->. eexists _, one_xorb. reflexivity.
    + intros e [->|He%not_elem_of_nil]%elem_of_cons; [|destruct He]. split; vm_compute; reflexivity.
    + exists fb, r1, r2, s1, s2. split; [reflexivity|]. split; [exact E1|]. split; [exact E2|].
      destruct (H1 _ _ E1) as [A1 F1]. split; [exact A1|]. split; [exact (proj1 (H2 _ _ E2))|exact F1].
Defined.
End witnesses.
