(* ===== verification/Listing.v ===== *)
(** * Listing the stored files: [storage/list_files.go]

    [ListFiles] resolves every file index entry against its shard, groups the
    files by content digest and attributes stored bytes to each group.  The
    shards and the offset tables are read by parallel workers; their results
    land in slots of their own, so the model reads them one after the other, in
    the order in which Go's map iteration yields the keys, which is a
    parameter.

    Proved: the sizes computed with usage counters and coalesced runs are the
    sums, over the distinct chunks an entry refers to, of the packed sizes of
    those no other entry refers to and of those some other entry does
    ([stored_sizes]); the listing names every indexed file exactly once, under
    the digest its block records, with one entry per digest, and is sorted
    ([listing_complete]). *)

From Stdlib Require Import ZArith Lia Strings.Byte Strings.String.
From S2P Require Import Prelude Prog Hash Sha256 Gearhash Merkle ByteGrouping Compression XorbEncoder XorbDecoder.
From S2P Require Import XorbOffsets Shard ShardCodec FileSystem Storage PutShard Memory Plan.

(** ** Data *)

Record FileListEntry : Type := MkFileListEntry {
  le_SHA256 : gostring;
  le_FileHashes : list gostring;
  le_OriginalSize : Z;
  le_UniqueSize : Z;
  le_SharedSize : Z;
  le_Missing : bool;
}.

(** [chunkRange]: chunks [ck_start, ck_end) of one xorb. *)
Record chunkRange : Type := MkTermRange { ck_hash : XorbHash; ck_start : Z; ck_end : Z }.

Record resolvedFile : Type := MkResolved {
  rv_fileHash : gostring;
  rv_sha : gostring;
  rv_size : Z;
  rv_terms : list chunkRange;
  rv_missing : bool;
}.

Definition missing_file (fileHash : gostring) : resolvedFile := MkResolved fileHash [] 0 [] true.

(** ** Resolving the files of a shard *)

(** The loop over the entries of a file: [None] when a chunk index is out of
    bounds. *)
Fixpoint resolve_terms (entries : list FileDataSequenceEntry) (size : Z) (terms : list chunkRange) :
    option (Z * list chunkRange) :=
  match entries with
  | [] => Some (size, terms)
  | entry :: entries =>
      if MaxChunksPerXorb <? fe_ChunkIndexEnd entry then None
      else
        resolve_terms entries (u64 (size + fe_UnpackedSegBytes entry))
          (if fe_ChunkIndexStart entry <? fe_ChunkIndexEnd entry
           then terms ++ [MkTermRange (fe_CASHash entry) (fe_ChunkIndexStart entry) (fe_ChunkIndexEnd entry)]
           else terms)
  end.

(** The digest files are grouped by; the all-zero one marks empty files. *)
Definition file_sha (file : FileBlock) : gostring :=
  match fb_MetadataExt file with
  | Some md => if bool_decide (me_SHA256Hash md = zeroHash) then [] else SHA256Hash_String (me_SHA256Hash md)
  | None => []
  end.

(** [blocks]: a later block of the same file hash replaces an earlier one. *)
Definition file_blocks (sh : Shard) : gmap FileHash FileBlock :=
  foldl (fun blocks file => <[fb_FileHash file := file]> blocks) ∅ (s_Files sh).

Definition resolve_file (blocks : gmap FileHash FileBlock) (fileHash : gostring) : resolvedFile :=
  match parseHash fileHash with
  | Err _ => missing_file fileHash
  | Ok want =>
      match blocks !! want with
      | None => missing_file fileHash
      | Some file =>
          match resolve_terms (fb_Entries file) 0 [] with
          | None => missing_file fileHash
          | Some (size, terms) => MkResolved fileHash (file_sha file) size terms false
          end
      end
  end.

(** ** Stored sizes *)

(** [xorbUsage]: per chunk, how many entries refer to it and the last counted. *)
Record xorbUsage : Type := MkXorbUsage { xu_distinct : list Z; xu_last : list Z }.

Definition emptyUsage : xorbUsage := MkXorbUsage [] [].

Definition grow (n : Z) (u : xorbUsage) : xorbUsage :=
  let k := Z.to_nat (n - len (xu_last u)) in
  MkXorbUsage (xu_distinct u ++ replicate k 0) (xu_last u ++ replicate k (-1)).

Definition last_at (u : xorbUsage) (k : Z) : Z := xu_last u !!! Z.to_nat k.
Definition distinct_at (u : xorbUsage) (k : Z) : Z := xu_distinct u !!! Z.to_nat k.

(** [int32(e)]. *)
Definition i32 (z : Z) : Z := (z + 2 ^ 31) mod 2 ^ 32 - 2 ^ 31.

Definition set_last (k e : Z) (u : xorbUsage) : xorbUsage :=
  MkXorbUsage (xu_distinct u) (<[Z.to_nat k := e]> (xu_last u)).

(** [for k := term.start; k < term.end; k++], [n] turns of it. *)
Fixpoint mark_loop (n : nat) (e k : Z) (u : xorbUsage) : xorbUsage :=
  match n with
  | O => u
  | Datatypes.S n =>
      mark_loop n e (k + 1)
        (if bool_decide (last_at u k <> e)
         then MkXorbUsage (<[Z.to_nat k := u32 (distinct_at u k + 1)]> (xu_distinct u)) (<[Z.to_nat k := e]> (xu_last u))
         else u)
  end.

Abbreviation usage_map := (gmap XorbHash xorbUsage).
Definition usage_of (usage : usage_map) (h : XorbHash) : xorbUsage := default emptyUsage (usage !! h).

Definition mark_term (e : Z) (usage : usage_map) (term : chunkRange) : usage_map :=
  let u := grow (ck_end term) (usage_of usage (ck_hash term)) in
  <[ck_hash term := mark_loop (Z.to_nat (ck_end term - ck_start term)) e (ck_start term) u]> usage.

(** The first pass: entry [e] and those after it. *)
Fixpoint mark_entries (e : Z) (usage : usage_map) (entryTerms : list (list chunkRange)) : usage_map :=
  match entryTerms with
  | [] => usage
  | terms :: entryTerms => mark_entries (e + 1) (foldl (mark_term (i32 e)) usage terms) entryTerms
  end.

(** [for k := range u.last { u.last[k] = -1 }]. *)
Definition reset_last (u : xorbUsage) : xorbUsage :=
  MkXorbUsage (xu_distinct u) (replicate (length (xu_last u)) (-1)).

(** The run of chunks from [k] with one classification, at most [n] long. *)
Fixpoint run_loop (n : nat) (e : Z) (sharedRun : bool) (k : Z) (u : xorbUsage) : Z * xorbUsage :=
  match n with
  | O => (k, u)
  | Datatypes.S n =>
      if bool_decide (last_at u k <> e) && Bool.eqb (1 <? distinct_at u k) sharedRun
      then run_loop n e sharedRun (k + 1) (set_last k e u)
      else (k, u)
  end.

(** [unique] and [shared] so far. *)
Abbreviation sizes := (Z * Z)%type.

Definition add_run (sharedRun : bool) (bytes : Z) (acc : sizes) : sizes :=
  if sharedRun then (acc.1, u64 (acc.2 + u64 bytes)) else (u64 (acc.1 + u64 bytes), acc.2).

(** The walk over the chunks of a term. *)
Fixpoint size_loop (fuel : nat) (e : Z) (offs : list Z) (end_ k : Z) (u : xorbUsage) (acc : sizes) :
    result (xorbUsage * sizes) :=
  if k <? end_ then
    match fuel with
    | O => Err (Panic "out of fuel")
    | Datatypes.S fuel =>
        if bool_decide (last_at u k = e) then size_loop fuel e offs end_ (k + 1) u acc
        else
          let sharedRun := 1 <? distinct_at u k in
          let '(runEnd, u) := run_loop (Z.to_nat (end_ - k)) e sharedRun k u in
          '(first, last) ← wrap_err "stored size of xorb %s chunks [%d,%d): %w" (ChunkDataRangeFromOffsets offs k runEnd);
          size_loop fuel e offs end_ runEnd u (add_run sharedRun (i64 (i64 (last - first) + 1)) acc)
    end
  else Ok (u, acc).

Fixpoint size_terms (e : Z) (offsets : gmap XorbHash (list Z)) (terms : list chunkRange) (usage : usage_map) (acc : sizes) :
    result (usage_map * sizes) :=
  match terms with
  | [] => Ok (usage, acc)
  | term :: terms =>
      let offs := default [] (offsets !! ck_hash term) in
      if len offs <? ck_end term then size_terms e offsets terms usage acc
      else
        '(u, acc) ← size_loop (Z.to_nat (ck_end term - ck_start term)) e offs (ck_end term) (ck_start term)
                      (usage_of usage (ck_hash term)) acc;
        size_terms e offsets terms (<[ck_hash term := u]> usage) acc
  end.

Definition set_sizes (acc : sizes) (entry : FileListEntry) : FileListEntry :=
  MkFileListEntry (le_SHA256 entry) (le_FileHashes entry) (le_OriginalSize entry) acc.1 acc.2 (le_Missing entry).

(** The second pass. *)
Fixpoint size_entries (e : Z) (offsets : gmap XorbHash (list Z)) (entries : list (FileListEntry * list chunkRange))
    (usage : usage_map) : result (list FileListEntry) :=
  match entries with
  | [] => Ok []
  | (entry, terms) :: entries =>
      '(usage, acc) ← size_terms (i32 e) offsets terms usage (0, 0);
      rest ← size_entries (e + 1) offsets entries usage;
      Ok (set_sizes acc entry :: rest)
  end.

(** ** Grouping *)

(** The entries with their terms, and the index of each digest. *)
Abbreviation listing := (list (FileListEntry * list chunkRange) * gmap gostring nat)%type.

Definition add_hash (rf : resolvedFile) (et : FileListEntry * list chunkRange) : FileListEntry * list chunkRange :=
  let '(entry, terms) := et in
  (MkFileListEntry (le_SHA256 entry) (le_FileHashes entry ++ [rv_fileHash rf]) (le_OriginalSize entry)
     (le_UniqueSize entry) (le_SharedSize entry) (le_Missing entry), terms ++ rv_terms rf).

(** The grouping loop. *)
Definition add_file (st : listing) (rf : resolvedFile) : listing :=
  let '(entries, bySHA256) := st in
  if rv_missing rf then (entries ++ [(MkFileListEntry [] [rv_fileHash rf] 0 0 0 true, [])], bySHA256)
  else if bool_decide (rv_sha rf = []) then
    (entries ++ [(MkFileListEntry [] [rv_fileHash rf] (rv_size rf) 0 0 false, rv_terms rf)], bySHA256)
  else
    match bySHA256 !! rv_sha rf with
    | Some i => (alter (add_hash rf) i entries, bySHA256)
    | None =>
        (entries ++ [(MkFileListEntry (rv_sha rf) [rv_fileHash rf] (rv_size rf) 0 0 false, rv_terms rf)],
         <[rv_sha rf := length entries]> bySHA256)
    end.

Definition sort_hashes (entry : FileListEntry) : FileListEntry :=
  MkFileListEntry (le_SHA256 entry) (merge_sort string_le (le_FileHashes entry)) (le_OriginalSize entry)
    (le_UniqueSize entry) (le_SharedSize entry) (le_Missing entry).

(** The order of the listing: larger files first, then by digest, then by the
    first file hash. *)
Definition entry_order (a b : FileListEntry) : Prop :=
  le_OriginalSize b < le_OriginalSize a \/
  le_OriginalSize b = le_OriginalSize a /\
    (le_SHA256 a <> le_SHA256 b /\ string_le (le_SHA256 a) (le_SHA256 b) \/
     le_SHA256 a = le_SHA256 b /\ string_le (default [] (head (le_FileHashes a))) (default [] (head (le_FileHashes b)))).

#[global] Instance entry_order_dec : RelDecision entry_order.
Proof. intros a b. unfold entry_order. apply _. Defined.

(** ** The listing *)

Section listing.
Context {S : Type} `{Storage S}.

Definition resolveShardFiles (shardHash : gostring) (fileHashes : list gostring) : prog S (list resolvedFile) :=
  catch (GetShardByHash shardHash)
    (fun sh => mret (map (resolve_file (file_blocks sh)) fileHashes))
    (fun e => if negb (errors_Is e ErrNotExist) then throw e
              else mret (map (resolve_file ∅) fileHashes)).

(** The groups of the shards, in the order of [groups]. *)
Fixpoint resolve_groups (groups : list (gostring * list gostring)) : prog S (list (list resolvedFile)) :=
  match groups with
  | [] => mret []
  | (shardHash, fileHashes) :: groups =>
      files ← resolveShardFiles shardHash fileHashes;
      rest ← resolve_groups groups;
      mret (files :: rest)
  end.

(** The offset tables of the xorbs that are still there. *)
Fixpoint fetch_offsets (hashes : list XorbHash) (offsets : gmap XorbHash (list Z)) : prog S (gmap XorbHash (list Z)) :=
  match hashes with
  | [] => mret offsets
  | h :: hashes =>
      catch (GetXorbChunkOffsets h)
        (fun offs => fetch_offsets hashes (<[h := offs]> offsets))
        (fun e => if errors_Is e ErrNotExist then fetch_offsets hashes offsets
                  else throw (Wrapf "chunk offsets of xorb %s: %w" e))
  end.

(** [computeStoredSizes], on the entries with their terms; [range] is the
    iteration order of the map of usages. *)
Definition computeStoredSizes (range : usage_map -> list XorbHash) (entries : list (FileListEntry * list chunkRange)) :
    prog S (list FileListEntry) :=
  let usage := mark_entries 0 ∅ entries.*2 in
  offsets ← fetch_offsets (range usage) ∅;
  lift (size_entries 0 offsets entries (reset_last <$> usage)).

(** [byShard[shardHash] = append(byShard[shardHash], fileHash)]. *)
Definition group_file (fileHash shardHash : gostring) (byShard : gmap gostring (list gostring)) :
    prog S (gmap gostring (list gostring)) :=
  mret (<[shardHash := default [] (byShard !! shardHash) ++ [fileHash]]> byShard).

(** [ListFiles]; [rangeShards] and [rangeXorbs] are the iteration orders of its
    two maps. *)
Definition ListFiles (rangeShards : gmap gostring (list gostring) -> list (gostring * list gostring))
    (rangeXorbs : usage_map -> list XorbHash) : prog S (list FileListEntry) :=
  byShard ← WalkFileIndex group_file ∅;
  resolved ← resolve_groups (rangeShards byShard);
  let '(entries, _) := foldl add_file ([], ∅) (concat resolved) in
  entries ← computeStoredSizes rangeXorbs entries;
  mret (merge_sort entry_order (map sort_hashes entries)).
End listing.

(** ** What the usage counters say *)

(** The term covers chunk [k] of xorb [h]. *)
Definition covers_chunk (h : XorbHash) (k : Z) (t : chunkRange) : bool :=
  bool_decide (ck_hash t = h) && (ck_start t <=? k) && (k <? ck_end t).

(** Some of the terms cover it. *)
Definition refers (h : XorbHash) (k : Z) (terms : list chunkRange) : bool := existsb (covers_chunk h k) terms.

(** How many entries refer to it. *)
Definition ref_count (h : XorbHash) (k : Z) (entryTerms : list (list chunkRange)) : Z :=
  len (filter (fun terms => refers h k terms = true) entryTerms).

Definition term_ok (t : chunkRange) : Prop := 0 <= ck_start t < ck_end t.

(** The counters as functions, with what they are out of range. *)
Definition lastv (u : xorbUsage) (k : Z) : Z := default (-1) (xu_last u !! Z.to_nat k).
Definition distv (u : xorbUsage) (k : Z) : Z := default 0 (xu_distinct u !! Z.to_nat k).

Definition usage_wf (u : xorbUsage) : Prop := length (xu_distinct u) = length (xu_last u).

Lemma last_at_v u k : 0 <= k < len (xu_last u) -> last_at u k = lastv u k.
Proof.
  intros Hk. unfold last_at, lastv. destruct (lookup_lt_is_Some_2 (xu_last u) (Z.to_nat k)) as [x Hx]; [unfold len in Hk; lia|].
  by rewrite (list_lookup_total_correct _ _ _ Hx), Hx.
Qed.

Lemma distinct_at_v u k : usage_wf u -> 0 <= k < len (xu_last u) -> distinct_at u k = distv u k.
Proof.
  intros Hw Hk. unfold distinct_at, distv.
  destruct (lookup_lt_is_Some_2 (xu_distinct u) (Z.to_nat k)) as [x Hx]; [rewrite Hw; unfold len in Hk; lia|].
  by rewrite (list_lookup_total_correct _ _ _ Hx), Hx.
Qed.

Lemma default_app_replicate (d : Z) l n i : default d ((l ++ replicate n d) !! i) = default d (l !! i).
Proof.
  destruct (decide (i < length l)%nat) as [Hl|Hl]; [by rewrite lookup_app_l|].
  rewrite (lookup_ge_None_2 l) by lia. rewrite lookup_app_r by lia.
  destruct (replicate n d !! (i - length l)%nat) eqn:E; [|done]. apply lookup_replicate in E as [-> _]. done.
Qed.

Lemma default_insert (d x : Z) l i j : (i < length l)%nat ->
  default d (<[i := x]> l !! j) = if decide (j = i) then x else default d (l !! j).
Proof.
  intros Hi. case_decide as Hj; [subst; by rewrite list_lookup_insert_eq|by rewrite list_lookup_insert_ne].
Qed.

Lemma grow_views n u k : lastv (grow n u) k = lastv u k /\ (usage_wf u -> distv (grow n u) k = distv u k).
Proof. unfold lastv, distv, grow. cbn. by rewrite !default_app_replicate. Qed.

Lemma grow_wf n u : usage_wf u -> usage_wf (grow n u) /\ len (xu_last (grow n u)) = Z.max n (len (xu_last u)).
Proof. unfold usage_wf, grow, len. cbn. rewrite !length_app, !length_replicate. lia. Qed.

Lemma lastv_insert u k e i : 0 <= k < len (xu_last u) -> 0 <= i ->
  lastv (set_last k e u) i = if decide (i = k) then e else lastv u i.
Proof.
  intros Hk Hi. unfold lastv, set_last. cbn. rewrite default_insert by (unfold len in Hk; lia).
  do 2 case_decide; try done; lia.
Qed.

Lemma mark_loop_spec n e k u :
  usage_wf u -> 0 <= k -> k + Z.of_nat n <= len (xu_last u) ->
  (forall i, k <= i < k + Z.of_nat n -> 0 <= distv u i < 2 ^ 32 - 1) ->
  let u' := mark_loop n e k u in
  usage_wf u' /\ len (xu_last u') = len (xu_last u) /\
  forall i, 0 <= i ->
    lastv u' i = (if decide (k <= i < k + Z.of_nat n) then e else lastv u i) /\
    distv u' i = distv u i + (if decide (k <= i < k + Z.of_nat n /\ lastv u i <> e) then 1 else 0).
Proof.
  revert k u. induction n as [|n IH]; intros k u Hw Hk Hn Hd; cbn [mark_loop].
  { split; [done|]. split; [done|]. intros i Hi. rewrite !decide_False by lia. lia. }
  rewrite last_at_v by lia. rewrite distinct_at_v by (done || lia). case_bool_decide as Hl.
  - set (u1 := MkXorbUsage _ _).
    assert (usage_wf u1) as Hw1 by (unfold usage_wf, u1; cbn; by rewrite !length_insert).
    assert (len (xu_last u1) = len (xu_last u)) as Hl1 by (unfold len, u1; cbn; by rewrite length_insert).
    assert (forall i, 0 <= i -> lastv u1 i = if decide (i = k) then e else lastv u i) as Hla.
    { intros i Hi. by apply lastv_insert; [lia|]. }
    assert (forall i, 0 <= i -> distv u1 i = distv u i + if decide (i = k) then 1 else 0) as Hda.
    { intros i Hi. unfold distv at 1, u1. cbn. rewrite default_insert by (unfold usage_wf, len in *; lia).
      rewrite u32_small by (specialize (Hd k ltac:(lia)); unfold is_u32; lia).
      do 2 case_decide; try lia; [by subst|]. unfold distv. lia. }
    destruct (IH (k + 1) u1 Hw1) as (Hw2 & Hl2 & Hv); [lia|lia| |].
    { intros i Hi. rewrite Hda, decide_False by lia. specialize (Hd i). lia. }
    split; [done|]. split; [lia|]. intros i Hi. destruct (Hv i Hi) as [-> ->]. rewrite Hla, Hda by done.
    destruct (decide (i = k)) as [->|Hne].
    + split; repeat case_decide; try lia; tauto.
    + split; repeat case_decide; lia.
  - destruct (IH (k + 1) u Hw) as (Hw2 & Hl2 & Hv); [lia|lia|intros i Hi; apply Hd; lia|].
    split; [done|]. split; [done|]. intros i Hi. destruct (Hv i Hi) as [-> ->].
    destruct (decide (i = k)) as [->|Hne].
    + split; repeat case_decide; try lia; tauto.
    + split; repeat case_decide; lia.
Qed.

(** The same through the map. *)
Definition lastm (usage : usage_map) (h : XorbHash) (k : Z) : Z := lastv (usage_of usage h) k.
Definition distm (usage : usage_map) (h : XorbHash) (k : Z) : Z := distv (usage_of usage h) k.

(** Every usage has its two slices, and they reach as far as [ends] says. *)
Definition map_wf (usage : usage_map) : Prop := forall h, usage_wf (usage_of usage h).

(** A term whose chunks have counters. *)
Definition counted_term (usage : usage_map) (t : chunkRange) : Prop := ck_end t <= len (xu_last (usage_of usage (ck_hash t))).

Lemma usage_of_insert usage h u h' : usage_of (<[h := u]> usage) h' = if decide (h' = h) then u else usage_of usage h'.
Proof. unfold usage_of. case_decide as E; [subst; by rewrite lookup_insert_eq|by rewrite lookup_insert_ne]. Qed.

Lemma mark_term_spec e usage t :
  map_wf usage -> term_ok t -> (forall h k, 0 <= k -> 0 <= distm usage h k < 2 ^ 32 - 1) ->
  map_wf (mark_term e usage t) /\ counted_term (mark_term e usage t) t /\
  (forall t', counted_term usage t' -> counted_term (mark_term e usage t) t') /\
  forall h k, 0 <= k ->
    lastm (mark_term e usage t) h k = (if covers_chunk h k t then e else lastm usage h k) /\
    distm (mark_term e usage t) h k = distm usage h k + (if covers_chunk h k t && bool_decide (lastm usage h k <> e) then 1 else 0).
Proof.
  intros Hw [Hs He] Hd. unfold mark_term. set (u := usage_of usage (ck_hash t)).
  destruct (grow_wf (ck_end t) u (Hw _)) as [Hgw Hgl].
  destruct (mark_loop_spec (Z.to_nat (ck_end t - ck_start t)) e (ck_start t) (grow (ck_end t) u) Hgw Hs) as (Hw' & Hl & Hv); [lia| |].
  { intros i Hi. destruct (grow_views (ck_end t) u i) as [_ ->]; [|apply Hw]. apply Hd. lia. }
  set (u' := mark_loop _ _ _ _) in *. unfold map_wf, counted_term, lastm, distm. setoid_rewrite usage_of_insert.
  split; [intros h; by case_decide|]. split; [rewrite decide_True by done; lia|]. split.
  { intros t' Ht'. case_decide as E; [|done]. rewrite Hl, Hgl, E in *. fold u in Ht'. lia. }
  intros h k Hk. unfold covers_chunk. case_decide as E; [|by rewrite bool_decide_eq_false_2 by congruence; cbn; rewrite Z.add_0_r].
  subst h. rewrite bool_decide_eq_true_2 by done. destruct (Hv k Hk) as [-> ->].
  destruct (grow_views (ck_end t) u k) as [-> ->]; [|apply Hw]. fold u. cbn [andb].
  destruct (Z.leb_spec (ck_start t) k), (Z.ltb_spec k (ck_end t)); cbn [andb].
  - rewrite !decide_True by lia. split; [done|]. case_bool_decide; [rewrite decide_True by lia|rewrite decide_False by tauto]; done.
  - rewrite !decide_False by lia. done.
  - rewrite !decide_False by lia. done.
  - rewrite !decide_False by lia. done.
Qed.

Lemma refers_app h k l l' : refers h k (l ++ l') = refers h k l || refers h k l'.
Proof. apply existsb_app. Qed.

Lemma mark_terms_spec e usage terms :
  map_wf usage -> Forall term_ok terms -> (forall h k, 0 <= k -> 0 <= distm usage h k < 2 ^ 32 - 2) ->
  let usage' := foldl (mark_term e) usage terms in
  map_wf usage' /\ Forall (counted_term usage') terms /\ (forall t', counted_term usage t' -> counted_term usage' t') /\
  forall h k, 0 <= k ->
    lastm usage' h k = (if refers h k terms then e else lastm usage h k) /\
    distm usage' h k = distm usage h k + (if refers h k terms && bool_decide (lastm usage h k <> e) then 1 else 0).
Proof.
  intros Hw Ht Hd. cbn zeta. induction terms as [|t terms IH] using rev_ind.
  { cbn. split; [done|]. split; [done|]. split; [done|]. intros. by rewrite Z.add_0_r. }
  apply Forall_app in Ht as [Hts [Ht _]%Forall_cons]. destruct (IH Hts) as (Hw1 & Hc1 & Hm1 & Hv1). clear IH.
  rewrite foldl_snoc. set (u1 := foldl _ _ _) in *.
  destruct (mark_term_spec e u1 t Hw1 Ht) as (Hw2 & Hc2 & Hm2 & Hv2).
  { intros h k Hk. destruct (Hv1 h k Hk) as [_ ->]. specialize (Hd h k Hk). destruct (_ && _); lia. }
  split; [done|]. split; [apply Forall_app; split; [by eapply Forall_impl|by repeat constructor]|]. split; [auto|].
  intros h k Hk. destruct (Hv2 h k Hk) as [-> ->]. destruct (Hv1 h k Hk) as [-> ->].
  rewrite refers_app. cbn [refers existsb]. rewrite orb_false_r.
  destruct (refers h k terms), (covers_chunk h k t); cbn [orb andb]; split; try done; try lia.
  rewrite (bool_decide_eq_false_2 (e <> e)) by tauto. lia.
Qed.

Lemma ref_count_cons h k terms ets :
  ref_count h k (terms :: ets) = (if refers h k terms then 1 else 0) + ref_count h k ets.
Proof. unfold ref_count. rewrite filter_cons. destruct (refers h k terms); [by rewrite decide_True, len_cons by done|by rewrite decide_False by done]. Qed.

Lemma i32_small e : 0 <= e < 2 ^ 31 -> i32 e = e.
Proof. intros He. unfold i32. rewrite Z.mod_small; lia. Qed.

(** The first pass counts, for every chunk, the entries that refer to it. *)
Lemma mark_entries_spec ets : forall e usage,
  map_wf usage -> Forall (Forall term_ok) ets -> 0 <= e -> e + len ets < 2 ^ 31 ->
  (forall h k, 0 <= k -> 0 <= distm usage h k <= e /\ -1 <= lastm usage h k < e) ->
  let usage' := mark_entries e usage ets in
  map_wf usage' /\ Forall (Forall (counted_term usage')) ets /\ (forall t', counted_term usage t' -> counted_term usage' t') /\
  forall h k, 0 <= k -> distm usage' h k = distm usage h k + ref_count h k ets.
Proof.
  induction ets as [|terms ets IH]; intros e usage Hw Ht He Hl Hd; cbn zeta; cbn [mark_entries].
  { split; [done|]. split; [done|]. split; [done|]. intros h k Hk. change (ref_count h k []) with 0. lia. }
  apply Forall_cons in Ht as [Ht Hts]. rewrite len_cons in Hl. pose proof (len_nonneg ets). rewrite i32_small by lia.
  destruct (mark_terms_spec e usage terms Hw Ht) as (Hw1 & Hc1 & Hm1 & Hv1).
  { intros h k Hk. specialize (Hd h k Hk). lia. }
  set (u1 := foldl _ _ _) in *. destruct (IH (e + 1) u1 Hw1 Hts) as (Hw2 & Hc2 & Hm2 & Hv2); [lia|lia| |].
  { intros h k Hk. specialize (Hd h k Hk). destruct (Hv1 h k Hk) as [-> ->]. destruct (refers h k terms), (bool_decide _); cbn; lia. }
  split; [done|]. split; [constructor; [by eapply Forall_impl|done]|]. split; [auto|].
  intros h k Hk. rewrite Hv2, ref_count_cons by done. destruct (Hv1 h k Hk) as [_ ->]. specialize (Hd h k Hk).
  rewrite bool_decide_eq_true_2 by lia. destruct (refers h k terms); cbn; lia.
Qed.

(** ** The second pass *)

(** The packed bytes of a chunk: up to its end offset, from the one before. *)
Definition chunk_start (offs : list Z) (k : Z) : Z := if 0 <? k then offs !!! Z.to_nat (k - 1) else 0.
Definition chunk_size (offs : list Z) (k : Z) : Z := offs !!! Z.to_nat k - chunk_start offs k.

Lemma chunk_sizes_sum offs a n :
  0 <= a -> zsum (chunk_size offs) (seqZ a (Z.of_nat n)) = chunk_start offs (a + Z.of_nat n) - chunk_start offs a.
Proof.
  intros Ha. induction n as [|n IH]; [change (Z.of_nat 0) with 0; by rewrite Z.add_0_r, Z.sub_diag|].
  rewrite Nat2Z.inj_succ, <- Z.add_1_r. rewrite seqZ_app by lia. rewrite zsum_app, IH.
  replace (seqZ (a + Z.of_nat n) 1) with [a + Z.of_nat n] by (cbn; f_equal; lia). cbn [zsum]. unfold chunk_size.
  assert (chunk_start offs (a + (Z.of_nat n + 1)) = offs !!! Z.to_nat (a + Z.of_nat n)) as ->; [|lia].
  unfold chunk_start. destruct (Z.ltb_spec 0 (a + (Z.of_nat n + 1))); [|lia]. do 2 f_equal. lia.
Qed.

(** What a run of chunks adds. *)
Lemma run_bytes offs k r :
  grows 0 offs -> 0 <= k < r -> r <= len offs ->
  exists first last, ChunkDataRangeFromOffsets offs k r = Ok (first, last) /\
    i64 (i64 (last - first) + 1) = zsum (chunk_size offs) (seqZ k (r - k)) /\
    0 <= zsum (chunk_size offs) (seqZ k (r - k)) < 2 ^ 62.
Proof.
  intros Hg Hk Hr. unfold ChunkDataRangeFromOffsets. destruct (Z.leb_spec r k); [lia|]. destruct (Z.ltb_spec (len offs) r); [lia|].
  eexists _, _. split; [done|]. replace (r - k) with (Z.of_nat (Z.to_nat (r - k))) by lia. rewrite chunk_sizes_sum by lia.
  replace (k + Z.of_nat (Z.to_nat (r - k))) with r by lia. unfold chunk_start. destruct (Z.ltb_spec 0 r); [|lia].
  destruct (lookup_lt_is_Some_2 offs (Z.to_nat (r - 1))) as [x Hx]; [unfold len in *; lia|].
  rewrite (list_lookup_total_correct _ _ _ Hx). pose proof (grows_lookup _ _ _ _ Hg Hx).
  rewrite (i64_small x) by (unfold is_i64; lia).
  destruct (Z.ltb_spec 0 k) as [Hk0|Hk0].
  - destruct (lookup_lt_is_Some_2 offs (Z.to_nat (k - 1))) as [y Hy]; [unfold len in *; lia|].
    rewrite (list_lookup_total_correct _ _ _ Hy). pose proof (grows_lookup _ _ _ _ Hg Hy).
    pose proof (grows_later _ _ _ _ _ _ Hg Hy Hx ltac:(lia)).
    rewrite (i64_small y), (i64_small (x - 1 - y)) by (unfold is_i64; lia). rewrite i64_small by (unfold is_i64; lia). lia.
  - rewrite (i64_small (x - 1 - 0)) by (unfold is_i64; lia). rewrite i64_small by (unfold is_i64; lia). lia.
Qed.

Lemma run_loop_spec n e b k u :
  usage_wf u -> 0 <= k -> k + Z.of_nat n <= len (xu_last u) ->
  let '(r, u') := run_loop n e b k u in
  k <= r <= k + Z.of_nat n /\ usage_wf u' /\ len (xu_last u') = len (xu_last u) /\
  (forall i, 0 <= i -> distv u' i = distv u i /\ lastv u' i = if decide (k <= i < r) then e else lastv u i) /\
  (forall i, k <= i < r -> lastv u i <> e /\ (1 <? distv u i) = b) /\
  ((0 < n)%nat -> lastv u k <> e -> (1 <? distv u k) = b -> k < r).
Proof.
  revert k u. induction n as [|n IH]; intros k u Hw Hk Hn; cbn [run_loop].
  { split; [lia|]. split; [done|]. split; [done|]. split; [intros i Hi; by rewrite decide_False by lia|]. split; intros; lia. }
  rewrite last_at_v by lia. rewrite distinct_at_v by (done || lia).
  destruct (bool_decide (lastv u k <> e) && Bool.eqb (1 <? distv u k) b) eqn:Hc.
  - apply andb_prop in Hc as [Hl%bool_decide_eq_true Hb%eqb_prop].
    specialize (IH (k + 1) (set_last k e u)).
    assert (len (xu_last (set_last k e u)) = len (xu_last u)) as Hl1 by (unfold len, set_last; cbn; by rewrite length_insert).
    destruct (run_loop n e b (k + 1) (set_last k e u)) as [r u'].
    destruct IH as (Hr & Hw' & Hl' & Hv & Hin & _); [unfold usage_wf, set_last; cbn; by rewrite length_insert|lia|lia|].
    split; [lia|]. split; [done|]. split; [lia|]. split; [|split; [|lia]].
    + intros i Hi. destruct (Hv i Hi) as [-> ->]. split; [done|]. rewrite lastv_insert by lia. repeat case_decide; lia.
    + intros i Hi. destruct (decide (i = k)) as [->|Hne]; [done|]. destruct (Hin i ltac:(lia)) as [Hi1 Hi2].
      rewrite lastv_insert, decide_False in Hi1 by lia. done.
  - split; [lia|]. split; [done|]. split; [done|]. split; [intros i Hi; by rewrite decide_False by lia|].
    split; [lia|]. intros _ Hl Hb. rewrite bool_decide_eq_true_2, Hb, eqb_reflx in Hc by done. done.
Qed.

Lemma u64_add a b : u64 (u64 a + u64 b) = u64 (a + b).
Proof. unfold u64. by rewrite <- Zplus_mod. Qed.

(** What chunk [i] adds to the sizes of entry [e], for the usage [u]. *)
Definition own_bytes (e : Z) (offs : list Z) (u : xorbUsage) (i : Z) : Z :=
  if bool_decide (lastv u i = e) || (1 <? distv u i) then 0 else chunk_size offs i.
Definition shared_bytes (e : Z) (offs : list Z) (u : xorbUsage) (i : Z) : Z :=
  if bool_decide (lastv u i = e) || negb (1 <? distv u i) then 0 else chunk_size offs i.

Lemma bytes_ext e offs u u' l :
  (forall i, i ∈ l -> distv u' i = distv u i /\ lastv u' i = lastv u i) ->
  zsum (own_bytes e offs u') l = zsum (own_bytes e offs u) l /\ zsum (shared_bytes e offs u') l = zsum (shared_bytes e offs u) l.
Proof. intros Hv. split; apply zsum_ext; intros i Hi; destruct (Hv i Hi) as [E1 E2]; unfold own_bytes, shared_bytes; by rewrite E1, E2. Qed.

Lemma run_bytes_class e offs u l b :
  (forall i, i ∈ l -> lastv u i <> e /\ (1 <? distv u i) = b) ->
  zsum (own_bytes e offs u) l = (if b then 0 else zsum (chunk_size offs) l) /\
  zsum (shared_bytes e offs u) l = (if b then zsum (chunk_size offs) l else 0).
Proof.
  intros Hv. unfold own_bytes, shared_bytes. destruct b; split;
    (apply zsum_0 || apply zsum_ext); intros i Hi; destruct (Hv i Hi) as [Hl ->];
    rewrite bool_decide_eq_false_2 by done; done.
Qed.

Lemma size_loop_spec fuel e offs end_ : forall k u A B,
  usage_wf u -> grows 0 offs -> 0 <= k -> end_ <= len offs -> end_ <= len (xu_last u) -> end_ - k <= Z.of_nat fuel ->
  exists u', size_loop fuel e offs end_ k u (u64 A, u64 B) =
      Ok (u', (u64 (A + zsum (own_bytes e offs u) (seqZ k (end_ - k))), u64 (B + zsum (shared_bytes e offs u) (seqZ k (end_ - k))))) /\
    usage_wf u' /\ len (xu_last u') = len (xu_last u) /\
    forall i, 0 <= i -> distv u' i = distv u i /\ lastv u' i = if decide (k <= i < end_) then e else lastv u i.
Proof.
  induction fuel as [|fuel IH]; intros k u A B Hw Hg Hk Hlo Hll Hf; cbn [size_loop].
  all: destruct (Z.ltb_spec k end_) as [Hlt|Hge]; [|exists u; rewrite seqZ_nil by lia; cbn; rewrite !Z.add_0_r;
    split; [done|]; split; [done|]; split; [done|]; intros i Hi; by rewrite decide_False by lia].
  { lia. }
  rewrite last_at_v by lia. rewrite distinct_at_v by (done || lia). case_bool_decide as Hl.
  - destruct (IH (k + 1) u A B Hw Hg) as (u' & -> & Hw' & Hl' & Hv); [lia..|].
    exists u'. rewrite (seqZ_cons k (end_ - k)) by lia. cbn [zsum].
    replace (Z.pred (end_ - k)) with (end_ - (k + 1)) by lia.
    unfold own_bytes at 2, shared_bytes at 2. rewrite bool_decide_eq_true_2 by done. cbn [orb].
    replace (Z.succ k) with (k + 1) by lia. rewrite !Z.add_0_l.
    split; [done|]. split; [done|]. split; [done|]. intros i Hi. destruct (Hv i Hi) as [-> ->]. split; [done|].
    destruct (decide (i = k)) as [->|]; repeat case_decide; lia.
  - pose proof (run_loop_spec (Z.to_nat (end_ - k)) e (1 <? distv u k) k u Hw Hk ltac:(lia)) as Hrun.
    destruct (run_loop _ _ _ _ _) as [r u1]. destruct Hrun as (Hr & Hw1 & Hl1 & Hv1 & Hin & Hpos).
    specialize (Hpos ltac:(lia) Hl eq_refl).
    destruct (run_bytes offs k r Hg) as (first & last & -> & Hb & Hpb); [lia|lia|]. cbn [wrap_err mbind result_bind].
    rewrite Hb. set (b := 1 <? distv u k) in *. set (X := zsum (chunk_size offs) (seqZ k (r - k))) in *.
    assert (add_run b X (u64 A, u64 B) = (u64 (A + if b then 0 else X), u64 (B + if b then X else 0))) as ->.
    { unfold add_run. destruct b; cbn; by rewrite u64_add, Z.add_0_r. }
    destruct (IH r u1 (A + if b then 0 else X) (B + if b then X else 0) Hw1 Hg) as (u' & -> & Hw' & Hl' & Hv'); [lia..|].
    exists u'. replace (end_ - k) with ((r - k) + (end_ - r)) by lia. rewrite seqZ_app by lia.
    replace (k + (r - k)) with r by lia. rewrite !zsum_app.
    destruct (run_bytes_class e offs u (seqZ k (r - k)) b) as [-> ->].
    { intros i Hi%elem_of_seqZ. apply Hin. lia. }
    destruct (bytes_ext e offs u u1 (seqZ r (end_ - r))) as [-> ->].
    { intros i Hi%elem_of_seqZ. destruct (Hv1 i ltac:(lia)) as [-> ->]. by rewrite decide_False by lia. }
    rewrite !Z.add_assoc. split; [done|]. split; [done|]. split; [lia|].
    intros i Hi. destruct (Hv' i Hi) as [-> ->]. destruct (Hv1 i Hi) as [-> ->]. split; [done|]. repeat case_decide; lia.
Qed.

(** ** The reference sums *)

Section sums.
(** The chunk end offsets of every xorb; none for one that is not there. *)
Context (table : XorbHash -> list Z).

(** A term the stored xorb satisfies. *)
Definition satisfied (t : chunkRange) : bool := ck_end t <=? len (table (ck_hash t)).

Definition term_chunks (t : chunkRange) : list (XorbHash * Z) :=
  map (pair (ck_hash t)) (seqZ (ck_start t) (ck_end t - ck_start t)).

(** The chunks an entry refers to, each once. *)
Definition entry_chunks (terms : list chunkRange) : list (XorbHash * Z) :=
  remove_dups (concat (map term_chunks (filter (fun t => satisfied t = true) terms))).

(** The packed size of a chunk, when the number of entries that refer to it is
    one, or more than one. *)
Definition own_size (count : XorbHash -> Z -> Z) (c : XorbHash * Z) : Z :=
  if 1 <? count c.1 c.2 then 0 else chunk_size (table c.1) c.2.
Definition shared_size (count : XorbHash -> Z -> Z) (c : XorbHash * Z) : Z :=
  if 1 <? count c.1 c.2 then chunk_size (table c.1) c.2 else 0.

Context (count : XorbHash -> Z -> Z).

(** The sizes of an entry: the packed bytes of its chunks that no other entry
    refers to, and of those that others do. *)
Definition entry_sizes (terms : list chunkRange) : sizes :=
  (u64 (zsum (own_size count) (entry_chunks terms)), u64 (zsum (shared_size count) (entry_chunks terms))).

Context (tables_grow : forall h, grows 0 (table h)).
Context (offsets : gmap XorbHash (list Z)) (tables_fetched : forall h, default [] (offsets !! h) = table h).

(** The state of the second pass within entry [e]: [seen] are its chunks so
    far. *)
Record pass_inv (e : Z) (usage : usage_map) (seen : list (XorbHash * Z)) : Prop := {
  pi_wf : map_wf usage;
  pi_count : forall h k, 0 <= k -> distm usage h k = count h k;
  pi_last : forall h k, 0 <= k -> lastm usage h k = e <-> (h, k) ∈ seen;
  pi_seen : NoDup seen;
  pi_nonneg : forall c, c ∈ seen -> 0 <= c.2;
}.

Lemma elem_of_term_chunks t h k : (h, k) ∈ term_chunks t <-> covers_chunk h k t = true.
Proof.
  unfold term_chunks, covers_chunk. change (map ?f ?l) with (f <$> l). rewrite list_elem_of_fmap. split.
  - intros (i & [= -> ->] & Hi%elem_of_seqZ). rewrite bool_decide_eq_true_2 by done.
    destruct (Z.leb_spec (ck_start t) i), (Z.ltb_spec i (ck_end t)); try done; lia.
  - intros [[Hh%bool_decide_eq_true H1%Z.leb_le]%andb_prop H2%Z.ltb_lt]%andb_prop.
    exists k. split; [congruence|]. apply elem_of_seqZ. lia.
Qed.

Lemma term_chunks_NoDup t : NoDup (term_chunks t).
Proof.
  unfold term_chunks. change (map ?f ?l) with (f <$> l). apply NoDup_fmap_2; [by intros ? ? [= ->]|apply NoDup_seqZ].
Qed.

(** One satisfied term: its chunks not seen before. *)
Lemma size_term_spec e usage seen t :
  pass_inv e usage seen -> term_ok t -> counted_term usage t -> satisfied t = true ->
  let offs := table (ck_hash t) in
  let new := filter (fun c => c ∉ seen) (term_chunks t) in
  exists u', size_loop (Z.to_nat (ck_end t - ck_start t)) e offs (ck_end t) (ck_start t) (usage_of usage (ck_hash t))
      (u64 (zsum (own_size count) seen), u64 (zsum (shared_size count) seen)) =
      Ok (u', (u64 (zsum (own_size count) (seen ++ new)), u64 (zsum (shared_size count) (seen ++ new)))) /\
    pass_inv e (<[ck_hash t := u']> usage) (seen ++ new) /\
    len (xu_last u') = len (xu_last (usage_of usage (ck_hash t))) /\
    forall k, 0 <= k -> lastv u' k = e \/ lastv u' k = lastv (usage_of usage (ck_hash t)) k.
Proof.
  intros I [Hs He] Hc Hsat%Z.leb_le offs new. unfold counted_term in Hc.
  destruct (size_loop_spec (Z.to_nat (ck_end t - ck_start t)) e offs (ck_end t) (ck_start t) (usage_of usage (ck_hash t))
    (zsum (own_size count) seen) (zsum (shared_size count) seen)) as (u' & -> & Hw & Hl & Hv);
    [apply I|apply tables_grow|lia|done|done|lia|].
  assert (forall i, i ∈ seqZ (ck_start t) (ck_end t - ck_start t) ->
    distv (usage_of usage (ck_hash t)) i = count (ck_hash t) i /\
    (lastv (usage_of usage (ck_hash t)) i = e <-> (ck_hash t, i) ∈ seen)) as Hi.
  { intros i Hi%elem_of_seqZ. split; [apply (pi_count _ _ _ I); lia|apply (pi_last _ _ _ I); lia]. }
  exists u'. rewrite !zsum_app. subst new. rewrite !zsum_filter. unfold term_chunks. rewrite !zsum_map.
  split; [|split; [constructor|split; [done|intros k Hk; destruct (Hv k Hk) as [_ ->]; case_decide; auto]]].
  - do 2 f_equal. f_equal; f_equal; f_equal; apply zsum_ext; intros i Hin; destruct (Hi i Hin) as [Hd Hla];
      unfold own_bytes, shared_bytes, own_size, shared_size; cbn [fst snd]; fold offs; rewrite Hd;
      case_bool_decide as Hb; case_decide as Hdec; try tauto; cbn [orb]; by destruct (1 <? _).
  - intros h. rewrite usage_of_insert. case_decide; [done|apply I].
  - intros h k Hk. unfold distm. rewrite usage_of_insert. case_decide as Hh; [|by apply I]. subst h.
    destruct (Hv k Hk) as [-> _]. by apply (pi_count _ _ _ I).
  - intros h k Hk. unfold lastm. rewrite usage_of_insert, elem_of_app, list_elem_of_filter.
    change (map (pair (ck_hash t)) (seqZ _ _)) with (term_chunks t). rewrite elem_of_term_chunks. unfold covers_chunk.
    case_decide as Hh.
    + subst h. destruct (Hv k Hk) as [_ ->]. rewrite bool_decide_eq_true_2 by done. cbn [andb].
      pose proof (pi_last _ _ _ I (ck_hash t) k Hk) as HL. unfold lastm in HL.
      destruct (Z.leb_spec (ck_start t) k), (Z.ltb_spec k (ck_end t)); cbn [andb].
      all: case_decide; try lia; rewrite ?HL. 
      * destruct (decide ((ck_hash t, k) ∈ seen)); tauto.
      * split; [by left|]. intros [?|[_ ?]]; done.
      * split; [by left|]. intros [?|[_ ?]]; done.
    + rewrite bool_decide_eq_false_2 by congruence. cbn [andb]. pose proof (pi_last _ _ _ I h k Hk) as HL. unfold lastm in HL.
      rewrite HL. split; [by left|]. intros [?|[_ ?]]; done.
  - apply NoDup_app. split; [apply I|]. split; [by intros c Hc1 [? _]%list_elem_of_filter|].
    apply NoDup_filter, term_chunks_NoDup.
  - intros c [Hc1|[_ Hc1]%list_elem_of_filter]%elem_of_app; [by apply (pi_nonneg _ _ _ I)|].
    change (map (pair (ck_hash t)) (seqZ _ _)) with (term_chunks t) in Hc1. destruct c as [h k].
    apply elem_of_term_chunks in Hc1. unfold covers_chunk in Hc1. apply andb_prop in Hc1 as [[_ Hc1%Z.leb_le]%andb_prop _]. cbn. lia.
Qed.

Lemma size_terms_spec e terms : forall usage seen,
  pass_inv e usage seen -> Forall term_ok terms -> Forall (counted_term usage) terms ->
  exists usage' seen', size_terms e offsets terms usage (u64 (zsum (own_size count) seen), u64 (zsum (shared_size count) seen)) =
      Ok (usage', (u64 (zsum (own_size count) seen'), u64 (zsum (shared_size count) seen'))) /\
    pass_inv e usage' seen' /\
    (forall c, c ∈ seen' <-> c ∈ seen \/ c ∈ concat (map term_chunks (filter (fun t => satisfied t = true) terms))) /\
    (forall h, len (xu_last (usage_of usage' h)) = len (xu_last (usage_of usage h))) /\
    (forall h k, 0 <= k -> lastm usage' h k = e \/ lastm usage' h k = lastm usage h k).
Proof.
  induction terms as [|t terms IH]; intros usage seen I Ht Hc; cbn [size_terms].
  { exists usage, seen. split; [done|]. split; [done|]. split; [set_solver|]. split; [done|]. by right. }
  apply Forall_cons in Ht as [Ht Hts]. apply Forall_cons in Hc as [Hc Hcs]. rewrite tables_fetched.
  rewrite filter_cons. destruct (Z.ltb_spec (len (table (ck_hash t))) (ck_end t)) as [Hun|Hsat].
  { rewrite decide_False by (unfold satisfied; destruct (Z.leb_spec (ck_end t) (len (table (ck_hash t)))); [lia|done]).
    by apply IH. }
  assert (satisfied t = true) as Hst by (by apply Z.leb_le). rewrite decide_True by done.
  destruct (size_term_spec e usage seen t I Ht Hc Hst) as (u' & -> & I' & Hl & Hu). cbn [mbind result_bind].
  set (seen1 := seen ++ _) in *. set (usage1 := <[_ := u']> usage) in *.
  assert (forall h, len (xu_last (usage_of usage1 h)) = len (xu_last (usage_of usage h))) as Hlen.
  { intros h. unfold usage1. rewrite usage_of_insert. case_decide; [by subst|done]. }
  destruct (IH usage1 seen1 I' Hts) as (usage' & seen' & -> & I2 & Hin & Hl2 & Hla).
  { eapply Forall_impl; [exact Hcs|]. intros t' Ht'. unfold counted_term in *. by rewrite Hlen. }
  exists usage', seen'. split; [done|]. split; [done|]. split; [|split; [by intros h; rewrite Hl2|]].
  - intros c. rewrite Hin. cbn [map concat]. unfold seen1. rewrite !elem_of_app, list_elem_of_filter.
    destruct (decide (c ∈ seen)); tauto.
  - intros h k Hk. destruct (Hla h k Hk) as [?|E]; [by left|]. rewrite E.
    unfold lastm, usage1. rewrite usage_of_insert. case_decide as Hh; [subst h; by apply Hu|by right].
Qed.

(** The counters and the chunks of the entries still to come. *)
Lemma pass_inv_start e usage :
  map_wf usage -> (forall h k, 0 <= k -> distm usage h k = count h k) ->
  (forall h k, 0 <= k -> lastm usage h k < e) -> pass_inv e usage [].
Proof.
  intros Hw Hc Hl. constructor; try done; [|constructor|set_solver].
  intros h k Hk. specialize (Hl h k Hk). split; [lia|set_solver].
Qed.

Lemma size_entries_spec entries : forall e usage,
  map_wf usage -> (forall h k, 0 <= k -> distm usage h k = count h k) -> (forall h k, 0 <= k -> lastm usage h k < e) ->
  Forall (fun et => Forall term_ok et.2 /\ Forall (counted_term usage) et.2) entries ->
  0 <= e -> e + len entries < 2 ^ 31 ->
  size_entries e offsets entries usage = Ok (map (fun et => set_sizes (entry_sizes et.2) et.1) entries).
Proof.
  induction entries as [|[entry terms] entries IH]; intros e usage Hw Hc Hl Hf He Hb; [done|].
  apply Forall_cons in Hf as [[Ht Hct] Hf]. rewrite len_cons in Hb. pose proof (len_nonneg entries). cbn [size_entries fst snd map] in *.
  rewrite i32_small by lia.
  destruct (size_terms_spec e terms usage [] (pass_inv_start e usage Hw Hc Hl) Ht Hct) as (usage' & seen & E & I & Hin & Hlen & Hla).
  change (u64 (zsum _ [])) with 0 in E at 1. change (u64 (zsum (shared_size count) [])) with 0 in E. rewrite E.
  cbn [mbind result_bind]. rewrite (IH (e + 1) usage').
  - cbn. assert (seen ≡ₚ entry_chunks terms) as Hp; [|unfold entry_sizes; by rewrite Hp].
    apply NoDup_Permutation; [apply I|apply NoDup_remove_dups|]. intros c. unfold entry_chunks.
    rewrite Hin, elem_of_remove_dups. set_solver.
  - apply I.
  - apply I.
  - intros h k Hk. specialize (Hl h k Hk). destruct (Hla h k Hk); lia.
  - eapply Forall_impl; [exact Hf|]. intros et [? Hct']. split; [done|]. eapply Forall_impl; [exact Hct'|].
    intros t Htc. unfold counted_term in *. by rewrite Hlen.
  - lia.
  - lia.
Qed.

End sums.

Lemma elem_of_entry_chunks table terms c :
  c ∈ entry_chunks table terms <-> exists t, t ∈ terms /\ satisfied table t = true /\ c ∈ term_chunks t.
Proof.
  unfold entry_chunks. rewrite elem_of_remove_dups, list_elem_of_In, in_concat. split.
  - intros (l & (t & <- & Ht%list_elem_of_In)%in_map_iff & Hc%list_elem_of_In). apply list_elem_of_filter in Ht as [Hs Ht].
    by exists t.
  - intros (t & Ht & Hs & Hc%list_elem_of_In). exists (term_chunks t). split; [|done].
    apply in_map, list_elem_of_In, list_elem_of_filter. done.
Qed.

(** Only the tables of the xorbs the terms name matter. *)
Lemma entry_sizes_ext table table' count terms :
  (forall t, t ∈ terms -> table (ck_hash t) = table' (ck_hash t)) ->
  entry_sizes table count terms = entry_sizes table' count terms.
Proof.
  intros Ht. assert (entry_chunks table terms ≡ₚ entry_chunks table' terms) as Hc.
  { apply NoDup_Permutation; [apply NoDup_remove_dups..|]. intros c. rewrite !elem_of_entry_chunks.
    unfold satisfied. split; intros (t & Hin & Hs & Hc); exists t; rewrite ?Ht, <- ?Ht in * by done; done. }
  unfold entry_sizes. rewrite Hc. f_equal; f_equal; apply zsum_ext; intros [h k] (t & Hin & _ & Hcov)%elem_of_entry_chunks;
    apply elem_of_term_chunks, andb_prop in Hcov as [[->%bool_decide_eq_true _]%andb_prop _] || idtac;
    unfold own_size, shared_size; cbn [fst snd].
  all: assert (ck_hash t = h) as <- by
    (apply elem_of_term_chunks in Hcov; unfold covers_chunk in Hcov; apply andb_prop in Hcov as [[Hh _]%andb_prop _]; by apply bool_decide_eq_true in Hh).
  all: by rewrite Ht.
Qed.

Lemma reset_usage usage h : usage_of (reset_last <$> usage) h = reset_last (usage_of usage h).
Proof. unfold usage_of. rewrite lookup_fmap. by destruct (usage !! h). Qed.

Lemma reset_views u k : lastv (reset_last u) k = -1 /\ distv (reset_last u) k = distv u k.
Proof.
  split; [|done]. unfold lastv, reset_last. cbn.
  destruct (replicate _ _ !! Z.to_nat k) eqn:E; [|done]. apply lookup_replicate in E as [-> _]. done.
Qed.

(** The two passes together. *)
Lemma passes_spec table (entries : list (FileListEntry * list chunkRange)) offsets :
  Forall (fun et => Forall term_ok et.2) entries -> len entries < 2 ^ 31 ->
  (forall h, grows 0 (table h)) -> (forall h, default [] (offsets !! h) = table h) ->
  size_entries 0 offsets entries (reset_last <$> mark_entries 0 ∅ entries.*2) =
    Ok (map (fun et => set_sizes (entry_sizes table (fun h k => ref_count h k entries.*2) et.2) et.1) entries).
Proof.
  intros Ht Hb Hg Hf.
  destruct (mark_entries_spec entries.*2 0 ∅) as (Hw & Hc & _ & Hd); [done| |lia| |by split|].
  { apply Forall_fmap. done. }
  { unfold len in *. rewrite length_fmap. lia. }
  set (usage := mark_entries _ _ _) in *. apply size_entries_spec; try done.
  - intros h. rewrite reset_usage. unfold usage_wf, reset_last. cbn. rewrite length_replicate. apply Hw.
  - intros h k Hk. unfold distm. rewrite reset_usage. destruct (reset_views (usage_of usage h) k) as [_ ->].
    change (distm usage h k = ref_count h k entries.*2). rewrite (Hd h k Hk).
    assert (distm ∅ h k = 0) as -> by (unfold distm, usage_of; by rewrite lookup_empty). lia.
  - intros h k Hk. unfold lastm. rewrite reset_usage. destruct (reset_views (usage_of usage h) k) as [-> _]. lia.
  - rewrite Forall_fmap in Hc. apply list.Forall_forall. intros et Het. split; [by apply (proj1 (list.Forall_forall _ _) Ht)|].
    eapply Forall_impl; [apply (proj1 (list.Forall_forall _ _) Hc et Het)|]. intros t Htc.
    unfold counted_term in *. rewrite reset_usage. unfold reset_last, len. cbn. by rewrite length_replicate.
Qed.

(** What the store answers when asked for offset tables: [table], and nothing
    changes. *)
Definition tables_of {S} `{Storage S} (table : XorbHash -> list Z) (s : S) : Prop :=
  forall h, (exists o, GetXorbChunkOffsets h s = (Ok o, s) /\ table h = o) \/
            (exists e, GetXorbChunkOffsets h s = (Err e, s) /\ errors_Is e ErrNotExist = true /\ table h = []).

Lemma fetch_offsets_spec {S} `{Storage S} table (s : S) hashes : forall offsets,
  tables_of table s -> (forall h, offsets !! h = None \/ default [] (offsets !! h) = table h) ->
  exists offsets', fetch_offsets hashes offsets s = (Ok offsets', s) /\
    (forall h, h ∈ hashes -> default [] (offsets' !! h) = table h) /\
    (forall h, offsets' !! h = None \/ default [] (offsets' !! h) = table h) /\
    (forall h, default [] (offsets !! h) = table h -> default [] (offsets' !! h) = table h).
Proof.
  induction hashes as [|h hashes IH]; intros offsets Ht Ho; cbn [fetch_offsets].
  { exists offsets. split; [done|]. split; [set_solver|done]. }
  unfold catch. destruct (Ht h) as [(o & -> & Hto)|(e & -> & -> & Hto)].
  - destruct (IH (<[h := o]> offsets) Ht) as (offsets' & -> & Hin & Hany & Hkeep).
    { intros h'. destruct (decide (h' = h)) as [->|]; [rewrite lookup_insert_eq; by right|rewrite lookup_insert_ne by done; apply Ho]. }
    assert (default [] (offsets' !! h) = table h) as Hh by (apply Hkeep; by rewrite lookup_insert_eq).
    exists offsets'. split; [done|]. split; [by intros h' [->|?]%elem_of_cons; auto|]. split; [done|].
    intros h' Hh'. destruct (decide (h' = h)) as [->|]; [done|]. apply Hkeep. by rewrite lookup_insert_ne.
  - destruct (IH offsets Ht Ho) as (offsets' & -> & Hin & Hany & Hkeep).
    exists offsets'. split; [done|]. split; [|done]. intros h' [->|?]%elem_of_cons; [|by auto].
    destruct (Hany h) as [->|]; [by rewrite Hto|done].
Qed.

Lemma usage_has entries t :
  Forall (Forall term_ok) entries -> len entries < 2 ^ 31 -> t ∈ concat entries ->
  is_Some (mark_entries 0 ∅ entries !! ck_hash t).
Proof.
  intros Ht Hb Hin. destruct (mark_entries_spec entries 0 ∅) as (_ & Hc & _); [done|done|lia|lia|by split|].
  rewrite list_elem_of_In, in_concat in Hin. destruct Hin as (terms & Hts%list_elem_of_In & Hin%list_elem_of_In).
  pose proof (proj1 (list.Forall_forall _ _) (proj1 (list.Forall_forall _ _) Ht terms Hts) t Hin) as [? ?].
  pose proof (proj1 (list.Forall_forall _ _) (proj1 (list.Forall_forall _ _) Hc terms Hts) t Hin) as Hct.
  unfold counted_term, usage_of in Hct. destruct (mark_entries 0 ∅ entries !! ck_hash t); [done|]. cbn in Hct. rewrite (@len_nil Z) in Hct. lia.
Qed.

Lemma computeStoredSizes_ok {S} `{Storage S} range table entries (s : S) :
  Forall (fun et => Forall term_ok et.2) entries -> len entries < 2 ^ 31 ->
  (forall usage, range usage ≡ₚ (map_to_list usage).*1) ->
  tables_of table s -> (forall h, grows 0 (table h)) ->
  computeStoredSizes range entries s =
    (Ok (map (fun et => set_sizes (entry_sizes table (fun h k => ref_count h k entries.*2) et.2) et.1) entries), s).
Proof.
  intros Ht Hb Hr Htab Hg. unfold computeStoredSizes.
  destruct (fetch_offsets_spec table s (range (mark_entries 0 ∅ entries.*2)) ∅ Htab) as (offsets & E & Hin & Hany & _); [by left|].
  rewrite (prog_bind_Ok _ _ _ _ _ E). unfold lift. f_equal.
  rewrite (passes_spec (fun h => default [] (offsets !! h)) entries offsets Ht Hb); [|intros h|done].
  - f_equal. apply map_ext_in. intros et Het%list_elem_of_In. f_equal. apply entry_sizes_ext. intros t Hint. apply Hin.
    rewrite Hr, list_elem_of_fmap. destruct (usage_has entries.*2 t) as [u Hu].
    + by apply Forall_fmap.
    + unfold len in *. by rewrite length_fmap.
    + apply list_elem_of_In, in_concat. exists et.2. split; apply list_elem_of_In; [|done]. by apply list_elem_of_fmap_2.
    + exists (ck_hash t, u). split; [done|]. by apply elem_of_map_to_list.
  - destruct (Hany h) as [->| ->]; [done|apply Hg].
Qed.

(** C28: when the offset tables of the stored xorbs can be read, the sizes of
    every entry are computed, whatever the order in which Go walks the map of
    usages: the unique size is the sum of the packed sizes of the distinct
    chunks that this entry alone refers to, the shared size that of the
    distinct chunks other entries refer to as well; terms a stored xorb cannot
    satisfy add nothing. *)
Theorem stored_sizes {S} `{Storage S} range table entries (s : S) :
  Forall (fun et => Forall term_ok et.2) entries -> len entries < 2 ^ 31 ->
  (forall usage, range usage ≡ₚ (map_to_list usage).*1) ->
  tables_of table s -> (forall h, grows 0 (table h)) ->
  computeStoredSizes range entries s =
    (Ok (map (fun et => set_sizes (entry_sizes table (fun h k => ref_count h k entries.*2) et.2) et.1) entries), s).
Proof. apply computeStoredSizes_ok. Qed.

(** ** Terms of stored shards *)

(** Decoded indices are unsigned. *)
Definition starts_ok (file : FileBlock) : Prop := Forall (fun entry => 0 <= fe_ChunkIndexStart entry) (fb_Entries file).

Lemma read_entries_forall {A} (P : A -> Prop) fmt parse fuel : forall n acc r l r',
  (forall buf, P (parse buf)) -> Forall P acc -> read_entries fmt parse fuel n acc r = Ok (l, r') -> Forall P l.
Proof.
  induction fuel as [|fuel IH]; intros n acc r l r' Hp Ha; cbn [read_entries]; (destruct (n <=? 0); [by intros [= <- <-]|]); [done|].
  destruct (read_or fmt 48 r) as [[buf r1]|e]; [|done]. cbn [mbind result_bind].
  apply IH; [done|]. apply Forall_app. split; [done|]. repeat constructor. apply Hp.
Qed.

Lemma decode_file_starts buf r fb r' : decode_file buf r = Ok (fb, r') -> starts_ok fb.
Proof.
  unfold decode_file. intros E. destruct (read_entries _ _ _ _ _ _) as [[entries r1]|] eqn:Ee; [|done]. cbn [mbind result_bind] in E.
  apply (read_entries_forall (fun entry => 0 <= fe_ChunkIndexStart entry)) in Ee; [|intros b; apply le_val_range|constructor].
  destruct (if negb (Z.land _ FileWithVerification =? 0) then _ else _) as [[vs r2]|]; [|done]. cbn [mbind result_bind] in E.
  destruct (if negb (Z.land _ FileWithMetadataExt =? 0) then _ else _) as [[md r3]|]; [|done]. cbn [mbind result_bind] in E.
  injection E as <- <-. exact Ee.
Qed.

Lemma decode_files_starts fuel : forall acc r files r',
  Forall starts_ok acc -> decode_files fuel acc r = Ok (files, r') -> Forall starts_ok files.
Proof.
  induction fuel as [|fuel IH]; intros acc r files r' Ha; cbn [decode_files]; [done|].
  destruct (read_or _ 48 r) as [[buf r1]|]; [|done]. cbn [mbind result_bind].
  destruct (isBookend buf); [by intros [= <- <-]|].
  destruct (decode_file buf r1) as [[fb r2]|] eqn:E; [|done]. cbn [mbind result_bind].
  apply IH, Forall_app. split; [done|]. repeat constructor. by eapply decode_file_starts.
Qed.

Lemma decoded_starts r sh : DecodeStoredShard r = Ok sh -> Forall starts_ok (s_Files sh).
Proof.
  unfold DecodeStoredShard. destruct (read_or _ _ r) as [[hdr r1]|]; [|done]. cbn [mbind result_bind].
  unfold Shard_decode. destruct (read_or _ _ _) as [[buf r2]|]; [|done]. cbn [mbind result_bind].
  destruct (bool_decide _); [done|]. destruct (negb (_ =? 2)); [done|]. destruct (_ && _); [done|]. destruct (_ && _); [done|].
  destruct (decode_files _ _ _) as [[files r3]|] eqn:E; [|done]. cbn [mbind result_bind].
  destruct (decode_cas_blocks _ _ _ _ _) as [[[cas st] r4]|]; [|done]. cbn [mbind result_bind].
  destruct (if 0 <? _ then _ else _) as [[footer r5]|]; [|done]. cbn [mbind result_bind]. intros [= <-].
  by eapply decode_files_starts.
Qed.

Lemma resolve_terms_ok entries : forall size terms size' terms',
  Forall (fun entry => 0 <= fe_ChunkIndexStart entry) entries -> Forall term_ok terms ->
  resolve_terms entries size terms = Some (size', terms') -> Forall term_ok terms'.
Proof.
  induction entries as [|entry entries IH]; intros size terms size' terms' He Ht; cbn [resolve_terms]; [by intros [= <- <-]|].
  apply Forall_cons in He as [He Hes]. destruct (MaxChunksPerXorb <? _); [done|]. apply IH; [done|].
  destruct (Z.ltb_spec (fe_ChunkIndexStart entry) (fe_ChunkIndexEnd entry)); [|done].
  apply Forall_app. split; [done|]. repeat constructor; done.
Qed.

Lemma file_blocks_ok sh h file : Forall starts_ok (s_Files sh) -> file_blocks sh !! h = Some file -> starts_ok file.
Proof.
  unfold file_blocks. intros Hf. revert h file.
  assert (forall files blocks, Forall starts_ok files -> (forall h file, blocks !! h = Some file -> starts_ok file) ->
    forall h file, foldl (fun (blocks : gmap FileHash FileBlock) file => <[fb_FileHash file := file]> blocks) blocks files !! h = Some file -> starts_ok file) as Hall.
  { induction files as [|f files IH]; intros blocks Hfs Hb h file; cbn; [apply Hb|]. apply Forall_cons in Hfs as [Hf1 Hfs].
    apply IH; [done|]. intros h' file'. rewrite lookup_insert_Some. intros [[_ <-]|[_ ?]]; [done|by eapply Hb]. }
  intros h file. apply Hall; [done|]. intros ? ?. by rewrite lookup_empty.
Qed.

Lemma resolve_file_ok blocks fileHash :
  (forall h file, blocks !! h = Some file -> starts_ok file) ->
  rv_fileHash (resolve_file blocks fileHash) = fileHash /\ Forall term_ok (rv_terms (resolve_file blocks fileHash)).
Proof.
  intros Hb. unfold resolve_file. destruct (parseHash fileHash) as [want|]; [|done].
  destruct (blocks !! want) as [file|] eqn:Hf; [|done]. destruct (resolve_terms _ _ _) as [[size terms]|] eqn:E; [|done].
  split; [done|]. eapply resolve_terms_ok; [by eapply Hb| |exact E]. constructor.
Qed.

(** ** Grouping by content *)

Definition sha_of (et : FileListEntry * list chunkRange) : gostring := le_SHA256 et.1.

(** The digests that group files, one per entry that has one. *)
Definition digests (shas : list gostring) : list gostring := filter (fun sha => sha <> []) shas.

Definition hashes_of (entries : list FileListEntry) : list gostring := concat (map le_FileHashes entries).

Record listing_ok (st : listing) : Prop := {
  lo_index : forall sha i, st.2 !! sha = Some i -> exists et, st.1 !! i = Some et /\ sha_of et = sha;
  lo_indexed : forall sha, sha <> [] -> sha ∈ map sha_of st.1 -> is_Some (st.2 !! sha);
  lo_digests : NoDup (digests (map sha_of st.1));
  lo_entries : Forall (fun et => Forall term_ok et.2 /\ le_FileHashes et.1 <> []) st.1;
}.

Lemma hashes_of_snoc entries entry : hashes_of (entries ++ [entry]) = hashes_of entries ++ le_FileHashes entry.
Proof. unfold hashes_of. rewrite map_app, concat_app. cbn. by rewrite app_nil_r. Qed.

(** A new entry, with a digest that is new or none. *)
Lemma listing_snoc entries by_ et by' :
  listing_ok (entries, by_) -> Forall term_ok et.2 -> le_FileHashes et.1 <> [] ->
  (sha_of et = [] /\ by' = by_ \/ sha_of et <> [] /\ by_ !! sha_of et = None /\ by' = <[sha_of et := length entries]> by_) ->
  listing_ok (entries ++ [et], by').
Proof.
  intros [I1 I2 I3 I4] Ht Hne Hby. cbn in *. constructor; cbn.
  - assert (forall sha i, by_ !! sha = Some i -> exists et0, (entries ++ [et]) !! i = Some et0 /\ sha_of et0 = sha) as Hold.
    { intros sha i (et0 & He & Hs)%I1. exists et0. split; [by apply lookup_app_l_Some|done]. }
    destruct Hby as [[_ ->]|(_ & _ & ->)]; [done|]. intros sha i. rewrite lookup_insert_Some.
    intros [[<- <-]|[_ Hi]]; [exists et; split; [by apply list_lookup_middle|done]|by apply Hold].
  - intros sha Hsha. rewrite map_app, elem_of_app. cbn. rewrite list_elem_of_singleton.
    destruct Hby as [[He ->]|(He & _ & ->)].
    + intros [Hin| ->]; [by apply I2|done].
    + intros [Hin| ->]; [|by rewrite lookup_insert_eq]. apply I2 in Hin as [i Hi]; [|done].
      destruct (decide (sha = sha_of et)) as [->|]; [by rewrite lookup_insert_eq|rewrite lookup_insert_ne by done; by exists i].
  - unfold digests in *. rewrite map_app, filter_app. cbn [map]. rewrite filter_cons, filter_nil.
    destruct Hby as [[He _]|(He & Hn & _)].
    + rewrite decide_False by tauto. by rewrite app_nil_r.
    + rewrite decide_True by done. apply NoDup_app. split; [done|]. split; [|apply NoDup_singleton].
      intros sha [_ Hin]%list_elem_of_filter ->%list_elem_of_singleton. apply I2 in Hin as [i Hi]; congruence.
  - apply Forall_app. split; [done|]. by repeat constructor.
Qed.

Lemma hashes_of_alter entries i et rf :
  entries !! i = Some et ->
  hashes_of (alter (add_hash rf) i entries).*1 ≡ₚ hashes_of entries.*1 ++ [rv_fileHash rf] /\
  map sha_of (alter (add_hash rf) i entries) = map sha_of entries.
Proof.
  revert i. induction entries as [|et0 entries IH]; intros [|i] Hi; try done; cbn in Hi.
  - injection Hi as ->. destruct et as [entry terms]. split; [|done]. unfold hashes_of. cbn.
    rewrite <- !app_assoc. apply Permutation_app_head, Permutation_app_comm.
  - destruct (IH i Hi) as [Hp Hs]. cbn. split; [|by f_equal]. unfold hashes_of in *. cbn. rewrite <- app_assoc. by apply Permutation_app_head.
Qed.

(** One file is added to the entry of its content or becomes one of its own. *)
Lemma add_file_spec st rf :
  listing_ok st -> Forall term_ok (rv_terms rf) ->
  listing_ok (add_file st rf) /\ hashes_of (add_file st rf).1.*1 ≡ₚ hashes_of st.1.*1 ++ [rv_fileHash rf].
Proof.
  destruct st as [entries by_]. intros I Ht. unfold add_file.
  assert (forall et by', le_FileHashes et.1 = [rv_fileHash rf] -> Forall term_ok et.2 ->
    (sha_of et = [] /\ by' = by_ \/ sha_of et <> [] /\ by_ !! sha_of et = None /\ by' = <[sha_of et := length entries]> by_) ->
    listing_ok (entries ++ [et], by') /\ hashes_of (entries ++ [et]).*1 ≡ₚ hashes_of entries.*1 ++ [rv_fileHash rf]) as Hnew.
  { intros et by' Hf Hte Hby. split; [eapply listing_snoc; [done|done|by rewrite Hf|done]|].
    rewrite fmap_app. cbn. by rewrite hashes_of_snoc, Hf. }
  destruct (rv_missing rf); [apply Hnew; [done|constructor|by left]|].
  case_bool_decide as Hsha; [apply Hnew; [done|done|by left]|].
  destruct (by_ !! rv_sha rf) as [i|] eqn:Hi; [|apply Hnew; [done|done|by right]].
  destruct (lo_index _ I _ _ Hi) as (et & He & Hse). cbn in He.
  destruct (hashes_of_alter entries i et rf He) as [Hp Hm]. split; [|done].
  destruct I as [I1 I2 I3 I4]. cbn in *. constructor; cbn; rewrite ?Hm; try done.
  - intros sha j (et' & He' & <-)%I1. destruct (decide (j = i)) as [->|Hne].
    + exists (add_hash rf et'). rewrite list_lookup_alter_eq, He'. by destruct et'.
    + exists et'. by rewrite list_lookup_alter_ne.
  - apply Forall_alter; [done|]. intros et' He' [Hto Hne]. destruct et' as [entry terms]. cbn in *. split.
    + by apply Forall_app.
    + by destruct (le_FileHashes entry).
Qed.

Lemma add_files_spec rfs : forall st,
  listing_ok st -> Forall (fun rf => Forall term_ok (rv_terms rf)) rfs ->
  listing_ok (foldl add_file st rfs) /\ hashes_of (foldl add_file st rfs).1.*1 ≡ₚ hashes_of st.1.*1 ++ map rv_fileHash rfs.
Proof.
  induction rfs as [|rf rfs IH]; intros st I Ht; cbn [foldl map]; [by rewrite app_nil_r|].
  apply Forall_cons in Ht as [Ht Hts]. destruct (add_file_spec st rf I Ht) as [I1 Hp1].
  destruct (IH _ I1 Hts) as [I2 Hp2]. split; [done|]. by rewrite Hp2, Hp1, <- app_assoc.
Qed.

(** What an entry says of a resolved file it lists: a file without a digest has
    an entry of its own. *)
Definition says_of (entry : FileListEntry) (rf : resolvedFile) : Prop :=
  le_Missing entry = rv_missing rf /\ le_SHA256 entry = rv_sha rf /\
  (rv_sha rf = [] -> le_FileHashes entry = [rv_fileHash rf] /\ le_OriginalSize entry = rv_size rf).

(** Every hash of an entry is a file it speaks of, and its size is one's. *)
Definition placed (rfs : list resolvedFile) (entry : FileListEntry) : Prop :=
  (forall name, name ∈ le_FileHashes entry -> exists rf, rf ∈ rfs /\ rv_fileHash rf = name /\ says_of entry rf) /\
  exists rf, rf ∈ rfs /\ rv_fileHash rf ∈ le_FileHashes entry /\ le_OriginalSize entry = rv_size rf.

(** A missing file has neither a digest nor a size. *)
Definition missing_ok (rf : resolvedFile) : Prop := rv_missing rf = true -> rv_sha rf = [] /\ rv_size rf = 0.

Lemma placed_more rfs rfs' entry : rfs ⊆ rfs' -> placed rfs entry -> placed rfs' entry.
Proof.
  intros Hsub [H1 (rf & Hin & H2)]. split; [|by exists rf; split; [apply Hsub|]].
  intros name (rf' & Hin' & H')%H1. exists rf'. by split; [apply Hsub|].
Qed.

Lemma placed_own rfs rf entry :
  rf ∈ rfs -> le_FileHashes entry = [rv_fileHash rf] -> le_Missing entry = rv_missing rf -> le_SHA256 entry = rv_sha rf ->
  le_OriginalSize entry = rv_size rf -> placed rfs entry.
Proof.
  intros Hin Hf Hm Hs Ho. split; [|exists rf; by rewrite Hf, list_elem_of_singleton].
  intros name. rewrite Hf, list_elem_of_singleton. intros ->. by exists rf.
Qed.

Lemma placed_joins rfs rf et :
  rf ∈ rfs -> placed rfs et.1 -> Forall missing_ok rfs -> rv_missing rf = false -> sha_of et = rv_sha rf -> rv_sha rf <> [] ->
  placed rfs (add_hash rf et).1.
Proof.
  destruct et as [entry terms]. unfold sha_of. cbn [fst add_hash]. intros Hin [H1 (rf0 & Hin0 & Hf0 & Hs0)] Hok Hm Hs Hne.
  destruct (H1 _ Hf0) as (rf1 & Hin1 & _ & Hm1 & Hs1 & _).
  assert (le_Missing entry = false) as Hme.
  { rewrite Hm1. destruct (rv_missing rf1) eqn:E; [|done]. rewrite Forall_forall in Hok. destruct (Hok _ Hin1 E) as [E1 _]. congruence. }
  split; cbn.
  - intros name [Hn| ->%list_elem_of_singleton]%elem_of_app.
    + destruct (H1 _ Hn) as (rf2 & Hin2 & Hf2 & Hm2 & Hs2 & _). exists rf2. split; [done|]. split; [done|].
      split; [done|]. split; [done|]. intros E. congruence.
    + exists rf. split; [done|]. split; [done|]. split; [cbn; congruence|]. by split.
  - exists rf0. split; [done|]. split; [apply elem_of_app; by left|done].
Qed.

Lemma add_file_placed st rfs rf :
  listing_ok st -> Forall missing_ok (rfs ++ [rf]) -> Forall (placed rfs) st.1.*1 -> Forall (placed (rfs ++ [rf])) (add_file st rf).1.*1.
Proof.
  destruct st as [entries by_]. intros I Hok Hp. cbn [fst] in Hp.
  assert (Forall (placed (rfs ++ [rf])) entries.*1) as Hold
    by (eapply Forall_impl; [exact Hp|intros entry; apply placed_more; set_solver]).
  assert (rf ∈ rfs ++ [rf]) as Hin by set_solver.
  assert (forall et, placed (rfs ++ [rf]) et.1 -> Forall (placed (rfs ++ [rf])) (entries ++ [et]).*1) as Hnew
    by (intros et Het; rewrite fmap_app; apply Forall_app; split; [done|by apply Forall_singleton]).
  pose proof Hok as Hok'. apply Forall_app in Hok' as [_ Hrf]. apply Forall_cons in Hrf as [Hrf _]. unfold add_file.
  destruct (rv_missing rf) eqn:Em; [destruct (Hrf Em) as [E1 E2]; apply Hnew; by apply (placed_own _ rf)|].
  case_bool_decide as Hsha; [apply Hnew; by apply (placed_own _ rf)|].
  destruct (by_ !! rv_sha rf) as [i|] eqn:Hi; [|apply Hnew; by apply (placed_own _ rf)].
  destruct (lo_index _ I _ _ Hi) as (et & He & Hse). cbn [fst] in *. rewrite Forall_fmap in Hold |- *.
  apply Forall_alter; [done|]. intros et' He' Hpl. assert (et' = et) as -> by congruence. by apply placed_joins.
Qed.

Lemma add_files_placed rfs : forall rfs0 st,
  listing_ok st -> Forall (fun rf => Forall term_ok (rv_terms rf)) rfs -> Forall missing_ok (rfs0 ++ rfs) ->
  Forall (placed rfs0) st.1.*1 -> Forall (placed (rfs0 ++ rfs)) (foldl add_file st rfs).1.*1.
Proof.
  induction rfs as [|rf rfs IH]; intros rfs0 st I Ht Hok Hp; cbn [foldl]; [by rewrite app_nil_r|].
  apply Forall_cons in Ht as [Ht Hts]. destruct (add_file_spec st rf I Ht) as [I1 _].
  replace (rfs0 ++ rf :: rfs) with ((rfs0 ++ [rf]) ++ rfs) in * by (by rewrite <- app_assoc).
  apply IH; [done..|]. apply add_file_placed; [done| |done]. by apply Forall_app in Hok as [? _].
Qed.

Lemma listing_start : listing_ok ([], ∅).
Proof. constructor; cbn; try constructor; [intros ? ?; by rewrite lookup_empty|set_solver]. Qed.

(** Grouping by shard loses no file. *)
Lemma group_perm (m : gmap gostring (list gostring)) k x :
  concat (map_to_list (<[k := default [] (m !! k) ++ [x]]> m)).*2 ≡ₚ concat (map_to_list m).*2 ++ [x].
Proof.
  destruct (m !! k) as [l|] eqn:Hk; cbn [default].
  - rewrite <- (insert_delete_id m k l Hk) at 2. rewrite <- insert_delete_eq.
    rewrite !map_to_list_insert by (by rewrite lookup_delete_eq). cbn. rewrite <- !app_assoc.
    apply Permutation_app_head, Permutation_app_comm.
  - rewrite map_to_list_insert by done. cbn. apply Permutation_cons_append.
Qed.

(** ** The order of the listing *)

#[local] Instance entry_order_total : Total entry_order.
Proof.
  intros a b. unfold entry_order. destruct (Z.lt_trichotomy (le_OriginalSize b) (le_OriginalSize a)) as [|[E|]]; [auto| |auto].
  rewrite E. destruct (decide (le_SHA256 a = le_SHA256 b)) as [Es|Hne].
  - rewrite Es. destruct (base.total string_le (default [] (head (le_FileHashes a))) (default [] (head (le_FileHashes b)))); [left|right]; auto.
  - destruct (base.total string_le (le_SHA256 a) (le_SHA256 b)); [left|right]; auto 6.
Qed.

Lemma sort_hashes_perm entry : le_FileHashes (sort_hashes entry) ≡ₚ le_FileHashes entry.
Proof. apply merge_sort_Permutation. Qed.

(** Sizes and order change nothing of what an entry says. *)
Lemma placed_final rfs acc entry : placed rfs entry -> placed rfs (sort_hashes (set_sizes acc entry)).
Proof.
  intros [H1 (rf & Hin & Hf & Hs)]. pose proof (sort_hashes_perm (set_sizes acc entry)) as Hp.
  assert (le_FileHashes (set_sizes acc entry) = le_FileHashes entry) as E by (by destruct entry, acc). rewrite E in Hp. split.
  - intros name. rewrite Hp. intros (rf' & Hin' & Hn & Hm & Hsha & Hown)%H1. exists rf'. split; [done|]. split; [done|].
    split; [by destruct entry, acc|]. split; [by destruct entry, acc|]. intros Hne. destruct (Hown Hne) as [Ho ?].
    rewrite Ho in Hp. split; [by apply Permutation_singleton_r|by destruct entry, acc].
  - exists rf. rewrite Hp. split; [done|]. split; [done|]. by destruct entry, acc.
Qed.

Lemma hashes_of_perm l k : l ≡ₚ k -> hashes_of l ≡ₚ hashes_of k.
Proof. intros H. unfold hashes_of. by rewrite H. Qed.

Lemma hashes_of_map f entries : (forall entry, le_FileHashes (f entry) ≡ₚ le_FileHashes entry) ->
  hashes_of (map f entries) ≡ₚ hashes_of entries.
Proof. intros Hf. unfold hashes_of. induction entries as [|entry entries IH]; [done|]. cbn. by rewrite Hf, IH. Qed.

Lemma entries_len entries : Forall (fun entry => le_FileHashes entry <> []) entries -> len entries <= len (hashes_of entries).
Proof.
  induction 1 as [|entry entries Hne _ IH]; [done|]. unfold hashes_of in *. cbn. rewrite len_cons, len_app.
  assert (0 < len (le_FileHashes entry)); [|lia]. destruct (le_FileHashes entry) as [|fh fhs]; [done|]. rewrite len_cons. pose proof (len_nonneg fhs). lia.
Qed.

Lemma NoDup_concat_lookup {A} (ls : list (list A)) i j a b x :
  NoDup (concat ls) -> ls !! i = Some a -> ls !! j = Some b -> x ∈ a -> x ∈ b -> i = j.
Proof.
  intros HN Hi Hj Ha Hb. destruct (decide (i = j)) as [|Hne]; [done|]. exfalso.
  assert (forall i j a b, (i < j)%nat -> ls !! i = Some a -> ls !! j = Some b -> x ∈ a -> x ∈ b -> False) as Hlt.
  { clear -HN. intros i j a b Hij Hi Hj Ha Hb. rewrite <- (take_drop_middle ls i a Hi), concat_app in HN. cbn in HN.
    apply NoDup_app in HN as (_ & _ & HN). apply NoDup_app in HN as (_ & Hd & _). apply (Hd x Ha).
    apply list_elem_of_In, in_concat. exists b. split; [|by apply list_elem_of_In]. apply list_elem_of_In, list_elem_of_lookup.
    exists (j - Datatypes.S i)%nat. rewrite lookup_drop. by replace (Datatypes.S i + (j - Datatypes.S i))%nat with j by lia. }
  destruct (Nat.lt_gt_cases i j) as [[?|?] _]; [done|by eapply (Hlt i j)|by eapply (Hlt j i)].
Qed.

Lemma NoDup_filter_lookup {A} (P : A -> Prop) `{!forall x, Decision (P x)} l i j x :
  NoDup (filter P l) -> P x -> l !! i = Some x -> l !! j = Some x -> i = j.
Proof.
  intros HN HP Hi Hj. destruct (decide (i = j)) as [|Hne]; [done|]. exfalso.
  assert (forall i j, (i < j)%nat -> l !! i = Some x -> l !! j = Some x -> False) as Hlt.
  { clear -HN HP. intros i j Hij Hi Hj. rewrite <- (take_drop_middle l i x Hi), filter_app, filter_cons, decide_True in HN by done.
    apply NoDup_app in HN as (_ & _ & HN). apply NoDup_cons in HN as [HN _]. apply HN, list_elem_of_filter. split; [done|].
    apply list_elem_of_lookup. exists (j - Datatypes.S i)%nat. rewrite lookup_drop.
    by replace (Datatypes.S i + (j - Datatypes.S i))%nat with j by lia. }
  destruct (Nat.lt_gt_cases i j) as [[?|?] _]; [done|by eapply (Hlt i j)|by eapply (Hlt j i)].
Qed.

(** ** The in-memory backend *)

Section memory.
Context {B3 : Blake3} {L : Lz4} {P : ChunkBufs}.

Lemma walk_groups entries : forall m s,
  (forall n, env_err (m_env s) n = None) ->
  exists m' s', walk_entries o_data group_file entries m s = (Ok m', s') /\ m_objects s' = m_objects s /\
    concat (map_to_list m').*2 ≡ₚ concat (map_to_list m).*2 ++ entries.*1 /\
    forall k names n, m' !! k = Some names -> n ∈ names -> n ∈ default [] (m !! k) \/ exists o, (n, o) ∈ entries /\ o_data o = k.
Proof.
  induction entries as [|[n o] entries IH]; intros m s Henv; cbn [walk_entries].
  { exists m, s. split; [done|]. split; [done|]. split; [by rewrite app_nil_r|]. intros k names n -> Hin. by left. }
  unfold mbind, prog_bind, mem_ctx_Err. rewrite Henv. unfold group_file. cbn [mret prog_ret].
  destruct (IH (<[o_data o := default [] (m !! o_data o) ++ [n]]> m) (tick s) Henv) as (m' & s' & E & Ho & Hp & Hw).
  exists m', s'. split; [exact E|]. split; [done|]. split; [by rewrite Hp, group_perm, <- app_assoc|].
  intros k names x Hk Hx. destruct (Hw k names x Hk Hx) as [Hd|(o' & Ho' & Hk')]; [|right; exists o'; by split; [right|]].
  destruct (decide (k = o_data o)) as [->|Hne].
  - rewrite lookup_insert_eq in Hd. apply elem_of_app in Hd as [|Hd]; [by left|]. apply list_elem_of_singleton in Hd as ->.
    right. exists o. by split; [left|].
  - rewrite lookup_insert_ne in Hd by done. by left.
Qed.

Definition shards_decode (s : memory) : Prop :=
  forall n o, mem_at s kShards n = Some o -> exists sh, decodes o sh.

(** *** What is stored under a file's index entry *)

Definition shard_at (s : memory) (shardHash : gostring) : option Shard :=
  match mem_at s kShards shardHash with
  | Some o => match DecodeStoredShard (file_reader (o_data o)) with Ok sh => Some sh | Err _ => None end
  | None => None
  end.

(** The block of the file in a shard: the last one with its hash. *)
Definition block_in (sh : Shard) (name : gostring) : option FileBlock :=
  match parseHash name with
  | Ok h => last (filter (fun fb => fb_FileHash fb = h) (s_Files sh))
  | Err _ => None
  end.

(** Its chunk ranges are within what a xorb can hold. *)
Definition in_bounds (fb : FileBlock) : Prop := Forall (fun entry => fe_ChunkIndexEnd entry <= MaxChunksPerXorb) (fb_Entries fb).

(** The block that the listing of a shard shows of a file; [None] is a missing one. *)
Definition listed_in (osh : option Shard) (name : gostring) : option FileBlock :=
  match osh ≫= (fun sh => block_in sh name) with
  | Some fb => if decide (in_bounds fb) then Some fb else None
  | None => None
  end.

Definition listed (s : memory) (name : gostring) : option FileBlock :=
  match mem_at s kFiles name with Some o => listed_in (shard_at s (o_data o)) name | None => None end.

(** The SHA-256 digest of a file's content, where its block records one. *)
Definition content_digest (fb : FileBlock) : option SHA256Hash :=
  match fb_MetadataExt fb with
  | Some md => if decide (me_SHA256Hash md = zeroHash) then None else Some (me_SHA256Hash md)
  | None => None
  end.

Definition digest_at (s : memory) (name : gostring) : option SHA256Hash := listed s name ≫= content_digest.

Definition file_size (fb : FileBlock) : Z := u64 (sum (map fe_UnpackedSegBytes (fb_Entries fb))).

Definition size_at (s : memory) (name : gostring) : Z := match listed s name with Some fb => file_size fb | None => 0 end.

(** What an entry must say of a file it lists. *)
Definition describes (s : memory) (entry : FileListEntry) (name : gostring) : Prop :=
  le_Missing entry = bool_decide (listed s name = None) /\
  match digest_at s name with
  | Some digest => le_SHA256 entry = SHA256Hash_String digest
  | None => le_SHA256 entry = [] /\ le_FileHashes entry = [name] /\ le_OriginalSize entry = size_at s name
  end.

Lemma file_blocks_last sh h : file_blocks sh !! h = last (filter (fun fb => fb_FileHash fb = h) (s_Files sh)).
Proof.
  unfold file_blocks. induction (s_Files sh) as [|fb files IH] using rev_ind; [done|].
  rewrite foldl_app, filter_app, last_app. cbn [foldl]. rewrite filter_cons, filter_nil.
  destruct (decide (fb_FileHash fb = h)) as [<-|Hne]; [by rewrite lookup_insert_eq|by rewrite lookup_insert_ne].
Qed.

Lemma resolve_terms_size entries : forall size terms,
  match resolve_terms entries (u64 size) terms with
  | Some (size', _) => Forall (fun entry => fe_ChunkIndexEnd entry <= MaxChunksPerXorb) entries /\
      size' = u64 (size + sum (map fe_UnpackedSegBytes entries))
  | None => ~ Forall (fun entry => fe_ChunkIndexEnd entry <= MaxChunksPerXorb) entries
  end.
Proof.
  induction entries as [|entry entries IH]; intros size terms; cbn [resolve_terms map].
  { cbn. by rewrite Z.add_0_r. }
  destruct (Z.ltb_spec MaxChunksPerXorb (fe_ChunkIndexEnd entry)) as [Hlt|Hle]; [intros [? _]%Forall_cons; lia|].
  set (terms' := if _ <? _ then _ else _).
  assert (u64 (u64 size + fe_UnpackedSegBytes entry) = u64 (size + fe_UnpackedSegBytes entry)) as -> by apply Zplus_mod_idemp_l.
  specialize (IH (size + fe_UnpackedSegBytes entry) terms'). destruct (resolve_terms _ _ _) as [[size' t']|].
  - destruct IH as [HF ->]. split; [by constructor|]. cbn. f_equal. unfold sum. lia.
  - by intros [_ ?]%Forall_cons.
Qed.

Lemma file_sha_digest fb : file_sha fb = match content_digest fb with Some digest => SHA256Hash_String digest | None => [] end.
Proof. unfold file_sha, content_digest. destruct (fb_MetadataExt fb) as [md|]; [|done]. case_bool_decide; by case_decide. Qed.

(** A resolved file shows what is stored. *)
Lemma resolve_file_listed sh name :
  resolve_file (match sh with Some sh => file_blocks sh | None => ∅ end) name =
    match listed_in sh name with
    | None => missing_file name
    | Some fb => MkResolved name (file_sha fb) (file_size fb)
        (rv_terms (resolve_file (match sh with Some sh => file_blocks sh | None => ∅ end) name)) false
    end.
Proof.
  unfold resolve_file, listed_in, block_in. destruct sh as [sh|]; cbn [mbind option_bind].
  2: { destruct (parseHash name); [by rewrite lookup_empty|done]. }
  destruct (parseHash name) as [h|]; [|done]. rewrite file_blocks_last. destruct (last _) as [fb|]; [|done].
  pose proof (resolve_terms_size (fb_Entries fb) 0 []) as Hs. change (u64 0) with 0 in Hs.
  destruct (resolve_terms _ _ _) as [[size terms]|].
  - destruct Hs as [HF ->]. rewrite decide_True by done. done.
  - by rewrite decide_False.
Qed.

Definition blocks_at (s : memory) (shardHash : gostring) : gmap FileHash FileBlock :=
  match shard_at s shardHash with Some sh => file_blocks sh | None => ∅ end.

(** A file resolved against the shard its index entry names. *)
Definition resolved_from (s : memory) (groups : list (gostring * list gostring)) (rf : resolvedFile) : Prop :=
  exists k names, (k, names) ∈ groups /\ rv_fileHash rf ∈ names /\ rf = resolve_file (blocks_at s k) (rv_fileHash rf).

Lemma resolve_groups_ok groups s :
  shards_decode s ->
  exists resolved, resolve_groups groups s = (Ok resolved, s) /\
    map rv_fileHash (concat resolved) = concat groups.*2 /\
    Forall (fun rf => Forall term_ok (rv_terms rf)) (concat resolved) /\ Forall (resolved_from s groups) (concat resolved).
Proof.
  intros Hd. induction groups as [|[shardHash fileHashes] groups IH]; cbn [resolve_groups]; [by exists []|].
  destruct IH as (rest & E & Hn & Ht & Hf).
  assert (exists blocks, resolveShardFiles shardHash fileHashes s = (Ok (map (resolve_file blocks) fileHashes), s) /\
    (forall h file, blocks !! h = Some file -> starts_ok file) /\ blocks = blocks_at s shardHash) as (blocks & Er & Hb & Hbs).
  { unfold resolveShardFiles, catch. cbn [GetShardByHash memory_storage]. unfold loadShard.
    change (mem_get kShards shardHash s) with (mem_at s kShards shardHash). unfold blocks_at, shard_at.
    destruct (mem_at s kShards shardHash) as [o|] eqn:Ho.
    - destruct (Hd _ _ Ho) as [sh Hsh]. pose proof Hsh as Hdec. unfold decodes in Hdec. rewrite Hdec. cbn [mbind result_bind].
      eexists. split; [done|]. split; [|by destruct (s_Footer sh)].
      intros h file. apply file_blocks_ok. apply decoded_starts in Hdec. by destruct (s_Footer sh).
    - exists ∅. split; [done|]. split; [|done]. intros h file. by rewrite lookup_empty. }
  rewrite (prog_bind_Ok _ _ _ _ _ Er), (prog_bind_Ok _ _ _ _ _ E). eexists. split; [done|].
  cbn [concat fmap list_fmap snd]. rewrite map_app, Hn. split; [|split].
  - f_equal. rewrite map_map. erewrite map_ext; [apply map_id|]. intros f. by destruct (resolve_file_ok blocks f Hb).
  - apply Forall_app. split; [|done]. apply Forall_map, Forall_true. intros f. by destruct (resolve_file_ok blocks f Hb).
  - apply Forall_app. split; [|eapply Forall_impl; [exact Hf|intros rf (k & names & Hk & Hin & Hrf); exists k, names; by split; [right|]]].
    apply Forall_map, Forall_forall. intros f Hin. exists shardHash, fileHashes. split; [left|].
    destruct (resolve_file_ok blocks f Hb) as [-> _]. by rewrite <- Hbs.
Qed.

(** *** From the resolved files to what is stored *)

Lemma listed_same s s' name : same mem_at s s' -> listed s' name = listed s name.
Proof. intros H. unfold listed, shard_at. rewrite H. destruct (mem_at s kFiles name) as [o|]; [by rewrite H|done]. Qed.

Definition resolved_as (s : memory) (rf : resolvedFile) : Prop :=
  rv_missing rf = bool_decide (listed s (rv_fileHash rf) = None) /\
  rv_sha rf = match digest_at s (rv_fileHash rf) with Some digest => SHA256Hash_String digest | None => [] end /\
  rv_size rf = size_at s (rv_fileHash rf).

Lemma resolved_from_as s groups rf :
  (forall k names n, (k, names) ∈ groups -> n ∈ names -> exists o, mem_at s kFiles n = Some o /\ o_data o = k) ->
  resolved_from s groups rf -> resolved_as s rf.
Proof.
  intros Hg (k & names & Hk & Hin & Hrf). destruct (Hg _ _ _ Hk Hin) as (o & Ho & <-).
  unfold resolved_as, digest_at, size_at, listed. rewrite Ho. unfold blocks_at in Hrf. rewrite resolve_file_listed in Hrf.
  destruct (listed_in _ _) as [fb|]; rewrite Hrf; cbn; [|done]. by rewrite file_sha_digest.
Qed.

Lemma resolved_as_same s s' rf : same mem_at s s' -> resolved_as s' rf -> resolved_as s rf.
Proof. intros H. unfold resolved_as, digest_at, size_at. by rewrite !(listed_same s s'). Qed.

Lemma resolved_as_missing s rf : resolved_as s rf -> missing_ok rf.
Proof.
  intros (Hm & Hs & Hz) E. rewrite Hm in E. apply bool_decide_eq_true in E. rewrite Hs, Hz. unfold digest_at, size_at. by rewrite E.
Qed.

Lemma SHA256Hash_String_inj d d' : SHA256Hash_String d = SHA256Hash_String d' -> d = d'.
Proof.
  unfold SHA256Hash_String. intros E. apply (f_equal hex_decode) in E. rewrite !hex_decode_encode in E. injection E as E.
  by apply vec_to_list_inj2 in E.
Qed.

Lemma SHA256Hash_String_nonempty d : SHA256Hash_String d <> [].
Proof. intros E. apply (f_equal length) in E. unfold SHA256Hash_String in E. by rewrite length_hex_encode, length_vec_to_list in E. Qed.

Lemma placed_describes s rfs entry :
  Forall (resolved_as s) rfs -> placed rfs entry ->
  (forall name, name ∈ le_FileHashes entry -> describes s entry name) /\
  exists name, name ∈ le_FileHashes entry /\ le_OriginalSize entry = size_at s name.
Proof.
  rewrite Forall_forall. intros HF [H1 (rf & Hin & Hn & Hs)]. split.
  - intros name Hname. destruct (H1 _ Hname) as (rf' & Hin' & <- & Hm & Hsha & Hown). destruct (HF _ Hin') as (R1 & R2 & R3).
    split; [congruence|]. destruct (digest_at s (rv_fileHash rf')); [congruence|]. destruct (Hown R2) as [-> ->]. by rewrite Hsha.
  - exists (rv_fileHash rf). split; [done|]. rewrite Hs. by apply (HF _ Hin).
Qed.

(** One entry per content. *)
Definition one_per_content (s : memory) (l : list FileListEntry) : Prop :=
  forall i j ei ej ni nj, l !! i = Some ei -> l !! j = Some ej -> ni ∈ le_FileHashes ei -> nj ∈ le_FileHashes ej ->
    i = j <-> ni = nj \/ exists digest, digest_at s ni = Some digest /\ digest_at s nj = Some digest.

Lemma described_apart s l :
  NoDup (hashes_of l) -> NoDup (digests (map le_SHA256 l)) ->
  (forall entry name, entry ∈ l -> name ∈ le_FileHashes entry -> describes s entry name) -> one_per_content s l.
Proof.
  intros HN HD Hdes i j ei ej ni nj Hi Hj Hni Hnj.
  destruct (Hdes ei ni) as [_ Di]; [by eapply list_elem_of_lookup_2|done|].
  destruct (Hdes ej nj) as [_ Dj]; [by eapply list_elem_of_lookup_2|done|]. split.
  - intros ->. assert (ej = ei) as -> by congruence.
    destruct (digest_at s ni) as [di|]; [|left; destruct Di as (_ & E & _); rewrite E in Hnj; by apply list_elem_of_singleton in Hnj].
    destruct (digest_at s nj) as [dj|]; [|left; destruct Dj as (_ & E & _); rewrite E in Hni; by apply list_elem_of_singleton in Hni].
    right. exists di. split; [done|]. f_equal. apply SHA256Hash_String_inj. congruence.
  - intros [<-|(d & E1 & E2)].
    + by eapply (NoDup_concat_lookup (map le_FileHashes l)); [done|rewrite list_lookup_fmap, Hi|rewrite list_lookup_fmap, Hj|..].
    + rewrite E1 in Di. rewrite E2 in Dj. eapply (NoDup_filter_lookup (fun sha => sha <> []) (map le_SHA256 l) i j (SHA256Hash_String d)); [done|apply SHA256Hash_String_nonempty|..].
      * rewrite list_lookup_fmap, Hi. cbn. by rewrite Di.
      * rewrite list_lookup_fmap, Hj. cbn. by rewrite Dj.
Qed.

(** The offset tables of the stored xorbs. *)
Definition offsets_readable (s : memory) : Prop :=
  forall n o, mem_at s kXorbs n = Some o -> len (o_data o) < 2 ^ 61 /\ exists t, ReadXorbChunkOffsets (o_data o) = Ok t.

Lemma mem_tables s : offsets_readable s -> tables_of (mem_offs s) s /\ forall h, grows 0 (mem_offs s h).
Proof.
  intros Hr. split; [|intros h; apply mem_offs_ok; intros n o Ho; by apply (Hr n)].
  intros h. unfold mem_offs. cbn [GetXorbChunkOffsets storage_xorbs memory_storage memory_xorbs]. unfold mem_GetXorbChunkOffsets.
  change (mem_get kXorbs (formatHash h) s) with (mem_at s kXorbs (formatHash h)).
  destruct (mem_at s kXorbs (formatHash h)) as [o|] eqn:Ho.
  - destruct (Hr _ _ Ho) as [_ [t Ht]]. left. exists t. by rewrite Ht.
  - right. by exists notFound.
Qed.

(** The final list, of entries placed right. *)
Lemma final_described s rfs entries (acc : FileListEntry * list chunkRange -> sizes) :
  Forall (resolved_as s) rfs -> Forall (placed rfs) entries.*1 ->
  forall entry, entry ∈ merge_sort entry_order (map sort_hashes (map (fun et => set_sizes (acc et) et.1) entries)) ->
    (forall name, name ∈ le_FileHashes entry -> describes s entry name) /\
    exists name, name ∈ le_FileHashes entry /\ le_OriginalSize entry = size_at s name.
Proof.
  intros Has Hpl entry. rewrite merge_sort_Permutation, map_map. intros (et & -> & Hin)%list_elem_of_fmap.
  apply (placed_describes s rfs); [done|]. apply placed_final. rewrite Forall_forall in Hpl. by apply Hpl, list_elem_of_fmap_2.
Qed.

(** The files, resolved and grouped. *)
Lemma grouped_files rangeShards s :
  (forall n, env_err (m_env s) n = None) -> shards_decode s -> (forall m, rangeShards m ≡ₚ map_to_list m) ->
  exists m s1 resolved, WalkFileIndex group_file ∅ s = (Ok m, s1) /\ same mem_at s s1 /\
    resolve_groups (rangeShards m) s1 = (Ok resolved, s1) /\
    let st := foldl add_file ([], ∅) (concat resolved) in
    listing_ok st /\ hashes_of st.1.*1 ≡ₚ (snapshot kFiles s).*1 /\
    Forall (resolved_as s) (concat resolved) /\ Forall (placed (concat resolved)) st.1.*1.
Proof.
  intros Henv Hd Hr1. destruct (walk_groups (snapshot kFiles s) ∅ s Henv) as (m & s1 & E1 & Ho & Hp1 & Hw).
  assert (same mem_at s s1) as Hsame by (intros k n; unfold mem_at, mem_get; by rewrite Ho).
  destruct (resolve_groups_ok (rangeShards m) s1) as (resolved & E2 & Hn & Ht & Hf).
  { intros n o. rewrite Hsame. apply Hd. }
  exists m, s1, resolved. split; [exact E1|]. split; [done|]. split; [done|].
  destruct (add_files_spec (concat resolved) ([], ∅) listing_start Ht) as [I Hp2].
  assert (Forall (resolved_as s) (concat resolved)) as Has.
  { eapply Forall_impl; [exact Hf|]. intros rf Hrf. eapply resolved_as_same; [exact Hsame|]. eapply resolved_from_as; [|exact Hrf].
    intros k names n. rewrite Hr1, elem_of_map_to_list. intros Hk Hin.
    destruct (Hw k names n Hk Hin) as [Hx|(o & Hx & <-)]; [rewrite lookup_empty in Hx; by apply not_elem_of_nil in Hx|].
    exists o. split; [|done]. rewrite Hsame. by apply snapshot_at. }
  split; [done|]. split; [by rewrite Hp2, Hn; cbn; rewrite Hr1, Hp1|]. split; [done|].
  apply (add_files_placed (concat resolved) [] ([], ∅)); [apply listing_start|done| |constructor].
  eapply Forall_impl; [exact Has|]. intros rf. apply resolved_as_missing.
Qed.

(** C29: when its shards decode, its xorbs have offset tables and the context
    is not cancelled, the in-memory backend lists its files, whatever the order
    in which Go walks the maps, without changing what is stored.  Every indexed
    file hash appears exactly once.  The entry it is in has the digest that the
    file's block records, in the shard the index names, is marked missing just
    when that block is missing or out of bounds, and has the size of one of its
    files; a file without a digest has an entry of its own.  Two files are in
    one entry exactly when they have the same digest.  Entries and their hashes
    are sorted. *)
Theorem listing_complete rangeShards rangeXorbs s :
  (forall n, env_err (m_env s) n = None) -> shards_decode s -> offsets_readable s -> len (snapshot kFiles s) < 2 ^ 31 ->
  (forall m, rangeShards m ≡ₚ map_to_list m) -> (forall usage, rangeXorbs usage ≡ₚ (map_to_list usage).*1) ->
  exists l s', ListFiles rangeShards rangeXorbs s = (Ok l, s') /\ same mem_at s s' /\
    hashes_of l ≡ₚ (snapshot kFiles s).*1 /\ NoDup (digests (map le_SHA256 l)) /\
    (forall entry name, entry ∈ l -> name ∈ le_FileHashes entry -> describes s entry name) /\
    (forall entry, entry ∈ l -> exists name, name ∈ le_FileHashes entry /\ le_OriginalSize entry = size_at s name) /\
    one_per_content s l /\
    Sorted entry_order l /\ Forall (fun entry => Sorted string_le (le_FileHashes entry)) l.
Proof.
  intros Henv Hd Hx Hlen Hr1 Hr2. unfold ListFiles.
  destruct (grouped_files rangeShards s Henv Hd Hr1) as (m & s1 & resolved & E1 & Hsame & E2 & I & Hp & Has & Hpl).
  rewrite (prog_bind_Ok _ _ _ _ _ E1), (prog_bind_Ok _ _ _ _ _ E2). clear E1 E2.
  destruct (foldl add_file ([], ∅) (concat resolved)) as [entries by_]. cbn [fst] in *.
  pose proof (lo_entries _ I) as Hent. cbn in Hent.
  destruct (mem_tables s1) as [Htab Hg].
  { intros n o. rewrite Hsame. apply Hx. }
  assert (len entries < 2 ^ 31) as Hle.
  { assert (len entries.*1 <= len (hashes_of entries.*1)) as Hb by (apply entries_len, Forall_fmap; eapply Forall_impl; [exact Hent|by intros ? [_ ?]]).
    revert Hb. unfold len in *. rewrite Hp, !length_fmap. lia. }
  assert (Forall (fun et => Forall term_ok et.2) entries) as Hto by (eapply Forall_impl; [exact Hent|by intros ? [? _]]).
  pose proof (computeStoredSizes_ok rangeXorbs (mem_offs s1) entries s1 Hto Hle Hr2 Htab Hg) as E3.
  rewrite (prog_bind_Ok _ _ _ _ _ E3). eexists _, s1. split; [done|]. split; [done|].
  pose proof (final_described s _ entries (fun et => entry_sizes (mem_offs s1) (fun h k => ref_count h k entries.*2) et.2) Has Hpl) as Hdes.
  set (sized := map _ entries) in *. assert (hashes_of sized ≡ₚ hashes_of entries.*1 /\ map le_SHA256 sized = map sha_of entries) as [Hs1 Hs2].
  { subst sized. change entries.*1 with (map fst entries). unfold hashes_of. rewrite !map_map. done. }
  set (l := merge_sort entry_order (map sort_hashes sized)) in *.
  assert (hashes_of l ≡ₚ (snapshot kFiles s).*1) as HL
    by (unfold l; rewrite (hashes_of_perm _ _ (merge_sort_Permutation _ _)), hashes_of_map by apply sort_hashes_perm; by rewrite Hs1).
  assert (NoDup (digests (map le_SHA256 l))) as HD.
  { unfold digests, l. rewrite merge_sort_Permutation, map_map. change (map _ sized) with (map le_SHA256 sized).
    rewrite Hs2. apply (lo_digests _ I). }
  split; [done|]. split; [done|]. split; [intros entry name Hin; by apply Hdes|]. split; [intros entry Hin; by apply Hdes|].
  split; [|split; [apply Sorted_merge_sort, _|]].
  - apply described_apart; [rewrite HL; apply snapshot_NoDup|done|]. intros entry name Hin. by apply Hdes.
  - unfold l. rewrite merge_sort_Permutation. apply Forall_map, Forall_true. intros entry. apply Sorted_merge_sort, _.
Qed.
End memory.

(** ** Witnesses *)

#[local] Instance list_b3 : Blake3 := poly_blake3.
#[local] Instance list_lz4 : Lz4 := rle_lz4.
#[local] Instance list_bufs : ChunkBufs := zero_bufs.

Lemma objects_forall (p : object -> bool) s kind :
  forallb (fun no => p no.2) (map_to_list (default ∅ (m_objects s !! kind))) = true ->
  forall n o, mem_at s kind n = Some o -> p o = true.
Proof.
  intros H n o. rewrite forallb_forall in H. unfold mem_at, mem_get. destruct (m_objects s !! kind) as [m|]; [|done].
  cbn [mbind option_bind]. intros Ho. apply (H (n, o)), list_elem_of_In, elem_of_map_to_list. exact Ho.
Qed.

Lemma offsets_readable_check s :
  forallb (fun no => (len (o_data no.2) <? 2 ^ 61) && is_ok (ReadXorbChunkOffsets (o_data no.2)))
    (map_to_list (default ∅ (m_objects s !! kXorbs))) = true -> offsets_readable s.
Proof.
  intros H n o Ho. apply (objects_forall (fun o => (len (o_data o) <? 2 ^ 61) && is_ok (ReadXorbChunkOffsets (o_data o))) s kXorbs H) in Ho.
  apply andb_prop in Ho as [Hl%Z.ltb_lt Hk]. split; [done|]. destruct (ReadXorbChunkOffsets (o_data o)); [eauto|done].
Qed.

Lemma shards_decode_check s :
  forallb (fun no => is_ok (DecodeStoredShard (file_reader (o_data no.2))))
    (map_to_list (default ∅ (m_objects s !! kShards))) = true -> shards_decode s.
Proof.
  intros H n o Ho. apply (objects_forall (fun o => is_ok (DecodeStoredShard (file_reader (o_data o)))) s kShards H) in Ho.
  unfold decodes. destruct (DecodeStoredShard _); [eauto|done].
Qed.

(** Two entries that share the second chunk of a stored xorb, one of them with
    a term on a xorb that is not stored. *)
Definition two_entries : list (FileListEntry * list chunkRange) :=
  let entry := MkFileListEntry [] [str "f"] 0 0 0 false in
  [(entry, [MkTermRange wit_root 0 2; MkTermRange zeroHash 0 1]); (entry, [MkTermRange wit_root 1 2])].

Definition walk_order {A} (m : gmap XorbHash A) : list XorbHash := (map_to_list m).*1.

Definition own_shared (r : result (list FileListEntry)) : list (Z * Z) :=
  match r with Ok l => map (fun entry => (le_UniqueSize entry, le_SharedSize entry)) l | Err _ => [] end.

Definition stored_file : memory := (PutShard one_file one_xorb).2.

Lemma one_xorb_readable : offsets_readable one_xorb.
Proof. apply offsets_readable_check. vm_compute. reflexivity. Qed.

Lemma stored_sizes_witness :
  own_shared (computeStoredSizes walk_order two_entries one_xorb).1 = [(9, 10); (0, 10)] /\
  computeStoredSizes walk_order two_entries one_xorb =
    (Ok (map (fun et => set_sizes (entry_sizes (mem_offs one_xorb) (fun h k => ref_count h k two_entries.*2) et.2) et.1)
           two_entries), one_xorb).
Proof.
  split; [vm_compute; reflexivity|]. apply (stored_sizes walk_order (mem_offs one_xorb) two_entries one_xorb).
  - repeat constructor; cbn; lia.
  - vm_compute. reflexivity.
  - intros usage. reflexivity.
  - exact (proj1 (mem_tables one_xorb one_xorb_readable)).
  - exact (proj2 (mem_tables one_xorb one_xorb_readable)).
Defined.

Lemma listing_complete_witness :
  length (snapshot kFiles stored_file) = 1%nat /\ length (omap (digest_at stored_file) (snapshot kFiles stored_file).*1) = 1%nat /\
  exists l s', ListFiles map_to_list walk_order stored_file = (Ok l, s') /\ same mem_at stored_file s' /\
    hashes_of l ≡ₚ (snapshot kFiles stored_file).*1 /\ NoDup (digests (map le_SHA256 l)) /\
    (forall entry name, entry ∈ l -> name ∈ le_FileHashes entry -> describes stored_file entry name) /\
    (forall entry, entry ∈ l -> exists name, name ∈ le_FileHashes entry /\ le_OriginalSize entry = size_at stored_file name) /\
    one_per_content stored_file l /\
    Sorted entry_order l /\ Forall (fun entry => Sorted string_le (le_FileHashes entry)) l.
Proof.
  split; [vm_compute; reflexivity|]. split; [vm_compute; reflexivity|].
  assert (env_err (m_env stored_file) = env_err quiet_env) as E by (vm_compute; reflexivity).
  apply (listing_complete map_to_list walk_order stored_file).
  - intros n. rewrite E. reflexivity.
  - apply shards_decode_check. vm_compute. reflexivity.
  - apply offsets_readable_check. vm_compute. reflexivity.
  - vm_compute. reflexivity.
  - intros m. reflexivity.
  - intros usage. reflexivity.
Defined.
