(* ===== verification/Auth.v ===== *)
(** * Authorization: [auth/auth.go], [auth/issuer.go]

    Grants, the check routes make before they act, and the issuer of
    HMAC-SHA256 tokens.  HMAC, base64 and JSON are those of the standard
    library.  Proved: a signed token conveys its grant until it expires and
    nothing afterwards, a token that is accepted carries the MAC of its payload
    under the issuer's secret, and a request with a signed token is allowed
    exactly what the grant covers. *)

From Stdlib Require Import ZArith Lia Strings.Byte Strings.String.
From S2P Require Import Prelude Hash Json Sha256 Prog Storage FileSystem Plan.

(** ** Standard library *)

(** [hmac.New(sha256.New, key)] over the whole message. *)
Definition xor_pad (v : Z) (key : list byte) : list byte := map (fun b => z2b (Z.lxor (b2z b) v)) key.

Definition hmac_sha256 (key msg : list byte) : list byte :=
  let key := if 64 <? len key then vec_to_list (Sum256 key) else key in
  let key := key ++ replicate (64 - length key) Byte.x00 in
  Sum256 (xor_pad 92 key ++ vec_to_list (Sum256 (xor_pad 54 key ++ msg))).

(** [base64.RawURLEncoding]. *)
Definition b64_char (v : Z) : byte :=
  z2b (if v <? 26 then 65 + v else if v <? 52 then 71 + v else if v <? 62 then v - 4 else if v =? 62 then 45 else 95).

Definition b64_val (c : byte) : option Z :=
  let v := b2z c in
  if (65 <=? v) && (v <=? 90) then Some (v - 65)
  else if (97 <=? v) && (v <=? 122) then Some (v - 71)
  else if (48 <=? v) && (v <=? 57) then Some (v + 4)
  else if v =? 45 then Some 62
  else if v =? 95 then Some 63
  else None.

(** The four sextets of three bytes. *)
Definition sextet1 (x : byte) : byte := b64_char (b2z x / 4).
Definition sextet2 (x y : byte) : byte := b64_char (b2z x mod 4 * 16 + b2z y / 16).
Definition sextet3 (y z : byte) : byte := b64_char (b2z y mod 16 * 4 + b2z z / 64).
Definition sextet4 (z : byte) : byte := b64_char (b2z z mod 64).

Fixpoint EncodeToString (b : list byte) : gostring :=
  match b with
  | [] => []
  | [x] => [sextet1 x; sextet2 x Byte.x00]
  | [x; y] => [sextet1 x; sextet2 x y; sextet3 y Byte.x00]
  | x :: y :: z :: b => sextet1 x :: sextet2 x y :: sextet3 y z :: sextet4 z :: EncodeToString b
  end.

(** The bytes of sextets. *)
Definition octet1 (a b : Z) : byte := z2b (a * 4 + b / 16).
Definition octet2 (b c : Z) : byte := z2b (b mod 16 * 16 + c / 4).
Definition octet3 (c d : Z) : byte := z2b (c mod 4 * 64 + d).

(** The quanta; the bits past the last byte are not looked at. *)
Fixpoint decode_quanta (s : gostring) : option (list byte) :=
  match s with
  | [] => Some []
  | [_] => None
  | [a; b] =>
      match b64_val a, b64_val b with
      | Some a, Some b => Some [octet1 a b]
      | _, _ => None
      end
  | [a; b; c] =>
      match b64_val a, b64_val b, b64_val c with
      | Some a, Some b, Some c => Some [octet1 a b; octet2 b c]
      | _, _, _ => None
      end
  | a :: b :: c :: d :: s =>
      match b64_val a, b64_val b, b64_val c, b64_val d, decode_quanta s with
      | Some a, Some b, Some c, Some d, Some l => Some (octet1 a b :: octet2 b c :: octet3 c d :: l)
      | _, _, _, _, _ => None
      end
  end.

(** [DecodeString] skips line ends. *)
Definition DecodeString (s : gostring) : option (list byte) :=
  decode_quanta (filter (fun c => c <> z2b 10 /\ c <> z2b 13) s).

(** ** [auth.go] *)

Definition Read : gostring := str "read".
Definition Write : gostring := str "write".

(** What a route requires, or a token conveys. *)
Record Grant : Type := MkGrant {
  g_Permission : gostring;
  g_File : option FileHash;
  g_SHA256 : gostring;
}.

(** [http.Request], as far as handlers look at it: [mux.Vars], [Header.Get] and
    the values of a query parameter are functions. *)
Record request : Type := MkRequest {
  rq_Vars : gostring -> gostring;
  rq_Header : gostring -> gostring;
  rq_Query : gostring -> list gostring;
  rq_Host : gostring;
  rq_TLS : bool;
  rq_ContentLength : Z;
  rq_Body : reader;
}.

Definition ErrUnauthenticated : error := Errorf "unauthenticated".
Definition ErrForbidden : error := Errorf "forbidden".

(** [Authorizer.Authorize]: [None] allows. *)
Definition Authorizer : Type := request -> Grant -> option error.

Definition BearerToken (r : request) : option gostring :=
  let '(token, ok) := CutPrefix (rq_Header r (str "Authorization")) (str "Bearer ") in
  if negb ok || bool_decide (token = []) then None else Some token.

(** ** [issuer.go] *)

Definition TokenPrefix : gostring := str "xetd.".

Definition IsToken (s : gostring) : bool := (CutPrefix s TokenPrefix).2.

Record claims : Type := MkClaims {
  cl_Permission : gostring;
  cl_ExpiresAt : option Z;
  cl_File : option gostring;
  cl_SHA256 : option gostring;
}.

(** [json.Marshal] of claims. *)
Definition claims_members (c : claims) : list (gostring * json) :=
  [(str "permission", JStr (cl_Permission c))] ++
  [(str "exp", match cl_ExpiresAt c with Some e => JNum (print_int e) | None => JNull end)] ++
  match cl_File c with Some f => [(str "file", JStr f)] | None => [] end ++
  match cl_SHA256 c with Some d => [(str "sha256", JStr d)] | None => [] end.

Definition Marshal_claims (c : claims) : gostring := print_object (claims_members c).

(** One member decoded into the struct; [None] is a type error. *)
Definition decode_claim (c : claims) (m : gostring * json) : option claims :=
  match field_of [str "permission"; str "exp"; str "file"; str "sha256"] m.1 with
  | None => Some c
  | Some f =>
      if bool_decide (f = str "permission") then
        match m.2 with
        | JNull => Some c
        | JStr s => Some (MkClaims s (cl_ExpiresAt c) (cl_File c) (cl_SHA256 c))
        | _ => None
        end
      else if bool_decide (f = str "exp") then
        match m.2 with
        | JNull => Some (MkClaims (cl_Permission c) None (cl_File c) (cl_SHA256 c))
        | JNum n => match ParseInt n with
                    | Ok e => Some (MkClaims (cl_Permission c) (Some e) (cl_File c) (cl_SHA256 c))
                    | Err _ => None
                    end
        | _ => None
        end
      else if bool_decide (f = str "file") then
        match m.2 with
        | JNull => Some (MkClaims (cl_Permission c) (cl_ExpiresAt c) None (cl_SHA256 c))
        | JStr s => Some (MkClaims (cl_Permission c) (cl_ExpiresAt c) (Some s) (cl_SHA256 c))
        | _ => None
        end
      else
        match m.2 with
        | JNull => Some (MkClaims (cl_Permission c) (cl_ExpiresAt c) (cl_File c) None)
        | JStr s => Some (MkClaims (cl_Permission c) (cl_ExpiresAt c) (cl_File c) (Some s))
        | _ => None
        end
  end.

Fixpoint decode_claims (c : claims) (ms : list (gostring * json)) : option claims :=
  match ms with
  | [] => Some c
  | m :: ms => match decode_claim c m with Some c => decode_claims c ms | None => None end
  end.

Definition Unmarshal_claims (payload : gostring) : option claims :=
  match parse payload with
  | Some (JObj ms) => decode_claims (MkClaims [] None None None) ms
  | Some JNull => Some (MkClaims [] None None None)
  | _ => None
  end.

(** [Issuer]; the clock is passed to the methods that ask it, in nanoseconds. *)
Record Issuer : Type := MkIssuer { is_secret : list byte; is_ttl : Z }.

Definition seconds (t : Z) : Z := t / 1000000000.

(** [NewIssuer]; [random] is what [rand.Read] fills 32 bytes with. *)
Definition NewIssuer (secret : list byte) (ttl : Z) (random : result (list byte)) : result Issuer :=
  secret ← (if len secret =? 0 then wrap_err "generate token secret: %w" random else Ok secret);
  Ok (MkIssuer secret (if ttl <=? 0 then 15 * 60 * 1000000000 else ttl)).

Definition mac (t : Issuer) (input : gostring) : list byte := hmac_sha256 (is_secret t) input.

Definition canonicalSHA256 (digest : gostring) : option gostring :=
  match hex_decode digest with
  | Some decoded => if len decoded =? 32 then Some (hex_encode decoded) else None
  | None => None
  end.

Definition supported (permission : gostring) : bool := bool_decide (permission = Read \/ permission = Write).

Definition dot : byte := ".".

Definition Sign (t : Issuer) (now : Z) (g : Grant) : result (gostring * Z) :=
  if negb (supported (g_Permission g)) then Err (Errorf "unsupported permission %q")
  else
    let exp := seconds (now + is_ttl t) in
    digest ← (if bool_decide (g_SHA256 g = []) then Ok None
              else match canonicalSHA256 (g_SHA256 g) with
                   | Some d => Ok (Some d)
                   | None => Err (Errorf "invalid sha256 %q")
                   end);
    let claim := MkClaims (g_Permission g) (Some exp) (formatHash <$> g_File g) digest in
    let input := EncodeToString (Marshal_claims claim) in
    Ok (TokenPrefix ++ input ++ dot :: EncodeToString (mac t input), exp).

(** The grant of decoded claims. *)
Definition claims_grant (c : claims) : option Grant :=
  if negb (supported (cl_Permission c)) then None
  else
    match match cl_File c with
          | None => Some None
          | Some f => match parseHash f with Ok h => Some (Some h) | Err _ => None end
          end with
    | None => None
    | Some file =>
        match cl_SHA256 c with
        | None => Some (MkGrant (cl_Permission c) file [])
        | Some d => match canonicalSHA256 d with Some d => Some (MkGrant (cl_Permission c) file d) | None => None end
        end
    end.

Definition Validate (t : Issuer) (now : Z) (token : gostring) : option Grant :=
  let '(rest, ok) := CutPrefix token TokenPrefix in
  if negb ok then None
  else
    let '(input, sig, found) := Cut rest dot in
    if negb found || bool_decide (dot ∈ sig) || bool_decide (input = []) || bool_decide (sig = []) then None
    else
      match DecodeString sig with
      | None => None
      | Some signature =>
          if negb (bool_decide (signature = mac t input)) then None
          else
            match DecodeString input with
            | None => None
            | Some payload =>
                match Unmarshal_claims payload with
                | None => None
                | Some claim =>
                    match cl_ExpiresAt claim with
                    | None => None
                    | Some exp => if exp <=? seconds now then None else claims_grant claim
                    end
                end
            end
      end.

(** [Issuer.Authorize]. *)
Definition Issuer_Authorize (t : Issuer) (now : Z) : Authorizer := fun r required =>
  match BearerToken r with
  | None => Some ErrUnauthenticated
  | Some tok =>
      match Validate t now tok with
      | None => Some ErrUnauthenticated
      | Some granted =>
          if bool_decide (g_Permission granted <> g_Permission required) then Some ErrForbidden
          else if bool_decide (g_File required = None /\ g_SHA256 required = []) then None
          else if match g_File granted with Some _ => bool_decide (g_File granted <> g_File required) | None => false end
          then Some ErrForbidden
          else if bool_decide (g_SHA256 granted <> [] /\ g_SHA256 granted <> g_SHA256 required) then Some ErrForbidden
          else None
      end
  end.

(** ** base64 *)

Lemma b64_val_char v : 0 <= v < 64 -> b64_val (b64_char v) = Some v.
Proof.
  intros Hv. assert (v ∈ seqZ 0 64) as Hin by (apply elem_of_seqZ; lia).
  assert (forallb (fun v => bool_decide (b64_val (b64_char v) = Some v)) (seqZ 0 64) = true) as Hall by (vm_compute; reflexivity).
  rewrite forallb_forall in Hall. apply list_elem_of_In in Hin. specialize (Hall v Hin). by apply bool_decide_eq_true in Hall.
Qed.

Lemma sextet_ranges x y :
  0 <= b2z x / 4 < 64 /\ 0 <= b2z x mod 4 * 16 + b2z y / 16 < 64 /\ 0 <= b2z x mod 16 * 4 + b2z y / 64 < 64 /\ 0 <= b2z x mod 64 < 64.
Proof.
  pose proof (b2z_range x). pose proof (b2z_range y).
  assert (0 <= b2z x / 4 < 64) by (split; [apply Z.div_pos|apply Z.div_lt_upper_bound]; lia).
  assert (0 <= b2z y / 16 < 16) by (split; [apply Z.div_pos|apply Z.div_lt_upper_bound]; lia).
  assert (0 <= b2z y / 64 < 4) by (split; [apply Z.div_pos|apply Z.div_lt_upper_bound]; lia).
  pose proof (Z.mod_pos_bound (b2z x) 4). pose proof (Z.mod_pos_bound (b2z x) 16). pose proof (Z.mod_pos_bound (b2z x) 64). lia.
Qed.

(** The octets of the sextets are the bytes. *)
Lemma octet1_back x y : octet1 (b2z x / 4) (b2z x mod 4 * 16 + b2z y / 16) = x.
Proof.
  pose proof (b2z_range y). unfold octet1. transitivity (z2b (b2z x)); [f_equal|apply z2b_b2z]. rewrite Z.div_add_l by lia. rewrite (Z.div_small (b2z y / 16) 16), Z.add_0_r
    by (split; [apply Z.div_pos|apply Z.div_lt_upper_bound]; lia).
  pose proof (Z.div_mod (b2z x) 4). lia.
Qed.

Lemma octet2_back x y z : octet2 (b2z x mod 4 * 16 + b2z y / 16) (b2z y mod 16 * 4 + b2z z / 64) = y.
Proof.
  pose proof (b2z_range y). pose proof (b2z_range z). unfold octet2. transitivity (z2b (b2z y)); [f_equal|apply z2b_b2z].
  rewrite Z.add_comm with (n := b2z x mod 4 * 16), Z.mod_add, Z.mod_small by (first [lia|split; [apply Z.div_pos|apply Z.div_lt_upper_bound]; lia]).
  rewrite Z.div_add_l by lia. rewrite (Z.div_small (b2z z / 64) 4), Z.add_0_r
    by (split; [apply Z.div_pos|apply Z.div_lt_upper_bound]; lia).
  pose proof (Z.div_mod (b2z y) 16). lia.
Qed.

Lemma octet3_back y z : octet3 (b2z y mod 16 * 4 + b2z z / 64) (b2z z mod 64) = z.
Proof.
  pose proof (b2z_range z). unfold octet3. transitivity (z2b (b2z z)); [f_equal|apply z2b_b2z].
  rewrite Z.add_comm with (n := b2z y mod 16 * 4), Z.mod_add, Z.mod_small by (first [lia|split; [apply Z.div_pos|apply Z.div_lt_upper_bound]; lia]).
  pose proof (Z.div_mod (b2z z) 64). lia.
Qed.

(** An induction scheme for lists three at a time. *)
Lemma triples_ind {A} (P : list A -> Prop) :
  P [] -> (forall x, P [x]) -> (forall x y, P [x; y]) -> (forall x y z l, P l -> P (x :: y :: z :: l)) -> forall l, P l.
Proof.
  intros H0 H1 H2 H3 l. enough (forall n l, (length l <= n)%nat -> P l) as H by (by eapply H).
  clear l. induction n as [|n IH]; intros [|x [|y [|z l]]] Hn; cbn in Hn; try done; try lia. apply H3, IH. lia.
Qed.

Lemma decode_encode b : decode_quanta (EncodeToString b) = Some b.
Proof.
  induction b as [|x|x y|x y z b IH] using triples_ind; [done|..]; cbn [EncodeToString decode_quanta];
    unfold sextet1, sextet2, sextet3, sextet4.
  - destruct (sextet_ranges x Byte.x00) as (H1 & H2 & _). rewrite !b64_val_char by assumption. by rewrite octet1_back.
  - destruct (sextet_ranges x y) as (H1 & H2 & _), (sextet_ranges y Byte.x00) as (_ & _ & H3 & _).
    rewrite !b64_val_char by assumption. by rewrite octet1_back, octet2_back.
  - destruct (sextet_ranges x y) as (H1 & H2 & _), (sextet_ranges y z) as (_ & _ & H3 & _), (sextet_ranges z z) as (_ & _ & _ & H4).
    rewrite !b64_val_char by assumption. by rewrite IH, octet1_back, octet2_back, octet3_back.
Qed.

(** The characters of an encoding. *)
Definition b64 (c : byte) : Prop := is_Some (b64_val c).

Lemma encode_chars b : Forall b64 (EncodeToString b).
Proof.
  assert (forall v, 0 <= v < 64 -> b64 (b64_char v)) as Hc by (intros v Hv; exists v; by apply b64_val_char).
  induction b as [|x|x y|x y z b IH] using triples_ind; [done|..]; cbn [EncodeToString]; unfold sextet1, sextet2, sextet3, sextet4.
  - destruct (sextet_ranges x Byte.x00) as (H1 & H2 & _). repeat constructor; by apply Hc.
  - destruct (sextet_ranges x y) as (H1 & H2 & _), (sextet_ranges y Byte.x00) as (_ & _ & H3 & _). repeat constructor; by apply Hc.
  - destruct (sextet_ranges x y) as (H1 & H2 & _), (sextet_ranges y z) as (_ & _ & H3 & _), (sextet_ranges z z) as (_ & _ & _ & H4).
    repeat constructor; try done; by apply Hc.
Qed.

Lemma b64_dot c : b64 c -> c <> dot /\ c <> z2b 10 /\ c <> z2b 13.
Proof. intros [v Hv]. repeat split; intros ->; by vm_compute in Hv. Qed.

Lemma Decode_Encode b : DecodeString (EncodeToString b) = Some b.
Proof.
  unfold DecodeString. assert (filter (fun c => c <> z2b 10 /\ c <> z2b 13) (EncodeToString b) = EncodeToString b) as ->; [|apply decode_encode].
  pose proof (encode_chars b) as Hc. induction Hc as [|c s Hc _ IH]; [done|]. rewrite filter_cons_True by (apply b64_dot in Hc; tauto). by rewrite IH.
Qed.

(** ** Tokens *)

Lemma CutPrefix_app p s : CutPrefix (p ++ s) p = (s, true).
Proof. unfold CutPrefix. rewrite take_app_length, bool_decide_eq_true_2 by done. by rewrite drop_app_length. Qed.

Lemma Cut_app a b sep : sep ∉ a -> Cut (a ++ sep :: b) sep = (a, b, true).
Proof.
  induction a as [|c a IH]; intros Ha; cbn [app Cut]; [by rewrite bool_decide_eq_true_2|].
  apply not_elem_of_cons in Ha as [Hc Ha]. rewrite bool_decide_eq_false_2 by done. by rewrite IH.
Qed.

Lemma Cut_inv s sep a b : Cut s sep = (a, b, true) -> s = a ++ sep :: b.
Proof.
  revert a. induction s as [|c s IH]; intros a; cbn [Cut]; [done|]. case_bool_decide as Hc; [intros [= <- <-]; by subst|].
  destruct (Cut s sep) as [[a' b'] f]. intros [= <- -> ->]. by rewrite (IH a' eq_refl).
Qed.

Lemma CutPrefix_inv s p rest : CutPrefix s p = (rest, true) -> s = p ++ rest.
Proof. unfold CutPrefix. case_bool_decide as E; [|done]. intros [= <-]. rewrite <- E at 1. by rewrite take_drop. Qed.

Lemma encode_no_dot b : dot ∉ EncodeToString b.
Proof. intros Hin. pose proof (encode_chars b) as Hc. rewrite list.Forall_forall in Hc. by destruct (b64_dot _ (Hc _ Hin)). Qed.

Lemma encode_nonempty b : b <> [] -> EncodeToString b <> [].
Proof. by destruct b as [|x [|y [|z b]]]. Qed.

(** Claims whose strings need no escape read back. *)
Definition plain_claims (c : claims) : Prop :=
  forallb plain_char (cl_Permission c) = true /\ (exists e, cl_ExpiresAt c = Some e /\ - 2 ^ 63 <= e < 2 ^ 63) /\
  (forall f, cl_File c = Some f -> forallb plain_char f = true) /\ (forall d, cl_SHA256 c = Some d -> forallb plain_char d = true).

Lemma Unmarshal_Marshal c : plain_claims c -> Unmarshal_claims (Marshal_claims c) = Some c.
Proof.
  destruct c as [p e f d]. intros (Hp & (e' & He & Hr) & Hf & Hd). cbn in *. subst e. unfold Unmarshal_claims, Marshal_claims.
  rewrite parse_print_object; [|done|].
  - unfold claims_members. cbn [cl_Permission cl_ExpiresAt cl_File cl_SHA256 app decode_claims].
    change (decode_claim (MkClaims [] None None None) (str "permission", JStr p)) with (Some (MkClaims p None None None)). cbn iota beta.
    assert (decode_claim (MkClaims p None None None) (str "exp", JNum (print_int e')) = Some (MkClaims p (Some e') None None)) as ->.
    { change (decode_claim (MkClaims p None None None) (str "exp", JNum (print_int e'))) with
        (match ParseInt (print_int e') with Ok e => Some (MkClaims p (Some e) None None) | Err _ => None end). by rewrite ParseInt_print. }
    by destruct f, d.
  - unfold flat_members, claims_members. cbn [cl_Permission cl_ExpiresAt cl_File cl_SHA256 app].
    apply Forall_cons. split; [split; [done|exact Hp]|]. apply Forall_cons. split; [split; [done|by exists e']|].
    apply Forall_app. split; [destruct f as [f|]; [|done]; apply Forall_singleton; split; [done|by apply Hf]|].
    destruct d as [d|]; [|done]. apply Forall_singleton. split; [done|by apply Hd].
Qed.

Lemma digit_plain d : 0 <= d < 16 -> plain_char (digit_char d) = true.
Proof.
  intros Hd. assert (d ∈ seqZ 0 16) as Hin by (apply elem_of_seqZ; lia).
  assert (forallb (fun d => plain_char (digit_char d)) (seqZ 0 16) = true) as Hall by (vm_compute; reflexivity).
  rewrite forallb_forall in Hall. apply Hall. by apply list_elem_of_In.
Qed.

Lemma hex_plain b : forallb plain_char (hex_encode b) = true.
Proof.
  unfold hex_encode. induction b as [|x b IH]; [done|]. pose proof (b2z_range x). cbn in *.
  rewrite !digit_plain, IH by (split; [apply Z.div_pos || apply Z.mod_pos_bound; lia|apply Z.div_lt_upper_bound || apply Z.mod_pos_bound; lia]).
  done.
Qed.

Lemma formatHash_plain h : forallb plain_char (formatHash h) = true.
Proof.
  rewrite formatHash_segs, !forallb_app. assert (forall v, forallb plain_char (hex16 v) = true) as Hv; [|by rewrite !Hv].
  intros v. unfold hex16. pose proof (be_digits_range 16 16 v ltac:(lia)) as Hd.
  induction Hd as [|d ds Hd _ IH]; [done|]. cbn. by rewrite digit_plain, IH.
Qed.

(** The grant a signed token conveys: digests in lower case. *)
Definition conveyed (g : Grant) : Grant :=
  MkGrant (g_Permission g) (g_File g) (default [] (canonicalSHA256 (g_SHA256 g))).

Lemma canonical_canonical s d : canonicalSHA256 s = Some d -> canonicalSHA256 d = Some d /\ forallb plain_char d = true.
Proof.
  unfold canonicalSHA256. destruct (hex_decode s) as [raw|]; [|done]. destruct (len raw =? 32) eqn:E; [|done]. intros [= <-].
  rewrite hex_decode_encode, E. split; [done|apply hex_plain].
Qed.

(** The claims of a grant, and the grant of the claims. *)
Definition signed_claims (g : Grant) (exp : Z) : claims :=
  MkClaims (g_Permission g) (Some exp) (formatHash <$> g_File g) (canonicalSHA256 (g_SHA256 g)).

Lemma Sign_inv t now g tok exp :
  Sign t now g = Ok (tok, exp) ->
  let input := EncodeToString (Marshal_claims (signed_claims g exp)) in
  supported (g_Permission g) = true /\ exp = seconds (now + is_ttl t) /\
  tok = TokenPrefix ++ input ++ dot :: EncodeToString (mac t input).
Proof.
  unfold Sign. destruct (supported (g_Permission g)); [|done]. cbn [negb].
  assert (canonicalSHA256 [] = None) as H0 by reflexivity. case_bool_decide as Hs.
  - cbn [mbind result_bind]. intros [= <- <-]. unfold signed_claims. by rewrite Hs, H0.
  - destruct (canonicalSHA256 (g_SHA256 g)) as [d|] eqn:Ed; [|done]. cbn [mbind result_bind]. intros [= <- <-].
    unfold signed_claims. by rewrite Ed.
Qed.

Lemma signed_plain g exp :
  supported (g_Permission g) = true -> - 2 ^ 63 <= exp < 2 ^ 63 -> plain_claims (signed_claims g exp).
Proof.
  intros Hp He. split; [|split; [by exists exp|split]]; cbn.
  - unfold supported in Hp. by apply bool_decide_eq_true in Hp as [-> | ->].
  - intros f. destruct (g_File g) as [h|]; [|done]. intros [= <-]. apply formatHash_plain.
  - intros d Hd. by apply canonical_canonical in Hd as [_ ?].
Qed.

Lemma signed_grant g exp : supported (g_Permission g) = true -> claims_grant (signed_claims g exp) = Some (conveyed g).
Proof.
  intros Hp. unfold claims_grant, signed_claims, conveyed. cbn. rewrite Hp. cbn [negb].
  assert (match formatHash <$> g_File g with Some f => match parseHash f with Ok h => Some (Some h) | Err _ => None end | None => Some None end =
    Some (g_File g)) as -> by (destruct (g_File g) as [h|]; cbn; [by rewrite parse_formatHash|done]).
  destruct (canonicalSHA256 (g_SHA256 g)) as [d|] eqn:E; [|done]. apply canonical_canonical in E as [-> _]. done.
Qed.

(** What any issuer makes of a signed token. *)
Lemma Validate_signed t t' g exp now :
  supported (g_Permission g) = true -> - 2 ^ 63 <= exp < 2 ^ 63 ->
  let input := EncodeToString (Marshal_claims (signed_claims g exp)) in
  Validate t' now (TokenPrefix ++ input ++ dot :: EncodeToString (mac t input)) =
    if bool_decide (mac t input = mac t' input) then if exp <=? seconds now then None else Some (conveyed g) else None.
Proof.
  intros Hp He input. unfold Validate. rewrite CutPrefix_app. cbn [negb]. rewrite Cut_app by apply encode_no_dot. cbn [negb orb].
  rewrite (bool_decide_eq_false_2 (dot ∈ _)) by apply encode_no_dot. rewrite (bool_decide_eq_false_2 (input = [])) by (by apply encode_nonempty).
  assert (mac t input <> []) as Hm.
  { intros E. apply (f_equal length) in E. unfold mac, hmac_sha256 in E. by rewrite length_vec_to_list in E. }
  rewrite (bool_decide_eq_false_2 (EncodeToString _ = [])) by (by apply encode_nonempty). cbn [orb].
  rewrite Decode_Encode. case_bool_decide as Hmac; [|done]. cbn [negb]. subst input.
  rewrite Decode_Encode, Unmarshal_Marshal by (by apply signed_plain). cbn [signed_claims cl_ExpiresAt].
  destruct (exp <=? seconds now); [done|]. by apply signed_grant.
Qed.

(** What a grant covers. *)
Definition grant_covers (granted required : Grant) : bool :=
  bool_decide (g_Permission granted = g_Permission required) &&
  (bool_decide (g_File required = None /\ g_SHA256 required = []) ||
   bool_decide ((g_File granted = None \/ g_File granted = g_File required) /\
     (g_SHA256 granted = [] \/ g_SHA256 granted = g_SHA256 required))).

Lemma Authorize_spec t now r required :
  Issuer_Authorize t now r required =
    match BearerToken r ≫= Validate t now with
    | None => Some ErrUnauthenticated
    | Some granted => if grant_covers granted required then None else Some ErrForbidden
    end.
Proof.
  unfold Issuer_Authorize. destruct (BearerToken r) as [tok|]; [|done]. cbn. destruct (Validate t now tok) as [g|]; [|done].
  unfold grant_covers. case_bool_decide as Hp; [by rewrite bool_decide_eq_false_2|].
  rewrite (bool_decide_eq_true_2 (g_Permission g = _)) by (by destruct (decide (g_Permission g = g_Permission required))). cbn [andb].
  case_bool_decide as Hu; [done|]. cbn [orb]. destruct (g_File g) as [f|] eqn:Ef.
  - case_bool_decide as Hf; [rewrite bool_decide_eq_false_2 by naive_solver; done|].
    case_bool_decide as Hs; [rewrite bool_decide_eq_false_2 by naive_solver; done|]. rewrite bool_decide_eq_true_2; [done|].
    split; [right; by destruct (decide (Some f = g_File required))|].
    destruct (decide (g_SHA256 g = [])); [by left|right]. destruct (decide (g_SHA256 g = g_SHA256 required)); [done|tauto].
  - case_bool_decide as Hs; [rewrite bool_decide_eq_false_2 by naive_solver; done|]. rewrite bool_decide_eq_true_2; [done|].
    split; [by left|]. destruct (decide (g_SHA256 g = [])); [by left|right]. destruct (decide (g_SHA256 g = g_SHA256 required)); [done|tauto].
Qed.

(** C24: tokens authorize what they were signed for.  A request that carries a
    token signed for a grant is allowed exactly what the grant covers, whatever
    it is asked for and at every moment before the expiry, and is
    unauthenticated from the expiry on, or when the issuer asked has a secret
    under which the token's payload has another MAC.  And whatever a token is
    that an issuer accepts: it carries the MAC of its payload under the
    issuer's secret, and it has not expired. *)
Theorem token_authorizes t t' now g tok exp now' r required :
  Sign t now g = Ok (tok, exp) -> - 2 ^ 63 <= exp < 2 ^ 63 -> BearerToken r = Some tok ->
  (exists input sig, tok = TokenPrefix ++ input ++ dot :: sig /\ DecodeString sig = Some (mac t input) /\
    Issuer_Authorize t' now' r required =
      if bool_decide (mac t input = mac t' input) && (seconds now' <? exp)
      then if grant_covers (conveyed g) required then None else Some ErrForbidden
      else Some ErrUnauthenticated) /\
  (forall token g', Validate t now' token = Some g' ->
    exists input sig payload c e, token = TokenPrefix ++ input ++ dot :: sig /\ DecodeString sig = Some (mac t input) /\
      DecodeString input = Some payload /\ Unmarshal_claims payload = Some c /\ cl_ExpiresAt c = Some e /\
      seconds now' < e /\ claims_grant c = Some g').
Proof.
  intros Hs He Hb. split.
  - destruct (Sign_inv _ _ _ _ _ Hs) as (Hp & _ & Htok). eexists _, _. split; [exact Htok|]. split; [apply Decode_Encode|].
    rewrite Authorize_spec, Hb. cbn [mbind option_bind]. rewrite Htok, Validate_signed by done.
    case_bool_decide; [|done]. cbn [andb]. destruct (Z.leb_spec exp (seconds now')), (Z.ltb_spec (seconds now') exp); try lia; done.
  - intros token g'. unfold Validate. destruct (CutPrefix token TokenPrefix) as [rest ok] eqn:Ep. destruct ok; [|done]. cbn [negb].
    destruct (Cut rest dot) as [[input sig] found] eqn:Ec. destruct found; [|done]. cbn [negb orb].
    destruct (_ || _ || _); [done|]. destruct (DecodeString sig) as [s|] eqn:Eds; [|done].
    case_bool_decide as Hm; [|done]. cbn [negb]. subst s. destruct (DecodeString input) as [payload|] eqn:Edi; [|done].
    destruct (Unmarshal_claims payload) as [c|] eqn:Eu; [|done]. destruct (cl_ExpiresAt c) as [e|] eqn:Ee; [|done].
    destruct (Z.leb_spec e (seconds now')); [done|]. intros Hg. exists input, sig, payload, c, e.
    apply CutPrefix_inv in Ep as ->. apply Cut_inv in Ec as ->. done.
Qed.

(** ** A token for one file *)

Definition wit_issuer : Issuer := MkIssuer (str "secret") 900000000000.
Definition wit_grant : Grant := MkGrant Read (Some zeroHash) [].
Definition wit_token : gostring := match Sign wit_issuer 0 wit_grant with Ok (tok, _) => tok | Err _ => [] end.
Definition wit_request : request :=
  MkRequest (fun _ => []) (fun h => if bool_decide (h = str "Authorization") then str "Bearer " ++ wit_token else []) (fun _ => []) [] false 0
    (Reader [] EOF).

Lemma token_authorizes_witness :
  (Sign wit_issuer 0 wit_grant = Ok (wit_token, 900) /\ BearerToken wit_request = Some wit_token) /\
  (Issuer_Authorize wit_issuer 899999999999 wit_request (MkGrant Read (Some zeroHash) []) = None /\
   Issuer_Authorize wit_issuer 899999999999 wit_request (MkGrant Read (Some dataKey) []) = Some ErrForbidden /\
   Issuer_Authorize wit_issuer 900000000000 wit_request (MkGrant Read (Some zeroHash) []) = Some ErrUnauthenticated) /\
  exists input sig, wit_token = TokenPrefix ++ input ++ dot :: sig /\
    Issuer_Authorize wit_issuer 5 wit_request (MkGrant Read (Some zeroHash) []) =
      if bool_decide (mac wit_issuer input = mac wit_issuer input) && (seconds 5 <? 900)
      then if grant_covers (conveyed wit_grant) (MkGrant Read (Some zeroHash) []) then None else Some ErrForbidden
      else Some ErrUnauthenticated.
Proof.
  assert (Sign wit_issuer 0 wit_grant = Ok (wit_token, 900) /\ BearerToken wit_request = Some wit_token) as [H1 H2]
    by (split; vm_compute; reflexivity).
  split; [split; [exact H1|exact H2]|]. split; [vm_compute; repeat split; reflexivity|].
  destruct (token_authorizes wit_issuer wit_issuer 0 wit_grant wit_token 900 5 wit_request (MkGrant Read (Some zeroHash) []) H1 ltac:(lia) H2)
    as [(input & sig & E1 & _ & E2) _].
  exists input, sig. split; [exact E1|exact E2].
Defined.
