(* ===== verification/Split.v ===== *)
(** * Splitting the terms of a response: [download/split_v1.go], [download/split_v2.go]

    A server may cut the terms of a response into more pieces, so that a client
    fetches them in parallel.  The term with the most requested bytes is halved
    at the chunk boundary nearest their middle, again and again.  Proved: a
    response that answers a request still answers it after the split, piece for
    piece covered by a fetch. *)

From Stdlib Require Import ZArith Lia Strings.Byte Strings.String.
From stdpp Require Import gmap.
From S2P Require Import Prelude Hash Sha256 Gearhash Merkle Compression XorbEncoder XorbDecoder XorbOffsets.
From S2P Require Import Shard Prog Storage Plan.

Record splitPiece : Type := MkPiece {
  sp_Term : Term;
  sp_src : Z;
  sp_xorbHash : XorbHash;
  sp_chunks : option (list CASChunkSequenceEntry);
  sp_start : Z;
  sp_split : bool;
  sp_want : Z;
  sp_cut : Z;
  sp_at : Z;
  sp_packed : ByteRange;
}.

Definition sp_Range (p : splitPiece) : ChunkRange := t_Range (sp_Term p).

(** ** The window *)

Record splitWindow : Type := MkWindow { w_lo : Z; w_hi : Z; w_floor : Z }.

Definition window_bytes (w : splitWindow) (start end_ : Z) : Z :=
  Z.max (i64 (Z.min end_ (w_hi w) - Z.max start (w_lo w))) 0.

(** The window of a response: the requested bytes, from [offset] on. *)
Definition window (offset : Z) (rng : ByteRange) (pieceBytes : Z) : splitWindow :=
  MkWindow offset (i64 (offset + Z.max (i64 (br_End rng - br_Start rng + 1)) 0)) (Z.max pieceBytes 1).

(** The loop of [plan] over the boundaries [c], each after the chunk [c-1]. *)
Fixpoint plan_loop (w : splitWindow) (start end_ mid c at_ best : Z) (found : Z * Z) (chunks : list CASChunkSequenceEntry) :
    Z * Z :=
  match chunks with
  | [] => found
  | chunk :: chunks =>
      let at_ := i64 (at_ + cc_UnpackedSegBytes chunk) in
      if (at_ <=? w_lo w) || (w_hi w <=? at_) || (window_bytes w start at_ <? w_floor w) || (window_bytes w at_ end_ <? w_floor w)
      then plan_loop w start end_ mid (c + 1) at_ best found chunks
      else
        let d := Z.max (i64 (2 * at_ - mid)) (i64 (mid - 2 * at_)) in
        if (best <? 0) || (d <? best)
        then plan_loop w start end_ mid (c + 1) at_ d (u32 c, at_) chunks
        else plan_loop w start end_ mid (c + 1) at_ best found chunks
  end.

(** The chunks of a piece but the last: each ends at a boundary inside it. *)
Definition inner_chunks (p : splitPiece) : list CASChunkSequenceEntry :=
  match sp_chunks p with
  | Some chunks => slice (cr_Start (sp_Range p)) (cr_End (sp_Range p) - 1) chunks
  | None => []
  end.

(** [plan]. *)
Definition plan (w : splitWindow) (p : splitPiece) : splitPiece :=
  let end_ := i64 (sp_start p + t_UnpackedLength (sp_Term p)) in
  let mid := i64 (Z.max (sp_start p) (w_lo w) + Z.min end_ (w_hi w)) in
  let '(cut, at_) :=
    plan_loop w (sp_start p) end_ mid (cr_Start (sp_Range p) + 1) (sp_start p) (-1) (0, sp_at p) (inner_chunks p) in
  MkPiece (sp_Term p) (sp_src p) (sp_xorbHash p) (sp_chunks p) (sp_start p) (sp_split p)
    (window_bytes w (sp_start p) end_) cut at_ (sp_packed p).

(** ** Cutting *)

(** The piece to cut: of those with a cut, the first with the most bytes. *)
Fixpoint widest (i : nat) (best : option (nat * Z)) (pieces : list splitPiece) : option nat :=
  match pieces with
  | [] => fst <$> best
  | p :: pieces =>
      let best :=
        if (0 <? sp_cut p) && match best with None => true | Some (_, want) => want <? sp_want p end
        then Some (i, sp_want p) else best in
      widest (S i) best pieces
  end.

(** The halves of a piece at its cut. *)
Definition cut_head (p : splitPiece) : splitPiece :=
  MkPiece (MkTerm (t_Hash (sp_Term p)) (u64 (i64 (sp_at p - sp_start p))) (MkChunkRange (cr_Start (sp_Range p)) (sp_cut p)))
    (sp_src p) (sp_xorbHash p) (sp_chunks p) (sp_start p) true (sp_want p) (sp_cut p) (sp_at p) (sp_packed p).

Definition cut_tail (p : splitPiece) : splitPiece :=
  MkPiece (MkTerm (t_Hash (sp_Term p)) (u64 (t_UnpackedLength (sp_Term p) - t_UnpackedLength (sp_Term (cut_head p))))
            (MkChunkRange (sp_cut p) (cr_End (sp_Range p))))
    (sp_src p) (sp_xorbHash p) (sp_chunks p) (sp_at p) true (sp_want p) (sp_cut p) (sp_at p) (sp_packed p).

(** The loop that cuts; [n] more pieces are wanted. *)
Fixpoint cut_loop (n : nat) (w : splitWindow) (pieces : list splitPiece) : list splitPiece :=
  match n with
  | O => pieces
  | S n =>
      match widest 0 None pieces with
      | None => pieces
      | Some k =>
          match pieces !! k with
          | None => pieces
          | Some p =>
              cut_loop n w (take k pieces ++ [plan w (cut_head p); plan w (cut_tail p)] ++ drop (S k) pieces)
          end
      end
  end.

(** ** The terms as pieces *)

(** The CAS block of a term's xorb, checked against the term. *)
Definition piece_chunks (sh : Shard) (h : XorbHash) (term : Term) : result (option (list CASChunkSequenceEntry)) :=
  match find_cas sh h with
  | None => Ok None
  | Some b =>
      if len (cb_Chunks b) <? cr_End (t_Range term)
      then Err (Errorf "term %d: chunk range [%d, %d) out of bounds: CAS block has %d chunks")
      else
        let sum := foldl (fun sum c => u64 (sum + cc_UnpackedSegBytes c)) 0
          (slice (cr_Start (t_Range term)) (cr_End (t_Range term)) (cb_Chunks b)) in
        if negb (sum =? t_UnpackedLength term)
        then Err (Errorf "term %d: chunks [%d, %d) hold %d unpacked bytes, term has %d")
        else Ok (Some (cb_Chunks b))
  end.

Fixpoint term_pieces (sh : Shard) (i size : Z) (terms : list Term) : result (list splitPiece) :=
  match terms with
  | [] => Ok []
  | term :: terms =>
      h ← wrap_err "term %d: %w" (parseHash (t_Hash term));
      chunks ← piece_chunks sh h term;
      pieces ← term_pieces sh (i + 1) (i64 (size + t_UnpackedLength term)) terms;
      Ok (MkPiece term i h chunks size false 0 0 0 (MkByteRange 0 0) :: pieces)
  end.

(** ** The packed ranges *)

(** [slices.SortStableFunc] by start and, falling, by end; then, of one start, the
    first. *)
Definition piece_before (a b : splitPiece) : bool :=
  (cr_Start (sp_Range a) <? cr_Start (sp_Range b)) ||
  ((cr_Start (sp_Range a) =? cr_Start (sp_Range b)) && (cr_End (sp_Range b) <? cr_End (sp_Range a))).

Fixpoint insert_piece (p : splitPiece) (l : list splitPiece) : list splitPiece :=
  match l with
  | [] => [p]
  | q :: l => if piece_before p q then p :: q :: l else q :: insert_piece p l
  end.

Definition sort_pieces (l : list splitPiece) : list splitPiece := foldl (fun l p => insert_piece p l) [] l.

Fixpoint compact_pieces (l : list splitPiece) : list splitPiece :=
  match l with
  | [] => []
  | p :: l =>
      p :: match compact_pieces l with
           | q :: l' => if cr_Start (sp_Range p) =? cr_Start (sp_Range q) then l' else q :: l'
           | [] => []
           end
  end.

Definition set_packed (r : ByteRange) (p : splitPiece) : splitPiece :=
  MkPiece (sp_Term p) (sp_src p) (sp_xorbHash p) (sp_chunks p) (sp_start p) (sp_split p) (sp_want p) (sp_cut p) (sp_at p) r.

Section split.
Context {S : Type} {ST : Storage S}.

(** The chunk offsets of a piece's xorb, asked for once per xorb. *)
Definition piece_offsets (offsets : gmap gostring (list Z)) (p : splitPiece) : prog S (list Z) :=
  match offsets !! t_Hash (sp_Term p) with
  | Some o => mret o
  | None => prog_wrap "failed to get xorb chunk offsets: %w" (GetXorbChunkOffsets (sp_xorbHash p))
  end.

(** The loop that finds the packed ranges of the pieces whose xorb was cut. *)
Fixpoint pack_loop (pieces : list splitPiece) (offsets : gmap gostring (list Z)) (xorbs : gmap gostring (list splitPiece)) :
    prog S (gmap gostring (list splitPiece)) :=
  match pieces with
  | [] => mret xorbs
  | p :: pieces =>
      let hash := t_Hash (sp_Term p) in
      match xorbs !! hash with
      | None => pack_loop pieces offsets xorbs
      | Some ps =>
          o ← piece_offsets offsets p;
          '(start, end_) ← lift (wrap_err "failed to get xorb data range: %w"
            (ChunkDataRangeFromOffsets o (cr_Start (sp_Range p)) (cr_End (sp_Range p))));
          pack_loop pieces (<[hash := o]> offsets) (<[hash := ps ++ [set_packed (MkByteRange start end_) p]]> xorbs)
      end
  end.

(** The xorbs with a cut term, with no pieces yet. *)
Definition cut_xorbs (pieces : list splitPiece) : gmap gostring (list splitPiece) :=
  foldl (fun xorbs p => if sp_split p then <[t_Hash (sp_Term p) := []]> xorbs else xorbs) ∅ pieces.

Definition splitTerms (sh : Shard) (terms : list Term) (offset : Z) (rng : ByteRange) (minTerms pieceBytes : Z) :
    prog S (option (list Term * gmap gostring (list splitPiece))) :=
  if (minTerms <=? 1) || (minTerms <=? len terms) then mret None
  else
    pieces ← lift (term_pieces sh 0 0 terms);
    let w := window offset rng pieceBytes in
    let pieces := cut_loop (Z.to_nat (minTerms - len terms)) w (map (plan w) pieces) in
    if len pieces =? len terms then mret None
    else
      xorbs ← pack_loop pieces ∅ (cut_xorbs pieces);
      mret (Some (map sp_Term pieces, (fun ps => compact_pieces (sort_pieces ps)) <$> xorbs)).

(** ** [split_v1.go] *)

(** The url of each input term whose xorb was cut. *)
Fixpoint term_urls (r : ReconstructionResponseV1) (xorbs : gmap gostring (list splitPiece)) (terms : list Term) :
    result (list gostring) :=
  match terms with
  | [] => Ok []
  | term :: terms =>
      url ← match xorbs !! t_Hash term with
            | None => Ok []
            | Some _ =>
                match list_find (fun e => covers (fi_Range e) term = true) (default [] (r1_FetchInfo r !! t_Hash term)) with
                | None => Err (Errorf "term %d: no fetch info for chunks [%d, %d) of xorb %s")
                | Some (_, e) => Ok (fi_URL e)
                end
            end;
      urls ← term_urls r xorbs terms;
      Ok (url :: urls)
  end.

Definition SplitTermsV1 (sh : Shard) (r : ReconstructionResponseV1) (rng : ByteRange) (minTerms pieceBytes : Z) :
    prog S ReconstructionResponseV1 :=
  cut ← splitTerms sh (r1_Terms r) (r1_OffsetIntoFirstRange r) rng minTerms pieceBytes;
  match cut with
  | None => mret r
  | Some (terms, xorbs) =>
      urls ← lift (term_urls r xorbs (r1_Terms r));
      let entry p := MkFetchInfo (sp_Range p) (urls !!! Z.to_nat (sp_src p)) (sp_packed p) in
      mret (MkResponseV1 (r1_OffsetIntoFirstRange r) terms ((map entry <$> xorbs) ∪ r1_FetchInfo r))
  end.

(** ** [split_v2.go] *)

Definition SplitTermsV2 (sh : Shard) (r : ReconstructionResponseV2) (rng : ByteRange) (minTerms pieceBytes : Z) :
    prog S ReconstructionResponseV2 :=
  cut ← splitTerms sh (r2_Terms r) (r2_OffsetIntoFirstRange r) rng minTerms pieceBytes;
  match cut with
  | None => mret r
  | Some (terms, xorbs) =>
      if existsb (fun p => bool_decide (default [] (r2_Xorbs r !! p.1) = [])) (map_to_list xorbs)
      then throw (Errorf "no fetch info for xorb %s")
      else
        let fetches hash ps :=
          match default [] (r2_Xorbs r !! hash) with
          | f :: _ => Some [MkMultiRange (mr_URL f) (map (fun p => MkDescriptor (sp_Range p) (sp_packed p)) ps)]
          | [] => None
          end in
        mret (MkResponseV2 (r2_OffsetIntoFirstRange r) terms (map_imap fetches xorbs ∪ r2_Xorbs r))
  end.
End split.

(** ** Cutting keeps the bytes *)

Section contents.
Context (xc : XorbHash -> list (list byte)).

(** A cut of a piece: a chunk boundary inside it, and where it lies. *)
Record cut_ok (w : splitWindow) (p : splitPiece) : Prop := {
  co_range : cr_Start (sp_Range p) < sp_cut p < cr_End (sp_Range p);
  co_end : cr_End (sp_Range p) <= len (xc (sp_xorbHash p));
  co_at : sp_at p = sp_start p + len (seg_data xc (sp_xorbHash p) (MkChunkRange (cr_Start (sp_Range p)) (sp_cut p)));
  co_lo : w_lo w < sp_at p;
  co_head : w_floor w <= window_bytes w (sp_start p) (sp_at p);
  co_tail : w_floor w <= window_bytes w (sp_at p) (i64 (sp_start p + t_UnpackedLength (sp_Term p)));
}.

Record piece_ok (p : splitPiece) : Prop := {
  po_hash : t_Hash (sp_Term p) = formatHash (sp_xorbHash p);
  po_len : t_UnpackedLength (sp_Term p) = len (term_content xc (sp_Term p));
  po_range : 0 <= cr_Start (sp_Range p) < cr_End (sp_Range p) /\ cr_End (sp_Range p) < 2 ^ 32;
  po_pos : 0 <= sp_start p /\ sp_start p + t_UnpackedLength (sp_Term p) < 2 ^ 62;
  po_chunks : forall ch, sp_chunks p = Some ch ->
    map cc_UnpackedSegBytes ch = map len (xc (sp_xorbHash p)) /\ cr_End (sp_Range p) <= len ch;
}.

Lemma piece_content p :
  piece_ok p -> term_content xc (sp_Term p) = seg_data xc (sp_xorbHash p) (sp_Range p).
Proof. intros [H _ _ _ _]. unfold term_content. by rewrite H, parse_formatHash. Qed.

(** Either no boundary was better than [found], or one is. *)
Lemma plan_loop_spec w start end_ mid c at_ best found chunks (cs : list (list byte)) :
  map cc_UnpackedSegBytes chunks = map len cs -> 0 <= c -> c + len cs < 2 ^ 32 -> 0 <= at_ -> at_ + len (concat cs) < 2 ^ 62 ->
  let '(cut, at') := plan_loop w start end_ mid c at_ best found chunks in
  (cut, at') = found \/
  (exists cs1, cs1 `prefix_of` cs /\ cs1 <> [] /\ cut = c - 1 + len cs1 /\ at' = at_ + len (concat cs1) /\ w_lo w < at' /\
     w_floor w <= window_bytes w start at' /\ w_floor w <= window_bytes w at' end_).
Proof.
  revert c at_ best found cs. induction chunks as [|ch chunks IH]; intros c at_ best found cs Hm Hc0 Hc Ha0 Ha; cbn [plan_loop].
  { destruct found. by left. }
  destruct cs as [|d cs]; [done|]. injection Hm as Hd Hm. cbn [concat] in Ha. rewrite len_cons in Hc. rewrite len_app in Ha.
  pose proof (len_nonneg d). pose proof (len_nonneg cs). pose proof (len_nonneg (concat cs)).
  rewrite Hd, i64_small by (unfold is_i64; lia).
  set (found' := (u32 c, at_ + len d)).
  assert (forall best fnd, (fnd = found \/ fnd = found' /\ w_lo w < at_ + len d /\ w_floor w <= window_bytes w start (at_ + len d) /\
      w_floor w <= window_bytes w (at_ + len d) end_) ->
    let '(cut, at') := plan_loop w start end_ mid (c + 1) (at_ + len d) best fnd chunks in
    (cut, at') = found \/
    (exists cs1, cs1 `prefix_of` d :: cs /\ cs1 <> [] /\ cut = c - 1 + len cs1 /\ at' = at_ + len (concat cs1) /\ w_lo w < at' /\
       w_floor w <= window_bytes w start at' /\ w_floor w <= window_bytes w at' end_)) as Hstep.
  { intros best' fnd Hf. specialize (IH (c + 1) (at_ + len d) best' fnd cs Hm ltac:(lia) ltac:(lia) ltac:(lia) ltac:(lia)).
    destruct (plan_loop _ _ _ _ (c + 1) _ _ _ _) as [cut at']. destruct IH as [E|(cs1 & Hp & Hne & -> & -> & W0 & W1 & W2)].
    - destruct Hf as [->|(-> & W0 & W1 & W2)]; [by left|right]. injection E as -> ->. exists [d].
      split; [apply prefix_cons, prefix_nil|]. split; [done|]. rewrite len_cons, (@len_nil (list byte)). cbn [concat].
      rewrite app_nil_r, u32_small by (unfold is_u32; lia). repeat split; [lia|done|done|done].
    - right. exists (d :: cs1). split; [by apply prefix_cons|]. split; [done|]. rewrite len_cons. cbn [concat]. rewrite len_app.
      split; [lia|]. split; [lia|]. split; [lia|]. split; by rewrite ?Z.add_assoc in *. }
  destruct (_ || _) eqn:Ew; [apply Hstep; by left|]. rewrite !orb_false_iff, !Z.ltb_ge, Z.leb_gt in Ew.
  destruct Ew as [[[W0 _] W1] W2].
  destruct (_ || _); apply Hstep; auto.
Qed.

Lemma inner_chunks_spec p : piece_ok p ->
  exists cs, map cc_UnpackedSegBytes (inner_chunks p) = map len cs /\
    len cs <= cr_End (sp_Range p) - 1 - cr_Start (sp_Range p) /\ len (concat cs) <= t_UnpackedLength (sp_Term p) /\
    (cs = [] \/ cs = slice (cr_Start (sp_Range p)) (cr_End (sp_Range p) - 1) (xc (sp_xorbHash p)) /\
       cr_End (sp_Range p) <= len (xc (sp_xorbHash p))).
Proof.
  intros Hok. pose proof (piece_content p Hok) as Hcon. destruct Hok as [_ Hl Hr _ Hch]. unfold inner_chunks.
  destruct (sp_chunks p) as [ch|].
  2: { exists []. split; [done|]. split; [rewrite (@len_nil (list byte)); lia|]. split; [|by left]. rewrite Hl. exact (len_nonneg _). }
  destruct (Hch ch eq_refl) as [Hm He]. exists (slice (cr_Start (sp_Range p)) (cr_End (sp_Range p) - 1) (xc (sp_xorbHash p))).
  split; [unfold slice; by rewrite <- firstn_map, <- skipn_map, Hm, skipn_map, firstn_map|].
  split; [unfold slice, len; rewrite length_take; lia|]. split.
  - rewrite Hl, Hcon. unfold seg_data, slice.
    replace (Z.to_nat (cr_End (sp_Range p) - cr_Start (sp_Range p)))
      with (Z.to_nat (cr_End (sp_Range p) - 1 - cr_Start (sp_Range p)) + 1)%nat by lia.
    rewrite <- (take_take_drop _ _ 1), concat_app, len_app. match goal with |- _ <= _ + len ?l => pose proof (len_nonneg l) end. lia.
  - right. split; [done|]. apply (f_equal length) in Hm. rewrite !length_map in Hm. unfold len in *. lia.
Qed.

(** A planned piece is the same piece with a possible cut. *)
Definition planned (w : splitWindow) (p : splitPiece) : Prop :=
  piece_ok p /\ (0 < sp_cut p -> cut_ok w p) /\
  sp_want p = window_bytes w (sp_start p) (i64 (sp_start p + t_UnpackedLength (sp_Term p))).

Lemma plan_planned w p : piece_ok p -> planned w (plan w p).
Proof.
  intros Hok. destruct (inner_chunks_spec p Hok) as (cs & Hm & Hlcs & Hlc & Hcs). pose proof Hok as [Hh Hl Hr Hp Hch].
  unfold plan. pose proof (len_nonneg cs).
  pose proof (plan_loop_spec w (sp_start p) (i64 (sp_start p + t_UnpackedLength (sp_Term p)))
    (i64 (Z.max (sp_start p) (w_lo w) + Z.min (i64 (sp_start p + t_UnpackedLength (sp_Term p))) (w_hi w)))
    (cr_Start (sp_Range p) + 1) (sp_start p) (-1) (0, sp_at p) (inner_chunks p) cs Hm
    ltac:(lia) ltac:(lia) ltac:(lia) ltac:(lia)) as Hs.
  destruct (plan_loop _ _ _ _ _ _ _ _ _) as [cut at_]. split; [|split; [|done]].
  { split; [done..|]. exact Hch. }
  cbn [sp_cut]. intros Hcut. destruct Hs as [[= -> ->]|(cs1 & Hpre & Hne & -> & -> & W0 & W1 & W2)]; [lia|].
  destruct Hcs as [->|[Ecs He]]; [by apply prefix_nil_inv in Hpre|].
  assert (0 < len cs1 <= len cs) as Hl1.
  { apply prefix_length in Hpre. destruct cs1; [done|]. rewrite len_cons. pose proof (len_nonneg cs1). unfold len in *. cbn in *. lia. }
  split; cbn [sp_Term sp_cut sp_at sp_start sp_xorbHash]; change (sp_Range (MkPiece ?t _ _ _ _ _ _ _ _ _)) with (t_Range t);
    fold (sp_Range p); [lia|done| |done|done|done].
  f_equal. f_equal. unfold seg_data. cbn [cr_Start cr_End]. f_equal. destruct Hpre as [rest Hrest].
  replace (cr_Start (sp_Range p) + 1 - 1 + len cs1) with (cr_Start (sp_Range p) + len cs1) by lia.
  rewrite Ecs in Hrest. symmetry. transitivity (slice 0 (len cs1) (slice (cr_Start (sp_Range p)) (cr_End (sp_Range p) - 1) (xc (sp_xorbHash p)))).
  { rewrite slice_slice by lia. f_equal; lia. }
  rewrite Hrest. unfold slice. cbn. rewrite Z.sub_0_r, to_nat_len. apply take_app_length.
Qed.

(** *** The halves *)

Lemma cut_len w p : planned w p -> 0 < sp_cut p ->
  seg_data xc (sp_xorbHash p) (sp_Range p) =
    seg_data xc (sp_xorbHash p) (MkChunkRange (cr_Start (sp_Range p)) (sp_cut p)) ++
    seg_data xc (sp_xorbHash p) (MkChunkRange (sp_cut p) (cr_End (sp_Range p))) /\
  t_UnpackedLength (sp_Term (cut_head p)) = len (seg_data xc (sp_xorbHash p) (MkChunkRange (cr_Start (sp_Range p)) (sp_cut p))) /\
  t_UnpackedLength (sp_Term (cut_tail p)) = len (seg_data xc (sp_xorbHash p) (MkChunkRange (sp_cut p) (cr_End (sp_Range p)))) /\
  t_UnpackedLength (sp_Term p) = t_UnpackedLength (sp_Term (cut_head p)) + t_UnpackedLength (sp_Term (cut_tail p)).
Proof.
  intros (Hok & Hcut & _) Hc. pose proof (piece_content p Hok) as Hcon. destruct Hok as [Hh Hl Hr Hp Hch]. destruct (Hcut Hc) as [C1 C2 C3 _ _ _].
  assert (seg_data xc (sp_xorbHash p) (sp_Range p) =
    seg_data xc (sp_xorbHash p) (MkChunkRange (cr_Start (sp_Range p)) (sp_cut p)) ++
    seg_data xc (sp_xorbHash p) (MkChunkRange (sp_cut p) (cr_End (sp_Range p)))) as Hsplit.
  { unfold seg_data. cbn [cr_Start cr_End]. rewrite <- concat_app. f_equal. unfold slice.
    replace (Z.to_nat (sp_cut p)) with (Z.to_nat (cr_Start (sp_Range p)) + Z.to_nat (sp_cut p - cr_Start (sp_Range p)))%nat by lia.
    rewrite <- drop_drop, take_take_drop. f_equal. lia. }
  split; [exact Hsplit|]. rewrite Hcon, Hsplit, len_app in Hl.
  pose proof (len_nonneg (seg_data xc (sp_xorbHash p) (MkChunkRange (cr_Start (sp_Range p)) (sp_cut p)))).
  pose proof (len_nonneg (seg_data xc (sp_xorbHash p) (MkChunkRange (sp_cut p) (cr_End (sp_Range p))))).
  assert (t_UnpackedLength (sp_Term (cut_head p)) = len (seg_data xc (sp_xorbHash p) (MkChunkRange (cr_Start (sp_Range p)) (sp_cut p)))) as Eh.
  { cbn. rewrite C3, i64_small, u64_small by (unfold is_i64, is_u64; lia). lia. }
  split; [exact Eh|]. assert (t_UnpackedLength (sp_Term (cut_tail p)) =
    len (seg_data xc (sp_xorbHash p) (MkChunkRange (sp_cut p) (cr_End (sp_Range p))))) as Et.
  { cbn [cut_tail sp_Term t_UnpackedLength]. rewrite Eh, u64_small by (unfold is_u64; lia). lia. }
  split; [exact Et|]. lia.
Qed.

Lemma plan_same w p :
  sp_Term (plan w p) = sp_Term p /\ sp_start (plan w p) = sp_start p /\ sp_split (plan w p) = sp_split p /\
  sp_want (plan w p) = window_bytes w (sp_start p) (i64 (sp_start p + t_UnpackedLength (sp_Term p))).
Proof. unfold plan. by destruct (plan_loop _ _ _ _ _ _ _ _ _) as [cut at_]. Qed.

Lemma cut_head_ok w p : planned w p -> 0 < sp_cut p -> piece_ok (cut_head p).
Proof.
  intros Hpl Hc. destruct (cut_len w p Hpl Hc) as (_ & Eh & Et & Es). destruct Hpl as ([Hh Hl Hr Hp Hch] & Hcut & _).
  destruct (Hcut Hc) as [C1 C2 _ _ _ _]. pose proof (len_nonneg (seg_data xc (sp_xorbHash p) (MkChunkRange (sp_cut p) (cr_End (sp_Range p))))).
  split.
  - exact Hh.
  - rewrite Eh. unfold term_content. cbn. by rewrite Hh, parse_formatHash.
  - cbn. lia.
  - change (sp_start (cut_head p)) with (sp_start p). lia.
  - intros ch E. destruct (Hch ch E) as [Hm He]. split; [done|]. cbn. lia.
Qed.

Lemma cut_tail_ok w p : planned w p -> 0 < sp_cut p -> piece_ok (cut_tail p).
Proof.
  intros Hpl Hc. destruct (cut_len w p Hpl Hc) as (_ & Eh & Et & Es). destruct Hpl as ([Hh Hl Hr Hp Hch] & Hcut & _).
  destruct (Hcut Hc) as [C1 C2 C3 _ _ _]. pose proof (len_nonneg (seg_data xc (sp_xorbHash p) (MkChunkRange (cr_Start (sp_Range p)) (sp_cut p)))).
  split.
  - exact Hh.
  - rewrite Et. unfold term_content. cbn. by rewrite Hh, parse_formatHash.
  - cbn. lia.
  - change (sp_start (cut_tail p)) with (sp_at p). lia.
  - intros ch E. exact (Hch ch E).
Qed.

(** Pieces that lie one after another from [z] on; one that was cut keeps at least
    the floor of requested bytes. *)
Fixpoint laid (w : splitWindow) (z : Z) (pieces : list splitPiece) : Prop :=
  match pieces with
  | [] => True
  | p :: pieces =>
      sp_start p = z /\ planned w p /\ (sp_split p = true -> w_floor w <= sp_want p) /\
      laid w (z + t_UnpackedLength (sp_Term p)) pieces
  end.

Lemma laid_app w z a b :
  laid w z (a ++ b) <-> laid w z a /\ laid w (z + len (terms_content xc (map sp_Term a))) b.
Proof.
  revert z. induction a as [|p a IH]; intros z; cbn [app laid].
  { unfold terms_content. cbn. rewrite (@len_nil byte), Z.add_0_r. tauto. }
  rewrite IH. unfold terms_content. cbn [map concat]. rewrite len_app.
  split; [intros (H1 & H2 & H3 & H4 & H5)|intros [(H1 & H2 & H3 & H4) H5]]; (split_and!; [done..|]); rewrite <- (po_len _ (proj1 H2)) in *;
    by rewrite Z.add_assoc in *.
Qed.

Lemma cut_laid w z p pieces :
  laid w z (p :: pieces) -> 0 < sp_cut p -> laid w z (plan w (cut_head p) :: plan w (cut_tail p) :: pieces) /\
  terms_content xc (map sp_Term [plan w (cut_head p); plan w (cut_tail p)]) = term_content xc (sp_Term p) /\
  w_lo w < z + len (term_content xc (sp_Term (plan w (cut_head p)))).
Proof.
  intros (Hz & Hpl & Hf & Hrest) Hc. destruct (cut_len w p Hpl Hc) as (Hsplit & Eh & Et & Es).
  pose proof (cut_head_ok w p Hpl Hc) as Hho. pose proof (cut_tail_ok w p Hpl Hc) as Hto.
  destruct (plan_same w (cut_head p)) as (H1 & H2 & H3 & H4). destruct (plan_same w (cut_tail p)) as (T1 & T2 & T3 & T4).
  pose proof Hpl as (Hok & Hcut & _). destruct (Hcut Hc) as [C1 C2 C3 C0 C4 C5]. destruct (po_pos _ Hok) as [P1 P2].
  pose proof (len_nonneg (seg_data xc (sp_xorbHash p) (MkChunkRange (sp_cut p) (cr_End (sp_Range p))))).
  pose proof (len_nonneg (seg_data xc (sp_xorbHash p) (MkChunkRange (cr_Start (sp_Range p)) (sp_cut p)))).
  assert (sp_at p = sp_start p + t_UnpackedLength (sp_Term (cut_head p))) as Hat by lia.
  cbn [laid]. rewrite H1, H2, T1, T2. split; [|split].
  - split; [done|]. split; [by apply plan_planned|]. split.
    { intros _. rewrite H4. change (sp_start (cut_head p)) with (sp_start p). rewrite <- Hat, i64_small by (unfold is_i64; lia). done. }
    split; [change (sp_start (cut_tail p)) with (sp_at p); lia|]. split; [by apply plan_planned|]. split.
    { intros _. rewrite T4. change (sp_start (cut_tail p)) with (sp_at p).
      replace (sp_at p + t_UnpackedLength (sp_Term (cut_tail p))) with (sp_start p + t_UnpackedLength (sp_Term p)) by lia. done. }
    by replace (z + t_UnpackedLength (sp_Term (cut_head p)) + t_UnpackedLength (sp_Term (cut_tail p)))
      with (z + t_UnpackedLength (sp_Term p)) by lia.
  - cbn [map]. rewrite H1, T1. unfold terms_content. cbn [map concat]. rewrite app_nil_r.
    rewrite !(piece_content (cut_head p)), !(piece_content (cut_tail p)), (piece_content p Hok), Hsplit by done. done.
  - rewrite <- (po_len _ Hho). lia.
Qed.

Lemma widest_spec pieces i best k :
  widest i best pieces = Some k ->
  (exists p, (i <= k)%nat /\ pieces !! (k - i)%nat = Some p /\ 0 < sp_cut p) \/ exists want, best = Some (k, want).
Proof.
  revert i best. induction pieces as [|p pieces IH]; intros i best; cbn [widest].
  { destruct best as [[k' want]|]; [|done]. intros [= <-]. right. by exists want. }
  intros [(q & Hle & Hq & Hc)|[want Hw]]%IH.
  - left. exists q. split; [lia|]. split; [|done]. by replace (k - i)%nat with (Datatypes.S (k - Datatypes.S i)) by lia.
  - destruct (Z.ltb_spec 0 (sp_cut p)) as [Hc|]; [|right; by exists want]. destruct best as [[k' want']|]; cbn [andb] in Hw.
    + destruct (_ <? _); [|right; by exists want]. injection Hw as <- _. left. exists p. rewrite Nat.sub_diag. auto.
    + injection Hw as <- _. left. exists p. rewrite Nat.sub_diag. auto.
Qed.

(** A piece of a xorb that ends where another does, or before. *)
Definition part_of (p q : splitPiece) : Prop :=
  t_Hash (sp_Term p) = t_Hash (sp_Term q) /\ cr_End (sp_Range p) <= cr_End (sp_Range q).

Lemma part_of_refl p : part_of p p.
Proof. split; [done|lia]. Qed.

Lemma part_of_trans p q r : part_of p q -> part_of q r -> part_of p r.
Proof. intros [A1 A2] [B1 B2]. split; [congruence|lia]. Qed.

(** Cutting keeps the bytes, adds at most [n] pieces and never drops one. *)
Lemma cut_loop_spec n w pieces :
  laid w 0 pieces ->
  laid w 0 (cut_loop n w pieces) /\
  terms_content xc (map sp_Term (cut_loop n w pieces)) = terms_content xc (map sp_Term pieces) /\
  (length pieces <= length (cut_loop n w pieces) <= n + length pieces)%nat /\
  (forall p, p ∈ cut_loop n w pieces -> sp_split p = true \/ p ∈ pieces) /\
  (forall p, p ∈ cut_loop n w pieces -> exists q, q ∈ pieces /\ part_of p q) /\
  (starts_in xc (w_lo w) (map sp_Term pieces) -> starts_in xc (w_lo w) (map sp_Term (cut_loop n w pieces))).
Proof.
  revert pieces. induction n as [|n IH]; intros pieces Hl; cbn [cut_loop]; [split_and!; [done|done|lia|lia|auto|by eauto using part_of_refl|done]|].
  destruct (widest 0 None pieces) as [k|] eqn:Ew; [|split_and!; [done|done|lia|lia|auto|by eauto using part_of_refl|done]].
  apply widest_spec in Ew as [(p & _ & Hk & Hc)|[want Hw]]; [|done]. rewrite Nat.sub_0_r in Hk. rewrite Hk.
  pose proof (take_drop_middle _ _ _ Hk) as Hmid.
  assert (length pieces = length (take k pieces) + 1 + length (drop (Datatypes.S k) pieces))%nat as Hlen.
  { rewrite <- Hmid at 1. rewrite length_app. cbn. lia. }
  rewrite <- Hmid in Hl. apply laid_app in Hl as [Hl1 Hl2]. destruct (cut_laid w _ p _ Hl2 Hc) as (Hl2' & Hcon & Hlo).
  destruct (IH (take k pieces ++ [plan w (cut_head p); plan w (cut_tail p)] ++ drop (Datatypes.S k) pieces)) as (I1 & I2 & I3 & I4 & I5 & I6).
  { apply laid_app. split; [done|]. exact Hl2'. }
  assert (p ∈ pieces) as Hp by (by eapply list_elem_of_lookup_2).
  assert (forall q, q ∈ take k pieces ++ [plan w (cut_head p); plan w (cut_tail p)] ++ drop (Datatypes.S k) pieces ->
    q ∈ pieces \/ q = plan w (cut_head p) \/ q = plan w (cut_tail p)) as Hin.
  { intros q Hin. rewrite !elem_of_app, !elem_of_cons, elem_of_nil in Hin. rewrite <- Hmid, elem_of_app, elem_of_cons. tauto. }
  split; [done|]. split.
  - rewrite I2. rewrite <- Hmid at 3. unfold terms_content in *. rewrite !map_app, !concat_app. f_equal. rewrite Hcon. done.
  - rewrite !length_app in I3. cbn [length] in I3. split; [lia|].
    split; [|split]; [intros q Hq..|].
    + destruct (I4 q Hq) as [|[Hq'|[->| ->]]%Hin]; [by left|by right|left..].
      * by rewrite (proj1 (proj2 (proj2 (plan_same w (cut_head p))))).
      * by rewrite (proj1 (proj2 (proj2 (plan_same w (cut_tail p))))).
    + destruct (I5 q Hq) as (q' & Hq' & Hpart). apply Hin in Hq' as [Hq'|Hq']; [by exists q'|]. exists p. split; [done|].
      apply (part_of_trans q q' p Hpart). destruct (proj1 (proj2 (proj1 (proj2 Hl2))) Hc) as [C _ _ _ _ _].
      destruct Hq' as [->| ->]; [destruct (plan_same w (cut_head p)) as (E & _)|destruct (plan_same w (cut_tail p)) as (E & _)];
        unfold part_of, sp_Range in *; rewrite E; (split; [done|cbn; unfold sp_Range; lia]).
    + intros Hs. apply I6. destruct pieces as [|p0 pieces]; [done|]. destruct k as [|k]; [|exact Hs].
      injection Hk as ->. cbn [take app map starts_in]. unfold terms_content in Hlo. cbn [take map concat] in Hlo.
      rewrite (@len_nil byte) in Hlo. lia.
Qed.

(** *** The terms as pieces *)

Lemma find_cas_ok sh h b : blocks_ok xc sh -> find_cas sh h = Some b -> map cc_UnpackedSegBytes (cb_Chunks b) = map len (xc h).
Proof.
  intros Hb Ef. unfold find_cas in Ef. destruct (list_find _ _) as [[k b']|] eqn:El; [|done]. injection Ef as ->.
  apply list_find_Some in El as (Hbk & Hbh & _). rewrite <- Hbh. apply Hb. by eapply list_elem_of_lookup_2.
Qed.

Lemma sum_sizes chunks (cs : list (list byte)) sum :
  map cc_UnpackedSegBytes chunks = map len cs -> 0 <= sum -> sum + len (concat cs) < 2 ^ 64 ->
  foldl (fun sum c => u64 (sum + cc_UnpackedSegBytes c)) sum chunks = sum + len (concat cs).
Proof.
  revert cs sum. induction chunks as [|c chunks IH]; intros [|d cs] sum Hm Hs Hb; try done.
  { cbn. rewrite (@len_nil byte). lia. }
  injection Hm as Hd Hm. cbn [foldl concat] in *. rewrite len_app in *. pose proof (len_nonneg d). pose proof (len_nonneg (concat cs)).
  rewrite Hd, u64_small by (unfold is_u64; lia). rewrite (IH cs); [lia|done|lia|lia].
Qed.

Lemma piece_chunks_ok sh e :
  blocks_ok xc sh -> entry_ok xc e -> len (entry_content xc e) < 2 ^ 62 ->
  exists chunks, piece_chunks sh (fe_CASHash e) (entry_term e) = Ok chunks /\
    forall ch, chunks = Some ch -> map cc_UnpackedSegBytes ch = map len (xc (fe_CASHash e)) /\ fe_ChunkIndexEnd e <= len ch.
Proof.
  intros Hb [E1 E2 E3 E4] Hl. unfold piece_chunks. destruct (find_cas sh (fe_CASHash e)) as [b|] eqn:Ef; [|by exists None].
  pose proof (find_cas_ok _ _ _ Hb Ef) as Hm.
  assert (len (cb_Chunks b) = len (xc (fe_CASHash e))) as Hlen.
  { apply (f_equal length) in Hm. rewrite !length_map in Hm. unfold len. lia. }
  exists (Some (cb_Chunks b)). cbn [entry_term t_Range t_UnpackedLength entry_range cr_Start cr_End].
  rewrite (proj2 (Z.ltb_ge _ _)) by lia.
  rewrite (sum_sizes _ (slice (fe_ChunkIndexStart e) (fe_ChunkIndexEnd e) (xc (fe_CASHash e)))).
  - unfold entry_content, seg_data in E4. cbn [entry_range cr_Start cr_End] in E4. rewrite E4, Z.add_0_l, Z.eqb_refl. cbn [negb].
    split; [done|]. intros ch [= <-]. split; [done|]. lia.
  - unfold slice. by rewrite <- firstn_map, <- skipn_map, Hm, skipn_map, firstn_map.
  - lia.
  - unfold entry_content, seg_data in Hl. cbn [entry_range cr_Start cr_End] in Hl. lia.
Qed.

Lemma term_pieces_ok w sh i z terms :
  blocks_ok xc sh -> Forall (term_ok xc) terms -> 0 <= z -> z + len (terms_content xc terms) < 2 ^ 62 ->
  exists pieces, term_pieces sh i z terms = Ok pieces /\ laid w z (map (plan w) pieces) /\ map sp_Term pieces = terms /\
    Forall (fun p => sp_split p = false) pieces.
Proof.
  intros Hb Ht. revert i z. induction Ht as [|t terms (e & Hok & Hne & ->) _ IH]; intros i z Hz Hl; [by exists []|].
  unfold terms_content in Hl. cbn [map concat] in Hl. rewrite len_app, term_content_entry in Hl. fold (terms_content xc terms) in Hl.
  pose proof (len_nonneg (terms_content xc terms)). pose proof (len_nonneg (entry_content xc e)).
  destruct (piece_chunks_ok sh e Hb Hok) as (chunks & Hc & Hch); [lia|]. cbn [term_pieces].
  change (t_Hash (entry_term e)) with (formatHash (fe_CASHash e)). change (t_UnpackedLength (entry_term e)) with (fe_UnpackedSegBytes e).
  rewrite parse_formatHash. cbn [wrap_err mbind result_bind]. rewrite Hc. cbn [mbind result_bind].
  pose proof (eo_size _ _ Hok) as Hsz. rewrite Hsz, i64_small by (unfold is_i64; lia).
  destruct (IH (i + 1) (z + len (entry_content xc e)) ltac:(lia) ltac:(lia)) as (pieces & -> & L & Hm & Hs). cbn [mbind result_bind].
  set (p := MkPiece _ _ _ _ _ _ _ _ _ _).
  assert (piece_ok p) as Hp.
  { split; cbn; [done|by rewrite term_content_entry|pose proof (eo_range _ _ Hok); pose proof (eo_u32 _ _ Hok); lia|lia|exact Hch]. }
  destruct (plan_same w p) as (P1 & P2 & P3 & _).
  eexists. split; [done|]. split; [|split; [cbn; by rewrite Hm|by constructor]].
  cbn [map laid]. rewrite P1, P2, P3. split; [done|]. split; [by apply plan_planned|]. split; [done|].
  cbn [p sp_Term entry_term t_UnpackedLength]. by rewrite Hsz.
Qed.

(** *** The fetches *)

Lemma insert_piece_elem p l q : q ∈ insert_piece p l <-> q = p \/ q ∈ l.
Proof.
  induction l as [|r l IH]; cbn [insert_piece]; [by rewrite list_elem_of_singleton, elem_of_nil; tauto|].
  destruct (piece_before p r); rewrite !elem_of_cons; [done|]. rewrite IH. tauto.
Qed.

(** The order the sort leaves. *)
Definition piece_le (a b : splitPiece) : Prop :=
  cr_Start (sp_Range a) < cr_Start (sp_Range b) \/
  (cr_Start (sp_Range a) = cr_Start (sp_Range b) /\ cr_End (sp_Range b) <= cr_End (sp_Range a)).

Lemma insert_piece_sorted p l : StronglySorted piece_le l -> StronglySorted piece_le (insert_piece p l).
Proof.
  induction 1 as [|q l Hs IH Hq]; cbn [insert_piece]; [repeat constructor|].
  destruct (piece_before p q) eqn:E.
  - constructor; [by constructor|]. unfold piece_before in E. rewrite orb_true_iff, andb_true_iff, !Z.ltb_lt, Z.eqb_eq in E.
    constructor; [unfold piece_le; lia|]. eapply Forall_impl; [exact Hq|]. unfold piece_le. intros r. lia.
  - constructor; [done|]. apply Forall_forall. intros r [->|Hr]%insert_piece_elem; [|by eapply Forall_forall in Hq].
    unfold piece_before in E. rewrite orb_false_iff, andb_false_iff, !Z.ltb_ge, Z.eqb_neq in E. unfold piece_le. lia.
Qed.

Lemma sort_pieces_spec l : StronglySorted piece_le (sort_pieces l) /\ forall q, q ∈ sort_pieces l <-> q ∈ l.
Proof.
  unfold sort_pieces. enough (forall acc, StronglySorted piece_le acc ->
    StronglySorted piece_le (foldl (fun l p => insert_piece p l) acc l) /\
    forall q, q ∈ foldl (fun l p => insert_piece p l) acc l <-> q ∈ acc \/ q ∈ l) as H.
  { destruct (H []) as [H1 H2]; [constructor|]. split; [done|]. intros q. rewrite H2, elem_of_nil. tauto. }
  induction l as [|p l IH]; intros acc Ha; cbn [foldl].
  - split; [done|]. intros q. rewrite elem_of_nil. tauto.
  - destruct (IH (insert_piece p acc)) as [H1 H2]; [by apply insert_piece_sorted|]. split; [done|].
    intros q. rewrite H2, insert_piece_elem, elem_of_cons. tauto.
Qed.

Lemma compact_pieces_elem l q : q ∈ compact_pieces l -> q ∈ l.
Proof.
  revert q. induction l as [|p l IH]; intros q; cbn [compact_pieces]; [done|]. rewrite !elem_of_cons.
  intros [->|Hq]; [by left|]. right. apply IH. destruct (compact_pieces l) as [|r l']; [done|].
  destruct (_ =? _); [by right|done].
Qed.

(** Every piece is covered by one that is kept. *)
Lemma compact_pieces_covers l q :
  StronglySorted piece_le l -> q ∈ l ->
  exists y, y ∈ compact_pieces l /\ cr_Start (sp_Range y) = cr_Start (sp_Range q) /\ cr_End (sp_Range q) <= cr_End (sp_Range y).
Proof.
  induction 1 as [|p l Hs IH Hp]; intros Hq; [by apply not_elem_of_nil in Hq|]. cbn [compact_pieces].
  apply elem_of_cons in Hq as [->|Hq]; [exists p; split; [left|lia]|].
  destruct (IH Hq) as (y & Hy & E1 & E2). destruct (compact_pieces l) as [|r l'] eqn:Ec; [by apply not_elem_of_nil in Hy|].
  destruct (Z.eqb_spec (cr_Start (sp_Range p)) (cr_Start (sp_Range r))) as [E|E]; [|exists y; split; [by right|done]].
  apply elem_of_cons in Hy as [->|Hy]; [|exists y; split; [by right|done]].
  exists p. split; [left|]. split; [lia|]. eapply Forall_forall in Hp; [|exact Hq]. unfold piece_le in Hp. lia.
Qed.

Section packing.
Context {S : Type} {ST : Storage S} (Inv : S -> Prop) (offs : XorbHash -> list Z).
Hypothesis offs_stable : forall h s o s', Inv s -> GetXorbChunkOffsets h s = (Ok o, s') -> o = offs h /\ Inv s'.

Definition packed (p q : splitPiece) : Prop :=
  exists r, q = set_packed r p /\
    ChunkDataRangeFromOffsets (offs (sp_xorbHash p)) (cr_Start (sp_Range p)) (cr_End (sp_Range p)) = Ok (br_Start r, br_End r).

Definition cached (offsets : gmap gostring (list Z)) : Prop := forall h o, offsets !! formatHash h = Some o -> o = offs h.

Lemma cached_empty : cached ∅.
Proof. intros h o. by rewrite lookup_empty. Qed.

(** The offsets a piece is packed by, cached or not. *)
Lemma piece_offsets_spec offsets p s o s' :
  Inv s -> cached offsets -> t_Hash (sp_Term p) = formatHash (sp_xorbHash p) -> piece_offsets offsets p s = (Ok o, s') -> o = offs (sp_xorbHash p) /\ Inv s' /\ cached (<[t_Hash (sp_Term p) := o]> offsets).
Proof.
  intros Hi Hc Hh H. enough (o = offs (sp_xorbHash p) /\ Inv s') as [-> Hi'].
  { split; [done|]. split; [done|]. intros h o'. destruct (decide (sp_xorbHash p = h)) as [<-|Hd].
    - rewrite Hh, lookup_insert_eq. by intros [= <-].
    - rewrite Hh, lookup_insert_ne by (intros E; by apply formatHash_inj in E). apply Hc. }
  unfold piece_offsets in H. rewrite Hh in H. destruct (offsets !! _) as [o'|] eqn:Eo.
  - injection H as <- <-. split; [by apply Hc|done].
  - unfold prog_wrap, catch, throw in H. destruct (GetXorbChunkOffsets _ s) as [[o'|] s1] eqn:E; [|done].
    injection H as <- <-. by eapply offs_stable.
Qed.

Lemma pack_loop_spec pieces offsets xorbs s xorbs' s' :
  Inv s -> Forall piece_ok pieces -> cached offsets -> pack_loop pieces offsets xorbs s = (Ok xorbs', s') ->
  forall hash,
    match xorbs !! hash with
    | None => xorbs' !! hash = None
    | Some ps => exists qs, xorbs' !! hash = Some (ps ++ qs) /\ Forall2 packed (filter (fun p => t_Hash (sp_Term p) = hash) pieces) qs
    end.
Proof.
  intros Hi Hok. revert offsets xorbs s Hi. induction Hok as [|p pieces Hp _ IH]; intros offsets xorbs s Hi Hc; cbn [pack_loop].
  { intros [= <- <-] hash. destruct (xorbs !! hash) as [ps|]; [|done]. exists []. by rewrite app_nil_r. }
  destruct (xorbs !! t_Hash (sp_Term p)) as [ps|] eqn:Ex.
  2: { intros Hrun hash. specialize (IH _ _ _ Hi Hc Hrun hash). destruct (xorbs !! hash) as [ps|] eqn:Eh; [|done].
       rewrite filter_cons_False by congruence. done. }
  unfold mbind at 1, prog_bind at 1. destruct (piece_offsets offsets p s) as [[o|] s1] eqn:Eo; [|done].
  apply piece_offsets_spec in Eo as (-> & Hi1 & Hc1); [|done|done|apply Hp].
  unfold mbind, prog_bind, lift. destruct (ChunkDataRangeFromOffsets _ _ _) as [[a b]|] eqn:Er; [|done]. cbn [wrap_err].
  intros Hrun hash. specialize (IH _ _ _ Hi1 Hc1 Hrun hash). destruct (decide (t_Hash (sp_Term p) = hash)) as [<-|Hd].
  - rewrite lookup_insert_eq in IH. destruct IH as (qs & E & F). rewrite Ex. eexists. split; [by rewrite <- app_assoc in E|].
    rewrite filter_cons_True by done. constructor; [|done]. by exists (MkByteRange a b).
  - rewrite lookup_insert_ne in IH by done. rewrite filter_cons_False by done. done.
Qed.

Lemma pack_loop_total pieces offsets xorbs s :
  Inv s -> Forall piece_ok pieces -> cached offsets ->
  (forall p s, p ∈ pieces -> Inv s -> exists s', GetXorbChunkOffsets (sp_xorbHash p) s = (Ok (offs (sp_xorbHash p)), s')) ->
  (forall p, p ∈ pieces -> cr_End (sp_Range p) <= len (offs (sp_xorbHash p))) ->
  exists xorbs' s', pack_loop pieces offsets xorbs s = (Ok xorbs', s').
Proof.
  intros Hi Hok. revert offsets xorbs s Hi. induction Hok as [|p pieces Hp _ IH]; intros offsets xorbs s Hi Hc Hs Hl; cbn [pack_loop].
  { by eexists _, s. }
  assert (forall p' s0, p' ∈ pieces -> Inv s0 -> exists s1, GetXorbChunkOffsets (sp_xorbHash p') s0 = (Ok (offs (sp_xorbHash p')), s1)) as Hs'
    by (intros p' s0 Hp' H0; apply Hs; [by right|done]).
  assert (forall p', p' ∈ pieces -> cr_End (sp_Range p') <= len (offs (sp_xorbHash p'))) as Hl' by (intros p' Hp'; apply Hl; by right).
  destruct (xorbs !! t_Hash (sp_Term p)) as [ps|] eqn:Ex; [|by apply IH].
  unfold mbind at 1, prog_bind at 1. destruct (piece_offsets offsets p s) as [[o|e] s1] eqn:Eo.
  - apply piece_offsets_spec in Eo as (-> & Hi1 & Hc1); [|done|done|apply Hp]. unfold mbind, prog_bind, lift, ChunkDataRangeFromOffsets.
    specialize (Hl p ltac:(left)). pose proof (po_range _ Hp).
    rewrite (proj2 (Z.leb_gt _ _)), (proj2 (Z.ltb_ge (len (offs (sp_xorbHash p))) _)) by lia. cbn [wrap_err]. by apply IH.
  - exfalso. unfold piece_offsets in Eo. destruct (offsets !! _); [done|]. unfold prog_wrap, catch, throw in Eo.
    destruct (Hs p s ltac:(left) Hi) as [s2 E]. rewrite E in Eo. done.
Qed.
End packing.

Lemma cut_xorbs_spec pieces hash :
  match cut_xorbs pieces !! hash with
  | Some ps => ps = [] /\ exists p, p ∈ pieces /\ t_Hash (sp_Term p) = hash
  | None => forall p, p ∈ pieces -> t_Hash (sp_Term p) = hash -> sp_split p = false
  end.
Proof.
  unfold cut_xorbs. set (f := fun xorbs p => if sp_split p then <[t_Hash (sp_Term p) := []]> xorbs else xorbs).
  enough (forall m : gmap gostring (list splitPiece),
    match foldl f m pieces !! hash with
    | Some ps => m !! hash = Some ps \/ ps = [] /\ exists p, p ∈ pieces /\ t_Hash (sp_Term p) = hash
    | None => m !! hash = None /\ forall p, p ∈ pieces -> t_Hash (sp_Term p) = hash -> sp_split p = false
    end) as H.
  { specialize (H ∅). rewrite lookup_empty in H. destruct (foldl f ∅ pieces !! hash); [destruct H as [|H]; [done|exact H]|apply H]. }
  induction pieces as [|p pieces IH]; intros m; cbn [foldl].
  { destruct (m !! hash) eqn:E; [by left|]. split; [done|]. by intros p ?%not_elem_of_nil. }
  assert (t_Hash (sp_Term p) = hash /\ sp_split p = true /\ f m p !! hash = Some [] \/
    f m p !! hash = m !! hash /\ (t_Hash (sp_Term p) = hash -> sp_split p = false)) as Hf.
  { unfold f. destruct (sp_split p); [|by right]. destruct (decide (t_Hash (sp_Term p) = hash)) as [E|E].
    - left. rewrite E, lookup_insert_eq. done.
    - right. rewrite lookup_insert_ne by done. done. }
  specialize (IH (f m p)). destruct (foldl f (f m p) pieces !! hash) as [ps|].
  - destruct IH as [IH|[-> (q & Hq & Eq)]]; [|right; split; [done|]; exists q; split; [by right|done]].
    destruct Hf as [(E & _ & Ef)|[Ef _]]; [right|left; congruence]. rewrite Ef in IH. injection IH as <-. split; [done|].
    exists p. split; [left|done].
  - destruct IH as [E IH]. destruct Hf as [(_ & _ & Ef)|[Ef Hs]]; [congruence|]. split; [congruence|].
    intros q [->|Hq]%elem_of_cons; [done|by apply IH].
Qed.

(** *** The split *)

(** What [splitTerms] promises of the terms it returns and of the pieces it packs. *)
Record split_ok (offs : XorbHash -> list Z) (w : splitWindow) (minTerms : Z) (terms terms' : list Term)
    (xorbs : gmap gostring (list splitPiece)) : Prop := {
  so_content : terms_content xc terms' = terms_content xc terms;
  so_count : len terms < len terms' <= minTerms;
  so_sizes : Forall (fun t => t_UnpackedLength t = len (term_content xc t)) terms';
  so_terms : forall t, t ∈ terms' ->
    (t ∈ terms \/ is_Some (xorbs !! t_Hash t)) /\
    exists h, t_Hash t = formatHash h /\ cr_Start (t_Range t) < cr_End (t_Range t);
  so_covers : forall t ps, t ∈ terms' -> xorbs !! t_Hash t = Some ps ->
    exists p, p ∈ ps /\ covers (sp_Range p) t = true;
  so_keys : forall hash, is_Some (xorbs !! hash) -> exists t, t ∈ terms /\ t_Hash t = hash;
  so_packed : forall hash ps p, xorbs !! hash = Some ps -> p ∈ ps ->
    exists h, hash = formatHash h /\ 0 <= cr_Start (sp_Range p) /\
    ChunkDataRangeFromOffsets (offs h) (cr_Start (sp_Range p)) (cr_End (sp_Range p)) = Ok (br_Start (sp_packed p), br_End (sp_packed p));
  so_first : starts_in xc (w_lo w) terms -> starts_in xc (w_lo w) terms';
  so_fair : forall i t, terms' !! i = Some t -> t ∈ terms \/
    w_floor w <= window_bytes w (len (terms_content xc (take i terms'))) (len (terms_content xc (take (S i) terms')));
}.

Lemma laid_pieces w z pieces : laid w z pieces -> Forall piece_ok pieces.
Proof. revert z. induction pieces as [|p pieces IH]; intros z; [constructor|]. intros (_ & [H _] & _ & Hl). constructor; [done|by eapply IH]. Qed.

Lemma laid_fair w pieces i p :
  laid w 0 pieces -> pieces !! i = Some p -> sp_split p = true ->
  w_floor w <= window_bytes w (len (terms_content xc (take i (map sp_Term pieces)))) (len (terms_content xc (take (S i) (map sp_Term pieces)))).
Proof.
  intros Hl Hi Hs. pose proof (take_drop_middle _ _ _ Hi) as Hm. rewrite <- Hm in Hl. apply laid_app in Hl as [_ (Hz & (Hok & _ & Hw) & Hf & _)].
  specialize (Hf Hs). rewrite Hw in Hf. rewrite firstn_map, firstn_map, (take_S_r _ _ _ Hi), map_app. unfold terms_content at 2.
  rewrite map_app, concat_app, len_app. cbn [map concat]. rewrite app_nil_r. fold (terms_content xc (map sp_Term (take i pieces))).
  pose proof (len_nonneg (term_content xc (sp_Term p))). pose proof (po_len _ Hok). destruct (po_pos _ Hok).
  rewrite i64_small in Hf by (unfold is_i64; lia).
  rewrite (po_len _ Hok), Hz, Z.add_0_l in Hf. done.
Qed.

Section splitting.
Context {S : Type} {ST : Storage S} (Inv : S -> Prop) (offs : XorbHash -> list Z).
Hypothesis offs_stable : forall h s o s', Inv s -> GetXorbChunkOffsets h s = (Ok o, s') -> o = offs h /\ Inv s'.

(** The kept pieces cover what was packed. *)
Lemma packed_covers pieces qs p :
  Forall2 (packed offs) pieces qs -> p ∈ pieces -> exists q, q ∈ compact_pieces (sort_pieces qs) /\ covers (sp_Range q) (sp_Term p) = true.
Proof.
  intros HF Hp. apply list_elem_of_lookup in Hp as [i Hi]. destruct (Forall2_lookup_l _ _ _ _ _ HF Hi) as (q & Hq & (r & -> & _)).
  destruct (sort_pieces_spec qs) as [Hs He]. destruct (compact_pieces_covers (sort_pieces qs) (set_packed r p)) as (y & Hy & E1 & E2);
    [done|apply He; by eapply list_elem_of_lookup_2|]. exists y. split; [done|]. unfold covers.
  change (sp_Range (set_packed r p)) with (sp_Range p) in E1, E2.
  change (t_Range (sp_Term p)) with (sp_Range p). apply andb_true_iff. rewrite !Z.leb_le. lia.
Qed.

Lemma packed_kept pieces qs q :
  Forall2 (packed offs) pieces qs -> q ∈ compact_pieces (sort_pieces qs) ->
  exists p, p ∈ pieces /\ sp_Range q = sp_Range p /\ sp_xorbHash q = sp_xorbHash p /\
    ChunkDataRangeFromOffsets (offs (sp_xorbHash p)) (cr_Start (sp_Range p)) (cr_End (sp_Range p)) =
      Ok (br_Start (sp_packed q), br_End (sp_packed q)).
Proof.
  intros HF Hq%compact_pieces_elem. apply (proj2 (sort_pieces_spec qs)) in Hq. apply list_elem_of_lookup in Hq as [i Hi].
  destruct (Forall2_lookup_r _ _ _ _ _ HF Hi) as (p & Hp & (r & -> & Hr)). exists p. split; [by eapply list_elem_of_lookup_2|].
  split; [done|]. split; [done|]. exact Hr.
Qed.

Lemma splitTerms_spec sh terms offset rng minTerms pieceBytes s terms' xorbs s' :
  Inv s -> blocks_ok xc sh -> Forall (term_ok xc) terms -> len (terms_content xc terms) < 2 ^ 62 ->
  splitTerms sh terms offset rng minTerms pieceBytes s = (Ok (Some (terms', xorbs)), s') ->
  split_ok offs (window offset rng pieceBytes) minTerms terms terms' xorbs.
Proof.
  intros Hi Hb Ht Hl. unfold splitTerms. destruct (_ || _) eqn:Em; [done|]. rewrite orb_false_iff, !Z.leb_gt in Em.
  set (w := window offset rng pieceBytes).
  destruct (term_pieces_ok w sh 0 0 terms Hb Ht ltac:(lia) ltac:(lia)) as (pieces0 & E0 & L0 & M0 & S0).
  unfold mbind at 1, prog_bind at 1, lift. rewrite E0. cbv zeta.
  assert (map sp_Term (map (plan w) pieces0) = terms) as Mw.
  { rewrite map_map, <- M0. apply map_ext. intros p. apply plan_same. }
  destruct (cut_loop_spec (Z.to_nat (minTerms - len terms)) w _ L0) as (L & C & N & O & Q & B). rewrite Mw in C, B.
  assert (length (map (plan w) pieces0) = length terms) as Nl by (rewrite <- Mw; by rewrite !length_map). rewrite Nl in N.
  set (pieces := cut_loop _ w _) in *. destruct (Z.eqb_spec (len pieces) (len terms)) as [|Hne]; [done|].
  unfold mbind, prog_bind. destruct (pack_loop pieces ∅ (cut_xorbs pieces) s) as [[x|] s1] eqn:Ep; [|done]. intros [= <- <- <-].
  pose proof (laid_pieces _ _ _ L) as Hok. pose proof (pack_loop_spec Inv offs offs_stable _ _ _ _ _ _ Hi Hok (cached_empty offs) Ep) as HP.
  assert (forall p, p ∈ pieces -> sp_split p = false -> sp_Term p ∈ terms) as Hold.
  { intros p Hp Hs. destruct (O p Hp) as [Hc|Hc]; [congruence|]. rewrite <- Mw. by apply (list_elem_of_fmap_2 sp_Term). }
  assert (forall t, t ∈ map sp_Term pieces -> exists p, t = sp_Term p /\ p ∈ pieces /\ piece_ok p) as Hin.
  { intros t (p & -> & Hp)%list_elem_of_fmap. exists p. split; [done|]. split; [done|]. by eapply Forall_forall in Hok. }
  assert (forall hash ps, x !! hash = Some ps -> Forall2 (packed offs) (filter (fun p => t_Hash (sp_Term p) = hash) pieces) ps) as HF.
  { intros hash ps Hps. specialize (HP hash). pose proof (cut_xorbs_spec pieces hash) as Hcx.
    destruct (cut_xorbs pieces !! hash) as [ps0|]; [|congruence]. destruct HP as (qs & Hq & F). rewrite (proj1 Hcx) in Hq. cbn in Hq.
    rewrite Hps in Hq. by injection Hq as ->. }
  split.
  - done.
  - unfold len in *. rewrite length_map. lia.
  - apply Forall_forall. intros t (p & -> & _ & Hp)%Hin. apply Hp.
  - intros t (p & -> & Hp & Hpo)%Hin. split.
    + destruct (sp_split p) eqn:Es; [right|left; by apply Hold]. rewrite lookup_fmap. specialize (HP (t_Hash (sp_Term p))).
      pose proof (cut_xorbs_spec pieces (t_Hash (sp_Term p))) as Hcx. destruct (cut_xorbs pieces !! _) as [ps0|].
      * destruct HP as (qs & -> & _). by eexists.
      * exfalso. by rewrite (Hcx p Hp eq_refl) in Es.
    + exists (sp_xorbHash p). split; [apply Hpo|]. apply (po_range _ Hpo).
  - intros t ps (p & -> & Hp & Hpo)%Hin. rewrite lookup_fmap. intros Hps. apply fmap_Some in Hps as (qs & Hq & ->).
    apply (packed_covers _ _ _ (HF _ _ Hq)). apply list_elem_of_filter. done.
  - intros hash [ps Hps]. rewrite lookup_fmap in Hps. apply fmap_Some in Hps as (qs & Hq & _). specialize (HP hash).
    pose proof (cut_xorbs_spec pieces hash) as Hcx. destruct (cut_xorbs pieces !! hash) as [ps0|]; [|congruence].
    destruct Hcx as [_ (p & Hp & Eh)]. destruct (Q p Hp) as (q & Hq0 & [Eq _]). exists (sp_Term q). split; [|congruence].
    rewrite <- Mw. by apply (list_elem_of_fmap_2 sp_Term).
  - intros hash ps q. rewrite lookup_fmap. intros Hps Hq. apply fmap_Some in Hps as (qs & Hqs & ->).
    destruct (packed_kept _ _ _ (HF _ _ Hqs) Hq) as (p & Hp & Er & Eh & Hr). apply list_elem_of_filter in Hp as [Hh Hp].
    eapply Forall_forall in Hok; [|exact Hp]. exists (sp_xorbHash p). rewrite <- Hh, Er. split; [apply Hok|].
    split; [apply (po_range _ Hok)|done].
  - exact B.
  - intros i t Hit. change (map sp_Term pieces) with (sp_Term <$> pieces) in Hit. rewrite list_lookup_fmap in Hit.
    apply fmap_Some in Hit as (p & Hp & ->). destruct (sp_split p) eqn:Es; [right; by eapply laid_fair|].
    left. apply Hold; [by eapply list_elem_of_lookup_2|done].
Qed.

(** The store still answers for the xorbs of the terms, and has their chunks. *)
Definition answering (terms : list Term) : Prop :=
  forall t h s, t ∈ terms -> t_Hash t = formatHash h -> Inv s -> exists s', GetXorbChunkOffsets h s = (Ok (offs h), s').

Lemma splitTerms_total {A} (range : A -> ChunkRange) span m sh terms offset rng minTerms pieceBytes s :
  Inv s -> blocks_ok xc sh -> recorded xc range span offs terms m -> len (terms_content xc terms) < 2 ^ 62 -> answering terms ->
  exists cut s', splitTerms sh terms offset rng minTerms pieceBytes s = (Ok cut, s').
Proof.
  intros Hi Hb [Ht [F1 F2] _] Hl Ha. unfold splitTerms. destruct (_ || _); [by eexists _, s|].
  set (w := window offset rng pieceBytes).
  destruct (term_pieces_ok w sh 0 0 terms Hb Ht ltac:(lia) ltac:(lia)) as (pieces0 & E0 & L0 & M0 & _).
  unfold mbind at 1, prog_bind at 1, lift. rewrite E0. cbv zeta.
  destruct (cut_loop_spec (Z.to_nat (minTerms - len terms)) w _ L0) as (L & _ & _ & _ & Q & _).
  set (pieces := cut_loop _ w _) in *. destruct (_ =? _); [by eexists _, s|].
  pose proof (laid_pieces _ _ _ L) as Hok.
  assert (forall p, p ∈ pieces -> exists t, t ∈ terms /\ t_Hash t = formatHash (sp_xorbHash p) /\
    cr_End (sp_Range p) <= cr_End (t_Range t)) as Hterm.
  { intros p Hp. destruct (Q p Hp) as (q & Hq & [Eq Hle]). exists (sp_Term q). apply list_elem_of_fmap in Hq as (q0 & -> & Hq0).
    destruct (plan_same w q0) as (Es & _). unfold sp_Range in Hle. rewrite Es in *. split; [|split; [|done]].
    - rewrite <- M0. by apply (list_elem_of_fmap_2 sp_Term).
    - rewrite <- Eq. eapply Forall_forall in Hok; [|exact Hp]. apply Hok. }
  destruct (pack_loop_total Inv offs offs_stable pieces ∅ (cut_xorbs pieces) s Hi Hok (cached_empty offs)) as (x & s' & E).
  - intros p s0 Hp H0. destruct (Hterm p Hp) as (t & Ht' & Hh & _). by eapply Ha.
  - intros p Hp. destruct (Hterm p Hp) as (t & Ht' & Hh & Hle). destruct (F1 t Ht') as (h & l & y & Hh' & Hy & Hin & Hc & _).
    rewrite Hh' in Hy. rewrite Hh in Hh'. apply formatHash_inj in Hh' as ->. pose proof (range_nonempty _ _ _ _ (F2 _ _ _ Hy Hin)).
    unfold covers in Hc. rewrite andb_true_iff, !Z.leb_le in Hc. lia.
  - unfold mbind, prog_bind. rewrite E. by eexists _, s'.
Qed.

(** The fetches after a split: those of the cut xorbs are replaced. *)
Lemma split_fetches {A} (range : A -> ChunkRange) span (mk : splitPiece -> A) w minTerms terms terms' xorbs m m' :
  (forall p, range (mk p) = sp_Range p /\ span (mk p) = sp_packed p) ->
  split_ok offs w minTerms terms terms' xorbs -> recorded xc range span offs terms m ->
  (forall k, m' !! k = match xorbs !! k with Some ps => Some (map mk ps) | None => m !! k end) ->
  fetchable range span offs terms' m' /\ nonneg_ranges range m'.
Proof.
  intros Hmk [_ _ _ ST1 SC _ SP _ _] [_ [F1 F2] HN] Hm'. split; [split|].
  - intros t Ht. destruct (ST1 t Ht) as [Hor (h & Hh & Hne)]. destruct (xorbs !! t_Hash t) as [ps|] eqn:Ex.
    + destruct (SC t ps Ht Ex) as (p & Hp & Hc). exists h, (map mk ps), (mk p). split; [done|]. rewrite Hm', Ex. split; [done|].
      split; [by apply (list_elem_of_fmap_2 mk)|]. by rewrite (proj1 (Hmk p)).
    + destruct Hor as [Ht'|[? ?]]; [|done]. destruct (F1 t Ht') as (h' & l & x & R). exists h', l, x. by rewrite Hm', Ex.
  - intros h l x. rewrite Hm'. destruct (xorbs !! formatHash h) as [ps|] eqn:Ex; [|apply F2]. intros [= <-] (p & -> & Hp)%list_elem_of_fmap.
    destruct (SP _ _ _ Ex Hp) as (h' & Hh & _ & Hr). apply formatHash_inj in Hh as ->. destruct (Hmk p) as [-> ->]. done.
  - intros k l x. rewrite Hm'. destruct (xorbs !! k) as [ps|] eqn:Ex; [|apply HN]. intros [= <-] (p & -> & Hp)%list_elem_of_fmap.
    destruct (SP _ _ _ Ex Hp) as (h' & _ & H0 & _). by rewrite (proj1 (Hmk p)).
Qed.

(** Terms cut up: the same bytes in more terms, [minTerms] at most; each is a term
    of old or keeps the floor of requested bytes. *)
Record cut_up (w : splitWindow) (minTerms : Z) (terms terms' : list Term) : Prop := {
  cu_content : terms_content xc terms' = terms_content xc terms;
  cu_count : len terms < len terms' <= minTerms;
  cu_fair : forall i t, terms' !! i = Some t -> t ∈ terms \/
    w_floor w <= window_bytes w (len (terms_content xc (take i terms'))) (len (terms_content xc (take (Datatypes.S i) terms')));
}.

Lemma split_holds w minTerms content rng offset terms terms' xorbs :
  split_ok offs w minTerms terms terms' xorbs -> w_lo w = offset -> holds xc content rng offset terms ->
  holds xc content rng offset terms' /\ cut_up w minTerms terms terms'.
Proof. intros [C N Z _ _ _ _ B F] <- [H1 H2 _ H4]. split; [|by split]. split; [done| |done|by apply B]. by rewrite C. Qed.

Lemma SplitTermsV1_ok content sh r rng minTerms pieceBytes s r' s' :
  Inv s -> blocks_ok xc sh -> recorded xc fi_Range fi_URLRange offs (r1_Terms r) (r1_FetchInfo r) ->
  len (terms_content xc (r1_Terms r)) < 2 ^ 62 -> holds xc content rng (r1_OffsetIntoFirstRange r) (r1_Terms r) ->
  (forall h, grows 0 (offs h) /\ len (offs h) <= MaxChunksPerXorb) ->
  SplitTermsV1 sh r rng minTerms pieceBytes s = (Ok r', s') -> r' = r \/
  (r1_OffsetIntoFirstRange r' = r1_OffsetIntoFirstRange r /\
   cut_up (window (r1_OffsetIntoFirstRange r) rng pieceBytes) minTerms (r1_Terms r) (r1_Terms r') /\
   answers xc offs content rng (r1_OffsetIntoFirstRange r') (r1_Terms r') (planReaderV1 r')).
Proof.
  intros Hi Hb HR Hl Hh Ho. unfold SplitTermsV1, mbind, prog_bind.
  destruct (splitTerms _ _ _ _ _ _ s) as [[[[terms xorbs]|]|] s1] eqn:E; [| |done]; [|intros [= -> _]; by left].
  unfold lift. destruct (term_urls _ _ _) as [urls|]; [|done]. intros [= <- <-]. right. split; [done|].
  apply splitTerms_spec in E; [|done|done|apply HR|done]. destruct (split_holds _ _ _ _ _ _ _ _ E eq_refl Hh) as [Hh' Hc]. split; [done|].
  cbn [r1_Terms r1_OffsetIntoFirstRange]. split; [done|]. set (mk := fun p => MkFetchInfo _ _ _).
  destruct (split_fetches fi_Range fi_URLRange mk _ _ _ _ xorbs _ ((map mk <$> xorbs) ∪ r1_FetchInfo r) ltac:(done) E HR) as [HF HN].
  { intros k. rewrite lookup_union, lookup_fmap. destruct (xorbs !! k); cbn; by destruct (r1_FetchInfo r !! k). }
  by apply planReaderV1_serves.
Qed.

Lemma SplitTermsV2_ok content sh r ranges rng minTerms pieceBytes s r' s' :
  Inv s -> blocks_ok xc sh -> recorded xc xd_Chunks xd_Bytes offs (r2_Terms r) ranges -> fetches_of (r2_Xorbs r) ranges ->
  len (terms_content xc (r2_Terms r)) < 2 ^ 62 -> holds xc content rng (r2_OffsetIntoFirstRange r) (r2_Terms r) ->
  (forall h, grows 0 (offs h) /\ len (offs h) <= MaxChunksPerXorb) ->
  SplitTermsV2 sh r rng minTerms pieceBytes s = (Ok r', s') -> r' = r \/
  (r2_OffsetIntoFirstRange r' = r2_OffsetIntoFirstRange r /\
   cut_up (window (r2_OffsetIntoFirstRange r) rng pieceBytes) minTerms (r2_Terms r) (r2_Terms r') /\
   answers xc offs content rng (r2_OffsetIntoFirstRange r') (r2_Terms r') (planReaderV2 r')).
Proof.
  intros Hi Hb HR Hx Hl Hh Ho. unfold SplitTermsV2, mbind, prog_bind.
  destruct (splitTerms _ _ _ _ _ _ s) as [[[[terms xorbs]|]|] s1] eqn:E; [| |done]; [|intros [= -> _]; by left].
  destruct (existsb _ _) eqn:Ee; [done|]. intros [= <- <-]. right. split; [done|].
  apply splitTerms_spec in E; [|done|done|apply HR|done]. destruct (split_holds _ _ _ _ _ _ _ _ E eq_refl Hh) as [Hh' Hc]. split; [done|].
  split; [exact Hh'|]. set (mk := fun p => MkDescriptor (sp_Range p) (sp_packed p)).
  destruct (split_fetches xd_Chunks xd_Bytes mk _ _ _ _ xorbs ranges ((map mk <$> xorbs) ∪ ranges) ltac:(done) E HR) as [HF HN].
  { intros k. rewrite lookup_union, lookup_fmap. destruct (xorbs !! k); cbn; by destruct (ranges !! k). }
  apply (planReaderV2_serves offs Ho _ ((map mk <$> xorbs) ∪ ranges)); [exact HF|exact HN|]. intros k l. cbn [r2_Xorbs]. rewrite !lookup_union, lookup_fmap, map_lookup_imap.
  destruct (xorbs !! k) as [ps|] eqn:Ek; cbn.
  - assert (default [] (r2_Xorbs r !! k) <> []) as Hne.
    { intros En. apply not_true_iff_false in Ee. apply Ee, existsb_exists. exists (k, ps).
      split; [by apply list_elem_of_In, elem_of_map_to_list|]. by apply bool_decide_eq_true_2. }
    destruct (default [] (r2_Xorbs r !! k)) as [|f fs] eqn:Ed; [done|]. intros Hk.
    assert (l = map mk ps) as -> by (destruct (ranges !! k); cbn in Hk; congruence).
    exists (mr_URL f). destruct (r2_Xorbs r !! k); done.
  - intros Hk. assert (ranges !! k = Some l) as Hk' by (destruct (ranges !! k); cbn in Hk; congruence).
    destruct (Hx k l Hk') as [url ->]. by exists url.
Qed.

Lemma term_urls_total r xorbs terms :
  (forall t, t ∈ terms -> exists l x, r1_FetchInfo r !! t_Hash t = Some l /\ x ∈ l /\ covers (fi_Range x) t = true) ->
  exists urls, term_urls r xorbs terms = Ok urls.
Proof.
  induction terms as [|t terms IH]; intros H; [by exists []|]. cbn [term_urls].
  destruct IH as [urls ->]; [intros t' Ht'; apply H; by right|]. destruct (xorbs !! t_Hash t) as [ps|]; [|by eexists].
  destruct (H t ltac:(left)) as (l & x & -> & Hx & Hc). cbn [default].
  destruct (list_find_elem_of (fun e => covers (fi_Range e) t = true) l x Hx Hc) as [[i e] Hf]. cbn. rewrite Hf. by eexists.
Qed.

Lemma SplitTermsV1_total sh r rng minTerms pieceBytes s :
  Inv s -> blocks_ok xc sh -> recorded xc fi_Range fi_URLRange offs (r1_Terms r) (r1_FetchInfo r) ->
  len (terms_content xc (r1_Terms r)) < 2 ^ 62 -> answering (r1_Terms r) ->
  exists r' s', SplitTermsV1 sh r rng minTerms pieceBytes s = (Ok r', s').
Proof.
  intros Hi Hb HR Hl Ha. unfold SplitTermsV1, mbind, prog_bind.
  destruct (splitTerms_total _ _ _ sh (r1_Terms r) (r1_OffsetIntoFirstRange r) rng minTerms pieceBytes s Hi Hb HR Hl Ha)
    as ([[terms xorbs]|] & s1 & E); rewrite E; [|by eexists _, s1].
  destruct (term_urls_total r xorbs (r1_Terms r)) as [urls Hu]; [|unfold lift; rewrite Hu; by eexists _, s1].
  intros t Ht. destruct (proj1 (rd_fetch _ _ _ _ _ _ HR) t Ht) as (h & l & x & _ & Hx & Hin & Hc & _). by exists l, x.
Qed.

Lemma SplitTermsV2_total sh r ranges rng minTerms pieceBytes s :
  Inv s -> blocks_ok xc sh -> recorded xc xd_Chunks xd_Bytes offs (r2_Terms r) ranges -> fetches_of (r2_Xorbs r) ranges ->
  len (terms_content xc (r2_Terms r)) < 2 ^ 62 -> answering (r2_Terms r) ->
  exists r' s', SplitTermsV2 sh r rng minTerms pieceBytes s = (Ok r', s').
Proof.
  intros Hi Hb HR Hx Hl Ha. unfold SplitTermsV2, mbind, prog_bind.
  destruct (splitTerms_total _ _ _ sh (r2_Terms r) (r2_OffsetIntoFirstRange r) rng minTerms pieceBytes s Hi Hb HR Hl Ha)
    as ([[terms xorbs]|] & s1 & E); rewrite E; [|by eexists _, s1].
  destruct (existsb _ _) eqn:Ee; [exfalso|by eexists _, s1]. apply existsb_exists in Ee as ([k ps] & Hk & Ed).
  apply list_elem_of_In, elem_of_map_to_list in Hk. apply bool_decide_eq_true in Ed. cbn in Ed.
  apply splitTerms_spec in E as [_ _ _ _ _ SK _ _ _]; [|done|done|apply HR|done].
  destruct (SK k) as (t & Ht & <-); [by eexists|].
  destruct (proj1 (rd_fetch _ _ _ _ _ _ HR) t Ht) as (h & l & x & _ & Hy & _). destruct (Hx _ _ Hy) as [url Hu]. by rewrite Hu in Ed.
Qed.
End splitting.
End contents.

(** C9: splitting a response keeps what it answers.  Under the conditions of
    [response_answers], cut the terms of a response a server has built, in either
    version, for any number of terms and any smallest piece.  The result is the
    response itself, or one with the same offset whose terms hold the same bytes,
    in more terms but no more than asked for, each a term of old or with at least
    the floor of requested bytes; and the client's plan succeeds on it, with a
    fetch for each term that covers its chunks and asks for exactly their bytes.
    And the split succeeds whenever the store answers for the xorbs of the
    response. *)
Theorem split_answers {S : Type} {ST : Storage S} xc offs (Inv : S -> Prop) sh fileHash fb header minTerms pieceBytes (s : S) :
  (forall h s o s', Inv s -> GetXorbChunkOffsets h s = (Ok o, s') -> o = offs h /\ Inv s') ->
  (forall h s u s', Inv s -> GetXorbURL h s = (Ok u, s') -> Inv s') -> Inv s ->
  (forall h, grows 0 (offs h) /\ len (offs h) <= MaxChunksPerXorb) ->
  blocks_ok xc sh -> File sh fileHash = Some fb ->
  Forall (fun e => entry_ok xc e /\ fe_UnpackedSegBytes e < 2 ^ 32) (fb_Entries fb) ->
  let content := concat (map (entry_content xc) (fb_Entries fb)) in
  let rng := ParseByteRange header (len content) in
  len content < 2 ^ 62 ->
  (forall r s1, BuildReconstructionResponseV1 sh fileHash rng s = (Ok r, s1) ->
     (forall r' s2, SplitTermsV1 sh r rng minTerms pieceBytes s1 = (Ok r', s2) -> r' = r \/
        (r1_OffsetIntoFirstRange r' = r1_OffsetIntoFirstRange r /\
         cut_up xc (window (r1_OffsetIntoFirstRange r) rng pieceBytes) minTerms (r1_Terms r) (r1_Terms r') /\
         answers xc offs content rng (r1_OffsetIntoFirstRange r') (r1_Terms r') (planReaderV1 r'))) /\
     (answering Inv offs (r1_Terms r) -> exists r' s2, SplitTermsV1 sh r rng minTerms pieceBytes s1 = (Ok r', s2))) /\
  (forall r s1, BuildReconstructionResponseV2 sh fileHash rng s = (Ok r, s1) ->
     (forall r' s2, SplitTermsV2 sh r rng minTerms pieceBytes s1 = (Ok r', s2) -> r' = r \/
        (r2_OffsetIntoFirstRange r' = r2_OffsetIntoFirstRange r /\
         cut_up xc (window (r2_OffsetIntoFirstRange r) rng pieceBytes) minTerms (r2_Terms r) (r2_Terms r') /\
         answers xc offs content rng (r2_OffsetIntoFirstRange r') (r2_Terms r') (planReaderV2 r'))) /\
     (answering Inv offs (r2_Terms r) -> exists r' s2, SplitTermsV2 sh r rng minTerms pieceBytes s1 = (Ok r', s2))).
Proof.
  intros H1 H2 H3 H4 H5 H6 H7 content rng H8. split; intros r s1 Hr.
  - eapply (responseV1_built xc Inv) in Hr as (R1 & R2 & R3 & R4 & _); [|done..]. split.
    + intros r' s2. by apply (SplitTermsV1_ok xc Inv offs).
    + by apply (SplitTermsV1_total xc Inv offs).
  - eapply (responseV2_built xc Inv) in Hr as (R1 & R2 & (ranges & R3 & Rx) & R4 & _); [|done..]. split.
    + intros r' s2. by apply (SplitTermsV2_ok xc Inv offs H1 content sh r ranges).
    + by apply (SplitTermsV2_total xc Inv offs H1 sh r ranges).
Qed.

(** ** Witness *)

From S2P Require Import Memory.

Section witnesses.
#[local] Instance split_b3 : Blake3 := poly_blake3.
#[local] Instance split_lz4 : Lz4 := rle_lz4.
#[local] Instance split_bufs : ChunkBufs := zero_bufs.

Definition split_fb : FileBlock :=
  MkFileBlock (match ComputeFileHash (map ComputeChunkHash wit_chunks) (map len wit_chunks) with Ok h => h | Err _ => zeroHash end)
    0 [MkFileEntry wit_root 0 (len (concat wit_chunks)) 0 (len wit_chunks)] [] None.

(** The whole file, its one term of two chunks cut in two. *)
Lemma split_answers_witness :
  exists r s1 r' s2, BuildReconstructionResponseV1 one_file (fb_FileHash split_fb) (MkByteRange 0 2) one_xorb = (Ok r, s1) /\
    SplitTermsV1 one_file r (MkByteRange 0 2) 2 1 s1 = (Ok r', s2) /\ len (r1_Terms r) = 1 /\ len (r1_Terms r') = 2 /\
    answers one_xc (mem_offs one_xorb) (concat wit_chunks) (MkByteRange 0 2) (r1_OffsetIntoFirstRange r') (r1_Terms r') (planReaderV1 r').
Proof.
  assert (concat (map (entry_content one_xc) (fb_Entries split_fb)) = concat wit_chunks) as Hc by (vm_compute; reflexivity).
  assert (ParseByteRange (str "bytes=0-2") (len (concat wit_chunks)) = MkByteRange 0 2) as Hr by (vm_compute; reflexivity).
  assert (match BuildReconstructionResponseV1 one_file (fb_FileHash split_fb) (MkByteRange 0 2) one_xorb with
    | (Ok r, s1) => (len (r1_Terms r) =? 1) &&
        match SplitTermsV1 one_file r (MkByteRange 0 2) 2 1 s1 with (Ok r', _) => len (r1_Terms r') =? 2 | _ => false end
    | _ => false end = true) as Hrun by (vm_compute; reflexivity).
  destruct (split_answers one_xc (mem_offs one_xorb) (fun s => s = one_xorb) one_file (fb_FileHash split_fb) split_fb
    (str "bytes=0-2") 2 1 one_xorb) as [H _].
  - intros h s o s' -> Ho. exact (mem_offs_stable _ _ _ _ Ho).
  - intros h s u s' -> Hu. exact (f_equal snd (eq_sym Hu)).
  - reflexivity.
  - intros h. exact (mem_offs_ok _ h one_xorb_small).
  - intros b [->|Hb%not_elem_of_nil]%elem_of_cons; [|destruct Hb]. vm_compute. reflexivity.
  - vm_compute. reflexivity.
  - exact one_entry_ok.
  - rewrite Hc. vm_compute. reflexivity.
  - rewrite Hc, Hr in H. destruct (BuildReconstructionResponseV1 _ _ _ _) as [[r|e] s1] eqn:Eb; [|discriminate Hrun].
    apply andb_true_iff in Hrun as [E1%Z.eqb_eq Hrun]. destruct (H r s1 eq_refl) as [Hs _].
    destruct (SplitTermsV1 one_file r (MkByteRange 0 2) 2 1 s1) as [[r'|e] s2] eqn:Es; [|discriminate Hrun].
    apply Z.eqb_eq in Hrun. exists r, s1, r', s2. split; [reflexivity|]. split; [exact Es|]. split; [exact E1|]. split; [exact Hrun|].
    destruct (Hs r' s2 eq_refl) as [->|(_ & _ & Ha)]; [rewrite E1 in Hrun; discriminate Hrun|exact Ha].
Defined.
End witnesses.
