(* ===== verification/Server.v ===== *)
(** * The CAS server: [server/server.go], [server/shard_v2.go]

    The handlers over any backend of the storage contract: a handler takes the
    request and ends with a response, having used and changed the store.  The
    router is a third-party package: its result, the handler and the path
    variables, is an argument.  A response is kept as the value the handler
    writes, before [encoding/json] prints it, and content served by
    [http.ServeContent] as what it is given.

    The second version of the shard upload answers with a stream of frames
    while it reads, with a heartbeat goroutine that repeats the last frame; how
    often it does and which writes fail are the environment's choice. *)

From Stdlib Require Import ZArith Lia Strings.Byte Strings.String.
From stdpp Require Import gmap.
From S2P Require Import Prelude Hash Json Sha256 Gearhash Merkle Compression XorbEncoder XorbDecoder XorbOffsets.
From S2P Require Import Shard ShardCodec Prog Storage FileSystem Plan Auth Split.

(** ** Responses *)

Inductive content : Type :=
  | ContentBytes (b : list byte)
  | ContentFile (entries : list FileDataSequenceEntry).

#[global] Instance ChunkRange_eq_dec : EqDecision ChunkRange.
Proof. solve_decision. Defined.
#[global] Instance ByteRange_eq_dec : EqDecision ByteRange.
Proof. solve_decision. Defined.
#[global] Instance FetchInfoEntry_eq_dec : EqDecision FetchInfoEntry.
Proof. solve_decision. Defined.

(** [batchChunkDedupResult]. *)
Record batchChunkDedupResult : Type := MkChunkResult {
  bc_ChunkHash : gostring;
  bc_Found : bool;
  bc_XorbHash : gostring;
  bc_ChunkIndex : Z;
}.

Record BatchReconstructionResponse : Type := MkBatch {
  b_Files : gmap gostring (list Term);
  b_FetchInfo : gmap gostring (list FetchInfoEntry);
}.

(** What an error frame says. *)
Inductive message : Type :=
  | Said (s : gostring)
  | SaidErr (format : string) (e : error).

(** The events of [shard_v2.go]. *)
Inductive frame : Type :=
  | Validating (verified total : Z)
  | Committing (stage : gostring)
  | UploadResult
  | UploadError (m : message) (retryable : bool).

Inductive body : Type :=
  | NoBody
  | Text (s : gostring)
  | ErrText (e : error)
  | BodyV1 (r : ReconstructionResponseV1)
  | BodyV2 (r : ReconstructionResponseV2)
  | BodyBatch (r : BatchReconstructionResponse)
  | XorbUploadResponse (wasInserted : bool)
  | ShardUploadResponse (result : Z)
  | ChunkResults (l : list batchChunkDedupResult)
  | Octets (b : list byte)
  | Served (name : gostring) (c : content)
  | Frames (l : list frame).

Record response : Type := MkResponse {
  rs_Status : Z;
  rs_Header : list (gostring * gostring);
  rs_Body : body;
}.

Definition http_Error (msg : gostring) (status : Z) : response := MkResponse status [] (Text msg).
Definition error_response (e : error) (status : Z) : response := MkResponse status [] (ErrText e).
Definition json_response (b : body) : response := MkResponse 200 [(str "Content-Type", str "application/json")] b.
Definition octets_response (etag : gostring) (b : body) : response :=
  MkResponse 200 [(str "Content-Type", str "application/octet-stream"); (str "ETag", quote :: etag ++ [quote])] b.

(** [auth.Deny]. *)
Definition Deny (e : error) : response :=
  if errors_Is e ErrUnauthenticated
  then MkResponse 401 [(str "WWW-Authenticate", str "Bearer")] (ErrText e)
  else MkResponse 403 [] (ErrText e).

(** [io.LimitReader]. *)
Definition LimitReader (r : reader) (n : Z) : reader :=
  if n <=? len (rdata r) then Reader (take (Z.to_nat n) (rdata r)) EOF else r.

(** [io.ReadAll(http.MaxBytesReader(w, r.Body, n))]: too large, another error, or
    the body. *)
Definition read_body (r : reader) (n : Z) : response + list byte :=
  if n <? len (rdata r) then inl (http_Error (str "Request body too large") 413)
  else if bool_decide (rend r = EOF) then inr (rdata r)
  else inl (http_Error (str "Invalid request body") 400).

(** ** The handler *)

Record Handler : Type := MkHandler {
  h_authorizer : option Authorizer;
  h_splitMinTerms : Z;
  h_splitPieceBytes : Z;
}.

Definition maxShardUploadBytes : Z := 256 * 2 ^ 20.
Definition maxChunkQueryBodyBytes : Z := 2 ^ 20.
Definition maxTelemetryBodyBytes : Z := 2 ^ 20.

Definition splitsTerms (h : Handler) : bool := 1 <? h_splitMinTerms h.

(** [externalBase]. *)
Definition externalBase (r : request) : gostring :=
  let scheme := if rq_TLS r then str "https" else str "http" in
  let proto := rq_Header r (str "X-Forwarded-Proto") in
  (if bool_decide (proto = []) then scheme else proto) ++ str "://" ++ rq_Host r.

(** [checkShardUploadLength]. *)
Definition checkShardUploadLength (r : request) : option response :=
  if rq_ContentLength r <=? 0 then Some (http_Error (str "Content-Length header required") 411)
  else if maxShardUploadBytes <? rq_ContentLength r then Some (http_Error (str "Shard too large") 413)
  else None.

(** [authorizeShardFiles]. *)
Fixpoint authorize_files (a : Authorizer) (r : request) (files : list FileBlock) : option error :=
  match files with
  | [] => None
  | fb :: files =>
      let digest := match fb_MetadataExt fb with Some ext => SHA256Hash_String (me_SHA256Hash ext) | None => [] end in
      match a r (MkGrant Write (Some (fb_FileHash fb)) digest) with
      | Some e => Some e
      | None => authorize_files a r files
      end
  end.

Definition authorizeShardFiles (h : Handler) (r : request) (sh : Shard) : option error :=
  match h_authorizer h with
  | None => None
  | Some a => authorize_files a r (s_Files sh)
  end.

(** [batchChunkDedupQueryRequest] from JSON: strings, or null for the empty one;
    a repeated field starts afresh. *)
Fixpoint json_strings (l : list json) : option (list gostring) :=
  match l with
  | [] => Some []
  | v :: l =>
      match v, json_strings l with
      | JStr s, Some ss => Some (s :: ss)
      | JNull, Some ss => Some ([] :: ss)
      | _, _ => None
      end
  end.

Fixpoint chunk_hashes (acc : list gostring) (ms : list (gostring * json)) : option (list gostring) :=
  match ms with
  | [] => Some acc
  | (key, v) :: ms =>
      match field_of [str "chunk_hashes"] key with
      | None => chunk_hashes acc ms
      | Some _ =>
          match v with
          | JNull => chunk_hashes [] ms
          | JArr l => match json_strings l with Some ss => chunk_hashes ss ms | None => None end
          | _ => None
          end
      end
  end.

Definition Unmarshal_query (b : list byte) : option (list gostring) :=
  match parse b with
  | Some (JObj ms) => chunk_hashes [] ms
  | Some JNull => Some []
  | _ => None
  end.

(** [validTelemetryEnvelope]; [rfc3339] is [time.Parse(time.RFC3339, ts)]
    succeeding.  Members of a map are looked up by their exact name, the last
    one wins. *)
Definition member (ms : list (gostring * json)) (key : gostring) : option json := snd <$> last (filter (fun m => m.1 = key) ms).

Definition validTelemetryEnvelope (rfc3339 : gostring -> bool) (b : list byte) : bool :=
  match parse b with
  | Some (JObj ms) =>
      let snake := bool_decide (is_Some (member ms (str "user_agent"))) in
      let camel := bool_decide (is_Some (member ms (str "userAgent"))) in
      if Bool.eqb snake camel then false
      else
        let userAgent := if camel then str "userAgent" else str "user_agent" in
        let string_at key := match member ms key with Some (JStr s) => Some s | _ => None end in
        match string_at (str "time"), string_at (str "event"), string_at (str "session_id"), string_at userAgent with
        | Some ts, Some _, Some _, Some _ =>
            rfc3339 ts && match member ms (str "metrics") with Some (JObj _) => true | _ => false end
        | _, _, _, _ => false
        end
  | _ => false
  end.

Section server.
Context {B3 : Blake3} {S : Type} {ST : Storage S}.

(** [requestBaseStorage]: relative xorb URLs get the base. *)
Definition requestBaseStorage (base : gostring) : Storage S := {|
  storage_xorbs := storage_xorbs;
  time_Now := time_Now;
  PutXorb := PutXorb;
  HasXorb := HasXorb;
  GetXorbURL h :=
    u ← GetXorbURL h; mret (if (CutPrefix u (str "/")).2 then base ++ u else u);
  WalkXorbs := @WalkXorbs S _;
  DeleteXorb := DeleteXorb;
  PutShard := PutShard;
  GetShard := GetShard;
  GetShardByChunkHash := GetShardByChunkHash;
  GetShardByHash := GetShardByHash;
  LoadShard := LoadShard;
  WalkShards := @WalkShards S _;
  DeleteShard := DeleteShard;
  GetShardBySHA256 := GetShardBySHA256;
  GetFileHashBySHA256 := GetFileHashBySHA256;
  WalkFileIndex := @WalkFileIndex S _;
  GetFileIndexEntry := GetFileIndexEntry;
  DeleteFileIndexEntry := DeleteFileIndexEntry;
  GetChunkIndexEntry := GetChunkIndexEntry;
  DeleteChunkIndexEntry := DeleteChunkIndexEntry;
  WalkSHA256Index := @WalkSHA256Index S _;
  GetSHA256IndexEntry := GetSHA256IndexEntry;
  DeleteSHA256IndexEntry := DeleteSHA256IndexEntry;
|}.

Context (h : Handler).

(** [authorize]: the rest runs when the authorizer allows. *)
Definition authorize (r : request) (g : Grant) (k : prog S response) : prog S response :=
  match h_authorizer h with
  | None => k
  | Some a => match a r g with Some e => mret (Deny e) | None => k end
  end.

Definition zeroDigest : SHA256Hash := Sum256 [].

(** [handleXetBridge]. *)
Definition handleXetBridge (r : request) : prog S response :=
  let sha := rq_Vars r (str "sha256") in
  match hex_decode sha with
  | None => mret (http_Error (str "Invalid SHA-256 digest") 400)
  | Some raw =>
      if negb (len raw =? 32) then mret (http_Error (str "Invalid SHA-256 digest") 400)
      else
        let digest : SHA256Hash := to_arr 32 raw in
        if bool_decide (digest = zeroDigest) then mret (octets_response sha (Served sha (ContentBytes [])))
        else
          catch (GetShardBySHA256 digest)
            (fun sh =>
              match FindFileBySHA256 sh digest with
              | None => mret (http_Error (str "File not found") 404)
              | Some file => mret (octets_response sha (Served sha (ContentFile (fb_Entries file))))
              end)
            (fun _ => mret (http_Error (str "File not found") 404))
  end.

(** [handleHasXorb]. *)
Definition handleHasXorb (r : request) : prog S response :=
  authorize r (MkGrant Write None []) (
  match parseHash (rq_Vars r (str "xorb_hash")) with
  | Err _ => mret (http_Error (str "Invalid xorb hash") 400)
  | Ok xorbHash =>
      catch (HasXorb xorbHash)
        (fun exists_ => mret (MkResponse (if (exists_ : bool) then 200 else 404) [] NoBody))
        (fun _ => mret (http_Error (str "Failed to check xorb") 500))
  end).

(** [handleGetReconstruction]. *)
Definition handleGetReconstruction (r : request) : prog S response :=
  match parseHash (rq_Vars r (str "file_hash")) with
  | Err _ => mret (http_Error (str "Invalid file hash") 400)
  | Ok fileHash =>
      authorize r (MkGrant Read (Some fileHash) []) (
      catch (GetShard fileHash)
        (fun sh =>
          let rng := ParseByteRange (rq_Header r (str "Range")) (UnpackedSize (File sh fileHash)) in
          catch (@BuildReconstructionResponseV1 S (requestBaseStorage (externalBase r)) sh fileHash rng)
            (fun resp =>
              if splitsTerms h
              then catch (SplitTermsV1 sh resp rng (h_splitMinTerms h) (h_splitPieceBytes h))
                     (fun split => mret (json_response (BodyV1 split))) (fun _ => mret (json_response (BodyV1 resp)))
              else mret (json_response (BodyV1 resp)))
            (fun e => mret (error_response e 500)))
        (fun _ => mret (http_Error (str "File not found") 404)))
  end.

(** [handleGetReconstructionV2]. *)
Definition handleGetReconstructionV2 (r : request) : prog S response :=
  match parseHash (rq_Vars r (str "file_hash")) with
  | Err _ => mret (http_Error (str "Invalid file hash") 400)
  | Ok fileHash =>
      authorize r (MkGrant Read (Some fileHash) []) (
      catch (GetShard fileHash)
        (fun sh =>
          let rng := ParseByteRange (rq_Header r (str "Range")) (UnpackedSize (File sh fileHash)) in
          catch (@BuildReconstructionResponseV2 S (requestBaseStorage (externalBase r)) sh fileHash rng)
            (fun resp =>
              if splitsTerms h
              then catch (SplitTermsV2 sh resp rng (h_splitMinTerms h) (h_splitPieceBytes h))
                     (fun split => mret (json_response (BodyV2 split))) (fun _ => mret (json_response (BodyV2 resp)))
              else mret (json_response (BodyV2 resp)))
            (fun e => mret (error_response e 500)))
        (fun _ => mret (http_Error (str "File not found") 404)))
  end.

(** [handleBatchGetReconstruction]: the hashes first, then every grant, then the
    files that can be served. *)
Fixpoint parse_ids (ids : list gostring) : result (list FileHash) :=
  match ids with
  | [] => Ok []
  | id :: ids => hh ← parseHash id; hs ← parse_ids ids; Ok (hh :: hs)
  end.

Fixpoint authorize_reads (r : request) (hashes : list FileHash) (k : prog S response) : prog S response :=
  match hashes with
  | [] => k
  | fileHash :: hashes => authorize r (MkGrant Read (Some fileHash) []) (authorize_reads r hashes k)
  end.

Definition add_fetch (m : gmap gostring (list FetchInfoEntry)) (kv : gostring * list FetchInfoEntry) : gmap gostring (list FetchInfoEntry) :=
  foldl (fun m e => let old := default [] (m !! kv.1) in
           if bool_decide (e ∈ old) then m else <[kv.1 := old ++ [e]]> m) m kv.2.

Fixpoint batch_files (r : request) (hashes : list FileHash) (batch : BatchReconstructionResponse) : prog S BatchReconstructionResponse :=
  match hashes with
  | [] => mret batch
  | fileHash :: hashes =>
      catch (GetShard fileHash)
        (fun sh =>
          let rng := ParseByteRange [] (UnpackedSize (File sh fileHash)) in
          catch (@BuildReconstructionResponseV1 S (requestBaseStorage (externalBase r)) sh fileHash rng)
            (fun single =>
              batch_files r hashes (MkBatch (<[formatHash fileHash := r1_Terms single]> (b_Files batch))
                (foldl add_fetch (b_FetchInfo batch) (map_to_list (r1_FetchInfo single)))))
            (fun _ => batch_files r hashes batch))
        (fun _ => batch_files r hashes batch)
  end.

Definition handleBatchGetReconstruction (r : request) : prog S response :=
  let ids := rq_Query r (str "file_id") in
  if len ids =? 0 then authorize r (MkGrant Read None []) (mret (json_response (BodyBatch (MkBatch ∅ ∅))))
  else
    match parse_ids ids with
    | Err e => mret (error_response (Wrapf "invalid file_id %q: %v" e) 400)
    | Ok hashes =>
        authorize_reads r hashes (
        batch ← batch_files r hashes (MkBatch ∅ ∅);
        mret (json_response (BodyBatch batch)))
    end.

(** [handleUploadXorb]. *)
Definition handleUploadXorb (r : request) : prog S response :=
  authorize r (MkGrant Write None []) (
  if rq_ContentLength r <=? 0 then mret (http_Error (str "Content-Length header required") 411)
  else
    match parseHash (rq_Vars r (str "xorb_hash")) with
    | Err _ => mret (http_Error (str "Invalid xorb hash") 400)
    | Ok xorbHash =>
        catch (PutXorb xorbHash (LimitReader (rq_Body r) (rq_ContentLength r)))
          (fun wasInserted => mret (json_response (XorbUploadResponse wasInserted)))
          (fun _ => mret (http_Error (str "Failed to store xorb") 500))
    end).

(** [handleDownloadXorb]. *)
Definition handleDownloadXorb (r : request) : prog S response :=
  let name := rq_Vars r (str "xorb_hash") in
  match parseHash name with
  | Err _ => mret (http_Error (str "Invalid xorb hash") 400)
  | Ok xorbHash =>
      catch (GetXorbReadSeekCloser xorbHash)
        (fun data => mret (octets_response (formatHash xorbHash) (Served name (ContentBytes data))))
        (fun _ => mret (http_Error (str "Xorb not found") 404))
  end.

(** ** Shards *)

(** [shardObj.Decode(body, false)]. *)
Definition decode_upload (r : reader) : result Shard :=
  '((sh, _), _) ← Shard_decode (fun st (_ : CASBlock) => Ok st) None false tt r; Ok sh.

(** [storeUploadedShard]: a status, 0 for a refusal, and an error, or whether the
    shard was inserted. *)
Fixpoint all_uploaded (blocks : list CASBlock) : prog S bool :=
  match blocks with
  | [] => mret true
  | cb :: blocks =>
      catch (HasXorb (cb_CASHash cb)) (fun exists_ => if (exists_ : bool) then all_uploaded blocks else mret false) (fun _ => mret false)
  end.

Definition storeUploadedShard (r : request) : prog S (Z * error + bool) :=
  match decode_upload (LimitReader (rq_Body r) (rq_ContentLength r)) with
  | Err e => mret (inl (400, Wrapf "invalid shard format: %w" e))
  | Ok sh =>
      match Shard_Validate sh with
      | Err e => mret (inl (400, Wrapf "invalid shard: %w" e))
      | Ok _ =>
          match authorizeShardFiles h r sh with
          | Some e => mret (inl (0, e))
          | None =>
              uploaded ← all_uploaded (s_CASInfos sh);
              if negb uploaded then mret (inl (400, Errorf "invalid shard: referenced xorb not uploaded"))
              else
                catch (PutShard sh) (fun wasInserted => mret (inr wasInserted))
                  (fun e => if errors_Is e ErrInvalidShard then mret (inl (400, e))
                            else mret (inl (500, Errorf "failed to store shard")))
          end
      end
  end.

(** [handleUploadShard]. *)
Definition handleUploadShard (r : request) : prog S response :=
  authorize r (MkGrant Write None []) (
  match checkShardUploadLength r with
  | Some resp => mret resp
  | None =>
      stored ← storeUploadedShard r;
      match stored with
      | inl (status, e) => mret (if status =? 0 then Deny e else error_response e status)
      | inr wasInserted => mret (json_response (ShardUploadResponse (if (wasInserted : bool) then 1 else 0)))
      end
  end).

(** ** Chunks *)

(** [shardObj.Encode(true)] copied to the response; the clock is asked only for a
    shard without footer. *)
Definition encode_response (sh : Shard) : prog S response :=
  now ← (if bool_decide (is_Some (s_Footer sh)) then mret 0 else time_Now);
  let now := seconds now in
  match ReadAll (Datatypes.S (length (encoded now sh true))) (Encode now sh true) [] with
  | Ok data => mret (MkResponse 200 [(str "Content-Type", str "application/octet-stream")] (Octets data))
  | Err _ => mret (MkResponse 200 [(str "Content-Type", str "application/octet-stream")] (Octets []))
  end.

(** [handleQueryChunk]. *)
Definition handleQueryChunk (r : request) : prog S response :=
  authorize r (MkGrant Write None []) (
  match parseHash (rq_Vars r (str "chunk_hash")) with
  | Err _ => mret (http_Error (str "Invalid chunk hash") 400)
  | Ok chunkHash => catch (GetShardByChunkHash chunkHash) encode_response (fun _ => mret (MkResponse 404 [] NoBody))
  end).

(** One hash of [handleQueryChunksBatch]. *)
Definition query_chunk (name : gostring) : prog S batchChunkDedupResult :=
  let absent := MkChunkResult name false [] 0 in
  match parseHash name with
  | Err _ => mret absent
  | Ok chunkHash =>
      catch (GetShardByChunkHash chunkHash)
        (fun sh =>
          match LookupChunk sh chunkHash with
          | None => mret absent
          | Some loc => mret (MkChunkResult name true (formatHash (cl_XorbHash loc)) (cl_ChunkIndex loc))
          end)
        (fun _ => mret absent)
  end.

Fixpoint query_chunks (names : list gostring) : prog S (list batchChunkDedupResult) :=
  match names with
  | [] => mret []
  | name :: names => res ← query_chunk name; results ← query_chunks names; mret (res :: results)
  end.

Definition handleQueryChunksBatch (r : request) : prog S response :=
  authorize r (MkGrant Write None []) (
  match read_body (rq_Body r) maxChunkQueryBodyBytes with
  | inl resp => mret resp
  | inr data =>
      match Unmarshal_query data with
      | None => mret (http_Error (str "Invalid request body") 400)
      | Some names => results ← query_chunks names; mret (json_response (ChunkResults results))
      end
  end).

(** [handleTelemetry]. *)
Definition handleTelemetry (rfc3339 : gostring -> bool) (r : request) : prog S response :=
  authorize r (MkGrant Read None []) (
  match read_body (rq_Body r) maxTelemetryBodyBytes with
  | inl resp => mret resp
  | inr data =>
      if validTelemetryEnvelope rfc3339 data then mret (MkResponse 200 [] NoBody)
      else mret (http_Error (str "Invalid request body") 400)
  end).
End server.

(** ** The streaming shard upload: [shard_v2.go] *)

(** How a write of a frame ends: delivered, or an error, before or after the
    frame went out. *)
Inductive delivery : Type := Delivered | WriteFailed | FlushFailed.

(** [shardUploadStream] with what its environment does: the delivery of the
    [n]th event, and how often the heartbeat repeats the last frame before it. *)
Record stream : Type := MkStream {
  sm_frames : list frame;
  sm_last : option frame;
  sm_sends : nat;
  sm_delivery : nat -> delivery;
  sm_beats : nat -> nat;
}.

Definition ErrWrite : error := Errorf "write response".

(** [send], after the heartbeats of the time before. *)
Definition send (ev : frame) (st : stream) : option error * stream :=
  let beats := match sm_last st with Some f => replicate (sm_beats st (sm_sends st)) f | None => [] end in
  let frames := sm_frames st ++ beats in
  let next := Datatypes.S (sm_sends st) in
  match sm_delivery st (sm_sends st) with
  | Delivered => (None, MkStream (frames ++ [ev]) (Some ev) next (sm_delivery st) (sm_beats st))
  | WriteFailed => (Some ErrWrite, MkStream frames (sm_last st) next (sm_delivery st) (sm_beats st))
  | FlushFailed => (Some ErrWrite, MkStream (frames ++ [ev]) (Some ev) next (sm_delivery st) (sm_beats st))
  end.

Section shard_v2.
Context {S : Type} {ST : Storage S} (h : Handler).

(** The store, the stream and the variables the decode callback closes over. *)
Record v2state : Type := MkV2 {
  v_store : S;
  v_stream : stream;
  v_verified : Z;
  v_total : Z;
  v_message : gostring;
  v_retryable : bool;
}.

Definition with_store {A} (m : prog S A) : prog v2state A := fun v =>
  let '(r, s) := m (v_store v) in
  (r, MkV2 s (v_stream v) (v_verified v) (v_total v) (v_message v) (v_retryable v)).

Definition emit (ev : frame) : prog v2state unit := fun v =>
  let '(e, st) := send ev (v_stream v) in
  (match e with None => Ok tt | Some e => Err e end,
   MkV2 (v_store v) st (v_verified v) (v_total v) (v_message v) (v_retryable v)).

Definition emit_progress : prog v2state unit := fun v => emit (Validating (v_verified v) (v_total v)) v.

Definition set_counters (f : Z -> Z -> Z * Z) : prog v2state unit := fun v =>
  let '(verified, total) := f (v_verified v) (v_total v) in
  (Ok tt, MkV2 (v_store v) (v_stream v) verified total (v_message v) (v_retryable v)).

(** [callbackMessage] and [callbackRetryable] set, and the error they stand for. *)
Definition fail_callback (msg : gostring) (retryable : bool) (e : error) : prog v2state unit := fun v =>
  (Err e, MkV2 (v_store v) (v_stream v) (v_verified v) (v_total v) msg retryable).

(** The callback on a decoded CAS block. *)
Definition check_block (cb : CASBlock) : prog v2state unit :=
  _ ← set_counters (fun verified total => (verified, u64 (total + 1)));
  _ ← emit_progress;
  catch (with_store (HasXorb (cb_CASHash cb)))
    (fun exists_ =>
      if (exists_ : bool) then
        _ ← set_counters (fun verified total => (u64 (verified + 1), total));
        emit_progress
      else fail_callback (str "invalid shard: referenced xorb not uploaded") false
             (Errorf "invalid shard: referenced xorb not uploaded"))
    (fun _ => fail_callback (str "failed to check referenced xorb") true (Errorf "failed to check referenced xorb")).

(** [DecodeWithCASBlockCallback(body, false, check_block)]: the decoder of
    [shard/decode.go], with a callback that acts on the handler's state. *)
Fixpoint decode_blocks_with (fuel : nat) (acc : list CASBlock) (r : reader) : prog v2state (list CASBlock * reader) :=
  match fuel with
  | O => throw (Panic "out of fuel")
  | Datatypes.S fuel =>
      '(buf, r) ← lift (read_or "failed to read CAS section: %w" 48 r);
      if isBookend buf then mret (acc, r)
      else
        '(cb, r) ← lift (decode_cas buf r);
        _ ← prog_wrap "process CAS block %d: %w" (check_block cb);
        decode_blocks_with fuel (acc ++ [cb]) r
  end.

Definition DecodeWithCASBlockCallback (r : reader) : prog v2state Shard :=
  '(buf, r) ← lift (read_or "failed to read header: %w" 48 r);
  if bool_decide (slice 15 32 buf <> shardMagicSequence) then throw (Errorf "invalid shard magic sequence")
  else if negb (le_val (slice 32 40 buf) =? 2) then throw (Errorf "unsupported shard version: %d")
  else
    let footerSize := le_val (slice 40 48 buf) in
    if negb (footerSize =? 0) then throw (Errorf "footer unexpected: FooterSize=%d")
    else
      '(files, r) ← lift (decode_files (Datatypes.S (length (rdata r))) [] r);
      '(cas, r) ← decode_blocks_with (Datatypes.S (length (rdata r))) [] r;
      mret (MkShard footerSize files cas None).

(** [finishWithError]; a failure to say it is ignored. *)
Definition finishWithError (m : message) (retryable : bool) : prog v2state unit :=
  catch (emit (UploadError m retryable)) mret (fun _ => mret tt).

(** The two stages of the commit and the last frame. *)
Definition commit_shard (sh : Shard) : prog v2state unit :=
  catch (emit (Committing (str "uploading"))) (fun _ =>
  catch (with_store (PutShard sh)) (fun _ =>
    catch (emit (Committing (str "syncing"))) (fun _ =>
    catch (emit UploadResult) mret (fun _ => mret tt)) (fun _ => mret tt))
  (fun e => if errors_Is e ErrInvalidShard then finishWithError (SaidErr "%v" e) false
            else finishWithError (Said (str "failed to store shard")) true))
  (fun _ => mret tt).

(** What is checked of a decoded shard before it is committed. *)
Definition admit_shard (r : request) (sh : Shard) : prog v2state unit :=
  match Shard_Validate sh with
  | Err e => finishWithError (SaidErr "invalid shard: %v" e) false
  | Ok _ =>
      match authorizeShardFiles h r sh with
      | Some e => finishWithError (SaidErr "%v" e) false
      | None => commit_shard sh
      end
  end.

(** The handler from the first frame on. *)
Definition upload_stream (r : request) : prog v2state unit :=
  catch (emit (Validating 0 0)) (fun _ =>
  catch (DecodeWithCASBlockCallback (LimitReader (rq_Body r) (rq_ContentLength r)))
    (admit_shard r)
    (fun e v =>
      (if bool_decide (v_message v <> []) then finishWithError (Said (v_message v)) (v_retryable v)
       else finishWithError (SaidErr "invalid shard format: %v" e) false) v))
  (fun _ => mret tt).

(** [handleUploadShardV2]. *)
Definition handleUploadShardV2 (deliver : nat -> delivery) (beats : nat -> nat) (r : request) : prog S response :=
  authorize h r (MkGrant Write None []) (
  match checkShardUploadLength r with
  | Some resp => mret resp
  | None => fun s =>
      let v := (upload_stream r (MkV2 s (MkStream [] None 0 deliver beats) 0 0 [] false)).2 in
      (Ok (MkResponse 200 [(str "Content-Type", str "application/x-ndjson"); (str "Cache-Control", str "no-cache")]
             (Frames (sm_frames (v_stream v)))), v_store v)
  end).
End shard_v2.
