(* ===== verification/ServerProofs.v ===== *)
(** * What the handlers guarantee

    [refused_request_inert]: a request the authorizer refuses reads nothing and
    changes nothing.  [upload_versions_agree]: the two versions of the shard
    upload accept the same shards and leave the same store.  [stream_protocol]:
    the frames of the second version follow the protocol, and a result is only
    reported for a shard that was stored. *)

From Stdlib Require Import ZArith Lia Strings.Byte Strings.String.
From stdpp Require Import gmap.
From S2P Require Import Prelude Hash Json Sha256 Gearhash Merkle Compression XorbEncoder XorbDecoder XorbOffsets.
From S2P Require Import Shard ShardCodec Prog Storage FileSystem PutShard Memory MemoryPut Reconstruct Plan Auth Split Server.

(** ** Routes *)

(** The routes of [registerRoutes], with what their handlers' environments
    decide. *)
Inductive route : Type :=
  | RReconstruction
  | RReconstructionV2
  | RBatch
  | RUploadXorb
  | RHasXorb
  | RDownloadXorb
  | RQueryChunk
  | RQueryChunks
  | RUploadShard
  | RUploadShardV2 (deliver : nat -> delivery) (beats : nat -> nat)
  | RXetBridge
  | RTelemetry (rfc3339 : gostring -> bool).

Section routes.
Context {B3 : Blake3} {S : Type} {ST : Storage S} (h : Handler).

(** The handler of a route. *)
Definition serve (rt : route) (r : request) : prog S response :=
  match rt with
  | RReconstruction => handleGetReconstruction h r
  | RReconstructionV2 => handleGetReconstructionV2 h r
  | RBatch => handleBatchGetReconstruction h r
  | RUploadXorb => handleUploadXorb h r
  | RHasXorb => handleHasXorb h r
  | RDownloadXorb => handleDownloadXorb r
  | RQueryChunk => handleQueryChunk h r
  | RQueryChunks => handleQueryChunksBatch h r
  | RUploadShard => handleUploadShard h r
  | RUploadShardV2 deliver beats => handleUploadShardV2 h deliver beats r
  | RXetBridge => handleXetBridge r
  | RTelemetry rfc3339 => handleTelemetry h rfc3339 r
  end.

(** What a route requires before it looks at the store. *)
Definition file_grant (fileHash : FileHash) : Grant := MkGrant Read (Some fileHash) [].

Definition required (rt : route) (r : request) : list Grant :=
  match rt with
  | RReconstruction | RReconstructionV2 =>
      match parseHash (rq_Vars r (str "file_hash")) with Ok fileHash => [file_grant fileHash] | Err _ => [] end
  | RBatch =>
      if len (rq_Query r (str "file_id")) =? 0 then [MkGrant Read None []]
      else match parse_ids (rq_Query r (str "file_id")) with Ok hashes => map file_grant hashes | Err _ => [] end
  | RUploadXorb | RHasXorb | RQueryChunk | RQueryChunks | RUploadShard | RUploadShardV2 _ _ => [MkGrant Write None []]
  | RTelemetry _ => [MkGrant Read None []]
  | RDownloadXorb | RXetBridge => []
  end.

Lemma authorize_refused a r g e (k : prog S response) : h_authorizer h = Some a -> a r g = Some e -> authorize h r g k = mret (Deny e).
Proof. intros Ha Hg. unfold authorize. by rewrite Ha, Hg. Qed.

Lemma authorize_reads_refused a r hashes (k : prog S response) g e :
  h_authorizer h = Some a -> g ∈ map file_grant hashes -> a r g = Some e ->
  exists g' e', g' ∈ map file_grant hashes /\ a r g' = Some e' /\ authorize_reads h r hashes k = mret (Deny e').
Proof.
  intros Ha. induction hashes as [|fh hashes IH]; cbn [map authorize_reads]; [by intros ?%elem_of_nil|].
  intros Hin Hg. unfold authorize. rewrite Ha. destruct (a r (file_grant fh)) as [e'|] eqn:E; unfold file_grant in E.
  - rewrite E. exists (file_grant fh), e'. split; [apply elem_of_cons; by left|done].
  - rewrite E. apply elem_of_cons in Hin as [->|Hin]; [unfold file_grant in Hg; congruence|]. destruct (IH Hin Hg) as (g' & e' & Hin' & Hg' & Hk).
    exists g', e'. split; [apply elem_of_cons; by right|done].
Qed.

(** The grants of the files of a shard. *)
Definition file_grants (sh : Shard) : list Grant :=
  map (fun fb => MkGrant Write (Some (fb_FileHash fb))
    match fb_MetadataExt fb with Some ext => SHA256Hash_String (me_SHA256Hash ext) | None => [] end) (s_Files sh).

Lemma authorize_files_refused a r sh g e :
  h_authorizer h = Some a -> g ∈ file_grants sh -> a r g = Some e ->
  exists g' e', g' ∈ file_grants sh /\ a r g' = Some e' /\ authorizeShardFiles h r sh = Some e'.
Proof.
  intros Ha. unfold authorizeShardFiles, file_grants. rewrite Ha. induction (s_Files sh) as [|fb files IH]; cbn [map authorize_files]; [by intros ?%elem_of_nil|].
  set (g0 := MkGrant Write _ _). intros Hin Hg. destruct (a r g0) as [e'|] eqn:E.
  - exists g0, e'. split; [apply elem_of_cons; by left|done].
  - apply elem_of_cons in Hin as [->|Hin]; [congruence|]. destruct (IH Hin Hg) as (g' & e' & Hin' & Hg' & Hk).
    exists g', e'. split; [apply elem_of_cons; by right|done].
Qed.

(** C23: a refused request is inert.  When the authorizer refuses a grant that a
    route requires, the answer is the refusal, whatever the store holds, and
    the store is as it was.  The same holds of a shard upload with a decodable,
    valid shard when the authorizer refuses a file in it, however small the
    part of the shard that file is. *)
Theorem refused_request_inert rt r a g e :
  h_authorizer h = Some a -> a r g = Some e ->
  (g ∈ required rt r ->
   exists g' e', g' ∈ required rt r /\ a r g' = Some e' /\ forall s, serve rt r s = (Ok (Deny e'), s)) /\
  (forall sh, checkShardUploadLength r = None -> decode_upload (LimitReader (rq_Body r) (rq_ContentLength r)) = Ok sh ->
   Shard_Validate sh = Ok tt -> g ∈ file_grants sh ->
   exists g' e', a r g' = Some e' /\ (g' ∈ file_grants sh \/ g' ∈ required RUploadShard r) /\
     forall s, serve RUploadShard r s = (Ok (Deny e'), s)).
Proof.
  intros Ha Hg. split.
  - destruct rt; cbn [required serve]; intros Hin.
    1,2: unfold handleGetReconstruction, handleGetReconstructionV2; destruct (parseHash _) as [fh|]; [|by apply elem_of_nil in Hin];
      apply list_elem_of_singleton in Hin as ->; exists (file_grant fh), e; split; [by apply list_elem_of_singleton|]; split; [done|];
      intros s; by rewrite (authorize_refused a r _ e _ Ha Hg).
    1: { unfold handleBatchGetReconstruction. destruct (_ =? 0).
      - apply list_elem_of_singleton in Hin as ->. eexists _, e. split; [by apply list_elem_of_singleton|]. split; [done|].
        intros s. by rewrite (authorize_refused a r _ e _ Ha Hg).
      - destruct (parse_ids _) as [hashes|]; [|by apply elem_of_nil in Hin].
        destruct (authorize_reads_refused a r hashes (batch ← batch_files r hashes (MkBatch ∅ ∅); mret (json_response (BodyBatch batch))) g e Ha Hin Hg)
          as (g' & e' & Hin' & Hg' & Hk).
        exists g', e'. split; [done|]. split; [done|]. intros s. by rewrite Hk. }
    all: try (by apply elem_of_nil in Hin); apply list_elem_of_singleton in Hin as ->; eexists _, e; (split; [by apply list_elem_of_singleton|]);
      (split; [done|]); intros s; unfold handleUploadXorb, handleHasXorb, handleQueryChunk, handleQueryChunksBatch, handleUploadShard,
        handleUploadShardV2, handleTelemetry; by rewrite (authorize_refused a r _ e _ Ha Hg).
  - intros sh Hlen Hdec Hval Hin. cbn [required serve]. unfold handleUploadShard.
    destruct (a r (MkGrant Write None [])) as [e0|] eqn:E0.
    { eexists _, e0. split; [exact E0|]. split; [right; by apply list_elem_of_singleton|]. intros s. by rewrite (authorize_refused a r _ e0 _ Ha E0). }
    destruct (authorize_files_refused a r sh g e Ha Hin Hg) as (g' & e' & Hin' & Hg' & Hk).
    exists g', e'. split; [done|]. split; [by left|]. intros s. unfold authorize. rewrite Ha, E0, Hlen.
    unfold storeUploadedShard. by rewrite Hdec, Hval, Hk.
Qed.
End routes.

(** ** The protocol of the upload stream *)

Inductive phase : Type := Waiting | Counting (verified total : Z) | Uploading | Syncing | Finished.

(** What may follow: counters in step, the two stages of the commit, one
    terminal frame; a heartbeat repeats the frame of the phase. *)
Definition advance (p : phase) (f : frame) : option phase :=
  match p, f with
  | Waiting, Validating v t => if (v =? 0) && (t =? 0) then Some (Counting 0 0) else None
  | Counting v t, Validating v' t' =>
      if (v' =? v) && (t' =? t) then Some p
      else if (v =? t) && (v' =? v) && (t' =? u64 (t + 1)) then Some (Counting v' t')
      else if (t =? u64 (v + 1)) && (v' =? t) && (t' =? t) then Some (Counting v' t')
      else None
  | Counting v t, Committing st => if (v =? t) && bool_decide (st = str "uploading") then Some Uploading else None
  | Counting _ _, UploadError _ _ => Some Finished
  | Uploading, Committing st =>
      if bool_decide (st = str "uploading") then Some Uploading
      else if bool_decide (st = str "syncing") then Some Syncing else None
  | Uploading, UploadError _ _ => Some Finished
  | Syncing, Committing st => if bool_decide (st = str "syncing") then Some Syncing else None
  | Syncing, UploadResult => Some Finished
  | _, _ => None
  end.

Fixpoint run_frames (p : phase) (fs : list frame) : option phase :=
  match fs with
  | [] => Some p
  | f :: fs => match advance p f with Some p => run_frames p fs | None => None end
  end.

Lemma run_frames_app p fs fs' : run_frames p (fs ++ fs') = match run_frames p fs with Some p => run_frames p fs' | None => None end.
Proof. revert p. induction fs as [|f fs IH]; intros p; cbn; [done|]. destruct (advance p f); [apply IH|done]. Qed.

Lemma run_frames_repeat p f n : advance p f = Some p -> run_frames p (replicate n f) = Some p.
Proof. intros Hf. induction n as [|n IH]; [done|]. cbn [replicate run_frames]. rewrite Hf. exact IH. Qed.

(** A result ends the frames it is in. *)
Lemma result_last p fs q :
  run_frames p fs = Some q -> UploadResult ∈ fs -> q = Finished /\ exists fs', fs = fs' ++ [UploadResult].
Proof.
  revert p. induction fs as [|f fs IH]; intros p; cbn; [by intros _ ?%elem_of_nil|].
  destruct (advance p f) as [p'|] eqn:Ea; [|done]. intros Hr [<-|Hin]%elem_of_cons.
  - assert (p' = Finished) as -> by (destruct p; cbn in Ea; congruence). destruct fs as [|f' fs]; [|done]. injection Hr as <-. split; [done|]. by exists [].
  - destruct (IH p' Hr Hin) as [-> [fs' ->]]. split; [done|]. by exists (f :: fs').
Qed.

(** The stream has said what leads to phase [p], and may repeat it. *)
Definition stream_at (p : phase) (st : stream) : Prop :=
  run_frames Waiting (sm_frames st) = Some p /\ (p <> Finished -> forall f, sm_last st = Some f -> advance p f = Some p).

Lemma send_at ev p p' st :
  stream_at p st -> p <> Finished -> advance p ev = Some p' -> (p' <> Finished -> advance p' ev = Some p') ->
  let '(e, st') := send ev st in
  sm_delivery st' = sm_delivery st /\
  match e with
  | None => stream_at p' st' /\ last (sm_frames st') = Some ev
  | Some _ => (stream_at p st' \/ stream_at p' st' /\ last (sm_frames st') = Some ev) /\ exists n, sm_delivery st n <> Delivered
  end.
Proof.
  intros [Hr Hl] Hp Ha Hrep. unfold send. set (beats := match sm_last st with Some f => _ | None => [] end).
  assert (run_frames Waiting (sm_frames st ++ beats) = Some p) as Hb.
  { rewrite run_frames_app, Hr. subst beats. destruct (sm_last st) as [f|]; [|done]. apply run_frames_repeat, Hl; done. }
  assert (run_frames Waiting ((sm_frames st ++ beats) ++ [ev]) = Some p') as He by (rewrite run_frames_app, Hb; cbn; by rewrite Ha).
  destruct (sm_delivery st (sm_sends st)) eqn:Ed; cbn; (split; [done|]).
  - split; [|by rewrite last_snoc]. split; [done|]. intros Hp' f [= <-]. by apply Hrep.
  - split; [left; split; [done|exact Hl]|]. exists (sm_sends st). congruence.
  - split; [|exists (sm_sends st); congruence]. right. split; [|by rewrite last_snoc]. split; [done|]. intros Hp' f [= <-]. by apply Hrep.
Qed.

Section stream_proofs.
Context {S : Type} {ST : Storage S} (h : Handler).

Abbreviation vprog := (prog (@v2state S)).

(** Everything but the stream. *)
Definition rest_of (v : @v2state S) : S * Z * Z * gostring * bool :=
  (v_store v, v_verified v, v_total v, v_message v, v_retryable v).

Definition at_phase (p : phase) (v : @v2state S) : Prop := stream_at p (v_stream v).

(** Whether some event is not delivered. *)
Definition faulty (v : @v2state S) : Prop := exists n, sm_delivery (v_stream v) n <> Delivered.

Lemma emit_at ev p p' v :
  at_phase p v -> p <> Finished -> advance p ev = Some p' -> (p' <> Finished -> advance p' ev = Some p') ->
  exists r v', emit ev v = (r, v') /\ rest_of v' = rest_of v /\ (faulty v' <-> faulty v) /\
    match r with
    | Ok _ => at_phase p' v' /\ last (sm_frames (v_stream v')) = Some ev
    | Err _ => (at_phase p v' \/ at_phase p' v' /\ last (sm_frames (v_stream v')) = Some ev) /\ faulty v
    end.
Proof.
  intros Hp Hne Ha Hrep. pose proof (send_at ev p p' (v_stream v) Hp Hne Ha Hrep) as Hs. unfold emit.
  destruct (send ev (v_stream v)) as [e st]. destruct Hs as [Hd Hs]. eexists _, _. split; [done|]. split; [done|].
  split; [unfold faulty; cbn; by rewrite Hd|]. by destruct e.
Qed.

(** Between two blocks: the counters agree and nothing went wrong. *)
Definition counted (n : Z) (v : @v2state S) : Prop :=
  at_phase (Counting n n) v /\ v_verified v = n /\ v_total v = n /\ v_message v = [] /\ 0 <= n < 2 ^ 64.

Lemma u64_succ n : 0 <= n < 2 ^ 64 -> u64 (n + 1) <> n /\ 0 <= u64 (n + 1) < 2 ^ 64.
Proof.
  intros Hn. unfold u64. destruct (decide (n + 1 = 2 ^ 64)) as [E|]; [rewrite E, Z.mod_same by lia; lia|].
  rewrite Z.mod_small by lia. lia.
Qed.

Lemma advance_repeat a b : advance (Counting a b) (Validating a b) = Some (Counting a b).
Proof. cbn. by rewrite !Z.eqb_refl. Qed.

Lemma advance_total n : 0 <= n < 2 ^ 64 -> advance (Counting n n) (Validating n (u64 (n + 1))) = Some (Counting n (u64 (n + 1))).
Proof.
  intros [Hn _]%u64_succ. cbn. rewrite !Z.eqb_refl. destruct (Z.eqb_spec (u64 (n + 1)) n); [done|]. done.
Qed.

Lemma advance_verified n : 0 <= n < 2 ^ 64 ->
  advance (Counting n (u64 (n + 1))) (Validating (u64 (n + 1)) (u64 (n + 1))) = Some (Counting (u64 (n + 1)) (u64 (n + 1))).
Proof.
  intros [Hn _]%u64_succ. cbn. rewrite !Z.eqb_refl. destruct (Z.eqb_spec (u64 (n + 1)) n); [done|].
  destruct (Z.eqb_spec n (u64 (n + 1))); [congruence|]. done.
Qed.

(** The block is checked: the store has the xorb, or not. *)
Lemma check_block_spec cb n v :
  counted n v ->
  exists r v', check_block cb v = (r, v') /\ (faulty v' <-> faulty v) /\
    (v_store v' = v_store v \/ v_store v' = (HasXorb (cb_CASHash cb) (v_store v)).2) /\
    match r with
    | Ok _ => (HasXorb (cb_CASHash cb) (v_store v)).1 = Ok true /\ exists m, counted m v'
    | Err _ => (exists a b, at_phase (Counting a b) v') /\ (faulty v \/ (HasXorb (cb_CASHash cb) (v_store v)).1 <> Ok true)
    end.
Proof.
  intros (Hp & Hv & Ht & Hm & Hn). unfold check_block. set (m := u64 (n + 1)).
  set (v1 := MkV2 (v_store v) (v_stream v) n m (v_message v) (v_retryable v)).
  assert (set_counters (fun verified total => (verified, u64 (total + 1))) v = (Ok tt, v1)) as E1 by (unfold set_counters; by rewrite Hv, Ht).
  rewrite (prog_bind_Ok _ _ _ _ _ E1). unfold mbind at 1, prog_bind at 1. change (emit_progress v1) with (emit (Validating n m) v1).
  destruct (emit_at (Validating n m) (Counting n n) (Counting n m) v1) as (r & v2 & E2 & Hr2 & Hf2 & H2);
    [done|done|by apply advance_total|intros _; apply advance_repeat|]. rewrite E2.
  injection Hr2 as Hs2 Hv2 Ht2 Hm2 Hb2. cbn [v1 v_store v_verified v_total v_message v_retryable] in Hs2, Hv2, Ht2, Hm2, Hb2.
  destruct r as [u|e].
  2: { exists (Err e), v2. split; [done|]. split; [done|]. split; [left; congruence|]. destruct H2 as [H2 Hf]. split; [|by left].
       destruct H2 as [H2|[H2 _]]; eauto. }
  destruct H2 as [H2 _]. unfold catch, with_store. rewrite Hs2. destruct (HasXorb (cb_CASHash cb) (v_store v)) as [x s'] eqn:Ex. cbn [fst snd].
  set (v3 := MkV2 s' (v_stream v2) (v_verified v2) (v_total v2) (v_message v2) (v_retryable v2)).
  assert (faulty v3 <-> faulty v) as Hf3 by exact Hf2.
  destruct x as [[|]|e].
  - set (v4 := MkV2 s' (v_stream v2) m m (v_message v2) (v_retryable v2)).
    assert (set_counters (fun verified total => (u64 (verified + 1), total)) v3 = (Ok tt, v4)) as E4
      by (unfold set_counters; cbn [v3 v_store v_stream v_verified v_total v_message v_retryable]; by rewrite Hv2, Ht2).
    rewrite (prog_bind_Ok _ _ _ _ _ E4). change (emit_progress v4) with (emit (Validating m m) v4).
    destruct (emit_at (Validating m m) (Counting n m) (Counting m m) v4) as (r & v5 & E5 & Hr5 & Hf5 & H5);
      [exact H2|done|by apply advance_verified|intros _; apply advance_repeat|]. rewrite E5.
    injection Hr5 as Hs5 Hv5 Ht5 Hm5 Hb5. cbn [v4 v_store v_verified v_total v_message v_retryable] in Hs5, Hv5, Ht5, Hm5, Hb5.
    exists r, v5. split; [done|]. split; [by rewrite Hf5|]. split; [by right|]. destruct r as [u'|e].
    + destruct H5 as [H5 _]. split; [done|]. exists m. split; [done|]. split; [done|]. split; [done|]. split; [congruence|]. by apply u64_succ.
    + destruct H5 as [H5 Hf]. split; [|left; by apply Hf3]. destruct H5 as [H5|[H5 _]]; eauto.
  - eexists (Err _), _. split; [reflexivity|]. split; [exact Hf3|]. split; [by right|]. split; [|by right]. by exists n, m.
  - eexists (Err _), _. split; [reflexivity|]. split; [exact Hf3|]. split; [by right|]. split; [|by right]. by exists n, m.
Qed.

(** The blocks of a shard follow those already read. *)
Abbreviation pure_blocks := (decode_cas_blocks (fun (st : unit) (_ : CASBlock) => Ok st)).

Lemma pure_blocks_extend fuel acc rd cas rd' :
  pure_blocks fuel acc tt rd = Ok ((cas, tt), rd') -> exists new, cas = acc ++ new.
Proof.
  revert acc rd. induction fuel as [|fuel IH]; intros acc rd; [done|]. cbn [decode_cas_blocks].
  destruct (read_or _ 48 rd) as [[buf r1]|]; cbn [mbind result_bind]; [|done]. destruct (isBookend buf).
  { intros [= <- <-]. exists []. by rewrite app_nil_r. }
  destruct (decode_cas buf r1) as [[cb r2]|]; cbn [mbind result_bind wrap_err]; [|done]. intros [new ->]%IH.
  exists (cb :: new). by rewrite <- app_assoc.
Qed.

(** A backend whose [HasXorb] only looks. *)
Definition looks : Prop := forall hash s, (HasXorb hash s).2 = s.

Definition has (s : S) (cb : CASBlock) : Prop := (HasXorb (cb_CASHash cb) s).1 = Ok true.

(** The decoder with its callback: what the decoder alone reads, as long as
    every block's xorb is there. *)
Lemma decode_blocks_spec fuel acc rd n v :
  counted n v ->
  exists r v', decode_blocks_with fuel acc rd v = (r, v') /\ (faulty v' <-> faulty v) /\
    match r with
    | Ok (cas, rd') => (exists m, counted m v') /\ pure_blocks fuel acc tt rd = Ok ((cas, tt), rd')
    | Err _ => exists a b, at_phase (Counting a b) v'
    end /\
    (looks -> v_store v' = v_store v /\
     match r with
     | Ok (cas, _) => exists new, cas = acc ++ new /\ Forall (has (v_store v)) new
     | Err _ => faulty v \/ forall new rd', pure_blocks fuel acc tt rd = Ok ((acc ++ new, tt), rd') -> ~ Forall (has (v_store v)) new
     end).
Proof.
  revert acc rd n v. induction fuel as [|fuel IH]; intros acc rd n v Hc; cbn [decode_blocks_with decode_cas_blocks].
  { eexists (Err _), v. split; [reflexivity|]. split; [done|]. split; [exists n, n; apply Hc|]. intros _. split; [done|]. by right. }
  unfold mbind at 1, prog_bind at 1, lift at 1.
  destruct (read_or _ 48 rd) as [[buf r1]|e]; cbn [mbind result_bind].
  2: { eexists (Err _), v. split; [reflexivity|]. split; [done|]. split; [exists n, n; apply Hc|]. intros _. split; [done|]. by right. }
  destruct (isBookend buf).
  { eexists (Ok _), v. split; [reflexivity|]. split; [done|]. split; [split; [by exists n|done]|]. intros _. split; [done|].
    exists []. split; [by rewrite app_nil_r|constructor]. }
  unfold mbind at 1, prog_bind at 1, lift at 1. destruct (decode_cas buf r1) as [[cb r2]|e]; cbn [mbind result_bind wrap_err].
  2: { eexists (Err _), v. split; [reflexivity|]. split; [done|]. split; [exists n, n; apply Hc|]. intros _. split; [done|]. by right. }
  destruct (check_block_spec cb n v Hc) as (r & v1 & E1 & Hf1 & Hs1 & H1). unfold mbind at 1, prog_bind at 1, prog_wrap, catch at 1. rewrite E1.
  assert (looks -> v_store v1 = v_store v) as Hst by (intros Hl; destruct Hs1 as [->|Hs1]; [done|rewrite Hs1; apply Hl]).
  destruct r as [u|e].
  - destruct H1 as [Hhas [m Hm]]. destruct (IH (acc ++ [cb]) r2 m v1 Hm) as (r & v2 & E2 & Hf2 & H2 & H3).
    exists r, v2. split; [exact E2|]. split; [by rewrite Hf2|]. split; [exact H2|]. intros Hl. specialize (H3 Hl) as [Hs H3].
    rewrite (Hst Hl) in Hs, H3. split; [exact Hs|]. destruct r as [[cas rd']|e].
    + destruct H3 as (new & -> & Hnew). exists (cb :: new). split; [by rewrite <- app_assoc|]. by constructor.
    + destruct H3 as [H3|H3]; [left; by apply Hf1|]. right. intros new rd' Hp. destruct (pure_blocks_extend _ _ _ _ _ Hp) as [new' Hn].
      rewrite <- app_assoc in Hn. apply app_inv_head in Hn. cbn in Hn. subst new. intros [_ Hnew]%Forall_cons.
      apply (H3 new' rd'); [by rewrite <- app_assoc|exact Hnew].
  - eexists (Err _), v1. split; [reflexivity|]. split; [done|]. destruct H1 as [Hph H1]. split; [exact Hph|]. intros Hl. split; [by apply Hst|].
    destruct H1 as [H1|H1]; [by left|right]. intros new rd' Hp. destruct (pure_blocks_extend _ _ _ _ _ Hp) as [new' Hn].
    rewrite <- app_assoc in Hn. apply app_inv_head in Hn. cbn in Hn. subst new. by intros [? _]%Forall_cons.
Qed.

(** What both versions of the upload look for in the body. *)
Definition uploaded (r : request) : result Shard := decode_upload (LimitReader (rq_Body r) (rq_ContentLength r)).

Lemma decode_with_spec rd n v :
  counted n v ->
  exists r v', DecodeWithCASBlockCallback rd v = (r, v') /\ (faulty v' <-> faulty v) /\
    match r with
    | Ok sh => (exists m, counted m v') /\ decode_upload rd = Ok sh
    | Err _ => exists a b, at_phase (Counting a b) v'
    end /\
    (looks -> v_store v' = v_store v /\
     match r with
     | Ok sh => Forall (has (v_store v)) (s_CASInfos sh)
     | Err _ => faulty v \/ forall sh, decode_upload rd = Ok sh -> ~ Forall (has (v_store v)) (s_CASInfos sh)
     end).
Proof.
  intros Hc.
  assert (forall e, decode_upload rd = Err e -> forall e', exists r v', (Err e', v) = (r, v') /\ (faulty v' <-> faulty v) /\
    match r with Ok sh => (exists m, counted m v') /\ decode_upload rd = Ok sh | Err _ => exists a b, at_phase (Counting a b) v' end /\
    (looks -> v_store v' = v_store v /\
     match r with
     | Ok sh => Forall (has (v_store v)) (s_CASInfos sh)
     | Err _ => faulty v \/ forall sh, decode_upload rd = Ok sh -> ~ Forall (has (v_store v)) (s_CASInfos sh)
     end)) as Hfail.
  { intros e He e'. exists (Err e'), v. split; [done|]. split; [done|]. split; [exists n, n; apply Hc|]. intros _. split; [done|]. right. congruence. }
  unfold DecodeWithCASBlockCallback. unfold decode_upload, Shard_decode in Hfail |- *. unfold mbind at 1, prog_bind at 1, lift at 1.
  destruct (read_or _ 48 rd) as [[buf r1]|e]; cbn [mbind result_bind] in Hfail |- *; [|by eapply Hfail].
  destruct (bool_decide _); [by eapply Hfail|]. destruct (negb (le_val (slice 32 40 buf) =? 2)); [by eapply Hfail|].
  cbn [andb negb] in Hfail |- *. destruct (le_val (slice 40 48 buf) =? 0) eqn:Ez; cbn [negb] in Hfail |- *; [|by eapply Hfail].
  apply Z.eqb_eq in Ez. rewrite Ez in Hfail |- *. cbn [Z.ltb Z.compare] in Hfail |- *. unfold mbind at 1, prog_bind at 1, lift at 1.
  destruct (decode_files _ [] r1) as [[files r2]|e]; cbn [mbind result_bind] in Hfail |- *; [|by eapply Hfail]. clear Hfail.
  destruct (decode_blocks_spec (Datatypes.S (length (rdata r2))) [] r2 n v Hc) as (r & v' & E & Hf & H1 & H2).
  unfold mbind at 1, prog_bind at 1. rewrite E. destruct r as [[cas rd']|e].
  - destruct H1 as [Hm Hp]. eexists (Ok _), v'. split; [reflexivity|]. split; [done|]. rewrite Hp. cbn [mbind result_bind].
    split; [by split|]. intros Hl. specialize (H2 Hl) as [Hs (new & Hn & Hnew)]. split; [done|]. cbn in Hn. by subst new.
  - eexists (Err e), v'. split; [reflexivity|]. split; [done|]. split; [done|]. intros Hl. specialize (H2 Hl) as [Hs H2]. split; [done|].
    destruct H2 as [H2|H2]; [by left|right]. intros sh. destruct (pure_blocks _ [] tt r2) as [[[cas []] rd']|] eqn:Ep; cbn [mbind result_bind]; [|done].
    intros [= <-]. cbn. by apply (H2 cas rd').
Qed.

(** What the shard of an upload must be for the store to be asked to put it. *)
Definition admissible (r : request) (s : S) (sh : Shard) : Prop :=
  uploaded r = Ok sh /\ Shard_Validate sh = Ok tt /\ authorizeShardFiles h r sh = None /\ Forall (has s) (s_CASInfos sh).

(** The contract of a shard upload, whatever the version: whether it succeeds,
    and the store after it. *)
Inductive upload_outcome (r : request) (s : S) : bool -> S -> Prop :=
  | Stored sh b s' : admissible r s sh -> PutShard sh s = (Ok b, s') -> upload_outcome r s true s'
  | NotStored sh e s' : admissible r s sh -> PutShard sh s = (Err e, s') -> upload_outcome r s false s'
  | Refused : (forall sh, ~ admissible r s sh) -> upload_outcome r s false s.

(** What the stream said was a result. *)
Definition reported (v : @v2state S) : Prop := UploadResult ∈ sm_frames (v_stream v).

(** The stream has ended, or an event was lost. *)
Definition ended (v v' : @v2state S) : Prop := exists q, at_phase q v' /\ (faulty v \/ q = Finished).

Lemma not_reported p v : at_phase p v -> p <> Finished -> ~ reported v.
Proof. intros [Hr _] Hp Hin. by destruct (result_last _ _ _ Hr Hin) as [-> _]. Qed.

Lemma last_reported p v ev : at_phase p v -> last (sm_frames (v_stream v)) = Some ev -> ev <> UploadResult -> ~ reported v.
Proof.
  intros [Hr _] Hl Hev Hin. destruct (result_last _ _ _ Hr Hin) as [_ [fs' Hfs]]. rewrite Hfs, last_snoc in Hl. congruence.
Qed.

Lemma finish_spec p m b v :
  at_phase p v -> p <> Finished -> advance p (UploadError m b) = Some Finished ->
  exists v', finishWithError m b v = (Ok tt, v') /\ v_store v' = v_store v /\ ended v v' /\ ~ reported v'.
Proof.
  intros Hp Hne Ha. destruct (emit_at (UploadError m b) p Finished v Hp Hne Ha) as (r & v' & E & Hr & _ & H); [done|].
  exists v'. unfold finishWithError, catch. rewrite E. injection Hr as Hs _ _ _ _.
  destruct r as [[]|e]; (split; [done|]); (split; [done|]).
  - destruct H as [H Hl]. split; [exists Finished; auto|]. by apply (last_reported Finished v' (UploadError m b)).
  - destruct H as [[H|[H Hl]] Hf].
    + split; [exists p; auto|]. by apply (not_reported p).
    + split; [exists Finished; auto|]. by apply (last_reported Finished v' (UploadError m b)).
Qed.

(** The commit: a result is reported only after the shard is stored. *)
Lemma commit_spec sh n v :
  counted n v ->
  exists v', commit_shard sh v = (Ok tt, v') /\ ended v v' /\
    (reported v' -> exists b, PutShard sh (v_store v) = (Ok b, v_store v')) /\
    (faulty v \/ v_store v' = (PutShard sh (v_store v)).2 /\ (reported v' <-> exists b, (PutShard sh (v_store v)).1 = Ok b)).
Proof.
  intros (Hp & _). unfold commit_shard.
  destruct (emit_at (Committing (str "uploading")) (Counting n n) Uploading v Hp) as (r1 & v1 & E1 & Hr1 & Hf1 & H1); [done| |done|].
  { cbn. by rewrite Z.eqb_refl. }
  unfold catch at 1. rewrite E1. injection Hr1 as Hs1 _ _ _ _. destruct r1 as [u1|e1].
  2: { exists v1. split; [done|]. destruct H1 as [H1 Hf]. destruct H1 as [H1|[H1 _]].
       - split; [exists (Counting n n); auto|]. split; [|by left]. intros Hrep. by destruct (not_reported _ _ H1 ltac:(done) Hrep).
       - split; [exists Uploading; auto|]. split; [|by left]. intros Hrep. by destruct (not_reported _ _ H1 ltac:(done) Hrep). }
  destruct H1 as [H1 _]. unfold catch at 1, with_store. rewrite Hs1. destruct (PutShard sh (v_store v)) as [[b|e] s'] eqn:Ep; cbn [fst snd].
  2: { set (v2 := MkV2 s' _ _ _ _ _).
       assert (forall m rt, exists v', finishWithError m rt v2 = (Ok tt, v') /\ ended v v' /\ (reported v' -> exists b, (@Err bool e, s') = (Ok b, v_store v')) /\
         (faulty v \/ v_store v' = s' /\ (reported v' <-> exists b : bool, Err e = Ok b))) as Hfin.
       { intros m rt. destruct (finish_spec Uploading m rt v2 H1) as (v' & E & Hs & [q [Hq Hor]] & Hn); [done|done|].
         exists v'. split; [done|]. split; [exists q; split; [done|]; destruct Hor as [Hor|Hor]; [left; by apply Hf1|by right]|].
         split; [by intros ?%Hn|]. right. split; [done|]. split; [by intros ?%Hn|]. by intros [b [=]]. }
       destruct (errors_Is e ErrInvalidShard); apply Hfin. }
  set (v2 := MkV2 s' (v_stream v1) _ _ _ _). assert (faulty v2 <-> faulty v) as Hf2 by exact Hf1.
  destruct (emit_at (Committing (str "syncing")) Uploading Syncing v2 H1) as (r3 & v3 & E3 & Hr3 & Hf3 & H3); [done|done|done|].
  unfold catch at 1. rewrite E3. injection Hr3 as Hs3 _ _ _ _. cbn [v2 v_store] in Hs3. destruct r3 as [u3|e3].
  2: { exists v3. split; [done|]. destruct H3 as [H3 Hf]. apply Hf2 in Hf. destruct H3 as [H3|[H3 _]].
       - split; [exists Uploading; auto|]. split; [|by left]. intros Hrep. by destruct (not_reported _ _ H3 ltac:(done) Hrep).
       - split; [exists Syncing; auto|]. split; [|by left]. intros Hrep. by destruct (not_reported _ _ H3 ltac:(done) Hrep). }
  destruct H3 as [H3 _]. destruct (emit_at UploadResult Syncing Finished v3 H3) as (r4 & v4 & E4 & Hr4 & Hf4 & H4); [done|done|done|].
  unfold catch. rewrite E4. injection Hr4 as Hs4 _ _ _ _. exists v4. destruct r4 as [u4|e4].
  - destruct u4. split; [done|]. destruct H4 as [H4 Hl]. split; [exists Finished; auto|]. split; [intros _; exists b; congruence|].
    right. split; [congruence|]. split; [by exists b|]. intros _. by apply last_Some_elem_of.
  - split; [done|]. destruct H4 as [H4 Hf]. apply Hf3, Hf2 in Hf. split; [destruct H4 as [H4|[H4 _]]; eexists; eauto|]. split; [|by left].
    intros _. exists b. congruence.
Qed.

(** What the upload with stream leaves, from its first frame. *)
Definition first (s : S) (deliver : nat -> delivery) (beats : nat -> nat) : @v2state S := MkV2 s (MkStream [] None 0 deliver beats) 0 0 [] false.

Definition streamed (r : request) (v v' : @v2state S) : Prop :=
  ended v v' /\
  (reported v' -> exists sh s0 b, uploaded r = Ok sh /\ Shard_Validate sh = Ok tt /\ authorizeShardFiles h r sh = None /\
     PutShard sh s0 = (Ok b, v_store v')) /\
  (looks -> faulty v \/ exists ok, upload_outcome r (v_store v) ok (v_store v') /\ (reported v' <-> ok = true)).

(** A refusal keeps what the stream promises. *)
Lemma refuse_spec r v v' a b m rt :
  at_phase (Counting a b) v' -> (faulty v' <-> faulty v) ->
  (looks -> v_store v' = v_store v) -> (looks -> faulty v \/ forall sh, ~ admissible r (v_store v) sh) ->
  exists v'', finishWithError m rt v' = (Ok tt, v'') /\ streamed r v v''.
Proof.
  intros Hp Hf Hs Hrej. destruct (finish_spec (Counting a b) m rt v' Hp) as (v'' & E & Hs' & [q [Hq Hor]] & Hn); [done|done|].
  exists v''. split; [exact E|]. split; [exists q; split; [done|]; destruct Hor as [?%Hf|Hor]; [by left|by right]|].
  split; [by intros ?%Hn|]. intros Hl. destruct (Hrej Hl) as [Hrej'|Hrej']; [by left|right]. exists false. rewrite Hs', (Hs Hl).
  split; [by apply Refused|]. split; [by intros ?%Hn|done].
Qed.

Lemma admit_spec r sh n v v' :
  counted n v' -> (faulty v' <-> faulty v) -> uploaded r = Ok sh ->
  (looks -> v_store v' = v_store v /\ Forall (has (v_store v)) (s_CASInfos sh)) ->
  exists v'', admit_shard h r sh v' = (Ok tt, v'') /\ streamed r v v''.
Proof.
  intros Hc Hf Hu Hl. assert (at_phase (Counting n n) v') as Hp by apply Hc.
  assert (forall sh', admissible r (v_store v) sh' -> sh' = sh) as Hsame by (intros sh' [Hu' _]; congruence).
  unfold admit_shard. destruct (Shard_Validate sh) as [[]|e] eqn:Ev.
  2: { apply (refuse_spec r v v' n n); [done|done|by intros [? _]%Hl|]. intros _. right. intros sh' Ha. rewrite (Hsame sh' Ha) in Ha. destruct Ha as (_ & ? & _). congruence. }
  destruct (authorizeShardFiles h r sh) as [e|] eqn:Ea.
  { apply (refuse_spec r v v' n n); [done|done|by intros [? _]%Hl|]. intros _. right. intros sh' Ha. rewrite (Hsame sh' Ha) in Ha. destruct Ha as (_ & _ & ? & _). congruence. }
  destruct (commit_spec sh n v' Hc) as (v'' & E & [q [Hq Hor]] & Hrep & Hout). exists v''. split; [done|].
  split; [exists q; split; [done|]; destruct Hor as [?%Hf|Hor]; [by left|by right]|].
  split; [intros [b Hb]%Hrep; by exists sh, (v_store v'), b|]. intros [Hs Hall]%Hl. rewrite Hs in Hout.
  destruct Hout as [?%Hf|[Hst Hiff]]; [by left|right]. assert (admissible r (v_store v) sh) as Hadm by done.
  destruct (PutShard sh (v_store v)) as [[b|e] s'] eqn:Ep; cbn [fst snd] in Hst, Hiff; subst s'.
  - exists true. split; [by eapply Stored|]. split; [done|]. intros _. apply Hiff. by exists b.
  - exists false. split; [by eapply NotStored|]. split; [|done]. intros [b [=]]%Hiff.
Qed.

Lemma upload_stream_spec r s deliver beats :
  exists v', upload_stream h r (first s deliver beats) = (Ok tt, v') /\ streamed r (first s deliver beats) v'.
Proof.
  set (v := first s deliver beats). unfold upload_stream.
  destruct (emit_at (Validating 0 0) Waiting (Counting 0 0) v) as (r1 & v1 & E1 & Hr1 & Hf1 & H1); [by split|done|done|done|].
  unfold catch at 1. rewrite E1. injection Hr1 as Hs1 Hv1 Ht1 Hm1 _. cbn [v first v_store v_verified v_total v_message] in Hs1, Hv1, Ht1, Hm1.
  destruct r1 as [u1|e1].
  2: { exists v1. split; [done|]. destruct H1 as [H1 Hf]. assert (exists q, at_phase q v1 /\ q <> Finished) as [q [Hq Hne]].
       { destruct H1 as [H1|[H1 _]]; [by exists Waiting|by exists (Counting 0 0)]. }
       split; [exists q; auto|]. split; [|by left]. intros Hrep. by destruct (not_reported q v1). }
  destruct H1 as [H1 _]. assert (counted 0 v1) as Hc by (split; [exact H1|lia || auto with lia]).
  destruct (decode_with_spec (LimitReader (rq_Body r) (rq_ContentLength r)) 0 v1 Hc) as (r2 & v2 & E2 & Hf2 & H2 & Hl2).
  unfold catch at 1. rewrite E2. rewrite Hs1 in Hl2. rewrite Hf1 in Hf2. destruct r2 as [sh|e].
  - destruct H2 as [[m Hm] Hu]. by apply (admit_spec r sh m v v2).
  - destruct H2 as (a & b & Hp).
    assert (looks -> v_store v2 = s) as Hst by (by intros [? _]%Hl2).
    assert (looks -> faulty v \/ forall sh, ~ admissible r s sh) as Hrej.
    { intros [_ Hx]%Hl2. destruct Hx as [?%Hf1|Hx]; [by left|right]. intros sh (Hu & _ & _ & Hall). exact (Hx sh Hu Hall). }
    destruct (bool_decide _); by apply (refuse_spec r v v2 a b).
Qed.

(** The blocks' xorbs are all there, for a backend that only looks. *)
Lemma all_uploaded_spec blocks s :
  looks -> exists b, all_uploaded blocks s = (Ok b, s) /\ (b = true <-> Forall (has s) blocks).
Proof.
  intros Hl. induction blocks as [|cb blocks (b & E & Hb)]; cbn [all_uploaded]; [exists true; split; [done|]; by split|].
  unfold catch. rewrite (surjective_pairing (HasXorb _ s)), Hl. destruct (HasXorb (cb_CASHash cb) s).1 as [[|]|e] eqn:Eh; cbn [fst snd].
  - exists b. split; [exact E|]. rewrite Forall_cons, Hb. unfold has at 2. rewrite Eh. by intuition.
  - exists false. split; [done|]. rewrite Forall_cons. unfold has at 1. rewrite Eh. split; [done|]. by intros [[=] _].
  - exists false. split; [done|]. rewrite Forall_cons. unfold has at 1. rewrite Eh. split; [done|]. by intros [[=] _].
Qed.

(** The first version meets the contract. *)
Lemma store_uploaded_spec r s :
  looks -> exists out ok s', storeUploadedShard h r s = (Ok out, s') /\ upload_outcome r s ok s' /\
    match out with inr _ => ok = true | inl (status, _) => ok = false /\ status <> 200 end.
Proof.
  intros Hl. unfold storeUploadedShard. fold (uploaded r).
  assert (forall out : Z * error + bool, match out with inr _ => False | inl (status, _) => status <> 200 end ->
    (forall sh, ~ admissible r s sh) -> exists (out' : Z * error + bool) ok s'', (Ok out, s) = (Ok out', s'') /\ upload_outcome r s ok s'' /\
    match out' with inr _ => ok = true | inl (status, _) => ok = false /\ status <> 200 end) as Hrej.
  { intros out Hout Hno. exists out, false, s. split; [done|]. split; [by apply Refused|]. by destruct out as [[status e]|b]. }
  destruct (uploaded r) as [sh|e] eqn:Eu.
  2: { apply Hrej; [done|]. intros sh [Hu _]. congruence. }
  assert (forall sh', admissible r s sh' -> sh' = sh) as Hsame by (intros sh' [Hu' _]; congruence).
  destruct (Shard_Validate sh) as [[]|e] eqn:Ev.
  2: { apply Hrej; [done|]. intros sh' Ha. rewrite (Hsame sh' Ha) in Ha. destruct Ha as (_ & ? & _). congruence. }
  destruct (authorizeShardFiles h r sh) as [e|] eqn:Ea.
  { apply Hrej; [done|]. intros sh' Ha. rewrite (Hsame sh' Ha) in Ha. destruct Ha as (_ & _ & ? & _). congruence. }
  destruct (all_uploaded_spec (s_CASInfos sh) s Hl) as (b & E & Hb). rewrite (prog_bind_Ok _ _ _ _ _ E). destruct b; cbn [negb].
  2: { apply Hrej; [done|]. intros sh' Ha. rewrite (Hsame sh' Ha) in Ha. destruct Ha as (_ & _ & _ & Hall). by apply Hb in Hall. }
  assert (admissible r s sh) as Hadm by (repeat split; try done; by apply Hb).
  unfold catch. destruct (PutShard sh s) as [[b|e] s'] eqn:Ep.
  - exists (inr b), true, s'. split; [done|]. split; [by eapply Stored|done].
  - destruct (errors_Is e ErrInvalidShard); eexists (inl (_, _)), false, s'; (split; [done|]); (split; [by eapply NotStored|done]).
Qed.

Lemma Deny_status e : rs_Status (Deny e) <> 200.
Proof. unfold Deny. by destruct (errors_Is e ErrUnauthenticated). Qed.

(** The contract leaves no choice. *)
Lemma upload_outcome_unique r s ok1 s1 ok2 s2 : upload_outcome r s ok1 s1 -> upload_outcome r s ok2 s2 -> ok1 = ok2 /\ s1 = s2.
Proof.
  assert (forall sh sh', admissible r s sh -> admissible r s sh' -> sh = sh') as Hsame by (intros sh sh' [Hu _] [Hu' _]; congruence).
  intros H1 H2. destruct H1 as [sh b s1 Ha1 Hp1|sh b s1 Ha1 Hp1|Hr1]; destruct H2 as [sh' b' s2 Ha2 Hp2|sh' b' s2 Ha2 Hp2|Hr2];
    try (pose proof (Hsame sh sh' Ha1 Ha2); subst sh'; split; congruence); try (by destruct (Hr1 _ Ha2)); try (by destruct (Hr2 _ Ha1)). done.
Qed.

(** At the door. *)
Lemma authorize_choice r g :
  (forall k : prog S response, authorize h r g k = k) \/ (exists e, forall k : prog S response, authorize h r g k = mret (Deny e)).
Proof. unfold authorize. destruct (h_authorizer h) as [a|]; [|by left]. destruct (a r g) as [e|]; [right; by exists e|by left]. Qed.

Lemma checkShardUploadLength_status r resp : checkShardUploadLength r = Some resp -> rs_Status resp <> 200.
Proof. unfold checkShardUploadLength. destruct (_ <=? 0); [by intros [= <-]|]. destruct (_ <? _); [by intros [= <-]|done]. Qed.

Definition body_frames (b : body) : list frame := match b with Frames l => l | _ => [] end.

(** C21: the stream of an upload follows its protocol.  Whatever fails on the way
    (the body, the store, the connection), the frames of [POST /v2/shards] are
    a run of the protocol automaton: counters that move one at a time, the two
    stages of the commit, at most one terminal frame and nothing after it,
    with heartbeats that only repeat the frame of the phase.  When every event
    is delivered, the terminal frame is there.  A result is reported only if
    the body decoded to a valid shard whose files the client may write, and
    the store answered that it put it and is as it was left by that. *)
Theorem stream_protocol deliver beats r s resp s' :
  handleUploadShardV2 h deliver beats r s = (Ok resp, s') -> rs_Status resp = 200 ->
  exists p, run_frames Waiting (body_frames (rs_Body resp)) = Some p /\
    ((forall n, deliver n = Delivered) -> p = Finished) /\
    (UploadResult ∈ body_frames (rs_Body resp) ->
     p = Finished /\ last (body_frames (rs_Body resp)) = Some UploadResult /\
     exists sh s0 b, uploaded r = Ok sh /\ Shard_Validate sh = Ok tt /\ authorizeShardFiles h r sh = None /\ PutShard sh s0 = (Ok b, s')).
Proof.
  unfold handleUploadShardV2. destruct (authorize_choice r (MkGrant Write None [])) as [->|[e ->]]; [|by intros [= <- _] ?%Deny_status].
  destruct (checkShardUploadLength r) as [resp'|] eqn:El; [by intros [= <- _] ?%(checkShardUploadLength_status r)|].
  destruct (upload_stream_spec r s deliver beats) as (v & E & (q & [Hq _] & Hor) & Hrep & _). unfold first in E. rewrite E. cbn [snd].
  intros [= <- <-] _. cbn [rs_Body body_frames]. exists q. split; [exact Hq|].
  split; [intros Hd; destruct Hor as [[n Hn]|Hor]; [by rewrite Hd in Hn|done]|]. intros Hin.
  destruct (result_last _ _ _ Hq Hin) as [-> [fs Hfs]]. split; [done|]. split; [by rewrite Hfs, last_snoc|]. exact (Hrep Hin).
Qed.

(** C22: both versions of the shard upload meet one contract.  On a backend whose
    [HasXorb] only looks, and with a connection that delivers, a request is
    refused at the door by both versions alike, or both have the outcome of
    [upload_outcome]: the first answers 200, and the second ends its frames
    with a result, exactly when the body holds a valid shard with files the
    client may write and xorbs that were uploaded, and the store put it; and
    both leave the store as the contract says, which is one store. *)
Theorem upload_versions_agree deliver beats r s :
  looks -> (forall n, deliver n = Delivered) ->
  exists resp1 resp2 s' ok,
    handleUploadShard h r s = (Ok resp1, s') /\ handleUploadShardV2 h deliver beats r s = (Ok resp2, s') /\
    (resp1 = resp2 /\ s' = s /\ ok = false \/ upload_outcome r s ok s') /\
    (rs_Status resp1 = 200 <-> ok = true) /\ (UploadResult ∈ body_frames (rs_Body resp2) <-> ok = true).
Proof.
  intros Hl Hd. unfold handleUploadShard, handleUploadShardV2.
  destruct (authorize_choice r (MkGrant Write None [])) as [Ha|[e Ha]]; rewrite !Ha.
  2: { exists (Deny e), (Deny e), s, false. split; [done|]. split; [done|]. split; [by left|]. split; [by split; [intros ?%Deny_status|]|].
       unfold Deny. destruct (errors_Is e ErrUnauthenticated); (split; [by intros ?%elem_of_nil|done]). }
  destruct (checkShardUploadLength r) as [resp|] eqn:El.
  { exists resp, resp, s, false. split; [done|]. split; [done|]. split; [by left|]. pose proof (checkShardUploadLength_status r resp El) as Hst.
    split; [by split|]. unfold checkShardUploadLength in El. destruct (_ <=? 0); [injection El as <-; split; [by intros ?%elem_of_nil|done]|].
    destruct (_ <? _); [injection El as <-; split; [by intros ?%elem_of_nil|done]|done]. }
  destruct (store_uploaded_spec r s Hl) as (out & ok & s1 & E1 & Hout & Hok). rewrite (prog_bind_Ok _ _ _ _ _ E1).
  destruct (upload_stream_spec r s deliver beats) as (v & E2 & _ & _ & Hagree). unfold first in E2. rewrite E2. cbn [snd].
  destruct (Hagree Hl) as [[n Hn]|(ok' & Hout' & Hrep)]; [by destruct Hn|]. destruct (upload_outcome_unique r s _ _ _ _ Hout Hout') as [<- <-].
  destruct out as [[status e]|b].
  - destruct Hok as [-> Hst]. eexists _, _, s1, false. split; [reflexivity|]. split; [reflexivity|]. split; [by right|]. split; [|exact Hrep].
    split; [|done]. destruct (status =? 0); [by intros ?%Deny_status|done].
  - subst ok. eexists _, _, s1, true. split; [reflexivity|]. split; [reflexivity|]. split; [by right|]. split; [by split|exact Hrep].
Qed.
End stream_proofs.

(** ** Witnesses *)

Section witnesses.
#[local] Instance server_b3 : Blake3 := poly_blake3.
#[local] Instance server_lz4 : Lz4 := rle_lz4.
#[local] Instance server_bufs : ChunkBufs := zero_bufs.

(** The shard of one file, posted to a store that has its xorb. *)
Definition posted : Shard :=
  MkShard 0 (s_Files one_file)
    [MkCASBlock wit_root 0 (zip_with (fun d start => MkCASChunk (ComputeChunkHash d) start (len d) 0) wit_chunks [0; len (default [] (head wit_chunks))])
       (len (concat wit_chunks)) 0] None.
Definition shard_body : list byte := encoded 5 posted false.
Definition shard_request : request :=
  MkRequest (fun _ => []) (fun _ => []) (fun _ => []) (str "cas") false (len shard_body) (Reader shard_body EOF).

Definition open_handler : Handler := MkHandler None 0 0.
Definition closed_handler : Handler := MkHandler (Some (fun _ _ => Some ErrForbidden)) 0 0.
Definition readonly_handler : Handler :=
  MkHandler (Some (fun _ g => match g_File g with None => None | Some _ => Some ErrForbidden end)) 0 0.

Definition served_frames (x : result response * memory) : list frame :=
  match x.1 with Ok resp => body_frames (rs_Body resp) | Err _ => [] end.

Definition wit_frames : list frame :=
  [Validating 0 0; Validating 0 0; Validating 0 1; Validating 0 1; Validating 1 1; Validating 1 1;
   Committing (str "uploading"); Committing (str "uploading"); Committing (str "syncing"); Committing (str "syncing"); UploadResult].

Lemma shard_uploads :
  served_frames (handleUploadShardV2 open_handler (fun _ => Delivered) (fun _ => 1%nat) shard_request one_xorb) = wit_frames.
Proof. vm_compute. reflexivity. Qed.

Lemma memory_looks : looks (S := memory).
Proof. intros hash s. reflexivity. Qed.

Lemma stream_protocol_witness :
  exists sh s0 b s', uploaded shard_request = Ok sh /\ PutShard sh s0 = (Ok b, s') /\ run_frames Waiting wit_frames = Some Finished.
Proof.
  pose proof shard_uploads as E. destruct (handleUploadShardV2 _ _ _ _ one_xorb) as [[resp|e] s'] eqn:Eh; [|discriminate E].
  destruct (stream_protocol open_handler (fun _ => Delivered) (fun _ => 1%nat) shard_request one_xorb resp s' Eh) as (p & Hp & Hd & Hr).
  - change (rs_Status (match (@Ok response resp, s').1 with Ok r => r | Err _ => http_Error [] 0 end) = 200). rewrite <- Eh. vm_compute. reflexivity.
  - cbn in E. rewrite E in Hp, Hr. destruct (Hr ltac:(apply list_elem_of_In; vm_compute; tauto)) as (-> & _ & sh & s0 & b & H1 & _ & _ & H2).
    exists sh, s0, b, s'. split; [exact H1|]. split; [exact H2|exact Hp].
Defined.

Lemma upload_versions_agree_witness :
  exists resp1 resp2 s' ok,
    handleUploadShard open_handler shard_request one_xorb = (Ok resp1, s') /\
    handleUploadShardV2 open_handler (fun _ => Delivered) (fun _ => 0%nat) shard_request one_xorb = (Ok resp2, s') /\
    (rs_Status resp1 = 200 <-> ok = true) /\ (UploadResult ∈ body_frames (rs_Body resp2) <-> ok = true).
Proof.
  destruct (upload_versions_agree open_handler (fun _ => Delivered) (fun _ => 0%nat) shard_request one_xorb)
    as (resp1 & resp2 & s' & ok & E1 & E2 & _ & H).
  - exact memory_looks.
  - intros n. reflexivity.
  - exists resp1, resp2, s', ok. split; [exact E1|]. split; [exact E2|exact H].
Defined.

(** A client that may not write, and one that may not write this file. *)
Lemma refused_request_inert_witness :
  (exists g' e', g' ∈ required RUploadShard shard_request /\ Some ErrForbidden = Some e' /\
     forall s : memory, serve closed_handler RUploadShard shard_request s = (Ok (Deny e'), s)) /\
  exists e', forall s : memory, serve readonly_handler RUploadShard shard_request s = (Ok (Deny e'), s).
Proof.
  split.
  - refine (proj1 (refused_request_inert closed_handler RUploadShard shard_request (fun _ _ => Some ErrForbidden) (MkGrant Write None []) ErrForbidden _ _) _).
    + reflexivity.
    + reflexivity.
    + left.
  - destruct (decode_upload (LimitReader (rq_Body shard_request) (rq_ContentLength shard_request))) as [sh|e] eqn:Eu; [|vm_compute in Eu; discriminate Eu].
    destruct (file_grants sh) as [|g gs] eqn:Eg; [|].
    { exfalso. assert (match decode_upload (LimitReader (rq_Body shard_request) (rq_ContentLength shard_request)) with Ok sh => length (file_grants sh) | Err _ => 0%nat end = 1%nat) as H by (vm_compute; reflexivity).
      rewrite Eu, Eg in H. discriminate H. }
    destruct (proj2 (refused_request_inert (S := memory) readonly_handler RUploadShard shard_request
      (fun _ g => match g_File g with None => None | Some _ => Some ErrForbidden end) g ErrForbidden eq_refl
      ltac:(unfold file_grants in Eg; destruct (s_Files sh); [discriminate Eg|injection Eg as <- _; reflexivity])) sh) as (g' & e' & _ & _ & H).
    + vm_compute. reflexivity.
    + exact Eu.
    + assert (match decode_upload (LimitReader (rq_Body shard_request) (rq_ContentLength shard_request)) with Ok sh => Shard_Validate sh | Err e => Err e end = Ok tt) as H by (vm_compute; reflexivity).
      rewrite Eu in H. exact H.
    + rewrite Eg. left.
    + exists e'. exact H.
Defined.
End witnesses.
