(* ===== verification/ServerReads.v ===== *)
(** * What the reconstruction routes answer

    [reconstruction_served]: the answers of [GET /v1/reconstructions/{file_hash}]
    and of its second version, with their terms cut or not, hold the bytes the
    [Range] header selects, and the client's plan works on them; this is where
    the handlers, the responses of [reconstruct.go] and the cuts of [split.go]
    meet. *)

From Stdlib Require Import ZArith Lia Strings.Byte Strings.String.
From stdpp Require Import gmap.
From S2P Require Import Prelude Hash Json Sha256 Gearhash Merkle Compression XorbEncoder XorbDecoder XorbOffsets.
From S2P Require Import Shard ShardCodec Prog Storage FileSystem PutShard Memory MemoryPut Reconstruct Plan Auth Split Server ServerProofs.

(** The size of a file whose entries are sized right. *)
Lemma UnpackedSize_content xc fb :
  Forall (fun e => entry_ok xc e /\ fe_UnpackedSegBytes e < 2 ^ 32) (fb_Entries fb) ->
  len (concat (map (entry_content xc) (fb_Entries fb))) < 2 ^ 62 ->
  UnpackedSize (Some fb) = len (concat (map (entry_content xc) (fb_Entries fb))).
Proof.
  cbn [UnpackedSize]. intros Hf. assert (forall acc, 0 <= acc -> acc + len (concat (map (entry_content xc) (fb_Entries fb))) < 2 ^ 62 ->
    foldl (fun size e => i64 (size + fe_UnpackedSegBytes e)) acc (fb_Entries fb) = acc + len (concat (map (entry_content xc) (fb_Entries fb)))) as H.
  { induction Hf as [|e es [He _] _ IH]; intros acc Ha Hb; cbn [map concat foldl] in *; [rewrite (@len_nil byte); lia|].
    rewrite len_app in Hb |- *. rewrite (eo_size _ _ He). pose proof (len_nonneg (entry_content xc e)).
    pose proof (len_nonneg (concat (map (entry_content xc) es))). rewrite i64_small by (unfold is_i64; lia). rewrite IH; lia. }
  intros Hb. rewrite H; lia.
Qed.

Section served.
Context {B3 : Blake3} {S : Type} {ST : Storage S} (h : Handler).
Context (xc : XorbHash -> list (list byte)) (offs : XorbHash -> list Z) (Inv : S -> Prop).
Context (sh : Shard) (fileHash : FileHash) (fb : FileBlock) (r : request) (s s1 : S).

(** The store, while it is asked, and the shard it found for the file. *)
Hypothesis offs_stable : forall h s o s', Inv s -> GetXorbChunkOffsets h s = (Ok o, s') -> o = offs h /\ Inv s'.
Hypothesis url_stable : forall h s u s', Inv s -> GetXorbURL h s = (Ok u, s') -> Inv s'.
Hypothesis offs_ok : forall h, grows 0 (offs h) /\ len (offs h) <= MaxChunksPerXorb.
Hypothesis found : GetShard fileHash s = (Ok sh, s1).
Hypothesis found_inv : Inv s1.
Hypothesis sh_blocks : blocks_ok xc sh.
Hypothesis sh_file : File sh fileHash = Some fb.
Hypothesis fb_ok : Forall (fun e => entry_ok xc e /\ fe_UnpackedSegBytes e < 2 ^ 32) (fb_Entries fb).
Hypothesis asked : parseHash (rq_Vars r (str "file_hash")) = Ok fileHash.

Let content : list byte := concat (map (entry_content xc) (fb_Entries fb)).
Let rng : ByteRange := ParseByteRange (rq_Header r (str "Range")) (len content).

Hypothesis content_size : len content < 2 ^ 62.

(** Absolute URLs are still the store's. *)
Lemma base_url_stable base hash s' u s'' :
  Inv s' -> @GetXorbURL S (requestBaseStorage base) hash s' = (Ok u, s'') -> Inv s''.
Proof.
  intros Hi. cbn [GetXorbURL requestBaseStorage]. unfold mbind, prog_bind. destruct (GetXorbURL hash s') as [[u'|] s2] eqn:E; [|done].
  intros [= _ <-]. by eapply url_stable.
Qed.

Lemma range_is : ParseByteRange (rq_Header r (str "Range")) (UnpackedSize (File sh fileHash)) = rng.
Proof. unfold rng. by rewrite sh_file, (UnpackedSize_content xc) by done. Qed.

(** What the answer is asked to be: the requested bytes, no chunk without any of
    them, and a plan that fetches them. *)
Definition answered (b : body) : Prop :=
  match b with
  | BodyV1 r1 =>
      answers xc offs content rng (r1_OffsetIntoFirstRange r1) (r1_Terms r1) (planReaderV1 r1) /\
      fits (file_units xc sh fb) rng (r1_OffsetIntoFirstRange r1) (terms_content xc (r1_Terms r1))
  | BodyV2 r2 =>
      answers xc offs content rng (r2_OffsetIntoFirstRange r2) (r2_Terms r2) (planReaderV2 r2) /\
      fits (file_units xc sh fb) rng (r2_OffsetIntoFirstRange r2) (terms_content xc (r2_Terms r2))
  | _ => False
  end.

(** The version 1 handler, past its door. *)
Lemma served_v1 resp s' :
  handleGetReconstruction h r s = (Ok resp, s') -> rs_Status resp = 200 -> answered (rs_Body resp).
Proof.
  unfold handleGetReconstruction. rewrite asked. destruct (authorize_choice (S := S) h r (MkGrant Read (Some fileHash) [])) as [->|[e ->]];
    [|by intros [= <- _] ?%Deny_status].
  unfold catch at 1. rewrite found, range_is. cbv zeta. unfold catch at 1.
  destruct (@BuildReconstructionResponseV1 S (requestBaseStorage (externalBase r)) sh fileHash rng s1) as [[r1|e] s2] eqn:Eb; [|by intros [= <- _]].
  destruct (responseV1_built (ST := requestBaseStorage (externalBase r)) xc Inv offs sh fileHash fb (rq_Header r (str "Range")) offs_stable
    (base_url_stable _) sh_blocks sh_file fb_ok content_size s1 r1 s2 found_inv Eb) as (R1 & R2 & R3 & R4 & R5).
  assert (answered (BodyV1 r1)) as Ha.
  { split; [|exact R5]. apply (responseV1_answers (ST := requestBaseStorage (externalBase r)) xc Inv offs sh fileHash fb (rq_Header r (str "Range")) offs_stable
      (base_url_stable _) offs_ok sh_blocks sh_file fb_ok content_size s1 r1 s2 found_inv Eb). }
  destruct (splitsTerms h); [|by intros [= <- _] _]. unfold catch.
  destruct (SplitTermsV1 sh r1 rng (h_splitMinTerms h) (h_splitPieceBytes h) s2) as [[r1'|e] s3] eqn:Es; [|by intros [= <- _] _].
  intros [= <- _] _. destruct (SplitTermsV1_ok xc Inv offs offs_stable content sh r1 rng (h_splitMinTerms h) (h_splitPieceBytes h) s2 r1' s3) as [->|(Ho & Hc & Ha')]; [done..|].
  split; [done|]. by rewrite Ho, (cu_content _ _ _ _ _ Hc).
Qed.

Lemma served_v2 resp s' :
  handleGetReconstructionV2 h r s = (Ok resp, s') -> rs_Status resp = 200 -> answered (rs_Body resp).
Proof.
  unfold handleGetReconstructionV2. rewrite asked. destruct (authorize_choice (S := S) h r (MkGrant Read (Some fileHash) [])) as [->|[e ->]];
    [|by intros [= <- _] ?%Deny_status].
  unfold catch at 1. rewrite found, range_is. cbv zeta. unfold catch at 1.
  destruct (@BuildReconstructionResponseV2 S (requestBaseStorage (externalBase r)) sh fileHash rng s1) as [[r2|e] s2] eqn:Eb; [|by intros [= <- _]].
  destruct (responseV2_built (ST := requestBaseStorage (externalBase r)) xc Inv offs sh fileHash fb (rq_Header r (str "Range")) offs_stable
    (base_url_stable _) sh_blocks sh_file fb_ok content_size s1 r2 s2 found_inv Eb) as (R1 & R2 & (ranges & R3 & Rx) & R4 & R5).
  assert (answered (BodyV2 r2)) as Ha.
  { split; [|exact R5]. apply (responseV2_answers (ST := requestBaseStorage (externalBase r)) xc Inv offs sh fileHash fb (rq_Header r (str "Range")) offs_stable
      (base_url_stable _) offs_ok sh_blocks sh_file fb_ok content_size s1 r2 s2 found_inv Eb). }
  destruct (splitsTerms h); [|by intros [= <- _] _]. unfold catch.
  destruct (SplitTermsV2 sh r2 rng (h_splitMinTerms h) (h_splitPieceBytes h) s2) as [[r2'|e] s3] eqn:Es; [|by intros [= <- _] _].
  intros [= <- _] _. destruct (SplitTermsV2_ok xc Inv offs offs_stable content sh r2 ranges rng (h_splitMinTerms h) (h_splitPieceBytes h) s2 r2' s3) as [->|(Ho & Hc & Ha')]; [done..|].
  split; [done|]. by rewrite Ho, (cu_content _ _ _ _ _ Hc).
Qed.

(** The store answers for the file's xorbs, and the client may read the file. *)
Definition serving : Prop :=
  match h_authorizer h with Some a => a r (MkGrant Read (Some fileHash) []) = None | None => True end /\
  (forall e s, e ∈ fb_Entries fb -> Inv s -> exists s', GetXorbChunkOffsets (fe_CASHash e) s = (Ok (offs (fe_CASHash e)), s')) /\
  (forall h s, Inv s -> exists u s', GetXorbURL h s = (Ok u, s')) /\
  (forall e, e ∈ fb_Entries fb ->
     fe_ChunkIndexStart e < fe_ChunkIndexEnd e /\ len (offs (fe_CASHash e)) = len (xc (fe_CASHash e))).

Lemma authorize_permits (k : prog S response) : serving -> authorize h r (MkGrant Read (Some fileHash) []) k = k.
Proof. intros [Ha _]. unfold authorize. destruct (h_authorizer h) as [a|]; [by rewrite Ha|done]. Qed.

Lemma built_when_serving : serving ->
  (exists r1 s', @BuildReconstructionResponseV1 S (requestBaseStorage (externalBase r)) sh fileHash rng s1 = (Ok r1, s')) /\
  (exists r2 s', @BuildReconstructionResponseV2 S (requestBaseStorage (externalBase r)) sh fileHash rng s1 = (Ok r2, s')).
Proof.
  intros (_ & H1 & H2 & H3).
  apply (responses_built (ST := requestBaseStorage (externalBase r)) xc Inv offs sh fileHash fb (rq_Header r (str "Range"))); try done.
  - apply base_url_stable.
  - intros hash s' Hi. cbn [GetXorbURL requestBaseStorage]. unfold mbind, prog_bind. destruct (H2 hash s' Hi) as (u & s2 & ->). by eexists _, s2.
Qed.

Lemma available_v1 : serving -> exists resp s', handleGetReconstruction h r s = (Ok resp, s') /\ rs_Status resp = 200.
Proof.
  intros Hs. destruct (built_when_serving Hs) as [(r1 & s2 & E) _]. unfold handleGetReconstruction. rewrite asked, authorize_permits by done.
  unfold catch at 1. rewrite found, range_is. cbv zeta. unfold catch at 1. rewrite E.
  destruct (splitsTerms h); [|by eexists _, s2]. unfold catch. destruct (SplitTermsV1 _ _ _ _ _ s2) as [[?|?] s3]; by eexists _, s3.
Qed.

Lemma available_v2 : serving -> exists resp s', handleGetReconstructionV2 h r s = (Ok resp, s') /\ rs_Status resp = 200.
Proof.
  intros Hs. destruct (built_when_serving Hs) as [_ (r2 & s2 & E)]. unfold handleGetReconstructionV2. rewrite asked, authorize_permits by done.
  unfold catch at 1. rewrite found, range_is. cbv zeta. unfold catch at 1. rewrite E.
  destruct (splitsTerms h); [|by eexists _, s2]. unfold catch. destruct (SplitTermsV2 _ _ _ _ _ s2) as [[?|?] s3]; by eexists _, s3.
Qed.

(** C20: the reconstruction routes serve the file.  Let the store find a shard for
    the requested hash that agrees with the chunks of its xorbs.  The [Range]
    header, whatever it is, is read as [requests] says.  An answer with status
    200 of either version, with the terms cut for parallel fetching or not and
    with the URLs made absolute, has terms whose bytes from the offset on start
    with exactly the requested ones; every chunk in them (every segment, where
    the shard does not list the chunks of its xorb) holds a requested byte; and
    it has a plan that fetches them.  And the answer is such a one whenever the
    client may read the file and the store answers for its xorbs. *)
Theorem reconstruction_served :
  (forall rng', ParseByteRange (rq_Header r (str "Range")) (UnpackedSize (File sh fileHash)) = rng' <->
     requests (rq_Header r (str "Range")) (len content) rng') /\
  (forall resp s', handleGetReconstruction h r s = (Ok resp, s') \/ handleGetReconstructionV2 h r s = (Ok resp, s') ->
     rs_Status resp = 200 -> answered (rs_Body resp)) /\
  (serving -> (exists resp s', handleGetReconstruction h r s = (Ok resp, s') /\ rs_Status resp = 200) /\
     (exists resp s', handleGetReconstructionV2 h r s = (Ok resp, s') /\ rs_Status resp = 200)).
Proof.
  split; [intros rng'; rewrite range_is; apply ParseByteRange_requests|].
  split; [intros resp s' [Hr|Hr]; [by eapply served_v1|by eapply served_v2]|]. intros Hs. split; [by apply available_v1|by apply available_v2].
Qed.
End served.

(** ** Witness *)

Section witness.
#[local] Instance reads_b3 : Blake3 := poly_blake3.
#[local] Instance reads_lz4 : Lz4 := rle_lz4.
#[local] Instance reads_bufs : ChunkBufs := zero_bufs.

(** The store after the upload of the shard of one file. *)
Definition uploaded_store : memory := (handleUploadShard open_handler shard_request one_xorb).2.

Definition found_shard : Shard :=
  match GetShard (fb_FileHash the_file) uploaded_store with (Ok sh, _) => sh | _ => NewShard end.
Definition found_file : FileBlock :=
  default the_file (head (s_Files found_shard)).

(** Bytes 1 and 2 of it, from a server that cuts terms. *)
Definition read_request : request :=
  MkRequest (fun k => if bool_decide (k = str "file_hash") then formatHash (fb_FileHash the_file) else [])
    (fun k => if bool_decide (k = str "Range") then str "bytes=1-2" else []) (fun _ => []) (str "cas") false 0 (Reader [] EOF).

Definition cutting_handler : Handler := MkHandler None 2 1.

Lemma uploaded_store_small n o : mem_get kXorbs n uploaded_store = Some o -> len (o_data o) < 2 ^ 61.
Proof.
  assert (forallb (fun p => len (o_data p.2) <? 2 ^ 61) (map_to_list (default ∅ (m_objects uploaded_store !! kXorbs))) = true) as H
    by (vm_compute; reflexivity).
  rewrite forallb_forall in H. unfold mem_get. destruct (m_objects uploaded_store !! kXorbs) as [m|]; [|done]. cbn [mbind option_bind].
  intros Ho. specialize (H (n, o)). apply Z.ltb_lt, H, list_elem_of_In, elem_of_map_to_list. exact Ho.
Qed.

Lemma memory_GetShard_same fh (s : memory) : (GetShard fh s).2 = s.
Proof.
  cbn [GetShard memory_storage]. unfold shardByIndex, indexEntry, loadShard, mbind, prog_bind, throw, mret, prog_ret.
  repeat case_match; by simplify_eq.
Qed.

Lemma memory_found fh (s : memory) :
  is_ok (GetShard fh s).1 = true -> GetShard fh s = (Ok match GetShard fh s with (Ok sh, _) => sh | _ => NewShard end, s).
Proof. intros H. pose proof (memory_GetShard_same fh s) as H2. destruct (GetShard fh s) as [[sh|e] s']; cbn in H2; by subst. Qed.

Lemma found_again : GetShard (fb_FileHash the_file) uploaded_store = (Ok found_shard, uploaded_store).
Proof. apply memory_found. vm_compute. reflexivity. Qed.

(** A store at rest is its own invariant. *)
Lemma memory_rests (s : memory) :
  (forall h s0 o s', s0 = s -> GetXorbChunkOffsets h s0 = (Ok o, s') -> o = mem_offs s h /\ s' = s) /\
  (forall h s0 u s', s0 = s -> GetXorbURL h s0 = (Ok u, s') -> s' = s) /\
  (forall h s0, s0 = s -> exists u s', GetXorbURL h s0 = (Ok u, s')).
Proof.
  split; [|split].
  - intros h s0 o s' -> Ho. exact (mem_offs_stable _ _ _ _ Ho).
  - intros h s0 u s' -> Hu. exact (f_equal snd (eq_sym Hu)).
  - intros h s0 ->. eexists _, s. reflexivity.
Qed.

Lemma memory_offsets (s : memory) h :
  is_ok (GetXorbChunkOffsets h s).1 = true -> exists s', GetXorbChunkOffsets h s = (Ok (mem_offs s h), s').
Proof.
  intros H. destruct (GetXorbChunkOffsets h s) as [[o|e] s'] eqn:E; [|done]. destruct (mem_offs_stable s h o s' E) as [-> ->]. by exists s.
Qed.

Lemma found_terms :
  fb_Entries found_file = [MkFileEntry wit_root 0 (len (concat wit_chunks)) 0 (len wit_chunks)] /\
  File found_shard (fb_FileHash the_file) = Some found_file.
Proof. split; vm_compute; reflexivity. Qed.

Lemma reconstruction_served_witness :
  exists resp s', handleGetReconstruction cutting_handler read_request uploaded_store = (Ok resp, s') /\
    rs_Status resp = 200 /\ answered one_xc (mem_offs uploaded_store) found_shard found_file read_request (rs_Body resp).
Proof.
  destruct found_terms as [Ht Hf].
  assert (concat (map (entry_content one_xc) (fb_Entries found_file)) = concat wit_chunks) as Hc by (rewrite Ht; vm_compute; reflexivity).
  destruct (reconstruction_served cutting_handler one_xc (mem_offs uploaded_store) (fun s => s = uploaded_store) found_shard
    (fb_FileHash the_file) found_file read_request uploaded_store uploaded_store) as (_ & H1 & H2).
  - exact (proj1 (memory_rests uploaded_store)).
  - exact (proj1 (proj2 (memory_rests uploaded_store))).
  - intros h. exact (mem_offs_ok uploaded_store h uploaded_store_small).
  - exact found_again.
  - reflexivity.
  - assert (map cb_CASHash (s_CASInfos found_shard) = [wit_root] /\
      map (fun b => map cc_UnpackedSegBytes (cb_Chunks b)) (s_CASInfos found_shard) = [map len wit_chunks]) as [Ha Hb] by (split; vm_compute; reflexivity).
    intros b Hin. destruct (s_CASInfos found_shard) as [|b0 [|]]; [discriminate Ha| |discriminate Ha]. injection Ha as Ha. injection Hb as Hb.
    apply list_elem_of_singleton in Hin as ->. rewrite Ha, Hb. vm_compute. reflexivity.
  - exact Hf.
  - rewrite Ht. exact one_entry_ok.
  - vm_compute. reflexivity.
  - rewrite Hc. vm_compute. reflexivity.
  - destruct H2 as [(resp & s' & E & Hs) _].
    + split; [exact I|]. rewrite Ht. split; [|split].
      * intros e s [->|He%not_elem_of_nil]%elem_of_cons; [|destruct He]. intros ->. apply memory_offsets. vm_compute. reflexivity.
      * exact (proj2 (proj2 (memory_rests uploaded_store))).
      * intros e [->|He%not_elem_of_nil]%elem_of_cons; [|destruct He]. split; vm_compute; reflexivity.
    + exists resp, s'. split; [exact E|]. split; [exact Hs|]. exact (H1 resp s' (or_introl E) Hs).
Defined.
End witness.
