(* ===== verification/UploadCache.v ===== *)
(** * The cache of chunk locations: [upload/chunk_cache.go], [cache_manager.go], [usage.go]

    One file per location below the cache directory, at a path made of the
    endpoint's tag and the chunk's hash; the recency of the entries in an LRU in
    memory; eviction down to 90% of the capacity, after a walk of the directory
    that brings the LRU in line with what is there.  The file system is that of
    [FileSystem], whose calls may fail one by one; its base is the manager's
    directory.

    The goroutines of [Store] and [Lookup] work on files of their own, and are
    taken one after the other in the order of Go's map iteration, which is a
    parameter, or of the hashes.  [slices.SortFunc] is a parameter too: which of
    two files with the same time comes first is not specified.  Directories are
    implicit: removing an empty one changes no file. *)

From Stdlib Require Import ZArith Lia Strings.Byte Strings.String.
From stdpp Require Import gmap.
From S2P Require Import Prelude Prog Hash Sha256 Shard Storage FileSystem Lru.

(** ** Data *)

Definition entrySize : Z := 32 + 4.
Definition entryCost : Z := 4 * 2 ^ 10.

(** In nanoseconds. *)
Definition leftoverAge : Z := 24 * 3600 * 1000000000.
Definition reconcileInterval : Z := 60 * 1000000000.

Record entryKey : Type := MkEntryKey { ek_tag : vec byte 8; ek_hash : ChunkHash }.

#[global] Instance entryKey_eq : EqDecision entryKey.
Proof. solve_decision. Defined.
#[global] Instance entryKey_countable : Countable entryKey :=
  inj_countable' (fun k => (ek_tag k, ek_hash k)) (fun '(t, h) => MkEntryKey t h) ltac:(by intros []).

Definition endpointTag (endpoint : gostring) : vec byte 8 := to_arr 8 (take 8 (vec_to_list (Sum256 endpoint))).

Abbreviation entry_lru := (Cache entryKey unit unit).

(** [CacheManager]; [cm_lastReconcile] is [None] for the zero time, and [dir] is
    the base of the file system. *)
Record CacheManager : Type := MkManager {
  cm_capacity : Z;
  cm_lru : entry_lru;
  cm_lastReconcile : option Z;
  cm_fs : fsys;
}.

Definition NewCacheManager (capacity : Z) (fs : fsys) : CacheManager := MkManager capacity (New 0) None fs.

Definition on_disk {A} (m : prog fsys A) : prog CacheManager A := fun s =>
  let '(r, fs) := m (cm_fs s) in (r, MkManager (cm_capacity s) (cm_lru s) (cm_lastReconcile s) fs).
Definition on_lru {A} (m : cprog (K := entryKey) (V := unit) (W := unit) A) : prog CacheManager A := fun s =>
  let '(r, (c, _)) := m (cm_lru s, tt) in (r, MkManager (cm_capacity s) c (cm_lastReconcile s) (cm_fs s)).
Definition get_capacity : prog CacheManager Z := fun s => (Ok (cm_capacity s), s).
Definition get_lastReconcile : prog CacheManager (option Z) := fun s => (Ok (cm_lastReconcile s), s).
Definition set_lastReconcile (t : Z) : prog CacheManager unit := fun s =>
  (Ok tt, MkManager (cm_capacity s) (cm_lru s) (Some t) (cm_fs s)).

(** ** Entries *)

Definition kChunksDir : gostring := str "chunks".

(** The path of a key below the directory. *)
Definition entry_key (key : entryKey) : gostring :=
  let name := formatHash (ek_hash key) in
  kChunksDir ++ slash :: hex_encode (ek_tag key) ++ slash :: slice 0 2 name ++ slash :: slice 2 4 name ++ slash :: slice 4 64 name.

Definition entryPath (key : entryKey) (s : fsys) : path := Join (fs_rooted s) (fs_base s) (entry_key key).

Definition with_entry {A} (key : entryKey) (f : path -> prog fsys A) : prog fsys A := fun s => f (entryPath key s) s.

Definition encode_entry (loc : ChunkLocation) : list byte := vec_to_list (cl_XorbHash loc) ++ put_u32 (cl_ChunkIndex loc).

Definition decode_entry (entry : list byte) : ChunkLocation := MkChunkLocation (to_arr hashSize (take 32 entry)) (le_val (drop 32 entry)).

(** [os.CreateTemp(dir, prefix + "*" + suffix)]. *)
Definition os_CreateTempAs (dir : path) (prefix suffix : gostring) : prog fsys path :=
  os_call (fun s =>
    let p := dir ++ [prefix ++ fe_temp (fs_env s) (fs_temps s) ++ suffix] in
    let s := MkFs (fs_base s) (fs_rooted s) (fs_files s) (fs_env s) (fs_clock s) (S (fs_temps s)) (fs_ctxs s) (fs_faults s) in
    if bool_decide (is_Some (fs_files s !! p)) then (Err (Errorf "file exists"), s)
    else (now ← os_now; _ ← store_file p (MkObject [] now); mret p) s).

Definition dot_tmp : gostring := str ".tmp".

Definition writeFile (p : path) (data : list byte) : prog fsys unit :=
  _ ← os_MkdirAll (Dir p);
  f ← os_CreateTempAs (Dir p) [] dot_tmp;
  let out e := (_ ← ignore (os_Remove f); throw e) in
  catch (os_Write f data)
    (fun _ => catch (os_Close f) (fun _ => catch (os_Rename f p) mret out) out)
    (fun e => _ ← ignore (os_Close f); out e).

(** [os.Remove] of a directory: it must be empty. *)
Definition os_RemoveDir (dir : path) : prog fsys unit :=
  os_call (fun s => if bool_decide (files_below dir s = []) then (Ok tt, s) else (Err (Errorf "directory not empty"), s)).

Fixpoint remove_dirs (n : nat) (dir : path) : prog fsys unit :=
  match n with
  | O => mret tt
  | S n => catch (os_RemoveDir dir) (fun _ => remove_dirs n (Dir dir)) (fun _ => mret tt)
  end.

Definition removeEmptyCacheDirs (p : path) : prog fsys unit := remove_dirs 2 (Dir p).

(** ** Eviction *)

Fixpoint add_all (keys : list entryKey) : prog CacheManager unit :=
  match keys with
  | [] => mret tt
  | key :: keys => _ ← on_lru (Add key tt); add_all keys
  end.

Definition unlink (p : path) : prog fsys unit := _ ← ignore (os_Remove p); removeEmptyCacheDirs p.

Definition kept_entries (capacity : Z) : Z :=
  let kept := capacity ÷ entryCost in kept - kept ÷ 10.

(** Each turn takes one entry out of the LRU. *)
Fixpoint evict_down (fuel : nat) (kept : Z) : prog CacheManager unit :=
  match fuel with
  | O => throw (Panic "out of fuel")
  | S fuel =>
      n ← on_lru Len;
      if n <=? kept then mret tt
      else
        oldest ← on_lru RemoveOldest;
        let key := match oldest with Some kv => kv.1 | None => MkEntryKey (to_arr 8 []) zeroHash end in
        _ ← on_disk (with_entry key unlink);
        evict_down fuel kept
  end.

Definition evictLocked : prog CacheManager unit :=
  capacity ← get_capacity;
  if capacity <=? 0 then mret tt
  else n ← on_lru Len; evict_down (S (Z.to_nat n)) (kept_entries capacity).

(** ** Reconciling with the directory *)

(** [os.ReadDir]: the files of a directory, by name. *)
Definition os_ReadDir (dir : path) : prog fsys (list path) :=
  os_call (fun s => (Ok (filter (fun p => Dir p = dir /\ p <> []) (files_below dir s)), s)).

Definition name_of (p : path) : gostring := default [] (last p).

Definition has_prefix (prefix s : gostring) : bool := bool_decide (take (length prefix) s = prefix).
Definition has_suffix (suffix s : gostring) : bool := (Nat.leb (length suffix) (length s)) && bool_decide (drop (length s - length suffix) s = suffix).

Fixpoint remove_stale (now : Z) (des : list path) : prog fsys unit :=
  match des with
  | [] => mret tt
  | de :: des =>
      _ ← (if negb (has_prefix (str "xorb-") (name_of de)) then mret tt
           else catch (os_Stat de)
                  (fun info => if leftoverAge <=? now - o_modTime info then ignore (os_Remove de) else mret tt)
                  (fun _ => mret tt));
      remove_stale now des
  end.

Definition sweep_staging (now : Z) : prog fsys unit := fun s =>
  catch (os_ReadDir (Join (fs_rooted s) (fs_base s) (str "staging"))) (remove_stale now) (fun _ => mret tt) s.

(** [diskEntry]. *)
Record diskEntry : Type := MkDiskEntry { de_key : entryKey; de_modTime : Z }.

(** The callback of the walk on a file below [chunks]. *)
Definition visit_entry (chunks : path) (now : Z) (found : list diskEntry) (p : path) : prog fsys (list diskEntry) := fun s =>
  catch (os_Stat p)
    (fun info =>
      match drop (length chunks) p with
      | [part0; part1; part2; part3] =>
          match hex_decode part0 with
          | None => mret found
          | Some tag =>
              if negb (len tag =? 8) then mret found
              else if has_suffix dot_tmp part3 then
                match hex_decode (part1 ++ part2) with
                | Some [a; b] =>
                    if bool_decide (Dir p <> chunks ++ [hex_encode tag; hex_encode [a]; hex_encode [b]]) then mret found
                    else if leftoverAge <=? now - o_modTime info then _ ← unlink p; mret found
                    else mret found
                | _ => mret found
                end
              else
                match parseHash (part1 ++ part2 ++ part3) with
                | Err _ => mret found
                | Ok h =>
                    let key := MkEntryKey (to_arr 8 tag) h in
                    if bool_decide (entryPath key s <> p) then mret found else mret (found ++ [MkDiskEntry key (o_modTime info)])
                end
          end
      | _ => mret found
      end)
    (fun _ => mret found) s.

Fixpoint visit_entries (chunks : path) (now : Z) (found : list diskEntry) (files : list path) : prog fsys (list diskEntry) :=
  match files with
  | [] => mret found
  | p :: files => found ← visit_entry chunks now found p; visit_entries chunks now found files
  end.

Definition walk_chunks (now : Z) : prog fsys (list diskEntry) := fun s =>
  let chunks := Join (fs_rooted s) (fs_base s) kChunksDir in
  visit_entries chunks now [] (files_below chunks s) s.

Fixpoint pop_all (fuel : nat) (tracked : list entryKey) : prog CacheManager (list entryKey) :=
  match fuel with
  | O => throw (Panic "out of fuel")
  | S fuel =>
      n ← on_lru Len;
      if n <=? 0 then mret tracked
      else
        oldest ← on_lru RemoveOldest;
        let key := match oldest with Some kv => kv.1 | None => MkEntryKey (to_arr 8 []) zeroHash end in
        pop_all fuel (tracked ++ [key])
  end.

(** The tracked keys still on disk; what is left of [onDisk]. *)
Fixpoint readd (tracked : list entryKey) (onDisk : gset entryKey) : prog CacheManager (gset entryKey) :=
  match tracked with
  | [] => mret onDisk
  | key :: tracked =>
      if bool_decide (key ∈ onDisk) then _ ← on_lru (Add key tt); readd tracked (onDisk ∖ {[key]})
      else readd tracked onDisk
  end.

Section manager.
Context (range_map : gmap ChunkHash ChunkLocation -> list (ChunkHash * ChunkLocation)).
Context (sort_func : list diskEntry -> list diskEntry).

Definition adopt (found : list diskEntry) : prog CacheManager unit :=
  n ← on_lru Len;
  tracked ← pop_all (S (Z.to_nat n)) [];
  onDisk ← readd tracked (list_to_set (map de_key found));
  add_all (filter (fun key => key ∈ onDisk) (map de_key (sort_func found))).

Definition reconcileLocked : prog CacheManager unit :=
  now ← on_disk os_now;
  _ ← set_lastReconcile now;
  _ ← on_disk (sweep_staging now);
  capacity ← get_capacity;
  if capacity <=? 0 then mret tt
  else found ← on_disk (walk_chunks now); adopt found.

Definition evaluateLocked : prog CacheManager unit :=
  capacity ← get_capacity;
  n ← on_lru Len;
  if (capacity <=? 0) || (n * entryCost <? capacity) then mret tt
  else
    now ← on_disk os_now;
    lastReconcile ← get_lastReconcile;
    _ ← (if match lastReconcile with Some t => reconcileInterval <=? now - t | None => true end then reconcileLocked else mret tt);
    evictLocked.

Definition prepare : prog CacheManager unit :=
  lastReconcile ← get_lastReconcile;
  _ ← (match lastReconcile with None => reconcileLocked | Some _ => mret tt end);
  evaluateLocked.

(** A new xorb file below [staging]. *)
Definition create : prog CacheManager path :=
  on_disk (fun s =>
    let dir := Join (fs_rooted s) (fs_base s) (str "staging") in
    (_ ← os_MkdirAll dir; os_CreateTempAs dir (str "xorb-") []) s).

(** ** [Store] and [Lookup] *)

(** The goroutines of [Store]: the keys written, and the first error. *)
Fixpoint store_entries (tag : vec byte 8) (l : list (ChunkHash * ChunkLocation)) (stored : list entryKey) (err : option error) :
    prog CacheManager (list entryKey * option error) :=
  match l with
  | [] => mret (stored, err)
  | (h, loc) :: l =>
      let key := MkEntryKey tag h in
      catch (on_disk (with_entry key (fun p => writeFile p (encode_entry loc))))
        (fun _ => store_entries tag l (stored ++ [key]) err)
        (fun e => store_entries tag l stored (match err with Some _ => err | None => Some e end))
  end.

Definition Store (endpoint : gostring) (locations : gmap ChunkHash ChunkLocation) : prog CacheManager unit :=
  '(stored, err) ← store_entries (endpointTag endpoint) (range_map locations) [] None;
  capacity ← get_capacity;
  _ ← (if 0 <? capacity then _ ← add_all stored; evaluateLocked else mret tt);
  match err with Some e => throw e | None => mret tt end.

Definition read_entry (key : entryKey) : prog fsys (option ChunkLocation) :=
  with_entry key (fun p =>
    catch (os_ReadFile p)
      (fun entry => if negb (len entry =? entrySize) then _ ← unlink p; mret None else mret (Some (decode_entry entry)))
      (fun _ => mret None)).

Definition ctx_done : prog fsys bool := catch os_ctx (fun _ => mret false) (fun _ => mret true).

Fixpoint read_entries (tag : vec byte 8) (hashes : list ChunkHash) (seen : gset ChunkHash) (results : gmap ChunkHash ChunkLocation) :
    prog fsys (gmap ChunkHash ChunkLocation) :=
  match hashes with
  | [] => mret results
  | h :: hashes =>
      canceled ← ctx_done;
      if (canceled : bool) then mret results
      else if bool_decide (h ∈ seen) then read_entries tag hashes seen results
      else
        entry ← read_entry (MkEntryKey tag h);
        read_entries tag hashes ({[h]} ∪ seen) (match entry with Some loc => <[h := loc]> results | None => results end)
  end.

Definition Lookup (endpoint : gostring) (hashes : list ChunkHash) : prog CacheManager (gmap ChunkHash ChunkLocation) :=
  if len hashes =? 0 then mret ∅
  else
    canceled ← on_disk ctx_done;
    if (canceled : bool) then mret ∅
    else
      let tag := endpointTag endpoint in
      results ← on_disk (read_entries tag hashes ∅ ∅);
      capacity ← get_capacity;
      _ ← (if 0 <? capacity then add_all (map (fun hl => MkEntryKey tag hl.1) (range_map results)) else mret tt);
      mret results.

(** ** [Usage] *)

Record CacheUsage : Type := MkCacheUsage { cu_Count : Z; cu_Bytes : Z }.

Fixpoint count_files (files : list path) (usage : CacheUsage) : prog fsys CacheUsage :=
  match files with
  | [] => mret usage
  | p :: files =>
      _ ← os_ctx;
      catch (os_Stat p)
        (fun info => count_files files (MkCacheUsage (cu_Count usage + 1) (cu_Bytes usage + len (o_data info))))
        (fun e => if errors_Is e ErrNotExist then count_files files usage else throw e)
  end.

Definition Usage : prog CacheManager CacheUsage :=
  _ ← on_disk os_ctx;
  files ← on_disk (os_call (fun s => (Ok (files_below (fs_base s) s), s)));
  on_disk (count_files files (MkCacheUsage 0 0)).
End manager.
