(* ===== verification/UploadCacheProofs.v ===== *)
(** * The cache of chunk locations gives back what was stored

    [grows] relates file systems by their entries alone; every operation only
    drops entries, but for [Store], which adds those it was given, whichever
    calls fail ([lookups_faithful]).  The LRU stands for a list of keys, most
    recent first; when no call fails the entries on disk are among them, which
    bounds the directory ([cache_bounded]). *)

From Stdlib Require Import ZArith Lia Strings.Byte Strings.String.
From stdpp Require Import gmap.
From S2P Require Import Prelude Prog Hash Sha256 Shard Storage FileSystem Lru UploadCache.

(** ** Paths *)

Definition hex_char (c : byte) : Prop := exists d, 0 <= d < 16 /\ c = digit_char d.

Lemma hex_char_plain c : hex_char c -> c <> slash /\ c <> "."%byte.
Proof.
  intros (d & Hd & ->). assert (d ∈ seqZ 0 16) as Hs by (apply elem_of_seqZ; lia).
  assert (forallb (fun d => negb (bool_decide (digit_char d = slash)) && negb (bool_decide (digit_char d = "."%byte))) (seqZ 0 16) = true) as Hall by (vm_compute; reflexivity).
  rewrite forallb_forall in Hall. apply list_elem_of_In, Hall, andb_true_iff in Hs as [H1 H2].
  by apply negb_true_iff, bool_decide_eq_false in H1, H2.
Qed.

Lemma formatHash_hex h : Forall hex_char (formatHash h).
Proof.
  assert (forall v, Forall hex_char (hex16 v)) as Hv.
  { intros v. apply Forall_forall. intros c Hc. unfold hex16 in Hc. apply list_elem_of_fmap in Hc as (d & -> & Hin).
    pose proof (be_digits_range 16 16 v ltac:(lia)) as Hr. rewrite Forall_forall in Hr. exists d. split; [by apply Hr|done]. }
  rewrite formatHash_segs. by repeat apply Forall_app_2.
Qed.

Lemma hex_encode_hex b : Forall hex_char (hex_encode b).
Proof.
  induction b as [|x b IH]; [constructor|]. change (hex_encode (x :: b)) with (digit_char (b2z x / 16) :: digit_char (b2z x mod 16) :: hex_encode b).
  pose proof (b2z_range x). repeat constructor; [eexists; split; [|reflexivity]|eexists; split; [|reflexivity]|done].
  - split; [apply Z.div_pos|apply Z.div_lt_upper_bound]; lia.
  - apply Z.mod_pos_bound. lia.
Qed.

Lemma hex_part_plain s : s <> [] -> Forall hex_char s -> plain s /\ "."%byte ∉ s.
Proof.
  intros Hne Hs. rewrite Forall_forall in Hs. assert ("."%byte ∉ s) as Hd by (intros Hin; by apply Hs, hex_char_plain in Hin as [_ ?]).
  split; [|done]. repeat split; [done|intros ->; apply Hd; by constructor..|]. intros Hin. by apply Hs, hex_char_plain in Hin as [? _].
Qed.

Lemma Forall_slice {A} (P : A -> Prop) lo hi l : Forall P l -> Forall P (slice lo hi l).
Proof. intros H. by apply Forall_take, Forall_drop. Qed.

(** The components of a key below [chunks]. *)
Definition key_parts (key : entryKey) : path :=
  let name := formatHash (ek_hash key) in [hex_encode (ek_tag key); slice 0 2 name; slice 2 4 name; slice 4 64 name].

Lemma length_slice_name lo hi h : 0 <= lo -> lo <= hi <= 64 -> length (slice lo hi (formatHash h)) = Z.to_nat (hi - lo).
Proof. intros. unfold slice. rewrite length_take, length_drop, length_formatHash. lia. Qed.

Lemma key_parts_hex key : Forall (fun c => c <> [] /\ Forall hex_char c) (key_parts key).
Proof.
  pose proof (formatHash_hex (ek_hash key)) as Hh. unfold key_parts. repeat (constructor; [split|]); try (by apply Forall_slice); try constructor.
  - intros E. pose proof (length_hex_encode (ek_tag key)) as Hl. rewrite E, length_vec_to_list in Hl. done.
  - apply hex_encode_hex.
  - intros E. pose proof (length_slice_name 0 2 (ek_hash key)) as Hl. rewrite E in Hl. cbn [length] in Hl. lia.
  - intros E. pose proof (length_slice_name 2 4 (ek_hash key)) as Hl. rewrite E in Hl. cbn [length] in Hl. lia.
  - intros E. pose proof (length_slice_name 4 64 (ek_hash key)) as Hl. rewrite E in Hl. cbn [length] in Hl. lia.
Qed.

Lemma entry_key_split key : split_path (entry_key key) = kChunksDir :: key_parts key.
Proof.
  pose proof (key_parts_hex key) as Hp. unfold key_parts in Hp. rewrite !Forall_cons in Hp. destruct Hp as ([H1 P1] & [H2 P2] & [H3 P3] & [H4 P4] & _).
  unfold entry_key. rewrite !split_app. rewrite !split_single; [done|..].
  all: first [by apply hex_part_plain | by vm_compute; intros H; repeat (apply elem_of_cons in H as [H|H]; [discriminate H|]); by apply elem_of_nil in H].
Qed.

Definition chunks_dir (s : fsys) : path := Join (fs_rooted s) (fs_base s) kChunksDir.

Lemma chunks_plain : plain kChunksDir.
Proof. repeat split; try done. vm_compute. intros H. repeat (apply elem_of_cons in H as [H|H]; [discriminate H|]). by apply elem_of_nil in H. Qed.

Lemma chunks_dir_base s : chunks_dir s = fs_base s ++ [kChunksDir].
Proof.
  unfold chunks_dir. pose proof chunks_plain as Hp. rewrite Join_plain; rewrite split_single by apply Hp; [done|by repeat constructor; apply Hp].
Qed.

Lemma entryPath_parts key s : entryPath key s = chunks_dir s ++ key_parts key.
Proof.
  unfold entryPath. rewrite Join_plain; rewrite entry_key_split.
  - by rewrite chunks_dir_base, <- app_assoc.
  - constructor; [apply chunks_plain|]. eapply Forall_impl; [apply key_parts_hex|]. intros c [H1 H2]. by apply hex_part_plain.
Qed.

Lemma name_slices (name : gostring) : length name = 64%nat -> slice 0 2 name ++ slice 2 4 name ++ slice 4 64 name = name.
Proof.
  intros Hl. unfold slice. change (Z.to_nat (2 - 0)) with 2%nat. change (Z.to_nat (4 - 2)) with 2%nat. change (Z.to_nat (64 - 4)) with 60%nat.
  change (Z.to_nat 0) with 0%nat. change (Z.to_nat 2) with 2%nat. change (Z.to_nat 4) with 4%nat. rewrite drop_0.
  rewrite (take_ge (drop 4 name)) by (rewrite length_drop; lia). replace (drop 4 name) with (drop 2 (drop 2 name)) by (by rewrite drop_drop). by rewrite !take_drop.
Qed.

Lemma key_parts_inj k1 k2 : key_parts k1 = key_parts k2 -> k1 = k2.
Proof.
  intros H. unfold key_parts in H. injection H as H1 H2 H3 H4. destruct k1 as [t1 h1], k2 as [t2 h2]. cbn [ek_tag ek_hash] in *. f_equal.
  - apply vec_to_list_inj2. apply (f_equal hex_decode) in H1. rewrite !hex_decode_encode in H1. by injection H1.
  - pose proof (name_slices _ (length_formatHash h1)) as E1. pose proof (name_slices _ (length_formatHash h2)) as E2.
    rewrite H2, H3, H4, E2 in E1. pose proof (parse_formatHash h1) as P1. rewrite <- E1, parse_formatHash in P1. by injection P1.
Qed.

Lemma entryPath_inj k1 k2 s : entryPath k1 s = entryPath k2 s -> k1 = k2.
Proof. rewrite !entryPath_parts. intros H. by apply app_inv_head, key_parts_inj in H. Qed.

(** A path that is no entry: its name has a dot. *)
Definition scratch (p : path) : Prop := exists dir name, p = dir ++ [name] /\ "."%byte ∈ name.

Lemma scratch_no_entry p key s : scratch p -> p <> entryPath key s.
Proof.
  intros (dir & name & -> & Hd). rewrite entryPath_parts. unfold key_parts.
  set (parts := chunks_dir s ++ _). assert (parts = (chunks_dir s ++ [hex_encode (ek_tag key); slice 0 2 (formatHash (ek_hash key)); slice 2 4 (formatHash (ek_hash key))]) ++ [slice 4 64 (formatHash (ek_hash key))]) as ->
    by (unfold parts; by rewrite <- app_assoc). intros E. apply app_inj_2 in E as [_ E]; [|done]. injection E as ->.
  pose proof (Forall_slice _ 4 64 _ (formatHash_hex (ek_hash key))) as Hh. rewrite Forall_forall in Hh. by apply Hh, hex_char_plain in Hd as [_ ?].
Qed.

Lemma temp_scratch dir prefix name : scratch (dir ++ [prefix ++ name ++ dot_tmp]).
Proof. exists dir, (prefix ++ name ++ dot_tmp). split; [done|]. rewrite !elem_of_app. right. right. vm_compute. by constructor. Qed.

(** ** What operations do to the entries *)

(** The entries after are among those before, or new ones. *)
Record grows (new : entryKey -> list byte -> Prop) (s s' : fsys) : Prop := {
  gr_base : fs_base s' = fs_base s;
  gr_rooted : fs_rooted s' = fs_rooted s;
  gr_quiet : quiet s -> quiet s';
  gr_files key o : fs_files s' !! entryPath key s = Some o -> fs_files s !! entryPath key s = Some o \/ new key (o_data o);
}.

(** The entries are the same. *)
Record same_entries (s s' : fsys) : Prop := {
  se_base : fs_base s' = fs_base s;
  se_rooted : fs_rooted s' = fs_rooted s;
  se_quiet : quiet s -> quiet s';
  se_files key : fs_files s' !! entryPath key s = fs_files s !! entryPath key s;
}.

Definition no_new (_ : entryKey) (_ : list byte) : Prop := False.

Lemma entryPath_same key s s' : fs_base s' = fs_base s -> fs_rooted s' = fs_rooted s -> entryPath key s' = entryPath key s.
Proof. unfold entryPath. by intros -> ->. Qed.

(** Relations that hold across a call that touches no file. *)
Class fs_relation (R : fsys -> fsys -> Prop) : Prop := {
  fr_files s s' : fs_base s' = fs_base s -> fs_rooted s' = fs_rooted s -> fs_files s' = fs_files s -> fs_env s' = fs_env s -> (quiet s -> quiet s') -> R s s';
  fr_trans s1 s2 s3 : R s1 s2 -> R s2 s3 -> R s1 s3;
}.

#[export] Instance grows_relation new : fs_relation (grows new).
Proof.
  split.
  - intros s s' B R F _ Q. split; [done|done|done|]. rewrite F. by left.
  - intros s1 s2 s3 [B1 R1 Q1 F1] [B2 R2 Q2 F2]. split; [congruence|congruence|auto|]. intros key o Ho.
    rewrite <- (entryPath_same key s1 s2) in Ho by done. apply F2 in Ho as [Ho|]; [|by right]. rewrite (entryPath_same key s1 s2) in Ho by done. by apply F1.
Qed.

#[export] Instance same_entries_relation : fs_relation same_entries.
Proof.
  split.
  - intros s s' B R F _ Q. split; [done|done|done|]. by rewrite F.
  - intros s1 s2 s3 [B1 R1 Q1 F1] [B2 R2 Q2 F2]. split; [congruence|congruence|auto|]. intros key.
    rewrite <- F1, <- (entryPath_same key s1 s2) by done. apply F2.
Qed.

Lemma grows_trans new s1 s2 s3 : grows new s1 s2 -> grows new s2 s3 -> grows new s1 s3.
Proof. apply fr_trans. Qed.

Lemma grows_impl (new new' : entryKey -> list byte -> Prop) s s' : (forall k d, new k d -> new' k d) -> grows new s s' -> grows new' s s'.
Proof. intros Hi [B R Q F]. split; [done|done|done|]. intros key o Ho. destruct (F key o Ho); [by left|right; by apply Hi]. Qed.

Lemma same_entries_grows new s s' : same_entries s s' -> grows new s s'.
Proof. intros [B R Q F]. split; [done|done|done|]. intros key o. rewrite F. by left. Qed.

(** A program that keeps to a relation, however it ends. *)
Definition obeys (R : fsys -> fsys -> Prop) {A} (m : prog fsys A) : Prop := forall s, R s (m s).2.

Section obeys.
Context (R : fsys -> fsys -> Prop) {FR : fs_relation R}.

Lemma obeys_same {A} (m : prog fsys A) :
  (forall s, fs_base (m s).2 = fs_base s /\ fs_rooted (m s).2 = fs_rooted s /\ fs_files (m s).2 = fs_files s /\ fs_env (m s).2 = fs_env s /\ fs_faults (m s).2 = fs_faults s) -> obeys R m.
Proof. intros H s. destruct (H s) as (B & Hr & F & E & Q). apply fr_files; try done. unfold quiet. by rewrite Q. Qed.

Lemma obeys_ret {A} (a : A) : obeys R (mret a).
Proof. by apply obeys_same. Qed.
Lemma obeys_throw {A} e : obeys R (throw e : prog fsys A).
Proof. by apply obeys_same. Qed.

Lemma obeys_bind {A B} (m : prog fsys A) (f : A -> prog fsys B) : obeys R m -> (forall a, obeys R (f a)) -> obeys R (m ≫= f).
Proof.
  intros Hm Hf s. unfold mbind, prog_bind. specialize (Hm s). destruct (m s) as [[a|e] s1]; [|done]. eapply fr_trans; [exact Hm|apply Hf].
Qed.

Lemma obeys_catch {A B} (m : prog fsys A) (k : A -> prog fsys B) h : obeys R m -> (forall a, obeys R (k a)) -> (forall e, obeys R (h e)) -> obeys R (catch m k h).
Proof.
  intros Hm Hk Hh s. unfold catch. specialize (Hm s). destruct (m s) as [[a|e] s1]; (eapply fr_trans; [exact Hm|]); [apply Hk|apply Hh].
Qed.

Lemma obeys_ignore {A} (m : prog fsys A) : obeys R m -> obeys R (ignore m).
Proof. intros Hm s. apply Hm. Qed.

(** A call that may fail instead. *)
Lemma obeys_call {A} (m : prog fsys A) : obeys R m -> obeys R (os_call m).
Proof.
  intros Hm s. unfold os_call. cbn zeta. set (s1 := MkFs _ _ _ _ _ _ _ _).
  assert (R s s1) as H1 by (apply fr_files; [done..|]; unfold quiet, s1; cbn; by intros ->).
  destruct (fs_faults s 0%nat); [exact H1|]. eapply fr_trans; [exact H1|apply Hm].
Qed.

Lemma obeys_lookup p : obeys R (lookup_file p).
Proof. by apply obeys_same. Qed.
Lemma obeys_now : obeys R os_now.
Proof. by apply obeys_same. Qed.
Lemma obeys_ctx : obeys R os_ctx.
Proof. by apply obeys_same. Qed.
Lemma obeys_Stat p : obeys R (os_Stat p).
Proof. apply obeys_call, obeys_lookup. Qed.
Lemma obeys_ReadFile p : obeys R (os_ReadFile p).
Proof. apply obeys_call, obeys_bind; [apply obeys_lookup|intros; apply obeys_ret]. Qed.
Lemma obeys_MkdirAll p : obeys R (os_MkdirAll p).
Proof. apply obeys_call, obeys_ret. Qed.
Lemma obeys_Close p : obeys R (os_Close p).
Proof. apply obeys_call, obeys_ret. Qed.
Lemma obeys_ReadDir p : obeys R (os_ReadDir p).
Proof. apply obeys_call. by apply obeys_same. Qed.
Lemma obeys_RemoveDir p : obeys R (os_RemoveDir p).
Proof. apply obeys_call, obeys_same. intros s. by case_bool_decide. Qed.
Lemma obeys_ctx_done : obeys R ctx_done.
Proof. apply obeys_catch; [apply obeys_ctx|intros; apply obeys_ret..]. Qed.
Lemma obeys_removeDirs p : obeys R (removeEmptyCacheDirs p).
Proof.
  unfold removeEmptyCacheDirs, remove_dirs. repeat first [apply obeys_ret | apply obeys_RemoveDir | apply obeys_catch; intros].
Qed.

(** Removing a file is the relation's own affair. *)
Lemma obeys_Remove p : obeys R (drop_file p) -> obeys R (os_Remove p).
Proof. intros H. apply obeys_call, obeys_bind; [apply obeys_lookup|intros; exact H]. Qed.
Lemma obeys_unlink p : obeys R (drop_file p) -> obeys R (unlink p).
Proof. intros H. apply obeys_bind; [by apply obeys_ignore, obeys_Remove|]. intros; apply obeys_removeDirs. Qed.

(** Writing is too. *)
Lemma obeys_Write p data : (forall o, obeys R (store_file p o)) -> obeys R (os_Write p data).
Proof. intros H. apply obeys_call, obeys_bind; [apply obeys_now|]. intros; apply H. Qed.

Lemma obeys_CreateTempAs dir prefix suffix :
  (forall name o, obeys R (store_file (dir ++ [prefix ++ name ++ suffix]) o)) -> obeys R (os_CreateTempAs dir prefix suffix).
Proof.
  intros Hp. apply obeys_call. intros s. cbn zeta. set (s1 := MkFs _ _ _ _ _ _ _ _). assert (R s s1) as H1 by (by apply fr_files).
  case_bool_decide; [exact H1|]. eapply fr_trans; [exact H1|]. apply obeys_bind; [apply obeys_now|]. intros now.
  apply obeys_bind; [apply Hp|]. intros []. apply obeys_ret.
Qed.
End obeys.

Create HintDb obeys discriminated.
#[export] Hint Resolve obeys_ret obeys_throw obeys_bind obeys_catch obeys_ignore obeys_now obeys_ctx obeys_Stat obeys_ReadFile obeys_Remove obeys_unlink
  obeys_MkdirAll obeys_Close obeys_ReadDir obeys_RemoveDir obeys_ctx_done grows_relation same_entries_relation : obeys.

(** Case analysis around them. *)
Ltac obey R :=
  repeat first
    [ solve [eauto with obeys]
    | progress intros
    | apply (obeys_bind R)
    | apply (obeys_catch R)
    | match goal with |- obeys _ (match ?c with _ => _ end) => destruct c end ].

Lemma grows_drop new p : obeys (grows new) (drop_file p).
Proof. intros s. split; [done|done|done|]. intros key o Ho. cbn in Ho. apply lookup_delete_Some in Ho as [_ Ho]. by left. Qed.
#[export] Hint Resolve grows_drop : obeys.

(** Away from the entries. *)
Definition apart (p : path) : Prop := forall key s, p <> entryPath key s.

Lemma same_drop p : apart p -> obeys same_entries (drop_file p).
Proof. intros Hp s. split; [done|done|done|]. intros key. cbn. by rewrite lookup_delete_ne by apply Hp. Qed.
Lemma same_store p o : apart p -> obeys same_entries (store_file p o).
Proof. intros Hp s. split; [done|done|done|]. intros key. cbn. by rewrite lookup_insert_ne by apply Hp. Qed.

Lemma obeys_grows new {A} (m : prog fsys A) : obeys same_entries m -> obeys (grows new) m.
Proof. intros H s. apply same_entries_grows, H. Qed.

Lemma scratch_apart p : scratch p -> apart p.
Proof. intros H key s. by apply scratch_no_entry. Qed.

Lemma grows_read_entry new key : obeys (grows new) (read_entry key).
Proof. intros s. unfold read_entry, with_entry. apply (obeys_catch (grows new)); obey (grows new). Qed.

Lemma grows_read_entries new tag hashes seen results : obeys (grows new) (read_entries tag hashes seen results).
Proof.
  revert seen results. induction hashes as [|h hashes IH]; intros seen results; cbn [read_entries]; [eauto with obeys|].
  apply (obeys_bind (grows new)); [eauto with obeys|]. intros []; [eauto with obeys|]. case_bool_decide; [apply IH|].
  apply (obeys_bind (grows new)); [apply grows_read_entry|]. intros; apply IH.
Qed.

(** ** Writing an entry *)

Lemma os_call_cases {A} (m : prog fsys A) s :
  exists s1, fs_files s1 = fs_files s /\ fs_base s1 = fs_base s /\ fs_rooted s1 = fs_rooted s /\ (quiet s -> quiet s1) /\ fs_env s1 = fs_env s /\ (os_call m s = (Err ErrIO, s1) \/ os_call m s = m s1).
Proof. unfold os_call. cbn zeta. set (s1 := MkFs _ _ _ _ _ _ _ _). exists s1. split; [done|]. split; [done|]. split; [done|].
  split; [unfold quiet, s1; cbn; by intros -> |]. split; [done|]. destruct (fs_faults s 0%nat); [by left|by right]. Qed.

Lemma CreateTempAs_name dir prefix suffix s f s' : os_CreateTempAs dir prefix suffix s = (Ok f, s') -> exists name, f = dir ++ [prefix ++ name ++ suffix].
Proof.
  intros H. unfold os_CreateTempAs in H. match type of H with os_call ?m s = _ => destruct (os_call_cases m s) as (s1 & _ & _ & _ & _ & _ & [E|E]) end; rewrite E in H; [done|].
  cbn zeta in H. case_bool_decide; [done|]. injection H as <- _. by eexists.
Qed.

Lemma Write_data f data s s' : os_Write f data s = (Ok tt, s') -> exists o, fs_files s' !! f = Some o /\ o_data o = data.
Proof.
  intros H. unfold os_Write in H. destruct (os_call_cases (now ← os_now; store_file f (MkObject data now)) s) as (s1 & _ & _ & _ & _ & _ & [E|E]); rewrite E in H; [done|].
  injection H as <-. eexists. split; [apply lookup_insert_eq|done].
Qed.

(** The entry is written and nothing else. *)
Record writes (key : entryKey) (data : list byte) (s s' : fsys) : Prop := {
  wr_base : fs_base s' = fs_base s;
  wr_rooted : fs_rooted s' = fs_rooted s;
  wr_quiet : quiet s -> quiet s';
  wr_entry : exists o, fs_files s' !! entryPath key s = Some o /\ o_data o = data;
  wr_others k : k <> key -> fs_files s' !! entryPath k s = fs_files s !! entryPath k s;
}.

Lemma writes_grows key data s s' : writes key data s s' -> grows (fun k d => k = key /\ d = data) s s'.
Proof.
  intros [B R Q (o & Ho & <-) F]. split; [done|done|done|]. intros k o' Ho'. destruct (decide (k = key)) as [-> |Hk]; [right|left; by rewrite <- F].
  split; [done|]. congruence.
Qed.

Lemma Rename_entry key f o s : apart f -> fs_files s !! f = Some o ->
  match os_Rename f (entryPath key s) s with
  | (Ok _, s') => writes key (o_data o) s s'
  | (Err _, s') => same_entries s s'
  end.
Proof.
  intros Hf Ho. unfold os_Rename. destruct (os_call_cases (o ← lookup_file f; _ ← drop_file f; store_file (entryPath key s) o) s) as (s1 & F & B & R & Q & Ev & [-> | ->]).
  - by apply fr_files.
  - unfold mbind, prog_bind, lookup_file. rewrite F, Ho. cbn [drop_file store_file fst snd set_files fs_files fs_base fs_rooted]. rewrite F.
    split; [done|done|done| |]; cbn [set_files fs_files].
    + exists o. by rewrite lookup_insert_eq.
    + intros k Hk. rewrite lookup_insert_ne by (intros E; by apply entryPath_inj in E). by rewrite lookup_delete_ne by apply Hf.
Qed.

Lemma Close_files p s : fs_files (os_Close p s).2 = fs_files s.
Proof. unfold os_Close. by destruct (os_call_cases (mret tt) s) as (s1 & F & _ & _ & _ & _ & [-> | ->]). Qed.

Lemma same_trans s1 s2 s3 : same_entries s1 s2 -> same_entries s2 s3 -> same_entries s1 s3.
Proof. apply fr_trans. Qed.

Lemma same_writes key data s s1 s' : same_entries s s1 -> writes key data s1 s' -> writes key data s s'.
Proof.
  intros S [B R Q W F]. assert (forall k, entryPath k s1 = entryPath k s) as Ek by (intros k; apply entryPath_same; apply S). destruct S as [B1 R1 Q1 F1].
  split; [congruence|congruence|auto|by rewrite <- Ek|]. intros k Hk. rewrite <- F1, <- Ek. by apply F.
Qed.

(** A write that fails changes no entry. *)
Lemma write_entry_spec key data s :
  match with_entry key (fun p => writeFile p data) s with
  | (Ok _, s') => writes key data s s'
  | (Err _, s') => same_entries s s'
  end.
Proof.
  unfold with_entry, writeFile. unfold mbind at 1, prog_bind at 1. pose proof (obeys_MkdirAll same_entries (Dir (entryPath key s)) s) as G1.
  destruct (os_MkdirAll _ s) as [[[]|e] s1]; [|exact G1]. cbn [snd] in G1. unfold mbind at 1, prog_bind at 1.
  set (p := entryPath key s). assert (forall name, apart (Dir p ++ [[] ++ name ++ dot_tmp])) as Hap by (intros; apply scratch_apart, temp_scratch).
  pose proof (obeys_CreateTempAs same_entries (Dir p) [] dot_tmp (fun name o => same_store _ o (Hap name)) s1) as G2.
  destruct (os_CreateTempAs _ _ _ s1) as [[f|e] s2] eqn:Ec; [|by eapply same_trans]. apply CreateTempAs_name in Ec as [name ->]. cbn [snd] in G2.
  set (f := Dir p ++ [[] ++ name ++ dot_tmp]). assert (apart f) as Hf by apply Hap.
  assert (same_entries s s2) as G by (by eapply same_trans). clear G1 G2 Hap.
  assert (forall s3 e, same_entries s s3 -> match ((_ ← ignore (os_Remove f); throw e) : prog fsys unit) s3 with (Ok _, s') => writes key data s s' | (Err _, s') => same_entries s s' end) as Hend.
  { intros s3 e G3. pose proof (obeys_Remove same_entries f (same_drop f Hf) s3) as G4. cbn. by eapply same_trans. }
  pose proof (obeys_Write same_entries f data (fun o => same_store f o Hf) s2) as G3.
  unfold catch at 1. destruct (os_Write f data s2) as [[[]|e] s3] eqn:Ew; cbn [snd] in G3; assert (same_entries s s3) as G3' by (by eapply same_trans).
  - destruct (Write_data f data s2 s3 Ew) as (o & Ho & Hd). unfold catch at 1. pose proof (Close_files f s3) as Fc. pose proof (obeys_Close same_entries f s3) as Gc.
    destruct (os_Close f s3) as [[[]|e] s4]; cbn [snd] in *; assert (same_entries s s4) as G4 by (by eapply same_trans); [|by apply Hend].
    assert (p = entryPath key s4) as -> by (unfold p; symmetry; apply entryPath_same; apply G4).
    pose proof (Rename_entry key f o s4 Hf ltac:(by rewrite Fc)) as Hr. unfold catch at 1. destruct (os_Rename f _ s4) as [[[]|e] s5].
    + rewrite <- Hd. by eapply same_writes.
    + apply Hend. by eapply same_trans.
  - unfold mbind at 1, prog_bind at 1. change (ignore (os_Close f) s3) with (Ok tt, (os_Close f s3).2). cbv iota beta.
    apply Hend. eapply same_trans; [exact G3'|]. apply (obeys_Close same_entries).
Qed.

(** ** Walks *)

(** Programs that always return. *)
Definition answers {A} (m : prog fsys A) : Prop := forall s, exists a s', m s = (Ok a, s').

Lemma answers_ret {A} (a : A) : answers (mret a).
Proof. by eexists _, _. Qed.
Lemma answers_bind {A B} (m : prog fsys A) (f : A -> prog fsys B) : answers m -> (forall a, answers (f a)) -> answers (m ≫= f).
Proof. intros Hm Hf s. destruct (Hm s) as (a & s1 & E). rewrite (prog_bind_Ok _ _ _ _ _ E). apply Hf. Qed.
Lemma answers_catch {A B} (m : prog fsys A) (k : A -> prog fsys B) h : (forall a, answers (k a)) -> (forall e, answers (h e)) -> answers (catch m k h).
Proof. intros Hk Hh s. unfold catch. destruct (m s) as [[a|e] s1]; [apply Hk|apply Hh]. Qed.
Lemma answers_ignore {A} (m : prog fsys A) : answers (ignore m).
Proof. intros s. by eexists _, _. Qed.

Ltac answer :=
  repeat first
    [ apply answers_ret | apply answers_ignore | apply answers_bind | apply answers_catch | progress intros
    | match goal with |- answers (match ?c with _ => _ end) => destruct c end | assumption ].

Lemma answers_unlink p : answers (unlink p).
Proof. unfold unlink, removeEmptyCacheDirs, remove_dirs. answer. Qed.
Lemma answers_now : answers os_now.
Proof. intros s. by eexists _, _. Qed.
Lemma answers_ctx_done : answers ctx_done.
Proof. unfold ctx_done. answer. Qed.
Lemma answers_read_entry key : answers (read_entry key).
Proof. intros s. unfold read_entry, with_entry. apply answers_catch; intros; [destruct (negb _); [apply answers_bind; [apply answers_unlink|]|]|]; answer. Qed.
Lemma answers_read_entries tag hashes seen results : answers (read_entries tag hashes seen results).
Proof.
  revert seen results. induction hashes as [|h hashes IH]; intros seen results; cbn [read_entries]; [apply answers_ret|].
  apply answers_bind; [apply answers_ctx_done|]. intros []; [apply answers_ret|]. case_bool_decide; [apply IH|]. apply answers_bind; [apply answers_read_entry|]. intros; apply IH.
Qed.

(** Files that differ only where [P] says. *)
Record only (P : path -> Prop) (s s' : fsys) : Prop := {
  on_base : fs_base s' = fs_base s;
  on_rooted : fs_rooted s' = fs_rooted s;
  on_quiet : quiet s -> quiet s';
  on_files p : ~ P p -> fs_files s' !! p = fs_files s !! p;
}.

#[export] Instance only_relation P : fs_relation (only P).
Proof.
  split.
  - intros s s' B R F _ Q. split; [done|done|done|]. by rewrite F.
  - intros s1 s2 s3 [B1 R1 Q1 F1] [B2 R2 Q2 F2]. split; [congruence|congruence|auto|]. intros p Hp. by rewrite F2, F1.
Qed.
#[export] Hint Resolve only_relation : obeys.

Lemma only_drop (P : path -> Prop) p : P p -> obeys (only P) (drop_file p).
Proof. intros Hp s. split; [done|done|done|]. intros q Hq. cbn. rewrite lookup_delete_ne; [done|]. by intros ->. Qed.

Lemma only_same (P : path -> Prop) s s' : (forall key, ~ P (entryPath key s)) -> only P s s' -> same_entries s s'.
Proof. intros Hp [B R Q F]. split; [done|done|done|]. intros key. by apply F. Qed.

Lemma elem_of_files_below p root s : p ∈ files_below root s <-> take (length root) p = root /\ is_Some (fs_files s !! p).
Proof.
  unfold files_below. rewrite merge_sort_Permutation, list_elem_of_filter. apply and_iff_compat_l. rewrite list_elem_of_fmap. split.
  - intros ([q o] & -> & Hin). apply elem_of_map_to_list in Hin. by exists o.
  - intros [o Ho]. exists (p, o). split; [done|]. by apply elem_of_map_to_list.
Qed.

(** The staging directory is no place for entries. *)
Definition staging_dir (s : fsys) : path := Join (fs_rooted s) (fs_base s) (str "staging").

Definition staged (s : fsys) (p : path) : Prop := Dir p = staging_dir s.

Lemma staged_no_entry s key : ~ staged s (entryPath key s).
Proof.
  assert (plain (str "staging")) as Hp by (repeat split; try done; vm_compute; intros H; repeat (apply elem_of_cons in H as [H|H]; [discriminate H|]); by apply elem_of_nil in H).
  assert (split_path (str "staging") = [str "staging"]) as Hs by (apply split_single, Hp).
  unfold staged, staging_dir. intros Hd. rewrite Join_plain, Hs in Hd by (rewrite Hs; by repeat constructor; apply Hp).
  rewrite entryPath_parts, chunks_dir_base in Hd. apply (f_equal length) in Hd. unfold Dir, key_parts in Hd.
  rewrite removelast_firstn_len, length_take, !length_app in Hd. cbn [length] in Hd. lia.
Qed.

Lemma sweep_spec now s : exists s', sweep_staging now s = (Ok tt, s') /\ same_entries s s'.
Proof.
  set (P := staged s). assert (forall des, answers (remove_stale now des)) as Ha by (induction des; cbn [remove_stale]; answer).
  assert (forall des, (forall p, p ∈ des -> P p) -> obeys (only P) (remove_stale now des)) as Ho.
  { induction des as [|de des IH]; intros Hd; cbn [remove_stale]; [eauto with obeys|]. apply (obeys_bind (only P)).
    - pose proof (only_drop P de (Hd de ltac:(constructor))). obey (only P).
    - intros _. apply IH. intros p Hp. apply Hd. by constructor. }
  unfold sweep_staging. fold (staging_dir s).
  assert (only P s (catch (os_ReadDir (staging_dir s)) (remove_stale now) (fun _ => mret tt) s).2) as Hs.
  { unfold catch. pose proof (obeys_ReadDir (only P) (staging_dir s) s) as H1. unfold os_ReadDir in *.
    match goal with |- context [os_call ?m s] => destruct (os_call_cases m s) as (s1 & _ & _ & _ & _ & _ & [E|E]) end; rewrite E in *; cbn [snd] in *; [exact H1|].
    eapply fr_trans; [exact H1|]. apply Ho. intros p Hp. by apply list_elem_of_filter in Hp as [[? _] _]. }
  destruct (answers_catch (os_ReadDir (staging_dir s)) (remove_stale now) (fun _ => mret tt) Ha (fun _ => answers_ret tt) s) as ([] & s' & E).
  exists s'. split; [exact E|]. rewrite E in Hs. eapply only_same; [|exact Hs]. apply staged_no_entry.
Qed.

(** A new staged file is no entry. *)
Lemma create_spec s : same_entries (cm_fs s) (cm_fs (create s).2) /\ cm_lru (create s).2 = cm_lru s /\ cm_capacity (create s).2 = cm_capacity s /\ cm_lastReconcile (create s).2 = cm_lastReconcile s.
Proof.
  unfold create, on_disk. fold (staging_dir (cm_fs s)). set (m := _ ← os_MkdirAll (staging_dir (cm_fs s)); os_CreateTempAs (staging_dir (cm_fs s)) (str "xorb-") []).
  assert (only (staged (cm_fs s)) (cm_fs s) (m (cm_fs s)).2) as H.
  { apply (obeys_bind (only (staged (cm_fs s)))); [eauto with obeys|]. intros _. apply (obeys_CreateTempAs (only (staged (cm_fs s)))). intros name o s1. split; [done|done|done|].
    intros p Hp. cbn. rewrite lookup_insert_ne; [done|]. intros <-. apply Hp. unfold staged, Dir. apply removelast_last. }
  destruct (m (cm_fs s)) as [r fs']. cbn [snd cm_fs cm_lru cm_capacity cm_lastReconcile] in *. split; [|done]. eapply only_same; [|exact H]. apply staged_no_entry.
Qed.

Lemma suffix_scratch dir name : has_suffix dot_tmp name = true -> scratch (dir ++ [name]).
Proof.
  unfold has_suffix. rewrite andb_true_iff, bool_decide_eq_true. intros [_ E]. exists dir, name. split; [done|].
  rewrite <- (take_drop (length name - length dot_tmp) name), E. apply elem_of_app. right. vm_compute. by constructor.
Qed.

Lemma entry_name_suffix key : has_suffix dot_tmp (slice 4 64 (formatHash (ek_hash key))) = false.
Proof.
  apply not_true_iff_false. intros H. apply (suffix_scratch []) in H as (dir & name & E & Hd). destruct dir as [|? [|? ?]]; cbn in E; try done.
  injection E as <-. pose proof (Forall_slice _ 4 64 _ (formatHash_hex (ek_hash key))) as Hh. rewrite Forall_forall in Hh. by apply Hh, hex_char_plain in Hd as [_ ?].
Qed.

Lemma visit_same chunks now found p : take (length chunks) p = chunks -> obeys same_entries (visit_entry chunks now found p) /\ answers (visit_entry chunks now found p).
Proof.
  intros Hc. assert (forall part0 part1 part2 part3, drop (length chunks) p = [part0; part1; part2; part3] -> has_suffix dot_tmp part3 = true -> obeys same_entries (drop_file p)) as Hd.
  { intros p0 p1 p2 p3 Ed Hs. apply same_drop, scratch_apart. rewrite <- (take_drop (length chunks) p), Ed, Hc.
    change [p0; p1; p2; p3] with ([p0; p1; p2] ++ [p3]). rewrite app_assoc. by apply suffix_scratch. }
  split; intros s; unfold visit_entry; [apply (obeys_catch same_entries); [eauto with obeys| |eauto with obeys]; intros info|apply answers_catch; [intros info|intros; apply answers_ret]].
  - destruct (drop (length chunks) p) as [|p0 [|p1 [|p2 [|p3 [|]]]]] eqn:Ed; [eauto with obeys..| |eauto with obeys].
    destruct (has_suffix dot_tmp p3) eqn:Es; [specialize (Hd p0 p1 p2 p3 eq_refl Es)|]; obey same_entries.
  - assert (answers (unlink p)) by apply answers_unlink. answer.
Qed.

(** A walk finds a key when its file is there, and calls do not fail. *)
Lemma visit_finds now found p s :
  take (length (chunks_dir s)) p = chunks_dir s ->
  exists found' s', visit_entry (chunks_dir s) now found p s = (Ok found', s') /\ same_entries s s' /\
    (forall key, key ∈ map de_key found' -> key ∈ map de_key found \/ entryPath key s = p /\ is_Some (fs_files s !! p)) /\
    (quiet s -> forall key, key ∈ map de_key found \/ entryPath key s = p /\ is_Some (fs_files s !! p) -> key ∈ map de_key found').
Proof.
  intros Hc. destruct (visit_same (chunks_dir s) now found p Hc) as [Hs Ha]. destruct (Ha s) as (found' & s' & E). specialize (Hs s). rewrite E in Hs.
  exists found', s'. split; [exact E|]. split; [exact Hs|]. unfold visit_entry in E. unfold catch in E. unfold os_Stat in E.
  destruct (os_call_cases (lookup_file p) s) as (s1 & F & _ & _ & Q & _ & [Ec|Ec]).
  { assert (~ quiet s) as Hq.
    { intros Hq. unfold os_call in Ec. cbn zeta in Ec. rewrite Hq in Ec. unfold lookup_file in Ec. cbn in Ec. by destruct (fs_files s !! p). }
    rewrite Ec in E. cbn in E. injection E as <- _. split; [by left|done]. }
  rewrite Ec in E. unfold lookup_file in E. rewrite F in E. destruct (fs_files s !! p) as [o|] eqn:Eo.
  2: { injection E as <- _. split; [by left|]. intros _ key [?|[_ [? [=]]]]. done. }
  assert (forall key, entryPath key s = p -> found' = found ++ [MkDiskEntry key (o_modTime o)]) as Hentry.
  { intros key Hk. rewrite <- Hk, entryPath_parts, drop_app_length in E. unfold key_parts in E. rewrite hex_decode_encode in E.
    assert ((len (vec_to_list (ek_tag key)) =? 8) = true) as El by (unfold len; by rewrite length_vec_to_list). rewrite El in E. cbn [negb] in E.
    rewrite entry_name_suffix, name_slices, parse_formatHash in E by apply length_formatHash. cbv zeta in E. rewrite to_arr_vec in E.
    replace (MkEntryKey (ek_tag key) (ek_hash key)) with key in E by (by destruct key). rewrite entryPath_parts in E. unfold key_parts in E.
    rewrite bool_decide_eq_false_2 in E by (intros H; by apply H). by injection E as <- _. }
  assert (found' = found \/ exists key, entryPath key s = p /\ found' = found ++ [MkDiskEntry key (o_modTime o)]) as Hor.
  { clear Hentry. destruct (drop (length (chunks_dir s)) p) as [|p0 [|p1 [|p2 [|p3 [|]]]]]; try (injection E as <- _; by left).
    destruct (hex_decode p0) as [tag|]; [|injection E as <- _; by left]. destruct (negb (len tag =? 8)); [injection E as <- _; by left|].
    destruct (has_suffix dot_tmp p3).
    - destruct (hex_decode (p1 ++ p2)) as [[|a [|b [|]]]|]; try (injection E as <- _; by left). case_bool_decide; [injection E as <- _; by left|].
      destruct (leftoverAge <=? _); [|injection E as <- _; by left]. destruct (answers_unlink p s1) as ([] & s2 & Eu). rewrite (prog_bind_Ok _ _ _ _ _ Eu) in E. injection E as <- _. by left.
    - destruct (parseHash (p1 ++ p2 ++ p3)) as [h|]; [|injection E as <- _; by left]. cbv zeta in E. case_bool_decide as Hp; [injection E as <- _; by left|].
      injection E as <- _. right. exists (MkEntryKey (to_arr 8 tag) h). done. }
  split.
  - intros key Hk. destruct Hor as [-> |(key' & Hk' & ->)]; [by left|]. rewrite map_app, elem_of_app in Hk. cbn in Hk. destruct Hk as [Hk|Hk]; [by left|].
    apply list_elem_of_singleton in Hk as ->. right. by split.
  - intros _ key [Hk|[Hk _]].
    + destruct Hor as [-> |(key' & _ & ->)]; [done|]. rewrite map_app, elem_of_app. by left.
    + rewrite (Hentry key Hk), map_app, elem_of_app. right. by apply list_elem_of_singleton.
Qed.

Lemma visits_find now files : forall found s,
  (forall p, p ∈ files -> take (length (chunks_dir s)) p = chunks_dir s) ->
  exists found' s', visit_entries (chunks_dir s) now found files s = (Ok found', s') /\ same_entries s s' /\
    (forall key, key ∈ map de_key found' -> key ∈ map de_key found \/ is_Some (fs_files s !! entryPath key s)) /\
    (quiet s -> forall key, key ∈ map de_key found \/ entryPath key s ∈ files /\ is_Some (fs_files s !! entryPath key s) -> key ∈ map de_key found').
Proof.
  induction files as [|p files IH]; intros found s Hf; cbn [visit_entries].
  - exists found, s. split; [done|]. split; [by apply fr_files|]. split; [by left|]. intros _ key [?|[H _]]; [done|by apply elem_of_nil in H].
  - destruct (visit_finds now found p s (Hf p ltac:(constructor))) as (f1 & s1 & E & Hs & H1 & H2). rewrite (prog_bind_Ok _ _ _ _ _ E).
    assert (chunks_dir s1 = chunks_dir s) as Ec by (unfold chunks_dir; by rewrite (se_base _ _ Hs), (se_rooted _ _ Hs)).
    assert (forall key, entryPath key s1 = entryPath key s) as Ek by (intros key; apply entryPath_same; apply Hs).
    destruct (IH f1 s1) as (f2 & s2 & E2 & Hs2 & H3 & H4). { rewrite Ec. intros q Hq. apply Hf. by constructor. }
    rewrite <- Ec, E2. exists f2, s2. split; [done|]. split; [by eapply fr_trans|]. split.
    + intros key Hk. destruct (H3 key Hk) as [Hk1|Hk1]; [destruct (H1 key Hk1) as [?|[Ep ?]]; [by left|right; by rewrite Ep]|]. right. rewrite Ek, (se_files _ _ Hs) in Hk1. done.
    + intros Hq key Hk. apply H4; [by apply Hs|]. rewrite Ek, (se_files _ _ Hs). destruct Hk as [Hk|[[Ep|Hin]%elem_of_cons Hk]].
      * left. apply H2; [done|by left].
      * left. apply H2; [done|]. right. by rewrite <- Ep.
      * by right.
Qed.

Lemma walk_spec now s : exists found s', walk_chunks now s = (Ok found, s') /\ same_entries s s' /\
  (forall key, key ∈ map de_key found -> is_Some (fs_files s !! entryPath key s)) /\
  (quiet s -> forall key, is_Some (fs_files s !! entryPath key s) -> key ∈ map de_key found).
Proof.
  unfold walk_chunks. fold (chunks_dir s). destruct (visits_find now (files_below (chunks_dir s) s) [] s) as (found & s' & E & Hs & H1 & H2).
  { intros p Hp. by apply elem_of_files_below in Hp as [? _]. }
  exists found, s'. split; [exact E|]. split; [done|]. split.
  - intros key Hk. destruct (H1 key Hk) as [H|]; [by apply elem_of_nil in H|done].
  - intros Hq key Hk. apply H2; [done|]. right. split; [|done]. apply elem_of_files_below. split; [|done]. by rewrite entryPath_parts, take_app_length.
Qed.

(** ** The LRU as a list of keys, most recent first *)

Definition lru_has (c : entry_lru) (ks : list entryKey) : Prop :=
  c_MaxEntries c = 0 /\ c_OnEvicted c = None /\ represents c (map (fun k => (k, tt)) ks).

Definition push (ks : list entryKey) (k : entryKey) : list entryKey := k :: filter (fun k' => k' <> k) ks.

Definition set_lru (c : entry_lru) (s : CacheManager) : CacheManager := MkManager (cm_capacity s) c (cm_lastReconcile s) (cm_fs s).

Lemma set_lru_same s : set_lru (cm_lru s) s = s.
Proof. by destruct s. Qed.

Lemma lru_has_New : lru_has (New 0) [].
Proof. split; [done|]. split; [done|]. apply rep_empty. Qed.

Lemma lru_has_NoDup c ks : lru_has c ks -> NoDup ks.
Proof. intros (_ & _ & R). apply represents_keys in R. by rewrite map_map, map_id in R. Qed.

Lemma drop_key_map (k : entryKey) ks : drop_key k (map (fun k => (k, tt)) ks) = map (fun k => (k, tt)) (filter (fun k' => k' <> k) ks).
Proof.
  unfold drop_key. induction ks as [|k' ks IH]; [done|]. cbn [map]. rewrite !filter_cons. cbn [fst]. destruct (decide (k' <> k)); cbn [map]; by rewrite IH.
Qed.

Lemma add_lru k ks s : lru_has (cm_lru s) ks -> exists c, on_lru (Add k tt) s = (Ok tt, set_lru c s) /\ lru_has c (push ks k).
Proof.
  intros (M & E & R). destruct (Add_ok (cm_lru s) _ k tt tt R) as (s' & Ea & R'). rewrite drop_key_map, M in R'. unfold on_lru. rewrite Ea.
  eexists. split; [done|]. by split; [|split].
Qed.

Lemma len_lru ks s : lru_has (cm_lru s) ks -> on_lru Len s = (Ok (len ks), s).
Proof.
  intros (_ & _ & R). unfold on_lru, Len. unfold represents in R. destruct s as [cap c lr fs]. cbn [cm_lru cm_capacity cm_lastReconcile cm_fs] in *.
  destruct (c_lists c) as [ls|]; [|by destruct ks]. unfold len. by rewrite (Forall2_length _ _ _ (rep_entries _ _ R)), length_map.
Qed.

Lemma oldest_lru k ks s : lru_has (cm_lru s) (ks ++ [k]) -> exists c, on_lru RemoveOldest s = (Ok (Some (k, tt)), set_lru c s) /\ lru_has c ks.
Proof.
  intros (M & E & R). rewrite map_app in R. destruct (removeOldest_ok (cm_lru s) _ _ tt R) as (s' & Er & R'). unfold on_lru, RemoveOldest. rewrite Er.
  eexists. split; [done|]. by split; [|split].
Qed.

Lemma filter_everything {A} (P : A -> Prop) `{forall x, Decision (P x)} (l : list A) : (forall x, x ∈ l -> P x) -> filter P l = l.
Proof.
  induction l as [|x l IH]; intros Hp; [done|]. rewrite filter_cons, decide_True by (apply Hp; constructor). f_equal. apply IH. intros y Hy. apply Hp. by constructor.
Qed.

Lemma filter_agree {A} (P Q : A -> Prop) `{forall x, Decision (P x)} `{forall x, Decision (Q x)} (l : list A) :
  (forall x, x ∈ l -> P x <-> Q x) -> filter P l = filter Q l.
Proof.
  induction l as [|x l IH]; intros Hp; [done|]. rewrite !filter_cons, IH by (intros y Hy; apply Hp; by constructor).
  destruct (Hp x ltac:(constructor)). repeat case_decide; naive_solver.
Qed.

(** Adding keys puts the last one first. *)
Lemma pushes ks l : NoDup l -> foldl push ks l = reverse l ++ filter (fun k => k ∉ l) ks.
Proof.
  revert ks. induction l as [|k l IH]; intros ks Hnd; cbn [foldl].
  - symmetry. apply filter_everything. intros x _. apply not_elem_of_nil.
  - apply NoDup_cons in Hnd as [Hk Hnd]. rewrite IH by done. unfold push. rewrite filter_cons, decide_True by done. rewrite reverse_cons, <- app_assoc. cbn [app]. do 2 f_equal.
    rewrite list_filter_filter. apply filter_agree. intros x _. rewrite not_elem_of_cons. naive_solver.
Qed.

Lemma elem_of_push ks k x : x ∈ push ks k <-> x = k \/ x ∈ ks.
Proof. unfold push. rewrite elem_of_cons, list_elem_of_filter. destruct (decide (x = k)); naive_solver. Qed.

Lemma elem_of_pushes ks l x : x ∈ foldl push ks l <-> x ∈ l \/ x ∈ ks.
Proof. revert ks. induction l as [|k l IH]; intros ks; cbn [foldl]; [set_solver|]. rewrite IH, elem_of_push, elem_of_cons. naive_solver. Qed.

Lemma add_all_lru keys ks s : lru_has (cm_lru s) ks -> exists c, add_all keys s = (Ok tt, set_lru c s) /\ lru_has c (foldl push ks keys).
Proof.
  revert ks s. induction keys as [|k keys IH]; intros ks s H; cbn [add_all foldl].
  - exists (cm_lru s). by rewrite set_lru_same.
  - destruct (add_lru k ks s H) as (c & E & H'). rewrite (prog_bind_Ok _ _ _ _ _ E). destruct (IH _ (set_lru c s) H') as (c' & -> & ?). by exists c'.
Qed.

Lemma pop_all_lru ks : forall fuel s tracked, lru_has (cm_lru s) ks -> (length ks < fuel)%nat ->
  exists c, pop_all fuel tracked s = (Ok (tracked ++ reverse ks), set_lru c s) /\ lru_has c [].
Proof.
  induction ks as [|k ks IH] using rev_ind; intros [|fuel] s tracked H Hf; try lia; cbn [pop_all].
  - rewrite (prog_bind_Ok _ _ _ _ _ (len_lru _ _ H)). cbn. exists (cm_lru s). by rewrite set_lru_same, app_nil_r.
  - rewrite (prog_bind_Ok _ _ _ _ _ (len_lru _ _ H)). rewrite length_app in Hf. cbn [length] in Hf.
    assert ((len (ks ++ [k]) <=? 0) = false) as -> by (apply Z.leb_gt; unfold len; rewrite length_app; cbn [length]; lia).
    destruct (oldest_lru k ks s H) as (c & E & H'). rewrite (prog_bind_Ok _ _ _ _ _ E). cbv zeta. cbn [fst].
    destruct (IH fuel (set_lru c s) (tracked ++ [k]) H' ltac:(lia)) as (c' & -> & ?). exists c'. split; [|done]. by rewrite reverse_snoc, <- app_assoc.
Qed.

Lemma readd_lru tracked : forall ks onDisk s, NoDup tracked -> lru_has (cm_lru s) ks ->
  exists c, readd tracked onDisk s = (Ok (onDisk ∖ list_to_set tracked), set_lru c s) /\
    lru_has c (foldl push ks (filter (fun k => k ∈ onDisk) tracked)).
Proof.
  induction tracked as [|k tracked IH]; intros ks onDisk s Hnd H; cbn [readd list_to_set foldr].
  - exists (cm_lru s). rewrite set_lru_same. split; [|done]. by rewrite difference_empty_L.
  - apply NoDup_cons in Hnd as [Hk Hnd]. rewrite filter_cons. case_bool_decide as Hd.
    + destruct (add_lru k ks s H) as (c & E & H'). rewrite (prog_bind_Ok _ _ _ _ _ E). rewrite decide_True by done. cbn [foldl].
      destruct (IH _ (onDisk ∖ {[k]}) (set_lru c s) Hnd H') as (c' & -> & H2). exists c'. split; [by rewrite difference_difference_l_L|].
      erewrite filter_agree; [exact H2|]. intros x Hx. assert (x <> k) by congruence. set_solver.
    + rewrite decide_False by done. destruct (IH ks onDisk s Hnd H) as (c' & -> & H2). exists c'. split; [|done]. f_equal. f_equal. set_solver.
Qed.

Section manager.
Context (range_map : gmap ChunkHash ChunkLocation -> list (ChunkHash * ChunkLocation)).
Context (sort_func : list diskEntry -> list diskEntry).
Context (range_perm : forall m, range_map m ≡ₚ map_to_list m) (sort_perm : forall l, sort_func l ≡ₚ l).

(** The entries on disk are tracked. *)
Definition tracked (s : fsys) (ks : list entryKey) : Prop := forall key, is_Some (fs_files s !! entryPath key s) -> key ∈ ks.

(** What the operations leave alone. *)
Record manages (s s' : CacheManager) : Prop := {
  ma_capacity : cm_capacity s' = cm_capacity s;
  ma_reconciled : is_Some (cm_lastReconcile s) -> is_Some (cm_lastReconcile s');
}.

Lemma manages_trans s1 s2 s3 : manages s1 s2 -> manages s2 s3 -> manages s1 s3.
Proof. intros [C1 L1] [C2 L2]. split; [congruence|auto]. Qed.

(** ** Adoption *)

Lemma adopt_lru found ks s : lru_has (cm_lru s) ks ->
  exists c ks', adopt sort_func found s = (Ok tt, set_lru c s) /\ lru_has c ks' /\
    (forall k, k ∈ ks' <-> k ∈ map de_key found) /\
    ((forall k, k ∈ map de_key found -> k ∈ ks) -> ks' = filter (fun k => k ∈ map de_key found) ks).
Proof.
  intros H. unfold adopt. rewrite (prog_bind_Ok _ _ _ _ _ (len_lru _ _ H)). pose proof (lru_has_NoDup _ _ H) as Hnd.
  destruct (pop_all_lru ks (S (Z.to_nat (len ks))) s [] H) as (c1 & E1 & H1); [unfold len; lia|]. rewrite (prog_bind_Ok _ _ _ _ _ E1). cbn [app].
  set (D := list_to_set (map de_key found) : gset entryKey).
  destruct (readd_lru (reverse ks) [] D (set_lru c1 s)) as (c2 & E2 & H2); [by rewrite reverse_Permutation|done|]. rewrite (prog_bind_Ok _ _ _ _ _ E2).
  rewrite pushes in H2 by (apply NoDup_filter; by rewrite reverse_Permutation). rewrite filter_nil, app_nil_r, filter_reverse, reverse_involutive in H2.
  set (rest := filter (fun key => key ∈ D ∖ list_to_set (reverse ks)) (map de_key (sort_func found))).
  destruct (add_all_lru rest _ (set_lru c2 (set_lru c1 s)) H2) as (c3 & E3 & H3). rewrite E3. exists c3, (foldl push (filter (fun k => k ∈ D) ks) rest).
  assert (forall k, k ∈ D <-> k ∈ map de_key found) as HD by (intros k; unfold D; by rewrite elem_of_list_to_set).
  split; [done|]. split; [done|]. split.
  - intros k. rewrite elem_of_pushes. unfold rest. rewrite !list_elem_of_filter, elem_of_difference, HD, elem_of_list_to_set, elem_of_reverse, (Permutation_map de_key (sort_perm found)).
    destruct (decide (k ∈ ks)); tauto.
  - intros Hsub. assert (rest = []) as ->.
    { destruct rest as [|k rest'] eqn:Er; [done|]. assert (k ∈ rest) as Hk by (rewrite Er; constructor). unfold rest in Hk.
      rewrite list_elem_of_filter, elem_of_difference, HD, elem_of_list_to_set, elem_of_reverse in Hk. destruct Hk as [[Hk []] _]. by apply Hsub. }
    cbn [foldl]. apply filter_agree. intros k _. apply HD.
Qed.
(** ** Eviction *)

Lemma unlink_quiet p s : quiet s -> fs_files (unlink p s).2 = delete p (fs_files s).
Proof.
  intros Hq. unfold unlink, mbind, prog_bind. change (ignore (os_Remove p) s) with (Ok tt, (os_Remove p s).2). cbv iota beta.
  assert (only (fun _ => False) (os_Remove p s).2 (removeEmptyCacheDirs p (os_Remove p s).2).2) as [_ _ _ F] by apply (obeys_removeDirs (only (fun _ => False))).
  apply map_eq. intros q. rewrite F by (intros []). unfold os_Remove, os_call. cbn zeta. rewrite Hq. unfold mbind, prog_bind, lookup_file. cbn [fs_files].
  destruct (fs_files s !! p) as [o|] eqn:E; [done|]. cbn. by rewrite delete_id.
Qed.

(** The oldest entries go, down to [kept]. *)
Lemma evict_down_spec kept ks : forall fuel s, lru_has (cm_lru s) ks -> (length ks < fuel)%nat ->
  exists s', evict_down fuel (Z.of_nat kept) s = (Ok tt, s') /\ lru_has (cm_lru s') (take kept ks) /\ manages s s' /\ grows no_new (cm_fs s) (cm_fs s') /\
    (quiet (cm_fs s) -> forall key, fs_files (cm_fs s') !! entryPath key (cm_fs s) =
       if bool_decide (key ∈ drop kept ks) then None else fs_files (cm_fs s) !! entryPath key (cm_fs s)).
Proof.
  induction ks as [|k ks IH] using rev_ind; intros [|fuel] s H Hf; try lia; cbn [evict_down]; rewrite (prog_bind_Ok _ _ _ _ _ (len_lru _ _ H)).
  - assert ((len ([] : list entryKey) <=? Z.of_nat kept) = true) as -> by (apply Z.leb_le; unfold len; cbn [length]; lia). exists s. rewrite take_nil, drop_nil.
    split; [done|]. split; [done|]. split; [by split|]. split; [by apply fr_files|]. intros _ key. by rewrite bool_decide_eq_false_2 by apply not_elem_of_nil.
  - rewrite length_app in Hf. cbn [length] in Hf. pose proof (lru_has_NoDup _ _ H) as Hnd. destruct (Z.leb_spec (len (ks ++ [k])) (Z.of_nat kept)) as [Hle|Hgt]; unfold len in *; rewrite length_app in *; cbn [length] in *.
    + exists s. rewrite take_ge, drop_ge by (rewrite length_app; cbn [length]; lia). split; [done|]. split; [done|]. split; [by split|]. split; [by apply fr_files|].
      intros _ key. by rewrite bool_decide_eq_false_2 by apply not_elem_of_nil.
    + destruct (oldest_lru k ks s H) as (c & E & H'). rewrite (prog_bind_Ok _ _ _ _ _ E). cbv zeta. cbn [fst].
      destruct (answers_unlink (entryPath k (cm_fs s)) (cm_fs s)) as ([] & fs1 & Eu). unfold mbind at 1, prog_bind at 1.
      assert (on_disk (with_entry k unlink) (set_lru c s) = (Ok tt, MkManager (cm_capacity s) c (cm_lastReconcile s) fs1)) as -> by (unfold on_disk, with_entry; cbn [set_lru cm_fs]; by rewrite Eu).
      set (s1 := MkManager _ _ _ _). destruct (IH fuel s1 H' ltac:(lia)) as (s' & -> & H2 & M2 & G2 & Q2). exists s'.
      assert (grows no_new (cm_fs s) fs1) as G1 by (pose proof (obeys_unlink (grows no_new) (entryPath k (cm_fs s)) (grows_drop _ _) (cm_fs s)) as G; by rewrite Eu in G).
      rewrite take_app_le, drop_app_le by lia. split; [done|]. split; [done|]. split; [eapply manages_trans; [|exact M2]; by split|]. split; [eapply grows_trans; [exact G1|exact G2]|].
      intros Hq key. pose proof (unlink_quiet (entryPath k (cm_fs s)) (cm_fs s) Hq) as Fu. rewrite Eu in Fu. cbn [snd] in Fu.
      assert (forall key, entryPath key fs1 = entryPath key (cm_fs s)) as Ek by (intros x; apply entryPath_same; apply G1).
      pose proof (Q2 (gr_quiet _ _ _ G1 Hq) key) as Q. unfold s1 in Q. cbn [cm_fs] in Q. rewrite Ek in Q. rewrite Q, Fu. clear Q Q2.
      destruct (decide (key = k)) as [-> |Hne].
      * rewrite lookup_delete_eq. rewrite (bool_decide_eq_true_2 (k ∈ drop kept ks ++ [k])) by (apply elem_of_app; right; by apply list_elem_of_singleton). by case_bool_decide.
      * rewrite lookup_delete_ne by (intros Hp; by apply entryPath_inj in Hp). rewrite (bool_decide_ext (key ∈ drop kept ks) (key ∈ drop kept ks ++ [k])); [done|].
        rewrite elem_of_app, list_elem_of_singleton. naive_solver.
Qed.
(** ** Reconciling and evaluating *)

Lemma on_disk_Ok {A} (m : prog fsys A) s a fs' : m (cm_fs s) = (Ok a, fs') -> on_disk m s = (Ok a, MkManager (cm_capacity s) (cm_lru s) (cm_lastReconcile s) fs').
Proof. intros E. unfold on_disk. by rewrite E. Qed.

Definition there (s : fsys) (key : entryKey) : Prop := is_Some (fs_files s !! entryPath key s).

#[local] Instance there_dec s key : Decision (there s key) := _.

Lemma there_same s s' key : same_entries s s' -> there s' key <-> there s key.
Proof. intros S. unfold there. by rewrite (entryPath_same key s s'), (se_files _ _ S) by apply S. Qed.

Lemma reconcile_spec s ks : lru_has (cm_lru s) ks ->
  exists s' ks', reconcileLocked sort_func s = (Ok tt, s') /\ lru_has (cm_lru s') ks' /\ manages s s' /\ is_Some (cm_lastReconcile s') /\ same_entries (cm_fs s) (cm_fs s') /\
    (0 < cm_capacity s -> quiet (cm_fs s) -> tracked (cm_fs s') ks' /\ (tracked (cm_fs s) ks -> ks' = filter (there (cm_fs s)) ks)).
Proof.
  intros H. unfold reconcileLocked. destruct (answers_now (cm_fs s)) as (now & fs1 & E1). rewrite (prog_bind_Ok _ _ _ _ _ (on_disk_Ok _ _ _ _ E1)).
  pose proof (obeys_now same_entries (cm_fs s)) as S1. rewrite E1 in S1. cbn [snd] in S1.
  unfold mbind at 1, prog_bind at 1, set_lastReconcile. cbn [cm_capacity cm_lru cm_fs cm_lastReconcile].
  destruct (sweep_spec now fs1) as (fs2 & E2 & S2). set (s1 := MkManager (cm_capacity s) (cm_lru s) (Some now) fs1).
  rewrite (prog_bind_Ok _ _ _ _ _ (on_disk_Ok (sweep_staging now) s1 _ _ E2)). unfold s1. cbn [cm_capacity cm_lru cm_lastReconcile].
  unfold mbind at 1, prog_bind at 1, get_capacity. cbn [cm_capacity]. assert (same_entries (cm_fs s) fs2) as S by (by eapply fr_trans).
  destruct (Z.leb_spec (cm_capacity s) 0) as [Hc|Hc].
  { eexists _, ks. split; [done|]. split; [done|]. split; [by split|]. split; [by eexists|]. split; [done|]. lia. }
  destruct (walk_spec now fs2) as (found & fs3 & E3 & S3 & W1 & W2). set (s2 := MkManager (cm_capacity s) (cm_lru s) (Some now) fs2).
  rewrite (prog_bind_Ok _ _ _ _ _ (on_disk_Ok (walk_chunks now) s2 _ _ E3)). unfold s2. cbn [cm_capacity cm_lru cm_lastReconcile].
  set (s3 := MkManager (cm_capacity s) (cm_lru s) (Some now) fs3). destruct (adopt_lru found ks s3 H) as (c & ks' & E4 & H4 & A1 & A2).
  assert (same_entries (cm_fs s) fs3) as S' by (by eapply fr_trans). exists (set_lru c s3), ks'.
  split; [done|]. split; [done|]. split; [by split|]. split; [by eexists|]. split; [done|]. intros _ Hq.
  assert (forall key, key ∈ map de_key found <-> there (cm_fs s) key) as HD.
  { intros key. rewrite <- (there_same _ _ key S). split; [apply W1|apply W2; by apply S]. }
  split.
  - intros key Hk. cbn [cm_fs set_lru s3] in Hk. apply A1, HD. by apply (there_same _ _ key S').
  - intros Ht. rewrite A2; [apply filter_agree; intros k _; apply HD|]. intros k Hk. by apply Ht, HD.
Qed.

Lemma kept_bound capacity : 0 < capacity -> 0 <= kept_entries capacity /\ kept_entries capacity * entryCost <= capacity.
Proof.
  intros Hc. unfold kept_entries, entryCost. change (4 * 2 ^ 10) with 4096. cbv zeta. rewrite Z.quot_div_nonneg by lia.
  pose proof (Z.mul_div_le capacity 4096 ltac:(lia)). pose proof (Z.div_pos capacity 4096 ltac:(lia) ltac:(lia)). rewrite (Z.quot_div_nonneg (capacity / 4096) 10) by lia.
  pose proof (Z.mul_div_le (capacity / 4096) 10 ltac:(lia)). pose proof (Z.div_pos (capacity / 4096) 10 ltac:(lia) ltac:(lia)). lia.
Qed.

Lemma take_filter {A} (P : A -> Prop) `{forall x, Decision (P x)} n (l : list A) x : x ∈ take n l -> P x -> x ∈ take n (filter P l).
Proof.
  revert n. induction l as [|y l IH]; intros [|n] Hx HP; cbn [take] in Hx; try (by apply elem_of_nil in Hx). rewrite filter_cons. apply elem_of_cons in Hx as [-> |Hx].
  - rewrite decide_True by done. cbn [take]. constructor.
  - case_decide; cbn [take]; [constructor; by apply IH|]. specialize (IH n Hx HP). clear -IH. revert IH. generalize (filter P l). clear. revert n.
    induction n as [|n IH]; intros l Hx; [cbn in Hx; by apply elem_of_nil in Hx|]. destruct l as [|z l]; [by apply elem_of_nil in Hx|]. cbn [take] in *.
    apply elem_of_cons in Hx as [-> |Hx]; [constructor|]. constructor. by apply IH.
Qed.

(** The tracked entries are within the capacity; without faults the entries on
    disk are still tracked, and the most recent of them still there. *)
Lemma evaluate_spec s ks : lru_has (cm_lru s) ks ->
  exists s' ks', evaluateLocked sort_func s = (Ok tt, s') /\ lru_has (cm_lru s') ks' /\ manages s s' /\ grows no_new (cm_fs s) (cm_fs s') /\
    (0 < cm_capacity s -> len ks' * entryCost <= cm_capacity s) /\
    (0 < cm_capacity s -> quiet (cm_fs s) -> tracked (cm_fs s) ks -> tracked (cm_fs s') ks' /\
       forall key, key ∈ take (Z.to_nat (kept_entries (cm_capacity s))) ks -> fs_files (cm_fs s') !! entryPath key (cm_fs s) = fs_files (cm_fs s) !! entryPath key (cm_fs s)).
Proof.
  intros H. unfold evaluateLocked. unfold mbind at 1, prog_bind at 1, get_capacity at 1. rewrite (prog_bind_Ok _ _ _ _ _ (len_lru _ _ H)).
  destruct (_ || _) eqn:Eb.
  { exists s, ks. split; [done|]. split; [done|]. split; [by split|]. split; [by apply fr_files|]. split; [|done]. intros Hc.
    apply orb_true_iff in Eb as [Eb|Eb]; [apply Z.leb_le in Eb|apply Z.ltb_lt in Eb]; lia. }
  apply orb_false_iff in Eb as [Hc _]. apply Z.leb_gt in Hc. destruct (answers_now (cm_fs s)) as (now & fs1 & E1). rewrite (prog_bind_Ok _ _ _ _ _ (on_disk_Ok _ _ _ _ E1)).
  pose proof (obeys_now same_entries (cm_fs s)) as S1. rewrite E1 in S1. cbn [snd] in S1. set (s1 := MkManager (cm_capacity s) (cm_lru s) (cm_lastReconcile s) fs1).
  unfold mbind at 1, prog_bind at 1, get_lastReconcile.
  set (due := match cm_lastReconcile s1 with Some t => reconcileInterval <=? now - t | None => true end).
  assert (exists s2 ks2, (if due then reconcileLocked sort_func else mret tt) s1 = (Ok tt, s2) /\ lru_has (cm_lru s2) ks2 /\ manages s s2 /\ same_entries (cm_fs s) (cm_fs s2) /\
    (quiet (cm_fs s) -> tracked (cm_fs s) ks -> tracked (cm_fs s2) ks2 /\ forall n key, there (cm_fs s) key -> key ∈ take n ks -> key ∈ take n ks2)) as (s2 & ks2 & E2 & H2 & M2 & S2 & T2).
  { destruct due.
    - destruct (reconcile_spec s1 ks H) as (s2 & ks2 & E2 & H2 & M2 & _ & S2 & T2). exists s2, ks2. split; [done|]. split; [done|].
      split; [eapply manages_trans; [|exact M2]; by split|]. split; [by eapply fr_trans|]. intros Hq Ht. destruct (T2 Hc (se_quiet _ _ S1 Hq)) as [Ht2 Hf]. split; [done|]. rewrite Hf; [|intros key Hk; by apply Ht, (there_same _ _ key S1)].
      intros n key Hk Hin. apply take_filter; [done|]. by apply (there_same _ _ key S1).
    - exists s1, ks. split; [done|]. split; [done|]. split; [by split|]. split; [done|]. intros _ Ht. split; [|done]. intros key Hk. by apply Ht, (there_same _ _ key S1). }
  rewrite (prog_bind_Ok _ _ _ _ _ E2). unfold evictLocked. unfold mbind at 1, prog_bind at 1, get_capacity. rewrite (ma_capacity _ _ M2).
  destruct (Z.leb_spec (cm_capacity s) 0) as [?|_]; [lia|]. rewrite (prog_bind_Ok _ _ _ _ _ (len_lru _ _ H2)).
  destruct (kept_bound _ Hc) as [Hk0 Hkb]. set (kept := Z.to_nat (kept_entries (cm_capacity s))). replace (kept_entries (cm_capacity s)) with (Z.of_nat kept) by (unfold kept; lia).
  destruct (evict_down_spec kept ks2 (S (Z.to_nat (len ks2))) s2 H2) as (s3 & E3 & H3 & M3 & G3 & Q3); [unfold len; lia|]. rewrite E3.
  exists s3, (take kept ks2). split; [done|]. split; [done|]. split; [by eapply manages_trans|]. split; [eapply grows_trans; [by apply same_entries_grows|done]|].
  assert (forall key, entryPath key (cm_fs s2) = entryPath key (cm_fs s)) as Ek by (intros key; apply entryPath_same; apply S2).
  split.
  { intros _. unfold len. rewrite length_take. unfold kept, entryCost in *. nia. }
  intros _ Hq Ht. destruct (T2 Hq Ht) as [Ht2 Hin]. pose proof (Q3 (se_quiet _ _ S2 Hq)) as Q. split.
  - intros key Hk. assert (there (cm_fs s2) key) as Hk2.
    { destruct Hk as [o Ho]. rewrite (entryPath_same key (cm_fs s2) (cm_fs s3)) in Ho by apply G3. destruct (gr_files _ _ _ G3 key o Ho) as [?|[]]. by exists o. }
    apply Ht2 in Hk2 as Hks. rewrite <- (take_drop kept ks2), elem_of_app in Hks. destruct Hks as [?|Hd]; [done|]. exfalso.
    rewrite (entryPath_same key (cm_fs s2) (cm_fs s3)), Q, bool_decide_eq_true_2 in Hk by (done || apply G3). by destruct Hk.
  - intros key Hk. rewrite <- (Ek key), Q. destruct (decide (there (cm_fs s) key)) as [Hth|Hno].
    + rewrite bool_decide_eq_false_2; [by rewrite Ek, (se_files _ _ S2)|]. pose proof (Hin kept key Hth Hk) as Hk2. intros Hd.
      pose proof (lru_has_NoDup _ _ H2) as Hnd. rewrite <- (take_drop kept ks2) in Hnd. apply NoDup_app in Hnd as (_ & Hdis & _). by eapply Hdis.
    + rewrite Ek, (se_files _ _ S2). unfold there in Hno. destruct (fs_files (cm_fs s) !! entryPath key (cm_fs s)); [destruct Hno; by eexists|]. by case_bool_decide.
Qed.
End manager.
