(* ===== verification/UploadCacheRun.v ===== *)
(** * Runs of the cache of chunk locations

    Sequences of calls on one manager.  Whatever calls of the file system fail,
    a lookup returns only locations that were stored for the endpoint
    ([lookups_faithful]).  When none fails, the directory stays within its
    capacity ([cache_bounded]) and what [Store] wrote is found
    ([store_lookup]). *)

From Stdlib Require Import ZArith Lia Strings.Byte Strings.String.
From stdpp Require Import gmap.
From S2P Require Import Prelude Prog Hash Sha256 Shard Storage FileSystem Lru UploadCache UploadCacheProofs.

(** ** Locations *)

(** The location an entry holds. *)
Definition location_at (key : entryKey) (s : fsys) : option ChunkLocation :=
  o ← fs_files s !! entryPath key s;
  if len (o_data o) =? entrySize then Some (decode_entry (o_data o)) else None.

Definition index_ok (loc : ChunkLocation) : Prop := 0 <= cl_ChunkIndex loc < 2 ^ 32.

Lemma length_entry loc : len (encode_entry loc) = entrySize.
Proof. unfold len, encode_entry. by rewrite length_app, length_vec_to_list, length_put_u32. Qed.

Lemma decode_encode_entry loc : index_ok loc -> decode_entry (encode_entry loc) = loc.
Proof.
  intros Hi. unfold decode_entry, encode_entry. assert (length (vec_to_list (cl_XorbHash loc)) = 32%nat) as Hl by apply length_vec_to_list.
  rewrite take_app_le, take_ge, drop_app_ge by lia. rewrite Hl. change (32 - 32)%nat with 0%nat. rewrite drop_0, to_arr_vec.
  unfold put_u32. rewrite le_val_bytes. change (8 * Z.of_nat 4) with 32. rewrite Z.mod_small by done. by destruct loc.
Qed.

Lemma entry_location key s o loc : fs_files s !! entryPath key s = Some o -> o_data o = encode_entry loc -> index_ok loc -> location_at key s = Some loc.
Proof. intros Ho Hd Hi. unfold location_at. rewrite Ho. cbn. rewrite Hd, length_entry, Z.eqb_refl. by rewrite decode_encode_entry. Qed.

Lemma location_same key s s' : same_entries s s' -> location_at key s' = location_at key s.
Proof. intros S. unfold location_at. by rewrite (entryPath_same key s s'), (se_files _ _ S) by apply S. Qed.

Lemma location_grows key s s' loc : grows no_new s s' -> location_at key s' = Some loc -> location_at key s = Some loc.
Proof.
  intros G. unfold location_at. rewrite (entryPath_same key s s') by apply G. destruct (fs_files s' !! entryPath key s) as [o|] eqn:E; [|done].
  apply (gr_files _ _ _ G) in E as [-> |[]]. done.
Qed.

(** ** Reading *)

Definition ctx_alive (s : fsys) : Prop := forall n, fe_ctx (fs_env s) n = None.

Definition same_env (s s' : fsys) : Prop := fs_env s' = fs_env s.

#[export] Instance same_env_relation : fs_relation same_env.
Proof. split; [done|]. unfold same_env. congruence. Qed.

Lemma ReadFile_quiet p s : quiet s -> (os_ReadFile p s).1 = match fs_files s !! p with Some o => Ok (o_data o) | None => Err ErrNotExist end.
Proof.
  intros Hq. unfold os_ReadFile, os_call. cbn zeta. rewrite Hq. unfold mbind, prog_bind, lookup_file. cbn [fs_files]. by destruct (fs_files s !! p).
Qed.

Lemma ReadFile_data p s entry s' : os_ReadFile p s = (Ok entry, s') -> exists o, fs_files s !! p = Some o /\ o_data o = entry.
Proof.
  unfold os_ReadFile. destruct (os_call_cases (o ← lookup_file p; mret (o_data o)) s) as (s1 & F & _ & _ & _ & _ & [-> | ->]); [done|].
  unfold mbind, prog_bind, lookup_file. rewrite F. destruct (fs_files s !! p) as [o|]; [|done]. intros [= <- _]. by exists o.
Qed.

(** A read gives the location of the entry, and removes an entry only if it has
    none. *)
Lemma read_entry_spec key s : exists r s', read_entry key s = (Ok r, s') /\ grows no_new s s' /\ same_env s s' /\
  (forall loc, r = Some loc -> location_at key s = Some loc) /\ (quiet s -> r = location_at key s) /\
  (forall k loc, location_at k s = Some loc -> location_at k s' = Some loc).
Proof.
  destruct (answers_read_entry key s) as (r & s' & E). exists r, s'. split; [done|].
  pose proof (grows_read_entry no_new key s) as G. rewrite E in G. split; [done|]. unfold read_entry, with_entry, catch in E.
  pose proof (obeys_ReadFile same_entries (entryPath key s) s) as S1. pose proof (obeys_ReadFile same_env (entryPath key s) s) as V1.
  pose proof (ReadFile_quiet (entryPath key s) s) as Hq. pose proof (ReadFile_data (entryPath key s) s) as Hd.
  destruct (os_ReadFile (entryPath key s) s) as [[entry|e] s1]; cbn [fst snd] in *.
  - destruct (Hd entry s1 eq_refl) as (o & Ho & <-). unfold location_at at 1 2. rewrite Ho. cbn [mbind option_bind].
    destruct (len (o_data o) =? entrySize) eqn:El; cbn [negb] in E.
    + injection E as <- <-. split; [done|]. split; [congruence|]. split; [done|]. intros k loc Hk. by rewrite (location_same _ _ _ S1).
    + destruct (answers_unlink (entryPath key s) s1) as ([] & s2 & Eu). rewrite (prog_bind_Ok _ _ _ _ _ Eu) in E. injection E as <- <-.
      pose proof (obeys_unlink same_env (entryPath key s) (fun _ => eq_refl) s1) as V2. pose proof (obeys_unlink (only (fun p => p = entryPath key s)) (entryPath key s) (only_drop _ _ eq_refl) s1) as O2.
      rewrite Eu in V2, O2. cbn [snd] in *. split; [by eapply fr_trans|]. split; [done|]. split; [done|]. intros k loc Hk. rewrite <- (location_same k s s1 S1) in Hk. revert Hk. unfold location_at.
      assert (entryPath k s1 = entryPath k s) as Ek by (apply entryPath_same; apply S1). rewrite (entryPath_same k s1 s2), Ek by apply O2.
      destruct (decide (k = key)) as [-> |Hne]; [rewrite (se_files _ _ S1), Ho; cbn; by rewrite El|]. rewrite (on_files _ _ _ O2) by (intros H; by apply entryPath_inj in H). done.
  - injection E as <- <-. split; [done|]. split; [done|]. split; [|intros k loc Hk; by rewrite (location_same _ _ _ S1)].
    intros Hs. specialize (Hq Hs). unfold location_at. by destruct (fs_files s !! entryPath key s).
Qed.

Lemma ctx_done_spec s : exists b s', ctx_done s = (Ok b, s') /\ same_entries s s' /\ same_env s s' /\ (ctx_alive s -> b = false).
Proof.
  destruct (answers_ctx_done s) as (b & s' & E). exists b, s'. split; [done|]. pose proof (obeys_ctx_done same_entries s) as S. pose proof (obeys_ctx_done same_env s) as V. rewrite E in S, V.
  split; [done|]. split; [done|]. intros Ha. unfold ctx_done, catch, os_ctx in E. rewrite Ha in E. by injection E as <-.
Qed.

Lemma read_entries_spec tag hashes : forall seen results s, exists m s',
  read_entries tag hashes seen results s = (Ok m, s') /\ grows no_new s s' /\
  (forall h loc, m !! h = Some loc -> results !! h = Some loc \/ h ∈ hashes /\ location_at (MkEntryKey tag h) s = Some loc) /\
  (forall k loc, location_at k s = Some loc -> location_at k s' = Some loc) /\
  (quiet s -> ctx_alive s -> forall h loc, location_at (MkEntryKey tag h) s = Some loc -> h ∈ hashes /\ h ∉ seen \/ results !! h = Some loc -> m !! h = Some loc).
Proof.
  induction hashes as [|h hashes IH]; intros seen results s; cbn [read_entries].
  { exists results, s. split; [done|]. split; [by apply fr_files|]. split; [by left|]. split; [done|]. intros _ _ x loc _ [[Hx _]|?]; [by apply elem_of_nil in Hx|done]. }
  destruct (ctx_done_spec s) as (b & s1 & E1 & S1 & V1 & C1). rewrite (prog_bind_Ok _ _ _ _ _ E1). assert (grows no_new s s1) as G1 by (by apply same_entries_grows).
  assert (forall k, location_at k s1 = location_at k s) as L1 by (intros k; by apply location_same). assert (ctx_alive s -> ctx_alive s1) as A1 by (unfold ctx_alive; by rewrite V1).
  destruct b.
  { exists results, s1. split; [done|]. split; [done|]. split; [by left|]. split; [intros; by rewrite L1|]. intros _ Ha. by specialize (C1 Ha). }
  case_bool_decide as Hs.
  - destruct (IH seen results s1) as (m & s' & E & G & H1 & H2 & H3). exists m, s'. split; [done|]. split; [by eapply grows_trans|]. split.
    { intros x loc Hx. destruct (H1 x loc Hx) as [?|[? Hl]]; [by left|right]. rewrite L1 in Hl. split; [by constructor|done]. }
    split; [intros k loc Hk; apply H2; by rewrite L1|]. intros Hq Ha x loc Hx Hor. apply H3; [by apply G1|by apply A1|by rewrite L1|].
    destruct Hor as [[[-> |Hin]%elem_of_cons Hns]|?]; [done|by left|by right].
  - destruct (read_entry_spec (MkEntryKey tag h) s1) as (r & s2 & E2 & G2 & V2 & R1 & R2 & R3). rewrite (prog_bind_Ok _ _ _ _ _ E2).
    destruct (IH ({[h]} ∪ seen) (match r with Some loc => <[h := loc]> results | None => results end) s2) as (m & s' & E & G & H1 & H2 & H3). exists m, s'. split; [done|].
    split; [eapply grows_trans; [exact G1|]; by eapply grows_trans|]. split.
    { intros x loc Hx. destruct (H1 x loc Hx) as [Hr|[? Hl]].
      - destruct r as [loc0|]; [|by left]. apply lookup_insert_Some in Hr as [[<- <-]|[_ ?]]; [|by left]. right. split; [constructor|]. rewrite <- L1. by apply R1.
      - right. split; [by constructor|]. rewrite <- L1. by eapply location_grows. }
    split; [intros k loc Hk; apply H2, R3; by rewrite L1|]. intros Hq Ha x loc Hx Hor. assert (quiet s1) as Hq1 by (by apply G1).
    apply H3; [by apply G2|unfold ctx_alive; rewrite V2; by apply A1|apply R3; by rewrite L1|]. rewrite (R2 Hq1), L1. destruct (decide (x = h)) as [-> |Hne].
    + right. rewrite Hx. apply lookup_insert_eq.
    + destruct Hor as [[[-> |Hin]%elem_of_cons Hns]|Hr]; [done|left; set_solver|right].
      destruct (location_at (MkEntryKey tag h) s); [by rewrite lookup_insert_ne|done].
Qed.

(** ** Writing *)

(** The keys of a sequence of locations. *)
Definition keys_of (tag : vec byte 8) (l : list (ChunkHash * ChunkLocation)) : list entryKey := map (fun hl => MkEntryKey tag hl.1) l.

Lemma elem_of_keys tag l key : key ∈ keys_of tag l <-> ek_tag key = tag /\ ek_hash key ∈ l.*1.
Proof.
  unfold keys_of. rewrite !list_elem_of_fmap. split.
  - intros (hl & -> & Hin). split; [done|]. by exists hl.
  - intros [<- (hl & E & Hin)]. exists hl. split; [|done]. destruct key. cbn in *. by rewrite E.
Qed.

Lemma keys_NoDup tag l : NoDup l.*1 -> NoDup (keys_of tag l).
Proof.
  unfold keys_of. induction l as [|hl l IH]; intros Hnd; [constructor|]. cbn in *. apply NoDup_cons in Hnd as [Hh Hnd]. constructor; [|by apply IH].
  intros Hin. apply elem_of_keys in Hin as [_ ?]. done.
Qed.

Definition from_list (tag : vec byte 8) (l : list (ChunkHash * ChunkLocation)) (k : entryKey) (d : list byte) : Prop :=
  exists h loc, (h, loc) ∈ l /\ k = MkEntryKey tag h /\ d = encode_entry loc.

Lemma store_entries_spec tag l : forall stored err s, NoDup l.*1 ->
  exists written err' fs', store_entries tag l stored err s = (Ok (stored ++ written, err'), MkManager (cm_capacity s) (cm_lru s) (cm_lastReconcile s) fs') /\
    grows (from_list tag l) (cm_fs s) fs' /\ written ⊆ keys_of tag l /\ NoDup written /\ (length written <= length l)%nat /\
    (forall key, there fs' key -> there (cm_fs s) key \/ key ∈ written) /\
    (forall key, key ∉ keys_of tag l -> fs_files fs' !! entryPath key (cm_fs s) = fs_files (cm_fs s) !! entryPath key (cm_fs s)) /\
    (err' = None -> err = None /\ written = keys_of tag l /\
       forall h loc, (h, loc) ∈ l -> exists o, fs_files fs' !! entryPath (MkEntryKey tag h) (cm_fs s) = Some o /\ o_data o = encode_entry loc).
Proof.
  induction l as [|[h loc] l IH]; intros stored err s Hnd; cbn [store_entries].
  { exists [], err, (cm_fs s). rewrite app_nil_r. split; [by destruct s|]. split; [by apply fr_files|]. split; [done|]. split; [constructor|]. split; [done|]. split; [by left|].
    split; [done|]. intros ->. split; [done|]. split; [done|]. intros ? ? Hin. by apply elem_of_nil in Hin. }
  cbn [fmap list_fmap fst] in Hnd. apply NoDup_cons in Hnd as [Hh Hnd]. set (key := MkEntryKey tag h). pose proof (write_entry_spec key (encode_entry loc) (cm_fs s)) as Hw.
  assert (key ∉ keys_of tag l) as Hk by (rewrite elem_of_keys; naive_solver). unfold catch at 1, on_disk at 1.
  destruct (with_entry key _ (cm_fs s)) as [[[]|e] fs1].
  - set (s1 := MkManager _ _ _ fs1). destruct (IH (stored ++ [key]) err s1 Hnd) as (written & err' & fs' & E & G & Hsub & Hndw & Hlen & Ht & Ho & He). rewrite <- app_assoc in E.
    exists (key :: written), err', fs'. assert (forall k, entryPath k fs1 = entryPath k (cm_fs s)) as Ek by (intros k; apply entryPath_same; apply Hw).
    cbn [cm_fs s1] in *. split; [done|]. split.
    { eapply grows_trans; [eapply grows_impl; [|exact (writes_grows _ _ _ _ Hw)]|eapply grows_impl; [|exact G]].
      - intros k d [-> ->]. exists h, loc. split; [constructor|done].
      - intros k d (h' & loc' & Hin & ? & ?). exists h', loc'. split; [by constructor|done]. }
    split; [change (keys_of tag ((h, loc) :: l)) with (key :: keys_of tag l); set_solver|].
    split; [constructor; [intros Hin; by apply Hsub in Hin|done]|]. split; [cbn [length]; lia|]. split.
    { intros k Hkt. destruct (Ht k Hkt) as [Hk1|]; [|right; by constructor]. destruct (decide (k = key)) as [-> |Hne]; [right; constructor|]. left.
      unfold there in Hk1. rewrite Ek, (wr_others _ _ _ _ Hw) in Hk1 by done. done. }
    split.
    { intros k Hnk. change (keys_of tag ((h, loc) :: l)) with (key :: keys_of tag l) in Hnk. apply not_elem_of_cons in Hnk as [Hne Hnk]. rewrite <- (wr_others _ _ _ _ Hw k Hne), <- (Ek k). by apply Ho. }
    intros He'. destruct (He He') as (-> & -> & Hall). split; [done|]. split; [done|]. intros h' loc' [[= -> ->]|Hin]%elem_of_cons.
    + fold key. rewrite <- (Ek key), Ho by done. rewrite Ek. apply Hw.
    + rewrite <- Ek. by apply Hall.
  - set (s1 := MkManager _ _ _ fs1). destruct (IH stored (match err with Some _ => err | None => Some e end) s1 Hnd) as (written & err' & fs' & E & G & Hsub & Hndw & Hlen & Ht & Ho & He).
    exists written, err', fs'. assert (forall k, entryPath k fs1 = entryPath k (cm_fs s)) as Ek by (intros k; apply entryPath_same; apply Hw).
    cbn [cm_fs s1] in *. split; [done|]. split.
    { eapply grows_trans; [by apply same_entries_grows|eapply grows_impl; [|exact G]]. intros k d (h' & loc' & Hin & ? & ?). exists h', loc'. split; [by constructor|done]. }
    split; [change (keys_of tag ((h, loc) :: l)) with (key :: keys_of tag l); set_solver|]. split; [done|]. split; [cbn [length]; lia|]. split.
    { intros k Hkt. destruct (Ht k Hkt) as [Hk1|]; [|by right]. left. by apply (there_same _ _ k Hw). }
    split.
    { intros k Hnk. change (keys_of tag ((h, loc) :: l)) with (key :: keys_of tag l) in Hnk. apply not_elem_of_cons in Hnk as [Hne Hnk]. rewrite <- (se_files _ _ Hw k), <- (Ek k). by apply Ho. }
    intros He'. destruct (He He') as (Hn & _). by destruct err.
Qed.

(** ** Calls *)

Section calls.
Context (range_map : gmap ChunkHash ChunkLocation -> list (ChunkHash * ChunkLocation)).
Context (sort_func : list diskEntry -> list diskEntry).
Context (range_perm : forall m, range_map m ≡ₚ map_to_list m) (sort_perm : forall l, sort_func l ≡ₚ l).

Lemma range_elem m h loc : (h, loc) ∈ range_map m <-> m !! h = Some loc.
Proof. rewrite range_perm. apply elem_of_map_to_list. Qed.

Lemma range_NoDup m : NoDup (range_map m).*1.
Proof. rewrite range_perm. apply NoDup_fst_map_to_list. Qed.

(** What a [Store] may write. *)
Definition given (endpoint : gostring) (locations : gmap ChunkHash ChunkLocation) (key : entryKey) (d : list byte) : Prop :=
  exists h loc, locations !! h = Some loc /\ key = MkEntryKey (endpointTag endpoint) h /\ d = encode_entry loc.

Lemma no_new_grows new s s' : grows no_new s s' -> grows new s s'.
Proof. by apply grows_impl. Qed.

Lemma Store_spec endpoint locations s ks : lru_has (cm_lru s) ks ->
  exists r s' ks', Store range_map sort_func endpoint locations s = (r, s') /\ lru_has (cm_lru s') ks' /\ manages s s' /\ grows (given endpoint locations) (cm_fs s) (cm_fs s') /\
    (0 < cm_capacity s -> len ks' * entryCost <= cm_capacity s) /\
    (0 < cm_capacity s -> quiet (cm_fs s) -> tracked (cm_fs s) ks -> tracked (cm_fs s') ks') /\
    (r = Ok tt -> quiet (cm_fs s) -> cm_capacity s <= 0 \/ tracked (cm_fs s) ks /\ Z.of_nat (size locations) <= kept_entries (cm_capacity s) ->
       forall h loc, locations !! h = Some loc -> index_ok loc -> location_at (MkEntryKey (endpointTag endpoint) h) (cm_fs s') = Some loc).
Proof.
  intros H. unfold Store. set (tag := endpointTag endpoint).
  destruct (store_entries_spec tag (range_map locations) [] None s (range_NoDup locations)) as (written & err & fs1 & E & G & _ & Hnd & Hlen & Ht & _ & He).
  rewrite (prog_bind_Ok _ _ _ _ _ E). cbn [app]. unfold mbind at 1, prog_bind at 1, get_capacity. set (s1 := MkManager (cm_capacity s) (cm_lru s) (cm_lastReconcile s) fs1). change (cm_capacity s1) with (cm_capacity s).
  assert (grows (given endpoint locations) (cm_fs s) fs1) as G1.
  { eapply grows_impl; [|exact G]. intros k d (h & loc & Hin & ? & ?). exists h, loc. split; [by apply range_elem|done]. }
  assert (forall k, entryPath k fs1 = entryPath k (cm_fs s)) as Ek by (intros k; apply entryPath_same; apply G).
  destruct (Z.ltb_spec 0 (cm_capacity s)) as [Hc|Hc].
  - destruct (add_all_lru written ks s1 H) as (c & Ea & Ha). set (s2 := set_lru c s1).
    destruct (evaluate_spec sort_func sort_perm s2 _ Ha) as (s3 & ks3 & Ev & H3 & M3 & G3 & B3 & T3).
    assert ((_ ← add_all written; evaluateLocked sort_func) s1 = (Ok tt, s3)) as E3 by (rewrite (prog_bind_Ok _ _ _ _ _ Ea); exact Ev).
    rewrite (prog_bind_Ok _ _ _ _ _ E3). exists (match err with Some e => Err e | None => Ok tt end), s3, ks3. split; [by destruct err|]. split; [done|]. split; [eapply manages_trans; [|exact M3]; by split|].
    split; [eapply grows_trans; [exact G1|by apply no_new_grows]|]. split; [exact B3|].
    assert (tracked (cm_fs s) ks -> tracked fs1 (foldl push ks written)) as Htr.
    { intros Hk key Hth. apply elem_of_pushes. destruct (Ht key Hth) as [?|?]; [right; by apply Hk|by left]. }
    split; [intros _ Hq Hk; by apply (T3 Hc (gr_quiet _ _ _ G1 Hq) (Htr Hk))|].
    intros Hr Hq [?|[Hk Hsz]] h loc Hl Hi; [lia|]. destruct err; [done|]. destruct (He eq_refl) as (_ & Ew & Hall).
    destruct (Hall h loc ltac:(by apply range_elem)) as (o & Ho & Hd). destruct (T3 Hc (gr_quiet _ _ _ G1 Hq) (Htr Hk)) as [_ Hkeep].
    assert (fs_files (cm_fs s3) !! entryPath (MkEntryKey tag h) fs1 = Some o) as Ho3.
    { rewrite Hkeep; [by rewrite Ek|]. cbn [s2 s1 set_lru cm_capacity cm_fs]. rewrite pushes by done.
      assert (length (reverse written) <= Z.to_nat (kept_entries (cm_capacity s)))%nat as Hle.
      { rewrite length_reverse. rewrite (Permutation_length (range_perm locations)), length_map_to_list in Hlen. lia. }
      rewrite take_app_ge by done. apply elem_of_app. left. rewrite elem_of_reverse, Ew. apply elem_of_keys. split; [done|]. cbn. apply list_elem_of_fmap. exists (h, loc). split; [done|]. by apply range_elem. }
    rewrite <- (entryPath_same (MkEntryKey tag h) fs1 (cm_fs s3)) in Ho3 by apply G3. by eapply entry_location.
  - exists (match err with Some e => Err e | None => Ok tt end), s1, ks. split; [by destruct err|]. split; [done|]. split; [by split|]. split; [done|]. split; [lia|]. split; [lia|].
    intros Hr Hq _ h loc Hl Hi. destruct err; [done|]. destruct (He eq_refl) as (_ & _ & Hall). destruct (Hall h loc ltac:(by apply range_elem)) as (o & Ho & Hd).
    rewrite <- Ek in Ho. by eapply entry_location.
Qed.

Lemma location_there key s loc : location_at key s = Some loc -> there s key.
Proof. unfold location_at, there. by destruct (fs_files s !! entryPath key s). Qed.

Lemma Lookup_spec endpoint hashes s ks : lru_has (cm_lru s) ks ->
  let tag := endpointTag endpoint in
  exists m s' ks', Lookup range_map endpoint hashes s = (Ok m, s') /\ lru_has (cm_lru s') ks' /\ manages s s' /\ grows no_new (cm_fs s) (cm_fs s') /\
    (forall h loc, m !! h = Some loc -> h ∈ hashes /\ location_at (MkEntryKey tag h) (cm_fs s) = Some loc) /\
    (quiet (cm_fs s) -> ctx_alive (cm_fs s) -> forall h loc, h ∈ hashes -> location_at (MkEntryKey tag h) (cm_fs s) = Some loc -> m !! h = Some loc) /\
    (tracked (cm_fs s) ks -> tracked (cm_fs s') ks' /\ len ks' <= len ks).
Proof.
  intros H tag. unfold Lookup. destruct (Z.eqb_spec (len hashes) 0) as [Hl|Hl].
  { apply len_0_nil in Hl as ->. exists ∅, s, ks. split; [done|]. split; [done|]. split; [by split|]. split; [by apply fr_files|]. split; [by intros h loc; rewrite lookup_empty|].
    split; [intros _ _ h loc Hin; by apply elem_of_nil in Hin|]. intros. split; [done|lia]. }
  destruct (ctx_done_spec (cm_fs s)) as (b & fs1 & E1 & S1 & V1 & C1). rewrite (prog_bind_Ok _ _ _ _ _ (on_disk_Ok _ _ _ _ E1)).
  set (s1 := MkManager (cm_capacity s) (cm_lru s) (cm_lastReconcile s) fs1). assert (forall k, location_at k fs1 = location_at k (cm_fs s)) as L1 by (intros k; by apply location_same).
  assert (forall k, there fs1 k -> there (cm_fs s) k) as Th1 by (intros k Hk; by apply (there_same _ _ k S1)). destruct b.
  { exists ∅, s1, ks. split; [done|]. split; [done|]. split; [by split|]. split; [by apply same_entries_grows|]. split; [by intros h loc; rewrite lookup_empty|].
    split; [intros _ Ha; by specialize (C1 Ha)|]. intros Ht. split; [intros k Hk; by apply Ht, Th1|lia]. }
  destruct (read_entries_spec tag hashes ∅ ∅ fs1) as (m & fs2 & E2 & G2 & R1 & _ & R3). rewrite (prog_bind_Ok _ _ _ _ _ (on_disk_Ok _ s1 _ _ E2)).
  set (s2 := MkManager (cm_capacity s) (cm_lru s) (cm_lastReconcile s) fs2). unfold mbind at 1, prog_bind at 1, get_capacity. cbn [cm_capacity s1].
  assert (forall h loc, m !! h = Some loc -> h ∈ hashes /\ location_at (MkEntryKey tag h) (cm_fs s) = Some loc) as Hm.
  { intros h loc Hh. destruct (R1 h loc Hh) as [He|[? Hloc]]; [by rewrite lookup_empty in He|]. by rewrite L1 in Hloc. }
  assert (quiet (cm_fs s) -> ctx_alive (cm_fs s) -> forall h loc, h ∈ hashes -> location_at (MkEntryKey tag h) (cm_fs s) = Some loc -> m !! h = Some loc) as Hfind.
  { intros Hq Ha h loc Hin Hloc. apply R3; [by apply S1|unfold ctx_alive; by rewrite V1|by rewrite L1|]. left. set_solver. }
  assert (grows no_new (cm_fs s) fs2) as G by (eapply grows_trans; [by apply same_entries_grows|exact G2]).
  assert (tracked (cm_fs s) ks -> tracked fs2 ks) as Htr.
  { intros Ht k [o Ho]. rewrite (entryPath_same k (cm_fs s) fs2) in Ho by apply G. apply (gr_files _ _ _ G) in Ho as [Ho|[]]. apply Ht. by exists o. }
  destruct (0 <? cm_capacity s).
  - destruct (add_all_lru (map (fun hl => MkEntryKey tag hl.1) (range_map m)) ks s2 H) as (c & Ea & Ha). rewrite (prog_bind_Ok _ _ _ _ _ Ea). eexists m, _, _. split; [done|]. split; [exact Ha|].
    split; [by split|]. split; [exact G|]. split; [done|]. split; [done|]. intros Ht. specialize (Htr Ht). split.
    + intros k Hk. apply elem_of_pushes. right. by apply Htr.
    + unfold len. apply inj_le, submseteq_length, NoDup_submseteq; [by eapply lru_has_NoDup|]. intros k Hk. apply elem_of_pushes in Hk as [Hk|?]; [|done].
      apply list_elem_of_fmap in Hk as ([h loc] & -> & Hin). apply range_elem, Hm in Hin as [_ Hloc]. apply Ht. by eapply location_there.
  - exists m, s2, ks. split; [done|]. split; [done|]. split; [by split|]. split; [done|]. split; [done|]. split; [done|]. intros Ht. split; [by apply Htr|lia].
Qed.

Lemma prepare_spec s ks : lru_has (cm_lru s) ks ->
  exists s' ks', prepare sort_func s = (Ok tt, s') /\ lru_has (cm_lru s') ks' /\ manages s s' /\ grows no_new (cm_fs s) (cm_fs s') /\ is_Some (cm_lastReconcile s') /\
    (0 < cm_capacity s -> len ks' * entryCost <= cm_capacity s) /\
    (0 < cm_capacity s -> quiet (cm_fs s) -> (is_Some (cm_lastReconcile s) -> tracked (cm_fs s) ks) -> tracked (cm_fs s') ks').
Proof.
  intros H. unfold prepare. unfold mbind at 1, prog_bind at 1, get_lastReconcile.
  assert (exists s1 ks1, (match cm_lastReconcile s with None => reconcileLocked sort_func | Some _ => mret tt end) s = (Ok tt, s1) /\ lru_has (cm_lru s1) ks1 /\ manages s s1 /\
    is_Some (cm_lastReconcile s1) /\ grows no_new (cm_fs s) (cm_fs s1) /\
    (0 < cm_capacity s -> quiet (cm_fs s) -> (is_Some (cm_lastReconcile s) -> tracked (cm_fs s) ks) -> tracked (cm_fs s1) ks1)) as (s1 & ks1 & E1 & H1 & M1 & L1 & G1 & T1).
  { destruct (cm_lastReconcile s) as [t|] eqn:El.
    - exists s, ks. split; [done|]. split; [done|]. split; [by split|]. split; [by rewrite El|]. split; [by apply fr_files|]. intros _ _ Ht. by apply Ht.
    - destruct (reconcile_spec sort_func sort_perm s ks H) as (s1 & ks1 & E1 & H1 & M1 & L1 & S1 & T1). exists s1, ks1. split; [done|]. split; [done|]. split; [done|]. split; [done|].
      split; [by apply same_entries_grows|]. intros Hc Hq _. by apply T1. }
  rewrite (prog_bind_Ok _ _ _ _ _ E1). destruct (evaluate_spec sort_func sort_perm s1 ks1 H1) as (s2 & ks2 & E2 & H2 & M2 & G2 & B2 & T2). rewrite (ma_capacity _ _ M1) in *.
  exists s2, ks2. split; [done|]. split; [done|]. split; [by eapply manages_trans|]. split; [by eapply grows_trans|]. split; [by apply M2|]. split; [done|].
  intros Hc Hq Ht. apply (T2 Hc); [by apply G1|by apply T1].
Qed.
(** ** Sequences of calls *)

Inductive cache_call : Type :=
  | StoreCall (endpoint : gostring) (locations : gmap ChunkHash ChunkLocation)
  | LookupCall (endpoint : gostring) (hashes : list ChunkHash)
  | PrepareCall
  | CreateCall.

Definition make_call (c : cache_call) : prog CacheManager unit :=
  match c with
  | StoreCall endpoint locations => Store range_map sort_func endpoint locations
  | LookupCall endpoint hashes => _ ← Lookup range_map endpoint hashes; mret tt
  | PrepareCall => prepare sort_func
  | CreateCall => _ ← create; mret tt
  end.

(** The manager after calls, whether they fail or not. *)
Definition after (calls : list cache_call) (s : CacheManager) : CacheManager := foldl (fun s c => (make_call c s).2) s calls.

Definition call_gives (c : cache_call) (key : entryKey) (d : list byte) : Prop :=
  match c with StoreCall endpoint locations => given endpoint locations key d | _ => False end.

(** One call, whichever calls of the file system fail, and when none does. *)
Lemma call_spec c s ks : lru_has (cm_lru s) ks ->
  exists ks', let s' := (make_call c s).2 in lru_has (cm_lru s') ks' /\ manages s s' /\ grows (call_gives c) (cm_fs s) (cm_fs s') /\
    (0 < cm_capacity s -> quiet (cm_fs s) -> tracked (cm_fs s) ks -> len ks * entryCost <= cm_capacity s ->
       tracked (cm_fs s') ks' /\ len ks' * entryCost <= cm_capacity s).
Proof.
  intros H. destruct c as [endpoint locations|endpoint hashes| |]; cbn [make_call].
  - destruct (Store_spec endpoint locations s ks H) as (r & s' & ks' & -> & H' & M & G & B & T & _). exists ks'. cbn. split; [done|]. split; [done|]. split; [exact G|].
    intros Hc Hq Ht _. split; [by apply T|by apply B].
  - destruct (Lookup_spec endpoint hashes s ks H) as (m & s' & ks' & E & H' & M & G & _ & _ & T). rewrite (prog_bind_Ok _ _ _ _ _ E). exists ks'. cbn. split; [done|]. split; [done|].
    split; [by apply no_new_grows|]. intros _ _ Ht Hb. destruct (T Ht) as [? ?]. split; [done|]. unfold entryCost in *. lia.
  - destruct (prepare_spec s ks H) as (s' & ks' & -> & H' & M & G & _ & B & T). exists ks'. cbn. split; [done|]. split; [done|]. split; [by apply no_new_grows|].
    intros Hc Hq Ht _. split; [by apply T|by apply B].
  - destruct (create_spec s) as (S & El & Ec & Er). assert ((mbind (fun _ => mret tt) create s : result unit * CacheManager).2 = (create s).2) as -> by (unfold mbind, prog_bind; by destruct (create s) as [[?|?] ?]).
    exists ks. cbn zeta. rewrite El. split; [done|]. split; [split; [done|by rewrite Er]|]. split; [by apply same_entries_grows|]. intros _ _ Ht Hb. split; [|done].
    intros k Hk. apply Ht. by apply (there_same _ _ k S).
Qed.

Lemma after_grows calls : forall s ks, lru_has (cm_lru s) ks ->
  exists ks', lru_has (cm_lru (after calls s)) ks' /\ manages s (after calls s) /\ grows (fun k d => exists c, c ∈ calls /\ call_gives c k d) (cm_fs s) (cm_fs (after calls s)).
Proof.
  induction calls as [|c calls IH]; intros s ks H; [exists ks; split; [done|]; split; [by split|by apply fr_files]|]. cbn [after foldl].
  destruct (call_spec c s ks H) as (ks1 & H1 & M1 & G1 & _). destruct (IH _ ks1 H1) as (ks' & H' & M & G). exists ks'. split; [done|]. split; [by eapply manages_trans|].
  eapply grows_trans; [eapply grows_impl; [|exact G1]|eapply grows_impl; [|exact G]].
  - intros k d Hk. exists c. split; [constructor|done].
  - intros k d (c' & Hin & Hk). exists c'. split; [by constructor|done].
Qed.

Lemma after_bounded calls : forall s ks, lru_has (cm_lru s) ks -> quiet (cm_fs s) -> 0 < cm_capacity s -> tracked (cm_fs s) ks -> len ks * entryCost <= cm_capacity s ->
  exists ks', lru_has (cm_lru (after calls s)) ks' /\ tracked (cm_fs (after calls s)) ks' /\ len ks' * entryCost <= cm_capacity s.
Proof.
  induction calls as [|c calls IH]; intros s ks H Hq Hc Ht Hb; [by exists ks|]. cbn [after foldl].
  destruct (call_spec c s ks H) as (ks1 & H1 & M1 & G1 & B1). destruct (B1 Hc Hq Ht Hb) as [Ht1 Hb1]. rewrite <- (ma_capacity _ _ M1) in Hb1, Hc.
  destruct (IH _ ks1 H1 (gr_quiet _ _ _ G1 Hq) Hc Ht1 Hb1) as (ks' & H' & Ht' & Hb'). rewrite (ma_capacity _ _ M1) in Hb'. by exists ks'.
Qed.

(** A manager that was prepared tracks what is on disk. *)
Lemma prepared_tracks capacity fs calls : quiet fs -> 0 < capacity ->
  exists ks, let s := after (PrepareCall :: calls) (NewCacheManager capacity fs) in lru_has (cm_lru s) ks /\ tracked (cm_fs s) ks /\ len ks * entryCost <= capacity.
Proof.
  intros Hq Hc. set (s0 := NewCacheManager capacity fs). destruct (prepare_spec s0 [] lru_has_New) as (s1 & ks1 & E & H1 & M1 & G1 & _ & B1 & T1).
  cbn [after foldl make_call]. rewrite E. cbn [snd]. change capacity with (cm_capacity s0). rewrite <- (ma_capacity _ _ M1) in *.
  apply (after_bounded calls s1 ks1); [done|by apply (gr_quiet _ _ _ G1)|by rewrite (ma_capacity _ _ M1)| |].
  - apply T1; [by rewrite (ma_capacity _ _ M1)|done|]. by intros [? [=]].
  - apply B1. by rewrite (ma_capacity _ _ M1).
Qed.

(** C17: cached locations are true.  After any calls on a manager, whichever
    calls of the file system fail, a lookup returns, and each location in its
    answer is for a hash that was asked for and was stored for an endpoint with
    the same tag, or was in the directory before: a failed or interrupted write
    and an eviction leave no entry that no one stored. *)
Theorem lookups_faithful capacity fs calls endpoint hashes :
  (forall e l h loc, StoreCall e l ∈ calls -> l !! h = Some loc -> index_ok loc) ->
  exists m s', Lookup range_map endpoint hashes (after calls (NewCacheManager capacity fs)) = (Ok m, s') /\
    forall h loc, m !! h = Some loc -> h ∈ hashes /\
      ((exists e l, StoreCall e l ∈ calls /\ endpointTag e = endpointTag endpoint /\ l !! h = Some loc) \/
       location_at (MkEntryKey (endpointTag endpoint) h) fs = Some loc).
Proof.
  intros Hi. destruct (after_grows calls (NewCacheManager capacity fs) [] lru_has_New) as (ks & H & _ & G). cbn [NewCacheManager cm_fs] in G.
  destruct (Lookup_spec endpoint hashes _ ks H) as (m & s' & _ & E & _ & _ & _ & Hm & _). exists m, s'. split; [exact E|]. intros h loc Hh.
  destruct (Hm h loc Hh) as [Hin Hl]. split; [done|]. unfold location_at in Hl |- *. rewrite (entryPath_same _ fs) in Hl by apply G.
  destruct (fs_files (cm_fs (after calls _)) !! _) as [o|] eqn:Eo; [|done]. apply (gr_files _ _ _ G) in Eo as [-> |(c & Hc & Hg)]; [by right|]. left.
  destruct c as [e l| | |]; try done. destruct Hg as (h' & loc' & Hl' & Ek & Ed). injection Ek as Et Eh. subst h'. exists e, l. split; [done|]. split; [done|]. cbn [mbind option_bind] in Hl.
  rewrite Ed, length_entry, Z.eqb_refl, decode_encode_entry in Hl by (by eapply Hi). by injection Hl as <-.
Qed.

(** C19: the cache directory is bounded.  After a manager was prepared, and
    after any further stores, lookups and new staging files, when no call of
    the file system fails, the entries in the directory, those found there at
    the start included, cost at most the capacity. *)
Theorem cache_bounded capacity fs calls keys :
  quiet fs -> 0 < capacity ->
  NoDup keys -> (forall k, k ∈ keys -> there (cm_fs (after (PrepareCall :: calls) (NewCacheManager capacity fs))) k) ->
  len keys * entryCost <= capacity.
Proof.
  intros Hq Hc Hnd Hth. destruct (prepared_tracks capacity fs calls Hq Hc) as (ks & _ & Ht & Hb). etransitivity; [|exact Hb]. apply Z.mul_le_mono_nonneg_r; [done|].
  unfold len. apply inj_le, submseteq_length, NoDup_submseteq; [done|]. intros k Hk. by apply Ht, Hth.
Qed.

(** A manager that knows what is in its directory: it was prepared before its
    first other call, or there was nothing yet. *)
Definition knows_directory (fs : fsys) (calls : list cache_call) : Prop :=
  (exists calls', calls = PrepareCall :: calls') \/ forall key, ~ there fs key.

Lemma knowing_tracks capacity fs calls : quiet fs -> 0 < capacity -> knows_directory fs calls ->
  exists ks, let s := after calls (NewCacheManager capacity fs) in lru_has (cm_lru s) ks /\ tracked (cm_fs s) ks.
Proof.
  intros Hq Hc [[calls' ->]|Hn].
  - destruct (prepared_tracks capacity fs calls' Hq Hc) as (ks & H & Ht & _). by exists ks.
  - destruct (after_bounded calls (NewCacheManager capacity fs) []) as (ks & H & Ht & _); [apply lru_has_New|done|done| |change (len (@nil entryKey)) with 0; cbn [NewCacheManager cm_capacity]; lia|by exists ks].
    intros key Hk. by destruct (Hn key).
Qed.

(** C18: what is stored is found.  Take a manager that is the only one to write to
    its directory and knows what is in it: it was prepared first, as [UploadFiles]
    does, or the directory had no entries.  When no call of the file system
    fails, a lookup that follows a successful store for the same endpoint finds
    every location of it, if they are no more than eviction keeps or the cache is
    unbounded: the entries just stored are not the ones evicted.  (Of a manager
    that was not prepared this is not so: entries it finds on disk when it
    reconciles count as newer than those it just stored.) *)
Theorem store_lookup capacity fs calls endpoint locations s1 hashes :
  quiet fs -> knows_directory fs calls -> (forall h loc, locations !! h = Some loc -> index_ok loc) ->
  capacity <= 0 \/ Z.of_nat (size locations) <= kept_entries capacity ->
  Store range_map sort_func endpoint locations (after calls (NewCacheManager capacity fs)) = (Ok tt, s1) -> ctx_alive (cm_fs s1) ->
  exists m s2, Lookup range_map endpoint hashes s1 = (Ok m, s2) /\ forall h loc, h ∈ hashes -> locations !! h = Some loc -> m !! h = Some loc.
Proof.
  intros Hq Hkn Hi Hsz Es Ha. destruct (after_grows calls (NewCacheManager capacity fs) [] lru_has_New) as (ks0 & H0 & M & G).
  pose proof (knowing_tracks capacity fs calls Hq) as Hkt. cbv zeta in Hkt.
  set (s := after calls (NewCacheManager capacity fs)) in *. pose proof (gr_quiet _ _ _ G Hq) as Hqs. pose proof (ma_capacity _ _ M) as Hcap. cbn [NewCacheManager cm_capacity] in Hcap.
  assert (exists ks, lru_has (cm_lru s) ks /\ (capacity <= 0 \/ tracked (cm_fs s) ks /\ Z.of_nat (size locations) <= kept_entries capacity)) as (ks & H & Hor).
  { destruct (decide (0 < capacity)) as [Hc|Hc]; [|exists ks0; split; [done|left; lia]]. destruct (Hkt Hc Hkn) as (ks & Hl & Ht).
    exists ks. split; [done|]. destruct Hsz; [by left|right; by split]. }
  destruct (Store_spec endpoint locations s ks H) as (r & s1' & ks1 & E & H1 & _ & G1 & _ & _ & Hfound). rewrite Es in E. injection E as <- <-.
  destruct (Lookup_spec endpoint hashes s1 ks1 H1) as (m & s2 & _ & El & _ & _ & _ & _ & Hm & _). exists m, s2. split; [done|]. intros h loc Hin Hl.
  apply Hm; [by apply G1|done|done|]. apply (Hfound eq_refl Hqs); [by rewrite Hcap|done|by eapply Hi].
Qed.
End calls.

(** ** A cache of two entries *)

Section witness.
Definition cache_fs : fsys := MkFs [str "cache"] true ∅ (FsEnv (fun n => Z.of_nat n) (fun n => replicate n "x"%byte) (fun _ => None)) 0 0 0 (fun _ => false).

Definition time_le (a b : diskEntry) : Prop := de_modTime a <= de_modTime b.
#[local] Instance time_le_dec : RelDecision time_le := fun a b => Z.le_dec (de_modTime a) (de_modTime b).

Definition by_time (l : list diskEntry) : list diskEntry := merge_sort time_le l.

Definition cached_hash (n : Z) : hash := to_arr hashSize [z2b n].

Definition one_location (n : Z) : gmap ChunkHash ChunkLocation := {[cached_hash n := MkChunkLocation (cached_hash (n + 100)) n]}.

Definition cache_calls : list cache_call :=
  [StoreCall (str "a") (one_location 1); StoreCall (str "a") (one_location 2); CreateCall; LookupCall (str "a") [cached_hash 1]; StoreCall (str "b") (one_location 3)].

Lemma one_location_ok n : 0 <= n < 2 ^ 32 -> forall h loc, one_location n !! h = Some loc -> index_ok loc.
Proof. intros Hn h loc Hl. unfold one_location in Hl. apply lookup_singleton_Some in Hl as [_ <-]. done. Qed.

Definition two_entries : CacheManager := after map_to_list by_time (PrepareCall :: cache_calls) (NewCacheManager 8192 cache_fs).

(** The second location was the oldest when the third came. *)
Lemma lookups_faithful_witness :
  exists m s', Lookup map_to_list (str "a") [cached_hash 1; cached_hash 2] two_entries = (Ok m, s') /\
    forall h loc, m !! h = Some loc -> h ∈ [cached_hash 1; cached_hash 2] /\
      ((exists e l, StoreCall e l ∈ PrepareCall :: cache_calls /\ endpointTag e = endpointTag (str "a") /\ l !! h = Some loc) \/
       location_at (MkEntryKey (endpointTag (str "a")) h) cache_fs = Some loc).
Proof.
  apply (lookups_faithful map_to_list by_time (fun m => reflexivity _) (fun l => merge_sort_Permutation _ l)).
  intros e l h loc Hc. repeat (apply elem_of_cons in Hc as [Hc|Hc]; [try discriminate Hc; injection Hc as -> ->; by apply one_location_ok|]). by apply elem_of_nil in Hc.
Defined.

Lemma cache_bounded_witness :
  there (cm_fs two_entries) (MkEntryKey (endpointTag (str "a")) (cached_hash 1)) /\ there (cm_fs two_entries) (MkEntryKey (endpointTag (str "b")) (cached_hash 3)) /\
  len [MkEntryKey (endpointTag (str "a")) (cached_hash 1); MkEntryKey (endpointTag (str "b")) (cached_hash 3)] * entryCost <= 8192.
Proof.
  assert (there (cm_fs two_entries) (MkEntryKey (endpointTag (str "a")) (cached_hash 1))) as H1 by (apply (bool_decide_unpack _); vm_compute; exact I).
  assert (there (cm_fs two_entries) (MkEntryKey (endpointTag (str "b")) (cached_hash 3))) as H2 by (apply (bool_decide_unpack _); vm_compute; exact I).
  split; [exact H1|]. split; [exact H2|].
  apply (cache_bounded map_to_list by_time (fun m => reflexivity _) (fun l => merge_sort_Permutation _ l) 8192 cache_fs cache_calls); [reflexivity|lia| |].
  - apply NoDup_cons. split; [|apply NoDup_singleton]. intros Hin%list_elem_of_singleton. apply (f_equal (fun k => vec_to_list (ek_hash k))) in Hin. vm_compute in Hin. discriminate Hin.
  - intros k [-> |[-> |Hk]%elem_of_cons]%elem_of_cons; [exact H1|exact H2|destruct (not_elem_of_nil _ Hk)].
Defined.

Lemma store_lookup_witness :
  exists s1 m s2, Store map_to_list by_time (str "a") (one_location 4) two_entries = (Ok tt, s1) /\ Lookup map_to_list (str "a") [cached_hash 4] s1 = (Ok m, s2) /\
    m !! cached_hash 4 = Some (MkChunkLocation (cached_hash 104) 4).
Proof.
  pose (st := Store map_to_list by_time (str "a") (one_location 4) two_entries). assert (st.1 = Ok tt) as Eok by (vm_compute; reflexivity).
  assert (st = (Ok tt, st.2)) as Es by (rewrite <- Eok; apply surjective_pairing).
  destruct (store_lookup map_to_list by_time (fun m => reflexivity _) (fun l => merge_sort_Permutation _ l) 8192 cache_fs (PrepareCall :: cache_calls) (str "a") (one_location 4) st.2 [cached_hash 4])
    as (m & s2 & El & Hm).
  - reflexivity.
  - left. exists cache_calls. reflexivity.
  - apply one_location_ok. lia.
  - right. vm_compute. discriminate.
  - exact Es.
  - intros n. vm_compute. reflexivity.
  - exists st.2, m, s2. split; [exact Es|]. split; [exact El|]. apply Hm; [constructor|]. apply lookup_singleton_eq.
Defined.
End witness.
