(* ===== verification/CasClient.v ===== *)
(** * The CAS client's uploads: [client/client.go], [auth.go], [shard.go], [xorb.go], [upload.go]

    Requests with retries and the token of the operation's endpoint, the xorb and
    shard uploads of both versions, the lookups of chunks by batch, by shard and
    in the cache of locations, and the adapter over them that [upload.UploadFiles]
    works with.

    The network is an interface: what a request is answered with, or the error,
    the order in which concurrent requests go out, the state of the context and
    the clock, all as parts of one state.  A redirect that [net/http] follows is
    part of a request.  [url.Parse] is a parameter: the scheme and the host of a
    URL. *)

From Stdlib Require Import ZArith Lia Strings.Byte Strings.String.
From stdpp Require Import gmap.
From S2P Require Import Prelude Hash Json JsonPrint Sha256 Gearhash Merkle Compression XorbEncoder XorbDecoder XorbOffsets.
From S2P Require Import Shard ShardCodec Prog Storage FileSystem Auth Upload.

(** ** Requests and answers *)

Record call : Type := MkCall {
  cl_Method : gostring;
  cl_URL : gostring;
  cl_Header : gmap gostring gostring;
  cl_Body : list byte;
}.

Record reply : Type := MkReply {
  rp_Status : Z;
  rp_Body : reader;
}.

(** [http.Client.Do]; the errors that are timeouts or a [url.Error];
    [ctx.Err()]; [time.Now()]; and in which order [n] goroutines send their
    requests. *)
Class Network (N : Type) : Type := {
  net_Do : call -> prog N reply;
  net_isNetworkError : error -> bool;
  net_CtxErr : prog N (option error);
  net_Now : prog N Z;
  net_order : nat -> prog N (list nat);
}.

(** [upload.CacheManager], as the client uses it. *)
Class LocationCache (N : Type) : Type := {
  lc_Lookup : gostring -> list ChunkHash -> prog N (gmap ChunkHash ChunkLocation);
  lc_Store : gostring -> gmap ChunkHash ChunkLocation -> prog N unit;
}.

(** [Client]: the provider, if one is bound, the concurrency and the retries. *)
Record Client (N : Type) : Type := MkClient {
  c_provider : option (gostring -> prog N (gostring * gostring));
  c_concurrency : Z;
  c_retries : Z;
}.
Arguments MkClient {N}.
Arguments c_provider {N}.
Arguments c_concurrency {N}.
Arguments c_retries {N}.

Definition errNotFound : error := Errorf "404 not found".
Definition errUnauthorized : error := Errorf "401 Unauthorized".
Definition errForbidden : error := Errorf "403 Forbidden".

(** [statusError], by what [errors.Is] finds in it. *)
Definition statusError (status : Z) : error :=
  if status =? 401 then errUnauthorized else if status =? 403 then errForbidden else Errorf "%s".

Definition reqError (c : call) (r : reply) : option error :=
  if rp_Status r =? 404 then Some errNotFound
  else if bool_decide (default [] (cl_Header c !! str "Range") <> []) then
    if negb (rp_Status r =? 206) then Some (Wrapf "url %s: range: %s: API error (status %w): %s" (statusError (rp_Status r))) else None
  else if negb (rp_Status r =? 200) then Some (Wrapf "url %s: API error (status %w): %s" (statusError (rp_Status r)))
  else None.

Definition isServerError (status : Z) : bool := (status =? 500) || (status =? 502) || (status =? 503) || (status =? 504).

(** ** Tokens: [auth.go] *)

Record casAuth : Type := MkCasAuth { ca_origin : gostring; ca_token : gostring }.

Definition errNoUpstreamProvider : error := Errorf "no upstream provider bound".

(** [strings.TrimRight(s, "/")]. *)
Fixpoint trim_slashes (s : gostring) : gostring :=
  match s with
  | [] => []
  | c :: s => match trim_slashes s with [] => if bool_decide (c = slash) then [] else [c] | t => c :: t end
  end.

(** ** JSON answers *)

(** [json.NewDecoder(body).Decode]: the first value of the stream. *)
Definition decode_json (r : reader) : result json :=
  match parse_value (2 * length (rdata r) + 2) 0 (skip_ws (rdata r)) with
  | Some (v, _) => Ok v
  | None => Err (if bool_decide (rend r = EOF) then Errorf "invalid JSON" else rend r)
  end.

(** A value decoded into a field; [None] is a type error. *)
Definition into_bool (old : bool) (v : json) : option bool :=
  match v with JNull => Some old | JBool b => Some b | _ => None end.
Definition into_string (old : gostring) (v : json) : option gostring :=
  match v with JNull => Some old | JStr s => Some s | _ => None end.
Definition into_int (old : Z) (v : json) : option Z :=
  match v with JNull => Some old | JNum n => match ParseInt n with Ok x => Some x | Err _ => None end | _ => None end.
Definition into_uint32 (old : Z) (v : json) : option Z :=
  match v with
  | JNull => Some old
  | JNum n => match ParseUint n 10 64 with Ok x => if x <? 2 ^ 32 then Some x else None | Err _ => None end
  | _ => None
  end.

(** A struct: [set] decodes a value into the named field. *)
Fixpoint into_members {A} (fields : list gostring) (set : gostring -> json -> A -> option A) (a : A) (ms : list (gostring * json)) : option A :=
  match ms with
  | [] => Some a
  | (key, v) :: ms =>
      match field_of fields key with
      | None => into_members fields set a ms
      | Some f => match set f v a with Some a => into_members fields set a ms | None => None end
      end
  end.

Definition into_struct {A} (fields : list gostring) (set : gostring -> json -> A -> option A) (a : A) (v : json) : option A :=
  match v with
  | JNull => Some a
  | JObj ms => into_members fields set a ms
  | _ => None
  end.

Definition errJSON : error := Errorf "json: cannot unmarshal %s".

(** [XorbUploadResponse] and [ShardUploadResponse]. *)
Definition into_xorb_response (v : json) : option bool := into_struct [str "was_inserted"] (fun _ v b => into_bool b v) false v.
Definition into_shard_response (v : json) : option Z := into_struct [str "result"] (fun _ v n => into_int n v) 0 v.

(** [batchChunkDedupResult]. *)
Record dedupResult : Type := MkDedup {
  dr_ChunkHash : gostring;
  dr_Found : bool;
  dr_XorbHash : gostring;
  dr_ChunkIndex : Z;
}.

Definition dedup_zero : dedupResult := MkDedup [] false [] 0.

Definition set_dedup (f : gostring) (v : json) (d : dedupResult) : option dedupResult :=
  if bool_decide (f = str "chunk_hash") then s ← into_string (dr_ChunkHash d) v; Some (MkDedup s (dr_Found d) (dr_XorbHash d) (dr_ChunkIndex d))
  else if bool_decide (f = str "found") then b ← into_bool (dr_Found d) v; Some (MkDedup (dr_ChunkHash d) b (dr_XorbHash d) (dr_ChunkIndex d))
  else if bool_decide (f = str "xorb_hash") then s ← into_string (dr_XorbHash d) v; Some (MkDedup (dr_ChunkHash d) (dr_Found d) s (dr_ChunkIndex d))
  else n ← into_uint32 (dr_ChunkIndex d) v; Some (MkDedup (dr_ChunkHash d) (dr_Found d) (dr_XorbHash d) n).

Definition into_dedup (d : dedupResult) (v : json) : option dedupResult :=
  into_struct [str "chunk_hash"; str "found"; str "xorb_hash"; str "chunk_index"] set_dedup d v.

(** A slice is decoded into the array it has: its elements, and those behind it. *)
Fixpoint into_elements (backing : list dedupResult) (l : list json) : option (list dedupResult * list dedupResult) :=
  match l with
  | [] => Some ([], backing)
  | v :: l =>
      let '(old, rest) := match backing with d :: rest => (d, rest) | [] => (dedup_zero, []) end in
      d ← into_dedup old v;
      '(ds, behind) ← into_elements rest l;
      Some (d :: ds, behind)
  end.

Definition into_results (_ : gostring) (v : json) (st : list dedupResult * list dedupResult) : option (list dedupResult * list dedupResult) :=
  match v with
  | JNull => Some ([], [])
  | JArr l => into_elements (st.1 ++ st.2) l
  | _ => None
  end.

Definition into_batch (v : json) : option (list dedupResult) := fst <$> into_struct [str "results"] into_results ([], []) v.

(** [batchChunkDedupQueryRequest] printed. *)
Definition Marshal_query (hashes : list ChunkHash) : list byte :=
  print_json (JObj [(str "chunk_hashes", JArr (map (fun h => JStr (formatHash h)) hashes))]).

(** ** The events of a streamed upload *)

Record shardUploadEventV2 : Type := MkEvent { ev_Type : gostring; ev_Message : gostring; ev_Retryable : bool }.

Definition into_event (v : json) : option shardUploadEventV2 :=
  into_struct [str "type"; str "message"; str "retryable"]
    (fun f v e =>
      if bool_decide (f = str "type") then s ← into_string (ev_Type e) v; Some (MkEvent s (ev_Message e) (ev_Retryable e))
      else if bool_decide (f = str "message") then s ← into_string (ev_Message e) v; Some (MkEvent (ev_Type e) s (ev_Retryable e))
      else b ← into_bool (ev_Retryable e) v; Some (MkEvent (ev_Type e) (ev_Message e) b))
    (MkEvent [] [] false) v.

Definition maxShardUploadEventSize : Z := 2 ^ 20.

(** [retryableShardUploadError]. *)
Definition retryableShardUploadError : error := Errorf "retryable shard upload error".

Definition newline : byte := "010".

(** The line at the front, if it ends: what [bufio.ScanLines] returns next and
    the rest. *)
Fixpoint cut_line (s : list byte) : option (list byte * list byte) :=
  match s with
  | [] => None
  | c :: s => if bool_decide (c = newline) then Some ([], s) else '(line, rest) ← cut_line s; Some (c :: line, rest)
  end.

(** What a line of the stream decides. *)
Definition event_verdict (line : list byte) : option (result Z) :=
  let line := TrimSpace line in
  if len line =? 0 then None
  else
    match parse line ≫= into_event with
    | None => Some (Err (Wrapf "decode v2 shard upload event (line=%q): %w" errJSON))
    | Some event =>
        if bool_decide (ev_Type event = str "result") then Some (Ok 1)
        else if bool_decide (ev_Type event = str "error") then
          Some (Err (if ev_Retryable event then retryableShardUploadError else Errorf "v2 shard upload failed: %s"))
        else None
    end.

(** [parseShardUploadNDJSON]: a line longer than the scanner's buffer is an
    error; the last line need not end. *)
Fixpoint read_events (fuel : nat) (s : list byte) (last : error) : result Z :=
  match fuel with
  | O => Err (Panic "out of fuel")
  | Datatypes.S fuel =>
      match cut_line s with
      | Some (line, rest) =>
          if maxShardUploadEventSize <=? len line then Err (Wrapf "read v2 shard upload events: %w" (Errorf "bufio.Scanner: token too long"))
          else match event_verdict line with Some r => r | None => read_events fuel rest last end
      | None =>
          if maxShardUploadEventSize <=? len s then Err (Wrapf "read v2 shard upload events: %w" (Errorf "bufio.Scanner: token too long"))
          else
            match (if len s =? 0 then None else event_verdict s) with
            | Some r => r
            | None =>
                if bool_decide (last = EOF) then Err (Errorf "v2 shard upload stream ended without a result event")
                else Err (Wrapf "read v2 shard upload events: %w" last)
            end
      end
  end.

Definition parseShardUploadNDJSON (r : reader) : result Z := read_events (Datatypes.S (length (rdata r))) (rdata r) (rend r).

(** [mergeDedupResults]. *)
Definition mergeDedupResults (dst src : gmap ChunkHash ChunkLocation) : gmap ChunkHash ChunkLocation := dst ∪ src.

Definition unresolvedIn (results : gmap ChunkHash ChunkLocation) (h : ChunkHash) : bool := bool_decide (results !! h = None).

Section client.
Context {B3 : Blake3} {L : Lz4} {P : ChunkBufs} {N : Type} {NW : Network N} {LC : LocationCache N}.
Context (url_Parse : gostring -> option (gostring * gostring)) (c : Client N).

Definition casOrigin (baseURL : gostring) : result (gostring * gostring) :=
  let trimmed := trim_slashes baseURL in
  match url_Parse trimmed with
  | Some (scheme, host) =>
      if (bool_decide (scheme = str "http") || bool_decide (scheme = str "https")) && bool_decide (host <> [])
      then Ok (trimmed, scheme ++ str "://" ++ host) else Err (Errorf "invalid base URL %q")
  | None => Err (Errorf "invalid base URL %q")
  end.

Definition casContext (perm : gostring) : prog N (casAuth * gostring) :=
  match c_provider c with
  | None => throw errNoUpstreamProvider
  | Some resolve =>
      '(baseURL, token) ← prog_wrap "auth: %w" (resolve perm);
      '(baseURL, origin) ← lift (casOrigin baseURL);
      mret (MkCasAuth origin token, baseURL)
  end.

(** [authTransport.RoundTrip]: what goes out. *)
Definition withBearer (token : gostring) (req : call) : call :=
  if bool_decide (token = []) then req
  else MkCall (cl_Method req) (cl_URL req) (<[str "Authorization" := str "Bearer " ++ token]> (cl_Header req)) (cl_Body req).

Definition RoundTrip (mark : option casAuth) (req : call) : call :=
  match mark, url_Parse (cl_URL req) with
  | Some mark, Some (scheme, host) =>
      if bool_decide (ca_origin mark <> scheme ++ str "://" ++ host) || bool_decide (default [] (cl_Header req !! str "Authorization") <> [])
      then req else withBearer (ca_token mark) req
  | _, _ => req
  end.

Definition retryAttempts : Z := Z.max (c_retries c + 1) 1.

(** [do]. *)
Definition do_ (mark : option casAuth) (req : call) : prog N reply := net_Do (RoundTrip mark req).

(** [doWithNetworkRetry]; [reset i] is the error of [resetRequestBody] before the
    [i]th try. *)
Definition failed_attempts (e : error) : error := Wrapf "network error after %d attempts: %w" e.

Fixpoint retry_loop (mark : option casAuth) (req : call) (reset : nat -> option error) (tries i : nat) (lastErr : error) : prog N reply :=
  match tries with
  | O => throw (failed_attempts lastErr)
  | Datatypes.S tries =>
      match (if Nat.eqb i 0 then None else reset i) with
      | Some e => throw (Wrapf "reset request body: %w" e)
      | None =>
          let again e :=
            canceled ← net_CtxErr;
            if bool_decide (is_Some canceled) then throw (failed_attempts e)
            else retry_loop mark req reset tries (Datatypes.S i) e in
          catch (do_ mark req)
            (fun resp => if isServerError (rp_Status resp) then again (Errorf "server error status %s") else mret resp)
            (fun e => if negb (net_isNetworkError e) then throw (Wrapf "do request: %w" e) else again e)
      end
  end.

Definition doWithNetworkRetry (mark : option casAuth) (req : call) (reset : nat -> option error) : prog N reply :=
  retry_loop mark req reset (Z.to_nat retryAttempts) 0 EOF.

Definition rewind : nat -> option error := fun _ => None.

Definition no_header : gmap gostring gostring := ∅.
Definition content_type (t : gostring) : gmap gostring gostring := {[str "Content-Type" := t]}.

Definition check (req : call) (resp : reply) : prog N unit :=
  match reqError req resp with Some e => throw e | None => mret tt end.

(** ** Xorbs: [xorb.go] *)

Definition xorb_url (baseURL : gostring) (h : XorbHash) : gostring := baseURL ++ str "/v1/xorbs/default/" ++ formatHash h.

Definition cl_HasXorb (h : XorbHash) : prog N bool :=
  '(mark, baseURL) ← prog_wrap "get base URL: %w" (casContext Write);
  let req := MkCall (str "HEAD") (xorb_url baseURL h) no_header [] in
  resp ← doWithNetworkRetry (Some mark) req rewind;
  if rp_Status resp =? 200 then mret true
  else if rp_Status resp =? 404 then mret false
  else _ ← check req resp; mret false.

(** The [k]th [Seek] of the reader fails with [seek k]. *)
Definition cl_UploadXorb (seek : nat -> option error) (h : XorbHash) (data : list byte) : prog N bool :=
  let seek_or format k := match seek k with Some e => throw (Wrapf format e) | None => mret tt end in
  _ ← seek_or "seek current: %w"%string 0%nat;
  _ ← seek_or "seek to end: %w"%string 1%nat;
  _ ← seek_or "seek to start offset: %w"%string 2%nat;
  '(mark, baseURL) ← prog_wrap "get base URL: %w" (casContext Write);
  _ ← seek_or "seek to start offset: %w"%string 3%nat;
  let req := MkCall (str "POST") (xorb_url baseURL h) (content_type (str "application/octet-stream")) data in
  resp ← doWithNetworkRetry (Some mark) req (fun i => Wrapf "seek to start offset: %w" <$> seek (3 + i)%nat);
  _ ← check req resp;
  v ← prog_wrap "decode response: %w" (lift (decode_json (rp_Body resp)));
  match into_xorb_response v with
  | Some b => mret b
  | None => throw (Wrapf "decode response: %w" errJSON)
  end.

(** ** Shards: [shard.go] *)

Definition newShardUploadRequest (version : gostring) (sh : Shard) : prog N (casAuth * call * gostring) :=
  '(mark, baseURL) ← prog_wrap "get base URL: %w" (casContext Write);
  bodyBytes ← prog_wrap "read shard payload: %w" (lift (ReadAll (Datatypes.S (length (encoded 0 sh false))) (Encode 0 sh false) []));
  mret (mark, MkCall (str "POST") (baseURL ++ str "/" ++ version ++ str "/shards") (content_type (str "application/octet-stream")) bodyBytes, baseURL).

Definition cl_UploadShard (sh : Shard) : prog N Z :=
  '(mark, req, scope) ← newShardUploadRequest (str "v1") sh;
  resp ← doWithNetworkRetry (Some mark) req rewind;
  _ ← check req resp;
  v ← prog_wrap "decode response: %w" (lift (decode_json (rp_Body resp)));
  match into_shard_response v with
  | Some n => _ ← ignore (lc_Store scope (ChunkLocations sh)); mret n
  | None => throw (Wrapf "decode response: %w" errJSON)
  end.

Definition uploadShardV2 (sh : Shard) : prog N Z :=
  '(mark, req, scope) ← newShardUploadRequest (str "v2") sh;
  resp ← doWithNetworkRetry (Some mark) req rewind;
  _ ← check req resp;
  n ← lift (parseShardUploadNDJSON (rp_Body resp));
  _ ← ignore (lc_Store scope (ChunkLocations sh));
  mret n.

Fixpoint upload_v2_loop (sh : Shard) (tries i : nat) (lastErr : error) : prog N Z :=
  let exhausted := throw (Wrapf "v2 shard upload failed after %d attempts: %w" lastErr) in
  match tries with
  | O => exhausted
  | Datatypes.S tries =>
      canceled ← (if Nat.eqb i 0 then mret None else net_CtxErr);
      if bool_decide (is_Some canceled) then exhausted
      else
        catch (uploadShardV2 sh) mret
          (fun e => if errors_Is e retryableShardUploadError then upload_v2_loop sh tries (Datatypes.S i) e else throw e)
  end.

Definition cl_UploadShardV2 (sh : Shard) : prog N Z := upload_v2_loop sh (Z.to_nat retryAttempts) 0 EOF.

(** ** Chunks *)

Definition cl_QueryDedupShard (chunkHash : ChunkHash) (candidates : list ChunkHash) : prog N (gmap ChunkHash ChunkLocation) :=
  '(mark, baseURL) ← prog_wrap "get base URL: %w" (casContext Write);
  let req := MkCall (str "GET") (baseURL ++ str "/v1/chunks/default/" ++ formatHash chunkHash) no_header [] in
  resp ← prog_wrap "do request: %w" (do_ (Some mark) req);
  if rp_Status resp =? 404 then mret ∅
  else
    _ ← check req resp;
    '((sh, _), _) ← prog_wrap "deserialize shard: %w" (lift (Shard_decode (fun st (_ : CASBlock) => Ok st) None true tt (rp_Body resp)));
    now ← (match s_Footer sh with Some _ => net_Now | None => mret 0 end);
    if match s_Footer sh with Some f => IsExpired f (seconds now) | None => false end then mret ∅
    else mret (ResolveChunks sh (chunkHash :: candidates)).

(** One goroutine per probe, in the order the network gives; a failed one leaves
    nothing. *)
Fixpoint fetch_in_order (order : list nat) (wave candidates : list ChunkHash) (fetched : list (gmap ChunkHash ChunkLocation)) :
    prog N (list (gmap ChunkHash ChunkLocation)) :=
  match order with
  | [] => mret fetched
  | i :: order =>
      match wave !! i with
      | None => fetch_in_order order wave candidates fetched
      | Some probe =>
          catch (cl_QueryDedupShard probe candidates)
            (fun m => fetch_in_order order wave candidates (<[i := m]> fetched))
            (fun _ => fetch_in_order order wave candidates fetched)
      end
  end.

(** The hits of a wave and those that remain. *)
Fixpoint take_wave (width : nat) (listed : gset ChunkHash) (hits : list ChunkHash) : list ChunkHash * list ChunkHash :=
  match width, hits with
  | Datatypes.S w, hit :: rest =>
      if bool_decide (hit ∈ listed) then take_wave width listed rest
      else let '(wave, rest) := take_wave w listed rest in (hit :: wave, rest)
  | _, _ => ([], hits)
  end.

Fixpoint fetchHitShards (fuel : nat) (width : nat) (listed : gset ChunkHash) (results : gmap ChunkHash ChunkLocation)
    (hits candidates : list ChunkHash) : prog N (gmap ChunkHash ChunkLocation) :=
  match fuel with
  | O => throw (Panic "out of fuel")
  | Datatypes.S fuel =>
      if (len hits =? 0) || negb (existsb (unresolvedIn results) candidates) then mret results
      else
        let '(wave, hits) := take_wave width listed hits in
        order ← net_order (length wave);
        fetched ← fetch_in_order order wave candidates (replicate (length wave) ∅);
        fetchHitShards fuel (Z.to_nat (Z.max (c_concurrency c) 1))
          (foldl (fun listed m => dom m ∪ listed) listed fetched) (foldl mergeDedupResults results fetched) hits candidates
  end.

Fixpoint queryChunksDeduplicationFallback (results : gmap ChunkHash ChunkLocation) (chunkHashes candidates : list ChunkHash) :
    prog N (gmap ChunkHash ChunkLocation) :=
  match chunkHashes with
  | [] => mret results
  | chunkHash :: chunkHashes =>
      if bool_decide (is_Some (results !! chunkHash)) then queryChunksDeduplicationFallback results chunkHashes candidates
      else
        found ← cl_QueryDedupShard chunkHash candidates;
        queryChunksDeduplicationFallback (mergeDedupResults results found) chunkHashes candidates
  end.

(** One item of a batch answer: a requested hash that is found and not known. *)
Definition batch_item (requested : list ChunkHash) (st : gmap ChunkHash ChunkLocation * list ChunkHash) (item : dedupResult) :
    gmap ChunkHash ChunkLocation * list ChunkHash :=
  let '(results, hits) := st in
  match parseHash (dr_ChunkHash item) with
  | Err _ => st
  | Ok chunkHash =>
      if negb (dr_Found item) || negb (bool_decide (chunkHash ∈ requested)) then st
      else
        match parseHash (dr_XorbHash item) with
        | Err _ => st
        | Ok xorbHash =>
            if bool_decide (is_Some (results !! chunkHash)) then st
            else (<[chunkHash := MkChunkLocation xorbHash (dr_ChunkIndex item)]> results, hits ++ [chunkHash])
        end
  end.

(** The batch request, or one request per chunk where there is no such route. *)
Definition query_batch (mark : casAuth) (baseURL : gostring) (results : gmap ChunkHash ChunkLocation) (remaining candidates : list ChunkHash) :
    prog N (gmap ChunkHash ChunkLocation * list dedupResult) :=
  if len remaining =? 0 then mret (results, [])
  else
    let req := MkCall (str "POST") (baseURL ++ str "/v1/chunks/default:query") (content_type (str "application/json")) (Marshal_query remaining) in
    resp ← prog_wrap "do batch request: %w" (do_ (Some mark) req);
    if (rp_Status resp =? 404) || (rp_Status resp =? 405) then
      fallback ← queryChunksDeduplicationFallback ∅ remaining candidates;
      mret (mergeDedupResults results fallback, [])
    else
      _ ← check req resp;
      v ← prog_wrap "decode batch chunk query response: %w" (lift (decode_json (rp_Body resp)));
      match into_batch v with
      | Some items => mret (results, items)
      | None => throw (Wrapf "decode batch chunk query response: %w" errJSON)
      end.

Definition cl_QueryDedupShards (chunkHashes candidates : list ChunkHash) : prog N (gmap ChunkHash ChunkLocation) :=
  if len chunkHashes =? 0 then mret ∅
  else
    '(mark, baseURL) ← prog_wrap "get base URL: %w" (casContext Write);
    let candidates := chunkHashes ++ candidates in
    local ← lc_Lookup baseURL candidates;
    let remaining := filter (fun h => local !! h = None) chunkHashes in
    if (len remaining =? 0) && negb (existsb (unresolvedIn local) candidates) then mret local
    else
      '(results, items) ← query_batch mark baseURL local remaining candidates;
      let '(results, hits) := foldl (batch_item remaining) (results, []) items in
      let hits := hits ++ filter (fun h => is_Some (local !! h)) chunkHashes in
      results ← fetchHitShards (Datatypes.S (length hits)) 1 ∅ results hits candidates;
      let learned := filter (fun hl => hl.1 ∈ candidates /\ local !! hl.1 = None) results in
      _ ← ignore (lc_Store baseURL learned);
      mret results.

(** ** The adapter: [upload.go] *)

Inductive shardAPIVersion : Type := shardAPIVersionV1 | shardAPIVersionV2.

Definition uploadAdapter (seek : nat -> option error) (version : shardAPIVersion) : ClientAdapter N := {|
  ca_HasXorb := cl_HasXorb;
  ca_UploadXorb := cl_UploadXorb seek;
  ca_UploadShard sh := match version with shardAPIVersionV2 => cl_UploadShardV2 sh | shardAPIVersionV1 => cl_UploadShard sh end;
  ca_QueryDedupShards := cl_QueryDedupShards;
|}.

Definition uploadFiles (seek : nat -> option error) (version : shardAPIVersion) (srcs : list source) (removable : nat -> bool) (elsewhere : N -> N -> Prop)
    (s : N) (r : result (list FileHash)) (s' : N) : Prop :=
  @UploadFiles B3 L P N (uploadAdapter seek version) srcs removable elsewhere true (c_concurrency c) s r s'.
End client.
