(* ===== verification/CasClientProofs.v ===== *)
(** * The client keeps the promises of an upload

    [honest] is what the client relies on of the CAS behind the network and of
    its cache of locations: a xorb the CAS acknowledges is stored, a place it
    names for a chunk is known, both stay so, and a truthful cache gives known
    places.  From it the adapter has what
    [upload.UploadFiles] relies on, through retries, lost answers, fallbacks and
    concurrent fetches. *)

From Stdlib Require Import ZArith Lia Strings.Byte Strings.String.
From stdpp Require Import gmap.
From S2P Require Import Prelude Hash Json JsonPrint Sha256 Gearhash Merkle Compression XorbEncoder XorbDecoder XorbOffsets.
From S2P Require Import Shard ShardBuild ShardCodec ShardFits Prog Storage FileSystem Auth Upload UploadProofs UploadRun CasClient.

(** ** Retries *)

Section retries.
Context {N : Type} {NW : Network N}.
Context (url_Parse : gostring -> option (gostring * gostring)).

(** A try that is worth another one. *)
Definition passing (o : result reply) : Prop :=
  match o with
  | Ok resp => isServerError (rp_Status resp) = true
  | Err e => net_isNetworkError e = true
  end.

(** The run of a request that is tried again: [n] tries with a passing outcome,
    none of them with a context that was done after it. *)
Inductive passed (mark : option casAuth) (req : call) (reset : nat -> option error) : nat -> N -> N -> Prop :=
  | pa_none s : passed mark req reset 0 s s
  | pa_more n s s1 o s2 s3 :
      passed mark req reset n s s1 -> (n <> 0%nat -> reset n = None) ->
      do_ url_Parse mark req s1 = (o, s2) -> passing o -> net_CtxErr s2 = (Ok None, s3) ->
      passed mark req reset (S n) s s3.

Lemma retry_loop_step mark req reset tries i lastErr s :
  retry_loop url_Parse mark req reset (S tries) i lastErr s =
    match (if Nat.eqb i 0 then None else reset i) with
    | Some e => (Err (Wrapf "reset request body: %w" e), s)
    | None =>
        match do_ url_Parse mark req s with
        | (Ok resp, s1) =>
            if isServerError (rp_Status resp)
            then match net_CtxErr s1 with
                 | (Ok (Some _), s2) => (Err (failed_attempts (Errorf "server error status %s")), s2)
                 | (Ok None, s2) => retry_loop url_Parse mark req reset tries (S i) (Errorf "server error status %s") s2
                 | (Err e, s2) => (Err e, s2)
                 end
            else (Ok resp, s1)
        | (Err e, s1) =>
            if net_isNetworkError e
            then match net_CtxErr s1 with
                 | (Ok (Some _), s2) => (Err (failed_attempts e), s2)
                 | (Ok None, s2) => retry_loop url_Parse mark req reset tries (S i) e s2
                 | (Err e', s2) => (Err e', s2)
                 end
            else (Err (Wrapf "do request: %w" e), s1)
        end
    end.
Proof.
  cbn [retry_loop]. destruct (if Nat.eqb i 0 then None else reset i) as [e|]; [done|]. unfold catch at 1.
  destruct (do_ url_Parse mark req s) as [[resp|e] s1].
  - destruct (isServerError (rp_Status resp)); [|done]. unfold mbind, prog_bind. destruct (net_CtxErr s1) as [[[c|]|e] s2]; done.
  - destruct (net_isNetworkError e); cbn [negb]; [|done]. unfold mbind, prog_bind. destruct (net_CtxErr s1) as [[[c|]|e'] s2]; done.
Qed.

(** A request that passes [n] tries and is then answered. *)
Lemma retry_succeeds mark req reset n tries s0 s resp s' lastErr :
  passed mark req reset n s0 s -> (n <> 0%nat -> reset n = None) ->
  do_ url_Parse mark req s = (Ok resp, s') -> isServerError (rp_Status resp) = false ->
  retry_loop url_Parse mark req reset (n + S tries) 0 lastErr s0 = (Ok resp, s').
Proof.
  intros Hp Hr Hdo Hok.
  assert (exists e, retry_loop url_Parse mark req reset (n + S tries) 0 lastErr s0 = retry_loop url_Parse mark req reset (S tries) n e s) as [e ->].
  { clear Hdo Hok Hr. revert tries. induction Hp as [s|n s s1 o s2 s3 _ IH Hreset Hdo Hpass Hctx]; intros tries; [by exists lastErr|].
    replace (S n + S tries)%nat with (n + S (S tries))%nat by lia. destruct (IH (S tries)) as [e ->]. rewrite retry_loop_step, Hdo.
    assert ((if Nat.eqb n 0 then None else reset n) = None) as -> by (destruct (Nat.eqb_spec n 0); [done|by apply Hreset]).
    destruct o as [resp0|e']; cbn in Hpass; rewrite Hpass, Hctx; by eexists. }
  rewrite retry_loop_step, Hdo, Hok. by assert ((if Nat.eqb n 0 then None else reset n) = None) as -> by (destruct (Nat.eqb_spec n 0); [done|by apply Hr]).
Qed.

(** An answer of the loop is the answer to one try. *)
Lemma retry_answered mark req reset tries i lastErr s0 s resp s' :
  passed mark req reset i s0 s -> retry_loop url_Parse mark req reset tries i lastErr s = (Ok resp, s') ->
  exists n s1, (i <= n < i + tries)%nat /\ passed mark req reset n s0 s1 /\ do_ url_Parse mark req s1 = (Ok resp, s') /\ isServerError (rp_Status resp) = false /\
    (n <> 0%nat -> reset n = None).
Proof.
  revert i lastErr s. induction tries as [|tries IH]; intros i lastErr s Hp; [done|]. rewrite retry_loop_step.
  destruct (if Nat.eqb i 0 then None else reset i) eqn:Er; [done|].
  assert (i <> 0%nat -> reset i = None) as Hr by (destruct (Nat.eqb_spec i 0); done).
  destruct (do_ url_Parse mark req s) as [[resp'|e] s1] eqn:Ed.
  - destruct (isServerError (rp_Status resp')) eqn:Es.
    + destruct (net_CtxErr s1) as [[[c|]|e] s2] eqn:Ec; [done| |done]. intros H. apply IH in H as (n & s3 & ? & ? & ?); [exists n, s3; split; [lia|done]|].
      by eapply pa_more.
    + intros [= <- <-]. exists i, s. split; [lia|]. done.
  - destruct (net_isNetworkError e) eqn:Es; [|done].
    destruct (net_CtxErr s1) as [[[c|]|e'] s2] eqn:Ec; [done| |done]. intros H. apply IH in H as (n & s3 & ? & ? & ?); [exists n, s3; split; [lia|done]|].
    by eapply pa_more.
Qed.

(** C16: retries.  A request sent with retries succeeds exactly when one of its
    first [retries + 1] tries, each with the same request and body, is answered
    by something other than a server error, every try before it ended in a
    network error or a server error, no try found the context done, and the
    body could be rewound for each; and the answer is that try's. *)
Theorem retry_exact (c : Client N) mark req reset s resp s' :
  doWithNetworkRetry url_Parse c mark req reset s = (Ok resp, s') <->
  exists n s1, Z.of_nat n < retryAttempts c /\ passed mark req reset n s s1 /\ (n <> 0%nat -> reset n = None) /\
    do_ url_Parse mark req s1 = (Ok resp, s') /\ isServerError (rp_Status resp) = false.
Proof.
  unfold doWithNetworkRetry, retryAttempts. split.
  - intros H. apply (retry_answered _ _ _ _ _ _ s) in H as (n & s1 & Hn & Hp & Hd & Hs & Hr); [|apply pa_none]. exists n, s1. split; [lia|]. done.
  - intros (n & s1 & Hn & Hp & Hr & Hd & Hs). replace (Z.to_nat (Z.max (c_retries c + 1) 1)) with (n + S (Z.to_nat (Z.max (c_retries c + 1) 1) - S n))%nat by lia.
    by apply (retry_succeeds _ _ _ _ _ _ s1).
Qed.
End retries.

(** ** What the client relies on *)

(** The place of a chunk in a xorb: an index that can be followed by another. *)
Definition place_ok (loc : ChunkLocation) : Prop := 0 <= cl_ChunkIndex loc < 2 ^ 32 - 1.

Section honest.
Context {B3 : Blake3} {L : Lz4} {P : ChunkBufs} {N : Type} {NW : Network N} {LC : LocationCache N}.
Context (url_Parse : gostring -> option (gostring * gostring)) (c : Client N).
Context (stored : N -> XorbHash -> Prop) (known : N -> ChunkHash -> ChunkLocation -> Prop) (truthful : N -> Prop).

(** Nothing that is stored or known is lost. *)
Definition keeps {A} (m : prog N A) : Prop :=
  forall s, (forall h, stored s h -> stored (m s).2 h) /\ (forall ch loc, known s ch loc -> known (m s).2 ch loc).

Definition all_known (m : gmap ChunkHash ChunkLocation) (s : N) : Prop :=
  forall (ch : ChunkHash) loc, m !! ch = Some loc -> known s ch loc /\ place_ok loc.

(** A place a batch answer names. *)
Definition batch_names (body : reader) (ch : ChunkHash) (loc : ChunkLocation) : Prop :=
  exists v items item, decode_json body = Ok v /\ into_batch v = Some items /\ item ∈ items /\ dr_Found item = true /\
    parseHash (dr_ChunkHash item) = Ok ch /\ parseHash (dr_XorbHash item) = Ok (cl_XorbHash loc) /\ cl_ChunkIndex loc = dr_ChunkIndex item.

(** A place a shard gives for a chunk. *)
Definition shard_names (body : reader) (ch : ChunkHash) (loc : ChunkLocation) : Prop :=
  exists sh st rest hashes, Shard_decode (fun st (_ : CASBlock) => Ok st) None true tt body = Ok ((sh, st), rest) /\
    ResolveChunks sh hashes !! ch = Some loc.

Record honest : Prop := {
  ho_Do req : keeps (net_Do req);
  ho_CtxErr : keeps net_CtxErr;
  ho_Now : keeps net_Now;
  ho_order n : keeps (net_order n);
  ho_Lookup scope hashes : keeps (lc_Lookup scope hashes);
  ho_Store scope m : keeps (lc_Store scope m);
  ho_provider resolve perm : c_provider c = Some resolve -> keeps (resolve perm);
  ho_HasXorb baseURL h header s resp s' :
    net_Do (MkCall (str "HEAD") (xorb_url baseURL h) header []) s = (Ok resp, s') -> rp_Status resp = 200 -> stored s' h;
  ho_UploadXorb baseURL h header data s resp s' :
    net_Do (MkCall (str "POST") (xorb_url baseURL h) header data) s = (Ok resp, s') -> rp_Status resp = 200 -> stored s' h;
  ho_batch baseURL hashes header s resp s' ch loc :
    net_Do (MkCall (str "POST") (baseURL ++ str "/v1/chunks/default:query") header (Marshal_query hashes)) s = (Ok resp, s') ->
    rp_Status resp = 200 -> batch_names (rp_Body resp) ch loc -> known s' ch loc /\ place_ok loc;
  ho_shard baseURL h header s resp s' ch loc :
    net_Do (MkCall (str "GET") (baseURL ++ str "/v1/chunks/default/" ++ formatHash h) header []) s = (Ok resp, s') ->
    rp_Status resp = 200 -> shard_names (rp_Body resp) ch loc -> known s' ch loc /\ place_ok loc;
  ho_provider_cache resolve perm s : c_provider c = Some resolve -> truthful s -> truthful (resolve perm s).2;
  ho_cache scope hashes s m s' : truthful s -> lc_Lookup scope hashes s = (Ok m, s') -> all_known m s';
}.

(** ** Programs that lose nothing *)

Lemma keeps_ret {A} (a : A) : keeps (mret a).
Proof. done. Qed.
Lemma keeps_throw {A} e : keeps (throw e : prog N A).
Proof. done. Qed.
Lemma keeps_lift {A} (r : result A) : keeps (lift r).
Proof. done. Qed.

Lemma keeps_bind {A X} (m : prog N A) (f : A -> prog N X) : keeps m -> (forall a, keeps (f a)) -> keeps (m ≫= f).
Proof.
  intros Hm Hf s. unfold mbind, prog_bind. destruct (Hm s) as [H1 H2]. destruct (m s) as [[a|e] s1]; [|done].
  destruct (Hf a s1) as [H3 H4]. split; intros; [by apply H3, H1|by apply H4, H2].
Qed.

Lemma keeps_catch {A X} (m : prog N A) (k : A -> prog N X) h : keeps m -> (forall a, keeps (k a)) -> (forall e, keeps (h e)) -> keeps (catch m k h).
Proof.
  intros Hm Hk Hh s. unfold catch. destruct (Hm s) as [H1 H2]. destruct (m s) as [[a|e] s1].
  - destruct (Hk a s1) as [H3 H4]. split; intros; [by apply H3, H1|by apply H4, H2].
  - destruct (Hh e s1) as [H3 H4]. split; intros; [by apply H3, H1|by apply H4, H2].
Qed.

Lemma keeps_wrap {A} fmt (m : prog N A) : keeps m -> keeps (prog_wrap fmt m).
Proof. intros Hm. apply keeps_catch; [done|apply keeps_ret|intros; apply keeps_throw]. Qed.

Lemma keeps_ignore {A} (m : prog N A) : keeps m -> keeps (ignore m).
Proof. intros Hm s. apply (Hm s). Qed.

Context (H : honest).

(** One step of such a program. *)
Ltac keep := repeat first
  [ apply keeps_ret | apply keeps_throw | apply keeps_lift | apply (ho_Do H) | apply (ho_CtxErr H) | apply (ho_Now H) | apply (ho_order H)
  | apply (ho_Lookup H) | apply keeps_ignore, (ho_Store H) | apply keeps_wrap | (apply keeps_bind; [|intros ?]) | (apply keeps_catch; [|intros ?|intros ?])
  | (match goal with |- keeps (match ?x with _ => _ end) => destruct x eqn:? end) | done ].

Lemma keeps_casContext perm : keeps (casContext url_Parse c perm).
Proof. unfold casContext. destruct (c_provider c) as [resolve|] eqn:E; keep. by apply (ho_provider H). Qed.

Lemma keeps_retry mark req reset : keeps (doWithNetworkRetry url_Parse c mark req reset).
Proof.
  unfold doWithNetworkRetry. generalize 0%nat as i, EOF as e. generalize (Z.to_nat (retryAttempts c)) as tries.
  induction tries as [|tries IH]; intros i e; cbn [retry_loop]; [keep|]. keep; apply IH.
Qed.

Lemma keeps_HasXorb h : keeps (cl_HasXorb url_Parse c h).
Proof. unfold cl_HasXorb, check. keep; try apply keeps_casContext; try apply keeps_retry. Qed.

Lemma keeps_UploadXorb seek h data : keeps (cl_UploadXorb url_Parse c seek h data).
Proof. unfold cl_UploadXorb, check. keep; try apply keeps_casContext; try apply keeps_retry. Qed.

(** The token is all the transport adds. *)
Lemma RoundTrip_sends mark req : exists header, RoundTrip url_Parse mark req = MkCall (cl_Method req) (cl_URL req) header (cl_Body req).
Proof.
  unfold RoundTrip, withBearer. destruct mark as [mark|], (url_Parse (cl_URL req)) as [[scheme host]|]; try (exists (cl_Header req); by destruct req).
  destruct (_ || _); [exists (cl_Header req); by destruct req|]. case_bool_decide; [exists (cl_Header req); by destruct req|by eexists].
Qed.

(** The first step of a program that succeeds. *)
Lemma bind_inv {A X} (m : prog N A) (f : A -> prog N X) s x s' : (m ≫= f) s = (Ok x, s') -> exists a s1, m s = (Ok a, s1) /\ f a s1 = (Ok x, s').
Proof. unfold mbind, prog_bind. destruct (m s) as [[a|e] s1]; [|done]. intros. by exists a, s1. Qed.

(** The answer of a request that is retried. *)
Lemma retry_reply mark req reset s resp s' :
  doWithNetworkRetry url_Parse c mark req reset s = (Ok resp, s') ->
  exists header s1, net_Do (MkCall (cl_Method req) (cl_URL req) header (cl_Body req)) s1 = (Ok resp, s').
Proof.
  unfold doWithNetworkRetry. intros Hr. apply (retry_answered url_Parse _ _ _ _ _ _ s) in Hr as (n & s1 & _ & _ & Hd & _); [|apply pa_none].
  unfold do_ in Hd. destruct (RoundTrip_sends mark req) as [header E]. rewrite E in Hd. by exists header, s1.
Qed.

Lemma check_ok req resp (s : N) u s' : check req resp s = (Ok u, s') -> cl_Header req !! str "Range" = None -> rp_Status resp = 200 /\ s' = s.
Proof.
  unfold check, reqError. intros Hc Hh. rewrite Hh in Hc. cbn [default from_option] in Hc. destruct (rp_Status resp =? 404); [done|].
  rewrite bool_decide_eq_false_2 in Hc by (intros E; by apply E). destruct (Z.eqb_spec (rp_Status resp) 200) as [E|]; cbn [negb] in Hc; [|done]. by injection Hc.
Qed.

Lemma HasXorb_stored h s s' : cl_HasXorb url_Parse c h s = (Ok true, s') -> stored s' h.
Proof.
  unfold cl_HasXorb. intros ([mark baseURL] & s1 & _ & Hm)%bind_inv. apply bind_inv in Hm as (resp & s2 & Hr & Hm).
  apply retry_reply in Hr as (header & s3 & Hd). cbn [cl_Method cl_URL cl_Body] in Hd. destruct (Z.eqb_spec (rp_Status resp) 200) as [E|].
  - injection Hm as <-. by eapply (ho_HasXorb H).
  - destruct (_ =? 404); [done|]. by apply bind_inv in Hm as (u & s4 & _ & ?).
Qed.

Lemma UploadXorb_stored seek h data s b s' : cl_UploadXorb url_Parse c seek h data s = (Ok b, s') -> stored s' h.
Proof.
  unfold cl_UploadXorb. do 3 (intros (? & ? & _ & Hm)%bind_inv; revert Hm). intros ([mark baseURL] & s1 & _ & Hm)%bind_inv.
  apply bind_inv in Hm as (? & ? & _ & Hm). apply bind_inv in Hm as (resp & s2 & Hr & Hm). apply retry_reply in Hr as (header & s3 & Hd).
  apply bind_inv in Hm as (u & s4 & Hc & Hm). apply check_ok in Hc as [E ->]; [|done].
  apply bind_inv in Hm as (v & s5 & Hv & Hm). apply prog_wrap_Ok in Hv. unfold lift in Hv. injection Hv as _ <-.
  assert (s' = s2) as -> by (destruct (into_xorb_response v); [by injection Hm|done]). by eapply (ho_UploadXorb H).
Qed.

(** ** Lookups *)

Lemma all_known_keeps {A} (m : prog N A) x s : keeps m -> all_known x s -> all_known x (m s).2.
Proof. intros Hm Hx ch loc Hl. destruct (Hx ch loc Hl) as [Hk ?]. split; [by apply (Hm s)|done]. Qed.

Lemma all_known_after {A} (m : prog N A) x s r s' : keeps m -> m s = (r, s') -> all_known x s -> all_known x s'.
Proof. intros Hm Hs Hx. pose proof (all_known_keeps m x s Hm Hx) as Hk. by rewrite Hs in Hk. Qed.

Lemma all_known_union x y s : all_known x s -> all_known y s -> all_known (mergeDedupResults x y) s.
Proof. intros Hx Hy ch loc Hl. apply lookup_union_Some_raw in Hl as [Hl|[_ Hl]]; [by apply Hx|by apply Hy]. Qed.

Lemma all_known_empty s : all_known ∅ s.
Proof. intros ch loc Hl. by rewrite lookup_empty in Hl. Qed.

Lemma keeps_QueryDedupShard h candidates : keeps (cl_QueryDedupShard url_Parse c h candidates).
Proof. unfold cl_QueryDedupShard, check, do_. keep; apply keeps_casContext. Qed.

Lemma QueryDedupShard_known h candidates s m s' : cl_QueryDedupShard url_Parse c h candidates s = (Ok m, s') -> all_known m s'.
Proof.
  unfold cl_QueryDedupShard. intros ([mark baseURL] & s1 & _ & Hm)%bind_inv. apply bind_inv in Hm as (resp & s2 & Hr & Hm).
  apply prog_wrap_Ok in Hr. unfold do_ in Hr. match type of Hr with context [RoundTrip url_Parse ?mk ?rq] => destruct (RoundTrip_sends mk rq) as [header E] end.
  rewrite E in Hr. cbn [cl_Method cl_URL cl_Body] in Hr. destruct (rp_Status resp =? 404); [injection Hm as <- _; apply all_known_empty|].
  apply bind_inv in Hm as (u & s3 & Hc & Hm). apply check_ok in Hc as [E2 ->]; [|done].
  apply bind_inv in Hm as ([[sh st] rest] & s4 & Hd & Hm). apply prog_wrap_Ok in Hd. unfold lift in Hd. injection Hd as Hd <-.
  apply bind_inv in Hm as (now & s5 & Hn & Hm).
  assert (all_known (ResolveChunks sh (h :: candidates)) s2) as Hk.
  { intros ch loc Hl. eapply (ho_shard H); [exact Hr|done|]. exists sh, st, rest, (h :: candidates). done. }
  assert (all_known (ResolveChunks sh (h :: candidates)) s5) as Hk5.
  { destruct (s_Footer sh); [|by injection Hn as _ <-]. eapply all_known_after; [apply (ho_Now H)|exact Hn|done]. }
  match type of Hm with context [if ?b then _ else _] => destruct b end; injection Hm as <- <-; [apply all_known_empty|done].
Qed.

Lemma fetch_in_order_known order wave candidates fetched s fetched' s' x :
  fetch_in_order url_Parse c order wave candidates fetched s = (Ok fetched', s') -> Forall (fun m => all_known m s) fetched -> all_known x s ->
  Forall (fun m => all_known m s') fetched' /\ all_known x s'.
Proof.
  revert fetched s. induction order as [|i order IH]; intros fetched s; cbn [fetch_in_order]; [by intros [= <- <-]|].
  destruct (wave !! i) as [probe|]; [|apply IH]. unfold catch. destruct (cl_QueryDedupShard url_Parse c probe candidates s) as [[m|e] s1] eqn:Eq; intros Hr Hf Hx.
  - pose proof (keeps_QueryDedupShard probe candidates) as Hk. apply IH in Hr; [done| |by eapply all_known_after].
    apply Forall_insert; [|by eapply QueryDedupShard_known]. eapply Forall_impl; [exact Hf|]. intros m' Hm'. by eapply all_known_after.
  - pose proof (keeps_QueryDedupShard probe candidates) as Hk. apply IH in Hr; [done| |by eapply all_known_after].
    eapply Forall_impl; [exact Hf|]. intros m' Hm'. by eapply all_known_after.
Qed.

Lemma keeps_fetch_in_order order wave candidates fetched : keeps (fetch_in_order url_Parse c order wave candidates fetched).
Proof.
  revert fetched. induction order as [|i order IH]; intros fetched; cbn [fetch_in_order]; [apply keeps_ret|].
  destruct (wave !! i); [|apply IH]. apply keeps_catch; [apply keeps_QueryDedupShard|intros; apply IH..].
Qed.

Lemma merge_all_known fetched results s : Forall (fun m => all_known m s) fetched -> all_known results s -> all_known (foldl mergeDedupResults results fetched) s.
Proof. intros Hf. revert results. induction Hf as [|m fetched Hm _ IH]; intros results Hr; [done|]. apply IH. by apply all_known_union. Qed.

Lemma fetchHitShards_known fuel width listed results hits candidates s m s' :
  fetchHitShards url_Parse c fuel width listed results hits candidates s = (Ok m, s') -> all_known results s -> all_known m s'.
Proof.
  revert width listed results hits s. induction fuel as [|fuel IH]; intros width listed results hits s; cbn [fetchHitShards]; [done|].
  destruct (_ || _); [by intros [= <- <-]|]. destruct (take_wave width listed hits) as [wave hits'].
  intros (order & s1 & Ho & Hm)%bind_inv Hr. apply bind_inv in Hm as (fetched & s2 & Hf & Hm).
  eapply all_known_after in Ho; [|apply (ho_order H)|exact Hr].
  destruct (fetch_in_order_known _ _ _ _ _ _ _ results Hf) as [Hf2 Hr2]; [apply Forall_replicate, all_known_empty|done|].
  eapply IH; [exact Hm|]. by apply merge_all_known.
Qed.

Lemma fallback_known results hashes candidates s m s' :
  queryChunksDeduplicationFallback url_Parse c results hashes candidates s = (Ok m, s') -> all_known results s -> all_known m s'.
Proof.
  revert results s. induction hashes as [|h hashes IH]; intros results s; cbn [queryChunksDeduplicationFallback]; [by intros [= <- <-]|].
  case_bool_decide; [apply IH|]. intros (found & s1 & Hf & Hm)%bind_inv Hr. apply IH in Hm; [done|]. apply all_known_union.
  - eapply all_known_after; [apply keeps_QueryDedupShard|exact Hf|done].
  - by eapply QueryDedupShard_known.
Qed.

Lemma keeps_fallback results hashes candidates : keeps (queryChunksDeduplicationFallback url_Parse c results hashes candidates).
Proof.
  revert results. induction hashes as [|h hashes IH]; intros results; cbn [queryChunksDeduplicationFallback]; [apply keeps_ret|].
  case_bool_decide; [apply IH|]. apply keeps_bind; [apply keeps_QueryDedupShard|intros; apply IH].
Qed.

(** The batch answer names what its items add. *)
Lemma batch_items_known requested items results hits s :
  (forall item ch loc, item ∈ items -> dr_Found item = true -> parseHash (dr_ChunkHash item) = Ok ch ->
     parseHash (dr_XorbHash item) = Ok (cl_XorbHash loc) -> cl_ChunkIndex loc = dr_ChunkIndex item -> known s ch loc /\ place_ok loc) ->
  all_known results s -> all_known (foldl (batch_item requested) (results, hits) items).1 s.
Proof.
  revert results hits. induction items as [|item items IH]; intros results hits Hi Hr; [done|]. cbn [foldl].
  assert (all_known (batch_item requested (results, hits) item).1 s) as Hstep.
  { unfold batch_item. destruct (parseHash (dr_ChunkHash item)) as [ch|] eqn:Ech; [|done]. destruct (dr_Found item) eqn:Ef; [|done]. cbn [negb orb].
    destruct (negb _); [done|]. destruct (parseHash (dr_XorbHash item)) as [x|] eqn:Ex; [|done]. case_bool_decide; [done|].
    intros ch' loc Hl. cbn [fst] in Hl. apply lookup_insert_Some in Hl as [[<- <-]|[_ Hl]]; [|by apply Hr]. apply (Hi item); [left|done..]. }
  destruct (batch_item requested (results, hits) item) as [results' hits']. apply IH; [|done]. intros item' ch loc Hin. apply Hi. by right.
Qed.

Lemma query_batch_known mark baseURL results remaining candidates s results' items s' :
  query_batch url_Parse c mark baseURL results remaining candidates s = (Ok (results', items), s') -> all_known results s ->
  all_known results' s' /\ forall requested hits, all_known (foldl (batch_item requested) (results', hits) items).1 s'.
Proof.
  unfold query_batch. destruct (len remaining =? 0); [by intros [= <- <- <-]|]. intros (resp & s1 & Hr & Hm)%bind_inv Hk.
  apply prog_wrap_Ok in Hr. unfold do_ in Hr. match type of Hr with context [RoundTrip url_Parse ?mk ?rq] => destruct (RoundTrip_sends mk rq) as [header E] end.
  rewrite E in Hr. cbn [cl_Method cl_URL cl_Body] in Hr. eapply all_known_after in Hk; [|apply (ho_Do H)|exact Hr].
  destruct (_ || _).
  - apply bind_inv in Hm as (fallback & s2 & Hf & Hm). injection Hm as <- <- <-.
    assert (all_known (mergeDedupResults results fallback) s2) as Hu; [|done]. apply all_known_union.
    + eapply all_known_after; [apply keeps_fallback|exact Hf|done].
    + eapply fallback_known; [exact Hf|apply all_known_empty].
  - apply bind_inv in Hm as (u & s2 & Hc & Hm). apply check_ok in Hc as [E2 ->]; [|done].
    apply bind_inv in Hm as (v & s3 & Hv & Hm). apply prog_wrap_Ok in Hv. unfold lift in Hv. injection Hv as Hv <-.
    destruct (into_batch v) as [items'|] eqn:Eb; [|done]. injection Hm as <- <- <-. split; [done|]. intros requested hits.
    apply batch_items_known; [|done]. intros item ch loc Hin Hf Hch Hx Hidx. eapply (ho_batch H); [exact Hr|done|]. exists v, items', item. done.
Qed.

Lemma QueryDedupShards_known probes candidates s m s' : truthful s -> cl_QueryDedupShards url_Parse c probes candidates s = (Ok m, s') -> all_known m s'.
Proof.
  intros Ht. unfold cl_QueryDedupShards. destruct (len probes =? 0); [intros [= <- _]; apply all_known_empty|].
  intros ([mark baseURL] & s1 & Hcx & Hm)%bind_inv. assert (truthful s1) as Ht1.
  { apply prog_wrap_Ok in Hcx. unfold casContext in Hcx. destruct (c_provider c) as [resolve|] eqn:Ep; [|done]. apply bind_inv in Hcx as ([url token] & s2 & Hr & Hcx).
    apply prog_wrap_Ok in Hr. pose proof (ho_provider_cache H resolve Write s Ep Ht) as Ht2. rewrite Hr in Ht2. apply bind_inv in Hcx as ([? ?] & s3 & Hl & Hcx).
    unfold lift in Hl. injection Hl as _ <-. injection Hcx as _ _ <-. exact Ht2. }
  apply bind_inv in Hm as (local & s2 & Hl & Hm). apply (ho_cache H) in Hl; [|done].
  destruct (_ && _); [by injection Hm as <- <-|]. apply bind_inv in Hm as ([results items] & s3 & Hq & Hm).
  destruct (query_batch_known _ _ _ _ _ _ _ _ _ Hq Hl) as [_ Hi].
  match type of Hm with context [foldl (batch_item ?rq) (results, []) items] => specialize (Hi rq []); destruct (foldl (batch_item rq) (results, []) items) as [res2 hits] end.
  cbn [fst] in Hi. apply bind_inv in Hm as (res3 & s4 & Hf & Hm). apply fetchHitShards_known in Hf; [|done].
  apply bind_inv in Hm as (u & s5 & Hs & Hm). injection Hm as <- <-.
  eapply all_known_after; [|exact Hs|done]. apply keeps_ignore, (ho_Store H).
Qed.

(** ** Shards *)

(** The bytes of a shard that is uploaded. *)
Definition payload (sh : Shard) : list byte := encoded 0 sh false.

Lemma upload_request version sh s mark req scope s' :
  len (payload sh) < 2 ^ 63 -> newShardUploadRequest url_Parse c version sh s = (Ok (mark, req, scope), s') ->
  req = MkCall (str "POST") (scope ++ str "/" ++ version ++ str "/shards") (content_type (str "application/octet-stream")) (payload sh).
Proof.
  intros Hl. unfold newShardUploadRequest. intros ([mark' baseURL] & s1 & _ & Hm)%bind_inv. apply bind_inv in Hm as (data & s2 & Hr & Hm).
  apply prog_wrap_Ok in Hr. unfold lift in Hr. apply (f_equal fst) in Hr. cbn [fst] in Hr. pose proof (EncodeShard_eq 0 sh Hl) as He. unfold EncodeShard in He. rewrite Hr in He.
  cbn [mbind result_bind] in He. apply (f_equal (fun r => match r with Ok (d, _) => d | Err _ => data end)) in He. injection Hm as _ <- <- _. by rewrite He.
Qed.

(** How the CAS acknowledges a shard. *)
Definition acknowledged (version : shardAPIVersion) (sh : Shard) (resp : reply) (n : Z) : Prop :=
  rp_Status resp = 200 /\
  match version with
  | shardAPIVersionV1 => exists v, decode_json (rp_Body resp) = Ok v /\ into_shard_response v = Some n
  | shardAPIVersionV2 => parseShardUploadNDJSON (rp_Body resp) = Ok n
  end.

Definition version_name (version : shardAPIVersion) : gostring :=
  match version with shardAPIVersionV1 => str "v1" | shardAPIVersionV2 => str "v2" end.

(** An upload that succeeds was acknowledged, and then its places were cached. *)
Definition shard_sent (version : shardAPIVersion) (sh : Shard) (n : Z) (s' : N) : Prop :=
  exists baseURL header s1 resp s2,
    net_Do (MkCall (str "POST") (baseURL ++ str "/" ++ version_name version ++ str "/shards") header (payload sh)) s1 = (Ok resp, s2) /\
    acknowledged version sh resp n /\ s' = (lc_Store baseURL (ChunkLocations sh) s2).2.

Lemma UploadShard_sent sh s n s' : len (payload sh) < 2 ^ 63 -> cl_UploadShard url_Parse c sh s = (Ok n, s') -> shard_sent shardAPIVersionV1 sh n s'.
Proof.
  intros Hl. unfold cl_UploadShard. intros ([[mark req] scope] & s1 & Hq & Hm)%bind_inv. apply upload_request in Hq as ->; [|done].
  apply bind_inv in Hm as (resp & s2 & Hr & Hm). apply retry_reply in Hr as (header & s3 & Hd). cbn [cl_Method cl_URL cl_Body] in Hd.
  apply bind_inv in Hm as (u & s4 & Hc & Hm). apply check_ok in Hc as [E ->]; [|done].
  apply bind_inv in Hm as (v & s5 & Hv & Hm). apply prog_wrap_Ok in Hv. unfold lift in Hv. apply pair_equal_spec in Hv as [Hv <-].
  destruct (into_shard_response v) as [n'|] eqn:En; [|done]. apply bind_inv in Hm as (u' & s6 & Hs & Hm). injection Hm as <- <-.
  exists scope, header, s3, resp, s2. split; [exact Hd|]. split; [split; [done|by exists v]|]. unfold ignore in Hs. by injection Hs as _ <-.
Qed.

Lemma uploadShardV2_sent sh s n s' : len (payload sh) < 2 ^ 63 -> uploadShardV2 url_Parse c sh s = (Ok n, s') -> shard_sent shardAPIVersionV2 sh n s'.
Proof.
  intros Hl. unfold uploadShardV2. intros ([[mark req] scope] & s1 & Hq & Hm)%bind_inv. apply upload_request in Hq as ->; [|done].
  apply bind_inv in Hm as (resp & s2 & Hr & Hm). apply retry_reply in Hr as (header & s3 & Hd). cbn [cl_Method cl_URL cl_Body] in Hd.
  apply bind_inv in Hm as (u & s4 & Hc & Hm). apply check_ok in Hc as [E ->]; [|done].
  apply bind_inv in Hm as (n' & s5 & Hv & Hm). unfold lift in Hv. apply pair_equal_spec in Hv as [Hv <-]. apply bind_inv in Hm as (u' & s6 & Hs & Hm). injection Hm as <- <-.
  exists scope, header, s3, resp, s2. split; [exact Hd|]. split; [done|]. unfold ignore in Hs. by injection Hs as _ <-.
Qed.

Lemma UploadShardV2_sent sh s n s' : len (payload sh) < 2 ^ 63 -> cl_UploadShardV2 url_Parse c sh s = (Ok n, s') -> shard_sent shardAPIVersionV2 sh n s'.
Proof.
  intros Hl. unfold cl_UploadShardV2. generalize 0%nat as i, EOF as e. intros i e. revert i e s. induction (Z.to_nat (retryAttempts c)) as [|tries IH]; intros i e s; cbn [upload_v2_loop]; [done|].
  intros (canceled & s1 & _ & Hm)%bind_inv. case_bool_decide; [done|]. unfold catch in Hm. destruct (uploadShardV2 url_Parse c sh s1) as [[n'|e'] s2] eqn:Eu.
  - injection Hm as <- <-. by eapply uploadShardV2_sent.
  - destruct (errors_Is e' _); [by eapply IH|done].
Qed.

(** ** The upload of files *)

Lemma keeps_UploadShard sh : keeps (cl_UploadShard url_Parse c sh).
Proof. unfold cl_UploadShard, check. keep; first [apply keeps_casContext | apply keeps_retry]. Qed.

Lemma keeps_UploadShardV2 sh : keeps (cl_UploadShardV2 url_Parse c sh).
Proof.
  assert (keeps (uploadShardV2 url_Parse c sh)) as H2 by (unfold uploadShardV2, check; keep; first [apply keeps_casContext | apply keeps_retry]).
  unfold cl_UploadShardV2. generalize 0%nat as i, EOF as e. induction (Z.to_nat (retryAttempts c)) as [|tries IH]; intros i e; cbn [upload_v2_loop]; [apply keeps_throw|].
  apply keeps_bind; [destruct (Nat.eqb i 0); [apply keeps_ret|apply (ho_CtxErr H)]|]. intros canceled. case_bool_decide; [apply keeps_throw|].
  apply keeps_catch; [exact H2|apply keeps_ret|]. intros e'. destruct (errors_Is _ _); [apply IH|apply keeps_throw].
Qed.

(** What is placed stays placed while nothing is lost. *)
Lemma file_placed_later sha s1 s2 s' src fb :
  (forall h, stored s2 h -> stored s' h) -> (forall ch loc, known s1 ch loc -> known s' ch loc) ->
  file_placed stored known sha s1 s2 src fb -> file_placed stored known sha s' s' src fb.
Proof.
  intros Hs Hk (H1 & H2 & runs & H3 & H4). split; [done|]. split; [done|]. exists runs. split; [done|].
  eapply Forall2_impl; [exact H4|]. intros ci d [C1 C2]. split; [done|]. destruct (ci_IsNew ci); [|by apply Hk].
  destruct C2 as [C2 C3]. split; [by apply Hs|done].
Qed.

Lemma client_upload_spec {LL : Lz4Laws L} seek version srcs removable elsewhere s hashes s' :
  (forall w w' h, elsewhere w w' -> stored w h -> stored w' h) -> (forall w w' ch loc, elsewhere w w' -> known w ch loc -> known w' ch loc) ->
  truthful s -> Forall source_ok srcs -> len srcs + chunk_count srcs < 2 ^ 28 ->
  uploadFiles url_Parse c seek version srcs removable elsewhere s (Ok hashes) s' ->
  Forall2 (fun src h => ComputeFileHash (map ComputeChunkHash (chunks (uploads src))) (map len (chunks (uploads src))) = Ok h) srcs hashes /\
  exists sh n, Forall2 (file_placed stored known true s' s') srcs (s_Files sh) /\ shard_fits sh /\ shard_sent version sh n s'.
Proof.
  intros Helse Helse' Ht Hok Hcount Hrun. unfold uploadFiles in Hrun.
  destruct (upload_spec (C := uploadAdapter url_Parse c seek version) srcs removable elsewhere stored known) with
    (sha := true) (concurrency := c_concurrency c) (s := s) (hashes := hashes) (s' := s') as [H1 (s1 & s2 & sh & r & H2 & H3 & H4 & H5)].
  - exact HasXorb_stored.
  - exact (UploadXorb_stored seek).
  - intros h w h' Hs. by apply (keeps_HasXorb h w).
  - intros h data w h' Hs. by apply (keeps_UploadXorb seek h data w).
  - exact Helse.
  - intros probes candidates m w h loc Hq Hl. by apply (QueryDedupShards_known _ _ _ _ _ Ht Hq).
  - exact Hok.
  - exact Hrun.
  - split; [exact H1|]. specialize (H5 Hcount). exists sh, r. cbn [ca_UploadShard uploadAdapter] in H2. split; [|split; [done|]].
    + assert (keeps (match version with shardAPIVersionV1 => cl_UploadShard url_Parse c sh | shardAPIVersionV2 => cl_UploadShardV2 url_Parse c sh end)) as Hup
        by (destruct version; [apply keeps_UploadShard|apply keeps_UploadShardV2]).
      specialize (Hup s2). assert (s' = (match version with shardAPIVersionV1 => cl_UploadShard url_Parse c sh | shardAPIVersionV2 => cl_UploadShardV2 url_Parse c sh end s2).2) as E
        by (destruct version; by rewrite H2). rewrite <- E in Hup. destruct Hup as [U1 U2].
      eapply Forall2_impl; [exact H3|]. intros src fb. apply file_placed_later; [done|]. intros ch loc Hk. apply U2.
      apply (H4 (fun w => known w ch loc)); [|done]. split; [|split].
      * intros h w. apply (keeps_HasXorb h w).
      * intros h data w. apply (keeps_UploadXorb seek h data w).
      * intros w w'. apply Helse'.
    + destruct H5 as (_ & _ & Hl). destruct version; [by apply (UploadShard_sent _ s2)|by apply (UploadShardV2_sent _ s2)].
Qed.
End honest.

(** ** The fuel of loops

    More fuel than what is given changes nothing: every turn of a loop takes a
    hit or a line. *)

Lemma take_wave_rest width listed hits wave rest : take_wave width listed hits = (wave, rest) -> (length rest <= length hits)%nat /\ (width <> 0%nat -> hits <> [] -> (length rest < length hits)%nat).
Proof.
  revert width wave rest. induction hits as [|hit hits IH]; intros [|w] wave rest; cbn [take_wave]; try (intros [= <- <-]; cbn; split; [lia|done]).
  case_bool_decide.
  - intros E. destruct (IH _ _ _ E) as [Hl _]. cbn. split; [lia|]. intros _ _. lia.
  - destruct (take_wave w listed hits) as [wave' rest'] eqn:E. intros [= <- <-]. destruct (IH _ _ _ E) as [Hl _]. cbn. split; [lia|]. intros _ _. lia.
Qed.

Lemma fetchHitShards_fuel {B3 : Blake3} {N : Type} {NW : Network N} url_Parse (c : Client N) candidates f1 : forall f2 width listed results hits s,
  (length hits < f1)%nat -> (length hits < f2)%nat -> width <> 0%nat ->
  fetchHitShards url_Parse c f1 width listed results hits candidates s = fetchHitShards url_Parse c f2 width listed results hits candidates s.
Proof.
  induction f1 as [|f1 IH]; intros [|f2] width listed results hits s H1 H2 Hw; try lia. cbn [fetchHitShards]. destruct (_ || _) eqn:Eb; [done|].
  apply orb_false_iff in Eb as [Eh _]. apply Z.eqb_neq in Eh. assert (hits <> []) as Hne by (by intros ->).
  destruct (take_wave width listed hits) as [wave rest] eqn:Et. destruct (take_wave_rest _ _ _ _ _ Et) as [_ Hl]. specialize (Hl Hw Hne).
  unfold mbind, prog_bind. destruct (net_order (length wave) s) as [[order|e] s1]; [|done]. destruct (fetch_in_order _ _ _ _ _ _ s1) as [[fetched|e] s2]; [|done].
  apply IH; lia.
Qed.

Lemma cut_line_rest s line rest : cut_line s = Some (line, rest) -> (length rest < length s)%nat.
Proof.
  revert line. induction s as [|c s IH]; intros line; cbn [cut_line]; [done|]. case_bool_decide; [intros [= <- <-]; cbn; lia|].
  destruct (cut_line s) as [[line' rest']|]; [|done]. cbn. intros [= <- <-]. specialize (IH _ eq_refl). lia.
Qed.

Lemma read_events_fuel f1 : forall f2 s last, (length s < f1)%nat -> (length s < f2)%nat -> read_events f1 s last = read_events f2 s last.
Proof.
  induction f1 as [|f1 IH]; intros [|f2] s last H1 H2; try lia. cbn [read_events]. destruct (cut_line s) as [[line rest]|] eqn:E; [|done].
  apply cut_line_rest in E. destruct (_ <=? _); [done|]. destruct (event_verdict line); [done|]. apply IH; lia.
Qed.
