(* ===== verification/CasWire.v ===== *)
(** * Client and server over one wire

    The bytes of the server's answers, as [encoding/json] prints them, and what
    the client makes of them.  [verdict_agrees]: the client's verdict on a
    streamed upload is the one the server's frames say, and a success means
    the store has put the shard. *)

From Stdlib Require Import ZArith Lia Strings.Byte Strings.String.
From stdpp Require Import gmap.
From S2P Require Import Prelude Hash Json JsonPrint Sha256 Gearhash Merkle Compression XorbEncoder XorbDecoder XorbOffsets.
From S2P Require Import Shard ShardCodec Prog Storage FileSystem Plan Auth Split Server ServerProofs Upload CasClient.

(** ** Frames *)

Section frames.

(** The text of a message; [fmt] prints errors. *)
Context (text : message -> gostring).

Definition uint (v : Z) : json := JNum (print_int v).

Definition frame_json (f : frame) : list (gostring * json) :=
  match f with
  | Validating verified total => [(str "type", JStr (str "validating")); (str "verified", uint verified); (str "total", uint total)]
  | Committing stage => [(str "type", JStr (str "committing")); (str "stage", JStr stage)]
  | UploadResult => [(str "type", JStr (str "result"))]
  | UploadError m retryable => [(str "type", JStr (str "error")); (str "message", JStr (text m)); (str "retryable", JBool retryable)]
  end.

Definition frame_bytes (f : frame) : list byte := print_json (JObj (frame_json f)).

(** [send], over the frames of a stream. *)
Definition frames_bytes (l : list frame) : list byte := concat (map (fun f => frame_bytes f ++ [newline]) l).

(** Counters of 64 bits and the stages there are, and a line the client's
    scanner takes. *)
Definition frame_fine (f : frame) : Prop :=
  match f with
  | Validating v t => 0 <= v < 2 ^ 64 /\ 0 <= t < 2 ^ 64
  | Committing st => st = str "uploading" \/ st = str "syncing"
  | _ => True
  end.

Definition line_fits (f : frame) : Prop := len (frame_bytes f) < maxShardUploadEventSize.

Lemma frame_printable f : frame_fine f -> printable 1 (JObj (frame_json f)).
Proof.
  intros Hf. constructor. destruct f as [v t|st| |m b]; cbn [frame_json] in *; intros p Hp;
    repeat (apply elem_of_cons in Hp as [-> |Hp]; [split; [reflexivity|]; cbn [snd]|]); try (by apply elem_of_nil in Hp); try constructor; destruct Hf; lia.
Qed.

(** Lines fit when messages do. *)
Lemma length_format_uint v : (length (format_uint 10 v) <= 64)%nat.
Proof.
  unfold format_uint. assert (forall fuel acc v, length (format_uint_loop fuel 10 v acc) <= fuel + length acc)%nat as H; [|apply (H 64%nat [] v)].
  induction fuel as [|fuel IH]; intros acc v'; cbn [format_uint_loop]; [lia|]. destruct (_ =? 0); cbn [length]; [lia|]. etransitivity; [apply IH|]. cbn [length]. lia.
Qed.

Lemma object_length ms : (length (print_json (JObj ms)) <= 2 + list_sum (map (fun m => 4 + length m.1 + length (print_json m.2)) ms))%nat.
Proof.
  set (pm := fun m : gostring * json => print_str m.1 ++ ":"%byte :: print_json m.2). set (size := fun m : gostring * json => (4 + length m.1 + length (print_json m.2))%nat).
  change (print_json (JObj ms)) with ("{"%byte :: commas (map pm ms) ++ ["}"%byte]). cbn [length]. rewrite length_app. cbn [length].
  enough (length (commas (map pm ms)) <= list_sum (map size ms))%nat by lia.
  assert (forall m, S (length (pm m)) <= size m)%nat as E by (intros m; unfold pm, size, print_str; rewrite length_app; cbn [length]; rewrite length_app; cbn [length]; lia).
  clearbody pm size. induction ms as [|m ms IH]; [cbn; lia|]. pose proof (E m). change (list_sum (map size (m :: ms))) with (size m + list_sum (map size ms))%nat.
  destruct ms as [|m2 ms]; [cbn [map commas]; lia|]. change (commas (map pm (m :: m2 :: ms))) with (pm m ++ ","%byte :: commas (map pm (m2 :: ms))).
  rewrite length_app. cbn [length]. lia.
Qed.

Lemma lines_fit f : (forall m, len (escape (text m)) < 2 ^ 19) -> frame_fine f -> line_fits f.
Proof.
  intros Ht Hf. unfold line_fits, frame_bytes, len, maxShardUploadEventSize in *. pose proof (object_length (frame_json f)) as Hl.
  destruct f as [v t|st| |m b]; cbn [frame_json map fst snd] in *.
  - assert (forall z : Z, 0 <= z -> (length (print_json (uint z)) <= 64)%nat) as Hu
      by (intros z Hz; cbn [print_json uint]; unfold print_int; rewrite (proj2 (Z.ltb_ge _ _)) by lia; apply length_format_uint).
    destruct Hf as [Hv Ht']. pose proof (Hu v ltac:(lia)). pose proof (Hu t ltac:(lia)). unfold list_sum in Hl. cbn [fold_right] in Hl.
    change (length (str "type")) with 4%nat in Hl. change (length (str "verified")) with 8%nat in Hl. change (length (str "total")) with 5%nat in Hl.
    change (length (print_json (JStr (str "validating")))) with 12%nat in Hl. lia.
  - destruct Hf as [-> | ->]; vm_compute; reflexivity.
  - vm_compute. reflexivity.
  - specialize (Ht m). unfold list_sum in Hl. cbn [fold_right] in Hl. change (length (str "type")) with 4%nat in Hl. change (length (str "message")) with 7%nat in Hl.
    change (length (str "retryable")) with 9%nat in Hl. change (length (print_json (JStr (str "error")))) with 7%nat in Hl.
    assert (length (print_json (JBool b)) <= 5)%nat by (by destruct b; cbn; lia).
    assert (length (print_json (JStr (text m))) = 2 + length (escape (text m)))%nat by (cbn [print_json]; unfold print_str; cbn [length]; rewrite length_app; cbn [length]; lia). lia.
Qed.

(** What the client decides on a frame. *)
Definition frame_verdict (f : frame) : option (result Z) :=
  match f with
  | UploadResult => Some (Ok 1)
  | UploadError _ retryable => Some (Err (if retryable then retryableShardUploadError else Errorf "v2 shard upload failed: %s"))
  | _ => None
  end.

Lemma trim_left_stays fuel sps c s : Forall (fun p => match p with [] => False | x :: _ => x <> c end) sps -> trim_left fuel sps (c :: s) = c :: s.
Proof.
  intros Hp. destruct fuel as [|fuel]; [done|]. cbn [trim_left]. assert (find (fun p => starts_with p (c :: s)) sps = None) as ->; [|done].
  induction Hp as [|p sps Hp _ IH]; [done|]. cbn [find]. destruct p as [|x p]; [done|]. unfold starts_with at 1. cbn [length take].
  rewrite bool_decide_eq_false_2 by congruence. exact IH.
Qed.

(** A printed object has no white space around it. *)
Lemma TrimSpace_object s : TrimSpace ("{"%byte :: s ++ ["}"%byte]) = "{"%byte :: s ++ ["}"%byte].
Proof.
  unfold TrimSpace. rewrite trim_left_stays.
  2: { apply Forall_forall. intros p Hp. assert (forallb (fun p => match p with [] => false | x :: _ => negb (bool_decide (x = "{"%byte)) end) spaces = true) as H by (vm_compute; reflexivity).
       rewrite forallb_forall in H. apply list_elem_of_In, H in Hp. destruct p; [done|]. by apply negb_true_iff, bool_decide_eq_false in Hp. }
  change ("{"%byte :: s ++ ["}"%byte]) with (("{"%byte :: s) ++ ["}"%byte]). rewrite reverse_snoc, trim_left_stays.
  2: { apply Forall_forall. intros p Hp. assert (forallb (fun p => match p with [] => false | x :: _ => negb (bool_decide (x = "}"%byte)) end) (map reverse spaces) = true) as H by (vm_compute; reflexivity).
       rewrite forallb_forall in H. apply list_elem_of_In, H in Hp. destruct p; [done|]. by apply negb_true_iff, bool_decide_eq_false in Hp. }
  rewrite reverse_cons, reverse_involutive. done.
Qed.

Lemma event_of_frame f : frame_fine f -> event_verdict (frame_bytes f) = frame_verdict f.
Proof.
  intros Hf. unfold event_verdict. assert (TrimSpace (frame_bytes f) = frame_bytes f) as -> by apply TrimSpace_object.
  assert ((len (frame_bytes f) =? 0) = false) as -> by (apply Z.eqb_neq; intros E; apply len_0_nil in E; discriminate E).
  unfold frame_bytes. rewrite (parse_print 0) by (by apply frame_printable || (vm_compute; discriminate)).
  destruct f as [v t|st| |m b]; [reflexivity..|]. cbn [frame_json read_json map fst snd mbind option_bind into_event into_struct].
  destruct b; reflexivity.
Qed.

Lemma cut_line_visible s rest : Forall visible s -> cut_line (s ++ newline :: rest) = Some (s, rest).
Proof.
  induction 1 as [|c s Hc _ IH]; [done|]. cbn [app cut_line]. rewrite bool_decide_eq_false_2 by (intros ->; vm_compute in Hc; by apply Hc). by rewrite IH.
Qed.

(** The first frame that decides. *)
Fixpoint frames_verdict (l : list frame) : option (result Z) :=
  match l with
  | [] => None
  | f :: l => match frame_verdict f with Some r => Some r | None => frames_verdict l end
  end.

Lemma read_frames fuel l last : Forall frame_fine l -> Forall line_fits l -> (length (frames_bytes l) < fuel)%nat ->
  read_events fuel (frames_bytes l) last =
    match frames_verdict l with
    | Some r => r
    | None => if bool_decide (last = EOF) then Err (Errorf "v2 shard upload stream ended without a result event")
              else Err (Wrapf "read v2 shard upload events: %w" last)
    end.
Proof.
  intros Hc. revert fuel. induction Hc as [|f l Hf _ IH]; intros [|fuel] Hl Hfuel; try lia; [done|].
  apply Forall_cons in Hl as [Hfit Hl]. unfold frames_bytes in *. cbn [map concat] in Hfuel |- *. rewrite <- app_assoc in Hfuel |- *. cbn [app] in Hfuel |- *.
  cbn [read_events frames_verdict]. rewrite cut_line_visible by (apply (print_visible _ 1), frame_printable, Hf).
  unfold line_fits in Hfit. rewrite (proj2 (Z.leb_gt _ _)) by lia. rewrite event_of_frame by done. destruct (frame_verdict f) as [r|]; [done|].
  apply IH; [done|]. rewrite length_app in Hfuel. cbn [length] in Hfuel. lia.
Qed.
End frames.

(** ** The verdict on a streamed upload *)

Definition phase_ok (p : phase) : Prop :=
  match p with Counting v t => 0 <= v < 2 ^ 64 /\ 0 <= t < 2 ^ 64 | _ => True end.

Lemma advance_counters p f q : phase_ok p -> advance p f = Some q -> frame_fine f /\ phase_ok q.
Proof.
  assert (forall t, 0 <= u64 t < 2 ^ 64) as Hu by (intros t; apply Z.mod_pos_bound; lia).
  destruct p as [|v t| | |], f as [v' t'|st| |m b]; cbn [advance]; try done; intros Hp.
  - destruct (Z.eqb_spec v' 0) as [-> |], (Z.eqb_spec t' 0) as [-> |]; cbn [andb]; try done. intros [= <-]. cbn. lia.
  - cbn in Hp |- *. pose proof (Hu (t + 1)). pose proof (Hu (v + 1)). bool_case; cbn [andb]; try done; intros [= <-]; cbn; subst; lia.
  - destruct (_ =? _); [|done]. case_bool_decide; [|done]. intros [= <-]. split; [by left|done].
  - by intros [= <-].
  - case_bool_decide; [intros [= <-]; split; [by left|done]|]. case_bool_decide; [|done]. intros [= <-]. split; [by right|done].
  - by intros [= <-].
  - case_bool_decide; [|done]. intros [= <-]. split; [by right|done].
  - by intros [= <-].
Qed.

Lemma run_frames_counters p fs q : phase_ok p -> run_frames p fs = Some q -> Forall frame_fine fs.
Proof.
  revert p. induction fs as [|f fs IH]; intros p Hp; cbn [run_frames]; [constructor|]. destruct (advance p f) as [p'|] eqn:E; [|done].
  apply advance_counters in E as [Hf Hp']; [|done]. intros Hr. constructor; [done|by eapply IH].
Qed.

Lemma run_finished fs q : run_frames Finished fs = Some q -> fs = [].
Proof. by destruct fs as [|[]]. Qed.

(** A result is the first frame that decides. *)
Lemma frames_verdict_result p fs q : run_frames p fs = Some q -> UploadResult ∈ fs -> frames_verdict fs = Some (Ok 1).
Proof.
  revert p. induction fs as [|f fs IH]; intros p; [by intros _ ?%elem_of_nil|]. cbn [run_frames frames_verdict]. destruct (advance p f) as [p'|] eqn:E; [|done].
  intros Hr [<- |Hin]%elem_of_cons; [done|]. destruct f as [v t|st| |m b]; cbn [frame_verdict]; [by eapply IH..|done|].
  assert (p' = Finished) as -> by (destruct p; cbn in E; congruence). apply run_finished in Hr as ->. by apply elem_of_nil in Hin.
Qed.

Lemma frames_verdict_Ok fs n : frames_verdict fs = Some (Ok n) -> n = 1 /\ UploadResult ∈ fs.
Proof.
  induction fs as [|f fs IH]; [done|]. cbn [frames_verdict]. destruct f as [v t|st| |m b]; cbn [frame_verdict].
  1,2: intros [? ?]%IH; split; [done|by right].
  - intros [= <-]. split; [done|left].
  - by destruct b.
Qed.

(** A run that has ended has decided. *)
Lemma frames_verdict_Finished p fs : p <> Finished -> run_frames p fs = Some Finished -> frames_verdict fs <> None.
Proof.
  revert p. induction fs as [|f fs IH]; intros p Hp; cbn [run_frames frames_verdict]; [by intros [= ->]|]. destruct (advance p f) as [p'|] eqn:E; [|done].
  intros Hr. destruct f as [v t|st| |m b]; cbn [frame_verdict]; try done; (eapply IH; [|exact Hr]).
  - intros ->. destruct p; cbn [advance] in E; repeat case_match; congruence.
  - intros ->. destruct p; cbn [advance] in E; repeat case_match; congruence.
Qed.

Section verdict.
Context {S : Type} {ST : Storage S} (h : Handler) (text : message -> gostring).

Lemma verdict_spec deliver beats r s resp s' received broken :
  handleUploadShardV2 h deliver beats r s = (Ok resp, s') -> rs_Status resp = 200 ->
  Forall (line_fits text) (body_frames (rs_Body resp)) -> received `prefix_of` body_frames (rs_Body resp) ->
  let verdict := parseShardUploadNDJSON (Reader (frames_bytes text received) broken) in
  (forall n, verdict = Ok n -> n = 1 /\
     exists sh s0 b, uploaded r = Ok sh /\ Shard_Validate sh = Ok tt /\ authorizeShardFiles h r sh = None /\ PutShard sh s0 = (Ok b, s')) /\
  (received = body_frames (rs_Body resp) ->
     (verdict = Ok 1 <-> UploadResult ∈ received) /\
     ((forall n, deliver n = Delivered) -> frames_verdict received = Some verdict)).
Proof.
  unfold handleUploadShardV2. destruct (authorize_choice (S := S) h r (MkGrant Write None [])) as [->|[e ->]]; [|by intros [= <- _] ?%Deny_status].
  destruct (checkShardUploadLength r) as [resp'|] eqn:El; [by intros [= <- _] ?%(checkShardUploadLength_status r)|].
  destruct (upload_stream_spec h r s deliver beats) as (v & E & (q & [Hq _] & Hor) & Hrep & _). unfold first in E. rewrite E. cbn [snd].
  intros [= <- <-] _. cbn [rs_Body body_frames]. set (frames := sm_frames (v_stream v)) in *. intros Hfit [later Hpre]. cbn zeta.
  assert (Forall frame_fine received) as Hcnt.
  { apply (run_frames_counters Waiting) in Hq; [|done]. rewrite Hpre in Hq. by apply Forall_app in Hq as [? _]. }
  assert (Forall (line_fits text) received) as Hfit' by (rewrite Hpre in Hfit; by apply Forall_app in Hfit as [? _]).
  unfold parseShardUploadNDJSON. cbn [rdata rend]. rewrite read_frames by (done || lia). split.
  - intros n. destruct (frames_verdict received) as [[n'|e]|] eqn:Ev; [|done|by case_bool_decide]. intros [= ->].
    apply frames_verdict_Ok in Ev as [-> Hin]. split; [done|]. apply Hrep. change (UploadResult ∈ frames). rewrite Hpre. by apply elem_of_app; left.
  - intros ->. split.
    + split.
      * destruct (frames_verdict frames) as [[n'|e]|] eqn:Ev; [|done|by case_bool_decide]. intros _. by apply frames_verdict_Ok in Ev as [_ ?].
      * intros Hin. by rewrite (frames_verdict_result _ _ _ Hq Hin).
    + intros Hd. destruct Hor as [[n Hn]|Hor]; [by rewrite Hd in Hn|]. subst q. pose proof (frames_verdict_Finished Waiting _ ltac:(done) Hq) as Hne.
      change (frames_verdict frames <> None) in Hne. by destruct (frames_verdict frames).
Qed.

(** The counters of every stream have 64 bits. *)
Lemma stream_counters deliver beats r s resp s' :
  handleUploadShardV2 h deliver beats r s = (Ok resp, s') -> rs_Status resp = 200 ->
  exists frames, rs_Body resp = Frames frames /\ Forall frame_fine frames.
Proof.
  unfold handleUploadShardV2. destruct (authorize_choice (S := S) h r (MkGrant Write None [])) as [->|[e ->]]; [|by intros [= <- _] ?%Deny_status].
  destruct (checkShardUploadLength r) as [resp'|] eqn:El; [by intros [= <- _] ?%(checkShardUploadLength_status r)|].
  destruct (upload_stream_spec h r s deliver beats) as (v & E & (q & [Hq _] & Hor) & Hrep & _). unfold first in E. rewrite E. cbn [snd].
  intros [= <- <-] _. eexists. split; [reflexivity|]. by apply (run_frames_counters Waiting) in Hq.
Qed.

(** C15: client and server agree on a streamed upload.  Of the answer to
    [POST /v2/shards] the client may get all frames or, when the connection
    breaks, the first of them.  If it reports success, the body was a valid
    shard whose files the client may write, and the store has put it and is as
    it was left by that.  If the client gets all frames, it reports success
    exactly when the server reported a result; and if the server could deliver
    every event, what the client reports is the server's own verdict. *)
Theorem verdict_agrees deliver beats r s resp s' received broken :
  handleUploadShardV2 h deliver beats r s = (Ok resp, s') -> rs_Status resp = 200 ->
  Forall (line_fits text) (body_frames (rs_Body resp)) -> received `prefix_of` body_frames (rs_Body resp) ->
  let verdict := parseShardUploadNDJSON (Reader (frames_bytes text received) broken) in
  (forall n, verdict = Ok n -> n = 1 /\
     exists sh s0 b, uploaded r = Ok sh /\ Shard_Validate sh = Ok tt /\ authorizeShardFiles h r sh = None /\ PutShard sh s0 = (Ok b, s')) /\
  (received = body_frames (rs_Body resp) ->
     (verdict = Ok 1 <-> UploadResult ∈ received) /\
     ((forall n, deliver n = Delivered) -> frames_verdict received = Some verdict)).
Proof. apply verdict_spec. Qed.
End verdict.
