(* ===== verification/CasServer.v ===== *)
(** * The client against the server

    The server's upload routes behind a network that loses requests and answers
    and has gateways that answer in its place, as the network of [CasClient];
    and what the client relies on ([honest]) from the handlers and from what
    the store promises.  [upload_reaches_store]: an upload of files through
    client, network and server ends with a store that has put a shard whose
    entries place every chunk of the files in that store. *)

From Stdlib Require Import ZArith Lia Strings.Byte Strings.String.
From stdpp Require Import gmap.
From S2P Require Import Prelude Hash Json JsonPrint Sha256 Gearhash Merkle Compression XorbEncoder XorbDecoder XorbOffsets.
From S2P Require Import Shard ShardBuild ShardCodec ShardFits Prog Storage FileSystem Plan Auth Split Server ServerProofs Upload UploadProofs UploadRun CasClient CasClientProofs CasWire.

(** ** The wire *)

Definition chunk_json (d : batchChunkDedupResult) : list (gostring * json) :=
  [(str "chunk_hash", JStr (bc_ChunkHash d)); (str "found", JBool (bc_Found d))] ++
  (if bool_decide (bc_XorbHash d = []) then [] else [(str "xorb_hash", JStr (bc_XorbHash d))]) ++
  (if bc_ChunkIndex d =? 0 then [] else [(str "chunk_index", uint (bc_ChunkIndex d))]).

(** The routes an upload uses. *)
Inductive upload_route : Type :=
  | ToHasXorb
  | ToUploadXorb
  | ToQueryChunk
  | ToQueryChunks
  | ToUploadShard
  | ToUploadShardV2 (deliver : nat -> delivery) (beats : nat -> nat).

Definition route_of (u : upload_route) : route :=
  match u with
  | ToHasXorb => RHasXorb
  | ToUploadXorb => RUploadXorb
  | ToQueryChunk => RQueryChunk
  | ToQueryChunks => RQueryChunks
  | ToUploadShard => RUploadShard
  | ToUploadShardV2 deliver beats => RUploadShardV2 deliver beats
  end.

(** What becomes of a request: it is answered, lost, answered but the answer is
    lost, or answered by a gateway. *)
Inductive weather : Type := Through | Dropped (e : error) | ReplyLost (e : error) | Gateway (status : Z).

Section world.
Context {B3 : Blake3} {S K : Type} {ST : Storage S} {KC : LocationCache K} (h : Handler).

(** The environment: the text of messages, the router, the weather, the context,
    the clock, the order of goroutines, and which errors are network errors. *)
Context (text : message -> gostring) (dispatch : call -> option (upload_route * request)).
Context (weather_at : nat -> weather) (canceled_at : nat -> option error) (clock : nat -> Z) (schedule : nat -> nat -> list nat) (network_error : error -> bool).

Definition wire_body (b : body) : list byte :=
  match b with
  | NoBody => []
  | Text s => s ++ [newline]
  | ErrText e => text (SaidErr "%v" e) ++ [newline]
  | XorbUploadResponse wasInserted => print_json (JObj [(str "was_inserted", JBool wasInserted)]) ++ [newline]
  | ShardUploadResponse result => print_json (JObj [(str "result", uint result)]) ++ [newline]
  | ChunkResults l => print_json (JObj [(str "results", JArr (map (fun d => JObj (chunk_json d)) l))]) ++ [newline]
  | Octets b => b
  | Frames l => frames_bytes text l
  | BodyV1 _ | BodyV2 _ | BodyBatch _ | Served _ _ => []
  end.

(** The store, the client's cache, and how many requests were made. *)
Record world : Type := MkWorld { w_store : S; w_cache : K; w_time : nat }.

Definition answer (req : call) (s : S) : result response * S :=
  match dispatch req with
  | Some (u, r) => serve h (route_of u) r s
  | None => (Ok (http_Error (str "404 page not found") 404), s)
  end.

Definition server_Do (req : call) : prog world reply := fun w =>
  let later s := MkWorld s (w_cache w) (Datatypes.S (w_time w)) in
  let '(res, s) := answer req (w_store w) in
  match weather_at (w_time w) with
  | Through => (match res with Ok resp => Ok (MkReply (rs_Status resp) (file_reader (wire_body (rs_Body resp)))) | Err e => Err e end, later s)
  | Dropped e => (Err e, later (w_store w))
  | ReplyLost e => (Err e, later s)
  | Gateway status => (Ok (MkReply status (file_reader [])), later (w_store w))
  end.

Definition on_cache {A} (m : prog K A) : prog world A := fun w =>
  let '(r, k) := m (w_cache w) in (r, MkWorld (w_store w) k (w_time w)).

#[global] Instance server_network : Network world := {|
  net_Do := server_Do;
  net_isNetworkError := network_error;
  net_CtxErr := fun w => (Ok (canceled_at (w_time w)), w);
  net_Now := fun w => (Ok (clock (w_time w)), w);
  net_order n := fun w => (Ok (schedule (w_time w) n), w);
|}.

#[global] Instance world_cache : LocationCache world := {|
  lc_Lookup scope hashes := on_cache (lc_Lookup scope hashes);
  lc_Store scope m := on_cache (lc_Store scope m);
|}.

(** ** What is relied on *)

(** What [mux] does with the routes of [registerRoutes]; a gateway does not
    answer 200 by itself. *)
Record routed : Prop := {
  ro_HasXorb baseURL x header u r : dispatch (MkCall (str "HEAD") (xorb_url baseURL x) header []) = Some (u, r) ->
    u = ToHasXorb /\ rq_Vars r (str "xorb_hash") = formatHash x;
  ro_UploadXorb baseURL x header data u r : dispatch (MkCall (str "POST") (xorb_url baseURL x) header data) = Some (u, r) ->
    u = ToUploadXorb /\ rq_Vars r (str "xorb_hash") = formatHash x;
  ro_QueryChunks baseURL header data u r : dispatch (MkCall (str "POST") (baseURL ++ str "/v1/chunks/default:query") header data) = Some (u, r) ->
    u = ToQueryChunks /\ rq_Body r = file_reader data;
  ro_QueryChunk baseURL x header u r : dispatch (MkCall (str "GET") (baseURL ++ str "/v1/chunks/default/" ++ formatHash x) header []) = Some (u, r) ->
    u = ToQueryChunk /\ rq_Vars r (str "chunk_hash") = formatHash x;
  ro_UploadShard baseURL header data u r : dispatch (MkCall (str "POST") (baseURL ++ str "/" ++ str "v1" ++ str "/shards") header data) = Some (u, r) ->
    u = ToUploadShard /\ rq_Body r = file_reader data /\ rq_ContentLength r = len data;
  ro_UploadShardV2 baseURL header data u r : dispatch (MkCall (str "POST") (baseURL ++ str "/" ++ str "v2" ++ str "/shards") header data) = Some (u, r) ->
    (exists deliver beats, u = ToUploadShardV2 deliver beats) /\ rq_Body r = file_reader data /\ rq_ContentLength r = len data;
  ro_Gateway k status : weather_at k = Gateway status -> status <> 200;
  ro_text m : len (escape (text m)) < 2 ^ 19;
}.

(** A stored shard that can be served: its fields fit, and it has a footer. *)
Definition servable (sh : Shard) : Prop :=
  Forall file_ok (s_Files sh) /\ Forall cas_ok (s_CASInfos sh) /\ is_Some (s_Footer sh) /\ footer_ok (the_footer 0 sh) /\ len (encoded 0 sh true) < 2 ^ 63.

Context (has : S -> XorbHash -> Prop) (says : S -> ChunkHash -> ChunkLocation -> Prop).

Definition store_keeps {A} (m : prog S A) : Prop :=
  forall s, (forall x, has s x -> has (m s).2 x) /\ (forall ch loc, says s ch loc -> says (m s).2 ch loc).

(** What the store promises while nothing is deleted. *)
Record store_ok : Prop := {
  so_HasXorb x : store_keeps (HasXorb x);
  so_PutXorb x r : store_keeps (PutXorb x r);
  so_PutShard sh : store_keeps (PutShard sh);
  so_GetShardByChunkHash ch : store_keeps (GetShardByChunkHash ch);
  so_time_Now : store_keeps time_Now;
  so_has x s s' : HasXorb x s = (Ok true, s') -> has s' x;
  so_put x r s b s' : PutXorb x r s = (Ok b, s') -> has s' x;
  so_says ch s sh s' : GetShardByChunkHash ch s = (Ok sh, s') ->
    servable sh /\ forall ch' loc, stores (stored_chunks sh) (storedHash sh ch') loc -> says s' ch' loc;
}.

Context (RO : routed) (SO : store_ok).

(** ** The handlers lose nothing *)

Lemma sk_ret {A} (a : A) : store_keeps (mret a).
Proof. done. Qed.

Lemma sk_bind {A X} (m : prog S A) (f : A -> prog S X) : store_keeps m -> (forall a, store_keeps (f a)) -> store_keeps (m ≫= f).
Proof.
  intros Hm Hf s. unfold mbind, prog_bind. destruct (Hm s) as [H1 H2]. destruct (m s) as [[a|e] s1]; [|done].
  destruct (Hf a s1) as [H3 H4]. split; intros; [by apply H3, H1|by apply H4, H2].
Qed.

Lemma sk_catch {A X} (m : prog S A) (k : A -> prog S X) e : store_keeps m -> (forall a, store_keeps (k a)) -> (forall x, store_keeps (e x)) -> store_keeps (catch m k e).
Proof.
  intros Hm Hk He s. unfold catch. destruct (Hm s) as [H1 H2]. destruct (m s) as [[a|x] s1].
  - destruct (Hk a s1) as [H3 H4]. split; intros; [by apply H3, H1|by apply H4, H2].
  - destruct (He x s1) as [H3 H4]. split; intros; [by apply H3, H1|by apply H4, H2].
Qed.

Ltac sk := repeat first
  [ apply sk_ret | apply (so_HasXorb SO) | apply (so_PutXorb SO) | apply (so_PutShard SO) | apply (so_GetShardByChunkHash SO) | apply (so_time_Now SO)
  | (apply sk_catch; [|intros ?|intros ?]) | (apply sk_bind; [|intros ?])
  | (match goal with |- store_keeps (match ?x with _ => _ end) => destruct x eqn:? end) ].

Lemma sk_authorize r g k : store_keeps k -> store_keeps (authorize h r g k).
Proof. intros Hk. unfold authorize. repeat case_match; try done. Qed.

Lemma sk_all_uploaded blocks : store_keeps (all_uploaded blocks).
Proof. induction blocks as [|cb blocks IH]; cbn [all_uploaded]; sk. done. Qed.

Lemma sk_query_chunks names : store_keeps (query_chunks names).
Proof.
  induction names as [|name names IH]; cbn [query_chunks]; [apply sk_ret|]. apply sk_bind; [unfold query_chunk; sk|intros ?]. apply sk_bind; [done|intros ?; apply sk_ret].
Qed.

(** The streamed upload. *)
Definition v2_keeps {A} (m : prog (v2state (S := S)) A) : Prop :=
  forall v, (forall x, has (v_store v) x -> has (v_store (m v).2) x) /\ (forall ch loc, says (v_store v) ch loc -> says (v_store (m v).2) ch loc).

Lemma v2_same {A} (m : prog (v2state (S := S)) A) : (forall v, v_store (m v).2 = v_store v) -> v2_keeps m.
Proof. intros Hm v. by rewrite Hm. Qed.

Lemma v2_bind {A X} (m : prog (v2state (S := S)) A) (f : A -> prog _ X) : v2_keeps m -> (forall a, v2_keeps (f a)) -> v2_keeps (m ≫= f).
Proof.
  intros Hm Hf v. unfold mbind, prog_bind. destruct (Hm v) as [H1 H2]. destruct (m v) as [[a|e] v1]; [|done].
  destruct (Hf a v1) as [H3 H4]. split; intros; [by apply H3, H1|by apply H4, H2].
Qed.

Lemma v2_catch {A X} (m : prog (v2state (S := S)) A) (k : A -> prog _ X) e : v2_keeps m -> (forall a, v2_keeps (k a)) -> (forall x, v2_keeps (e x)) -> v2_keeps (catch m k e).
Proof.
  intros Hm Hk He v. unfold catch. destruct (Hm v) as [H1 H2]. destruct (m v) as [[a|x] v1].
  - destruct (Hk a v1) as [H3 H4]. split; intros; [by apply H3, H1|by apply H4, H2].
  - destruct (He x v1) as [H3 H4]. split; intros; [by apply H3, H1|by apply H4, H2].
Qed.

Lemma v2_store {A} (m : prog S A) : store_keeps m -> v2_keeps (with_store m).
Proof. intros Hm v. unfold with_store. destruct (Hm (v_store v)) as [H1 H2]. destruct (m (v_store v)) as [r s]. done. Qed.

Lemma v2_emit f : v2_keeps (emit (S := S) f).
Proof. apply v2_same. intros v. unfold emit. by destruct (send f (v_stream v)). Qed.

Lemma v2_finish m b : v2_keeps (finishWithError (S := S) m b).
Proof. unfold finishWithError. apply v2_catch; [apply v2_emit|intros; by apply v2_same..]. Qed.

Lemma v2_check cb : v2_keeps (check_block cb).
Proof.
  unfold check_block. assert (forall f, v2_keeps (set_counters (S := S) f)) as Hset.
  { intros f. apply v2_same. intros v. unfold set_counters. by destruct (f (v_verified v) (v_total v)). }
  assert (v2_keeps (emit_progress (S := S))) as Hp by (intros v; apply v2_emit).
  apply v2_bind; [apply Hset|intros _]. apply v2_bind; [done|intros _]. apply v2_catch; [apply v2_store, (so_HasXorb SO)| |intros; by apply v2_same].
  intros [|]; [apply v2_bind; [apply Hset|done]|by apply v2_same].
Qed.

Lemma v2_decode r : v2_keeps (DecodeWithCASBlockCallback r).
Proof.
  assert (forall fuel acc rd, v2_keeps (decode_blocks_with fuel acc rd)) as Hb.
  { induction fuel as [|fuel IH]; intros acc rd; cbn [decode_blocks_with]; [by apply v2_same|]. apply v2_bind; [by apply v2_same|intros [buf rd1]].
    destruct (isBookend buf); [by apply v2_same|]. apply v2_bind; [by apply v2_same|intros [cb rd2]]. apply v2_bind; [|intros _; apply IH].
    unfold prog_wrap. apply v2_catch; [apply v2_check|intros; by apply v2_same..]. }
  unfold DecodeWithCASBlockCallback. apply v2_bind; [by apply v2_same|intros [buf rd]]. repeat case_match; try (by apply v2_same).
  apply v2_bind; [by apply v2_same|intros [files rd1]]. apply v2_bind; [apply Hb|intros [cas rd2]; by apply v2_same].
Qed.

Lemma v2_upload r : v2_keeps (upload_stream h r).
Proof.
  unfold upload_stream. apply v2_catch; [apply v2_emit|intros _|intros; by apply v2_same]. apply v2_catch; [apply v2_decode| |].
  - intros sh. unfold admit_shard. destruct (Shard_Validate sh); [|apply v2_finish]. destruct (authorizeShardFiles h r sh); [apply v2_finish|]. unfold commit_shard.
    apply v2_catch; [apply v2_emit|intros _|intros; by apply v2_same]. apply v2_catch; [apply v2_store, (so_PutShard SO)| |intros e; case_match; apply v2_finish].
    intros _. apply v2_catch; [apply v2_emit|intros _|intros; by apply v2_same]. apply v2_catch; [apply v2_emit|intros; by apply v2_same..].
  - intros e v. case_bool_decide; apply v2_finish.
Qed.

Lemma serve_keeps u r : store_keeps (serve h (route_of u) r).
Proof.
  destruct u; cbn [route_of serve].
  - unfold handleHasXorb. apply sk_authorize. sk.
  - unfold handleUploadXorb. apply sk_authorize. sk.
  - unfold handleQueryChunk. apply sk_authorize. destruct (parseHash _); [|apply sk_ret]. apply sk_catch; [apply (so_GetShardByChunkHash SO)| |intros; apply sk_ret].
    intros sh. unfold encode_response. apply sk_bind; [case_bool_decide; [apply sk_ret|apply (so_time_Now SO)]|]. intros now. destruct (ReadAll _ _ _); apply sk_ret.
  - unfold handleQueryChunksBatch. apply sk_authorize. destruct (read_body _ _); [apply sk_ret|]. destruct (Unmarshal_query _); [|apply sk_ret].
    apply sk_bind; [apply sk_query_chunks|intros; apply sk_ret].
  - unfold handleUploadShard. apply sk_authorize. destruct (checkShardUploadLength r); [apply sk_ret|]. apply sk_bind.
    + unfold storeUploadedShard. destruct (decode_upload _) as [sh|]; [|apply sk_ret]. destruct (Shard_Validate sh); [|apply sk_ret].
      destruct (authorizeShardFiles h r sh); [apply sk_ret|]. apply sk_bind; [apply sk_all_uploaded|intros [|]]; cbn [negb]; [|apply sk_ret].
      apply sk_catch; [apply (so_PutShard SO)|intros; apply sk_ret|intros e; case_match; apply sk_ret].
    + intros [[status e]|b]; apply sk_ret.
  - unfold handleUploadShardV2. apply sk_authorize. destruct (checkShardUploadLength r); [apply sk_ret|]. intros s. cbn [snd].
    apply (v2_upload r (MkV2 s _ 0 0 [] false)).
Qed.

(** ** What an answer says *)

Lemma server_200 req w resp w' :
  server_Do req w = (Ok resp, w') -> rp_Status resp = 200 ->
  exists u r hr, dispatch req = Some (u, r) /\ serve h (route_of u) r (w_store w) = (Ok hr, w_store w') /\ rs_Status hr = 200 /\
    rp_Body resp = file_reader (wire_body (rs_Body hr)).
Proof.
  unfold server_Do, answer. destruct (dispatch req) as [[u r]|] eqn:Ed.
  - destruct (serve h (route_of u) r (w_store w)) as [res s] eqn:Es. destruct (weather_at (w_time w)) eqn:Ew; [|done|done|].
    + destruct res as [hr|]; [|done]. intros [= <- <-] H. exists u, r, hr. done.
    + intros [= <- _] H. cbn in H. by destruct (ro_Gateway RO _ _ Ew).
  - destruct (weather_at (w_time w)) eqn:Ew; [by intros [= <- _]|done|done|]. intros [= <- _] H. cbn in H. by destruct (ro_Gateway RO _ _ Ew).
Qed.

Lemma authorized r g (k : prog S response) s hr s' : authorize h r g k s = (Ok hr, s') -> rs_Status hr = 200 -> k s = (Ok hr, s').
Proof. destruct (authorize_choice (S := S) h r g) as [->|[e ->]]; [done|]. by intros [= <- _] ?%Deny_status. Qed.

Lemma answered_has baseURL x header w resp w' :
  server_Do (MkCall (str "HEAD") (xorb_url baseURL x) header []) w = (Ok resp, w') -> rp_Status resp = 200 -> has (w_store w') x.
Proof.
  intros Hd H. apply server_200 in Hd as (u & r & hr & Hr & Hs & H2 & _); [|done]. apply (ro_HasXorb RO) in Hr as [-> Hv]. cbn [route_of serve] in Hs.
  unfold handleHasXorb in Hs. apply authorized in Hs; [|done]. rewrite Hv, parse_formatHash in Hs. unfold catch in Hs.
  destruct (HasXorb x (w_store w)) as [[b|] s1] eqn:Eh; injection Hs as <- Hs; [|done]. destruct b; [|done]. rewrite <- Hs. by eapply (so_has SO).
Qed.

Lemma answered_put baseURL x header data w resp w' :
  server_Do (MkCall (str "POST") (xorb_url baseURL x) header data) w = (Ok resp, w') -> rp_Status resp = 200 -> has (w_store w') x.
Proof.
  intros Hd H. apply server_200 in Hd as (u & r & hr & Hr & Hs & H2 & _); [|done]. apply (ro_UploadXorb RO) in Hr as [-> Hv]. cbn [route_of serve] in Hs.
  unfold handleUploadXorb in Hs. apply authorized in Hs; [|done]. destruct (_ <=? 0); [injection Hs as <- _; done|]. rewrite Hv, parse_formatHash in Hs. unfold catch in Hs.
  destruct (PutXorb x _ (w_store w)) as [[b|] s1] eqn:Eh; injection Hs as <- Hs; [|done]. rewrite <- Hs. by eapply (so_put SO).
Qed.

(** A place in a block has an index below the number of its chunks. *)
Lemma stores_place sh st loc : Forall cas_ok (s_CASInfos sh) -> stores (stored_chunks sh) st loc -> place_ok loc.
Proof.
  intros Hc (c & Hin & _). unfold stored_chunks in Hin. apply list_elem_of_bind in Hin as (block & Hin & Hb). rewrite Forall_forall in Hc.
  destruct (Hc block Hb) as (_ & _ & _ & Hlen & _). apply list_elem_of_fmap in Hin as ([i c'] & [= -> _] & Hin). unfold indexed in Hin.
  apply elem_of_zip_l in Hin. apply elem_of_seqZ in Hin. unfold place_ok. cbn [cl_ChunkIndex fst]. rewrite u32_small by (unfold is_u32; lia). lia.
Qed.

(** ** Batch answers *)

Lemma query_request hashes : Unmarshal_query (Marshal_query hashes) = Some (map formatHash hashes).
Proof.
  unfold Unmarshal_query, Marshal_query. rewrite (parse_print 1).
  - cbn [read_json map fst snd chunk_hashes]. assert (field_of [str "chunk_hashes"] (str "chunk_hashes") = Some (str "chunk_hashes")) as -> by (vm_compute; reflexivity).
    rewrite map_map. cbn [read_json]. assert (json_strings (map (fun x => JStr (clean_string (formatHash x))) hashes) = Some (map formatHash hashes)) as ->; [|done].
    induction hashes as [|x hashes IH]; [done|]. cbn [map json_strings]. rewrite IH. by rewrite (proj2 (escape_plain _ (formatHash_plain x))).
  - constructor. intros m ->%list_elem_of_singleton. split; [reflexivity|]. constructor. intros v Hv. apply list_elem_of_fmap in Hv as (x & -> & _). constructor.
  - vm_compute. discriminate.
Qed.

(** What is known of a result for a hash. *)
Definition result_fine (s : S) (x : ChunkHash) (d : batchChunkDedupResult) : Prop :=
  bc_ChunkHash d = formatHash x /\
  (bc_Found d = false /\ bc_XorbHash d = [] /\ bc_ChunkIndex d = 0 \/
   bc_Found d = true /\ exists loc, bc_XorbHash d = formatHash (cl_XorbHash loc) /\ bc_ChunkIndex d = cl_ChunkIndex loc /\ says s x loc /\ place_ok loc).

Lemma result_fine_keeps s s' x d : (forall ch loc, says s ch loc -> says s' ch loc) -> result_fine s x d -> result_fine s' x d.
Proof. intros Hk (H1 & [H2|(H2 & loc & H3 & H4 & H5 & H6)]); (split; [done|]); [by left|]. right. split; [done|]. exists loc. auto. Qed.

Lemma query_chunk_fine x s d s' : query_chunk (formatHash x) s = (Ok d, s') -> result_fine s' x d.
Proof.
  unfold query_chunk. rewrite parse_formatHash. unfold catch. destruct (GetShardByChunkHash x s) as [[sh|] s1] eqn:Eg; [|intros [= <- _]; split; [done|by left]].
  destruct (so_says SO x s sh s1 Eg) as [(_ & Hc & _) Hsays]. pose proof (LookupChunk_spec sh x) as Hl. destruct (LookupChunk sh x) as [loc|]; intros [= <- <-]; (split; [done|]); [right|by left].
  split; [done|]. exists loc. split; [done|]. split; [done|]. split; [by apply Hsays|by eapply stores_place].
Qed.

Lemma query_chunks_fine hashes s l s' : query_chunks (map formatHash hashes) s = (Ok l, s') -> Forall2 (result_fine s') hashes l.
Proof.
  revert s l. induction hashes as [|x hashes IH]; intros s l; cbn [map query_chunks]; [by intros [= <- _]|].
  intros Hq. unfold mbind, prog_bind in Hq. destruct (query_chunk (formatHash x) s) as [[d|] s1] eqn:Ed; [|done].
  destruct (query_chunks (map formatHash hashes) s1) as [[l'|] s2] eqn:El; [|done]. injection Hq as <- <-. constructor; [|by eapply IH].
  apply query_chunk_fine in Ed. eapply result_fine_keeps; [|exact Ed]. pose proof (proj2 (sk_query_chunks (map formatHash hashes) s1)) as Hk. by rewrite El in Hk.
Qed.

(** The item the client reads. *)
Definition item_of (d : batchChunkDedupResult) : dedupResult := MkDedup (bc_ChunkHash d) (bc_Found d) (bc_XorbHash d) (bc_ChunkIndex d).

Lemma ParseUint_print v : 0 <= v < 2 ^ 32 -> ParseUint (print_int v) 10 64 = Ok v.
Proof. intros Hv. unfold print_int. rewrite (proj2 (Z.ltb_ge _ _)) by lia. apply ParseUint_format. lia. Qed.

Lemma set_fields v d :
  set_dedup (str "chunk_hash") v d = (t ← into_string (dr_ChunkHash d) v; Some (MkDedup t (dr_Found d) (dr_XorbHash d) (dr_ChunkIndex d))) /\
  set_dedup (str "found") v d = (b ← into_bool (dr_Found d) v; Some (MkDedup (dr_ChunkHash d) b (dr_XorbHash d) (dr_ChunkIndex d))) /\
  set_dedup (str "xorb_hash") v d = (t ← into_string (dr_XorbHash d) v; Some (MkDedup (dr_ChunkHash d) (dr_Found d) t (dr_ChunkIndex d))) /\
  set_dedup (str "chunk_index") v d = (n ← into_uint32 (dr_ChunkIndex d) v; Some (MkDedup (dr_ChunkHash d) (dr_Found d) (dr_XorbHash d) n)).
Proof. repeat split. Qed.

Lemma read_item s x d : result_fine s x d -> into_dedup dedup_zero (read_json (JObj (chunk_json d))) = Some (item_of d).
Proof.
  intros (Hx & Hd). assert (clean_string (bc_ChunkHash d) = bc_ChunkHash d) as Ec by (rewrite Hx; apply escape_plain, formatHash_plain).
  set (fields := [str "chunk_hash"; str "found"; str "xorb_hash"; str "chunk_index"]).
  assert (forall name v a ms, name ∈ fields -> into_members fields set_dedup a ((name, v) :: ms) =
    match set_dedup name v a with Some a => into_members fields set_dedup a ms | None => None end) as Hf.
  { intros name v a ms Hn. cbn [into_members]. unfold field_of. by rewrite bool_decide_eq_true_2. }
  unfold into_dedup, chunk_json, item_of. fold fields. cbn [read_json into_struct map app fst snd].
  rewrite Hf by (repeat constructor). rewrite (proj1 (set_fields _ _)). cbn [into_string mbind option_bind dr_Found dr_XorbHash dr_ChunkIndex dedup_zero].
  rewrite Hf by (repeat constructor). rewrite (proj1 (proj2 (set_fields _ _))). cbn [into_bool mbind option_bind dr_ChunkHash dr_XorbHash dr_ChunkIndex]. rewrite Ec.
  destruct Hd as [(-> & -> & ->)|(-> & loc & Ex & Ei & _ & Hp)]; [reflexivity|].
  assert (bc_XorbHash d <> []) as Hne.
  { rewrite Ex. intros E. pose proof (parse_formatHash (cl_XorbHash loc)) as Hp'. rewrite E in Hp'. discriminate Hp'. }
  rewrite (bool_decide_eq_false_2 _ Hne). assert (clean_string (bc_XorbHash d) = bc_XorbHash d) as Ex' by (rewrite Ex; apply escape_plain, formatHash_plain).
  unfold place_ok in Hp. cbn [app map fst snd read_json]. rewrite Hf by (repeat constructor). rewrite (proj1 (proj2 (proj2 (set_fields _ _)))).
  cbn [into_string mbind option_bind dr_ChunkHash dr_Found dr_ChunkIndex]. rewrite Ex'. destruct (Z.eqb_spec (bc_ChunkIndex d) 0) as [E0|Hn0]; [cbn [map into_members]; by rewrite E0|].
  cbn [map fst snd read_json uint]. rewrite Hf by (repeat constructor). rewrite (proj2 (proj2 (proj2 (set_fields _ _)))). cbn [into_uint32].
  rewrite ParseUint_print by lia. by rewrite (proj2 (Z.ltb_lt _ _)) by lia.
Qed.

Lemma read_results s hashes l : Forall2 (result_fine s) hashes l ->
  decode_json (file_reader (wire_body (ChunkResults l))) = Ok (read_json (JObj [(str "results", JArr (map (fun d => JObj (chunk_json d)) l))])) /\
  into_batch (read_json (JObj [(str "results", JArr (map (fun d => JObj (chunk_json d)) l))])) = Some (map item_of l).
Proof.
  intros Hl. split.
  - unfold decode_json. cbn [file_reader rdata rend wire_body]. rewrite (parse_front 2); [done| |vm_compute; discriminate].
    constructor. intros m ->%list_elem_of_singleton. split; [reflexivity|]. constructor. intros v Hv. apply list_elem_of_fmap in Hv as (d & -> & Hd). constructor.
    apply list_elem_of_lookup in Hd as [k Hk]. destruct (Forall2_lookup_r _ _ _ _ _ Hl Hk) as (x & _ & _ & Hfine).
    unfold chunk_json. intros m Hm. repeat (apply elem_of_app in Hm as [Hm|Hm]).
    + repeat (apply elem_of_cons in Hm as [-> |Hm]; [split; [reflexivity|constructor]|]). by apply elem_of_nil in Hm.
    + case_bool_decide; [by apply elem_of_nil in Hm|]. apply list_elem_of_singleton in Hm as ->. split; [reflexivity|constructor].
    + destruct (Z.eqb_spec (bc_ChunkIndex d) 0); [by apply elem_of_nil in Hm|]. apply list_elem_of_singleton in Hm as ->. split; [reflexivity|]. constructor.
      destruct Hfine as [(_ & _ & ?)|(_ & loc & _ & -> & _ & Hp)]; [lia|]. unfold place_ok in Hp. lia.
  - unfold into_batch, into_struct. cbn [read_json map fst snd into_members]. assert (field_of [str "results"] (str "results") = Some (str "results")) as -> by (vm_compute; reflexivity).
    cbn [into_results fst snd app]. rewrite map_map. assert (into_elements [] (map (fun d => read_json (JObj (chunk_json d))) l) = Some (map item_of l, [])) as E; [|unfold into_results; cbn [fst snd app]; by rewrite E].
    clear -Hl. induction Hl as [|x d hashes l Hd _ IH]; [done|]. cbn [map into_elements]. rewrite (read_item s x) by done. cbn [mbind option_bind]. by rewrite IH.
Qed.

Lemma answered_batch baseURL hashes header w resp w' ch loc :
  server_Do (MkCall (str "POST") (baseURL ++ str "/v1/chunks/default:query") header (Marshal_query hashes)) w = (Ok resp, w') ->
  rp_Status resp = 200 -> batch_names (rp_Body resp) ch loc -> says (w_store w') ch loc /\ place_ok loc.
Proof.
  intros Hd H (v & items & item & Hv & Hb & Hin & Hf & Hch & Hx & Hidx). apply server_200 in Hd as (u & r & hr & Hr & Hs & H2 & Hbody); [|done].
  apply (ro_QueryChunks RO) in Hr as [-> Hrb]. cbn [route_of serve] in Hs. unfold handleQueryChunksBatch in Hs. apply authorized in Hs; [|done].
  rewrite Hrb in Hs. unfold read_body in Hs. cbn [file_reader rdata rend] in Hs. destruct (_ <? _); [injection Hs as <- _; done|]. rewrite bool_decide_eq_true_2 in Hs by done.
  rewrite query_request in Hs. unfold mbind, prog_bind in Hs. destruct (query_chunks (map formatHash hashes) (w_store w)) as [[l|] s1] eqn:Eq; [|done].
  injection Hs as <- <-. apply query_chunks_fine in Eq. destruct (read_results s1 hashes l Eq) as [E1 E2]. set (V := read_json (JObj _)) in E1, E2. clearbody V. cbn [rs_Body json_response] in Hbody.
  rewrite Hbody, E1 in Hv. injection Hv as <-. rewrite E2 in Hb. injection Hb as <-. apply list_elem_of_fmap in Hin as (d & -> & Hd). apply list_elem_of_lookup in Hd as [k Hk].
  destruct (Forall2_lookup_r _ _ _ _ _ Eq Hk) as (x & _ & (Ex & [(Hn & _)|(_ & loc' & E3 & E4 & Hsays & Hp)])); cbn [item_of dr_Found dr_ChunkHash dr_XorbHash dr_ChunkIndex] in *; [congruence|].
  rewrite Ex, parse_formatHash in Hch. injection Hch as <-. rewrite E3, parse_formatHash in Hx. injection Hx as Hx. assert (loc = loc') as -> by (destruct loc, loc'; cbn in *; congruence). done.
Qed.

(** ** Shards *)

Lemma ReadAll_encoded now sh : len (encoded now sh true) < 2 ^ 63 -> ReadAll (Datatypes.S (length (encoded now sh true))) (Encode now sh true) [] = Ok (encoded now sh true).
Proof.
  rewrite encoded_eq, len_app. set (f := match s_Footer sh with Some f => f | None => newFooter sh now end). intros Hsm.
  erewrite (ReadAll_sending sh true f _ 0); [done|done| |lia]. constructor; cbn; try done; try lia. left. repeat split; done.
Qed.

(** A served shard reads back as the stored one. *)
Lemma served_shard sh : servable sh ->
  exists f, Shard_decode (fun st (_ : CASBlock) => Ok st) None true tt (file_reader (encoded 0 sh true)) =
    Ok ((MkShard 200 (s_Files sh) (s_CASInfos sh) (Some f), tt), file_reader []) /\ forall ch, storedHash (MkShard 200 (s_Files sh) (s_CASInfos sh) (Some f)) ch = storedHash sh ch.
Proof.
  intros (Hf & Hc & [f Ef] & Hft & _). exists (the_footer 0 sh). split.
  - pose proof (decode_encoded (fun st (_ : CASBlock) => Ok st) 0 sh true None tt [] EOF Hf Hc (fun _ => Hft)) as H. rewrite app_nil_r in H. unfold file_reader. rewrite H.
    assert (forall bs, process_blocks (fun st (_ : CASBlock) => Ok st) tt bs = Ok tt) as ->; [|done]. intros bs. induction bs as [|b bs IH]; [done|]. exact IH.
  - intros ch. unfold storedHash. cbn [s_Footer]. unfold the_footer. rewrite Ef. done.
Qed.

Lemma encode_response_served sh (s : S) : servable sh ->
  encode_response sh s = (Ok (MkResponse 200 [(str "Content-Type", str "application/octet-stream")] (Octets (encoded 0 sh true))), s).
Proof.
  intros (_ & _ & Hf & _ & Hl). unfold encode_response. rewrite bool_decide_eq_true_2 by done. unfold mbind, prog_bind, mret, prog_ret. cbv beta iota zeta.
  change (seconds 0) with 0. by rewrite ReadAll_encoded.
Qed.

Lemma answered_shard baseURL x header w resp w' ch loc :
  server_Do (MkCall (str "GET") (baseURL ++ str "/v1/chunks/default/" ++ formatHash x) header []) w = (Ok resp, w') ->
  rp_Status resp = 200 -> shard_names (rp_Body resp) ch loc -> says (w_store w') ch loc /\ place_ok loc.
Proof.
  intros Hd H (sh' & st & rest & hashes & Hdec & Hres). apply server_200 in Hd as (u & r & hr & Hr & Hs & H2 & Hbody); [|done].
  apply (ro_QueryChunk RO) in Hr as [-> Hv]. cbn [route_of serve] in Hs. unfold handleQueryChunk in Hs. apply authorized in Hs; [|done].
  rewrite Hv, parse_formatHash in Hs. unfold catch in Hs. destruct (GetShardByChunkHash x (w_store w)) as [[sh|] s1] eqn:Eg; [|injection Hs as <- _; done].
  destruct (so_says SO x _ sh s1 Eg) as [Hserv Hsays]. pose proof Hserv as (_ & Hc & Hfoot & _ & Hlen). rewrite encode_response_served in Hs by done.
  apply pair_equal_spec in Hs as [Hhr Hw]. assert (hr = MkResponse 200 [(str "Content-Type", str "application/octet-stream")] (Octets (encoded 0 sh true))) as -> by congruence.
  cbn [rs_Body wire_body] in Hbody. destruct (served_shard sh Hserv) as (f & E & Est). rewrite Hbody, E in Hdec.
  assert (sh' = MkShard 200 (s_Files sh) (s_CASInfos sh) (Some f)) as -> by congruence. rewrite <- Hw.
  assert (stores (stored_chunks sh) (storedHash sh ch) loc) as Hst.
  { unfold ResolveChunks in Hres. apply ResolveChunks_fold in Hres. rewrite lookup_empty in Hres. destruct Hres as [(_ & Hres)|[Hn _]]; [|done].
    rewrite Est in Hres. pose proof (ChunkLocations_spec (MkShard 200 (s_Files sh) (s_CASInfos sh) (Some f)) (storedHash sh ch)) as Hcl. rewrite Hres in Hcl. exact Hcl. }
  split; [by apply Hsays|by eapply stores_place].
Qed.

Lemma LimitReader_all data : LimitReader (file_reader data) (len data) = file_reader data.
Proof. unfold LimitReader. cbn [file_reader rdata]. rewrite (proj2 (Z.leb_le _ _)) by lia. unfold len. rewrite Nat2Z.id. by rewrite firstn_all. Qed.

(** A shard of which the client sent the bytes is one the store put. *)
Definition put_from (sh : Shard) (s' : S) : Prop :=
  exists sh' s0 b, s_Files sh' = s_Files sh /\ s_CASInfos sh' = s_CASInfos sh /\ Shard_Validate sh' = Ok tt /\ PutShard sh' s0 = (Ok b, s').

Lemma put_from_decoded sh sh' s0 b s' :
  shard_fits sh -> decode_upload (file_reader (payload sh)) = Ok sh' -> Shard_Validate sh' = Ok tt -> PutShard sh' s0 = (Ok b, s') -> put_from sh s'.
Proof.
  intros (Hf & Hc & _) Hd Hv Hp. exists sh', s0, b. unfold decode_upload, payload in Hd.
  pose proof (decode_encoded (fun st (_ : CASBlock) => Ok st) 0 sh false None tt [] EOF Hf Hc) as H. rewrite app_nil_r in H. unfold file_reader in Hd. rewrite H in Hd by done.
  assert (forall bs, process_blocks (fun st (_ : CASBlock) => Ok st) tt bs = Ok tt) as E by (intros bs; induction bs as [|b' bs IH]; [done|exact IH]). rewrite E in Hd.
  cbn [mbind result_bind] in Hd. assert (sh' = MkShard 0 (s_Files sh) (s_CASInfos sh) None) as -> by congruence. done.
Qed.

Lemma sent_put version sh n w' : shard_fits sh -> shard_sent (N := world) version sh n w' -> put_from sh (w_store w').
Proof.
  intros Hfits (baseURL & header & w1 & resp & w2 & Hd & [H200 Hack] & ->). cbn [lc_Store world_cache]. unfold on_cache.
  destruct (lc_Store baseURL (ChunkLocations sh) (w_cache w2)) as [rk k]. cbn [snd w_store]. clear rk k.
  apply server_200 in Hd as (u & r & hr & Hr & Hs & H2 & Hbody); [|done]. destruct version; cbn [version_name] in Hr.
  - apply (ro_UploadShard RO) in Hr as (-> & Hrb & Hrl). cbn [route_of serve] in Hs. unfold handleUploadShard in Hs. apply authorized in Hs; [|done].
    destruct (checkShardUploadLength r) as [hr'|] eqn:El; [injection Hs as <- _; by apply checkShardUploadLength_status in El|].
    unfold mbind, prog_bind in Hs. destruct (storeUploadedShard h r (w_store w1)) as [[[[status e]|b]|] s1] eqn:Es; [| |done].
    { injection Hs as <- _. unfold storeUploadedShard in Es. exfalso. destruct (Z.eqb_spec status 0); [by apply Deny_status in H2|]. cbn in H2. subst status.
      destruct (decode_upload _); [|discriminate Es]. destruct (Shard_Validate _); [|discriminate Es]. destruct (authorizeShardFiles h r _); [discriminate Es|].
      unfold mbind, prog_bind in Es. destruct (all_uploaded _ _) as [[[|]|] s2]; cbn [negb] in Es; [|discriminate Es|discriminate Es]. unfold catch in Es. destruct (PutShard _ s2) as [[?|?] ?]; [discriminate Es|].
      destruct (errors_Is _ _); discriminate Es. }
    injection Hs as _ <-. unfold storeUploadedShard in Es. rewrite Hrb, Hrl, LimitReader_all in Es. destruct (decode_upload (file_reader (payload sh))) as [sh'|] eqn:Ed; [|discriminate Es].
    destruct (Shard_Validate sh') as [[]|] eqn:Ev; [|discriminate Es]. destruct (authorizeShardFiles h r sh'); [discriminate Es|]. unfold mbind, prog_bind in Es.
    destruct (all_uploaded _ _) as [[[|]|] s2]; cbn [negb] in Es; [|discriminate Es|discriminate Es]. unfold catch in Es. destruct (PutShard sh' s2) as [[b'|e] s3] eqn:Ep; [|destruct (errors_Is _ _); discriminate Es].
    injection Es as _ <-. by eapply put_from_decoded.
  - apply (ro_UploadShardV2 RO) in Hr as ((deliver & beats & ->) & Hrb & Hrl). cbn [route_of serve] in Hs. destruct (stream_counters h deliver beats r _ _ _ Hs H2) as (frames & Ef & Hcnt).
    assert (Forall (line_fits text) frames) as Hfit by (eapply Forall_impl; [exact Hcnt|intros f; apply lines_fit, (ro_text RO)]). rewrite Hbody, Ef in Hack. cbn [wire_body] in Hack.
    destruct (verdict_spec h text deliver beats r _ hr _ frames EOF Hs H2) as [Hok _]; [by rewrite Ef|by rewrite Ef|].
    destruct (Hok n Hack) as (_ & sh' & s0 & b & Hu & Hv & _ & Hp). unfold uploaded in Hu. rewrite Hrb, Hrl, LimitReader_all in Hu. by eapply put_from_decoded.
Qed.

(** ** The upload *)

Context {L : Lz4} {LL : Lz4Laws L} {P : ChunkBufs} (url_Parse : gostring -> option (gostring * gostring)) (c : Client world).

(** The client's provider answers without touching the store or the cache. *)
Definition provider_apart : Prop := forall resolve perm w, c_provider c = Some resolve ->
  w_store (resolve perm w).2 = w_store w /\ w_cache (resolve perm w).2 = w_cache w.

(** A cache that gives only what the store says. *)
Definition cache_true (w : world) : Prop := forall scope hashes m k (ch : ChunkHash) loc,
  lc_Lookup scope hashes (w_cache w) = (Ok m, k) -> m !! ch = Some loc -> says (w_store w) ch loc /\ place_ok loc.

Lemma server_honest : provider_apart -> honest c (fun w => has (w_store w)) (fun w => says (w_store w)) cache_true.
Proof.
  intros Hprov. assert (forall A (m : prog K A), keeps (fun w => has (w_store w)) (fun w => says (w_store w)) (on_cache m)) as Hcache.
  { intros A m w. unfold on_cache. by destruct (m (w_cache w)). }
  split; try done.
  - intros req w. cbn [net_Do server_network]. unfold server_Do, answer.
    assert (forall u r, store_keeps (serve h (route_of u) r)) as Hk by exact serve_keeps. destruct (dispatch req) as [[u r]|].
    + destruct (Hk u r (w_store w)) as [H1 H2]. destruct (serve h (route_of u) r (w_store w)) as [res s]. by destruct (weather_at (w_time w)).
    + by destruct (weather_at (w_time w)).
  - intros scope hashes. apply Hcache.
  - intros scope m. apply Hcache.
  - intros resolve perm Hr w. destruct (Hprov resolve perm w Hr) as [-> _]. done.
  - exact answered_has.
  - exact answered_put.
  - exact answered_batch.
  - exact answered_shard.
  - intros resolve perm w Hr Ht scope hashes m k ch loc. destruct (Hprov resolve perm w Hr) as [-> ->]. apply Ht.
  - intros scope hashes w m w' Ht Hl ch loc Hm. cbn [lc_Lookup world_cache] in Hl. unfold on_cache in Hl.
    destruct (lc_Lookup scope hashes (w_cache w)) as [r k] eqn:El. injection Hl as -> <-. cbn [w_store]. by eapply Ht.
Qed.

End world.
