(* ===== verification/CasCache.v ===== *)
(** * The cache of locations behind the client

    [upload.CacheManager] as the [LocationCache] of the client ([client/cache.go]
    keeps it, and a nil manager caches nothing), and what it takes for the
    client to rely on it: that the entries on disk are true. *)

From Stdlib Require Import ZArith Lia Strings.Byte Strings.String.
From stdpp Require Import gmap.
From S2P Require Import Prelude Hash Sha256 Shard ShardCodec Prog Storage FileSystem Lru UploadCache UploadCacheProofs UploadCacheRun.
From S2P Require Import CasClient CasClientProofs CasServer.

Section cache.
Context (range_map : gmap ChunkHash ChunkLocation -> list (ChunkHash * ChunkLocation)).
Context (sort_func : list diskEntry -> list diskEntry).
Context (range_perm : forall m, range_map m ≡ₚ map_to_list m) (sort_perm : forall l, sort_func l ≡ₚ l).

(** The receiver may be nil. *)
Definition with_manager {A} (m : prog CacheManager A) (none : A) : prog (option CacheManager) A := fun k =>
  match k with
  | None => (Ok none, None)
  | Some s => let '(r, s) := m s in (r, Some s)
  end.

#[export] Instance manager_cache : LocationCache (option CacheManager) := {|
  lc_Lookup scope hashes := with_manager (Lookup range_map scope hashes) ∅;
  lc_Store scope locations := with_manager (Store range_map sort_func scope locations) tt;
|}.

Context {S : Type} (says : S -> ChunkHash -> ChunkLocation -> Prop).

(** Every location on disk is one the store says. *)
Definition entries_true (s : S) (fs : fsys) : Prop :=
  forall key loc, location_at key fs = Some loc -> says s (ek_hash key) loc /\ place_ok loc.

(** A manager whose entries are true is a cache the client may rely on, ... *)
Lemma manager_cache_true (w : world (S := S) (K := option CacheManager)) ks :
  (forall m, w_cache w = Some m -> lru_has (cm_lru m) ks /\ entries_true (w_store w) (cm_fs m)) -> cache_true says w.
Proof.
  intros H scope hashes m k ch loc. cbn [lc_Lookup manager_cache]. unfold with_manager. destruct (w_cache w) as [s|].
  - destruct (H s eq_refl) as [Hl Ht]. destruct (Lookup_spec range_map sort_func range_perm sort_perm scope hashes s ks Hl) as (m' & s' & ks' & -> & _ & _ & _ & Hm & _).
    intros [= <- _] Hch. destruct (Hm ch loc Hch) as [_ Hloc]. exact (Ht _ _ Hloc).
  - intros [= <- _] Hch. by rewrite lookup_empty in Hch.
Qed.

(** ... and it stays one when locations the store says are stored in it. *)
Lemma entries_stay_true scope locations (s : S) m ks :
  lru_has (cm_lru m) ks -> entries_true s (cm_fs m) ->
  (forall h loc, locations !! h = Some loc -> says s h loc /\ place_ok loc) ->
  entries_true s (cm_fs (Store range_map sort_func scope locations m).2).
Proof.
  intros Hl Ht Hloc key loc. destruct (Store_spec range_map sort_func range_perm sort_perm scope locations m ks Hl) as (r & m' & ks' & -> & _ & _ & G & _). cbn [snd].
  unfold location_at. rewrite (entryPath_same key (cm_fs m)) by apply G. destruct (fs_files (cm_fs m') !! entryPath key (cm_fs m)) as [o|] eqn:Eo; [|done].
  apply (gr_files _ _ _ G) in Eo as [Eo|(h & loc' & Hh & -> & Ed)].
  - intros Hk. apply Ht. unfold location_at. by rewrite Eo.
  - destruct (Hloc h loc' Hh) as [Hs Hp]. cbn [mbind option_bind]. rewrite Ed, length_entry, Z.eqb_refl, decode_encode_entry by (unfold index_ok, place_ok in *; lia). by intros [= <-].
Qed.
End cache.
