(* ===== verification/CasWitness.v ===== *)
(** * An upload through client, network and server

    A store in memory that answers every lookup of a chunk with one shard,
    behind the server's handlers, a router and a network that loses the second
    request; and a file that is uploaded to it through both versions of the
    API.  It shows that what [upload_reaches_store] and [verdict_agrees] assume
    can hold. *)

From Stdlib Require Import ZArith Lia Strings.Byte Strings.String.
From stdpp Require Import gmap.
From S2P Require Import Prelude Hash Json JsonPrint Sha256 Gearhash Merkle Compression XorbEncoder XorbDecoder XorbOffsets.
From S2P Require Import Shard ShardCodec Prog Storage Memory MemoryPut FileSystem Plan Auth Split Server ServerProofs.
From S2P Require Import Upload UploadProofs UploadRun UploadWitness CasClient CasClientProofs CasWire CasServer.

(** ** A router *)

(** The last [n] bytes. *)
Definition last_bytes (n : nat) (s : gostring) : gostring := drop (length s - n) s.

Definition ends_with (suffix s : gostring) : bool := bool_decide (last_bytes (length suffix) s = suffix).

Lemma last_bytes_app s t : last_bytes (length t) (s ++ t) = t.
Proof. unfold last_bytes. rewrite length_app. replace (length s + length t - length t)%nat with (length s) by lia. apply drop_app_length. Qed.

Lemma ends_with_app s t : ends_with t (s ++ t) = true.
Proof. apply bool_decide_eq_true_2, last_bytes_app. Qed.

Lemma formatHash_no_slash x : slash ∉ formatHash x.
Proof.
  assert (forall v, slash ∉ hex16 v) as Hv.
  { intros v Hin. unfold hex16 in Hin. apply list_elem_of_fmap in Hin as (d & Hd & Hin). pose proof (be_digits_range 16 16 v ltac:(lia)) as Hr.
    rewrite Forall_forall in Hr. specialize (Hr d Hin). assert (d ∈ seqZ 0 16) as Hs by (apply elem_of_seqZ; lia).
    assert (forallb (fun d => negb (bool_decide (slash = digit_char d))) (seqZ 0 16) = true) as Hall by (vm_compute; reflexivity).
    rewrite forallb_forall in Hall. apply list_elem_of_In, Hall in Hs. rewrite bool_decide_eq_true_2 in Hs by exact Hd. discriminate Hs. }
  rewrite formatHash_segs, !elem_of_app. intros [?|[?|[?|?]]]; by eapply Hv.
Qed.

(** No suffix with a slash that is shorter than a hash ends a hash. *)
Lemma ends_not_hash suffix s x : slash ∈ suffix -> (length suffix <= 64)%nat -> ends_with suffix (s ++ formatHash x) = false.
Proof.
  intros Hin Hl. apply bool_decide_eq_false_2. intros E. apply (formatHash_no_slash x). unfold last_bytes in E. rewrite length_app, length_formatHash in E.
  rewrite drop_app_ge in E by lia. rewrite <- E in Hin. apply list_elem_of_lookup in Hin as [k Hk]. rewrite lookup_drop in Hk. by eapply list_elem_of_lookup_2.
Qed.

Lemma ends_differ a b s x y : last a = Some x -> last b = Some y -> x <> y -> ends_with a (s ++ b) = false.
Proof.
  intros Ha Hb Hne. apply bool_decide_eq_false_2. intros E. assert (last (s ++ b) = Some x) as Hx.
  { rewrite <- (take_drop (length (s ++ b) - length a) (s ++ b)). change (drop _ _) with (last_bytes (length a) (s ++ b)). by rewrite E, last_app, Ha. }
  rewrite last_app, Hb in Hx. congruence.
Qed.

(** The variables are the hash at the end. *)
Definition request_of (req : call) : request :=
  MkRequest (fun _ => last_bytes 64 (cl_URL req)) (fun name => default [] (cl_Header req !! name)) (fun _ => []) (str "cas") false (len (cl_Body req)) (file_reader (cl_Body req)).

Definition mux (req : call) : option (upload_route * request) :=
  let u :=
    if bool_decide (cl_Method req = str "HEAD") then ToHasXorb
    else if bool_decide (cl_Method req = str "GET") then ToQueryChunk
    else if ends_with (str "/v1/chunks/default:query") (cl_URL req) then ToQueryChunks
    else if ends_with (str "/v1/shards") (cl_URL req) then ToUploadShard
    else if ends_with (str "/v2/shards") (cl_URL req) then ToUploadShardV2 (fun _ => Delivered) (fun _ => 1%nat)
    else ToUploadXorb in
  Some (u, request_of req).

(** The second request is lost. *)
Definition storm (k : nat) : weather := if Nat.eqb k 1 then Dropped (Errorf "connection reset by peer") else Through.

Lemma url_hash baseURL x y : last_bytes 64 (baseURL ++ x ++ formatHash y) = formatHash y.
Proof. rewrite app_assoc, <- (length_formatHash y). apply last_bytes_app. Qed.

Lemma mux_routed : routed (fun _ => []) mux storm.
Proof.
  split; unfold mux; cbn [cl_Method cl_URL cl_Body].
  - intros baseURL x header u r [= <- <-]. split; [done|exact (url_hash baseURL (str "/v1/xorbs/default/") x)].
  - intros baseURL x header data u r [= <- <-]. unfold xorb_url. rewrite app_assoc.
    assert (forall suffix, slash ∈ suffix -> (length suffix <= 64)%nat -> ends_with suffix ((baseURL ++ str "/v1/xorbs/default/") ++ formatHash x) = false) as Hs
      by (intros; by apply ends_not_hash).
    rewrite !Hs by (first [repeat constructor | cbn; lia]). split; [done|]. rewrite <- app_assoc. exact (url_hash baseURL (str "/v1/xorbs/default/") x).
  - intros baseURL header data u r [= <- <-]. rewrite ends_with_app. done.
  - intros baseURL x header u r [= <- <-]. split; [done|exact (url_hash baseURL (str "/v1/chunks/default/") x)].
  - intros baseURL header data u r Hd. change (str "/" ++ str "v1" ++ str "/shards") with (str "/v1/shards") in Hd. rewrite (ends_with_app baseURL (str "/v1/shards")) in Hd.
    rewrite (ends_differ (str "/v1/chunks/default:query") (str "/v1/shards") baseURL "y" "s") in Hd by done. by injection Hd as <- <-.
  - intros baseURL header data u r Hd. change (str "/" ++ str "v2" ++ str "/shards") with (str "/v2/shards") in Hd. rewrite (ends_with_app baseURL (str "/v2/shards")) in Hd.
    rewrite (ends_differ (str "/v1/chunks/default:query") (str "/v2/shards") baseURL "y" "s") in Hd by done.
    assert (ends_with (str "/v1/shards") (baseURL ++ str "/v2/shards") = false) as E.
    { unfold ends_with. change (length (str "/v1/shards")) with (length (str "/v2/shards")). rewrite last_bytes_app. done. }
    rewrite E in Hd. injection Hd as <- <-. split; [by eexists _, _|done].
  - intros k status. unfold storm. by destruct (Nat.eqb k 1).
  - intros m. vm_compute. reflexivity.
Qed.

(** ** A verdict *)

Section verdict.
#[local] Instance said_b3 : Blake3 := poly_blake3.
#[local] Instance said_lz4 : Lz4 := rle_lz4.
#[local] Instance said_bufs : ChunkBufs := zero_bufs.

Lemma verdict_agrees_witness :
  exists resp s', handleUploadShardV2 open_handler (fun _ => Delivered) (fun _ => 1%nat) shard_request one_xorb = (Ok resp, s') /\
    parseShardUploadNDJSON (Reader (frames_bytes (fun _ => []) wit_frames) EOF) = Ok 1 /\
    exists sh s0 b, uploaded shard_request = Ok sh /\ PutShard sh s0 = (Ok b, s').
Proof.
  pose proof shard_uploads as E. destruct (handleUploadShardV2 _ _ _ _ one_xorb) as [[resp|e] s'] eqn:Eh; [|discriminate E]. exists resp, s'. split; [reflexivity|].
  cbn in E. assert (parseShardUploadNDJSON (Reader (frames_bytes (fun _ => []) wit_frames) EOF) = Ok 1) as V by (vm_compute; reflexivity). split; [exact V|].
  destruct (verdict_agrees open_handler (fun _ => []) (fun _ => Delivered) (fun _ => 1%nat) shard_request one_xorb resp s' wit_frames EOF Eh) as [Hok _].
  - change (rs_Status (match (@Ok response resp, s').1 with Ok r => r | Err _ => http_Error [] 0 end) = 200). rewrite <- Eh. vm_compute. reflexivity.
  - rewrite E. repeat (apply Forall_cons; split; [vm_compute; reflexivity|]). apply Forall_nil_2.
  - rewrite E. reflexivity.
  - destruct (Hok 1 V) as (_ & sh & s0 & b & H1 & _ & _ & H2). exists sh, s0, b. split; [exact H1|exact H2].
Defined.
End verdict.

(** ** A store *)

Section witness.
#[local] Instance cas_b3 : Blake3 := poly_blake3.
#[local] Instance cas_lz4 : Lz4 := rle_lz4.
#[local] Instance cas_bufs : ChunkBufs := zero_bufs.

(** The shard every lookup finds. *)
Definition listed_shard : Shard := SetFooter one_file 5.

Lemma listed_servable : servable listed_shard.
Proof.
  split; [constructor; [apply the_file_ok|constructor]|]. split; [apply one_file_cas_ok|]. split; [by eexists|]. split; [|vm_compute; reflexivity].
  repeat split; vm_compute; congruence.
Qed.

#[local] Instance listing_storage : Storage memory := {|
  storage_xorbs := storage_xorbs;
  time_Now := time_Now;
  PutXorb := PutXorb;
  HasXorb := HasXorb;
  GetXorbURL := GetXorbURL;
  WalkXorbs := @WalkXorbs memory memory_storage;
  DeleteXorb := DeleteXorb;
  PutShard := @PutShard memory memory_storage;
  GetShard := GetShard;
  GetShardByChunkHash _ := mret listed_shard;
  GetShardByHash := GetShardByHash;
  LoadShard := LoadShard;
  WalkShards := @WalkShards memory memory_storage;
  DeleteShard := DeleteShard;
  GetShardBySHA256 := GetShardBySHA256;
  GetFileHashBySHA256 := GetFileHashBySHA256;
  WalkFileIndex := @WalkFileIndex memory memory_storage;
  GetFileIndexEntry := GetFileIndexEntry;
  DeleteFileIndexEntry := DeleteFileIndexEntry;
  GetChunkIndexEntry := GetChunkIndexEntry;
  DeleteChunkIndexEntry := DeleteChunkIndexEntry;
  WalkSHA256Index := @WalkSHA256Index memory memory_storage;
  GetSHA256IndexEntry := GetSHA256IndexEntry;
  DeleteSHA256IndexEntry := DeleteSHA256IndexEntry;
|}.

Definition listing_says (_ : memory) (ch : ChunkHash) (loc : ChunkLocation) : Prop := stores (stored_chunks listed_shard) (storedHash listed_shard ch) loc.

Lemma put_preserves_xorb x kind name value : preserves (fun s => has_xorb s x) (mem_put kind name value false).
Proof.
  intros s Hs. enough (has_xorb (mem_put kind name value false s).2 x) as H by (by destruct (mem_put kind name value false s) as [[?|?] ?]).
  unfold has_xorb. rewrite mem_put_at. case_bool_decide; [by eexists|done].
Qed.

Lemma PutShard_preserves_xorb x sh : preserves (fun s => has_xorb s x) (mem_PutShard sh).
Proof.
  apply preserves_PutShard.
  - intros s Hs. cbn. unfold mem_ctx_Err. by destruct (env_err _ _).
  - intros h s Hs. cbn. unfold mem_GetXorbReadSeekCloser. by destruct (mem_get _ _ _).
  - intros h s Hs. cbn. unfold mem_GetXorbChunkOffsets. destruct (mem_get _ _ _); [|done]. by destruct (wrap_err _ _).
  - intros kind name value _. apply put_preserves_xorb.
  - intros data. apply put_preserves_xorb.
Qed.

Lemma listing_store_ok : store_ok (ST := listing_storage) has_xorb listing_says.
Proof.
  split; cbn [HasXorb PutXorb PutShard GetShardByChunkHash time_Now listing_storage memory_storage].
  - intros x s. split; [intros y Hy; exact Hy|done].
  - intros x r s. split; [|done]. intros y Hy. unfold mem_PutXorb. case_bool_decide; [done|]. destruct (validate_stream r x) as [rest|]; [|done].
    unfold has_xorb. rewrite mem_put_at. case_bool_decide; [by eexists|done].
  - intros sh s. split; [|done]. intros y Hy. pose proof (PutShard_preserves_xorb y sh s Hy) as H. by destruct (mem_PutShard sh s) as [[?|?] ?].
  - intros ch s. split; [intros y Hy; exact Hy|done].
  - intros s. split; [intros y Hy; exact Hy|done].
  - intros x s s'. apply mem_HasXorb_true.
  - intros x r s b s'. unfold mem_PutXorb. case_bool_decide as Hh; [by intros [= _ <-]|]. destruct (validate_stream r x) as [rest|]; [|done].
    intros H. apply (f_equal snd) in H. cbn [snd] in H. rewrite <- H. apply mem_put_has.
  - intros ch s sh s' [= <- <-]. split; [apply listed_servable|]. intros ch' loc Hs. exact Hs.
Qed.

(** ** The client *)

#[local] Instance map_cache : LocationCache (gmap (gostring * ChunkHash) ChunkLocation) := {|
  lc_Lookup scope hashes := fun k =>
    (Ok (foldl (fun m x => match k !! (scope, x) with Some loc => <[x := loc]> m | None => m end) ∅ hashes), k);
  lc_Store scope m := fun k => (Ok tt, foldl (fun k xl => <[(scope, xl.1) := xl.2]> k) k (map_to_list m));
|}.

Abbreviation the_world := (world (S := memory) (K := gmap (gostring * ChunkHash) ChunkLocation)).

#[local] Instance storm_network : Network the_world :=
  server_network (ST := listing_storage) open_handler (fun _ => []) mux storm (fun _ => None) (fun _ => 0) (fun _ n => seq 0 n) (fun _ => true).

Definition the_client : Client the_world := MkClient (Some (fun _ => mret (str "http://cas/", str "token"))) 1 2.
Definition the_url (_ : gostring) : option (gostring * gostring) := Some (str "http", str "cas").
Definition first_world : the_world := MkWorld empty_store ∅ 0.

Definition whole_upload (version : shardAPIVersion) : option (result (list FileHash) * the_world) :=
  upload_along (C := uploadAdapter the_url the_client (fun _ => None) version) [a_source] (fun _ => true) true 1 one_worker first_world.

Lemma empty_cache_true : cache_true listing_says first_world.
Proof.
  intros scope hashes m k ch loc Hl Hm. exfalso. cbn [lc_Lookup map_cache w_cache first_world] in Hl. injection Hl as <- _.
  assert (forall acc : gmap ChunkHash ChunkLocation, acc !! ch = None -> foldl (fun m x => match (∅ : gmap (gostring * ChunkHash) ChunkLocation) !! (scope, x) with Some loc => <[x := loc]> m | None => m end) acc hashes !! ch = None) as H.
  { clear. induction hashes as [|x hashes IH]; intros acc Ha; [done|]. cbn [foldl]. rewrite lookup_empty. by apply IH. }
  rewrite H in Hm; [discriminate Hm|apply lookup_empty].
Qed.

End witness.
