(* ===== verification/Client.v ===== *)
(** * The client's reader: [download/decode_v1.go], [decode_v2.go], [download.go]

    A client reads a reconstruction response term by term: it asks the
    prefetcher for the fetch its plan selected, reads the chunks of the term from
    it one by one, skips the offset into the first term, and, when it was given
    the file's hash, checks it at the end.  The prefetcher, its workers and its
    cache files are behind an interface: a fetch is there or fails, and a chunk
    of it is read or fails, differently at every call.  The two versions of the
    reader differ in the response they plan, not in how they read. *)

From Stdlib Require Import ZArith Lia Strings.Byte Strings.String.
From stdpp Require Import gmap.
From S2P Require Import Prelude Hash Sha256 Gearhash Merkle Compression XorbEncoder XorbDecoder XorbOffsets.
From S2P Require Import Shard Prog Storage Plan.

(** ** The prefetcher, as the reader sees it *)

Record chunkRef : Type := MkChunkRef { ref_size : Z; ref_hash : ChunkHash; ref_hashed : bool }.

(** [Get], [readChunk] with the bytes it leaves in [buf], and [Close]. *)
Class ChunkSource (C : Type) : Type := {
  src_Get : fetchKey -> prog C unit;
  src_readChunk : fetchKey -> Z -> prog C (chunkRef * list byte);
  src_Close : C -> C;
}.

(** An [io.Writer]. *)
Class Writer (W : Type) : Type := { w_Write : list byte -> W -> Z * option error * W }.

(** ** [download.go] *)

Record fileVerifier : Type := MkVerifier { v_expected : FileHash; v_hashes : list ChunkHash; v_sizes : list Z }.

Definition newFileVerifier (expectedHash : option FileHash) (offsetIntoFirstRange : Z) : result (option fileVerifier) :=
  match expectedHash with
  | None => Ok None
  | Some h =>
      if negb (offsetIntoFirstRange =? 0)
      then Err (Errorf "cannot verify file hash: reconstruction starts at offset %d")
      else Ok (Some (MkVerifier h [] []))
  end.

Section client.
Context {B3 : Blake3}.

Definition verifier_add (v : fileVerifier) (m : chunkRef) (data : list byte) : fileVerifier :=
  let hash := if negb (ref_hashed m) then ComputeChunkHash data else ref_hash m in
  MkVerifier (v_expected v) (v_hashes v ++ [hash]) (v_sizes v ++ [len data]).

Definition verifier_verify (v : fileVerifier) : option error :=
  match ComputeFileHash (v_hashes v) (v_sizes v) with
  | Err e => Some e
  | Ok got => if bool_decide (got <> v_expected v) then Some (Errorf "file hash mismatch: expected %s, got %s") else None
  end.

Definition writeChunk {W} `{Writer W} (chunk : list byte) (w : W) : Z * option error * W :=
  let '(n, err, w) := w_Write chunk w in
  let '(n, err) :=
    if (n <? 0) || (len chunk <? n)
    then (0, match err with None => Some (Errorf "invalid write result") | Some e => Some e end)
    else (n, err) in
  let err := match err with None => if n <? len chunk then Some ErrShortWrite else None | Some e => Some e end in
  (n, err, w).

(** ** [decode_v1.go] *)

Record ReaderV1 : Type := MkReaderV1 {
  cl_terms : list Term;
  cl_skipBytes : Z;
  cl_termFetches : list selectedFetch;
  cl_prefetcher : bool;
  cl_verifier : option fileVerifier;
  cl_termIdx : Z;
  cl_chunkIdx : Z;
  cl_chunk : list byte;
  cl_currentTerm : option Term;
  cl_currentCache : option fetchKey;
  cl_localStart : Z;
  cl_localEnd : Z;
  cl_err : option error;
}.

(** [NewReaderV1], [NewReaderV2]; the options are a cache manager, present or not,
    and an expected hash.  Starting the prefetcher may fail. *)
Definition new_reader (cache : bool) (expectedHash : option FileHash) (offset : Z) (terms : list Term)
    (plan : result (list selectedFetch * list fetchTask)) (started : result unit) : result ReaderV1 :=
  if negb cache then Err (Errorf "no cache manager provided")
  else
    verifier ← newFileVerifier expectedHash offset;
    '(termFetches, _) ← wrap_err "plan reader: %w" plan;
    _ ← wrap_err "initialize prefetcher: %w" started;
    Ok (MkReaderV1 terms offset termFetches true verifier 0 0 [] None None 0 0 None).

Definition NewReaderV1 (cache : bool) (expectedHash : option FileHash) (r : ReconstructionResponseV1) (started : result unit) :
    result ReaderV1 :=
  new_reader cache expectedHash (r1_OffsetIntoFirstRange r) (r1_Terms r) (planReaderV1 r) started.

Definition NewReaderV2 (cache : bool) (expectedHash : option FileHash) (r : ReconstructionResponseV2) (started : result unit) :
    result ReaderV1 :=
  new_reader cache expectedHash (r2_OffsetIntoFirstRange r) (r2_Terms r) (planReaderV2 r) started.

Section source.
Context {C : Type} {CS : ChunkSource C}.

Definition cleanup (r : ReaderV1) (c : C) : ReaderV1 * C :=
  (MkReaderV1 (cl_terms r) (cl_skipBytes r) (cl_termFetches r) false (cl_verifier r) (cl_termIdx r) (cl_chunkIdx r) []
     None None (cl_localStart r) (cl_localEnd r) (cl_err r),
   if cl_prefetcher r then src_Close c else c).

Definition set_err (e : error) (r : ReaderV1) : ReaderV1 :=
  MkReaderV1 (cl_terms r) (cl_skipBytes r) (cl_termFetches r) (cl_prefetcher r) (cl_verifier r) (cl_termIdx r) (cl_chunkIdx r)
    (cl_chunk r) (cl_currentTerm r) (cl_currentCache r) (cl_localStart r) (cl_localEnd r) (Some e).

(** [Close]. *)
Definition Close (r : ReaderV1) (c : C) : ReaderV1 * C :=
  let '(r, c) := cleanup r c in
  (match cl_err r with None => set_err ErrClosed r | Some _ => r end, c).

Definition finishCurrentTerm (r : ReaderV1) : ReaderV1 :=
  match cl_currentTerm r with
  | None => r
  | Some _ =>
      MkReaderV1 (cl_terms r) (cl_skipBytes r) (cl_termFetches r) (cl_prefetcher r) (cl_verifier r) (cl_termIdx r + 1) (cl_chunkIdx r)
        (cl_chunk r) None (cl_currentCache r) (cl_localStart r) (cl_localEnd r) (cl_err r)
  end.

(** [loadTerm], for a term and its fetch. *)
Definition loadTerm (r : ReaderV1) (term : Term) (selected : selectedFetch) (c : C) : result ReaderV1 * C :=
  match src_Get (sf_key selected) c with
  | (Err e, c) => (Err (Wrapf "download xorb: %w" e), c)
  | (Ok _, c) =>
      let localStart := u32 (cr_Start (t_Range term) - sf_chunkStart selected) in
      let localEnd := u32 (cr_End (t_Range term) - sf_chunkStart selected) in
      (Ok (MkReaderV1 (cl_terms r) (cl_skipBytes r) (cl_termFetches r) (cl_prefetcher r) (cl_verifier r) (cl_termIdx r) localStart
         (cl_chunk r) (Some term) (Some (sf_key selected)) localStart localEnd (cl_err r)), c)
  end.

(** The current term, loaded if it is not. *)
Definition ensure_term (r : ReaderV1) (term : Term) (c : C) : result ReaderV1 * C :=
  match cl_currentTerm r with
  | Some _ => (Ok r, c)
  | None =>
      match cl_termFetches r !! Z.to_nat (cl_termIdx r) with
      | Some selected => loadTerm r term selected c
      | None => (Err (Panic "index out of range"), c)
      end
  end.

(** A chunk was read: the part of [fill] after [readChunk]. *)
Definition take_chunk (ref : chunkRef) (data : list byte) (r : ReaderV1) : ReaderV1 :=
  let size := ref_size ref in
  let verifier := match cl_verifier r with Some v => Some (verifier_add v ref data) | None => None end in
  let skip := if (cl_termIdx r =? 0) && (0 <? cl_skipBytes r) then Z.min (cl_skipBytes r) size else 0 in
  MkReaderV1 (cl_terms r) (i64 (cl_skipBytes r - skip)) (cl_termFetches r) (cl_prefetcher r) verifier (cl_termIdx r)
    (u32 (cl_chunkIdx r + 1)) (drop (Z.to_nat skip) data) (cl_currentTerm r) (cl_currentCache r) (cl_localStart r)
    (cl_localEnd r) (cl_err r).

(** An error in [fill]: it sticks. *)
Definition fill_fail (e : error) (r : ReaderV1) (c : C) : option error * ReaderV1 * C :=
  let '(r, c) := cleanup (set_err e r) c in (Some e, r, c).

(** [fill]. *)
Fixpoint fill (fuel : nat) (r : ReaderV1) (c : C) : option error * ReaderV1 * C :=
  match fuel with
  | O => (Some (Panic "out of fuel"), r, c)
  | Datatypes.S fuel =>
      if bool_decide (cl_chunk r <> []) then (None, r, c)
      else
        match cl_terms r !! Z.to_nat (cl_termIdx r) with
        | None =>
            match match cl_verifier r with Some v => verifier_verify v | None => None end with
            | Some e => fill_fail e r c
            | None => let '(r, c) := cleanup r c in (Some EOF, r, c)
            end
        | Some term =>
            let '(loaded, c) := ensure_term r term c in
            match loaded with
            | Err e => fill_fail e r c
            | Ok r =>
                if cl_localEnd r <=? cl_chunkIdx r then fill fuel (finishCurrentTerm r) c
                else
                  match cl_currentCache r with
                  | None => (Some (Panic "nil pointer"), r, c)
                  | Some key =>
                      match src_readChunk key (cl_chunkIdx r) c with
                      | (Err e, c) => fill_fail e r c
                      | (Ok (ref, data), c) => fill fuel (take_chunk ref data r) c
                      end
                  end
            end
        end
  end.

(** One turn of the loop for every chunk of a term, and one to finish it. *)
Definition term_turns (t : Term) (sel : selectedFetch) : nat :=
  Datatypes.S (Z.to_nat (u32 (cr_End (t_Range t) - sf_chunkStart sel) - u32 (cr_Start (t_Range t) - sf_chunkStart sel))).

Definition turns (terms : list Term) (fetches : list selectedFetch) : nat :=
  list_sum (zip_with term_turns terms fetches).

Definition fill_fuel (r : ReaderV1) : nat := Datatypes.S (Datatypes.S (turns (cl_terms r) (cl_termFetches r))).

Definition drop_chunk (n : Z) (r : ReaderV1) : ReaderV1 :=
  MkReaderV1 (cl_terms r) (cl_skipBytes r) (cl_termFetches r) (cl_prefetcher r) (cl_verifier r) (cl_termIdx r) (cl_chunkIdx r)
    (drop (Z.to_nat n) (cl_chunk r)) (cl_currentTerm r) (cl_currentCache r) (cl_localStart r) (cl_localEnd r) (cl_err r).

(** The loop of [Read] into a buffer of [plen] bytes; [got] is what it holds. *)
Fixpoint read_turns (fuel : nat) (plen : Z) (got : list byte) (r : ReaderV1) (c : C) : list byte * option error * ReaderV1 * C :=
  if len got <? plen then
    match fuel with
    | O => (got, Some (Panic "out of fuel"), r, c)
    | Datatypes.S fuel =>
        match fill (fill_fuel r) r c with
        | (Some err, r, c) =>
            if (0 <? len got) && bool_decide (err <> EOF) then (got, None, r, c) else (got, Some err, r, c)
        | (None, r, c) =>
            let copied := Z.min (plen - len got) (len (cl_chunk r)) in
            read_turns fuel plen (got ++ take (Z.to_nat copied) (cl_chunk r)) (drop_chunk copied r) c
        end
    end
  else (got, None, r, c).

(** [Read]. *)
Definition Read (plen : Z) (r : ReaderV1) (c : C) : list byte * option error * ReaderV1 * C :=
  match cl_err r with
  | Some e => ([], Some e, r, c)
  | None => read_turns (Z.to_nat plen) plen [] r c
  end.

(** [WriteTo]. *)
Fixpoint write_turns {W} `{Writer W} (fuel : nat) (n : Z) (r : ReaderV1) (c : C) (w : W) :
    Z * option error * ReaderV1 * C * W :=
  match fuel with
  | O => (n, Some (Panic "out of fuel"), r, c, w)
  | Datatypes.S fuel =>
      match fill (fill_fuel r) r c with
      | (Some err, r, c) => (n, if bool_decide (err = EOF) then None else Some err, r, c, w)
      | (None, r, c) =>
          let '(written, err, w) := writeChunk (cl_chunk r) w in
          let r := drop_chunk written r in
          let n := i64 (n + written) in
          match err with
          | Some e => (n, Some e, r, c, w)
          | None => write_turns fuel n r c w
          end
      end
  end.

Definition WriteTo {W} `{Writer W} (r : ReaderV1) (c : C) (w : W) : Z * option error * ReaderV1 * C * W :=
  match cl_err r with
  | Some e => (0, Some e, r, c, w)
  | None => write_turns (fill_fuel r) 0 r c w
  end.
End source.
End client.

(** ** What a reader has read *)

(** The bytes a reader gives out of the chunks it has read, term by term: the
    offset is skipped in the first term. *)
Definition given (offset : Z) (groups : list (list (list byte))) : list byte :=
  match groups with
  | [] => []
  | g :: groups => drop (Z.to_nat offset) (concat g) ++ concat (concat groups)
  end.

Lemma given_nil_r offset groups : given offset (groups ++ [[]]) = given offset groups.
Proof.
  destruct groups as [|g groups]; cbn [app given concat]; [by rewrite drop_nil|]. by rewrite concat_app, concat_app, app_nil_r.
Qed.

Lemma given_snoc offset done cur d :
  0 <= offset -> given offset (done ++ [cur ++ [d]]) =
    given offset (done ++ [cur]) ++
    drop (Z.to_nat (if bool_decide (done = []) then Z.min (Z.max 0 (offset - len (concat cur))) (len d) else 0)) d.
Proof.
  intros Ho. destruct done as [|g done]; cbn [app given].
  - rewrite bool_decide_eq_true_2 by done. cbn [concat]. rewrite !app_nil_r, concat_app. cbn [concat]. rewrite app_nil_r.
    rewrite drop_app. f_equal. destruct (Z_le_gt_dec (offset - len (concat cur)) (len d)) as [H|H].
    + f_equal. unfold len in *. lia.
    + rewrite !drop_ge; [done|unfold len in *; lia..].
  - rewrite bool_decide_eq_false_2 by done. rewrite drop_0, <- app_assoc. f_equal.
    rewrite !(concat_app done). cbn [concat]. rewrite !app_nil_r, !concat_app. cbn [concat]. by rewrite app_nil_r, app_assoc.
Qed.

Section reading.
Context {B3 : Blake3} {C : Type} {CS : ChunkSource C}.
Context (terms : list Term) (fetches : list selectedFetch) (offset : Z) (expected : option FileHash).
Context (Q : selectedFetch -> Z -> list byte -> Prop).
Hypothesis same_length : length fetches = length terms.
Hypothesis offset_range : 0 <= offset < 2 ^ 63.

(** A source that hands out chunks it has decoded. *)
Hypothesis src_ok : forall sel idx c ref data c', sel ∈ fetches ->
  src_readChunk (sf_key sel) idx c = (Ok (ref, data), c') ->
  Q sel idx data /\ ref_size ref = len data /\ len data < 2 ^ 62 /\ (ref_hashed ref = true -> ref_hash ref = ComputeChunkHash data).

Definition lStart (t : Term) (sel : selectedFetch) : Z := u32 (cr_Start (t_Range t) - sf_chunkStart sel).
Definition lEnd (t : Term) (sel : selectedFetch) : Z := u32 (cr_End (t_Range t) - sf_chunkStart sel).

(** The chunks read of a term. *)
Definition part_group (t : Term) (sel : selectedFetch) (ds : list (list byte)) : Prop :=
  len ds <= Z.max 0 (lEnd t sel - lStart t sel) /\ forall j d, ds !! j = Some d -> Q sel (lStart t sel + Z.of_nat j) d.

Definition group_of (t : Term) (sel : selectedFetch) (ds : list (list byte)) : Prop :=
  part_group t sel ds /\ len ds = Z.max 0 (lEnd t sel - lStart t sel).

(** The groups read of the terms so far. *)
Definition groups_at (n : nat) (groups : list (list (list byte))) : Prop :=
  length groups = n /\ forall i ds, groups !! i = Some ds ->
    exists t sel, terms !! i = Some t /\ fetches !! i = Some sel /\ group_of t sel ds.

Definition verifier_of (cs : list (list byte)) : option fileVerifier :=
  match expected with
  | None => None
  | Some h => Some (MkVerifier h (map ComputeChunkHash cs) (map len cs))
  end.

(** The reader, having given [out]; [done] are the chunks of the finished terms and
    [cur] those read of the current one. *)
Record reading (r : ReaderV1) (out : list byte) (done : list (list (list byte))) (cur : list (list byte)) : Prop := {
  ra_terms : cl_terms r = terms;
  ra_fetches : cl_termFetches r = fetches;
  ra_err : cl_err r = None;
  ra_idx : cl_termIdx r = len done;
  ra_done : groups_at (length done) done;
  ra_len : (length done <= length terms)%nat;
  ra_cur : match cl_currentTerm r with
    | None => cur = []
    | Some _ => exists t sel, terms !! length done = Some t /\ fetches !! length done = Some sel /\
        cl_currentCache r = Some (sf_key sel) /\ cl_localEnd r = lEnd t sel /\ cl_chunkIdx r = lStart t sel + len cur /\ part_group t sel cur
    end;
  ra_verifier : cl_verifier r = verifier_of (concat done ++ cur);
  ra_skip : done = [] -> cl_skipBytes r = Z.max 0 (offset - len (concat cur));
  ra_out : out ++ cl_chunk r = given offset (done ++ [cur]);
}.

Lemma lStart_range t sel : 0 <= lStart t sel < 2 ^ 32.
Proof. unfold lStart, u32. apply Z.mod_pos_bound. lia. Qed.

Lemma lEnd_range t sel : 0 <= lEnd t sel < 2 ^ 32.
Proof. unfold lEnd, u32. apply Z.mod_pos_bound. lia. Qed.

(** *** The moves of [fill] *)

Lemma reading_finish r out done cur t :
  reading r out done cur -> cl_currentTerm r = Some t -> cl_localEnd r <= cl_chunkIdx r -> reading (finishCurrentTerm r) out (done ++ [cur]) [].
Proof.
  intros [H1 H2 H3 H4 H5 H6 H7 H8 H9 H10] Et He. rewrite Et in H7. destruct H7 as (t' & sel & Ht & Hs & _ & Hle & Hci & Hp).
  unfold finishCurrentTerm. rewrite Et. split; cbn; [done..| | | |done| | |].
  - rewrite H4, len_app, len_cons, len_nil. lia.
  - rewrite length_app. cbn. split; [rewrite length_app; cbn; lia|]. intros i ds.
    intros [Hi|[? Hi]]%lookup_app_Some; [by apply H5|]. apply list_lookup_singleton_Some in Hi as [Ei <-].
    assert (i = length done) as -> by lia. exists t', sel. split; [done|]. split; [done|]. split; [done|].
    destruct Hp as [Hp _]. rewrite Hle, Hci in He. pose proof (len_nonneg cur). lia.
  - rewrite length_app. cbn. apply lookup_lt_Some in Ht. lia.
  - rewrite H8. f_equal. rewrite concat_app. cbn. by rewrite !app_nil_r.
  - intros E. by apply app_eq_nil in E as [_ ?].
  - rewrite H10. by rewrite given_nil_r.
Qed.

Lemma reading_load r out done cur t sel c r' c' :
  reading r out done cur -> cl_currentTerm r = None -> terms !! length done = Some t -> fetches !! length done = Some sel ->
  loadTerm r t sel c = (Ok r', c') -> reading r' out done [] /\ cl_currentTerm r' = Some t /\ cl_chunk r' = cl_chunk r.
Proof.
  intros [H1 H2 H3 H4 H5 H6 H7 H8 H9 H10] Et Ht Hs. unfold loadTerm. destruct (src_Get _ c) as [[[]|] c1]; [|done].
  intros [= <- <-]. rewrite Et in H7. subst cur. split; [|done]. split; cbn; [done..| |done|done|done].
  exists t, sel. fold (lStart t sel) (lEnd t sel). rewrite (@len_nil (list byte)), Z.add_0_r. split_and!; try done.
  split; [rewrite (@len_nil (list byte)); lia|]. intros j d Hj. by rewrite lookup_nil in Hj.
Qed.

Lemma reading_take r out done cur t key ref data c c' :
  reading r out done cur -> cl_currentTerm r = Some t -> cl_chunk r = [] -> cl_currentCache r = Some key ->
  cl_chunkIdx r < cl_localEnd r -> src_readChunk key (cl_chunkIdx r) c = (Ok (ref, data), c') ->
  reading (take_chunk ref data r) out done (cur ++ [data]) /\ cl_chunkIdx (take_chunk ref data r) = cl_chunkIdx r + 1.
Proof.
  intros [H1 H2 H3 H4 H5 H6 H7 H8 H9 H10] Et Ech Ek Hlt Hread. rewrite Et in H7.
  destruct H7 as (t' & sel & Ht & Hs & Hk & Hle & Hci & Hp). rewrite Hk in Ek. injection Ek as <-.
  destruct (src_ok sel (cl_chunkIdx r) c ref data c') as (HQ & Hsz & Hd & Hh); [by eapply list_elem_of_lookup_2|done|].
  pose proof (lEnd_range t' sel). pose proof (lStart_range t' sel). pose proof (len_nonneg cur). pose proof (len_nonneg data).
  assert (u32 (cl_chunkIdx r + 1) = cl_chunkIdx r + 1) as Hu by (apply u32_small; unfold is_u32; lia).
  split; [|exact Hu]. pose proof (len_nonneg (concat cur)).
  set (skip := if (cl_termIdx r =? 0) && (0 <? cl_skipBytes r) then Z.min (cl_skipBytes r) (ref_size ref) else 0).
  assert (skip = if bool_decide (done = []) then Z.min (Z.max 0 (offset - len (concat cur))) (len data) else 0) as Hskip.
  { unfold skip. rewrite H4, Hsz. case_bool_decide as Ed.
    - rewrite Ed, len_nil. cbn [Z.eqb andb]. rewrite (H9 Ed). destruct (Z.ltb_spec 0 (Z.max 0 (offset - len (concat cur)))); lia.
    - destruct (Z.eqb_spec (len done) 0) as [E%len_0_nil|]; [done|]. done. }
  split; cbn; [done..| | | |].
  - rewrite Et. exists t', sel. rewrite Hu, len_app, len_cons, (@len_nil (list byte)). split_and!; try done; [lia|].
    split; [rewrite len_app, len_cons, (@len_nil (list byte)); lia|]. intros j d [Hj|[Hj1 Hj]]%lookup_app_Some; [by apply Hp|].
    apply list_lookup_singleton_Some in Hj as [Ej <-]. replace (Z.of_nat j) with (len cur) by (unfold len; lia). by rewrite <- Hci.
  - rewrite H8. unfold verifier_of, verifier_add. destruct expected as [h|]; [|done]. cbn. f_equal. f_equal.
    + rewrite app_assoc, (map_app _ (concat done ++ cur)). cbn. f_equal. f_equal. destruct (ref_hashed ref); [by apply Hh|done].
    + rewrite app_assoc, (map_app _ (concat done ++ cur)). done.
  - intros Ed. fold skip. rewrite (H9 Ed), Hskip, bool_decide_eq_true_2, concat_app, len_app by done. cbn. rewrite app_nil_r.
    rewrite i64_small by (unfold is_i64; lia). lia.
  - fold skip. rewrite given_snoc, <- H10, Ech, app_nil_r by lia. by rewrite Hskip.
Qed.

(** Turns left: those of the current term and of the later ones. *)
Definition left (r : ReaderV1) : nat :=
  let n := Z.to_nat (cl_termIdx r) in
  match cl_currentTerm r with
  | Some _ => Datatypes.S (Z.to_nat (cl_localEnd r - cl_chunkIdx r)) + turns (drop (Datatypes.S n) terms) (drop (Datatypes.S n) fetches)
  | None => turns (drop n terms) (drop n fetches)
  end.

Lemma turns_drop n t sel :
  terms !! n = Some t -> fetches !! n = Some sel ->
  turns (drop n terms) (drop n fetches) = (term_turns t sel + turns (drop (Datatypes.S n) terms) (drop (Datatypes.S n) fetches))%nat.
Proof. intros Ht Hs. by rewrite (drop_S terms t n Ht), (drop_S fetches sel n Hs). Qed.

Lemma verify_spec cs h :
  match verifier_verify (MkVerifier h (map ComputeChunkHash cs) (map len cs)) with
  | None => ComputeFileHash (map ComputeChunkHash cs) (map len cs) = Ok h
  | Some e => e <> EOF /\ ComputeFileHash (map ComputeChunkHash cs) (map len cs) <> Ok h
  end.
Proof.
  unfold verifier_verify. cbn [v_hashes v_sizes v_expected]. destruct (ComputeFileHash _ _) as [got|e] eqn:E.
  - case_bool_decide as Hb; [split; [done|]; congruence|]. by destruct (decide (got = h)) as [->|].
  - exfalso. unfold ComputeFileHash in E. destruct (_ =? _); [done|]. destruct (ComputeXorbHash _ _) as [x|e'] eqn:Ex; [done|].
    apply ComputeXorbHash_fail in Ex. by rewrite !length_map in Ex.
Qed.

Lemma cleanup_reading r c out done :
  reading r out done [] -> cl_chunk r = [] -> reading (cleanup r c).1 out done [].
Proof. intros [H1 H2 H3 H4 H5 H6 H7 H8 H9 H10] Ech. split; cbn; [done..|]. by rewrite <- H10, Ech. Qed.

Lemma left_bound r out done cur : reading r out done cur -> (left r <= turns terms fetches)%nat.
Proof.
  intros [H1 H2 H3 H4 H5 H6 H7 H8 H9 H10]. unfold left. rewrite H4, to_nat_len.
  assert (forall n, (turns (drop n terms) (drop n fetches) <= turns terms fetches)%nat) as Hd.
  { clear. intros n. revert fetches. generalize terms. induction n as [|n IH]; intros [|t ts] [|s ss]; cbn [drop]; try done.
    - unfold turns. rewrite zip_with_nil_r. cbn. lia.
    - specialize (IH ts ss). change (turns (t :: ts) (s :: ss)) with (term_turns t s + turns ts ss)%nat. lia. }
  destruct (cl_currentTerm r) as [t0|]; [|apply Hd]. destruct H7 as (t & sel & Ht & Hs & _ & Hle & Hci & _).
  specialize (Hd (length done)). rewrite (turns_drop _ _ _ Ht Hs) in Hd. unfold term_turns in Hd. fold (lStart t sel) (lEnd t sel) in Hd.
  rewrite Hle, Hci. pose proof (len_nonneg cur). lia.
Qed.

(** *** [fill] *)

(** What goes wrong: the source fails, or the file has another hash. *)
Definition trouble : Prop :=
  (exists sel c e c', sel ∈ fetches /\ src_Get (sf_key sel) c = (Err e, c')) \/
  (exists i t sel idx c e c', terms !! i = Some t /\ fetches !! i = Some sel /\ lStart t sel <= idx < lEnd t sel /\
     src_readChunk (sf_key sel) idx c = (Err e, c')) \/
  (exists h groups, expected = Some h /\ groups_at (length terms) groups /\
     ComputeFileHash (map ComputeChunkHash (concat groups)) (map len (concat groups)) <> Ok h).

(** The read of a chunk reports [io.EOF] as its error: [readChunk] hands on what
    [os.File.ReadAt] says of a cache file that ends before the chunk does. *)
Definition short : Prop :=
  exists sel idx c c', sel ∈ fetches /\ src_readChunk (sf_key sel) idx c = (Err EOF, c').

(** The whole response was read, and has the hash that was expected. *)
Definition complete (groups : list (list (list byte))) : Prop :=
  groups_at (length terms) groups /\
  forall h, expected = Some h -> ComputeFileHash (map ComputeChunkHash (concat groups)) (map len (concat groups)) = Ok h.

(** The chunks read when a reader stops: whole terms and a part of the next. *)
Definition partial (groups : list (list (list byte))) : Prop :=
  exists done cur, groups = done ++ [cur] /\ groups_at (length done) done /\
    (cur = [] \/ exists t sel, terms !! length done = Some t /\ fetches !! length done = Some sel /\ part_group t sel cur).

Definition so_far (out : list byte) : Prop := exists groups, partial groups /\ out `prefix_of` given offset groups.

Lemma reading_partial r out done cur : reading r out done cur -> so_far out.
Proof.
  intros [H1 H2 H3 H4 H5 H6 H7 H8 H9 H10]. exists (done ++ [cur]). split; [|rewrite <- H10; by exists (cl_chunk r)].
  exists done, cur. split; [done|]. split; [done|]. destruct (cl_currentTerm r); [right|by left].
  destruct H7 as (t' & sel & Ht & Hs & _ & _ & _ & Hp). by exists t', sel.
Qed.

Inductive filled (out : list byte) : option error -> ReaderV1 -> Prop :=
| filled_chunk r done cur : cl_chunk r <> [] -> reading r out done cur -> filled out None r
| filled_end r groups : reading r out groups [] -> cl_chunk r = [] -> complete groups -> filled out (Some EOF) r
| filled_error r e : (e = EOF -> short) -> cl_err r = Some e -> trouble -> so_far out -> filled out (Some e) r.

Lemma fill_fail_filled out e r c :
  (e = EOF -> short) -> trouble -> so_far out -> filled out (fill_fail e r c).1.1 (fill_fail e r c).1.2.
Proof. intros He Ht Hs. by apply filled_error. Qed.

(** The end of the terms. *)
Lemma fill_end r c out done :
  reading r out done [] -> cl_chunk r = [] -> length done = length terms ->
  let res := match match cl_verifier r with Some v => verifier_verify v | None => None end with
    | Some e => fill_fail e r c
    | None => let '(r, c) := cleanup r c in (Some EOF, r, c)
    end in
  filled out res.1.1 res.1.2.
Proof.
  intros Hr Ech Hd. pose proof (ra_verifier _ _ _ _ Hr) as Hv. pose proof (ra_done _ _ _ _ Hr) as Hg. rewrite Hd in Hg.
  rewrite app_nil_r in Hv. rewrite Hv. unfold verifier_of. destruct expected as [h|] eqn:Ee.
  - pose proof (verify_spec (concat done) h) as Hs. destruct (verifier_verify _) as [e|]; cbn zeta.
    + apply fill_fail_filled; [by intros ->; destruct Hs| |by eapply reading_partial]. right. right. exists h, done. split; [done|]. split; [done|]. apply Hs.
    + apply (filled_end _ _ done); [by apply (cleanup_reading r c)|done|]. split; [done|]. intros h'. rewrite Ee. by intros [= <-].
  - apply (filled_end _ _ done); [by apply (cleanup_reading r c)|done|]. split; [done|]. intros h'. by rewrite Ee.
Qed.

(** The current term, loaded or not. *)
Lemma ensure_term_spec r c out done cur term :
  reading r out done cur -> cl_chunk r = [] -> terms !! length done = Some term ->
  match ensure_term r term c with
  | (Ok r1, _) => exists cur1 t, reading r1 out done cur1 /\ cl_currentTerm r1 = Some t /\ cl_chunk r1 = [] /\ (left r1 <= left r)%nat
  | (Err e, _) => e <> EOF /\ trouble
  end.
Proof.
  intros Hr Ech Et. pose proof Hr as [_ H2 _ H4 _ _ _ _ _ _]. unfold ensure_term.
  destruct (cl_currentTerm r) as [t|] eqn:Ect; [by exists cur, t|]. rewrite H2, H4, to_nat_len.
  destruct (lookup_lt_is_Some_2 fetches (length done)) as [sel Es]; [rewrite same_length; by eapply lookup_lt_Some|]. rewrite Es.
  destruct (loadTerm r term sel c) as [[r1|e] c1] eqn:El.
  - destruct (reading_load _ _ _ _ _ _ _ _ _ Hr Ect Et Es El) as (Hr1 & Ec1 & Ech1). exists [], term. split; [done|]. split; [done|].
    split; [congruence|]. unfold left at 2. rewrite Ect, H4, to_nat_len, (turns_drop _ _ _ Et Es).
    pose proof Hr1 as [_ _ _ I4 _ _ I7 _ _ _]. rewrite Ec1 in I7. destruct I7 as (t2 & s2 & Ht2 & Hs2 & _ & Hle & Hci & _).
    assert (t2 = term /\ s2 = sel) as [-> ->] by (split; congruence). unfold left. rewrite Ec1, I4, to_nat_len, Hle, Hci.
    unfold term_turns. fold (lStart term sel) (lEnd term sel). rewrite (@len_nil (list byte)), Z.add_0_r. lia.
  - unfold loadTerm in El. destruct (src_Get _ c) as [[?|e'] c2] eqn:Eg; [done|]. injection El as <- <-. split; [done|].
    left. exists sel, c, e', c2. split; [by eapply list_elem_of_lookup_2|done].
Qed.

Lemma fill_spec fuel r c out done cur :
  reading r out done cur -> (left r < fuel)%nat ->
  filled out (fill fuel r c).1.1 (fill fuel r c).1.2 /\
  ((fill fuel r c).1.1 = None -> cl_chunk r = [] -> left (fill fuel r c).1.2 < left r)%nat.
Proof.
  revert r c done cur. induction fuel as [|fuel IH]; intros r c done cur Hr Hf; [lia|]. cbn [fill].
  case_bool_decide as Ech; [split; [by eapply filled_chunk|done]|].
  pose proof Hr as [H1 _ _ H4 _ H6 H7 _ _ _]. rewrite H1, H4, to_nat_len.
  destruct (terms !! length done) as [term|] eqn:Et.
  2: { apply lookup_ge_None in Et. assert (length done = length terms) as Hd by lia.
       assert (cur = []) as ->. { destruct (cl_currentTerm r) as [t0|]; [|done]. by destruct H7 as (t & sel & Ht & _). }
       pose proof (fill_end r c out done Hr Ech Hd) as He. cbn zeta in He. split; [exact He|].
       destruct (match cl_verifier r with Some _ => _ | None => _ end); done. }
  pose proof (ensure_term_spec r c out done cur term Hr Ech Et) as Hl. destruct (ensure_term r term c) as [[r1|e] c1].
  2: { destruct Hl as [He Htr]. split; [|done]. by apply fill_fail_filled; [intros ->|done|eapply reading_partial]. }
  destruct Hl as (cur1 & t1 & Hr1 & Ec1 & Ech1 & Hl1). destruct (Z.leb_spec (cl_localEnd r1) (cl_chunkIdx r1)) as [Hle|Hlt].
  - pose proof (reading_finish _ _ _ _ _ Hr1 Ec1 Hle) as Hr2.
    assert (left (finishCurrentTerm r1) < left r1)%nat as Hl2.
    { unfold left, finishCurrentTerm. rewrite Ec1. cbn. rewrite (ra_idx _ _ _ _ Hr1).
      replace (Z.to_nat (len done + 1)) with (Datatypes.S (Z.to_nat (len done))) by (unfold len; lia). lia. }
    destruct (IH (finishCurrentTerm r1) c1 _ _ Hr2) as [F L]; [lia|]. split; [done|]. intros E1 _. specialize (L E1).
    assert (cl_chunk (finishCurrentTerm r1) = []) as E2 by (unfold finishCurrentTerm; by rewrite Ec1). specialize (L E2). lia.
  - pose proof Hr1 as [_ _ _ I4 _ _ I7 _ _ _]. rewrite Ec1 in I7. destruct I7 as (t2 & s2 & Ht2 & Hs2 & Hk & Hle & Hci & Hpg).
    rewrite Hk. destruct (src_readChunk (sf_key s2) (cl_chunkIdx r1) c1) as [[[ref data]|e] c2] eqn:Erd.
    + destruct (reading_take _ _ _ _ _ _ _ _ _ _ Hr1 Ec1 Ech1 Hk Hlt Erd) as [Hr2 Hci2].
      assert (left (take_chunk ref data r1) < left r1)%nat as Hl2.
      { unfold left. cbn [take_chunk cl_currentTerm cl_termIdx cl_localEnd]. rewrite Ec1, Hci2. lia. }
      destruct (IH (take_chunk ref data r1) c2 _ _ Hr2) as [F L]; [lia|]. split; [done|]. intros E1 _.
      destruct (decide (cl_chunk (take_chunk ref data r1) = [])) as [E2|E2]; [specialize (L E1 E2); lia|].
      destruct fuel; [done|]. cbn [fill]. rewrite bool_decide_eq_true_2 by done. cbn. lia.
    + split; [|done]. apply fill_fail_filled; [| |by eapply reading_partial].
      { intros ->. exists s2, (cl_chunkIdx r1), c1, c2. split; [by eapply list_elem_of_lookup_2|done]. }
      right. left. exists (length done), t2, s2, (cl_chunkIdx r1), c1, e, c2. pose proof (len_nonneg cur1). split_and!; try done; lia.
Qed.

Lemma fill_fuel_enough r out done cur : reading r out done cur -> (left r < fill_fuel r)%nat.
Proof.
  intros Hr. pose proof (left_bound _ _ _ _ Hr). pose proof Hr as [H1 H2 _ _ _ _ _ _ _ _]. unfold fill_fuel. rewrite H1, H2. lia.
Qed.

(** At the end [fill] keeps reporting it. *)
Lemma fill_ended r c out groups :
  reading r out groups [] -> cl_chunk r = [] -> complete groups ->
  exists r' c', fill (fill_fuel r) r c = (Some EOF, r', c') /\ reading r' out groups [] /\ cl_chunk r' = [].
Proof.
  intros Hr Ech [Hg Hv]. pose proof Hr as [H1 _ _ H4 _ _ _ H8 _ _]. unfold fill_fuel. cbn [fill].
  rewrite bool_decide_eq_false_2 by auto. rewrite H1, H4, to_nat_len, (proj1 Hg), lookup_ge_None_2 by lia.
  rewrite H8, app_nil_r. unfold verifier_of. destruct expected as [h|].
  - pose proof (verify_spec (concat groups) h) as Hs. destruct (verifier_verify _) as [e|].
    + exfalso. by apply Hs, Hv.
    + eexists _, _. split; [done|]. split; [by apply (cleanup_reading r c)|done].
  - eexists _, _. split; [done|]. split; [by apply (cleanup_reading r c)|done].
Qed.

Lemma reading_drop r out done cur n :
  reading r out done cur -> 0 <= n <= len (cl_chunk r) ->
  reading (drop_chunk n r) (out ++ take (Z.to_nat n) (cl_chunk r)) done cur.
Proof. intros [H1 H2 H3 H4 H5 H6 H7 H8 H9 H10] Hn. split; cbn; [done..|]. by rewrite <- app_assoc, take_drop. Qed.

(** *** [Read] *)

(** What [Read] may do: it fills the buffer, or it reaches the end, or something is
    wrong and it will say so at the latest the next time. *)
Inductive read_out (plen : Z) (out : list byte) : list byte -> option error -> ReaderV1 -> Prop :=
| read_full r data done cur : len data = plen -> reading r (out ++ data) done cur -> read_out plen out data None r
| read_end r data groups : len data < plen -> reading r (out ++ data) groups [] -> cl_chunk r = [] -> complete groups ->
    read_out plen out data (Some EOF) r
| read_error r data err e : (e = EOF -> short) -> cl_err r = Some e -> err = None \/ err = Some e -> trouble -> so_far (out ++ data) ->
    read_out plen out data err r.

Lemma read_turns_spec fuel plen got r c out done cur :
  reading r (out ++ got) done cur -> len got <= plen -> plen - len got <= Z.of_nat fuel ->
  let '(data, err, r', _) := read_turns fuel plen got r c in read_out plen out data err r'.
Proof.
  revert got r c done cur. induction fuel as [|fuel IH]; intros got r c done cur Hr Hl Hf; cbn [read_turns];
    (destruct (Z.ltb_spec (len got) plen); [|eapply read_full; [lia|exact Hr]]); [lia|].
  destruct (fill_spec _ r c _ _ _ Hr (fill_fuel_enough _ _ _ _ Hr)) as [F _].
  destruct (fill (fill_fuel r) r c) as [[e r1] c1]. cbn [fst snd] in F. destruct F as [r1 done1 cur1 Hne Hr1|r1 groups Hr1 Ech Hc|r1 e He Hce Ht Hs].
  - set (copied := Z.min (plen - len got) (len (cl_chunk r1))).
    assert (0 < len (cl_chunk r1)) as Hpos.
    { pose proof (len_nonneg (cl_chunk r1)). destruct (Z.eq_dec (len (cl_chunk r1)) 0) as [E%len_0_nil|]; [done|lia]. }
    pose proof (reading_drop _ _ _ _ copied Hr1 ltac:(lia)) as Hr2. rewrite <- app_assoc in Hr2.
    assert (len (take (Z.to_nat copied) (cl_chunk r1)) = copied) as Ec by (unfold len in *; rewrite length_take; lia).
    eapply IH; [exact Hr2|rewrite len_app; lia|rewrite len_app; lia].
  - rewrite bool_decide_eq_false_2, andb_false_r by auto. by eapply read_end.
  - destruct (_ && _); eapply read_error; eauto.
Qed.

Lemma Read_spec plen r c out done cur :
  reading r out done cur -> 0 <= plen -> let '(data, err, r', _) := Read plen r c in read_out plen out data err r'.
Proof.
  intros Hr Hp. unfold Read. rewrite (ra_err _ _ _ _ Hr).
  apply (read_turns_spec _ _ [] r c out done cur); [by rewrite app_nil_r|by rewrite (@len_nil byte)|rewrite (@len_nil byte); lia].
Qed.

(** At the end there is nothing more. *)
Lemma Read_ended plen r c out groups :
  reading r out groups [] -> cl_chunk r = [] -> complete groups -> 0 <= plen ->
  exists r' c', Read plen r c = ([], if 0 <? plen then Some EOF else None, r', c') /\ reading r' out groups [] /\ cl_chunk r' = [].
Proof.
  intros Hr Ech Hc Hp. unfold Read. rewrite (ra_err _ _ _ _ Hr). destruct (Z.ltb_spec 0 plen).
  - destruct (Z.to_nat plen) as [|fuel] eqn:Ef; [lia|]. cbn [read_turns]. rewrite (@len_nil byte), (proj2 (Z.ltb_lt 0 plen)) by lia.
    destruct (fill_ended r c out groups Hr Ech Hc) as (r' & c' & -> & Hr' & Ech'). cbn. by exists r', c'.
  - assert (plen = 0) as -> by lia. cbn. by exists r, c.
Qed.

(** *** Any use of a reader *)

Inductive cop : Type := CRead (plen : Z) | CClose.

Definition sized (op : cop) : Prop := match op with CRead plen => 0 <= plen | CClose => True end.

Fixpoint run (ops : list cop) (r : ReaderV1) (c : C) : list (list byte * option error) :=
  match ops with
  | [] => []
  | CRead plen :: ops => let '(data, err, r, c) := Read plen r c in (data, err) :: run ops r c
  | CClose :: ops => let '(r, c) := Close r c in ([], None) :: run ops r c
  end.

(** The error a reader is left with. *)
Fixpoint run_err (ops : list cop) (r : ReaderV1) (c : C) : option error :=
  match ops with
  | [] => cl_err r
  | CRead plen :: ops => let '(_, _, r, c) := Read plen r c in run_err ops r c
  | CClose :: ops => let '(r, c) := Close r c in run_err ops r c
  end.

Lemma run_err_sticks ops r c e : cl_err r = Some e -> run_err ops r c = Some e.
Proof.
  revert r c. induction ops as [|[plen|] ops IH]; intros r c He; cbn [run_err]; [done| |].
  - unfold Read. rewrite He. by apply IH.
  - apply IH. cbn. by rewrite He.
Qed.

(** A reader with an error gives nothing. *)
Lemma run_dead ops r c e :
  cl_err r = Some e -> forall data err, (data, err) ∈ run ops r c -> data = [] /\ (err = None \/ err = Some e).
Proof.
  revert r c. induction ops as [|[plen|] ops IH]; intros r c He data err; cbn [run]; [by intros ?%not_elem_of_nil| |].
  - unfold Read. rewrite He. intros [[= -> ->]|Hin]%elem_of_cons; [auto|by eapply IH].
  - intros [[= -> ->]|Hin]%elem_of_cons; [auto|]. eapply IH; [|exact Hin]. cbn. by rewrite He.
Qed.

Lemma concat_nil_fst (l : list (list byte * option error)) : (forall data err, (data, err) ∈ l -> data = []) -> concat (map fst l) = [].
Proof.
  induction l as [|[d e] l IH]; intros H; [done|]. cbn. rewrite (H d e) by left. apply IH. intros d' e' Hin. eapply H. by right.
Qed.

Lemma run_ended ops r c out groups :
  Forall sized ops -> reading r out groups [] -> cl_chunk r = [] -> complete groups -> concat (map fst (run ops r c)) = [].
Proof.
  intros Hop. revert r c. induction Hop as [|[plen|] ops Hp _ IH]; intros r c Hr Ech Hc; cbn [run]; [done| |].
  - destruct (Read_ended plen r c out groups Hr Ech Hc Hp) as (r' & c' & -> & Hr' & Ech'). cbn. by apply IH.
  - cbn. apply concat_nil_fst. intros data err Hin. eapply run_dead in Hin as [-> _]; [done|]. cbn. by rewrite (ra_err _ _ _ _ Hr).
Qed.

(** What a reader gives is a part of what its source holds, and all of it, with the
    right hash, if it reports the end and not that a chunk was cut short. *)
Lemma run_safe ops r c out done cur :
  Forall sized ops -> reading r out done cur ->
  so_far (out ++ concat (map fst (run ops r c))) /\
  (forall data, (data, Some EOF) ∈ run ops r c ->
     (exists groups, complete groups /\ out ++ concat (map fst (run ops r c)) = given offset groups) \/
     (run_err ops r c = Some EOF /\ short)).
Proof.
  intros Hop. revert r c out done cur. induction Hop as [|[plen|] ops Hp Hops IH]; intros r c out done cur Hr; cbn [run run_err].
  - cbn. rewrite app_nil_r. split; [by eapply reading_partial|]. by intros data ?%not_elem_of_nil.
  - pose proof (Read_spec plen r c out done cur Hr Hp) as HR. destruct (Read plen r c) as [[[data err] r1] c1]. cbn [map fst concat].
    rewrite app_assoc. destruct HR as [r1 data done1 cur1 Hl Hr1|r1 data groups Hl Hr1 Ech Hc|r1 data err e He Hce Herr Ht Hs].
    + destruct (IH r1 c1 _ _ _ Hr1) as [I1 I2]. split; [done|]. intros d [?|Hin]%elem_of_cons; [done|]. by eapply I2.
    + rewrite (run_ended ops r1 c1 _ groups Hops Hr1 Ech Hc), app_nil_r. split; [by eapply reading_partial|].
      intros _ _. left. exists groups. split; [done|]. pose proof (ra_out _ _ _ _ Hr1) as Ho. rewrite Ech, app_nil_r, given_nil_r in Ho. done.
    + rewrite concat_nil_fst, app_nil_r by (intros d e' Hin; by eapply run_dead in Hin as [-> _]). split; [done|].
      intros d Hin. right. rewrite (run_err_sticks _ _ _ _ Hce). apply elem_of_cons in Hin as [[= _ E]|Hin].
      * destruct Herr as [->| ->]; [done|]. injection E as <-. by split; [|apply He].
      * destruct (run_dead _ _ _ _ Hce _ _ Hin) as [_ [?|E]]; [done|]. injection E as <-. by split; [|apply He].
  - cbn [map fst concat app Close cleanup]. set (r1 := match cl_err _ with Some _ => _ | None => _ end).
    assert (cl_err r1 = Some ErrClosed) as He by (unfold r1; cbn; by rewrite (ra_err _ _ _ _ Hr)).
    rewrite concat_nil_fst, app_nil_r by (intros d e' Hin; by eapply run_dead in Hin as [-> _]). split; [by eapply reading_partial|].
    intros d [?|Hin]%elem_of_cons; [done|]. by destruct (run_dead _ _ _ _ He _ _ Hin) as [_ [?|?]].
Qed.

(** ** A source that holds the chunks *)
Section served.
Context (full : list (list (list byte))).
Hypothesis Q_fun : forall sel idx d d', Q sel idx d -> Q sel idx d' -> d = d'.
Hypothesis full_groups : groups_at (length terms) full.

(** Two readings of a term's chunks are prefixes of one another. *)
Lemma part_group_prefix t sel ds gs : part_group t sel ds -> group_of t sel gs -> ds `prefix_of` gs.
Proof.
  intros [Hl1 H1] [[_ H2] Hl2]. exists (drop (length ds) gs). rewrite <- (take_drop (length ds) gs) at 1. f_equal.
  apply list_eq_same_length with (n := length ds); [done|rewrite length_take; unfold len in *; lia|].
  intros i d d' Hi Hd Hd'. apply lookup_take_Some in Hd as [Hd _]. eapply Q_fun; [by apply H2|by apply H1].
Qed.

Lemma groups_at_take n groups : groups_at n groups -> (n <= length terms)%nat -> groups = take n full.
Proof.
  intros [Hn Hg] Hle. destruct full_groups as [Hf Hfg]. apply list_eq_same_length with (n := n); [by rewrite length_take; lia|done|].
  intros i ds ds' Hi H1 H2. rewrite lookup_take_lt in H2 by done. destruct (Hg i ds H1) as (t & sel & Ht & Hs & G1).
  destruct (Hfg i ds' H2) as (t' & sel' & Ht' & Hs' & G2). assert (t' = t /\ sel' = sel) as [-> ->] by (split; congruence).
  pose proof (part_group_prefix _ _ _ _ (proj1 G1) G2) as [k ->]. destruct G1 as [_ L1]. destruct G2 as [_ L2]. rewrite len_app in L2.
  assert (k = []) as -> by (apply len_0_nil; lia). by rewrite app_nil_r.
Qed.

Lemma given_app g gs hs : given offset ((g :: gs) ++ hs) = given offset (g :: gs) ++ concat (concat hs).
Proof. cbn [app given]. by rewrite !concat_app, app_assoc. Qed.

Lemma partial_prefix groups : partial groups -> given offset groups `prefix_of` given offset full.
Proof.
  intros (done & cur & -> & Hd & Hcur). destruct full_groups as [Hf Hfg].
  assert (cur = [] \/ exists g, full !! length done = Some g /\ cur `prefix_of` g) as Hcur'.
  { destruct Hcur as [->|(t & sel & Ht & Hs & Hp)]; [by left|right]. destruct (lookup_lt_is_Some_2 full (length done)) as [g Hg];
      [rewrite Hf; by eapply lookup_lt_Some|]. exists g. split; [done|]. destruct (Hfg _ _ Hg) as (t' & sel' & Ht' & Hs' & G).
    assert (t' = t /\ sel' = sel) as [-> ->] by (split; congruence). by eapply part_group_prefix. }
  assert (length done <= length terms)%nat as Hle.
  { destruct (decide (length done <= length terms)%nat) as [|Hn]; [done|]. destruct Hd as [_ Hd].
    destruct (lookup_lt_is_Some_2 done (length terms)) as [ds Hds]; [lia|]. destruct (Hd _ _ Hds) as (t & _ & Ht & _).
    apply lookup_lt_Some in Ht. lia. }
  pose proof (groups_at_take _ _ Hd Hle) as Hdone. rewrite <- (take_drop (length done) full), <- Hdone.
  destruct Hcur' as [->|(g & Hg & [k ->])].
  - rewrite given_nil_r. destruct done as [|g done]; [apply prefix_nil|]. rewrite given_app. by eexists.
  - rewrite (drop_S _ _ _ Hg). destruct done as [|g done].
    + cbn [app given concat]. rewrite !app_nil_r, concat_app, drop_app, <- app_assoc. by eexists.
    + rewrite !given_app. cbn [concat]. rewrite !app_nil_r, !concat_app, <- !app_assoc, app_assoc. by eexists.
Qed.

Lemma so_far_prefix out : so_far out -> out `prefix_of` given offset full.
Proof. intros (groups & Hp & Ho). etransitivity; [exact Ho|by apply partial_prefix]. Qed.

Lemma complete_full groups : complete groups -> groups = full.
Proof. intros [Hg _]. rewrite (groups_at_take _ _ Hg) by done. rewrite take_ge; [done|]. destruct full_groups. lia. Qed.

(** A reader over the bytes themselves. *)
Fixpoint bytes_run (D : list byte) (closed : bool) (ops : list cop) : list (list byte * option error) :=
  match ops with
  | [] => []
  | CRead plen :: ops =>
      if closed then ([], Some ErrClosed) :: bytes_run D closed ops
      else
        (take (Z.to_nat plen) D, if len D <? plen then Some EOF else None) :: bytes_run (drop (Z.to_nat plen) D) closed ops
  | CClose :: ops => ([], None) :: bytes_run D true ops
  end.

Lemma bytes_run_closed D r c ops : cl_err r = Some ErrClosed -> run ops r c = bytes_run D true ops.
Proof.
  revert r c. induction ops as [|[plen|] ops IH]; intros r c He; cbn [run bytes_run]; [done| |].
  - unfold Read. rewrite He. f_equal. by apply IH.
  - cbn. f_equal. apply IH. cbn. by rewrite He.
Qed.

Lemma run_refines ops r c out D done cur :
  ~ trouble -> Forall sized ops -> reading r out done cur -> given offset full = out ++ D -> run ops r c = bytes_run D false ops.
Proof.
  intros Hnt Hop. revert r c out D done cur. induction Hop as [|[plen|] ops Hp _ IH]; intros r c out D dn cur Hr HD; cbn [run bytes_run]; [done| |].
  - pose proof (Read_spec plen r c out dn cur Hr Hp) as HR. destruct (Read plen r c) as [[[data err] r1] c1].
    destruct HR as [r1 data done1 cur1 Hl Hr1|r1 data groups Hl Hr1 Ech Hc|r1 data err e He Hce Herr Ht Hs]; [| |done].
    + destruct (so_far_prefix _ (reading_partial _ _ _ _ Hr1)) as [D' HD']. rewrite HD, <- app_assoc in HD'. apply app_inv_head in HD' as ->.
      rewrite <- Hl, to_nat_len, take_app_length, drop_app_length, (proj2 (Z.ltb_ge _ _)) by (rewrite len_app; pose proof (len_nonneg D'); lia).
      f_equal. eapply IH; [exact Hr1|]. by rewrite <- app_assoc.
    + pose proof (complete_full _ Hc) as ->. pose proof (ra_out _ _ _ _ Hr1) as Ho. rewrite Ech, app_nil_r, given_nil_r, HD in Ho.
      apply app_inv_head in Ho as ->. rewrite (proj2 (Z.ltb_lt _ _)), take_ge, drop_ge by (unfold len in *; lia). f_equal.
      eapply IH; [exact Hr1|]. by rewrite app_nil_r.
  - cbn. f_equal. apply bytes_run_closed. cbn. by rewrite (ra_err _ _ _ _ Hr).
Qed.

(** *** [WriteTo] into a writer that takes everything *)
Section writing.
Context {W : Type} {WR : Writer W} (written : W -> list byte).
Hypothesis takes : forall chunk w, exists w', w_Write chunk w = (len chunk, None, w') /\ written w' = written w ++ chunk.

Lemma writeChunk_takes chunk w : exists w', writeChunk chunk w = (len chunk, None, w') /\ written w' = written w ++ chunk.
Proof.
  destruct (takes chunk w) as (w' & E & Hw). unfold writeChunk. rewrite E. pose proof (len_nonneg chunk).
  rewrite (proj2 (Z.ltb_ge (len chunk) 0)), Z.ltb_irrefl by lia. cbn. rewrite Z.ltb_irrefl. by exists w'.
Qed.

Lemma write_turns_spec fuel n r c w out D dn cur :
  ~ trouble -> len (given offset full) < 2 ^ 62 -> n = len out -> reading r out dn cur -> given offset full = out ++ D ->
  (left r + (if bool_decide (cl_chunk r = []) then 0 else 1) < fuel)%nat ->
  exists r' c' w', write_turns fuel n r c w = (n + len D, None, r', c', w') /\ written w' = written w ++ D.
Proof.
  intros Hnt Hb. revert n r c w out D dn cur. induction fuel as [|fuel IH]; intros n r c w out D dn cur -> Hr HD Hf; [lia|]. cbn [write_turns].
  destruct (fill_spec _ r c _ _ _ Hr (fill_fuel_enough _ _ _ _ Hr)) as [F L].
  assert (cl_chunk r <> [] -> (fill (fill_fuel r) r c).1.2 = r) as Hsame by (intros H; unfold fill_fuel; cbn [fill]; by rewrite bool_decide_eq_true_2).
  destruct (fill (fill_fuel r) r c) as [[e r1] c1]. cbn [fst snd] in *.
  destruct F as [r1 dn1 cur1 Hne Hr1|r1 groups Hr1 Ech Hc|r1 e He Hce Ht Hs]; [| |done].
  - destruct (writeChunk_takes (cl_chunk r1) w) as (w1 & -> & Hw1).
    pose proof (reading_drop _ _ _ _ (len (cl_chunk r1)) Hr1 ltac:(pose proof (len_nonneg (cl_chunk r1)); lia)) as Hr2.
    rewrite to_nat_len, firstn_all in Hr2. destruct (so_far_prefix _ (reading_partial _ _ _ _ Hr2)) as [D' HD'].
    pose proof HD' as HD2. rewrite HD, <- app_assoc in HD'. apply app_inv_head in HD' as ->.
    pose proof (len_nonneg out). pose proof (len_nonneg (cl_chunk r1)). rewrite HD, !len_app in Hb. pose proof (len_nonneg D').
    rewrite i64_small by (unfold is_i64; lia). assert (cl_chunk (drop_chunk (len (cl_chunk r1)) r1) = []) as Ed by (cbn; by rewrite to_nat_len, drop_all).
    assert (left (drop_chunk (len (cl_chunk r1)) r1) = left r1) as El by done.
    destruct (IH (len (out ++ cl_chunk r1)) (drop_chunk (len (cl_chunk r1)) r1) c1 w1 (out ++ cl_chunk r1) D' dn1 cur1) as (r' & c' & w' & E & Hw');
      [done|exact Hr2|exact HD2| |].
    { rewrite bool_decide_eq_true_2, El by done. case_bool_decide as Ech; [specialize (L eq_refl Ech); lia|]. rewrite <- (Hsame Ech) in Hf. lia. }
    rewrite <- len_app, E. exists r', c', w'. split; [|by rewrite Hw', Hw1, app_assoc].
    assert (len (out ++ cl_chunk r1) + len D' = len out + len (cl_chunk r1 ++ D')) as -> by (rewrite !len_app; lia). done.
  - pose proof (complete_full _ Hc) as ->. pose proof (ra_out _ _ _ _ Hr1) as Ho. rewrite Ech, app_nil_r, given_nil_r, HD in Ho.
    rewrite <- (app_nil_r out) in Ho at 1. apply app_inv_head in Ho as <-. rewrite bool_decide_eq_true_2 by done.
    rewrite (@len_nil byte), Z.add_0_r, app_nil_r. by exists r1, c1, w.
Qed.
End writing.
End served.
End reading.

(** ** A new reader *)

Section start.
Context {B3 : Blake3} {C : Type} {CS : ChunkSource C}.

Lemma new_reader_reading cache expected offset terms plan started r Q :
  0 <= offset -> new_reader cache expected offset terms plan started = Ok r ->
  exists tasks, plan = Ok (cl_termFetches r, tasks) /\
    reading terms (cl_termFetches r) offset expected Q r [] [] [] /\ (forall h, expected = Some h -> offset = 0).
Proof.
  intros Ho. unfold new_reader. destruct cache; [|done]. destruct (newFileVerifier expected offset) as [v|] eqn:Ev; [|done].
  cbn [mbind result_bind negb]. destruct plan as [[fetches tasks]|]; [|done]. cbn [wrap_err mbind result_bind].
  destruct started as [[]|]; [|done]. cbn [wrap_err mbind result_bind]. intros [= <-]. exists tasks. split; [done|].
  assert (v = verifier_of expected [] /\ forall h, expected = Some h -> offset = 0) as [-> Hz].
  { unfold newFileVerifier in Ev. destruct expected as [h|]; [|by injection Ev as <-]. destruct (Z.eqb_spec offset 0); [|done].
    by injection Ev as <-. }
  split; [|done]. split; cbn; try done.
  - lia.
  - intros _. rewrite (@len_nil byte). lia.
  - by rewrite drop_nil.
Qed.

Lemma plan_terms_length select terms fetches tasks : plan_terms select terms = Ok (fetches, tasks) -> length fetches = length terms.
Proof.
  revert fetches tasks. induction terms as [|t terms IH]; intros fetches tasks; cbn [plan_terms]; [by intros [= <- <-]|].
  destruct (select t) as [[[chunks url] span]|]; [|done]. cbn [mbind result_bind]. destruct (checkFetchRange _ _ _); [|done].
  cbn [mbind result_bind]. destruct (plan_terms select terms) as [[sel ts]|] eqn:E; [|done]. cbn [mbind result_bind].
  intros [= <- <-]. cbn. f_equal. by eapply IH.
Qed.

(** A source that says truly what the chunks it hands out are, whatever they are. *)
Definition truthful : Prop :=
  forall key idx c ref data c', src_readChunk key idx c = (Ok (ref, data), c') ->
    ref_size ref = len data /\ len data < 2 ^ 62 /\ (ref_hashed ref = true -> ref_hash ref = ComputeChunkHash data).

(** *** The chunks of the xorbs *)
Section chunks.
Context (xc : XorbHash -> list (list byte)).

Definition chunk_of (sel : selectedFetch) (idx : Z) (d : list byte) : Prop :=
  exists h, fk_Hash (sf_key sel) = formatHash h /\ 0 <= sf_chunkStart sel + idx /\ xc h !! Z.to_nat (sf_chunkStart sel + idx) = Some d.

Lemma chunk_of_fun sel idx d d' : chunk_of sel idx d -> chunk_of sel idx d' -> d = d'.
Proof. intros (h & Hh & _ & H1) (h' & Hh' & _ & H2). rewrite Hh in Hh'. apply formatHash_inj in Hh' as <-. congruence. Qed.

Definition term_group (t : Term) : list (list byte) :=
  match parseHash (t_Hash t) with Ok h => slice (cr_Start (t_Range t)) (cr_End (t_Range t)) (xc h) | Err _ => [] end.

Lemma term_group_content t : concat (term_group t) = term_content xc t.
Proof. unfold term_group, term_content. by destruct (parseHash _). Qed.

(** The source hands out the chunks of the xorbs. *)
Definition faithful_source (fetches : list selectedFetch) : Prop :=
  forall sel idx c ref data c', sel ∈ fetches -> src_readChunk (sf_key sel) idx c = (Ok (ref, data), c') -> chunk_of sel idx data.

(** The source never fails on what was planned. *)
Record available (fetches : list selectedFetch) : Prop := {
  av_Get : forall sel c, sel ∈ fetches -> exists c', src_Get (sf_key sel) c = (Ok tt, c');
  av_readChunk : forall sel idx c, sel ∈ fetches -> 0 <= idx < sf_chunkEnd sel - sf_chunkStart sel ->
    exists ref data c', src_readChunk (sf_key sel) idx c = (Ok (ref, data), c');
}.

Lemma serves_local offs t sel :
  (forall h, len (offs h) <= MaxChunksPerXorb) -> serves offs t sel ->
  lStart t sel = cr_Start (t_Range t) - sf_chunkStart sel /\ lEnd t sel = cr_End (t_Range t) - sf_chunkStart sel /\
  lStart t sel < lEnd t sel <= sf_chunkEnd sel - sf_chunkStart sel /\ 0 <= lStart t sel.
Proof.
  intros Hm (h & Hh & Hk & H1 & H2 & H3 & Hr). apply range_nonempty in Hr. specialize (Hm h). unfold MaxChunksPerXorb in Hm.
  unfold lStart, lEnd. rewrite !u32_small by (unfold is_u32; lia). lia.
Qed.

Lemma term_groups_at offs terms fetches (c : C) :
  (forall h, len (offs h) <= MaxChunksPerXorb) -> Forall2 (serves offs) terms fetches -> faithful_source fetches -> available fetches ->
  groups_at terms fetches chunk_of (length terms) (map term_group terms).
Proof.
  intros Hm HF Hs Ha. split; [by rewrite length_map|]. intros i ds Hi. change (map term_group terms) with (term_group <$> terms) in Hi.
  rewrite list_lookup_fmap in Hi. apply fmap_Some in Hi as (t & Ht & ->). destruct (Forall2_lookup_l _ _ _ _ _ HF Ht) as (sel & Hsel & Hserve).
  exists t, sel. split; [done|]. split; [done|]. destruct (serves_local _ _ _ Hm Hserve) as (Es & Ee & Hlt & H0).
  destruct Hserve as (h & Hh & Hk & H1 & H2 & H3 & Hr). assert (sel ∈ fetches) as Hin by (by eapply list_elem_of_lookup_2).
  assert (sf_chunkEnd sel <= len (xc h)) as Hend.
  { destruct (av_readChunk _ Ha sel (sf_chunkEnd sel - sf_chunkStart sel - 1) c Hin) as (ref & data & c' & Erd); [lia|].
    destruct (Hs _ _ _ _ _ _ Hin Erd) as (h' & Hh' & _ & Hx). rewrite Hk, Hh in Hh'. apply formatHash_inj in Hh' as <-.
    apply lookup_lt_Some in Hx. unfold len. lia. }
  unfold term_group. rewrite Hh, parse_formatHash.
  assert (len (slice (cr_Start (t_Range t)) (cr_End (t_Range t)) (xc h)) = Z.max 0 (lEnd t sel - lStart t sel)) as Hl.
  { unfold slice, len in *. rewrite length_take, length_drop. lia. }
  split; [|done]. split; [lia|]. intros j d Hj. exists h. split; [congruence|]. split; [lia|].
  unfold slice in Hj. apply lookup_take_Some in Hj as [Hj _]. rewrite lookup_drop in Hj. rewrite <- Hj. f_equal. lia.
Qed.

Lemma given_content offset terms :
  0 <= offset -> starts_in xc offset terms -> given offset (map term_group terms) = drop (Z.to_nat offset) (terms_content xc terms).
Proof.
  intros Ho Hs. destruct terms as [|t terms]; [symmetry; apply (drop_nil (Z.to_nat offset))|]. cbn [map given]. cbn in Hs. unfold terms_content. cbn [map concat].
  rewrite term_group_content, drop_app_le by (unfold len in *; lia). f_equal.
  induction terms as [|u terms IH]; [done|]. cbn [map concat]. by rewrite concat_app, term_group_content, IH.
Qed.
End chunks.
End start.

(** ** The theorems *)

Section client_theorems.
Context {B3 : Blake3} {C : Type} {CS : ChunkSource C}.

(** Nothing goes wrong over an available source with the expected chunks. *)
Lemma no_trouble xc offs expected terms fetches (c : C) :
  (forall h, len (offs h) <= MaxChunksPerXorb) -> Forall2 (serves offs) terms fetches -> faithful_source xc fetches -> available fetches ->
  (forall h, expected = Some h ->
     ComputeFileHash (map ComputeChunkHash (concat (map (term_group xc) terms))) (map len (concat (map (term_group xc) terms))) = Ok h) ->
  ~ trouble terms fetches expected (chunk_of xc).
Proof.
  intros Hm HF Hs Ha Hv [(sel & c0 & e & c' & Hin & E)|[(i & t & sel & idx & c0 & e & c' & Ht & Hsel & Hi & E)|(h & groups & He & Hg & Hne)]].
  - destruct (av_Get _ Ha sel c0 Hin) as [c1 E1]. congruence.
  - pose proof (Forall2_lookup_lr _ _ _ _ _ _ HF Ht Hsel) as Hserve. destruct (serves_local _ _ _ Hm Hserve) as (_ & _ & Hlt & H0).
    destruct (av_readChunk _ Ha sel idx c0) as (ref & data & c1 & E1); [by eapply list_elem_of_lookup_2|lia|congruence].
  - apply Hne. pose proof (term_groups_at xc offs terms fetches c Hm HF Hs Ha) as Hfull. pose proof (Forall2_length _ _ _ HF).
    eapply (groups_at_take terms fetches (chunk_of xc)) in Hg as ->; [|done|apply chunk_of_fun|exact Hfull|done].
    rewrite take_ge by (by rewrite length_map). by apply Hv.
Qed.

(** The lengths a client expects. *)
Lemma expected_length_content xc offset terms :
  0 <= offset -> starts_in xc offset terms -> Forall (fun t => t_UnpackedLength t = len (term_content xc t)) terms ->
  len (terms_content xc terms) < 2 ^ 63 -> expected_length offset terms = len (drop (Z.to_nat offset) (terms_content xc terms)).
Proof.
  intros Ho Hf Hsz Hb. unfold expected_length.
  assert (forall acc, 0 <= acc -> acc + len (terms_content xc terms) < 2 ^ 63 ->
    foldl (fun total term => u64 (total + t_UnpackedLength term)) acc terms = acc + len (terms_content xc terms)) as Hsum.
  { clear Hf Hb. induction Hsz as [|t terms Ht _ IH]; intros acc Ha Hb; [cbn; unfold terms_content; cbn; rewrite (@len_nil byte); lia|].
    unfold terms_content in *. cbn [map concat foldl] in *. rewrite len_app in *. pose proof (len_nonneg (term_content xc t)).
    pose proof (len_nonneg (concat (map (term_content xc) terms))). rewrite Ht, u64_small by (unfold is_u64; lia). rewrite IH by lia. lia. }
  rewrite Hsum, Z.add_0_l by lia. clear Hsum. pose proof (len_nonneg (terms_content xc terms)).
  assert (len (drop (Z.to_nat offset) (terms_content xc terms)) = Z.max 0 (len (terms_content xc terms) - offset)) as ->
    by (unfold len; rewrite length_drop; lia).
  destruct (Z.leb_spec offset 0); [rewrite (proj2 (Z.ltb_ge _ _)) by lia; lia|].
  destruct (Z.leb_spec (len (terms_content xc terms)) offset); [lia|]. rewrite (proj2 (Z.ltb_ge _ _)) by lia. lia.
Qed.

(** C10: a client reads what a server's response answers.  Let a response answer a
    request for a range of a file, in either version and split or not, and let
    the prefetcher hand out the chunks of the xorbs, whatever buffers, workers
    and cache files it has them from.  Then any sequence of reads, of any sizes,
    and closes returns exactly what a reader over the bytes from the response's
    offset on returns, end of file and errors included; the file hash, if one
    is expected, is accepted; those bytes start with the requested ones and are as
    many as the expected length says; and [WriteTo] writes them all. *)
Theorem client_reads xc offs content rng offset terms plan expected started ops r (c : C) :
  answers xc offs content rng offset terms plan -> (forall h, len (offs h) <= MaxChunksPerXorb) -> offset < 2 ^ 63 ->
  new_reader true expected offset terms plan started = Ok r ->
  truthful -> faithful_source xc (cl_termFetches r) -> available (cl_termFetches r) ->
  (forall h, expected = Some h ->
     ComputeFileHash (map ComputeChunkHash (concat (map (term_group xc) terms))) (map len (concat (map (term_group xc) terms))) = Ok h) ->
  Forall sized ops ->
  let D := drop (Z.to_nat offset) (terms_content xc terms) in
  run ops r c = bytes_run D false ops /\
  take (Z.to_nat (br_End rng - br_Start rng + 1)) D = slice (br_Start rng) (br_End rng + 1) content /\
  (len (terms_content xc terms) < 2 ^ 63 -> expected_length offset terms = len D) /\
  (len D < 2 ^ 62 -> forall W (WR : Writer W) (written : W -> list byte) w,
     (forall chunk w, exists w', w_Write chunk w = (len chunk, None, w') /\ written w' = written w ++ chunk) ->
     exists r' c' w', WriteTo r c w = (len D, None, r', c', w') /\ written w' = written w ++ D).
Proof.
  intros [[Ho Hr Hsz Hf] (sel & tasks & Hpl & HF)] Hm Ho2 Hnew T1 Hs Ha Hv Hop D.
  destruct (new_reader_reading _ _ _ _ _ _ _ (chunk_of xc) Ho Hnew) as (tasks' & Hpl' & Hrd & _).
  rewrite Hpl in Hpl'. injection Hpl' as -> ->. set (fetches := cl_termFetches r) in *.
  pose proof (Forall2_length _ _ _ HF) as Hlen. pose proof (no_trouble xc offs expected terms fetches c Hm HF Hs Ha Hv) as Hnt.
  pose proof (term_groups_at xc offs terms fetches c Hm HF Hs Ha) as Hg. pose proof (given_content xc offset terms Ho Hf) as Hc.
  assert (forall sel idx c ref data c', sel ∈ fetches -> src_readChunk (sf_key sel) idx c = (Ok (ref, data), c') ->
    chunk_of xc sel idx data /\ ref_size ref = len data /\ len data < 2 ^ 62 /\ (ref_hashed ref = true -> ref_hash ref = ComputeChunkHash data)) as Hsrc.
  { intros sel idx c0 ref data c' Hin E. split; [by eapply Hs|by eapply T1]. }
  split; [|split; [done|split; [by apply expected_length_content|]]].
  - by eapply (run_refines terms fetches offset expected (chunk_of xc) (eq_sym Hlen) (conj Ho Ho2) Hsrc _ (chunk_of_fun xc) Hg).
  - intros Hb W WR written w Htk. unfold WriteTo. rewrite (ra_err _ _ _ _ _ _ _ _ _ Hrd).
    rewrite <- (Z.add_0_l (len D)).
    eapply (write_turns_spec terms fetches offset expected (chunk_of xc) (eq_sym Hlen) (conj Ho Ho2) Hsrc _ (chunk_of_fun xc) Hg
      written Htk (fill_fuel r) 0 r c w [] D); [done|by rewrite Hc|done|exact Hrd|done|].
    assert (left terms fetches r <= turns terms fetches)%nat as Hleft by (by eapply left_bound). pose proof Hrd as [H1 H2 _ _ _ _ _ _ _ _]. unfold fill_fuel. rewrite H1, H2.
    destruct (bool_decide _); lia.
Qed.

(** What a faithful source can give, failures included. *)
Lemma client_prefix offset terms expected plan started ops r (c : C) Q :
  0 <= offset < 2 ^ 63 -> new_reader true expected offset terms plan started = Ok r -> length (cl_termFetches r) = length terms ->
  truthful -> (forall sel idx c ref data c', sel ∈ cl_termFetches r -> src_readChunk (sf_key sel) idx c = (Ok (ref, data), c') -> Q sel idx data) ->
  Forall sized ops ->
  so_far terms (cl_termFetches r) offset Q (concat (map fst (run ops r c))) /\
  (forall data, (data, Some EOF) ∈ run ops r c ->
     (exists groups, complete terms (cl_termFetches r) expected Q groups /\ concat (map fst (run ops r c)) = given offset groups) \/
     (run_err ops r c = Some EOF /\ short (cl_termFetches r))).
Proof.
  intros Ho Hnew Hlen T1 HQ Hop.
  destruct (new_reader_reading _ _ _ _ _ _ _ Q (proj1 Ho) Hnew) as (tasks' & Hpl' & Hrd & _).
  eapply (run_safe terms (cl_termFetches r) offset expected Q) in Hrd; [exact Hrd|done|done| |done].
  intros sel idx c0 ref data c' Hin E. split; [by eapply HQ|by eapply T1].
Qed.

Lemma given_0 groups : given 0 groups = concat (concat groups).
Proof. destruct groups as [|g groups]; [done|]. cbn [given concat]. by rewrite concat_app. Qed.

(** C25: a verified download.  Whatever response a server sends and whatever
    chunks the prefetcher hands out, as long as it hashes truly those it claims
    to have hashed, if a reader of either version that was given the hash of a
    file reports the end, in any sequence of reads and closes, then what it gave
    is that file, or two of the digests computed for the two collide, or a
    digest is all zero.  The one other way to report the end is a chunk whose
    cache file ends before it: [readChunk] hands on the [io.EOF] of [ReadAt], and
    the reader keeps it as its error, which it never does at the real end. *)
Theorem client_verified (r1 : ReconstructionResponseV1) (r2 : ReconstructionResponseV2) h ds started ops r (c : C) data :
  NewReaderV1 true (Some h) r1 started = Ok r \/ NewReaderV2 true (Some h) r2 started = Ok r ->
  truthful -> Forall sized ops ->
  Forall (fun d => is_u64 (len d)) ds -> ComputeFileHash (map ComputeChunkHash ds) (map len ds) = Ok h ->
  (data, Some EOF) ∈ run ops r c ->
  concat (map fst (run ops r c)) = concat ds \/
  (exists cs, concat (map fst (run ops r c)) = concat cs /\ hash_broken cs ds) \/
  (run_err ops r c = Some EOF /\ exists sel idx c1 c2, sel ∈ cl_termFetches r /\ src_readChunk (sf_key sel) idx c1 = (Err EOF, c2)).
Proof.
  intros Hnew Ht Hop Hu Hds Hin.
  assert (exists offset terms select, new_reader true (Some h) offset terms (plan_terms select terms) started = Ok r) as (offset & terms & select & Hn)
    by (destruct Hnew as [Hn|Hn]; do 3 eexists; exact Hn).
  assert (offset = 0) as ->.
  { unfold new_reader, newFileVerifier in Hn. cbn [negb] in Hn. by destruct (Z.eqb_spec offset 0). }
  set (Q := fun (_ : selectedFetch) (_ : Z) (d : list byte) => len d < 2 ^ 62).
  assert (length (cl_termFetches r) = length terms) as Hlen.
  { destruct (new_reader_reading _ _ _ _ _ _ _ Q (Z.le_refl 0) Hn) as (tasks & Hp & _). by eapply plan_terms_length. }
  destruct (client_prefix 0 terms (Some h) _ started ops r c Q ltac:(lia) Hn Hlen Ht) as [_ Hend]; [|done|].
  { intros sel idx c0 ref d c' _ E. by eapply Ht. }
  destruct (Hend data Hin) as [(groups & [[_ Hg] Hv] & Ho)|?]; [|by do 2 right]. rewrite given_0 in Ho. rewrite Ho. specialize (Hv h eq_refl).
  destruct (file_hash_binds (concat groups) ds h) as [->|Hb]; [|done|done|done|by left|right; left; eauto].
  apply Forall_forall. intros d Hd. apply list_elem_of_In, in_concat in Hd as (g & Hg' & Hd).
  apply list_elem_of_In, list_elem_of_lookup in Hg' as [i Hi]. apply list_elem_of_In, list_elem_of_lookup in Hd as [j Hj].
  destruct (Hg _ _ Hi) as (t & sel & _ & _ & [[_ HQ] _]). specialize (HQ _ _ Hj). unfold Q in HQ. pose proof (len_nonneg d).
  unfold is_u64. lia.
Qed.
End client_theorems.

(** ** Witnesses *)

Section witnesses.
#[local] Instance client_b3 : Blake3 := poly_blake3.

Definition client_xc (h : XorbHash) : list (list byte) := if bool_decide (h = wit_root) then wit_chunks else [].
Definition client_offs (h : XorbHash) : list Z := [9; 19].

(** The two chunks of a xorb, as one fetch. *)
Definition client_source : ChunkSource unit := {|
  src_Get _ c := (Ok tt, c);
  src_readChunk key idx c :=
    (match parseHash (fk_Hash key) with
     | Err e => Err (Errorf "no such fetch")
     | Ok h =>
         match (if 0 <=? idx then client_xc h !! Z.to_nat idx else None) with
         | Some d => Ok (MkChunkRef (len d) (ComputeChunkHash d) true, d)
         | None => Err (Errorf "chunk %d out of range (total: %d)")
         end
     end, c);
  src_Close c := c;
|}.

Definition client_terms : list Term := [MkTerm (formatHash wit_root) 3 (MkChunkRange 0 2)].
Definition client_response : ReconstructionResponseV1 :=
  MkResponseV1 1 client_terms {[ formatHash wit_root := [MkFetchInfo (MkChunkRange 0 2) (str "u") (MkByteRange 0 18)] ]}.
Definition client_whole : ReconstructionResponseV1 := MkResponseV1 0 client_terms (r1_FetchInfo client_response).
Definition client_hash : FileHash :=
  match ComputeFileHash (map ComputeChunkHash wit_chunks) (map len wit_chunks) with Ok h => h | Err _ => zeroHash end.
Definition client_fetch : selectedFetch := MkSelected (MkFetchKey (formatHash wit_root) 0 18) 0 2.

Lemma client_plan : exists tasks, planReaderV1 client_response = Ok ([client_fetch], tasks).
Proof.
  assert (fst <$> (match planReaderV1 client_response with Ok p => Some p | Err _ => None end) = Some [client_fetch]) as H by (vm_compute; reflexivity).
  destruct (planReaderV1 client_response) as [[f tasks]|e]; [|discriminate H]. injection H as ->. by exists tasks.
Qed.

Lemma client_truthful : truthful (CS := client_source).
Proof.
  unfold truthful. cbn -[client_xc]. intros key idx c ref data c'. destruct (parseHash _) as [h|]; [|done]. destruct (0 <=? idx); [|done].
  destruct (client_xc h !! Z.to_nat idx) as [d|] eqn:E; [|done]. intros [= <- <- <-]. split; [done|]. split; [|done].
  unfold client_xc in E. case_bool_decide; [|done].
  assert (d ∈ wit_chunks) as Hd by (by eapply list_elem_of_lookup_2). unfold wit_chunks in Hd.
  rewrite !elem_of_cons, elem_of_nil in Hd. destruct Hd as [->|[->|[]]]; vm_compute; reflexivity.
Qed.

Lemma client_answers : answers client_xc client_offs (concat wit_chunks) (MkByteRange 1 2) 1 client_terms (planReaderV1 client_response).
Proof.
  destruct client_plan as [tasks Hp]. split.
  - split; [lia|vm_compute; reflexivity|repeat constructor; vm_compute; reflexivity|vm_compute; discriminate].
  - exists [client_fetch], tasks. split; [exact Hp|]. constructor; [|constructor]. exists wit_root.
    split; [reflexivity|]. split; [reflexivity|]. split; [cbn; lia|]. split; [cbn; lia|]. split; [cbn; lia|]. reflexivity.
Qed.

Definition client_ops : list cop := [CRead 1; CRead 5; CRead 1; CClose; CRead 1].

(** Bytes 1 and 2 of the two-chunk file, read, read again past the end, and closed. *)
Lemma client_reads_witness :
  exists r, NewReaderV1 true None client_response (Ok tt) = Ok r /\
    run (CS := client_source) client_ops r tt = bytes_run (str "bc") false client_ops.
Proof.
  destruct (NewReaderV1 true None client_response (Ok tt)) as [r|e] eqn:E.
  - exists r. split; [reflexivity|]. assert (cl_termFetches r = [client_fetch]) as Hf.
    { destruct client_plan as [tasks Hp]. unfold NewReaderV1, new_reader in E. rewrite Hp in E. cbn in E. by injection E as <-. }
    refine (proj1 (client_reads (CS := client_source) client_xc client_offs (concat wit_chunks) (MkByteRange 1 2) 1 client_terms
      (planReaderV1 client_response) None (Ok tt) client_ops r tt client_answers _ _ E client_truthful _ _ _ _)).
    + intros h. vm_compute. discriminate.
    + reflexivity.
    + rewrite Hf. intros sel idx c ref data c' ->%list_elem_of_singleton. cbn -[client_xc]. rewrite parse_formatHash.
      destruct (Z.leb_spec 0 idx) as [H0|]; [|done]. destruct (client_xc wit_root !! Z.to_nat idx) as [d|] eqn:Ed; [|done].
      intros [= <- <- <-]. exists wit_root. split; [reflexivity|]. cbn [client_fetch sf_chunkStart]. rewrite Z.add_0_l. auto.
    + rewrite Hf. split; [intros sel [] _; by exists tt|]. intros sel idx c ->%list_elem_of_singleton Hi. cbn in Hi.
      assert (idx = 0 \/ idx = 1) as [-> | ->] by lia; do 3 eexists; vm_compute; reflexivity.
    + intros h Hn. discriminate Hn.
    + repeat constructor; vm_compute; discriminate.
  - exfalso. apply (f_equal is_ok) in E. vm_compute in E. discriminate E.
Defined.

(** The whole file, with its hash checked at the end. *)
Lemma client_verified_witness :
  exists r, NewReaderV1 true (Some client_hash) client_whole (Ok tt) = Ok r /\
    (concat (map fst (run (CS := client_source) client_ops r tt)) = concat wit_chunks \/
     exists cs, concat (map fst (run (CS := client_source) client_ops r tt)) = concat cs /\ hash_broken cs wit_chunks).
Proof.
  destruct (NewReaderV1 true (Some client_hash) client_whole (Ok tt)) as [r|e] eqn:E.
  - exists r. split; [reflexivity|].
    destruct (client_verified (CS := client_source) client_whole (MkResponseV2 0 [] ∅) client_hash wit_chunks (Ok tt) client_ops r tt
      (str "bc") (or_introl E) client_truthful) as [H|[H|[H _]]]; [| | | |by left|by right|exfalso].
    + repeat constructor; vm_compute; discriminate.
    + constructor; [|constructor; [|constructor]]; (vm_compute; split; congruence).
    + vm_compute. reflexivity.
    + assert (match NewReaderV1 true (Some client_hash) client_whole (Ok tt) with
        | Ok r => nth_error (run (CS := client_source) client_ops r tt) 1 | Err _ => None end = Some (str "bc", Some EOF)) as H
        by (vm_compute; reflexivity).
      rewrite E in H. apply list_elem_of_In. by eapply nth_error_In.
    + assert (match NewReaderV1 true (Some client_hash) client_whole (Ok tt) with
        | Ok r => run_err (CS := client_source) client_ops r tt | Err _ => None end = Some ErrClosed) as H2 by (vm_compute; reflexivity).
      rewrite E in H2. congruence.
  - exfalso. apply (f_equal is_ok) in E. vm_compute in E. discriminate E.
Defined.

(** A source whose chunk cannot be read from its file to the end: [os.File.ReadAt]
    reports that as [io.EOF], which [readChunk] hands on as it is. *)
Definition short_source : ChunkSource unit := {|
  src_Get _ c := (Ok tt, c);
  src_readChunk _ _ c := (Err EOF, c);
  src_Close c := c;
|}.

(** The reader then reports the end of the file before its first byte, and an
    expected hash is not compared. *)
Lemma short_cache_file_ends_reads :
  exists r, NewReaderV1 true (Some client_hash) client_whole (Ok tt) = Ok r /\
    run (CS := short_source) [CRead 3] r tt = [([], Some EOF)].
Proof.
  destruct (NewReaderV1 true (Some client_hash) client_whole (Ok tt)) as [r|e] eqn:E.
  - exists r. split; [reflexivity|].
    assert (match NewReaderV1 true (Some client_hash) client_whole (Ok tt) with
      | Ok r => run (CS := short_source) [CRead 3] r tt | Err _ => [] end = [([], Some EOF)]) as H by (vm_compute; reflexivity).
    by rewrite E in H.
  - exfalso. apply (f_equal is_ok) in E. vm_compute in E. discriminate E.
Qed.
End witnesses.
