(* ===== verification/GC.v ===== *)
(** * Garbage collection: [storage/gc.go]

    The mark-and-sweep pass over a store, written against the storage
    contract: a walk over the indexes and the shards finds the unanchored
    shards, phase 1 re-checks and deletes them with the entries they own,
    phase 2 marks the xorbs every remaining shard references and deletes the
    others.  Between two operations of the pass nothing else writes the store;
    the context, the clock and every storage error are arbitrary.
    Proved for every backend that satisfies the contract: no sweep, however it
    ends, loses an anchored shard, an index entry of one, or a xorb a stored
    shard references, and dry runs change nothing. *)

From Stdlib Require Import ZArith Lia Strings.Byte Strings.String.
From stdpp Require Import sorting.
From S2P Require Import Prelude Hash Merkle Compression Shard ShardCodec Prog Storage Memory.

(** ** Data *)

(** [time.Duration] and [time.Time] are nanoseconds. *)
Definition second : Z := 1000000000.
Definition DefaultSweepGrace : Z := 3600 * second.

Record SweptObject : Type := MkSweptObject { so_Hash : gostring; so_Size : Z }.

Record SweepResult : Type := MkSweepResult {
  gr_DryRun : bool;
  gr_SweptShards : list SweptObject;
  gr_SweptXorbs : list SweptObject;
  gr_DeletedChunkEntries : Z;
  gr_DeletedFileEntries : Z;
  gr_DeletedSHA256Entries : Z;
  gr_DanglingFileEntries : list gostring;
  gr_DanglingSHA256Entries : list gostring;
  gr_UnreadableShards : list gostring;
  gr_SkippedInGrace : Z;
  gr_ReclaimedBytes : Z;
  gr_Done : bool;
  gr_RemainingShards : Z;
  gr_RemainingXorbs : Z;
}.

(** The updates the pass makes to its result. *)
Definition empty_result (dry : bool) : SweepResult :=
  MkSweepResult dry [] [] 0 0 0 [] [] [] 0 0 false 0 0.

Definition swept_shard (o : SweptObject) (r : SweepResult) : SweepResult :=
  MkSweepResult (gr_DryRun r) (gr_SweptShards r ++ [o]) (gr_SweptXorbs r) (gr_DeletedChunkEntries r)
    (gr_DeletedFileEntries r) (gr_DeletedSHA256Entries r) (gr_DanglingFileEntries r)
    (gr_DanglingSHA256Entries r) (gr_UnreadableShards r) (gr_SkippedInGrace r)
    (i64 (gr_ReclaimedBytes r + so_Size o)) (gr_Done r) (gr_RemainingShards r) (gr_RemainingXorbs r).

Definition swept_xorb (o : SweptObject) (r : SweepResult) : SweepResult :=
  MkSweepResult (gr_DryRun r) (gr_SweptShards r) (gr_SweptXorbs r ++ [o]) (gr_DeletedChunkEntries r)
    (gr_DeletedFileEntries r) (gr_DeletedSHA256Entries r) (gr_DanglingFileEntries r)
    (gr_DanglingSHA256Entries r) (gr_UnreadableShards r) (gr_SkippedInGrace r)
    (i64 (gr_ReclaimedBytes r + so_Size o)) (gr_Done r) (gr_RemainingShards r) (gr_RemainingXorbs r).

Definition count_entries (chunks files shas : Z) (r : SweepResult) : SweepResult :=
  MkSweepResult (gr_DryRun r) (gr_SweptShards r) (gr_SweptXorbs r) (gr_DeletedChunkEntries r + chunks)
    (gr_DeletedFileEntries r + files) (gr_DeletedSHA256Entries r + shas) (gr_DanglingFileEntries r)
    (gr_DanglingSHA256Entries r) (gr_UnreadableShards r) (gr_SkippedInGrace r)
    (gr_ReclaimedBytes r) (gr_Done r) (gr_RemainingShards r) (gr_RemainingXorbs r).

Definition set_dangling (files shas : list gostring) (r : SweepResult) : SweepResult :=
  MkSweepResult (gr_DryRun r) (gr_SweptShards r) (gr_SweptXorbs r) (gr_DeletedChunkEntries r)
    (gr_DeletedFileEntries r) (gr_DeletedSHA256Entries r) files shas (gr_UnreadableShards r)
    (gr_SkippedInGrace r) (gr_ReclaimedBytes r) (gr_Done r) (gr_RemainingShards r) (gr_RemainingXorbs r).

Definition set_unreadable (l : list gostring) (r : SweepResult) : SweepResult :=
  MkSweepResult (gr_DryRun r) (gr_SweptShards r) (gr_SweptXorbs r) (gr_DeletedChunkEntries r)
    (gr_DeletedFileEntries r) (gr_DeletedSHA256Entries r) (gr_DanglingFileEntries r)
    (gr_DanglingSHA256Entries r) l (gr_SkippedInGrace r) (gr_ReclaimedBytes r) (gr_Done r)
    (gr_RemainingShards r) (gr_RemainingXorbs r).

Definition skip_in_grace (r : SweepResult) : SweepResult :=
  MkSweepResult (gr_DryRun r) (gr_SweptShards r) (gr_SweptXorbs r) (gr_DeletedChunkEntries r)
    (gr_DeletedFileEntries r) (gr_DeletedSHA256Entries r) (gr_DanglingFileEntries r)
    (gr_DanglingSHA256Entries r) (gr_UnreadableShards r) (gr_SkippedInGrace r + 1)
    (gr_ReclaimedBytes r) (gr_Done r) (gr_RemainingShards r) (gr_RemainingXorbs r).

Definition set_done (r : SweepResult) : SweepResult :=
  MkSweepResult (gr_DryRun r) (gr_SweptShards r) (gr_SweptXorbs r) (gr_DeletedChunkEntries r)
    (gr_DeletedFileEntries r) (gr_DeletedSHA256Entries r) (gr_DanglingFileEntries r)
    (gr_DanglingSHA256Entries r) (gr_UnreadableShards r) (gr_SkippedInGrace r)
    (gr_ReclaimedBytes r) true (gr_RemainingShards r) (gr_RemainingXorbs r).

Definition set_remaining (shards xorbs : Z) (r : SweepResult) : SweepResult :=
  MkSweepResult (gr_DryRun r) (gr_SweptShards r) (gr_SweptXorbs r) (gr_DeletedChunkEntries r)
    (gr_DeletedFileEntries r) (gr_DeletedSHA256Entries r) (gr_DanglingFileEntries r)
    (gr_DanglingSHA256Entries r) (gr_UnreadableShards r) (gr_SkippedInGrace r)
    (gr_ReclaimedBytes r) (gr_Done r) shards xorbs.

(** [SweepAnchor] is a string type. *)
Definition AnchorBoth : gostring := [].
Definition AnchorFiles : gostring := str "files".
Definition AnchorSHA256 : gostring := str "sha256".

Record SweepOptions : Type := MkSweepOptions {
  opt_Anchor : gostring;
  opt_Grace : Z;
  opt_DryRun : bool;
  opt_MaxDeletes : Z;
  opt_Budget : Z;
}.

Definition zeroSHA256Hex : gostring := replicate 64 "0"%byte.

(** [slices.Sort] on strings. *)
Definition sort_strings (l : list gostring) : list gostring := merge_sort string_le l.

(** [t.Truncate(time.Second)]. *)
Definition truncate_second (t : Z) : Z := t - t mod second.

(** [loadAborts]. *)
Definition loadAborts (e : error) : bool := errors_Is e Canceled || errors_Is e DeadlineExceeded.

(** [markUnreadable]. *)
Definition markUnreadable (shardHash : gostring) (res : SweepResult) : SweepResult :=
  if bool_decide (shardHash ∈ gr_UnreadableShards res) then res
  else set_unreadable (sort_strings (gr_UnreadableShards res ++ [shardHash])) res.

(** [markShardXorbs]: a Go set of strings. *)
Definition markShardXorbs (sh : Shard) (xorbs : gset gostring) : gset gostring :=
  let xorbs := foldl (fun xorbs file =>
    foldl (fun xorbs entry => {[formatHash (fe_CASHash entry)]} ∪ xorbs) xorbs (fb_Entries file))
    xorbs (s_Files sh) in
  foldl (fun xorbs cb => {[formatHash (cb_CASHash cb)]} ∪ xorbs) xorbs (s_CASInfos sh).

(** A file with no or the zero SHA-256. *)
Definition unanchorable (file : FileBlock) : bool :=
  match fb_MetadataExt file with
  | None => true
  | Some ext => bool_decide (me_SHA256Hash ext = zeroHash)
  end.

(** [hasUnanchorableFile]. *)
Definition hasUnanchorableFile (sh : Shard) : bool := existsb unanchorable (s_Files sh).

(** ** Phase 1: one dead shard *)

Section gc.
Context {S : Type} {ST : Storage S}.

(** [fileEntryPointsAt]. *)
Fixpoint fileEntryPointsAt (files : list FileBlock) (shardHash : gostring) : prog S bool :=
  match files with
  | [] => mret false
  | file :: files =>
      current ← GetFileIndexEntry (fb_FileHash file);
      if bool_decide (current = shardHash) then mret true else fileEntryPointsAt files shardHash
  end.

(** [sha256EntryPointsAt]. *)
Fixpoint sha256EntryPointsAt (files : list FileBlock) (shardHash : gostring) : prog S bool :=
  match files with
  | [] => mret false
  | file :: files =>
      match fb_MetadataExt file with
      | None => sha256EntryPointsAt files shardHash
      | Some ext =>
          if bool_decide (me_SHA256Hash ext = zeroHash) then sha256EntryPointsAt files shardHash
          else
            current ← GetSHA256IndexEntry (SHA256Hash_String (me_SHA256Hash ext));
            if bool_decide (current = shardHash) then mret true
            else sha256EntryPointsAt files shardHash
      end
  end.

(** [deleteOwnedSHA256]. *)
Definition deleteOwnedSHA256 (hex shardHash : gostring) (res : SweepResult) : prog S SweepResult :=
  current ← GetSHA256IndexEntry hex;
  if bool_decide (current <> shardHash) then mret res
  else
    removed ← DeleteSHA256IndexEntry hex;
    mret (if removed : bool then count_entries 0 0 1 res else res).

(** The loop that deletes the files entries of a shard dead under
    [AnchorSHA256]. *)
Fixpoint delete_files (files : list FileBlock) (shardHash : gostring) (res : SweepResult) :
    prog S SweepResult :=
  match files with
  | [] => mret res
  | file :: files =>
      current ← GetFileIndexEntry (fb_FileHash file);
      if bool_decide (current <> shardHash) then delete_files files shardHash res
      else
        removed ← DeleteFileIndexEntry (fb_FileHash file);
        delete_files files shardHash (if removed : bool then count_entries 0 1 0 res else res)
  end.

(** The loop that deletes the SHA-256 entries of a shard dead under
    [AnchorFiles]. *)
Fixpoint delete_sha256s (files : list FileBlock) (shardHash : gostring) (res : SweepResult) :
    prog S SweepResult :=
  match files with
  | [] => mret res
  | file :: files =>
      match fb_MetadataExt file with
      | None => delete_sha256s files shardHash res
      | Some ext =>
          if bool_decide (me_SHA256Hash ext = zeroHash) then delete_sha256s files shardHash res
          else
            res ← deleteOwnedSHA256 (SHA256Hash_String (me_SHA256Hash ext)) shardHash res;
            delete_sha256s files shardHash res
      end
  end.

(** The loop over the shard's probe-able chunks. *)
Fixpoint delete_chunks (chunks : list LocatedChunk) (shardHash : gostring) (res : SweepResult) :
    prog S SweepResult :=
  match chunks with
  | [] => mret res
  | e :: chunks =>
      current ← GetChunkIndexEntry (lc_Hash e);
      if bool_decide (current <> shardHash) then delete_chunks chunks shardHash res
      else
        _ ← DeleteChunkIndexEntry (lc_Hash e);
        delete_chunks chunks shardHash (count_entries 1 0 0 res)
  end.

(** The part of [sweepShard] after the shard is loaded and the [AnchorSHA256]
    pre-checks have passed. *)
Definition sweep_entries (anchor : gostring) (sh : Shard) (shardHash : gostring) (res : SweepResult) :
    prog S (bool * SweepResult) :=
  '(refd, res) ←
    (if bool_decide (anchor <> AnchorSHA256)
     then refd ← fileEntryPointsAt (s_Files sh) shardHash; mret (refd, res)
     else res ← delete_files (s_Files sh) shardHash res; mret (false, res));
  if refd : bool then mret (false, res)
  else
    '(refd, res) ←
      (if bool_decide (anchor <> AnchorFiles)
       then refd ← sha256EntryPointsAt (s_Files sh) shardHash; mret (refd, res)
       else res ← delete_sha256s (s_Files sh) shardHash res; mret (false, res));
    if refd : bool then mret (false, res)
    else
      res ← (if hasUnanchorableFile sh then deleteOwnedSHA256 zeroSHA256Hex shardHash res
             else mret res);
      res ← delete_chunks (GlobalDedupEligibleChunks sh) shardHash res;
      _ ← DeleteShard shardHash;
      mret (true, res).

(** The [AnchorSHA256] pre-checks: whether the shard is still referenced. *)
Definition sha256_precheck (sh : Shard) (shardHash : gostring) : prog S bool :=
  refd ← (if hasUnanchorableFile sh then fileEntryPointsAt (s_Files sh) shardHash
          else mret false);
  if refd : bool then mret true else sha256EntryPointsAt (s_Files sh) shardHash.

(** [sweepShard]. *)
Definition sweepShard (anchor shardHash : gostring) (res : SweepResult) : prog S (bool * SweepResult) :=
  catch (LoadShard shardHash)
    (fun sh =>
      refd ← (if bool_decide (anchor = AnchorSHA256) then sha256_precheck sh shardHash else mret false);
      if refd : bool then mret (false, res) else sweep_entries anchor sh shardHash res)
    (fun e =>
      if errors_Is e ErrNotExist then mret (false, res)
      else if loadAborts e then throw e
      else mret (false, markUnreadable shardHash res)).

(** ** The pass *)

(** [exhausted]: the clock is read only when the budget decides. *)
Definition exhausted (maxDeletes budget start sweptCount : Z) : prog S bool :=
  if (0 <? maxDeletes) && (maxDeletes <=? sweptCount) then mret true
  else if (0 <? budget) && (0 <? sweptCount) then
    now ← time_Now; mret (budget <=? now - start)
  else mret false.

(** The callbacks of the mark walks. *)
Definition mark_file (fileHash shardHash : gostring) (refs : gmap gostring (list gostring)) :
    prog S (gmap gostring (list gostring)) :=
  mret (<[shardHash := default [] (refs !! shardHash) ++ [fileHash]]> refs).

Definition mark_sha256 (sha256Hex shardHash : gostring) (refs : gmap gostring (list gostring)) :
    prog S (gmap gostring (list gostring)) :=
  mret (if bool_decide (sha256Hex <> zeroSHA256Hex)
        then <[shardHash := default [] (refs !! shardHash) ++ [sha256Hex]]> refs
        else refs).

Record mstate : Type := MState {
  ms_present : gset gostring;
  ms_dead : list SweptObject;
  ms_res : SweepResult;
}.

Definition mark_shard (anchor : gostring) (fileRefs shaRefs : gmap gostring (list gostring)) (objCutoff : Z)
    (hash : gostring) (info : Z * Z) (st : mstate) : prog S mstate :=
  let present := {[hash]} ∪ ms_present st in
  let refs (m : gmap gostring (list gostring)) := default [] (m !! hash) in
  let anchored := bool_decide (anchor <> AnchorSHA256) && (0 <? len (refs fileRefs)) ||
                  (0 <? len (refs shaRefs)) in
  mret (if anchored then MState present (ms_dead st) (ms_res st)
        else if negb (info.2 <? objCutoff) then MState present (ms_dead st) (skip_in_grace (ms_res st))
        else MState present (ms_dead st ++ [MkSweptObject hash info.1]) (ms_res st)).

(** The entries of the shards that are not there, sorted. *)
Definition dangling (refs : gmap gostring (list gostring)) (present : gset gostring) : list gostring :=
  sort_strings (concat (map snd (filter (fun p => p.1 ∉ present) (map_to_list refs)))).

(** The first loop; the flag reports that the bounds were spent. *)
Fixpoint sweep_shards (anchor : gostring) (dry : bool) (maxDeletes budget start : Z)
    (dead : list SweptObject) (sweptCount : Z) (drySwept : gset gostring) (res : SweepResult) :
    prog S (bool * Z * gset gostring * SweepResult) :=
  match dead with
  | [] => mret (false, sweptCount, drySwept, res)
  | obj :: rest =>
      _ ← ctx_Err;
      stop ← exhausted maxDeletes budget start sweptCount;
      if stop : bool then mret (true, sweptCount, drySwept, set_remaining (len dead) (gr_RemainingXorbs res) res)
      else if dry then
        sweep_shards anchor dry maxDeletes budget start rest sweptCount ({[so_Hash obj]} ∪ drySwept)
          (swept_shard obj res)
      else
        '(swept, res) ← sweepShard anchor (so_Hash obj) res;
        if swept : bool
        then sweep_shards anchor dry maxDeletes budget start rest (sweptCount + 1) drySwept (swept_shard obj res)
        else sweep_shards anchor dry maxDeletes budget start rest sweptCount drySwept res
  end.

(** Phase 2's walk: every present shard shields its xorbs. *)
Definition mark_xorbs (drySwept : gset gostring) (hash : gostring) (_ : Z * Z)
    (st : gset gostring * SweepResult) : prog S (gset gostring * SweepResult) :=
  let '(refXorbs, res) := st in
  if bool_decide (hash ∈ drySwept) || bool_decide (hash ∈ gr_UnreadableShards res) then mret st
  else
    catch (LoadShard hash)
      (fun sh => mret (markShardXorbs sh refXorbs, res))
      (fun e =>
        if errors_Is e ErrNotExist then mret st
        else if loadAborts e then throw e
        else mret (refXorbs, markUnreadable hash res)).

Definition mark_dead_xorb (refXorbs : gset gostring) (objCutoff : Z) (hash : gostring) (info : Z * Z)
    (st : list SweptObject * SweepResult) : prog S (list SweptObject * SweepResult) :=
  mret (if bool_decide (hash ∈ refXorbs) then st
        else if negb (info.2 <? objCutoff) then (st.1, skip_in_grace st.2)
        else (st.1 ++ [MkSweptObject hash info.1], st.2)).

(** The second loop. *)
Fixpoint sweep_xorbs (dry : bool) (maxDeletes budget start : Z) (dead : list SweptObject) (sweptCount : Z)
    (res : SweepResult) : prog S SweepResult :=
  match dead with
  | [] => mret (set_done res)
  | obj :: rest =>
      _ ← ctx_Err;
      stop ← exhausted maxDeletes budget start sweptCount;
      if stop : bool then mret (set_remaining (gr_RemainingShards res) (len dead) res)
      else if dry then sweep_xorbs dry maxDeletes budget start rest sweptCount (swept_xorb obj res)
      else
        h ← lift (wrap_err "parse xorb hash %s: %w" (parseHash (so_Hash obj)));
        _ ← DeleteXorb h;
        sweep_xorbs dry maxDeletes budget start rest (sweptCount + 1) (swept_xorb obj res)
  end.

(** [sweepPass] from phase 2 on. *)
Definition sweep_phase2 (dry : bool) (maxDeletes budget objCutoff start sweptCount : Z)
    (drySwept : gset gostring) (res : SweepResult) : prog S SweepResult :=
  walkStart ← time_Now;
  '(refXorbs, res) ← WalkShards (mark_xorbs drySwept) (∅ : gset gostring, res);
  if bool_decide (gr_UnreadableShards res <> []) then mret (set_done res)
  else
    '(deadXorbs, res) ← WalkXorbs (mark_dead_xorb refXorbs objCutoff) ([], res);
    now ← time_Now;
    sweep_xorbs dry maxDeletes budget (start + (now - walkStart)) deadXorbs sweptCount res.

(** Objects written from the cutoff on are in the grace window; a positive
    window is widened to a whole second. *)
Definition sweep_cutoff (opts : SweepOptions) (now : Z) : Z :=
  let grace := if opt_Grace opts =? 0 then DefaultSweepGrace else opt_Grace opts in
  if 0 <? grace then truncate_second (now - grace) else now - grace.

(** [sweepPass] after its checks: the mark over the indexes and the shards, and
    the two sweep phases. *)
Definition sweep_marked (opts : SweepOptions) (maxDeletes budget objCutoff : Z) : prog S SweepResult :=
  let anchor := opt_Anchor opts in
  fileRefs ← WalkFileIndex mark_file ∅;
  shaRefs ← (if bool_decide (anchor <> AnchorFiles) then WalkSHA256Index mark_sha256 ∅ else mret ∅);
  st ← WalkShards (mark_shard anchor fileRefs shaRefs objCutoff)
         (MState ∅ [] (empty_result (opt_DryRun opts)));
  let res := set_dangling (dangling fileRefs (ms_present st)) (dangling shaRefs (ms_present st)) (ms_res st) in
  start ← time_Now;
  '(stopped, sweptCount, drySwept, res) ←
    sweep_shards anchor (opt_DryRun opts) maxDeletes budget start (ms_dead st) 0 ∅ res;
  if stopped : bool then mret res
  else
    stop ← exhausted maxDeletes budget start sweptCount;
    if stop : bool then mret res
    else sweep_phase2 (opt_DryRun opts) maxDeletes budget objCutoff start sweptCount drySwept res.

(** [sweepPass]. *)
Definition sweepPass (opts : SweepOptions) (maxDeletes budget : Z) : prog S SweepResult :=
  _ ← ctx_Err;
  if negb (bool_decide (opt_Anchor opts ∈ [AnchorBoth; AnchorFiles; AnchorSHA256]))
  then throw (Errorf "unknown sweep anchor %q")
  else
    now ← time_Now;
    sweep_marked opts maxDeletes budget (sweep_cutoff opts now).

(** [Sweep]. *)
Definition Sweep (opts : SweepOptions) : prog S SweepResult := sweepPass opts 0 0.

(** [GC.SweepStep], with [locked] the state of the mutex. *)
Definition SweepStep (locked : bool) (opts : SweepOptions) : prog S SweepResult :=
  if locked then throw ErrGCBusy
  else if opt_DryRun opts then sweepPass opts 0 0
  else sweepPass opts (opt_MaxDeletes opts) (opt_Budget opts).

(** [GC.Unlink] and [GC.UnlinkSHA256]. *)
Definition Unlink (fileHash : FileHash) : prog S bool := DeleteFileIndexEntry fileHash.

Definition UnlinkSHA256 (digest : SHA256Hash) : prog S bool :=
  if bool_decide (digest = zeroHash)
  then throw (Errorf "all-zero SHA-256 digest is the shared empty-file marker")
  else DeleteSHA256IndexEntry (SHA256Hash_String digest).
End gc.

(** ** What a shard references *)

Definition references (sh : Shard) (x : gostring) : Prop :=
  (exists file entry, file ∈ s_Files sh /\ entry ∈ fb_Entries file /\ x = formatHash (fe_CASHash entry)) \/
  (exists cb, cb ∈ s_CASInfos sh /\ x = formatHash (cb_CASHash cb)).

Lemma elem_of_mark {A} (f : A -> gostring) (l : list A) (X : gset gostring) x :
  x ∈ foldl (fun X a => {[f a]} ∪ X) X l <-> x ∈ X \/ exists a, a ∈ l /\ x = f a.
Proof.
  revert X. induction l as [|a l IH]; intros X; cbn [foldl].
  - split; [by left|]. intros [?|(a & Ha & _)]; [done|]. by apply elem_of_nil in Ha.
  - rewrite IH. setoid_rewrite elem_of_cons. set_solver.
Qed.

Lemma elem_of_markShardXorbs sh X x : x ∈ markShardXorbs sh X <-> x ∈ X \/ references sh x.
Proof.
  unfold markShardXorbs, references. rewrite elem_of_mark.
  enough (x ∈ foldl (fun xorbs file =>
      foldl (fun xorbs entry => {[formatHash (fe_CASHash entry)]} ∪ xorbs) xorbs (fb_Entries file)) X (s_Files sh)
    <-> x ∈ X \/ exists file entry, file ∈ s_Files sh /\ entry ∈ fb_Entries file /\
          x = formatHash (fe_CASHash entry)) as -> by tauto.
  generalize (s_Files sh). intros l. revert X. induction l as [|file l IH]; intros X; cbn [foldl].
  - split; [by left|]. intros [?|(f & e & Hf & _)]; [done|]. by apply elem_of_nil in Hf.
  - rewrite IH, elem_of_mark. setoid_rewrite elem_of_cons. split.
    + intros [[?|(e & He & ->)]|(f & e & Hf & He & ->)]; [by left|right..]; eauto 10.
    + intros [?|(f & e & [->|Hf] & He & ->)]; eauto 10.
Qed.

Lemma sort_strings_nil l : sort_strings l = [] -> l = [].
Proof.
  intros H. apply Permutation_nil_r. rewrite <- H. symmetry. apply merge_sort_Permutation.
Qed.

Lemma markUnreadable_nil h res : gr_UnreadableShards (markUnreadable h res) = [] -> False.
Proof.
  unfold markUnreadable. case_bool_decide as H.
  - intros E. rewrite E in H. by apply elem_of_nil in H.
  - cbn. intros E%sort_strings_nil. by destruct (gr_UnreadableShards res).
Qed.

(** ** Liveness *)

Section safety.
Context {S : Type} {ST : Storage S} {SL : StorageLaws S}.
Variables (anchor : gostring) (dry : bool) (s0 : S).

(** The shards the pass must keep: those an anchoring index entry names. *)
Definition anchored (h : gostring) : Prop :=
  (anchor <> AnchorSHA256 /\ exists n o, obj_at s0 kFiles n = Some o /\ o_data o = h) \/
  (anchor <> AnchorFiles /\ exists n o, n <> zeroSHA256Hex /\ obj_at s0 kSHA256 n = Some o /\ o_data o = h).

Definition index_kind (k : gostring) : Prop := k = kFiles \/ k = kSHA256 \/ k = kChunks.

(** What holds of the store throughout the pass. *)
Record kept (s : S) : Prop := {
  kept_drops k n : obj_at s k n = obj_at s0 k n \/ obj_at s k n = None;
  kept_dry : dry = true -> same obj_at s0 s;
  kept_shards h : anchored h -> obj_at s kShards h = obj_at s0 kShards h;
  kept_entries k n o : index_kind k -> obj_at s0 k n = Some o -> anchored (o_data o) -> obj_at s k n = Some o;
  kept_files n : anchor <> AnchorSHA256 -> obj_at s kFiles n = obj_at s0 kFiles n;
  kept_sha256 n : anchor <> AnchorFiles -> n <> zeroSHA256Hex -> obj_at s kSHA256 n = obj_at s0 kSHA256 n;
}.

(** Phase 1 leaves the xorbs alone. *)
Definition phase1 (s : S) : Prop := kept s /\ forall n, obj_at s kXorbs n = obj_at s0 kXorbs n.

(** An object phase 1 may delete from [s]. *)
Record deletable (k n : gostring) (s : S) : Prop := {
  del_dry : dry = false;
  del_kind : k <> kXorbs;
  del_shard : k = kShards -> ~ anchored n;
  del_entry : index_kind k -> ~ anchored (entry_data (obj_at s k n));
  del_files : k = kFiles -> anchor = AnchorSHA256;
  del_sha256 : k = kSHA256 -> n = zeroSHA256Hex \/ anchor = AnchorFiles;
}.

Lemma phase1_same s s' : same obj_at s s' -> phase1 s -> phase1 s'.
Proof.
  intros Hs [[H1 H2 H3 H4 H5 H6] H7]. split; [split|].
  - intros k n. rewrite (Hs k n). apply H1.
  - intros Hd k n. rewrite (Hs k n). by apply H2.
  - intros h Hh. rewrite Hs. by apply H3.
  - intros k n o. rewrite (Hs k n). apply H4.
  - intros n. rewrite Hs. apply H5.
  - intros n. rewrite Hs. apply H6.
  - intros n. rewrite Hs. apply H7.
Qed.

Lemma phase1_drop k n s s' : only_drops obj_at k n s s' -> deletable k n s -> phase1 s -> phase1 s'.
Proof.
  intros Hd [D1 D2 D3 D4 D5 D6] [[H1 H2 H3 H4 H5 H6] H7]. split; [split|].
  - intros k' n'. destruct (Hd k' n') as [->|[_ ->]]; [apply H1|by right].
  - congruence.
  - intros h Hh. destruct (Hd kShards h) as [->|[[= <- <-] _]]; [by apply H3|]. by destruct (D3 eq_refl).
  - intros k' n' o Hk Ho Ha. destruct (Hd k' n') as [->|[[= -> ->] _]]; [by apply H4|].
    pose proof (H4 _ _ _ Hk Ho Ha) as E. destruct (D4 Hk). by rewrite E.
  - intros n' Ha. destruct (Hd kFiles n') as [->|[[= <- <-] _]]; [by apply H5|]. by destruct (Ha (D5 eq_refl)).
  - intros n' Ha Hn. destruct (Hd kSHA256 n') as [->|[[= <- <-] _]]; [by apply H6|].
    by destruct (D6 eq_refl).
  - intros n'. destruct (Hd kXorbs n') as [->|[[= <- <-] _]]; [apply H7|done].
Qed.

(** ** Phase 1 *)

Lemma phase1_read {A} (m : prog S A) R :
  reads obj_at m R -> triple phase1 m (fun _ => phase1) phase1.
Proof.
  intros Hm s Hs. destruct (Hm s) as [Hsame _]. destruct (m s) as [[a|e] s']; by eapply phase1_same.
Qed.

Lemma phase1_get (m : prog S gostring) k n :
  reads obj_at m (fun s v => v = entry_data (obj_at s k n)) ->
  triple phase1 m (fun v s => phase1 s /\ v = entry_data (obj_at s k n)) phase1.
Proof.
  intros Hm s Hs. destruct (Hm s) as [Hsame Hv]. destruct (m s) as [[a|e] s']; [|by eapply phase1_same].
  cbn [fst snd] in Hsame, Hv. split; [by eapply phase1_same|]. rewrite (Hsame k n). by apply Hv.
Qed.

Lemma phase1_delete {A} (m : prog S A) k n :
  deletes obj_at k n m -> triple (fun s => phase1 s /\ deletable k n s) m (fun _ => phase1) phase1.
Proof.
  intros Hm s [Hs Hd]. destruct (Hm s) as [Ho _]. destruct (m s) as [[a|e] s']; by eapply phase1_drop.
Qed.

Section dead_shard.
(** A shard nothing anchors, in a run that deletes. *)
Variable shardHash : gostring.
Hypothesis Hdead : ~ anchored shardHash.
Hypothesis Hreal : dry = false.

Lemma deletable_entry k n s :
  index_kind k -> phase1 s -> entry_data (obj_at s k n) = shardHash ->
  (k = kFiles -> anchor = AnchorSHA256) -> (k = kSHA256 -> n = zeroSHA256Hex \/ anchor = AnchorFiles) ->
  deletable k n s.
Proof.
  intros Hk Hs He Hf Hsha. split; [done| |..|done|done].
  - destruct Hk as [->|[->| ->]]; done.
  - intros ->. by destruct Hk as [?|[?|?]].
  - by rewrite He.
Qed.

Lemma fileEntryPointsAt_phase1 files :
  triple phase1 (fileEntryPointsAt files shardHash) (fun _ => phase1) phase1.
Proof.
  induction files as [|file files IH]; [by apply triple_ret|]. cbn [fileEntryPointsAt].
  eapply triple_bind; [eapply phase1_read, law_GetFileIndexEntry|]. intros v.
  case_bool_decide; [by apply triple_ret|apply IH].
Qed.

Lemma sha256EntryPointsAt_phase1 files :
  triple phase1 (sha256EntryPointsAt files shardHash) (fun _ => phase1) phase1.
Proof.
  induction files as [|file files IH]; [by apply triple_ret|]. cbn [sha256EntryPointsAt].
  destruct (fb_MetadataExt file) as [ext|]; [|apply IH]. case_bool_decide; [apply IH|].
  eapply triple_bind; [eapply phase1_read, law_GetSHA256IndexEntry|]. intros v.
  case_bool_decide; [by apply triple_ret|apply IH].
Qed.

Lemma deleteOwnedSHA256_phase1 hex res :
  hex = zeroSHA256Hex \/ anchor = AnchorFiles ->
  triple phase1 (deleteOwnedSHA256 hex shardHash res) (fun _ => phase1) phase1.
Proof.
  intros Hhex. eapply triple_bind; [apply phase1_get, law_GetSHA256IndexEntry|]. intros v.
  case_bool_decide as Hv; [by apply triple_ret; intros s []|].
  apply (triple_bind _ _ (fun _ => phase1)); [|intros b; by apply triple_ret].
  eapply triple_conseq; [apply phase1_delete, law_DeleteSHA256IndexEntry| |done|done].
  intros s [Hs ->]. split; [done|]. apply deletable_entry; auto.
  - by right; left.
  - done.
Qed.

Lemma delete_files_phase1 files res :
  anchor = AnchorSHA256 ->
  triple phase1 (delete_files files shardHash res) (fun _ => phase1) phase1.
Proof.
  intros Ha. revert res. induction files as [|file files IH]; intros res; [by apply triple_ret|].
  cbn [delete_files]. eapply triple_bind; [apply phase1_get, law_GetFileIndexEntry|]. intros v.
  case_bool_decide as Hv; [eapply triple_conseq; [apply IH|by intros s []|done..]|].
  eapply triple_bind; [|intros b; apply IH].
  eapply triple_conseq; [apply phase1_delete, law_DeleteFileIndexEntry| |done|done].
  intros s [Hs ->]. split; [done|]. apply deletable_entry; auto; [by left|done].
Qed.

Lemma delete_sha256s_phase1 files res :
  anchor = AnchorFiles ->
  triple phase1 (delete_sha256s files shardHash res) (fun _ => phase1) phase1.
Proof.
  intros Ha. revert res. induction files as [|file files IH]; intros res; [by apply triple_ret|].
  cbn [delete_sha256s]. destruct (fb_MetadataExt file) as [ext|]; [|apply IH].
  case_bool_decide; [apply IH|].
  eapply triple_bind; [apply deleteOwnedSHA256_phase1; auto|]. intros; apply IH.
Qed.

Lemma delete_chunks_phase1 chunks res :
  triple phase1 (delete_chunks chunks shardHash res) (fun _ => phase1) phase1.
Proof.
  revert res. induction chunks as [|e chunks IH]; intros res; [by apply triple_ret|].
  cbn [delete_chunks]. eapply triple_bind; [apply phase1_get, law_GetChunkIndexEntry|]. intros v.
  case_bool_decide as Hv; [eapply triple_conseq; [apply IH|by intros s []|done..]|].
  eapply triple_bind; [|intros b; apply IH].
  eapply triple_conseq; [apply phase1_delete, law_DeleteChunkIndexEntry| |done|done].
  intros s [Hs ->]. split; [done|]. apply deletable_entry; auto; [by right; right|done..].
Qed.

Lemma sweep_entries_phase1 sh res :
  triple phase1 (sweep_entries anchor sh shardHash res) (fun _ => phase1) phase1.
Proof.
  apply (triple_bind _ _ (fun _ => phase1)).
  { case_bool_decide as Ha.
    - eapply triple_bind; [apply fileEntryPointsAt_phase1|]. intros; by apply triple_ret.
    - eapply triple_bind; [apply delete_files_phase1, Ha|]. intros; by apply triple_ret. }
  intros [[|] res1]; [by apply triple_ret|]. apply (triple_bind _ _ (fun _ => phase1)).
  { case_bool_decide as Ha.
    - eapply triple_bind; [apply sha256EntryPointsAt_phase1|]. intros; by apply triple_ret.
    - eapply triple_bind; [apply delete_sha256s_phase1, Ha|]. intros; by apply triple_ret. }
  intros [[|] res2]; [by apply triple_ret|]. apply (triple_bind _ _ (fun _ => phase1)).
  { destruct (hasUnanchorableFile sh); [apply deleteOwnedSHA256_phase1; by left|by apply triple_ret]. }
  intros res3. eapply triple_bind; [apply delete_chunks_phase1|]. intros res4.
  apply (triple_bind _ _ (fun _ => phase1)); [|intros; by apply triple_ret].
  eapply triple_conseq; [apply phase1_delete, law_DeleteShard| |done|done].
  intros s Hs. split; [done|]. split; try done. by intros [H|[H|H]].
Qed.

Lemma sweepShard_phase1 res :
  triple phase1 (sweepShard anchor shardHash res) (fun _ => phase1) phase1.
Proof.
  apply (triple_catch _ _ phase1 (fun _ => phase1)).
  - eapply phase1_read, law_LoadShard.
  - intros sh. apply (triple_bind _ _ (fun _ => phase1)).
    + case_bool_decide; [|by apply triple_ret].
      apply (triple_bind _ _ (fun _ => phase1)).
      { destruct (hasUnanchorableFile sh); [apply fileEntryPointsAt_phase1|by apply triple_ret]. }
      intros [|]; [by apply triple_ret|apply sha256EntryPointsAt_phase1].
    + intros [|]; [by apply triple_ret|apply sweep_entries_phase1].
  - intros e. destruct (errors_Is e ErrNotExist); [by apply triple_ret|].
    destruct (loadAborts e); [by apply triple_throw|by apply triple_ret].
Qed.
End dead_shard.

Lemma exhausted_phase1 md b start cnt :
  triple phase1 (exhausted md b start cnt) (fun _ => phase1) phase1.
Proof.
  unfold exhausted. destruct (_ && _); [by apply triple_ret|]. destruct (_ && _); [|by apply triple_ret].
  eapply triple_bind; [eapply phase1_read, law_time_Now|]. intros; by apply triple_ret.
Qed.

(** The whole of the first loop; without a dry run nothing is dry-swept. *)
Lemma sweep_shards_phase1 md b start dead cnt drySwept res :
  Forall (fun o => ~ anchored (so_Hash o)) dead -> (dry = false -> drySwept = ∅) ->
  triple phase1 (sweep_shards anchor dry md b start dead cnt drySwept res)
    (fun r s => phase1 s /\ (dry = false -> r.1.2 = ∅)) phase1.
Proof.
  intros Hd. revert cnt drySwept res. induction Hd as [|obj dead Ho _ IH]; intros cnt drySwept res Hds.
  { by apply triple_ret. }
  cbn [sweep_shards]. eapply triple_bind; [eapply phase1_read, law_ctx_Err|]. intros ?.
  eapply triple_bind; [apply exhausted_phase1|]. intros [|]; [by apply triple_ret|].
  apply triple_if; intros Edry; [by apply IH; intros; congruence|].
  eapply triple_bind; [by apply sweepShard_phase1|].
  intros [[|] res']; by apply IH.
Qed.

(** ** The marks *)

Lemma walk_triple {X A} kind (info : object -> X)
    (walk : forall A, (gostring -> X -> A -> prog S A) -> A -> prog S A)
    (sr : S) (fn : gostring -> X -> A -> prog S A) (P : list gostring -> A -> S -> Prop) (E : S -> Prop) acc :
  walks obj_at kind info walk ->
  (forall seen a s1 s2, same obj_at s1 s2 -> P seen a s1 -> P seen a s2) ->
  (forall seen a s1, P seen a s1 -> E s1) ->
  looks obj_at fn ->
  (forall seen n o a, n ∉ seen -> obj_at sr kind n = Some o ->
    triple (P seen a) (fn n (info o) a) (P (seen ++ [n])) E) ->
  triple (fun s => same obj_at sr s /\ P [] acc s) (walk A fn acc)
    (fun a s' => exists seen, (forall n, n ∈ seen <-> is_Some (obj_at sr kind n)) /\ P seen a s') E.
Proof.
  intros Hw Hsame HE Hlook Hfn s [Hs HP].
  pose proof (Hw A fn P E acc s Hsame HE Hlook HP) as H.
  destruct (walk A fn acc s) as [[a|e] s'].
  - destruct H as (seen & Hseen & HP').
    + intros seen n o a' Hn Ho. apply Hfn; [done|]. by rewrite <- Hs.
    + exists seen. split; [|done]. intros n. by rewrite Hseen, Hs.
  - apply H. intros seen n o a' Hn Ho. apply Hfn; [done|]. by rewrite <- Hs.
Qed.

(** The store before anything is deleted. *)
Definition still (s : S) : Prop := same obj_at s0 s.

Lemma still_phase1 s : still s -> phase1 s.
Proof.
  intros Hs. split; [split|]; intros; rewrite ?Hs; auto.
Qed.

Lemma still_same s s' : same obj_at s s' -> still s -> still s'.
Proof. intros H1 H2 k n. by rewrite H1, H2. Qed.

Lemma still_read {A} (m : prog S A) R : reads obj_at m R -> triple still m (fun _ => still) phase1.
Proof.
  intros Hm s Hs. destruct (Hm s) as [Hsame _]. pose proof (still_same _ _ Hsame Hs) as H.
  destruct (m s) as [[a|e] s']; [done|by apply still_phase1].
Qed.

(** Every selected entry of an index is recorded under the shard it names. *)
Definition covers (kind : gostring) (sel : gostring -> Prop) (seen : list gostring)
    (refs : gmap gostring (list gostring)) : Prop :=
  forall n o, n ∈ seen -> sel n -> obj_at s0 kind n = Some o -> default [] (refs !! o_data o) <> [].

Lemma covers_insert (kind : gostring) (sel : gostring -> Prop) (seen : list gostring)
    (refs : gmap gostring (list gostring)) (n : gostring) (o : object) (v : gostring) :
  covers kind sel seen refs -> obj_at s0 kind n = Some o ->
  covers kind sel (seen ++ [n]) (<[o_data o := default [] (refs !! o_data o) ++ [v]]> refs).
Proof.
  intros Hc Ho n' o' Hn' Hsel Ho'.
  destruct (decide (o_data o' = o_data o)) as [E|E].
  - rewrite E, lookup_insert_eq. cbn. by destruct (default [] _).
  - rewrite lookup_insert_ne by done. apply elem_of_app in Hn' as [?|Hn']; [by eapply Hc|].
    apply list_elem_of_singleton in Hn' as ->. congruence.
Qed.

Lemma mark_files_spec :
  triple still (WalkFileIndex mark_file ∅)
    (fun refs s => still s /\ forall n o, obj_at s0 kFiles n = Some o -> default [] (refs !! o_data o) <> [])
    phase1.
Proof.
  eapply triple_conseq.
  - apply (walk_triple kFiles o_data (@WalkFileIndex S _) s0 mark_file
      (fun seen refs s => still s /\ covers kFiles (fun _ => True) seen refs) phase1); [apply law_WalkFileIndex|..].
    + intros seen refs s1 s2 Hs [H1 H2]. split; [by eapply still_same|done].
    + intros seen refs s1 [H1 _]. by apply still_phase1.
    + done.
    + intros seen n o refs Hn Ho. apply triple_ret. intros s [Hs Hc]. split; [done|]. by apply covers_insert.
  - intros s Hs. split; [done|]. split; [done|]. intros n o Hn. by apply elem_of_nil in Hn.
  - intros refs s (seen & Hseen & Hs & Hc). split; [done|]. intros n o Ho. eapply Hc; [|done|done].
    apply Hseen. by rewrite Ho.
  - done.
Qed.

Lemma mark_sha256_spec :
  triple still (WalkSHA256Index mark_sha256 ∅)
    (fun refs s => still s /\ forall n o, n <> zeroSHA256Hex -> obj_at s0 kSHA256 n = Some o ->
      default [] (refs !! o_data o) <> []) phase1.
Proof.
  eapply triple_conseq.
  - apply (walk_triple kSHA256 o_data (@WalkSHA256Index S _) s0 mark_sha256
      (fun seen refs s => still s /\ covers kSHA256 (fun n => n <> zeroSHA256Hex) seen refs) phase1);
      [apply law_WalkSHA256Index|..].
    + intros seen refs s1 s2 Hs [H1 H2]. split; [by eapply still_same|done].
    + intros seen refs s1 [H1 _]. by apply still_phase1.
    + done.
    + intros seen n o refs Hn Ho. apply triple_ret. intros s [Hs Hc]. split; [done|].
      case_bool_decide as Hz; [by apply covers_insert|].
      intros n' o' [?|Hn']%elem_of_app Hsel Ho'; [by eapply Hc|].
      apply list_elem_of_singleton in Hn' as ->. done.
  - intros s Hs. split; [done|]. split; [done|]. intros n o Hn. by apply elem_of_nil in Hn.
  - intros refs s (seen & Hseen & Hs & Hc). split; [done|]. intros n o Hz Ho. eapply Hc; [|done|done].
    apply Hseen. by rewrite Ho.
  - done.
Qed.

Lemma len_pos_ne {A} (l : list A) : (0 <? len l) = false -> l = [].
Proof. destruct l; [done|]. rewrite len_cons. pose proof (len_nonneg l). bool_case; lia. Qed.

(** Nothing anchored is queued. *)
Lemma mark_shards_spec (fileRefs shaRefs : gmap gostring (list gostring)) (cutoff : Z) (res : SweepResult) :
  (anchor <> AnchorSHA256 -> forall n o, obj_at s0 kFiles n = Some o -> default [] (fileRefs !! o_data o) <> []) ->
  (anchor <> AnchorFiles -> forall n o, n <> zeroSHA256Hex -> obj_at s0 kSHA256 n = Some o ->
     default [] (shaRefs !! o_data o) <> []) ->
  triple still (WalkShards (mark_shard anchor fileRefs shaRefs cutoff) (MState ∅ [] res))
    (fun st s => still s /\ Forall (fun o => ~ anchored (so_Hash o)) (ms_dead st)) phase1.
Proof.
  intros Hf Hsha. eapply triple_conseq.
  - apply (walk_triple kShards obj_info (@WalkShards S _) s0 (mark_shard anchor fileRefs shaRefs cutoff)
      (fun seen st s => still s /\ Forall (fun o => ~ anchored (so_Hash o)) (ms_dead st)) phase1);
      [apply law_WalkShards|..].
    + intros seen st s1 s2 Hs [H1 H2]. split; [by eapply still_same|done].
    + intros seen st s1 [H1 _]. by apply still_phase1.
    + done.
    + intros seen n o st Hn Ho. apply triple_ret. intros s [Hs Hd]. split; [done|].
      destruct (_ || _) eqn:Ea; [done|]. destruct (negb _); [done|]. cbn [ms_dead].
      apply Forall_app. split; [done|]. constructor; [|constructor]. cbn [so_Hash].
      apply orb_false_iff in Ea as [E1 E2]. apply len_pos_ne in E2.
      intros [(Ha & n' & o' & Ho' & <-)|(Ha & n' & o' & Hz & Ho' & <-)].
      * rewrite bool_decide_eq_true_2 in E1 by done. apply len_pos_ne in E1. by eapply Hf.
      * by eapply Hsha.
  - intros s Hs. split; [done|]. split; [done|]. constructor.
  - intros st s (seen & _ & H). exact H.
  - done.
Qed.

(** ** Phase 2 *)

(** The names of the stored xorbs are printed hashes. *)
Definition canonical : Prop :=
  forall n o, obj_at s0 kXorbs n = Some o -> exists h : XorbHash, n = formatHash h.

(** What the pass promises of the store it leaves. *)
Definition safe (s : S) : Prop :=
  kept s /\ forall n o sh x, obj_at s kShards n = Some o -> decodes o sh -> references sh x ->
    obj_at s kXorbs x = obj_at s0 kXorbs x.

Lemma phase1_safe s : phase1 s -> safe s.
Proof. intros [H1 H2]. split; [done|]. by intros. Qed.

(** The xorbs of the shards visited so far are marked, unless a shard is
    unreadable. *)
Definition marked (sr : S) (seen : list gostring) (st : gset gostring * SweepResult) : Prop :=
  dry = false -> gr_UnreadableShards st.2 = [] ->
  forall n o sh x, n ∈ seen -> obj_at sr kShards n = Some o -> decodes o sh -> references sh x -> x ∈ st.1.

Lemma marked_step sr seen n st st' :
  marked sr seen st ->
  (dry = false -> gr_UnreadableShards st'.2 = [] -> gr_UnreadableShards st.2 = [] /\ st.1 ⊆ st'.1 /\
    forall o sh x, obj_at sr kShards n = Some o -> decodes o sh -> references sh x -> x ∈ st'.1) ->
  marked sr (seen ++ [n]) st'.
Proof.
  intros Hm Hs Hd Hu n' o sh x Hn Ho Hdec Hr. destruct (Hs Hd Hu) as (Hu' & Hsub & Hnew).
  apply elem_of_app in Hn as [Hn|Hn]; [|apply list_elem_of_singleton in Hn as ->; by eapply Hnew].
  apply Hsub. by eapply Hm.
Qed.

Lemma mark_xorbs_looks drySwept : looks obj_at (mark_xorbs drySwept).
Proof.
  intros n x [refX res] s. unfold mark_xorbs. destruct (_ || _); [done|]. unfold catch. destruct (law_LoadShard n s) as [Hsame _].
  destruct (LoadShard n s) as [[sh|e] s']; [done|]. cbn [snd] in *. destruct (errors_Is e ErrNotExist); [done|]. by destruct (loadAborts e).
Qed.

Lemma mark_xorbs_spec sr drySwept seen n o st :
  (dry = false -> drySwept = ∅) -> obj_at sr kShards n = Some o -> phase1 sr ->
  triple (fun s => same obj_at sr s /\ marked sr seen st) (mark_xorbs drySwept n (obj_info o) st)
    (fun st' s => same obj_at sr s /\ marked sr (seen ++ [n]) st') phase1.
Proof.
  intros Hds Ho Hp s [Hs Hm]. destruct st as [refX res]. unfold mark_xorbs.
  destruct (_ || _) eqn:Eskip.
  { split; [done|]. eapply marked_step; [done|]. cbn [fst snd]. intros Hd Hu. exfalso.
    rewrite Hds, Hu in Eskip by done.
    apply orb_true_iff in Eskip as [E|E]; apply bool_decide_eq_true in E.
    - by apply elem_of_empty in E.
    - by apply elem_of_nil in E. }
  unfold catch. destruct (law_LoadShard n s) as [Hsame HOk].
  pose proof (law_LoadShard_absent n s) as Habs.
  destruct (LoadShard n s) as [[sh|e] s']; cbn [fst snd] in *.
  - destruct (HOk sh eq_refl) as (o' & sh0 & Ho' & Hdec & HF & HC).
    rewrite Hs, Ho in Ho'. injection Ho' as <-.
    split; [by intros k m; rewrite Hsame, Hs|]. eapply marked_step; [done|]. cbn [fst snd].
    intros _ Hu. split; [done|]. split; [intros x Hx; apply elem_of_markShardXorbs; by left|].
    intros o'' sh'' x Ho'' Hdec'' Hr. rewrite Ho in Ho''. injection Ho'' as <-.
    unfold decodes in *. rewrite Hdec in Hdec''. injection Hdec'' as <-.
    apply elem_of_markShardXorbs. right. unfold references. by rewrite HF, HC.
  - assert (same obj_at sr s') as Hs' by (intros k m; by rewrite Hsame, Hs).
    destruct (errors_Is e ErrNotExist) eqn:Ee.
    + split; [done|]. eapply marked_step; [done|]. cbn [fst snd]. intros _ Hu. split; [done|].
      split; [done|]. intros o'' sh'' x Ho'' Hdec'' _. exfalso.
      eapply (Habs e eq_refl Ee); [|exact Hdec'']. by rewrite Hs.
    + destruct (loadAborts e); [by eapply phase1_same|]. split; [done|].
      eapply marked_step; [done|]. cbn [fst snd]. intros _ Hu. by destruct (markUnreadable_nil _ _ Hu).
Qed.

(** The store while phase 2 deletes: the shards are those of [sr], and the
    marked xorbs are there. *)
Definition phase2 (sr : S) (refX : gset gostring) (s : S) : Prop :=
  kept s /\ (forall n, obj_at s kShards n = obj_at sr kShards n) /\
  (forall x, x ∈ refX -> obj_at s kXorbs x = obj_at s0 kXorbs x).

Lemma phase2_same sr refX s s' : same obj_at s s' -> phase2 sr refX s -> phase2 sr refX s'.
Proof.
  intros Hs ([H1 H2 H3 H4 H5 H6] & H7 & H8). split; [split|split]; intros; rewrite ?Hs; eauto.
  intros k n. rewrite Hs. by apply H2.
Qed.

Lemma phase2_delete sr refX h :
  dry = false -> formatHash h ∉ refX ->
  triple (phase2 sr refX) (DeleteXorb h) (fun _ => phase2 sr refX) (phase2 sr refX).
Proof.
  intros Hd Hh s ([H1 H2 H3 H4 H5 H6] & H7 & H8).
  assert (phase2 sr refX (DeleteXorb h s).2) as Hp.
  { destruct (law_DeleteXorb h s) as [Ho _].
    assert (forall k n, k <> kXorbs -> obj_at (DeleteXorb h s).2 k n = obj_at s k n) as Hk
      by (intros k n Hk; destruct (Ho k n) as [->|[[= -> ->] _]]; done).
    split; [split|split].
    - intros k n. destruct (Ho k n) as [->|[_ ->]]; [apply H1|by right].
    - congruence.
    - intros n Hn. rewrite Hk by done. by apply H3.
    - intros k n o Hi Hn Ha. rewrite Hk; [by apply H4|]. by destruct Hi as [->|[->| ->]].
    - intros n Ha. rewrite Hk by done. by apply H5.
    - intros n Ha Hn. rewrite Hk by done. by apply H6.
    - intros n. rewrite Hk by done. apply H7.
    - intros x Hx. destruct (Ho kXorbs x) as [->|[[= ->] _]]; [by apply H8|done]. }
  by destruct (DeleteXorb h s) as [[a|e] s'].
Qed.

Lemma phase2_read {A} sr refX (m : prog S A) R :
  reads obj_at m R -> triple (phase2 sr refX) m (fun _ => phase2 sr refX) (phase2 sr refX).
Proof.
  intros Hm s Hs. destruct (Hm s) as [Hsame _]. destruct (m s) as [[a|e] s']; by eapply phase2_same.
Qed.

Lemma exhausted_phase2 sr refX md b start cnt :
  triple (phase2 sr refX) (exhausted md b start cnt) (fun _ => phase2 sr refX) (phase2 sr refX).
Proof.
  unfold exhausted. destruct (_ && _); [by apply triple_ret|]. destruct (_ && _); [|by apply triple_ret].
  eapply triple_bind; [eapply phase2_read, law_time_Now|]. intros; by apply triple_ret.
Qed.

(** A queued xorb: not marked, and named by a printed hash. *)
Definition sweepable (refX : gset gostring) (o : SweptObject) : Prop :=
  (so_Hash o ∉ refX) /\ exists h : XorbHash, so_Hash o = formatHash h.

Lemma sweep_xorbs_phase2 sr refX md b start dead cnt res :
  Forall (sweepable refX) dead ->
  triple (phase2 sr refX) (sweep_xorbs dry md b start dead cnt res) (fun _ => phase2 sr refX) (phase2 sr refX).
Proof.
  intros Hd. revert cnt res. induction Hd as [|obj dead (Hn & h & Hh) _ IH]; intros cnt res.
  { by apply triple_ret. }
  cbn [sweep_xorbs]. eapply triple_bind; [eapply phase2_read, law_ctx_Err|]. intros ?.
  eapply triple_bind; [apply exhausted_phase2|]. intros [|]; [by apply triple_ret|].
  apply triple_if; intros Edry; [apply IH|].
  rewrite Hh, parse_formatHash. cbn [wrap_err].
  apply (triple_bind _ _ (fun h' s => h' = h /\ phase2 sr refX s)); [by intros s Hs|].
  intros h'. apply triple_pure. intros ->. eapply triple_bind; [|intros; apply IH].
  apply phase2_delete; [done|]. by rewrite <- Hh.
Qed.

Lemma mark_dead_xorbs_spec sr refX cutoff res :
  canonical -> phase1 sr ->
  triple (fun s => same obj_at sr s) (WalkXorbs (mark_dead_xorb refX cutoff) ([], res))
    (fun st s => same obj_at sr s /\
      Forall (sweepable refX) st.1) phase1.
Proof.
  intros Hc [Hk Hx]. eapply triple_conseq.
  - apply (walk_triple kXorbs obj_info (@WalkXorbs S _) sr (mark_dead_xorb refX cutoff)
      (fun seen st s => same obj_at sr s /\
        Forall (sweepable refX) st.1) phase1);
      [apply law_WalkXorbs|..].
    + intros seen st s1 s2 H12 [H1 H2]. split; [|done]. intros k n. by rewrite H12, H1.
    + intros seen st s1 [H1 _]. by eapply phase1_same.
    + done.
    + intros seen n o st Hn Ho. apply triple_ret. intros s [Hs Hd]. split; [done|].
      case_bool_decide as Hr; [done|]. destruct (negb _); [done|]. cbn [fst].
      apply Forall_app. split; [done|]. constructor; [|constructor]. cbn [so_Hash]. split; [done|].
      eapply Hc. by rewrite <- Hx.
  - intros s Hs. split; [done|]. split; [done|constructor].
  - intros st s (seen & _ & H). exact H.
  - done.
Qed.

Lemma phase2_safe sr refX s :
  (dry = false -> forall n o sh x, obj_at sr kShards n = Some o -> decodes o sh -> references sh x -> x ∈ refX) ->
  phase2 sr refX s -> safe s.
Proof.
  intros Hm (Hk & Hsh & Hx). split; [done|]. intros n o sh x Ho Hd Hr.
  assert (dry = true \/ dry = false) as [E|E] by (destruct dry; auto).
  - by apply (kept_dry _ Hk).
  - apply Hx. rewrite Hsh in Ho. by eapply Hm.
Qed.

Lemma sweep_phase2_safe md b cutoff start cnt drySwept res :
  canonical -> (dry = false -> drySwept = ∅) ->
  triple phase1 (sweep_phase2 dry md b cutoff start cnt drySwept res) (fun _ => safe) safe.
Proof.
  intros Hc Hds. eapply triple_bind.
  { eapply triple_conseq; [eapply phase1_read, law_time_Now|done|intros a s H; exact H|apply phase1_safe]. }
  intros t sr Hp. cbn beta. revert sr Hp.
  enough (forall sr, phase1 sr -> triple (fun s => same obj_at sr s) (
    '(refXorbs, res) ← WalkShards (mark_xorbs drySwept) (∅ : gset gostring, res);
    if bool_decide (gr_UnreadableShards res <> []) then mret (set_done res)
    else
      '(deadXorbs, res) ← WalkXorbs (mark_dead_xorb refXorbs cutoff) ([], res);
      now ← time_Now;
      sweep_xorbs dry md b (start + (now - t)) deadXorbs cnt res) (fun _ => safe) safe) as H.
  { intros sr Hp. by apply (H sr Hp sr). }
  intros sr Hp.
  apply (triple_bind _ _ (fun st s => same obj_at sr s /\
    (dry = false -> gr_UnreadableShards st.2 = [] ->
      forall n o sh x, obj_at sr kShards n = Some o -> decodes o sh -> references sh x -> x ∈ st.1))).
  { eapply triple_conseq.
    - apply (walk_triple kShards obj_info (@WalkShards S _) sr (mark_xorbs drySwept)
        (fun seen st s => same obj_at sr s /\ marked sr seen st) phase1); [apply law_WalkShards|..].
      + intros seen st s1 s2 H12 [H1 H2]. split; [|done]. intros k n. by rewrite H12, H1.
      + intros seen st s1 [H1 _]. by eapply phase1_same.
      + apply mark_xorbs_looks.
      + intros seen n o st Hn Ho. by apply mark_xorbs_spec.
    - intros s Hs. split; [done|]. split; [done|]. intros _ _ n o sh x Hn. by apply elem_of_nil in Hn.
    - intros st s (seen & Hseen & Hs & Hm). split; [done|]. intros Hd Hu n o sh x Ho.
      eapply Hm; [done|done| |done]. apply Hseen. by rewrite Ho.
    - apply phase1_safe. }
  intros [refX res1]. cbn [fst snd]. case_bool_decide as Hu.
  { apply triple_ret. intros s [Hs _]. by eapply phase1_safe, phase1_same. }
  intros s [Hs Hm]. revert s Hs.
  apply (triple_bind (fun s => same obj_at sr s) safe (fun st s => same obj_at sr s /\ Forall (sweepable refX) st.1)).
  { eapply triple_conseq; [by apply mark_dead_xorbs_spec|done|done|apply phase1_safe]. }
  intros [dead res2] s [Hs Hd]. revert s Hs. cbn [fst] in Hd.
  assert (forall s, same obj_at sr s -> phase2 sr refX s) as Hph.
  { intros s Hs. destruct (phase1_same _ _ Hs Hp) as [Hk Hx]. split; [done|]. split; [|by intros; apply Hx].
    intros n. by rewrite Hs. }
  eapply (triple_conseq (phase2 sr refX)); [|done| |].
  - eapply triple_bind; [eapply phase2_read, law_time_Now|]. intros now. by apply sweep_xorbs_phase2.
  - intros a s H. eapply phase2_safe; [|exact H]. intros Hd'. exact (Hm Hd' Hu).
  - intros s H. eapply phase2_safe; [|exact H]. intros Hd'. exact (Hm Hd' Hu).
Qed.
End safety.

(** ** The pass *)

Section pass.
Context {S : Type} {ST : Storage S} {SL : StorageLaws S}.

Lemma sweepPass_safe opts md b s0 :
  canonical s0 ->
  triple (still s0) (sweepPass opts md b) (fun _ => safe (opt_Anchor opts) (opt_DryRun opts) s0)
    (safe (opt_Anchor opts) (opt_DryRun opts) s0).
Proof.
  intros Hc. unfold sweepPass, sweep_marked. generalize (opt_Anchor opts) as anchor, (opt_DryRun opts) as dry. intros anchor dry.
  assert (forall A (P : S -> Prop) (m : prog S A) Q,
    triple P m Q (phase1 anchor dry s0) -> triple P m Q (safe anchor dry s0)) as up
    by (intros A P m Q Hm; eapply triple_conseq; [exact Hm|done|done|apply phase1_safe]).
  eapply triple_bind; [eapply up, still_read, law_ctx_Err|]. intros ?.
  destruct (negb _). { apply up, triple_throw, still_phase1. }
  eapply triple_bind; [eapply up, still_read, law_time_Now|]. intros now.
  eapply triple_bind; [apply up, mark_files_spec|]. intros fileRefs s [Hs Hf]. revert s Hs.
  apply (triple_bind (still s0) _ (fun refs s => still s0 s /\ (anchor <> AnchorFiles -> forall n o,
    n <> zeroSHA256Hex -> obj_at s0 kSHA256 n = Some o -> default [] (refs !! o_data o) <> []))).
  { case_bool_decide as Ha.
    - eapply triple_weaken; [apply up, mark_sha256_spec|]. intros refs s [H1 H2]. by split.
    - apply triple_ret. intros s Hs. split; [done|]. by intros. }
  intros shaRefs s [Hs Hsha]. revert s Hs.
  eapply triple_bind; [by apply up, mark_shards_spec|]. intros st s [Hs Hd]. revert s Hs.
  eapply triple_bind; [eapply up, still_read, law_time_Now|]. intros start.
  eapply triple_bind.
  { eapply triple_conseq; [by apply up, sweep_shards_phase1|apply still_phase1|intros ? ? H; exact H|done]. }
  intros [[[stopped cnt] drySwept] res] s [Hs Hds]. revert s Hs. cbn [fst snd] in Hds.
  destruct stopped. { apply triple_ret, phase1_safe. }
  eapply triple_bind; [apply up, exhausted_phase1|]. intros stop.
  destruct stop. { apply triple_ret, phase1_safe. }
  by apply sweep_phase2_safe.
Qed.

(** C26 no sweep loses live data.  Over every backend that satisfies the
    contract, whatever the context, the clock and the backend's errors do, a
    pass with any options only removes objects; it removes no shard that an
    anchoring index entry names, no index entry of such a shard, and no xorb
    that a shard it leaves behind references; and a dry run removes nothing.
    The names of the stored xorbs are assumed to be printed hashes. *)
Theorem sweep_keeps_live opts md b s r s' :
  canonical s -> sweepPass opts md b s = (r, s') ->
  (forall k n, obj_at s' k n = obj_at s k n \/ obj_at s' k n = None) /\
  (forall h, anchored (opt_Anchor opts) s h -> obj_at s' kShards h = obj_at s kShards h) /\
  (forall k n o, index_kind k -> obj_at s k n = Some o -> anchored (opt_Anchor opts) s (o_data o) ->
     obj_at s' k n = Some o) /\
  (forall n o sh x, obj_at s' kShards n = Some o -> decodes o sh -> references sh x ->
     obj_at s' kXorbs x = obj_at s kXorbs x) /\
  (opt_DryRun opts = true -> same obj_at s s').
Proof.
  intros Hc Hr. assert (still s s) as Hs by done.
  pose proof (sweepPass_safe opts md b s Hc s Hs) as H. rewrite Hr in H.
  assert (safe (opt_Anchor opts) (opt_DryRun opts) s s') as [[H1 H2 H3 H4 _ _] H5] by (by destruct r).
  auto.
Qed.
End pass.

(** ** Witnesses *)

(** A store with one file, its shard, the xorb it uses and a xorb nothing
    references, in an environment that never fails. *)
Definition wit_hash (b : byte) : hash := to_arr 32 [b].

Definition wit_shard : Shard :=
  MkShard 0
    [MkFileBlock (wit_hash "f"%byte) 0 [MkFileEntry (wit_hash "x"%byte) 0 4 0 1] [] None] [] None.

Definition wit_env : environment := Env (fun _ => None) (fun _ => 10 ^ 19).

Definition wit_store : memory :=
  MkMemory [] {[ kXorbs := {[ formatHash (wit_hash "x"%byte) := MkObject (str "used") 0;
                              formatHash (wit_hash "y"%byte) := MkObject (str "garbage") 0 ]};
                 kShards := {[ str "s1" := MkObject (encoded 0 wit_shard false) 0 ]};
                 kFiles := {[ formatHash (wit_hash "f"%byte) := MkObject (str "s1") 0 ]} ]} wit_env 0.

Definition wit_opts : SweepOptions := MkSweepOptions AnchorBoth (-1) false 0 0.

(** The sweep of this store really deletes the unused xorb. *)
Example wit_sweep_deletes :
  match Sweep (ST := memory_storage (B3 := poly_blake3) (L := rle_lz4) (P := zero_bufs)) wit_opts wit_store with
  | (Ok res, s') =>
      (map so_Hash (gr_SweptXorbs res), map so_Hash (gr_SweptShards res), gr_Done res,
       mem_at s' kXorbs (formatHash (wit_hash "y"%byte)))
  | _ => ([], [], false, None)
  end = ([formatHash (wit_hash "y"%byte)], [], true, None).
Proof. vm_compute. reflexivity. Qed.

Lemma wit_canonical : canonical (ST := memory_storage (B3 := poly_blake3) (L := rle_lz4) (P := zero_bufs)) wit_store.
Proof.
  intros n o Ho. cbn in Ho. unfold mem_at, mem_get, wit_store in Ho. cbn [m_objects] in Ho.
  rewrite lookup_insert_eq in Ho. cbn in Ho.
  apply lookup_insert_Some in Ho as [[<- _]|[_ Ho]]; [by eexists|].
  apply lookup_singleton_Some in Ho as [<- _]. by eexists.
Qed.

Lemma sweep_keeps_live_witness :
  exists r s',
    sweepPass (ST := memory_storage (B3 := poly_blake3) (L := rle_lz4) (P := zero_bufs)) wit_opts 0 0 wit_store =
      (r, s') /\
    mem_at s' kShards (str "s1") = Some (MkObject (encoded 0 wit_shard false) 0).
Proof.
  destruct (sweepPass (ST := memory_storage (B3 := poly_blake3) (L := rle_lz4) (P := zero_bufs))
    wit_opts 0 0 wit_store) as [r s'] eqn:E.
  exists r, s'. split; [reflexivity|].
  destruct (sweep_keeps_live (SL := memory_laws (B3 := poly_blake3) (L := rle_lz4) (P := zero_bufs))
    wit_opts 0 0 wit_store r s' wit_canonical E) as (_ & H & _).
  apply (H (str "s1")). left. split; [discriminate|].
  exists (formatHash (wit_hash "f"%byte)), (MkObject (str "s1") 0).
  split; vm_compute; reflexivity.
Defined.
