(* ===== verification/GCReport.v ===== *)
(** * The reports of the garbage collector: [storage/gc.go]

    What the result of a pass says.  Proved for every backend that satisfies
    the storage contract: every shard and xorb a pass removed is listed in its
    result, and a step lists no more objects than [MaxDeletes]; and a pass
    that reports [Done] with no unreadable shard has removed every xorb that
    no stored shard references and that is older than the grace window. *)

From Stdlib Require Import ZArith Lia Strings.Byte Strings.String.
From S2P Require Import Prelude Hash Merkle Compression Shard ShardCodec Prog Storage Memory GC.

Section report.
Context {S : Type} {ST : Storage S} {SL : StorageLaws S}.

(** ** Operations on the indexes leave the objects alone *)

(** The shards and the xorbs are those of [s1]. *)
Definition objects_of (s1 s : S) : Prop :=
  forall n, obj_at s kShards n = obj_at s1 kShards n /\ obj_at s kXorbs n = obj_at s1 kXorbs n.

(** Name the state a program starts from. *)
Lemma triple_fix {A} (P E : S -> Prop) (Q : A -> S -> Prop) m :
  (forall sr, P sr -> triple (fun s => same obj_at sr s) m Q E) -> triple P m Q E.
Proof. intros H s Hs. by apply (H s Hs s). Qed.

(** The result lists the same swept objects and is as done. *)
Definition keeps (r r' : SweepResult) : Prop :=
  gr_SweptShards r' = gr_SweptShards r /\ gr_SweptXorbs r' = gr_SweptXorbs r /\ gr_Done r' = gr_Done r.

Lemma objects_of_same s1 s s' : same obj_at s s' -> objects_of s1 s -> objects_of s1 s'.
Proof. intros Hs Ho n. rewrite !Hs. apply Ho. Qed.

Lemma objects_of_read {A} s1 (m : prog S A) R : reads obj_at m R -> preserves (objects_of s1) m.
Proof.
  intros Hm s Hs. destruct (Hm s) as [Hsame _]. destruct (m s) as [[a|e] s']; by eapply objects_of_same.
Qed.

Lemma objects_of_delete {A} s1 k n (m : prog S A) :
  deletes obj_at k n m -> k <> kShards -> k <> kXorbs -> preserves (objects_of s1) m.
Proof.
  intros Hm N1 N2 s Hs. destruct (Hm s) as [Ho _].
  assert (objects_of s1 (m s).2) as H.
  { intros n'. destruct (Hs n') as [<- <-].
    split; [destruct (Ho kShards n') as [->|[[= <- _] _]]|destruct (Ho kXorbs n') as [->|[[= <- _] _]]]; done. }
  by destruct (m s) as [[a|e] s'].
Qed.

Lemma objects_GetFile s1 h : preserves (objects_of s1) (GetFileIndexEntry h).
Proof. eapply objects_of_read, law_GetFileIndexEntry. Qed.
Lemma objects_GetChunk s1 h : preserves (objects_of s1) (GetChunkIndexEntry h).
Proof. eapply objects_of_read, law_GetChunkIndexEntry. Qed.
Lemma objects_GetSHA256 s1 n : preserves (objects_of s1) (GetSHA256IndexEntry n).
Proof. eapply objects_of_read, law_GetSHA256IndexEntry. Qed.
Lemma objects_ctx s1 : preserves (objects_of s1) ctx_Err.
Proof. eapply objects_of_read, law_ctx_Err. Qed.
Lemma objects_now s1 : preserves (objects_of s1) time_Now.
Proof. eapply objects_of_read, law_time_Now. Qed.
Lemma objects_Load s1 n : preserves (objects_of s1) (LoadShard n).
Proof. eapply objects_of_read, law_LoadShard. Qed.
Lemma objects_DeleteFile s1 h : preserves (objects_of s1) (DeleteFileIndexEntry h).
Proof. by eapply objects_of_delete; [apply law_DeleteFileIndexEntry|..]. Qed.
Lemma objects_DeleteChunk s1 h : preserves (objects_of s1) (DeleteChunkIndexEntry h).
Proof. by eapply objects_of_delete; [apply law_DeleteChunkIndexEntry|..]. Qed.
Lemma objects_DeleteSHA256 s1 n : preserves (objects_of s1) (DeleteSHA256IndexEntry n).
Proof. by eapply objects_of_delete; [apply law_DeleteSHA256IndexEntry|..]. Qed.

#[local] Hint Resolve objects_GetFile objects_GetChunk objects_GetSHA256 objects_ctx objects_now objects_Load
  objects_DeleteFile objects_DeleteChunk objects_DeleteSHA256 : preserves.

(** A program that leaves the objects alone and whose result keeps [res]. *)
Definition quiet (s1 : S) (res : SweepResult) (m : prog S SweepResult) : Prop :=
  triple (objects_of s1) m (fun r s => keeps res r /\ objects_of s1 s) (fun _ => True).

Lemma quiet_ret s1 res r : keeps res r -> quiet s1 res (mret r).
Proof. intros Hk. by apply triple_ret. Qed.

Lemma quiet_bind {A} s1 res (m : prog S A) f :
  preserves (objects_of s1) m -> (forall a, quiet s1 res (f a)) -> quiet s1 res (m ≫= f).
Proof.
  intros Hm Hf. eapply triple_bind; [|intros a; apply Hf].
  eapply triple_conseq; [exact Hm|done|done|done].
Qed.

Lemma quiet_seq s1 res (m : prog S SweepResult) f :
  quiet s1 res m -> (forall r, keeps res r -> quiet s1 res (f r)) -> quiet s1 res (m ≫= f).
Proof.
  intros Hm Hf. eapply triple_bind; [exact Hm|]. intros r. apply triple_pure. apply Hf.
Qed.

Lemma keeps_refl r : keeps r r.
Proof. done. Qed.
Lemma keeps_count r r' a b c : keeps r r' -> keeps r (count_entries a b c r').
Proof. by intros (H1 & H2 & H3). Qed.
Create HintDb quiet discriminated.
#[local] Hint Resolve keeps_refl keeps_count quiet_ret quiet_bind quiet_seq : quiet.
#[local] Hint Extern 1 (quiet _ _ (if ?c then _ else _)) => destruct c : quiet.
#[local] Hint Extern 1 (quiet _ _ (match ?c with _ => _ end)) => destruct c : quiet.
#[local] Hint Extern 1 (keeps _ (if ?c then _ else _)) => destruct c : quiet.

Lemma fileEntryPointsAt_objects s1 files h : preserves (objects_of s1) (fileEntryPointsAt files h).
Proof. induction files; cbn [fileEntryPointsAt]; eauto with preserves. Qed.

Lemma sha256EntryPointsAt_objects s1 files h : preserves (objects_of s1) (sha256EntryPointsAt files h).
Proof. induction files; cbn [sha256EntryPointsAt]; eauto with preserves. Qed.

Lemma deleteOwnedSHA256_quiet s1 res r hex h : keeps res r -> quiet s1 res (deleteOwnedSHA256 hex h r).
Proof. unfold deleteOwnedSHA256. eauto 10 with quiet preserves. Qed.

Lemma delete_files_quiet s1 res r files h : keeps res r -> quiet s1 res (delete_files files h r).
Proof.
  revert r. induction files as [|f files IH]; intros r Hr; cbn [delete_files]; [by apply quiet_ret|].
  apply quiet_bind; [eauto with preserves|]. intros v. case_bool_decide; [by apply IH|].
  apply quiet_bind; [eauto with preserves|]. intros [|]; apply IH; eauto with quiet.
Qed.

Lemma delete_sha256s_quiet s1 res r files h : keeps res r -> quiet s1 res (delete_sha256s files h r).
Proof.
  revert r. induction files as [|f files IH]; intros r Hr; cbn [delete_sha256s]; [by apply quiet_ret|].
  destruct (fb_MetadataExt f); [|by apply IH]. case_bool_decide; [by apply IH|].
  apply quiet_seq; [by apply deleteOwnedSHA256_quiet|]. done.
Qed.

Lemma delete_chunks_quiet s1 res r chunks h : keeps res r -> quiet s1 res (delete_chunks chunks h r).
Proof.
  revert r. induction chunks as [|c chunks IH]; intros r Hr; cbn [delete_chunks]; [by apply quiet_ret|].
  apply quiet_bind; [eauto with preserves|]. intros v. case_bool_decide; [by apply IH|].
  apply quiet_bind; [eauto with preserves|]. intros ?. apply IH. eauto with quiet.
Qed.

(** ** One shard *)

(** The objects after [sweepShard] on [h] from those of [s1]. *)
Definition swept_one (s1 : S) (h : gostring) (swept : bool) (s : S) : Prop :=
  forall n, obj_at s kXorbs n = obj_at s1 kXorbs n /\
    (obj_at s kShards n = obj_at s1 kShards n \/ swept = true /\ n = h).

Lemma objects_swept s1 h b s : objects_of s1 s -> swept_one s1 h b s.
Proof. intros Ho n. destruct (Ho n) as [-> ->]. by split; [|left]. Qed.

Lemma sweep_entries_report s1 anchor sh h res :
  triple (objects_of s1) (sweep_entries anchor sh h res)
    (fun p s => keeps res p.2 /\ swept_one s1 h p.1 s) (fun _ => True).
Proof.
  assert (forall (c : bool) (m1 : prog S bool) (m2 : prog S SweepResult) r, preserves (objects_of s1) m1 ->
    quiet s1 res m2 -> keeps res r ->
    triple (objects_of s1) (if c then refd ← m1; mret (refd, r) else r ← m2; mret (false, r))
      (fun p s => keeps res p.2 /\ objects_of s1 s) (fun _ => True)) as Hstep.
  { intros c m1 m2 r H1 H2 Hr. destruct c.
    - eapply triple_bind; [eapply triple_conseq; [exact H1|done..]|]. intros b. by apply triple_ret.
    - eapply triple_bind; [exact H2|]. intros r'. by apply triple_ret. }
  unfold sweep_entries. eapply triple_bind.
  { apply Hstep; [apply fileEntryPointsAt_objects|by apply delete_files_quiet|done]. }
  intros [[|] r1]; apply triple_pure; cbn [fst snd]; intros H1.
  { apply triple_ret. intros s Hs. split; [done|by apply objects_swept]. }
  eapply triple_bind.
  { apply Hstep; [apply sha256EntryPointsAt_objects|by apply delete_sha256s_quiet|done]. }
  intros [[|] r2]; apply triple_pure; cbn [fst snd]; intros H2.
  { apply triple_ret. intros s Hs. split; [done|by apply objects_swept]. }
  eapply triple_bind.
  { instantiate (1 := fun r s => keeps res r /\ objects_of s1 s).
    destruct (hasUnanchorableFile sh); [by apply deleteOwnedSHA256_quiet|by apply triple_ret]. }
  intros r3. apply triple_pure. intros H3.
  eapply triple_bind; [by apply (delete_chunks_quiet s1 res)|]. intros r4. apply triple_pure. intros H4.
  apply (triple_bind _ _ (fun _ s => swept_one s1 h true s)); [|intros ?; by apply triple_ret].
  intros s Hs. destruct (law_DeleteShard h s) as [Ho _].
  assert (swept_one s1 h true (DeleteShard h s).2) as H; [|by destruct (DeleteShard h s) as [[?|?] ?]].
  intros n. destruct (Hs n) as [<- <-]. split.
  - by destruct (Ho kXorbs n) as [->|[[= <- _] _]].
  - destruct (Ho kShards n) as [->|[[= ->] _]]; [by left|by right].
Qed.

Lemma keeps_unreadable res h : keeps res (markUnreadable h res).
Proof. unfold markUnreadable. by case_bool_decide. Qed.

Lemma sweepShard_report s1 anchor h res :
  triple (objects_of s1) (sweepShard anchor h res)
    (fun p s => keeps res p.2 /\ swept_one s1 h p.1 s) (fun _ => True).
Proof.
  eapply triple_catch; [eapply objects_Load|..].
  - intros sh. apply (triple_bind _ _ (fun _ => objects_of s1)).
    + assert (preserves (objects_of s1)
        (if bool_decide (anchor = AnchorSHA256) then sha256_precheck sh h else mret false)) as Hp.
      { unfold sha256_precheck. pose proof (fileEntryPointsAt_objects s1 (s_Files sh) h).
        pose proof (sha256EntryPointsAt_objects s1 (s_Files sh) h). eauto 10 with preserves. }
      by eapply triple_conseq; [exact Hp|..].
    + intros [|]; [|apply sweep_entries_report]. apply triple_ret. intros s Hs.
      split; [done|by apply objects_swept].
  - intros e. destruct (errors_Is e ErrNotExist).
    { apply triple_ret. intros s Hs. split; [done|by apply objects_swept]. }
    destruct (loadAborts e); [by apply triple_throw|]. apply triple_ret. intros s Hs.
    split; [apply keeps_unreadable|by apply objects_swept].
Qed.

(** ** The loops *)

Section loops.
Variables (s0 : S) (dry : bool) (md : Z).

(** The account of a pass so far: what is gone is listed, and the number of
    deletions is within the bound. *)
Definition account (cnt : Z) (res : SweepResult) (s : S) : Prop :=
  gr_Done res = false /\
  (forall n, obj_at s kShards n = obj_at s0 kShards n \/ n ∈ map so_Hash (gr_SweptShards res)) /\
  (forall n, obj_at s kXorbs n = obj_at s0 kXorbs n \/
     n ∈ map so_Hash (gr_SweptXorbs res) /\ obj_at s kXorbs n = None) /\
  (dry = false -> cnt = len (gr_SweptShards res) + len (gr_SweptXorbs res)) /\
  (0 < md -> cnt <= md).

Lemma account_same cnt res s s' : same obj_at s s' -> account cnt res s -> account cnt res s'.
Proof.
  intros Hs (H1 & H2 & H3 & H4). split; [done|]. split; [intros n; rewrite Hs; apply H2|].
  split; [|done]. intros n. rewrite Hs. apply H3.
Qed.

Lemma account_read {A} cnt res (m : prog S A) R : reads obj_at m R -> preserves (account cnt res) m.
Proof.
  intros Hm s Hs. destruct (Hm s) as [Hsame _]. destruct (m s) as [[a|e] s']; by eapply account_same.
Qed.

(** [exhausted] lets the loop go on only below the bound. *)
Lemma exhausted_report (I : S -> Prop) b start cnt :
  preserves I time_Now ->
  triple I (exhausted md b start cnt) (fun stop s => (stop = false -> 0 < md -> cnt < md) /\ I s) I.
Proof.
  intros Hn. unfold exhausted. destruct (Z.ltb_spec 0 md), (Z.leb_spec md cnt); cbn [andb];
    [apply triple_ret; intros; split; [done|done]|..];
    (destruct (_ && _);
      [eapply triple_bind; [exact Hn|]; intros now; apply triple_ret; intros s' Hs'; split; [lia|done]
      |apply triple_ret; intros s' Hs'; split; [lia|done]]).
Qed.

Lemma account_keeps cnt res res' s : keeps res res' -> account cnt res s -> account cnt res' s.
Proof. intros (E1 & E2 & E3). unfold account. by rewrite E1, E2, E3. Qed.

Lemma account_shard cnt o res s s' :
  (dry = false -> 0 < md -> cnt < md) -> account cnt res s ->
  (forall n, obj_at s' kXorbs n = obj_at s kXorbs n /\
     (obj_at s' kShards n = obj_at s kShards n \/ n = so_Hash o)) ->
  account (if dry then cnt else cnt + 1) (swept_shard o res) s'.
Proof.
  intros Hlt (H1 & H2 & H3 & H4 & H5) Hs. unfold account. cbn [swept_shard gr_Done gr_SweptShards gr_SweptXorbs].
  split; [done|]. split; [|split; [|split]].
  - intros n. rewrite map_app, elem_of_app. destruct (Hs n) as [_ [->| ->]].
    + destruct (H2 n); auto.
    + right. right. cbn. by left.
  - intros n. destruct (Hs n) as [-> _]. apply H3.
  - intros ->. rewrite len_app, H4 by done. unfold len; cbn; lia.
  - intros Hmd. destruct dry; [auto|]. specialize (Hlt eq_refl Hmd). lia.
Qed.

Lemma sweep_shards_report anchor b start dead cnt drySwept res :
  triple (account cnt res) (sweep_shards anchor dry md b start dead cnt drySwept res)
    (fun p s => account p.1.1.2 p.2 s) (fun _ => True).
Proof.
  revert cnt drySwept res. induction dead as [|obj dead IH]; intros cnt drySwept res.
  { by apply triple_ret. }
  cbn [sweep_shards]. eapply triple_bind.
  { eapply triple_conseq; [eapply account_read, law_ctx_Err|done..|done]. }
  intros ?. eapply triple_bind.
  { eapply triple_conseq; [eapply exhausted_report, account_read, law_time_Now|done..|done]. }
  intros stop. apply triple_pure. intros Hlt. destruct stop.
  { apply triple_ret. intros s Hs. by eapply account_keeps; [|exact Hs]. }
  specialize (Hlt eq_refl). apply triple_if; intros Edry.
  { eapply triple_conseq; [apply IH| |done|done]. intros s Hs.
    pose proof (account_shard cnt obj res s s) as H. rewrite Edry in H. apply H; [done|done|].
    intros n. split; [done|by left]. }
  apply (triple_bind _ _ (fun (p : bool * SweepResult) s => account (if p.1 then cnt + 1 else cnt)
    (if p.1 then swept_shard obj p.2 else p.2) s)).
  { intros s Hs. pose proof (sweepShard_report s anchor (so_Hash obj) res s) as H.
    destruct (sweepShard anchor (so_Hash obj) res s) as [[[swept r]|e] s']; [|done].
    destruct H as [Hk Ho]; [by intros n|]. cbn [fst snd] in *.
    apply (account_keeps _ _ r) in Hs; [|done]. destruct swept.
    - pose proof (account_shard cnt obj r s s') as H. rewrite Edry in H. apply H; [done|done|].
      intros n. destruct (Ho n) as [-> [->|[_ ->]]]; auto.
    - destruct Hs as (H1 & H2 & H3 & H4). split; [done|]. split; [|split; [|done]]; intros n.
      + destruct (Ho n) as [_ [->|[? _]]]; [apply H2|done].
      + destruct (Ho n) as [-> _]. apply H3. }
  intros [[|] r]; apply IH.
Qed.

(** Phase 1 lists no xorb. *)
Lemma sweep_shards_xorbless anchor b start dead cnt drySwept res :
  gr_SweptXorbs res = [] ->
  triple (fun _ => True) (sweep_shards anchor dry md b start dead cnt drySwept res)
    (fun p _ => gr_SweptXorbs p.2 = []) (fun _ => True).
Proof.
  revert cnt drySwept res. induction dead as [|obj dead IH]; intros cnt drySwept res Hx; [by apply triple_ret|]. cbn [sweep_shards].
  apply (triple_bind _ _ (fun _ _ => True)); [intros s _; by destruct (ctx_Err s) as [[]]|]. intros ?.
  apply (triple_bind _ _ (fun _ _ => True)); [intros s _; by destruct (exhausted _ _ _ _ s) as [[]]|]. intros [|]; [by apply triple_ret|].
  apply triple_if; intros Edry; [by apply IH|].
  apply (triple_bind _ _ (fun (p : bool * SweepResult) _ => gr_SweptXorbs p.2 = [])).
  - intros s _. pose proof (sweepShard_report s anchor (so_Hash obj) res s) as H.
    destruct (sweepShard anchor (so_Hash obj) res s) as [[[swept r]|e] s']; [|done].
    destruct H as [(_ & Hk & _) _]; [by intros n|]. cbn in *. congruence.
  - intros [[|] r]; cbn [fst snd]; intros s Hr; by apply IH.
Qed.

(** ** Phase 2 *)

Lemma sweep_xorbs_unreadable b start dead cnt res :
  triple (fun _ => True) (sweep_xorbs dry md b start dead cnt res)
    (fun r _ => gr_UnreadableShards r = gr_UnreadableShards res) (fun _ => True).
Proof.
  revert cnt res. induction dead as [|obj dead IH]; intros cnt res; [by apply triple_ret|]. cbn [sweep_xorbs].
  apply (triple_bind _ _ (fun _ _ => True)); [intros s _; by destruct (ctx_Err s) as [[]]|]. intros ?.
  apply (triple_bind _ _ (fun _ _ => True)); [intros s _; by destruct (exhausted _ _ _ _ s) as [[]]|]. intros [|]; [by apply triple_ret|].
  apply triple_if; intros Edry; [apply (IH cnt (swept_xorb obj res))|].
  apply (triple_bind _ _ (fun _ _ => True)); [intros s _; by destruct (lift _ s) as [[]]|]. intros h.
  apply (triple_bind _ _ (fun _ _ => True)); [intros s _; by destruct (DeleteXorb h s) as [[]]|].
  intros ?. apply (IH (cnt + 1) (swept_xorb obj res)).
Qed.

Lemma account_xorb cnt o res s s' :
  (dry = false -> 0 < md -> cnt < md) -> account cnt res s ->
  (forall n, obj_at s' kShards n = obj_at s kShards n /\
     (obj_at s' kXorbs n = obj_at s kXorbs n \/ n = so_Hash o /\ obj_at s' kXorbs n = None)) ->
  account (if dry then cnt else cnt + 1) (swept_xorb o res) s'.
Proof.
  intros Hlt (H1 & H2 & H3 & H4 & H5) Hs. unfold account. cbn [swept_xorb gr_Done gr_SweptShards gr_SweptXorbs].
  split; [done|]. split; [|split; [|split]].
  - intros n. destruct (Hs n) as [-> _]. apply H2.
  - intros n. rewrite map_app, elem_of_app. destruct (Hs n) as [_ [->|[-> ->]]].
    + destruct (H3 n) as [|[? ?]]; auto.
    + right. split; [|done]. right. cbn. by left.
  - intros ->. rewrite len_app, H4 by done. unfold len; cbn; lia.
  - intros Hmd. destruct dry; [auto|]. specialize (Hlt eq_refl Hmd). lia.
Qed.

(** The account at the end, where the pass may be done. *)
Definition final_account (res : SweepResult) (s : S) : Prop :=
  (forall n, obj_at s kShards n = obj_at s0 kShards n \/ n ∈ map so_Hash (gr_SweptShards res)) /\
  (forall n, obj_at s kXorbs n = obj_at s0 kXorbs n \/ n ∈ map so_Hash (gr_SweptXorbs res)) /\
  (0 < md -> dry = false -> len (gr_SweptShards res) + len (gr_SweptXorbs res) <= md).

Lemma account_final cnt res res' s :
  account cnt res s -> gr_SweptShards res' = gr_SweptShards res -> gr_SweptXorbs res' = gr_SweptXorbs res ->
  final_account res' s.
Proof.
  intros (_ & H2 & H3 & H4 & H5) E1 E2. unfold final_account. rewrite E1, E2.
  split; [done|]. split; [intros n; destruct (H3 n) as [|[? ?]]; auto|].
  intros Hmd Hd. rewrite <- H4 by done. auto.
Qed.

(** The queued xorbs that are gone when the loop reports [Done]. *)
Lemma sweep_xorbs_report b start dead cnt res (gone : list gostring) :
  Forall (fun o => exists h : XorbHash, so_Hash o = formatHash h) dead ->
  triple (fun s => account cnt res s /\ (dry = false -> Forall (fun n => obj_at s kXorbs n = None) gone))
    (sweep_xorbs dry md b start dead cnt res)
    (fun r s => final_account r s /\ (gr_Done r = true -> dry = false ->
       Forall (fun n => obj_at s kXorbs n = None) (gone ++ map so_Hash dead))) (fun _ => True).
Proof.
  intros Hd. revert cnt res gone. induction Hd as [|obj dead [h Hh] _ IH]; intros cnt res gone.
  { apply triple_ret. intros s [Hs Hg]. split; [by eapply account_final|]. intros _ Hdry.
    cbn [map]. rewrite app_nil_r. auto. }
  set (I := fun s => account cnt res s /\ (dry = false -> Forall (fun n => obj_at s kXorbs n = None) gone)).
  assert (forall A (m : prog S A) R, reads obj_at m R -> preserves I m) as Hread.
  { intros A m R Hm s [Hs Hg]. destruct (Hm s) as [Hsame _].
    assert (I (m s).2) as HI; [|by destruct (m s) as [[?|?] ?]].
    split; [by eapply account_same|]. intros Hdry. eapply Forall_impl; [by apply Hg|]. intros n. by rewrite Hsame. }
  cbn [sweep_xorbs]. eapply triple_bind.
  { eapply triple_conseq; [eapply Hread, law_ctx_Err|done..|done]. }
  intros ?. eapply triple_bind.
  { eapply triple_conseq; [eapply exhausted_report, Hread, law_time_Now|done..|done]. }
  intros stop. apply triple_pure. intros Hlt. destruct stop.
  { apply triple_ret. intros s [Hs Hg]. split; [by eapply account_final|].
    destruct Hs as (E & _). cbn. congruence. }
  specialize (Hlt eq_refl). apply triple_if; intros Edry.
  { eapply triple_conseq; [apply (IH cnt (swept_xorb obj res) gone)| | |done].
    - intros s [Hs Hg]. split; [|congruence]. pose proof (account_xorb cnt obj res s s) as H.
      rewrite Edry in H. apply H; [done|done|]. intros n. split; [done|by left].
    - intros r s [H1 H2]. split; [done|]. congruence. }
  rewrite Hh, parse_formatHash. cbn [wrap_err].
  apply (triple_bind _ _ (fun h' s => h' = h /\ I s)); [by intros s Hs|].
  intros h'. apply triple_pure. intros ->.
  apply (triple_bind _ _ (fun _ s => account (cnt + 1) (swept_xorb obj res) s /\
    (dry = false -> Forall (fun n => obj_at s kXorbs n = None) (gone ++ [so_Hash obj])))).
  - intros s [Hs Hg]. destruct (law_DeleteXorb h s) as [Ho HN].
    destruct (DeleteXorb h s) as [[[]|e] s']; [|done]. cbn [fst snd] in *. split.
    + pose proof (account_xorb cnt obj res s s') as H. rewrite Edry in H. apply H; [done|done|].
      intros n. rewrite Hh. split; [by destruct (Ho kShards n) as [->|[[= <- _] _]]|].
      destruct (Ho kXorbs n) as [->|[[= ->] ->]]; auto.
    + intros _. apply Forall_app. split; [|constructor; [rewrite Hh; by apply (HN tt)|constructor]].
      eapply Forall_impl; [by apply Hg|]. intros n Hn.
      destruct (Ho kXorbs n) as [->|[_ ->]]; done.
  - intros ?. eapply triple_conseq; [apply (IH (cnt + 1) (swept_xorb obj res) (gone ++ [so_Hash obj]))
      |intros s H; exact H| |done].
    intros r s [H1 H2]. split; [done|]. cbn [map]. rewrite <- app_assoc in H2. exact H2.
Qed.

(** While xorbs are deleted, the shards of [sr] stay and no xorb is added. *)
Definition shrinks (sr s : S) : Prop :=
  (forall n, obj_at s kShards n = obj_at sr kShards n) /\
  (forall n o, obj_at s kXorbs n = Some o -> obj_at sr kXorbs n = Some o).

Lemma shrinks_same sr s s' : same obj_at s s' -> shrinks sr s -> shrinks sr s'.
Proof. intros Hs [H1 H2]. split; intros n; rewrite Hs; auto. Qed.

Lemma shrinks_read {A} sr (m : prog S A) R : reads obj_at m R -> preserves (shrinks sr) m.
Proof.
  intros Hm s Hs. destruct (Hm s) as [Hsame _]. destruct (m s) as [[a|e] s']; by eapply shrinks_same.
Qed.

Lemma shrinks_delete sr h : preserves (shrinks sr) (DeleteXorb h).
Proof.
  intros s [H1 H2]. destruct (law_DeleteXorb h s) as [Ho _].
  assert (shrinks sr (DeleteXorb h s).2) as H; [|by destruct (DeleteXorb h s) as [[?|?] ?]]. split; intros n.
  - by destruct (Ho kShards n) as [->|[[= <- _] _]].
  - destruct (Ho kXorbs n) as [->|[_ ->]]; [apply H2|done].
Qed.

Lemma sweep_xorbs_shrinks sr b start dead cnt res :
  preserves (shrinks sr) (sweep_xorbs dry md b start dead cnt res).
Proof.
  assert (preserves (shrinks sr) ctx_Err) as Hc by (eapply shrinks_read, law_ctx_Err).
  assert (preserves (shrinks sr) time_Now) as Hn by (eapply shrinks_read, law_time_Now).
  pose proof (shrinks_delete sr) as Hd.
  revert cnt res. induction dead as [|obj dead IH]; intros cnt res; cbn [sweep_xorbs]; unfold exhausted;
    eauto 20 with preserves.
Qed.

Definition referenced (s : S) (x : gostring) : Prop :=
  exists n o sh, obj_at s kShards n = Some o /\ decodes o sh /\ references sh x.

(** The marked xorbs are really referenced. *)
Lemma mark_xorbs_sound sr drySwept res :
  triple (fun s => same obj_at sr s) (WalkShards (mark_xorbs drySwept) (∅ : gset gostring, res))
    (fun st s => keeps res st.2 /\ (forall x, x ∈ st.1 -> referenced sr x) /\ same obj_at sr s) (fun _ => True).
Proof.
  eapply triple_conseq.
  - apply (walk_triple kShards obj_info (@WalkShards S _) sr (mark_xorbs drySwept)
      (fun seen st s => keeps res st.2 /\ (forall x, x ∈ st.1 -> referenced sr x) /\ same obj_at sr s)
      (fun _ => True)); [apply law_WalkShards|..]; [|done|apply mark_xorbs_looks|].
    + intros seen st s1 s2 H12 (H1 & H2 & H3). split; [done|]. split; [done|]. intros k n. by rewrite H12, H3.
    + intros seen n o [refX r] Hn Ho s (Hk & Hr & Hs). cbn [fst snd] in *. unfold mark_xorbs.
      destruct (_ || _); [done|]. unfold catch. destruct (law_LoadShard n s) as [Hsame HOk].
      destruct (LoadShard n s) as [[sh|e] s']; cbn [fst snd] in *;
        assert (same obj_at sr s') as Hs' by (intros k m; by rewrite Hsame, Hs).
      * split; [done|]. split; [|done]. intros x [Hx|Hx]%elem_of_markShardXorbs; [by apply Hr|].
        destruct (HOk sh eq_refl) as (o' & sh0 & Ho' & Hdec & HF & HC).
        exists n, o', sh0. rewrite <- Hs. split; [done|]. split; [done|]. unfold references in *. by rewrite <- HF, <- HC.
      * destruct (errors_Is e ErrNotExist); [done|]. destruct (loadAborts e); [done|].
        split; [|done]. cbn [snd]. pose proof (keeps_unreadable r n) as (E1 & E2 & E3).
        destruct Hk as (K1 & K2 & K3). split; [congruence|]. split; congruence.
  - intros s Hs. split; [done|]. split; [done|]. split; [|done]. intros x Hx. by apply elem_of_empty in Hx.
  - intros st s (seen & _ & H). exact H.
  - done.
Qed.

(** Every stored xorb is marked, recent or queued. *)
Lemma mark_dead_complete sr refX cutoff res :
  (forall n o, obj_at sr kXorbs n = Some o -> exists h : XorbHash, n = formatHash h) ->
  triple (fun s => same obj_at sr s) (WalkXorbs (mark_dead_xorb refX cutoff) ([], res))
    (fun st s => keeps res st.2 /\ Forall (fun o => exists h : XorbHash, so_Hash o = formatHash h) st.1 /\
      gr_UnreadableShards st.2 = gr_UnreadableShards res /\
      (forall n o, obj_at sr kXorbs n = Some o ->
         n ∈ refX \/ cutoff <= o_modTime o \/ n ∈ map so_Hash st.1) /\ same obj_at sr s) (fun _ => True).
Proof.
  intros Hc. eapply triple_conseq.
  - apply (walk_triple kXorbs obj_info (@WalkXorbs S _) sr (mark_dead_xorb refX cutoff)
      (fun seen st s => keeps res st.2 /\ Forall (fun o => exists h : XorbHash, so_Hash o = formatHash h) st.1 /\
        gr_UnreadableShards st.2 = gr_UnreadableShards res /\
        (forall n o, n ∈ seen -> obj_at sr kXorbs n = Some o ->
           n ∈ refX \/ cutoff <= o_modTime o \/ n ∈ map so_Hash st.1) /\ same obj_at sr s)
      (fun _ => True)); [apply law_WalkXorbs|..]; [|done|done|].
    + intros seen st s1 s2 H12 (H1 & H2 & H3 & H4 & H5). repeat (split; [done|]). intros k n. by rewrite H12, H5.
    + intros seen n o [dead r] Hn Ho. apply triple_ret. cbn [fst snd]. intros s (H1 & H2 & H3 & H4 & H5).
      assert (forall n' o', n' ∈ seen ++ [n] -> obj_at sr kXorbs n' = Some o' -> n' ∈ seen \/ n' = n /\ o' = o) as Hcase.
      { intros n' o' [?|Hn']%elem_of_app Ho'; [by left|]. apply list_elem_of_singleton in Hn' as ->.
        right. split; [done|congruence]. }
      unfold mark_dead_xorb. case_bool_decide as Hr; [|destruct (Z.ltb_spec (obj_info o).2 cutoff) as [Hlt|Hge];
        cbn [negb fst snd]].
      * cbn [fst snd]. repeat (split; [done|]). split; [|done]. intros n' o' Hn' Ho'.
        destruct (Hcase _ _ Hn' Ho') as [?|[-> ->]]; [by apply H4|by left].
      * split; [done|]. split; [apply Forall_app; split; [done|constructor; [by eapply Hc|constructor]]|].
        split; [done|]. split; [|done]. intros n' o' Hn' Ho'. rewrite map_app, elem_of_app.
        destruct (Hcase _ _ Hn' Ho') as [Hin|[-> ->]].
        -- destruct (H4 _ _ Hin Ho') as [?|[?|?]]; auto.
        -- right. right. right. cbn. by left.
      * repeat (split; [done|]). split; [|done]. intros n' o' Hn' Ho'.
        destruct (Hcase _ _ Hn' Ho') as [?|[-> ->]]; [by apply H4|]. right. by left.
  - intros s Hs. split; [done|]. split; [done|]. split; [constructor|]. split; [done|]. split; [|done].
    intros n o Hn. by apply elem_of_nil in Hn.
  - intros st s (seen & Hseen & H1 & H2 & H3 & H4 & H5). repeat (split; [done|]). split; [|done].
    intros n o Ho. apply (H4 n o); [|done]. apply Hseen. by rewrite Ho.
  - done.
Qed.

(** A pass that met an unreadable shard deletes no xorb. *)
Definition spared (r : SweepResult) (s : S) : Prop :=
  gr_UnreadableShards r <> [] -> forall n, obj_at s kXorbs n = obj_at s0 kXorbs n.

Lemma account_spared cnt res r s : account cnt res s -> gr_SweptXorbs res = [] -> spared r s.
Proof. intros (_ & _ & H & _) E _ n. destruct (H n) as [|[Hn _]]; [done|]. rewrite E in Hn. by apply not_elem_of_nil in Hn. Qed.

Definition complete (cutoff : Z) (r : SweepResult) (s : S) : Prop :=
  spared r s /\ (gr_Done r = true -> gr_UnreadableShards r = [] -> dry = false ->
  forall x o, obj_at s kXorbs x = Some o -> referenced s x \/ cutoff <= o_modTime o).

Lemma sweep_phase2_report b cutoff start cnt drySwept res :
  canonical s0 -> gr_SweptXorbs res = [] ->
  triple (account cnt res) (sweep_phase2 dry md b cutoff start cnt drySwept res)
    (fun r s => final_account r s /\ complete cutoff r s) (fun _ => True).
Proof.
  intros Hc Hsx. eapply triple_bind.
  { eapply triple_conseq; [eapply account_read, law_time_Now|done..|done]. }
  intros t. apply triple_fix. intros sr Hsr.
  apply (triple_bind (fun s => same obj_at sr s) (fun _ => True) (fun st s => keeps res st.2 /\
    (forall x, x ∈ st.1 -> referenced sr x) /\ same obj_at sr s)); [apply mark_xorbs_sound|].
  intros [refX res1] s (Hk & Hsound & Hs). revert s Hs. cbn [fst snd] in *.
  apply (account_keeps _ _ res1) in Hsr; [|done]. case_bool_decide as Hu.
  { apply triple_ret. intros s Hs. apply (account_same _ _ _ s) in Hsr; [|done]. split; [by eapply account_final|]. split; [|by intros _ ?].
    eapply account_spared; [exact Hsr|]. destruct Hk as (_ & -> & _). done. }
  eapply triple_bind.
  { apply (mark_dead_complete sr refX cutoff res1). intros n o Ho. apply (Hc n o).
    destruct Hsr as (_ & _ & H3 & _). destruct (H3 n) as [<-|[_ E]]; [done|congruence]. }
  intros [dead res2] s (Hk2 & Hcan & Hun & Hall & Hs). cbn [fst snd] in *.
  apply (account_keeps _ _ res2) in Hsr; [|done]. revert s Hs.
  apply (triple_bind (fun s => same obj_at sr s) (fun _ => True) (fun _ s => same obj_at sr s)).
  { intros s Hs. destruct (law_time_Now s) as [Hsame _]. destruct (time_Now s) as [[?|?] s']; [|done].
    intros k n. by rewrite Hsame, Hs. }
  intros now. eapply triple_conseq; [apply triple_and;
    [apply (sweep_xorbs_report b _ dead cnt res2 [] Hcan)|apply triple_and; [apply (sweep_xorbs_shrinks sr)|apply sweep_xorbs_unreadable]]|..].
  - intros s Hs. split; [split; [by eapply account_same|constructor]|]. split; [|done].
    split; intros n; rewrite Hs; auto.
  - intros r s [[H1 H2] [[H3 H4] H5]]. split; [done|]. split; [intros Hx; by rewrite H5, Hun in Hx|]. intros Hd _ Hdry x o Ho.
    destruct (Hall x o (H4 _ _ Ho)) as [Hx|[?|Hx]]; [|by right|].
    + left. destruct (Hsound x Hx) as (n & on & sh & Hn & Hx'). exists n, on, sh. by rewrite H3.
    + specialize (H2 Hd Hdry). rewrite Forall_forall in H2. rewrite (H2 x Hx) in Ho. done.
  - done.
Qed.
End loops.

(** ** The pass *)

(** A walk whose callback only computes. *)
Lemma walk_pure {X A} kind (info : object -> X)
    (walk : forall A, (gostring -> X -> A -> prog S A) -> A -> prog S A) sr
    (fn : gostring -> X -> A -> prog S A) (R : A -> Prop) acc :
  walks obj_at kind info walk -> looks obj_at fn -> R acc ->
  (forall n x a, R a -> exists a', fn n x a = mret a' /\ R a') ->
  triple (fun s => same obj_at sr s) (walk A fn acc) (fun a s => R a /\ same obj_at sr s) (fun _ => True).
Proof.
  intros Hw Hlook HR Hfn. eapply triple_conseq.
  - apply (walk_triple kind info walk sr fn (fun _ a s => R a /\ same obj_at sr s) (fun _ => True)); [done|..]; [|done|done|].
    + intros seen a s1 s2 H12 [H1 H2]. split; [done|]. intros k n. by rewrite H12, H2.
    + intros seen n o a Hn Ho s [Ha Hs]. destruct (Hfn n (info o) a Ha) as (a' & -> & Ha'). by split.
  - intros s Hs. by split.
  - intros a s (seen & _ & H). exact H.
  - done.
Qed.

Lemma same_read {A} sr (m : prog S A) R :
  reads obj_at m R -> triple (fun s => same obj_at sr s) m (fun _ s => same obj_at sr s) (fun _ => True).
Proof.
  intros Hm s Hs. destruct (Hm s) as [Hsame _]. destruct (m s) as [[?|?] s']; [|done]. intros k n. by rewrite Hsame, Hs.
Qed.

(** The pass after the clock is read. *)
Lemma sweep_rest_report opts md b s0 cutoff :
  canonical s0 ->
  triple (fun s => same obj_at s0 s)
   (sweep_marked opts md b cutoff)
    (fun r s => final_account s0 (opt_DryRun opts) md r s /\ complete s0 (opt_DryRun opts) cutoff r s) (fun _ => True).
Proof.
  intros Hc. unfold sweep_marked. eapply triple_bind.
  { apply (walk_pure kFiles o_data (@WalkFileIndex S _) s0 mark_file (fun _ => True)); [apply law_WalkFileIndex|done|done|].
    intros n x a _. by eexists. }
  intros fileRefs. apply triple_pure. intros _.
  apply (triple_bind _ _ (fun _ s => same obj_at s0 s)).
  { destruct (bool_decide _); [|by apply triple_ret]. eapply triple_weaken.
    - apply (walk_pure kSHA256 o_data (@WalkSHA256Index S _) s0 mark_sha256 (fun _ => True));
        [apply law_WalkSHA256Index|done|done|]. intros n x a _. by eexists.
    - by intros a s [_ H]. }
  intros shaRefs. eapply triple_bind.
  { apply (walk_pure kShards obj_info (@WalkShards S _) s0 (mark_shard (opt_Anchor opts) fileRefs shaRefs cutoff)
      (fun st => keeps (empty_result (opt_DryRun opts)) (ms_res st))); [apply law_WalkShards|done|done|].
    intros n x st Hk. eexists. split; [reflexivity|]. by repeat case_match. }
  intros st. apply triple_pure. intros (K1 & K2 & K3). cbv zeta.
  eapply triple_bind; [eapply same_read, law_time_Now|]. intros start.
  eapply triple_bind.
  { eapply triple_conseq; [apply triple_and; [apply sweep_shards_report|apply sweep_shards_xorbless]| |intros ? ? H; exact H|done]; [exact K2|].
    intros s Hs. split; [|done]. unfold account. cbn [set_dangling gr_Done gr_SweptShards gr_SweptXorbs]. rewrite K1, K2, K3.
    split; [done|]. split; [intros n; left; apply Hs|]. split; [intros n; left; apply Hs|]. split; [done|lia]. }
  intros [[[stopped cnt] drySwept] res] s [Hacc Hsx]. cbn [fst snd] in *. revert s Hacc.
  assert (forall s, account s0 (opt_DryRun opts) md cnt res s ->
    final_account s0 (opt_DryRun opts) md res s /\ complete s0 (opt_DryRun opts) cutoff res s) as Hend.
  { intros s Hs. split; [by eapply account_final|]. split; [by eapply account_spared|]. destruct Hs as (E & _). intros E'. congruence. }
  destruct stopped; [by apply triple_ret|]. eapply triple_bind.
  { eapply triple_conseq; [eapply exhausted_report, account_read, law_time_Now|done..|done]. }
  intros stop. apply triple_pure. intros _. destruct stop; [by apply triple_ret|].
  by apply sweep_phase2_report.
Qed.

Lemma sweepPass_report opts md b s0 res s' :
  canonical s0 -> sweepPass opts md b s0 = (Ok res, s') ->
  final_account s0 (opt_DryRun opts) md res s' /\
  exists now, (time_Now (ctx_Err s0).2).1 = Ok now /\
    complete s0 (opt_DryRun opts) (sweep_cutoff opts now) res s'.
Proof.
  intros Hc H. unfold sweepPass in H. destruct (law_ctx_Err s0) as [Hs1 _].
  destruct (ctx_Err s0) as [[[]|e] s1] eqn:E1; [|unfold mbind, prog_bind in H; by rewrite E1 in H].
  rewrite (prog_bind_Ok _ _ _ _ _ E1) in H. destruct (negb _); [done|]. cbn [snd] in *.
  destruct (law_time_Now s1) as [Hs2 _].
  destruct (time_Now s1) as [[now|e] s2] eqn:E2; [|unfold mbind, prog_bind in H; by rewrite E2 in H].
  rewrite (prog_bind_Ok _ _ _ _ _ E2) in H. cbn [snd] in *.
  pose proof (sweep_rest_report opts md b s0 (sweep_cutoff opts now) Hc s2) as Hr. rewrite H in Hr.
  destruct Hr as [H1 H2]; [intros k n; by rewrite Hs2, Hs1|]. split; [done|]. by exists now.
Qed.

(** The report of a pass accounts for what it removed.  When a pass
    succeeds, every shard and every xorb that was stored before and is not
    afterwards is listed among the swept objects of its result, and a pass
    bounded by [maxDeletes] that is not a dry run lists at most that many. *)
Theorem sweep_report opts md b s res s' :
  canonical s -> sweepPass opts md b s = (Ok res, s') ->
  (forall n, is_Some (obj_at s kShards n) -> obj_at s' kShards n = None ->
     n ∈ map so_Hash (gr_SweptShards res)) /\
  (forall n, is_Some (obj_at s kXorbs n) -> obj_at s' kXorbs n = None ->
     n ∈ map so_Hash (gr_SweptXorbs res)) /\
  (0 < md -> opt_DryRun opts = false -> len (gr_SweptShards res) + len (gr_SweptXorbs res) <= md).
Proof.
  intros Hc H. destruct (sweepPass_report _ _ _ _ _ _ Hc H) as [(H1 & H2 & H3) _].
  split; [|split; [|done]]; intros n [o Ho] HN.
  - destruct (H1 n) as [E|]; [congruence|done].
  - destruct (H2 n) as [E|]; [congruence|done].
Qed.

(** C27 what a pass that reports [Done] has achieved.  If it was no dry run and
    lists no unreadable shard, every xorb that is still stored is referenced by
    a stored shard, or was written at or after the cutoff that the grace window
    sets from the clock reading at its start.  If it lists an unreadable shard,
    it deleted no xorb; and a dry run deleted nothing. *)
Theorem sweep_complete opts md b s res s' :
  canonical s -> sweepPass opts md b s = (Ok res, s') -> gr_Done res = true ->
  (opt_DryRun opts = false -> gr_UnreadableShards res = [] ->
     exists now, (time_Now (ctx_Err s).2).1 = Ok now /\
       forall x o, obj_at s' kXorbs x = Some o -> referenced s' x \/ sweep_cutoff opts now <= o_modTime o) /\
  (gr_UnreadableShards res <> [] -> forall x, obj_at s' kXorbs x = obj_at s kXorbs x) /\
  (opt_DryRun opts = true -> same obj_at s s').
Proof.
  intros Hc H HD. destruct (sweepPass_report _ _ _ _ _ _ Hc H) as [_ (now & Hn & Hsp & Hcomp)].
  split; [intros Hd HU; exists now; by split; [|apply Hcomp]|]. split; [done|].
  assert (still s s) as Hs by done. pose proof (sweepPass_safe opts md b s Hc s Hs) as Hsafe. rewrite H in Hsafe. apply Hsafe.
Qed.
End report.

(** ** Witnesses *)

(** The pass over the store of [wit_store], which succeeds. *)
Definition wit_result : SweepResult :=
  match sweepPass (ST := memory_storage (B3 := poly_blake3) (L := rle_lz4) (P := zero_bufs)) wit_opts 0 0 wit_store with
  | (Ok res, _) => res
  | _ => empty_result false
  end.

Definition wit_after : memory :=
  (sweepPass (ST := memory_storage (B3 := poly_blake3) (L := rle_lz4) (P := zero_bufs)) wit_opts 0 0 wit_store).2.

Lemma wit_pass :
  sweepPass (ST := memory_storage (B3 := poly_blake3) (L := rle_lz4) (P := zero_bufs)) wit_opts 0 0 wit_store =
    (Ok wit_result, wit_after).
Proof.
  unfold wit_result, wit_after.
  assert (match sweepPass (ST := memory_storage (B3 := poly_blake3) (L := rle_lz4) (P := zero_bufs))
    wit_opts 0 0 wit_store with (Ok _, _) => true | _ => false end = true) as H by (vm_compute; reflexivity).
  by destruct (sweepPass wit_opts 0 0 wit_store) as [[res|e] s'].
Qed.

Lemma sweep_report_witness :
  formatHash (wit_hash "y"%byte) ∈ map so_Hash (gr_SweptXorbs wit_result).
Proof.
  destruct (sweep_report (SL := memory_laws (B3 := poly_blake3) (L := rle_lz4) (P := zero_bufs))
    wit_opts 0 0 wit_store wit_result wit_after wit_canonical wit_pass) as (_ & H & _).
  apply (H (formatHash (wit_hash "y"%byte))).
  - exists (MkObject (str "garbage") 0). vm_compute. reflexivity.
  - vm_compute. reflexivity.
Defined.

(** The xorb that the pass left is referenced: it is older than the cutoff. *)
Lemma sweep_complete_witness :
  mem_at wit_after kXorbs (formatHash (wit_hash "x"%byte)) = Some (MkObject (str "used") 0) /\
  mem_at wit_after kXorbs (formatHash (wit_hash "y"%byte)) = None /\
  referenced (SL := memory_laws (B3 := poly_blake3) (L := rle_lz4) (P := zero_bufs)) wit_after (formatHash (wit_hash "x"%byte)).
Proof.
  split; [vm_compute; reflexivity|]. split; [vm_compute; reflexivity|].
  destruct (sweep_complete (SL := memory_laws (B3 := poly_blake3) (L := rle_lz4) (P := zero_bufs))
    wit_opts 0 0 wit_store wit_result wit_after wit_canonical wit_pass) as [H _]; [vm_compute; reflexivity|].
  destruct H as (now & Hn & H); [reflexivity|vm_compute; reflexivity|]. vm_compute in Hn. injection Hn as <-.
  destruct (H (formatHash (wit_hash "x"%byte)) (MkObject (str "used") 0)) as [Hr|Hle]; [vm_compute; reflexivity|exact Hr|].
  exfalso. vm_compute in Hle. by apply Hle.
Defined.
